(* ===== verification/_CoqProject ===== *)
-Q . S2P
Prelude.v
Frame.v
LinkedList.v
RangeList.v
Buddy.v
BuddyInv.v
BuddyLists.v
BuddyProof.v
BuddyBoot.v
BuddySpec.v
BuddyTheorems.v
Path.v
Poll.v
Errno.v
Pipe.v
EventFd.v
Epoll.v
EpollProof.v
Signal.v
SignalProof.v
SignalFd.v
Itimer.v
TimerFd.v
TimerFdProof.v
TimerFdTheorems.v
PageTable.v
MapperProof.v
X86Paging.v
MapperTheorems.v
Image.v
ImageProof.v
Vma.v
VmaProof.v
MmapRegion.v
UserSpace.v
SpaceApi.v
SpaceInv.v
SpaceProof.v
SpaceFault.v
SpaceFork.v
SpaceDemo.v
SpaceTheorems.v
StackProof.v
MemFile.v
MmapCalls.v
MmapTheorems.v
MemFileProof.v
PageCache.v
PageCacheTheorems.v
Node.v
Namespace.v
Rootfs.v
NodeProof.v
LinkProof.v
LookupProof.v
RootfsProof.v
RootfsCalls.v
RootfsTheorems.v
Fd.v
FdProof.v
FdTheorems.v
Unix.v
UnixProof.v
UnixCalls.v
UnixConnect.v
UnixSteps.v
Socket.v
UnixTheorems.v
Process.v
ProcessProof.v
ProcessWake.v
ProcessInv.v
ProcessEnd.v
ProcessSched.v
ProcessSteps.v
ProcessTheorems.v
Block.v
BlockProof.v
PartitionProof.v
ExecProof.v
