(* ===== verification/Prelude.v ===== *)
(** * Aether kernel: a verification development (root file)

    Aether is a small Unix-like kernel in Rust for x86_64.  [aether-frame] is
    the machine layer (physical frames, page tables, traps), [aether-kernel]
    the kernel proper with its libraries: the virtual file system
    ([aether-vfs]), address spaces and program images ([aether-process]) and
    file systems.  This library models its core logic and proves it correct.

    * How the sources are translated

    A pure Rust function is a Rocq function.  A method with [&mut self] is a
    function of the state monad [M] of this file, which keeps the state on
    every outcome, because an early return with [?] keeps the writes made
    before it.  [Result] becomes [Ok] and [Err]; [Panic] is an index out of
    range, a failed [expect] or an arithmetic overflow (the sources are read
    with overflow checks, so a theorem without [Panic] also says that nothing
    wraps); [Diverge] is a loop that used up its fuel.  A loop that is not
    structural takes a fuel that the theorems show to be enough: the number of
    nodes of the pool for the lists of the allocator, the number of bytes that
    are left for the copies between kernel and user memory, the number of
    entries for the page cache, the deadlines that are due for the timers.
    [usize] and [u64] are integers of [Z] whose range is a hypothesis or an
    invariant.  [Vec] and slices are lists, [BTreeMap] and [HashMap] are
    [gmap], trait objects are records or classes of operations.  [wp_res] is
    total correctness: the run ends in [Ok] or [Err], and the state satisfies
    the postcondition of that branch.

    * The parts

    - Frames ([aether-frame/src/mm/address.rs], [frame.rs]): [Frame];
      [FrameApi] in it is the trait [FrameAllocator] as a class of operations
      with a class of laws over the map of allocated blocks.
    - The buddy allocator ([mm/buddy.rs]): [RangeList] (usable ranges of the
      memory map), [LinkedList] (lists linked by indices), [Buddy] (node pool,
      per-CPU caches, global free lists, reference counts, all operations),
      [BuddyInv] (the invariant), [BuddyLists], [BuddyProof], [BuddyBoot]
      (construction), [BuddySpec] (refinement of the laws of [FrameApi]) and
      [BuddyTheorems].
    - Page tables ([mm/mapper.rs], [arch/x86_64/mm/paging.rs], [mm/mod.rs]):
      [PageTable], [MapperProof], [X86Paging] (the entry format satisfies what
      the editor relies on) and [MapperTheorems], over any allocator with the
      laws of [FrameApi].
    - Program images ([aether-process/src/image.rs]): [Image], [ImageProof].
    - Address spaces ([aether-process/src/process.rs], [layout.rs]): [Vma] and
      [VmaProof] (areas), [UserSpace] (every operation of
      [UserAddressSpaceInner]: mappings, demand paging, copy on write, [fork],
      [mmap], [brk], copies from and to user memory).  [SpaceApi] states what
      they rely on; [SpaceInv] is the invariant of several spaces over one
      machine (exact reference counts, a frame that can be written without a
      fault has one owner); [SpaceProof], [SpaceFault] and
      [SpaceFork] are the rules of the operations, [SpaceTheorems] the theorems
      and [SpaceDemo] a small machine on which they are run.  [Image] also
      holds the searches of the standard library in sorted slices.
      [StackProof] models the builders of programs with the initial stack and
      shows that the stack is what the System V ABI promises.
    - Memory system calls ([src/syscall/handlers/memory/], the regions of
      [src/process.rs]): [MmapRegion] (the recorded regions), [MmapCalls] (the
      handlers over regions and address space), [MmapTheorems].
    - The page cache ([aether-vfs/src/page_cache.rs]): [PageCache],
      [PageCacheTheorems].
    - Paths ([aether-vfs/src/path.rs]): [Path].
    - Readiness ([aether-vfs/src/wait.rs], parts of [file.rs] and [node.rs]):
      [Poll]; error numbers ([src/errno.rs]): [Errno].
    - Memory files ([aether-vfs/src/node.rs]: the memory files, the shared
      pages with their seals): [MemFile], [MemFileProof].
    - Nodes ([aether-vfs/src/node.rs], [inode.rs], the lock state of
      [file.rs]): [Node] keeps directories, files and symbolic links in a heap
      of nodes that the [Arc]s of the code point into; [NodeProof] gives their
      operations as changes of a tree and [LinkProof] counts its links.
    - Mounts ([src/rootfs/namespace.rs]): [Namespace].
    - Names ([src/rootfs/mod.rs], [filesystem.rs]): [Rootfs] has the name
      operations of [RootfsManager] with lookup through mounts and links,
      [LookupProof] shows that lookup is a function of tree and mounts,
      [RootfsProof] and [RootfsCalls] have a rule for every operation and
      [RootfsTheorems] the theorems; [ExecProof] is the resolution
      of programs and of their script interpreters.
    - Descriptors: pipes ([aether-fs/src/pipe.rs]): [Pipe]; event counters
      ([src/fs/eventfd.rs]): [EventFd]; epoll ([aether-vfs/src/epoll.rs]):
      [Epoll], [EpollProof]; signal descriptors ([src/signal/fd.rs]):
      [SignalFd].
    - Signals ([src/signal/abi.rs], [core.rs], [state.rs]): [Signal],
      [SignalProof].
    - Interval timers ([src/process/itimer.rs]): [Itimer]; timer descriptors
      ([src/fs/timerfd.rs]): [TimerFd], [TimerFdProof] (the indices of
      deadlines and the sweep), [TimerFdTheorems].
    - Descriptor tables ([src/fs/fd.rs], the open files of
      [aether-vfs/src/file.rs], the handlers of [dup], [close], [fcntl]):
      [Fd], [FdProof] (owners and their counts), [FdTheorems].
    - Block devices ([aether-fs/src/block.rs], [aether-drivers/src/block/]):
      [Block], [BlockProof]; their partition tables:
      [PartitionProof].
    - Sockets: Unix domain sockets ([src/net/unix.rs]): [Unix], [UnixProof]
      (the invariant and the queues), [UnixCalls] (sending and receiving),
      [UnixConnect] (references between sockets), [UnixSteps] (destructors,
      sequences of calls) and [UnixTheorems];
      socket types and domains ([src/net/mod.rs]): [Socket].
    - Processes ([src/process/manager.rs], [src/processor.rs],
      [src/fs/pidfd.rs]): [Process]; [ProcessProof] (the sets of blocked
      processes and the run queues), [ProcessWake] (the invariant, waking),
      [ProcessInv], [ProcessEnd] and [ProcessSched] (every operation keeps
      it), [ProcessSteps] and [ProcessTheorems] (any sequence of actions of
      the processors).  Memory, files and the architecture layer are the
      class [ProcEnv].

    * What the theorems show

    The allocator never hands out a frame twice, in every reachable state, and
    implements its interface; the editor of page tables changes the
    translation of exactly the page it is asked for.  Above them a process
    sees memory of its own: what it writes is what it reads, [fork] is a copy,
    faults are invisible, and dropping a space gives back its pages (but not
    the frame of its root table).  Anonymous [mmap] at an address of the
    kernel's choice, [munmap] and [mremap] with [MREMAP_MAYMOVE] keep the record
    of its mappings in step with it, and a mapping that moves takes the data of
    its old size along.

    A call on a name never panics and never loops, whatever links and mounts it
    meets, and creates, removes or moves exactly the entry that it names;
    without bind mounts the link counts are exact.  Mounts are found at the
    longest prefix, and the arithmetic of paths keeps a process whose working
    directory is below its root there.  The program that is executed is the
    one at the end of the chain of script interpreters, with the arguments that
    the scripts ask for.  No call on a sealed memory file changes it (a mapping
    of it can).  A file is open as long as a descriptor refers to it, and is a
    cursor on its bytes; the file over a block device is a vector of bytes, a
    partition does not reach beyond its blocks, and a GUID partition table is
    read as its byte offsets define it.

    A timer descriptor counts every expiration exactly once.  What is written
    to a pipe is read once and in order, however calls interleave; the same
    holds for sockets, with packet boundaries, where a connection has two ends
    from [connect] to the last close.  Waiting on an epoll instance reports
    what is ready and disarms one-shot interests.  [SIGKILL] ends a task within
    nine deliveries.  The run queues hold exactly the processes that can run and
    the indices exactly those that sleep, whatever the processors do; a futex
    wake reaches who sleeps and who is about to; and a deadline wakes who waited
    for it and nobody else.  The page cache returns the current bytes of a file.
    The parser of program images ends on every input and panics only on a
    segment in the last page of the address space.  Each theorem states its
    conditions in the comment before it; where a condition is there because the
    code fails without it, a lemma beside the theorem shows the failure on a
    concrete input.

    * Not modelled

    Device drivers, interrupt and boot code, the terminal and the frame buffer
    (input and output); the ext4 layer (it wraps a third-party crate); the
    other system call handlers, which decode arguments and call the components
    above; concurrency between processors (an operation runs under its lock;
    the theorems on step relations cover any order of operations).  The laws
    of [SpaceApi] are shown to be satisfiable by [SpaceDemo]; that the editor
    of page tables over the buddy allocator satisfies them is not proved.
    In the name layer the initial tree, procfs (with its virtual entries) and
    kernfs are left out, and the registered file systems are assumed to hand
    out well-formed nodes.  In the page tables the full flush, which nothing
    calls, is left out.  Also left out: netlink, ptys and inotify. *)

From Stdlib Require Export ZArith Lia.
From stdpp Require Export base tactics numbers option sorting gmap list.

Open Scope Z_scope.

(** ** Machine integers

    [usize] and [u64] values are [Z] in the interval [0, 2^64); the
    operations below are those of the Rust standard library that the sources
    use.  The target is x86_64, so [usize] and [u64] have the same width. *)

Definition u64_max : Z := 2 ^ 64 - 1.
Definition u32_max : Z := 2 ^ 32 - 1.

Definition in_u64 (a : Z) : Prop := 0 <= a <= u64_max.
Definition in_u32 (a : Z) : Prop := 0 <= a <= u32_max.

(** [a.checked_add(b)] for an unsigned type whose largest value is [mx]. *)
Definition checked_add (mx a b : Z) : option Z :=
  if bool_decide (a + b <= mx) then Some (a + b) else None.

Definition checked_sub (a b : Z) : option Z :=
  if bool_decide (b <= a) then Some (a - b) else None.

Definition saturating_add (mx a b : Z) : Z := Z.min mx (a + b).
Definition saturating_sub (a b : Z) : Z := Z.max 0 (a - b).
Definition wrapping_add (mx a b : Z) : Z := (a + b) mod (mx + 1).
Definition wrapping_mul (mx a b : Z) : Z := (a * b) mod (mx + 1).

(** ** Outcomes of a Rust computation

    [Ok] and [Err] are the two constructors of [Result]; [Panic] is an
    aborting execution (an index out of range, an [expect] on [None], an
    arithmetic overflow); [Diverge] is a loop whose fuel ran out. *)

Inductive outcome (E A : Type) : Type :=
| Ok (a : A)
| Err (e : E)
| Panic
| Diverge.
Arguments Ok {E A} a.
Arguments Err {E A} e.
Arguments Panic {E A}.
Arguments Diverge {E A}.

(** A function that returns a [Result]: [?] passes errors on. *)
#[global] Instance outcome_ret {E} : MRet (outcome E) := λ A a, Ok a.
#[global] Instance outcome_bind {E} : MBind (outcome E) := λ A B k m,
  match m with
  | Ok a => k a
  | Err e => Err e
  | Panic => Panic
  | Diverge => Diverge
  end.

(** [opt.ok_or(e)] and [opt.expect(..)] in such a function. *)
Definition ok_or {E A} (o : option A) (e : E) : outcome E A :=
  match o with Some a => Ok a | None => Err e end.
Definition expect {E A} (o : option A) : outcome E A :=
  match o with Some a => Ok a | None => Panic end.

(** A method with [&mut self]: the state is returned on every outcome,
    because an early return with [?] keeps the writes made before it. *)
Definition M (S E A : Type) : Type := S → outcome E A * S.

#[global] Instance M_ret {S E} : MRet (M S E) := λ A a s, (Ok a, s).
#[global] Instance M_bind {S E} : MBind (M S E) := λ A B k m s,
  match m s with
  | (Ok a, s') => k a s'
  | (Err e, s') => (Err e, s')
  | (Panic, s') => (Panic, s')
  | (Diverge, s') => (Diverge, s')
  end.

Section monad.
Context {S E : Type}.

Definition mget : M S E S := λ s, (Ok s, s).
Definition mgets {A} (f : S → A) : M S E A := λ s, (Ok (f s), s).
Definition mput (s' : S) : M S E unit := λ _, (Ok tt, s').
Definition mmodify (f : S → S) : M S E unit := λ s, (Ok tt, f s).
Definition mthrow {A} (e : E) : M S E A := λ s, (Err e, s).
Definition mpanic {A} : M S E A := λ s, (Panic, s).
Definition mdiverge {A} : M S E A := λ s, (Diverge, s).

(** [opt.ok_or(e)?] *)
Definition mok_or {A} (o : option A) (e : E) : M S E A :=
  match o with Some a => mret a | None => mthrow e end.

(** [opt.expect(..)] and [array[index]]: [None] panics. *)
Definition mexpect {A} (o : option A) : M S E A :=
  match o with Some a => mret a | None => mpanic end.

(** ** Weakest preconditions *)

Definition wp {A} (m : M S E A) (s : S) (Q : outcome E A → S → Prop) : Prop :=
  Q (m s).1 (m s).2.

(** Total correctness: the run ends in [Ok] (neither an error, nor a panic,
    nor an exhausted loop). *)
Definition wp_ok {A} (m : M S E A) (s : S) (Q : A → S → Prop) : Prop :=
  wp m s (λ r s', match r with Ok a => Q a s' | _ => False end).

(** The run ends in [Ok] or [Err]. *)
Definition wp_res {A} (m : M S E A) (s : S)
    (Q : A → S → Prop) (Qe : E → S → Prop) : Prop :=
  wp m s (λ r s', match r with
                  | Ok a => Q a s' | Err e => Qe e s' | _ => False end).

Lemma wp_res_bind {A B} (m : M S E A) (k : A → M S E B) s Q Qe :
  wp_res m s (λ a s', wp_res (k a) s' Q Qe) Qe → wp_res (m ≫= k) s Q Qe.
Proof.
  unfold wp_res, wp, mbind, M_bind.
  destruct (m s) as [[]]; simpl; tauto.
Qed.

Lemma wp_res_ret {A} (a : A) s Q Qe : Q a s → wp_res (mret a) s Q Qe.
Proof. done. Qed.

Lemma wp_res_mono {A} (m : M S E A) s (Q Q' : A → S → Prop) (Qe Qe' : E → S → Prop) :
  wp_res m s Q Qe → (∀ a s', Q a s' → Q' a s') →
  (∀ e s', Qe e s' → Qe' e s') → wp_res m s Q' Qe'.
Proof. unfold wp_res, wp. destruct (m s) as [[]]; simpl; eauto. Qed.

Lemma wp_res_and {A} (m : M S E A) s (Q1 Q2 : A → S → Prop) (E1 E2 : E → S → Prop) :
  wp_res m s Q1 E1 → wp_res m s Q2 E2 → wp_res m s (λ a s', Q1 a s' ∧ Q2 a s') (λ e s', E1 e s' ∧ E2 e s').
Proof. unfold wp_res, wp. by destruct (m s) as [[| | |] s']. Qed.

(** A rule that is known under a condition only, next to one that always holds. *)
Lemma wp_res_when {A} (P : Prop) (m : M S E A) s (Q Q' : A → S → Prop) (Qe : E → S → Prop) :
  wp_res m s Q Qe → (P → wp_res m s Q' (λ _ _, True)) → wp_res m s (λ a s', Q a s' ∧ (P → Q' a s')) Qe.
Proof. unfold wp_res, wp. destruct (m s) as [[| | |] s']; simpl; tauto. Qed.

Lemma wp_res_expect {A} (o : option A) a s Q Qe :
  o = Some a → Q a s → wp_res (mexpect o) s Q Qe.
Proof. by intros ->. Qed.

Lemma wp_res_ok_or {A} (o : option A) e s (Q : A → S → Prop) (Qe : E → S → Prop) :
  (∀ a, o = Some a → Q a s) → (o = None → Qe e s) → wp_res (mok_or o e) s Q Qe.
Proof. destruct o; simpl; unfold wp_res, wp; simpl; eauto. Qed.
End monad.

Lemma wp_res_get {S E} s (Q : S → S → Prop) (Qe : E → S → Prop) : Q s s → wp_res mget s Q Qe.
Proof. done. Qed.
Lemma wp_res_gets {S E A} (f : S → A) s (Q : A → S → Prop) (Qe : E → S → Prop) :
  Q (f s) s → wp_res (mgets f) s Q Qe.
Proof. done. Qed.
Lemma wp_res_put {S E} s s' (Q : unit → S → Prop) (Qe : E → S → Prop) :
  Q () s' → wp_res (mput s') s Q Qe.
Proof. done. Qed.
Lemma wp_res_modify {S E} f s (Q : unit → S → Prop) (Qe : E → S → Prop) :
  Q () (f s) → wp_res (mmodify f) s Q Qe.
Proof. done. Qed.
Lemma wp_res_throw {S E A} e s (Q : A → S → Prop) (Qe : E → S → Prop) :
  Qe e s → wp_res (mthrow e) s Q Qe.
Proof. done. Qed.

(** One step of symbolic execution; [wp_run] repeats the steps that need no
    decision from the user. *)
Ltac wp_step :=
  lazymatch goal with
  | |- wp_res (mbind _ _) _ _ _ => apply wp_res_bind
  | |- wp_res (mret _) _ _ _ => apply wp_res_ret
  | |- wp_res mget _ _ _ => apply wp_res_get
  | |- wp_res (mgets _) _ _ _ => apply wp_res_gets
  | |- wp_res (mput _) _ _ _ => apply wp_res_put
  | |- wp_res (mmodify _) _ _ _ => apply wp_res_modify
  | |- wp_res (mthrow _) _ _ _ => apply wp_res_throw
  | |- wp_res (mexpect (Some _)) _ _ _ => apply wp_res_ret
  | |- wp_res (mok_or (Some _) _) _ _ _ => apply wp_res_ret
  | |- wp_res (mok_or None _) _ _ _ => apply wp_res_throw
  end; cbv beta.
Ltac wp_run := repeat wp_step.

(** ** Facts about machine integers *)

Lemma checked_add_Some mx a b : a + b <= mx → checked_add mx a b = Some (a + b).
Proof. intros. unfold checked_add. by rewrite bool_decide_eq_true_2. Qed.

Lemma checked_add_None mx a b : mx < a + b → checked_add mx a b = None.
Proof. intros. unfold checked_add. rewrite bool_decide_eq_false_2; [done|lia]. Qed.

(** ** Little-endian encodings ([to_ne_bytes] and [from_ne_bytes] on x86_64) *)

Fixpoint le_bytes (n : nat) (v : Z) : list Z :=
  match n with
  | O => []
  | S n' => v mod 256 :: le_bytes n' (v / 256)
  end.

Definition le_val (l : list Z) : Z := foldr (λ b acc, b + 256 * acc) 0 l.

Definition is_byte (b : Z) : Prop := 0 <= b < 256.

Lemma length_le_bytes n v : length (le_bytes n v) = n.
Proof. revert v. induction n as [|n IH]; intros v; simpl; [done|]. by rewrite IH. Qed.

Lemma le_bytes_ok n v : Forall is_byte (le_bytes n v).
Proof.
  revert v. induction n as [|n IH]; intros v; simpl; constructor; [|done].
  apply Z.mod_pos_bound. lia.
Qed.

Lemma le_val_bytes n v : 0 <= v < 256 ^ Z.of_nat n → le_val (le_bytes n v) = v.
Proof.
  revert v. induction n as [|n IH]; intros v Hv; simpl.
  - change (256 ^ Z.of_nat 0) with 1 in Hv. lia.
  - rewrite Nat2Z.inj_succ, Z.pow_succ_r in Hv by lia.
    fold (le_val (le_bytes n (v / 256))). rewrite IH.
    + pose proof (Z.div_mod v 256). lia.
    + split; [apply Z.div_pos; lia|]. apply Z.div_lt_upper_bound; lia.
Qed.

Lemma le_bytes_val l : Forall is_byte l → le_bytes (length l) (le_val l) = l.
Proof.
  induction 1 as [|b l Hb Hl IH]; [done|]. simpl. fold (le_val l). unfold is_byte in Hb. f_equal.
  - rewrite Z.mul_comm, Z.mod_add, Z.mod_small; lia.
  - rewrite Z.mul_comm, Z.div_add, Z.div_small by lia. done.
Qed.

Lemma le_val_range l : Forall is_byte l → 0 <= le_val l < 256 ^ Z.of_nat (length l).
Proof.
  induction 1 as [|b l Hb _ IH]; [done|]. unfold le_val in *. simpl foldr. unfold is_byte in Hb.
  cbn [length]. rewrite Nat2Z.inj_succ, Z.pow_succ_r by lia. lia.
Qed.

Lemma le_val_u64 v : in_u64 v → le_val (le_bytes 8 v) = v.
Proof. intros H. apply le_val_bytes. unfold in_u64, u64_max in H. change (256 ^ Z.of_nat 8) with (2 ^ 64). lia. Qed.

Lemma le_val_u32 v : in_u32 v → le_val (le_bytes 4 v) = v.
Proof. intros H. apply le_val_bytes. unfold in_u32, u32_max in H. change (256 ^ Z.of_nat 4) with (2 ^ 32). lia. Qed.

#[global] Arguments le_bytes : simpl never.
#[global] Arguments le_val : simpl never.
