(* ===== verification/Frame.v ===== *)
(** * Physical addresses and frames

    Models [aether-frame/src/mm/address.rs] and [aether-frame/src/mm/frame.rs]:
    the page constants, the [PhysAddr]/[PhysFrame] newtypes, the error type of
    the frame allocators, and the bit-level facts about page-aligned addresses
    that the allocator and its clients share. *)

From S2P Require Import Prelude.

Definition PAGE_SHIFT : Z := 12.
Definition PAGE_SIZE : Z := Z.shiftl 1 PAGE_SHIFT.

Inductive FrameAllocError :=
| InvalidCount
| OutOfMemory
| InvalidFrame
| InvalidCpu
| InvalidMemoryMap
| RefCountOverflow
| RefCountUnderflow
| MetadataExhausted.

#[global] Instance FrameAllocError_eq_dec : EqDecision FrameAllocError.
Proof. solve_decision. Defined.

Record PhysAddr := mkPhysAddr { addr_u64 : Z }.

Record PhysFrame := mkPhysFrame { frame_start : PhysAddr }.

#[global] Instance PhysAddr_eq_dec : EqDecision PhysAddr.
Proof. solve_decision. Defined.
#[global] Instance PhysFrame_eq_dec : EqDecision PhysFrame.
Proof. solve_decision. Defined.

(** [self.0 & (align - 1) == 0] *)
Definition is_aligned (a : PhysAddr) (align : Z) : bool :=
  Z.land (addr_u64 a) (align - 1) =? 0.

(** [self.0 & !(align - 1)]; the complement is taken within 64 bits. *)
Definition addr_align_down (a : PhysAddr) (align : Z) : PhysAddr :=
  mkPhysAddr (Z.land (addr_u64 a) (u64_max - (align - 1))).

Definition from_start_address (start : PhysAddr) : PhysFrame := mkPhysFrame start.
Definition start_address (f : PhysFrame) : PhysAddr := frame_start f.

(** [(self.start.as_u64() >> PAGE_SHIFT) as usize] *)
Definition frame_index (f : PhysFrame) : Z := Z.shiftr (addr_u64 (frame_start f)) PAGE_SHIFT.

(** ** Bit-level facts *)

Lemma PAGE_SIZE_eq : PAGE_SIZE = 4096.
Proof. reflexivity. Qed.

Lemma land_pow2_mask (a n : Z) : 0 <= n → Z.land a (2 ^ n - 1) = a mod 2 ^ n.
Proof. intros Hn. rewrite <- Z.land_ones by done. by rewrite Z.ones_equiv. Qed.

(** Clearing the low [n] bits within 64 bits rounds down to a multiple of [2^n]. *)
Lemma land_not_mask (a n : Z) :
  in_u64 a → 0 <= n <= 64 →
  Z.land a (u64_max - (2 ^ n - 1)) = a - a mod 2 ^ n.
Proof.
  intros [Ha0 Ha] Hn. unfold u64_max in *.
  assert (Hld : Z.ldiff a (Z.ones n) = a - a mod 2 ^ n).
  { rewrite Z.ldiff_ones_r, Z.shiftl_mul_pow2, Z.shiftr_div_pow2 by lia.
    pose proof (Z.div_mod a (2 ^ n)). lia. }
  rewrite <- Hld. apply Z.bits_inj'. intros i Hi.
  replace (2 ^ 64 - 1 - (2 ^ n - 1)) with (Z.shiftl (Z.ones (64 - n)) n).
  2:{ rewrite Z.shiftl_mul_pow2, Z.ones_equiv by lia.
      replace 64 with ((64 - n) + n) at 2 by lia. rewrite Z.pow_add_r by lia.
      lia. }
  rewrite Z.land_spec, Z.ldiff_spec, Z.shiftl_spec by lia.
  destruct (decide (i < n)).
  - rewrite (Z.testbit_neg_r _ (i - n)) by lia. rewrite Z.ones_spec_low by lia.
    by rewrite !andb_false_r.
  - rewrite (Z.ones_spec_high n) by lia. simpl. rewrite andb_true_r.
    destruct (decide (i < 64)).
    + rewrite Z.ones_spec_low by lia. by rewrite andb_true_r.
    + rewrite Z.ones_spec_high by lia. rewrite andb_false_r. symmetry.
      destruct (decide (a = 0)) as [->|]; [by rewrite Z.testbit_0_l|].
      apply Z.bits_above_log2; [lia|].
      apply Z.lt_le_trans with 64; [|lia]. apply Z.log2_lt_pow2; lia.
Qed.

Lemma is_aligned_page (a : PhysAddr) :
  is_aligned a PAGE_SIZE = true ↔ addr_u64 a mod 4096 = 0.
Proof.
  unfold is_aligned. rewrite PAGE_SIZE_eq, (land_pow2_mask _ 12), Z.eqb_eq by lia. done.
Qed.

(** ** The interface of the frame allocators

    The trait [FrameAllocator] of [aether-frame/src/mm/frame.rs] as a type
    class of operations, and what an implementation promises to its clients
    (the page cache, the page-table builder) as a class of laws over an
    abstract state: the finite map from the first frame of every allocated
    block to its length in frames and its reference count.  [BuddySpec] proves
    that the buddy allocator is an instance. *)

Class FrameAllocator (St : Type) := {
  fa_alloc : Z → M St FrameAllocError PhysFrame;
  fa_retain : PhysFrame → M St FrameAllocError Z;
  fa_release : PhysFrame → Z → M St FrameAllocError Z;
  fa_ref_count : PhysFrame → M St FrameAllocError (option Z);
}.

(** The frame with number [s]. *)
Definition frame_of (s : Z) : PhysFrame := mkPhysFrame (mkPhysAddr (s * 4096)).

(** First frame of a block to its length and reference count. *)
Abbreviation frame_map := (gmap Z (Z * Z)).

(** Dropping one of [rc] references to the block at [s]. *)
Definition unref (m : frame_map) (s len rc : Z) : frame_map :=
  if decide (rc = 1) then delete s m else <[s := (len, rc - 1)]> m.

(** [rep st m]: the state [st] is consistent and has allocated [m];
    [usable f]: the frame [f] is managed; [round n]: the frames a request for
    [n] frames takes. *)
Class FrameAllocatorSpec (St : Type) `{FrameAllocator St}
    (rep : St → frame_map → Prop) (usable : Z → Prop) (round : Z → Z) : Prop := {
  fas_round n : 1 <= n → n <= round n;
  fas_frames st m s len rc f :
    rep st m → m !! s = Some (len, rc) → s <= f < s + len → usable f;
  fas_live st m s len rc : rep st m → m !! s = Some (len, rc) → 1 <= len ∧ 1 <= rc;
  fas_disjoint st m s len rc s' len' rc' f :
    rep st m → m !! s = Some (len, rc) → m !! s' = Some (len', rc') → s ≠ s' →
    s <= f < s + len → ¬ (s' <= f < s' + len');
  fas_alloc st m n :
    rep st m →
    wp_res (fa_alloc n) st
      (λ f st', ∃ s, f = frame_of s ∧ n ≠ 0 ∧ m !! s = None ∧ rep st' (<[s := (round n, 1)]> m))
      (λ _ st', rep st' m);
  fas_retain st m f :
    rep st m →
    wp_res (fa_retain f) st
      (λ r st', ∃ s len rc, f = frame_of s ∧ m !! s = Some (len, rc) ∧ r = rc + 1 ∧
                  rep st' (<[s := (len, rc + 1)]> m))
      (λ _ st', st' = st);
  fas_release st m f n :
    rep st m →
    wp_res (fa_release f n) st
      (λ r st', ∃ s rc, f = frame_of s ∧ m !! s = Some (round n, rc) ∧ r = rc - 1 ∧
                  rep st' (unref m s (round n) rc))
      (λ _ st', st' = st ∧ ∀ s rc, f = frame_of s → 1 <= n → m !! s ≠ Some (round n, rc));
  fas_ref_count st m f :
    rep st m →
    wp_res (fa_ref_count f) st
      (λ r st', st' = st ∧ ∀ rc, r = Some rc ↔ ∃ s len, f = frame_of s ∧ m !! s = Some (len, rc))
      (λ _ _, False);
}.

(** A frame is [frame_of] its number exactly when its address is aligned. *)
Lemma frame_of_aligned f :
  addr_u64 (frame_start f) mod 4096 = 0 → f = frame_of (addr_u64 (frame_start f) / 4096).
Proof.
  destruct f as [[a]]. simpl. intros Ha. unfold frame_of. do 2 f_equal.
  pose proof (Z.div_mod a 4096). lia.
Qed.

Lemma frame_of_number s : s * 4096 / 4096 = s ∧ (s * 4096) mod 4096 = 0.
Proof. split; [apply Z.div_mul; lia|apply Z.mod_mul; lia]. Qed.
