(* ===== verification/LinkedList.v ===== *)
(** * Index-linked lists and finite sums

    The generic part of the allocator proofs: singly linked lists whose cells
    are indices and whose links are read by a function, their insertion and
    removal lemmas, and sums over an initial segment of the naturals or over an
    interval of frames. *)

From S2P Require Import Prelude.

(** ** List segments

    [seg nx h l t]: following the links [nx] from [h] visits the cells [l] and
    arrives at [t].  [nx i = None] means that the cell [i] does not exist. *)

Section seg.
Implicit Types (nx : nat → option (option nat)) (h t : option nat) (l : list nat).

Fixpoint seg nx h l t : Prop :=
  match l with
  | [] => h = t
  | i :: l' => h = Some i ∧ ∃ x, nx i = Some x ∧ seg nx x l' t
  end.

(** A complete list ends in [None]. *)
Definition chain nx h l : Prop := seg nx h l None.

Lemma seg_app nx h l1 l2 t :
  seg nx h (l1 ++ l2) t ↔ ∃ m, seg nx h l1 m ∧ seg nx m l2 t.
Proof.
  revert h. induction l1 as [|i l1 IH]; intros h; simpl.
  { naive_solver. }
  setoid_rewrite IH. naive_solver.
Qed.

Lemma seg_frame nx nx' h l t :
  (∀ i, i ∈ l → nx' i = nx i) → seg nx h l t → seg nx' h l t.
Proof.
  revert h. induction l as [|i l IH]; intros h Heq; simpl; [done|].
  intros (-> & x & Hx & Hs). split; [done|]. exists x. split.
  - rewrite Heq; [done|left].
  - apply IH; [|done]. intros j Hj. apply Heq. by right.
Qed.

Lemma chain_frame nx nx' h l :
  (∀ i, i ∈ l → nx' i = nx i) → chain nx h l → chain nx' h l.
Proof. apply seg_frame. Qed.

Lemma chain_head nx h l : chain nx h l → h = head l.
Proof. unfold chain. destruct l; simpl; tauto. Qed.

Lemma seg_snoc nx h l q t :
  seg nx h (l ++ [q]) t ↔ seg nx h l (Some q) ∧ nx q = Some t.
Proof.
  rewrite seg_app. simpl. split.
  - intros (m & Hl & -> & x & Hx & ->). done.
  - intros [Hl Hq]. exists (Some q). split; [done|]. split; [done|]. by exists t.
Qed.

Lemma chain_next nx h l1 i l2 :
  chain nx h (l1 ++ i :: l2) → nx i = Some (head l2).
Proof.
  unfold chain. rewrite seg_app. intros (m & _ & _ & x & Hx & Hs).
  apply chain_head in Hs. by subst.
Qed.

(** Insertion of the cell [i] between [l1] and [l2]; the new head is given
    by whether [l1] is empty. *)
Lemma chain_insert nx nx' h h' l1 i l2 :
  NoDup (l1 ++ l2) → i ∉ l1 ++ l2 → chain nx h (l1 ++ l2) →
  nx' i = Some (head l2) →
  (∀ q, last l1 = Some q → nx' q = Some (Some i)) →
  h' = (match last l1 with Some _ => h | None => Some i end) →
  (∀ j, j ∈ l1 ++ l2 → last l1 ≠ Some j → nx' j = nx j) →
  chain nx' h' (l1 ++ i :: l2).
Proof.
  intros Hnd Hi Hch Hni Hq -> Hfr. unfold chain in *.
  apply seg_app in Hch as (m & H1 & H2).
  assert (m = head l2) as -> by (by eapply chain_head).
  apply NoDup_app in Hnd as (Hnd1 & Hd & Hnd2).
  apply seg_app. exists (Some i). split.
  - destruct (last l1) as [q|] eqn:Hl.
    + apply last_Some in Hl as [l1' ->].
      apply seg_snoc in H1 as [H1 _]. apply seg_snoc. split; [|by apply Hq].
      eapply seg_frame; [|exact H1]. intros j Hj. apply Hfr; [set_solver|].
      intros [= ->]. apply NoDup_app in Hnd1 as (_ & Hd' & _). set_solver.
    + apply last_None in Hl as ->. done.
  - split; [done|]. exists (head l2). split; [done|].
    eapply seg_frame; [|exact H2]. intros j Hj. apply Hfr; [set_solver|].
    intros Hlast. apply (Hd j); [|done].
    apply last_Some in Hlast as [? ->]. set_solver.
Qed.

Lemma chain_remove nx nx' h h' l1 i l2 :
  NoDup (l1 ++ i :: l2) → chain nx h (l1 ++ i :: l2) →
  (∀ q, last l1 = Some q → nx' q = Some (head l2)) →
  h' = (match last l1 with Some _ => h | None => head l2 end) →
  (∀ j, j ∈ l1 ++ l2 → last l1 ≠ Some j → nx' j = nx j) →
  chain nx' h' (l1 ++ l2).
Proof.
  intros Hnd Hch Hq -> Hfr. unfold chain in *.
  apply seg_app in Hch as (m & H1 & -> & x & Hx & H2).
  assert (x = head l2) as -> by (by eapply chain_head).
  apply NoDup_app in Hnd as (Hnd1 & Hd & Hnd2).
  apply seg_app. exists (head l2). split.
  - destruct (last l1) as [q|] eqn:Hl.
    + apply last_Some in Hl as [l1' ->].
      apply seg_snoc in H1 as [H1 _]. apply seg_snoc. split; [|by apply Hq].
      eapply seg_frame; [|exact H1]. intros j Hj. apply Hfr; [set_solver|].
      intros [= ->]. apply NoDup_app in Hnd1 as (_ & Hd' & _). set_solver.
    + apply last_None in Hl as ->. done.
  - eapply seg_frame; [|exact H2]. intros j Hj. apply Hfr; [set_solver|].
    intros Hlast. apply (Hd j).
    + apply last_Some in Hlast as [? ->]. set_solver.
    + set_solver.
Qed.
End seg.

Arguments chain _ _ _ : simpl never.

(** ** Function update *)

Definition fupd {A} (f : nat → A) (i : nat) (v : A) : nat → A :=
  λ j, if decide (j = i) then v else f j.

Lemma fupd_eq {A} (f : nat → A) i v : fupd f i v i = v.
Proof. unfold fupd. by rewrite decide_True. Qed.
Lemma fupd_ne {A} (f : nat → A) i j v : j ≠ i → fupd f i v j = f j.
Proof. intros. unfold fupd. by rewrite decide_False. Qed.

(** ** Sums *)

(** [f 0 + ... + f (n - 1)] *)
Fixpoint nsum (f : nat → Z) (n : nat) : Z :=
  match n with O => 0 | S n' => nsum f n' + f n' end.

Lemma nsum_ext f g n : (∀ i, (i < n)%nat → f i = g i) → nsum f n = nsum g n.
Proof.
  induction n as [|n IH]; intros H; simpl; [done|].
  rewrite IH by (intros; apply H; lia). by rewrite H by lia.
Qed.

Lemma nsum_upd f g n i :
  (i < n)%nat → (∀ j, (j < n)%nat → j ≠ i → g j = f j) →
  nsum g n = nsum f n - f i + g i.
Proof.
  induction n as [|n IH]; intros Hi Hg; simpl; [lia|].
  destruct (decide (i = n)) as [->|].
  - rewrite (nsum_ext g f n); [lia|]. intros j Hj. apply Hg; lia.
  - rewrite IH by (intros; try apply Hg; lia). rewrite (Hg n) by lia. lia.
Qed.

Lemma nsum_nonneg f n : (∀ i, (i < n)%nat → 0 <= f i) → 0 <= nsum f n.
Proof.
  induction n as [|n IH]; intros H; simpl; [lia|].
  specialize (IH ltac:(intros; apply H; lia)). specialize (H n ltac:(lia)). lia.
Qed.

Lemma nsum_ge f n i : (i < n)%nat → (∀ j, (j < n)%nat → 0 <= f j) → f i <= nsum f n.
Proof.
  induction n as [|n IH]; intros Hi H; simpl; [lia|].
  pose proof (nsum_nonneg f n ltac:(intros; apply H; lia)).
  pose proof (H n ltac:(lia)).
  destruct (decide (i = n)) as [->|]; [lia|].
  specialize (IH ltac:(lia) ltac:(intros; apply H; lia)). lia.
Qed.

Lemma nsum_ge2 f n i j :
  (i < n)%nat → (j < n)%nat → i ≠ j → (∀ k, (k < n)%nat → 0 <= f k) → f i + f j <= nsum f n.
Proof.
  intros Hi Hj Hne H.
  rewrite (nsum_upd (fupd f i 0) f n i) by (try done; intros k ? ?; by rewrite fupd_ne).
  rewrite fupd_eq. pose proof (nsum_ge (fupd f i 0) n j) as Hge.
  rewrite fupd_ne in Hge by done. enough (f j <= nsum (fupd f i 0) n) by lia.
  apply Hge; [done|]. intros k Hk. unfold fupd. case_decide; [lia|by apply H].
Qed.

Lemma nsum_pos f n : nsum f n ≠ 0 → ∃ i, (i < n)%nat ∧ f i ≠ 0.
Proof.
  induction n as [|n IH]; simpl; [done|]. intros H.
  destruct (decide (f n = 0)) as [Hz|Hz]; [|exists n; split; [lia|done]].
  destruct IH as (i & ? & ?); [lia|]. exists i. split; [lia|done].
Qed.

(** [g s + ... + g (s + n - 1)] *)
Definition zsum (g : Z → Z) (s n : Z) : Z := foldr (λ f acc, g f + acc) 0 (seqZ s n).

Lemma foldr_sum_app (g : Z → Z) l1 l2 :
  foldr (λ f acc, g f + acc) 0 (l1 ++ l2) =
  foldr (λ f acc, g f + acc) 0 l1 + foldr (λ f acc, g f + acc) 0 l2.
Proof. induction l1 as [|x l1 IH]; simpl; [lia|]. rewrite IH. lia. Qed.

Lemma zsum_add g s n m :
  0 <= n → 0 <= m → zsum g s (n + m) = zsum g s n + zsum g (s + n) m.
Proof. intros. unfold zsum. rewrite seqZ_app by lia. apply foldr_sum_app. Qed.

Lemma zsum_one s n : 0 <= n → zsum (λ _, 1) s n = n.
Proof.
  intros Hn. unfold zsum.
  assert (∀ l : list Z, foldr (λ f acc, 1 + acc) 0 l = Z.of_nat (length l)) as ->.
  { induction l as [|x l IH]; simpl; lia. }
  rewrite length_seqZ. lia.
Qed.

(** The indicator of one frame. *)
Definition delta (x : Z) (f : Z) : Z := if decide (f = x) then 1 else 0.

Lemma zsum_delta x s n :
  zsum (delta x) s n = if decide (s <= x < s + n) then 1 else 0.
Proof.
  unfold zsum. destruct (decide (0 <= n)) as [Hn|Hn].
  2:{ rewrite seqZ_nil by lia. rewrite decide_False by lia. done. }
  revert s. pattern n. apply natlike_ind; [| |done].
  - intros s. rewrite seqZ_nil by lia. rewrite decide_False by lia. done.
  - clear n Hn. intros n Hn IH s. rewrite seqZ_cons by lia. simpl.
    rewrite Z.pred_succ, IH. unfold delta. repeat case_decide; lia.
Qed.

Lemma zsum_nonneg g s n : (∀ f, 0 <= g f) → 0 <= zsum g s n.
Proof. intros Hg. unfold zsum. induction (seqZ s n) as [|x l IH]; simpl; [lia|]. specialize (Hg x). lia. Qed.
