(* ===== verification/RangeList.v ===== *)
(** * Usable memory ranges

    Models [RangeList] and [collect_usable_ranges] of
    [aether-frame/src/mm/buddy.rs] together with the [MemoryRegion] type of
    [aether-frame/src/boot/mod.rs].  The array of the source is kept as an
    array (a list of fixed length [CAP] plus the field [len]), with its index
    loops; the theorems relate it to the list [as_slice]. *)

From S2P Require Import Prelude Frame.

(** ** Data *)

Record RangeList := mkRangeList {
  entries : list (Z * Z);
  rl_len : nat;
}.

Definition MRange := M RangeList FrameAllocError.

(** The const parameter [CAP] of [RangeList<CAP>]. *)
Definition RangeList_new (CAP : nat) : RangeList := mkRangeList (replicate CAP (0, 0)) 0.

Definition RangeList_clear (r : RangeList) : RangeList := mkRangeList (entries r) 0.

(** [&self.entries[..self.len]] *)
Definition as_slice (r : RangeList) : list (Z * Z) := take (rl_len r) (entries r).

(** [while index < self.len]: the remaining iterations are [n]. *)
Fixpoint total_frames_loop (es : list (Z * Z)) (index n : nat) (total : Z)
    : outcome FrameAllocError Z :=
  match n with
  | O => Ok total
  | S n' =>
      match es !! index with
      | None => Panic
      | Some (_, len) =>
          match checked_add u64_max total len with
          | None => Err InvalidMemoryMap
          | Some total' => total_frames_loop es (S index) n' total'
          end
      end
  end.

Definition range_total_frames (r : RangeList) : outcome FrameAllocError Z :=
  total_frames_loop (entries r) 0 (rl_len r) 0.

(** [while cursor > index]: [cursor = index + n]. *)
Fixpoint shift_up (es : list (Z * Z)) (index n : nat) : option (list (Z * Z)) :=
  match n with
  | O => Some es
  | S n' =>
      x ← es !! (index + n')%nat;
      if decide (index + n < length es)%nat
      then shift_up (<[(index + n)%nat := x]> es) index n'
      else None
  end.

Definition insert_at (index : nat) (entry : Z * Z) : MRange unit :=
  r ← mget;
  if decide (rl_len r = length (entries r)) then mthrow MetadataExhausted
  else
    es ← mexpect (shift_up (entries r) index (rl_len r - index));
    if decide (index < length es)%nat
    then mput (mkRangeList (<[index := entry]> es) (S (rl_len r)))
    else mpanic.

(** [while cursor < self.len]: [n] iterations remain from [cursor]. *)
Fixpoint shift_down (es : list (Z * Z)) (cursor n : nat) : option (list (Z * Z)) :=
  match n with
  | O => Some es
  | S n' =>
      x ← es !! cursor;
      shift_down (<[(cursor - 1)%nat := x]> es) (S cursor) n'
  end.

Definition remove_at (index : nat) : MRange unit :=
  r ← mget;
  es ← mexpect (shift_down (entries r) (S index) (rl_len r - S index));
  if decide (rl_len r = 0)%nat then mpanic
  else mput (mkRangeList es (rl_len r - 1)).

(** [while index < self.len && self.entries[index].0 < start] *)
Fixpoint scan_start (es : list (Z * Z)) (start : Z) (index n : nat) : option nat :=
  match n with
  | O => Some index
  | S n' =>
      e ← es !! index;
      if decide (e.1 < start) then scan_start es start (S index) n' else Some index
  end.

(** The second loop of [insert_merged_sorted]: it removes an entry in every
    iteration that does not leave it, so [self.len] iterations are enough. *)
Fixpoint merge_next (fuel : nat) (index : nat) (start len : Z) : MRange Z :=
  match fuel with
  | O => mdiverge
  | S fuel' =>
      r ← mget;
      if decide (index < rl_len r)%nat then
        e ← mexpect (entries r !! index);
        end_ ← mok_or (checked_add u64_max start len) InvalidMemoryMap;
        if decide (e.1 < end_) then mthrow InvalidMemoryMap
        else if decide (e.1 ≠ end_) then mret len
        else
          len' ← mok_or (checked_add u64_max len e.2) InvalidMemoryMap;
          _ ← remove_at index;
          merge_next fuel' index start len'
      else mret len
  end.

Definition insert_merged_sorted (start len : Z) : MRange unit :=
  if decide (len = 0) then mret () else
  r ← mget;
  index ← mexpect (scan_start (entries r) start 0 (rl_len r));
  '(index, start, len) ←
    (if decide (0 < index)%nat then
       p ← mexpect (entries r !! (index - 1)%nat);
       prev_end ← mok_or (checked_add u64_max p.1 p.2) InvalidMemoryMap;
       if decide (start < prev_end) then mthrow InvalidMemoryMap
       else if decide (start = prev_end) then
         len' ← mok_or (checked_add u64_max p.2 len) InvalidMemoryMap;
         _ ← remove_at (index - 1)%nat;
         mret ((index - 1)%nat, p.1, len')
       else mret (index, start, len)
     else mret (index, start, len));
  r' ← mget;
  len ← merge_next (S (rl_len r')) index start len;
  insert_at index (start, len).

(** ** The boot memory map *)

Record MemoryRegion := mkMemoryRegion {
  region_start : Z;
  region_len : Z;
  region_kind : Z;
}.

Definition KIND_USABLE : Z := 0.

(** [(value + align - 1) & !(align - 1)]: the additions are overflow-checked. *)
Definition align_up (value align : Z) : option Z :=
  v ← checked_add u64_max value align;
  Some (Z.land (v - 1) (u64_max - (align - 1))).

Definition align_down (value align : Z) : Z := Z.land value (u64_max - (align - 1)).

Fixpoint collect_loop (mem_map : list MemoryRegion) : MRange unit :=
  match mem_map with
  | [] => mret ()
  | region :: rest =>
      if decide (region_kind region ≠ KIND_USABLE) then collect_loop rest
      else
        region_end ← mok_or (checked_add u64_max (region_start region) (region_len region))
                            InvalidMemoryMap;
        start ← mexpect (align_up (region_start region) PAGE_SIZE);
        let end_ := align_down region_end PAGE_SIZE in
        if decide (end_ <= start) then collect_loop rest
        else
          _ ← insert_merged_sorted (Z.shiftr start PAGE_SHIFT)
                                   (Z.shiftr (end_ - start) PAGE_SHIFT);
          collect_loop rest
  end.

Definition collect_usable_ranges (mem_map : list MemoryRegion) : MRange unit :=
  _ ← mmodify RangeList_clear;
  collect_loop mem_map.

(** ** Specification of a list of ranges *)

(** [f] is a frame of the range [e]. *)
Definition in_range (e : Z * Z) (f : Z) : Prop := e.1 <= f < e.1 + e.2.

(** [f] is a frame of one of the ranges. *)
Definition covered (l : list (Z * Z)) (f : Z) : Prop := ∃ e, e ∈ l ∧ in_range e f.

Definition range_ok (e : Z * Z) : Prop := 0 <= e.1 ∧ 0 < e.2 ∧ e.1 + e.2 <= u64_max.

(** Strictly separated: a gap of at least one frame between two ranges, so two
    adjacent usable frames are always in the same range. *)
Definition gap (e e' : Z * Z) : Prop := e.1 + e.2 < e'.1.

Definition separated (l : list (Z * Z)) : Prop :=
  Forall range_ok l ∧ StronglySorted gap l.

Definition range_sum (l : list (Z * Z)) : Z := foldr (λ e acc, e.2 + acc) 0 l.

Record wf_ranges (r : RangeList) : Prop := {
  wr_len : (rl_len r ≤ length (entries r))%nat;
  wr_sep : separated (as_slice r);
}.

(** ** The array loops compute the list operations *)

Lemma shift_down_spec n : ∀ es i,
  (S i + n ≤ length es)%nat →
  ∃ es', shift_down es (S i) n = Some es' ∧ length es' = length es ∧
    (∀ k, (k < i)%nat → es' !! k = es !! k) ∧
    (∀ k, (k < n)%nat → es' !! (i + k)%nat = es !! (S i + k)%nat).
Proof.
  induction n as [|n IH]; intros es i Hlen; simpl.
  { exists es. repeat split; auto; intros; lia. }
  destruct (lookup_lt_is_Some_2 es (S i)) as [x Hx]; [lia|].
  rewrite Hx; simpl. rewrite Nat.sub_0_r.
  destruct (IH (<[i:=x]> es) (S i)) as (es' & -> & Hl & Hlow & Hhigh).
  { rewrite length_insert. lia. }
  rewrite length_insert in Hl. exists es'. repeat split; auto.
  - intros k Hk. rewrite Hlow by lia. by rewrite list_lookup_insert_ne by lia.
  - intros [|k] Hk.
    + rewrite !Nat.add_0_r, Hlow by lia. by rewrite list_lookup_insert_eq by lia.
    + replace (i + S k)%nat with (S i + k)%nat by lia.
      rewrite Hhigh, list_lookup_insert_ne by lia. f_equal; lia.
Qed.

Lemma shift_up_spec n : ∀ es i,
  (i + n < length es)%nat →
  ∃ es', shift_up es i n = Some es' ∧ length es' = length es ∧
    (∀ k, (k < i)%nat → es' !! k = es !! k) ∧
    (∀ k, (k < n)%nat → es' !! (S i + k)%nat = es !! (i + k)%nat) ∧
    (∀ k, (i + n < k)%nat → es' !! k = es !! k).
Proof.
  induction n as [|n IH]; intros es i Hlen; simpl.
  { exists es. repeat split; auto; intros; lia. }
  destruct (lookup_lt_is_Some_2 es (i + n)%nat) as [x Hx]; [lia|].
  rewrite Hx; simpl. rewrite decide_True by lia.
  destruct (IH (<[(i + S n)%nat:=x]> es) i) as (es' & -> & Hl & Hlow & Hmid & Hhigh).
  { rewrite length_insert. lia. }
  rewrite length_insert in Hl. exists es'. repeat split; auto.
  - intros k Hk. rewrite Hlow by lia. by rewrite list_lookup_insert_ne by lia.
  - intros k Hk. destruct (decide (k = n)) as [->|].
    + rewrite Hhigh by lia. replace (S (i + n)) with (i + S n)%nat by lia.
      rewrite list_lookup_insert_eq by lia. done.
    + change (S (i + k)) with (S i + k)%nat. rewrite Hmid by lia.
      by rewrite list_lookup_insert_ne by lia.
  - intros k Hk. rewrite Hhigh by lia. by rewrite list_lookup_insert_ne by lia.
Qed.

(** Rust's [entries] array beyond [len] is never observable: the two array
    mutators are list insertion and list deletion on [as_slice]. *)
Lemma remove_at_spec r i (Q : unit → RangeList → Prop) Qe :
  (rl_len r ≤ length (entries r))%nat → (i < rl_len r)%nat →
  (∀ r', rl_len r' = (rl_len r - 1)%nat → length (entries r') = length (entries r) →
         as_slice r' = take i (as_slice r) ++ drop (S i) (as_slice r) → Q () r') →
  wp_res (remove_at i) r Q Qe.
Proof.
  intros Hlen Hi HQ.
  destruct (shift_down_spec (rl_len r - S i) (entries r) i) as (es' & He & Hl & Hlow & Hmid);
    [lia|].
  unfold remove_at, wp_res, wp, mbind, M_bind, mget, mexpect. rewrite He.
  simpl. rewrite decide_False by lia. simpl. apply HQ; [done..|].
  unfold as_slice; simpl. apply list_eq. intros k.
  destruct (decide (k < i)%nat).
  { rewrite lookup_take_lt, Hlow by lia.
    rewrite lookup_app_l by (rewrite !length_take; lia).
    by rewrite !lookup_take_lt by lia. }
  rewrite lookup_app_r by (rewrite !length_take; lia).
  rewrite lookup_drop, !length_take.
  destruct (decide (k < rl_len r - 1)%nat).
  - rewrite lookup_take_lt by lia. replace k with (i + (k - i))%nat at 1 by lia.
    rewrite Hmid, lookup_take_lt by lia. f_equal. lia.
  - rewrite !lookup_take_ge by lia. done.
Qed.

Lemma insert_at_spec r i e (Q : unit → RangeList → Prop) (Qe : FrameAllocError → RangeList → Prop) :
  (rl_len r ≤ length (entries r))%nat → (i ≤ rl_len r)%nat →
  (rl_len r = length (entries r) → Qe MetadataExhausted r) →
  (∀ r', rl_len r' = S (rl_len r) → length (entries r') = length (entries r) →
         (rl_len r' ≤ length (entries r'))%nat →
         as_slice r' = take i (as_slice r) ++ e :: drop i (as_slice r) → Q () r') →
  wp_res (insert_at i e) r Q Qe.
Proof.
  intros Hlen Hi HQe HQ. unfold insert_at, wp_res, wp, mbind, M_bind, mget. simpl.
  destruct (decide _) as [Heq|Hne]; simpl; [by apply HQe|].
  destruct (shift_up_spec (rl_len r - i) (entries r) i) as (es' & He & Hl & Hlow & Hmid & _);
    [lia|].
  unfold mexpect. rewrite He. simpl. rewrite decide_True by lia. simpl.
  apply HQ; simpl; rewrite ?length_insert; [done|done|lia|].
  unfold as_slice; simpl. apply list_eq. intros k.
  destruct (lt_eq_lt_dec k i) as [[Hk| ->]|Hk].
  - rewrite lookup_take_lt, list_lookup_insert_ne, Hlow by lia.
    rewrite lookup_app_l by (rewrite !length_take; lia).
    by rewrite !lookup_take_lt by lia.
  - rewrite lookup_take_lt, list_lookup_insert_eq by lia.
    rewrite lookup_app_r by (rewrite !length_take; lia).
    rewrite !length_take. by replace (i - _)%nat with 0%nat by lia.
  - rewrite lookup_app_r by (rewrite !length_take; lia).
    rewrite !length_take. replace (k - _)%nat with (S (k - S i))%nat by lia. simpl.
    rewrite lookup_drop. destruct (decide (k ≤ rl_len r)%nat).
    + rewrite !lookup_take_lt, list_lookup_insert_ne by lia.
      replace k with (S i + (k - S i))%nat at 1 by lia. rewrite Hmid by lia.
      f_equal.
    + rewrite !lookup_take_ge by lia. done.
Qed.

(** ** Lists of separated ranges *)

Lemma separated_app l1 l2 :
  separated (l1 ++ l2) ↔
  separated l1 ∧ separated l2 ∧ (∀ x y, x ∈ l1 → y ∈ l2 → gap x y).
Proof.
  unfold separated. rewrite Forall_app, StronglySorted_app. tauto.
Qed.

Lemma separated_cons e l :
  separated (e :: l) ↔ range_ok e ∧ separated l ∧ (∀ y, y ∈ l → gap e y).
Proof.
  unfold separated. rewrite Forall_cons, StronglySorted_cons, (Forall_forall (gap e)).
  tauto.
Qed.

Lemma covered_app l1 l2 f : covered (l1 ++ l2) f ↔ covered l1 f ∨ covered l2 f.
Proof. unfold covered. set_solver. Qed.

Lemma covered_cons e l f : covered (e :: l) f ↔ in_range e f ∨ covered l f.
Proof. unfold covered. set_solver. Qed.

Lemma covered_nil f : ¬ covered [] f.
Proof. unfold covered. set_solver. Qed.

Lemma range_sum_app l1 l2 : range_sum (l1 ++ l2) = range_sum l1 + range_sum l2.
Proof. induction l1 as [|e l1 IH]; simpl in *; lia. Qed.

Lemma length_as_slice r :
  (rl_len r ≤ length (entries r))%nat → length (as_slice r) = rl_len r.
Proof. intros. unfold as_slice. rewrite length_take. lia. Qed.

Lemma as_slice_lookup r i :
  (i < rl_len r)%nat → as_slice r !! i = entries r !! i.
Proof. intros. unfold as_slice. by rewrite lookup_take_lt by lia. Qed.

(** The scan finds the first range that does not start before [start]. *)
Lemma scan_start_spec es start n : ∀ i,
  (i + n ≤ length es)%nat →
  ∃ j, scan_start es start i n = Some j ∧ (i ≤ j ≤ i + n)%nat ∧
    (∀ k e, (i ≤ k < j)%nat → es !! k = Some e → e.1 < start) ∧
    (∀ e, (j < i + n)%nat → es !! j = Some e → start <= e.1).
Proof.
  induction n as [|n IH]; intros i Hlen; simpl.
  { exists i. repeat split; try lia; intros; lia. }
  destruct (lookup_lt_is_Some_2 es i) as [x Hx]; [lia|]. rewrite Hx; simpl.
  case_decide as Hlt.
  - destruct (IH (S i)) as (j & Hj & Hb & Hlow & Hhigh); [lia|].
    exists j. repeat split; [done|lia|lia| |].
    + intros k e Hk He. destruct (decide (k = i)) as [->|]; [congruence|].
      eapply Hlow; [|done]. lia.
    + intros e Hb' He. apply Hhigh; [lia|done].
  - exists i. repeat split; try lia; intros; simplify_eq; lia.
Qed.

(** ** Insertion keeps the ranges sorted, separated and exact *)

(** The loop absorbs at most one following range, the one that starts where
    the new range ends. *)
Lemma merge_next_spec fuel r pre post start len
    (Q : Z → RangeList → Prop) (Qe : FrameAllocError → RangeList → Prop) :
  wf_ranges r → as_slice r = pre ++ post → range_ok (start, len) →
  Forall (λ e, start <= e.1) post → (length post < fuel)%nat →
  (∀ e, e ∈ post → in_range (start, len) e.1 → Qe InvalidMemoryMap r) →
  (∀ r' post' len',
     (rl_len r' ≤ length (entries r'))%nat → length (entries r') = length (entries r) →
     as_slice r' = pre ++ post' →
     (post' = post ∧ len' = len ∨
      ∃ e, post = e :: post' ∧ e.1 = start + len ∧ len' = len + e.2) →
     Forall (λ e, start + len' < e.1) post' → Q len' r') →
  wp_res (merge_next fuel (length pre) start len) r Q Qe.
Proof.
  intros [Hlen Hsep] Hsl (Hs0 & Hl0 & Hmax) Hge Hfuel HQe HQ. simpl in *.
  destruct fuel as [|fuel]; [lia|].
  pose proof (length_as_slice r Hlen) as Hls. rewrite Hsl, length_app in Hls.
  rewrite Hsl, separated_app in Hsep. destruct Hsep as (Hpre & Hpost & Hgap).
  simpl. wp_run. case_decide as Hi.
  2:{ destruct post; [|simpl in *; lia]. wp_run. eapply HQ; eauto. }
  destruct post as [|e post]; [simpl in *; lia|].
  destruct fuel as [|fuel]; [simpl in *; lia|].
  apply separated_cons in Hpost as (Hok & Hpost & Hgape). destruct Hok as (He0 & He1 & He2).
  assert (entries r !! length pre = Some e) as He.
  { rewrite <- as_slice_lookup by done. rewrite Hsl. by apply list_lookup_middle. }
  rewrite He, (checked_add_Some _ start len) by lia. wp_run.
  apply Forall_cons in Hge as [Hge _].
  case_decide as Hlt.
  { wp_run. eapply HQe; [left|]. unfold in_range; simpl; lia. }
  case_decide as Hne.
  { wp_run. eapply HQ; eauto. apply Forall_cons; split; [lia|].
    apply Forall_forall. intros y Hy. specialize (Hgape y Hy). unfold gap in *. lia. }
  rewrite (checked_add_Some _ len) by lia. wp_run.
  apply remove_at_spec; [done|lia|]. intros r1 Hr1 Hr1' Hsl1.
  rewrite Hsl in Hsl1. rewrite take_app_length in Hsl1.
  change (S (length pre)) with (1 + length pre)%nat in Hsl1.
  rewrite Nat.add_comm, drop_app_add in Hsl1. simpl in Hsl1.
  assert (Hall : Forall (λ e', start + (len + e.2) < e'.1) post).
  { apply Forall_forall. intros y Hy. specialize (Hgape y Hy). unfold gap in *. lia. }
  assert (Hq : Q (len + e.2) r1).
  { eapply (HQ r1 post); [lia|done|done| |done]. right. exists e. repeat split; auto; lia. }
  simpl. wp_run. case_decide as Hi1; [|by wp_run].
  assert (rl_len r1 ≤ length (entries r1))%nat as Hle1 by lia.
  pose proof (length_as_slice r1 Hle1) as Hls1.
  rewrite Hsl1, length_app in Hls1. destruct post as [|e1 post]; [simpl in *; lia|].
  assert (entries r1 !! length pre = Some e1) as ->.
  { rewrite <- as_slice_lookup by done. rewrite Hsl1. by apply list_lookup_middle. }
  rewrite (checked_add_Some _ start) by lia. wp_run.
  apply Forall_cons in Hall as [Hall _].
  rewrite decide_False by lia. rewrite decide_True by lia. by wp_run.
Qed.

Lemma separated_insert pre e post :
  separated pre → separated post → range_ok e →
  (∀ x, x ∈ pre → gap x e) → (∀ y, y ∈ post → gap e y) →
  separated (pre ++ e :: post).
Proof.
  intros Hpre Hpost He Hx Hy. apply separated_app. repeat split.
  - apply Hpre.
  - apply Hpre.
  - apply separated_cons. done.
  - apply separated_cons. done.
  - intros x y Hxin [->|Hyin]%elem_of_cons; [auto|].
    specialize (Hx x Hxin). specialize (Hy y Hyin). destruct He as (?&?&?). unfold gap in *. lia.
Qed.

(** What a successful insertion of [start, start + len) promises about the new
    list of ranges [l'] compared with the old one [l]. *)
Definition inserted (l l' : list (Z * Z)) (start len : Z) : Prop :=
  separated l' ∧
  (∀ f, covered l' f ↔ covered l f ∨ in_range (start, len) f) ∧
  (∀ f, covered l f → ¬ in_range (start, len) f) ∧
  range_sum l' = range_sum l + len.

Lemma scan_split r start :
  wf_ranges r →
  ∃ pre post, as_slice r = pre ++ post ∧
    scan_start (entries r) start 0 (rl_len r) = Some (length pre) ∧
    Forall (λ e, e.1 < start) pre ∧ Forall (λ e, start <= e.1) post.
Proof.
  intros [Hlen Hsep].
  destruct (scan_start_spec (entries r) start (rl_len r) 0) as (j & Hj & Hb & Hlow & Hhigh);
    [lia|].
  exists (take j (as_slice r)), (drop j (as_slice r)).
  assert (length (take j (as_slice r)) = j) as Hlt.
  { rewrite length_take, length_as_slice by done. lia. }
  rewrite Hlt, take_drop. repeat split; auto.
  - apply Forall_lookup. intros k e [Hk ?]%lookup_take_Some.
    apply (Hlow k e); [lia|]. rewrite <- as_slice_lookup; [done|lia].
  - destruct (drop j (as_slice r)) as [|e post] eqn:Hd; [constructor|].
    assert (as_slice r !! j = Some e) as He.
    { rewrite <- (Nat.add_0_r j), <- lookup_drop, Hd. done. }
    assert (j < rl_len r)%nat.
    { rewrite <- (length_as_slice r Hlen). by eapply lookup_lt_Some. }
    assert (start <= e.1) as Hse.
    { apply Hhigh; [lia|]. by rewrite <- as_slice_lookup. }
    apply Forall_cons; split; [done|].
    rewrite <- (take_drop j (as_slice r)), Hd in Hsep.
    apply separated_app in Hsep as (_ & Hsep & _).
    apply separated_cons in Hsep as ((?&?&?) & _ & Hg).
    apply Forall_forall. intros y Hy. specialize (Hg y Hy). unfold gap in Hg. lia.
Qed.

Lemma inserted_here pre post start len :
  separated (pre ++ post) → range_ok (start, len) →
  (∀ x, x ∈ pre → gap x (start, len)) → (∀ y, y ∈ post → gap (start, len) y) →
  inserted (pre ++ post) (pre ++ (start, len) :: post) start len.
Proof.
  intros (Hpre & Hpost & _)%separated_app Hok Hx Hy.
  split; [by apply separated_insert|]. split; [|split].
  - intros f. rewrite !covered_app, covered_cons. tauto.
  - intros f [(e & He & Hf)|(e & He & Hf)]%covered_app Hin;
      [specialize (Hx e He)|specialize (Hy e He)]; unfold gap, in_range in *; simpl in *; lia.
  - rewrite !range_sum_app. simpl. lia.
Qed.

(** Absorbing the range that follows gives the same frames as inserting beside it. *)
Lemma inserted_absorb pre e post start len :
  separated (pre ++ e :: post) → range_ok (start, len) →
  (∀ x, x ∈ pre → gap x (start, len)) → e.1 = start + len →
  inserted (pre ++ e :: post) (pre ++ (start, len + e.2) :: post) start len.
Proof.
  intros (Hpre & Hpost & Hg)%separated_app Hok Hx He.
  apply separated_cons in Hpost as ((He0 & He1 & He2) & Hpost & Hge).
  destruct Hok as (Hs & Hl & Hm). simpl in *.
  split; [apply separated_insert; auto|split; [|split]].
  - split; simpl; lia.
  - intros y Hy. specialize (Hge y Hy). unfold gap in *. simpl. lia.
  - intros f. rewrite !covered_app, !covered_cons. unfold in_range. simpl.
    assert (start <= f < start + (len + e.2) ↔
            e.1 <= f < e.1 + e.2 ∨ start <= f < start + len) by lia. tauto.
  - intros f [(e' & He' & Hf)|(e' & He' & Hf)]%covered_app Hin.
    + specialize (Hx e' He'). unfold gap, in_range in *; simpl in *; lia.
    + apply elem_of_cons in He' as [->|He'].
      * unfold in_range in *; simpl in *; lia.
      * specialize (Hge e' He'). unfold gap, in_range in *; simpl in *; lia.
  - rewrite !range_sum_app. simpl. lia.
Qed.

Lemma insert_tail_spec r pre post start len
    (Q : unit → RangeList → Prop) (Qe : FrameAllocError → RangeList → Prop) :
  wf_ranges r → as_slice r = pre ++ post → range_ok (start, len) →
  (∀ x, x ∈ pre → gap x (start, len)) → Forall (λ e, start <= e.1) post →
  (∀ e, e ∈ post → in_range (start, len) e.1 → Qe InvalidMemoryMap r) →
  (∀ r', rl_len r = length (entries r) → Qe MetadataExhausted r') →
  (∀ r', wf_ranges r' → length (entries r') = length (entries r) →
         (rl_len r' ≤ S (rl_len r))%nat →
         inserted (pre ++ post) (as_slice r') start len → Q () r') →
  wp_res (merge_next (S (rl_len r)) (length pre) start len) r
         (λ len r', wp_res (insert_at (length pre) (start, len)) r' Q Qe) Qe.
Proof.
  intros Hwf Hsl Hok Hpre Hpost HQe HQf HQ. pose proof Hwf as [Hlen Hsep].
  pose proof (length_as_slice r Hlen) as Hls. rewrite Hsl, length_app in Hls.
  rewrite Hsl in Hsep.
  apply (merge_next_spec _ r pre post); auto; [lia|].
  intros r1 post' len' Hle1 Hc1 Hsl1 Hcase Hgt.
  pose proof (length_as_slice r1 Hle1) as Hls1. rewrite Hsl1, length_app in Hls1.
  apply insert_at_spec; [lia|lia| |].
  { intros Hf. apply HQf. destruct Hcase as [[-> _]|(e & -> & _)]; simpl in *; lia. }
  intros r2 Hn2 Hc2 Hle2 Hsl2. rewrite Hsl1, take_app_length, drop_app_length in Hsl2.
  assert (inserted (pre ++ post) (as_slice r2) start len) as Hins.
  { rewrite Hsl2. destruct Hcase as [[-> ->]|(e & -> & He & ->)].
    - apply inserted_here; auto. intros y Hy. rewrite Forall_forall in Hgt. by apply Hgt.
    - by apply inserted_absorb. }
  apply HQ; [split; [done|apply Hins]|congruence| |done].
  destruct Hcase as [[-> _]|(e & -> & _)]; simpl in *; lia.
Qed.

(** [insert_merged_sorted] either adds exactly the frames of the new range, or
    reports a range that overlaps an existing one, or a full table. *)
Lemma insert_merged_sorted_spec r start len :
  wf_ranges r → range_ok (start, len) →
  wp_res (insert_merged_sorted start len) r
    (λ _ r', wf_ranges r' ∧ length (entries r') = length (entries r) ∧
             (rl_len r' ≤ S (rl_len r))%nat ∧ inserted (as_slice r) (as_slice r') start len)
    (λ e _, (e = InvalidMemoryMap ∧ ∃ f, covered (as_slice r) f ∧ in_range (start, len) f) ∨
            (e = MetadataExhausted ∧ rl_len r = length (entries r))).
Proof.
  intros Hwf Hok. pose proof Hwf as [Hlen Hsep]. pose proof Hok as (Hs0 & Hl0 & Hm). simpl in *.
  unfold insert_merged_sorted. rewrite decide_False by lia. wp_run.
  destruct (scan_split r start Hwf) as (pre & post & Hsl & Hscan & Hpre & Hpost).
  rewrite Hscan. wp_run.
  rewrite Hsl. rewrite Hsl in Hsep. pose proof (length_as_slice r Hlen) as Hls.
  rewrite Hsl, length_app in Hls.
  assert (∀ e, e ∈ post → in_range (start, len) e.1 →
    ∃ f, covered (pre ++ post) f ∧ in_range (start, len) f) as Hov.
  { intros e He Hin. exists e.1. split; [|done].
    apply separated_app in Hsep as (_ & [Hf _] & _). rewrite Forall_forall in Hf.
    destruct (Hf e He) as (?&?&?). exists e. split; [set_solver|]. unfold in_range. lia. }
  case_decide as Hi.
  2:{ destruct pre; [|simpl in *; lia]. wp_run.
      apply (insert_tail_spec r [] post); eauto; set_solver. }
  destruct (exists_last (l:=pre)) as (pre' & p & ->); [by intros ->; simpl in *; lia|].
  rewrite length_app, Nat.add_sub. simpl.
  rewrite <- app_assoc in *. simpl in *.
  assert (entries r !! length pre' = Some p) as ->.
  { rewrite <- as_slice_lookup by (rewrite ?length_app in *; simpl in *; lia).
    rewrite Hsl. by apply list_lookup_middle. }
  pose proof Hsep as Hsep'.
  apply separated_app in Hsep' as (Hsp & Hsq & Hg).
  apply separated_cons in Hsq as ((Hp0 & Hp1 & Hp2) & Hsq & Hgp).
  wp_run. rewrite (checked_add_Some _ p.1) by lia. wp_run.
  apply Forall_app in Hpre as [Hpre Hpp]. apply Forall_cons_1 in Hpp as [Hpp _].
  assert (∀ x, x ∈ pre' → gap x p) as Hgx by (intros; apply Hg; set_solver).
  case_decide as Hlt.
  { wp_run. left. split; [done|]. exists start. split; [|unfold in_range; simpl; lia].
    exists p. split; [set_solver|]. unfold in_range. lia. }
  case_decide as Heq.
  2:{ wp_run. change (length pre' + 1)%nat with (length pre' + length [p])%nat.
      rewrite <- length_app.
      apply (insert_tail_spec r (pre' ++ [p]) post); rewrite <- ?app_assoc; simpl; eauto.
      intros x [Hx| ->%list_elem_of_singleton]%elem_of_app; unfold gap; simpl; [|lia].
      specialize (Hgx x Hx). unfold gap in Hgx. lia. }
  rewrite (checked_add_Some _ p.2) by lia. wp_run.
  apply remove_at_spec; [done|rewrite ?length_app in *; simpl in *; lia|].
  intros r1 Hr1 Hc1 Hsl1. rewrite Hsl, take_app_length in Hsl1.
  change (S (length pre')) with (1 + length pre')%nat in Hsl1.
  rewrite Nat.add_comm, drop_app_add in Hsl1. simpl in Hsl1. wp_run.
  rewrite length_app in Hls. simpl in Hls.
  apply (insert_tail_spec r1 pre' post).
  - split; [lia|]. rewrite Hsl1. apply separated_app. repeat split; try apply Hsp; try apply Hsq.
    intros x y Hx Hy. apply Hg; set_solver.
  - done.
  - split; simpl; lia.
  - intros x Hx. specialize (Hgx x Hx). unfold gap in *. simpl. lia.
  - eapply Forall_impl; [exact Hpost|]. simpl. lia.
  - intros e He Hin. left. split; [done|].
    apply (Hov e He). rewrite Forall_forall in Hpost. specialize (Hpost e He).
    unfold in_range in *. simpl in *. lia.
  - intros r' Hf. lia.
  - intros r' Hwf' Hc' Hn' (Hs' & Hcov & Hdis & Hsum). split; [done|]. split; [lia|].
    split; [lia|]. split; [done|]. split; [|split].
    + intros f. rewrite Hcov, !covered_app, covered_cons. unfold in_range. simpl.
      assert (p.1 <= f < p.1 + (p.2 + len) ↔
              p.1 <= f < p.1 + p.2 ∨ start <= f < start + len) by lia. tauto.
    + intros f. rewrite covered_app, covered_cons. intros Hf Hin.
      assert (covered (pre' ++ post) f ∨ in_range p f) as [Hf'|Hf'].
      { rewrite covered_app. tauto. }
      * apply (Hdis f Hf'). unfold in_range in *. simpl in *. lia.
      * unfold in_range in *. simpl in *. lia.
    + rewrite Hsum, !range_sum_app. simpl. lia.
Qed.

(** ** The total number of frames *)

Lemma range_sum_nonneg l : Forall (λ e : Z * Z, 0 <= e.2) l → 0 <= range_sum l.
Proof. induction 1; simpl; lia. Qed.

Lemma total_frames_loop_spec es n : ∀ i total,
  (i + n ≤ length es)%nat → Forall (λ e, 0 <= e.2) (take n (drop i es)) → 0 <= total →
  total + range_sum (take n (drop i es)) <= u64_max →
  total_frames_loop es i n total = Ok (total + range_sum (take n (drop i es))).
Proof.
  induction n as [|n IH]; intros i total Hlen Hnn Ht Hmax.
  { simpl. f_equal. lia. }
  destruct (lookup_lt_is_Some_2 es i) as [[s l] Hx]; [lia|].
  assert (drop i es = (s, l) :: drop (S i) es) as Hd by (by apply drop_S).
  simpl. rewrite Hx. rewrite Hd in *. simpl in *.
  apply Forall_cons_1 in Hnn as [Hl Hnn]. simpl in Hl.
  pose proof (range_sum_nonneg _ Hnn).
  rewrite (checked_add_Some _ total) by lia.
  rewrite IH by (done || lia). f_equal. lia.
Qed.

Lemma range_sum_bound l B :
  separated l → 0 <= B → (∀ e, e ∈ l → e.1 + e.2 <= B) → 0 <= range_sum l <= B.
Proof.
  intros Hsep HB. assert (Hgen : ∀ lo, 0 <= lo → lo <= B → separated l →
    (∀ e, e ∈ l → lo <= e.1) → (∀ e, e ∈ l → e.1 + e.2 <= B) → 0 <= range_sum l <= B - lo).
  { clear. induction l as [|e l IH]; intros lo Hlo HB Hsep Hge Hle; simpl; [lia|].
    apply separated_cons in Hsep as ((?&?&?) & Hsep & Hg).
    assert (lo <= e.1) by set_solver. assert (e.1 + e.2 <= B) by set_solver.
    destruct (IH (e.1 + e.2)); [lia|lia|done| |set_solver|lia].
    intros y Hy. specialize (Hg y Hy). unfold gap in Hg. lia. }
  intros Hle. rewrite <- (Z.sub_0_r B). apply Hgen; [lia|lia|done| |done].
  intros e He. destruct Hsep as [Hf _]. rewrite Forall_forall in Hf. by apply Hf.
Qed.

Lemma range_total_frames_spec r :
  wf_ranges r → (∀ e, e ∈ as_slice r → e.1 + e.2 <= 2 ^ 52) →
  range_total_frames r = Ok (range_sum (as_slice r)).
Proof.
  intros [Hlen Hsep] Hb. unfold range_total_frames.
  destruct (range_sum_bound (as_slice r) (2 ^ 52)) as [_ Hs]; [done|lia|done|].
  unfold as_slice in *. rewrite total_frames_loop_spec; rewrite ?drop_0; auto; try lia.
  - destruct Hsep as [Hf _]. eapply Forall_impl; [exact Hf|]. intros e (?&?&?). lia.
  - unfold u64_max. lia.
Qed.

(** ** The usable ranges are the frames inside usable regions *)

(** The frame [f] lies entirely inside a usable region of the memory map. *)
Definition usable_frame (mem_map : list MemoryRegion) (f : Z) : Prop :=
  ∃ g, g ∈ mem_map ∧ region_kind g = KIND_USABLE ∧
    region_start g <= f * PAGE_SIZE ∧ (f + 1) * PAGE_SIZE <= region_start g + region_len g.

(** A region with [u64] fields that does not start in the last page of the
    address space. *)
Definition region_ok (g : MemoryRegion) : Prop :=
  0 <= region_start g <= u64_max - PAGE_SIZE ∧ 0 <= region_len g <= u64_max.

Lemma align_up_page v :
  0 <= v <= u64_max - PAGE_SIZE → align_up v PAGE_SIZE = Some ((v + 4095) / 4096 * 4096).
Proof.
  intros Hv. rewrite PAGE_SIZE_eq in *. unfold align_up.
  rewrite checked_add_Some by lia. simpl. f_equal.
  rewrite (land_not_mask _ 12) by (unfold in_u64; lia).
  pose proof (Z.div_mod (v + 4096 - 1) 4096). change (2 ^ 12) with 4096.
  replace (v + 4095) with (v + 4096 - 1) by lia. lia.
Qed.

Lemma align_down_page v : in_u64 v → align_down v PAGE_SIZE = v / 4096 * 4096.
Proof.
  intros Hv. unfold align_down. rewrite PAGE_SIZE_eq.
  rewrite (land_not_mask _ 12) by (done || lia). change (2 ^ 12) with 4096.
  pose proof (Z.div_mod v 4096). lia.
Qed.

Lemma usable_frame_cons g m f :
  usable_frame (g :: m) f ↔ usable_frame [g] f ∨ usable_frame m f.
Proof. unfold usable_frame. set_solver. Qed.

(** The frames of the range computed from one usable region. *)
Lemma region_frames g f start end_ :
  region_kind g = KIND_USABLE →
  start = (region_start g + 4095) / 4096 * 4096 →
  end_ = (region_start g + region_len g) / 4096 * 4096 → start < end_ →
  in_range (Z.shiftr start PAGE_SHIFT, Z.shiftr (end_ - start) PAGE_SHIFT) f ↔
  usable_frame [g] f.
Proof.
  intros Hk -> -> Hlt. unfold in_range, PAGE_SHIFT. simpl.
  rewrite !Z.shiftr_div_pow2 by lia. change (2 ^ 12) with 4096.
  rewrite <- Z.mul_sub_distr_r, !Z.div_mul by lia.
  unfold usable_frame. rewrite PAGE_SIZE_eq. split.
  - intros Hf. exists g. split; [set_solver|]. split; [done|].
    Z.div_mod_to_equations. lia.
  - intros (g' & ->%list_elem_of_singleton & _ & H1 & H2). Z.div_mod_to_equations. lia.
Qed.

Lemma region_empty g f :
  (region_start g + region_len g) / 4096 * 4096 <= (region_start g + 4095) / 4096 * 4096 →
  ¬ usable_frame [g] f.
Proof.
  intros Hle (g' & ->%list_elem_of_singleton & _ & H1 & H2). rewrite PAGE_SIZE_eq in *.
  Z.div_mod_to_equations. lia.
Qed.

Definition bounded_frames (l : list (Z * Z)) : Prop := ∀ f, covered l f → f < 2 ^ 52.

(** Why [collect_usable_ranges] may fail on the map [m], given that the frames
    in [seen] were collected before. *)
Definition collect_error (m : list MemoryRegion) (seen : Z → Prop) (full : Prop)
    (e : FrameAllocError) : Prop :=
  (e = InvalidMemoryMap ∧
     ((∃ g, g ∈ m ∧ region_kind g = KIND_USABLE ∧ u64_max < region_start g + region_len g) ∨
      (∃ m1 g m2 f, m = m1 ++ g :: m2 ∧ usable_frame [g] f ∧ (seen f ∨ usable_frame m1 f)))) ∨
  (e = MetadataExhausted ∧ full).

Lemma collect_error_cons g m seen full e :
  collect_error m (λ f, seen f ∨ usable_frame [g] f) full e →
  collect_error (g :: m) seen full e.
Proof.
  intros [(-> & [(h & Hh & ?)|(m1 & h & m2 & f & -> & Hf & Hor)])|?].
  - left. split; [done|]. left. exists h. split; [set_solver|done].
  - left. split; [done|]. right. exists (g :: m1), h, m2, f.
    split; [done|]. split; [done|]. rewrite usable_frame_cons. tauto.
  - by right.
Qed.

Lemma collect_error_weaken m (P P' : Z → Prop) full e :
  (∀ f, P f → P' f) → collect_error m P full e → collect_error m P' full e.
Proof. unfold collect_error. naive_solver. Qed.

Lemma collect_loop_spec m : ∀ r,
  wf_ranges r → Forall region_ok m → bounded_frames (as_slice r) →
  wp_res (collect_loop m) r
    (λ _ r', wf_ranges r' ∧ length (entries r') = length (entries r) ∧
             bounded_frames (as_slice r') ∧
             (∀ f, covered (as_slice r') f ↔ covered (as_slice r) f ∨ usable_frame m f))
    (λ e _, collect_error m (covered (as_slice r))
              (length (entries r) < rl_len r + length m)%nat e).
Proof.
  induction m as [|g m IH]; intros r Hwf Hok Hb; simpl.
  { wp_run. repeat split; try apply Hwf; auto. intros [?|(g & Hg & _)]; [done|set_solver]. }
  apply Forall_cons_1 in Hok as [(Hs & Hl) Hok].
  assert (∀ r', wf_ranges r' → length (entries r') = length (entries r) →
    bounded_frames (as_slice r') → (rl_len r' ≤ S (rl_len r))%nat →
    (∀ f, covered (as_slice r') f ↔ covered (as_slice r) f ∨ usable_frame [g] f) →
    wp_res (collect_loop m) r'
      (λ _ r'', wf_ranges r'' ∧ length (entries r'') = length (entries r) ∧
         bounded_frames (as_slice r'') ∧
         (∀ f, covered (as_slice r'') f ↔ covered (as_slice r) f ∨ usable_frame (g :: m) f))
      (λ e _, collect_error (g :: m) (covered (as_slice r))
         (length (entries r) < rl_len r + S (length m))%nat e)) as Hrest.
  { intros r' Hwf' Hlen' Hb' Hn' Hcov. eapply wp_res_mono; [by apply IH| |].
    - intros _ r'' (Hwf'' & Hlen'' & Hb'' & Hcov''). split; [done|]. split; [congruence|].
      split; [done|]. intros f. rewrite Hcov'', Hcov, (usable_frame_cons g m). tauto.
    - intros e ? He. apply collect_error_cons.
      destruct He as [?|[? ?]]; [|right; split; [done|lia]].
      eapply (collect_error_weaken _ (covered (as_slice r'))); [|by left]. intros f. apply Hcov. }
  assert ((∀ f, ¬ usable_frame [g] f) →
    ∀ f, covered (as_slice r) f ↔ covered (as_slice r) f ∨ usable_frame [g] f) as Hskip.
  { intros Hn f. specialize (Hn f). tauto. }
  case_decide as Hk.
  { apply Hrest; auto. apply Hskip. intros f (h & ->%list_elem_of_singleton & ? & _). done. }
  destruct (decide (region_start g + region_len g <= u64_max)).
  2:{ rewrite checked_add_None by lia. wp_run. left. split; [done|]. left.
      exists g. split; [left|]. split; [done|lia]. }
  rewrite checked_add_Some by lia. wp_run. rewrite align_up_page by lia. wp_run.
  rewrite align_down_page by (unfold in_u64; lia).
  case_decide as Hle.
  { apply Hrest; auto. apply Hskip. intros f. by apply region_empty. }
  set (start := (region_start g + 4095) / 4096 * 4096) in *.
  set (end_ := (region_start g + region_len g) / 4096 * 4096) in *.
  pose proof (λ f, region_frames g f start end_ Hk eq_refl eq_refl ltac:(lia)) as Hfr.
  assert (range_ok (Z.shiftr start PAGE_SHIFT, Z.shiftr (end_ - start) PAGE_SHIFT) ∧
          Z.shiftr start PAGE_SHIFT + Z.shiftr (end_ - start) PAGE_SHIFT <= 2 ^ 52) as [Hrok H52].
  { unfold range_ok, PAGE_SHIFT, u64_max in *. simpl.
    rewrite !Z.shiftr_div_pow2 by lia. change (2 ^ 12) with 4096.
    unfold start, end_ in *. rewrite <- Z.mul_sub_distr_r, !Z.div_mul by lia.
    change PAGE_SIZE with 4096 in *. Z.div_mod_to_equations. lia. }
  wp_run. eapply wp_res_mono; [by apply insert_merged_sorted_spec| |].
  - intros _ r' (Hwf' & Hlen' & Hn' & _ & Hcov & _ & _). cbv beta. apply Hrest; auto.
    + intros f [Hf|Hf]%Hcov; [by apply Hb|]. unfold in_range in Hf. simpl in Hf. lia.
    + intros f. rewrite Hcov, Hfr. done.
  - intros e ? [(-> & f & Hf & Hin)|(-> & Hfull)].
    + left. split; [done|]. right. exists [], g, m, f. split; [done|].
      rewrite <- Hfr. auto.
    + right. split; [done|lia].
Qed.

(** ** Claims *)

(** The frames handed to the buddy allocator are exactly the frames that
    lie entirely inside a usable region of the boot memory map: on success
    [collect_usable_ranges] returns sorted ranges, separated by at least one
    frame, whose frames are those and no others; it fails only when a usable
    region overflows the address space, when two usable regions share a frame,
    or when the map has more regions than the range table has slots. *)
Theorem collect_usable_ranges_exact r m :
  (rl_len r ≤ length (entries r))%nat → Forall region_ok m →
  wp_res (collect_usable_ranges m) r
    (λ _ r', separated (as_slice r') ∧
             (∀ f, covered (as_slice r') f ↔ usable_frame m f))
    (λ e _, collect_error m (λ _, False) (length (entries r) < length m)%nat e).
Proof.
  intros Hlen Hok. unfold collect_usable_ranges. wp_run.
  assert (as_slice (RangeList_clear r) = []) as Hnil by done.
  eapply wp_res_mono; [apply collect_loop_spec; [split; [simpl; lia|]|done|]| |].
  - rewrite Hnil. split; constructor.
  - rewrite Hnil. by intros f []%covered_nil.
  - intros _ r' (Hwf & _ & _ & Hcov). rewrite Hnil in Hcov. split; [apply Hwf|].
    intros f. rewrite Hcov. split; [intros [[]%covered_nil|?]; done|auto].
  - intros e ? He. rewrite Hnil in He. eapply collect_error_weaken; [|exact He].
    apply covered_nil.
Qed.

Lemma collect_usable_ranges_exact_witness :
  wp_res (collect_usable_ranges [mkMemoryRegion 4000 20000 0; mkMemoryRegion 28672 8192 0])
    (RangeList_new 4)
    (λ _ r', separated (as_slice r') ∧ (∀ f, covered (as_slice r') f ↔
       usable_frame [mkMemoryRegion 4000 20000 0; mkMemoryRegion 28672 8192 0] f))
    (λ e _, collect_error [mkMemoryRegion 4000 20000 0; mkMemoryRegion 28672 8192 0]
       (λ _, False) (4 < 2)%nat e).
Proof.
  apply (collect_usable_ranges_exact (RangeList_new 4)).
  - simpl. lia.
  - apply Forall_cons; split; [|apply Forall_cons; split; [|apply Forall_nil; done]];
      unfold region_ok, u64_max; rewrite PAGE_SIZE_eq; simpl; lia.
Defined.

(** A usable region that starts in the last page of the address space is
    not rejected although it passes the overflow check of its end: the
    rounding [align_up] overflows instead (a panic where overflow checks are
    on, and a wrap to address zero where they are off). *)
Theorem collect_usable_ranges_last_page r start len m :
  u64_max - PAGE_SIZE < start → 0 <= len → start + len <= u64_max →
  (collect_usable_ranges (mkMemoryRegion start len KIND_USABLE :: m) r).1 = Panic.
Proof.
  intros Hs Hl Hmax. unfold collect_usable_ranges, mbind, M_bind, mmodify. simpl.
  unfold mbind, M_bind. rewrite checked_add_Some by done. simpl.
  unfold align_up. rewrite checked_add_None by lia. done.
Qed.

Lemma collect_usable_ranges_last_page_witness :
  (collect_usable_ranges [mkMemoryRegion (u64_max - 100) 50 KIND_USABLE] (RangeList_new 4)).1
  = Panic.
Proof.
  apply (collect_usable_ranges_last_page (RangeList_new 4) (u64_max - 100) 50 []);
    unfold u64_max; rewrite ?PAGE_SIZE_eq; lia.
Defined.
