(* ===== verification/Buddy.v ===== *)
(** * The buddy frame allocator: data and operations

    Models [aether-frame/src/mm/buddy.rs]: the node pool, the per-CPU caches,
    the global free lists, and every operation of [BuddyAllocator], written on
    the arrays and index-linked lists of the source.  An array access that is
    out of range, an [expect] on [None] and an unsigned subtraction below zero
    are [Panic]; the loops that walk a linked list carry fuel.  The const
    parameters [MAX_USABLE_RANGES], [MAX_CPUS] and [MAX_BLOCK_NODES] are the
    lengths of the corresponding arrays.  [BuddyInv] holds the invariant and
    [BuddyProof] the theorems. *)

From S2P Require Import Prelude Frame RangeList.

(** ** Data *)

Definition MAX_ORDER_SLOTS : nat := 64.
Definition PER_CPU_CACHE_MAX_ORDER : nat := 4.

Record BlockNode := mkNode {
  bn_start : Z;
  bn_order : nat;
  bn_refcount : Z;
  bn_next : option nat;
}.

Definition BlockNode_EMPTY : BlockNode := mkNode 0 0 0 None.

Record NodePool := mkPool {
  pool_nodes : list BlockNode;
  unused_head : option nat;
  unused_len : nat;
}.

Record PerCpuCache := mkCache {
  cache_heads : list (option nat);
  cache_lens : list nat;
}.

Definition PerCpuCache_new : PerCpuCache :=
  mkCache (replicate (PER_CPU_CACHE_MAX_ORDER + 1) None)
          (replicate (PER_CPU_CACHE_MAX_ORDER + 1) 0%nat).

Record BuddyAllocator := mkBuddy {
  total_frames : Z;
  max_order : nat;
  cpu_count : nat;
  usable_ranges : RangeList;
  global_free_heads : list (option nat);
  global_free_lens : list nat;
  allocations_head : option nat;
  allocation_len : nat;
  per_cpu : list PerCpuCache;
  nodes : NodePool;
}.

(** Field updates. *)
Definition set_nodes (p : NodePool) (b : BuddyAllocator) : BuddyAllocator :=
  mkBuddy (total_frames b) (max_order b) (cpu_count b) (usable_ranges b)
    (global_free_heads b) (global_free_lens b) (allocations_head b) (allocation_len b)
    (per_cpu b) p.
Definition set_global (hs : list (option nat)) (ls : list nat) (b : BuddyAllocator)
    : BuddyAllocator :=
  mkBuddy (total_frames b) (max_order b) (cpu_count b) (usable_ranges b)
    hs ls (allocations_head b) (allocation_len b) (per_cpu b) (nodes b).
Definition set_allocations (h : option nat) (n : nat) (b : BuddyAllocator) : BuddyAllocator :=
  mkBuddy (total_frames b) (max_order b) (cpu_count b) (usable_ranges b)
    (global_free_heads b) (global_free_lens b) h n (per_cpu b) (nodes b).
Definition set_per_cpu (cs : list PerCpuCache) (b : BuddyAllocator) : BuddyAllocator :=
  mkBuddy (total_frames b) (max_order b) (cpu_count b) (usable_ranges b)
    (global_free_heads b) (global_free_lens b) (allocations_head b) (allocation_len b)
    cs (nodes b).

Definition MB := M BuddyAllocator FrameAllocError.

(** ** Arithmetic helpers *)

(** [1usize << order] *)
Definition block_size (order : nat) : Z := Z.shiftl 1 (Z.of_nat order).
#[global] Arguments block_size : simpl never.

(** [u64::leading_zeros] *)
Definition leading_zeros (v : Z) : Z := if v =? 0 then 64 else 63 - Z.log2 v.

Definition ceil_log2 (value : Z) : nat :=
  if value <=? 1 then 0%nat else Z.to_nat (64 - leading_zeros (value - 1)).

Definition floor_log2 (value : Z) : nat := Z.to_nat (64 - 1 - leading_zeros value).

Definition order_for_count (count : Z) (mo : nat) : outcome FrameAllocError nat :=
  if decide (count = 0) then Err InvalidCount
  else let order := ceil_log2 count in
       if decide (mo < order)%nat then Err InvalidCount else Ok order.

(** [1usize << PER_CPU_CACHE_MAX_ORDER.saturating_sub(order)] *)
Definition refill_batch (order : nat) : nat := (2 ^ (PER_CPU_CACHE_MAX_ORDER - order))%nat.

Definition high_watermark (order : nat) : nat := (refill_batch order * 2)%nat.

(** [while order > 0 && !start.is_multiple_of(block_size(order))] *)
Fixpoint fit_order_loop (start : Z) (order : nat) : nat :=
  match order with
  | O => O
  | S order' =>
      if decide (start mod block_size order = 0) then order else fit_order_loop start order'
  end.

Definition max_fit_order (start remaining : Z) (mo : nat) : nat :=
  fit_order_loop start (floor_log2 remaining `min` mo).

(** ** State access *)

Definition lift {A} (r : outcome FrameAllocError A) : MB A := λ b, (r, b).

Definition node_at (i : nat) : MB BlockNode :=
  b ← mget; mexpect (pool_nodes (nodes b) !! i).

Definition set_node (i : nat) (n : BlockNode) : MB unit :=
  b ← mget;
  if decide (i < length (pool_nodes (nodes b)))%nat
  then mput (set_nodes (mkPool (<[i:=n]> (pool_nodes (nodes b)))
                               (unused_head (nodes b)) (unused_len (nodes b))) b)
  else mpanic.

Definition set_next (i : nat) (nx : option nat) : MB unit :=
  n ← node_at i; set_node i (mkNode (bn_start n) (bn_order n) (bn_refcount n) nx).
Definition set_order (i : nat) (o : nat) : MB unit :=
  n ← node_at i; set_node i (mkNode (bn_start n) o (bn_refcount n) (bn_next n)).
Definition set_start (i : nat) (st : Z) : MB unit :=
  n ← node_at i; set_node i (mkNode st (bn_order n) (bn_refcount n) (bn_next n)).
Definition set_refcount (i : nat) (rc : Z) : MB unit :=
  n ← node_at i; set_node i (mkNode (bn_start n) (bn_order n) rc (bn_next n)).

Definition global_head (o : nat) : MB (option nat) :=
  b ← mget; mexpect (global_free_heads b !! o).

Definition set_global_head (o : nat) (h : option nat) : MB unit :=
  b ← mget;
  if decide (o < length (global_free_heads b))%nat
  then mput (set_global (<[o:=h]> (global_free_heads b)) (global_free_lens b) b)
  else mpanic.

(** [self.global_free_lens[order] += 1] *)
Definition incr_global_len (o : nat) : MB unit :=
  b ← mget; l ← mexpect (global_free_lens b !! o);
  mput (set_global (global_free_heads b) (<[o:=S l]> (global_free_lens b)) b).

(** [self.global_free_lens[order] -= 1] *)
Definition decr_global_len (o : nat) : MB unit :=
  b ← mget; l ← mexpect (global_free_lens b !! o);
  match l with
  | O => mpanic
  | S l' => mput (set_global (global_free_heads b) (<[o:=l']> (global_free_lens b)) b)
  end.

Definition cache_at (cpu : nat) : MB PerCpuCache :=
  b ← mget; mexpect (per_cpu b !! cpu).

Definition set_cache (cpu : nat) (c : PerCpuCache) : MB unit :=
  b ← mget; mput (set_per_cpu (<[cpu:=c]> (per_cpu b)) b).

Definition cache_len (cpu order : nat) : MB nat :=
  c ← cache_at cpu; mexpect (cache_lens c !! order).

(** ** The node pool *)

Definition has_unused (p : NodePool) (need : nat) : bool := (need <=? unused_len p)%nat.

Definition alloc_unused : MB nat :=
  b ← mget;
  index ← mok_or (unused_head (nodes b)) MetadataExhausted;
  n ← node_at index;
  _ ← mmodify (λ b, set_nodes (mkPool (pool_nodes (nodes b)) (bn_next n) (unused_len (nodes b))) b);
  _ ← set_next index None;
  b ← mget;
  match unused_len (nodes b) with
  | O => mpanic
  | S l => _ ← mput (set_nodes (mkPool (pool_nodes (nodes b)) (unused_head (nodes b)) l) b);
           mret index
  end.

Definition release_unused (index : nat) : MB unit :=
  b ← mget;
  _ ← set_node index (mkNode 0 0 0 (unused_head (nodes b)));
  mmodify (λ b, set_nodes (mkPool (pool_nodes (nodes b)) (Some index)
                                  (S (unused_len (nodes b)))) b).

(** [NodePool::init_in_place]: every node links to the next one. *)
Definition pool_init (CAP : nat) : NodePool :=
  mkPool (imap (λ i _, mkNode 0 0 0 (if decide (S i < CAP)%nat then Some (S i) else None))
               (replicate CAP ()))
         (if decide (CAP = 0)%nat then None else Some 0%nat) CAP.

(** ** Linked lists *)

(** The fuel of every list walk: a list without repetition has at most as many
    cells as the pool. *)
Definition walk_fuel : MB nat := mgets (λ b, S (length (pool_nodes (nodes b)))).

(** The loop of [find_allocation_index]. *)
Fixpoint find_start_loop (fuel : nat) (cursor : option nat) (start : Z) : MB (option nat) :=
  match cursor with
  | None => mret None
  | Some i =>
      match fuel with
      | O => mdiverge
      | S fuel' =>
          n ← node_at i;
          if decide (bn_start n = start) then mret (Some i)
          else find_start_loop fuel' (bn_next n) start
      end
  end.

Definition find_allocation_index (start : Z) : MB (option nat) :=
  b ← mget; fuel ← walk_fuel; find_start_loop fuel (allocations_head b) start.

(** The loop of [remove_allocation_node]. *)
Fixpoint remove_alloc_loop (fuel : nat) (previous cursor : option nat) (target : nat) : MB unit :=
  match cursor with
  | None => mthrow InvalidFrame
  | Some i =>
      match fuel with
      | O => mdiverge
      | S fuel' =>
          n ← node_at i;
          if decide (i = target) then
            let next := bn_next n in
            _ ← match previous with
                | Some p => set_next p next
                | None => mmodify (λ b, set_allocations next (allocation_len b) b)
                end;
            _ ← set_next i None;
            b ← mget;
            match allocation_len b with
            | O => mpanic
            | S l => mput (set_allocations (allocations_head b) l b)
            end
          else remove_alloc_loop fuel' (Some i) (bn_next n) target
      end
  end.

Definition remove_allocation_node (target : nat) : MB unit :=
  b ← mget; fuel ← walk_fuel; remove_alloc_loop fuel None (allocations_head b) target.

Definition cpu_push (cpu order index : nat) : MB unit :=
  _ ← set_order index order;
  _ ← set_refcount index 0;
  c ← cache_at cpu;
  h ← mexpect (cache_heads c !! order);
  _ ← set_next index h;
  l ← mexpect (cache_lens c !! order);
  set_cache cpu (mkCache (<[order:=Some index]> (cache_heads c)) (<[order:=S l]> (cache_lens c))).

Definition cpu_pop (cpu order : nat) : MB (option nat) :=
  c ← cache_at cpu;
  h ← mexpect (cache_heads c !! order);
  match h with
  | None => mret None
  | Some i =>
      n ← node_at i;
      l ← mexpect (cache_lens c !! order);
      match l with
      | O => mpanic
      | S l' =>
          _ ← set_cache cpu (mkCache (<[order:=bn_next n]> (cache_heads c))
                                     (<[order:=l']> (cache_lens c)));
          _ ← set_next i None;
          mret (Some i)
      end
  end.

(** The search loop of [global_insert_sorted]: the last cell that starts below
    [start] and the cell after it. *)
Fixpoint insert_search (fuel : nat) (previous cursor : option nat) (start : Z)
    : MB (option nat * option nat) :=
  match cursor with
  | None => mret (previous, None)
  | Some i =>
      match fuel with
      | O => mdiverge
      | S fuel' =>
          n ← node_at i;
          if decide (bn_start n = start) then mthrow InvalidFrame
          else if decide (start < bn_start n) then mret (previous, cursor)
          else insert_search fuel' (Some i) (bn_next n) start
      end
  end.

Definition global_insert_sorted (order index : nat) : MB unit :=
  n ← node_at index;
  h ← global_head order;
  fuel ← walk_fuel;
  '(previous, cursor) ← insert_search fuel None h (bn_start n);
  _ ← set_next index cursor;
  _ ← match previous with
      | Some p => set_next p (Some index)
      | None => set_global_head order (Some index)
      end;
  incr_global_len order.

Definition global_pop_first (order : nat) : MB (option nat) :=
  h ← global_head order;
  match h with
  | None => mret None
  | Some i =>
      n ← node_at i;
      _ ← set_global_head order (bn_next n);
      _ ← decr_global_len order;
      _ ← set_next i None;
      mret (Some i)
  end.

(** The loop of [global_remove_by_start]. *)
Fixpoint remove_start_loop (fuel : nat) (order : nat) (previous cursor : option nat) (start : Z)
    : MB (option nat) :=
  match cursor with
  | None => mret None
  | Some i =>
      match fuel with
      | O => mdiverge
      | S fuel' =>
          n ← node_at i;
          if decide (bn_start n = start) then
            let next := bn_next n in
            _ ← match previous with
                | Some p => set_next p next
                | None => set_global_head order next
                end;
            _ ← decr_global_len order;
            _ ← set_next i None;
            mret (Some i)
          else if decide (start < bn_start n) then mret None
          else remove_start_loop fuel' order (Some i) (bn_next n) start
      end
  end.

Definition global_remove_by_start (order : nat) (start : Z) : MB (option nat) :=
  h ← global_head order; fuel ← walk_fuel; remove_start_loop fuel order None h start.

(** ** Splitting and merging blocks *)

(** [while current_order <= self.max_order && self.global_free_heads[current_order].is_none()];
    [n] orders remain to be tried. *)
Fixpoint find_order_loop (n : nat) (current_order : nat) : MB nat :=
  match n with
  | O => mret current_order
  | S n' =>
      h ← global_head current_order;
      match h with
      | None => find_order_loop n' (S current_order)
      | Some _ => mret current_order
      end
  end.

(** [while current_order > order]: [current_order = order + n]. *)
Fixpoint split_loop (n : nat) (order index : nat) : MB unit :=
  match n with
  | O => mret ()
  | S n' =>
      let current_order := (order + n')%nat in
      nd ← node_at index;
      let buddy_start := bn_start nd + block_size current_order in
      buddy_index ← alloc_unused;
      _ ← set_node buddy_index (mkNode buddy_start current_order 0 None);
      _ ← global_insert_sorted current_order buddy_index;
      _ ← set_order index current_order;
      split_loop n' order index
  end.

Definition alloc_from_global (order : nat) : MB nat :=
  b ← mget;
  current_order ← find_order_loop (S (max_order b) - order) order;
  if decide (max_order b < current_order)%nat then mthrow OutOfMemory
  else
    let extra_nodes := (current_order - order)%nat in
    if negb (has_unused (nodes b) extra_nodes) then mthrow MetadataExhausted
    else
      popped ← global_pop_first current_order;
      index ← mexpect popped;
      _ ← set_order index current_order;
      _ ← split_loop extra_nodes order index;
      mret index.

(** [while order < self.max_order]: at most [max_order - order] merges. *)
Fixpoint merge_loop (n : nat) (block : Z) (order : nat) : MB (Z * nat) :=
  match n with
  | O => mret (block, order)
  | S n' =>
      let buddy := Z.lxor block (block_size order) in
      found ← global_remove_by_start order buddy;
      match found with
      | Some buddy_index =>
          _ ← release_unused buddy_index;
          merge_loop n' (block `min` buddy) (S order)
      | None => mret (block, order)
      end
  end.

Definition free_global_block (index : nat) : MB unit :=
  n ← node_at index;
  b ← mget;
  '(block, order) ← merge_loop (max_order b - bn_order n) (bn_start n) (bn_order n);
  _ ← set_start index block;
  _ ← set_order index order;
  _ ← set_refcount index 0;
  _ ← set_next index None;
  global_insert_sorted order index.

(** [while remaining > 0]: every iteration takes a node from the pool. *)
Fixpoint seed_loop (fuel : nat) (start remaining : Z) : MB unit :=
  if decide (0 < remaining) then
    match fuel with
    | O => mdiverge
    | S fuel' =>
        b ← mget;
        let order := max_fit_order start remaining (max_order b) in
        index ← alloc_unused;
        _ ← set_node index (mkNode start order 0 None);
        _ ← global_insert_sorted order index;
        seed_loop fuel' (start + block_size order) (remaining - block_size order)
    end
  else mret ().

Definition seed_global_free_region (start remaining : Z) : MB unit :=
  b ← mget; seed_loop (S (unused_len (nodes b))) start remaining.

(** ** Per-CPU caches *)

Definition checked_cpu (cpu : nat) : MB nat :=
  b ← mget; if decide (cpu < cpu_count b)%nat then mret cpu else mthrow InvalidCpu.

(** [while refill_count < target]: [n] refills remain; an [OutOfMemory] of the
    global lists ends the loop, any other error is returned. *)
Fixpoint refill_loop (n : nat) (cpu order : nat) : MB unit :=
  match n with
  | O => mret ()
  | S n' => λ b,
      match alloc_from_global order b with
      | (Ok index, b') => (_ ← cpu_push cpu order index; refill_loop n' cpu order) b'
      | (Err OutOfMemory, b') => (Ok (), b')
      | (Err e, b') => (Err e, b')
      | (Panic, b') => (Panic, b')
      | (Diverge, b') => (Diverge, b')
      end
  end.

Definition refill_per_cpu_cache (cpu order : nat) : MB unit :=
  _ ← refill_loop (refill_batch order) cpu order;
  l ← cache_len cpu order;
  if decide (l = 0)%nat then mthrow OutOfMemory else mret ().

(** [while self.per_cpu[cpu_id].len(order) > low]: every iteration pops one
    block, so the cache length bounds the iterations. *)
Fixpoint drain_loop (fuel : nat) (cpu order low : nat) : MB unit :=
  l ← cache_len cpu order;
  if decide (low < l)%nat then
    match fuel with
    | O => mdiverge
    | S fuel' =>
        popped ← cpu_pop cpu order;
        index ← mexpect popped;
        _ ← free_global_block index;
        drain_loop fuel' cpu order low
    end
  else mret ().

Definition drain_per_cpu_cache (cpu order : nat) : MB unit :=
  let low := refill_batch order in
  let high := high_watermark order in
  l ← cache_len cpu order;
  if decide (l <= high)%nat then mret ()
  else drain_loop l cpu order low.

Definition alloc_block (cpu order : nat) : MB nat :=
  cpu ← checked_cpu cpu;
  if decide (order <= PER_CPU_CACHE_MAX_ORDER)%nat then
    p ← cpu_pop cpu order;
    match p with
    | Some index => mret index
    | None =>
        _ ← refill_per_cpu_cache cpu order;
        p ← cpu_pop cpu order;
        match p with
        | Some index => mret index
        | None => alloc_from_global order
        end
    end
  else alloc_from_global order.

Definition mark_allocated (index order : nat) : MB Z :=
  n ← node_at index;
  if decide (bn_refcount n ≠ 0) then mthrow InvalidFrame
  else
    b ← mget;
    _ ← set_node index (mkNode (bn_start n) order 1 (allocations_head b));
    _ ← mmodify (λ b, set_allocations (Some index) (S (allocation_len b)) b);
    mret (bn_start n).

(** ** The public interface *)

Definition frame_number_from_addr (block : Z) : outcome FrameAllocError Z :=
  if decide (Z.land block (PAGE_SIZE - 1) ≠ 0) then Err InvalidFrame
  else Ok (Z.shiftr block PAGE_SHIFT).

Definition alloc_frame_4k_on_cpu (cpu : nat) (count : Z) : MB Z :=
  b ← mget;
  order ← lift (order_for_count count (max_order b));
  index ← alloc_block cpu order;
  block ← mark_allocated index order;
  mret (Z.shiftl block PAGE_SHIFT).

Definition retain_frame (block : Z) : MB Z :=
  frame ← lift (frame_number_from_addr block);
  found ← find_allocation_index frame;
  index ← mok_or found InvalidFrame;
  n ← node_at index;
  rc ← mok_or (checked_add u32_max (bn_refcount n) 1) RefCountOverflow;
  _ ← set_refcount index rc;
  mret rc.

Definition free_frame_on_cpu (cpu : nat) (block : Z) : MB unit :=
  cpu ← checked_cpu cpu;
  frame ← lift (frame_number_from_addr block);
  found ← find_allocation_index frame;
  index ← mok_or found InvalidFrame;
  n ← node_at index;
  rc ← mok_or (checked_sub (bn_refcount n) 1) RefCountUnderflow;
  _ ← set_refcount index rc;
  if decide (rc ≠ 0) then mret ()
  else
    n ← node_at index;
    let order := bn_order n in
    _ ← remove_allocation_node index;
    if decide (order <= PER_CPU_CACHE_MAX_ORDER)%nat then
      _ ← cpu_push cpu order index;
      drain_per_cpu_cache cpu order
    else free_global_block index.

Definition ref_count_for_addr (block : Z) : MB (option Z) :=
  match frame_number_from_addr block with
  | Ok frame =>
      found ← find_allocation_index frame;
      match found with
      | None => mret None
      | Some index => n ← node_at index; mret (Some (bn_refcount n))
      end
  | _ => mret None
  end.

Definition cpu_cache_len (cpu order : nat) : MB nat :=
  cpu ← checked_cpu cpu;
  if decide (PER_CPU_CACHE_MAX_ORDER < order)%nat then mthrow InvalidCount
  else cache_len cpu order.

Definition global_free_len (order : nat) : MB nat :=
  b ← mget;
  if decide (max_order b < order)%nat then mthrow InvalidCount
  else mexpect (global_free_lens b !! order).

(** [while order <= max]: the blocks of the orders from [order] on. *)
Fixpoint sum_lens (order : nat) (lens : list nat) : Z :=
  match lens with
  | [] => 0
  | l :: ls => Z.of_nat l * block_size order + sum_lens (S order) ls
  end.

Definition cache_free_pages (c : PerCpuCache) : Z :=
  sum_lens 0 (take (S PER_CPU_CACHE_MAX_ORDER) (cache_lens c)).

Definition free_pages (b : BuddyAllocator) : Z :=
  sum_lens 0 (take (S (max_order b)) (global_free_lens b)) +
  foldr (λ c acc, cache_free_pages c + acc) 0 (take (cpu_count b) (per_cpu b)).

(** ** The [FrameAllocator] implementation

    [cpu] is the value of [current_cpu_index()] and [recovered] the value
    returned by [try_recover_from_oom()], which runs while [self] is
    exclusively borrowed and so cannot change it. *)

Definition frame_from_addr (addr : Z) : PhysFrame := from_start_address (mkPhysAddr addr).

Definition checked_addr_from_frame (f : PhysFrame) : outcome FrameAllocError Z :=
  if is_aligned (start_address f) PAGE_SIZE then Ok (addr_u64 (start_address f))
  else Err InvalidFrame.

Definition alloc (cpu : nat) (recovered : bool) (count : Z) : MB PhysFrame := λ b,
  match alloc_frame_4k_on_cpu cpu count b with
  | (Ok addr, b') => (Ok (frame_from_addr addr), b')
  | (Err OutOfMemory, b') =>
      if recovered
      then (addr ← alloc_frame_4k_on_cpu cpu count; mret (frame_from_addr addr)) b'
      else (Err OutOfMemory, b')
  | (Err e, b') => (Err e, b')
  | (Panic, b') => (Panic, b')
  | (Diverge, b') => (Diverge, b')
  end.

Definition retain (f : PhysFrame) : MB Z :=
  addr ← lift (checked_addr_from_frame f); retain_frame addr.

Definition ensure_release_matches_count (f : PhysFrame) (count : Z) : MB Z :=
  b ← mget;
  order ← lift (order_for_count count (max_order b));
  found ← find_allocation_index (frame_index f);
  index ← mok_or found InvalidFrame;
  n ← node_at index;
  if decide (bn_order n ≠ order) then mthrow InvalidCount else mret (bn_refcount n).

Definition release (cpu : nat) (f : PhysFrame) (count : Z) : MB Z :=
  _ ← lift (checked_addr_from_frame f);
  current ← ensure_release_matches_count f count;
  addr ← lift (checked_addr_from_frame f);
  _ ← free_frame_on_cpu cpu addr;
  if decide (current < 1) then mpanic else mret (current - 1).

Definition ref_count (f : PhysFrame) : MB (option Z) :=
  match checked_addr_from_frame f with
  | Ok addr => ref_count_for_addr addr
  | _ => mret None
  end.

(** ** Construction *)

Fixpoint seed_ranges (rs : list (Z * Z)) : MB unit :=
  match rs with
  | [] => mret ()
  | (start_frame, frame_count) :: rest =>
      _ ← seed_global_free_region start_frame frame_count;
      seed_ranges rest
  end.

(** The allocator before any block is seeded. *)
Definition empty_allocator (MAX_CPUS MAX_BLOCK_NODES : nat) (ranges : RangeList)
    (total : Z) (mo cpus : nat) : BuddyAllocator :=
  mkBuddy total mo cpus ranges
    (replicate MAX_ORDER_SLOTS None) (replicate MAX_ORDER_SLOTS 0%nat) None 0
    (replicate MAX_CPUS PerCpuCache_new) (pool_init MAX_BLOCK_NODES).

Definition init_from_usable_ranges (MAX_CPUS MAX_BLOCK_NODES : nat) (ranges : RangeList)
    (cpus : nat) : outcome FrameAllocError BuddyAllocator :=
  if decide (cpus = 0 ∨ MAX_CPUS < cpus)%nat then Err InvalidCount
  else
    match range_total_frames ranges with
    | Ok total =>
        if decide (total = 0) then Err InvalidMemoryMap
        else
          let mo := floor_log2 total in
          if decide (MAX_ORDER_SLOTS <= mo)%nat then Err InvalidCount
          else
            match seed_ranges (as_slice ranges)
                    (empty_allocator MAX_CPUS MAX_BLOCK_NODES ranges total mo cpus) with
            | (Ok _, b) => Ok b
            | (Err e, _) => Err e
            | (Panic, _) => Panic
            | (Diverge, _) => Diverge
            end
    | Err e => Err e
    | Panic => Panic
    | Diverge => Diverge
    end.

Definition bootstrap (MAX_USABLE_RANGES MAX_CPUS MAX_BLOCK_NODES : nat)
    (mem_map : list MemoryRegion) (cpus : nat) : outcome FrameAllocError BuddyAllocator :=
  if decide (cpus = 0 ∨ MAX_CPUS < cpus)%nat then Err InvalidCount
  else
    match collect_usable_ranges mem_map (RangeList_new MAX_USABLE_RANGES) with
    | (Ok _, ranges) => init_from_usable_ranges MAX_CPUS MAX_BLOCK_NODES ranges cpus
    | (Err e, _) => Err e
    | (Panic, _) => Panic
    | (Diverge, _) => Diverge
    end.
