(* ===== verification/BuddyInv.v ===== *)
(** * The invariant of the buddy allocator

    Every node of the pool is in exactly one list (unused, allocated, one of
    the global free lists, one of the per-CPU caches) or in the hands of the
    running operation; the blocks of the listed nodes together with the
    blocks in flight partition the usable frames.  The partition is stated
    additively: for every weight [g] on frames, the weights of all blocks sum
    to the weight of the usable ranges.  This file defines the invariant and
    proves the two moves all operations are made of, detaching a node from a
    list and attaching it to one. *)

From S2P Require Import Prelude Frame LinkedList RangeList Buddy.

(** ** Lists of the allocator *)

Inductive lid :=
| LUnused
| LAlloc
| LGlobal (o : nat)
| LCpu (c o : nat).

#[global] Instance lid_eq_dec : EqDecision lid.
Proof. solve_decision. Defined.

Abbreviation ns b := (pool_nodes (nodes b)).

Definition head_of (b : BuddyAllocator) (id : lid) : option nat :=
  match id with
  | LUnused => unused_head (nodes b)
  | LAlloc => allocations_head b
  | LGlobal o => mjoin (global_free_heads b !! o)
  | LCpu c o => p ← per_cpu b !! c; mjoin (cache_heads p !! o)
  end.

Definition len_of (b : BuddyAllocator) (id : lid) : nat :=
  match id with
  | LUnused => unused_len (nodes b)
  | LAlloc => allocation_len b
  | LGlobal o => default 0%nat (global_free_lens b !! o)
  | LCpu c o => default 0%nat (p ← per_cpu b !! c; cache_lens p !! o)
  end.

Definition nexts (b : BuddyAllocator) (i : nat) : option (option nat) := bn_next <$> ns b !! i.

(** What a node says about its block. *)
Definition pay (n : BlockNode) : Z * nat * Z := (bn_start n, bn_order n, bn_refcount n).
Definition pays (b : BuddyAllocator) (i : nat) : option (Z * nat * Z) := pay <$> ns b !! i.
Definition pay_at (b : BuddyAllocator) (i : nat) : Z * nat * Z := default (0, 0%nat, 0) (pays b i).

(** ** Configuration: what no operation changes *)

Record cfg := mkCfg {
  c_total : Z;
  c_max : nat;
  c_cpus : nat;
  c_ranges : list (Z * Z);
  c_nodes : nat;
}.

Record cfg_ok (c : cfg) : Prop := {
  co_max : (c_max c < MAX_ORDER_SLOTS)%nat;
  co_sep : separated (c_ranges c);
  co_bound : ∀ e, e ∈ c_ranges c → e.1 + e.2 <= 2 ^ 52;
}.

Definition cache_shape (p : PerCpuCache) : Prop :=
  length (cache_heads p) = S PER_CPU_CACHE_MAX_ORDER ∧
  length (cache_lens p) = S PER_CPU_CACHE_MAX_ORDER.

Record shape (c : cfg) (b : BuddyAllocator) : Prop := {
  sh_total : total_frames b = c_total c;
  sh_max : max_order b = c_max c;
  sh_cpus : cpu_count b = c_cpus c;
  sh_ranges : as_slice (usable_ranges b) = c_ranges c;
  sh_nodes : length (ns b) = c_nodes c;
  sh_heads : length (global_free_heads b) = MAX_ORDER_SLOTS;
  sh_lens : length (global_free_lens b) = MAX_ORDER_SLOTS;
  sh_percpu : (c_cpus c <= length (per_cpu b))%nat;
  sh_caches : Forall cache_shape (per_cpu b);
}.

(** ** Blocks *)

Definition block := (Z * nat)%type.

(** Aligned to its size and inside one usable range. *)
Definition block_ok (c : cfg) (k : block) : Prop :=
  (k.2 <= c_max c)%nat ∧ k.1 mod block_size k.2 = 0 ∧
  ∃ e, e ∈ c_ranges c ∧ e.1 <= k.1 ∧ k.1 + block_size k.2 <= e.1 + e.2.

(** The weight of the frames of a block, and of the frames of ranges. *)
Definition bmass (g : Z → Z) (k : block) : Z := zsum g k.1 (block_size k.2).
Definition loose_mass (g : Z → Z) (l : list block) : Z := foldr (λ k acc, bmass g k + acc) 0 l.
Definition ranges_mass (g : Z → Z) (l : list (Z * Z)) : Z :=
  foldr (λ e acc, zsum g e.1 e.2 + acc) 0 l.

Definition alloc_pages (al : list (Z * nat * Z)) : Z :=
  foldr (λ a acc, block_size a.1.2 + acc) 0 al.
Definition loose_pages (l : list block) : Z := foldr (λ k acc, block_size k.2 + acc) 0 l.

(** What the list a node is in says about the node. *)
Definition node_ok (c : cfg) (id : lid) (n : BlockNode) : Prop :=
  match id with
  | LUnused => True
  | LAlloc => block_ok c (bn_start n, bn_order n) ∧ 1 <= bn_refcount n <= u32_max
  | LGlobal o => block_ok c (bn_start n, bn_order n) ∧ bn_order n = o ∧ bn_refcount n = 0
  | LCpu p o => block_ok c (bn_start n, bn_order n) ∧ bn_order n = o ∧ bn_refcount n = 0 ∧
                (p < c_cpus c)%nat ∧ (o <= PER_CPU_CACHE_MAX_ORDER)%nat
  end.

(** ** The invariant *)

Record ghost := mkGhost {
  gl : lid → list nat;
  wh : nat → option lid;
}.

Definition listed_mass (g : Z → Z) (b : BuddyAllocator) (G : ghost) (i : nat) : Z :=
  match wh G i with
  | None | Some LUnused => 0
  | Some _ => bmass g (pay_at b i).1
  end.

Definition starts (b : BuddyAllocator) (l : list nat) : list Z := (λ i, (pay_at b i).1.1) <$> l.

(** The linked lists hold the nodes that [wh] says they hold. *)
Record lists_ok (c : cfg) (b : BuddyAllocator) (G : ghost) : Prop := {
  l_chain : ∀ id, chain (nexts b) (head_of b id) (gl G id);
  l_len : ∀ id, len_of b id = length (gl G id);
  l_nodup : ∀ id, NoDup (gl G id);
  l_mem : ∀ id i, i ∈ gl G id ↔ (i < c_nodes c)%nat ∧ wh G i = Some id;
}.

(** [hand] holds the nodes the running operation took out of their lists,
    [loose] the blocks it is responsible for. *)
Record inv (c : cfg) (b : BuddyAllocator) (G : ghost) (hand : gmap nat BlockNode)
    (loose : list block) : Prop := {
  i_cfg : cfg_ok c;
  i_shape : shape c b;
  i_lists : lists_ok c b G;
  i_node : ∀ i id n, ns b !! i = Some n → wh G i = Some id → node_ok c id n;
  i_sorted : ∀ o, StronglySorted Z.lt (starts b (gl G (LGlobal o)));
  i_hand : ∀ i, (i < c_nodes c)%nat → wh G i = None ↔ is_Some (hand !! i);
  i_hand_node : ∀ i n, hand !! i = Some n → ns b !! i = Some n;
  i_loose : Forall (block_ok c) loose;
  i_mass : ∀ g, nsum (listed_mass g b G) (c_nodes c) + loose_mass g loose
                = ranges_mass g (c_ranges c);
  i_pages : free_pages b + alloc_pages (pay_at b <$> gl G LAlloc) + loose_pages loose
            = c_total c;
}.

(** The client's view of the invariant: the number of unused nodes [u], the
    cache lengths [cl], the allocation list [al] (start, order, reference
    count), the nodes in hand and the blocks in flight. *)
Definition Inv (c : cfg) (b : BuddyAllocator) (u : nat) (cl : nat → nat → nat)
    (al : list (Z * nat * Z)) (hand : gmap nat BlockNode) (loose : list block) : Prop :=
  ∃ G, inv c b G hand loose ∧ len_of b LUnused = u ∧ (∀ p o, len_of b (LCpu p o) = cl p o) ∧
       al = (pay_at b <$> gl G LAlloc).

Arguments l_chain {c b G}.
Arguments l_len {c b G}.
Arguments l_nodup {c b G}.
Arguments l_mem {c b G}.
Arguments i_cfg {c b G hand loose}.
Arguments i_shape {c b G hand loose}.
Arguments i_lists {c b G hand loose}.
Arguments i_node {c b G hand loose}.
Arguments i_sorted {c b G hand loose}.
Arguments i_hand {c b G hand loose}.
Arguments i_hand_node {c b G hand loose}.
Arguments i_loose {c b G hand loose}.
Arguments i_mass {c b G hand loose}.
Arguments i_pages {c b G hand loose}.

(** ** Elementary facts *)

Lemma block_size_pow o : block_size o = 2 ^ Z.of_nat o.
Proof. unfold block_size. rewrite Z.shiftl_mul_pow2 by lia. lia. Qed.

Lemma block_size_pos o : 0 < block_size o.
Proof. rewrite block_size_pow. lia. Qed.

Lemma block_size_S o : block_size (S o) = 2 * block_size o.
Proof. rewrite !block_size_pow, Nat2Z.inj_succ, Z.pow_succ_r by lia. lia. Qed.

Lemma pay_at_node b i n : ns b !! i = Some n → pay_at b i = pay n.
Proof. intros H. unfold pay_at, pays. by rewrite H. Qed.

Lemma pay_at_pays b b' i : pays b' i = pays b i → pay_at b' i = pay_at b i.
Proof. intros H. unfold pay_at. by rewrite H. Qed.

Lemma pays_node b b' i n' :
  pays b' i = pays b i → ns b' !! i = Some n' → ∃ n, ns b !! i = Some n ∧ pay n = pay n'.
Proof.
  unfold pays. intros Hp Hn'. rewrite Hn' in Hp. simpl in Hp.
  destruct (ns b !! i) as [n|]; simpl in *; [|done]. exists n. split; congruence.
Qed.

Lemma node_ok_pay c id n n' : pay n = pay n' → node_ok c id n → node_ok c id n'.
Proof.
  destruct n, n'; unfold pay; simpl. intros [= -> -> ->]. destruct id; simpl; done.
Qed.

Lemma bmass_split g s o :
  bmass g (s, S o) = bmass g (s, o) + bmass g (s + block_size o, o).
Proof.
  unfold bmass. cbn [fst snd]. rewrite block_size_S.
  replace (2 * block_size o) with (block_size o + block_size o) by lia.
  pose proof (block_size_pos o). apply zsum_add; lia.
Qed.

Section inv_facts.
Context {c : cfg} {b : BuddyAllocator} {G : ghost} {hand : gmap nat BlockNode}
  {loose : list block} (Hinv : inv c b G hand loose).

Lemma inv_lookup i : (i < c_nodes c)%nat → ∃ n, ns b !! i = Some n.
Proof.
  intros Hi. apply lookup_lt_is_Some_2. by rewrite (sh_nodes _ _ (i_shape Hinv)).
Qed.

Lemma inv_node_lt i n : ns b !! i = Some n → (i < c_nodes c)%nat.
Proof.
  intros Hi%lookup_lt_Some. by rewrite (sh_nodes _ _ (i_shape Hinv)) in Hi.
Qed.

Lemma inv_list_node id i :
  i ∈ gl G id → ∃ n, ns b !! i = Some n ∧ node_ok c id n ∧ wh G i = Some id.
Proof.
  intros [Hi Hw]%(l_mem (i_lists Hinv)). destruct (inv_lookup i Hi) as [n Hn].
  exists n. split; [done|]. split; [|done]. by eapply (i_node Hinv).
Qed.

Lemma inv_hand_wh i n : hand !! i = Some n → wh G i = None.
Proof.
  intros Hh. apply (i_hand Hinv); [|by eexists].
  by eapply inv_node_lt, (i_hand_node Hinv).
Qed.

Lemma inv_hand_not_in i n id : hand !! i = Some n → i ∉ gl G id.
Proof.
  intros Hh [_ Hw]%(l_mem (i_lists Hinv)). rewrite (inv_hand_wh i n Hh) in Hw. done.
Qed.

Lemma inv_length id : (length (gl G id) <= c_nodes c)%nat.
Proof.
  assert (Hs : gl G id ⊆ seq 0 (c_nodes c)).
  { intros i [Hi _]%(l_mem (i_lists Hinv)). apply elem_of_seq. lia. }
  rewrite <- (length_seq (c_nodes c) 0).
  apply submseteq_length, NoDup_submseteq; [apply (l_nodup (i_lists Hinv))|done].
Qed.
End inv_facts.

(** ** Detaching a node *)

Definition is_unused (id : lid) : bool := match id with LUnused => true | _ => false end.

(** How many free pages a block of order [o] counts for in the list [id]. *)
Definition free_weight (id : lid) (o : nat) : Z :=
  match id with LGlobal _ | LCpu _ _ => block_size o | _ => 0 end.

Definition ghost_set (G : ghost) (id : lid) (l : list nat) (i : nat) (w : option lid) : ghost :=
  mkGhost (λ id', if decide (id' = id) then l else gl G id') (fupd (wh G) i w).

(** [b'] differs from [b] only in the list [id] and in the links around the
    cell [i], which sits between [l1] and [l2]. *)
Record local_change (b b' : BuddyAllocator) (id : lid) (l1 : list nat) (i : nat) : Prop := {
  lc_head : ∀ id', id' ≠ id → head_of b' id' = head_of b id';
  lc_len : ∀ id', id' ≠ id → len_of b' id' = len_of b id';
  lc_next : ∀ j, j ≠ i → last l1 ≠ Some j → nexts b' j = nexts b j;
  lc_pays : ∀ j, j ≠ i → pays b' j = pays b j;
}.

Lemma listed_mass_frame g b b' G id l i w j :
  j ≠ i → (∀ k, k ≠ i → pays b' k = pays b k) →
  listed_mass g b' (ghost_set G id l i w) j = listed_mass g b G j.
Proof.
  intros Hj Hp. unfold listed_mass. simpl. rewrite fupd_ne by done.
  rewrite (pay_at_pays b b') by (by apply Hp). done.
Qed.

Lemma fmap_pay_frame b b' (l : list nat) i :
  i ∉ l → (∀ k, k ≠ i → pays b' k = pays b k) → (pay_at b' <$> l) = (pay_at b <$> l).
Proof.
  intros Hi Hp. apply list_fmap_ext. intros k x Hx. apply pay_at_pays, Hp.
  intros ->. apply Hi. by apply list_elem_of_lookup_2 in Hx.
Qed.

Lemma starts_frame b b' (l : list nat) i :
  i ∉ l → (∀ k, k ≠ i → pays b' k = pays b k) → starts b' l = starts b l.
Proof.
  intros Hi Hp. unfold starts. apply list_fmap_ext. intros k x Hx.
  rewrite (pay_at_pays b b'); [done|]. apply Hp.
  intros ->. apply Hi. by apply list_elem_of_lookup_2 in Hx.
Qed.

Lemma alloc_pages_app l1 l2 : alloc_pages (l1 ++ l2) = alloc_pages l1 + alloc_pages l2.
Proof. induction l1 as [|a l1 IH]; simpl in *; lia. Qed.

Lemma alloc_pages_cons a l : alloc_pages (a :: l) = block_size a.1.2 + alloc_pages l.
Proof. done. Qed.

Lemma node_frame b b' j :
  nexts b' j = nexts b j → pays b' j = pays b j → ns b' !! j = ns b !! j.
Proof.
  unfold nexts, pays. destruct (ns b' !! j) as [[]|], (ns b !! j) as [[]|]; simpl;
    unfold pay; simpl; congruence.
Qed.

Lemma remove_not_in (l1 : list nat) i l2 : NoDup (l1 ++ i :: l2) → i ∉ l1 ++ l2.
Proof.
  intros (_ & Hd & [Hd2 _]%NoDup_cons)%NoDup_app [H1|H2]%elem_of_app; [|done].
  apply (Hd i H1). left.
Qed.

Lemma lists_other c b G id id' i : lists_ok c b G → i ∈ gl G id → id' ≠ id → i ∉ gl G id'.
Proof.
  intros HL [_ H1]%(l_mem HL) Hne [_ H2]%(l_mem HL). congruence.
Qed.

Lemma last_in (l : list nat) q : last l = Some q → q ∈ l.
Proof. intros [l' ->]%last_Some. set_solver. Qed.

(** The lists after the removal of the cell [i] from the list [id]. *)
Lemma lists_detach c b b' G id l1 i l2 :
  lists_ok c b G → gl G id = l1 ++ i :: l2 → local_change b b' id l1 i →
  head_of b' id = (match last l1 with Some _ => head_of b id | None => head l2 end) →
  S (len_of b' id) = len_of b id →
  (∀ q, last l1 = Some q → nexts b' q = Some (head l2)) →
  lists_ok c b' (ghost_set G id (l1 ++ l2) i None).
Proof.
  intros HL Hl [Hch Hln Hnx Hpy] Hhead Hlen Hq.
  assert (Hin : i ∈ gl G id) by (rewrite Hl; set_solver).
  pose proof (l_nodup HL id) as Hnd. rewrite Hl in Hnd.
  pose proof (remove_not_in _ _ _ Hnd) as Hil.
  split.
  - intros id'. simpl. case_decide as Hd.
    + subst id'. eapply chain_remove; [exact Hnd| |exact Hq|exact Hhead|].
      * rewrite <- Hl. apply (l_chain HL).
      * intros j Hj Hlast. apply Hnx; [|done]. intros ->. done.
    + rewrite Hch by done. eapply chain_frame; [|apply (l_chain HL)].
      intros j Hj. apply Hnx.
      * intros ->. by eapply (lists_other c b G id id').
      * intros Hlast%last_in. eapply (lists_other c b G id id' j); [done| |done|done].
        rewrite Hl. set_solver.
  - intros id'. simpl. case_decide as Hd; [|rewrite Hln by done; apply (l_len HL)].
    subst id'. pose proof (l_len HL id) as Hlen'. rewrite Hl in Hlen'.
    rewrite length_app in *. simpl in *. lia.
  - intros id'. simpl. case_decide; [|apply (l_nodup HL)].
    apply NoDup_app in Hnd as (? & Hd & [_ ?]%NoDup_cons). apply NoDup_app. set_solver.
  - intros id' j. simpl. destruct (decide (j = i)) as [->|Hj].
    + rewrite fupd_eq. case_decide; split; try (by intros [_ ?]); intros Hx; [done|].
      by destruct (lists_other c b G id id' i).
    + rewrite fupd_ne by done. rewrite <- (l_mem HL).
      case_decide; [|done]. subst id'. rewrite Hl. set_solver.
Qed.

(** The lists after the insertion of the cell [i], which was in no list. *)
Lemma lists_attach c b b' G id l1 i l2 :
  lists_ok c b G → gl G id = l1 ++ l2 → (i < c_nodes c)%nat → wh G i = None →
  local_change b b' id l1 i →
  head_of b' id = (match last l1 with Some _ => head_of b id | None => Some i end) →
  len_of b' id = S (len_of b id) →
  nexts b' i = Some (head l2) →
  (∀ q, last l1 = Some q → nexts b' q = Some (Some i)) →
  lists_ok c b' (ghost_set G id (l1 ++ i :: l2) i (Some id)).
Proof.
  intros HL Hl Hilt Hwi [Hch Hln Hnx Hpy] Hhead Hlen Hni Hq.
  assert (Hno : ∀ id', i ∉ gl G id').
  { intros id' [_ Hw]%(l_mem HL). congruence. }
  pose proof (l_nodup HL id) as Hnd. rewrite Hl in Hnd.
  pose proof (Hno id) as Hil. rewrite Hl in Hil.
  split.
  - intros id'. simpl. case_decide as Hd.
    + subst id'. eapply chain_insert; [exact Hnd|done| |exact Hni|exact Hq|exact Hhead|].
      * rewrite <- Hl. apply (l_chain HL).
      * intros j Hj Hlast. apply Hnx; [|done]. intros ->. done.
    + rewrite Hch by done. eapply chain_frame; [|apply (l_chain HL)].
      intros j Hj. apply Hnx.
      * intros ->. by eapply Hno.
      * intros Hlast%last_in. eapply (lists_other c b G id id' j); [done| |done|done].
        rewrite Hl. set_solver.
  - intros id'. simpl. case_decide as Hd; [|rewrite Hln by done; apply (l_len HL)].
    subst id'. pose proof (l_len HL id) as Hlen'. rewrite Hl in Hlen'.
    rewrite length_app in *. simpl in *. lia.
  - intros id'. simpl. case_decide; [|apply (l_nodup HL)].
    apply NoDup_app in Hnd as (? & Hd & ?). apply NoDup_app. rewrite NoDup_cons. set_solver.
  - intros id' j. simpl. destruct (decide (j = i)) as [->|Hj].
    + rewrite fupd_eq. split.
      * intros Hx. split; [done|]. case_decide; [by subst|]. by destruct (Hno id').
      * intros [_ [= ->]]. rewrite decide_True by done. set_solver.
    + rewrite fupd_ne by done. rewrite <- (l_mem HL).
      case_decide; [|done]. subst id'. rewrite Hl. set_solver.
Qed.

(** ** The two moves *)

(** Taking the node [i] out of the list [id]: its block becomes loose. *)
Lemma inv_detach c b b' G hand loose id l1 i l2 n n' :
  inv c b G hand loose → gl G id = l1 ++ i :: l2 → ns b !! i = Some n →
  shape c b' → local_change b b' id l1 i →
  head_of b' id = (match last l1 with Some _ => head_of b id | None => head l2 end) →
  S (len_of b' id) = len_of b id →
  (∀ q, last l1 = Some q → nexts b' q = Some (head l2)) →
  ns b' !! i = Some n' →
  free_pages b' = free_pages b - free_weight id (bn_order n) →
  inv c b' (ghost_set G id (l1 ++ l2) i None) (<[i:=n']> hand)
      (if is_unused id then loose else (bn_start n, bn_order n) :: loose).
Proof.
  intros Hinv Hl Hn Hsh Hlc Hhead Hlen Hq Hn' Hfree.
  pose proof (i_lists Hinv) as HL. pose proof (lc_pays _ _ _ _ _ Hlc) as Hpy.
  assert (Hin : i ∈ gl G id) by (rewrite Hl; set_solver).
  pose proof (proj1 (l_mem HL id i) Hin) as [Hilt Hwi].
  pose proof (l_nodup HL id) as Hnd. rewrite Hl in Hnd.
  pose proof (remove_not_in _ _ _ Hnd) as Hil.
  pose proof (i_node Hinv i id n Hn Hwi) as Hok.
  split.
  - apply Hinv.
  - done.
  - by eapply lists_detach.
  - intros j id' m Hm Hw. simpl in Hw. destruct (decide (j = i)) as [->|Hj].
    { by rewrite fupd_eq in Hw. }
    rewrite fupd_ne in Hw by done.
    destruct (pays_node b b' j m (Hpy j Hj) Hm) as (m0 & Hm0 & Hpm).
    eapply node_ok_pay; [exact Hpm|]. by eapply (i_node Hinv).
  - intros o. simpl. pose proof (i_sorted Hinv o) as Hs. case_decide as Hd.
    + rewrite Hd, Hl in Hs. rewrite (starts_frame b b' _ i) by done.
      unfold starts in *. rewrite fmap_app in *. simpl in Hs.
      apply StronglySorted_app in Hs as (Hs1 & Hs2 & [_ Hs3]%StronglySorted_cons).
      apply StronglySorted_app. split; [|done]. intros x y Hx Hy. apply Hs1; [done|].
      by right.
    + rewrite (starts_frame b b' _ i); [done|by eapply (lists_other c b G id)|done].
  - intros j Hj. simpl. destruct (decide (j = i)) as [->|Hne].
    + rewrite fupd_eq, lookup_insert_eq. split; [by eexists|done].
    + rewrite fupd_ne, lookup_insert_ne by done. by apply (i_hand Hinv).
  - intros j m. destruct (decide (j = i)) as [->|Hne].
    { rewrite lookup_insert_eq. by intros [= <-]. }
    rewrite lookup_insert_ne by done. intros Hh.
    rewrite (node_frame b b'); [by apply (i_hand_node Hinv)| |by apply Hpy].
    apply (lc_next _ _ _ _ _ Hlc); [done|]. intros Hlast%last_in.
    apply (inv_hand_not_in Hinv j m id Hh). rewrite Hl. set_solver.
  - destruct id; simpl in *; try apply Forall_cons; try split; try apply Hinv; apply Hok.
  - intros g. pose proof (i_mass Hinv g) as Hm.
    rewrite (nsum_upd (listed_mass g b G) _ _ i Hilt)
      by (intros; by apply listed_mass_frame).
    unfold listed_mass at 2 3. rewrite Hwi. simpl. rewrite fupd_eq, (pay_at_node b i n Hn).
    destruct id; simpl in *; lia.
  - pose proof (i_pages Hinv) as Hp. rewrite Hfree. simpl.
    destruct (decide (id = LAlloc)) as [->|Hne].
    + simpl. rewrite Hl in Hp. rewrite (fmap_pay_frame b b' _ i) by done.
      rewrite fmap_app, fmap_cons, alloc_pages_app, alloc_pages_cons in Hp.
      rewrite fmap_app, alloc_pages_app. rewrite (pay_at_node b i n Hn) in Hp.
      simpl in Hp, Hfree. lia.
    + rewrite decide_False by done.
      rewrite (fmap_pay_frame b b' _ i); [|by eapply (lists_other c b G id)|done].
      destruct id; simpl in *; lia || done.
Qed.

(** Putting the node [i] into the list [id] between [l1] and [l2]: the loose
    block it describes becomes listed. *)
Lemma inv_attach c b b' G hand loose id l1 i l2 n n' :
  inv c b G hand (if is_unused id then loose else (bn_start n', bn_order n') :: loose) →
  gl G id = l1 ++ l2 → hand !! i = Some n → ns b' !! i = Some n' →
  node_ok c id n' →
  (∀ o, id = LGlobal o → Forall (λ x, x < bn_start n') (starts b l1) ∧
                         Forall (λ x, bn_start n' < x) (starts b l2)) →
  shape c b' → local_change b b' id l1 i →
  head_of b' id = (match last l1 with Some _ => head_of b id | None => Some i end) →
  len_of b' id = S (len_of b id) →
  nexts b' i = Some (head l2) →
  (∀ q, last l1 = Some q → nexts b' q = Some (Some i)) →
  free_pages b' = free_pages b + free_weight id (bn_order n') →
  inv c b' (ghost_set G id (l1 ++ i :: l2) i (Some id)) (delete i hand) loose.
Proof.
  intros Hinv Hl Hh Hn' Hok Hsort Hsh Hlc Hhead Hlen Hni Hq Hfree.
  pose proof (i_lists Hinv) as HL. pose proof (lc_pays _ _ _ _ _ Hlc) as Hpy.
  pose proof (inv_hand_wh Hinv i n Hh) as Hwi.
  pose proof (inv_node_lt Hinv i n (i_hand_node Hinv i n Hh)) as Hilt.
  assert (Hno : ∀ id', i ∉ gl G id') by (intros id'; by eapply (inv_hand_not_in Hinv)).
  assert (Hil : i ∉ l1 ++ l2) by (rewrite <- Hl; apply Hno).
  split.
  - apply Hinv.
  - done.
  - by apply lists_attach with b.
  - intros j id' m Hm Hw. simpl in Hw. destruct (decide (j = i)) as [->|Hj].
    { rewrite fupd_eq in Hw. by simplify_eq. }
    rewrite fupd_ne in Hw by done.
    destruct (pays_node b b' j m (Hpy j Hj) Hm) as (m0 & Hm0 & Hpm).
    eapply node_ok_pay; [exact Hpm|]. by eapply (i_node Hinv).
  - intros o. simpl. pose proof (i_sorted Hinv o) as Hs. case_decide as Hd.
    + destruct (Hsort o) as [Hlo Hhi]; [done|]. rewrite Hd, Hl in Hs.
      unfold starts. rewrite fmap_app, fmap_cons.
      rewrite (pay_at_node b' i n' Hn'). fold (starts b' l1) (starts b' l2).
      rewrite !(starts_frame b b' _ i) by set_solver.
      unfold starts in Hs. rewrite fmap_app in Hs.
      apply StronglySorted_app in Hs as (Hs1 & Hs2 & Hs3).
      apply StronglySorted_app. rewrite StronglySorted_cons.
      rewrite Forall_forall in Hlo. split; [|done].
      intros x y Hx [->|Hy]%elem_of_cons; [by apply Hlo|by apply Hs1].
    + rewrite (starts_frame b b' _ i); [done|apply Hno|done].
  - intros j Hj. simpl. destruct (decide (j = i)) as [->|Hne].
    + rewrite fupd_eq, lookup_delete_eq. split; [done|by intros [? ?]].
    + rewrite fupd_ne, lookup_delete_ne by done. by apply (i_hand Hinv).
  - intros j m Hjm. apply lookup_delete_Some in Hjm as [Hne Hhj].
    rewrite (node_frame b b'); [by apply (i_hand_node Hinv)| |by apply Hpy].
    apply (lc_next _ _ _ _ _ Hlc); [done|]. intros Hlast%last_in.
    apply (inv_hand_not_in Hinv j m id Hhj). rewrite Hl. set_solver.
  - pose proof (i_loose Hinv) as Hlo. destruct id; simpl in *; [done|by inversion Hlo..].
  - intros g. pose proof (i_mass Hinv g) as Hm.
    rewrite (nsum_upd (listed_mass g b G) _ _ i Hilt)
      by (intros; by apply listed_mass_frame).
    unfold listed_mass at 2 3. rewrite Hwi. simpl. rewrite fupd_eq, (pay_at_node b' i n' Hn').
    destruct id; simpl in *; lia.
  - pose proof (i_pages Hinv) as Hp. rewrite Hfree. simpl.
    destruct (decide (id = LAlloc)) as [->|Hne].
    + simpl. rewrite Hl in Hp. rewrite fmap_app, alloc_pages_app in Hp.
      rewrite fmap_app, fmap_cons, alloc_pages_app, alloc_pages_cons.
      rewrite !(fmap_pay_frame b b' _ i) by set_solver.
      rewrite (pay_at_node b' i n' Hn'). simpl in *. lia.
    + rewrite decide_False by done.
      rewrite (fmap_pay_frame b b' _ i); [|apply Hno|done].
      destruct id; simpl in *; lia || done.
Qed.

(** ** Buddies *)

Lemma lxor_even a : Z.lxor (2 * a) 1 = 2 * a + 1.
Proof.
  rewrite <- Z.add_nocarry_lxor; [done|].
  change 1 with (2 ^ 1 - 1). rewrite land_pow2_mask by lia.
  change (2 ^ 1) with 2. rewrite Z.mul_comm. apply Z.mod_mul. lia.
Qed.

Lemma lxor_odd a : Z.lxor (2 * a + 1) 1 = 2 * a.
Proof. by rewrite <- lxor_even, Z.lxor_assoc, Z.lxor_nilpotent, Z.lxor_0_r. Qed.

(** [block ^ block_size(order)] is the other half of the enclosing block. *)
Lemma buddy_cases s o :
  s mod block_size o = 0 →
  (s mod block_size (S o) = 0 ∧ Z.lxor s (block_size o) = s + block_size o) ∨
  ((s - block_size o) mod block_size (S o) = 0 ∧ Z.lxor s (block_size o) = s - block_size o).
Proof.
  intros Hs. pose proof (block_size_pos o) as Hp. rewrite block_size_S.
  apply Z.mod_divide in Hs as [q ->]; [|lia].
  assert (Z.lxor (q * block_size o) (block_size o) = Z.lxor q 1 * block_size o) as ->.
  { rewrite block_size_pow. rewrite <- !Z.shiftl_mul_pow2 by lia.
    rewrite Z.shiftl_lxor. f_equal. rewrite Z.shiftl_mul_pow2 by lia. lia. }
  assert (∃ a, q = 2 * a ∨ q = 2 * a + 1) as [a [-> | ->]].
  { exists (q / 2). Z.div_mod_to_equations. lia. }
  - left. rewrite lxor_even. split; [|lia].
    replace (2 * a * block_size o) with (a * (2 * block_size o)) by lia. apply Z.mod_mul. lia.
  - right. rewrite lxor_odd. split; [|lia].
    replace ((2 * a + 1) * block_size o - block_size o) with (a * (2 * block_size o)) by lia.
    apply Z.mod_mul. lia.
Qed.

Lemma block_ok_halves c s o :
  block_ok c (s, S o) → block_ok c (s, o) ∧ block_ok c (s + block_size o, o).
Proof.
  intros (Hm & Ha & e & He & Hlo & Hhi). simpl in *.
  pose proof (block_size_pos o). rewrite block_size_S in *.
  apply Z.mod_divide in Ha as [q ->]; [|lia].
  split; (split; [simpl; lia|split]); simpl.
  - replace (q * (2 * block_size o)) with (q * 2 * block_size o) by lia. apply Z.mod_mul. lia.
  - exists e. repeat split; auto; lia.
  - replace (q * (2 * block_size o) + block_size o) with ((q * 2 + 1) * block_size o) by lia.
    apply Z.mod_mul. lia.
  - exists e. repeat split; auto; lia.
Qed.

(** Two adjacent usable frames are in the same range. *)
Lemma separated_same_range l e e' f :
  separated l → e ∈ l → e' ∈ l → in_range e f → in_range e' (f + 1) → e = e'.
Proof.
  induction l as [|x l IH]; intros Hsep He He'; [set_solver|].
  apply separated_cons in Hsep as ((?&?&?) & Hsep & Hg). unfold in_range, gap in *.
  apply elem_of_cons in He as [->|He], He' as [->|He']; [done| | |by apply IH].
  - specialize (Hg e' He'). lia.
  - specialize (Hg e He). destruct Hsep as [Hf _]. rewrite Forall_forall in Hf.
    destruct (Hf e He) as (?&?&?). lia.
Qed.

(** Two free buddies make a well-formed block of the next order. *)
Lemma block_ok_merge c s o :
  cfg_ok c → (o < c_max c)%nat → block_ok c (s, o) →
  block_ok c (Z.lxor s (block_size o), o) →
  block_ok c (s `min` Z.lxor s (block_size o), S o).
Proof.
  intros Hc Ho (_ & Ha & e & He & Hlo & Hhi) (_ & Ha' & e' & He' & Hlo' & Hhi'). simpl in *.
  pose proof (block_size_pos o) as Hp.
  destruct (buddy_cases s o Ha) as [[Hal Hx]|[Hal Hx]]; rewrite Hx in *.
  - rewrite Z.min_l by lia. split; [simpl; lia|]. split; [done|].
    assert (e = e') as <-.
    { apply (separated_same_range (c_ranges c) e e' (s + block_size o - 1)); try done;
        [apply Hc|unfold in_range; lia..]. }
    exists e. simpl. rewrite block_size_S. repeat split; auto; lia.
  - rewrite Z.min_r by lia. split; [simpl; lia|]. split; [done|].
    assert (e' = e) as ->.
    { apply (separated_same_range (c_ranges c) e' e (s - 1)); try done;
        [apply Hc|unfold in_range; lia..]. }
    exists e. simpl. rewrite block_size_S. repeat split; auto; lia.
Qed.

Lemma bmass_merge g s o :
  s mod block_size o = 0 →
  bmass g (s `min` Z.lxor s (block_size o), S o) =
  bmass g (s, o) + bmass g (Z.lxor s (block_size o), o).
Proof.
  intros Ha. pose proof (block_size_pos o) as Hp. rewrite bmass_split.
  destruct (buddy_cases s o Ha) as [[_ Hx]|[_ Hx]]; rewrite Hx in *.
  - rewrite Z.min_l by lia. done.
  - rewrite Z.min_r by lia.
    replace (s - block_size o + block_size o) with s by lia. lia.
Qed.

(** ** Changes that leave the lists alone *)

(** Only the loose blocks change: the new ones are well formed and weigh the same. *)
Lemma inv_reloose c b G hand loose loose' :
  inv c b G hand loose → Forall (block_ok c) loose' →
  (∀ g, loose_mass g loose' = loose_mass g loose) → loose_pages loose' = loose_pages loose →
  inv c b G hand loose'.
Proof.
  intros [] Hok Hm Hp. split; auto.
  - intros g. by rewrite Hm.
  - by rewrite Hp.
Qed.

Lemma inv_split c b G hand loose s o :
  inv c b G hand ((s, S o) :: loose) →
  inv c b G hand ((s + block_size o, o) :: (s, o) :: loose).
Proof.
  intros Hinv. pose proof (i_loose Hinv) as Hlo. apply Forall_cons in Hlo as [Hk Hlo].
  destruct (block_ok_halves c s o Hk) as [Hl Hr].
  apply (inv_reloose _ _ _ _ _ _ Hinv); [by repeat (apply Forall_cons; split)| |].
  - intros g. simpl. rewrite bmass_split. lia.
  - simpl. rewrite block_size_S. lia.
Qed.

Lemma inv_swap c b G hand loose k k' :
  inv c b G hand (k :: k' :: loose) → inv c b G hand (k' :: k :: loose).
Proof.
  intros Hinv. pose proof (i_loose Hinv) as [H1 [H2 H3]%Forall_cons_1]%Forall_cons_1.
  apply (inv_reloose _ _ _ _ _ _ Hinv); [by repeat (apply Forall_cons; split)| |]; intros; simpl; lia.
Qed.

Lemma inv_merge c b G hand loose s o :
  (o < c_max c)%nat →
  inv c b G hand ((Z.lxor s (block_size o), o) :: (s, o) :: loose) →
  inv c b G hand ((s `min` Z.lxor s (block_size o), S o) :: loose).
Proof.
  intros Ho Hinv. pose proof (i_loose Hinv) as [H1 [H2 H3]%Forall_cons_1]%Forall_cons_1.
  apply (inv_reloose _ _ _ _ _ _ Hinv).
  - constructor; [|done]. by apply block_ok_merge; [apply Hinv|..].
  - intros g. simpl. rewrite bmass_merge by apply H2. lia.
  - simpl. rewrite block_size_S. lia.
Qed.

(** ** No frame is in two blocks *)

Lemma bmass_delta f k : bmass (delta f) k = if decide (in_range (k.1, block_size k.2) f) then 1 else 0.
Proof. unfold bmass. rewrite zsum_delta. unfold in_range. simpl. done. Qed.

Lemma delta_nonneg f x : 0 <= delta f x.
Proof. unfold delta. case_decide; lia. Qed.

Lemma bmass_delta_nonneg f k : 0 <= bmass (delta f) k.
Proof. rewrite bmass_delta. case_decide; lia. Qed.

Lemma loose_mass_delta_nonneg f l : 0 <= loose_mass (delta f) l.
Proof. induction l as [|k l IH]; simpl; [lia|]. pose proof (bmass_delta_nonneg f k). lia. Qed.

Lemma listed_mass_delta_nonneg f b G i : 0 <= listed_mass (delta f) b G i.
Proof.
  unfold listed_mass. destruct (wh G i) as [[]|]; [done|apply bmass_delta_nonneg..|done].
Qed.

Lemma ranges_mass_delta f l :
  separated l → 0 <= ranges_mass (delta f) l <= 1 ∧
                (ranges_mass (delta f) l = 1 ↔ covered l f).
Proof.
  intros Hsep. assert (∀ e, in_range e f ∨ ¬ in_range e f) as Hdec.
  { intros e. unfold in_range. lia. }
  induction l as [|e l IH]; simpl.
  { split; [lia|]. split; [lia|]. by intros []%covered_nil. }
  apply separated_cons in Hsep as ((?&?&?) & Hsep & Hg).
  destruct (IH Hsep) as [Hb Hc]. rewrite zsum_delta, covered_cons.
  destruct (decide _) as [Hin|Hin].
  - assert (ranges_mass (delta f) l ≠ 1).
    { intros (e' & He' & Hf')%Hc. specialize (Hg e' He'). unfold gap, in_range in *. lia. }
    split; [lia|]. split; [|lia]. intros _. by left.
  - split; [lia|]. rewrite Z.add_0_l, Hc. unfold in_range at 1. tauto.
Qed.

Section disjoint.
Context {c : cfg} {b : BuddyAllocator} {G : ghost} {hand : gmap nat BlockNode}
  {loose : list block} (Hinv : inv c b G hand loose).

Lemma inv_mass_le f :
  nsum (listed_mass (delta f) b G) (c_nodes c) + loose_mass (delta f) loose <= 1.
Proof.
  rewrite (i_mass Hinv). apply ranges_mass_delta, Hinv.
Qed.

Lemma listed_mass_delta_in f i n id :
  ns b !! i = Some n → wh G i = Some id → id ≠ LUnused →
  in_range (bn_start n, block_size (bn_order n)) f → listed_mass (delta f) b G i = 1.
Proof.
  intros Hn Hw Hid Hin. unfold listed_mass. rewrite Hw, (pay_at_node b i n Hn).
  destruct id; [done|..]; rewrite bmass_delta; simpl; by rewrite decide_True.
Qed.

Lemma inv_listed_loose_disjoint f i n id k :
  ns b !! i = Some n → wh G i = Some id → id ≠ LUnused → k ∈ loose →
  in_range (bn_start n, block_size (bn_order n)) f → ¬ in_range (k.1, block_size k.2) f.
Proof.
  intros Hn Hw Hid Hk Hi Hf. pose proof (inv_mass_le f) as Hle.
  pose proof (nsum_ge (listed_mass (delta f) b G) (c_nodes c) i) as Hge.
  rewrite (listed_mass_delta_in f i n id) in Hge by done.
  specialize (Hge (inv_node_lt Hinv i n Hn) ltac:(intros; apply listed_mass_delta_nonneg)).
  assert (1 <= loose_mass (delta f) loose); [|lia].
  clear -Hk Hf. induction loose as [|k' l IH]; [set_solver|]. simpl.
  pose proof (loose_mass_delta_nonneg f l). pose proof (bmass_delta_nonneg f k').
  apply elem_of_cons in Hk as [->|Hk]; [|specialize (IH Hk); lia].
  rewrite (bmass_delta f k'), decide_True by done. lia.
Qed.

Lemma inv_listed_disjoint f i j n m id id' :
  i ≠ j → ns b !! i = Some n → wh G i = Some id → id ≠ LUnused →
  ns b !! j = Some m → wh G j = Some id' → id' ≠ LUnused →
  in_range (bn_start n, block_size (bn_order n)) f →
  ¬ in_range (bn_start m, block_size (bn_order m)) f.
Proof.
  intros Hne Hn Hw Hid Hm Hw' Hid' Hi Hj. pose proof (inv_mass_le f) as Hle.
  pose proof (nsum_ge2 (listed_mass (delta f) b G) (c_nodes c) i j
    (inv_node_lt Hinv i n Hn) (inv_node_lt Hinv j m Hm) Hne
    ltac:(intros; apply listed_mass_delta_nonneg)) as Hge.
  rewrite (listed_mass_delta_in f i n id), (listed_mass_delta_in f j m id') in Hge by done.
  pose proof (loose_mass_delta_nonneg f loose). lia.
Qed.
End disjoint.
