(* ===== verification/BuddyLists.v ===== *)
(** * The list operations of the buddy allocator

    Specifications of the primitive operations of [Buddy.v] (pool, global free
    lists, per-CPU caches, allocation list) against the invariant: each one is
    one detach or one attach move of [BuddyInv], or a pure search. *)

From S2P Require Import Prelude Frame LinkedList RangeList Buddy BuddyInv.

Create HintDb buddy.
Create Rewrite HintDb buddy.

(** ** Writing a node *)

Definition upd_node (b : BuddyAllocator) (i : nat) (n : BlockNode) : BuddyAllocator :=
  set_nodes (mkPool (<[i:=n]> (ns b)) (unused_head (nodes b)) (unused_len (nodes b))) b.

Definition with_next (n : BlockNode) (nx : option nat) : BlockNode :=
  mkNode (bn_start n) (bn_order n) (bn_refcount n) nx.

Lemma pay_with_next n nx : pay (with_next n nx) = pay n.
Proof. done. Qed.

Section run.
Implicit Types (b : BuddyAllocator) (Qe : FrameAllocError → BuddyAllocator → Prop).

Lemma wp_node_at b i n (Q : BlockNode → BuddyAllocator → Prop) Qe :
  ns b !! i = Some n → Q n b → wp_res (node_at i) b Q Qe.
Proof. intros Hn HQ. unfold node_at. wp_run. rewrite Hn. by wp_run. Qed.

Lemma wp_walk_fuel b (Q : nat → BuddyAllocator → Prop) Qe :
  Q (S (length (ns b))) b → wp_res walk_fuel b Q Qe.
Proof. done. Qed.

Lemma wp_set_node b i m (Q : unit → BuddyAllocator → Prop) Qe :
  (i < length (ns b))%nat → Q () (upd_node b i m) → wp_res (set_node i m) b Q Qe.
Proof. intros Hi HQ. unfold set_node. wp_run. rewrite decide_True by done. by wp_run. Qed.

Lemma wp_set_next b i n nx (Q : unit → BuddyAllocator → Prop) Qe :
  ns b !! i = Some n → Q () (upd_node b i (with_next n nx)) →
  wp_res (set_next i nx) b Q Qe.
Proof.
  intros Hn HQ. unfold set_next. wp_run. apply (wp_node_at b i n); [done|].
  apply wp_set_node; [by eapply lookup_lt_Some|done].
Qed.

Lemma wp_set_order b i n o (Q : unit → BuddyAllocator → Prop) Qe :
  ns b !! i = Some n →
  Q () (upd_node b i (mkNode (bn_start n) o (bn_refcount n) (bn_next n))) →
  wp_res (set_order i o) b Q Qe.
Proof.
  intros Hn HQ. unfold set_order. wp_run. apply (wp_node_at b i n); [done|].
  apply wp_set_node; [by eapply lookup_lt_Some|done].
Qed.

Lemma wp_set_start b i n st (Q : unit → BuddyAllocator → Prop) Qe :
  ns b !! i = Some n →
  Q () (upd_node b i (mkNode st (bn_order n) (bn_refcount n) (bn_next n))) →
  wp_res (set_start i st) b Q Qe.
Proof.
  intros Hn HQ. unfold set_start. wp_run. apply (wp_node_at b i n); [done|].
  apply wp_set_node; [by eapply lookup_lt_Some|done].
Qed.

Lemma wp_set_refcount b i n rc (Q : unit → BuddyAllocator → Prop) Qe :
  ns b !! i = Some n →
  Q () (upd_node b i (mkNode (bn_start n) (bn_order n) rc (bn_next n))) →
  wp_res (set_refcount i rc) b Q Qe.
Proof.
  intros Hn HQ. unfold set_refcount. wp_run. apply (wp_node_at b i n); [done|].
  apply wp_set_node; [by eapply lookup_lt_Some|done].
Qed.
End run.

Ltac b_run :=
  repeat (wp_step ||
          lazymatch goal with
          | |- wp_res walk_fuel _ _ _ => apply wp_walk_fuel; cbv beta
          end).

(** ** What the field updates change *)

Lemma ns_upd_node b i n : ns (upd_node b i n) = <[i:=n]> (ns b).
Proof. done. Qed.

Lemma head_of_upd_node b i n id : head_of (upd_node b i n) id = head_of b id.
Proof. by destruct id. Qed.
Lemma len_of_upd_node b i n id : len_of (upd_node b i n) id = len_of b id.
Proof. by destruct id. Qed.
Lemma free_pages_upd_node b i n : free_pages (upd_node b i n) = free_pages b.
Proof. done. Qed.

Lemma head_of_set_global hs ls b id :
  head_of (set_global hs ls b) id =
  match id with LGlobal o => mjoin (hs !! o) | _ => head_of b id end.
Proof. by destruct id. Qed.
Lemma len_of_set_global hs ls b id :
  len_of (set_global hs ls b) id =
  match id with LGlobal o => default 0%nat (ls !! o) | _ => len_of b id end.
Proof. by destruct id. Qed.

Lemma head_of_set_allocations h n b id :
  head_of (set_allocations h n b) id = match id with LAlloc => h | _ => head_of b id end.
Proof. by destruct id. Qed.
Lemma len_of_set_allocations h n b id :
  len_of (set_allocations h n b) id = match id with LAlloc => n | _ => len_of b id end.
Proof. by destruct id. Qed.
Lemma free_pages_set_allocations h n b : free_pages (set_allocations h n b) = free_pages b.
Proof. done. Qed.

Lemma nexts_upd_node b i n j :
  (i < length (ns b))%nat →
  nexts (upd_node b i n) j = if decide (j = i) then Some (bn_next n) else nexts b j.
Proof.
  intros Hi. unfold nexts. rewrite ns_upd_node. case_decide as Hd.
  - subst. by rewrite list_lookup_insert_eq.
  - by rewrite list_lookup_insert_ne.
Qed.

Lemma pays_upd_node b i n j :
  (i < length (ns b))%nat →
  pays (upd_node b i n) j = if decide (j = i) then Some (pay n) else pays b j.
Proof.
  intros Hi. unfold pays. rewrite ns_upd_node. case_decide as Hd.
  - subst. by rewrite list_lookup_insert_eq.
  - by rewrite list_lookup_insert_ne.
Qed.

Lemma shape_upd_node c b i n : shape c b → shape c (upd_node b i n).
Proof. intros []. split; try done. by rewrite ns_upd_node, length_insert. Qed.

Lemma shape_set_global c b hs ls :
  shape c b → length hs = MAX_ORDER_SLOTS → length ls = MAX_ORDER_SLOTS →
  shape c (set_global hs ls b).
Proof. intros []. by split. Qed.

Lemma shape_set_allocations c b h n : shape c b → shape c (set_allocations h n b).
Proof. intros []. by split. Qed.

#[export] Hint Resolve shape_upd_node shape_set_global shape_set_allocations : buddy.
#[export] Hint Rewrite head_of_upd_node len_of_upd_node free_pages_upd_node
  head_of_set_global len_of_set_global head_of_set_allocations len_of_set_allocations
  free_pages_set_allocations : buddy.

(** ** Counting free pages *)

Lemma sum_lens_insert ls : ∀ k o l l',
  ls !! o = Some l →
  sum_lens k (<[o:=l']> ls) =
  sum_lens k ls + (Z.of_nat l' - Z.of_nat l) * block_size (k + o).
Proof.
  induction ls as [|x ls IH]; intros k o l l' Hl; [done|].
  destruct o as [|o]; simpl in *.
  - simplify_eq. rewrite Nat.add_0_r. lia.
  - rewrite (IH (S k) o l l' Hl). replace (k + S o)%nat with (S k + o)%nat by lia. lia.
Qed.

Lemma free_pages_set_global b hs ls o l l' :
  global_free_lens b !! o = Some l → (o <= max_order b)%nat → ls = <[o:=l']> (global_free_lens b) →
  free_pages (set_global hs ls b) =
  free_pages b + (Z.of_nat l' - Z.of_nat l) * block_size o.
Proof.
  intros Hl Ho ->. unfold free_pages. simpl max_order. simpl global_free_lens.
  simpl cpu_count. simpl per_cpu. rewrite take_insert_lt by lia.
  rewrite (sum_lens_insert _ 0 o l l'); [simpl; lia|].
  by rewrite lookup_take_lt by lia.
Qed.

(** ** Searching a sorted list *)

Definition node_in (b : BuddyAllocator) (i : nat) : Prop := is_Some (ns b !! i).

Lemma starts_cons b i n l : ns b !! i = Some n → starts b (i :: l) = bn_start n :: starts b l.
Proof. intros Hn. unfold starts. simpl. by rewrite (pay_at_node b i n Hn). Qed.

Lemma seg_cons_inv b i l x :
  seg (nexts b) (Some i) (i :: l) x → ∃ n, ns b !! i = Some n ∧ seg (nexts b) (bn_next n) l x.
Proof.
  intros (_ & y & Hy & Hs). unfold nexts in Hy.
  destruct (ns b !! i) as [n|]; simplify_eq/=. by exists n.
Qed.

Lemma insert_search_spec b start l2 : ∀ l1 cursor fuel Q Qe,
  chain (nexts b) cursor l2 → (length l2 < fuel)%nat →
  StronglySorted Z.lt (starts b l2) → start ∉ starts b l2 →
  Forall (λ x, x < start) (starts b l1) →
  (∀ l1' l2', l1 ++ l2 = l1' ++ l2' → Forall (λ x, x < start) (starts b l1') →
     Forall (λ x, start < x) (starts b l2') → Q (last l1', head l2') b) →
  wp_res (insert_search fuel (last l1) cursor start) b Q Qe.
Proof.
  induction l2 as [|i l2 IH]; intros l1 cursor fuel Q Qe Hch Hf Hs Hni Hlo HQ.
  { apply chain_head in Hch as ->. simpl. destruct fuel; simpl; wp_run; by apply (HQ l1 []). }
  pose proof (chain_head _ _ _ Hch) as ->. simpl.
  destruct fuel as [|fuel]; [simpl in *; lia|].
  apply seg_cons_inv in Hch as (n & Hn & Hch). simpl. wp_run.
  apply (wp_node_at b i n); [done|]. rewrite (starts_cons b i n l2 Hn) in *.
  apply not_elem_of_cons in Hni as [Hne Hni].
  apply StronglySorted_cons in Hs as [Hgt Hs].
  rewrite decide_False by done. case_decide as Hlt.
  - wp_run. apply (HQ l1 (i :: l2)); [done..|]. rewrite (starts_cons b i n l2 Hn).
    apply Forall_cons; split; [done|]. eapply Forall_impl; [exact Hgt|]. simpl. lia.
  - rewrite <- (last_snoc i l1). apply IH; auto; [simpl in *; lia| |].
    + unfold starts. rewrite fmap_app. apply Forall_app. split; [done|].
      apply Forall_singleton. rewrite (pay_at_node b i n Hn). simpl. lia.
    + intros l1' l2' Heq. apply HQ. rewrite <- Heq. by rewrite <- app_assoc.
Qed.

(** The state after [global_insert_sorted] linked [i] between [l1] and [l2]. *)
Definition linked (b : BuddyAllocator) (o i : nat) (n : BlockNode) (l1 l2 : list nat)
    (l : nat) : BuddyAllocator :=
  let b1 := upd_node b i (with_next n (head l2)) in
  let hs := match last l1 with
            | Some _ => global_free_heads b
            | None => <[o:=Some i]> (global_free_heads b) end in
  let b2 := match last l1 with
            | Some q => upd_node b1 q (with_next (default BlockNode_EMPTY (ns b !! q)) (Some i))
            | None => b1 end in
  set_global hs (<[o:=S l]> (global_free_lens b)) b2.

Lemma ns_linked b o i n l1 l2 l :
  ns (linked b o i n l1 l2 l) =
  match last l1 with
  | Some q => <[q:=with_next (default BlockNode_EMPTY (ns b !! q)) (Some i)]>
                (<[i:=with_next n (head l2)]> (ns b))
  | None => <[i:=with_next n (head l2)]> (ns b)
  end.
Proof. unfold linked. by destruct (last l1). Qed.

Lemma global_insert_run b o i n l1 l2 l (Q : unit → BuddyAllocator → Prop) Qe :
  ns b !! i = Some n → (∀ q, last l1 = Some q → node_in b q ∧ q ≠ i) →
  global_free_lens b !! o = Some l → (o < length (global_free_heads b))%nat →
  Q () (linked b o i n l1 l2 l) →
  wp_res (_ ← set_next i (head l2);
          _ ← match last l1 with
              | Some p => set_next p (Some i)
              | None => set_global_head o (Some i)
              end;
          incr_global_len o) b Q Qe.
Proof.
  intros Hn Hq Hl Ho HQ. wp_run. apply (wp_set_next b i n _ _ _ Hn). wp_run.
  unfold linked in HQ. destruct (last l1) as [q|].
  - destruct (Hq q eq_refl) as [[m Hm] Hne].
    apply (wp_set_next _ q m); [by rewrite ns_upd_node, list_lookup_insert_ne|].
    rewrite Hm in HQ. unfold incr_global_len. wp_run. simpl. rewrite Hl. by wp_run.
  - unfold set_global_head. wp_run. rewrite decide_True by done. wp_run.
    unfold incr_global_len. wp_run. simpl. rewrite Hl. by wp_run.
Qed.

Section linked.
Context (b : BuddyAllocator) (o i : nat) (n : BlockNode) (l1 l2 : list nat) (l : nat).
Context (Hn : ns b !! i = Some n) (Hq : ∀ q, last l1 = Some q → node_in b q ∧ q ≠ i).

Lemma linked_self : ns (linked b o i n l1 l2 l) !! i = Some (with_next n (head l2)).
Proof.
  rewrite ns_linked. destruct (last l1) as [q|] eqn:Hl.
  - destruct (Hq q) as [_ Hne]; [done|]. rewrite list_lookup_insert_ne by done.
    apply list_lookup_insert_eq. by eapply lookup_lt_Some.
  - apply list_lookup_insert_eq. by eapply lookup_lt_Some.
Qed.

Lemma linked_other j : j ≠ i → last l1 ≠ Some j → ns (linked b o i n l1 l2 l) !! j = ns b !! j.
Proof.
  intros Hj Hlast. rewrite ns_linked. destruct (last l1) as [q|].
  - rewrite !list_lookup_insert_ne by congruence. done.
  - by rewrite list_lookup_insert_ne by congruence.
Qed.

Lemma linked_last q m :
  last l1 = Some q → ns b !! q = Some m →
  ns (linked b o i n l1 l2 l) !! q = Some (with_next m (Some i)).
Proof.
  intros Hl Hm. rewrite ns_linked, Hl, Hm. simpl. apply list_lookup_insert_eq.
  rewrite length_insert. by eapply lookup_lt_Some.
Qed.

Lemma linked_local : local_change b (linked b o i n l1 l2 l) (LGlobal o) l1 i.
Proof.
  split.
  - intros id' Hid. unfold linked. destruct (last l1); autorewrite with buddy;
      (destruct id'; autorewrite with buddy; try done);
      by rewrite list_lookup_insert_ne by congruence.
  - intros id' Hid. unfold linked. destruct (last l1); autorewrite with buddy;
      (destruct id'; autorewrite with buddy; try done);
      by rewrite list_lookup_insert_ne by congruence.
  - intros j Hj Hlast. unfold nexts. by rewrite linked_other.
  - intros j Hj. unfold pays. destruct (decide (last l1 = Some j)) as [Hl|Hl].
    + destruct (Hq j Hl) as [[m Hm] _]. by rewrite (linked_last j m), Hm.
    + by rewrite linked_other.
Qed.

Lemma linked_shape c : shape c b → (o < MAX_ORDER_SLOTS)%nat → shape c (linked b o i n l1 l2 l).
Proof.
  intros Hs Ho. unfold linked. apply shape_set_global.
  - destruct (last l1); auto with buddy.
  - destruct (last l1); rewrite ?length_insert; apply Hs.
  - rewrite length_insert; apply Hs.
Qed.
End linked.

Lemma global_lookups c b o :
  shape c b → (o < MAX_ORDER_SLOTS)%nat →
  global_free_heads b !! o = Some (head_of b (LGlobal o)) ∧
  global_free_lens b !! o = Some (len_of b (LGlobal o)).
Proof.
  intros Hs Ho. simpl.
  destruct (lookup_lt_is_Some_2 (global_free_heads b) o) as [h ->].
  { by rewrite (sh_heads _ _ Hs). }
  destruct (lookup_lt_is_Some_2 (global_free_lens b) o) as [l ->]; [|done].
  by rewrite (sh_lens _ _ Hs).
Qed.

Lemma wp_global_head c b o (Q : option nat → BuddyAllocator → Prop) Qe :
  shape c b → (o < MAX_ORDER_SLOTS)%nat → Q (head_of b (LGlobal o)) b →
  wp_res (global_head o) b Q Qe.
Proof.
  intros Hs Ho HQ. unfold global_head. wp_run.
  destruct (global_lookups c b o Hs Ho) as [-> _]. by wp_run.
Qed.

Lemma inv_order_slot c b G hand loose k :
  inv c b G hand loose → k ∈ loose → (k.2 < MAX_ORDER_SLOTS)%nat ∧ (k.2 <= c_max c)%nat.
Proof.
  intros Hinv Hk. pose proof (i_loose Hinv) as Hl. rewrite Forall_forall in Hl.
  destruct (Hl k Hk) as (Hm & _). pose proof (co_max _ (i_cfg Hinv)). lia.
Qed.

(** A loose block starts where no listed block of a global list starts. *)
Lemma inv_start_fresh c b G hand loose k o :
  inv c b G hand loose → k ∈ loose → k.1 ∉ starts b (gl G (LGlobal o)).
Proof.
  intros Hinv Hk (j & Hst & Hj)%list_elem_of_fmap.
  destruct (inv_list_node Hinv _ j Hj) as (m & Hm & (Hbk & _) & Hw).
  rewrite (pay_at_node b j m Hm) in Hst. simpl in Hst.
  apply (inv_listed_loose_disjoint Hinv k.1 j m (LGlobal o) k); try done;
    unfold in_range; simpl.
  - pose proof (block_size_pos (bn_order m)). lia.
  - pose proof (block_size_pos k.2). lia.
Qed.

Lemma global_insert_sorted_spec c b u cl al hand loose o i n
    (Q : unit → BuddyAllocator → Prop) Qe :
  Inv c b u cl al hand ((bn_start n, o) :: loose) →
  hand !! i = Some n → bn_order n = o → bn_refcount n = 0 →
  (∀ b', Inv c b' u cl al (delete i hand) loose → Q () b') →
  wp_res (global_insert_sorted o i) b Q Qe.
Proof.
  intros (G & Hinv & Hu & Hcl & Hal) Hh Ho Hrc HQ.
  pose proof (i_hand_node Hinv i n Hh) as Hn. pose proof (i_shape Hinv) as Hsh.
  destruct (inv_order_slot _ _ _ _ _ (bn_start n, o) Hinv) as [Hslot Hmax]; [left|].
  simpl in Hslot, Hmax. pose proof (i_lists Hinv) as HL.
  unfold global_insert_sorted. wp_run. apply (wp_node_at b i n); [done|]. wp_run.
  eapply wp_global_head; [done..|]. b_run.
  apply (insert_search_spec b _ (gl G (LGlobal o)) []).
  - apply (l_chain HL).
  - rewrite (sh_nodes _ _ Hsh). pose proof (inv_length Hinv (LGlobal o)). lia.
  - apply (i_sorted Hinv).
  - apply (inv_start_fresh c b G hand _ (bn_start n, o) o Hinv). left.
  - constructor.
  - intros l1 l2 Hl Hlo Hhi. simpl in Hl.
    assert (Hq : ∀ q, last l1 = Some q → node_in b q ∧ q ≠ i).
    { intros q Hq%last_in. assert (q ∈ gl G (LGlobal o)) as Hqin by (rewrite Hl; set_solver).
      split.
      - destruct (inv_list_node Hinv _ q Hqin) as (m & Hm & _). by exists m.
      - intros ->. by eapply (inv_hand_not_in Hinv). }
    destruct (global_lookups c b o Hsh Hslot) as [Hgh Hgl].
    apply (global_insert_run b o i n l1 l2 (len_of b (LGlobal o))); auto.
    { by eapply lookup_lt_Some. }
    apply HQ. set (b' := linked b o i n l1 l2 _).
    assert (local_change b b' (LGlobal o) l1 i) as Hlc by (by apply linked_local).
    exists (ghost_set G (LGlobal o) (l1 ++ i :: l2) i (Some (LGlobal o))).
    split; [|split; [|split]].
    + eapply inv_attach with (n' := with_next n (head l2)) (n := n) (b := b); try done.
      * simpl. by rewrite Ho.
      * by apply linked_self.
      * pose proof (i_loose Hinv) as [Hbk _]%Forall_cons_1. simpl. by rewrite Ho.
      * by apply linked_shape.
      * unfold b', linked. destruct (last l1); autorewrite with buddy; [by simpl|].
        rewrite list_lookup_insert_eq; [done|]. by eapply lookup_lt_Some.
      * unfold b', linked. destruct (last l1); autorewrite with buddy;
          (rewrite list_lookup_insert_eq; [done|by eapply lookup_lt_Some]).
      * unfold nexts, b'. by rewrite linked_self.
      * intros q Hlq. destruct (Hq q Hlq) as [[m Hm] _]. unfold nexts, b'.
        erewrite linked_last; done.
      * unfold b', linked.
        rewrite (free_pages_set_global _ _ _ o (len_of b (LGlobal o)) (S (len_of b (LGlobal o))));
          [|destruct (last l1); exact Hgl| |].
        -- destruct (last l1); autorewrite with buddy; simpl; rewrite ?Ho; lia.
        -- destruct (last l1); simpl; rewrite (sh_max _ _ Hsh); done.
        -- by destruct (last l1).
    + rewrite (lc_len _ _ _ _ _ Hlc); done.
    + intros p o'. rewrite (lc_len _ _ _ _ _ Hlc); done.
    + rewrite Hal. symmetry. simpl. apply (fmap_pay_frame b b' _ i).
      * by eapply (inv_hand_not_in Hinv).
      * apply (lc_pays _ _ _ _ _ Hlc).
Qed.

(** ** Unlinking a cell

    [relinked b i n l1 l2]: the cell [i] between [l1] and [l2] was bypassed by
    its predecessor, if it has one, and its own link cleared. *)

Definition relinked (b : BuddyAllocator) (i : nat) (n : BlockNode) (l1 l2 : list nat)
    : BuddyAllocator :=
  upd_node (match last l1 with
            | Some q => upd_node b q (with_next (default BlockNode_EMPTY (ns b !! q)) (head l2))
            | None => b end) i (with_next n None).

Lemma relinked_shape b i n l1 l2 c : shape c b → shape c (relinked b i n l1 l2).
Proof. intros Hs. unfold relinked. destruct (last l1); auto with buddy. Qed.

Lemma head_of_relinked b i n l1 l2 id : head_of (relinked b i n l1 l2) id = head_of b id.
Proof. unfold relinked. destruct (last l1); by autorewrite with buddy. Qed.
Lemma len_of_relinked b i n l1 l2 id : len_of (relinked b i n l1 l2) id = len_of b id.
Proof. unfold relinked. destruct (last l1); by autorewrite with buddy. Qed.
Lemma free_pages_relinked b i n l1 l2 : free_pages (relinked b i n l1 l2) = free_pages b.
Proof. unfold relinked. by destruct (last l1). Qed.

Section relinked.
Context (b : BuddyAllocator) (i : nat) (n : BlockNode) (l1 l2 : list nat).
Context (Hn : ns b !! i = Some n) (Hq : ∀ q, last l1 = Some q → node_in b q ∧ q ≠ i).

Lemma ns_relinked :
  ns (relinked b i n l1 l2) =
  <[i:=with_next n None]> (match last l1 with
     | Some q => <[q:=with_next (default BlockNode_EMPTY (ns b !! q)) (head l2)]> (ns b)
     | None => ns b end).
Proof. unfold relinked. by destruct (last l1). Qed.

Lemma relinked_self : ns (relinked b i n l1 l2) !! i = Some (with_next n None).
Proof.
  rewrite ns_relinked. apply list_lookup_insert_eq.
  destruct (last l1); rewrite ?length_insert; by eapply lookup_lt_Some.
Qed.

Lemma relinked_other j : j ≠ i → last l1 ≠ Some j → ns (relinked b i n l1 l2) !! j = ns b !! j.
Proof.
  intros Hj Hlast. rewrite ns_relinked, list_lookup_insert_ne by done.
  destruct (last l1) as [q|]; [|done]. by rewrite list_lookup_insert_ne by congruence.
Qed.

Lemma relinked_last q m :
  last l1 = Some q → ns b !! q = Some m →
  ns (relinked b i n l1 l2) !! q = Some (with_next m (head l2)).
Proof.
  intros Hl Hm. destruct (Hq q Hl) as [_ Hne].
  rewrite ns_relinked, list_lookup_insert_ne, Hl, Hm by done. simpl.
  apply list_lookup_insert_eq. by eapply lookup_lt_Some.
Qed.

Lemma relinked_nexts j :
  j ≠ i → last l1 ≠ Some j → nexts (relinked b i n l1 l2) j = nexts b j.
Proof. intros. unfold nexts. by rewrite relinked_other. Qed.

Lemma relinked_pays j : j ≠ i → pays (relinked b i n l1 l2) j = pays b j.
Proof.
  intros Hj. unfold pays. destruct (decide (last l1 = Some j)) as [Hl|Hl].
  - destruct (Hq j Hl) as [[m Hm] _]. by rewrite (relinked_last j m), Hm.
  - by rewrite relinked_other.
Qed.

Lemma relinked_last_next q :
  last l1 = Some q → nexts (relinked b i n l1 l2) q = Some (head l2).
Proof.
  intros Hl. destruct (Hq q Hl) as [[m Hm] _]. unfold nexts. by rewrite (relinked_last q m).
Qed.

(** The monadic steps that bypass [i]. *)
Lemma relink_run set_head (Q : unit → BuddyAllocator → Prop)
    (Qe : FrameAllocError → BuddyAllocator → Prop) :
  (last l1 = None → wp_res set_head b Q Qe) →
  (∀ q m, last l1 = Some q → ns b !! q = Some m →
     Q () (upd_node b q (with_next m (head l2)))) →
  wp_res (match last l1 with Some p => set_next p (head l2) | None => set_head end) b Q Qe.
Proof.
  intros Hnone Hsome. destruct (last l1) as [q|] eqn:Hl; [|by apply Hnone].
  destruct (Hq q eq_refl) as [[m Hm] _]. apply (wp_set_next b q m); [done|]. by apply Hsome.
Qed.
End relinked.

#[export] Hint Rewrite head_of_relinked len_of_relinked free_pages_relinked : buddy.
#[export] Hint Resolve relinked_shape : buddy.

(** The facts about the cells around [i] that every removal needs. *)
Lemma inv_list_prev c b G hand loose id l1 i l2 :
  inv c b G hand loose → gl G id = l1 ++ i :: l2 →
  ∀ q, last l1 = Some q → node_in b q ∧ q ≠ i.
Proof.
  intros Hinv Hl q Hq%last_in.
  assert (q ∈ gl G id) as Hqin by (rewrite Hl; set_solver). split.
  - destruct (inv_list_node Hinv _ q Hqin) as (m & Hm & _). by exists m.
  - intros ->. pose proof (l_nodup (i_lists Hinv) id) as Hnd. rewrite Hl in Hnd.
    apply (remove_not_in _ _ _ Hnd). set_solver.
Qed.

(** ** Removal from a global free list *)

Definition unlinked_global (b : BuddyAllocator) (o i : nat) (n : BlockNode) (l1 l2 : list nat)
    (l : nat) : BuddyAllocator :=
  set_global (match last l1 with
              | Some _ => global_free_heads b
              | None => <[o:=head l2]> (global_free_heads b) end)
             (<[o:=l]> (global_free_lens b)) (relinked b i n l1 l2).

Lemma unlink_global_run c b o i n l1 l2 l (Q : option nat → BuddyAllocator → Prop) Qe :
  shape c b → (o < MAX_ORDER_SLOTS)%nat → ns b !! i = Some n →
  (∀ q, last l1 = Some q → node_in b q ∧ q ≠ i) → len_of b (LGlobal o) = S l →
  Q (Some i) (unlinked_global b o i n l1 l2 l) →
  wp_res (_ ← match last l1 with
              | Some p => set_next p (head l2)
              | None => set_global_head o (head l2)
              end;
          _ ← decr_global_len o;
          _ ← set_next i None;
          mret (Some i)) b Q Qe.
Proof.
  intros Hsh Ho Hn Hq Hl HQ. destruct (global_lookups c b o Hsh Ho) as [Hgh Hgl].
  rewrite Hl in Hgl. unfold unlinked_global, relinked in HQ. wp_run.
  eapply relink_run; [exact Hq|..].
  - intros Hlast. rewrite Hlast in HQ. unfold set_global_head, decr_global_len. wp_run.
    rewrite decide_True by (by eapply lookup_lt_Some). wp_run. simpl. rewrite Hgl. wp_run.
    by eapply wp_set_next; [exact Hn|].
  - intros q m Hlast Hm. rewrite Hlast, Hm in HQ. simpl in HQ.
    unfold decr_global_len. wp_run. simpl. rewrite Hgl. wp_run.
    eapply (wp_set_next _ i n); [|exact HQ].
    destruct (Hq q Hlast) as [_ Hne]. simpl. by rewrite list_lookup_insert_ne.
Qed.

Lemma unlinked_global_local c b G hand loose o i n l1 l2 l :
  inv c b G hand loose → gl G (LGlobal o) = l1 ++ i :: l2 → ns b !! i = Some n →
  local_change b (unlinked_global b o i n l1 l2 l) (LGlobal o) l1 i.
Proof.
  intros Hinv Hl Hn. pose proof (inv_list_prev _ _ _ _ _ _ _ _ _ Hinv Hl) as Hq.
  unfold unlinked_global. split.
  - intros id' Hid. autorewrite with buddy. destruct id'; autorewrite with buddy; try done.
    simpl. destruct (last l1); [done|]. by rewrite list_lookup_insert_ne by congruence.
  - intros id' Hid. autorewrite with buddy. destruct id'; autorewrite with buddy; try done.
    simpl. by rewrite list_lookup_insert_ne by congruence.
  - intros j Hj Hlast. by apply (relinked_nexts b i n l1 l2).
  - intros j Hj. by apply (relinked_pays b i n l1 l2).
Qed.

Lemma unlink_global_Inv c b G hand loose u cl al o i n l1 l2 l :
  inv c b G hand loose → len_of b LUnused = u → (∀ p o', len_of b (LCpu p o') = cl p o') →
  al = (pay_at b <$> gl G LAlloc) →
  gl G (LGlobal o) = l1 ++ i :: l2 → ns b !! i = Some n →
  (o < MAX_ORDER_SLOTS)%nat → (o <= c_max c)%nat → len_of b (LGlobal o) = S l →
  Inv c (unlinked_global b o i n l1 l2 l) u cl al (<[i:=with_next n None]> hand)
      ((bn_start n, bn_order n) :: loose).
Proof.
  intros Hinv Hu Hcl Hal Hl Hn Hslot Hmax Hlen.
  pose proof (i_shape Hinv) as Hsh. destruct (global_lookups c b o Hsh Hslot) as [Hgh Hgl].
  pose proof (inv_list_prev _ _ _ _ _ _ _ _ _ Hinv Hl) as Hq.
  pose proof (unlinked_global_local _ _ _ _ _ _ _ _ _ _ l Hinv Hl Hn) as Hlc.
  assert (i ∈ gl G (LGlobal o)) as Hin by (rewrite Hl; set_solver).
  destruct (inv_list_node Hinv _ i Hin) as (n0 & Hn0 & (_ & Ho & _) & _).
  assert (n0 = n) as -> by congruence.
  exists (ghost_set G (LGlobal o) (l1 ++ l2) i None). split; [|split; [|split]].
  - refine (inv_detach c b _ G hand loose (LGlobal o) l1 i l2 n (with_next n None)
              Hinv Hl Hn _ Hlc _ _ _ _ _).
    + apply shape_set_global; [auto with buddy| |]; [destruct (last l1)|];
        rewrite ?length_insert; apply Hsh.
    + unfold unlinked_global. rewrite head_of_set_global. destruct (last l1); [done|].
      rewrite list_lookup_insert_eq; [done|]. by eapply lookup_lt_Some.
    + unfold unlinked_global. rewrite len_of_set_global.
      rewrite list_lookup_insert_eq; [simpl in *; congruence|by eapply lookup_lt_Some].
    + intros q Hlast. by apply (relinked_last_next b i n l1 l2).
    + by apply (relinked_self b i n l1 l2).
    + unfold unlinked_global. rewrite (free_pages_set_global _ _ _ o (S l) l).
      * autorewrite with buddy. simpl. rewrite Ho. lia.
      * rewrite <- Hlen. unfold relinked. by destruct (last l1).
      * unfold relinked. destruct (last l1); simpl; by rewrite (sh_max _ _ Hsh).
      * unfold relinked. by destruct (last l1).
  - rewrite (lc_len _ _ _ _ _ Hlc); done.
  - intros p o'. rewrite (lc_len _ _ _ _ _ Hlc); done.
  - rewrite Hal. symmetry. simpl. apply (fmap_pay_frame b _ _ i).
    + by eapply (lists_other c b G (LGlobal o)); [apply Hinv|..].
    + apply (lc_pays _ _ _ _ _ Hlc).
Qed.

Lemma remove_start_loop_spec b o start l2 : ∀ l1 cursor fuel Q Qe,
  chain (nexts b) cursor l2 → (length l2 < fuel)%nat →
  (∀ l1' i l2' n, l1 ++ l2 = l1' ++ i :: l2' → ns b !! i = Some n → bn_start n = start →
     wp_res (_ ← match last l1' with
                 | Some p => set_next p (head l2')
                 | None => set_global_head o (head l2')
                 end;
             _ ← decr_global_len o;
             _ ← set_next i None;
             mret (Some i)) b Q Qe) →
  Q None b →
  wp_res (remove_start_loop fuel o (last l1) cursor start) b Q Qe.
Proof.
  induction l2 as [|i l2 IH]; intros l1 cursor fuel Q Qe Hch Hf Hfound HQ.
  { apply chain_head in Hch as ->. destruct fuel; simpl; by wp_run. }
  pose proof (chain_head _ _ _ Hch) as ->. simpl.
  destruct fuel as [|fuel]; [simpl in *; lia|].
  apply seg_cons_inv in Hch as (n & Hn & Hch).
  pose proof (chain_head _ _ _ Hch) as Hnx. simpl.
  apply wp_res_bind, (wp_node_at b i n); [done|]. case_decide as Heq.
  - rewrite Hnx. by apply (Hfound l1 i l2 n).
  - case_decide; [by wp_run|]. rewrite <- (last_snoc i l1).
    apply IH; [done|simpl in *; lia| |done].
    intros l1' j l2' m Hl. rewrite <- app_assoc in Hl. by apply Hfound.
Qed.

Lemma global_remove_by_start_spec c b u cl al hand loose o start
    (Q : option nat → BuddyAllocator → Prop) Qe :
  Inv c b u cl al hand loose → (o <= c_max c)%nat →
  (Q None b) →
  (∀ i n b', hand !! i = None → bn_start n = start → bn_order n = o → 
     Inv c b' u cl al (<[i:=n]> hand) ((start, o) :: loose) → Q (Some i) b') →
  wp_res (global_remove_by_start o start) b Q Qe.
Proof.
  intros (G & Hinv & Hu & Hcl & Hal) Hmax HQn HQs.
  pose proof (i_shape Hinv) as Hsh. pose proof (co_max _ (i_cfg Hinv)) as Hcm.
  assert (o < MAX_ORDER_SLOTS)%nat as Hslot by lia.
  unfold global_remove_by_start. wp_run. eapply wp_global_head; [done..|]. b_run.
  apply (remove_start_loop_spec b o start (gl G (LGlobal o)) []); [|..|done].
  - apply (l_chain (i_lists Hinv)).
  - rewrite (sh_nodes _ _ Hsh). pose proof (inv_length Hinv (LGlobal o)). lia.
  - intros l1 i l2 n Hl Hn Hst. simpl in Hl.
    pose proof (inv_list_prev _ _ _ _ _ _ _ _ _ Hinv Hl) as Hq.
    assert (i ∈ gl G (LGlobal o)) as Hin by (rewrite Hl; set_solver).
    destruct (inv_list_node Hinv _ i Hin) as (n0 & Hn0 & (_ & Ho & _) & Hw).
    assert (n0 = n) as -> by congruence.
    assert (len_of b (LGlobal o) = S (length (l1 ++ l2))) as Hlen.
    { rewrite (l_len (i_lists Hinv)), Hl, !length_app. simpl. lia. }
    eapply unlink_global_run; [done..|]. 
    apply (HQs i (with_next n None)); [|done..|].
    + destruct (hand !! i) eqn:Hh; [|done]. by rewrite (inv_hand_wh Hinv i _ Hh) in Hw.
    + rewrite <- Hst, <- Ho. by eapply unlink_global_Inv; rewrite ?Ho.
Qed.

Lemma global_pop_first_spec c b u cl al hand loose o
    (Q : option nat → BuddyAllocator → Prop) Qe :
  Inv c b u cl al hand loose → (o <= c_max c)%nat →
  (head_of b (LGlobal o) = None → Q None b) →
  (∀ i n b', hand !! i = None → bn_order n = o → bn_refcount n = 0 →
     Inv c b' u cl al (<[i:=n]> hand) ((bn_start n, o) :: loose) → Q (Some i) b') →
  wp_res (global_pop_first o) b Q Qe.
Proof.
  intros (G & Hinv & Hu & Hcl & Hal) Hmax HQn HQs.
  pose proof (i_shape Hinv) as Hsh. pose proof (co_max _ (i_cfg Hinv)) as Hcm.
  assert (o < MAX_ORDER_SLOTS)%nat as Hslot by lia.
  unfold global_pop_first. wp_run. eapply wp_global_head; [done..|].
  pose proof (l_chain (i_lists Hinv) (LGlobal o)) as Hch.
  destruct (gl G (LGlobal o)) as [|i l2] eqn:Hl.
  { apply chain_head in Hch. rewrite Hch. cbn [head]. wp_run. by apply HQn. }
  pose proof (chain_head _ _ _ Hch) as Hhd. rewrite Hhd in Hch |- *.
  apply seg_cons_inv in Hch as (n & Hn & Hch). apply chain_head in Hch as Hnx.
  assert (i ∈ gl G (LGlobal o)) as Hin by (rewrite Hl; set_solver).
  destruct (inv_list_node Hinv _ i Hin) as (n0 & Hn0 & (_ & Ho & Hrc) & Hw).
  assert (n0 = n) as -> by congruence.
  assert (len_of b (LGlobal o) = S (length l2)) as Hlen.
  { by rewrite (l_len (i_lists Hinv)), Hl. }
  cbn [head]. apply wp_res_bind, (wp_node_at b i n); [done|]. rewrite Hnx.
  apply (unlink_global_run c b o i n [] l2 (length l2)); try done.
  apply (HQs i (with_next n None)); [|done..|].
  - destruct (hand !! i) eqn:Hh; [|done]. by rewrite (inv_hand_wh Hinv i _ Hh) in Hw.
  - pose proof (unlink_global_Inv c b G hand loose u cl al o i n [] l2 (length l2)) as HI.
    rewrite Ho in HI. by apply HI.
Qed.

(** ** Nodes in hand *)

Lemma lists_upd_out c b G i n :
  lists_ok c b G → (i < length (ns b))%nat → (∀ id, i ∉ gl G id) → lists_ok c (upd_node b i n) G.
Proof.
  intros [Hch Hlen Hnd Hmem] Hi Hno. split; auto.
  - intros id. rewrite head_of_upd_node. eapply chain_frame; [|apply Hch].
    intros j Hj. rewrite nexts_upd_node by done. rewrite decide_False; [done|].
    intros ->. by apply (Hno id).
Qed.

(** Rewriting a node in hand touches no list and no block. *)
Lemma Inv_set_hand c b u cl al hand loose i n n' :
  Inv c b u cl al hand loose → hand !! i = Some n →
  Inv c (upd_node b i n') u cl al (<[i:=n']> hand) loose.
Proof.
  intros (G & Hinv & Hu & Hcl & Hal) Hh.
  assert (Hno : ∀ id, i ∉ gl G id) by (intros id; by eapply (inv_hand_not_in Hinv)).
  pose proof (i_hand_node Hinv i n Hh) as Hn. pose proof (lookup_lt_Some _ _ _ Hn) as Hi.
  pose proof (inv_hand_wh Hinv i n Hh) as Hwi.
  assert (Hpy : ∀ j, j ≠ i → pays (upd_node b i n') j = pays b j).
  { intros j Hj. rewrite pays_upd_node by done. by rewrite decide_False. }
  exists G. split; [|split; [|split]].
  2:{ by rewrite len_of_upd_node. }
  2:{ intros. by rewrite len_of_upd_node. }
  2:{ rewrite Hal. symmetry. by apply (fmap_pay_frame b _ _ i). }
  split.
  - apply Hinv.
  - apply shape_upd_node, Hinv.
  - by apply lists_upd_out; [apply Hinv|..].
  - intros j id m Hm Hw. destruct (decide (j = i)) as [->|Hj]; [congruence|].
    rewrite ns_upd_node, list_lookup_insert_ne in Hm by done. by eapply (i_node Hinv).
  - intros o. rewrite (starts_frame b _ _ i); [apply (i_sorted Hinv)|apply Hno|done].
  - intros j Hj. rewrite (i_hand Hinv) by done. destruct (decide (j = i)) as [->|Hne].
    + rewrite lookup_insert_eq. split; by eexists.
    + by rewrite lookup_insert_ne.
  - intros j m. rewrite ns_upd_node. destruct (decide (j = i)) as [->|Hne].
    + rewrite lookup_insert_eq. intros [= <-]. by apply list_lookup_insert_eq.
    + rewrite lookup_insert_ne, list_lookup_insert_ne by done. apply (i_hand_node Hinv).
  - apply Hinv.
  - intros g. rewrite <- (i_mass Hinv g). f_equal. apply nsum_ext. intros j Hj.
    unfold listed_mass. destruct (decide (j = i)) as [->|Hne]; [by rewrite Hwi|].
    by rewrite (pay_at_pays b) by (by apply Hpy).
  - rewrite free_pages_upd_node, (fmap_pay_frame b _ _ i); [apply Hinv|apply Hno|done].
Qed.

Lemma Inv_hand_node c b u cl al hand loose i n :
  Inv c b u cl al hand loose → hand !! i = Some n → ns b !! i = Some n.
Proof. intros (G & Hinv & _). apply (i_hand_node Hinv). Qed.

Lemma Inv_cfg c b u cl al hand loose : Inv c b u cl al hand loose → cfg_ok c ∧ shape c b.
Proof. intros (G & Hinv & _). split; apply Hinv. Qed.

(** ** The pool of unused nodes *)

Lemma alloc_unused_spec c b u cl al hand loose (Q : nat → BuddyAllocator → Prop)
    (Qe : FrameAllocError → BuddyAllocator → Prop) :
  Inv c b u cl al hand loose →
  (u = 0%nat → Qe MetadataExhausted b) →
  (∀ i n b' u', u = S u' → hand !! i = None → Inv c b' u' cl al (<[i:=n]> hand) loose → Q i b') →
  wp_res alloc_unused b Q Qe.
Proof.
  intros (G & Hinv & Hu & Hcl & Hal) HQe HQ. pose proof (i_lists Hinv) as HL.
  pose proof (l_len HL LUnused) as Hlen. pose proof (l_chain HL LUnused) as Hch.
  unfold alloc_unused. wp_run. simpl in Hch, Hu, Hlen.
  destruct (gl G LUnused) as [|i l2] eqn:Hl.
  { apply chain_head in Hch. rewrite Hch. apply wp_res_throw, HQe. simpl in *. lia. }
  pose proof (chain_head _ _ _ Hch) as Hhd. simpl in Hhd. rewrite Hhd in *. wp_run.
  apply seg_cons_inv in Hch as (n & Hn & Hch). apply chain_head in Hch as Hnx.
  assert (i ∈ gl G LUnused) as Hin by (rewrite Hl; set_solver).
  destruct (inv_list_node Hinv _ i Hin) as (_ & _ & _ & Hw).
  apply (wp_node_at b i n); [done|]. wp_run. apply (wp_set_next _ i n); [done|]. wp_run.
  simpl unused_len. rewrite Hlen. simpl length. wp_run.
  apply (HQ i (with_next n None) _ (length l2)); [simpl in *; lia| |].
  { destruct (hand !! i) eqn:Hh; [|done]. by rewrite (inv_hand_wh Hinv i _ Hh) in Hw. }
  set (b' := set_nodes _ _).
  assert (ns b' = <[i:=with_next n None]> (ns b)) as Hns by done.
  pose proof (lookup_lt_Some _ _ _ Hn) as Hi.
  assert (local_change b b' LUnused [] i) as Hlc.
  { split; try (intros [] ?; done).
    - intros j Hj _. unfold nexts. by rewrite Hns, list_lookup_insert_ne.
    - intros j Hj. unfold pays. by rewrite Hns, list_lookup_insert_ne. }
  exists (ghost_set G LUnused l2 i None). split; [|split; [|split]].
  - eapply (inv_detach c b b' G hand loose LUnused [] i l2 n); try done.
    + destruct (i_shape Hinv). split; try done. by rewrite Hns, length_insert.
    + rewrite Hns. by apply list_lookup_insert_eq.
    + simpl. unfold b'. rewrite Z.sub_0_r. done.
  - done.
  - intros p o. rewrite (lc_len _ _ _ _ _ Hlc); done.
  - rewrite Hal. symmetry. simpl. apply (fmap_pay_frame b b' _ i).
    + by eapply (lists_other c b G LUnused).
    + apply (lc_pays _ _ _ _ _ Hlc).
Qed.

Lemma release_unused_spec c b u cl al hand loose i n (Q : unit → BuddyAllocator → Prop) Qe :
  Inv c b u cl al hand loose → hand !! i = Some n →
  (∀ b', Inv c b' (S u) cl al (delete i hand) loose → Q () b') →
  wp_res (release_unused i) b Q Qe.
Proof.
  intros (G & Hinv & Hu & Hcl & Hal) Hh HQ. pose proof (i_lists Hinv) as HL.
  pose proof (i_hand_node Hinv i n Hh) as Hn. pose proof (lookup_lt_Some _ _ _ Hn) as Hi.
  pose proof (chain_head _ _ _ (l_chain HL LUnused)) as Hhd. simpl in Hhd.
  unfold release_unused. wp_run. apply wp_set_node; [done|]. wp_run. apply HQ.
  set (m := mkNode 0 0 0 _). set (b' := set_nodes _ _).
  assert (ns b' = <[i:=m]> (ns b)) as Hns by done.
  assert (local_change b b' LUnused [] i) as Hlc.
  { split; try (intros [] ?; done).
    - intros j Hj _. unfold nexts. by rewrite Hns, list_lookup_insert_ne.
    - intros j Hj. unfold pays. by rewrite Hns, list_lookup_insert_ne. }
  exists (ghost_set G LUnused (i :: gl G LUnused) i (Some LUnused)). split; [|split; [|split]].
  - eapply (inv_attach c b b' G hand loose LUnused [] i (gl G LUnused) n m); try done.
    + rewrite Hns. by apply list_lookup_insert_eq.
    + destruct (i_shape Hinv). split; try done. by rewrite Hns, length_insert.
    + unfold nexts. rewrite Hns, list_lookup_insert_eq by done. simpl. by rewrite Hhd.
    + simpl. unfold b'. rewrite Z.add_0_r. done.
  - simpl in *. lia.
  - intros p o. rewrite (lc_len _ _ _ _ _ Hlc); done.
  - rewrite Hal. symmetry. simpl. apply (fmap_pay_frame b b' _ i).
    + by eapply (inv_hand_not_in Hinv).
    + apply (lc_pays _ _ _ _ _ Hlc).
Qed.

(** ** The per-CPU caches *)

Definition cl_upd (cl : nat → nat → nat) (p o v : nat) : nat → nat → nat :=
  λ p' o', if decide (p' = p ∧ o' = o) then v else cl p' o'.

Definition cached (b : BuddyAllocator) (p o : nat) (h : option nat) (l : nat) (c0 : PerCpuCache)
    : BuddyAllocator :=
  set_per_cpu (<[p:=mkCache (<[o:=h]> (cache_heads c0)) (<[o:=l]> (cache_lens c0))]> (per_cpu b)) b.

Section cached.
Context (c : cfg) (b : BuddyAllocator) (p o : nat).
Context (Hsh : shape c b) (Hp : (p < c_cpus c)%nat) (Ho : (o <= PER_CPU_CACHE_MAX_ORDER)%nat).

Lemma cache_lookups :
  ∃ c0, per_cpu b !! p = Some c0 ∧ cache_shape c0 ∧
    cache_heads c0 !! o = Some (head_of b (LCpu p o)) ∧
    cache_lens c0 !! o = Some (len_of b (LCpu p o)).
Proof.
  destruct (lookup_lt_is_Some_2 (per_cpu b) p) as [c0 Hc0].
  { pose proof (sh_percpu _ _ Hsh). lia. }
  exists c0. split; [done|]. pose proof (sh_caches _ _ Hsh) as Hcs.
  rewrite Forall_lookup in Hcs. destruct (Hcs p c0 Hc0) as [Hh Hl].
  split; [done|]. simpl. rewrite Hc0. simpl.
  destruct (lookup_lt_is_Some_2 (cache_heads c0) o) as [h ->]; [lia|].
  destruct (lookup_lt_is_Some_2 (cache_lens c0) o) as [l ->]; [lia|]. done.
Qed.

Context (c0 : PerCpuCache) (Hc0 : per_cpu b !! p = Some c0) (Hcs : cache_shape c0).

Lemma cached_head h l id :
  head_of (cached b p o h l c0) id = if decide (id = LCpu p o) then h else head_of b id.
Proof.
  destruct Hcs as [Hh Hl]. pose proof (lookup_lt_Some _ _ _ Hc0) as Hpl.
  destruct id as [| | |p' o']; try done. simpl.
  destruct (decide (p' = p)) as [->|Hne].
  - rewrite list_lookup_insert_eq by done. simpl.
    destruct (decide (o' = o)) as [->|Hne].
    + rewrite list_lookup_insert_eq by lia. by rewrite decide_True.
    + rewrite list_lookup_insert_ne, decide_False by congruence. by rewrite Hc0.
  - rewrite list_lookup_insert_ne, decide_False by congruence. done.
Qed.

Lemma cached_len h l id :
  len_of (cached b p o h l c0) id = if decide (id = LCpu p o) then l else len_of b id.
Proof.
  destruct Hcs as [Hh Hl]. pose proof (lookup_lt_Some _ _ _ Hc0) as Hpl.
  destruct id as [| | |p' o']; try done. simpl.
  destruct (decide (p' = p)) as [->|Hne].
  - rewrite list_lookup_insert_eq by done. simpl.
    destruct (decide (o' = o)) as [->|Hne].
    + rewrite list_lookup_insert_eq by lia. by rewrite decide_True.
    + rewrite list_lookup_insert_ne, decide_False by congruence. by rewrite Hc0.
  - rewrite list_lookup_insert_ne, decide_False by congruence. done.
Qed.

Lemma cached_shape h l : shape c (cached b p o h l c0).
Proof.
  destruct Hsh, Hcs. split; try done; simpl.
  - by rewrite length_insert.
  - apply Forall_insert; [done|]. split; simpl; by rewrite length_insert.
Qed.

Lemma foldr_cache_insert (f : PerCpuCache → Z) l : ∀ k x y,
  l !! k = Some x →
  foldr (λ z acc, f z + acc) 0 (<[k:=y]> l) = foldr (λ z acc, f z + acc) 0 l + (f y - f x).
Proof.
  induction l as [|z l IH]; intros k x y Hk; [done|].
  destruct k; simpl in *; [simplify_eq; lia|]. rewrite (IH k x y Hk). lia.
Qed.

Lemma cached_free_pages h l l0 :
  cache_lens c0 !! o = Some l0 →
  free_pages (cached b p o h l c0) = free_pages b + (Z.of_nat l - Z.of_nat l0) * block_size o.
Proof.
  intros Hl0. unfold free_pages, cached. cbn [max_order global_free_lens cpu_count per_cpu set_per_cpu].
  rewrite (sh_cpus _ _ Hsh), take_insert_lt by done.
  rewrite (foldr_cache_insert _ _ p c0) by (by rewrite lookup_take_lt).
  unfold cache_free_pages at 2. cbn [cache_lens].
  rewrite take_insert_lt by lia. rewrite (sum_lens_insert _ 0 o l0 l).
  - unfold cache_free_pages. simpl. lia.
  - by rewrite lookup_take_lt by lia.
Qed.
End cached.

Lemma wp_cache_len c b p o (Q : nat → BuddyAllocator → Prop) Qe :
  shape c b → (p < c_cpus c)%nat → (o <= PER_CPU_CACHE_MAX_ORDER)%nat →
  Q (len_of b (LCpu p o)) b → wp_res (cache_len p o) b Q Qe.
Proof.
  intros Hsh Hp Ho HQ. destruct (cache_lookups c b p o Hsh Hp Ho) as (c0 & Hc0 & _ & _ & Hl).
  unfold cache_len, cache_at. wp_run. rewrite Hc0. wp_run. rewrite Hl. by wp_run.
Qed.

Lemma cpu_push_spec c b u cl al hand loose p o i n (Q : unit → BuddyAllocator → Prop) Qe :
  Inv c b u cl al hand ((bn_start n, o) :: loose) → hand !! i = Some n →
  (p < c_cpus c)%nat → (o <= PER_CPU_CACHE_MAX_ORDER)%nat →
  (∀ b', Inv c b' u (cl_upd cl p o (S (cl p o))) al (delete i hand) loose → Q () b') →
  wp_res (cpu_push p o i) b Q Qe.
Proof.
  intros HI Hh Hp Ho HQ. pose proof (Inv_hand_node _ _ _ _ _ _ _ _ _ HI Hh) as Hn.
  pose proof (lookup_lt_Some _ _ _ Hn) as Hi. destruct HI as (G & Hinv & Hu & Hcl & Hal).
  pose proof (i_lists Hinv) as HL. pose proof (i_shape Hinv) as Hsh.
  destruct (cache_lookups c b p o Hsh Hp Ho) as (c0 & Hc0 & Hcs & Hh0 & Hl0).
  pose proof (chain_head _ _ _ (l_chain HL (LCpu p o))) as Hhd.
  unfold cpu_push. wp_run. apply (wp_set_order b i n); [done|]. wp_run.
  set (n1 := mkNode _ o _ _). eapply (wp_set_refcount _ i n1).
  { rewrite ns_upd_node. by apply list_lookup_insert_eq. }
  set (n2 := mkNode _ _ 0 _). unfold cache_at, set_cache. wp_run. simpl per_cpu. rewrite Hc0.
  wp_run. rewrite Hh0. wp_run. eapply (wp_set_next _ i n2).
  { rewrite !ns_upd_node. apply list_lookup_insert_eq. by rewrite length_insert. }
  wp_run. rewrite Hl0. wp_run. apply HQ. set (n3 := with_next n2 _).
  match goal with |- Inv _ ?x _ _ _ _ _ => set (b' := x) end.
  assert (b' = cached (upd_node b i n3) p o (Some i) (S (len_of b (LCpu p o))) c0) as ->.
  { unfold b', cached, upd_node, set_per_cpu, set_nodes. simpl. by rewrite !list_insert_insert_eq. }
  set (b1 := upd_node b i n3). set (b' := cached _ _ _ _ _ _).
  assert (shape c b1) as Hsh1 by (by apply shape_upd_node).
  assert (ns b' = <[i:=n3]> (ns b)) as Hns by done.
  assert (local_change b b' (LCpu p o) [] i) as Hlc.
  { split.
    - intros id' Hne. unfold b'. rewrite (cached_head c) by done. rewrite decide_False by done.
      apply head_of_upd_node.
    - intros id' Hne. unfold b'. rewrite (cached_len c) by done. rewrite decide_False by done.
      apply len_of_upd_node.
    - intros j Hj _. unfold nexts. by rewrite Hns, list_lookup_insert_ne.
    - intros j Hj. unfold pays. by rewrite Hns, list_lookup_insert_ne. }
  exists (ghost_set G (LCpu p o) (i :: gl G (LCpu p o)) i (Some (LCpu p o))).
  split; [|split; [|split]].
  - eapply (inv_attach c b b' G hand loose (LCpu p o) [] i (gl G (LCpu p o)) n n3); try done.
    + rewrite Hns. by apply list_lookup_insert_eq.
    + pose proof (i_loose Hinv) as [Hbk _]%Forall_cons_1. done.
    + by apply cached_shape.
    + unfold b'. rewrite (cached_head c) by done. by rewrite decide_True.
    + unfold b'. rewrite (cached_len c) by done. by rewrite decide_True.
    + unfold nexts. rewrite Hns, list_lookup_insert_eq by done. by rewrite <- Hhd.
    + unfold b'. rewrite (cached_free_pages c _ p o) with (l0 := len_of b (LCpu p o)) by done.
      unfold b1. autorewrite with buddy. cbn [free_weight]. simpl bn_order. lia.
  - rewrite (lc_len _ _ _ _ _ Hlc); done.
  - intros p' o'. unfold cl_upd. case_decide as Hd.
    + destruct Hd as [-> ->]. unfold b'. rewrite (cached_len c) by done.
      by rewrite decide_True, Hcl.
    + rewrite (lc_len _ _ _ _ _ Hlc); [done|]. naive_solver.
  - rewrite Hal. symmetry. simpl. apply (fmap_pay_frame b b' _ i).
    + by eapply (inv_hand_not_in Hinv).
    + apply (lc_pays _ _ _ _ _ Hlc).
Qed.

Lemma cpu_pop_spec c b u cl al hand loose p o (Q : option nat → BuddyAllocator → Prop) Qe :
  Inv c b u cl al hand loose → (p < c_cpus c)%nat → (o <= PER_CPU_CACHE_MAX_ORDER)%nat →
  (cl p o = 0%nat → Q None b) →
  (∀ i n b' l, cl p o = S l → hand !! i = None → bn_order n = o → bn_refcount n = 0 →
     Inv c b' u (cl_upd cl p o l) al (<[i:=n]> hand) ((bn_start n, o) :: loose) → Q (Some i) b') →
  wp_res (cpu_pop p o) b Q Qe.
Proof.
  intros (G & Hinv & Hu & Hcl & Hal) Hp Ho HQn HQs.
  pose proof (i_lists Hinv) as HL. pose proof (i_shape Hinv) as Hsh.
  destruct (cache_lookups c b p o Hsh Hp Ho) as (c0 & Hc0 & Hcs & Hh0 & Hl0).
  pose proof (l_chain HL (LCpu p o)) as Hch. pose proof (l_len HL (LCpu p o)) as Hlen.
  unfold cpu_pop, cache_at. wp_run. rewrite Hc0. wp_run. rewrite Hh0. wp_run.
  destruct (gl G (LCpu p o)) as [|i l2] eqn:Hl.
  { apply chain_head in Hch. rewrite Hch. cbn [head]. wp_run. apply HQn. by rewrite <- Hcl. }
  pose proof (chain_head _ _ _ Hch) as Hhd. rewrite Hhd in Hch |- *.
  apply seg_cons_inv in Hch as (n & Hn & Hch). apply chain_head in Hch as Hnx.
  pose proof (lookup_lt_Some _ _ _ Hn) as Hi.
  assert (i ∈ gl G (LCpu p o)) as Hin by (rewrite Hl; set_solver).
  destruct (inv_list_node Hinv _ i Hin) as (n0 & Hn0 & (_ & Hon & Hrc & _) & Hw).
  assert (n0 = n) as -> by congruence.
  cbn [head]. apply wp_res_bind, (wp_node_at b i n); [done|]. wp_run.
  rewrite Hl0, Hlen. simpl length. wp_run. unfold set_cache. wp_run.
  apply (wp_set_next _ i n); [done|]. wp_run.
  apply (HQs i (with_next n None) _ (length l2)); [by rewrite <- Hcl| |done..|].
  { destruct (hand !! i) eqn:Hh; [|done]. by rewrite (inv_hand_wh Hinv i _ Hh) in Hw. }
  set (b1 := upd_node b i (with_next n None)).
  change (upd_node _ i (with_next n None)) with (cached b1 p o (bn_next n) (length l2) c0).
  set (b' := cached _ _ _ _ _ _). assert (shape c b1) as Hsh1 by (by apply shape_upd_node).
  assert (ns b' = <[i:=with_next n None]> (ns b)) as Hns by done.
  assert (local_change b b' (LCpu p o) [] i) as Hlc.
  { split.
    - intros id' Hne. unfold b'. rewrite (cached_head c) by done. rewrite decide_False by done.
      apply head_of_upd_node.
    - intros id' Hne. unfold b'. rewrite (cached_len c) by done. rewrite decide_False by done.
      apply len_of_upd_node.
    - intros j Hj _. unfold nexts. by rewrite Hns, list_lookup_insert_ne.
    - intros j Hj. unfold pays. by rewrite Hns, list_lookup_insert_ne. }
  exists (ghost_set G (LCpu p o) l2 i None). split; [|split; [|split]].
  - pose proof (inv_detach c b b' G hand loose (LCpu p o) [] i l2 n (with_next n None)) as HD.
    rewrite Hon in HD. apply HD; try done.
    + by apply cached_shape.
    + unfold b'. rewrite (cached_head c) by done. by rewrite decide_True.
    + unfold b'. rewrite (cached_len c) by done. rewrite decide_True by done. by rewrite Hlen.
    + rewrite Hns. by apply list_lookup_insert_eq.
    + unfold b'. rewrite (cached_free_pages c _ p o) with (l0 := len_of b (LCpu p o)) by done.
      rewrite Hlen. unfold b1. autorewrite with buddy. cbn [free_weight]. simpl length. lia.
  - rewrite (lc_len _ _ _ _ _ Hlc); done.
  - intros p' o'. unfold cl_upd. case_decide as Hd.
    + destruct Hd as [-> ->]. unfold b'. rewrite (cached_len c) by done. by rewrite decide_True.
    + rewrite (lc_len _ _ _ _ _ Hlc); [done|]. naive_solver.
  - rewrite Hal. symmetry. simpl. apply (fmap_pay_frame b b' _ i).
    + by eapply (lists_other c b G (LCpu p o)).
    + apply (lc_pays _ _ _ _ _ Hlc).
Qed.

(** ** The allocation list *)

Lemma find_start_loop_spec b start l2 : ∀ l1 cursor fuel Q Qe,
  chain (nexts b) cursor l2 → (length l2 < fuel)%nat → start ∉ starts b l1 →
  (∀ l1' i l2' n, l1 ++ l2 = l1' ++ i :: l2' → ns b !! i = Some n → bn_start n = start →
     start ∉ starts b l1' → Q (Some i) b) →
  (start ∉ starts b (l1 ++ l2) → Q None b) →
  wp_res (find_start_loop fuel cursor start) b Q Qe.
Proof.
  induction l2 as [|i l2 IH]; intros l1 cursor fuel Q Qe Hch Hf Hni Hfound HQ.
  { apply chain_head in Hch as ->. rewrite app_nil_r in HQ. destruct fuel; simpl; wp_run; auto. }
  pose proof (chain_head _ _ _ Hch) as ->. simpl.
  destruct fuel as [|fuel]; [simpl in *; lia|].
  apply seg_cons_inv in Hch as (n & Hn & Hch). simpl.
  apply wp_res_bind, (wp_node_at b i n); [done|]. case_decide as Heq.
  - wp_run. by apply (Hfound l1 i l2 n).
  - apply (IH (l1 ++ [i])); [done|simpl in *; lia| | |].
    + unfold starts. rewrite fmap_app, elem_of_app. intros [?|Hin]; [done|].
      apply list_elem_of_singleton in Hin. rewrite (pay_at_node b i n Hn) in Hin. done.
    + intros l1' j l2' m Hl. rewrite <- app_assoc in Hl. by apply (Hfound l1' j l2' m).
    + rewrite <- app_assoc. done.
Qed.

(** [find_allocation_index] finds the node of the first (in fact only)
    allocation that starts at the given frame. *)
Lemma find_allocation_index_spec c b G hand loose start (Q : option nat → BuddyAllocator → Prop) Qe :
  inv c b G hand loose →
  (∀ l1 i l2 n, gl G LAlloc = l1 ++ i :: l2 → ns b !! i = Some n → bn_start n = start →
     Q (Some i) b) →
  (start ∉ starts b (gl G LAlloc) → Q None b) →
  wp_res (find_allocation_index start) b Q Qe.
Proof.
  intros Hinv Hs Hnone. unfold find_allocation_index. b_run.
  apply (find_start_loop_spec b start (gl G LAlloc) []); auto.
  - apply (l_chain (i_lists Hinv) LAlloc).
  - rewrite (sh_nodes _ _ (i_shape Hinv)). pose proof (inv_length Hinv LAlloc). lia.
  - unfold starts. simpl. set_solver.
  - intros l1 i l2 n Hl Hn Hst _. by eapply Hs.
Qed.

Lemma remove_alloc_loop_spec b target l2' l2 : ∀ l1 cursor fuel Q Qe,
  chain (nexts b) cursor (l2 ++ target :: l2') → (length (l2 ++ target :: l2') < fuel)%nat →
  target ∉ l2 →
  wp_res (_ ← match last (l1 ++ l2) with
              | Some p => set_next p (head l2')
              | None => mmodify (λ b, set_allocations (head l2') (allocation_len b) b)
              end;
          _ ← set_next target None;
          b ← mget;
          match allocation_len b with
          | O => mpanic
          | S l => mput (set_allocations (allocations_head b) l b)
          end) b Q Qe →
  wp_res (remove_alloc_loop fuel (last l1) cursor target) b Q Qe.
Proof.
  induction l2 as [|i l2 IH]; intros l1 cursor fuel Q Qe Hch Hf Hni HQ.
  - pose proof (chain_head _ _ _ Hch) as ->. simpl.
    destruct fuel as [|fuel]; [simpl in *; lia|].
    apply seg_cons_inv in Hch as (n & Hn & Hch). pose proof (chain_head _ _ _ Hch) as Hnx.
    simpl. apply wp_res_bind, (wp_node_at b target n); [done|].
    rewrite decide_True by done. rewrite app_nil_r in HQ. by rewrite Hnx.
  - pose proof (chain_head _ _ _ Hch) as ->. simpl.
    destruct fuel as [|fuel]; [simpl in *; lia|].
    apply seg_cons_inv in Hch as (n & Hn & Hch).
    simpl. apply wp_res_bind, (wp_node_at b i n); [done|].
    apply not_elem_of_cons in Hni as [Hne Hni]. rewrite decide_False by congruence.
    rewrite <- (last_snoc i l1). apply IH; [done|simpl in *; lia|done|].
    by rewrite <- app_assoc.
Qed.

(** Freeing: the node [i] of the allocation list, whose reference count was
    just set to zero, leaves the list with its block. *)
Lemma remove_allocation_spec c b G u cl al hand loose l1 i l2 n
    (Q : unit → BuddyAllocator → Prop) Qe :
  let n0 := mkNode (bn_start n) (bn_order n) 0 (bn_next n) in
  inv c b G hand loose → len_of b LUnused = u → (∀ p o, len_of b (LCpu p o) = cl p o) →
  al = (pay_at b <$> gl G LAlloc) →
  gl G LAlloc = l1 ++ i :: l2 → ns b !! i = Some n →
  (∀ b', Inv c b' u cl ((pay_at b <$> l1) ++ (pay_at b <$> l2))
             (<[i:=with_next n0 None]> hand) ((bn_start n, bn_order n) :: loose) → Q () b') →
  wp_res (remove_allocation_node i) (upd_node b i n0) Q Qe.
Proof.
  intros n0 Hinv Hu Hcl Hal Hl Hn HQ. pose proof (i_lists Hinv) as HL.
  pose proof (i_shape Hinv) as Hsh. pose proof (lookup_lt_Some _ _ _ Hn) as Hi.
  pose proof (l_nodup HL LAlloc) as Hnd. rewrite Hl in Hnd.
  set (b1 := upd_node b i n0).
  assert (∀ j, nexts b1 j = nexts b j) as Hnx1.
  { intros j. unfold b1. rewrite nexts_upd_node by done. case_decide; [|done].
    subst. unfold nexts. by rewrite Hn. }
  assert (ns b1 !! i = Some n0) as Hn1 by (by apply list_lookup_insert_eq).
  assert (Hq1 : ∀ q, last l1 = Some q → node_in b1 q ∧ q ≠ i).
  { intros q Hq. destruct (inv_list_prev _ _ _ _ _ _ _ _ _ Hinv Hl q Hq) as [[m Hm] Hne].
    split; [|done]. exists m. unfold b1. by rewrite ns_upd_node, list_lookup_insert_ne. }
  pose proof (l_len HL LAlloc) as Hlen. rewrite Hl, length_app in Hlen. simpl in Hlen.
  unfold remove_allocation_node. b_run.
  eapply (remove_alloc_loop_spec b1 i l2 l1 []).
  { eapply chain_frame; [intros; apply Hnx1|]. rewrite <- Hl. apply (l_chain HL LAlloc). }
  { unfold b1. rewrite ns_upd_node, length_insert, (sh_nodes _ _ Hsh), <- Hl.
    pose proof (inv_length Hinv LAlloc). lia. }
  { apply NoDup_app in Hnd as (_ & Hd & _). intros Hi1. apply (Hd i Hi1). left. }
  simpl app. apply wp_res_bind.
  pose (b' := set_allocations (match last l1 with Some _ => allocations_head b | None => head l2 end)
                (length l1 + length l2) (relinked b1 i n0 l1 l2)).
  assert (Q () b') as HQ'.
  { apply HQ. assert (local_change b b' LAlloc l1 i) as Hlc.
    { unfold b'. split.
      - intros id' Hid. autorewrite with buddy. destruct id'; try done.
      - intros id' Hid. autorewrite with buddy. destruct id'; try done.
      - intros j Hj Hlast. transitivity (nexts b1 j); [|done].
        by apply (relinked_nexts b1 i n0 l1 l2).
      - intros j Hj. transitivity (pays b1 j); [by apply (relinked_pays b1 i n0 l1 l2)|].
        unfold b1. rewrite pays_upd_node by done. by rewrite decide_False. }
    exists (ghost_set G LAlloc (l1 ++ l2) i None). split; [|split; [|split]].
    - refine (inv_detach c b b' G hand loose LAlloc l1 i l2 n (with_next n0 None)
                Hinv Hl Hn _ Hlc _ _ _ _ _).
      + by apply shape_set_allocations, relinked_shape, shape_upd_node.
      + unfold b'. autorewrite with buddy. by destruct (last l1).
      + unfold b'. autorewrite with buddy. simpl. lia.
      + intros q Hlast. by apply (relinked_last_next b1 i n0 l1 l2).
      + by apply (relinked_self b1 i n0 l1 l2).
      + unfold b'. autorewrite with buddy. simpl. unfold b1. autorewrite with buddy. lia.
    - by rewrite (lc_len _ _ _ _ _ Hlc).
    - intros p o. by rewrite (lc_len _ _ _ _ _ Hlc).
    - simpl. rewrite fmap_app. f_equal; symmetry; apply (fmap_pay_frame b b' _ i);
        try apply (lc_pays _ _ _ _ _ Hlc); intros Hx; apply (remove_not_in _ _ _ Hnd); set_solver. }
  eapply relink_run; [exact Hq1|..].
  - intros Hlast. unfold b', relinked in HQ'. rewrite Hlast in HQ'. wp_run.
    apply (wp_set_next _ i n0); [done|]. wp_run. simpl allocation_len.
    replace (allocation_len b) with (S (length l1 + length l2)) by (simpl in Hlen; lia).
    by wp_run.
  - intros q m Hlast Hm. unfold b', relinked in HQ'. rewrite Hlast, Hm in HQ'. simpl in HQ'.
    wp_run. destruct (Hq1 q Hlast) as [_ Hne].
    apply (wp_set_next _ i n0); [by rewrite ns_upd_node, list_lookup_insert_ne|]. wp_run.
    simpl allocation_len.
    replace (allocation_len b) with (S (length l1 + length l2)) by (simpl in Hlen; lia).
    by wp_run.
Qed.

Lemma mark_allocated_spec c b u cl al hand loose o i n (Q : Z → BuddyAllocator → Prop) Qe :
  Inv c b u cl al hand ((bn_start n, o) :: loose) → hand !! i = Some n → bn_refcount n = 0 →
  (∀ b', Inv c b' u cl ((bn_start n, o, 1) :: al) (delete i hand) loose → Q (bn_start n) b') →
  wp_res (mark_allocated i o) b Q Qe.
Proof.
  intros (G & Hinv & Hu & Hcl & Hal) Hh Hrc HQ. pose proof (i_lists Hinv) as HL.
  pose proof (i_hand_node Hinv i n Hh) as Hn. pose proof (lookup_lt_Some _ _ _ Hn) as Hi.
  pose proof (chain_head _ _ _ (l_chain HL LAlloc)) as Hhd.
  unfold mark_allocated. wp_run. apply (wp_node_at b i n); [done|].
  rewrite decide_False by (intros []; done). wp_run. apply wp_set_node; [done|]. wp_run.
  apply HQ. set (m := mkNode _ _ 1 _). set (b' := set_allocations _ _ _).
  assert (ns b' = <[i:=m]> (ns b)) as Hns by done.
  assert (local_change b b' LAlloc [] i) as Hlc.
  { split; try (intros [] ?; done).
    - intros j Hj _. unfold nexts. by rewrite Hns, list_lookup_insert_ne.
    - intros j Hj. unfold pays. by rewrite Hns, list_lookup_insert_ne. }
  exists (ghost_set G LAlloc (i :: gl G LAlloc) i (Some LAlloc)). split; [|split; [|split]].
  - eapply (inv_attach c b b' G hand loose LAlloc [] i (gl G LAlloc) n m); try done.
    + rewrite Hns. by apply list_lookup_insert_eq.
    + pose proof (i_loose Hinv) as [Hbk _]%Forall_cons_1. split; [done|]. simpl. unfold u32_max. lia.
    + by apply shape_set_allocations, shape_upd_node, Hinv.
    + unfold nexts. rewrite Hns, list_lookup_insert_eq by done. simpl. by rewrite <- Hhd.
    + cbn [free_weight]. rewrite Z.add_0_r. done.
  - by rewrite (lc_len _ _ _ _ _ Hlc).
  - intros p o'. by rewrite (lc_len _ _ _ _ _ Hlc).
  - simpl. rewrite (pay_at_node b' i m) by (rewrite Hns; by apply list_lookup_insert_eq).
    rewrite Hal. f_equal. symmetry. apply (fmap_pay_frame b b' _ i).
    + by eapply (inv_hand_not_in Hinv).
    + apply (lc_pays _ _ _ _ _ Hlc).
Qed.

(** Changing the reference count of an allocated block. *)
Lemma set_alloc_refcount_Inv c b G u cl hand loose l1 i l2 n rc :
  inv c b G hand loose → len_of b LUnused = u → (∀ p o, len_of b (LCpu p o) = cl p o) →
  gl G LAlloc = l1 ++ i :: l2 → ns b !! i = Some n → 1 <= rc <= u32_max →
  Inv c (upd_node b i (mkNode (bn_start n) (bn_order n) rc (bn_next n))) u cl
      ((pay_at b <$> l1) ++ (bn_start n, bn_order n, rc) :: (pay_at b <$> l2)) hand loose.
Proof.
  intros Hinv Hu Hcl Hl Hn Hrc. set (m := mkNode _ _ rc _). set (b' := upd_node b i m).
  pose proof (i_lists Hinv) as HL. pose proof (lookup_lt_Some _ _ _ Hn) as Hi.
  assert (i ∈ gl G LAlloc) as Hin by (rewrite Hl; set_solver).
  destruct (inv_list_node Hinv _ i Hin) as (n0 & Hn0 & (Hbk & _) & Hw).
  assert (n0 = n) as -> by congruence.
  pose proof (l_nodup HL LAlloc) as Hnd. rewrite Hl in Hnd.
  pose proof (remove_not_in _ _ _ Hnd) as Hni.
  assert (Hpy : ∀ j, j ≠ i → pays b' j = pays b j).
  { intros j Hj. unfold b'. rewrite pays_upd_node by done. by rewrite decide_False. }
  assert (Hnx : ∀ j, nexts b' j = nexts b j).
  { intros j. unfold b'. rewrite nexts_upd_node by done. case_decide; [|done].
    subst. unfold nexts. by rewrite Hn. }
  assert (Hpi : pay_at b' i = (bn_start n, bn_order n, rc)).
  { apply (pay_at_node b' i m). by apply list_lookup_insert_eq. }
  assert (Hpb : ∀ j, (pay_at b' j).1 = (pay_at b j).1).
  { intros j. destruct (decide (j = i)) as [->|Hne].
    - rewrite Hpi, (pay_at_node b i n Hn). done.
    - by rewrite (pay_at_pays b b') by (by apply Hpy). }
  assert (Hal : (pay_at b' <$> gl G LAlloc) =
    (pay_at b <$> l1) ++ (bn_start n, bn_order n, rc) :: (pay_at b <$> l2)).
  { rewrite Hl, fmap_app, fmap_cons, Hpi.
    by rewrite !(fmap_pay_frame b b' _ i) by (try done; set_solver). }
  exists G. split; [|done]. split.
  - apply Hinv.
  - by apply shape_upd_node, Hinv.
  - split; try apply HL.
    intros id. eapply chain_frame; [intros; apply Hnx|]. apply (l_chain HL).
  - intros j id k Hk Hwj. destruct (decide (j = i)) as [->|Hne].
    + assert (id = LAlloc) as -> by congruence.
      assert (k = m) as ->.
      { unfold b' in Hk. rewrite ns_upd_node, list_lookup_insert_eq in Hk by done. congruence. }
      split; done.
    + unfold b' in Hk. rewrite ns_upd_node, list_lookup_insert_ne in Hk by done.
      by eapply (i_node Hinv).
  - intros o. unfold starts. setoid_rewrite Hpb. apply (i_sorted Hinv).
  - apply (i_hand Hinv).
  - intros j k Hjk. unfold b'. rewrite ns_upd_node, list_lookup_insert_ne.
    + by apply (i_hand_node Hinv).
    + intros <-. by eapply (inv_hand_not_in Hinv).
  - apply Hinv.
  - intros g. rewrite <- (i_mass Hinv g). f_equal. apply nsum_ext. intros j Hj.
    unfold listed_mass. by rewrite Hpb.
  - rewrite Hal. rewrite <- (i_pages Hinv), Hl, fmap_app, fmap_cons, !alloc_pages_app.
    rewrite !alloc_pages_cons, (pay_at_node b i n Hn). done.
Qed.
