(* ===== verification/BuddyProof.v ===== *)
(** * Correctness of the buddy allocator

    The compound operations (splitting, merging, per-CPU caching) against the
    invariant, and the theorems about the public interface: every operation
    keeps the invariant, ends without panic or exhausted loop, hands out blocks
    that are aligned, inside usable memory and disjoint from every other
    allocation, and accounts for every page. *)

From S2P Require Import Prelude Frame LinkedList RangeList Buddy BuddyInv BuddyLists.

Lemma hand_roundtrip (hand : gmap nat BlockNode) j x y :
  hand !! j = None → delete j (<[j:=y]> (<[j:=x]> hand)) = hand.
Proof. intros Hj. by rewrite insert_insert_eq, delete_insert_eq, delete_id. Qed.

(** ** Splitting *)

Lemma split_loop_spec c k : ∀ b u cl al hand loose order i n
    (Q : unit → BuddyAllocator → Prop) Qe,
  Inv c b u cl al hand ((bn_start n, (order + k)%nat) :: loose) →
  hand !! i = Some n → bn_refcount n = 0 → bn_order n = (order + k)%nat → (k <= u)%nat →
  (∀ b' n', bn_start n' = bn_start n → bn_refcount n' = 0 → bn_order n' = order →
     Inv c b' (u - k) cl al (<[i:=n']> hand) ((bn_start n, order) :: loose) → Q () b') →
  wp_res (split_loop k order i) b Q Qe.
Proof.
  induction k as [|k IH]; intros b u cl al hand loose order i n Q Qe HI Hh Hrc Ho Hu HQ; simpl.
  { wp_run. rewrite Nat.add_0_r in *. apply (HQ b n); auto.
    rewrite insert_id by done. by rewrite Nat.sub_0_r. }
  apply wp_res_bind, (wp_node_at b i n); [by eapply Inv_hand_node|].
  rewrite Nat.add_succ_r in HI.
  destruct HI as (G & Hinv & HIr). apply inv_split in Hinv.
  assert (Inv c b u cl al hand ((bn_start n + block_size (order + k), (order + k)%nat) ::
    (bn_start n, (order + k)%nat) :: loose)) as HI by (by exists G).
  clear G Hinv HIr. wp_run. eapply alloc_unused_spec; [exact HI|lia|].
  intros j m b1 u' Hu' Hj HI1. wp_run. apply wp_set_node.
  { eapply lookup_lt_Some, Inv_hand_node; [exact HI1|apply lookup_insert_eq]. }
  wp_run. eapply Inv_set_hand in HI1; [|apply lookup_insert_eq].
  eapply (global_insert_sorted_spec _ _ _ _ _ _ _ _ j (mkNode _ (order + k) 0 None));
    [exact HI1|apply lookup_insert_eq|done..|].
  intros b2 HI2. rewrite hand_roundtrip in HI2 by done. wp_run.
  eapply (wp_set_order b2 i n); [by eapply Inv_hand_node|].
  set (n2 := mkNode _ (order + k) _ _).
  apply (Inv_set_hand _ _ _ _ _ _ _ i n n2) in HI2; [|done].
  eapply (IH _ _ _ _ _ _ order i n2); [exact HI2|apply lookup_insert_eq|done|done|lia|].
  intros b' n' Hst Hrc' Ho' HI3. rewrite insert_insert_eq in HI3.
  apply (HQ b' n'); auto. by replace (u - S k)%nat with (u' - k)%nat by lia.
Qed.

(** ** Taking a block from the global lists *)

Lemma find_order_loop_spec c b k : ∀ cur (Q : nat → BuddyAllocator → Prop) Qe,
  cfg_ok c → shape c b → (cur + k <= S (c_max c))%nat →
  (∀ o, (cur <= o < cur + k)%nat → (∀ o', (cur <= o' < o)%nat → head_of b (LGlobal o') = None) →
     head_of b (LGlobal o) ≠ None → Q o b) →
  ((∀ o', (cur <= o' < cur + k)%nat → head_of b (LGlobal o') = None) → Q (cur + k)%nat b) →
  wp_res (find_order_loop k cur) b Q Qe.
Proof.
  induction k as [|k IH]; intros cur Q Qe Hc Hsh Hb HQ Hnone; simpl.
  { wp_run. rewrite Nat.add_0_r in Hnone. apply Hnone. lia. }
  pose proof (co_max _ Hc). wp_run. eapply wp_global_head; [exact Hsh|lia|].
  destruct (head_of b (LGlobal cur)) as [h|] eqn:Hhd.
  - wp_run. apply HQ; [lia|lia|congruence].
  - apply IH; auto; [lia|..].
    + intros o Ho Hlow. apply HQ; [lia|]. intros o' Ho'.
      destruct (decide (o' = cur)) as [->|]; [done|]. apply Hlow. lia.
    + intros Hlow. replace (S cur + k)%nat with (cur + S k)%nat by lia. apply Hnone.
      intros o' Ho'. destruct (decide (o' = cur)) as [->|]; [done|]. apply Hlow. lia.
Qed.

(** [alloc_from_global] fails without changing anything, or takes a block of
    exactly the requested order out of the free lists. *)
Lemma alloc_from_global_spec c b u cl al hand loose order
    (Q : nat → BuddyAllocator → Prop) (Qe : FrameAllocError → BuddyAllocator → Prop) :
  Inv c b u cl al hand loose → (order <= c_max c)%nat →
  ((∀ o, (order <= o <= c_max c)%nat → head_of b (LGlobal o) = None) → Qe OutOfMemory b) →
  ((unused_len (nodes b) < c_max c - order)%nat → Qe MetadataExhausted b) →
  (∀ i n b' u', hand !! i = None → bn_order n = order → bn_refcount n = 0 →
     Inv c b' u' cl al (<[i:=n]> hand) ((bn_start n, order) :: loose) → Q i b') →
  wp_res (alloc_from_global order) b Q Qe.
Proof.
  intros HI Hmax Hoom Hmeta HQ. destruct (Inv_cfg _ _ _ _ _ _ _ HI) as [Hc Hsh].
  unfold alloc_from_global. wp_run. rewrite (sh_max _ _ Hsh).
  apply (find_order_loop_spec c); [done|done|lia|..].
  2:{ intros Hnone. rewrite decide_True by lia. wp_run. apply Hoom. intros. apply Hnone. lia. }
  intros o Ho _ Hsome. rewrite decide_False by lia.
  destruct (has_unused (nodes b) (o - order)) eqn:Hhas; simpl negb; cbv iota;
    unfold has_unused in Hhas; [apply Nat.leb_le in Hhas|apply Nat.leb_gt in Hhas].
  2:{ wp_run. apply Hmeta. lia. }
  assert (unused_len (nodes b) = u) as Hu by (by destruct HI as (G & _ & ? & _)).
  wp_run. eapply (global_pop_first_spec c); [exact HI|lia|done|].
  intros i n b1 Hi Hon Hrc HI1. wp_run.
  eapply (wp_set_order b1 i n); [eapply Inv_hand_node; [exact HI1|apply lookup_insert_eq]|].
  set (n1 := mkNode _ o _ _).
  apply (Inv_set_hand _ _ _ _ _ _ _ i n n1) in HI1; [|apply lookup_insert_eq].
  rewrite insert_insert_eq in HI1. wp_run.
  eapply (split_loop_spec c (o - order) _ u cl al (<[i:=n1]> hand) loose order i n1).
  - change (bn_start n1) with (bn_start n). by replace (order + (o - order))%nat with o by lia.
  - apply lookup_insert_eq.
  - done.
  - simpl. lia.
  - lia.
  - intros b' n' Hst Hrc' Ho' HI2. wp_run. rewrite insert_insert_eq in HI2.
    eapply (HQ i n' b'); auto. rewrite Hst. exact HI2.
Qed.

(** ** Merging *)

Lemma merge_loop_spec c k : ∀ b u cl al hand loose s o (Q : Z * nat → BuddyAllocator → Prop) Qe,
  Inv c b u cl al hand ((s, o) :: loose) → (o + k <= c_max c)%nat →
  (∀ b' u' s' o', Inv c b' u' cl al hand ((s', o') :: loose) → Q (s', o') b') →
  wp_res (merge_loop k s o) b Q Qe.
Proof.
  induction k as [|k IH]; intros b u cl al hand loose s o Q Qe HI Hk HQ; simpl.
  { wp_run. by eapply HQ. }
  wp_run. eapply (global_remove_by_start_spec c); [exact HI|lia|wp_run; by eapply HQ|].
  intros i n b1 Hi Hst Hon HI1. wp_run.
  eapply release_unused_spec; [exact HI1|apply lookup_insert_eq|].
  intros b2 HI2. rewrite delete_insert_eq, delete_id in HI2 by done.
  destruct HI2 as (G & Hinv & HIr). apply inv_merge in Hinv; [|lia].
  eapply IH; [by exists G|lia|]. intros. by eapply HQ.
Qed.

Lemma free_global_block_spec c b u cl al hand loose i n (Q : unit → BuddyAllocator → Prop) Qe :
  Inv c b u cl al hand ((bn_start n, bn_order n) :: loose) → hand !! i = Some n →
  (∀ b' u', Inv c b' u' cl al (delete i hand) loose → Q () b') →
  wp_res (free_global_block i) b Q Qe.
Proof.
  intros HI Hh HQ. destruct (Inv_cfg _ _ _ _ _ _ _ HI) as [Hc Hsh].
  assert (bn_order n <= c_max c)%nat as Hmax.
  { destruct HI as (G & Hinv & _). destruct (inv_order_slot _ _ _ _ _ (bn_start n, bn_order n) Hinv) as [_ ?]; [left|done]. }
  unfold free_global_block. wp_run. apply (wp_node_at b i n); [by eapply Inv_hand_node|].
  wp_run. rewrite (sh_max _ _ Hsh). eapply merge_loop_spec; [exact HI|lia|].
  intros b1 u1 s o HI1. wp_run.
  eapply (wp_set_start b1 i n); [by eapply Inv_hand_node|]. wp_run.
  eapply Inv_set_hand in HI1; [|exact Hh].
  do 3 (first [eapply wp_set_order | eapply wp_set_refcount | eapply wp_set_next];
    [eapply Inv_hand_node; [exact HI1|apply lookup_insert_eq]|];
    eapply Inv_set_hand in HI1; [|apply lookup_insert_eq];
    unfold with_next in *; cbn [bn_start bn_order bn_refcount bn_next] in HI1 |- *;
    rewrite insert_insert_eq in HI1; wp_run).
  eapply (global_insert_sorted_spec _ _ _ _ _ _ _ o i (mkNode s o 0 None));
    [exact HI1|apply lookup_insert_eq|done|done|].
  intros b2 HI2. rewrite delete_insert_eq in HI2. by eapply HQ.
Qed.

(** ** Per-CPU caches *)

(** No global free list of an order from [o] on has a block. *)
Definition global_exhausted (c : cfg) (b : BuddyAllocator) (o : nat) : Prop :=
  ∀ o', (o <= o' <= c_max c)%nat → head_of b (LGlobal o') = None.

Lemma wp_refill_step k p o b (Q : unit → BuddyAllocator → Prop) Qe :
  wp_res (alloc_from_global o) b
    (λ i b', wp_res (_ ← cpu_push p o i; refill_loop k p o) b' Q Qe)
    (λ e b', match e with OutOfMemory => Q () b' | _ => Qe e b' end) →
  wp_res (refill_loop (S k) p o) b Q Qe.
Proof.
  unfold wp_res at 1, wp. simpl. unfold wp_res, wp.
  destruct (alloc_from_global o b) as [[i|e| |] b']; simpl; [done| |done..]. by destruct e.
Qed.

Lemma cl_upd_eq cl p o v : cl_upd cl p o v p o = v.
Proof. unfold cl_upd. by rewrite decide_True. Qed.

Lemma cl_upd_ne cl p o v p' o' : (p', o') ≠ (p, o) → cl_upd cl p o v p' o' = cl p' o'.
Proof. intros Hne. unfold cl_upd. rewrite decide_False; [done|]. intros [-> ->]. done. Qed.

Lemma cl_upd_ge cl p o v p' o' : (cl p o <= v)%nat → (cl p' o' <= cl_upd cl p o v p' o')%nat.
Proof. intros Hv. unfold cl_upd. case_decide as Hd; [by destruct Hd as [-> ->]|done]. Qed.

(** No cache is longer than its high watermark. *)
Definition caches_bounded (cl : nat → nat → nat) : Prop :=
  ∀ p o, (cl p o <= high_watermark o)%nat.

Lemma caches_bounded_upd cl cl' p o v :
  caches_bounded cl → (v <= high_watermark o)%nat →
  (∀ p' o', (cl' p' o' <= cl_upd cl p o v p' o')%nat) → caches_bounded cl'.
Proof.
  intros Hb Hv Hle p' o'. etrans; [apply Hle|].
  destruct (decide ((p', o') = (p, o))) as [[= -> ->]|Hne];
    [by rewrite cl_upd_eq|by rewrite cl_upd_ne].
Qed.

Lemma refill_loop_spec c p o k : ∀ b u cl al hand loose (Q : unit → BuddyAllocator → Prop)
    (Qe : FrameAllocError → BuddyAllocator → Prop),
  Inv c b u cl al hand loose → (p < c_cpus c)%nat → (o <= PER_CPU_CACHE_MAX_ORDER)%nat →
  (o <= c_max c)%nat →
  (∀ b' u' cl', Inv c b' u' cl' al hand loose →
     (cl' p o = 0%nat → k = 0%nat ∨ (b' = b ∧ cl p o = 0%nat ∧ global_exhausted c b o)) → 
     (cl p o <= cl' p o)%nat →
     (∀ p' o', (cl' p' o' <= cl_upd cl p o (cl p o + k) p' o')%nat) → Q () b') →
  (∀ b' u' cl', Inv c b' u' cl' al hand loose →
     (∀ p' o', (cl' p' o' <= cl_upd cl p o (cl p o + k) p' o')%nat) →
     (unused_len (nodes b') < c_max c - o)%nat → Qe MetadataExhausted b') →
  wp_res (refill_loop k p o) b Q Qe.
Proof.
  induction k as [|k IH]; intros b u cl al hand loose Q Qe HI Hp Ho Hm HQ Hmeta.
  { simpl. wp_run. eapply HQ; [exact HI|by left|done|]. intros. apply cl_upd_ge. lia. }
  apply wp_refill_step. eapply (alloc_from_global_spec c); [exact HI|done| | |].
  - intros Hnone. eapply HQ; [exact HI|by right|done|]. intros. apply cl_upd_ge. lia.
  - intros ?. eapply Hmeta; [exact HI| |done]. intros. apply cl_upd_ge. lia.
  - intros i n b' u' Hi Hon Hrc HI1. wp_run.
    eapply cpu_push_spec; [exact HI1|apply lookup_insert_eq|done|done|].
    intros b2 HI2. rewrite delete_insert_eq, delete_id in HI2 by done.
    eapply IH; [exact HI2|done|done|done| |].
    2:{ intros b3 u3 cl3 HI3 Hup. rewrite cl_upd_eq in Hup. eapply Hmeta; [exact HI3|].
        intros p' o'. etrans; [apply Hup|]. unfold cl_upd. case_decide; lia. }
    intros b3 u3 cl3 HI3 _ Hle Hup. rewrite cl_upd_eq in Hle, Hup.
    eapply HQ; [exact HI3|lia|lia|]. intros p' o'. etrans; [apply Hup|].
    unfold cl_upd. case_decide; lia.
Qed.

Lemma refill_per_cpu_cache_spec c b u cl al hand loose p o (Q : unit → BuddyAllocator → Prop)
    (Qe : FrameAllocError → BuddyAllocator → Prop) :
  Inv c b u cl al hand loose → (p < c_cpus c)%nat → (o <= PER_CPU_CACHE_MAX_ORDER)%nat →
  (o <= c_max c)%nat →
  (∀ b' u' cl', Inv c b' u' cl' al hand loose → cl' p o ≠ 0%nat →
     (∀ p' o', (cl' p' o' <= cl_upd cl p o (cl p o + refill_batch o) p' o')%nat) → Q () b') →
  (cl p o = 0%nat → global_exhausted c b o → Qe OutOfMemory b) →
  (∀ b' u' cl', Inv c b' u' cl' al hand loose →
     (∀ p' o', (cl' p' o' <= cl_upd cl p o (cl p o + refill_batch o) p' o')%nat) →
     (unused_len (nodes b') < c_max c - o)%nat → Qe MetadataExhausted b') →
  wp_res (refill_per_cpu_cache p o) b Q Qe.
Proof.
  intros HI Hp Ho Hm HQ Hoom Hmeta. unfold refill_per_cpu_cache. wp_run.
  eapply refill_loop_spec; [exact HI|done..| |done].
  intros b' u' cl' HI' Hz _ Hup. wp_run. destruct (Inv_cfg _ _ _ _ _ _ _ HI') as [_ Hsh].
  eapply wp_cache_len; [done..|].
  assert (len_of b' (LCpu p o) = cl' p o) as -> by (destruct HI' as (G & _ & _ & Hcl & _); apply Hcl).
  case_decide as Hd; wp_run; [|by eapply HQ].
  destruct (Hz Hd) as [Hk|(-> & ? & ?)]; [|by apply Hoom].
  unfold refill_batch in Hk. pose proof (Nat.pow_nonzero 2 (PER_CPU_CACHE_MAX_ORDER - o)). lia.
Qed.

Lemma drain_loop_spec c p o low fuel : ∀ b u cl al (Q : unit → BuddyAllocator → Prop) Qe,
  Inv c b u cl al ∅ [] → (p < c_cpus c)%nat → (o <= PER_CPU_CACHE_MAX_ORDER)%nat →
  (cl p o <= fuel)%nat →
  (∀ b' u' cl', Inv c b' u' cl' al ∅ [] →
     (∀ p' o', (cl' p' o' <= cl_upd cl p o low p' o')%nat) → Q () b') →
  wp_res (drain_loop fuel p o low) b Q Qe.
Proof.
  induction fuel as [|fuel IH]; intros b u cl al Q Qe HI Hp Ho Hf HQ; simpl; wp_run;
    destruct (Inv_cfg _ _ _ _ _ _ _ HI) as [_ Hsh]; (eapply wp_cache_len; [done..|]);
    assert (len_of b (LCpu p o) = cl p o) as -> by (destruct HI as (G & _ & _ & Hcl & _); apply Hcl).
  - rewrite decide_False by lia. wp_run. eapply HQ; [done|].
    intros. apply cl_upd_ge. lia.
  - case_decide as Hd; wp_run.
    2:{ eapply HQ; [done|]. intros. apply cl_upd_ge. lia. }
    eapply cpu_pop_spec; [exact HI|done|done|lia|].
    intros i n b1 l Hl Hi Hon Hrc HI1. wp_run.
    eapply (free_global_block_spec c _ _ _ _ _ _ i n);
      [rewrite Hon; exact HI1|apply lookup_insert_eq|].
    intros b2 u2 HI2. rewrite delete_insert_eq in HI2.
    eapply IH; [exact HI2|done|done|rewrite cl_upd_eq; lia|].
    intros b3 u3 cl3 HI3 Hup. eapply HQ; [exact HI3|]. intros p' o'. etrans; [apply Hup|].
    unfold cl_upd. case_decide; lia.
Qed.

Lemma drain_per_cpu_cache_spec c b u cl al p o (Q : unit → BuddyAllocator → Prop) Qe :
  Inv c b u cl al ∅ [] → (p < c_cpus c)%nat → (o <= PER_CPU_CACHE_MAX_ORDER)%nat →
  (∀ b' u' cl', Inv c b' u' cl' al ∅ [] →
     (∀ p' o', (cl' p' o' <= cl_upd cl p o (high_watermark o) p' o')%nat) → Q () b') →
  wp_res (drain_per_cpu_cache p o) b Q Qe.
Proof.
  intros HI Hp Ho HQ. destruct (Inv_cfg _ _ _ _ _ _ _ HI) as [_ Hsh].
  unfold drain_per_cpu_cache. wp_run. eapply wp_cache_len; [done..|].
  assert (len_of b (LCpu p o) = cl p o) as -> by (destruct HI as (G & _ & _ & Hcl & _); apply Hcl).
  case_decide as Hd; wp_run.
  { eapply HQ; [exact HI|]. intros. by apply cl_upd_ge. }
  eapply (drain_loop_spec c); [exact HI|done|done|done|].
  intros b' u' cl' HI' Hle. eapply HQ; [exact HI'|]. intros p' o'.
  etrans; [apply Hle|]. unfold cl_upd, high_watermark. case_decide; lia.
Qed.

(** ** Allocation *)

Lemma alloc_block_spec c b u cl al p o (Q : nat → BuddyAllocator → Prop)
    (Qe : FrameAllocError → BuddyAllocator → Prop) :
  Inv c b u cl al ∅ [] → caches_bounded cl → (o <= c_max c)%nat →
  ((c_cpus c <= p)%nat → Qe InvalidCpu b) →
  (∀ i n b' u' cl', bn_order n = o → bn_refcount n = 0 → (p < c_cpus c)%nat →
     caches_bounded cl' → Inv c b' u' cl' al {[i := n]} [(bn_start n, o)] → Q i b') →
  ((o <= PER_CPU_CACHE_MAX_ORDER → cl p o = 0)%nat → (p < c_cpus c)%nat →
     global_exhausted c b o → Qe OutOfMemory b) →
  (∀ b' u' cl', (p < c_cpus c)%nat → caches_bounded cl' → Inv c b' u' cl' al ∅ [] →
     (unused_len (nodes b') < c_max c - o)%nat → Qe MetadataExhausted b') →
  wp_res (alloc_block p o) b Q Qe.
Proof.
  intros HI Hcb Hm Hcpu HQ Hoom Hmeta. destruct (Inv_cfg _ _ _ _ _ _ _ HI) as [Hc Hsh].
  unfold alloc_block, checked_cpu. wp_run. rewrite (sh_cpus _ _ Hsh).
  case_decide as Hp; wp_run; [|apply Hcpu; lia].
  assert (∀ cl1 l, caches_bounded cl1 → cl1 p o = S l → caches_bounded (cl_upd cl1 p o l)) as Hpop.
  { intros cl1 l Hb1 Hl. eapply (caches_bounded_upd cl1 _ p o l); [done| |done].
    specialize (Hb1 p o). lia. }
  case_decide as Ho.
  - wp_run. eapply cpu_pop_spec; [exact HI|done|done| |].
    + intros Hz.
      assert (∀ cl1, (∀ p' o', (cl1 p' o' <= cl_upd cl p o (cl p o + refill_batch o) p' o')%nat) →
        caches_bounded cl1) as Hfill.
      { intros cl1 Hup. eapply caches_bounded_upd; [exact Hcb| |exact Hup].
        unfold high_watermark. lia. }
      wp_run. eapply refill_per_cpu_cache_spec; [exact HI|done..| |by eauto|by eauto].
      intros b1 u1 cl1 HI1 Hnz Hup. wp_run. eapply cpu_pop_spec; [exact HI1|done|done|done|].
      intros i n b2 l Hl _ Hon Hrc HI2. wp_run. eapply HQ; [done..| |exact HI2]. eauto.
    + intros i n b2 l Hl _ Hon Hrc HI2. wp_run. eapply HQ; [done..| |exact HI2]. eauto.
  - eapply alloc_from_global_spec; [exact HI|done|intros ?; apply Hoom; [lia|done..]| |].
    + intros ?. by eapply Hmeta.
    + intros i n b' u' _ Hon Hrc HI1. by eapply HQ.
Qed.
