(* ===== verification/BuddyBoot.v ===== *)
(** * Construction of the buddy allocator

    [pool_init], [seed_global_free_region] and [init_from_usable_ranges] of
    [Buddy]: the freshly built allocator satisfies the invariant, with every
    usable frame in the global free lists.  The seeding loop is followed by
    the list of blocks it is going to insert ([blocks_of]), which are the
    loose blocks of the invariant. *)

From S2P Require Import Prelude Frame LinkedList RangeList Buddy BuddyInv BuddyLists BuddyProof.

(** ** The blocks a range is cut into *)

Lemma floor_log2_eq v : 1 <= v → floor_log2 v = Z.to_nat (Z.log2 v).
Proof.
  intros Hv. unfold floor_log2, leading_zeros. destruct (Z.eqb_spec v 0); [lia|].
  f_equal. lia.
Qed.

Lemma floor_log2_spec v : 1 <= v → block_size (floor_log2 v) <= v.
Proof.
  intros Hv. rewrite floor_log2_eq, block_size_pow, Z2Nat.id by (try apply Z.log2_nonneg; done).
  apply Z.log2_spec. lia.
Qed.

Lemma block_size_mono o o' : (o <= o')%nat → block_size o <= block_size o'.
Proof. intros Ho. rewrite !block_size_pow. apply Z.pow_le_mono_r; lia. Qed.

Lemma fit_order_loop_spec start k :
  (fit_order_loop start k <= k)%nat ∧ start mod block_size (fit_order_loop start k) = 0.
Proof.
  induction k as [|k IH]; simpl.
  - split; [done|]. rewrite block_size_pow. apply Z.mod_1_r.
  - case_decide; [done|]. destruct IH. split; [lia|done].
Qed.

Lemma max_fit_order_spec start remaining mo :
  1 <= remaining →
  let o := max_fit_order start remaining mo in
  (o <= mo)%nat ∧ start mod block_size o = 0 ∧ block_size o <= remaining.
Proof.
  intros Hr. unfold max_fit_order.
  destruct (fit_order_loop_spec start (floor_log2 remaining `min` mo)) as [Hle Hal].
  split; [lia|]. split; [done|].
  etrans; [|by apply floor_log2_spec]. apply block_size_mono. lia.
Qed.

Fixpoint cut (fuel : nat) (start remaining : Z) (mo : nat) : list block :=
  match fuel with
  | O => []
  | S fuel' =>
      if decide (0 < remaining) then
        let o := max_fit_order start remaining mo in
        (start, o) :: cut fuel' (start + block_size o) (remaining - block_size o) mo
      else []
  end.

Definition blocks_of (start len : Z) (mo : nat) : list block := cut (Z.to_nat len) start len mo.

Lemma cut_mass g mo fuel : ∀ start len,
  (Z.to_nat len <= fuel)%nat → 0 <= len → loose_mass g (cut fuel start len mo) = zsum g start len.
Proof.
  induction fuel as [|fuel IH]; intros start len Hf Hl; simpl.
  { by replace len with 0 by lia. }
  case_decide as Hd; [|by replace len with 0 by lia].
  destruct (max_fit_order_spec start len mo) as (_ & _ & Hle); [lia|].
  set (o := max_fit_order start len mo) in *. pose proof (block_size_pos o). simpl.
  rewrite IH by lia. unfold bmass. simpl.
  rewrite <- (zsum_add g start (block_size o) (len - block_size o)) by lia. f_equal. lia.
Qed.

Lemma cut_pages mo fuel : ∀ start len,
  (Z.to_nat len <= fuel)%nat → 0 <= len → loose_pages (cut fuel start len mo) = len.
Proof.
  induction fuel as [|fuel IH]; intros start len Hf Hl; simpl; [lia|].
  case_decide as Hd; [|simpl; lia].
  destruct (max_fit_order_spec start len mo) as (_ & _ & Hle); [lia|].
  set (o := max_fit_order start len mo) in *. pose proof (block_size_pos o). simpl.
  rewrite IH by lia. lia.
Qed.

Lemma cut_ok c e fuel : ∀ start len,
  e ∈ c_ranges c → e.1 <= start → start + len <= e.1 + e.2 →
  Forall (block_ok c) (cut fuel start len (c_max c)).
Proof.
  induction fuel as [|fuel IH]; intros start len He Hlo Hhi; simpl; [constructor|].
  case_decide as Hd; [|constructor].
  destruct (max_fit_order_spec start len (c_max c)) as (Hm & Hal & Hle); [lia|].
  set (o := max_fit_order start len (c_max c)) in *. pose proof (block_size_pos o).
  constructor; [|apply IH; auto; lia].
  split; [done|]. split; [done|]. exists e. simpl. split; [done|]. lia.
Qed.

(** Any fuel that covers the length gives the same blocks. *)
Lemma cut_fuel mo fuel : ∀ fuel' start len,
  (Z.to_nat len <= fuel)%nat → (Z.to_nat len <= fuel')%nat →
  cut fuel start len mo = cut fuel' start len mo.
Proof.
  induction fuel as [|fuel IH]; intros [|fuel'] start len Hf Hf'; simpl; try done;
    case_decide as Hd; try done; try lia.
  f_equal. destruct (max_fit_order_spec start len mo) as (_ & _ & Hle); [lia|].
  pose proof (block_size_pos (max_fit_order start len mo)). apply IH; lia.
Qed.

Lemma blocks_of_step start len mo :
  0 < len → let o := max_fit_order start len mo in
  blocks_of start len mo = (start, o) :: blocks_of (start + block_size o) (len - block_size o) mo.
Proof.
  intros Hl o. unfold blocks_of. destruct (Z.to_nat len) as [|k] eqn:Hk; [lia|]. simpl.
  rewrite decide_True by done. fold o. f_equal.
  destruct (max_fit_order_spec start len mo) as (_ & _ & Hle); [lia|]. fold o in Hle.
  pose proof (block_size_pos o). apply cut_fuel; lia.
Qed.

Definition range_blocks (mo : nat) (rs : list (Z * Z)) : list block :=
  rs ≫= λ e, blocks_of e.1 e.2 mo.

Lemma range_blocks_cons mo e rs :
  range_blocks mo (e :: rs) = blocks_of e.1 e.2 mo ++ range_blocks mo rs.
Proof. done. Qed.

Lemma loose_mass_app g l l' : loose_mass g (l ++ l') = loose_mass g l + loose_mass g l'.
Proof. induction l as [|k l IH]; simpl in *; lia. Qed.

Lemma loose_pages_app l l' : loose_pages (l ++ l') = loose_pages l + loose_pages l'.
Proof. induction l as [|k l IH]; simpl in *; lia. Qed.

Lemma range_blocks_mass g mo rs :
  Forall (λ e : Z * Z, 0 <= e.2) rs → loose_mass g (range_blocks mo rs) = ranges_mass g rs.
Proof.
  induction 1 as [|e rs He Hrs IH]; [done|]. rewrite range_blocks_cons. simpl.
  rewrite loose_mass_app, IH. unfold blocks_of. rewrite cut_mass by lia. done.
Qed.

Lemma range_blocks_pages mo rs :
  Forall (λ e : Z * Z, 0 <= e.2) rs → loose_pages (range_blocks mo rs) = range_sum rs.
Proof.
  induction 1 as [|e rs He Hrs IH]; [done|]. rewrite range_blocks_cons. simpl.
  rewrite loose_pages_app, IH. unfold blocks_of. rewrite cut_pages by lia. done.
Qed.

Lemma range_blocks_ok c : Forall (block_ok c) (range_blocks (c_max c) (c_ranges c)).
Proof.
  apply Forall_forall. intros k (e & Hk & He)%list_elem_of_bind.
  eapply Forall_forall; [apply (cut_ok c e)|exact Hk]; [done|lia|lia].
Qed.

(** ** The seeding loop *)

Lemma seed_loop_spec c fuel : ∀ b u cl al hand loose start len (Q : unit → BuddyAllocator → Prop)
    (Qe : FrameAllocError → BuddyAllocator → Prop),
  Inv c b u cl al hand (blocks_of start len (c_max c) ++ loose) → 0 <= len → (u < fuel)%nat →
  (∀ b' u', Inv c b' u' cl al hand loose → Q () b') →
  (∀ b', Qe MetadataExhausted b') →
  wp_res (seed_loop fuel start len) b Q Qe.
Proof.
  induction fuel as [|fuel IH]; intros b u cl al hand loose start len Q Qe HI Hl Hf HQ HE; [lia|].
  simpl. case_decide as Hd.
  2:{ wp_run. apply (HQ _ u). by replace len with 0 in HI by lia. }
  destruct (Inv_cfg _ _ _ _ _ _ _ HI) as [Hc Hsh].
  wp_run. rewrite (sh_max _ _ Hsh).
  destruct (max_fit_order_spec start len (c_max c)) as (_ & _ & Hle); [lia|].
  rewrite blocks_of_step in HI by done. set (o := max_fit_order start len (c_max c)) in *.
  eapply alloc_unused_spec; [exact HI|auto|].
  intros i n b1 u' -> Hi HI1. wp_run. apply wp_set_node.
  { eapply lookup_lt_Some, Inv_hand_node; [exact HI1|apply lookup_insert_eq]. }
  wp_run. eapply Inv_set_hand in HI1; [|apply lookup_insert_eq].
  eapply (global_insert_sorted_spec c _ _ _ _ _ _ o i (mkNode start o 0 None));
    [exact HI1|apply lookup_insert_eq|done|done|].
  intros b2 HI2. rewrite hand_roundtrip in HI2 by done.
  eapply IH; [exact HI2|lia|lia|done|done].
Qed.

Lemma seed_ranges_spec c rs : ∀ b u cl al hand loose (Q : unit → BuddyAllocator → Prop)
    (Qe : FrameAllocError → BuddyAllocator → Prop),
  Inv c b u cl al hand (range_blocks (c_max c) rs ++ loose) → Forall (λ e : Z * Z, 0 <= e.2) rs →
  (∀ b' u', Inv c b' u' cl al hand loose → Q () b') →
  (∀ b', Qe MetadataExhausted b') →
  wp_res (seed_ranges rs) b Q Qe.
Proof.
  induction rs as [|[s l] rs IH]; intros b u cl al hand loose Q Qe HI Hrs HQ HE; simpl.
  { wp_run. by eapply HQ. }
  apply Forall_cons in Hrs as [Hl Hrs]. unfold seed_global_free_region. wp_run.
  rewrite range_blocks_cons, <- app_assoc in HI.
  eapply seed_loop_spec; [exact HI|done| | |done].
  - destruct HI as (G & _ & <- & _). simpl. lia.
  - intros b1 u1 HI1. by eapply IH.
Qed.

(** ** The empty allocator *)

Section empty.
Context (c : cfg) (b : BuddyAllocator) (MAX_CPUS : nat) (ranges : RangeList).
Hypothesis Hb : b = empty_allocator MAX_CPUS (c_nodes c) ranges (c_total c) (c_max c) (c_cpus c).
Hypothesis Hc : cfg_ok c.
Hypothesis Hcpus : (c_cpus c <= MAX_CPUS)%nat.
Hypothesis Hranges : as_slice ranges = c_ranges c.

Definition ghost_empty : ghost :=
  mkGhost (λ id, if is_unused id then seq 0 (c_nodes c) else []) (λ _, Some LUnused).

Lemma pool_init_lookup i :
  (i < c_nodes c)%nat →
  ns b !! i = Some (mkNode 0 0 0 (if decide (S i < c_nodes c)%nat then Some (S i) else None)).
Proof.
  intros Hi. subst b. simpl. rewrite list_lookup_imap, lookup_replicate_2 by done. done.
Qed.

Lemma pool_init_chain k i :
  (i + k = c_nodes c)%nat →
  chain (nexts b) (if decide (i < c_nodes c)%nat then Some i else None) (seq i k).
Proof.
  revert i. unfold chain. induction k as [|k IH]; intros i Hi; simpl.
  { by rewrite decide_False by lia. }
  rewrite decide_True by lia. split; [done|].
  exists (if decide (S i < c_nodes c)%nat then Some (S i) else None). split.
  - unfold nexts. by rewrite pool_init_lookup by lia.
  - apply IH. lia.
Qed.

Lemma empty_head_len id :
  id ≠ LUnused → head_of b id = None ∧ len_of b id = 0%nat.
Proof.
  intros Hid. subst b. unfold head_of, len_of, empty_allocator.
  destruct id as [| |o|p o]; [done|done|..]; cbn [global_free_heads global_free_lens per_cpu].
  - split; destruct (replicate _ _ !! o) eqn:Ho; try done;
      by apply lookup_replicate_1 in Ho as [-> _].
  - destruct (replicate _ _ !! p) as [q|] eqn:Hp; [|done].
    apply lookup_replicate_1 in Hp as [-> _]. by do 6 (destruct o as [|o]; [done|]).
Qed.

Lemma empty_lists : lists_ok c b ghost_empty.
Proof.
  split.
  - intros id. simpl. destruct (is_unused id) eqn:Hid.
    + destruct id; try done. pose proof (pool_init_chain (c_nodes c) 0 eq_refl) as Hch.
      assert (head_of b LUnused = if decide (0 < c_nodes c)%nat then Some 0%nat else None) as ->;
        [|exact Hch]. subst b. simpl. unfold pool_init. simpl. by repeat case_decide; try lia.
    + unfold chain. simpl. apply empty_head_len. by intros ->.
  - intros id. simpl. destruct (is_unused id) eqn:Hid.
    + rewrite length_seq. destruct id; try done. by subst b.
    + apply empty_head_len. by intros ->.
  - intros id. simpl. destruct (is_unused id); [apply NoDup_seq|constructor].
  - intros id i. simpl. destruct (is_unused id) eqn:Hid.
    + destruct id; try done. rewrite elem_of_seq. split; [intros; split; [lia|done]|lia].
    + split; [set_solver|]. intros [_ [= <-]]. done.
Qed.

Lemma empty_shape : shape c b.
Proof.
  subst b. split; try done; simpl.
  - by rewrite length_imap, length_replicate.
  - by rewrite length_replicate.
  - apply Forall_replicate. done.
Qed.

Lemma sum_lens_zero n : ∀ k, sum_lens k (replicate n 0%nat) = 0.
Proof. induction n as [|n IH]; intros k; simpl; [done|]. rewrite IH. lia. Qed.

Lemma empty_free_pages : free_pages b = 0.
Proof.
  subst b. unfold free_pages, empty_allocator.
  cbn [global_free_lens max_order per_cpu cpu_count].
  rewrite take_replicate, sum_lens_zero, take_replicate.
  induction (c_cpus c `min` MAX_CPUS)%nat as [|k IH]; [done|]. simpl in *. exact IH.
Qed.

Lemma empty_inv :
  c_total c = range_sum (c_ranges c) →
  Inv c b (c_nodes c) (λ _ _, 0%nat) [] ∅ (range_blocks (c_max c) (c_ranges c)).
Proof.
  intros Ht.
  assert (Forall (λ e : Z * Z, 0 <= e.2) (c_ranges c)) as Hnn.
  { destruct (co_sep _ Hc) as [Hf _]. eapply Forall_impl; [exact Hf|]. intros e (?&?&?). lia. }
  exists ghost_empty. split; [|split; [|split]].
  - split; auto using empty_shape, empty_lists.
    + intros i id n _ [= <-]. done.
    + intros o. constructor.
    + intros i Hi. simpl. split; [done|]. rewrite lookup_empty. by intros [].
    + intros i n. by rewrite lookup_empty.
    + apply range_blocks_ok.
    + intros g. rewrite range_blocks_mass by done.
      assert (∀ k, nsum (listed_mass g b ghost_empty) k = 0) as ->; [|done].
      induction k as [|k IH]; simpl; [done|]. rewrite IH. done.
    + rewrite empty_free_pages, range_blocks_pages by done. simpl. lia.
  - by subst b.
  - intros p o. by apply empty_head_len.
  - done.
Qed.
End empty.

(** ** [init_from_usable_ranges] and [bootstrap] *)

Lemma range_sum_pos_covered l : separated l → range_sum l ≠ 0 ↔ ∃ f, covered l f.
Proof.
  intros Hsep. destruct l as [|e l]; simpl.
  - split; [done|]. by intros [f []%covered_nil].
  - destruct (separated_cons e l) as [Hs _]. destruct (Hs Hsep) as ((?&?&?) & [Hf _] & _).
    split.
    + intros _. exists e.1, e. split; [left|]. unfold in_range. lia.
    + intros _. assert (0 <= range_sum l); [|lia]. apply range_sum_nonneg.
      eapply Forall_impl; [exact Hf|]. intros x (?&?&?). lia.
Qed.

Lemma bounded_frames_ends l : separated l → bounded_frames l → ∀ e, e ∈ l → e.1 + e.2 <= 2 ^ 52.
Proof.
  intros [Hf _] Hb e He. rewrite Forall_forall in Hf. destruct (Hf e He) as (?&?&?).
  assert (covered l (e.1 + e.2 - 1)) as Hcov%Hb by (exists e; unfold in_range; split; [done|lia]).
  lia.
Qed.

(** Why the construction from ranges may fail. *)
Definition init_error (MAX_CPUS cpus : nat) (l : list (Z * Z)) (e : FrameAllocError) : Prop :=
  match e with
  | InvalidCount => (cpus = 0 ∨ MAX_CPUS < cpus)%nat
  | InvalidMemoryMap => ∀ f, ¬ covered l f
  | MetadataExhausted => True
  | _ => False
  end.

Lemma init_from_usable_ranges_spec MAX_CPUS MAX_BLOCK_NODES ranges cpus :
  wf_ranges ranges → bounded_frames (as_slice ranges) →
  match init_from_usable_ranges MAX_CPUS MAX_BLOCK_NODES ranges cpus with
  | Ok b => ∃ c u, Inv c b u (λ _ _, 0%nat) [] ∅ [] ∧ c_ranges c = as_slice ranges ∧
      c_cpus c = cpus ∧ c_total c = range_sum (as_slice ranges)
  | Err e => init_error MAX_CPUS cpus (as_slice ranges) e
  | _ => False
  end.
Proof.
  intros Hwf Hbd. pose proof (wr_sep _ Hwf) as Hsep.
  pose proof (bounded_frames_ends _ Hsep Hbd) as Hends.
  unfold init_from_usable_ranges. case_decide as Hcpu; [done|].
  rewrite range_total_frames_spec by done.
  pose proof (range_sum_pos_covered _ Hsep) as Hpos.
  case_decide as Hz.
  { simpl. intros f Hf. apply Hpos; [by exists f|done]. }
  destruct (range_sum_bound (as_slice ranges) (2 ^ 52)) as [Hlo Hhi]; [done|lia|done|].
  set (total := range_sum (as_slice ranges)) in *.
  assert (floor_log2 total < MAX_ORDER_SLOTS)%nat as Hmo.
  { rewrite floor_log2_eq by lia. pose proof (Z.log2_le_mono total (2 ^ 52)) as Hlog.
    rewrite Z.log2_pow2 in Hlog by lia. unfold MAX_ORDER_SLOTS. lia. }
  rewrite decide_False by lia.
  set (c := mkCfg total (floor_log2 total) cpus (as_slice ranges) MAX_BLOCK_NODES).
  set (b := empty_allocator _ _ _ _ _ _).
  assert (cfg_ok c) as Hc by (split; done).
  pose proof (empty_inv c b MAX_CPUS ranges eq_refl Hc ltac:(simpl; lia) eq_refl eq_refl) as HI.
  assert (wp_res (seed_ranges (as_slice ranges)) b
    (λ _ b', ∃ u, Inv c b' u (λ _ _, 0%nat) [] ∅ []) (λ e _, e = MetadataExhausted)) as Hseed.
  { eapply (seed_ranges_spec c); [rewrite app_nil_r; exact HI| |by eauto|done].
    destruct Hsep as [Hf _]. eapply Forall_impl; [exact Hf|]. intros e (?&?&?). lia. }
  unfold wp_res, wp in Hseed. destruct (seed_ranges _ b) as [[?|?| |] b']; simpl in Hseed; try done.
  - destruct Hseed as [u HIb]. by exists c, u.
  - by subst.
Qed.

Lemma collect_usable_ranges_wf m r (Q : unit → RangeList → Prop) (Qe : FrameAllocError → RangeList → Prop) :
  Forall region_ok m →
  (∀ r', wf_ranges r' → bounded_frames (as_slice r') →
     (∀ f, covered (as_slice r') f ↔ usable_frame m f) → Q () r') →
  (∀ e r', collect_error m (λ _, False) (length (entries r) < length m)%nat e → Qe e r') →
  wp_res (collect_usable_ranges m) r Q Qe.
Proof.
  intros Hok HQ HE. unfold collect_usable_ranges. wp_run.
  assert (as_slice (RangeList_clear r) = []) as Hnil by done.
  eapply wp_res_mono; [apply collect_loop_spec; [split; [simpl; lia|]|done|]| |].
  - rewrite Hnil. split; constructor.
  - rewrite Hnil. by intros f []%covered_nil.
  - intros [] r' (Hwf & _ & Hbd & Hcov). rewrite Hnil in Hcov. apply HQ; [done|done|].
    intros f. rewrite Hcov. split; [intros [[]%covered_nil|?]; done|auto].
  - intros e r' He. apply HE. rewrite Hnil in He. eapply collect_error_weaken; [|exact He].
    apply covered_nil.
Qed.

Lemma bootstrap_spec MAX_USABLE_RANGES MAX_CPUS MAX_BLOCK_NODES m cpus :
  Forall region_ok m →
  match bootstrap MAX_USABLE_RANGES MAX_CPUS MAX_BLOCK_NODES m cpus with
  | Ok b => ∃ c u, Inv c b u (λ _ _, 0%nat) [] ∅ [] ∧ c_cpus c = cpus ∧
      (∀ f, covered (c_ranges c) f ↔ usable_frame m f) ∧ c_total c = range_sum (c_ranges c)
  | Err e =>
      collect_error m (λ _, False) (MAX_USABLE_RANGES < length m)%nat e ∨
      match e with
      | InvalidCount => (cpus = 0 ∨ MAX_CPUS < cpus)%nat
      | InvalidMemoryMap => ∀ f, ¬ usable_frame m f
      | MetadataExhausted => True
      | _ => False
      end
  | _ => False
  end.
Proof.
  intros Hok. unfold bootstrap. case_decide as Hcpu; [by right|].
  assert (wp_res (collect_usable_ranges m) (RangeList_new MAX_USABLE_RANGES)
    (λ _ r', wf_ranges r' ∧ bounded_frames (as_slice r') ∧
       (∀ f, covered (as_slice r') f ↔ usable_frame m f))
    (λ e _, collect_error m (λ _, False) (MAX_USABLE_RANGES < length m)%nat e)) as Hcol.
  { apply collect_usable_ranges_wf; [done|auto|].
    intros e r'. simpl. by rewrite length_replicate. }
  unfold wp_res, wp in Hcol.
  destruct (collect_usable_ranges m _) as [[?|?| |] r']; simpl in Hcol; try done; [|by left].
  destruct Hcol as (Hwf & Hbd & Hcov).
  pose proof (init_from_usable_ranges_spec MAX_CPUS MAX_BLOCK_NODES r' cpus Hwf Hbd) as Hinit.
  destruct (init_from_usable_ranges _ _ _ _) as [b|e| |]; [| |done..].
  - destruct Hinit as (c & u & HI & Hr & Hcp & Ht). exists c, u. rewrite Hr. by rewrite <- Ht.
  - right. destruct e; simpl in *; try done. intros f. rewrite <- Hcov. apply Hinit.
Qed.
