(* ===== verification/BuddySpec.v ===== *)
(** * What the buddy allocator promises

    The client's view of an allocator is the finite map from the first frame
    of each allocated block to its order and reference count.  [Rep] relates
    the map to the linked-list state of the code; each public operation of
    [aether-frame/src/mm/buddy.rs] is proved to be a small step on the map,
    on every branch and without panic or exhausted loop, and [bootstrap] to
    establish the empty map over the usable memory. *)

From S2P Require Import Prelude Frame LinkedList RangeList Buddy BuddyInv BuddyLists BuddyProof BuddyBoot.

(** ** The abstract state *)

Abbreviation allocs := (gmap Z (nat * Z)).

Definition alloc_entry (a : Z * nat * Z) : Z * (nat * Z) := (a.1.1, (a.1.2, a.2)).
Definition alloc_map (al : list (Z * nat * Z)) : allocs := list_to_map (alloc_entry <$> al).

(** The allocator [b], configured by [c], is at rest and has allocated [m]. *)
Definition Rep (c : cfg) (b : BuddyAllocator) (m : allocs) : Prop :=
  ∃ u cl al, Inv c b u cl al ∅ [] ∧ caches_bounded cl ∧ m = alloc_map al.

(** The frames of a block. *)
Definition block_frames (s : Z) (o : nat) (f : Z) : Prop := in_range (s, block_size o) f.

Definition allocated_pages (m : allocs) : Z :=
  map_fold (λ _ v acc, block_size v.1 + acc) 0 m.

Lemma Rep_intro c b u cl al :
  Inv c b u cl al ∅ [] → caches_bounded cl → Rep c b (alloc_map al).
Proof. intros HI Hcb. by exists u, cl, al. Qed.

Definition lens_bounded (b : BuddyAllocator) : Prop :=
  caches_bounded (λ p o, len_of b (LCpu p o)).

Lemma Rep_caches c b m : Rep c b m → lens_bounded b.
Proof. intros (u & cl & al & (G & _ & _ & Hcl & _) & Hcb & _) p o. by rewrite Hcl. Qed.

(** ** From the allocation list to the map *)

Lemma starts_entries b l : starts b l = (alloc_entry <$> (pay_at b <$> l)).*1.
Proof. unfold starts. rewrite <- !list_fmap_compose. done. Qed.

Lemma block_first s o : block_frames s o s.
Proof. unfold block_frames, in_range. simpl. pose proof (block_size_pos o). lia. Qed.

Section rep.
Context {c : cfg} {b : BuddyAllocator} {G : ghost} {hand : gmap nat BlockNode}
  {loose : list block} (Hinv : inv c b G hand loose).

Lemma alloc_starts_nodup : NoDup (starts b (gl G LAlloc)).
Proof.
  apply NoDup_fmap_2_strong; [|apply (l_nodup (i_lists Hinv))].
  intros i j Hi Hj Heq. destruct (decide (i = j)) as [->|Hne]; [done|exfalso].
  destruct (inv_list_node Hinv _ i Hi) as (n & Hn & _ & Hw).
  destruct (inv_list_node Hinv _ j Hj) as (m & Hm & _ & Hw').
  rewrite (pay_at_node b i n Hn), (pay_at_node b j m Hm) in Heq. simpl in Heq.
  eapply (inv_listed_disjoint Hinv (bn_start n) i j n m); try done; [apply block_first|].
  rewrite Heq. apply block_first.
Qed.

Lemma alloc_map_lookup s v :
  alloc_map (pay_at b <$> gl G LAlloc) !! s = Some v ↔
  ∃ i n, i ∈ gl G LAlloc ∧ ns b !! i = Some n ∧ pay n = (s, v.1, v.2).
Proof.
  pose proof alloc_starts_nodup as Hnd. rewrite starts_entries in Hnd. unfold alloc_map.
  rewrite <- (elem_of_list_to_map (M:=gmap Z) _ s v Hnd), <- list_fmap_compose, list_elem_of_fmap.
  split.
  - intros (i & Heq & Hi). destruct (inv_list_node Hinv _ i Hi) as (n & Hn & _).
    exists i, n. split; [done|]. split; [done|]. simpl in Heq.
    rewrite (pay_at_node b i n Hn) in Heq. unfold alloc_entry in Heq. by simplify_eq/=.
  - intros (i & n & Hi & Hn & Hp). exists i. split; [|done]. simpl.
    rewrite (pay_at_node b i n Hn), Hp. by destruct v.
Qed.

Lemma alloc_map_None s :
  s ∉ starts b (gl G LAlloc) ↔ alloc_map (pay_at b <$> gl G LAlloc) !! s = None.
Proof.
  unfold alloc_map. rewrite starts_entries. apply not_elem_of_list_to_map.
Qed.
End rep.

Lemma alloc_map_cons a al : alloc_map (a :: al) = <[a.1.1 := (a.1.2, a.2)]> (alloc_map al).
Proof. done. Qed.

Lemma alloc_map_middle l1 a l2 :
  NoDup ((alloc_entry <$> l1 ++ a :: l2).*1) →
  alloc_map (l1 ++ a :: l2) = <[a.1.1 := (a.1.2, a.2)]> (alloc_map (l1 ++ l2)) ∧
  alloc_map (l1 ++ l2) !! a.1.1 = None.
Proof.
  intros Hnd. split.
  - rewrite <- alloc_map_cons. unfold alloc_map. apply list_to_map_proper; [done|].
    apply fmap_Permutation. by rewrite Permutation_middle.
  - unfold alloc_map. apply not_elem_of_list_to_map_1. revert Hnd.
    rewrite <- Permutation_middle. simpl. by intros [? _]%NoDup_cons.
Qed.

Lemma allocated_pages_insert m s v :
  m !! s = None → allocated_pages (<[s:=v]> m) = block_size v.1 + allocated_pages m.
Proof.
  intros Hm. unfold allocated_pages. rewrite map_fold_insert_L; [done| |done]. intros. lia.
Qed.

Lemma alloc_pages_map al :
  NoDup ((alloc_entry <$> al).*1) → allocated_pages (alloc_map al) = alloc_pages al.
Proof.
  induction al as [|a al IH]; intros Hnd; [done|]. apply NoDup_cons in Hnd as [Hni Hnd].
  rewrite alloc_map_cons, allocated_pages_insert, IH; [done|done|].
  by apply not_elem_of_list_to_map_1.
Qed.

(** ** Consequences of [Rep] *)

Lemma Rep_block c b m s o rc :
  Rep c b m → m !! s = Some (o, rc) → block_ok c (s, o) ∧ 1 <= rc <= u32_max.
Proof.
  intros (u & cl & al & (G & Hinv & _ & _ & ->) & _ & ->) Hm.
  apply (alloc_map_lookup Hinv) in Hm as (i & n & Hi & Hn & Hp).
  destruct (inv_list_node Hinv _ i Hi) as (n' & Hn' & Hok & _).
  assert (n' = n) as -> by congruence. unfold pay in Hp. simplify_eq/=. done.
Qed.

Lemma Rep_disjoint c b m s o rc s' o' rc' f :
  Rep c b m → m !! s = Some (o, rc) → m !! s' = Some (o', rc') → s ≠ s' →
  block_frames s o f → ¬ block_frames s' o' f.
Proof.
  intros (u & cl & al & (G & Hinv & _ & _ & ->) & _ & ->) Hm Hm' Hne.
  apply (alloc_map_lookup Hinv) in Hm as (i & n & Hi & Hn & Hp).
  apply (alloc_map_lookup Hinv) in Hm' as (j & n' & Hj & Hn' & Hp').
  apply (l_mem (i_lists Hinv)) in Hi as [_ Hi], Hj as [_ Hj].
  unfold pay in *. simplify_eq/=.
  eapply (inv_listed_disjoint Hinv f i j n n'); try done. intros <-. congruence.
Qed.

Lemma Rep_pages c b m : Rep c b m → free_pages b + allocated_pages m = total_frames b.
Proof.
  intros (u & cl & al & (G & Hinv & _ & _ & ->) & _ & ->).
  rewrite alloc_pages_map; [|rewrite <- starts_entries; by eapply alloc_starts_nodup].
  pose proof (i_pages Hinv) as Hp. simpl in Hp.
  rewrite (sh_total _ _ (i_shape Hinv)). lia.
Qed.

Lemma Rep_cfg c b m : Rep c b m → cfg_ok c ∧ shape c b.
Proof. intros (u & cl & al & HI & _). by eapply Inv_cfg. Qed.

(** ** Searching the allocation list *)

Lemma find_Rep c b G s (Q : option nat → BuddyAllocator → Prop) Qe :
  inv c b G ∅ [] →
  (∀ l1 i l2 n, gl G LAlloc = l1 ++ i :: l2 → ns b !! i = Some n → bn_start n = s →
     alloc_map (pay_at b <$> gl G LAlloc) !! s = Some (bn_order n, bn_refcount n) → Q (Some i) b) →
  (alloc_map (pay_at b <$> gl G LAlloc) !! s = None → Q None b) →
  wp_res (find_allocation_index s) b Q Qe.
Proof.
  intros Hinv HQ Hnone. eapply find_allocation_index_spec; [exact Hinv| |].
  - intros l1 i l2 n Hl Hn Hs. eapply HQ; [done..|].
    apply (alloc_map_lookup Hinv). exists i, n. rewrite Hl. unfold pay. rewrite Hs. set_solver.
  - intros Hni. by apply Hnone, (alloc_map_None).
Qed.

Section alloc_list.
Context {c : cfg} {b : BuddyAllocator} {G : ghost} (Hinv : inv c b G ∅ []).
Context {l1 : list nat} {i : nat} {l2 : list nat} {n : BlockNode}
  (Hl : gl G LAlloc = l1 ++ i :: l2) (Hn : ns b !! i = Some n).

Let m := alloc_map (pay_at b <$> gl G LAlloc).

Lemma alloc_map_here :
  m = <[bn_start n := (bn_order n, bn_refcount n)]>
        (alloc_map ((pay_at b <$> l1) ++ (pay_at b <$> l2))) ∧
  alloc_map ((pay_at b <$> l1) ++ (pay_at b <$> l2)) !! bn_start n = None.
Proof.
  pose proof (alloc_starts_nodup Hinv) as Hnd. rewrite starts_entries in Hnd.
  unfold m. rewrite Hl, fmap_app, fmap_cons, (pay_at_node b i n Hn) in *.
  apply (alloc_map_middle _ (pay n) _ Hnd).
Qed.

Lemma Rep_set_refcount rc :
  lens_bounded b → 1 <= rc <= u32_max →
  Rep c (upd_node b i (mkNode (bn_start n) (bn_order n) rc (bn_next n)))
      (<[bn_start n := (bn_order n, rc)]> m).
Proof.
  intros Hcb Hrc.
  eexists _, (λ p o, len_of b (LCpu p o)), _. split; [|split; [exact Hcb|]].
  { eapply (set_alloc_refcount_Inv c b G); [done..|exact Hl|exact Hn|exact Hrc]. }
  rewrite (proj1 alloc_map_here), insert_insert_eq.
  symmetry. apply (alloc_map_middle _ (bn_start n, bn_order n, rc)).
  pose proof (alloc_starts_nodup Hinv) as Hnd. rewrite starts_entries in Hnd.
  rewrite Hl, !fmap_app, !fmap_cons, (pay_at_node b i n Hn) in Hnd.
  by rewrite !fmap_app, !fmap_cons.
Qed.

(** The state after the node left the allocation list. *)
Lemma alloc_map_delete :
  alloc_map ((pay_at b <$> l1) ++ (pay_at b <$> l2)) = delete (bn_start n) m.
Proof. destruct alloc_map_here as [-> Hnone]. by rewrite delete_insert_id. Qed.
End alloc_list.

(** ** Addresses *)

Lemma frame_number_ok a :
  a mod 4096 = 0 → frame_number_from_addr a = Ok (a / 4096).
Proof.
  intros Ha. unfold frame_number_from_addr, PAGE_SHIFT.
  rewrite PAGE_SIZE_eq, (land_pow2_mask _ 12) by lia.
  rewrite decide_False by (intros []; done). by rewrite Z.shiftr_div_pow2.
Qed.

Lemma frame_number_err a :
  a mod 4096 ≠ 0 → frame_number_from_addr a = Err InvalidFrame.
Proof.
  intros Ha. unfold frame_number_from_addr, PAGE_SHIFT.
  rewrite PAGE_SIZE_eq, (land_pow2_mask _ 12) by lia. by rewrite decide_True.
Qed.

Lemma wp_lift {A} (r : outcome FrameAllocError A) b (Q : A → BuddyAllocator → Prop) Qe :
  match r with Ok a => Q a b | Err e => Qe e b | _ => False end → wp_res (lift r) b Q Qe.
Proof. done. Qed.

Lemma wp_frame_number a b (Q : Z → BuddyAllocator → Prop) (Qe : FrameAllocError → BuddyAllocator → Prop) :
  (a mod 4096 = 0 → Q (a / 4096) b) → (a mod 4096 ≠ 0 → Qe InvalidFrame b) →
  wp_res (lift (frame_number_from_addr a)) b Q Qe.
Proof.
  intros HQ HE. apply wp_lift. destruct (decide (a mod 4096 = 0)).
  - rewrite frame_number_ok by done. auto.
  - rewrite frame_number_err by done. auto.
Qed.

(** ** Orders *)

Lemma ceil_log2_up v : 1 <= v → ceil_log2 v = Z.to_nat (Z.log2_up v).
Proof.
  intros Hv. unfold ceil_log2, leading_zeros. destruct (Z.leb_spec v 1).
  { by replace v with 1 by lia. }
  destruct (Z.eqb_spec (v - 1) 0); [lia|].
  rewrite Z.log2_up_eqn by lia. rewrite Z.sub_1_r. f_equal. lia.
Qed.

(** The order chosen for a request is the smallest that holds it. *)
Lemma ceil_log2_spec v :
  1 <= v → v <= block_size (ceil_log2 v) ∧ ∀ o, v <= block_size o → (ceil_log2 v <= o)%nat.
Proof.
  intros Hv. rewrite ceil_log2_up by done. split.
  - rewrite block_size_pow, Z2Nat.id by apply Z.log2_up_nonneg.
    apply Z.log2_log2_up_spec. lia.
  - intros o Ho. rewrite block_size_pow in Ho.
    apply Z.log2_up_le_pow2 in Ho; [|lia]. lia.
Qed.

Lemma order_for_count_ok v mo :
  1 <= v → (ceil_log2 v <= mo)%nat → order_for_count v mo = Ok (ceil_log2 v).
Proof.
  intros Hv Ho. unfold order_for_count. rewrite decide_False by lia. simpl.
  by rewrite decide_False by lia.
Qed.

Lemma wp_order_for_count v mo b (Q : nat → BuddyAllocator → Prop) (Qe : FrameAllocError → BuddyAllocator → Prop) :
  (v ≠ 0 → (ceil_log2 v <= mo)%nat → Q (ceil_log2 v) b) →
  (v = 0 ∨ (mo < ceil_log2 v)%nat → Qe InvalidCount b) →
  wp_res (lift (order_for_count v mo)) b Q Qe.
Proof.
  intros HQ HE. apply wp_lift. unfold order_for_count.
  case_decide; [auto|]. simpl. case_decide; [auto|]. apply HQ; lia.
Qed.

(** ** Allocation *)

(** Why an allocation of [count] frames on [cpu] may fail. *)
Definition alloc_failure (c : cfg) (b : BuddyAllocator) (cpu : nat) (count : Z)
    (e : FrameAllocError) (b' : BuddyAllocator) : Prop :=
  let o := ceil_log2 count in
  match e with
  | InvalidCount => b' = b ∧ (count = 0 ∨ (c_max c < o)%nat)
  | InvalidCpu => b' = b ∧ (c_cpus c <= cpu)%nat
  | OutOfMemory => b' = b ∧ global_exhausted c b o ∧
                   ((o <= PER_CPU_CACHE_MAX_ORDER)%nat → len_of b (LCpu cpu o) = 0%nat)
  | MetadataExhausted => (unused_len (nodes b') < c_max c - o)%nat
  | _ => False
  end.

(** The block [s, s + 2^o) is usable, aligned and overlaps no allocation. *)
Definition fresh_block (c : cfg) (m : allocs) (s : Z) (o : nat) : Prop :=
  block_ok c (s, o) ∧ m !! s = None ∧
  ∀ s' o' rc' f, m !! s' = Some (o', rc') → block_frames s' o' f → ¬ block_frames s o f.

Lemma Inv_loose_fresh c b u cl al hand loose s o :
  Inv c b u cl al hand ((s, o) :: loose) → fresh_block c (alloc_map al) s o.
Proof.
  intros (G & Hinv & _ & _ & ->). pose proof (i_loose Hinv) as [Hok _]%Forall_cons_1.
  assert (∀ s' o' rc' f, alloc_map (pay_at b <$> gl G LAlloc) !! s' = Some (o', rc') →
    block_frames s' o' f → ¬ block_frames s o f) as Hdis.
  { intros s' o' rc' f Hm Hf. apply (alloc_map_lookup Hinv) in Hm as (i & n & Hi & Hn & Hp).
    apply (l_mem (i_lists Hinv)) in Hi as [_ Hi]. unfold pay in Hp. simplify_eq/=.
    eapply (inv_listed_loose_disjoint Hinv f i n LAlloc (s, o)); try done. left. }
  split; [done|]. split; [|done].
  destruct (alloc_map _ !! s) as [[o' rc']|] eqn:Hm; [|done].
  exfalso. eapply (Hdis s o' rc' s Hm); apply block_first.
Qed.

Lemma page_shift_addr s : Z.shiftl s PAGE_SHIFT = s * 4096.
Proof. unfold PAGE_SHIFT. by rewrite Z.shiftl_mul_pow2. Qed.

Lemma alloc_frame_spec c b m cpu count (Q : Z → BuddyAllocator → Prop)
    (Qe : FrameAllocError → BuddyAllocator → Prop) :
  Rep c b m →
  (∀ s b', count ≠ 0 → fresh_block c m s (ceil_log2 count) →
     Rep c b' (<[s := (ceil_log2 count, 1)]> m) → Q (s * 4096) b') →
  (∀ e b', Rep c b' m → alloc_failure c b cpu count e b' → Qe e b') →
  wp_res (alloc_frame_4k_on_cpu cpu count) b Q Qe.
Proof.
  intros HR HQ HE. pose proof HR as (u & cl & al & HI & Hcb & Hm). 
  destruct (Inv_cfg _ _ _ _ _ _ _ HI) as [Hc Hsh].
  unfold alloc_frame_4k_on_cpu. wp_run. rewrite (sh_max _ _ Hsh).
  apply wp_order_for_count; [|intros ?; by apply HE].
  intros Hnz Ho. wp_run. eapply alloc_block_spec; [exact HI|done|done|..].
  - intros Hp. by apply HE.
  - intros i n b' u' cl' Hon Hrc Hp Hcb' HI'. wp_run.
    eapply mark_allocated_spec; [exact HI'|apply lookup_singleton_eq|done|].
    intros b2 HI2. wp_run. rewrite page_shift_addr. rewrite delete_singleton_eq in HI2.
    apply HQ; [done| |].
    + rewrite Hm. by eapply Inv_loose_fresh.
    + rewrite Hm. by eapply (Rep_intro c b2 _ _ ((bn_start n, ceil_log2 count, 1) :: al)).
  - intros Hcl Hp Hex. apply HE; [done|]. unfold alloc_failure. split; [done|]. split; [done|].
    intros Hle. destruct HI as (G & _ & _ & Hlen & _). rewrite Hlen. auto.
  - intros b' u' cl' Hp Hcb' HI' Hu. apply HE; [rewrite Hm; by eapply Rep_intro|done].
Qed.

(** ** Reference counts *)

Lemma retain_frame_spec c b m a (Q : Z → BuddyAllocator → Prop)
    (Qe : FrameAllocError → BuddyAllocator → Prop) :
  Rep c b m →
  (∀ o rc b', a mod 4096 = 0 → m !! (a / 4096) = Some (o, rc) → rc < u32_max →
     Rep c b' (<[a / 4096 := (o, rc + 1)]> m) → Q (rc + 1) b') →
  (a mod 4096 ≠ 0 ∨ m !! (a / 4096) = None → Qe InvalidFrame b) →
  (∀ o, a mod 4096 = 0 → m !! (a / 4096) = Some (o, u32_max) → Qe RefCountOverflow b) →
  wp_res (retain_frame a) b Q Qe.
Proof.
  intros HR HQ Hinval Hover. pose proof HR as (u & cl & al & (G & Hinv & Hu & Hcl & ->) & Hcb & ->).
  unfold retain_frame. wp_run. apply wp_frame_number; [intros Ha|auto]. wp_run.
  eapply find_Rep; [exact Hinv| |intros ?; wp_run; auto].
  intros l1 i l2 n Hl Hn Hs Hm. destruct (Rep_block _ _ _ _ _ _ HR Hm) as [_ Hrc].
  wp_run. eapply wp_node_at; [exact Hn|]. wp_run.
  destruct (decide (bn_refcount n < u32_max)).
  - rewrite checked_add_Some by lia. wp_run. eapply wp_set_refcount; [exact Hn|]. wp_run.
    eapply HQ; [done|exact Hm|done|]. rewrite <- Hs.
    apply (Rep_set_refcount Hinv Hl Hn); [by eapply Rep_caches|lia].
  - rewrite checked_add_None by lia. wp_run.
    assert (bn_refcount n = u32_max) as Hmx by lia. rewrite Hmx in Hm. eauto.
Qed.

(** Dropping one reference: the count is decremented, and the block of the
    last reference is deallocated. *)
Definition drop_ref (m : allocs) (s : Z) (o : nat) (rc : Z) : allocs :=
  if decide (rc = 1) then delete s m else <[s := (o, rc - 1)]> m.

Lemma free_block_spec c b G cpu l1 i l2 n (Q : unit → BuddyAllocator → Prop) Qe :
  inv c b G ∅ [] → gl G LAlloc = l1 ++ i :: l2 → ns b !! i = Some n → (cpu < c_cpus c)%nat →
  lens_bounded b →
  (∀ b', Rep c b' (delete (bn_start n) (alloc_map (pay_at b <$> gl G LAlloc))) → Q () b') →
  wp_res (n' ← node_at i;
          _ ← remove_allocation_node i;
          if decide (bn_order n' <= PER_CPU_CACHE_MAX_ORDER)%nat then
            _ ← cpu_push cpu (bn_order n') i; drain_per_cpu_cache cpu (bn_order n')
          else free_global_block i)
    (upd_node b i (mkNode (bn_start n) (bn_order n) 0 (bn_next n))) Q Qe.
Proof.
  intros Hinv Hl Hn Hp Hcb HQ. wp_run.
  apply (wp_node_at _ i (mkNode (bn_start n) (bn_order n) 0 (bn_next n))).
  { apply list_lookup_insert_eq. by apply lookup_lt_Some in Hn. }
  wp_run. eapply (remove_allocation_spec c b G _ (λ p o, len_of b (LCpu p o))); [done..|]. cbn [bn_order bn_start].
  intros b1 HI1. wp_run. set (n0 := with_next _ None) in HI1.
  assert (∀ b' u' cl', Inv c b' u' cl' ((pay_at b <$> l1) ++ (pay_at b <$> l2)) ∅ [] →
    caches_bounded cl' → Q () b') as HQ'.
  { intros b' u' cl' HI' Hcb'. apply HQ. rewrite <- (alloc_map_delete Hinv Hl Hn).
    by eapply Rep_intro. }
  case_decide as Ho.
  - wp_run. eapply (cpu_push_spec c _ _ _ _ _ _ _ _ i n0); [exact HI1|apply lookup_insert_eq|done|done|].
    intros b2 HI2. rewrite delete_insert_eq in HI2. eapply drain_per_cpu_cache_spec; [exact HI2|done..|].
    intros b3 u3 cl3 HI3 Hup. eapply HQ'; [exact HI3|].
    eapply (caches_bounded_upd _ _ cpu (bn_order n)); [exact Hcb|done|].
    intros p' o'. etrans; [apply Hup|]. unfold cl_upd. case_decide; lia.
  - eapply (free_global_block_spec c _ _ _ _ _ _ i n0); [exact HI1|apply lookup_insert_eq|].
    intros b2 u2 HI2. rewrite delete_insert_eq in HI2. by eapply HQ'.
Qed.

Lemma free_frame_spec c b m cpu a (Q : unit → BuddyAllocator → Prop)
    (Qe : FrameAllocError → BuddyAllocator → Prop) :
  Rep c b m →
  (∀ o rc b', (cpu < c_cpus c)%nat → a mod 4096 = 0 → m !! (a / 4096) = Some (o, rc) →
     Rep c b' (drop_ref m (a / 4096) o rc) → Q () b') →
  ((c_cpus c <= cpu)%nat → Qe InvalidCpu b) →
  ((cpu < c_cpus c)%nat → a mod 4096 ≠ 0 ∨ m !! (a / 4096) = None → Qe InvalidFrame b) →
  wp_res (free_frame_on_cpu cpu a) b Q Qe.
Proof.
  intros HR HQ Hcpu Hinval. pose proof HR as (u & cl & al & (G & Hinv & Hu & Hcl & ->) & Hcb & ->).
  destruct (Rep_cfg _ _ _ HR) as [_ Hsh].
  unfold free_frame_on_cpu, checked_cpu. wp_run. rewrite (sh_cpus _ _ Hsh).
  case_decide as Hp; wp_run; [|apply Hcpu; lia].
  apply wp_frame_number; [intros Ha|auto]. wp_run.
  eapply find_Rep; [exact Hinv| |intros ?; wp_run; auto].
  intros l1 i l2 n Hl Hn Hs Hm. destruct (Rep_block _ _ _ _ _ _ HR Hm) as [_ Hrc].
  wp_run. eapply wp_node_at; [exact Hn|]. wp_run.
  unfold checked_sub. rewrite bool_decide_eq_true_2 by lia. wp_run.
  eapply wp_set_refcount; [exact Hn|]. unfold drop_ref in HQ.
  destruct (decide (bn_refcount n = 1)) as [H1|H1].
  - rewrite decide_False by lia. replace (bn_refcount n - 1) with 0 by lia.
    eapply free_block_spec; [done..|by eapply Rep_caches|]. intros b' HR'. eapply HQ; [done|done|exact Hm|].
    rewrite decide_True by done. by rewrite <- Hs.
  - rewrite decide_True by lia. wp_run. eapply HQ; [done|done|exact Hm|].
    rewrite decide_False by done. rewrite <- Hs. apply (Rep_set_refcount Hinv Hl Hn); [by eapply Rep_caches|lia].
Qed.

(** ** The [FrameAllocator] implementation *)

Lemma checked_addr_ok f :
  addr_u64 (frame_start f) mod 4096 = 0 →
  checked_addr_from_frame f = Ok (addr_u64 (frame_start f)).
Proof.
  intros Hf. unfold checked_addr_from_frame, start_address.
  by rewrite (proj2 (is_aligned_page _) Hf).
Qed.

Lemma wp_checked_addr f b (Q : Z → BuddyAllocator → Prop)
    (Qe : FrameAllocError → BuddyAllocator → Prop) :
  (∀ s, f = frame_of s → Q (s * 4096) b) → ((∀ s, f ≠ frame_of s) → Qe InvalidFrame b) →
  wp_res (lift (checked_addr_from_frame f)) b Q Qe.
Proof.
  intros HQ HE. apply wp_lift. destruct (decide (addr_u64 (frame_start f) mod 4096 = 0)) as [Hf|Hf].
  - rewrite checked_addr_ok by done. pose proof (frame_of_aligned f Hf) as Heq.
    rewrite Heq at 1. simpl. by apply HQ.
  - unfold checked_addr_from_frame, start_address.
    destruct (is_aligned _ _) eqn:Ha; [by apply is_aligned_page in Ha|]. apply HE.
    intros s ->. apply Hf, frame_of_number.
Qed.

Lemma frame_index_of s : frame_index (frame_of s) = s.
Proof.
  unfold frame_index, frame_of, PAGE_SHIFT. simpl. rewrite Z.shiftr_div_pow2 by lia.
  apply frame_of_number.
Qed.

Lemma alloc_spec c b m cpu recovered count (Q : PhysFrame → BuddyAllocator → Prop)
    (Qe : FrameAllocError → BuddyAllocator → Prop) :
  Rep c b m →
  (∀ s b', count ≠ 0 → fresh_block c m s (ceil_log2 count) →
     Rep c b' (<[s := (ceil_log2 count, 1)]> m) → Q (frame_of s) b') →
  (∀ e b', Rep c b' m → alloc_failure c b cpu count e b' → Qe e b') →
  wp_res (alloc cpu recovered count) b Q Qe.
Proof.
  intros HR HQ HE.
  assert (wp_res (alloc_frame_4k_on_cpu cpu count) b
    (λ addr b', Q (frame_from_addr addr) b')
    (λ e b', Qe e b' ∧ (e = OutOfMemory → b' = b))) as H1.
  { eapply alloc_frame_spec; [done|by auto|]. intros e b' HR' Hf. split; [by apply HE|].
    intros ->. apply Hf. }
  unfold wp_res, wp in *. unfold alloc. unfold mbind, M_bind.
  destruct (alloc_frame_4k_on_cpu cpu count b) as [[addr|e| |] b'] eqn:Hrun; simpl in *; try done.
  destruct H1 as [H1 Hb]. destruct e; try done.
  rewrite (Hb eq_refl) in *. destruct recovered; [|done]. by rewrite Hrun.
Qed.

Lemma retain_spec c b m f (Q : Z → BuddyAllocator → Prop)
    (Qe : FrameAllocError → BuddyAllocator → Prop) :
  Rep c b m →
  (∀ s o rc b', f = frame_of s → m !! s = Some (o, rc) → rc < u32_max →
     Rep c b' (<[s := (o, rc + 1)]> m) → Q (rc + 1) b') →
  ((∀ s v, f = frame_of s → m !! s ≠ Some v) → Qe InvalidFrame b) →
  (∀ s o, f = frame_of s → m !! s = Some (o, u32_max) → Qe RefCountOverflow b) →
  wp_res (retain f) b Q Qe.
Proof.
  intros HR HQ Hi Ho. unfold retain. wp_run. apply wp_checked_addr.
  2:{ intros Hf. apply Hi. intros s v Hs. by destruct (Hf s). }
  intros s ->. destruct (frame_of_number s) as [Hs Hal].
  eapply retain_frame_spec; rewrite ?Hs; [exact HR| | |]; eauto.
  intros [?|Hnone]; [done|]. apply Hi. intros s' v Heq.
  assert (s' = s) as ->; [|congruence]. rewrite <- (frame_index_of s), <- (frame_index_of s').
  by rewrite Heq.
Qed.

Lemma release_spec c b m cpu f count (Q : Z → BuddyAllocator → Prop)
    (Qe : FrameAllocError → BuddyAllocator → Prop) :
  Rep c b m →
  ((c_cpus c <= cpu)%nat → Qe InvalidCpu b) →
  (∀ s rc b', f = frame_of s → count ≠ 0 → m !! s = Some (ceil_log2 count, rc) →
     Rep c b' (drop_ref m s (ceil_log2 count) rc) → Q (rc - 1) b') →
  ((∀ s v, f = frame_of s → m !! s ≠ Some v) → Qe InvalidFrame b) →
  (count = 0 ∨ (c_max c < ceil_log2 count)%nat ∨
   (∃ s o rc, f = frame_of s ∧ m !! s = Some (o, rc) ∧ o ≠ ceil_log2 count) → Qe InvalidCount b) →
  wp_res (release cpu f count) b Q Qe.
Proof.
  intros HR Hcpu HQ Hi Hc. pose proof HR as (u & cl & al & (G & Hinv & _ & _ & Hal) & _ & Hm).
  rewrite Hal in Hm.
  destruct (Rep_cfg _ _ _ HR) as [_ Hsh]. unfold release. wp_run. apply wp_checked_addr.
  2:{ intros Hf. apply Hi. intros s v Hs. by destruct (Hf s). }
  intros s ->. destruct (frame_of_number s) as [Hs Hfal].
  unfold ensure_release_matches_count. wp_run. rewrite (sh_max _ _ Hsh).
  apply wp_order_for_count; [|intros [?|?]; apply Hc; auto]. intros Hnz Ho. wp_run.
  rewrite frame_index_of. eapply find_Rep; [exact Hinv| |]; rewrite <- Hm.
  2:{ intros Hnone. wp_run. apply Hi. intros s' v Heq.
      assert (s' = s) as ->; [|congruence].
      rewrite <- (frame_index_of s), <- (frame_index_of s'). by rewrite Heq. }
  intros l1 i l2 n Hl Hn Hst Hlook. wp_run. eapply wp_node_at; [exact Hn|].
  case_decide as Hod; wp_run; [apply Hc; right; right; eauto 6|].
  apply wp_checked_addr; [|intros Hf; by destruct (Hf s)].
  intros s' Heq. assert (s' = s) as ->.
  { rewrite <- (frame_index_of s), <- (frame_index_of s'). by rewrite Heq. }
  assert (bn_order n = ceil_log2 count) as Hon by (by destruct (decide (bn_order n = ceil_log2 count))).
  rewrite Hon in Hlook. wp_run.
  eapply free_frame_spec; rewrite ?Hs; [exact HR| |done|naive_solver].
  intros o rc b' _ _ Hlook' HR'. rewrite Hlook in Hlook'. simplify_eq.
  destruct (Rep_block _ _ _ _ _ _ HR Hlook) as [_ Hrc].
  rewrite decide_False by lia. wp_run. by eapply HQ.
Qed.

Lemma ref_count_spec c b m f (Q : option Z → BuddyAllocator → Prop) Qe :
  Rep c b m →
  (∀ s o rc, f = frame_of s → m !! s = Some (o, rc) → Q (Some rc) b) →
  ((∀ s v, f = frame_of s → m !! s ≠ Some v) → Q None b) →
  wp_res (ref_count f) b Q Qe.
Proof.
  intros HR HQ Hnone. pose proof HR as (u & cl & al & (G & Hinv & _ & _ & Hal) & _ & Hm).
  rewrite Hal in Hm. unfold ref_count.
  destruct (decide (addr_u64 (frame_start f) mod 4096 = 0)) as [Hf|Hf].
  - rewrite checked_addr_ok by done. pose proof (frame_of_aligned f Hf) as Heq.
    unfold ref_count_for_addr. rewrite frame_number_ok by done. wp_run.
    eapply find_Rep; [exact Hinv| |]; rewrite <- Hm.
    + intros l1 i l2 n Hl Hn Hst Hlook. wp_run. eapply wp_node_at; [exact Hn|]. wp_run. by eapply HQ.
    + intros Hno. wp_run. apply Hnone. intros s v Hs.
      assert (s = addr_u64 (frame_start f) / 4096) as ->; [|congruence].
      rewrite Hs at 1. simpl. by rewrite (proj1 (frame_of_number s)).
  - unfold checked_addr_from_frame, start_address.
    destruct (is_aligned _ _) eqn:Ha; [by apply is_aligned_page in Ha|]. wp_run. apply Hnone.
    intros s v ->. destruct Hf. apply frame_of_number.
Qed.

(** ** The allocator as an instance of the interface *)

Definition lengths (m : allocs) : frame_map := (λ v, (block_size v.1, v.2)) <$> m.

Lemma lengths_lookup m s len rc :
  lengths m !! s = Some (len, rc) ↔ ∃ o, m !! s = Some (o, rc) ∧ len = block_size o.
Proof.
  unfold lengths. rewrite lookup_fmap_Some. split.
  - intros ([o rc'] & [= <- <-] & Hm). by exists o.
  - intros (o & Hm & ->). by exists (o, rc).
Qed.

Lemma block_size_inj o o' : block_size o = block_size o' → o = o'.
Proof. rewrite !block_size_pow. intros H%Z.pow_inj_r; lia. Qed.

Lemma lengths_drop m s o rc : lengths (drop_ref m s o rc) = unref (lengths m) s (block_size o) rc.
Proof.
  unfold drop_ref, unref, lengths. case_decide; [by rewrite fmap_delete|by rewrite fmap_insert].
Qed.

(** The implementation seen by one CPU, and [recovered], the answer of the
    out-of-memory handler. *)
#[export] Instance buddy_allocator (cpu : nat) (recovered : bool) : FrameAllocator BuddyAllocator := {
  fa_alloc := alloc cpu recovered;
  fa_retain := retain;
  fa_release := release cpu;
  fa_ref_count := ref_count;
}.

Definition buddy_rep (c : cfg) (b : BuddyAllocator) (m : frame_map) : Prop :=
  ∃ m', Rep c b m' ∧ m = lengths m'.

Section instance.
Context (c : cfg) (cpu : nat) (recovered : bool) (Hcpu : (cpu < c_cpus c)%nat).

#[local] Existing Instance buddy_allocator.
Let I := buddy_allocator cpu recovered.
Let round (n : Z) : Z := block_size (ceil_log2 n).

Lemma buddy_alloc_law b m n :
  buddy_rep c b m →
  wp_res (fa_alloc (FrameAllocator := I) n) b
    (λ f b', ∃ s, f = frame_of s ∧ n ≠ 0 ∧ m !! s = None ∧ buddy_rep c b' (<[s := (round n, 1)]> m))
    (λ _ b', buddy_rep c b' m).
Proof.
  intros (m' & HR & ->). simpl. eapply alloc_spec; [exact HR| |].
  - intros s b' Hn (_ & Hnone & _) HR'. exists s. split; [done|]. split; [done|]. split.
    + unfold lengths. by rewrite lookup_fmap, Hnone.
    + eexists. split; [exact HR'|]. unfold lengths. by rewrite fmap_insert.
  - intros e b' HR' _. by exists m'.
Qed.

Lemma buddy_retain_law b m f :
  buddy_rep c b m →
  wp_res (fa_retain (FrameAllocator := I) f) b
    (λ r b', ∃ s len rc, f = frame_of s ∧ m !! s = Some (len, rc) ∧ r = rc + 1 ∧
               buddy_rep c b' (<[s := (len, rc + 1)]> m))
    (λ _ b', b' = b).
Proof.
  intros (m' & HR & ->). simpl. eapply retain_spec; [exact HR| |done|done].
  intros s o rc b' -> Hm _ HR'. exists s, (block_size o), rc. split; [done|]. split.
  - apply lengths_lookup. eauto.
  - split; [done|]. eexists. split; [exact HR'|]. unfold lengths. by rewrite fmap_insert.
Qed.

Lemma buddy_release_law b m f n :
  buddy_rep c b m →
  wp_res (fa_release (FrameAllocator := I) f n) b
    (λ r b', ∃ s rc, f = frame_of s ∧ m !! s = Some (round n, rc) ∧ r = rc - 1 ∧
               buddy_rep c b' (unref m s (round n) rc))
    (λ _ b', b' = b ∧ ∀ s rc, f = frame_of s → 1 <= n → m !! s ≠ Some (round n, rc)).
Proof.
  intros (m' & HR & ->). simpl. eapply release_spec; [exact HR|lia|..].
  - intros s rc b' -> Hn Hm HR'. exists s, rc. split; [done|]. split.
    + apply lengths_lookup. eauto.
    + split; [done|]. eexists. split; [exact HR'|]. symmetry. apply lengths_drop.
  - intros Hno. split; [done|]. intros s rc Hf _ (o & Hm & _)%lengths_lookup. by eapply Hno.
  - intros Hbad. split; [done|]. intros s rc -> Hn (o & Hm & Ho)%lengths_lookup.
    apply block_size_inj in Ho as <-.
    destruct Hbad as [->|[Hmax|(s' & o' & rc' & Heq & Hm' & Hne)]]; [lia| |].
    + destruct (Rep_block _ _ _ _ _ _ HR Hm) as [(Ho & _) _]. simpl in Ho. lia.
    + assert (s' = s) as ->; [|congruence].
      rewrite <- (frame_index_of s), <- (frame_index_of s'). by rewrite Heq.
Qed.

Lemma buddy_ref_count_law b m f :
  buddy_rep c b m →
  wp_res (fa_ref_count (FrameAllocator := I) f) b
    (λ r b', b' = b ∧ ∀ rc, r = Some rc ↔ ∃ s len, f = frame_of s ∧ m !! s = Some (len, rc))
    (λ _ _, False).
Proof.
  intros (m' & HR & ->). simpl. eapply ref_count_spec; [exact HR|..].
  - intros s o rc -> Hm. split; [done|]. intros rc'. split.
    + intros [= <-]. exists s, (block_size o). split; [done|]. apply lengths_lookup. eauto.
    + intros (s' & len & Heq & (o' & Hm' & _)%lengths_lookup).
      assert (s' = s) as ->; [|congruence].
      rewrite <- (frame_index_of s), <- (frame_index_of s'). by rewrite Heq.
  - intros Hno. split; [done|]. intros rc. split; [done|].
    intros (s & len & -> & (o & Hm & _)%lengths_lookup). by destruct (Hno s (o, rc)).
Qed.

Lemma buddy_satisfies_spec :
  @FrameAllocatorSpec BuddyAllocator I (buddy_rep c) (covered (c_ranges c)) round.
Proof.
  split; auto using buddy_alloc_law, buddy_retain_law, buddy_release_law, buddy_ref_count_law.
  - intros n Hn. by apply ceil_log2_spec.
  - intros b m s len rc f (m' & HR & ->) (o & Hm & ->)%lengths_lookup Hf.
    destruct (Rep_block _ _ _ _ _ _ HR Hm) as [(_ & _ & e & He & Hlo & Hhi) _]. simpl in *.
    exists e. split; [done|]. unfold in_range. lia.
  - intros b m s len rc (m' & HR & ->) (o & Hm & ->)%lengths_lookup.
    destruct (Rep_block _ _ _ _ _ _ HR Hm) as [_ ?]. pose proof (block_size_pos o). lia.
  - intros b m s len rc s' len' rc' f (m' & HR & ->) (o & Hm & ->)%lengths_lookup
      (o' & Hm' & ->)%lengths_lookup Hne Hf.
    eapply (Rep_disjoint c b m' s o rc s' o' rc' f); done.
Qed.
End instance.
