(* ===== verification/BuddyTheorems.v ===== *)
(** * Theorems about the frame allocator

    The properties of [aether-frame/src/mm/buddy.rs] as its users see them,
    each with a run of the model on a small machine as witness: two usable
    regions, two CPUs and a pool of 32 nodes. *)

From S2P Require Import Prelude Frame LinkedList RangeList Buddy BuddyInv BuddyLists BuddyProof BuddyBoot BuddySpec.

(** ** A small machine *)

Definition demo_map : list MemoryRegion :=
  [mkMemoryRegion 4096 131072 KIND_USABLE; mkMemoryRegion 262144 65536 KIND_USABLE].

Definition demo : BuddyAllocator :=
  match bootstrap 8 2 32 demo_map 2 with Ok b => b | _ => empty_allocator 0 0 (RangeList_new 0) 0 0 0 end.

(** The state after [m] ran, whatever its outcome. *)
Definition after {A} (m : MB A) (b : BuddyAllocator) : BuddyAllocator := (m b).2.

Lemma demo_map_ok : Forall region_ok demo_map.
Proof.
  apply Forall_forall. intros r [->|[->|[]%elem_of_nil]%elem_of_cons]%elem_of_cons;
    unfold region_ok, u64_max; rewrite ?PAGE_SIZE_eq; simpl; lia.
Qed.

Lemma demo_rep : ∃ c, Rep c demo ∅ ∧ c_cpus c = 2%nat.
Proof.
  pose proof (bootstrap_spec 8 2 32 demo_map 2 demo_map_ok) as H.
  assert (bootstrap 8 2 32 demo_map 2 = Ok demo) as Hd by (vm_compute; reflexivity).
  rewrite Hd in H. destruct H as (c & u & HI & Hcpus & _). exists c.
  split; [|done]. eapply (Rep_intro c demo u _ []); [exact HI|]. intros p o. lia.
Qed.

Lemma wp_res_run {A} (m : MB A) b Q Qe r b' :
  wp_res m b Q Qe → m b = (r, b') →
  match r with Ok a => Q a b' | Err e => Qe e b' | _ => False end.
Proof. unfold wp_res, wp. intros H Heq. by rewrite Heq in H. Qed.

Lemma block_addr_u64 c s o : cfg_ok c → block_ok c (s, o) → in_u64 (s * 4096).
Proof.
  intros Hc (_ & _ & e & He & Hlo & Hhi). simpl in *. pose proof (co_bound _ Hc e He).
  destruct (co_sep _ Hc) as [Hf _]. rewrite Forall_forall in Hf. destruct (Hf e He) as (?&_).
  pose proof (block_size_pos o). unfold in_u64, u64_max. lia.
Qed.

(** After an allocation of three frames on CPU 0. *)
Definition demo1 : BuddyAllocator := after (alloc_frame_4k_on_cpu 0 3) demo.
Definition demo1_block : Z := 16.

Lemma demo1_rep : ∃ c, Rep c demo1 {[ demo1_block := (2%nat, 1) ]} ∧ c_cpus c = 2%nat.
Proof.
  destruct demo_rep as (c & HR & Hc). exists c. split; [|done].
  assert (wp_res (alloc_frame_4k_on_cpu 0 3) demo
    (λ a b', Rep c b' (<[a / 4096 := (2%nat, 1)]> ∅)) (λ _ _, True)) as H.
  { eapply alloc_frame_spec; [exact HR| |done].
    intros s b' _ _ HR'. by rewrite (proj1 (frame_of_number s)). }
  assert (alloc_frame_4k_on_cpu 0 3 demo = (Ok (demo1_block * 4096), demo1)) as Hrun
    by (vm_compute; reflexivity).
  by apply (wp_res_run _ _ _ _ _ _ H) in Hrun.
Qed.

(** ** Single operations *)

(** C2. An allocation of [count] frames returns the address of a block of the
    smallest power of two that holds them: aligned to its size, inside one
    usable range, overlapping no allocated block, and recorded with one
    reference.  It fails only for a count that is zero or larger than any
    block, a CPU out of range, an empty cache together with empty global lists
    of every sufficient order (and then nothing changed), or too few unused
    metadata nodes; allocations are never lost on failure. *)
Theorem alloc_frame_correct c b m cpu count :
  Rep c b m → in_u64 count →
  wp_res (alloc_frame_4k_on_cpu cpu count) b
    (λ addr b', ∃ s, addr = s * 4096 ∧ in_u64 addr ∧ count <= block_size (ceil_log2 count) ∧
       fresh_block c m s (ceil_log2 count) ∧ Rep c b' (<[s := (ceil_log2 count, 1)]> m))
    (λ e b', Rep c b' m ∧ alloc_failure c b cpu count e b').
Proof.
  intros HR [Hc0 _]. eapply alloc_frame_spec; [exact HR| |done].
  intros s b' Hn Hfresh HR'. exists s. split; [done|]. split; [|split; [|done]].
  - eapply block_addr_u64; [by eapply Rep_cfg|apply Hfresh].
  - apply ceil_log2_spec. lia.
Qed.

Lemma alloc_frame_correct_witness :
  ∃ c s b', alloc_frame_4k_on_cpu 1 5 demo1 = (Ok (s * 4096), b') ∧
            fresh_block c {[ demo1_block := (2%nat, 1) ]} s 3.
Proof.
  destruct demo1_rep as (c & HR & _).
  pose proof (alloc_frame_correct c demo1 _ 1 5 HR ltac:(unfold in_u64, u64_max; lia)) as H.
  destruct (alloc_frame_4k_on_cpu 1 5 demo1) as [r b'] eqn:Hrun.
  pose proof (f_equal fst Hrun) as Hr. vm_compute in Hr. subst r.
  apply (wp_res_run _ _ _ _ _ _ H) in Hrun as (s & Hs & _ & _ & Hf & _).
  exists c, s, b'. rewrite <- Hs. split; [reflexivity|exact Hf].
Defined.

(** Retaining a block increments its reference count and nothing else; it
    fails, changing nothing, exactly when the address is not the start of an
    allocated block or the count is at its 32-bit maximum. *)
Theorem retain_frame_correct c b m a :
  Rep c b m →
  wp_res (retain_frame a) b
    (λ r b', ∃ o rc, a mod 4096 = 0 ∧ m !! (a / 4096) = Some (o, rc) ∧ r = rc + 1 ∧ in_u32 r ∧
       Rep c b' (<[a / 4096 := (o, rc + 1)]> m))
    (λ e b', b' = b ∧
       match e with
       | InvalidFrame => a mod 4096 ≠ 0 ∨ m !! (a / 4096) = None
       | RefCountOverflow => ∃ o, m !! (a / 4096) = Some (o, u32_max)
       | _ => False
       end).
Proof.
  intros HR. eapply retain_frame_spec; [exact HR| |by auto|by eauto].
  intros o rc b' Ha Hm Hlt HR'. destruct (Rep_block _ _ _ _ _ _ HR Hm) as [_ ?].
  exists o, rc. repeat split; auto; lia.
Qed.

Lemma retain_frame_correct_witness :
  ∃ c, Rep c (after (retain_frame 65536) demo1) {[ demo1_block := (2%nat, 2) ]}.
Proof.
  destruct demo1_rep as (c & HR & _). exists c.
  pose proof (retain_frame_correct c demo1 _ 65536 HR) as H. unfold after.
  destruct (retain_frame 65536 demo1) as [r b'] eqn:Hrun.
  pose proof (f_equal fst Hrun) as Hr. vm_compute in Hr. subst r.
  apply (wp_res_run _ _ _ _ _ _ H) in Hrun as (o & rc & _ & Hm & _ & _ & HR').
  assert ((o, rc) = (2%nat, 1)) as [= -> ->] by (vm_compute in Hm; congruence).
  exact HR'.
Defined.

(** Freeing drops one reference of the block at the address: the block
    stays allocated with its count decremented, or, when it was the last
    reference, leaves the allocation map and its pages are free again.  It
    fails, changing nothing, exactly when the CPU is out of range or the
    address is not the start of an allocated block (a double free is an
    error). *)
Theorem free_frame_correct c b m cpu a :
  Rep c b m →
  wp_res (free_frame_on_cpu cpu a) b
    (λ _ b', ∃ o rc, a mod 4096 = 0 ∧ m !! (a / 4096) = Some (o, rc) ∧
       Rep c b' (drop_ref m (a / 4096) o rc) ∧
       free_pages b' = free_pages b + (if decide (rc = 1) then block_size o else 0))
    (λ e b', b' = b ∧
       match e with
       | InvalidCpu => (c_cpus c <= cpu)%nat
       | InvalidFrame => a mod 4096 ≠ 0 ∨ m !! (a / 4096) = None
       | _ => False
       end).
Proof.
  intros HR. eapply free_frame_spec; [exact HR| |by auto|by auto].
  intros o rc b' _ Ha Hm HR'. exists o, rc. split; [done|]. split; [done|]. split; [done|].
  pose proof (Rep_pages _ _ _ HR) as Hp. pose proof (Rep_pages _ _ _ HR') as Hp'.
  destruct (Rep_cfg _ _ _ HR) as [_ Hsh]. destruct (Rep_cfg _ _ _ HR') as [_ Hsh'].
  rewrite (sh_total _ _ Hsh) in Hp. rewrite (sh_total _ _ Hsh') in Hp'.
  rewrite <- (insert_id m (a / 4096) (o, rc) Hm), <- insert_delete_eq in Hp.
  rewrite allocated_pages_insert in Hp by apply lookup_delete_eq. simpl in Hp.
  unfold drop_ref in Hp'. case_decide; [lia|].
  rewrite <- insert_delete_eq, allocated_pages_insert in Hp' by apply lookup_delete_eq.
  simpl in Hp'. lia.
Qed.

Lemma free_frame_correct_witness :
  ∃ c, Rep c (after (free_frame_on_cpu 1 65536) demo1) ∅.
Proof.
  destruct demo1_rep as (c & HR & _). exists c.
  pose proof (free_frame_correct c demo1 _ 1 65536 HR) as H. unfold after.
  destruct (free_frame_on_cpu 1 65536 demo1) as [r b'] eqn:Hrun.
  pose proof (f_equal fst Hrun) as Hr. vm_compute in Hr. subst r.
  apply (wp_res_run _ _ _ _ _ _ H) in Hrun as (o & rc & _ & Hm & HR' & _).
  assert ((o, rc) = (2%nat, 1)) as [= -> ->] by (vm_compute in Hm; congruence).
  exact HR'.
Defined.

(** Releasing through the trait [FrameAllocator] checks the frame and the
    count before it touches anything: on success the returned value is the
    number of references left, and on failure nothing changed. *)
Theorem release_correct c b m cpu f count :
  Rep c b m →
  wp_res (release cpu f count) b
    (λ r b', ∃ s rc, f = frame_of s ∧ m !! s = Some (ceil_log2 count, rc) ∧ r = rc - 1 ∧
       Rep c b' (drop_ref m s (ceil_log2 count) rc))
    (λ e b', b' = b ∧
       match e with
       | InvalidCpu => (c_cpus c <= cpu)%nat
       | InvalidFrame => ∀ s v, f = frame_of s → m !! s ≠ Some v
       | InvalidCount => count = 0 ∨ (c_max c < ceil_log2 count)%nat ∨
           ∃ s o rc, f = frame_of s ∧ m !! s = Some (o, rc) ∧ o ≠ ceil_log2 count
       | _ => False
       end).
Proof.
  intros HR. eapply release_spec; [exact HR|by auto| |by auto|by auto].
  intros s rc b' Hf _ Hm HR'. by exists s, rc.
Qed.

Lemma release_correct_witness :
  ∃ c, Rep c (after (release 0 (frame_of 16) 4) demo1) ∅.
Proof.
  destruct demo1_rep as (c & HR & _). exists c.
  pose proof (release_correct c demo1 _ 0 (frame_of 16) 4 HR) as H. unfold after.
  destruct (release 0 (frame_of 16) 4 demo1) as [r b'] eqn:Hrun.
  pose proof (f_equal fst Hrun) as Hr. vm_compute in Hr. subst r.
  apply (wp_res_run _ _ _ _ _ _ H) in Hrun as (s & rc & [= Hs] & Hm & _ & HR').
  assert (s = 16) as -> by lia.
  assert (rc = 1) as -> by (vm_compute in Hm; congruence).
  exact HR'.
Defined.

(** The frame allocated by a successful request can be freed from any CPU,
    and this restores both the allocation map and the number of free pages. *)
Theorem alloc_free_roundtrip c b m cpu count a b1 cpu' :
  Rep c b m → (cpu' < c_cpus c)%nat → alloc_frame_4k_on_cpu cpu count b = (Ok a, b1) →
  ∃ b2, free_frame_on_cpu cpu' a b1 = (Ok (), b2) ∧ Rep c b2 m ∧ free_pages b2 = free_pages b.
Proof.
  intros HR Hcpu Halloc.
  assert (wp_res (alloc_frame_4k_on_cpu cpu count) b
    (λ a b1, ∃ s o, a = s * 4096 ∧ m !! s = None ∧ Rep c b1 (<[s := (o, 1)]> m))
    (λ _ _, True)) as H1.
  { eapply alloc_frame_spec; [exact HR| |done]. intros s b' _ (_ & Hnone & _) HR'. eauto. }
  apply (wp_res_run _ _ _ _ _ _ H1) in Halloc as (s & o & -> & Hnone & HR1).
  destruct (frame_of_number s) as [Hs Hal].
  assert (wp_res (free_frame_on_cpu cpu' (s * 4096)) b1 (λ _ b2, Rep c b2 m) (λ _ _, False)) as H2.
  { eapply free_frame_spec; rewrite ?Hs, ?lookup_insert_eq; [exact HR1| |lia|naive_solver].
    intros o' rc b2 _ _ [= <- <-] HR2. unfold drop_ref in HR2.
    by rewrite decide_True, delete_insert_id in HR2. }
  destruct (free_frame_on_cpu cpu' (s * 4096) b1) as [r b2] eqn:Hfree.
  apply (wp_res_run _ _ _ _ _ _ H2) in Hfree. destruct r as [[]| | |]; try done.
  exists b2. split; [done|]. split; [done|].
  pose proof (Rep_pages _ _ _ HR) as Hp. pose proof (Rep_pages _ _ _ Hfree) as Hp2.
  destruct (Rep_cfg _ _ _ HR) as [_ Hsh]. destruct (Rep_cfg _ _ _ Hfree) as [_ Hsh2].
  rewrite (sh_total _ _ Hsh) in Hp. rewrite (sh_total _ _ Hsh2) in Hp2. lia.
Qed.

Lemma alloc_free_roundtrip_witness :
  ∃ c b2, free_frame_on_cpu 1 65536 demo1 = (Ok (), b2) ∧ Rep c b2 ∅ ∧ free_pages b2 = 48.
Proof.
  destruct demo_rep as (c & HR & Hc).
  destruct (alloc_free_roundtrip c demo ∅ 0 3 65536 demo1 1 HR) as (b2 & H1 & H2 & H3).
  - rewrite Hc. lia.
  - vm_compute. reflexivity.
  - exists c, b2. split; [exact H1|]. split; [exact H2|]. rewrite H3. vm_compute. reflexivity.
Defined.

(** C4. The buddy allocator implements the interface its clients are verified
    against: seen from any of its CPUs, it satisfies every law of
    [FrameAllocatorSpec], with the usable frames of the boot memory map as the
    managed frames and powers of two as block lengths. *)
Theorem buddy_implements_interface c cpu recovered :
  (cpu < c_cpus c)%nat →
  @FrameAllocatorSpec BuddyAllocator (buddy_allocator cpu recovered) (buddy_rep c)
    (covered (c_ranges c)) (λ n, block_size (ceil_log2 n)).
Proof. intros Hcpu. by apply buddy_satisfies_spec. Qed.

Lemma buddy_implements_interface_witness :
  @FrameAllocatorSpec BuddyAllocator (buddy_allocator 1 false)
    (buddy_rep (mkCfg 48 5 2 [(1, 32); (64, 16)] 32)) (covered [(1, 32); (64, 16)])
    (λ n, block_size (ceil_log2 n)).
Proof.
  apply (buddy_implements_interface (mkCfg 48 5 2 [(1, 32); (64, 16)] 32) 1 false). simpl. lia.
Defined.

(** The out-of-memory recovery of the trait method [alloc] cannot help:
    the handler runs while the allocator is exclusively borrowed, so the second
    attempt runs on the state the first one left, and fails the same way. *)
Theorem alloc_recovery_no_effect c b m cpu count :
  Rep c b m → alloc cpu true count b = alloc cpu false count b.
Proof.
  intros HR.
  assert (wp_res (alloc_frame_4k_on_cpu cpu count) b
    (λ _ _, True) (λ e b', e = OutOfMemory → b' = b)) as H1.
  { eapply alloc_frame_spec; [exact HR|done|]. by intros e b' _ Hf ->; apply Hf. }
  unfold wp_res, wp in H1. unfold alloc, mbind, M_bind.
  destruct (alloc_frame_4k_on_cpu cpu count b) as [[addr|e| |] b'] eqn:Hrun; simpl in *; try done.
  destruct e; try done. rewrite (H1 eq_refl), Hrun, (H1 eq_refl). done.
Qed.

Lemma alloc_recovery_no_effect_witness : alloc 0 true 32 demo1 = alloc 0 false 32 demo1.
Proof.
  destruct demo1_rep as (c & HR & _). apply (alloc_recovery_no_effect c demo1 _ 0 32 HR).
Defined.

(** ** All sequences of operations *)

Inductive buddy_op :=
| OpAllocOn (cpu : nat) (count : Z)
| OpAlloc (cpu : nat) (recovered : bool) (count : Z)
| OpRetainFrame (a : Z)
| OpRetain (f : PhysFrame)
| OpFree (cpu : nat) (a : Z)
| OpRelease (cpu : nat) (f : PhysFrame) (count : Z)
| OpRefCount (f : PhysFrame).

Definition forget {A} (r : outcome FrameAllocError A * BuddyAllocator) :
    outcome FrameAllocError unit * BuddyAllocator :=
  (match r.1 with Ok _ => Ok () | Err e => Err e | Panic => Panic | Diverge => Diverge end, r.2).

Definition exec (o : buddy_op) (b : BuddyAllocator) : outcome FrameAllocError unit * BuddyAllocator :=
  match o with
  | OpAllocOn cpu count => forget (alloc_frame_4k_on_cpu cpu count b)
  | OpAlloc cpu recovered count => forget (alloc cpu recovered count b)
  | OpRetainFrame a => forget (retain_frame a b)
  | OpRetain f => forget (retain f b)
  | OpFree cpu a => forget (free_frame_on_cpu cpu a b)
  | OpRelease cpu f count => forget (release cpu f count b)
  | OpRefCount f => forget (ref_count f b)
  end.

(** The states of an allocator booted with the memory map [mem] on [cpus] CPUs. *)
Inductive reachable (ranges_cap max_cpus pool_cap : nat) (mem : list MemoryRegion) (cpus : nat)
    : BuddyAllocator → Prop :=
| reachable_boot b :
    bootstrap ranges_cap max_cpus pool_cap mem cpus = Ok b →
    reachable ranges_cap max_cpus pool_cap mem cpus b
| reachable_op o b :
    reachable ranges_cap max_cpus pool_cap mem cpus b →
    reachable ranges_cap max_cpus pool_cap mem cpus (exec o b).2.

(** A total run: neither a panic nor an exhausted loop. *)
Definition returns {E A} (r : outcome E A) : Prop :=
  match r with Ok _ | Err _ => True | _ => False end.

Lemma forget_wp {A} (m : MB A) b (P : BuddyAllocator → Prop) :
  wp_res m b (λ _ b', P b') (λ _ b', P b') →
  returns (forget (m b)).1 ∧ P (forget (m b)).2.
Proof. unfold wp_res, wp, forget. by destruct (m b) as [[] b']. Qed.

Lemma exec_Rep c b m o :
  Rep c b m → returns (exec o b).1 ∧ ∃ m', Rep c (exec o b).2 m'.
Proof.
  intros HR. destruct o; cbn [exec]; apply (forget_wp _ _ (λ b', ∃ m', Rep c b' m')).
  - eapply alloc_frame_spec; [exact HR|by eauto|by eauto].
  - eapply alloc_spec; [exact HR|by eauto|by eauto].
  - eapply retain_frame_spec; [exact HR|by eauto|by eauto|by eauto].
  - eapply retain_spec; [exact HR|by eauto|by eauto|by eauto].
  - eapply free_frame_spec; [exact HR|by eauto|by eauto|by eauto].
  - eapply release_spec; [exact HR|by eauto|by eauto|by eauto|by eauto].
  - eapply ref_count_spec; [exact HR|by eauto|by eauto].
Qed.

Lemma reachable_Rep rc mc pc mem cpus b :
  Forall region_ok mem → reachable rc mc pc mem cpus b →
  ∃ c m, Rep c b m ∧ c_cpus c = cpus ∧ (∀ f, covered (c_ranges c) f ↔ usable_frame mem f).
Proof.
  intros Hmem. induction 1 as [b Hboot|o b Hr IH].
  - pose proof (bootstrap_spec rc mc pc mem cpus Hmem) as H. rewrite Hboot in H.
    destruct H as (c & u & HI & Hcp & Hcov & _). exists c, ∅.
    split; [|done]. eapply (Rep_intro c b u _ []); [exact HI|]. intros p o. lia.
  - destruct IH as (c & m & HR & Hcp & Hcov).
    destruct (exec_Rep c b m o HR) as [_ [m' HR']]. by exists c, m'.
Qed.

(** C3. Booting from any memory map with regions inside the address space
    either fails with one of the documented errors or produces an allocator
    with nothing allocated, every usable frame free and no other frame
    managed. *)
Theorem bootstrap_correct ranges_cap max_cpus pool_cap mem cpus :
  Forall region_ok mem →
  match bootstrap ranges_cap max_cpus pool_cap mem cpus with
  | Ok b => ∃ c, Rep c b ∅ ∧ c_cpus c = cpus ∧ free_pages b = total_frames b ∧
      total_frames b = range_sum (c_ranges c) ∧
      (∀ f, covered (c_ranges c) f ↔ usable_frame mem f)
  | Err e =>
      collect_error mem (λ _, False) (ranges_cap < length mem)%nat e ∨
      match e with
      | InvalidCount => (cpus = 0 ∨ max_cpus < cpus)%nat
      | InvalidMemoryMap => ∀ f, ¬ usable_frame mem f
      | MetadataExhausted => True
      | _ => False
      end
  | _ => False
  end.
Proof.
  intros Hmem. pose proof (bootstrap_spec ranges_cap max_cpus pool_cap mem cpus Hmem) as H.
  destruct (bootstrap _ _ _ _ _) as [b|e| |]; [|done..].
  destruct H as (c & u & HI & Hcp & Hcov & Ht). exists c.
  assert (Rep c b ∅) as HR.
  { eapply (Rep_intro c b u _ []); [exact HI|]. intros p o. lia. }
  destruct (Rep_cfg _ _ _ HR) as [_ Hsh]. pose proof (Rep_pages _ _ _ HR) as Hp.
  split; [done|]. split; [done|]. split; [|split; [|done]].
  - rewrite <- Hp. unfold allocated_pages. rewrite map_fold_empty. lia.
  - rewrite (sh_total _ _ Hsh). done.
Qed.

Lemma bootstrap_correct_witness :
  ∃ c, Rep c demo ∅ ∧ free_pages demo = total_frames demo ∧
       (∀ f, covered (c_ranges c) f ↔ usable_frame demo_map f).
Proof.
  pose proof (bootstrap_correct 8 2 32 demo_map 2 demo_map_ok) as H.
  assert (bootstrap 8 2 32 demo_map 2 = Ok demo) as Hd by (vm_compute; reflexivity).
  rewrite Hd in H. destruct H as (c & H1 & _ & H2 & _ & H3). exists c. exact (conj H1 (conj H2 H3)).
Defined.

(** C1. In every state that boot and any sequence of allocator operations can
    reach (valid or not, on any CPU), there is an allocation map such that:
    every allocated block lies in usable memory and is live; two different
    blocks share no frame; every usable page is either free or allocated; no
    per-CPU cache exceeds its high watermark; and every further operation
    returns, without panic and without an endless list walk. *)
Theorem reachable_safe ranges_cap max_cpus pool_cap mem cpus b :
  Forall region_ok mem → reachable ranges_cap max_cpus pool_cap mem cpus b →
  ∃ c m, Rep c b m ∧
    (∀ s o rc f, m !! s = Some (o, rc) → block_frames s o f → usable_frame mem f) ∧
    (∀ s o rc s' o' rc' f, m !! s = Some (o, rc) → m !! s' = Some (o', rc') → s ≠ s' →
       block_frames s o f → ¬ block_frames s' o' f) ∧
    free_pages b + allocated_pages m = total_frames b ∧
    lens_bounded b ∧
    ∀ op, returns (exec op b).1.
Proof.
  intros Hmem Hr. destruct (reachable_Rep _ _ _ _ _ _ Hmem Hr) as (c & m & HR & _ & Hcov).
  exists c, m. split; [done|]. split; [|split; [|split; [|split]]].
  - intros s o rc f Hm Hf. apply Hcov.
    destruct (Rep_block _ _ _ _ _ _ HR Hm) as [(_ & _ & e & He & Hlo & Hhi) _]. simpl in *.
    exists e. split; [done|]. unfold block_frames, in_range in *. simpl in *. lia.
  - intros. by eapply (Rep_disjoint c b m s o rc s' o' rc').
  - by eapply Rep_pages.
  - by eapply Rep_caches.
  - intros op. by apply (exec_Rep c b m).
Qed.

Lemma reachable_safe_witness :
  returns (exec (OpFree 0 4096) (exec (OpAllocOn 1 9) demo).2).1.
Proof.
  destruct (reachable_safe 8 2 32 demo_map 2 (exec (OpAllocOn 1 9) demo).2)
    as (c & m & _ & _ & _ & _ & _ & H).
  - exact demo_map_ok.
  - apply reachable_op, reachable_boot. vm_compute. reflexivity.
  - apply H.
Defined.
