(* ===== verification/Path.v ===== *)
(** * Path arithmetic of the virtual file system

    Models [aether-kernel/libs/aether-vfs/src/path.rs].  A Rust [&str] is its
    list of bytes: every operation of the file splits, compares and
    concatenates at the ASCII byte ['/'], which no multi-byte UTF-8 sequence
    contains.  A normalized path is the rendering of a list of proper
    components; the theorems show that every function of the file computes on
    component lists what its name says: normalization, containment below a
    root that no [..] can leave, and the moves between mount points. *)

From Stdlib Require Import Ascii String.
From S2P Require Import Prelude.

Open Scope list_scope.

Abbreviation str := (list ascii).

(** A string literal. *)
Definition lit (s : string) : str := list_ascii_of_string s.

Definition slash : ascii := "/"%char.
Definition SLASH : str := [slash].
Definition DOT : str := lit ".".
Definition DOTDOT : str := lit "..".

(** ** The standard library functions the file uses *)

(** [s.split('/')]: one piece more than there are separators. *)
Fixpoint split_slash (s : str) : list str :=
  match s with
  | [] => [[]]
  | c :: r =>
      if decide (c = slash) then [] :: split_slash r
      else match split_slash r with
           | h :: t => (c :: h) :: t
           | [] => [[c]]
           end
  end.

(** [components.join("/")] *)
Fixpoint join (l : list str) : str :=
  match l with
  | [] => []
  | [x] => x
  | x :: r => x ++ SLASH ++ join r
  end.

Definition starts_with_slash (s : str) : bool :=
  match s with c :: _ => bool_decide (c = slash) | [] => false end.

(** [s.strip_prefix(prefix)] *)
Fixpoint strip_prefix (prefix s : str) : option str :=
  match prefix, s with
  | [], _ => Some s
  | c :: p, d :: r => if decide (c = d) then strip_prefix p r else None
  | _ :: _, [] => None
  end.

(** [s.rsplit_once('/')]: what precedes and what follows the last separator. *)
Fixpoint rsplit_once (s : str) : option (str * str) :=
  match s with
  | [] => None
  | c :: r =>
      match rsplit_once r with
      | Some (a, b) => Some (c :: a, b)
      | None => if decide (c = slash) then Some ([], r) else None
      end
  end.

(** ** The functions of the file *)

Definition proper (c : str) : bool := negb (bool_decide (c = [])) && negb (bool_decide (c = DOT)).

Definition split_components (path : str) : list str := List.filter proper (split_slash path).

(** One iteration of the loop of [resolve_components]. *)
Definition push_component (anchor : nat) (components : list str) (component : str) : list str :=
  if decide (component = [] ∨ component = DOT) then components
  else if decide (component = DOTDOT) then
    if decide (anchor < length components)%nat then removelast components else components
  else components ++ [component].

Definition resolve_components (components : list str) (anchor : nat) (path : str) : str :=
  match foldl (push_component anchor) components (split_slash path) with
  | [] => SLASH
  | cs => SLASH ++ join cs
  end.

Definition normalize_absolute_path (path : str) : str := resolve_components [] 0 path.

Definition resolve_view_path (root cwd path : str) : str :=
  let root_components := split_components root in
  if starts_with_slash path
  then resolve_components root_components (length root_components) path
  else resolve_components (split_components cwd) (length root_components) path.

Definition resolve_namespace_path (base path : str) : str :=
  if starts_with_slash path then normalize_absolute_path path
  else resolve_components (split_components base) 0 path.

Definition resolve_symlink_path (parent target : str) : str := resolve_namespace_path parent target.

Definition parent_path (path : str) : str :=
  match rsplit_once path with
  | Some (parent, _) => if decide (parent = []) then SLASH else parent
  | None => SLASH
  end.

(** [path.rsplit('/').next()]: the last piece. *)
Definition leaf_name (path : str) : str :=
  match last (split_slash path) with
  | Some name => if decide (name = []) then SLASH else name
  | None => SLASH
  end.

Definition is_within (root path : str) : bool :=
  if decide (root = SLASH) then starts_with_slash path
  else bool_decide (path = root) ||
       match strip_prefix root path with
       | Some suffix => starts_with_slash suffix
       | None => false
       end.

Definition display_path_from_root (root path : str) : str :=
  if decide (root = SLASH) then normalize_absolute_path path
  else if decide (path = root) then SLASH
  else match strip_prefix root path with
       | Some suffix => if decide (suffix = []) then SLASH else suffix
       | None => SLASH
       end.

Definition remap_mount_path (path source target : str) : str :=
  let path := normalize_absolute_path path in
  let source := normalize_absolute_path source in
  let target := normalize_absolute_path target in
  if decide (source = SLASH) then
    if decide (target = SLASH) then path
    else if decide (path = SLASH) then target
    else target ++ path
  else if decide (path = source) then target
  else match strip_prefix source path with
       | Some suffix =>
           if starts_with_slash suffix then
             if decide (target = SLASH) then suffix else target ++ suffix
           else path
       | None => path
       end.

(** ** Component lists *)

(** A component of a normalized path: not empty, without separator, neither
    [.] nor [..]. *)
Definition component_ok (c : str) : Prop := c ≠ [] ∧ (slash ∉ c) ∧ c ≠ DOT ∧ c ≠ DOTDOT.

Definition components_ok (cs : list str) : Prop := Forall component_ok cs.

Definition flat (cs : list str) : str := concat (fmap (λ c, slash :: c) cs).

Definition render (cs : list str) : str := match cs with [] => SLASH | _ => flat cs end.

(** [p] is a normalized absolute path. *)
Definition normalized (p : str) : Prop := ∃ cs, components_ok cs ∧ p = render cs.

(** The components the path denotes, seen from the components [cs]. *)
Definition walk (anchor : nat) (cs : list str) (path : str) : list str :=
  foldl (push_component anchor) cs (split_slash path).

Lemma flat_cons c cs : flat (c :: cs) = slash :: c ++ flat cs.
Proof. done. Qed.

Lemma flat_app cs cs' : flat (cs ++ cs') = flat cs ++ flat cs'.
Proof. unfold flat. by rewrite fmap_app, concat_app. Qed.

Lemma join_flat c cs : SLASH ++ join (c :: cs) = flat (c :: cs).
Proof.
  revert c. induction cs as [|d cs IH]; intros c.
  - simpl. unfold flat. simpl. by rewrite app_nil_r.
  - rewrite flat_cons, <- (IH d). done.
Qed.

Lemma resolve_components_walk cs anchor path :
  resolve_components cs anchor path = render (walk anchor cs path).
Proof.
  unfold resolve_components, walk. destruct (foldl _ _ _) as [|c l]; [done|]. apply join_flat.
Qed.

Lemma split_slash_nonempty s : split_slash s ≠ [].
Proof.
  destruct s as [|c r]; simpl; [done|]. case_decide; [done|]. by destruct (split_slash r).
Qed.

Lemma split_slash_app a b :
  split_slash (a ++ slash :: b) = split_slash a ++ split_slash b.
Proof.
  induction a as [|c a IH]; simpl.
  - done.
  - case_decide; [by rewrite IH|]. rewrite IH.
    destruct (split_slash a) as [|h t] eqn:Ha; [by destruct (split_slash_nonempty a)|]. done.
Qed.

Lemma split_slash_none c : slash ∉ c → split_slash c = [c].
Proof.
  induction c as [|x c IH]; intros Hc; simpl; [done|].
  apply not_elem_of_cons in Hc as [Hx Hc]. rewrite decide_False by congruence.
  by rewrite IH.
Qed.

Lemma split_slash_no_slash s c : c ∈ split_slash s → slash ∉ c.
Proof.
  revert c. induction s as [|x s IH]; intros c; simpl.
  - intros ->%list_elem_of_singleton. by apply not_elem_of_nil.
  - case_decide as Hx.
    + intros [->|Hc]%elem_of_cons; [by apply not_elem_of_nil|by apply IH].
    + destruct (split_slash s) as [|h t] eqn:Hs; [by destruct (split_slash_nonempty s)|].
      intros [->|Hc]%elem_of_cons.
      * intros [Heq|Hh]%elem_of_cons; [congruence|]. apply (IH h); [left|done].
      * apply IH. by right.
Qed.

Lemma split_slash_flat cs : Forall (λ c, slash ∉ c) cs → split_slash (flat cs) = [] :: cs.
Proof.
  induction cs as [|c cs IH] using rev_ind; intros Hcs; [done|].
  apply Forall_app in Hcs as [Hcs [Hc _]%Forall_cons].
  rewrite flat_app. change (flat [c]) with (slash :: c ++ []). rewrite app_nil_r.
  rewrite split_slash_app, IH by done. by rewrite (split_slash_none c Hc).
Qed.

Lemma components_no_slash cs : components_ok cs → Forall (λ c, slash ∉ c) cs.
Proof. intros H. eapply Forall_impl; [exact H|]. by intros c (_ & ? & _). Qed.

Lemma render_flat cs : cs ≠ [] → render cs = flat cs.
Proof. by destruct cs. Qed.

Lemma split_slash_render cs :
  components_ok cs → split_slash (render cs) = [] :: (if decide (cs = []) then [[]] else cs).
Proof.
  intros Hok. destruct cs as [|c cs]; [done|]. rewrite decide_False by done.
  apply split_slash_flat. by apply components_no_slash.
Qed.

(** ** The resolution loop *)

Lemma push_component_ok anchor cs c :
  components_ok cs → slash ∉ c → components_ok (push_component anchor cs c).
Proof.
  intros Hcs Hc. unfold push_component. repeat case_decide; try done.
  - destruct (exists_last (l := cs)) as (l & x & ->); [by destruct cs; simpl in *; [lia|]|].
    rewrite removelast_last. by apply Forall_app in Hcs as [? _].
  - apply Forall_app. split; [done|]. constructor; [|constructor]. unfold component_ok. naive_solver.
Qed.

Lemma foldl_ok anchor pieces : ∀ cs,
  components_ok cs → Forall (λ c, slash ∉ c) pieces →
  components_ok (foldl (push_component anchor) cs pieces).
Proof.
  induction pieces as [|c pieces IH]; intros cs Hcs Hp; simpl; [done|].
  apply Forall_cons in Hp as [Hc Hp]. apply IH; [|done]. by apply push_component_ok.
Qed.

Lemma walk_ok anchor cs path : components_ok cs → components_ok (walk anchor cs path).
Proof.
  intros Hcs. apply foldl_ok; [done|]. apply Forall_forall. intros c. apply split_slash_no_slash.
Qed.

Lemma push_proper anchor cs c : component_ok c → push_component anchor cs c = cs ++ [c].
Proof.
  intros (H1 & _ & H3 & H4). unfold push_component.
  rewrite decide_False by naive_solver. by rewrite decide_False.
Qed.

Lemma foldl_proper anchor pieces : ∀ cs,
  components_ok pieces → foldl (push_component anchor) cs pieces = cs ++ pieces.
Proof.
  induction pieces as [|c pieces IH]; intros cs Hp; simpl; [by rewrite app_nil_r|].
  apply Forall_cons in Hp as [Hc Hp]. rewrite push_proper, IH by done. by rewrite <- app_assoc.
Qed.

(** Walking a normalized path appends its components. *)
Lemma walk_render anchor cs ds : components_ok ds → walk anchor cs (render ds) = cs ++ ds.
Proof.
  intros Hds. unfold walk. rewrite split_slash_render by done. simpl.
  case_decide as Hd; [subst; by rewrite app_nil_r|]. by apply foldl_proper.
Qed.

Lemma walk_component anchor cs c : component_ok c → walk anchor cs c = cs ++ [c].
Proof.
  intros Hc. unfold walk. rewrite split_slash_none by apply Hc. simpl. by apply push_proper.
Qed.

(** The components below the anchor are never removed. *)
Lemma walk_anchor r path : ∀ cs, walk (length r) (r ++ cs) path = r ++ walk 0 cs path.
Proof.
  unfold walk. induction (split_slash path) as [|c l IH]; intros cs; simpl; [done|].
  rewrite <- IH. f_equal. unfold push_component. rewrite length_app.
  case_decide; [done|]. case_decide; [|by rewrite app_assoc].
  destruct cs as [|x cs]; [by rewrite !decide_False by (simpl; lia)|].
  rewrite !decide_True by (simpl; lia). by rewrite removelast_app.
Qed.

Lemma split_components_render cs : components_ok cs → split_components (render cs) = cs.
Proof.
  intros Hok. unfold split_components. rewrite split_slash_render by done. simpl.
  case_decide as Hd; [by subst|]. clear Hd. induction Hok as [|c cs Hc Hok IH]; [done|]. simpl.
  destruct Hc as (H1 & _ & H3 & _). unfold proper at 1.
  rewrite !bool_decide_eq_false_2 by done. simpl. by rewrite IH.
Qed.

Lemma render_inj cs ds : components_ok cs → components_ok ds → render cs = render ds → cs = ds.
Proof.
  intros Hc Hd H. by rewrite <- (split_components_render cs Hc), H, split_components_render.
Qed.

Lemma render_slash cs : components_ok cs → render cs = SLASH ↔ cs = [].
Proof.
  intros Hok. split; [|by intros ->]. intros H. apply render_inj; [done|constructor|done].
Qed.

Lemma render_starts cs : starts_with_slash (render cs) = true.
Proof. by destruct cs. Qed.

Lemma normalize_walk path : normalize_absolute_path path = render (walk 0 [] path).
Proof. apply resolve_components_walk. Qed.

Lemma normalize_render cs : components_ok cs → normalize_absolute_path (render cs) = render cs.
Proof. intros Hok. by rewrite normalize_walk, walk_render. Qed.

Lemma normalize_normalized path : normalized (normalize_absolute_path path).
Proof.
  exists (walk 0 [] path). split; [apply walk_ok; constructor|apply normalize_walk].
Qed.

(** ** Prefixes *)

Lemma strip_prefix_Some p s r : strip_prefix p s = Some r ↔ s = p ++ r.
Proof.
  revert s. induction p as [|c p IH]; intros s; simpl; [split; congruence|].
  destruct s as [|d s]; [done|]. case_decide as Hd.
  - rewrite IH. subst. split; congruence.
  - split; [done|]. congruence.
Qed.

Lemma flat_prefix r p t :
  components_ok r → components_ok p → flat p = flat r ++ slash :: t →
  ∃ q, components_ok q ∧ q ≠ [] ∧ p = r ++ q ∧ slash :: t = flat q.
Proof.
  intros Hr Hp Heq. pose proof (split_slash_flat p (components_no_slash _ Hp)) as Hs.
  rewrite Heq, split_slash_app, split_slash_flat in Hs by (by apply components_no_slash).
  simpl in Hs. injection Hs as Hs. exists (split_slash t).
  assert (components_ok (split_slash t)) as Hok.
  { rewrite <- Hs in Hp. by apply Forall_app in Hp as [_ ?]. }
  split; [done|]. split; [apply split_slash_nonempty|]. split; [by rewrite Hs|].
  rewrite <- Hs, flat_app in Heq. by apply app_inv_head in Heq.
Qed.

(** [is_within] is containment of component lists. *)
Lemma is_within_prefix r p :
  components_ok r → components_ok p → is_within (render r) (render p) = true ↔ ∃ q, p = r ++ q.
Proof.
  intros Hr Hp. unfold is_within. case_decide as Hs.
  { apply render_slash in Hs as ->; [|done]. rewrite render_starts. split; [|done].
    intros _. by exists p. }
  rewrite render_slash in Hs by done. rewrite orb_true_iff, bool_decide_eq_true. split.
  - intros [Heq|Hm].
    { apply render_inj in Heq; [|done..]. subst. exists []. by rewrite app_nil_r. }
    destruct (strip_prefix _ _) as [[|c t]|] eqn:Hst; [done| |done].
    apply strip_prefix_Some in Hst. simpl in Hm. apply bool_decide_eq_true in Hm as ->.
    destruct p as [|x p].
    { apply (f_equal length) in Hst. rewrite length_app in Hst. destruct r; simpl in Hst; lia. }
    rewrite !render_flat in Hst by done.
    apply flat_prefix in Hst as (q & _ & _ & -> & _); [|done..]. by exists q.
  - intros [q ->]. destruct q as [|x q]; [left; by rewrite app_nil_r|right].
    rewrite !render_flat by (by destruct r). rewrite flat_app.
    assert (strip_prefix (flat r) (flat r ++ flat (x :: q)) = Some (flat (x :: q))) as ->; [|done].
    by apply strip_prefix_Some.
Qed.

(** ** The functions on component lists *)

Lemma resolve_view_components r q path :
  components_ok r → components_ok q →
  resolve_view_path (render r) (render (r ++ q)) path = render (r ++ walk 0 (if starts_with_slash path then [] else q) path).
Proof.
  intros Hr Hq. assert (components_ok (r ++ q)) as Hrq by (by apply Forall_app).
  unfold resolve_view_path. rewrite !split_components_render by done. destruct (starts_with_slash path); rewrite resolve_components_walk.
  - by rewrite <- (walk_anchor r path []), app_nil_r.
  - by rewrite walk_anchor.
Qed.

Lemma resolve_view_absolute root cwd path : starts_with_slash path = true → resolve_view_path root cwd path = resolve_view_path root root path.
Proof. unfold resolve_view_path. by intros ->. Qed.

(** Seen from the root, the rest of the path is left. *)
Lemma display_render r q : components_ok r → components_ok q → display_path_from_root (render r) (render (r ++ q)) = render q.
Proof.
  intros Hr Hq. assert (components_ok (r ++ q)) as Hp by (by apply Forall_app). unfold display_path_from_root. case_decide as H1.
  { apply render_slash in H1 as ->; [|done]. by apply normalize_render. }
  rewrite render_slash in H1 by done. case_decide as H2.
  { apply render_inj in H2; [|done..]. rewrite <- (app_nil_r r) in H2 at 2.
    by apply app_inv_head in H2 as ->. }
  assert (q ≠ []) as Hne by (intros ->; by rewrite app_nil_r in H2).
  rewrite !render_flat by (by destruct r, q).
  rewrite (proj2 (strip_prefix_Some (flat r) (flat (r ++ q)) (flat q))) by apply flat_app.
  by destruct q.
Qed.

Lemma resolve_namespace_render q path :
  components_ok q → resolve_namespace_path (render q) path = render (walk 0 (if starts_with_slash path then [] else q) path).
Proof.
  intros Hq. unfold resolve_namespace_path. destruct (starts_with_slash path); [apply normalize_walk|].
  by rewrite split_components_render, resolve_components_walk.
Qed.

(** What [remap_mount_path] does to components: below [s], [s] is replaced by
    [t]; elsewhere nothing changes. *)
Lemma remap_inside s t q :
  components_ok s → components_ok t → components_ok q →
  remap_mount_path (render (s ++ q)) (render s) (render t) = render (t ++ q).
Proof.
  intros Hs Ht Hq. assert (components_ok (s ++ q)) as Hsq by (by apply Forall_app).
  unfold remap_mount_path. rewrite !normalize_render by done. case_decide as H1.
  - apply render_slash in H1 as ->; [|done]. simpl. case_decide as H2.
    { by apply render_slash in H2 as ->. }
    rewrite render_slash in H2 by done. case_decide as H3.
    { apply render_slash in H3 as ->; [|done]. by rewrite app_nil_r. }
    rewrite render_slash in H3 by done. rewrite !render_flat by (by destruct t).
    by rewrite flat_app.
  - rewrite render_slash in H1 by done. case_decide as H2.
    { apply render_inj in H2; [|done..]. rewrite <- (app_nil_r s) in H2 at 2.
      apply app_inv_head in H2 as ->. by rewrite app_nil_r. }
    assert (q ≠ []) as Hne by (intros ->; by rewrite app_nil_r in H2).
    rewrite !(render_flat (s ++ q)), (render_flat s) by (by destruct s).
    rewrite (proj2 (strip_prefix_Some (flat s) (flat (s ++ q)) (flat q))) by apply flat_app.
    destruct q as [|c q]; [done|]. simpl starts_with_slash. cbv iota.
    case_decide as H3; [by apply render_slash in H3 as ->|].
    rewrite render_slash in H3 by done. rewrite !render_flat by (by destruct t).
    by rewrite flat_app.
Qed.

Lemma remap_outside s t p :
  components_ok s → components_ok t → components_ok p → (¬ ∃ q, p = s ++ q) →
  remap_mount_path (render p) (render s) (render t) = render p.
Proof.
  intros Hs Ht Hp Hno. unfold remap_mount_path. rewrite !normalize_render by done.
  case_decide as H1.
  { apply render_slash in H1 as ->; [|done]. destruct Hno. by exists p. }
  pose proof (is_within_prefix s p Hs Hp) as Hw. unfold is_within in Hw.
  rewrite decide_False, orb_true_iff, bool_decide_eq_true in Hw by done.
  case_decide as H2; [destruct Hno; apply Hw; by left|].
  destruct (strip_prefix _ _) as [suffix|]; [|done].
  destruct (starts_with_slash suffix); [|done]. destruct Hno. apply Hw. by right.
Qed.

Lemma rsplit_once_last a c : slash ∉ c → rsplit_once (a ++ slash :: c) = Some (a, c).
Proof.
  intros Hc. induction a as [|x a IH]; simpl; [|by rewrite IH].
  assert (rsplit_once c = None) as ->; [|done].
  induction c as [|x c IH]; [done|]. apply not_elem_of_cons in Hc as [Hx Hc]. simpl.
  rewrite IH by done. by rewrite decide_False by congruence.
Qed.

Lemma parent_leaf_render cs c :
  components_ok cs → component_ok c →
  parent_path (render (cs ++ [c])) = render cs ∧ leaf_name (render (cs ++ [c])) = c.
Proof.
  intros Hcs Hc. assert (components_ok (cs ++ [c])) as Hok by (apply Forall_app; split; auto).
  split.
  - unfold parent_path. rewrite render_flat by (by destruct cs). rewrite flat_app.
    change (flat [c]) with (slash :: c ++ []). rewrite app_nil_r, rsplit_once_last by apply Hc.
    case_decide as Hd; destruct cs as [|d cs]; try done.
  - unfold leaf_name. rewrite split_slash_render by done.
    rewrite decide_False by (by destruct cs). change ([] :: cs ++ [c]) with (([] :: cs) ++ [c]).
    rewrite last_snoc. rewrite decide_False; [done|]. apply Hc.
Qed.

(** ** Claims *)

(** Normalization returns a normalized path (absolute, no empty, [.] or
    [..] component, no trailing separator), and is the identity on normalized
    paths; in particular it is idempotent. *)
Theorem normalize_idempotent path :
  normalized (normalize_absolute_path path) ∧
  normalize_absolute_path (normalize_absolute_path path) = normalize_absolute_path path.
Proof.
  destruct (normalize_normalized path) as (cs & Hok & Heq). split; [by exists cs|].
  rewrite Heq. by apply normalize_render.
Qed.

(** C37. The arithmetic of paths keeps a process inside its root directory.
    For a normalized root and working directory the path that a system call
    looks up is normalized.  If the given path is absolute, or the working
    directory lies inside the root, the result lies inside the root whatever
    the number of [..] components, and seen from the root it is the path that
    resolves, in a world that has nothing above the root, from the working
    directory as the process sees it.  From a working directory outside the
    root, which [fchdir] and directory descriptors can set, a relative path
    stays outside: [relative_outside].  Symbolic links are not followed here. *)
Theorem resolve_view_path_confined root cwd path :
  normalized root → normalized cwd →
  normalized (resolve_view_path root cwd path) ∧
  (starts_with_slash path = true ∨ is_within root cwd = true →
   is_within root (resolve_view_path root cwd path) = true ∧
   display_path_from_root root (resolve_view_path root cwd path) = resolve_namespace_path (display_path_from_root root cwd) path).
Proof.
  intros (r & Hr & ->) (w & Hw & ->). split.
  { unfold resolve_view_path. rewrite !split_components_render by done. destruct (starts_with_slash path); rewrite resolve_components_walk; eexists; (split; [|done]); by apply walk_ok. }
  assert (∀ q, components_ok q → let p := resolve_view_path (render r) (render (r ++ q)) path in
    is_within (render r) p = true ∧ display_path_from_root (render r) p = render (walk 0 (if starts_with_slash path then [] else q) path)) as Hin.
  { intros q Hq. cbn zeta. rewrite resolve_view_components by done.
    assert (components_ok (walk 0 (if starts_with_slash path then [] else q) path)) as Hwk by (apply walk_ok; destruct (starts_with_slash path); [constructor|done]).
    split; [|by apply display_render]. apply is_within_prefix; [done|by apply Forall_app|by eexists]. }
  intros [Ha|Hc].
  - rewrite resolve_view_absolute by done. destruct (Hin [] ltac:(constructor)) as [H1 H2]. rewrite app_nil_r in H1, H2. split; [done|].
    rewrite H2. unfold resolve_namespace_path. by rewrite Ha, normalize_walk.
  - apply is_within_prefix in Hc as [q ->]; [|done..]. pose proof Hw as [_ Hq]%Forall_app. destruct (Hin q Hq) as [H1 H2]. split; [done|].
    by rewrite H2, display_render, resolve_namespace_render.
Qed.

Lemma normalized_lit cs : components_ok cs → normalized (render cs).
Proof. intros H. by exists cs. Qed.

Ltac solve_components :=
  repeat (constructor; [unfold component_ok; repeat split; try done;
    intros H; repeat (apply elem_of_cons in H as [H|H]; [done|]); by apply elem_of_nil in H|]);
  constructor.

Lemma resolve_view_path_confined_witness :
  resolve_view_path (lit "/jail") (lit "/jail/home") (lit "../../../etc/./passwd")
    = lit "/jail/etc/passwd" ∧
  is_within (lit "/jail")
    (resolve_view_path (lit "/jail") (lit "/jail/home") (lit "../../../etc/./passwd")) = true ∧
  is_within (lit "/jail") (resolve_view_path (lit "/jail") (lit "/srv") (lit "/../etc")) = true.
Proof.
  assert (normalized (lit "/jail")) as Hr by (apply (normalized_lit [lit "jail"]); solve_components).
  split; [reflexivity|]. split.
  - apply (resolve_view_path_confined (lit "/jail") (lit "/jail/home")); [exact Hr| |right; reflexivity].
    apply (normalized_lit [lit "jail"; lit "home"]). solve_components.
  - apply (resolve_view_path_confined (lit "/jail") (lit "/srv")); [exact Hr| |left; reflexivity].
    apply (normalized_lit [lit "srv"]). solve_components.
Defined.

(** A working directory outside the root. *)
Lemma relative_outside : resolve_view_path (lit "/jail") (lit "/srv") (lit "x") = lit "/srv/x" ∧ is_within (lit "/jail") (lit "/srv/x") = false.
Proof. by split. Qed.

(** Moving a path from one mount point to another is invertible, and
    paths outside the source mount are left alone. *)
Theorem remap_mount_path_roundtrip path source target :
  let p := normalize_absolute_path path in
  if is_within (normalize_absolute_path source) p
  then remap_mount_path (remap_mount_path path source target) target source = p ∧
       is_within (normalize_absolute_path target) (remap_mount_path path source target) = true
  else remap_mount_path path source target = p.
Proof.
  simpl. destruct (normalize_normalized path) as (p & Hp & Ep).
  destruct (normalize_normalized source) as (s & Hs & Es).
  destruct (normalize_normalized target) as (t & Ht & Et).
  assert (remap_mount_path path source target = remap_mount_path (render p) (render s) (render t))
    as Hnorm. { unfold remap_mount_path. by rewrite Ep, Es, Et, !normalize_render. }
  rewrite Hnorm, Ep, Es, Et. destruct (is_within _ _) eqn:Hin.
  - apply is_within_prefix in Hin as [q ->]; [|done..].
    apply Forall_app in Hp as [_ Hq]. rewrite remap_inside by done.
    assert (components_ok (t ++ q)) as Htq by (by apply Forall_app).
    split; [|apply is_within_prefix; eauto].
    assert (remap_mount_path (render (t ++ q)) target source =
      remap_mount_path (render (t ++ q)) (render t) (render s)) as ->.
    { unfold remap_mount_path. by rewrite Es, Et, !normalize_render. }
    by apply remap_inside.
  - apply remap_outside; [done..|]. intros Hq. apply not_true_iff_false in Hin.
    by apply Hin, is_within_prefix.
Qed.

(** The parent and the last component of a normalized path other than the
    root determine it: resolving the leaf in the parent gives the path back. *)
Theorem parent_leaf_roundtrip path :
  normalized path → path ≠ SLASH →
  resolve_namespace_path (parent_path path) (leaf_name path) = path.
Proof.
  intros (cs & Hok & ->) Hne. rewrite render_slash in Hne by done.
  destruct (exists_last Hne) as (l & c & ->). pose proof Hok as [Hl [Hc _]%Forall_cons]%Forall_app.
  destruct (parent_leaf_render l c Hl Hc) as [-> ->]. unfold resolve_namespace_path.
  assert (starts_with_slash c = false) as ->.
  { destruct c as [|x c]; [done|]. simpl. apply bool_decide_eq_false. intros ->.
    destruct Hc as (_ & Hs & _). apply Hs. left. }
  by rewrite split_components_render, resolve_components_walk, walk_component.
Qed.

Lemma parent_leaf_roundtrip_witness :
  resolve_namespace_path (parent_path (lit "/usr/bin")) (leaf_name (lit "/usr/bin")) = lit "/usr/bin".
Proof.
  apply (parent_leaf_roundtrip (lit "/usr/bin")); [|done].
  apply (normalized_lit [lit "usr"; lit "bin"]). solve_components.
Defined.

(** The working directory shown to a process, resolved again from its
    root, is the working directory, whenever it is inside the root. *)
Theorem display_path_roundtrip root path :
  normalized root → normalized path → is_within root path = true →
  resolve_view_path root root (display_path_from_root root path) = path.
Proof.
  intros (r & Hr & ->) (p & Hp & ->) Hin.
  apply is_within_prefix in Hin as [q ->]; [|done..]. pose proof Hp as [_ Hq]%Forall_app.
  rewrite display_render by done.
  unfold resolve_view_path. rewrite render_starts, split_components_render by done.
  by rewrite resolve_components_walk, walk_render.
Qed.

Lemma display_path_roundtrip_witness :
  display_path_from_root (lit "/jail") (lit "/jail/home") = lit "/home" ∧
  resolve_view_path (lit "/jail") (lit "/jail")
    (display_path_from_root (lit "/jail") (lit "/jail/home")) = lit "/jail/home".
Proof.
  split; [reflexivity|].
  apply (display_path_roundtrip (lit "/jail") (lit "/jail/home")); [| |reflexivity].
  - apply (normalized_lit [lit "jail"]). solve_components.
  - apply (normalized_lit [lit "jail"; lit "home"]). solve_components.
Defined.

(** Outside the root the prefix is removed without looking for a component
    boundary: the result is not even absolute. *)
Lemma display_path_no_boundary :
  is_within (lit "/jail") (lit "/jailbreak") = false ∧
  display_path_from_root (lit "/jail") (lit "/jailbreak") = lit "break".
Proof. by split. Qed.
