(* ===== verification/Poll.v ===== *)
(** * Readiness and wait queues

    Models [PollEvents] of [aether-kernel/libs/aether-vfs/src/file.rs], the
    error type of [node.rs] and the [WaitQueue] of [wait.rs], and states, as a
    type class, what a pollable file owes to the tasks that sleep on it: an
    operation that makes an event ready wakes every listener registered for
    that event.  [Pipe] and [EventFd] are instances. *)

From S2P Require Import Prelude.

Inductive FsError :=
| NotFound
| NotDirectory
| NotFile
| AlreadyExists
| Unsupported
| Io
| PermissionDenied
| InvalidInput
| RootNotMounted
| WouldBlock
| BrokenPipe.

#[global] Instance FsError_eq_dec : EqDecision FsError.
Proof. solve_decision. Defined.

(** ** Event sets: the bits of a [u32] *)

Module PollEvents.
Definition READ : Z := 1.
Definition WRITE : Z := 2.
Definition ERROR : Z := 4.
Definition HUP : Z := 8.
Definition INVALID : Z := 16.
Definition RDHUP : Z := 32.
Definition LOCK : Z := 64.
Definition ALWAYS : Z := Z.lor (Z.lor (Z.lor ERROR HUP) INVALID) RDHUP.
Definition empty : Z := 0.

Definition contains (self other : Z) : bool := Z.land self other =? other.
Definition intersects (self other : Z) : bool := negb (Z.land self other =? 0).
Definition intersection (self other : Z) : Z := Z.land self other.
Definition bitor (self rhs : Z) : Z := Z.lor self rhs.
End PollEvents.

(** ** The wait queue *)

Section wait.
Context {L : Type}.

Record WaitRegistration := mkReg { reg_events : Z; reg_listener : L }.

(** [BTreeMap<u64, WaitRegistration>] as the list of its entries in key order. *)
Record WaitQueue := mkWait {
  next_id : Z;
  registrations : list (Z * WaitRegistration);
  notify_scratch : list (L * Z);
}.

Definition WaitQueue_new : WaitQueue := mkWait 1 [] [].

(** [BTreeMap::insert]: replaces the value of an equal key. *)
Fixpoint tree_insert {V} (k : Z) (v : V) (l : list (Z * V)) : list (Z * V) :=
  match l with
  | [] => [(k, v)]
  | (k', v') :: r =>
      if decide (k = k') then (k, v) :: r
      else if decide (k < k') then (k, v) :: l
      else (k', v') :: tree_insert k v r
  end.

Fixpoint tree_remove {V} (k : Z) (l : list (Z * V)) : list (Z * V) * option V :=
  match l with
  | [] => ([], None)
  | (k', v') :: r =>
      if decide (k = k') then (r, Some v')
      else let '(r', o) := tree_remove k r in ((k', v') :: r', o)
  end.

Definition register (w : WaitQueue) (events : Z) (listener : L) : Z * WaitQueue :=
  let id := next_id w in
  (id, mkWait (wrapping_add u64_max id 1)
              (tree_insert id (mkReg events listener) (registrations w)) (notify_scratch w)).

Definition unregister (w : WaitQueue) (id : Z) : bool * WaitQueue :=
  let '(r, o) := tree_remove id (registrations w) in
  (match o with Some _ => true | None => false end,
   mkWait (next_id w) r (notify_scratch w)).

(** The listeners woken by [notify], in key order, and the queue after it
    (either branch of the capacity test leaves the list in the scratch
    vector). *)
Fixpoint matching (events : Z) (l : list (Z * WaitRegistration)) : list (L * Z) :=
  match l with
  | [] => []
  | (_, r) :: rest =>
      let matched := PollEvents.intersection events (reg_events r) in
      if decide (matched ≠ PollEvents.empty) then (reg_listener r, matched) :: matching events rest
      else matching events rest
  end.

Definition notify (w : WaitQueue) (events : Z) : list (L * Z) * WaitQueue :=
  let listeners := matching events (registrations w) in
  (listeners, mkWait (next_id w) (registrations w) listeners).
End wait.

Arguments WaitRegistration : clear implicits.
Arguments WaitQueue : clear implicits.

(** ** Facts about event sets *)

(** The event number [k] is in the set [s]. *)
Definition has (s k : Z) : Prop := Z.testbit s k = true.

#[global] Instance has_dec s k : Decision (has s k).
Proof. unfold has. apply _. Defined.

Lemma has_empty k : ¬ has 0 k.
Proof. unfold has. by rewrite Z.bits_0. Qed.

Lemma has_or a b k : has (PollEvents.bitor a b) k ↔ has a k ∨ has b k.
Proof. unfold has, PollEvents.bitor. by rewrite Z.lor_spec, orb_true_iff. Qed.

Lemma has_and a b k : has (PollEvents.intersection a b) k ↔ has a k ∧ has b k.
Proof. unfold has, PollEvents.intersection. by rewrite Z.land_spec, andb_true_iff. Qed.

Lemma contains_has a b k : PollEvents.contains a b = true → has b k → has a k.
Proof.
  unfold PollEvents.contains, has. intros H%Z.eqb_eq Hk. rewrite <- H, Z.land_spec in Hk.
  by apply andb_true_iff in Hk as [? _].
Qed.

(** A single-bit set has one event. *)
Lemma has_pow2 n k : 0 <= n → has (2 ^ n) k ↔ k = n.
Proof. unfold has. intros Hn. rewrite Z.pow2_bits_eqb, Z.eqb_eq by done. naive_solver. Qed.

(** ** Facts about wait queues *)

Section wait_facts.
Context {L : Type}.
Implicit Types (w : WaitQueue L) (l : list (Z * WaitRegistration L)).

(** Every registered listener interested in an event of [events] is woken
    with it, and nobody else. *)
Lemma matching_spec events l x m :
  (x, m) ∈ matching events l ↔
  ∃ id mask, (id, mkReg mask x) ∈ l ∧ m = PollEvents.intersection events mask ∧ m ≠ 0.
Proof.
  induction l as [|[id [mask y]] l IH]; simpl.
  - split; [by intros ?%elem_of_nil|]. by intros (? & ? & ?%elem_of_nil & _).
  - case_decide as Hd; rewrite ?elem_of_cons, IH; setoid_rewrite elem_of_cons; unfold PollEvents.empty in *; split.
    + intros [[= -> ->]|(id' & mask' & H & Hm)]; [by exists id, mask; auto|]. exists id', mask'; auto.
    + intros (id' & mask' & [[= -> -> ->]|H] & -> & Hm); [by left|]. right. eauto.
    + intros (id' & mask' & H & Hm). exists id', mask'; auto.
    + intros (id' & mask' & [[= -> -> ->]|H] & -> & Hm); [|eauto]. by destruct Hd.
Qed.

Lemma notify_wakes w events id mask x k :
  (id, mkReg mask x) ∈ registrations w → has events k → has mask k →
  ∃ m, (x, m) ∈ (notify w events).1 ∧ has m k.
Proof.
  intros Hin He Hm. exists (PollEvents.intersection events mask). split; [|by apply has_and].
  apply matching_spec. exists id, mask. split; [done|]. split; [done|].
  intros H0. apply (has_empty k). rewrite <- H0. by apply has_and.
Qed.

(** Registrations are sorted by identifier, below the next one. *)
Definition wait_ok w : Prop :=
  StronglySorted Z.lt (registrations w).*1 ∧ Forall (λ k, 0 < k < next_id w) (registrations w).*1 ∧
  0 < next_id w.

Lemma tree_insert_last (k : Z) v l :
  Forall (λ k', k' < k) l.*1 → tree_insert k v l = l ++ [(k, v)].
Proof.
  induction l as [|[k' v'] l IH]; intros Hl; [done|]. apply Forall_cons in Hl as [Hk Hl]. simpl in *.
  rewrite !decide_False by lia. by rewrite IH.
Qed.

Lemma tree_remove_last (k : Z) v l :
  Forall (λ k', k' < k) l.*1 → tree_remove k (l ++ [(k, v)]) = (l, Some v).
Proof.
  induction l as [|[k' v'] l IH]; intros Hl; simpl.
  - by rewrite decide_True.
  - apply Forall_cons in Hl as [Hk Hl]. simpl in Hk. rewrite decide_False by lia. by rewrite IH.
Qed.

Lemma register_ok w events x :
  wait_ok w → next_id w < u64_max →
  wait_ok (register w events x).2 ∧
  registrations (register w events x).2 = registrations w ++ [(next_id w, mkReg events x)].
Proof.
  intros (Hs & Hf & Hp) Hlt. simpl.
  assert (Forall (λ k', k' < next_id w) (registrations w).*1) as Hlow.
  { eapply Forall_impl; [exact Hf|]. simpl. lia. }
  rewrite tree_insert_last by done. split; [|done].
  unfold wait_ok. simpl. unfold wrapping_add. rewrite Z.mod_small by lia.
  rewrite fmap_app. split; [|split; [|lia]].
  - apply StronglySorted_app. split; [|split; [done|]].
    + intros a b Ha ->%list_elem_of_singleton. rewrite Forall_forall in Hlow. by apply Hlow.
    + repeat constructor.
  - apply Forall_app. split; [|constructor; [simpl; lia|constructor]].
    eapply Forall_impl; [exact Hf|]. simpl. lia.
Qed.
End wait_facts.

(** ** What a pollable file owes its waiters *)

(** [pl_ok]: the states the file can be in; [pl_step s s' woken]: one
    operation on the file, and the listeners it wakes. *)
Class Pollable (St L : Type) := {
  pl_ok : St → Prop;
  pl_poll : St → Z → Z;
  pl_waiters : St → WaitQueue L;
  pl_step : St → St → list (L * Z) → Prop;
}.

Class PollableSpec (St L : Type) `{Pollable St L} : Prop := {
  pl_ok_step s s' woken : pl_ok s → pl_step s s' woken → pl_ok s';
  (** Only requested or unconditional events are reported. *)
  pl_requested s events k :
    has (pl_poll s events) k → has (PollEvents.bitor events PollEvents.ALWAYS) k;
  (** No lost wakeup. *)
  pl_no_lost_wakeup s s' woken events id mask x k :
    pl_ok s → pl_step s s' woken →
    ¬ has (pl_poll s events) k → has (pl_poll s' events) k →
    (id, mkReg mask x) ∈ registrations (pl_waiters s) → has mask k →
    ∃ m, (x, m) ∈ woken ∧ has m k;
}.
