(* ===== verification/Errno.v ===== *)
(** * System error codes

    Models [aether-kernel/src/errno.rs]: the error type of the system calls,
    its Linux numbers in both directions, and the translation of file system
    errors. *)

From S2P Require Import Prelude Poll.

Module SysErr.
Inductive SysErr :=
| Perm | NoEnt | Srch | Intr | Io | Nxio | TooBig | NoExec | BadFd | Child | Again | NoMem
| Access | Fault | NotBlk | Busy | Exists | XDev | NoDev | NotDir | IsDir | Inval | NFile
| MFile | NoTty | TxtBsy | FBig | NoSpc | SPipe | RoFs | MLink | Pipe | Dom | Range | DeadLk
| NameTooLong | NoLck | NoSys | NotEmpty | Loop | NoMsg | IdRm | Chrng | L2Nsyc | L3Hlt | L3Rst
| LnRng | Unatch | NoCsi | L2Hlt | Bade | Badr | XFull | NoAno | BadRqc | BadSlt | DeadLock
| Bfont | NoStr | NoData | Time | NoSr | NoNet | NoPkg | Remote | NoLink | Adv | SrMnt | Comm
| Proto | MultiHop | DotDot | BadMsg | Overflow | NotUniq | BadFdState | RemChg | LibAcc
| LibBad | LibScn | LibMax | LibExec | IlSeq | Restart | StrPipe | Users | NotSock | DestAddrReq
| MsgSize | ProtoType | NoProtoOpt | ProtoNoSupport | SockTNoSupport | NotSup | PfNoSupport
| AfNoSupport | AddrInUse | AddrNotAvail | NetDown | NetUnreach | NetReset | ConnAborted
| ConnReset | NoBufs | IsConn | NotConn | Shutdown | TooManyRefs | TimedOut | ConnRefused
| HostDown | HostUnreach | Already | InProgress | Stale | Uclean | NotNam | Navail | IsNam
| RemoteIo | DQuot | NoMedium | MediumType | Canceled | NoKey | KeyExpired | KeyRevoked
| KeyRejected | OwnerDead | NotRecoverable | RfKill | HwPoison.

Definition code (self : SysErr) : Z :=
match self with
| Perm => 1 | NoEnt => 2 | Srch => 3 | Intr => 4 | Io => 5 | Nxio => 6 | TooBig => 7
| NoExec => 8 | BadFd => 9 | Child => 10 | Again => 11 | NoMem => 12 | Access => 13
| Fault => 14 | NotBlk => 15 | Busy => 16 | Exists => 17 | XDev => 18 | NoDev => 19
| NotDir => 20 | IsDir => 21 | Inval => 22 | NFile => 23 | MFile => 24 | NoTty => 25
| TxtBsy => 26 | FBig => 27 | NoSpc => 28 | SPipe => 29 | RoFs => 30 | MLink => 31
| Pipe => 32 | Dom => 33 | Range => 34 | DeadLk => 35 | NameTooLong => 36 | NoLck => 37
| NoSys => 38 | NotEmpty => 39 | Loop => 40 | NoMsg => 42 | IdRm => 43 | Chrng => 44
| L2Nsyc => 45 | L3Hlt => 46 | L3Rst => 47 | LnRng => 48 | Unatch => 49 | NoCsi => 50
| L2Hlt => 51 | Bade => 52 | Badr => 53 | XFull => 54 | NoAno => 55 | BadRqc => 56
| BadSlt => 57 | DeadLock => 58 | Bfont => 59 | NoStr => 60 | NoData => 61 | Time => 62
| NoSr => 63 | NoNet => 64 | NoPkg => 65 | Remote => 66 | NoLink => 67 | Adv => 68
| SrMnt => 69 | Comm => 70 | Proto => 71 | MultiHop => 72 | DotDot => 73 | BadMsg => 74
| Overflow => 75 | NotUniq => 76 | BadFdState => 77 | RemChg => 78 | LibAcc => 79
| LibBad => 80 | LibScn => 81 | LibMax => 82 | LibExec => 83 | IlSeq => 84 | Restart => 85
| StrPipe => 86 | Users => 87 | NotSock => 88 | DestAddrReq => 89 | MsgSize => 90
| ProtoType => 91 | NoProtoOpt => 92 | ProtoNoSupport => 93 | SockTNoSupport => 94
| NotSup => 95 | PfNoSupport => 96 | AfNoSupport => 97 | AddrInUse => 98 | AddrNotAvail => 99
| NetDown => 100 | NetUnreach => 101 | NetReset => 102 | ConnAborted => 103 | ConnReset => 104
| NoBufs => 105 | IsConn => 106 | NotConn => 107 | Shutdown => 108 | TooManyRefs => 109
| TimedOut => 110 | ConnRefused => 111 | HostDown => 112 | HostUnreach => 113 | Already => 114
| InProgress => 115 | Stale => 116 | Uclean => 117 | NotNam => 118 | Navail => 119
| IsNam => 120 | RemoteIo => 121 | DQuot => 122 | NoMedium => 123 | MediumType => 124
| Canceled => 125 | NoKey => 126 | KeyExpired => 127 | KeyRevoked => 128 | KeyRejected => 129
| OwnerDead => 130 | NotRecoverable => 131 | RfKill => 132 | HwPoison => 133
end.

(** What the system call stores in the return register. *)
Definition errno (self : SysErr) : Z := - code self.

Definition from_code (code : Z) : option SysErr :=
match code with
| 1 => Some Perm | 2 => Some NoEnt | 3 => Some Srch | 4 => Some Intr | 5 => Some Io
| 6 => Some Nxio | 7 => Some TooBig | 8 => Some NoExec | 9 => Some BadFd | 10 => Some Child
| 11 => Some Again | 12 => Some NoMem | 13 => Some Access | 14 => Some Fault
| 15 => Some NotBlk | 16 => Some Busy | 17 => Some Exists | 18 => Some XDev | 19 => Some NoDev
| 20 => Some NotDir | 21 => Some IsDir | 22 => Some Inval | 23 => Some NFile
| 24 => Some MFile | 25 => Some NoTty | 26 => Some TxtBsy | 27 => Some FBig | 28 => Some NoSpc
| 29 => Some SPipe | 30 => Some RoFs | 31 => Some MLink | 32 => Some Pipe | 33 => Some Dom
| 34 => Some Range | 35 => Some DeadLk | 36 => Some NameTooLong | 37 => Some NoLck
| 38 => Some NoSys | 39 => Some NotEmpty | 40 => Some Loop | 42 => Some NoMsg
| 43 => Some IdRm | 44 => Some Chrng | 45 => Some L2Nsyc | 46 => Some L3Hlt | 47 => Some L3Rst
| 48 => Some LnRng | 49 => Some Unatch | 50 => Some NoCsi | 51 => Some L2Hlt | 52 => Some Bade
| 53 => Some Badr | 54 => Some XFull | 55 => Some NoAno | 56 => Some BadRqc
| 57 => Some BadSlt | 58 => Some DeadLock | 59 => Some Bfont | 60 => Some NoStr
| 61 => Some NoData | 62 => Some Time | 63 => Some NoSr | 64 => Some NoNet | 65 => Some NoPkg
| 66 => Some Remote | 67 => Some NoLink | 68 => Some Adv | 69 => Some SrMnt | 70 => Some Comm
| 71 => Some Proto | 72 => Some MultiHop | 73 => Some DotDot | 74 => Some BadMsg
| 75 => Some Overflow | 76 => Some NotUniq | 77 => Some BadFdState | 78 => Some RemChg
| 79 => Some LibAcc | 80 => Some LibBad | 81 => Some LibScn | 82 => Some LibMax
| 83 => Some LibExec | 84 => Some IlSeq | 85 => Some Restart | 86 => Some StrPipe
| 87 => Some Users | 88 => Some NotSock | 89 => Some DestAddrReq | 90 => Some MsgSize
| 91 => Some ProtoType | 92 => Some NoProtoOpt | 93 => Some ProtoNoSupport
| 94 => Some SockTNoSupport | 95 => Some NotSup | 96 => Some PfNoSupport
| 97 => Some AfNoSupport | 98 => Some AddrInUse | 99 => Some AddrNotAvail
| 100 => Some NetDown | 101 => Some NetUnreach | 102 => Some NetReset
| 103 => Some ConnAborted | 104 => Some ConnReset | 105 => Some NoBufs | 106 => Some IsConn
| 107 => Some NotConn | 108 => Some Shutdown | 109 => Some TooManyRefs | 110 => Some TimedOut
| 111 => Some ConnRefused | 112 => Some HostDown | 113 => Some HostUnreach
| 114 => Some Already | 115 => Some InProgress | 116 => Some Stale | 117 => Some Uclean
| 118 => Some NotNam | 119 => Some Navail | 120 => Some IsNam | 121 => Some RemoteIo
| 122 => Some DQuot | 123 => Some NoMedium | 124 => Some MediumType | 125 => Some Canceled
| 126 => Some NoKey | 127 => Some KeyExpired | 128 => Some KeyRevoked
| 129 => Some KeyRejected | 130 => Some OwnerDead | 131 => Some NotRecoverable
| 132 => Some RfKill | 133 => Some HwPoison
| _ => None
end.

(** [impl From<FsError> for SysErr] *)
Definition from_fs_error (value : FsError) : SysErr :=
match value with
| Poll.NotFound => NoEnt
| Poll.NotDirectory => NotDir
| Poll.NotFile => Inval
| Poll.AlreadyExists => Exists
| Poll.Unsupported => NotSup
| Poll.Io => Io
| Poll.PermissionDenied => Access
| Poll.InvalidInput | Poll.RootNotMounted => Inval
| Poll.WouldBlock => Again
| Poll.BrokenPipe => Pipe
end.
End SysErr.

#[global] Instance SysErr_eq_dec : EqDecision SysErr.SysErr.
Proof. solve_decision. Defined.

(** ** Claims *)

Lemma from_code_code e : SysErr.from_code (SysErr.code e) = Some e.
Proof. by destruct e. Qed.

Lemma code_from_code n e : SysErr.from_code n = Some e → SysErr.code e = n.
Proof.
  unfold SysErr.from_code. intros H.
  repeat (case_match; try discriminate); simplify_eq; reflexivity.
Qed.

(** The numbering of the errors is a bijection between the error type and
    the known Linux numbers: decoding inverts encoding and conversely, so no
    two errors share a number, and every returned [errno] is between -133 and
    -1. *)
Theorem errno_bijection :
  (∀ e, SysErr.from_code (SysErr.code e) = Some e) ∧
  (∀ n e, SysErr.from_code n = Some e → SysErr.code e = n) ∧
  (∀ e, -133 <= SysErr.errno e <= -1).
Proof.
  split; [exact from_code_code|]. split; [exact code_from_code|].
  intros e. unfold SysErr.errno. destruct e; simpl; lia.
Qed.
