(* ===== verification/Pipe.v ===== *)
(** * Pipes

    Models [aether-kernel/libs/aether-fs/src/pipe.rs].  The state is the
    [PipeState] shared by the two endpoints.  Each operation returns its
    result, the new state and the listeners it wakes.  The write loop releases
    the lock between two chunks, so one iteration ([write_step]) is the unit
    that other threads interleave with; [write] is the loop run alone. *)

From S2P Require Import Prelude Poll.

Definition PIPE_CAPACITY : nat := 64 * 1024.
#[global] Arguments PIPE_CAPACITY : simpl never.
#[global] Opaque PIPE_CAPACITY.

Inductive PipeEndpointKind := Read | Write.

#[global] Instance PipeEndpointKind_eq_dec : EqDecision PipeEndpointKind.
Proof. solve_decision. Defined.

Section pipe.
Context {L : Type}.

Record PipeState := mkPipe {
  bytes : list Z;
  readers : Z;
  writers : Z;
  version : Z;
  waiters : WaitQueue L;
}.

Definition PipeState_default : PipeState := mkPipe [] 0 0 1 WaitQueue_new.

Definition bump (s : PipeState) : PipeState :=
  mkPipe (bytes s) (readers s) (writers s) (wrapping_add u64_max (version s) 1) (waiters s).

Definition set_bytes (bs : list Z) (s : PipeState) : PipeState :=
  mkPipe bs (readers s) (writers s) (version s) (waiters s).

Definition set_ends (r w : Z) (s : PipeState) : PipeState :=
  mkPipe (bytes s) r w (version s) (waiters s).

Definition notify_pipe (events : Z) (s : PipeState) : PipeState * list (L * Z) :=
  let '(woken, w) := notify (waiters s) events in
  (mkPipe (bytes s) (readers s) (writers s) (version s) w, woken).

Definition ENDS_CHANGED : Z :=
  PollEvents.bitor (PollEvents.bitor (PollEvents.bitor PollEvents.READ PollEvents.WRITE)
                                     PollEvents.ERROR) PollEvents.HUP.

Definition add_reader (s : PipeState) : PipeState * list (L * Z) :=
  notify_pipe ENDS_CHANGED (bump (set_ends (saturating_add u64_max (readers s) 1) (writers s) s)).
Definition add_writer (s : PipeState) : PipeState * list (L * Z) :=
  notify_pipe ENDS_CHANGED (bump (set_ends (readers s) (saturating_add u64_max (writers s) 1) s)).
Definition remove_reader (s : PipeState) : PipeState * list (L * Z) :=
  notify_pipe ENDS_CHANGED (bump (set_ends (saturating_sub (readers s) 1) (writers s) s)).
Definition remove_writer (s : PipeState) : PipeState * list (L * Z) :=
  notify_pipe ENDS_CHANGED (bump (set_ends (readers s) (saturating_sub (writers s) 1) s)).

(** ** [FileOperations] of an endpoint *)

Definition pipe_open (kind : PipeEndpointKind) (s : PipeState) : PipeState * list (L * Z) :=
  match kind with Read => add_reader s | Write => add_writer s end.

Definition pipe_release (kind : PipeEndpointKind) (s : PipeState) : PipeState * list (L * Z) :=
  match kind with Read => remove_reader s | Write => remove_writer s end.

(** [read] into a buffer of [n] bytes; the result is the bytes copied to the
    front of the buffer. *)
Definition pipe_read (kind : PipeEndpointKind) (n : nat) (s : PipeState)
    : outcome FsError (list Z) * PipeState * list (L * Z) :=
  if decide (kind ≠ Read) then (Err InvalidInput, s, [])
  else if decide (bytes s ≠ []) then
    let was_full := bool_decide (length (bytes s) = PIPE_CAPACITY) in
    let count := (n `min` length (bytes s))%nat in
    let data := take count (bytes s) in
    let s := bump (set_bytes (drop count (bytes s)) s) in
    if was_full
    then let '(s, woken) := notify_pipe PollEvents.WRITE s in (Ok data, s, woken)
    else (Ok data, s, [])
  else if decide (writers s = 0) then (Ok [], s, [])
  else (Err WouldBlock, s, []).

(** One iteration of the loop of [write], entered with [written < buffer.len()]:
    [inl] is the new count, [inr] a return. *)
Definition write_step (buffer : list Z) (written : nat) (s : PipeState)
    : (nat + outcome FsError nat) * PipeState * list (L * Z) :=
  if decide (readers s = 0) then
    (inr (if decide (written = 0)%nat then Err BrokenPipe else Ok written), s, [])
  else
    let space := (PIPE_CAPACITY - length (bytes s))%nat in
    if decide (space = 0)%nat then
      (inr (if decide (written = 0)%nat then Err WouldBlock else Ok written), s, [])
    else
      let chunk := ((length buffer - written) `min` space)%nat in
      let s := set_bytes (bytes s ++ take chunk (drop written buffer)) s in
      let '(s, woken) := notify_pipe PollEvents.READ (bump s) in
      (inl (written + chunk)%nat, s, woken).

Fixpoint write_loop (fuel : nat) (buffer : list Z) (written : nat) (s : PipeState)
    : outcome FsError nat * PipeState * list (L * Z) :=
  if decide (written < length buffer)%nat then
    match fuel with
    | O => (Diverge, s, [])
    | S fuel' =>
        match write_step buffer written s with
        | (inr r, s', woken) => (r, s', woken)
        | (inl written', s', woken) =>
            let '(r, s'', woken') := write_loop fuel' buffer written' s' in
            (r, s'', woken ++ woken')
        end
    end
  else (Ok written, s, []).

(** Every iteration writes at least one byte. *)
Definition pipe_write (kind : PipeEndpointKind) (buffer : list Z) (s : PipeState)
    : outcome FsError nat * PipeState * list (L * Z) :=
  if decide (kind ≠ Write) then (Err InvalidInput, s, [])
  else write_loop (length buffer) buffer 0 s.

Definition pipe_poll (kind : PipeEndpointKind) (s : PipeState) (events : Z) : Z :=
  let ready := PollEvents.empty in
  let ready := if bool_decide (kind = Read) && PollEvents.contains events PollEvents.READ &&
                  (negb (bool_decide (bytes s = [])) || bool_decide (writers s = 0))
               then PollEvents.bitor ready PollEvents.READ else ready in
  let ready := if bool_decide (kind = Read) && bool_decide (writers s = 0)
               then PollEvents.bitor ready PollEvents.HUP else ready in
  let ready := if bool_decide (kind = Write) && PollEvents.contains events PollEvents.WRITE &&
                  negb (bool_decide (readers s = 0)) &&
                  bool_decide (length (bytes s) < PIPE_CAPACITY)%nat
               then PollEvents.bitor ready PollEvents.WRITE else ready in
  let ready := if bool_decide (kind = Write) && bool_decide (readers s = 0)
               then PollEvents.bitor ready PollEvents.ERROR else ready in
  ready.

Definition pipe_register (events : Z) (x : L) (s : PipeState) : Z * PipeState :=
  let '(id, w) := register (waiters s) events x in
  (id, mkPipe (bytes s) (readers s) (writers s) (version s) w).

Definition pipe_unregister (id : Z) (s : PipeState) : PipeState :=
  mkPipe (bytes s) (readers s) (writers s) (version s) (unregister (waiters s) id).2.

(** ** Readiness *)

Lemma pipe_poll_spec kind s events k :
  has (pipe_poll kind s events) k ↔
  match kind with
  | Read => (k = 0 ∧ PollEvents.contains events PollEvents.READ = true ∧
               (bytes s ≠ [] ∨ writers s = 0)) ∨ (k = 3 ∧ writers s = 0)
  | Write => (k = 1 ∧ PollEvents.contains events PollEvents.WRITE = true ∧
                readers s ≠ 0 ∧ (length (bytes s) < PIPE_CAPACITY)%nat) ∨ (k = 2 ∧ readers s = 0)
  end.
Proof.
  unfold pipe_poll, PollEvents.empty.
  assert (∀ (c : bool) a b, has (if c then PollEvents.bitor a b else a) k ↔ has a k ∨ (c = true ∧ has b k))
    as Hif. { intros [] a b; rewrite ?has_or; naive_solver. }
  rewrite !Hif. change PollEvents.READ with (2 ^ 0). change PollEvents.HUP with (2 ^ 3).
  change PollEvents.WRITE with (2 ^ 1). change PollEvents.ERROR with (2 ^ 2).
  rewrite !has_pow2 by lia. rewrite !andb_true_iff, ?orb_true_iff, ?negb_true_iff.
  rewrite ?bool_decide_eq_true, ?bool_decide_eq_false. pose proof (has_empty k).
  destruct kind; naive_solver.
Qed.

(** ** Steps *)

(** The atomic steps of the threads that share the pipe. *)
Inductive pipe_step : PipeState → PipeState → list (L * Z) → Prop :=
| step_open kind s s' woken : pipe_open kind s = (s', woken) → pipe_step s s' woken
| step_release kind s s' woken : pipe_release kind s = (s', woken) → pipe_step s s' woken
| step_read kind n s r s' woken : pipe_read kind n s = (r, s', woken) → pipe_step s s' woken
| step_write buffer written s r s' woken :
    (written < length buffer)%nat → write_step buffer written s = (r, s', woken) →
    pipe_step s s' woken
| step_register events x s : pipe_step s (pipe_register events x s).2 []
| step_unregister id s : pipe_step s (pipe_unregister id s) [].

Definition pipe_ok (s : PipeState) : Prop := (length (bytes s) <= PIPE_CAPACITY)%nat.

Definition pipe_pollable (kind : PipeEndpointKind) : Pollable PipeState L := {|
  pl_ok := pipe_ok;
  pl_poll := pipe_poll kind;
  pl_waiters := waiters;
  pl_step := pipe_step;
|}.

Lemma ENDS_CHANGED_has k : has ENDS_CHANGED k ↔ 0 <= k <= 3.
Proof.
  unfold ENDS_CHANGED. rewrite !has_or.
  change PollEvents.READ with (2 ^ 0). change PollEvents.HUP with (2 ^ 3).
  change PollEvents.WRITE with (2 ^ 1). change PollEvents.ERROR with (2 ^ 2).
  rewrite !has_pow2 by lia. lia.
Qed.

Lemma pipe_poll_range kind s events k : has (pipe_poll kind s events) k → 0 <= k <= 3.
Proof. rewrite pipe_poll_spec. destruct kind; lia. Qed.

(** What a step does: it notifies every event, or leaves the ends alone and
    notifies the event of the side it served. *)
Lemma pipe_step_effect s s' woken :
  pipe_step s s' woken →
  (∃ s1, waiters s1 = waiters s ∧ (s', woken) = notify_pipe ENDS_CHANGED s1) ∨
  (readers s' = readers s ∧ writers s' = writers s ∧
   ((bytes s = [] → bytes s' ≠ [] → woken = (notify (waiters s) PollEvents.READ).1) ∧
    (length (bytes s) = PIPE_CAPACITY → (length (bytes s') < PIPE_CAPACITY)%nat → woken = (notify (waiters s) PollEvents.WRITE).1))).
Proof.
  intros Hs. destruct Hs as [kind s s' woken H|kind s s' woken H|kind n s r s' woken H
    |buffer written s r s' woken Hw H|events x s|id s].
  - left. destruct kind; simpl in H; eexists; (split; [|symmetry; exact H]); done.
  - left. destruct kind; simpl in H; eexists; (split; [|symmetry; exact H]); done.
  - right. unfold pipe_read in H. destruct (decide (kind ≠ Read)).
    { simplify_eq/=. repeat split; try done; lia. }
    destruct (decide (bytes s ≠ [])) as [Hb|Hb].
    2:{ case_decide; simplify_eq/=; repeat split; try done; lia. }
    case_bool_decide; simplify_eq/=; repeat split; done.
  - right. unfold write_step in H.
    repeat case_decide; simplify_eq/=; repeat split; try done; lia.
  - right. simpl. repeat split; try done; lia.
  - right. simpl. repeat split; try done; lia.
Qed.

Lemma pipe_step_ok s s' woken : pipe_ok s → pipe_step s s' woken → pipe_ok s'.
Proof.
  unfold pipe_ok. intros Hok Hs. destruct Hs as [kind s s' woken H|kind s s' woken H
    |kind n s r s' woken H|buffer written s r s' woken Hw H|events x s|id s]; try done.
  - destruct kind; unfold pipe_open, add_reader, add_writer, notify_pipe in H; by simplify_eq/=.
  - destruct kind; unfold pipe_release, remove_reader, remove_writer, notify_pipe in H; by simplify_eq/=.
  - unfold pipe_read in H. repeat case_decide; simplify_eq/=; try done;
      rewrite length_drop; lia.
  - unfold write_step in H. repeat case_decide; simplify_eq/=; try done.
    rewrite length_app, length_take. lia.
Qed.

Lemma notify_pipe_wakes s ev id mask x k :
  (id, mkReg mask x) ∈ registrations (waiters s) → has ev k → has mask k →
  ∃ m, (x, m) ∈ (notify_pipe ev s).2 ∧ has m k.
Proof. intros. by eapply notify_wakes. Qed.

Lemma pipe_no_lost kind s s' woken events id mask x k :
  pipe_ok s → pipe_step s s' woken →
  ¬ has (pipe_poll kind s events) k → has (pipe_poll kind s' events) k →
  (id, mkReg mask x) ∈ registrations (waiters s) → has mask k →
  ∃ m, (x, m) ∈ woken ∧ has m k.
Proof.
  intros Hok Hs Hno Hyes Hreg Hm. pose proof (pipe_poll_range _ _ _ _ Hyes) as Hk.
  apply pipe_step_effect in Hs as [(s1 & Hw & Heq)|(Hr & Hw & Hread & Hwrite)].
  { replace woken with (notify_pipe ENDS_CHANGED s1).2 by (by rewrite <- Heq).
    eapply notify_pipe_wakes; [rewrite Hw; exact Hreg|by apply ENDS_CHANGED_has|done]. }
  rewrite pipe_poll_spec in Hno, Hyes. destruct kind; rewrite ?Hr, ?Hw in Hyes.
  - destruct Hyes as [(-> & Hc & Hy)|?]; [|tauto].
    assert (bytes s = [] ∧ bytes s' ≠ []) as [H1 H2].
    { destruct (decide (bytes s = [])); naive_solver. }
    rewrite Hread by done. eapply notify_wakes; [exact Hreg| |done].
    change PollEvents.READ with (2 ^ 0). by apply has_pow2.
  - destruct Hyes as [(-> & Hc & Hy & Hlt)|?]; [|tauto]. unfold pipe_ok in Hok.
    assert (length (bytes s) = PIPE_CAPACITY) as Hfull.
    { destruct (decide (length (bytes s) = PIPE_CAPACITY)); [done|]. destruct Hno. left.
      repeat split; auto; lia. }
    rewrite Hwrite by done. eapply notify_wakes; [exact Hreg| |done].
    change PollEvents.WRITE with (2 ^ 1). by apply has_pow2.
Qed.

Lemma pipe_requested kind s events k :
  has (pipe_poll kind s events) k → has (PollEvents.bitor events PollEvents.ALWAYS) k.
Proof.
  rewrite pipe_poll_spec, has_or. destruct kind; intros [(-> & Hc & _)|(-> & _)].
  - left. by eapply contains_has.
  - by right.
  - left. by eapply contains_has.
  - by right.
Qed.

(** ** Data *)

(** The calls that threads make on the two ends.  [OpWrite] begins a call of
    [write]; [OpContinue c] runs the next iteration of the [c]-th such call, so
    that lists of operations describe every interleaving of the chunks. *)
Inductive pipe_op :=
| OpOpen (kind : PipeEndpointKind)
| OpRelease (kind : PipeEndpointKind)
| OpRead (kind : PipeEndpointKind) (n : nat)
| OpWrite (kind : PipeEndpointKind) (buffer : list Z)
| OpContinue (c : nat)
| OpRegister (events : Z) (x : L)
| OpUnregister (id : Z).

(** A call of [write]: its data, how much it has written, what it returned. *)
Record write_call := mkCall {
  wc_buffer : list Z;
  wc_written : nat;
  wc_result : option (outcome FsError nat);
}.

(** What is observed: the calls of [write] begun, the bytes that entered the
    pipe, each with the call it belongs to, and the bytes that reads
    returned. *)
Record pipe_history := mkHist {
  h_pipe : PipeState;
  h_calls : list write_call;
  h_in : list (nat * Z);
  h_out : list Z;
}.

Definition on_pipe (h : pipe_history) (s : PipeState) : pipe_history :=
  mkHist s (h_calls h) (h_in h) (h_out h).

Definition continue_write (c : nat) (h : pipe_history) : pipe_history :=
  match h_calls h !! c with
  | Some (mkCall buffer written None) =>
      if decide (written < length buffer)%nat then
        match write_step buffer written (h_pipe h) with
        | (inl written', s, _) =>
            mkHist s (<[c := mkCall buffer written' None]> (h_calls h))
              (h_in h ++ map (pair c) (take (written' - written) (drop written buffer))) (h_out h)
        | (inr r, s, _) =>
            mkHist s (<[c := mkCall buffer written (Some r)]> (h_calls h)) (h_in h) (h_out h)
        end
      else mkHist (h_pipe h) (<[c := mkCall buffer written (Some (Ok written))]> (h_calls h))
             (h_in h) (h_out h)
  | _ => h
  end.

Definition pipe_do (h : pipe_history) (op : pipe_op) : pipe_history :=
  match op with
  | OpOpen kind => on_pipe h (pipe_open kind (h_pipe h)).1
  | OpRelease kind => on_pipe h (pipe_release kind (h_pipe h)).1
  | OpRead kind n =>
      match pipe_read kind n (h_pipe h) with
      | (Ok data, s, _) => mkHist s (h_calls h) (h_in h) (h_out h ++ data)
      | (_, s, _) => on_pipe h s
      end
  | OpWrite kind buffer =>
      mkHist (h_pipe h)
        (h_calls h ++ [mkCall buffer 0 (if decide (kind ≠ Write) then Some (Err InvalidInput) else None)])
        (h_in h) (h_out h)
  | OpContinue c => continue_write c h
  | OpRegister events x => on_pipe h (pipe_register events x (h_pipe h)).2
  | OpUnregister id => on_pipe h (pipe_unregister id (h_pipe h))
  end.

(** The history of a new pipe after [ops]. *)
Definition pipe_history_of (ops : list pipe_op) : pipe_history :=
  fold_left pipe_do ops (mkHist PipeState_default [] [] []).

(** The bytes of call [c] that entered the pipe. *)
Definition entered (c : nat) (h : pipe_history) : list Z :=
  (filter (λ e, e.1 = c) (h_in h)).*2.

(** A call has put exactly the first [wc_written] bytes of its data into the
    pipe, and what it returns is that count, or an error when it is zero. *)
Definition call_ok (h : pipe_history) (c : nat) (w : write_call) : Prop :=
  (wc_written w <= length (wc_buffer w))%nat ∧
  entered c h = take (wc_written w) (wc_buffer w) ∧
  match wc_result w with
  | None => True
  | Some (Ok n) => n = wc_written w
  | Some (Err _) => wc_written w = 0%nat
  | Some _ => False
  end.

Record history_ok (h : pipe_history) : Prop := {
  ho_fifo : (h_in h).*2 = h_out h ++ bytes (h_pipe h);
  ho_cap : pipe_ok (h_pipe h);
  ho_calls : ∀ c w, h_calls h !! c = Some w → call_ok h c w;
  ho_tags : ∀ c, (length (h_calls h) <= c)%nat → entered c h = [];
}.

Lemma ends_keep_bytes kind s :
  bytes (pipe_open kind s).1 = bytes s ∧ bytes (pipe_release kind s).1 = bytes s.
Proof. by destruct kind. Qed.

Lemma on_pipe_ok h s : history_ok h → bytes s = bytes (h_pipe h) → history_ok (on_pipe h s).
Proof. intros [H1 H2 H3 H4] Hb. split; simpl; [by rewrite Hb|by red; rewrite Hb|done..]. Qed.

Lemma pipe_read_effect kind n s :
  match pipe_read kind n s with
  | (Ok data, s', _) => bytes s = data ++ bytes s'
  | (_, s', _) => bytes s' = bytes s
  end.
Proof.
  unfold pipe_read. repeat case_decide; simpl; try done; by rewrite take_drop.
Qed.

Lemma write_step_effect buffer written s :
  (written < length buffer)%nat → pipe_ok s →
  match write_step buffer written s with
  | (inl written', s', _) =>
      (written < written' <= length buffer)%nat ∧
      bytes s' = bytes s ++ take (written' - written) (drop written buffer) ∧ pipe_ok s'
  | (inr r, s', _) => s' = s ∧ match r with Ok n => n = written | Err _ => written = 0%nat | _ => False end
  end.
Proof.
  intros Hlt Hok. unfold write_step, pipe_ok in *. repeat case_decide; simpl; try done.
  split; [lia|]. replace (written + _ - written)%nat with
    ((length buffer - written) `min` (PIPE_CAPACITY - length (bytes s)))%nat by lia.
  split; [done|]. rewrite length_app, length_take. lia.
Qed.

Lemma entered_app c d l h :
  (filter (λ e : nat * Z, e.1 = c) (h_in h ++ map (pair d) l)).*2 =
  entered c h ++ (if decide (d = c) then l else []).
Proof.
  unfold entered. rewrite filter_app, fmap_app. f_equal.
  destruct (decide (d = c)) as [->|Hne]; induction l as [|x l IH]; simpl; try done;
    rewrite filter_cons; simpl.
  - rewrite decide_True by done. simpl. f_equal. exact IH.
  - by rewrite decide_False by done.
Qed.

Lemma result_ok h c buffer written r :
  history_ok h → h_calls h !! c = Some (mkCall buffer written None) →
  match r with Ok n => n = written | Err _ => written = 0%nat | _ => False end →
  history_ok (mkHist (h_pipe h) (<[c := mkCall buffer written (Some r)]> (h_calls h)) (h_in h) (h_out h)).
Proof.
  intros [H1 H2 H3 H4] Hc Hr. split; simpl; [done..| |by rewrite length_insert].
  intros d w Hd. destruct (decide (c = d)) as [<-|Hne].
  - rewrite list_lookup_insert_eq in Hd by (by eapply lookup_lt_Some). simplify_eq.
    destruct (H3 _ _ Hc) as (Ha & Hb & _). by split; [|split].
  - rewrite list_lookup_insert_ne in Hd by done. by apply H3.
Qed.

Lemma continue_write_ok c h : history_ok h → history_ok (continue_write c h).
Proof.
  intros Hh. unfold continue_write.
  destruct (h_calls h !! c) as [[buffer written [r|]]|] eqn:Hc; [done| |done].
  case_decide as Hlt; [|by apply result_ok].
  pose proof (write_step_effect buffer written (h_pipe h) Hlt (ho_cap _ Hh)) as He.
  destruct (write_step buffer written (h_pipe h)) as [[[written'|r] s] woken].
  2:{ destruct He as [-> Hr]. by apply result_ok. }
  destruct He as (Hw & Hb & Hok). destruct Hh as [H1 H2 H3 H4].
  set (l := take (written' - written) (drop written buffer)) in *.
  split; simpl; [|done| |].
  - rewrite fmap_app, H1, Hb, <- app_assoc. do 2 f_equal.
    clear. induction l; simpl; by f_equal.
  - intros d w Hd. unfold call_ok, entered. simpl. rewrite entered_app.
    destruct (decide (c = d)) as [<-|Hne].
    + rewrite list_lookup_insert_eq in Hd by (by eapply lookup_lt_Some). simplify_eq. simpl.
      destruct (H3 _ _ Hc) as (Ha & He & _). simpl in *. rewrite He. split; [lia|]. split; [|done].
      unfold l. rewrite take_take_drop. f_equal. lia.
    + rewrite list_lookup_insert_ne in Hd by done. rewrite app_nil_r. by apply H3.
  - intros d Hd. rewrite length_insert in Hd. unfold entered. simpl. rewrite entered_app, H4 by done.
    apply lookup_lt_Some in Hc. by rewrite decide_False by lia.
Qed.

Lemma pipe_do_ok h op : history_ok h → history_ok (pipe_do h op).
Proof.
  intros Hh. destruct op as [kind|kind|kind n|kind buffer|c|events x|id]; simpl.
  - apply on_pipe_ok; [done|]. apply ends_keep_bytes.
  - apply on_pipe_ok; [done|]. apply (ends_keep_bytes kind).
  - pose proof (pipe_read_effect kind n (h_pipe h)) as He.
    destruct (pipe_read kind n (h_pipe h)) as [[[data|e| |] s] woken]; try by apply on_pipe_ok.
    destruct Hh as [H1 H2 H3 H4]. split; simpl; [by rewrite H1, He, app_assoc| |done..].
    unfold pipe_ok in *. rewrite He, length_app in H2. lia.
  - destruct Hh as [H1 H2 H3 H4]. split; simpl; [done..| |].
    + intros c w Hc. apply lookup_app_Some in Hc as [Hc|[Hlen Hc]]; [by apply H3|].
      destruct (c - length (h_calls h))%nat eqn:Hd; [|done]. simpl in Hc. simplify_eq.
      split; [simpl; lia|]. split; [by apply H4|]. simpl. by case_decide.
    + intros c Hc. rewrite length_app in Hc. simpl in Hc. apply H4. lia.
  - by apply continue_write_ok.
  - by apply on_pipe_ok.
  - by apply on_pipe_ok.
Qed.

Lemma pipe_history_ok ops : history_ok (pipe_history_of ops).
Proof.
  unfold pipe_history_of. assert (history_ok (mkHist PipeState_default [] [] [])) as H0.
  { split; try done. unfold pipe_ok. simpl. lia. }
  revert H0. generalize (mkHist PipeState_default [] [] []).
  induction ops as [|op ops IH]; intros h Hh; simpl; [done|]. by apply IH, pipe_do_ok.
Qed.

(** What a read returns, in every state. *)
Lemma pipe_read_exact n s :
  (pipe_read Read n s).1.1 =
  if decide (bytes s ≠ []) then Ok (take n (bytes s))
  else if decide (writers s = 0) then Ok [] else Err WouldBlock.
Proof.
  unfold pipe_read. rewrite decide_False by (by intros []).
  assert (take (n `min` length (bytes s)) (bytes s) = take n (bytes s)) as Ht.
  { by rewrite <- take_take, firstn_all. }
  repeat case_decide; simpl; by rewrite ?Ht.
Qed.

Lemma write_step_progress buffer written s written' s' woken :
  (written < length buffer)%nat → write_step buffer written s = (inl written', s', woken) →
  (written < written' <= length buffer)%nat ∧ readers s' = readers s ∧
  (written' = length buffer ∨ length (bytes s') = PIPE_CAPACITY).
Proof.
  intros Hlt H. unfold write_step in H. repeat case_decide; simplify_eq/=.
  split; [lia|]. split; [done|]. rewrite length_app, length_take, length_drop. lia.
Qed.

Lemma write_loop_full fuel buffer written s :
  (written <= length buffer)%nat → (length buffer - written <= fuel)%nat → (0 < written)%nat →
  (length (bytes s) = PIPE_CAPACITY ∨ written = length buffer) → readers s ≠ 0 →
  write_loop fuel buffer written s = (Ok written, s, []).
Proof.
  intros Hw Hf Hp Hfull Hr. destruct fuel as [|fuel]; simpl.
  { by rewrite decide_False by lia. }
  case_decide as Hlt; [|done]. destruct Hfull as [Hfull|?]; [|lia].
  unfold write_step. rewrite decide_False by done. simpl.
  rewrite decide_True by lia. by rewrite decide_False by lia.
Qed.

Lemma write_loop_first buffer s :
  buffer ≠ [] → pipe_ok s → readers s ≠ 0 → (length (bytes s) < PIPE_CAPACITY)%nat →
  ∃ s' woken, let n := (length buffer `min` (PIPE_CAPACITY - length (bytes s)))%nat in
    write_loop (length buffer) buffer 0 s = (Ok n, s', woken) ∧
    bytes s' = bytes s ++ take n buffer ∧ readers s' = readers s ∧ writers s' = writers s.
Proof.
  intros Hne Hok Hr Hlt. set (n := (length buffer `min` _)%nat).
  assert (0 < length buffer)%nat as Hlen by (destruct buffer; simpl; [done|lia]).
  destruct (write_step buffer 0 s) as [[r s1] woken] eqn:Hstep.
  assert (r = inl n ∧ bytes s1 = bytes s ++ take n buffer ∧ readers s1 = readers s ∧
    writers s1 = writers s) as (-> & Hb & Hr1 & Hw1).
  { unfold write_step in Hstep. rewrite decide_False in Hstep by done. simpl in Hstep.
    rewrite decide_False in Hstep by lia. simplify_eq/=. rewrite Nat.sub_0_r. done. }
  exists s1, (woken ++ []). split; [|done]. destruct (length buffer) as [|k] eqn:Hk; [lia|].
  simpl. rewrite Hk, decide_True, Hstep by lia.
  rewrite write_loop_full; [done|lia|lia|lia| |congruence].
  rewrite Hb, length_app, length_take. lia.
Qed.
End pipe.

Arguments PipeState : clear implicits.

(** ** Claims *)

(** Either endpoint of a pipe reports only requested or unconditional
    events, and whenever an operation by any thread makes an event of the
    endpoint ready, every listener registered for that event is woken. *)
Theorem pipe_wakes_waiters (L : Type) (kind : PipeEndpointKind) :
  @PollableSpec (PipeState L) L (pipe_pollable kind).
Proof.
  split; simpl.
  - intros s s' woken. apply pipe_step_ok.
  - intros s events k. apply pipe_requested.
  - intros s s' woken events id mask x k. apply pipe_no_lost.
Qed.

(** C40. A pipe is a bounded first-in first-out channel.  Start from a new
    pipe and let any number of threads open and close its ends, read, write and
    register waiters, the chunks of concurrent calls of [write] interleaved in
    any way.
    Then the bytes that entered the pipe, in the order in which they entered,
    are the bytes that reads returned followed by the bytes still held; no
    more than [PIPE_CAPACITY] bytes are held; the bytes that entered for a call
    of [write] are the first bytes of its data, exactly as many as the call
    returns, none when it returns an error; and a further read returns the
    oldest bytes, as many as are there up to the size of its buffer, the end of
    the data when nothing is held and there is no writer, and [WouldBlock]
    otherwise. *)
Theorem pipe_fifo (L : Type) (ops : list (@pipe_op L)) :
  let h := pipe_history_of ops in
  let s := h_pipe h in
  (h_in h).*2 = h_out h ++ bytes s ∧
  (length (bytes s) <= PIPE_CAPACITY)%nat ∧
  (∀ c buffer written r, h_calls h !! c = Some (mkCall buffer written r) →
    (filter (λ e, e.1 = c) (h_in h)).*2 = take written buffer ∧ (written <= length buffer)%nat ∧
    match r with
    | None => True
    | Some (Ok n) => n = written
    | Some (Err _) => written = 0%nat
    | Some _ => False
    end) ∧
  (∀ n, (pipe_read Read n s).1.1 =
    if decide (bytes s ≠ []) then Ok (take n (bytes s))
    else if decide (writers s = 0) then Ok [] else Err WouldBlock).
Proof.
  intros h s. destruct (pipe_history_ok ops) as [H1 H2 H3 _].
  split; [done|]. split; [done|]. split; [|intros n; apply pipe_read_exact].
  intros c buffer written r Hc. by destruct (H3 c _ Hc) as (Ha & Hb & Hr).
Qed.

(** Two writers whose chunks mix, a reader, and the close of a writer. *)
Example pipe_history_example :
  let h := pipe_history_of [OpOpen Read; OpOpen Write; OpOpen Write; OpWrite Write [1; 2];
    OpWrite Write [3]; OpContinue 1; OpContinue 0; OpContinue 1; OpRelease Write; OpRead Read 2;
    OpContinue 0; OpRelease Write; OpWrite Read [9]] : @pipe_history nat in
  h_out h = [3; 1] ∧ bytes (h_pipe h) = [2] ∧ h_in h = [(1%nat, 3); (0%nat, 1); (0%nat, 2)] ∧
  h_calls h = [mkCall [1; 2] 2 (Some (Ok 2%nat)); mkCall [3] 1 (Some (Ok 1%nat));
               mkCall [9] 0 (Some (Err InvalidInput))].
Proof. by vm_compute. Qed.

(** A write that is not disturbed by other threads always returns: it
    fails with [BrokenPipe] when there is no reader and with [WouldBlock] when
    the buffer is full, changing nothing, and otherwise appends as much of the
    data as fits and returns how much that was. *)
Theorem pipe_write_correct (L : Type) (s : PipeState L) buffer :
  pipe_ok s → buffer ≠ [] →
  let n := (length buffer `min` (PIPE_CAPACITY - length (bytes s)))%nat in
  if decide (readers s = 0) then pipe_write Write buffer s = (Err BrokenPipe, s, [])
  else if decide (length (bytes s) = PIPE_CAPACITY) then
    pipe_write Write buffer s = (Err WouldBlock, s, [])
  else ∃ s' woken, pipe_write Write buffer s = (Ok n, s', woken) ∧ (0 < n)%nat ∧
         bytes s' = bytes s ++ take n buffer ∧ readers s' = readers s ∧ writers s' = writers s.
Proof.
  intros Hok Hne n. change (pipe_write Write buffer s) with (write_loop (length buffer) buffer 0 s).
  assert (0 < length buffer)%nat as Hlen by (destruct buffer; simpl; [done|lia]).
  assert (write_loop (length buffer) buffer 0 s =
    match write_step buffer 0 s with
    | (inr r, s', woken) => (r, s', woken)
    | (inl written', s', woken) =>
        let '(r, s'', woken') := write_loop (pred (length buffer)) buffer written' s' in
        (r, s'', woken ++ woken')
    end) as Hunf.
  { destruct (length buffer) as [|k] eqn:Hk; [lia|]. simpl. by rewrite Hk, decide_True by lia. }
  unfold pipe_ok in Hok. case_decide as Hr.
  { rewrite Hunf. unfold write_step. rewrite decide_True by done. done. }
  case_decide as Hfull.
  { rewrite Hunf. unfold write_step. rewrite decide_False by done. simpl.
    by rewrite !decide_True by lia. }
  destruct (write_loop_first buffer s) as (s' & woken & H1 & H2 & H3 & H4); [done..|lia|].
  exists s', woken. split; [done|]. split; [lia|]. done.
Qed.

Lemma pipe_write_correct_witness :
  ∃ s' woken, pipe_write Write [1; 2] (mkPipe [] 1 1 1 WaitQueue_new : PipeState nat) = (Ok 2%nat, s', woken).
Proof.
  pose proof (pipe_write_correct nat (mkPipe [] 1 1 1 WaitQueue_new) [1; 2]) as H.
  destruct H as (s' & woken & H & _).
  - unfold pipe_ok. simpl. lia.
  - done.
  - exists s', woken. rewrite H. vm_compute. reflexivity.
Defined.
