(* ===== verification/EventFd.v ===== *)
(** * Event counters

    Models [aether-kernel/src/fs/eventfd.rs]: a 64-bit counter that writers add
    to and readers take from (entirely, or one unit at a time in semaphore
    mode), with its readiness and wakeups. *)

From S2P Require Import Prelude Poll.

Definition EFD_SEMAPHORE : Z := 1.
Definition EVENTFD_COUNTER_MAX : Z := u64_max - 1.

Section eventfd.
Context {L : Type}.

Record EventFdFile := mkEventFd {
  counter : Z;
  semaphore : bool;
  efd_version : Z;
  efd_waiters : WaitQueue L;
}.

Definition create_eventfd (initval flags : Z) : EventFdFile :=
  mkEventFd initval (negb (Z.land flags EFD_SEMAPHORE =? 0)) 1 WaitQueue_new.

Definition efd_bump (s : EventFdFile) : EventFdFile :=
  mkEventFd (counter s) (semaphore s) (wrapping_add u64_max (efd_version s) 1) (efd_waiters s).

Definition set_counter (c : Z) (s : EventFdFile) : EventFdFile :=
  mkEventFd c (semaphore s) (efd_version s) (efd_waiters s).

Definition efd_notify (events : Z) (s : EventFdFile) : EventFdFile * list (L * Z) :=
  let '(woken, w) := notify (efd_waiters s) events in
  (mkEventFd (counter s) (semaphore s) (efd_version s) w, woken).

(** [read] into a buffer of [n] bytes: the eight bytes written to it. *)
Definition efd_read (n : nat) (s : EventFdFile)
    : outcome FsError (list Z) * EventFdFile * list (L * Z) :=
  if decide (n < 8)%nat then (Err InvalidInput, s, [])
  else if decide (counter s = 0) then (Err WouldBlock, s, [])
  else
    let was_full := bool_decide (counter s = EVENTFD_COUNTER_MAX) in
    let '(value, c) := if semaphore s then (1, counter s - 1) else (counter s, 0) in
    let s := efd_bump (set_counter c s) in
    if was_full
    then let '(s, woken) := efd_notify PollEvents.WRITE s in (Ok (le_bytes 8 value), s, woken)
    else (Ok (le_bytes 8 value), s, []).

(** [inner.counter += value] panics on overflow. *)
Definition efd_write (buffer : list Z) (s : EventFdFile)
    : outcome FsError nat * EventFdFile * list (L * Z) :=
  if decide (length buffer < 8)%nat then (Err InvalidInput, s, [])
  else
    let value := le_val (take 8 buffer) in
    if decide (value = u64_max) then (Err InvalidInput, s, [])
    else
      let available := saturating_sub EVENTFD_COUNTER_MAX (counter s) in
      if decide (available < value) then (Err WouldBlock, s, [])
      else
        let was_empty := bool_decide (counter s = 0) in
        match checked_add u64_max (counter s) value with
        | None => (Panic, s, [])
        | Some c =>
            let wake_readers := was_empty && negb (value =? 0) in
            let s := set_counter c s in
            if decide (value ≠ 0) then
              let s := efd_bump s in
              if wake_readers
              then let '(s, woken) := efd_notify PollEvents.READ s in (Ok 8%nat, s, woken)
              else (Ok 8%nat, s, [])
            else (Ok 8%nat, s, [])
        end.

Definition efd_poll (s : EventFdFile) (events : Z) : Z :=
  let ready := PollEvents.empty in
  let ready := if PollEvents.contains events PollEvents.READ && negb (counter s =? 0)
               then PollEvents.bitor ready PollEvents.READ else ready in
  let ready := if PollEvents.contains events PollEvents.WRITE && (counter s <? EVENTFD_COUNTER_MAX)
               then PollEvents.bitor ready PollEvents.WRITE else ready in
  ready.

Definition efd_register (events : Z) (x : L) (s : EventFdFile) : Z * EventFdFile :=
  let '(id, w) := register (efd_waiters s) events x in
  (id, mkEventFd (counter s) (semaphore s) (efd_version s) w).

Definition efd_unregister (id : Z) (s : EventFdFile) : EventFdFile :=
  mkEventFd (counter s) (semaphore s) (efd_version s) (unregister (efd_waiters s) id).2.

(** ** Invariant and readiness *)

Definition efd_ok (s : EventFdFile) : Prop := 0 <= counter s <= EVENTFD_COUNTER_MAX.

Lemma efd_poll_spec s events k :
  has (efd_poll s events) k ↔
  (k = 0 ∧ PollEvents.contains events PollEvents.READ = true ∧ counter s ≠ 0) ∨
  (k = 1 ∧ PollEvents.contains events PollEvents.WRITE = true ∧ counter s < EVENTFD_COUNTER_MAX).
Proof.
  unfold efd_poll, PollEvents.empty.
  assert (∀ (c : bool) a b, has (if c then PollEvents.bitor a b else a) k ↔ has a k ∨ (c = true ∧ has b k))
    as Hif. { intros [] a b; rewrite ?has_or; naive_solver. }
  rewrite !Hif. change PollEvents.READ with (2 ^ 0). change PollEvents.WRITE with (2 ^ 1).
  rewrite !has_pow2 by lia. rewrite !andb_true_iff, negb_true_iff, Z.eqb_neq, Z.ltb_lt.
  pose proof (has_empty k). naive_solver.
Qed.

(** Every operation of the file: its result is not observed here. *)
Inductive efd_step : EventFdFile → EventFdFile → list (L * Z) → Prop :=
| efd_step_read n s r s' woken : efd_read n s = (r, s', woken) → efd_step s s' woken
| efd_step_write buffer s r s' woken :
    Forall is_byte buffer → efd_write buffer s = (r, s', woken) → efd_step s s' woken
| efd_step_register events x s : efd_step s (efd_register events x s).2 []
| efd_step_unregister id s : efd_step s (efd_unregister id s) [].

Lemma le_val_nonneg l : Forall is_byte l → 0 <= le_val l.
Proof.
  induction 1 as [|b l Hb Hl IH]; [done|]. unfold le_val, is_byte in *. simpl. lia.
Qed.

Lemma written_value_nonneg buffer : Forall is_byte buffer → 0 <= le_val (take 8 buffer).
Proof. intros H. by apply le_val_nonneg, Forall_take. Qed.

Definition efd_effect (s s' : EventFdFile) (woken : list (L * Z)) : Prop :=
  efd_ok s' ∧
  (counter s = 0 → counter s' ≠ 0 → woken = (notify (efd_waiters s) PollEvents.READ).1) ∧
  (counter s = EVENTFD_COUNTER_MAX → counter s' < EVENTFD_COUNTER_MAX →
     woken = (notify (efd_waiters s) PollEvents.WRITE).1).

Lemma efd_read_effect n s r s' woken :
  efd_ok s → efd_read n s = (r, s', woken) → efd_effect s s' woken.
Proof.
  unfold efd_effect, efd_ok, efd_read, EVENTFD_COUNTER_MAX, u64_max. intros Hok H.
  destruct (semaphore s); repeat case_decide; simplify_eq/=; unfold efd_ok, EVENTFD_COUNTER_MAX, u64_max;
    simpl; repeat split; intros; try done; lia.
Qed.

Lemma efd_write_effect buffer s r s' woken :
  efd_ok s → Forall is_byte buffer → efd_write buffer s = (r, s', woken) → efd_effect s s' woken.
Proof.
  intros Hok Hb H. pose proof (written_value_nonneg buffer Hb) as Hv.
  unfold efd_effect, efd_ok, efd_write, saturating_sub, EVENTFD_COUNTER_MAX, u64_max in *.
  destruct (decide (length buffer < 8)%nat).
  { simplify_eq/=. repeat split; intros; try done; lia. }
  set (v := le_val (take 8 buffer)) in *. cbv zeta in H.
  destruct (decide (v = _)). { simplify_eq/=. repeat split; intros; try done; lia. }
  case_decide. { simplify_eq/=. repeat split; intros; try done; lia. }
  rewrite checked_add_Some in H by (unfold u64_max; lia).
  case_decide as Hv0.
  2:{ assert (v = 0) as Hz by lia. simplify_eq/=. rewrite Hz, Z.add_0_r.
      unfold efd_ok, EVENTFD_COUNTER_MAX, u64_max. simpl. repeat split; intros; try done; lia. }
  destruct (Z.eqb_spec v 0); [done|]. rewrite andb_true_r in H.
  case_bool_decide; simplify_eq/=; unfold efd_ok, EVENTFD_COUNTER_MAX, u64_max; simpl;
    repeat split; intros; try done; lia.
Qed.

Lemma efd_step_effect s s' woken : efd_ok s → efd_step s s' woken → efd_effect s s' woken.
Proof.
  intros Hok Hs. destruct Hs as [n s r s' woken H|buffer s r s' woken Hb H|events x s|id s].
  - by eapply efd_read_effect.
  - by eapply efd_write_effect.
  - unfold efd_effect. simpl. repeat split; try apply Hok; intros; try done; lia.
  - unfold efd_effect. simpl. repeat split; try apply Hok; intros; try done; lia.
Qed.

Definition efd_pollable : Pollable EventFdFile L := {|
  pl_ok := efd_ok;
  pl_poll := efd_poll;
  pl_waiters := efd_waiters;
  pl_step := efd_step;
|}.

Lemma efd_no_lost s s' woken events id mask x k :
  efd_ok s → efd_step s s' woken →
  ¬ has (efd_poll s events) k → has (efd_poll s' events) k →
  (id, mkReg mask x) ∈ registrations (efd_waiters s) → has mask k →
  ∃ m, (x, m) ∈ woken ∧ has m k.
Proof.
  intros Hok Hs Hno Hyes Hreg Hm. destruct (efd_step_effect _ _ _ Hok Hs) as (_ & Hrd & Hwr).
  unfold efd_ok in Hok. rewrite efd_poll_spec in Hno, Hyes.
  destruct Hyes as [(-> & Hc & Hne)|(-> & Hc & Hlt)].
  - rewrite Hrd; [|destruct (decide (counter s = 0)); [done|naive_solver]|done].
    eapply notify_wakes; [exact Hreg| |done]. change PollEvents.READ with (2 ^ 0). by apply has_pow2.
  - rewrite Hwr; [| |done].
    + eapply notify_wakes; [exact Hreg| |done]. change PollEvents.WRITE with (2 ^ 1).
      by apply has_pow2.
    + destruct (decide (counter s < EVENTFD_COUNTER_MAX)); [naive_solver|lia].
Qed.

(** ** Conservation *)

(** The units added and taken along a sequence of operations. *)
Inductive efd_run (initval flags : Z) : EventFdFile → Z → Z → Prop :=
| efd_run_init : efd_run initval flags (create_eventfd initval flags) initval 0
| efd_run_write s added taken buffer s' woken :
    efd_run initval flags s added taken → Forall is_byte buffer →
    efd_write buffer s = (Ok 8%nat, s', woken) →
    efd_run initval flags s' (added + le_val (take 8 buffer)) taken
| efd_run_read s added taken n data s' woken :
    efd_run initval flags s added taken → efd_read n s = (Ok data, s', woken) →
    efd_run initval flags s' added (taken + le_val data)
| efd_run_fail s added taken s' woken :
    efd_run initval flags s added taken → efd_step s s' woken → counter s' = counter s →
    efd_run initval flags s' added taken.

Lemma efd_read_value n s data s' woken :
  efd_ok s → efd_read n s = (Ok data, s', woken) →
  le_val data + counter s' = counter s ∧ 0 < le_val data ∧ length data = 8%nat ∧
  (if semaphore s then le_val data = 1 else counter s' = 0).
Proof.
  unfold efd_ok, efd_read, EVENTFD_COUNTER_MAX, u64_max. intros Hok H.
  destruct (semaphore s); repeat case_decide; simplify_eq/=;
    rewrite ?length_le_bytes, ?le_val_u64 by (unfold in_u64, u64_max; lia); lia.
Qed.

Lemma efd_write_value buffer s s' woken :
  efd_ok s → Forall is_byte buffer → efd_write buffer s = (Ok 8%nat, s', woken) →
  counter s' = counter s + le_val (take 8 buffer).
Proof.
  intros Hok Hb H. pose proof (written_value_nonneg buffer Hb) as Hv.
  unfold efd_ok, efd_write, saturating_sub, EVENTFD_COUNTER_MAX, u64_max in *.
  destruct (decide (length buffer < 8)%nat); [done|].
  set (v := le_val (take 8 buffer)) in *. cbv zeta in H. do 2 (case_decide; [done|]).
  rewrite checked_add_Some in H by (unfold u64_max; lia).
  case_decide; [|by simplify_eq/=]. destruct (_ && _); by simplify_eq/=.
Qed.

Lemma efd_run_balance initval flags s added taken :
  in_u32 initval → efd_run initval flags s added taken →
  efd_ok s ∧ added = taken + counter s.
Proof.
  intros Hi. induction 1 as [|s added taken buffer s' woken Hr [Hok IH] Hb H
    |s added taken n data s' woken Hr [Hok IH] H|s added taken s' woken Hr [Hok IH] H Hc].
  - unfold efd_ok, EVENTFD_COUNTER_MAX, u64_max, in_u32, u32_max in *. simpl. lia.
  - split; [by eapply efd_write_effect|]. rewrite (efd_write_value buffer s s' woken) by done. lia.
  - split; [by eapply efd_read_effect|].
    destruct (efd_read_value n s data s' woken Hok H) as (? & _). lia.
  - split; [by eapply efd_step_effect|]. lia.
Qed.
End eventfd.

Arguments EventFdFile : clear implicits.

(** ** Claims *)

(** An event counter reports only requested events, and whenever a read
    or a write makes it readable or writable, every listener registered for
    that event is woken; the counter stays between 0 and [u64::MAX - 1]. *)
Theorem eventfd_wakes_waiters (L : Type) : @PollableSpec (EventFdFile L) L efd_pollable.
Proof.
  split; simpl.
  - intros s s' woken Hok Hs. by apply (efd_step_effect s s' woken).
  - intros s events k. rewrite efd_poll_spec, has_or.
    intros [(-> & Hc & _)|(-> & Hc & _)]; left; by eapply contains_has.
  - intros s s' woken events id mask x k. apply efd_no_lost.
Qed.

(** No unit is lost or invented: along any sequence of operations, the
    initial value plus everything written equals everything read plus the
    counter, which never overflows. *)
Theorem eventfd_conservation (L : Type) initval flags (s : EventFdFile L) added taken :
  in_u32 initval → efd_run initval flags s added taken →
  added = taken + counter s ∧ 0 <= counter s <= EVENTFD_COUNTER_MAX.
Proof. intros Hi Hr. destruct (efd_run_balance initval flags s added taken Hi Hr). done. Qed.

Lemma eventfd_conservation_witness :
  let s := mkEventFd 4 true 3 (mkWait 1 [] [] : WaitQueue nat) in
  3 + 2 = (0 + 1) + counter s ∧ 0 <= counter s <= EVENTFD_COUNTER_MAX.
Proof.
  apply (eventfd_conservation nat 3 EFD_SEMAPHORE (mkEventFd 4 true 3 (mkWait 1 [] [])) (3 + 2) (0 + 1)).
  - unfold in_u32, u32_max. lia.
  - eapply (efd_run_read 3 EFD_SEMAPHORE (mkEventFd 5 true 2 (mkWait 1 [] [])) _ _ 8 (le_bytes 8 1));
      [|vm_compute; reflexivity].
    eapply (efd_run_write 3 EFD_SEMAPHORE (create_eventfd 3 EFD_SEMAPHORE) 3 0 (le_bytes 8 2));
      [apply efd_run_init|apply le_bytes_ok|vm_compute; reflexivity].
Defined.
