(* ===== verification/Epoll.v ===== *)
(** * Epoll

    Models [aether-kernel/libs/aether-vfs/src/epoll.rs]: the event masks and
    their wire format, the ready list of the notifier, and [ctl] and [wait] of
    an epoll instance.  The files an instance watches are trait objects
    ([SharedOpenFile]); they are the parameter [FileOps], a set of operations
    on an abstract world [W].  The listeners waiting on the instance itself
    have type [L]. *)

From S2P Require Import Prelude Poll.

(** ** Event masks *)

Module EpollEvents.
Definition IN : Z := 0x001.
Definition OUT : Z := 0x004.
Definition ERR : Z := 0x008.
Definition HUP : Z := 0x010.
Definition NVAL : Z := 0x020.
Definition RDNORM : Z := 0x040.
Definition RDBAND : Z := 0x080.
Definition WRNORM : Z := 0x100.
Definition WRBAND : Z := 0x200.
Definition RDHUP : Z := 0x2000.
Definition ONESHOT : Z := Z.shiftl 1 30.
Definition ET : Z := Z.shiftl 1 31.

(** Unlike [PollEvents::contains], one common bit is enough. *)
Definition contains (self flag : Z) : bool := negb (Z.land self flag =? 0).
Definition insert (self flag : Z) : Z := Z.lor self flag.

Definition to_poll_events (self : Z) : Z :=
  let events := PollEvents.empty in
  let events := if contains self IN || contains self RDNORM || contains self RDBAND
                then PollEvents.bitor events PollEvents.READ else events in
  let events := if contains self OUT || contains self WRNORM || contains self WRBAND
                then PollEvents.bitor events PollEvents.WRITE else events in
  let events := if contains self ERR then PollEvents.bitor events PollEvents.ERROR else events in
  let events := if contains self HUP then PollEvents.bitor events PollEvents.HUP else events in
  let events := if contains self NVAL then PollEvents.bitor events PollEvents.INVALID else events in
  if contains self RDHUP then PollEvents.bitor events PollEvents.RDHUP else events.

Definition from_poll_events (events : Z) : Z :=
  let bits := 0 in
  let bits := if PollEvents.contains events PollEvents.READ then Z.lor bits IN else bits in
  let bits := if PollEvents.contains events PollEvents.WRITE then Z.lor bits OUT else bits in
  let bits := if PollEvents.contains events PollEvents.ERROR then Z.lor bits ERR else bits in
  let bits := if PollEvents.contains events PollEvents.HUP then Z.lor bits HUP else bits in
  let bits := if PollEvents.contains events PollEvents.INVALID then Z.lor bits NVAL else bits in
  if PollEvents.contains events PollEvents.RDHUP then Z.lor bits RDHUP else bits.
End EpollEvents.

(** ** Wire format *)

Record EpollEvent := mkEvent { ev_events : Z; ev_data : Z }.

Definition EpollEvent_to_bytes (e : EpollEvent) : list Z :=
  le_bytes 4 (ev_events e) ++ le_bytes 8 (ev_data e).

Definition EpollEvent_from_bytes (bytes : list Z) : EpollEvent :=
  mkEvent (le_val (take 4 bytes)) (le_val (drop 4 bytes)).

(** [(raw & 0xFFFF_FFFF) as u32] and [raw >> 32] *)
Definition EpollEvent_from_raw (raw : Z) : EpollEvent :=
  mkEvent (Z.land raw 0xFFFFFFFF) (Z.shiftr raw 32).

(** [(bits as u64) | (data << 32)]: the shift drops the high half of the data. *)
Definition EpollEvent_to_raw (e : EpollEvent) : Z :=
  Z.lor (ev_events e) (Z.shiftl (ev_data e) 32 mod 2 ^ 64).

Inductive EpollCtlOp := Add | Del | Mod.

Definition EpollCtlOp_from_raw (raw : Z) : option EpollCtlOp :=
  if decide (raw = 1) then Some Add
  else if decide (raw = 2) then Some Del
  else if decide (raw = 3) then Some Mod
  else None.

(** ** Watched files *)

Class FileOps (W F : Type) := {
  fo_poll : W → F → Z → outcome FsError Z;
  fo_wait_token : W → F → Z;
  (** [register_waiter] with the mask and the watched descriptor that the
      listener reports. *)
  fo_register : W → F → Z → Z → outcome FsError (option Z) * W;
  fo_unregister : W → F → Z → W;
}.

Section epoll.
Context {W F L : Type} `{FileOps W F}.

Record EpollReadyState := mkReady { rs_events : gmap Z Z; rs_queue : list Z }.

Record EpollInterest := mkInterest {
  in_file : F;
  in_event : EpollEvent;
  in_waiter_id : option Z;
  in_last_ready : Z;
  in_last_token : Z;
  in_disabled : bool;
}.

Record EpollInstance := mkEpoll {
  ep_ready : EpollReadyState;
  ep_waiters : WaitQueue L;
  ep_interests : gmap Z EpollInterest;
}.

Definition EpollInstance_new : EpollInstance := mkEpoll (mkReady ∅ []) WaitQueue_new ∅.

Definition set_ready (r : EpollReadyState) (e : EpollInstance) : EpollInstance :=
  mkEpoll r (ep_waiters e) (ep_interests e).
Definition set_interests (m : gmap Z EpollInterest) (e : EpollInstance) : EpollInstance :=
  mkEpoll (ep_ready e) (ep_waiters e) m.

(** ** The notifier *)

(** The update under the lock, and whether waiters are notified. *)
Definition mark_ready_state (fd events : Z) (r : EpollReadyState) : EpollReadyState * bool :=
  match rs_events r !! fd with
  | Some stored =>
      let stored' := EpollEvents.insert stored events in
      (mkReady (<[fd := stored']> (rs_events r)) (rs_queue r), negb (stored' =? stored))
  | None => (mkReady (<[fd := events]> (rs_events r)) (rs_queue r ++ [fd]), true)
  end.

Definition mark_ready (fd events : Z) (e : EpollInstance) : EpollInstance * list (L * Z) :=
  if decide (events = 0) then (e, [])
  else
    let '(r, should_notify) := mark_ready_state fd events (ep_ready e) in
    let e := set_ready r e in
    if should_notify then
      let '(woken, w) := notify (ep_waiters e) PollEvents.READ in
      (mkEpoll (ep_ready e) w (ep_interests e), woken)
    else (e, []).

(** The loop of [take_ready], with [room] entries left to take. *)
Fixpoint take_loop (queue : list Z) (events : gmap Z Z) (room : nat)
    : list (Z * Z) * EpollReadyState :=
  match room with
  | O => ([], mkReady events queue)
  | S room' =>
      match queue with
      | [] => ([], mkReady events [])
      | fd :: queue' =>
          match events !! fd with
          | None => take_loop queue' events room
          | Some bits =>
              let '(taken, r) := take_loop queue' (delete fd events) room' in
              ((fd, bits) :: taken, r)
          end
      end
  end.

Definition take_ready (max_events : nat) (e : EpollInstance) : list (Z * Z) * EpollInstance :=
  let '(taken, r) := take_loop (rs_queue (ep_ready e)) (rs_events (ep_ready e)) max_events in
  (taken, set_ready r e).

Definition has_pending (e : EpollInstance) : bool := negb (bool_decide (rs_events (ep_ready e) = ∅)).

(** [EpollTargetListener::wake] *)
Definition target_wake (fd events : Z) (e : EpollInstance) : EpollInstance * list (L * Z) :=
  mark_ready fd (EpollEvents.from_poll_events events) e.

(** ** Interests *)

Definition poll_interest_state (w : W) (i : EpollInterest) : option (Z * Z) :=
  let poll_events :=
    PollEvents.bitor (EpollEvents.to_poll_events (ev_events (in_event i))) PollEvents.ALWAYS in
  match fo_poll w (in_file i) poll_events with
  | Ok ready => Some (EpollEvents.from_poll_events ready, fo_wait_token w (in_file i))
  | _ => None
  end.

Definition register_interest_waiter (fd : Z) (file : F) (event : EpollEvent)
    (w : W) (e : EpollInstance)
    : outcome FsError (option Z) * W * EpollInstance * list (L * Z) :=
  let poll_events := EpollEvents.to_poll_events (ev_events event) in
  if decide (poll_events = 0) then (Ok None, w, e, [])
  else
    let wait_events := PollEvents.bitor poll_events PollEvents.ALWAYS in
    match fo_register w file wait_events fd with
    | (Ok waiter_id, w) =>
        match fo_poll w file wait_events with
        | Ok ready =>
            let ready := EpollEvents.from_poll_events ready in
            if decide (ready ≠ 0) then
              let '(e, woken) := mark_ready fd ready e in (Ok waiter_id, w, e, woken)
            else (Ok waiter_id, w, e, [])
        | _ => (Ok waiter_id, w, e, [])
        end
    | (r, w) => (r, w, e, [])
    end.

Definition unregister_interest_waiter (i : EpollInterest) (w : W) : W :=
  match in_waiter_id i with
  | Some waiter_id => fo_unregister w (in_file i) waiter_id
  | None => w
  end.

Definition should_requeue_level_triggered (i : EpollInterest) : bool :=
  negb (EpollEvents.contains (ev_events (in_event i)) EpollEvents.ONESHOT) &&
  negb (EpollEvents.contains (ev_events (in_event i)) EpollEvents.ET).

(** [self.notifier.ready.lock().events.remove(&fd)]: the queue keeps its entry. *)
Definition forget_ready (fd : Z) (e : EpollInstance) : EpollInstance :=
  set_ready (mkReady (delete fd (rs_events (ep_ready e))) (rs_queue (ep_ready e))) e.

(** The tail shared by [Add] and [Mod]. *)
Definition install (fd : Z) (file : F) (event : EpollEvent) (w : W) (e : EpollInstance)
    : outcome FsError unit * W * EpollInstance * list (L * Z) :=
  match register_interest_waiter fd file event w e with
  | (Ok waiter_id, w, e, woken) =>
      (Ok (), w, set_interests (<[fd := mkInterest file event waiter_id 0 0 false]> (ep_interests e)) e,
       woken)
  | (Err er, w, e, woken) => (Err er, w, e, woken)
  | (Panic, w, e, woken) => (Panic, w, e, woken)
  | (Diverge, w, e, woken) => (Diverge, w, e, woken)
  end.

Definition ctl (op : EpollCtlOp) (fd : Z) (file : F) (event : EpollEvent) (w : W) (e : EpollInstance)
    : outcome FsError unit * W * EpollInstance * list (L * Z) :=
  match op with
  | Add =>
      match ep_interests e !! fd with
      | Some _ => (Err AlreadyExists, w, e, [])
      | None => install fd file event w e
      end
  | Mod =>
      match ep_interests e !! fd with
      | None => (Err NotFound, w, e, [])
      | Some old =>
          let e := set_interests (delete fd (ep_interests e)) e in
          let w := unregister_interest_waiter old w in
          install fd file event w (forget_ready fd e)
      end
  | Del =>
      match ep_interests e !! fd with
      | None => (Err NotFound, w, e, [])
      | Some old =>
          let e := set_interests (delete fd (ep_interests e)) e in
          let w := unregister_interest_waiter old w in
          (Ok (), w, forget_ready fd e, [])
      end
  end.

(** ** Waiting *)

(** What [wait] accumulates: reported events with their descriptors, and the
    level-triggered descriptors to queue again. *)
Record wait_state := mkWaitState {
  ws_world : W;
  ws_epoll : EpollInstance;
  ws_result : list (Z * EpollEvent);
  ws_requeue : list (Z * Z);
}.

(** One iteration of the inner loop, for the ready descriptor [fd]. *)
Definition wait_one (fd : Z) (s : wait_state) : wait_state :=
  let e := ws_epoll s in
  match ep_interests e !! fd with
  | None => s
  | Some i =>
      if in_disabled i then s
      else
        match poll_interest_state (ws_world s) i with
        | None => s
        | Some (current_ready, token) =>
            let update i' := set_interests (<[fd := i']> (ep_interests e)) e in
            if decide (current_ready = 0) then
              mkWaitState (ws_world s)
                (update (mkInterest (in_file i) (in_event i) (in_waiter_id i) 0 token (in_disabled i)))
                (ws_result s) (ws_requeue s)
            else
              let oneshot := EpollEvents.contains (ev_events (in_event i)) EpollEvents.ONESHOT in
              let final_events :=
                if oneshot then EpollEvents.insert current_ready EpollEvents.ONESHOT
                else current_ready in
              let w := if oneshot then unregister_interest_waiter i (ws_world s) else ws_world s in
              let i' := mkInterest (in_file i) (in_event i)
                          (if oneshot then None else in_waiter_id i) current_ready token
                          (if oneshot then true else in_disabled i) in
              mkWaitState w (update i')
                (ws_result s ++ [(fd, mkEvent final_events (ev_data (in_event i)))])
                (ws_requeue s ++
                 if should_requeue_level_triggered i then [(fd, current_ready)] else [])
        end
  end.

(** [for (fd, _) in ready], left when [result.len() >= max_events] right
    after an event was reported. *)
Fixpoint wait_batch (max_events : nat) (ready : list (Z * Z)) (s : wait_state) : wait_state :=
  match ready with
  | [] => s
  | (fd, _) :: rest =>
      let s' := wait_one fd s in
      if decide (length (ws_result s) < length (ws_result s') ∧ max_events <= length (ws_result s'))%nat
      then s' else wait_batch max_events rest s'
  end.

(** [while result.len() < max_events]: every round takes at least one entry
    from the ready map. *)
Fixpoint wait_loop (fuel max_events : nat) (s : wait_state) : outcome FsError wait_state :=
  if decide (length (ws_result s) < max_events)%nat then
    match fuel with
    | O => Diverge
    | S fuel' =>
        let '(ready, e) := take_ready (max_events - length (ws_result s)) (ws_epoll s) in
        let s := mkWaitState (ws_world s) e (ws_result s) (ws_requeue s) in
        if decide (ready = []) then Ok s
        else wait_loop fuel' max_events (wait_batch max_events ready s)
    end
  else Ok s.

Fixpoint requeue_all (l : list (Z * Z)) (e : EpollInstance) : EpollInstance * list (L * Z) :=
  match l with
  | [] => (e, [])
  | (fd, ready) :: rest =>
      let '(e, woken) := mark_ready fd ready e in
      let '(e, woken') := requeue_all rest e in (e, woken ++ woken')
  end.

(** [wait], with the descriptor of every reported event. *)
Definition wait_fds (max_events : nat) (w : W) (e : EpollInstance)
    : outcome FsError (list (Z * EpollEvent)) * W * EpollInstance * list (L * Z) :=
  if decide (max_events = 0)%nat then (Err InvalidInput, w, e, [])
  else if negb (has_pending e) then (Ok [], w, e, [])
  else
    match wait_loop (S (size (rs_events (ep_ready e)))) max_events (mkWaitState w e [] []) with
    | Ok s =>
        let '(e, woken) := requeue_all (ws_requeue s) (ws_epoll s) in
        (Ok (ws_result s), ws_world s, e, woken)
    | Err er => (Err er, w, e, [])
    | Panic => (Panic, w, e, [])
    | Diverge => (Diverge, w, e, [])
    end.

(** The caller sees the events only; user data identifies the descriptor. *)
Definition wait (max_events : nat) (w : W) (e : EpollInstance)
    : outcome FsError (list EpollEvent) * W * EpollInstance * list (L * Z) :=
  let '(r, w, e, woken) := wait_fds max_events w e in
  (match r with Ok l => Ok l.*2 | Err er => Err er | Panic => Panic | Diverge => Diverge end,
   w, e, woken).

Definition epoll_poll (events : Z) (e : EpollInstance) : Z :=
  if PollEvents.contains events PollEvents.READ && has_pending e
  then PollEvents.bitor PollEvents.empty PollEvents.READ else PollEvents.empty.

Definition interest_count (e : EpollInstance) : nat := size (ep_interests e).
End epoll.

Arguments EpollInterest : clear implicits.
Arguments EpollInstance : clear implicits.
Arguments wait_state : clear implicits.
