(* ===== verification/EpollProof.v ===== *)
(** * Correctness of epoll

    The ready list never loses a pending descriptor, and [wait] of [Epoll]
    reports exactly the ready ones: each at most once per call, level-triggered
    ones again at the next call, one-shot ones never again. *)

From S2P Require Import Prelude Poll Epoll.

(** Polling does not depend on who is registered. *)
Class FileOpsSpec (W F : Type) `{FileOps W F} : Prop := {
  fo_unregister_poll w f id g events : fo_poll (fo_unregister w f id) g events = fo_poll w g events;
  fo_unregister_token w f id g : fo_wait_token (fo_unregister w f id) g = fo_wait_token w g;
}.

(** ** The ready list *)

(** Every pending descriptor is queued (at least once), with some event. *)
Definition ready_ok (r : EpollReadyState) : Prop :=
  ∀ fd bits, rs_events r !! fd = Some bits → fd ∈ rs_queue r ∧ bits ≠ 0.

Lemma lor_nonzero a b : b ≠ 0 → Z.lor a b ≠ 0.
Proof. intros Hb [_ ?]%Z.lor_eq_0_iff. done. Qed.

Lemma mark_ready_state_ok fd events r :
  ready_ok r → events ≠ 0 → ready_ok (mark_ready_state fd events r).1.
Proof.
  intros Hok Hev fd' bits. unfold mark_ready_state.
  destruct (rs_events r !! fd) as [stored|] eqn:Hfd; simpl.
  - intros [[<- <-]|[Hne Hin]]%lookup_insert_Some.
    + split; [by eapply Hok|]. by apply lor_nonzero.
    + by eapply Hok.
  - intros [[<- <-]|[Hne Hin]]%lookup_insert_Some; (split; [|]); try done.
    + apply elem_of_app. right. by left.
    + apply elem_of_app. left. by eapply Hok.
    + by eapply Hok.
Qed.

Lemma take_loop_spec queue : ∀ events room,
  (∀ fd bits, events !! fd = Some bits → fd ∈ queue ∧ bits ≠ 0) →
  let '(taken, r) := take_loop queue events room in
  ready_ok r ∧ NoDup taken.*1 ∧ (length taken <= room)%nat ∧
  (∀ fd, fd ∈ taken.*1 → is_Some (events !! fd)) ∧
  (∀ fd, rs_events r !! fd = if decide (fd ∈ taken.*1) then None else events !! fd) ∧
  ((length taken < room)%nat → rs_events r = ∅).
Proof.
  induction queue as [|fd queue IH]; intros events room Hok; destruct room as [|room]; simpl.
  1,3: split; [done|]; split; [apply NoDup_nil_2|]; split; [done|]; split;
    [by intros ? ?%elem_of_nil|]; split; [done|lia].
  - assert (events = ∅) as ->.
    { apply map_empty. intros i. destruct (events !! i) as [b|] eqn:Hi; [|done].
      destruct (Hok i b Hi) as [[]%elem_of_nil _]. }
    split; [by intros ? ? ?|]. split; [apply NoDup_nil_2|]. split; [simpl; lia|].
    split; [by intros ? ?%elem_of_nil|]. done.
  - destruct (events !! fd) as [bits|] eqn:Hfd.
    + specialize (IH (delete fd events) room).
      destruct (take_loop queue (delete fd events) room) as [taken r].
      destruct IH as (Hr & Hnd & Hlen & Hin & Hlook & Hempty).
      { intros fd' bits' [Hne Hl]%lookup_delete_Some. destruct (Hok fd' bits' Hl) as [Hq ?].
        apply elem_of_cons in Hq as [->|Hq]; done. }
      assert (fd ∉ taken.*1) as Hnot.
      { intros Hc. apply Hin in Hc. rewrite lookup_delete_eq in Hc. by destruct Hc. }
      split; [done|]. split; [by constructor|]. split; [simpl; lia|]. split; [|split].
      * intros fd' [->|Hf]%elem_of_cons; [by eexists|].
        destruct (Hin fd' Hf) as [b [_ Hb]%lookup_delete_Some]. by eexists.
      * intros fd'. rewrite Hlook. simpl. destruct (decide (fd' = fd)) as [->|Hne].
        { rewrite (decide_False (P := fd ∈ taken.*1)) by done. rewrite lookup_delete_eq.
          rewrite decide_True by left. done. }
        rewrite lookup_delete_ne by done. destruct (decide (fd' ∈ taken.*1)).
        -- rewrite decide_True; [done|by right].
        -- rewrite decide_False; [done|]. by intros [?|?]%elem_of_cons.
      * simpl. intros Hlt. apply Hempty. lia.
    + apply (IH events (S room)). intros fd' bits' Hl. destruct (Hok fd' bits' Hl) as [Hq ?].
      apply elem_of_cons in Hq as [->|Hq]; [congruence|done].
Qed.

Section wait.
Context {W F L : Type} `{FileOpsSpec W F}.
Implicit Types (e : EpollInstance F L) (s : wait_state W F L) (i : EpollInterest F).

Definition epoll_ok e : Prop := ready_ok (ep_ready e).

Abbreviation pending e := (rs_events (ep_ready e)).

Lemma mark_ready_ok fd events e : epoll_ok e → epoll_ok (mark_ready fd events e).1.
Proof.
  intros Hok. unfold mark_ready. case_decide as Hz; [done|].
  pose proof (mark_ready_state_ok fd events (ep_ready e) Hok Hz) as Hr.
  destruct (mark_ready_state _ _ _) as [r b]. by destruct b.
Qed.

Lemma take_ready_spec n e :
  epoll_ok e →
  let '(taken, e') := take_ready n e in
  epoll_ok e' ∧ ep_interests e' = ep_interests e ∧ NoDup taken.*1 ∧ (length taken <= n)%nat ∧
  (∀ fd, fd ∈ taken.*1 → is_Some (pending e !! fd)) ∧
  (∀ fd, pending e' !! fd = if decide (fd ∈ taken.*1) then None else pending e !! fd) ∧
  ((length taken < n)%nat → pending e' = ∅).
Proof.
  intros Hok. unfold take_ready.
  pose proof (take_loop_spec (rs_queue (ep_ready e)) (pending e) n Hok) as Hs.
  destruct (take_loop _ _ _) as [taken r]. destruct Hs as (?&?&?&?&?&?). done.
Qed.

(** What a descriptor reports in the world [w], if anything. *)
Definition reportable (w : W) (o : option (EpollInterest F)) : option (Z * EpollEvent) :=
  i ← o;
  if in_disabled i then None
  else
    '(ready, _) ← poll_interest_state w i;
    if decide (ready = 0) then None
    else Some (ready, mkEvent
      (if EpollEvents.contains (ev_events (in_event i)) EpollEvents.ONESHOT
       then EpollEvents.insert ready EpollEvents.ONESHOT else ready)
      (ev_data (in_event i))).

(** Two worlds that poll alike. *)
Definition same_polls (w w' : W) : Prop :=
  ∀ i, poll_interest_state w' i = poll_interest_state w i.

Lemma unregister_same_polls w i : same_polls w (unregister_interest_waiter i w).
Proof.
  intros j. unfold unregister_interest_waiter, poll_interest_state.
  destruct (in_waiter_id i); [|done].
  rewrite fo_unregister_poll. by rewrite fo_unregister_token.
Qed.

Lemma reportable_same w w' o : same_polls w w' → reportable w' o = reportable w o.
Proof. intros Hs. unfold reportable. destruct o as [i|]; [|done]. simpl. by rewrite Hs. Qed.

(** Whether an interest is reported again at the next call. *)
Definition requeued (o : option (EpollInterest F)) : bool :=
  match o with Some i => should_requeue_level_triggered i | None => false end.

(** The part of an interest that decides future reports: the file, the
    request, the registered waiter and whether the interest is disabled. *)
Definition armed i : F * EpollEvent * option Z * bool :=
  (in_file i, in_event i, in_waiter_id i, in_disabled i).

Definition one_shot i : bool := EpollEvents.contains (ev_events (in_event i)) EpollEvents.ONESHOT.

(** What it is after a call of [wait] that did or did not report it: a
    reported one-shot interest has no waiter and is disabled. *)
Definition armed_after (reported : bool) i : F * EpollEvent * option Z * bool :=
  if reported && one_shot i then (in_file i, in_event i, None, true) else armed i.

(** The world after the waiter of a reported interest has been dropped, if
    the interest is one-shot. *)
Definition disarm (w : W) (o : option (EpollInterest F)) : W :=
  match o with
  | Some i => if one_shot i then unregister_interest_waiter i w else w
  | None => w
  end.

Definition disarm_all (m : gmap Z (EpollInterest F)) (w : W) (fds : list Z) : W :=
  fold_left (λ w fd, disarm w (m !! fd)) fds w.

(** What one iteration of the inner loop does. *)
Lemma wait_one_spec fd s :
  let s' := wait_one fd s in
  let o := ep_interests (ws_epoll s) !! fd in
  ep_ready (ws_epoll s') = ep_ready (ws_epoll s) ∧
  same_polls (ws_world s) (ws_world s') ∧
  (∀ fd', fd' ≠ fd → ep_interests (ws_epoll s') !! fd' = ep_interests (ws_epoll s) !! fd') ∧
  match reportable (ws_world s) o with
  | Some (ready, ev) =>
      ws_result s' = ws_result s ++ [(fd, ev)] ∧
      ws_requeue s' = ws_requeue s ++ (if requeued o then [(fd, ready)] else []) ∧
      armed <$> ep_interests (ws_epoll s') !! fd = armed_after true <$> o ∧
      ws_world s' = disarm (ws_world s) o
  | None =>
      ws_result s' = ws_result s ∧ ws_requeue s' = ws_requeue s ∧
      armed <$> ep_interests (ws_epoll s') !! fd = armed <$> o ∧ ws_world s' = ws_world s
  end.
Proof.
  simpl. unfold wait_one, reportable, requeued.
  destruct (ep_interests (ws_epoll s) !! fd) as [i|] eqn:Hi; simpl; [|by rewrite Hi].
  destruct (in_disabled i) eqn:Hdis; [by rewrite Hi|].
  destruct (poll_interest_state (ws_world s) i) as [[ready token]|] eqn:Hp; simpl; [|by rewrite Hi].
  unfold armed_after, armed, one_shot. case_decide as Hz.
  - split; [done|]. split; [done|]. split; [|simpl; by rewrite lookup_insert_eq; simpl; rewrite Hdis].
    intros fd' Hne. simpl. by rewrite lookup_insert_ne.
  - simpl. split; [done|]. split.
    { destruct (EpollEvents.contains _ _); [apply unregister_same_polls|done]. }
    split; [intros fd' Hne; by rewrite lookup_insert_ne|]. do 2 (split; [done|]).
    rewrite lookup_insert_eq. simpl. rewrite Hdis. by destruct (EpollEvents.contains _ _).
Qed.

(** ** The invariant of a call of [wait]

    [todo] holds the descriptors taken from the ready list and not yet
    looked at. *)
Record wait_inv (w0 : W) (e0 : EpollInstance F L) (mx : nat) s (todo : list Z) : Prop := {
  wi_ok : epoll_ok (ws_epoll s);
  wi_polls : same_polls w0 (ws_world s);
  wi_todo : NoDup todo;
  wi_sep : ∀ fd, fd ∈ todo → pending (ws_epoll s) !! fd = None;
  wi_fresh : ∀ fd, fd ∈ todo ∨ is_Some (pending (ws_epoll s) !! fd) →
    ep_interests (ws_epoll s) !! fd = ep_interests e0 !! fd ∧
    is_Some (pending e0 !! fd) ∧ fd ∉ (ws_result s).*1;
  wi_nodup : NoDup (ws_result s).*1;
  wi_len : (length (ws_result s) + length todo <= mx)%nat;
  wi_result : ∀ fd ev, (fd, ev) ∈ ws_result s →
    is_Some (pending e0 !! fd) ∧ pending (ws_epoll s) !! fd = None ∧
    ∃ ready, reportable w0 (ep_interests e0 !! fd) = Some (ready, ev);
  wi_requeue : ∀ fd, fd ∈ (ws_requeue s).*1 ↔
    fd ∈ (ws_result s).*1 ∧ requeued (ep_interests e0 !! fd) = true;
  wi_nonzero : Forall (λ p, p.2 ≠ 0) (ws_requeue s);
  wi_done : ∀ fd, is_Some (pending e0 !! fd) →
    is_Some (pending (ws_epoll s) !! fd) ∨ fd ∈ todo ∨ fd ∈ (ws_result s).*1 ∨
    reportable w0 (ep_interests e0 !! fd) = None;
  wi_interests : ∀ fd, armed <$> ep_interests (ws_epoll s) !! fd =
    armed_after (bool_decide (fd ∈ (ws_result s).*1)) <$> ep_interests e0 !! fd;
  wi_world : ws_world s = disarm_all (ep_interests e0) w0 (ws_result s).*1;
}.

Lemma armed_after_false i : armed_after false i = armed i.
Proof. done. Qed.

Lemma reportable_nonzero w o ready ev : reportable w o = Some (ready, ev) → ready ≠ 0.
Proof.
  unfold reportable. destruct o as [i|]; [|done]. simpl.
  destruct (in_disabled i); [done|]. destruct (poll_interest_state w i) as [[r t]|]; [|done].
  simpl. case_decide; [done|]. by intros [= <- _].
Qed.

Lemma wait_one_inv w0 e0 mx s fd todo :
  wait_inv w0 e0 mx s (fd :: todo) → wait_inv w0 e0 mx (wait_one fd s) todo.
Proof.
  intros [Hok Hpolls Htodo Hsep Hfresh Hnd Hlen Hres Hreq Hnz Hdone Hints Hworld].
  apply NoDup_cons in Htodo as [Hfd Htodo].
  destruct (Hfresh fd) as (Hint & Hpend & Hnew); [by left; left|].
  pose proof (wait_one_spec fd s) as (Hready & Hpolls' & Hother & Hout). rewrite Hint in Hout.
  rewrite (reportable_same w0 (ws_world s) _ Hpolls) in Hout.
  assert (same_polls w0 (ws_world (wait_one fd s))) as Hp2.
  { intros i. by rewrite Hpolls', Hpolls. }
  assert (∀ fd', fd' ∈ todo ∨ is_Some (pending (ws_epoll s) !! fd') → fd' ≠ fd) as Hne.
  { intros fd' [Hin|Hin] ->; [done|]. rewrite Hsep in Hin by left. by destruct Hin. }
  destruct (reportable w0 (ep_interests e0 !! fd)) as [[ready ev]|] eqn:Hrep;
    destruct Hout as (Hr' & Hq' & Ha' & Hw'); split; rewrite ?Hready, ?Hr', ?Hq'; auto.
  - unfold epoll_ok. by rewrite Hready.
  - intros fd' Hin. apply Hsep. by right.
  - intros fd' Hin. pose proof (Hne fd' Hin). rewrite Hother by done.
    destruct (Hfresh fd') as (? & ? & ?); [destruct Hin; [left; by right|by right]|].
    split; [done|]. split; [done|]. rewrite fmap_app, not_elem_of_app. split; [done|].
    by apply not_elem_of_cons; split; [|apply not_elem_of_nil].
  - rewrite fmap_app. apply NoDup_app. split; [done|]. split; [|apply NoDup_singleton].
    intros x Hx [->|[]%elem_of_nil]%elem_of_cons. done.
  - rewrite length_app. simpl in *. lia.
  - intros fd' ev' [Hin|[[= -> ->]|[]%elem_of_nil]%elem_of_cons]%elem_of_app; [by apply Hres|].
    split; [done|]. split; [apply Hsep; left|]. eauto.
  - intros fd'. rewrite !fmap_app, !elem_of_app, Hreq.
    destruct (requeued (ep_interests e0 !! fd)) eqn:Hrq; simpl.
    + rewrite !list_elem_of_singleton. naive_solver.
    + rewrite list_elem_of_singleton. split; [intros [?|[]%elem_of_nil]; tauto|].
      intros [[Hx|Hx] ?]; [by left|congruence].
  - apply Forall_app. split; [done|]. destruct (requeued _); [|constructor].
    constructor; [|constructor]. by eapply reportable_nonzero.
  - intros fd' Hin. destruct (Hdone fd' Hin) as [?|[[->|?]%elem_of_cons|[?|?]]]; auto;
      right; right; left; rewrite fmap_app; apply elem_of_app; [right; left|by left].
  - intros fd'. destruct (decide (fd' = fd)) as [->|Hfd'].
    + rewrite Ha'. rewrite bool_decide_eq_true_2; [done|]. rewrite fmap_app. apply elem_of_app.
      right. left.
    + rewrite Hother, Hints by done. f_equal. f_equal. apply bool_decide_ext.
      rewrite fmap_app, elem_of_app. simpl. rewrite list_elem_of_singleton. naive_solver.
  - rewrite Hw', Hworld, fmap_app. unfold disarm_all. by rewrite fold_left_app.
  - unfold epoll_ok. by rewrite Hready.
  - intros fd' Hin. apply Hsep. by right.
  - intros fd' Hin. pose proof (Hne fd' Hin). rewrite Hother by done.
    apply Hfresh. destruct Hin; [left; by right|by right].
  - simpl in *. lia.
  - intros fd' Hin. destruct (Hdone fd' Hin) as [?|[[->|?]%elem_of_cons|[?|?]]]; auto.
  - intros fd'. destruct (decide (fd' = fd)) as [->|Hfd']; [|by rewrite Hother, Hints].
    rewrite Ha', bool_decide_eq_false_2 by done. by destruct (ep_interests e0 !! fd).
  - by rewrite Hw'.
Qed.

Lemma wait_batch_inv w0 e0 mx ready : ∀ s,
  wait_inv w0 e0 mx s ready.*1 → wait_inv w0 e0 mx (wait_batch mx ready s) [] ∧
  ep_ready (ws_epoll (wait_batch mx ready s)) = ep_ready (ws_epoll s).
Proof.
  induction ready as [|[fd b] ready IH]; intros s Hinv; simpl; [done|].
  pose proof (wait_one_inv w0 e0 mx s fd ready.*1 Hinv) as Hinv'.
  pose proof (wait_one_spec fd s) as (Hready & _).
  case_decide as Hd.
  - split; [|done]. assert (ready = []) as ->; [|done].
    pose proof (wi_len _ _ _ _ _ Hinv') as Hlen. rewrite length_fmap in Hlen.
    destruct ready; [done|]. simpl in Hlen. lia.
  - destruct (IH (wait_one fd s) Hinv') as [? ->]. done.
Qed.

Lemma take_ready_inv w0 e0 mx s :
  wait_inv w0 e0 mx s [] →
  let '(ready, e) := take_ready (mx - length (ws_result s)) (ws_epoll s) in
  wait_inv w0 e0 mx (mkWaitState (ws_world s) e (ws_result s) (ws_requeue s)) ready.*1 ∧
  (ready = [] → (length (ws_result s) < mx)%nat → pending e = ∅) ∧
  (ready ≠ [] → (size (pending e) < size (pending (ws_epoll s)))%nat).
Proof.
  intros [Hok Hpolls Htodo Hsep Hfresh Hnd Hlen Hres Hreq Hnz Hdone Hints Hworld].
  pose proof (take_ready_spec (mx - length (ws_result s)) (ws_epoll s) Hok) as Ht.
  destruct (take_ready _ _) as [ready e]. destruct Ht as (Hok' & Hint & Htnd & Htlen & Htin & Hlook & Hemp).
  split; [|split].
  - split; simpl; auto; rewrite ?Hint.
    + intros fd Hin. rewrite Hlook. by rewrite decide_True.
    + intros fd Hin. apply Hfresh. right. rewrite Hlook in Hin.
      destruct Hin as [Hin|Hin]; [by apply Htin|]. case_decide; [by destruct Hin|done].
    + rewrite length_fmap. simpl in *. lia.
    + intros fd ev Hin. destruct (Hres fd ev Hin) as (? & Hp & ?). split; [done|]. split; [|done].
      rewrite Hlook. by case_decide.
    + intros fd Hin. rewrite Hlook. destruct (Hdone fd Hin) as [?|[[]%elem_of_nil|?]]; [|tauto].
      case_decide; tauto.
    + exact Hints.
  - intros -> Hlt. apply Hemp. simpl. lia.
  - intros Hne. destruct ready as [|[fd b] ready]; [done|].
    apply map_subset_size. apply map_subset_alt. split.
    + apply map_subseteq_spec. intros fd' x. rewrite Hlook. by case_decide.
    + exists fd. rewrite Hlook, decide_True by left. split; [done|].
      apply Htin. left.
Qed.

Lemma wait_loop_inv w0 e0 mx fuel : ∀ s,
  wait_inv w0 e0 mx s [] → (size (pending (ws_epoll s)) < fuel)%nat →
  ∃ s', wait_loop fuel mx s = Ok s' ∧ wait_inv w0 e0 mx s' [] ∧
    ((length (ws_result s') < mx)%nat → pending (ws_epoll s') = ∅).
Proof.
  induction fuel as [|fuel IH]; intros s Hinv Hf; [lia|]. simpl.
  case_decide as Hlt; [|by exists s].
  pose proof (take_ready_inv w0 e0 mx s Hinv) as Ht.
  destruct (take_ready _ _) as [ready e]. destruct Ht as (Hinv' & Hemp & Hsz).
  case_decide as Hr.
  - subst ready. eexists. split; [done|]. split; [exact Hinv'|]. simpl. intros _. by apply Hemp.
  - destruct (wait_batch_inv w0 e0 mx ready _ Hinv') as [Hinv2 Hready2].
    apply IH; [done|]. rewrite Hready2. simpl. specialize (Hsz Hr). lia.
Qed.

Lemma wait_init_inv w e mx :
  epoll_ok e → wait_inv w e mx (mkWaitState w e [] []) [].
Proof.
  intros Hok. split; simpl; auto.
  - done.
  - apply NoDup_nil_2.
  - by intros ? ?%elem_of_nil.
  - intros fd [[]%elem_of_nil|?]. split; [done|]. split; [done|]. apply not_elem_of_nil.
  - apply NoDup_nil_2.
  - lia.
  - by intros ? ? ?%elem_of_nil.
  - intros fd. split; [by intros ?%elem_of_nil|]. by intros [?%elem_of_nil _].
Qed.

(** What has been reported when nothing is pending any more. *)
Lemma wait_reported w0 e0 mx s fd ready ev :
  wait_inv w0 e0 mx s [] → pending (ws_epoll s) = ∅ → is_Some (pending e0 !! fd) →
  reportable w0 (ep_interests e0 !! fd) = Some (ready, ev) → (fd, ev) ∈ ws_result s.
Proof.
  intros Hinv Hall Hpd Hrep.
  destruct (wi_done _ _ _ _ _ Hinv fd Hpd) as [Hc|[[]%elem_of_nil|[Hin|?]]]; [|..|congruence].
  { rewrite Hall in Hc. by destruct Hc. }
  apply list_elem_of_fmap in Hin as ([fd' ev'] & -> & Hin). simpl in *.
  destruct (wi_result _ _ _ _ _ Hinv fd' ev' Hin) as (_ & _ & ready' & Hrep').
  rewrite Hrep in Hrep'. by simplify_eq.
Qed.

Lemma wait_disarmed w0 e0 mx s todo fd i :
  wait_inv w0 e0 mx s todo → fd ∈ (ws_result s).*1 → ep_interests e0 !! fd = Some i →
  one_shot i = true →
  ∃ i', ep_interests (ws_epoll s) !! fd = Some i' ∧ in_disabled i' = true ∧ in_waiter_id i' = None ∧
    ∀ w'', reportable w'' (Some i') = None.
Proof.
  intros Hinv Hin Hi Hone. pose proof (wi_interests _ _ _ _ _ Hinv fd) as Ha.
  rewrite bool_decide_eq_true_2, Hi in Ha by done. simpl in Ha.
  apply fmap_Some in Ha as (i' & Hi' & Ha). unfold armed_after in Ha. rewrite Hone in Ha. simpl in Ha.
  unfold armed in Ha. injection Ha as Hf Hev Hw Hd. exists i'. rewrite <- Hw, <- Hd.
  do 3 (split; [done|]). intros w''. unfold reportable. simpl. by rewrite <- Hd.
Qed.

(** ** Requeueing *)

Lemma mark_ready_pending fd events e fd' :
  events ≠ 0 →
  is_Some (pending (mark_ready fd events e).1 !! fd') ↔ fd' = fd ∨ is_Some (pending e !! fd').
Proof.
  intros Hz. unfold mark_ready. rewrite decide_False by done. unfold mark_ready_state.
  assert (∀ v, is_Some (<[fd := v]> (pending e) !! fd') ↔ fd' = fd ∨ is_Some (pending e !! fd')) as Hins.
  { intros v. rewrite lookup_insert_is_Some. destruct (decide (fd' = fd)); naive_solver. }
  destruct (pending e !! fd); [destruct (negb _)|]; simpl; apply Hins.
Qed.

Lemma mark_ready_interests fd events e : ep_interests (mark_ready fd events e).1 = ep_interests e.
Proof. unfold mark_ready. case_decide; [done|]. by destruct (mark_ready_state _ _ _) as [? []]. Qed.

Lemma requeue_all_interests l : ∀ e, ep_interests (requeue_all l e).1 = ep_interests e.
Proof.
  induction l as [|[fd b] l IH]; intros e; simpl; [done|].
  pose proof (mark_ready_interests fd b e) as Hm. destruct (mark_ready fd b e) as [e1 wk].
  specialize (IH e1). destruct (requeue_all l e1) as [e2 wk2]. simpl in *. congruence.
Qed.

Lemma requeue_all_spec l : ∀ e,
  epoll_ok e → Forall (λ p, p.2 ≠ 0) l →
  epoll_ok (requeue_all l e).1 ∧
  ∀ fd, is_Some (pending (requeue_all l e).1 !! fd) ↔ fd ∈ l.*1 ∨ is_Some (pending e !! fd).
Proof.
  induction l as [|[fd b] l IH]; intros e Hok Hnz; simpl.
  { split; [done|]. intros fd. split; [auto|]. by intros [[]%elem_of_nil|?]. }
  apply Forall_cons in Hnz as [Hb Hnz]. simpl in Hb.
  pose proof (mark_ready_ok fd b e Hok) as Hok1. pose proof (mark_ready_pending fd b e) as Hp.
  destruct (mark_ready fd b e) as [e1 wk]. simpl in *. destruct (IH e1 Hok1 Hnz) as [Hok2 Hp2].
  destruct (requeue_all l e1) as [e2 wk2]. simpl in *. split; [done|]. intros fd'.
  rewrite Hp2, Hp, elem_of_cons by done. tauto.
Qed.
End wait.

(** ** Operations that change the instance *)

Section ctl.
Context {W F L : Type} `{FileOpsSpec W F}.
Implicit Types (e : EpollInstance F L).

Lemma forget_ready_ok fd e : epoll_ok e → epoll_ok (forget_ready fd e).
Proof.
  intros Hok fd' bits. simpl. intros [_ Hl]%lookup_delete_Some. by apply Hok.
Qed.

Lemma register_interest_waiter_spec fd file event w e r w' e' woken :
  epoll_ok e → register_interest_waiter fd file event w e = (r, w', e', woken) →
  epoll_ok e' ∧ ep_interests e' = ep_interests e.
Proof.
  intros Hok Hr. unfold register_interest_waiter in Hr. case_decide; [by simplify_eq|].
  destruct (fo_register _ _ _ _) as [[id|er| |] w1]; [|by simplify_eq..].
  destruct (fo_poll _ _ _) as [ready|er| |]; [|by simplify_eq..].
  case_decide as Hz; [|by simplify_eq].
  pose proof (mark_ready_ok fd (EpollEvents.from_poll_events ready) e Hok) as Hm.
  pose proof (mark_ready_interests fd (EpollEvents.from_poll_events ready) e) as Hi.
  destruct (mark_ready _ _ e) as [e1 wk]. by simplify_eq/=.
Qed.

Lemma install_spec fd file event w e r w' e' woken :
  epoll_ok e → install fd file event w e = (r, w', e', woken) →
  epoll_ok e' ∧
  match r with
  | Ok _ => ∃ id, ep_interests e' = <[fd := mkInterest file event id 0 0 false]> (ep_interests e)
  | _ => ep_interests e' = ep_interests e
  end.
Proof.
  intros Hok Hr. unfold install in Hr.
  destruct (register_interest_waiter fd file event w e) as [[[r1 w1] e1] wk] eqn:Hreg.
  destruct (register_interest_waiter_spec fd file event w e _ _ _ _ Hok Hreg) as [Hok1 Hi].
  destruct r1; simplify_eq/=; rewrite ?Hi; (split; [done|]); eauto.
Qed.

(** What [ctl] does to the interests and to the pending descriptors. *)
Lemma ctl_spec op fd file event w e r w' e' woken :
  epoll_ok e → ctl op fd file event w e = (r, w', e', woken) →
  epoll_ok e' ∧
  match r, op with
  | Ok _, (Add | Mod) =>
      ∃ id, ep_interests e' = <[fd := mkInterest file event id 0 0 false]> (ep_interests e)
  | Ok _, Del => ep_interests e' = delete fd (ep_interests e) ∧ rs_events (ep_ready e') !! fd = None
  | Err _, Mod => ep_interests e' = delete fd (ep_interests e)
  | _, _ => ep_interests e' = ep_interests e ∨ op = Mod
  end.
Proof.
  intros Hok Hr. unfold ctl in Hr. destruct op.
  - destruct (ep_interests e !! fd) as [i|] eqn:Hi; [by simplify_eq; auto|].
    destruct (install_spec _ _ _ _ _ _ _ _ _ Hok Hr) as [Hok' Hm]. split; [done|].
    destruct r; auto.
  - destruct (ep_interests e !! fd) as [i|] eqn:Hi; simplify_eq/=; [|by auto].
    split; [by apply forget_ready_ok|]. split; [done|]. apply lookup_delete_eq.
  - destruct (ep_interests e !! fd) as [i|] eqn:Hi.
    2:{ simplify_eq/=. split; [done|]. by rewrite delete_id. }
    apply install_spec in Hr as [Hok' Hm]; [|by apply forget_ready_ok].
    split; [done|]. simpl in Hm. destruct r; auto.
    destruct Hm as [id Hm]. exists id. rewrite Hm. by rewrite insert_delete_eq.
Qed.
End ctl.

(** ** Claims *)

(** C38. [wait] always returns (its loop ends), with at most the requested
    number of events; they belong to distinct descriptors that were pending, are
    not disabled and are ready, with the events and user data of their interest;
    if fewer than requested are returned then no pending ready descriptor was
    left out; afterwards a reported descriptor is pending again exactly when it
    is level-triggered, so an edge-triggered or one-shot event is reported once.
    Every interest keeps its file, request, waiter and enabled state, except
    that each reported one-shot interest has lost its waiter, which has been
    unregistered from the file, and is disabled, so that no state of the files
    makes it reportable again before it is modified. *)
Theorem epoll_wait_correct (W F L : Type) `{FileOpsSpec W F} (w : W) (e : EpollInstance F L) mx :
  epoll_ok e → (0 < mx)%nat →
  ∃ l w' e' woken,
    wait_fds mx w e = (Ok l, w', e', woken) ∧ wait mx w e = (Ok l.*2, w', e', woken) ∧
    epoll_ok e' ∧ (length l <= mx)%nat ∧ NoDup l.*1 ∧
    (∀ fd ev, (fd, ev) ∈ l → is_Some (rs_events (ep_ready e) !! fd) ∧
       ∃ ready, reportable w (ep_interests e !! fd) = Some (ready, ev)) ∧
    ((length l < mx)%nat → ∀ fd ready ev, is_Some (rs_events (ep_ready e) !! fd) →
       reportable w (ep_interests e !! fd) = Some (ready, ev) → (fd, ev) ∈ l) ∧
    (∀ fd, fd ∈ l.*1 →
       is_Some (rs_events (ep_ready e') !! fd) ↔ requeued (ep_interests e !! fd) = true) ∧
    (∀ fd, armed <$> ep_interests e' !! fd =
       armed_after (bool_decide (fd ∈ l.*1)) <$> ep_interests e !! fd) ∧
    (∀ fd i, fd ∈ l.*1 → ep_interests e !! fd = Some i → one_shot i = true →
       ∃ i', ep_interests e' !! fd = Some i' ∧ in_disabled i' = true ∧ in_waiter_id i' = None ∧
         ∀ w'', reportable w'' (Some i') = None) ∧
    w' = disarm_all (ep_interests e) w l.*1.
Proof.
  intros Hok Hmx. unfold wait, wait_fds. rewrite decide_False by lia.
  destruct (has_pending e) eqn:Hpend; simpl negb; cbv iota.
  2:{ unfold has_pending in Hpend. apply negb_false_iff, bool_decide_eq_true in Hpend.
      eexists [], w, e, []. split; [done|]. split; [done|]. split; [done|]. split; [simpl; lia|].
      split; [apply NoDup_nil_2|]. split; [by intros ? ? ?%elem_of_nil|]. split.
      { intros _ fd ready ev Hin. rewrite Hpend in Hin. by destruct Hin. }
      split; [by intros fd ?%elem_of_nil|]. split; [|split; [by intros fd i ?%elem_of_nil|done]].
      intros fd. rewrite bool_decide_eq_false_2 by apply not_elem_of_nil. done. }
  destruct (wait_loop_inv w e mx (S (size (rs_events (ep_ready e)))) (mkWaitState w e [] []))
    as (s & -> & Hinv & Hall); [by apply wait_init_inv|simpl; lia|].
  destruct (requeue_all_spec (ws_requeue s) (ws_epoll s)) as [Hok' Hp];
    [apply Hinv|apply Hinv|].
  pose proof (requeue_all_interests (ws_requeue s) (ws_epoll s)) as Hi'.
  destruct (requeue_all (ws_requeue s) (ws_epoll s)) as [e' woken]. simpl in *.
  exists (ws_result s), (ws_world s), e', woken. split; [done|]. split; [done|]. split; [done|].
  pose proof (wi_len _ _ _ _ _ Hinv) as Hlen. simpl in Hlen.
  split; [lia|]. split; [apply Hinv|]. split; [|split; [|split; [|split; [|split]]]].
  - intros fd ev Hin. destruct (wi_result _ _ _ _ _ Hinv fd ev Hin) as (? & _ & ?). done.
  - intros Hlt fd ready ev Hpd Hrep. specialize (Hall Hlt).
    by eapply wait_reported.
  - intros fd Hin. rewrite Hp, (wi_requeue _ _ _ _ _ Hinv). split; [|by auto].
    intros [[_ ?]|Hc]; [done|]. apply list_elem_of_fmap in Hin as ([fd' ev'] & -> & Hin). simpl in *.
    destruct (wi_result _ _ _ _ _ Hinv fd' ev' Hin) as (_ & Hno & _). rewrite Hno in Hc. by destruct Hc.
  - rewrite Hi'. apply Hinv.
  - rewrite Hi'. intros fd i. by eapply wait_disarmed.
  - apply Hinv.
Qed.

(** A world with one file that is always readable. *)
#[local] Instance demo_files : FileOps unit unit := {|
  fo_poll := λ _ _ events, Ok (Z.land events PollEvents.READ);
  fo_wait_token := λ _ _, 0;
  fo_register := λ w _ _ _, (Ok (Some 1), w);
  fo_unregister := λ w _ _, w;
|}.

#[local] Instance demo_files_spec : FileOpsSpec unit unit.
Proof. by split. Qed.

(** A level-triggered and a one-shot interest. *)
Definition demo_oneshot : EpollEvent := mkEvent (Z.lor EpollEvents.IN EpollEvents.ONESHOT) 88.

Definition demo_epoll1 : EpollInstance unit unit :=
  (ctl Add 5 () (mkEvent EpollEvents.IN 77) () EpollInstance_new).1.2.

Definition demo_epoll : EpollInstance unit unit := (ctl Add 6 () demo_oneshot () demo_epoll1).1.2.

Lemma demo_ctl_ok fd ev (e : EpollInstance unit unit) : epoll_ok e → epoll_ok (ctl Add fd () ev () e).1.2.
Proof.
  intros Hok. destruct (ctl Add fd () ev () e) as [[[r w'] e'] woken] eqn:Hc.
  by apply (ctl_spec Add fd () ev () e r w' e' woken).
Qed.

Lemma demo_epoll_ok : epoll_ok demo_epoll.
Proof. apply demo_ctl_ok, demo_ctl_ok. by intros fd bits. Qed.

Lemma epoll_wait_correct_witness :
  ∃ l w' e' woken, wait 4 () demo_epoll = (Ok l, w', e', woken) ∧
    l = [mkEvent EpollEvents.IN 77; demo_oneshot] ∧ epoll_ok e' ∧
    (in_disabled <$> ep_interests e' !! 5) = Some false ∧
    (in_disabled <$> ep_interests e' !! 6) = Some true.
Proof.
  destruct (epoll_wait_correct unit unit unit () demo_epoll 4 demo_epoll_ok ltac:(lia))
    as (l & w' & e' & woken & _ & Hw & Hok & _ & _ & _ & _ & _ & Hint & _).
  assert ((wait 4 () demo_epoll).1.1.1 = Ok [mkEvent EpollEvents.IN 77; demo_oneshot]) as Hr
    by (vm_compute; reflexivity).
  assert (e' = (wait 4 () demo_epoll).1.2) as He' by (by rewrite Hw).
  exists l.*2, w', e', woken. split; [exact Hw|]. rewrite Hw in Hr. simpl in Hr.
  split; [by injection Hr|]. split; [exact Hok|]. rewrite He'. split; vm_compute; reflexivity.
Defined.

(** Registering changes exactly the descriptor it names: [Add] and [Mod]
    install the interest, [Del] removes it together with its pending events,
    and no operation loses a pending descriptor of the ready list. *)
Theorem epoll_ctl_correct (W F L : Type) `{FileOpsSpec W F} op fd file event (w w' : W)
    (e e' : EpollInstance F L) woken :
  epoll_ok e → ctl op fd file event w e = (Ok (), w', e', woken) →
  epoll_ok e' ∧
  match op with
  | Add | Mod =>
      ∃ id, ep_interests e' = <[fd := mkInterest file event id 0 0 false]> (ep_interests e)
  | Del => ep_interests e' = delete fd (ep_interests e) ∧ rs_events (ep_ready e') !! fd = None
  end.
Proof.
  intros Hok Hc. pose proof (ctl_spec op fd file event w e _ w' e' woken Hok Hc) as [? ?].
  by destruct op.
Qed.

Lemma epoll_ctl_correct_witness :
  ∃ w' e' woken, ctl Del 5 () (mkEvent 0 0) () demo_epoll = (Ok (), w', e', woken) ∧
    rs_events (ep_ready e') !! 5 = None.
Proof.
  destruct (ctl Del 5 () (mkEvent 0 0) () demo_epoll) as [[[r w'] e'] woken] eqn:Hc.
  assert (r = Ok ()) as ->.
  { transitivity (ctl Del 5 () (mkEvent 0 0) () demo_epoll).1.1.1; [by rewrite Hc|].
    vm_compute. reflexivity. }
  exists w', e', woken. split; [reflexivity|].
  apply (epoll_ctl_correct unit unit unit Del 5 () (mkEvent 0 0) () w' demo_epoll e' woken
    demo_epoll_ok Hc).
Defined.

(** The twelve-byte wire format of an event preserves the mask and the
    user data. *)
Theorem epoll_event_bytes_roundtrip e :
  in_u32 (ev_events e) → in_u64 (ev_data e) →
  length (EpollEvent_to_bytes e) = 12%nat ∧ EpollEvent_from_bytes (EpollEvent_to_bytes e) = e.
Proof.
  intros He Hd. unfold EpollEvent_from_bytes, EpollEvent_to_bytes. split.
  - by rewrite length_app, !length_le_bytes.
  - rewrite take_app_length', drop_app_length' by (by rewrite length_le_bytes).
    rewrite le_val_u32, le_val_u64 by done. by destruct e.
Qed.

Lemma epoll_event_bytes_roundtrip_witness :
  EpollEvent_from_bytes (EpollEvent_to_bytes (mkEvent 0xC0000001 0x0123456789abcdef))
  = mkEvent 0xC0000001 0x0123456789abcdef.
Proof.
  apply (epoll_event_bytes_roundtrip (mkEvent 0xC0000001 0x0123456789abcdef));
    unfold in_u32, in_u64, u32_max, u64_max; simpl; lia.
Defined.

(** The readiness of a file survives the translation to epoll bits and
    back: no event the file reports is dropped or renamed. *)
Theorem epoll_events_roundtrip p :
  0 <= p < 64 → EpollEvents.to_poll_events (EpollEvents.from_poll_events p) = p.
Proof.
  intros Hp. assert (∃ n : nat, (n < 64)%nat ∧ p = Z.of_nat n) as (n & Hn & ->).
  { exists (Z.to_nat p). lia. }
  do 64 (destruct n as [|n]; [reflexivity|]). lia.
Qed.

Lemma epoll_events_roundtrip_witness :
  EpollEvents.to_poll_events (EpollEvents.from_poll_events (Z.lor PollEvents.READ PollEvents.HUP)) = 9.
Proof. apply (epoll_events_roundtrip 9). lia. Defined.

(** The packed 64-bit form, in contrast, drops the high half of the user data. *)
Lemma epoll_event_raw_truncates :
  EpollEvent_from_raw (EpollEvent_to_raw (mkEvent 1 0x100000002)) = mkEvent 1 2.
Proof. reflexivity. Qed.
