(* ===== verification/Signal.v ===== *)
(** * Signals

    Models [aether-kernel/src/signal/abi.rs], [core.rs] and [state.rs]: masks,
    dispositions, the pending set, the alternate stack and their wire formats.
    The action table of a process is shared by its threads through an [Arc]:
    the model keeps the tables in a store and a signal state holds the name of
    its table, so that sharing ([clone_for_thread]) and copying ([fork_copy])
    differ. *)

From S2P Require Import Prelude Poll Errno.

(** ** Numbers and flags *)

Definition SIGNAL_MAX : nat := 64.
Definition SIGKILL : Z := 9.
Definition SIGCHLD : Z := 17.
Definition SIGCONT : Z := 18.
Definition SIGSTOP : Z := 19.
Definition SIGTSTP : Z := 20.
Definition SIGTTIN : Z := 21.
Definition SIGTTOU : Z := 22.
Definition SIGURG : Z := 23.
Definition SIGWINCH : Z := 28.

Definition SIG_BLOCK : Z := 0.
Definition SIG_UNBLOCK : Z := 1.
Definition SIG_SETMASK : Z := 2.
Definition SIG_DFL : Z := 0.
Definition SIG_IGN : Z := 1.
Definition SA_ONSTACK : Z := 0x08000000.

(** [i32] flags by their bit pattern. *)
Definition SS_ONSTACK : Z := 1.
Definition SS_DISABLE : Z := 2.
Definition SS_AUTODISARM : Z := 0x80000000.
Definition MINSIGSTKSZ : Z := 2048.

Definition CLD_EXITED : Z := 1.
Definition CLD_KILLED : Z := 2.
Definition CLD_STOPPED : Z := 5.
Definition CLD_CONTINUED : Z := 6.

(** [!x] on 64 and 32 bits. *)
Definition not64 (x : Z) : Z := Z.lxor x u64_max.
Definition not32 (x : Z) : Z := Z.lxor x u32_max.

(** ** Data of the ABI *)

Record SignalInfo := mkInfo {
  si_signal : Z;
  si_code : Z;
  si_status : Z;
  si_pid : Z;
  si_uid : Z;
}.

Definition child_exit (pid status : Z) : SignalInfo :=
  let '(code, status) := if decide (128 <= status) then (CLD_KILLED, status - 128)
                         else (CLD_EXITED, status) in
  mkInfo SIGCHLD code status pid 0.
Definition child_stop (pid signal : Z) : SignalInfo := mkInfo SIGCHLD CLD_STOPPED signal pid 0.
Definition child_continue (pid : Z) : SignalInfo := mkInfo SIGCHLD CLD_CONTINUED 0 pid 0.
Definition kernel_info (signal code : Z) : SignalInfo := mkInfo signal code 0 0 0.

Record SignalAction := mkAction {
  sa_handler : Z;
  sa_flags : Z;
  sa_restorer : Z;
  sa_mask : Z;
}.

Definition default_for (signal : Z) : SignalAction := mkAction SIG_DFL 0 0 0.

Definition sigbit (signal : Z) : Z :=
  if decide (signal = 0 ∨ Z.of_nat SIGNAL_MAX < signal) then 0 else Z.shiftl 1 (signal - 1).

(** The padding of [struct SignalStack] is kept: it is copied and serialized. *)
Record SignalStack := mkStack {
  ss_sp : Z;
  ss_flags : Z;
  ss_pad : Z;
  ss_size : Z;
}.

Definition SignalStack_disabled : SignalStack := mkStack 0 SS_DISABLE 0 0.

(** ** Wire formats *)

(** [bytes.get(offset..offset + n)?] decoded as an [n]-byte integer. *)
Definition read_uint (bytes : list Z) (offset n : nat) : option Z :=
  if decide (offset + n <= length bytes)%nat then Some (le_val (take n (drop offset bytes))) else None.

Definition parse_sigaction (bytes : list Z) : option SignalAction :=
  if decide (length bytes < 32)%nat then None
  else
    handler ← read_uint bytes 0 8;
    flags ← read_uint bytes 8 8;
    restorer ← read_uint bytes 16 8;
    mask ← read_uint bytes 24 8;
    Some (mkAction handler flags restorer mask).

Definition serialize_sigaction (action : SignalAction) : list Z :=
  le_bytes 8 (sa_handler action) ++ le_bytes 8 (sa_flags action) ++
  le_bytes 8 (sa_restorer action) ++ le_bytes 8 (sa_mask action).

Definition parse_signal_stack (bytes : list Z) : option SignalStack :=
  if decide (length bytes < 24)%nat then None
  else
    sp ← read_uint bytes 0 8;
    flags ← read_uint bytes 8 4;
    pad ← read_uint bytes 12 4;
    size ← read_uint bytes 16 8;
    Some (mkStack sp flags pad size).

Definition serialize_signal_stack (stack : SignalStack) : list Z :=
  le_bytes 8 (ss_sp stack) ++ le_bytes 4 (ss_flags stack) ++
  le_bytes 4 (ss_pad stack) ++ le_bytes 8 (ss_size stack).

(** ** The alternate stack *)

Definition signal_altstack_config_enabled (stack : SignalStack) : bool :=
  (Z.land (ss_flags stack) SS_DISABLE =? 0) && (0 <? ss_size stack).

Definition signal_altstack_contains_sp (stack : SignalStack) (sp : Z) : bool :=
  if negb (signal_altstack_config_enabled stack) then false
  else
    match checked_add u64_max (ss_sp stack) (ss_size stack) with
    | None => false
    | Some end_ => (ss_sp stack <=? sp) && (sp <? end_)
    end.

Definition signal_altstack_status_flags (stack : SignalStack) (sp : Z) : Z :=
  if negb (signal_altstack_config_enabled stack) then SS_DISABLE
  else
    let flags := Z.land (ss_flags stack) SS_AUTODISARM in
    if signal_altstack_contains_sp stack sp then Z.lor flags SS_ONSTACK else flags.

Definition signal_altstack_format_old (stack : SignalStack) (sp : Z) : SignalStack :=
  mkStack (ss_sp stack) (signal_altstack_status_flags stack sp) (ss_pad stack) (ss_size stack).

Definition signal_altstack_validate_new (stack : SignalStack) : outcome SysErr.SysErr unit :=
  if negb (Z.land (ss_flags stack) SS_DISABLE =? 0) then Ok ()
  else
    let allowed_flags := Z.lor SS_ONSTACK SS_AUTODISARM in
    if negb (Z.land (ss_flags stack) (not32 allowed_flags) =? 0) then Err SysErr.Inval
    else if ss_size stack <? MINSIGSTKSZ then Err SysErr.NoMem
    else Ok ().

Definition signal_altstack_store (src : SignalStack) : SignalStack :=
  if negb (Z.land (ss_flags src) SS_DISABLE =? 0) then SignalStack_disabled
  else
    let flags := Z.land (ss_flags src) (not32 SS_ONSTACK) in
    mkStack (ss_sp src) (Z.land flags SS_AUTODISARM) (ss_pad src) (ss_size src).

(** ** Dispositions ([core.rs]) *)

Inductive SignalDefault := DIgnore | DTerminate | DStop | DContinue.

Inductive SignalDelivery :=
| DNone
| Ignored (info : SignalInfo)
| Deliver (info : SignalInfo) (action : SignalAction)
| Exit (info : SignalInfo)
| Stop (info : SignalInfo)
| Continue (info : SignalInfo).

Definition default_action (signal : Z) : SignalDefault :=
  if decide (signal ∈ [SIGCHLD; SIGURG; SIGWINCH]) then DIgnore
  else if decide (signal ∈ [SIGSTOP; SIGTSTP; SIGTTIN; SIGTTOU]) then DStop
  else if decide (signal = SIGCONT) then DContinue
  else DTerminate.

Definition sanitize_mask (mask : Z) : Z := Z.land mask (not64 (Z.lor (sigbit SIGKILL) (sigbit SIGSTOP))).

Definition is_blocked (mask signal : Z) : bool :=
  negb (Z.land mask (sigbit signal) =? 0) && negb (signal =? SIGKILL) && negb (signal =? SIGSTOP).

Definition delivery_for (blocked : Z) (action : SignalAction) (info : SignalInfo)
    (handlers_supported : bool) : SignalDelivery :=
  if is_blocked blocked (si_signal info) then DNone
  else if decide (sa_handler action = SIG_IGN) then Ignored info
  else if decide (sa_handler action ≠ SIG_DFL) then
    if handlers_supported then Deliver info action else Exit info
  else
    match default_action (si_signal info) with
    | DIgnore => Ignored info
    | DTerminate => Exit info
    | DStop => Stop info
    | DContinue => Continue info
    end.

(** ** The signal state of a task ([state.rs]) *)

Section state.
Context {L : Type}.

Record SignalState := mkSignal {
  actions : nat;
  blocked : Z;
  pending : list (option SignalInfo);
  suspend_mask : option Z;
  altstack : SignalStack;
  sig_waiters : WaitQueue L;
  sig_version : Z;
}.

(** The action tables that the [Arc]s point to. *)
Abbreviation tables := (gmap nat (list SignalAction)).

Definition no_pending : list (option SignalInfo) := replicate (S SIGNAL_MAX) None.
Definition default_table : list SignalAction := replicate (S SIGNAL_MAX) (default_for 0).

(** [Arc::new] *)
Definition alloc_table (t : list SignalAction) (h : tables) : nat * tables :=
  let l := fresh (dom h) in (l, <[l := t]> h).

Definition from_parts (table : nat) (b : Z) (st : SignalStack) : SignalState :=
  mkSignal table b no_pending None st WaitQueue_new 1.

Definition SignalState_new (h : tables) : SignalState * tables :=
  let '(l, h) := alloc_table default_table h in (from_parts l 0 SignalStack_disabled, h).

Definition clone_for_thread (s : SignalState) : SignalState :=
  from_parts (actions s) (blocked s) (altstack s).

Definition fork_copy (s : SignalState) (h : tables) : SignalState * tables :=
  let '(l, h') := alloc_table (default [] (h !! actions s)) h in
  (from_parts l (blocked s) (altstack s), h').

Definition set_blocked (b : Z) (s : SignalState) : SignalState :=
  mkSignal (actions s) b (pending s) (suspend_mask s) (altstack s) (sig_waiters s) (sig_version s).
Definition set_pending (p : list (option SignalInfo)) (s : SignalState) : SignalState :=
  mkSignal (actions s) (blocked s) p (suspend_mask s) (altstack s) (sig_waiters s) (sig_version s).
Definition set_suspend (m : option Z) (s : SignalState) : SignalState :=
  mkSignal (actions s) (blocked s) (pending s) m (altstack s) (sig_waiters s) (sig_version s).
Definition set_stack (st : SignalStack) (s : SignalState) : SignalState :=
  mkSignal (actions s) (blocked s) (pending s) (suspend_mask s) st (sig_waiters s) (sig_version s).
Definition sig_bump (s : SignalState) : SignalState :=
  mkSignal (actions s) (blocked s) (pending s) (suspend_mask s) (altstack s) (sig_waiters s)
    (wrapping_add u64_max (sig_version s) 1).

Definition set_blocked_mask (mask : Z) (s : SignalState) : SignalState :=
  set_blocked (sanitize_mask mask) s.
Definition restore_mask (mask : Z) (s : SignalState) : SignalState :=
  set_blocked (sanitize_mask mask) s.

Definition exec_action (a : SignalAction) : SignalAction :=
  if decide (sa_handler a ≠ SIG_DFL ∧ sa_handler a ≠ SIG_IGN) then default_for 0 else a.

Definition prepare_for_exec (s : SignalState) (h : tables) : SignalState * tables :=
  (set_stack SignalStack_disabled (set_suspend None s),
   alter (λ t, match t with [] => [] | a0 :: r => a0 :: (exec_action <$> r) end) (actions s) h).

Definition set_mask (how set : Z) (s : SignalState) : SignalState :=
  if decide (how = SIG_BLOCK) then set_blocked (Z.lor (blocked s) (sanitize_mask set)) s
  else if decide (how = SIG_UNBLOCK) then
    set_blocked (Z.land (blocked s) (not64 (sanitize_mask set))) s
  else if decide (how = SIG_SETMASK) then set_blocked (sanitize_mask set) s
  else s.

Definition action (signal : nat) (s : SignalState) (h : tables) : option SignalAction :=
  t ← h !! actions s; t !! signal.

Definition set_action (signal : nat) (a : SignalAction) (s : SignalState) (h : tables) : bool * tables :=
  if decide (signal = 0 ∨ SIGNAL_MAX < signal ∨ Z.of_nat signal = SIGKILL ∨ Z.of_nat signal = SIGSTOP)%nat
  then (false, h)
  else (true, alter (λ t, <[signal := a]> t) (actions s) h).

Definition clear_signals (l : list Z) (p : list (option SignalInfo)) : list (option SignalInfo) :=
  foldl (λ p sg, <[Z.to_nat sg := None]> p) p l.

Definition enqueue (info : SignalInfo) (s : SignalState) : SignalState * list (L * Z) :=
  let index := Z.to_nat (si_signal info) in
  if decide (index = 0 ∨ SIGNAL_MAX < index)%nat then (s, [])
  else
    let p := if decide (si_signal info = SIGCONT)
             then clear_signals [SIGSTOP; SIGTSTP; SIGTTIN; SIGTTOU] (pending s)
             else if decide (si_signal info ∈ [SIGSTOP; SIGTSTP; SIGTTIN; SIGTTOU])
             then clear_signals [SIGCONT] (pending s)
             else pending s in
    let s := sig_bump (set_pending (<[index := Some info]> p) s) in
    let '(woken, w) := notify (sig_waiters s) PollEvents.READ in
    (mkSignal (actions s) (blocked s) (pending s) (suspend_mask s) (altstack s) w (sig_version s),
     woken).

(** The loop shared by [has_deliverable] and [take_next_delivery]: the first
    of the signals [l] that is pending and not blocked. *)
Fixpoint scan_deliverable (l : list nat) (s : SignalState) (t : list SignalAction)
    (handlers_supported : bool) : option (nat * SignalDelivery) :=
  match l with
  | [] => None
  | signal :: rest =>
      match mjoin (pending s !! signal), t !! signal with
      | Some info, Some a =>
          match delivery_for (blocked s) a info handlers_supported with
          | DNone => scan_deliverable rest s t handlers_supported
          | delivery => Some (signal, delivery)
          end
      | _, _ => scan_deliverable rest s t handlers_supported
      end
  end.

Definition signals : list nat := seq 1 SIGNAL_MAX.

Definition has_deliverable (handlers_supported : bool) (s : SignalState) (h : tables) : bool :=
  match scan_deliverable signals s (default [] (h !! actions s)) handlers_supported with
  | Some _ => true
  | None => false
  end.

Definition take_next_delivery (handlers_supported : bool) (s : SignalState) (h : tables)
    : SignalDelivery * SignalState :=
  match scan_deliverable signals s (default [] (h !! actions s)) handlers_supported with
  | Some (signal, delivery) => (delivery, set_pending (<[signal := None]> (pending s)) s)
  | None => (DNone, s)
  end.

Definition enter_sigsuspend (mask : Z) (s : SignalState) : SignalState :=
  set_blocked (sanitize_mask mask) (set_suspend (Some (blocked s)) s).

Definition leave_sigsuspend (s : SignalState) : SignalState :=
  match suspend_mask s with
  | Some previous => set_blocked previous (set_suspend None s)
  | None => s
  end.

Definition in_mask (masked : Z) (info : SignalInfo) : bool :=
  let bit := sigbit (si_signal info) in
  negb (bit =? 0) && negb (Z.land masked bit =? 0).

Definition has_pending_in_mask (mask : Z) (s : SignalState) : bool :=
  existsb (λ o, match o with Some info => in_mask (sanitize_mask mask) info | None => false end)
    (pending s).

Fixpoint scan_mask (l : list nat) (masked : Z) (s : SignalState) : option (nat * SignalInfo) :=
  match l with
  | [] => None
  | signal :: rest =>
      match mjoin (pending s !! signal) with
      | Some info => if in_mask masked info then Some (signal, info) else scan_mask rest masked s
      | None => scan_mask rest masked s
      end
  end.

Definition take_pending_in_mask (mask : Z) (s : SignalState) : option SignalInfo * SignalState :=
  match scan_mask signals (sanitize_mask mask) s with
  | Some (signal, info) => (Some info, sig_bump (set_pending (<[signal := None]> (pending s)) s))
  | None => (None, s)
  end.

Definition get_altstack (user_sp : Z) (s : SignalState) : SignalStack :=
  signal_altstack_format_old (altstack s) user_sp.

Definition set_altstack (new_stack : option SignalStack) (user_sp : Z) (s : SignalState)
    : outcome SysErr.SysErr SignalStack * SignalState :=
  let old_stack := signal_altstack_format_old (altstack s) user_sp in
  match new_stack with
  | None => (Ok old_stack, s)
  | Some new_stack =>
      match signal_altstack_validate_new new_stack with
      | Ok _ =>
          if negb (Z.land (ss_flags old_stack) SS_ONSTACK =? 0) then (Err SysErr.Perm, s)
          else (Ok old_stack, set_stack (signal_altstack_store new_stack) s)
      | Err e => (Err e, s)
      | Panic => (Panic, s)
      | Diverge => (Diverge, s)
      end
  end.

Definition restore_after_sigreturn (mask : Z) (st : SignalStack) (s : SignalState) : SignalState :=
  set_stack (signal_altstack_store st) (set_blocked (sanitize_mask mask) s).

Definition should_use_altstack_for_signal (action_flags user_sp : Z) (s : SignalState) : bool :=
  negb (Z.land action_flags SA_ONSTACK =? 0) && signal_altstack_config_enabled (altstack s) &&
  negb (signal_altstack_contains_sp (altstack s) user_sp).

Definition altstack_top_for_signal (s : SignalState) : option Z :=
  checked_add u64_max (ss_sp (altstack s)) (ss_size (altstack s)).

Definition arm_altstack_for_signal (s : SignalState) : SignalState :=
  if negb (Z.land (ss_flags (altstack s)) SS_AUTODISARM =? 0)
  then set_stack SignalStack_disabled s else s.

Definition has_unblocked_pending (s : SignalState) : bool :=
  existsb (λ o, match o with
                | Some info => negb (is_blocked (blocked s) (si_signal info))
                | None => false
                end) (pending s).

Definition has_waitable_child_signal (s : SignalState) : bool :=
  match pending s !! 17%nat with
  | Some (Some info) => bool_decide (si_signal info = SIGCHLD)
  | _ => false
  end.

Definition set_sig_waiters (w : WaitQueue L) (s : SignalState) : SignalState :=
  mkSignal (actions s) (blocked s) (pending s) (suspend_mask s) (altstack s) w (sig_version s).

Definition sig_register_waiter (listener : L) (s : SignalState) : Z * SignalState :=
  let '(id, w) := register (sig_waiters s) PollEvents.READ listener in (id, set_sig_waiters w s).

Definition sig_unregister_waiter (waiter_id : Z) (s : SignalState) : bool * SignalState :=
  let '(found, w) := unregister (sig_waiters s) waiter_id in (found, set_sig_waiters w s).

Definition notify_waiters (s : SignalState) : SignalState * list (L * Z) :=
  let '(woken, w) := notify (sig_waiters s) PollEvents.READ in (set_sig_waiters w s, woken).
End state.

Arguments SignalState : clear implicits.
Abbreviation action_tables := (gmap nat (list SignalAction)).
