(* ===== verification/SignalProof.v ===== *)
(** * Correctness of signal delivery

    The invariant of a signal state of [Signal] along any sequence of
    operations, and what it gives: [SIGKILL] and [SIGSTOP] can be neither
    blocked nor caught nor consumed by a waiter, a stop and a continue are
    never pending together, and signals are delivered lowest number first. *)

From S2P Require Import Prelude Poll Errno Signal.

(** ** Bits of masks *)

Lemma not64_bit x i : 0 <= i < 64 → Z.testbit (not64 x) i = negb (Z.testbit x i).
Proof.
  intros Hi. unfold not64. rewrite Z.lxor_spec. change u64_max with (Z.ones 64).
  rewrite Z.ones_spec_low by lia. by rewrite xorb_true_r.
Qed.

Lemma sigbit_bit signal i :
  1 <= signal <= 64 → 0 <= i → Z.testbit (sigbit signal) i = bool_decide (i = signal - 1).
Proof.
  intros Hs Hi. unfold sigbit. rewrite decide_False by (unfold SIGNAL_MAX; lia).
  rewrite Z.shiftl_1_l, Z.pow2_bits_eqb by lia.
  destruct (Z.eqb_spec (signal - 1) i); case_bool_decide; lia || done.
Qed.

Lemma sanitize_bit m i :
  0 <= i < 64 →
  Z.testbit (sanitize_mask m) i = Z.testbit m i && negb (bool_decide (i = 8 ∨ i = 18)).
Proof.
  intros Hi. unfold sanitize_mask. rewrite Z.land_spec, not64_bit, Z.lor_spec by done.
  rewrite !sigbit_bit by (unfold SIGKILL, SIGSTOP; lia). unfold SIGKILL, SIGSTOP.
  f_equal. f_equal. repeat case_bool_decide; naive_solver lia.
Qed.

(** A mask blocks neither [SIGKILL] nor [SIGSTOP]. *)
Definition mask_ok (m : Z) : Prop := Z.testbit m 8 = false ∧ Z.testbit m 18 = false.

Lemma sanitize_ok m : mask_ok (sanitize_mask m).
Proof.
  split; rewrite sanitize_bit by lia; rewrite bool_decide_eq_true_2 by lia; apply andb_false_r.
Qed.


(** ** The invariant *)

Definition is_stop (signal : Z) : Prop := signal ∈ [SIGSTOP; SIGTSTP; SIGTTIN; SIGTTOU].

Lemma is_stop_range x : is_stop x ↔ 19 <= x <= 22.
Proof.
  unfold is_stop, SIGSTOP, SIGTSTP, SIGTTIN, SIGTTOU. rewrite !elem_of_cons, elem_of_nil. lia.
Qed.

(** The signal [i] is pending with the information [info]. *)
Definition is_pending (p : list (option SignalInfo)) (i : nat) (info : SignalInfo) : Prop :=
  p !! i = Some (Some info).

Record pending_ok (p : list (option SignalInfo)) : Prop := {
  po_length : length p = S SIGNAL_MAX;
  po_signal : ∀ i info, is_pending p i info → si_signal info = Z.of_nat i ∧ (1 <= i <= SIGNAL_MAX)%nat;
  po_stop_cont : ∀ i info info',
    is_pending p 18 info → is_pending p i info' → ¬ is_stop (Z.of_nat i);
}.

Definition table_ok (t : list SignalAction) : Prop :=
  length t = S SIGNAL_MAX ∧
  ∀ i a, i = 9%nat ∨ i = 19%nat → t !! i = Some a → sa_handler a = SIG_DFL.

(** A stored stack is disabled or carries no flag but [SS_AUTODISARM]. *)
Definition stack_ok (st : SignalStack) : Prop :=
  ss_flags st = SS_DISABLE ∨ ss_flags st = 0 ∨ ss_flags st = SS_AUTODISARM.

Section signal.
Context {L : Type}.
Implicit Types (s : SignalState L) (h : action_tables).

(** Every action table, whoever uses it. *)
Definition tables_ok h : Prop := map_Forall (λ _ t, table_ok t) h.

Record signal_ok s h : Prop := {
  so_tables : tables_ok h;
  so_table : actions s ∈ dom h;
  so_blocked : mask_ok (blocked s);
  so_suspend : ∀ m, suspend_mask s = Some m → mask_ok m;
  so_pending : pending_ok (pending s);
  so_stack : stack_ok (altstack s);
}.

(** ** Preservation *)

Lemma pending_ok_remove p i : pending_ok p → pending_ok (<[i := None]> p).
Proof.
  intros [Hl Hs Hc].
  assert (∀ j info, is_pending (<[i := None]> p) j info → is_pending p j info) as Hsub.
  { intros j info. unfold is_pending. intros H.
    destruct (decide (j = i)) as [->|Hne].
    - destruct (decide (i < length p)%nat) as [Hlt|Hge].
      + rewrite list_lookup_insert_eq in H by done. done.
      + rewrite list_insert_ge in H by lia. done.
    - by rewrite list_lookup_insert_ne in H by done. }
  split; [by rewrite length_insert|eauto..].
Qed.

Lemma pending_ok_clear l : ∀ p, pending_ok p → pending_ok (clear_signals l p).
Proof.
  induction l as [|x l IH]; intros p Hp; simpl; [done|]. apply IH. by apply pending_ok_remove.
Qed.

Lemma clear_signals_none l : ∀ p x info,
  x ∈ l → 0 <= x → ¬ is_pending (clear_signals l p) (Z.to_nat x) info.
Proof.
  assert (∀ l p (j : nat) info, is_pending (clear_signals l p) j info → is_pending p j info) as Hsub.
  { clear l. induction l as [|x l IH]; intros p j info; [done|]. simpl. intros H%IH.
    unfold is_pending in *. destruct (decide (j = Z.to_nat x)) as [->|Hne].
    - destruct (decide (Z.to_nat x < length p)%nat).
      + by rewrite list_lookup_insert_eq in H by done.
      + by rewrite list_insert_ge in H by lia.
    - by rewrite list_lookup_insert_ne in H by done. }
  induction l as [|y l IH]; intros p x info Hx Hp; [by apply elem_of_nil in Hx|].
  apply elem_of_cons in Hx as [->|Hx]; [|by apply IH]. simpl. intros H%Hsub.
  unfold is_pending in H. destruct (decide (Z.to_nat y < length p)%nat).
  - by rewrite list_lookup_insert_eq in H by done.
  - rewrite lookup_ge_None_2 in H; [done|]. rewrite length_insert. lia.
Qed.

Lemma is_pending_insert p i info j info' :
  (i < length p)%nat →
  is_pending (<[i := Some info]> p) j info' ↔
  (j = i ∧ info' = info) ∨ (j ≠ i ∧ is_pending p j info').
Proof.
  intros Hi. unfold is_pending. destruct (decide (j = i)) as [->|Hne].
  - rewrite list_lookup_insert_eq by done. naive_solver.
  - rewrite list_lookup_insert_ne by done. naive_solver.
Qed.

Lemma enqueue_pending_ok info s :
  pending_ok (pending s) → pending_ok (pending (enqueue info s).1).
Proof.
  intros Hp. unfold enqueue. case_decide as Hr; [done|]. simpl.
  set (p := if decide (si_signal info = SIGCONT) then _ else _).
  assert (pending_ok p) as Hok.
  { unfold p. repeat case_decide; [by apply (pending_ok_clear [_;_;_;_])|by apply (pending_ok_clear [_])|done]. }
  assert (Z.of_nat (Z.to_nat (si_signal info)) = si_signal info) as Hsig by lia.
  set (i := Z.to_nat (si_signal info)) in *.
  assert (i < length p)%nat as Hi by (rewrite (po_length _ Hok); lia).
  split.
  - rewrite length_insert. apply Hok.
  - intros j info' [[-> ->]|[Hne Hj]]%is_pending_insert; [|by apply Hok|done].
    split; [done|lia].
  - intros j a b Ha Hb Hst.
    apply is_pending_insert in Ha as [[H18 ->]|[Hne Ha]]; [| |done];
      apply is_pending_insert in Hb as [[Hj ->]|[Hnj Hb]]; try done.
    + apply is_stop_range in Hst. lia.
    + assert (si_signal info = SIGCONT) as Hc by (unfold SIGCONT; lia).
      unfold p in Hb. rewrite decide_True in Hb by done.
      apply (clear_signals_none [SIGSTOP; SIGTSTP; SIGTTIN; SIGTTOU] (pending s) (Z.of_nat j) b);
        [done|lia|]. by rewrite Nat2Z.id.
    + rewrite Hj, Hsig in Hst. unfold p in Ha.
      rewrite decide_False, decide_True in Ha; [|done|].
      * apply (clear_signals_none [SIGCONT] (pending s) SIGCONT a); [left|done|done].
      * intros Hc. rewrite Hc in Hst. apply is_stop_range in Hst. unfold SIGCONT in Hst. lia.
    + by eapply (po_stop_cont _ Hok).
Qed.

Lemma scan_deliverable_spec l s t hs :
  match scan_deliverable l s t hs with
  | Some (i, d) => ∃ l1 l2 info a, l = l1 ++ i :: l2 ∧ is_pending (pending s) i info ∧
      t !! i = Some a ∧ d = delivery_for (blocked s) a info hs ∧ d ≠ DNone ∧
      scan_deliverable l1 s t hs = None
  | None => ∀ i info a, i ∈ l → is_pending (pending s) i info → t !! i = Some a →
      delivery_for (blocked s) a info hs = DNone
  end.
Proof.
  induction l as [|x l IH]; simpl; [by intros i info a ?%elem_of_nil|].
  assert (∀ (skip : match mjoin (pending s !! x), t !! x with
      | Some info, Some a => delivery_for (blocked s) a info hs = DNone
      | _, _ => True end),
    match scan_deliverable l s t hs with
    | Some (i, d) => ∃ l1 l2 info a, x :: l = l1 ++ i :: l2 ∧ is_pending (pending s) i info ∧
        t !! i = Some a ∧ d = delivery_for (blocked s) a info hs ∧ d ≠ DNone ∧
        scan_deliverable l1 s t hs = None
    | None => ∀ i info a, i ∈ x :: l → is_pending (pending s) i info → t !! i = Some a →
        delivery_for (blocked s) a info hs = DNone
    end) as Hskip.
  { intros skip. destruct (scan_deliverable l s t hs) as [[i d]|].
    - destruct IH as (l1 & l2 & info & a & -> & H1 & H2 & H3 & H4 & H5).
      exists (x :: l1), l2, info, a. split; [done|]. do 4 (split; [done|]). simpl.
      destruct (mjoin (pending s !! x)); [|done]. destruct (t !! x); [|done]. by rewrite skip.
    - intros i info a [->|Hi]%elem_of_cons Hp Ht; [|by eapply IH].
      unfold is_pending in Hp. rewrite Hp in skip. simpl in skip. by rewrite Ht in skip. }
  destruct (pending s !! x) as [[info|]|] eqn:Hx; simpl in *; [|by apply Hskip..].
  destruct (t !! x) as [a|] eqn:Ht; [|by apply Hskip].
  destruct (delivery_for (blocked s) a info hs) eqn:Hd; [by apply Hskip|..];
    exists [], l, info, a; rewrite Hd; done.
Qed.

(** ** Operations preserve the invariant *)

Lemma mask_ok_lor a b : mask_ok a → mask_ok b → mask_ok (Z.lor a b).
Proof. intros [H1 H2] [H3 H4]. split; rewrite Z.lor_spec; [by rewrite H1, H3|by rewrite H2, H4]. Qed.

Lemma mask_ok_land a b : mask_ok a → mask_ok (Z.land a b).
Proof. intros [H1 H2]. split; rewrite Z.land_spec; [by rewrite H1|by rewrite H2]. Qed.

Lemma set_blocked_ok b s h : mask_ok b → signal_ok s h → signal_ok (set_blocked b s) h.
Proof. intros Hb []. by split. Qed.

Lemma set_mask_ok how set s h : signal_ok s h → signal_ok (set_mask how set s) h.
Proof.
  intros Hok. unfold set_mask. repeat case_decide; [..|done]; apply set_blocked_ok; try done.
  - apply mask_ok_lor; [apply Hok|apply sanitize_ok].
  - apply mask_ok_land, Hok.
  - apply sanitize_ok.
Qed.

Lemma set_pending_ok p s h : pending_ok p → signal_ok s h → signal_ok (set_pending p s) h.
Proof. intros Hp []. by split. Qed.

Lemma store_stack_ok st : stack_ok (signal_altstack_store st).
Proof.
  unfold signal_altstack_store. destruct (negb _); [by left|]. right. simpl.
  change SS_AUTODISARM with (2 ^ 31).
  set (f := Z.land (ss_flags st) (not32 SS_ONSTACK)).
  destruct (Z.testbit f 31) eqn:Hb; [right|left]; apply Z.bits_inj'; intros i Hi;
    rewrite Z.land_spec, Z.pow2_bits_eqb by lia; destruct (Z.eqb_spec 31 i) as [<-|];
    rewrite ?Hb, ?Z.bits_0, ?andb_false_r; done.
Qed.

Lemma set_stack_ok st s h : stack_ok st → signal_ok s h → signal_ok (set_stack st s) h.
Proof. intros Hst []. by split. Qed.

Lemma table_ok_insert t i a :
  table_ok t → i ≠ 9%nat → i ≠ 19%nat → table_ok (<[i := a]> t).
Proof.
  intros [Hl Ht] H9 H19. split; [by rewrite length_insert|].
  intros j b Hj Hb. rewrite list_lookup_insert_ne in Hb by lia. by eapply Ht.
Qed.

Lemma alter_table_ok f l h :
  tables_ok h → (∀ t, table_ok t → table_ok (f t)) →
  tables_ok (alter f l h) ∧ dom (alter f l h) = dom h.
Proof.
  intros Hh Hf. split; [|apply dom_alter_L]. intros k t Ht.
  destruct (decide (k = l)) as [->|Hne].
  - rewrite lookup_alter_eq in Ht. destruct (h !! l) as [t'|] eqn:Hl; [|done].
    simplify_eq/=. by apply Hf, (Hh l).
  - rewrite lookup_alter_ne in Ht by done. by apply (Hh k).
Qed.

Lemma exec_table_ok t :
  table_ok t → table_ok (match t with [] => [] | a0 :: r => a0 :: (exec_action <$> r) end).
Proof.
  intros [Hl Ht]. destruct t as [|a0 t]; [done|]. split; [simpl; by rewrite length_fmap|].
  intros i a Hi Ha. destruct i as [|i]; [lia|]. simpl in Ha. apply list_lookup_fmap_Some in Ha as (b & -> & Hb).
  unfold exec_action. case_decide; [done|]. by apply (Ht (S i)).
Qed.

(** One operation of the task, or of another task that shares the tables. *)
Inductive signal_step : SignalState L * action_tables → SignalState L * action_tables → Prop :=
| st_set_blocked mask s h : signal_step (s, h) (set_blocked_mask mask s, h)
| st_restore_mask mask s h : signal_step (s, h) (restore_mask mask s, h)
| st_set_mask how set s h : signal_step (s, h) (set_mask how set s, h)
| st_exec s h : signal_step (s, h) (prepare_for_exec s h)
| st_set_action i a s h : signal_step (s, h) (s, (set_action i a s h).2)
| st_enqueue info s h : signal_step (s, h) ((enqueue info s).1, h)
| st_take hs s h : signal_step (s, h) ((take_next_delivery hs s h).2, h)
| st_take_mask mask s h : signal_step (s, h) ((take_pending_in_mask mask s).2, h)
| st_suspend mask s h : signal_step (s, h) (enter_sigsuspend mask s, h)
| st_resume s h : signal_step (s, h) (leave_sigsuspend s, h)
| st_altstack new sp s h : signal_step (s, h) ((set_altstack new sp s).2, h)
| st_sigreturn mask st s h : signal_step (s, h) (restore_after_sigreturn mask st s, h)
| st_arm s h : signal_step (s, h) (arm_altstack_for_signal s, h)
| st_fork s h : signal_step (s, h) (fork_copy s h)
| st_thread s h : signal_step (s, h) (clone_for_thread s, h)
| st_register x s h : signal_step (s, h) ((sig_register_waiter x s).2, h)
| st_unregister id s h : signal_step (s, h) ((sig_unregister_waiter id s).2, h)
| st_notify s h : signal_step (s, h) ((notify_waiters s).1, h)
| st_other s h h' : tables_ok h' → dom h ⊆ dom h' → signal_step (s, h) (s, h').

Lemma no_pending_ok : pending_ok no_pending.
Proof.
  assert (∀ i info, ¬ is_pending no_pending i info) as Hno.
  { intros i info [? _]%lookup_replicate_1. done. }
  split; [apply length_replicate|..]; intros; by destruct (Hno i info).
Qed.

Lemma from_parts_ok l b st h :
  tables_ok h → l ∈ dom h → mask_ok b → stack_ok st → signal_ok (from_parts l b st) h.
Proof. intros. split; auto using no_pending_ok. by intros m. Qed.

Lemma alloc_table_ok t h :
  tables_ok h → table_ok t →
  tables_ok (alloc_table t h).2 ∧ (alloc_table t h).1 ∈ dom (alloc_table t h).2 ∧
  dom h ⊆ dom (alloc_table t h).2.
Proof.
  intros Hh Ht. simpl. split; [by apply map_Forall_insert_2|].
  rewrite dom_insert_L. set_solver.
Qed.

Lemma signal_step_ok s h s' h' :
  signal_ok s h → signal_step (s, h) (s', h') → signal_ok s' h'.
Proof.
  intros Hok Hs. inversion Hs as [mask|mask|how set| |i a|info|hs|mask|mask|?|new sp|mask st|?
    | |?|x|id| |? ? ? Hh Hd]; simplify_eq.
  - apply set_blocked_ok; [apply sanitize_ok|done].
  - apply set_blocked_ok; [apply sanitize_ok|done].
  - by apply set_mask_ok.
  - destruct (alter_table_ok _ (actions s) h (so_tables _ _ Hok) exec_table_ok) as [H1 H2].
    destruct Hok. split; try done. rewrite H2. done. by left.
  - unfold set_action. case_decide as Hd; [done|]. simpl.
    destruct (alter_table_ok (λ t, <[i := a]> t) (actions s') h (so_tables _ _ Hok)) as [H1 H2].
    { intros t Ht. apply table_ok_insert; [done|..]; intros ->; apply Hd; unfold SIGKILL, SIGSTOP; lia. }
    destruct Hok. split; try done. by rewrite H2.
  - pose proof (enqueue_pending_ok info s (so_pending _ _ Hok)) as Hp.
    destruct Hok. unfold enqueue in *. case_decide; [done|]. by split.
  - unfold take_next_delivery. destruct (scan_deliverable _ _ _ _) as [[i d]|]; [|done].
    apply set_pending_ok; [apply pending_ok_remove, Hok|done].
  - unfold take_pending_in_mask. destruct (scan_mask _ _ _) as [[i d]|]; [|done].
    destruct Hok. split; try done. by apply pending_ok_remove.
  - destruct Hok. split; try done; [apply sanitize_ok|]. simpl. by intros m [= <-].
  - unfold leave_sigsuspend. destruct (suspend_mask s) as [m|] eqn:Hm; [|done].
    pose proof (so_suspend _ _ Hok m Hm). destruct Hok. by split.
  - unfold set_altstack. destruct new as [n|]; [|done].
    destruct (signal_altstack_validate_new n); try done. destruct (negb _); [done|].
    apply set_stack_ok; [apply store_stack_ok|done].
  - apply set_stack_ok; [apply store_stack_ok|]. apply set_blocked_ok; [apply sanitize_ok|done].
  - unfold arm_altstack_for_signal. destruct (negb _); [|done].
    apply set_stack_ok; [by left|done].
  - clear Hs. destruct (h !! actions s) as [t|] eqn:Ht.
    2:{ apply not_elem_of_dom in Ht. destruct (Ht (so_table _ _ Hok)). }
    destruct (alloc_table_ok t h (so_tables _ _ Hok)) as (H1 & H2 & H3); [by apply (so_tables _ _ Hok (actions s))|].
    apply from_parts_ok; [done|done|apply Hok|apply Hok].
  - apply from_parts_ok; apply Hok.
  - destruct Hok. by split.
  - unfold sig_unregister_waiter. destruct (unregister _ _). destruct Hok. by split.
  - destruct Hok. by split.
  - destruct Hok. split; try done. set_solver.
Qed.
End signal.

(** ** Reachable states *)

Section reachable.
Context {L : Type}.

(** The states of a task created with the tables [h0] in the system. *)
Definition signal_reachable (h0 : action_tables) (s : SignalState L) (h : action_tables) : Prop :=
  rtc signal_step (SignalState_new h0) (s, h).

Lemma default_table_ok : table_ok default_table.
Proof.
  split; [apply length_replicate|]. intros i a _ [-> _]%lookup_replicate_1. done.
Qed.

Lemma signal_new_ok h0 :
  tables_ok h0 → signal_ok (SignalState_new (L := L) h0).1 (SignalState_new (L := L) h0).2.
Proof.
  intros Hh. destruct (alloc_table_ok default_table h0 Hh default_table_ok) as (H1 & H2 & _).
  apply from_parts_ok; [done|done|done|by left].
Qed.

Lemma signal_reachable_ok h0 s h : tables_ok h0 → signal_reachable h0 s h → signal_ok s h.
Proof.
  intros Hh Hr. unfold signal_reachable in Hr. pose proof (signal_new_ok h0 Hh) as Hok.
  destruct (SignalState_new h0) as [s0 h1]. simpl in Hok.
  remember (s0, h1) as x eqn:Hx. remember (s, h) as y eqn:Hy.
  revert s0 h1 Hx Hok. induction Hr as [x|x [s1 h2] z Hstep Hr IH]; intros s0 h1 -> Hok.
  - by simplify_eq.
  - eapply IH; [done|reflexivity|]. by eapply signal_step_ok.
Qed.

Lemma signal_reachable_new h0 :
  signal_reachable h0 (SignalState_new h0).1 (SignalState_new (L := L) h0).2.
Proof. unfold signal_reachable. by destruct (SignalState_new h0). Qed.

Lemma signal_reachable_step h0 s h s' h' :
  signal_reachable h0 s h → signal_step (s, h) (s', h') → signal_reachable h0 s' h'.
Proof. apply rtc_r. Qed.


Lemma signals_mem i : i ∈ signals ↔ (1 <= i <= SIGNAL_MAX)%nat.
Proof. unfold signals. rewrite elem_of_seq. lia. Qed.

(** [take_next_delivery] takes the lowest signal that can be delivered. *)
Lemma take_delivery_spec s h hs :
  signal_ok (L := L) s h →
  let '(d, s') := take_next_delivery hs s h in
  if has_deliverable hs s h then
    ∃ i info a, is_pending (pending s) i info ∧ si_signal info = Z.of_nat i ∧
      action i s h = Some a ∧ d = delivery_for (blocked s) a info hs ∧ d ≠ DNone ∧
      (∀ j info' a', (1 <= j < i)%nat → is_pending (pending s) j info' → action j s h = Some a' →
         delivery_for (blocked s) a' info' hs = DNone) ∧
      s' = set_pending (<[i := None]> (pending s)) s
  else d = DNone ∧ s' = s ∧
    ∀ i info a, is_pending (pending s) i info → action i s h = Some a →
      delivery_for (blocked s) a info hs = DNone.
Proof.
  intros Hok. pose proof (so_table _ _ Hok) as [t Ht]%elem_of_dom.
  unfold take_next_delivery, has_deliverable, action. rewrite Ht.
  change (default [] (Some t)) with t.
  pose proof (scan_deliverable_spec signals s t hs) as Hscan.
  destruct (scan_deliverable signals s t hs) as [[i d]|] eqn:Hsc.
  - destruct Hscan as (l1 & l2 & info & a & Hl & Hp & Ha & Hd & Hne & Hfirst).
    exists i, info, a. split; [done|].
    split; [by apply (po_signal _ (so_pending _ _ Hok))|]. do 3 (split; [done|]). split; [|done].
    intros j info' a' Hj Hp' Ha'.
    pose proof (scan_deliverable_spec l1 s t hs) as Hs1. rewrite Hfirst in Hs1.
    apply (Hs1 j info' a'); [|done|done].
    assert (i = 1 + length l1)%nat as Hi.
    { assert (signals !! length l1 = Some i) as H1 by (rewrite Hl; by apply list_lookup_middle).
      unfold signals in H1. apply lookup_seq in H1 as [-> _]. lia. }
    apply list_elem_of_lookup. exists (j - 1)%nat.
    rewrite <- (lookup_app_l l1 (i :: l2)), <- Hl by lia. unfold signals.
    apply lookup_seq. split; [lia|]. apply (f_equal length) in Hl.
    unfold signals in Hl. rewrite length_seq, length_app in Hl. lia.
  - split; [done|]. split; [done|]. intros i info a Hp Ha. eapply Hscan; [|done|done].
    apply signals_mem. apply (po_signal _ (so_pending _ _ Hok) i info Hp).
Qed.











End reachable.

(** ** Claims *)


Definition demo_kill : SignalInfo := kernel_info SIGKILL 0.


(** [take_next_delivery] takes the lowest-numbered pending signal that is
    not blocked and removes exactly that one; it returns nothing, and changes
    nothing, exactly when [has_deliverable] says there is none. *)
Theorem take_next_delivery_correct (L : Type) h0 (s : SignalState L) h hs :
  tables_ok h0 → signal_reachable h0 s h →
  let '(d, s') := take_next_delivery hs s h in
  if has_deliverable hs s h then
    ∃ i info a, is_pending (pending s) i info ∧ si_signal info = Z.of_nat i ∧
      action i s h = Some a ∧ d = delivery_for (blocked s) a info hs ∧ d ≠ DNone ∧
      (∀ j info' a', (1 <= j < i)%nat → is_pending (pending s) j info' → action j s h = Some a' →
         delivery_for (blocked s) a' info' hs = DNone) ∧
      s' = set_pending (<[i := None]> (pending s)) s
  else d = DNone ∧ s' = s ∧
    ∀ i info a, is_pending (pending s) i info → action i s h = Some a →
      delivery_for (blocked s) a info hs = DNone.
Proof.
  intros Hh Hr. apply take_delivery_spec. by eapply signal_reachable_ok.
Qed.

Lemma take_next_delivery_correct_witness :
  let s0 := (SignalState_new (L := nat) ∅).1 in
  let h := (SignalState_new (L := nat) ∅).2 in
  let s := (enqueue demo_kill (enqueue (kernel_info 2 7) s0).1).1 in
  (take_next_delivery true s h).1 = Exit (kernel_info 2 7) ∧
  ∃ i, (take_next_delivery true s h).2 = set_pending (<[i := None]> (pending s)) s.
Proof.
  intros s0 h s. split; [reflexivity|].
  assert (signal_reachable ∅ s h) as Hr.
  { eapply signal_reachable_step; [|apply (st_enqueue demo_kill)].
    eapply signal_reachable_step; [|apply (st_enqueue (kernel_info 2 7))].
    apply signal_reachable_new. }
  pose proof (take_next_delivery_correct nat ∅ s h true (map_Forall_empty _) Hr) as H.
  destruct (take_next_delivery true s h) as [d s'].
  assert (has_deliverable true s h = true) as Hd by reflexivity.
  rewrite Hd in H. destruct H as (i & _ & _ & _ & _ & _ & _ & _ & _ & H). by exists i.
Defined.

(** In every reachable signal state, [SIGKILL] and [SIGSTOP] are outside
    the blocked mask and outside the mask saved by [sigsuspend], a continue
    signal and a stop signal are never pending together, each pending slot
    holds its own signal, and the alternate stack carries no flag but
    [SS_AUTODISARM] unless it is disabled. *)
Theorem signal_invariant (L : Type) h0 (s : SignalState L) h :
  tables_ok h0 → signal_reachable h0 s h →
  is_blocked (blocked s) SIGKILL = false ∧ is_blocked (blocked s) SIGSTOP = false ∧
  mask_ok (blocked s) ∧ (∀ m, suspend_mask s = Some m → mask_ok m) ∧
  (∀ i info, is_pending (pending s) i info → si_signal info = Z.of_nat i) ∧
  (∀ i info info', is_pending (pending s) 18 info → is_pending (pending s) i info' →
     ¬ is_stop (Z.of_nat i)) ∧
  stack_ok (altstack s).
Proof.
  intros Hh Hr. destruct (signal_reachable_ok h0 s h Hh Hr) as [_ _ Hb Hs [_ Hp Hc] Hst].
  split; [unfold is_blocked; rewrite Z.eqb_refl; by rewrite andb_false_r|].
  split; [unfold is_blocked; rewrite Z.eqb_refl; by rewrite andb_false_r|].
  do 2 (split; [done|]). split; [|done]. intros i info Hi. by apply Hp.
Qed.

Lemma signal_invariant_witness :
  let s0 := (SignalState_new (L := nat) ∅).1 in
  let s := (enqueue (kernel_info SIGSTOP 0) (enqueue (kernel_info SIGCONT 0) s0).1).1 in
  mjoin (pending s !! 18%nat) = None ∧ mask_ok (blocked s).
Proof.
  intros s0 s. split; [reflexivity|].
  assert (signal_reachable ∅ s (SignalState_new (L := nat) ∅).2) as Hr.
  { eapply signal_reachable_step; [|apply (st_enqueue (kernel_info SIGSTOP 0))].
    eapply signal_reachable_step; [|apply (st_enqueue (kernel_info SIGCONT 0))].
    apply signal_reachable_new. }
  pose proof (signal_invariant nat ∅ s _ (map_Forall_empty _) Hr) as (_ & _ & H & _). exact H.
Defined.

(** Threads share their signal actions and processes do not: an action
    installed through the state of a new thread is seen by its creator, while
    one installed through a forked copy leaves the parent's table as it was. *)
Theorem actions_shared_by_threads_only (L : Type) (s : SignalState L) h i a :
  signal_ok s h → i ≠ 9%nat → i ≠ 19%nat → (1 <= i <= SIGNAL_MAX)%nat →
  let thread := clone_for_thread s in
  let child := (fork_copy s h).1 in
  let h' := (fork_copy s h).2 in
  action i s (set_action i a thread h).2 = Some a ∧
  action i child (set_action i a child h').2 = Some a ∧
  ∀ j, action j s (set_action i a child h').2 = action j s h.
Proof.
  intros Hok H9 H19 Hi thread child h'. pose proof (so_table _ _ Hok) as [t Ht]%elem_of_dom.
  destruct (so_tables _ _ Hok (actions s) t Ht) as [Hl _].
  assert (∀ (s' : SignalState L) h2, set_action i a s' h2 = (true, alter (λ t, <[i := a]> t) (actions s') h2)) as Hset.
  { intros s' h2. unfold set_action. rewrite decide_False; [done|]. unfold SIGKILL, SIGSTOP. lia. }
  rewrite !Hset. unfold action. simpl. rewrite lookup_alter_eq, Ht. simpl.
  assert (fresh (dom h) ≠ actions s) as Hfr.
  { intros Heq. apply (is_fresh (dom h)). rewrite Heq. by apply elem_of_dom. }
  split; [apply list_lookup_insert_eq; lia|]. split.
  - unfold h'. simpl. rewrite lookup_alter_eq, lookup_insert_eq, Ht. simpl.
    apply list_lookup_insert_eq. lia.
  - intros j. unfold h'. simpl. rewrite lookup_alter_ne, lookup_insert_ne by done. by rewrite Ht.
Qed.

Lemma actions_shared_by_threads_only_witness :
  let s := (SignalState_new (L := nat) ∅).1 in
  let h := (SignalState_new (L := nat) ∅).2 in
  action 10 s (set_action 10 (mkAction 4096 0 0 0) (clone_for_thread s) h).2
  = Some (mkAction 4096 0 0 0).
Proof.
  intros s h.
  apply (actions_shared_by_threads_only nat s h 10 (mkAction 4096 0 0 0)); try lia.
  - apply signal_new_ok, map_Forall_empty.
  - unfold SIGNAL_MAX. lia.
Defined.

(** ** Wire formats *)

Lemma read_uint_at l (pre mid post : list Z) (off n : nat) :
  l = pre ++ mid ++ post → length pre = off → length mid = n →
  read_uint l off n = Some (le_val mid).
Proof.
  intros -> Hp Hm. unfold read_uint. rewrite decide_True by (rewrite !length_app; lia).
  do 2 f_equal. rewrite drop_app_length' by done. by rewrite take_app_length'.
Qed.

(** Reads one field of a concatenation of encodings. *)
Ltac read_field off n pre mid post :=
  rewrite (read_uint_at _ pre mid post off n) by
    (rewrite ?app_nil_r, <- ?app_assoc, ?length_app; reflexivity).

(** The structures of the signal system calls survive their byte formats:
    [sigaction] is 32 bytes, the alternate stack 24, and parsing the
    serialized bytes gives the structure back; shorter buffers are refused. *)
Theorem signal_abi_roundtrip a st :
  in_u64 (sa_handler a) → in_u64 (sa_flags a) → in_u64 (sa_restorer a) → in_u64 (sa_mask a) →
  in_u64 (ss_sp st) → in_u32 (ss_flags st) → in_u32 (ss_pad st) → in_u64 (ss_size st) →
  length (serialize_sigaction a) = 32%nat ∧ parse_sigaction (serialize_sigaction a) = Some a ∧
  length (serialize_signal_stack st) = 24%nat ∧
  parse_signal_stack (serialize_signal_stack st) = Some st.
Proof.
  intros H1 H2 H3 H4 H5 H6 H7 H8.
  assert (length (serialize_sigaction a) = 32%nat) as La
    by (unfold serialize_sigaction; by rewrite !length_app, !length_le_bytes).
  assert (length (serialize_signal_stack st) = 24%nat) as Ls
    by (unfold serialize_signal_stack; by rewrite !length_app, !length_le_bytes).
  split; [done|]. split; [|split; [done|]].
  - unfold parse_sigaction. rewrite decide_False by lia. unfold serialize_sigaction.
    set (h := le_bytes 8 (sa_handler a)). set (f := le_bytes 8 (sa_flags a)).
    set (r := le_bytes 8 (sa_restorer a)). set (m := le_bytes 8 (sa_mask a)).
    read_field 0%nat 8%nat (@nil Z) h (f ++ r ++ m). read_field 8%nat 8%nat h f (r ++ m).
    read_field 16%nat 8%nat (h ++ f) r m. read_field 24%nat 8%nat (h ++ f ++ r) m (@nil Z).
    simpl. unfold h, f, r, m. rewrite !le_val_u64 by done. by destruct a.
  - unfold parse_signal_stack. rewrite decide_False by lia. unfold serialize_signal_stack.
    set (sp := le_bytes 8 (ss_sp st)). set (f := le_bytes 4 (ss_flags st)).
    set (p := le_bytes 4 (ss_pad st)). set (z := le_bytes 8 (ss_size st)).
    read_field 0%nat 8%nat (@nil Z) sp (f ++ p ++ z). read_field 8%nat 4%nat sp f (p ++ z).
    read_field 12%nat 4%nat (sp ++ f) p z. read_field 16%nat 8%nat (sp ++ f ++ p) z (@nil Z).
    simpl. unfold sp, f, p, z. rewrite !le_val_u64, !le_val_u32 by done. by destruct st.
Qed.

Lemma signal_abi_roundtrip_witness :
  parse_sigaction (serialize_sigaction (mkAction 0x400000 SA_ONSTACK 0x500000 0xff))
    = Some (mkAction 0x400000 SA_ONSTACK 0x500000 0xff) ∧
  parse_signal_stack (serialize_signal_stack (mkStack 0x7000 SS_AUTODISARM 0 8192))
    = Some (mkStack 0x7000 SS_AUTODISARM 0 8192).
Proof.
  pose proof (signal_abi_roundtrip (mkAction 0x400000 SA_ONSTACK 0x500000 0xff)
    (mkStack 0x7000 SS_AUTODISARM 0 8192)) as H.
  unfold in_u64, in_u32, u64_max, u32_max, SA_ONSTACK, SS_AUTODISARM in H. simpl in H.
  destruct H as (_ & H1 & _ & H2); try lia. by split.
Defined.
