(* ===== verification/SignalFd.v ===== *)
(** * Signal file descriptors

    Models [aether-kernel/src/signal/fd.rs]: a bounded queue of signal
    notifications read as 128-byte records. *)

From S2P Require Import Prelude Poll Errno Signal SignalProof.

Definition SIGNALFD_SIGINFO_SIZE : nat := 128.
Definition SIGNALFD_QUEUE_LIMIT : nat := 64.

(** [i32::to_ne_bytes] *)
Definition i32_bytes (v : Z) : list Z := le_bytes 4 (v mod 2 ^ 32).

(** Writes at offsets 0, 4, 8, 12, 16 and 40 of a zeroed record. *)
Definition serialize_signalfd_siginfo (info : SignalInfo) : list Z :=
  le_bytes 4 (si_signal info) ++ i32_bytes 0 ++ i32_bytes (si_code info) ++ i32_bytes (si_pid info) ++
  le_bytes 4 (si_uid info) ++ replicate 20 0 ++ i32_bytes (si_status info) ++ replicate 84 0.

Section signalfd.
Context {L : Type}.

Record SignalFdFile := mkSignalFd {
  sfd_mask : Z;
  sfd_queue : list SignalInfo;
  sfd_version : Z;
  sfd_waiters : WaitQueue L;
}.

Definition create_signalfd (mask : Z) : SignalFdFile := mkSignalFd mask [] 1 WaitQueue_new.

Definition sfd_set_mask (mask : Z) (s : SignalFdFile) : SignalFdFile :=
  mkSignalFd mask (sfd_queue s) (sfd_version s) (sfd_waiters s).

Definition with_signal_state (s : SignalFdFile) : SignalFdFile := create_signalfd (sfd_mask s).

Definition notify_signal (info : SignalInfo) (s : SignalFdFile) : SignalFdFile * list (L * Z) :=
  let bit := sigbit (si_signal info) in
  if decide (bit = 0 ∨ Z.land (sfd_mask s) bit = 0) then (s, [])
  else
    let queue := if decide (SIGNALFD_QUEUE_LIMIT <= length (sfd_queue s))%nat
                 then tail (sfd_queue s) else sfd_queue s in
    let '(woken, w) := notify (sfd_waiters s) PollEvents.READ in
    (mkSignalFd (sfd_mask s) (queue ++ [info]) (wrapping_add u64_max (sfd_version s) 1) w, woken).

(** The records that fit into [room] bytes, and the queue after them. *)
Fixpoint read_records (queue : list SignalInfo) (room : nat) : list Z * list SignalInfo :=
  match queue with
  | [] => ([], [])
  | info :: rest =>
      if decide (SIGNALFD_SIGINFO_SIZE <= room)%nat then
        let '(bytes, queue') := read_records rest (room - SIGNALFD_SIGINFO_SIZE) in
        (serialize_signalfd_siginfo info ++ bytes, queue')
      else ([], queue)
  end.

(** [read] into a buffer of [n] bytes: the bytes written to it. *)
Definition sfd_read (n : nat) (s : SignalFdFile) : outcome FsError (list Z) * SignalFdFile :=
  if decide (n = 0)%nat then (Ok [], s)
  else if decide (n < SIGNALFD_SIGINFO_SIZE)%nat then (Err InvalidInput, s)
  else
    let '(bytes, queue) := read_records (sfd_queue s) n in
    if decide (bytes = []) then (Err WouldBlock, s)
    else (Ok bytes, mkSignalFd (sfd_mask s) queue (wrapping_add u64_max (sfd_version s) 1)
                      (sfd_waiters s)).

Definition sfd_poll (s : SignalFdFile) (events : Z) : Z :=
  if PollEvents.contains events PollEvents.READ && negb (bool_decide (sfd_queue s = []))
  then PollEvents.READ else PollEvents.empty.

Definition sfd_register (events : Z) (x : L) (s : SignalFdFile) : option Z * SignalFdFile :=
  if negb (PollEvents.contains events PollEvents.READ) then (None, s)
  else
    let '(id, w) := register (sfd_waiters s) PollEvents.READ x in
    (Some id, mkSignalFd (sfd_mask s) (sfd_queue s) (sfd_version s) w).

Definition sfd_unregister (id : Z) (s : SignalFdFile) : SignalFdFile :=
  mkSignalFd (sfd_mask s) (sfd_queue s) (sfd_version s) (unregister (sfd_waiters s) id).2.

(** ** Proofs *)

Lemma length_siginfo info : length (serialize_signalfd_siginfo info) = SIGNALFD_SIGINFO_SIZE.
Proof.
  unfold serialize_signalfd_siginfo, i32_bytes.
  by rewrite !length_app, !length_le_bytes, !length_replicate.
Qed.

(** As many records as fit are read, oldest first. *)
Lemma read_records_spec queue : ∀ room,
  let k := (room / SIGNALFD_SIGINFO_SIZE)%nat in
  read_records queue room =
  (concat (serialize_signalfd_siginfo <$> take k queue), drop k queue).
Proof.
  unfold SIGNALFD_SIGINFO_SIZE. induction queue as [|info queue IH]; intros room; simpl read_records.
  { by rewrite take_nil, drop_nil. }
  unfold SIGNALFD_SIGINFO_SIZE. case_decide as Hd.
  - rewrite IH. assert (room / 128 = S ((room - 128) / 128))%nat as ->.
    { replace room with ((room - 128) + 1 * 128)%nat at 1 by lia.
      rewrite Nat.div_add by lia. lia. }
    done.
  - rewrite Nat.div_small by lia. done.
Qed.

Inductive sfd_step : SignalFdFile → SignalFdFile → list (L * Z) → Prop :=
| sfd_step_notify info s s' woken : notify_signal info s = (s', woken) → sfd_step s s' woken
| sfd_step_read n s r s' : sfd_read n s = (r, s') → sfd_step s s' []
| sfd_step_mask mask s : sfd_step s (sfd_set_mask mask s) []
| sfd_step_register events x s : sfd_step s (sfd_register events x s).2 []
| sfd_step_unregister id s : sfd_step s (sfd_unregister id s) [].

Definition sfd_ok (s : SignalFdFile) : Prop := (length (sfd_queue s) <= SIGNALFD_QUEUE_LIMIT)%nat.

Definition sfd_pollable : Pollable SignalFdFile L := {|
  pl_ok := sfd_ok;
  pl_poll := sfd_poll;
  pl_waiters := sfd_waiters;
  pl_step := sfd_step;
|}.

Lemma sfd_read_queue n s r s' :
  sfd_read n s = (r, s') → ∃ k, sfd_queue s' = drop k (sfd_queue s).
Proof.
  unfold sfd_read. intros H. do 2 (case_decide; [simplify_eq; by exists 0%nat|]).
  rewrite read_records_spec in H. case_decide; simplify_eq/=; [by exists 0%nat|]. eauto.
Qed.

Lemma sfd_step_queue s s' woken :
  sfd_step s s' woken →
  (∃ k, sfd_queue s' = drop k (sfd_queue s)) ∨
  ((length (sfd_queue s') <= SIGNALFD_QUEUE_LIMIT ∨
    length (sfd_queue s') <= length (sfd_queue s))%nat ∧
   woken = (notify (sfd_waiters s) PollEvents.READ).1).
Proof.
  intros Hs. destruct Hs as [info s s' woken H|n s r s' H|mask s|events x s|id s].
  - unfold notify_signal in H. case_decide; simplify_eq/=; [left; by exists 0%nat|right].
    split; [|done]. rewrite length_app. cbn [length]. unfold SIGNALFD_QUEUE_LIMIT in *.
    case_decide; [|lia]. destruct (sfd_queue s); cbn [length tail] in *; lia.
  - left. by eapply sfd_read_queue.
  - left. by exists 0%nat.
  - left. exists 0%nat. unfold sfd_register. by destruct (negb _).
  - left. by exists 0%nat.
Qed.
End signalfd.

Arguments SignalFdFile : clear implicits.

(** ** Claims *)

(** A signal descriptor never holds more than its limit of notifications,
    reports readiness only when asked, and wakes every registered reader when
    a notification makes it readable. *)
Theorem signalfd_wakes_waiters (L : Type) : @PollableSpec (SignalFdFile L) L sfd_pollable.
Proof.
  split; simpl.
  - unfold sfd_ok. intros s s' woken Hok [[k ->]|[Hlen _]]%sfd_step_queue.
    + rewrite length_drop. lia.
    + unfold SIGNALFD_QUEUE_LIMIT in *. lia.
  - unfold sfd_poll. intros s events k. rewrite has_or.
    destruct (PollEvents.contains events PollEvents.READ) eqn:Hc; simpl; [|by intros ?%has_empty].
    case_bool_decide; simpl; [by intros ?%has_empty|]. intros Hk. left. by eapply contains_has.
  - intros s s' woken events id mask x k Hok Hs Hno Hyes Hreg Hm. unfold sfd_poll in *.
    destruct (PollEvents.contains events PollEvents.READ); simpl in *; [|by apply has_empty in Hyes].
    destruct (decide (sfd_queue s' = [])) as [He|He].
    { rewrite bool_decide_eq_true_2 in Hyes by done. by apply has_empty in Hyes. }
    rewrite bool_decide_eq_false_2 in Hyes by done. simpl in Hyes.
    destruct (decide (sfd_queue s = [])) as [Hs0|Hs0].
    2:{ rewrite bool_decide_eq_false_2 in Hno by done. done. }
    apply sfd_step_queue in Hs as [[j Hd]|[_ ->]]; [|by eapply notify_wakes].
    rewrite Hs0, drop_nil in Hd. done.
Qed.
