(* ===== verification/Itimer.v ===== *)
(** * Interval timers

    Models [aether-kernel/src/process/itimer.rs]: the registry of real-time
    timers keeps, for every thread group, its deadline and interval, and an
    index from deadlines to thread groups; an atomic publishes the earliest
    deadline.  The registry is the state; [BTreeMap] and [BTreeSet] are sorted
    lists. *)

From S2P Require Import Prelude Poll Errno Signal.

Definition SIGALRM : Z := 14.

Record RealTimerState := mkTimer {
  deadline_nanos : option Z;
  interval_nanos : Z;
}.

Record RealTimerRegistry := mkRegistry {
  timers : gmap Z RealTimerState;
  deadlines : list (Z * list Z);
  (** [NEXT_REAL_TIMER_DEADLINE] *)
  published : Z;
}.

Definition registry_new : RealTimerRegistry := mkRegistry ∅ [] u64_max.

Definition publish_next_deadline (r : RealTimerRegistry) : RealTimerRegistry :=
  mkRegistry (timers r) (deadlines r)
    (match deadlines r with (deadline, _) :: _ => deadline | [] => u64_max end).

(** [BTreeSet::insert] and [BTreeSet::remove] *)
Fixpoint set_insert (p : Z) (l : list Z) : list Z :=
  match l with
  | [] => [p]
  | x :: r => if decide (p = x) then l else if decide (p < x) then p :: l else x :: set_insert p r
  end.

Definition set_remove (p : Z) (l : list Z) : list Z := List.filter (λ x, negb (x =? p)) l.

Fixpoint remove_deadline_index (l : list (Z * list Z)) (tgid deadline : Z) : list (Z * list Z) :=
  match l with
  | [] => []
  | (d, waiters) :: r =>
      if decide (d = deadline) then
        let waiters := set_remove tgid waiters in
        if decide (waiters = []) then r else (d, waiters) :: r
      else (d, waiters) :: remove_deadline_index r tgid deadline
  end.

Fixpoint add_deadline_index (l : list (Z * list Z)) (tgid deadline : Z) : list (Z * list Z) :=
  match l with
  | [] => [(deadline, [tgid])]
  | (d, waiters) :: r =>
      if decide (d = deadline) then (d, set_insert tgid waiters) :: r
      else if decide (deadline < d) then (deadline, [tgid]) :: l
      else (d, waiters) :: add_deadline_index r tgid deadline
  end.

Definition remove_deadline (tgid deadline : Z) (r : RealTimerRegistry) : RealTimerRegistry :=
  mkRegistry (timers r) (remove_deadline_index (deadlines r) tgid deadline) (published r).
Definition add_deadline (tgid deadline : Z) (r : RealTimerRegistry) : RealTimerRegistry :=
  mkRegistry (timers r) (add_deadline_index (deadlines r) tgid deadline) (published r).
Definition set_timers (m : gmap Z RealTimerState) (r : RealTimerRegistry) : RealTimerRegistry :=
  mkRegistry m (deadlines r) (published r).

Definition next_deadline (r : RealTimerRegistry) : option Z :=
  if decide (published r = u64_max) then None else Some (published r).

Definition deadline_due (current_nanos : Z) (r : RealTimerRegistry) : bool :=
  match next_deadline r with Some deadline => deadline <=? current_nanos | None => false end.

Definition remaining (o : option RealTimerState) (now_nanos : Z) : Z * Z :=
  (match o ≫= deadline_nanos with Some deadline => saturating_sub deadline now_nanos | None => 0 end,
   match o with Some timer => interval_nanos timer | None => 0 end).

Definition read_real_timer (tgid now_nanos : Z) (r : RealTimerRegistry) : Z * Z :=
  remaining (timers r !! tgid) now_nanos.

(** [if let Some(old) .. && let Some(deadline) = old.deadline_nanos] *)
Definition cancel_index (tgid : Z) (old : option RealTimerState) (r : RealTimerRegistry)
    : RealTimerRegistry :=
  match old ≫= deadline_nanos with
  | Some deadline => remove_deadline tgid deadline r
  | None => r
  end.

Definition set_real_timer (tgid now_nanos value_nanos interval : Z) (r : RealTimerRegistry)
    : (Z * Z) * RealTimerRegistry :=
  let old := timers r !! tgid in
  let r := cancel_index tgid old r in
  let new_timer := mkTimer (if decide (value_nanos ≠ 0)
                            then Some (saturating_add u64_max now_nanos value_nanos) else None)
                           interval in
  let r :=
    if decide (deadline_nanos new_timer = None ∧ interval_nanos new_timer = 0)
    then set_timers (delete tgid (timers r)) r
    else
      let r := match deadline_nanos new_timer with
               | Some deadline => add_deadline tgid deadline r
               | None => r
               end in
      set_timers (<[tgid := new_timer]> (timers r)) r in
  (remaining old now_nanos, publish_next_deadline r).

Definition thread_group_reaped (tgid : Z) (r : RealTimerRegistry) : RealTimerRegistry :=
  let old := timers r !! tgid in
  let r := set_timers (delete tgid (timers r)) r in
  publish_next_deadline (cancel_index tgid old r).

(** The next deadline of a periodic timer, computed on 128 bits. *)
Definition next_after (deadline interval current_nanos : Z) : Z :=
  let next := deadline + (saturating_sub current_nanos deadline / interval + 1) * interval in
  next `min` u64_max.

(** The body of [for tgid in tgids]: whether the timer fires. *)
Definition expire_one (deadline current_nanos tgid : Z) (r : RealTimerRegistry)
    : bool * RealTimerRegistry :=
  match timers r !! tgid with
  | None => (false, r)
  | Some timer =>
      if decide (deadline_nanos timer ≠ Some deadline) then (false, r)
      else if decide (interval_nanos timer = 0) then (true, set_timers (delete tgid (timers r)) r)
      else
        let next := next_after deadline (interval_nanos timer) current_nanos in
        let r := set_timers (<[tgid := mkTimer (Some next) (interval_nanos timer)]> (timers r)) r in
        (true, add_deadline tgid next r)
  end.

Fixpoint expire_all (deadline current_nanos : Z) (tgids : list Z) (r : RealTimerRegistry)
    : list (Z * SignalInfo) * RealTimerRegistry :=
  match tgids with
  | [] => ([], r)
  | tgid :: rest =>
      let '(fired, r) := expire_one deadline current_nanos tgid r in
      let '(expired, r) := expire_all deadline current_nanos rest r in
      ((if fired then [(tgid, kernel_info SIGALRM 0)] else []) ++ expired, r)
  end.

(** [loop]: every round removes one deadline that is due. *)
Fixpoint expire_loop (fuel : nat) (current_nanos : Z) (r : RealTimerRegistry)
    : outcome SysErr.SysErr (list (Z * SignalInfo)) * RealTimerRegistry :=
  match deadlines r with
  | [] => (Ok [], r)
  | (deadline, tgids) :: rest =>
      if decide (current_nanos < deadline) then (Ok [], r)
      else
        match fuel with
        | O => (Diverge, r)
        | S fuel' =>
            let r := mkRegistry (timers r) rest (published r) in
            let '(expired, r) := expire_all deadline current_nanos tgids r in
            match expire_loop fuel' current_nanos r with
            | (Ok more, r) => (Ok (expired ++ more), r)
            | (o, r) => (o, r)
            end
        end
  end.

Definition take_expired (current_nanos : Z) (r : RealTimerRegistry)
    : outcome SysErr.SysErr (list (Z * SignalInfo)) * RealTimerRegistry :=
  let '(o, r) := expire_loop (length (deadlines r)) current_nanos r in
  (o, publish_next_deadline r).

(** ** The index *)

(** The thread group [p] waits for the deadline [d]. *)
Definition waits (l : list (Z * list Z)) (d p : Z) : Prop := ∃ ws, (d, ws) ∈ l ∧ p ∈ ws.

Record index_ok (l : list (Z * list Z)) : Prop := {
  ix_sorted : StronglySorted Z.lt l.*1;
  ix_sets : Forall (λ e, e.2 ≠ [] ∧ StronglySorted Z.lt e.2) l;
}.

Lemma sorted_singleton (p : Z) : StronglySorted Z.lt [p].
Proof. apply StronglySorted_cons. split; constructor. Qed.

Lemma set_insert_spec p l :
  StronglySorted Z.lt l →
  StronglySorted Z.lt (set_insert p l) ∧ set_insert p l ≠ [] ∧
  ∀ x, x ∈ set_insert p l ↔ x = p ∨ x ∈ l.
Proof.
  induction l as [|y l IH]; intros Hs; simpl.
  { split; [apply sorted_singleton|]. split; [done|]. intros x. by rewrite elem_of_cons. }
  apply StronglySorted_cons in Hs as [Hy Hs]. destruct (IH Hs) as (H1 & H2 & H3).
  case_decide as Hp; [|case_decide as Hlt]; (split; [|split; [done|]]).
  - by constructor.
  - intros x. rewrite elem_of_cons. naive_solver.
  - apply StronglySorted_cons. split; [|by constructor].
    apply Forall_cons. split; [done|]. eapply Forall_impl; [exact Hy|]. simpl. lia.
  - intros x. by rewrite elem_of_cons.
  - apply StronglySorted_cons. split; [|done]. apply Forall_forall. intros x [->|Hx]%H3; [lia|].
    rewrite Forall_forall in Hy. by apply Hy.
  - intros x. rewrite !elem_of_cons, H3. tauto.
Qed.

Lemma set_remove_spec p l :
  StronglySorted Z.lt l →
  StronglySorted Z.lt (set_remove p l) ∧ ∀ x, x ∈ set_remove p l ↔ x ≠ p ∧ x ∈ l.
Proof.
  assert (∀ x, x ∈ set_remove p l ↔ x ≠ p ∧ x ∈ l) as Hmem.
  { intros x. unfold set_remove. rewrite !list_elem_of_In, filter_In.
    rewrite negb_true_iff, Z.eqb_neq. tauto. }
  intros Hs. split; [|done]. clear Hmem. induction l as [|y l IH]; [constructor|].
  apply StronglySorted_cons in Hs as [Hy Hs]. simpl.
  destruct (negb (y =? p)); [|by apply IH]. apply StronglySorted_cons. split; [|by apply IH].
  apply Forall_forall. intros x Hx. rewrite Forall_forall in Hy. apply Hy.
  unfold set_remove in Hx. rewrite list_elem_of_In, filter_In, <- list_elem_of_In in Hx. tauto.
Qed.

Lemma index_ok_cons d ws l :
  index_ok ((d, ws) :: l) ↔
  ws ≠ [] ∧ StronglySorted Z.lt ws ∧ index_ok l ∧ Forall (λ d', d < d') l.*1.
Proof.
  split.
  - intros [Hs Hf]. apply StronglySorted_cons in Hs as [Hd Hs].
    apply Forall_cons in Hf as [[H1 H2] Hf]. done.
  - intros (H1 & H2 & [Hs Hf] & Hd). split; [by apply StronglySorted_cons|by apply Forall_cons].
Qed.

Lemma waits_cons d0 ws l d p :
  waits ((d0, ws) :: l) d p ↔ (d = d0 ∧ p ∈ ws) ∨ waits l d p.
Proof. unfold waits. setoid_rewrite elem_of_cons. naive_solver. Qed.

Lemma waits_key l d p : waits l d p → d ∈ l.*1.
Proof. intros (ws & Hin & _). apply list_elem_of_fmap. by exists (d, ws). Qed.

Lemma waits_nil d p : ¬ waits [] d p.
Proof. by intros (ws & ?%elem_of_nil & _). Qed.

Lemma add_deadline_spec p d l :
  index_ok l →
  index_ok (add_deadline_index l p d) ∧
  (∀ d' p', waits (add_deadline_index l p d) d' p' ↔ waits l d' p' ∨ (d' = d ∧ p' = p)) ∧
  (∀ k, k ∈ (add_deadline_index l p d).*1 ↔ k = d ∨ k ∈ l.*1).
Proof.
  induction l as [|[k ws] l IH]; intros Hok; simpl.
  { split.
    { apply index_ok_cons. split; [done|]. split; [apply sorted_singleton|].
      split; [split; constructor|constructor]. }
    split.
    - intros d' p'. rewrite waits_cons, list_elem_of_singleton. pose proof (waits_nil d' p'). tauto.
    - intros k. simpl. by rewrite elem_of_cons. }
  apply index_ok_cons in Hok as (Hne & Hws & Hok & Hlt). destruct (IH Hok) as (H1 & H2 & H3).
  case_decide as Hk; [|case_decide as Hd].
  - subst k. destruct (set_insert_spec p ws Hws) as (S1 & S2 & S3). split; [|split].
    + by apply index_ok_cons.
    + intros d' p'. rewrite !waits_cons, S3. naive_solver.
    + intros k. simpl. rewrite !elem_of_cons. tauto.
  - split; [|split].
    + apply index_ok_cons. split; [done|]. split; [apply sorted_singleton|].
      split; [by apply index_ok_cons|]. simpl. apply Forall_cons. split; [done|].
      eapply Forall_impl; [exact Hlt|]. simpl. lia.
    + intros d' p'. rewrite !waits_cons, list_elem_of_singleton. naive_solver.
    + intros x. simpl. by rewrite !elem_of_cons.
  - split; [|split].
    + apply index_ok_cons. do 3 (split; [done|]). apply Forall_forall. intros x [->|Hx]%H3; [lia|].
      rewrite Forall_forall in Hlt. by apply Hlt.
    + intros d' p'. rewrite !waits_cons, H2. tauto.
    + intros x. simpl. rewrite !elem_of_cons, H3. tauto.
Qed.

Lemma remove_deadline_spec p d l :
  index_ok l →
  index_ok (remove_deadline_index l p d) ∧
  (∀ d' p', waits (remove_deadline_index l p d) d' p' ↔ waits l d' p' ∧ ¬ (d' = d ∧ p' = p)) ∧
  (∀ k, k ∈ (remove_deadline_index l p d).*1 → k ∈ l.*1).
Proof.
  induction l as [|[k ws] l IH]; intros Hok; simpl.
  { split; [done|]. split; [|done]. intros d' p'. pose proof (waits_nil d' p'). tauto. }
  apply index_ok_cons in Hok as (Hne & Hws & Hok & Hlt). destruct (IH Hok) as (H1 & H2 & H3).
  rewrite Forall_forall in Hlt. case_decide as Hk; [|split; [|split]].
  - subst k. destruct (set_remove_spec p ws Hws) as (S1 & S2).
    assert (∀ p', ¬ waits l d p') as Hno. { intros p' Hw%waits_key. specialize (Hlt d Hw). lia. }
    case_decide as He; (split; [|split]).
    + done.
    + intros d' p'. rewrite waits_cons. specialize (S2 p'). rewrite He in S2.
      specialize (Hno p'). split.
      { intros Hw. split; [by right|]. by intros [-> ->]. }
      intros [[[-> Hp]|Hw] Hn]; [|done]. destruct (not_elem_of_nil p'). apply S2.
      split; [|done]. intros ->. by apply Hn.
    + intros x Hx. by right.
    + apply index_ok_cons. do 3 (split; [done|]). by apply Forall_forall.
    + intros d' p'. rewrite !waits_cons, S2. specialize (Hno p'). naive_solver.
    + done.
  - apply index_ok_cons. do 3 (split; [done|]). apply Forall_forall. intros x Hx. by apply Hlt, H3.
  - intros d' p'. rewrite !waits_cons, H2. naive_solver.
  - intros x. simpl. rewrite !elem_of_cons. naive_solver.
Qed.

(** ** The invariant of the registry *)

Record registry_ok (r : RealTimerRegistry) : Prop := {
  ro_index : index_ok (deadlines r);
  ro_match : ∀ d p, waits (deadlines r) d p ↔ ∃ i, timers r !! p = Some (mkTimer (Some d) i);
  ro_interval : ∀ p t, timers r !! p = Some t → 0 <= interval_nanos t;
  ro_deadline : ∀ d, d ∈ (deadlines r).*1 → 0 <= d <= u64_max;
}.

Definition published_ok (r : RealTimerRegistry) : Prop :=
  published r = match deadlines r with (deadline, _) :: _ => deadline | [] => u64_max end.

Lemma publish_ok r :
  registry_ok r → registry_ok (publish_next_deadline r) ∧ published_ok (publish_next_deadline r).
Proof. intros []. done. Qed.

Lemma waits_unique r d d' p :
  registry_ok r → waits (deadlines r) d p → waits (deadlines r) d' p → d = d'.
Proof.
  intros Hok [i Hi]%(ro_match _ Hok) [i' Hi']%(ro_match _ Hok). congruence.
Qed.

(** Removing a timer from the index and from the map. *)
Lemma cancel_spec r tgid :
  registry_ok r →
  registry_ok (set_timers (delete tgid (timers r)) (cancel_index tgid (timers r !! tgid) r)).
Proof.
  intros Hok. unfold cancel_index.
  assert (∀ l, (∀ k, k ∈ l.*1 → k ∈ (deadlines r).*1) → index_ok l →
    (∀ d p, waits l d p ↔ waits (deadlines r) d p ∧ p ≠ tgid) →
    registry_ok (mkRegistry (delete tgid (timers r)) l (published r))) as Hgen.
  { intros l Hk Hix Hw. split; simpl; [done|..].
    - intros d p. rewrite Hw, (ro_match _ Hok). split.
      + intros [[i Hi] Hne]. exists i. by rewrite lookup_delete_ne.
      + intros [i [Hne Hi]%lookup_delete_Some]. split; [by exists i|done].
    - intros p t [_ Hp]%lookup_delete_Some. by eapply (ro_interval _ Hok).
    - intros d Hd. by apply (ro_deadline _ Hok), Hk. }
  destruct (timers r !! tgid) as [[[d|] i]|] eqn:Ht; simpl.
  - destruct (remove_deadline_spec tgid d (deadlines r) (ro_index _ Hok)) as (H1 & H2 & H3).
    apply Hgen; [done|done|]. intros d' p. rewrite H2. split; intros [Hw Hn]; (split; [done|]).
    + intros ->. apply Hn. split; [|done]. eapply waits_unique; [done|exact Hw|].
      apply (ro_match _ Hok). by exists i.
    + by intros [_ ->].
  - apply Hgen; [done|apply Hok|]. intros d p. split; [|tauto]. intros Hw. split; [done|].
    intros ->. apply (ro_match _ Hok) in Hw as [j Hj]. congruence.
  - apply Hgen; [done|apply Hok|]. intros d p. split; [|tauto]. intros Hw. split; [done|].
    intros ->. apply (ro_match _ Hok) in Hw as [j Hj]. congruence.
Qed.

(** Adding a timer for a thread group that has none. *)
Lemma install_timer_ok r tgid t :
  registry_ok r → timers r !! tgid = None → 0 <= interval_nanos t →
  (∀ d, deadline_nanos t = Some d → 0 <= d <= u64_max) →
  registry_ok (set_timers (<[tgid := t]> (timers r))
    (match deadline_nanos t with Some d => add_deadline tgid d r | None => r end)).
Proof.
  intros Hok Hnone Hi Hd.
  assert (∀ d, ¬ waits (deadlines r) d tgid) as Hno.
  { intros d [i Hj]%(ro_match _ Hok). congruence. }
  assert (∀ p t', <[tgid := t]> (timers r) !! p = Some t' → 0 <= interval_nanos t') as Hint.
  { intros p t' [[_ <-]|[_ Hp]]%lookup_insert_Some; [done|]. by eapply (ro_interval _ Hok). }
  destruct t as [[d|] i]; simpl in *.
  - destruct (add_deadline_spec tgid d (deadlines r) (ro_index _ Hok)) as (H1 & H2 & H3).
    split; simpl; [done|..|done|].
    + intros d' p. rewrite H2, (ro_match _ Hok). destruct (decide (p = tgid)) as [->|Hne].
      * rewrite Hnone, lookup_insert_eq. naive_solver.
      * rewrite lookup_insert_ne by done. naive_solver.
    + intros k [->|Hk]%H3; [by apply Hd|by apply (ro_deadline _ Hok)].
  - split; simpl; [apply Hok|..|done|apply Hok].
    intros d' p. rewrite (ro_match _ Hok). destruct (decide (p = tgid)) as [->|Hne].
    + rewrite Hnone, lookup_insert_eq. naive_solver.
    + by rewrite lookup_insert_ne by done.
Qed.

Lemma set_real_timer_ok tgid now value interval r :
  registry_ok r → in_u64 now → in_u64 value → in_u64 interval →
  let r' := (set_real_timer tgid now value interval r).2 in
  registry_ok r' ∧ published_ok r' ∧
  timers r' = (let t := mkTimer (if decide (value ≠ 0)
                                 then Some (saturating_add u64_max now value) else None) interval in
               if decide (value = 0 ∧ interval = 0) then delete tgid (timers r)
               else <[tgid := t]> (timers r)).
Proof.
  intros Hok Hn Hv Hi. simpl. pose proof (cancel_spec r tgid Hok) as Hc.
  set (r1 := cancel_index tgid (timers r !! tgid) r) in *.
  assert (timers r1 = timers r) as Ht1.
  { unfold r1, cancel_index. by destruct (timers r !! tgid ≫= deadline_nanos). }
  set (t := mkTimer _ interval). unfold in_u64, u64_max, saturating_add in *.
  destruct (decide (value = 0 ∧ interval = 0)) as [Hz|Hz].
  - rewrite decide_True by (simpl; rewrite decide_False by lia; tauto). rewrite Ht1.
    split; [|done]. by destruct (publish_ok _ Hc).
  - assert (¬ (deadline_nanos t = None ∧ interval_nanos t = 0)) as Hz'.
    { simpl. case_decide; [naive_solver|]. intros [_ ?]. apply Hz. lia. }
    rewrite decide_False by done.
    assert (registry_ok (set_timers (<[tgid := t]> (timers r))
      (match deadline_nanos t with Some d => add_deadline tgid d r1 | None => r1 end))) as Hok2.
    { pose proof (install_timer_ok (set_timers (delete tgid (timers r)) r1) tgid t Hc) as Hin.
      simpl in Hin. rewrite lookup_delete_eq, insert_delete_eq in Hin.
      destruct Hin as [A1 A2 A3 A4]; [done|lia| |].
      - intros d. case_decide; [|done]. intros [= <-]. unfold u64_max. lia.
      - unfold t in *. simpl in *. by case_decide; split. }
    assert (timers (match deadline_nanos t with Some d => add_deadline tgid d r1 | None => r1 end)
      = timers r) as Ht2 by (rewrite <- Ht1; by destruct (deadline_nanos t)).
    unfold t in *. simpl in *. rewrite Ht2. split; [|done]. by destruct (publish_ok _ Hok2).
Qed.

Lemma thread_group_reaped_ok tgid r :
  registry_ok r →
  let r' := thread_group_reaped tgid r in
  registry_ok r' ∧ published_ok r' ∧ timers r' = delete tgid (timers r).
Proof.
  intros Hok. pose proof (cancel_spec r tgid Hok) as Hc. unfold thread_group_reaped.
  assert (cancel_index tgid (timers r !! tgid) (set_timers (delete tgid (timers r)) r) =
    set_timers (delete tgid (timers r)) (cancel_index tgid (timers r !! tgid) r)) as ->.
  { unfold cancel_index. by destruct (timers r !! tgid ≫= deadline_nanos). }
  destruct (publish_ok _ Hc) as [H1 H2]. done.
Qed.

(** ** Expiry *)

(** The timer after the expiries up to [cur]. *)
Definition after_expiry (cur : Z) (o : option RealTimerState) : option RealTimerState :=
  t ← o;
  match deadline_nanos t with
  | Some d =>
      if decide (d <= cur) then
        if decide (interval_nanos t = 0) then None
        else Some (mkTimer (Some (next_after d (interval_nanos t) cur)) (interval_nanos t))
      else Some t
  | None => Some t
  end.

Definition timer_due (cur : Z) (o : option RealTimerState) : Prop :=
  ∃ d i, o = Some (mkTimer (Some d) i) ∧ d <= cur.

Lemma next_after_spec d i cur :
  0 <= d <= cur → cur < u64_max → 0 < i → cur < next_after d i cur <= u64_max.
Proof.
  intros Hd Hc Hi. unfold next_after, saturating_sub. rewrite Z.max_r by lia.
  pose proof (Z.div_mod (cur - d) i). pose proof (Z.mod_pos_bound (cur - d) i). nia.
Qed.

(** The registry while the thread groups [todo] of the deadline [dl], already
    removed from the index, are being processed. *)
Record partial_ok (r : RealTimerRegistry) (dl : Z) (todo : list Z) : Prop := {
  pk_index : index_ok (deadlines r);
  pk_match : ∀ d p, waits (deadlines r) d p ↔
    (∃ i, timers r !! p = Some (mkTimer (Some d) i)) ∧ ¬ (d = dl ∧ p ∈ todo);
  pk_todo : ∀ p, p ∈ todo → ∃ i, timers r !! p = Some (mkTimer (Some dl) i);
  pk_interval : ∀ p t, timers r !! p = Some t → 0 <= interval_nanos t;
  pk_deadline : ∀ d, d ∈ (deadlines r).*1 → 0 <= d <= u64_max;
}.

Section expire.
Context (cur dl : Z) (Hcur : cur < u64_max) (Hdl : 0 <= dl <= cur).

Lemma expire_one_spec r p todo :
  partial_ok r dl (p :: todo) → p ∉ todo →
  let '(fired, r') := expire_one dl cur p r in
  fired = true ∧ partial_ok r' dl todo ∧
  (∀ q, timers r' !! q = if decide (q = p) then after_expiry cur (timers r !! q) else timers r !! q) ∧
  (∀ k, k ∈ (deadlines r').*1 → k ∈ (deadlines r).*1 ∨ cur < k).
Proof.
  intros [Hix Hm Htodo Hint Hd] Hp. destruct (Htodo p) as [i Hi]; [left|].
  pose proof (Hint p _ Hi) as Hi0. simpl in Hi0.
  unfold expire_one. rewrite Hi. simpl. rewrite decide_False by (by intros []).
  case_decide as Hz; (split; [done|]; split; [split|split]); simpl; auto.
  - intros d q. rewrite Hm. destruct (decide (q = p)) as [->|Hne].
    + rewrite Hi, lookup_delete_eq. split; [|naive_solver].
      intros [[j [= <- <-]] Hn]. destruct Hn. split; [done|left].
    + rewrite lookup_delete_ne by done. rewrite elem_of_cons. naive_solver.
  - intros q Hq. rewrite lookup_delete_ne by congruence. apply Htodo. by right.
  - intros q t [_ Hq]%lookup_delete_Some. by eapply Hint.
  - intros q. case_decide as Hq; [subst q|by rewrite lookup_delete_ne].
    rewrite Hi, lookup_delete_eq. simpl. by rewrite decide_True, decide_True by lia.
  - destruct (add_deadline_spec p (next_after dl i cur) (deadlines r) Hix) as (H1 & _). done.
  - intros d q. destruct (add_deadline_spec p (next_after dl i cur) (deadlines r) Hix) as (_ & H2 & _).
    pose proof (next_after_spec dl i cur Hdl Hcur) as Hnx.
    rewrite H2, Hm. destruct (decide (q = p)) as [->|Hne].
    + rewrite Hi, lookup_insert_eq. split.
      * intros [[[j [= <- <-]] Hn]|[-> _]]; [destruct Hn; split; [done|left]|].
        split; [by exists i|]. by intros [_ ?].
      * intros [[j [= <- <-]] _]. by right.
    + rewrite lookup_insert_ne by done. rewrite elem_of_cons. naive_solver.
  - intros q Hq. rewrite lookup_insert_ne by congruence. apply Htodo. by right.
  - intros q t [[_ <-]|[_ Hq]]%lookup_insert_Some; [done|]. by eapply Hint.
  - intros k. destruct (add_deadline_spec p (next_after dl i cur) (deadlines r) Hix) as (_ & _ & H3).
    rewrite H3. intros [->|Hk]; [|by apply Hd].
    pose proof (next_after_spec dl i cur Hdl Hcur). lia.
  - intros q. case_decide as Hq; [subst q|by rewrite lookup_insert_ne].
    rewrite Hi, lookup_insert_eq. simpl. by rewrite decide_True, decide_False by lia.
  - intros k. destruct (add_deadline_spec p (next_after dl i cur) (deadlines r) Hix) as (_ & _ & H3).
    rewrite H3. intros [->|Hk]; [|by left]. right. apply next_after_spec; lia.
Qed.

Lemma expire_all_spec todo : ∀ r,
  partial_ok r dl todo → NoDup todo →
  let '(expired, r') := expire_all dl cur todo r in
  partial_ok r' dl [] ∧ expired = (λ p, (p, kernel_info SIGALRM 0)) <$> todo ∧
  (∀ q, timers r' !! q = if decide (q ∈ todo) then after_expiry cur (timers r !! q) else timers r !! q) ∧
  (∀ k, k ∈ (deadlines r').*1 → k ∈ (deadlines r).*1 ∨ cur < k).
Proof.
  induction todo as [|p todo IH]; intros r Hok Hnd; simpl.
  { split; [done|]. split; [done|]. split; [done|]. by left. }
  apply NoDup_cons in Hnd as [Hp Hnd].
  pose proof (expire_one_spec r p todo Hok Hp) as H1.
  destruct (expire_one dl cur p r) as [fired r1]. destruct H1 as (-> & Hok1 & Ht1 & Hk1).
  specialize (IH r1 Hok1 Hnd). destruct (expire_all dl cur todo r1) as [expired r2].
  destruct IH as (Hok2 & -> & Ht2 & Hk2). split; [done|]. split; [done|]. split.
  - intros q. rewrite Ht2, Ht1. destruct (decide (q ∈ p :: todo)) as [Hq|Hq].
    + apply elem_of_cons in Hq as [->|Hq].
      * rewrite (decide_False (P := p ∈ todo)) by done. by rewrite decide_True.
      * rewrite (decide_True (P := q ∈ todo)) by done. rewrite decide_False; [done|]. by intros ->.
    + apply not_elem_of_cons in Hq as [Hne Hq].
      rewrite (decide_False (P := q ∈ todo)) by done. by rewrite decide_False.
  - intros k [Hk|Hk]%Hk2; [by apply Hk1|by right].
Qed.
End expire.

(** The deadlines that are due. *)
Definition due_keys (cur : Z) (r : RealTimerRegistry) : list Z :=
  List.filter (λ d, d <=? cur) (deadlines r).*1.

Lemma due_keys_mem cur r k : k ∈ due_keys cur r ↔ k ∈ (deadlines r).*1 ∧ k <= cur.
Proof. unfold due_keys. rewrite !list_elem_of_In, filter_In, Z.leb_le. done. Qed.

Lemma due_keys_nodup cur r : index_ok (deadlines r) → NoDup (due_keys cur r).
Proof.
  intros [Hs _]. unfold due_keys. apply NoDup_ListNoDup, List.NoDup_filter, NoDup_ListNoDup.
  clear -Hs. induction Hs as [|x l Hs IH Hx]; constructor; [|done].
  intros Hin. rewrite Forall_forall in Hx. specialize (Hx x Hin). lia.
Qed.

Lemma partial_registry r dl : partial_ok r dl [] → registry_ok r.
Proof.
  intros [Hix Hm _ Hint Hd]. split; auto. intros d p. rewrite Hm. split; [by intros [? _]|].
  intros Hi. split; [done|]. by intros [_ ?%elem_of_nil].
Qed.

Lemma after_expiry_twice cur o :
  cur < u64_max → (∀ d i, o = Some (mkTimer (Some d) i) → 0 <= d ∧ 0 <= i) →
  after_expiry cur (after_expiry cur o) = after_expiry cur o ∧
  ¬ timer_due cur (after_expiry cur o).
Proof.
  intros Hc Ho. unfold after_expiry, timer_due. destruct o as [[[d|] i]|]; simpl.
  - destruct (Ho d i) as [Hd Hi]; [done|]. case_decide as Hle.
    + case_decide as Hz; simpl; [split; [done|]; by intros (? & ? & ? & _)|].
      pose proof (next_after_spec d i cur). rewrite decide_False by lia. split; [done|].
      intros (? & ? & [= <- <-] & ?). lia.
    + simpl. rewrite decide_False by done. split; [done|]. by intros (? & ? & [= <- <-] & ?).
  - split; [done|]. by intros (? & ? & ? & _).
  - split; [done|]. by intros (? & ? & ? & _).
Qed.

Lemma after_expiry_not_due cur o : ¬ timer_due cur o → after_expiry cur o = o.
Proof.
  intros Hn. unfold after_expiry. destruct o as [[[d|] i]|]; simpl; [|done..].
  rewrite decide_False; [done|]. intros Hd. apply Hn. by exists d, i.
Qed.

Lemma pop_partial r dl tgids rest :
  registry_ok r → deadlines r = (dl, tgids) :: rest →
  partial_ok (mkRegistry (timers r) rest (published r)) dl tgids ∧ NoDup tgids ∧
  Forall (λ d, dl < d) rest.*1 ∧ 0 <= dl.
Proof.
  intros Hok Hd. pose proof (ro_index _ Hok) as Hix. rewrite Hd in Hix.
  apply index_ok_cons in Hix as (_ & Hws & Hix & Hlt).
  assert (∀ p, waits rest dl p → False) as Hno.
  { intros p Hw%waits_key. rewrite Forall_forall in Hlt. specialize (Hlt dl Hw). lia. }
  split; [split; simpl|split; [|split]]; auto.
  - intros d p. rewrite <- (ro_match _ Hok), Hd, waits_cons.
    split; [|naive_solver]. intros Hw. split; [by right|]. intros [-> _]. by eapply Hno.
  - intros p Hp. apply (ro_match _ Hok). rewrite Hd. apply waits_cons. by left.
  - apply Hok.
  - intros d Hin. apply (ro_deadline _ Hok). rewrite Hd. by right.
  - clear -Hws. induction Hws as [|x l Hs IH Hx]; constructor; [|done].
    intros Hin. rewrite Forall_forall in Hx. specialize (Hx x Hin). lia.
  - apply (ro_deadline _ Hok). rewrite Hd. left.
Qed.

(** What the expiry of a registry promises. *)
Definition expiry_spec (cur : Z) (r : RealTimerRegistry) (l : list (Z * SignalInfo))
    (r' : RealTimerRegistry) : Prop :=
  registry_ok r' ∧
  (∀ p, timers r' !! p = after_expiry cur (timers r !! p)) ∧
  NoDup l.*1 ∧ Forall (λ e, e.2 = kernel_info SIGALRM 0) l ∧
  (∀ p, p ∈ l.*1 ↔ timer_due cur (timers r !! p)) ∧
  Forall (λ d, cur < d) (deadlines r').*1.

Lemma sorted_keys_after (cur : Z) l :
  StronglySorted Z.lt l → (∀ d r, l = d :: r → cur < d) → Forall (λ d, cur < d) l.
Proof.
  intros Hs Hd. destruct l as [|d l]; [constructor|]. specialize (Hd d l eq_refl).
  apply StronglySorted_cons in Hs as [Hl _]. apply Forall_cons. split; [done|].
  eapply Forall_impl; [exact Hl|]. simpl. lia.
Qed.

Lemma nothing_due_spec cur r :
  registry_ok r → Forall (λ d, cur < d) (deadlines r).*1 → expiry_spec cur r [] r.
Proof.
  intros Hok Hlt.
  assert (∀ p, ¬ timer_due cur (timers r !! p)) as Hn.
  { intros p (d & i & Hi & Hle). assert (waits (deadlines r) d p) as Hw%waits_key.
    { apply (ro_match _ Hok). by exists i. }
    rewrite Forall_forall in Hlt. specialize (Hlt d Hw). lia. }
  split; [done|]. split; [intros p; by rewrite after_expiry_not_due|]. split; [apply NoDup_nil_2|].
  split; [constructor|]. split; [|done].
  intros p. split; [by intros ?%elem_of_nil|]. intros Hp. by destruct (Hn p).
Qed.

(** One round of the loop, followed by the expiry of the rest. *)
Lemma expiry_compose cur dl tgids r r1 l r2 :
  cur < u64_max → registry_ok r → NoDup tgids → 0 <= dl <= cur →
  (∀ p, p ∈ tgids → ∃ i, timers r !! p = Some (mkTimer (Some dl) i)) →
  (∀ q, timers r1 !! q = if decide (q ∈ tgids) then after_expiry cur (timers r !! q) else timers r !! q) →
  expiry_spec cur r1 l r2 →
  expiry_spec cur r (((λ p, (p, kernel_info SIGALRM 0)) <$> tgids) ++ l) r2.
Proof.
  intros Hc Hok Hnd Hdl Htg Ht (H1 & H2 & H3 & H4 & H5 & H6).
  assert (∀ p, p ∈ tgids → after_expiry cur (timers r1 !! p) = after_expiry cur (timers r !! p) ∧
    ¬ timer_due cur (timers r1 !! p) ∧ timer_due cur (timers r !! p)) as Hin.
  { intros p Hp. rewrite Ht, decide_True by done. destruct (Htg p Hp) as [i Hi].
    destruct (after_expiry_twice cur (timers r !! p) Hc) as [E1 E2].
    - rewrite Hi. intros d j [= <- <-]. pose proof (ro_interval _ Hok p _ Hi) as Hj. simpl in Hj. lia.
    - split; [done|]. split; [done|]. exists dl, i. split; [done|lia]. }
  assert (((λ p, (p, kernel_info SIGALRM 0)) <$> tgids).*1 = tgids) as Hfst.
  { rewrite <- list_fmap_compose. by apply list_fmap_id. }
  split; [done|]. split.
  { intros p. rewrite H2. destruct (decide (p ∈ tgids)) as [Hp|Hp]; [by apply Hin|].
    by rewrite Ht, decide_False. }
  rewrite fmap_app, Hfst. split.
  { apply NoDup_app. split; [done|]. split; [|done]. intros p (_ & Hd & _)%Hin Hl%H5. by apply Hd. }
  split.
  { apply Forall_app. split; [|done]. apply Forall_fmap, Forall_forall. done. }
  split; [|done]. intros p. rewrite elem_of_app, H5. destruct (decide (p ∈ tgids)) as [Hp|Hp].
  - destruct (Hin p Hp) as (_ & _ & Hdue). tauto.
  - rewrite Ht, decide_False by done. tauto.
Qed.

Lemma due_keys_shrink cur r dl tgids rest r1 :
  index_ok (deadlines r1) → deadlines r = (dl, tgids) :: rest → Forall (λ d, dl < d) rest.*1 →
  dl <= cur → (∀ k, k ∈ (deadlines r1).*1 → k ∈ rest.*1 ∨ cur < k) →
  (length (due_keys cur r1) < length (due_keys cur r))%nat.
Proof.
  intros Hix Hd Hlt Hdl Hk.
  assert (dl :: due_keys cur r1 ⊆ due_keys cur r) as Hsub.
  { intros x. rewrite elem_of_cons, !due_keys_mem, Hd. simpl.
    intros [->|[[Hx|Hx]%Hk Hxc]]; [split; [left|done]|split; [by right|done]|lia]. }
  assert (NoDup (dl :: due_keys cur r1)) as Hnd.
  { apply NoDup_cons. split; [|by apply due_keys_nodup].
    rewrite due_keys_mem. intros [[Hx|Hx]%Hk _]; [|lia].
    rewrite Forall_forall in Hlt. specialize (Hlt dl Hx). lia. }
  pose proof (submseteq_length _ _ (NoDup_submseteq _ _ Hnd Hsub)). simpl in *. lia.
Qed.

Lemma expire_loop_spec cur fuel : ∀ r,
  cur < u64_max → registry_ok r → (length (due_keys cur r) <= fuel)%nat →
  ∃ l r', expire_loop fuel cur r = (Ok l, r') ∧ expiry_spec cur r l r'.
Proof.
  induction fuel as [|fuel IH]; intros r Hc Hok Hf;
    (destruct (decide (Forall (λ d, cur < d) (deadlines r).*1)) as [Hlt|Hdue];
     [exists [], r; split; [|by apply nothing_due_spec]; simpl;
      destruct (deadlines r) as [|[dl tgids] rest]; [done|];
      apply Forall_cons in Hlt as [Hlt _]; by rewrite decide_True|]).
  - destruct Hdue. apply sorted_keys_after; [apply (ro_index _ Hok)|]. intros d l Hd.
    destruct (decide (cur < d)); [done|].
    assert (d ∈ due_keys cur r) as Hin by (apply due_keys_mem; rewrite Hd; split; [left|lia]).
    apply list_elem_of_In in Hin. destruct (due_keys cur r); [done|simpl in Hf; lia].
  - destruct (deadlines r) as [|[dl tgids] rest] eqn:Hd; [by destruct Hdue; constructor|].
    destruct (pop_partial r dl tgids rest Hok Hd) as (Hp & Hnd & Hrest & Hdl).
    assert (dl <= cur) as Hle.
    { destruct (decide (dl <= cur)); [done|]. destruct Hdue. apply Forall_cons. simpl.
      split; [lia|]. eapply Forall_impl; [exact Hrest|]. simpl. lia. }
    pose proof (expire_all_spec cur dl Hc (conj Hdl Hle) tgids _ Hp Hnd) as He.
    simpl. rewrite Hd, decide_False by lia.
    destruct (expire_all dl cur tgids _) as [expired r1]. destruct He as (Hp1 & -> & Ht & Hk).
    destruct (IH r1 Hc (partial_registry _ _ Hp1)) as (l & r2 & -> & Hspec).
    { pose proof (due_keys_shrink cur r dl tgids rest r1 (pk_index _ _ _ Hp1) Hd Hrest Hle Hk). lia. }
    eexists _, r2. split; [done|]. eapply expiry_compose; [done..| |exact Ht|done].
    apply (pk_todo _ _ _ Hp).
Qed.

Lemma due_keys_length cur r : (length (due_keys cur r) <= length (deadlines r))%nat.
Proof. unfold due_keys. rewrite filter_length_le. by rewrite length_fmap. Qed.

Lemma publish_spec r :
  registry_ok r → ∀ cur, cur < u64_max → Forall (λ d, cur < d) (deadlines r).*1 →
  deadline_due cur (publish_next_deadline r) = false.
Proof.
  intros Hok cur Hc Hlt. unfold deadline_due, next_deadline, publish_next_deadline; simpl.
  case_decide as Hmax; [done|]. apply Z.leb_gt.
  destruct (deadlines r) as [|[dl ws] rest]; [done|]. by apply Forall_cons in Hlt as [? _].
Qed.

(** ** Correctness *)

(** the expiry of the real timers terminates and is exact.  At every
    instant before the saturated [u64::MAX], from every consistent registry,
    [take_expired] returns within as many rounds as the registry has deadlines;
    every thread group whose deadline has come is reported exactly once, with
    [SIGALRM] from the kernel, and no other; a one-shot timer that fired is
    gone, a periodic one is armed for the first multiple of its interval after
    the instant, and the others are untouched; the index and the timers stay
    consistent, the earliest deadline is published, and nothing is due any
    more. *)
Theorem take_expired_correct r cur :
  registry_ok r → cur < u64_max →
  ∃ expired r', take_expired cur r = (Ok expired, r') ∧ registry_ok r' ∧ published_ok r' ∧
    NoDup expired.*1 ∧ Forall (λ e, e.2 = kernel_info SIGALRM 0) expired ∧
    (∀ p, p ∈ expired.*1 ↔ timer_due cur (timers r !! p)) ∧
    (∀ p, timers r' !! p = after_expiry cur (timers r !! p)) ∧
    deadline_due cur r' = false.
Proof.
  intros Hok Hc. unfold take_expired.
  destruct (expire_loop_spec cur (length (deadlines r)) r Hc Hok (due_keys_length cur r))
    as (l & r' & -> & Hok' & Ht & Hnd & Hi & Hp & Hlt).
  eexists l, _. split; [done|]. destruct (publish_ok r' Hok') as [Hok2 Hpub].
  do 6 (split; [done|]). by apply publish_spec.
Qed.

Definition demo_registry : RealTimerRegistry :=
  (set_real_timer 9 0 40 0 (set_real_timer 7 0 10 25 registry_new).2).2.

Lemma registry_new_ok : registry_ok registry_new.
Proof.
  split; simpl; [split; constructor|..].
  - intros d p. rewrite lookup_empty. split; [by intros ?%waits_nil|by intros [? ?]].
  - intros p t. by rewrite lookup_empty.
  - by intros d ?%elem_of_nil.
Qed.

Lemma demo_registry_ok : registry_ok demo_registry.
Proof.
  apply set_real_timer_ok; [|done..]. apply set_real_timer_ok; [|done..]. apply registry_new_ok.
Qed.

Lemma take_expired_correct_witness :
  registry_ok demo_registry ∧ 50 < u64_max ∧
  (take_expired 50 demo_registry).1 = Ok [(7, kernel_info SIGALRM 0); (9, kernel_info SIGALRM 0)] ∧
  ∃ expired r', take_expired 50 demo_registry = (Ok expired, r') ∧ registry_ok r' ∧
    deadline_due 50 r' = false.
Proof.
  split; [exact demo_registry_ok|]. split; [reflexivity|]. split; [vm_compute; reflexivity|].
  destruct (take_expired_correct demo_registry 50 demo_registry_ok)
    as (l & r' & H1 & H2 & _ & _ & _ & _ & _ & H3); [reflexivity|].
  exists l, r'. exact (conj H1 (conj H2 H3)).
Defined.

(** [setitimer] followed by [getitimer].  [set_real_timer] returns what
    [read_real_timer] would have read before; afterwards, at any later instant,
    the timer of the thread group reads as the time left of the new value and
    the new interval, the timers of the other thread groups read as before, and
    the registry stays consistent with its earliest deadline published. *)
Theorem set_real_timer_correct r tgid now value interval :
  registry_ok r → in_u64 now → in_u64 value → in_u64 interval →
  let '(old, r') := set_real_timer tgid now value interval r in
  old = read_real_timer tgid now r ∧ registry_ok r' ∧ published_ok r' ∧
  ∀ later, in_u64 later →
    read_real_timer tgid later r' =
      (if decide (value = 0) then 0 else saturating_sub ((now + value) `min` u64_max) later, interval) ∧
    ∀ other, other ≠ tgid → read_real_timer other later r' = read_real_timer other later r.
Proof.
  intros Hok Hn Hv Hi. pose proof (set_real_timer_ok tgid now value interval r Hok Hn Hv Hi) as H.
  destruct (set_real_timer tgid now value interval r) as [old r'] eqn:E. simpl in H.
  destruct H as (Hok' & Hpub & Ht). split; [by injection E|]. split; [done|]. split; [done|].
  intros later Hl. unfold read_real_timer. rewrite Ht. split.
  - case_decide as Hz; [destruct Hz as [-> ->]; by rewrite lookup_delete_eq|].
    rewrite lookup_insert_eq. unfold remaining. simpl. unfold saturating_add.
    destruct (decide (value = 0)) as [->|Hv0]; [by rewrite decide_False by naive_solver|].
    rewrite decide_True by done. by rewrite Z.min_comm.
  - intros other Hne. case_decide; [by rewrite lookup_delete_ne|by rewrite lookup_insert_ne].
Qed.

Lemma set_real_timer_correct_witness :
  (set_real_timer 7 5 100 3 demo_registry).1 = (5, 25) ∧
  read_real_timer 7 30 (set_real_timer 7 5 100 3 demo_registry).2 = (75, 3) ∧
  registry_ok (set_real_timer 7 5 100 3 demo_registry).2.
Proof.
  pose proof (set_real_timer_correct demo_registry 7 5 100 3 demo_registry_ok
    ltac:(done) ltac:(done) ltac:(done)) as H.
  split; [vm_compute; reflexivity|]. split; [vm_compute; reflexivity|].
  destruct (set_real_timer 7 5 100 3 demo_registry) as [old r'].
  destruct H as (_ & H & _). exact H.
Defined.

(** The registry of a single periodic timer. *)
Definition one_timer (tgid deadline interval pub : Z) : RealTimerRegistry :=
  mkRegistry {[ tgid := mkTimer (Some deadline) interval ]} [(deadline, [tgid])] pub.

(** The loop of [take_expired] cannot be left at the instant [u64::MAX].
    The next deadline of a periodic timer is computed on 128 bits and saturated
    to [u64::MAX], so it is due again at once: with one periodic timer armed
    the loop re-inserts the deadline it removes, whatever the number of
    rounds. *)
Theorem take_expired_diverges_at_max tgid deadline interval pub fuel :
  in_u64 deadline → in_u64 interval → interval ≠ 0 →
  ∃ r', expire_loop fuel u64_max (one_timer tgid deadline interval pub) = (Diverge, r').
Proof.
  intros Hd Hi Hne. revert deadline Hd. induction fuel as [|fuel IH]; intros deadline Hd;
    simpl.
  { unfold in_u64 in Hd. rewrite decide_False by lia. by eexists. }
  rewrite decide_False by (unfold in_u64 in Hd; lia).
  unfold expire_one. simpl. rewrite lookup_singleton_eq. simpl.
  rewrite decide_False by (by intros []). rewrite decide_False by done.
  unfold set_timers, add_deadline; simpl. rewrite insert_singleton_eq.
  destruct (IH (next_after deadline interval u64_max)) as [r' Hr].
  - pose proof (Z.div_pos (saturating_sub u64_max deadline) interval) as Hp.
    unfold in_u64, next_after, saturating_sub, u64_max in *. nia.
  - unfold one_timer in Hr. rewrite Hr. by eexists.
Qed.

Lemma take_expired_diverges_at_max_witness :
  ∃ r', expire_loop 100 u64_max (one_timer 7 10 25 10) = (Diverge, r').
Proof. apply take_expired_diverges_at_max; [done|done|discriminate]. Defined.
