(* ===== verification/TimerFd.v ===== *)
(** * Timer descriptors

    Models [aether-kernel/src/fs/timerfd.rs] and the [LinuxTimespec] of
    [src/syscall/abi.rs]: timers with an interval that count their
    expirations, the registry with an index of deadlines for each of the two
    clocks, the atomics that publish the earliest deadlines, and the sweep of
    the timer interrupt.  The times that the clocks show are arguments; the
    files are a map from identities ([Weak] references of the registry point
    into it); listeners that are woken are appended to a log.  The index of a
    clock is the sorted list of [Itimer]. *)

From S2P Require Import Prelude Poll Errno Signal Itimer.

Definition TFD_TIMER_ABSTIME : Z := 1.
Definition TFD_TIMER_CANCEL_ON_SET : Z := 2.
Definition NANOS : Z := 1000000000.

Definition saturating_mul (mx a b : Z) : Z := mx `min` (a * b).

(** ** Times *)

Record LinuxTimespec := mkTimespec { tv_sec : Z; tv_nsec : Z }.

Definition validate (t : LinuxTimespec) : outcome SysErr.SysErr LinuxTimespec :=
  if decide (tv_sec t < 0 ∨ ¬ (0 <= tv_nsec t < NANOS)) then Err SysErr.Inval else Ok t.

Definition total_nanos (t : LinuxTimespec) : outcome SysErr.SysErr Z :=
  _ ← validate t;
  mret (saturating_add u64_max (saturating_mul u64_max (tv_sec t) NANOS) (tv_nsec t)).

Definition ns_to_timespec (total_ns : Z) : LinuxTimespec := mkTimespec (total_ns / NANOS) (total_ns mod NANOS).

Record LinuxItimerSpec := mkSpec { it_interval : LinuxTimespec; it_value : LinuxTimespec }.

(** What the two clocks show. *)
Record clocks := mkClocks { monotonic_now : Z; realtime_secs : Z; realtime_nsec : Z }.

Definition realtime_ns (c : clocks) : Z :=
  saturating_add u64_max (saturating_mul u64_max (realtime_secs c) NANOS) (realtime_nsec c).

Inductive DeadlineClass := Monotonic | Realtime.
#[global] Instance DeadlineClass_eq_dec : EqDecision DeadlineClass.
Proof. solve_decision. Defined.

Inductive TimerFdClock := ClockRealtime | ClockMonotonic | ClockBoottime | ClockRealtimeAlarm | ClockBoottimeAlarm.

Definition deadline_class (c : TimerFdClock) : DeadlineClass :=
  match c with
  | ClockRealtime | ClockRealtimeAlarm => Realtime
  | ClockMonotonic | ClockBoottime | ClockBoottimeAlarm => Monotonic
  end.

Definition class_now (class : DeadlineClass) (c : clocks) : Z :=
  match class with Monotonic => monotonic_now c | Realtime => realtime_ns c end.

Definition current_time_ns (clock : TimerFdClock) (c : clocks) : Z := class_now (deadline_class clock) c.

(** [clock_id as u64] of a negative number is above every clock. *)
Definition parse_timerfd_clock (clock_id : Z) : outcome SysErr.SysErr TimerFdClock :=
  if decide (clock_id = 0) then Ok ClockRealtime
  else if decide (clock_id = 1) then Ok ClockMonotonic
  else if decide (clock_id = 7) then Ok ClockBoottime
  else if decide (clock_id = 8) then Ok ClockRealtimeAlarm
  else if decide (clock_id = 9) then Ok ClockBoottimeAlarm
  else Err SysErr.Inval.

(** ** State *)

Record TimerFdState := mkTfdState {
  interval_ns : Z;
  expires_ns : Z;
  ticks : Z;
  cancel_on_set : bool;
}.

Record TimerFdFile := mkTfd {
  tfd_clock : TimerFdClock;
  tfd_state : TimerFdState;
  tfd_version : Z;
  tfd_waiters : WaitQueue Z;
}.

(** The index of a class; [next_*] are the two atomics. *)
Record TimerFdRegistry := mkTfdRegistry {
  tr_next_id : Z;
  tr_monotonic : list (Z * list Z);
  tr_realtime : list (Z * list Z);
  next_monotonic : Z;
  next_realtime : Z;
}.

Record tfd_world := mkTfdWorld {
  tw_registry : TimerFdRegistry;
  tw_files : gmap Z TimerFdFile;
  tw_woken : list (Z * Z);
}.

Definition tfd_new : tfd_world := mkTfdWorld (mkTfdRegistry 1 [] [] u64_max u64_max) ∅ [].

Definition index (class : DeadlineClass) (r : TimerFdRegistry) : list (Z * list Z) :=
  match class with Monotonic => tr_monotonic r | Realtime => tr_realtime r end.

Definition set_index (class : DeadlineClass) (l : list (Z * list Z)) (r : TimerFdRegistry) : TimerFdRegistry :=
  match class with
  | Monotonic => mkTfdRegistry (tr_next_id r) l (tr_realtime r) (next_monotonic r) (next_realtime r)
  | Realtime => mkTfdRegistry (tr_next_id r) (tr_monotonic r) l (next_monotonic r) (next_realtime r)
  end.

(** [first_key_value().map(..).unwrap_or(u64::MAX)] *)
Definition first_deadline (l : list (Z * list Z)) : Z := match l with (deadline, _) :: _ => deadline | [] => u64_max end.

Definition refresh_next_deadlines (r : TimerFdRegistry) : TimerFdRegistry :=
  mkTfdRegistry (tr_next_id r) (tr_monotonic r) (tr_realtime r) (first_deadline (tr_monotonic r)) (first_deadline (tr_realtime r)).

Definition insert_deadline (class : DeadlineClass) (deadline id : Z) (r : TimerFdRegistry) : TimerFdRegistry :=
  refresh_next_deadlines (set_index class (add_deadline_index (index class r) id deadline) r).
Definition remove_deadline (class : DeadlineClass) (deadline id : Z) (r : TimerFdRegistry) : TimerFdRegistry :=
  refresh_next_deadlines (set_index class (remove_deadline_index (index class r) id deadline) r).

(** ** Expiration *)

(** [refresh_due_locked]: whether the timer expired, the registry and the state
    after it. *)
Definition refresh_due_locked (id : Z) (clock : TimerFdClock) (now : Z) (r : TimerFdRegistry) (st : TimerFdState)
    : bool * TimerFdRegistry * TimerFdState :=
  if decide (expires_ns st = 0 ∨ now < expires_ns st) then (false, r, st)
  else
    let class := deadline_class clock in
    let r := remove_deadline class (expires_ns st) id r in
    if decide (interval_ns st = 0) then
      (true, r, mkTfdState (interval_ns st) 0 (saturating_add u64_max (ticks st) 1) (cancel_on_set st))
    else
      let delta := saturating_sub now (expires_ns st) in
      let periods := delta / interval_ns st + 1 in
      let expires := saturating_add u64_max (expires_ns st) (saturating_mul u64_max periods (interval_ns st)) in
      (true, insert_deadline class expires id r,
       mkTfdState (interval_ns st) expires (saturating_add u64_max (ticks st) periods) (cancel_on_set st)).

Definition MT := M tfd_world FsError.

Definition set_registry (r : TimerFdRegistry) (w : tfd_world) : tfd_world := mkTfdWorld r (tw_files w) (tw_woken w).
Definition put_tfd (id : Z) (f : TimerFdFile) (w : tfd_world) : tfd_world := mkTfdWorld (tw_registry w) (<[id := f]> (tw_files w)) (tw_woken w).
Definition with_state (st : TimerFdState) (f : TimerFdFile) : TimerFdFile := mkTfd (tfd_clock f) st (tfd_version f) (tfd_waiters f).
Definition bump (f : TimerFdFile) : TimerFdFile := mkTfd (tfd_clock f) (tfd_state f) (wrapping_add u64_max (tfd_version f) 1) (tfd_waiters f).

Section operations.
Context {E : Type}.
Abbreviation MW := (M tfd_world E).

Definition tfd_at (id : Z) : MW TimerFdFile := λ w, mexpect (tw_files w !! id) w.

Definition refresh_at (id now : Z) : MW bool :=
  f ← tfd_at id;
  w ← mget;
  let '(changed, r, st) := refresh_due_locked id (tfd_clock f) now (tw_registry w) (tfd_state f) in
  _ ← mput (put_tfd id (with_state st f) (set_registry r w));
  mret changed.

Definition refresh_due (id : Z) (c : clocks) : MW bool :=
  f ← tfd_at id; refresh_at id (current_time_ns (tfd_clock f) c).

Definition create (clock : TimerFdClock) : MW Z :=
  w ← mget;
  let r := tw_registry w in
  let id := tr_next_id r in
  let r := mkTfdRegistry (saturating_add u64_max id 1) (tr_monotonic r) (tr_realtime r) (next_monotonic r) (next_realtime r) in
  _ ← mput (put_tfd id (mkTfd clock (mkTfdState 0 0 0 false) 1 WaitQueue_new) (set_registry r w));
  mret id.

(** [waiters.notify(READ)] *)
Definition notify_readable (id : Z) : MW unit :=
  f ← tfd_at id;
  let '(woken, q) := notify (tfd_waiters f) PollEvents.READ in
  mmodify (λ w, mkTfdWorld (tw_registry w) (<[id := mkTfd (tfd_clock f) (tfd_state f) (tfd_version f) q]> (tw_files w)) (tw_woken w ++ woken)).

Definition bump_at (id : Z) : MW unit := f ← tfd_at id; mmodify (put_tfd id (bump f)).

(** The destructor of the file. *)
Definition tfd_drop (id : Z) : MW unit :=
  f ← tfd_at id;
  mmodify (λ w,
    let r := if decide (expires_ns (tfd_state f) ≠ 0)
             then remove_deadline (deadline_class (tfd_clock f)) (expires_ns (tfd_state f)) id (tw_registry w) else tw_registry w in
    mkTfdWorld (refresh_next_deadlines r) (delete id (tw_files w)) (tw_woken w)).
End operations.

Definition spec_of (st : TimerFdState) (now : Z) : LinuxItimerSpec :=
  mkSpec (ns_to_timespec (interval_ns st)) (ns_to_timespec (saturating_sub (expires_ns st) now)).

Definition get_time (id : Z) (c : clocks) : M tfd_world SysErr.SysErr LinuxItimerSpec :=
  f ← tfd_at id;
  let now := current_time_ns (tfd_clock f) c in
  _ ← refresh_at id now;
  f ← tfd_at id;
  mret (spec_of (tfd_state f) now).

Definition is_realtime (clock : TimerFdClock) : bool := bool_decide (deadline_class clock = Realtime).

(** The part of [set_time] under the locks, after the old setting was read. *)
Definition arm (id : Z) (clock : TimerFdClock) (now interval value : Z) (absolute cancel : bool) (r : TimerFdRegistry) (st : TimerFdState)
    : TimerFdRegistry * TimerFdState :=
  let class := deadline_class clock in
  let r := if decide (expires_ns st ≠ 0) then remove_deadline class (expires_ns st) id r else r in
  let expires := if decide (value = 0) then 0 else if absolute then value else saturating_add u64_max now value in
  let st := mkTfdState interval expires 0 cancel in
  if decide (expires ≠ 0) then
    if decide (expires <= now) then let '(_, r, st) := refresh_due_locked id clock now r st in (r, st)
    else (insert_deadline class expires id r, st)
  else (r, st).

Definition lift_tfd {A} (r : outcome SysErr.SysErr A) : M tfd_world SysErr.SysErr A := λ w, (r, w).

Definition set_time (id flags : Z) (spec : LinuxItimerSpec) (c : clocks) : M tfd_world SysErr.SysErr LinuxItimerSpec :=
  interval ← lift_tfd (total_nanos (it_interval spec));
  value ← lift_tfd (total_nanos (it_value spec));
  let absolute := bool_decide (Z.land flags TFD_TIMER_ABSTIME ≠ 0) in
  let cancel := bool_decide (Z.land flags TFD_TIMER_CANCEL_ON_SET ≠ 0) in
  f ← tfd_at id;
  if cancel && (negb absolute || negb (is_realtime (tfd_clock f))) then mthrow SysErr.Inval
  else
    let now := current_time_ns (tfd_clock f) c in
    _ ← refresh_at id now;
    f ← tfd_at id;
    let old := spec_of (tfd_state f) now in
    w ← mget;
    let '(r, st) := arm id (tfd_clock f) now interval value absolute cancel (tw_registry w) (tfd_state f) in
    _ ← mput (put_tfd id (with_state st f) (set_registry r w));
    _ ← bump_at id;
    _ ← (if decide (ticks st ≠ 0) then notify_readable id else mret ());
    mret old.

(** ** File operations *)

Definition tfd_read (id n : Z) (c : clocks) : MT (list Z) :=
  if decide (n < 8) then mthrow InvalidInput
  else
    _ ← refresh_due id c;
    f ← tfd_at id;
    let st := tfd_state f in
    if decide (ticks st = 0) then mthrow WouldBlock
    else
      _ ← mmodify (put_tfd id (with_state (mkTfdState (interval_ns st) (expires_ns st) 0 (cancel_on_set st)) f));
      _ ← bump_at id;
      mret (le_bytes 8 (ticks st)).

Definition tfd_poll (id events : Z) (c : clocks) : MT Z :=
  _ ← refresh_due id c;
  f ← tfd_at id;
  mret (if bool_decide (ticks (tfd_state f) ≠ 0) && PollEvents.contains events PollEvents.READ
        then PollEvents.bitor PollEvents.empty PollEvents.READ else PollEvents.empty).

Definition tfd_register (id events listener : Z) : MT Z :=
  f ← tfd_at id;
  let '(waiter, q) := register (tfd_waiters f) events listener in
  _ ← mmodify (put_tfd id (mkTfd (tfd_clock f) (tfd_state f) (tfd_version f) q));
  mret waiter.

Definition tfd_unregister (id waiter : Z) : MT unit :=
  f ← tfd_at id;
  let '(_, q) := unregister (tfd_waiters f) waiter in
  mmodify (put_tfd id (mkTfd (tfd_clock f) (tfd_state f) (tfd_version f) q)).

(** ** The timer interrupt *)

Definition deadline_due (c : clocks) (w : tfd_world) : bool :=
  (next_monotonic (tw_registry w) <=? monotonic_now c) || (next_realtime (tw_registry w) <=? realtime_ns c).

Definition next_wakeup_deadline (c : clocks) (w : tfd_world) : option Z :=
  let r := tw_registry w in
  let mono := if decide (next_monotonic r ≠ u64_max) then Some (next_monotonic r) else None in
  let real := if decide (next_realtime r = u64_max) then None
              else Some (if decide (next_realtime r <= realtime_ns c) then monotonic_now c
                         else saturating_add u64_max (monotonic_now c) (saturating_sub (next_realtime r) (realtime_ns c))) in
  match mono, real with
  | Some a, Some b => Some (a `min` b)
  | Some a, None => Some a
  | None, Some b => Some b
  | None, None => None
  end.

(** The body of [for id in ready_ids]; a file that was dropped is skipped. *)
Definition wake_one (now id : Z) : MT unit :=
  w ← mget;
  match tw_files w !! id with
  | None => mret ()
  | Some f =>
      changed ← refresh_at id now;
      f' ← tfd_at id;
      if (changed : bool) && bool_decide (ticks (tfd_state f) = 0) && bool_decide (ticks (tfd_state f') ≠ 0)
      then _ ← bump_at id; notify_readable id
      else mret ()
  end.

Fixpoint wake_all (now : Z) (ids : list Z) : MT unit :=
  match ids with
  | [] => mret ()
  | id :: rest => _ ← wake_one now id; wake_all now rest
  end.

(** [loop]: every round takes the earliest deadline out of the index. *)
Fixpoint wake_expired_class (fuel : nat) (class : DeadlineClass) (now : Z) : MT unit :=
  w ← mget;
  match index class (tw_registry w) with
  | [] => mput (set_registry (refresh_next_deadlines (tw_registry w)) w)
  | (deadline, ids) :: rest =>
      if decide (now < deadline) then mput (set_registry (refresh_next_deadlines (tw_registry w)) w)
      else
        match fuel with
        | O => mdiverge
        | S fuel' =>
            _ ← mput (set_registry (refresh_next_deadlines (set_index class rest (tw_registry w))) w);
            _ ← wake_all now ids;
            wake_expired_class fuel' class now
        end
  end.

Definition wake_class (class : DeadlineClass) (now : Z) : MT unit :=
  w ← mget; wake_expired_class (length (index class (tw_registry w))) class now.

Definition wake_expired_timers (c : clocks) : MT unit :=
  _ ← wake_class Monotonic (monotonic_now c);
  wake_class Realtime (realtime_ns c).
