(* ===== verification/TimerFdProof.v ===== *)
(** * Timer descriptors: proofs

    The indices of the registry hold exactly the armed timers ([tfd_ok]);
    [after now] is what the passing of time makes of a timer, and every
    operation that looks at a timer first applies it.  The sweep of the timer
    interrupt applies it to all timers of a clock. *)

From S2P Require Import Prelude Poll Errno Signal Itimer TimerFd.

(** ** The indices as relations *)

Record idx_is (r : TimerFdRegistry) (P : DeadlineClass → Z → Z → Prop) : Prop := {
  ii_index class : index_ok (index class r);
  ii_waits class d p : waits (index class r) d p ↔ P class d p;
}.

Definition published (r : TimerFdRegistry) : Prop :=
  next_monotonic r = first_deadline (tr_monotonic r) ∧ next_realtime r = first_deadline (tr_realtime r).

Lemma index_set class class' l r : index class' (set_index class l r) = if decide (class' = class) then l else index class' r.
Proof. by destruct class, class'. Qed.
Lemma index_refresh class r : index class (refresh_next_deadlines r) = index class r.
Proof. by destruct class. Qed.

Lemma idx_is_ext r P P' : idx_is r P → (∀ c d p, P c d p ↔ P' c d p) → idx_is r P'.
Proof. intros [H1 H2] HP. split; [done|]. intros c d p. by rewrite H2. Qed.

Lemma idx_insert r P class d id :
  idx_is r P → idx_is (insert_deadline class d id r) (λ c d' p, P c d' p ∨ (c = class ∧ d' = d ∧ p = id)) ∧ published (insert_deadline class d id r).
Proof.
  intros [H1 H2]. destruct (add_deadline_spec id d (index class r) (H1 class)) as (A1 & A2 & _). split; [|done]. split.
  - intros c. unfold insert_deadline. rewrite index_refresh, index_set. by case_decide.
  - intros c d' p. unfold insert_deadline. rewrite index_refresh, index_set. case_decide as Hc; [subst c; rewrite A2, H2|rewrite H2]; naive_solver.
Qed.

Lemma idx_remove r P class d id :
  idx_is r P → idx_is (remove_deadline class d id r) (λ c d' p, P c d' p ∧ ¬ (c = class ∧ d' = d ∧ p = id)) ∧ published (remove_deadline class d id r).
Proof.
  intros [H1 H2]. destruct (remove_deadline_spec id d (index class r) (H1 class)) as (A1 & A2 & _). split; [|done]. split.
  - intros c. unfold remove_deadline. rewrite index_refresh, index_set. by case_decide.
  - intros c d' p. unfold remove_deadline. rewrite index_refresh, index_set. case_decide as Hc; [subst c; rewrite A2, H2|rewrite H2]; naive_solver.
Qed.

(** ** The passing of time *)

(** The expirations of a timer that expires at [e] and then every [i]
    nanoseconds, up to the time [t]. *)
Definition expirations (e i t : Z) : Z :=
  if decide (e = 0 ∨ t < e) then 0 else if decide (i = 0) then 1 else (t - e) / i + 1.

Definition after (now : Z) (st : TimerFdState) : TimerFdState :=
  let n := expirations (expires_ns st) (interval_ns st) now in
  if decide (expires_ns st = 0 ∨ now < expires_ns st) then st
  else mkTfdState (interval_ns st)
         (if decide (interval_ns st = 0) then 0
          else saturating_add u64_max (expires_ns st) (saturating_mul u64_max n (interval_ns st)))
         (saturating_add u64_max (ticks st) n) (cancel_on_set st).

Record state_ok (st : TimerFdState) : Prop := {
  so_interval : in_u64 (interval_ns st);
  so_expires : in_u64 (expires_ns st);
  so_ticks : in_u64 (ticks st);
}.

Lemma expirations_pos e i t : 0 < e → e <= t → 0 <= i → 0 < expirations e i t.
Proof.
  intros He Ht Hi. unfold expirations. rewrite decide_False by lia. case_decide; [lia|]. pose proof (Z.div_pos (t - e) i). lia.
Qed.

Lemma expirations_nonneg e i t : 0 <= i → 0 <= expirations e i t.
Proof. intros Hi. unfold expirations. repeat case_decide; try lia. pose proof (Z.div_pos (t - e) i). lia. Qed.

Lemma after_ok now st : 0 <= now → state_ok st → state_ok (after now st).
Proof.
  intros Hn [Hi He Ht]. unfold after. case_decide; [done|]. pose proof (expirations_nonneg (expires_ns st) (interval_ns st) now (proj1 Hi)) as Hx.
  constructor; cbn [interval_ns expires_ns ticks]; [done| |].
  - case_decide; [unfold in_u64, u64_max; lia|]. unfold in_u64, saturating_add, saturating_mul, u64_max in *. split; [|lia]. apply Z.min_glb; [lia|]. 
    assert (0 <= expirations (expires_ns st) (interval_ns st) now * interval_ns st) by nia. lia.
  - unfold in_u64, saturating_add, u64_max in *. lia.
Qed.

(** The next expiration is after [now]. *)
Lemma after_later now st :
  state_ok st → now < u64_max → expires_ns (after now st) = 0 ∨ now < expires_ns (after now st).
Proof.
  intros [Hi He Ht] Hn. unfold after. case_decide as Hd; [lia|]. cbn [expires_ns]. case_decide as Hz; [by left|]. right.
  unfold expirations. rewrite decide_False by done. rewrite decide_False by lia. unfold in_u64 in *.
  pose proof (Z.div_mod (now - expires_ns st) (interval_ns st) ltac:(lia)) as Hdm.
  pose proof (Z.mod_pos_bound (now - expires_ns st) (interval_ns st) ltac:(lia)) as Hm.
  set (q := (now - expires_ns st) / interval_ns st) in *.
  unfold saturating_add, saturating_mul. nia.
Qed.

Lemma refresh_spec id clock now r st :
  refresh_due_locked id clock now r st =
  (bool_decide (¬ (expires_ns st = 0 ∨ now < expires_ns st)),
   if decide (expires_ns st = 0 ∨ now < expires_ns st) then r
   else let r1 := remove_deadline (deadline_class clock) (expires_ns st) id r in
        if decide (interval_ns st = 0) then r1 else insert_deadline (deadline_class clock) (expires_ns (after now st)) id r1,
   after now st).
Proof.
  unfold refresh_due_locked, after. destruct (decide (expires_ns st = 0 ∨ now < expires_ns st)) as [Hd|Hd].
  - by rewrite bool_decide_false by tauto.
  - rewrite bool_decide_true by done. cbn [expires_ns]. unfold expirations, saturating_sub.
    rewrite (decide_False (P := expires_ns st = 0 ∨ now < expires_ns st)) by done. destruct (decide (interval_ns st = 0)); [done|]. by rewrite Z.max_r by lia.
Qed.

(** ** The invariant *)

(** The timer [p] waits on the clock [c] for [d]. *)
Definition armed (files : gmap Z TimerFdFile) (c : DeadlineClass) (d p : Z) : Prop :=
  ∃ f, files !! p = Some f ∧ deadline_class (tfd_clock f) = c ∧ expires_ns (tfd_state f) = d ∧ d ≠ 0.

(** The timers [todo] of the class are not in the index. *)
Record tfd_part (w : tfd_world) (class : DeadlineClass) (todo : list Z) : Prop := {
  tp_index : idx_is (tw_registry w) (λ c d p, armed (tw_files w) c d p ∧ ¬ (c = class ∧ p ∈ todo));
  tp_published : published (tw_registry w);
  tp_states id f : tw_files w !! id = Some f → state_ok (tfd_state f);
  tp_fresh id : tr_next_id (tw_registry w) <= id → tw_files w !! id = None;
}.
Definition tfd_ok (w : tfd_world) : Prop := tfd_part w Monotonic [].

Lemma tfd_part_nil w class : tfd_part w class [] → tfd_ok w.
Proof.
  intros [Hi Hp Hs Hf]. constructor; try done. eapply idx_is_ext; [done|]. intros c d p. cbn.
  split; (intros [H _]; split; [done|by intros [_ ?%elem_of_nil]]).
Qed.

Lemma tfd_ok_part w class : tfd_ok w → tfd_part w class [].
Proof.
  intros [Hi Hp Hs Hf]. constructor; try done. eapply idx_is_ext; [done|]. intros c d p. cbn.
  split; (intros [H _]; split; [done|by intros [_ ?%elem_of_nil]]).
Qed.

Lemma next_id_refresh r : tr_next_id (refresh_next_deadlines r) = tr_next_id r.
Proof. done. Qed.
Lemma next_id_insert class d id r : tr_next_id (insert_deadline class d id r) = tr_next_id r.
Proof. by destruct class. Qed.
Lemma next_id_remove class d id r : tr_next_id (remove_deadline class d id r) = tr_next_id r.
Proof. by destruct class. Qed.

(** Changing one timer and its place in the index. *)
Lemma tfd_update w class todo id f f' r' todo' :
  tfd_part w class todo → tw_files w !! id = Some f → state_ok (tfd_state f') → deadline_class (tfd_clock f') = deadline_class (tfd_clock f) →
  published r' → tr_next_id r' = tr_next_id (tw_registry w) →
  (∀ p, p ∈ todo' ↔ p ∈ todo ∧ p ≠ id) ∨ (∀ p, p ∈ todo' ↔ p ∈ todo) ∧ id ∉ todo ∨ todo' = todo ∧ deadline_class (tfd_clock f) ≠ class →
  idx_is r' (λ c d p, (armed (tw_files w) c d p ∧ ¬ (c = class ∧ p ∈ todo) ∧ p ≠ id) ∨
                      (c = deadline_class (tfd_clock f) ∧ d = expires_ns (tfd_state f') ∧ p = id ∧ d ≠ 0)) →
  tfd_part (put_tfd id f' (set_registry r' w)) class todo'.
Proof.
  intros [Hi Hp Hs Hf] Hid Hst Hcl Hpub Hnext Htodo Hidx. constructor; cbn [put_tfd set_registry tw_registry tw_files]; [|done| |].
  - eapply idx_is_ext; [exact Hidx|]. intros c d p. unfold armed. destruct (decide (p = id)) as [->|Hne].
    + rewrite lookup_insert_eq. split.
      * intros [(_ & _ & ?)|(-> & -> & _ & Hd)]; [done|]. split; [by exists f'|].
        intros [Hc Hin]. destruct Htodo as [Ht|[[Ht Hn]|[-> Hn]]]; [by apply Ht in Hin as [_ ?]|by apply Ht in Hin|by apply Hn].
      * intros [(f0 & [= <-] & <- & <- & Hd) _]. right. by rewrite Hcl.
    + rewrite lookup_insert_ne by done. split.
      * intros [((f0 & H0) & Hn & _)|(_ & _ & ? & _)]; [|done]. split; [by exists f0|]. intros [-> Hin]. apply Hn. split; [done|].
        destruct Htodo as [Ht|[[Ht _]|[-> _]]]; [by apply Ht in Hin as [? _]|by apply Ht in Hin|done].
      * intros [(f0 & H0) Hn]. left. split; [by exists f0|]. split; [|done]. intros [-> Hin]. apply Hn. split; [done|].
        destruct Htodo as [Ht|[[Ht _]|[-> _]]]; [by apply Ht|by apply Ht|done].
  - intros p f0. destruct (decide (p = id)) as [->|]; [rewrite lookup_insert_eq; by intros [= <-]|rewrite lookup_insert_ne by done; apply Hs].
  - intros p Hpn. rewrite lookup_insert_ne; [apply Hf; lia|]. intros <-. rewrite Hf in Hid by lia. done.
Qed.

Definition due (now : Z) (st : TimerFdState) : Prop := expires_ns st ≠ 0 ∧ expires_ns st <= now.
#[global] Instance due_dec now st : Decision (due now st).
Proof. unfold due. apply _. Defined.

Lemma not_due now st : (expires_ns st = 0 ∨ now < expires_ns st) ↔ ¬ due now st.
Proof. unfold due. lia. Qed.

Lemma after_not_due now st : ¬ due now st → after now st = st.
Proof. intros Hd. unfold after. by rewrite decide_True by (by apply not_due). Qed.

Lemma after_rearmed now st : state_ok st → due now st → interval_ns st ≠ 0 → expires_ns (after now st) ≠ 0.
Proof.
  intros [Hi He _] [H0 Hle] Hz. unfold after. rewrite decide_False by lia. cbn [expires_ns]. rewrite decide_False by done.
  pose proof (expirations_nonneg (expires_ns st) (interval_ns st) now (proj1 Hi)). unfold in_u64, saturating_add, saturating_mul, u64_max in *.
  assert (0 <= expirations (expires_ns st) (interval_ns st) now * interval_ns st) by nia. lia.
Qed.

(** The index after a timer was refreshed. *)
Lemma refresh_index w class todo id f now :
  tfd_part w class todo → tw_files w !! id = Some f → now < u64_max →
  (id ∈ todo → deadline_class (tfd_clock f) = class → due now (tfd_state f)) →
  let r' := (refresh_due_locked id (tfd_clock f) now (tw_registry w) (tfd_state f)).1.2 in
  published r' ∧ tr_next_id r' = tr_next_id (tw_registry w) ∧
  idx_is r' (λ c d p, (armed (tw_files w) c d p ∧ ¬ (c = class ∧ p ∈ todo) ∧ p ≠ id) ∨
                      (c = deadline_class (tfd_clock f) ∧ d = expires_ns (after now (tfd_state f)) ∧ p = id ∧ d ≠ 0)).
Proof.
  intros [Hi Hp Hs Hf] Hid Hnow Htodo r'. unfold r'. rewrite refresh_spec. cbn [fst snd]. set (st := tfd_state f) in *.
  assert (∀ c d, armed (tw_files w) c d id ↔ c = deadline_class (tfd_clock f) ∧ d = expires_ns st ∧ d ≠ 0) as Hown.
  { intros c d. unfold armed. split; [intros (f0 & Hf0 & <- & <- & ?); by simplify_eq|intros (-> & -> & ?); by exists f]. }
  destruct (decide (expires_ns st = 0 ∨ now < expires_ns st)) as [Hn|Hn].
  - apply not_due in Hn as Hn'. rewrite after_not_due by done. split; [done|]. split; [done|]. eapply idx_is_ext; [done|]. intros c d p. cbn.
    destruct (decide (p = id)) as [->|Hne]; [|naive_solver]. rewrite Hown. split; [|naive_solver].
    intros [(-> & -> & Hd) Hx]. right. done.
  - destruct (idx_remove _ _ (deadline_class (tfd_clock f)) (expires_ns st) id Hi) as [Hr Hpr].
    assert (due now st) as Hdue by (unfold due; lia).
    assert (idx_is (remove_deadline (deadline_class (tfd_clock f)) (expires_ns st) id (tw_registry w)) (λ c d p, armed (tw_files w) c d p ∧ ¬ (c = class ∧ p ∈ todo) ∧ p ≠ id)) as Hr'.
    { eapply idx_is_ext; [exact Hr|]. intros c d p. cbn. destruct (decide (p = id)) as [->|]; [|naive_solver]. rewrite Hown. naive_solver. }
    cbn zeta. destruct (decide (interval_ns st = 0)) as [Hz|Hz].
    + split; [done|]. rewrite next_id_remove. split; [done|]. eapply idx_is_ext; [exact Hr'|]. intros c d p. cbn.
      assert (expires_ns (after now st) = 0) as -> by (unfold after; rewrite decide_False by done; cbn [expires_ns]; by rewrite decide_True by done). naive_solver.
    + destruct (idx_insert _ _ (deadline_class (tfd_clock f)) (expires_ns (after now st)) id Hr') as [Hins Hpi]. split; [done|]. rewrite next_id_insert, next_id_remove.
      split; [done|]. eapply idx_is_ext; [exact Hins|]. intros c d p. cbn.
      assert (expires_ns (after now st) ≠ 0) as Hne by (by apply after_rearmed; [apply (Hs id f)|..]).
      naive_solver.
Qed.

Lemma tfd_at_rule {E} w id f (Q : TimerFdFile → tfd_world → Prop) (Qe : E → tfd_world → Prop) :
  tw_files w !! id = Some f → Q f w → wp_res (tfd_at id) w Q Qe.
Proof. intros Hf HQ. unfold tfd_at, wp_res, wp. by rewrite Hf. Qed.

Lemma refresh_at_rule {E} w class todo id f now (Q : bool → tfd_world → Prop) (Qe : E → tfd_world → Prop) :
  tfd_part w class todo → tw_files w !! id = Some f → 0 <= now < u64_max →
  (id ∈ todo → deadline_class (tfd_clock f) = class → due now (tfd_state f)) →
  (∀ r', let w' := put_tfd id (with_state (after now (tfd_state f)) f) (set_registry r' w) in
     tfd_part w' class (filter (λ p, p ≠ id) todo) → Q (bool_decide (due now (tfd_state f))) w') →
  wp_res (refresh_at id now) w Q Qe.
Proof.
  intros Hpart Hid Hnow Htodo HQ. destruct (refresh_index w class todo id f now Hpart Hid (proj2 Hnow) Htodo) as (Hp & Hn & Hi).
  unfold refresh_at. wp_step. eapply tfd_at_rule; [done|]. wp_step. wp_step.
  destruct (refresh_due_locked id (tfd_clock f) now (tw_registry w) (tfd_state f)) as [[changed r'] st'] eqn:Hr. cbn [fst snd] in *.
  rewrite refresh_spec in Hr. injection Hr as Hch _ Hst. subst st'. wp_run.
  assert (changed = bool_decide (due now (tfd_state f))) as ->.
  { rewrite <-Hch. apply bool_decide_ext. rewrite not_due. destruct (decide (due now (tfd_state f))); tauto. }
  apply (HQ r'). eapply tfd_update; [done|done|apply after_ok; [lia|by eapply (tp_states _ _ _ Hpart)]|done|done|done| |exact Hi].
  left. intros p. rewrite list_elem_of_filter. tauto.
Qed.

(** A change that concerns neither the clock nor the deadline of a timer. *)
Lemma tfd_adjust w class todo id f f' woken :
  tfd_part w class todo → tw_files w !! id = Some f → tfd_clock f' = tfd_clock f → expires_ns (tfd_state f') = expires_ns (tfd_state f) →
  state_ok (tfd_state f') → tfd_part (mkTfdWorld (tw_registry w) (<[id := f']> (tw_files w)) woken) class todo.
Proof.
  intros [Hi Hp Hs Hf] Hid Hc Hex Hst. constructor; cbn [tw_registry tw_files]; [|done| |].
  - eapply idx_is_ext; [done|]. intros c d p. cbn. unfold armed. destruct (decide (p = id)) as [->|]; [|by rewrite lookup_insert_ne].
    rewrite lookup_insert_eq, Hid. split; (intros [(f0 & [= <-] & H1 & H2 & H3) Hn]; split; [|done]; eexists; split; [reflexivity|]); rewrite Hc, Hex in *; done.
  - intros p f0. destruct (decide (p = id)) as [->|]; [rewrite lookup_insert_eq; by intros [= <-]|rewrite lookup_insert_ne by done; apply Hs].
  - intros p Hpn. rewrite lookup_insert_ne; [apply Hf; lia|]. intros <-. by rewrite Hf in Hid.
Qed.

Lemma tfd_touch w class todo id f f' woken :
  tfd_part w class todo → tw_files w !! id = Some f → tfd_clock f' = tfd_clock f → tfd_state f' = tfd_state f →
  tfd_part (mkTfdWorld (tw_registry w) (<[id := f']> (tw_files w)) woken) class todo.
Proof.
  intros Hpart Hid Hc Hst. eapply tfd_adjust; [done|done|done|by rewrite Hst|]. rewrite Hst. by eapply (tp_states _ _ _ Hpart).
Qed.

Lemma bump_at_rule {E} w class todo id f (Q : unit → tfd_world → Prop) (Qe : E → tfd_world → Prop) :
  tfd_part w class todo → tw_files w !! id = Some f →
  (let w' := put_tfd id (bump f) w in tfd_part w' class todo → Q () w') → wp_res (bump_at id) w Q Qe.
Proof.
  intros Hpart Hid HQ. unfold bump_at. wp_step. eapply tfd_at_rule; [done|]. wp_run. apply HQ. by eapply (tfd_touch _ _ _ _ f).
Qed.

Definition notified (f : TimerFdFile) : TimerFdFile := mkTfd (tfd_clock f) (tfd_state f) (tfd_version f) (notify (tfd_waiters f) PollEvents.READ).2.
(** The listeners for reading. *)
Definition readers (f : TimerFdFile) : list (Z * Z) := matching PollEvents.READ (registrations (tfd_waiters f)).

Lemma notify_readable_rule {E} w class todo id f (Q : unit → tfd_world → Prop) (Qe : E → tfd_world → Prop) :
  tfd_part w class todo → tw_files w !! id = Some f →
  (let w' := mkTfdWorld (tw_registry w) (<[id := notified f]> (tw_files w)) (tw_woken w ++ readers f) in tfd_part w' class todo → Q () w') →
  wp_res (notify_readable id) w Q Qe.
Proof.
  intros Hpart Hid HQ. unfold notify_readable. wp_step. eapply tfd_at_rule; [done|]. unfold notify. wp_run. apply HQ. by eapply (tfd_touch _ _ _ _ f).
Qed.

(** ** The sweep *)

Definition swept (now : Z) (f f' : TimerFdFile) : Prop :=
  tfd_clock f' = tfd_clock f ∧ tfd_state f' = after now (tfd_state f) ∧ registrations (tfd_waiters f') = registrations (tfd_waiters f).

Lemma swept_refl now f : ¬ due now (tfd_state f) → swept now f f.
Proof. intros Hd. unfold swept. by rewrite after_not_due. Qed.

Lemma after_ticks now st : state_ok st → due now st → 0 < ticks (after now st).
Proof.
  intros [Hi He Ht] Hd. unfold after. rewrite decide_False by (by rewrite not_due; tauto). cbn [ticks].
  pose proof (expirations_pos (expires_ns st) (interval_ns st) now) as Hp. unfold due, in_u64, saturating_add, u64_max in *. lia.
Qed.

Lemma wake_one_rule w class todo now id f :
  tfd_part w class todo → tw_files w !! id = Some f → 0 <= now < u64_max → due now (tfd_state f) →
  wp_res (wake_one now id) w
    (λ _ w', tfd_part w' class (filter (λ p, p ≠ id) todo) ∧
       ∃ f' l, tw_files w' = <[id := f']> (tw_files w) ∧ swept now f f' ∧ tw_woken w' = tw_woken w ++ l ∧
               (ticks (tfd_state f) = 0 → l = readers f)) (λ _ _, False).
Proof.
  intros Hpart Hid Hnow Hdue. unfold wake_one. wp_step. wp_step. rewrite Hid. wp_step.
  eapply refresh_at_rule; [done|done|done|by intros|]. intros r' w1 Hp1. rewrite bool_decide_true by done.
  set (f1 := with_state (after now (tfd_state f)) f) in *.
  assert (tw_files w1 !! id = Some f1) as Hid1 by (unfold w1; cbn [put_tfd set_registry tw_files]; apply lookup_insert_eq).
  wp_step. eapply tfd_at_rule; [done|].
  pose proof (after_ticks now (tfd_state f) (tp_states _ _ _ Hpart _ _ Hid) Hdue) as Htk.
  destruct (decide (ticks (tfd_state f) = 0)) as [H0|H0].
  - rewrite (bool_decide_true (ticks (tfd_state f) = 0)) by done. rewrite bool_decide_true by (cbn; lia). cbn [andb].
    wp_step. eapply bump_at_rule; [done|done|]. intros w2 Hp2.
    assert (tw_files w2 !! id = Some (bump f1)) as Hid2 by (unfold w2; cbn [put_tfd tw_files]; apply lookup_insert_eq).
    eapply notify_readable_rule; [done|done|]. intros w3 Hp3. split; [done|]. exists (notified (bump f1)), (readers f).
    split; [unfold w3, w2, w1; cbn [put_tfd set_registry tw_files]; by rewrite !insert_insert_eq|]. split; [done|]. split; [done|done].
  - rewrite (bool_decide_false (ticks (tfd_state f) = 0)) by done. cbn [andb]. wp_run. split; [done|]. exists f1, [].
    split; [done|]. split; [done|]. split; [by rewrite app_nil_r|done].
Qed.

Lemma filter_id {A} (P : A → Prop) `{∀ x, Decision (P x)} (l : list A) : (∀ x, x ∈ l → P x) → filter P l = l.
Proof.
  induction l as [|x l IH]; intros Hl; [done|]. rewrite filter_cons_True by (apply Hl; by left).
  f_equal. apply IH. intros y Hy. apply Hl. by right.
Qed.

(** What a sweep of the timers [ids] makes of the world. *)
Record sweep_rel (P : Z → TimerFdFile → Prop) (now : Z) (w w' : tfd_world) : Prop := {
  sr_files p :
    match tw_files w !! p with
    | None => tw_files w' !! p = None
    | Some f => ∃ f', tw_files w' !! p = Some f' ∧ (P p f → swept now f f') ∧ (¬ P p f → f' = f)
    end;
  sr_woken : ∃ l, tw_woken w' = tw_woken w ++ l ∧ ∀ p f, tw_files w !! p = Some f → P p f → due now (tfd_state f) → ticks (tfd_state f) = 0 → readers f ⊆ l;
}.

Lemma wake_all_rule class now ids : ∀ w,
  tfd_part w class ids → NoDup ids → 0 <= now < u64_max →
  (∀ p, p ∈ ids → ∃ f, tw_files w !! p = Some f ∧ due now (tfd_state f)) →
  wp_res (wake_all now ids) w (λ _ w', tfd_part w' class [] ∧ sweep_rel (λ p _, p ∈ ids) now w w') (λ _ _, False).
Proof.
  induction ids as [|id ids IH]; intros w Hpart Hnd Hnow Hdue; cbn [wake_all].
  { wp_run. split; [done|]. constructor.
    - intros p. destruct (tw_files w !! p) as [f|]; [|done]. exists f. split; [done|]. split; [by intros ?%elem_of_nil|done].
    - exists []. split; [by rewrite app_nil_r|]. by intros p f _ ?%elem_of_nil. }
  apply NoDup_cons in Hnd as [Hni Hnd]. destruct (Hdue id ltac:(by left)) as (f & Hid & Hd). wp_step.
  eapply wp_res_mono; [by eapply wake_one_rule|cbv beta|done]. intros _ w1 (Hp1 & f' & l & Hf1 & Hsw & Hw1 & Hl).
  assert (filter (λ p, p ≠ id) (id :: ids) = ids) as Hfil.
  { rewrite filter_cons_False by tauto. apply filter_id. intros x Hx ->. done. }
  rewrite Hfil in Hp1. eapply wp_res_mono; [eapply IH; [done|done|done|]|cbv beta|done].
  - intros p Hp. rewrite Hf1, lookup_insert_ne by (by intros ->). apply Hdue. by right.
  - intros _ w2 (Hp2 & [Hfs (l2 & Hw2 & Hl2)]). split; [done|]. constructor.
    + intros p. specialize (Hfs p). rewrite Hf1 in Hfs. destruct (decide (p = id)) as [->|Hne].
      * rewrite lookup_insert_eq in Hfs. rewrite Hid. destruct Hfs as (f'' & Hf'' & _ & Hsame). rewrite (Hsame Hni) in Hf''. exists f'. split; [done|]. split; [done|].
        intros Hn. destruct Hn. by left.
      * rewrite lookup_insert_ne in Hfs by done. destruct (tw_files w !! p) as [g|]; [|done]. destruct Hfs as (g' & Hg' & Hs1 & Hs2). exists g'. split; [done|].
        split; [intros [->|Hin]%elem_of_cons; [done|by apply Hs1]|]. intros Hn. apply Hs2. intros Hin. apply Hn. by right.
    + exists (l ++ l2). rewrite Hw2, Hw1, <-app_assoc. split; [done|]. intros p g Hg Hin Hdg H0. apply elem_of_cons in Hin as [->|Hin].
      * simplify_eq. rewrite Hl by done. apply list_subseteq_app_l. done.
      * apply list_subseteq_app_r. apply (Hl2 p g); [|done..]. by rewrite Hf1, lookup_insert_ne by (by intros ->).
Qed.

Definition keys_due (now : Z) (l : list (Z * list Z)) : list Z := filter (λ d, d <= now) l.*1.

Lemma sorted_nodup (l : list Z) : StronglySorted Z.lt l → NoDup l.
Proof.
  induction 1 as [|x l Hs IH Hx]; constructor; [|done]. intros Hin. rewrite Forall_forall in Hx. specialize (Hx x Hin). lia.
Qed.

Lemma index_key l d : index_ok l → d ∈ l.*1 → ∃ p, waits l d p.
Proof.
  intros [_ Hf] ([k ws] & -> & Hin)%list_elem_of_fmap. rewrite Forall_forall in Hf. destruct (Hf _ Hin) as [Hne _]. cbn in *.
  destruct ws as [|p ws]; [done|]. exists p, (p :: ws). split; [done|by left].
Qed.

Lemma swept_twice now f f1 f2 :
  now < u64_max → state_ok (tfd_state f) → swept now f f1 → swept now f1 f2 → swept now f f2.
Proof.
  intros Hn Hst (H1 & H2 & H3) (H4 & H5 & H6). split; [congruence|]. split; [|congruence]. rewrite H5, H2. apply after_not_due, not_due.
  by apply after_later.
Qed.

(** Taking the earliest deadline out of the index. *)
Lemma pop_deadline w class d ids rest :
  tfd_ok w → index class (tw_registry w) = (d, ids) :: rest →
  let w' := set_registry (refresh_next_deadlines (set_index class rest (tw_registry w))) w in
  tfd_part w' class ids ∧ NoDup ids ∧
  (∀ p, p ∈ ids → ∃ f, tw_files w !! p = Some f ∧ deadline_class (tfd_clock f) = class ∧ expires_ns (tfd_state f) = d ∧ d ≠ 0).
Proof.
  intros Hok Hix. pose proof (tfd_ok_part _ class Hok) as [[Hi Hw] Hp Hs Hf]. pose proof (Hi class) as Hc. rewrite Hix in Hc.
  apply index_ok_cons in Hc as (_ & Hws & Hrest & Hlt). rewrite Forall_forall in Hlt.
  assert (∀ p, p ∈ ids → armed (tw_files w) class d p) as Hids.
  { intros p Hin. apply (Hw class d p). rewrite Hix. apply waits_cons. by left. }
  cbn zeta. split; [constructor; cbn [set_registry tw_registry tw_files]|split; [by apply sorted_nodup|done]].
  - split; [intros c; rewrite index_refresh, index_set; by case_decide|]. intros c d' p. rewrite index_refresh, index_set. case_decide as Hcc.
    + subst c. pose proof (Hw class d' p) as Hwp. rewrite Hix, waits_cons in Hwp. split.
      * intros Hwr. destruct (proj1 Hwp (or_intror Hwr)) as [Ha _]. split; [done|]. intros [_ Hin].
        destruct (Hids p Hin) as (f & Hf1 & _ & He1 & _). destruct Ha as (f' & Hf2 & _ & He2 & _). simplify_eq.
        specialize (Hlt _ (waits_key _ _ _ Hwr)). lia.
      * intros [Ha Hn]. destruct (proj2 Hwp) as [[-> Hin]|]; [split; [done|by intros [_ ?%elem_of_nil]]| |done]. by destruct Hn.
    + rewrite Hw. naive_solver.
  - done.
  - done.
  - by destruct class.
Qed.

Lemma armed_later w w' now class (ids : list Z) d0 :
  now < u64_max → tfd_ok w → sweep_rel (λ p _, p ∈ ids) now w w' →
  (∀ p, p ∈ ids → ∃ f, tw_files w !! p = Some f ∧ deadline_class (tfd_clock f) = class ∧ expires_ns (tfd_state f) = d0 ∧ d0 ≠ 0) →
  ∀ d p, armed (tw_files w') class d p → d <= now → armed (tw_files w) class d p ∧ p ∉ ids.
Proof.
  intros Hn Hok [Hfs _] Hids d p (f' & Hf' & Hc & He & Hd) Hle. specialize (Hfs p). destruct (tw_files w !! p) as [f|] eqn:Hf; [|congruence].
  destruct Hfs as (f1 & Hf1 & Hin & Hout). simplify_eq. destruct (decide (p ∈ ids)) as [Hp|Hp].
  - destruct (Hin Hp) as (_ & Hst & _). pose proof (after_later now (tfd_state f) (tp_states _ _ _ Hok _ _ Hf) Hn). rewrite <-Hst in *. lia.
  - rewrite (Hout Hp) in *. split; [by exists f|done].
Qed.

Lemma sweep_rel_trans class now w w1 w2 (ids : list Z) d0 :
  now < u64_max → tfd_ok w → sweep_rel (λ p _, p ∈ ids) now w w1 →
  (∀ p, p ∈ ids → ∃ f, tw_files w !! p = Some f ∧ deadline_class (tfd_clock f) = class ∧ expires_ns (tfd_state f) = d0 ∧ d0 ≠ 0) →
  sweep_rel (λ _ f, deadline_class (tfd_clock f) = class) now w1 w2 →
  sweep_rel (λ _ f, deadline_class (tfd_clock f) = class) now w w2.
Proof.
  intros Hn Hok [Hf1 (l1 & Hw1 & Hl1)] Hids [Hf2 (l2 & Hw2 & Hl2)].
  assert (∀ p f f1, tw_files w !! p = Some f → tw_files w1 !! p = Some f1 → p ∉ ids → f1 = f) as Hsame.
  { intros p f f1 Hf Hf' Hp. specialize (Hf1 p). rewrite Hf in Hf1. destruct Hf1 as (? & ? & _ & Ho). simplify_eq. by apply Ho. }
  constructor.
  - intros p. specialize (Hf1 p) as H1. specialize (Hf2 p) as H2. destruct (tw_files w !! p) as [f|] eqn:Hf; [|by rewrite H1 in H2].
    destruct H1 as (f1 & Hp1 & Hin1 & Hout1). rewrite Hp1 in H2. destruct H2 as (f2 & Hp2 & Hin2 & Hout2). exists f2. split; [done|].
    destruct (decide (p ∈ ids)) as [Hp|Hp].
    + destruct (Hids p Hp) as (f0 & ? & Hc & _). simplify_eq. split; [intros _|done]. eapply swept_twice; [done|by eapply (tp_states _ _ _ Hok)|by apply Hin1|].
      apply Hin2. destruct (Hin1 Hp) as (-> & _). done.
    + by rewrite (Hout1 Hp) in *.
  - exists (l1 ++ l2). rewrite Hw2, Hw1, <-app_assoc. split; [done|]. intros p f Hf Hc Hd H0. destruct (decide (p ∈ ids)) as [Hp|Hp].
    + apply list_subseteq_app_l. by apply (Hl1 p f).
    + apply list_subseteq_app_r. specialize (Hf1 p). rewrite Hf in Hf1. destruct Hf1 as (f1 & Hp1 & _ & Ho). rewrite (Ho Hp) in Hp1. by apply (Hl2 p f).
Qed.

Lemma keys_shrink w w' class now d0 ids rest :
  now < u64_max → tfd_ok w → tfd_ok w' → index class (tw_registry w) = (d0, ids) :: rest → d0 <= now →
  sweep_rel (λ p _, p ∈ ids) now w w' →
  (length (keys_due now (index class (tw_registry w'))) < length (keys_due now (index class (tw_registry w))))%nat.
Proof.
  intros Hn Hok Hok' Hix Hd Hrel. destruct (pop_deadline w class d0 ids rest Hok Hix) as (_ & _ & Hids).
  destruct (tfd_ok_part _ class Hok) as [[Hi Hw] _ _ _]. destruct (tfd_ok_part _ class Hok') as [[Hi' Hw'] _ _ _].
  assert (NoDup (d0 :: keys_due now (index class (tw_registry w')))) as Hnd; [|assert (d0 :: keys_due now (index class (tw_registry w')) ⊆ keys_due now (index class (tw_registry w))) as Hsub].
  - assert (∀ d, d ∈ keys_due now (index class (tw_registry w')) → ∃ p, armed (tw_files w) class d p ∧ p ∉ ids) as Hkeys.
    { intros d [Hle Hin]%list_elem_of_filter. destruct (index_key _ _ (Hi' class) Hin) as (p & [Ha _]%Hw'). exists p. by eapply (armed_later w w' now). }
    constructor; [|apply NoDup_filter, sorted_nodup, Hi']. intros (p & Ha & Hp)%Hkeys. apply Hp.
    assert (waits (index class (tw_registry w)) d0 p) as Hwp. { apply Hw. split; [done|]. by intros [_ ?%elem_of_nil]. }
    rewrite Hix, waits_cons in Hwp. destruct Hwp as [[_ ?]|Hr%waits_key]; [done|]. pose proof (Hi class) as Hc. rewrite Hix in Hc.
    apply index_ok_cons in Hc as (_ & _ & _ & Hlt). rewrite Forall_forall in Hlt. specialize (Hlt _ Hr). lia.
  - intros d [->|[Hle Hin]%list_elem_of_filter]%elem_of_cons; apply list_elem_of_filter; (split; [done|]); [rewrite Hix; by left|].
    destruct (index_key _ _ (Hi' class) Hin) as (p & [Ha _]%Hw'). destruct (armed_later w w' now class ids d0 Hn Hok Hrel Hids d p Ha Hle) as [Ha' _].
    eapply waits_key, Hw. split; [done|]. by intros [_ ?%elem_of_nil].
  - pose proof (NoDup_submseteq _ _ Hnd Hsub) as Hlen%submseteq_length. cbn in Hlen. lia.
Qed.

Lemma swept_nothing class now w w' :
  tfd_ok w → tw_files w' = tw_files w → tw_woken w' = tw_woken w → (∀ d p, armed (tw_files w) class d p → now < d) →
  sweep_rel (λ _ f, deadline_class (tfd_clock f) = class) now w w'.
Proof.
  intros Hok Hf Hw Hlate.
  assert (∀ p f, tw_files w !! p = Some f → deadline_class (tfd_clock f) = class → ¬ due now (tfd_state f)) as Hnd.
  { intros p f Hp Hc [H0 Hle]. specialize (Hlate (expires_ns (tfd_state f)) p ltac:(by exists f)). lia. }
  constructor.
  - intros p. rewrite Hf. destruct (tw_files w !! p) as [f|] eqn:Hp; [|done]. exists f. split; [done|]. split; [|done]. intros Hc. by eapply swept_refl, Hnd.
  - exists []. rewrite app_nil_r. split; [done|]. intros p f Hp Hc Hd. by destruct (Hnd p f).
Qed.

Lemma refresh_next_ok w class todo : tfd_part w class todo → tfd_part (set_registry (refresh_next_deadlines (tw_registry w)) w) class todo.
Proof.
  intros [[Hi Hw] Hp Hs Hf]. constructor; cbn [set_registry tw_registry tw_files]; try done.
Qed.

Lemma wake_class_rule class now fuel : ∀ w,
  tfd_ok w → 0 <= now < u64_max → (length (keys_due now (index class (tw_registry w))) <= fuel)%nat →
  wp_res (wake_expired_class fuel class now) w
    (λ _ w', tfd_ok w' ∧ sweep_rel (λ _ f, deadline_class (tfd_clock f) = class) now w w') (λ _ _, False).
Proof.
  induction fuel as [fuel IH] using lt_wf_ind. intros w Hok Hnow Hfuel. destruct (tfd_ok_part _ class Hok) as [[Hi Hw] _ _ _].
  assert (∀ d p, armed (tw_files w) class d p → waits (index class (tw_registry w)) d p) as Harm.
  { intros d p Ha. apply Hw. split; [done|]. by intros [_ ?%elem_of_nil]. }
  destruct fuel as [|fuel]; cbn [wake_expired_class]; wp_step; wp_step;
    destruct (index class (tw_registry w)) as [|[d ids] rest] eqn:Hix.
  1,3: wp_run; (split; [by apply refresh_next_ok|]); apply swept_nothing; try done; intros d p Hwt%Harm; by destruct (waits_nil d p).
  all: destruct (decide (now < d)) as [Hd|Hd].
  1,3: wp_run; (split; [by apply refresh_next_ok|]); apply swept_nothing; try done; intros d' p Hwt%Harm; specialize (Hi class); rewrite Hix in Hi;
       apply index_ok_cons in Hi as (_ & _ & _ & Hlt); rewrite Forall_forall in Hlt; apply waits_cons in Hwt as [[-> _]|Hk%waits_key]; [done|specialize (Hlt _ Hk); lia].
  - exfalso. assert (d ∈ keys_due now ((d, ids) :: rest)) as Hin by (apply list_elem_of_filter; split; [lia|by left]).
    destruct (keys_due now ((d, ids) :: rest)); [by apply elem_of_nil in Hin|cbn in Hfuel; lia].
  - destruct (pop_deadline w class d ids rest Hok Hix) as (Hpart & Hnd & Hids). wp_step. wp_step. wp_step.
    eapply wp_res_mono; [eapply wake_all_rule; [exact Hpart|done|done|]|cbv beta|done].
    + intros p Hp. destruct (Hids p Hp) as (f & Hf & _ & He & H0). exists f. split; [done|]. unfold due. lia.
    + intros _ w1 [Hok1%tfd_part_nil [Hfs Hwk]].
      assert (sweep_rel (λ p _, p ∈ ids) now w w1) as Hrel by (constructor; [exact Hfs|exact Hwk]).
      pose proof (keys_shrink w w1 class now d ids rest (proj2 Hnow) Hok Hok1 Hix ltac:(lia) Hrel) as Hlt. rewrite Hix in Hlt.
      eapply wp_res_mono; [apply (IH fuel); [lia|done|done|lia]|cbv beta|done].
      intros _ w2 [Hok2 Hrel2]. split; [done|]. eapply sweep_rel_trans; [lia|exact Hok|exact Hrel|exact Hids|exact Hrel2].
Qed.
