(* ===== verification/TimerFdTheorems.v ===== *)
(** * Timer descriptors: theorems

    The operations of a timer descriptor as changes of its state, the count of
    the expirations that its readers see, and the sweep of the timer
    interrupt. *)

From S2P Require Import Prelude Poll Errno Signal Itimer TimerFd TimerFdProof.

(** ** The operations *)

Definition changed_to (w w' : tfd_world) (id : Z) (f' : TimerFdFile) : Prop :=
  tfd_ok w' ∧ tw_files w' = <[id := f']> (tw_files w).

Lemma refresh_rule {E} w id f now (Q : bool → tfd_world → Prop) (Qe : E → tfd_world → Prop) :
  tfd_ok w → tw_files w !! id = Some f → 0 <= now < u64_max →
  (∀ w', changed_to w w' id (with_state (after now (tfd_state f)) f) → tw_woken w' = tw_woken w → Q (bool_decide (due now (tfd_state f))) w') →
  wp_res (refresh_at id now) w Q Qe.
Proof.
  intros Hok Hid Hnow HQ. eapply refresh_at_rule; [exact Hok|done|done|by intros ?%elem_of_nil|]. intros r' w' Hp. apply HQ; [|done].
  split; [|done]. by rewrite filter_nil in Hp.
Qed.

(** What a [read] leaves. *)
Definition drained (st : TimerFdState) : TimerFdState := mkTfdState (interval_ns st) (expires_ns st) 0 (cancel_on_set st).

Definition tfd_now (c : clocks) (f : TimerFdFile) : Z := current_time_ns (tfd_clock f) c.
Definition clocks_ok (c : clocks) : Prop := 0 <= monotonic_now c < u64_max ∧ 0 <= realtime_ns c < u64_max.

Lemma tfd_now_ok c f : clocks_ok c → 0 <= tfd_now c f < u64_max.
Proof. intros [H1 H2]. unfold tfd_now, current_time_ns, class_now. by destruct (deadline_class _). Qed.

Lemma tfd_read_rule w id f n c :
  tfd_ok w → tw_files w !! id = Some f → clocks_ok c → 8 <= n →
  let st := after (tfd_now c f) (tfd_state f) in
  wp_res (tfd_read id n c) w
    (λ bytes w', ticks st ≠ 0 ∧ bytes = le_bytes 8 (ticks st) ∧ changed_to w w' id (bump (with_state (drained st) f)))
    (λ e w', ticks st = 0 ∧ e = WouldBlock ∧ changed_to w w' id (with_state st f)).
Proof.
  intros Hok Hid Hc Hn st. unfold tfd_read. rewrite decide_False by lia. unfold refresh_due. wp_step. wp_step. eapply tfd_at_rule; [done|].
  eapply refresh_rule; [done|done|by apply tfd_now_ok|]. intros w1 [Hok1 Hf1] _.
  assert (tw_files w1 !! id = Some (with_state st f)) as Hid1 by (rewrite Hf1; apply lookup_insert_eq).
  wp_step. eapply tfd_at_rule; [done|]. cbv zeta. cbn [tfd_state with_state]. case_decide as H0.
  { wp_step. split; [done|]. split; [done|]. by split. }
  wp_step. wp_step. wp_step. unfold bump_at. wp_step. eapply tfd_at_rule; [cbn [put_tfd tw_files]; apply lookup_insert_eq|].
  wp_step. wp_step. split; [done|]. split; [done|]. split.
  - unfold put_tfd. cbn [tw_registry tw_files tw_woken]. rewrite insert_insert_eq.
    assert (state_ok st) as [] by (apply (tp_states _ _ _ Hok1 _ _ Hid1)). by eapply tfd_adjust.
  - cbn [put_tfd tw_files]. by rewrite Hf1, !insert_insert_eq.
Qed.

Lemma tfd_poll_rule w id f events c :
  tfd_ok w → tw_files w !! id = Some f → clocks_ok c →
  let st := after (tfd_now c f) (tfd_state f) in
  wp_res (tfd_poll id events c) w
    (λ ready w', ready = (if bool_decide (ticks st ≠ 0) && PollEvents.contains events PollEvents.READ then PollEvents.READ else PollEvents.empty) ∧
                 changed_to w w' id (with_state st f)) (λ _ _, False).
Proof.
  intros Hok Hid Hc st. unfold tfd_poll, refresh_due. wp_step. wp_step. eapply tfd_at_rule; [done|].
  eapply refresh_rule; [done|done|by apply tfd_now_ok|]. intros w1 [Hok1 Hf1] _. wp_step. eapply tfd_at_rule; [rewrite Hf1; apply lookup_insert_eq|].
  wp_step. by split.
Qed.

Lemma get_time_rule w id f c :
  tfd_ok w → tw_files w !! id = Some f → clocks_ok c →
  let st := after (tfd_now c f) (tfd_state f) in
  wp_res (get_time id c) w (λ spec w', spec = spec_of st (tfd_now c f) ∧ changed_to w w' id (with_state st f)) (λ _ _, False).
Proof.
  intros Hok Hid Hc st. unfold get_time. wp_step. eapply tfd_at_rule; [done|]. wp_step.
  eapply refresh_rule; [done|done|by apply tfd_now_ok|]. intros w1 [Hok1 Hf1] _. wp_step. eapply tfd_at_rule; [rewrite Hf1; apply lookup_insert_eq|].
  wp_step. by split.
Qed.

(** The state that [set_time] sets up: a timer that [now] already passed has
    expired. *)
Definition armed_state (now interval value : Z) (absolute cancel : bool) : TimerFdState :=
  mkTfdState interval (if decide (value = 0) then 0 else if absolute then value else saturating_add u64_max now value) 0 cancel.

Lemma armed_state_ok now interval value absolute cancel :
  0 <= now < u64_max → in_u64 interval → in_u64 value → state_ok (armed_state now interval value absolute cancel).
Proof.
  intros Hnow Hi Hv. constructor; cbn [armed_state interval_ns expires_ns ticks]; [done| |unfold in_u64, u64_max; lia].
  repeat case_match; unfold in_u64, saturating_add, u64_max in *; lia.
Qed.

Definition index_without (w : tfd_world) (id : Z) (c : DeadlineClass) (d p : Z) : Prop := armed (tw_files w) c d p ∧ p ≠ id.

(** The index without the timer. *)
Lemma disarm_spec w id f :
  tfd_ok w → tw_files w !! id = Some f →
  let r1 := if decide (expires_ns (tfd_state f) ≠ 0) then remove_deadline (deadline_class (tfd_clock f)) (expires_ns (tfd_state f)) id (tw_registry w) else tw_registry w in
  idx_is r1 (index_without w id) ∧ published r1 ∧ tr_next_id r1 = tr_next_id (tw_registry w).
Proof.
  intros [Hix Hp Hs Hf] Hid r1. unfold r1. case_decide as He.
  - destruct (idx_remove _ _ (deadline_class (tfd_clock f)) (expires_ns (tfd_state f)) id Hix) as [Hr Hpr]. split; [|by rewrite next_id_remove].
    eapply idx_is_ext; [exact Hr|]. intros c d p. unfold index_without. split.
    + intros [[Ha _] Hn]. split; [done|]. intros ->. apply Hn. destruct Ha as (f0 & ? & <- & <- & _). by simplify_eq.
    + intros [Ha Hne]. split; [split; [done|by intros [_ ?%elem_of_nil]]|]. by intros (_ & _ & ?).
  - split; [|done]. eapply idx_is_ext; [exact Hix|]. intros c d p. unfold index_without. split.
    + intros [Ha _]. split; [done|]. intros ->. destruct Ha as (f0 & ? & _ & <- & ?). by simplify_eq.
    + intros [Ha _]. split; [done|by intros [_ ?%elem_of_nil]].
Qed.

(** The index with the timer at its new deadline. *)
Lemma rearm_spec w id class d r1 :
  idx_is r1 (index_without w id) → published r1 →
  idx_is (insert_deadline class d id r1) (λ c d' p, index_without w id c d' p ∨ (c = class ∧ d' = d ∧ p = id)) ∧
  published (insert_deadline class d id r1).
Proof. intros Hix _. by apply idx_insert. Qed.

Lemma arm_eq id clock now interval value absolute cancel r st :
  arm id clock now interval value absolute cancel r st =
  (let r1 := if decide (expires_ns st ≠ 0) then remove_deadline (deadline_class clock) (expires_ns st) id r else r in
   let st0 := armed_state now interval value absolute cancel in
   if decide (expires_ns st0 ≠ 0) then
     if decide (expires_ns st0 <= now) then let '(_, r2, st') := refresh_due_locked id clock now r1 st0 in (r2, st')
     else (insert_deadline (deadline_class clock) (expires_ns st0) id r1, st0)
   else (r1, st0)).
Proof. done. Qed.

Lemma arm_spec w id f now interval value absolute cancel :
  tfd_ok w → tw_files w !! id = Some f → 0 <= now < u64_max → in_u64 interval → in_u64 value →
  let st := after now (armed_state now interval value absolute cancel) in
  ∃ r', arm id (tfd_clock f) now interval value absolute cancel (tw_registry w) (tfd_state f) = (r', st) ∧
        tfd_ok (put_tfd id (with_state st f) (set_registry r' w)).
Proof.
  intros Hok Hid Hnow Hi Hv st. pose proof (armed_state_ok now interval value absolute cancel Hnow Hi Hv) as Hst0.
  destruct (disarm_spec w id f Hok Hid) as (Hix1 & Hp1 & Hn1). rewrite arm_eq. set (class := deadline_class (tfd_clock f)) in *.
  set (r1 := if decide _ then remove_deadline _ _ _ _ else _) in *. cbv zeta.
  set (st0 := armed_state now interval value absolute cancel) in *.
  assert (∀ r', idx_is r' (λ c d p, index_without w id c d p ∨ (c = class ∧ d = expires_ns st ∧ p = id ∧ d ≠ 0)) → published r' → tr_next_id r' = tr_next_id (tw_registry w) →
    tfd_ok (put_tfd id (with_state st f) (set_registry r' w))) as Hfin.
  { intros r' Hr Hpr Hnr. eapply tfd_update; [exact Hok|done|apply after_ok; [lia|done]|done|done|done|left; intros p; split; [by intros ?%elem_of_nil|by intros [? _]]|].
    eapply idx_is_ext; [exact Hr|]. intros c d p. cbn [with_state tfd_state]. fold class. unfold index_without. 
    assert (p ∉ ([] : list Z)) by apply not_elem_of_nil. tauto. }
  destruct (decide (expires_ns st0 ≠ 0)) as [He|He]; [destruct (decide (expires_ns st0 <= now)) as [Hle|Hle]|].
  - destruct (refresh_due_locked id (tfd_clock f) now r1 st0) as [[ch r'] st'] eqn:Hr. rewrite refresh_spec in Hr. injection Hr as _ Hr Hst. subst st'.
    exists r'. split; [done|]. rewrite (decide_False (P := expires_ns st0 = 0 ∨ now < expires_ns st0)) in Hr by lia. cbv zeta in Hr. fold class in Hr. destruct (idx_remove _ _ class (expires_ns st0) id Hix1) as [Hr2 Hpr2].
    assert (idx_is (remove_deadline class (expires_ns st0) id r1) (index_without w id)) as Hr3.
    { eapply idx_is_ext; [exact Hr2|]. intros c d p. unfold index_without. naive_solver. }
    assert (due now st0) as Hdue by done. subst r'. case_decide as Hz.
    + apply Hfin; [|done|by rewrite next_id_remove]. eapply idx_is_ext; [exact Hr3|]. intros c d p. cbn.
      assert (expires_ns st = 0) as -> by (unfold st, after; rewrite decide_False by lia; cbn [expires_ns]; by rewrite decide_True). naive_solver.
    + destruct (rearm_spec w id class (expires_ns (after now st0)) _ Hr3 Hpr2) as [Hins Hpi]. apply Hfin; [|done|by rewrite next_id_insert, next_id_remove].
      eapply idx_is_ext; [exact Hins|]. intros c d p. cbn. fold st. 
      pose proof (after_rearmed now st0 Hst0 Hdue Hz) as Hne. fold st in Hne. naive_solver.
  - assert (st = st0) as Hst by (apply after_not_due; unfold due; lia). eexists. split; [f_equal; exact (eq_sym Hst)|].
    destruct (rearm_spec w id class (expires_ns st0) _ Hix1 Hp1) as [Hins Hpi]. apply Hfin; [|done|by rewrite next_id_insert].
    eapply idx_is_ext; [exact Hins|]. intros c d p. cbn. rewrite Hst. naive_solver.
  - assert (st = st0) as Hst by (apply after_not_due; unfold due; lia). eexists. split; [f_equal; exact (eq_sym Hst)|].
    apply Hfin; [|done|done]. eapply idx_is_ext; [exact Hix1|]. intros c d p. cbn. rewrite Hst. naive_solver.
Qed.

Definition is_absolute (flags : Z) : bool := bool_decide (Z.land flags TFD_TIMER_ABSTIME ≠ 0).
Definition is_cancel (flags : Z) : bool := bool_decide (Z.land flags TFD_TIMER_CANCEL_ON_SET ≠ 0).

(** The setting that [set_time] makes at the time [now]. *)
Definition setting (now flags interval value : Z) : TimerFdState := armed_state now interval value (is_absolute flags) (is_cancel flags).

Lemma set_time_rule w id f flags spec c interval value :
  tfd_ok w → tw_files w !! id = Some f → clocks_ok c →
  total_nanos (it_interval spec) = Ok interval → total_nanos (it_value spec) = Ok value → in_u64 interval → in_u64 value →
  is_cancel flags && (negb (is_absolute flags) || negb (is_realtime (tfd_clock f))) = false →
  let now := tfd_now c f in
  wp_res (set_time id flags spec c) w
    (λ old w', old = spec_of (after now (tfd_state f)) now ∧
       ∃ f', changed_to w w' id f' ∧ tfd_clock f' = tfd_clock f ∧ tfd_state f' = after now (setting now flags interval value))
    (λ _ _, False).
Proof.
  intros Hok Hid Hc Hiv Hval Hi Hv Hflags now. unfold set_time, lift_tfd. rewrite Hiv, Hval. wp_step. unfold wp_res at 1, wp at 1. cbn [fst snd].
  wp_step. unfold wp_res at 1, wp at 1. cbn [fst snd]. cbv zeta. wp_step. eapply tfd_at_rule; [done|]. fold (is_absolute flags) (is_cancel flags). rewrite Hflags.
  fold (tfd_now c f). fold now. wp_step. eapply refresh_rule; [done|done|by apply tfd_now_ok|]. intros w1 [Hok1 Hf1] _. set (f1 := with_state (after now (tfd_state f)) f) in *.
  assert (tw_files w1 !! id = Some f1) as Hid1 by (rewrite Hf1; apply lookup_insert_eq).
  wp_step. eapply tfd_at_rule; [done|]. wp_step. wp_step.
  destruct (arm_spec w1 id f1 now interval value (is_absolute flags) (is_cancel flags) Hok1 Hid1 (tfd_now_ok c f Hc) Hi Hv) as (r' & Harm & Hok2).
  rewrite Harm. set (st := after now (armed_state now interval value (is_absolute flags) (is_cancel flags))) in *. wp_step. wp_step.
  set (w2 := put_tfd id (with_state st f1) (set_registry r' w1)) in *. assert (tw_files w2 !! id = Some (with_state st f1)) as Hid2 by (unfold w2; cbn; apply lookup_insert_eq).
  wp_step. eapply bump_at_rule; [exact Hok2|done|]. intros w3 Hok3. assert (tw_files w3 !! id = Some (bump (with_state st f1))) as Hid3 by (unfold w3; cbn; apply lookup_insert_eq).
  assert (tw_files w3 = <[id := bump (with_state st f1)]> (tw_files w)) as Hf3 by (unfold w3, w2; cbn [put_tfd set_registry tw_files]; by rewrite Hf1, !insert_insert_eq).
  wp_step. case_decide as Hticks.
  - eapply notify_readable_rule; [exact Hok3|done|]. intros w4 Hok4. wp_step. split; [done|]. exists (notified (bump (with_state st f1))). split; [split; [exact Hok4|]|done].
    unfold w4. cbn [tw_files]. by rewrite Hf3, insert_insert_eq.
  - wp_run. split; [done|]. exists (bump (with_state st f1)). split; [by split|done].
Qed.

Lemma tfd_create_rule w clock :
  tfd_ok w → tr_next_id (tw_registry w) < u64_max →
  wp_res (create (E := FsError) clock) w
    (λ id w', id = tr_next_id (tw_registry w) ∧ tw_files w !! id = None ∧ changed_to w w' id (mkTfd clock (mkTfdState 0 0 0 false) 1 WaitQueue_new)) (λ _ _, False).
Proof.
  intros [[Hi Hw] Hp Hs Hf] Hn. unfold create. wp_run. split; [done|]. assert (tw_files w !! tr_next_id (tw_registry w) = None) as Hnone by (apply Hf; lia).
  split; [done|]. split; [|done]. constructor; cbn [put_tfd set_registry tw_registry tw_files]; [|done| |].
  - split; [apply Hi|]. intros c d p. change (waits (index c (tw_registry w)) d p ↔ armed (<[tr_next_id (tw_registry w) := mkTfd clock (mkTfdState 0 0 0 false) 1 WaitQueue_new]> (tw_files w)) c d p ∧ ¬ (c = Monotonic ∧ p ∈ ([] : list Z))).
    rewrite Hw. unfold armed. destruct (decide (p = tr_next_id (tw_registry w))) as [->|]; [|by rewrite lookup_insert_ne].
    rewrite Hnone, lookup_insert_eq. split; [by intros [(? & ? & _) _]|]. intros [(f & [= <-] & _ & <- & Hd) _]. done.
  - intros p f. destruct (decide (p = tr_next_id (tw_registry w))) as [->|]; [|rewrite lookup_insert_ne by done; apply Hs].
    rewrite lookup_insert_eq. intros [= <-]. constructor; cbn; unfold in_u64, u64_max; lia.
  - intros p Hpn. unfold saturating_add in Hpn. cbn in Hpn. rewrite lookup_insert_ne by lia. apply Hf. lia.
Qed.

Lemma drop_rule w id f :
  tfd_ok w → tw_files w !! id = Some f →
  wp_res (tfd_drop (E := FsError) id) w (λ _ w', tfd_ok w' ∧ tw_files w' = delete id (tw_files w)) (λ _ _, False).
Proof.
  intros Hok Hid. destruct (disarm_spec w id f Hok Hid) as ([Hi Hw] & Hp & Hn). unfold tfd_drop. wp_step. eapply tfd_at_rule; [done|]. wp_step. split; [|done].
  set (r1 := if decide (expires_ns (tfd_state f) ≠ 0) then _ else _) in *. constructor; cbn [tw_registry tw_files]; [|done| |].
  - split; [intros c; rewrite index_refresh; apply Hi|]. intros c d p. rewrite index_refresh, Hw. unfold index_without, armed.
    assert (p ∉ ([] : list Z)) by apply not_elem_of_nil. setoid_rewrite lookup_delete_Some. naive_solver.
  - intros p f0 [_ Hp0]%lookup_delete_Some. by eapply (tp_states _ _ _ Hok).
  - intros p Hpn. rewrite next_id_refresh, Hn in Hpn. apply lookup_delete_None. right. by apply (tp_fresh _ _ _ Hok).
Qed.

Lemma register_rule w id f events listener :
  tfd_ok w → tw_files w !! id = Some f →
  wp_res (tfd_register id events listener) w (λ _ w', tfd_ok w') (λ _ _, False).
Proof. intros Hok Hid. unfold tfd_register. wp_step. eapply tfd_at_rule; [done|]. unfold register. wp_run. by eapply (tfd_touch _ _ _ _ f). Qed.

Lemma unregister_rule w id f waiter :
  tfd_ok w → tw_files w !! id = Some f → wp_res (tfd_unregister id waiter) w (λ _ w', tfd_ok w') (λ _ _, False).
Proof.
  intros Hok Hid. unfold tfd_unregister. wp_step. eapply tfd_at_rule; [done|]. destruct (unregister (tfd_waiters f) waiter) as [b q]. wp_run.
  by eapply (tfd_touch _ _ _ _ f).
Qed.

(** ** The timer interrupt *)

Lemma wake_class_total class now w :
  tfd_ok w → 0 <= now < u64_max →
  wp_res (wake_class class now) w
    (λ _ w', tfd_ok w' ∧ sweep_rel (λ _ f, deadline_class (tfd_clock f) = class) now w w') (λ _ _, False).
Proof.
  intros Hok Hnow. unfold wake_class. wp_step. wp_step. apply wake_class_rule; [done|done|]. unfold keys_due.
  etrans; [apply length_filter|]. by rewrite length_fmap.
Qed.

Lemma next_deadline_later r class w now :
  idx_is r (λ c d p, armed (tw_files w) c d p ∧ ¬ (c = Monotonic ∧ p ∈ ([] : list Z))) → now < u64_max →
  (∀ d p, armed (tw_files w) class d p → now < d) → now < first_deadline (index class r).
Proof.
  intros [Hi Hw] Hn Hlate. destruct (index class r) as [|[d ids] rest] eqn:Hix; [done|]. cbn.
  destruct (index_key (index class r) d (Hi class)) as (p & Hp); [rewrite Hix; by left|]. apply (Hlate d p). by apply Hw in Hp as [? _].
Qed.

(** What [wake_expired_timers] at the times [c] makes of a world. *)
Record interrupt_post (c : clocks) (w w' : tfd_world) : Prop := {
  ip_ok : tfd_ok w';
  ip_files p :
    match tw_files w !! p with
    | None => tw_files w' !! p = None
    | Some f => ∃ f', tw_files w' !! p = Some f' ∧ swept (tfd_now c f) f f'
    end;
  ip_woken p f : tw_files w !! p = Some f → due (tfd_now c f) (tfd_state f) → ticks (tfd_state f) = 0 → readers f ⊆ tw_woken w';
  ip_quiet : deadline_due c w' = false;
}.

Lemma sweep_interrupt c w w1 w2 :
  clocks_ok c → tfd_ok w → tfd_ok w2 →
  sweep_rel (λ _ f, deadline_class (tfd_clock f) = Monotonic) (monotonic_now c) w w1 →
  sweep_rel (λ _ f, deadline_class (tfd_clock f) = Realtime) (realtime_ns c) w1 w2 → interrupt_post c w w2.
Proof.
  intros Hc Hok Hok2 [Hf1 (l1 & Hw1 & Hl1)] [Hf2 (l2 & Hw2 & Hl2)].
  assert (∀ p, match tw_files w !! p with
               | None => tw_files w2 !! p = None
               | Some f => ∃ f', tw_files w2 !! p = Some f' ∧ swept (tfd_now c f) f f'
               end) as Hfiles.
  { intros p. specialize (Hf1 p). specialize (Hf2 p). destruct (tw_files w !! p) as [f|]; [|by rewrite Hf1 in Hf2].
    destruct Hf1 as (f1 & Hp1 & A1 & B1). rewrite Hp1 in Hf2. destruct Hf2 as (f2 & Hp2 & A2 & B2). exists f2. split; [done|].
    unfold tfd_now, current_time_ns. destruct (deadline_class (tfd_clock f)) eqn:Hcl; cbn [class_now].
    - destruct (A1 eq_refl) as (E1 & E2 & E3). rewrite B2 by (by rewrite E1, Hcl). by split.
    - rewrite B1 in * by done. by apply A2. }
  constructor; [done|done| |].
  - intros p f Hp Hd H0. specialize (Hf1 p). rewrite Hp in Hf1. destruct Hf1 as (f1 & Hp1 & _ & B1). rewrite Hw2, Hw1.
    revert Hd. unfold tfd_now, current_time_ns. destruct (deadline_class (tfd_clock f)) eqn:Hcl; cbn [class_now]; intros Hd.
    + apply list_subseteq_app_l, list_subseteq_app_r. by apply (Hl1 p f).
    + rewrite B1 in Hp1 by done. apply list_subseteq_app_r. by apply (Hl2 p f).
  - assert (∀ class d p, armed (tw_files w2) class d p → class_now class c < d) as Hlate.
    { intros class d p (f2 & Hp2 & Hcl & He & Hd). specialize (Hfiles p). destruct (tw_files w !! p) as [f|] eqn:Hp; [|congruence].
      destruct Hfiles as (f' & Hp' & E1 & E2 & _). simplify_eq. rewrite E1, E2 in *.
      pose proof (after_later (tfd_now c f) (tfd_state f) (tp_states _ _ _ Hok _ _ Hp) (proj2 (tfd_now_ok c f Hc))) as [?|?]; [done|]. done. }
    destruct Hok2 as [Hi [Hp1 Hp2] _ _]. unfold deadline_due. rewrite Hp1, Hp2.
    pose proof (next_deadline_later _ Monotonic w2 (monotonic_now c) Hi (proj2 (proj1 Hc)) (Hlate Monotonic)) as H1.
    pose proof (next_deadline_later _ Realtime w2 (realtime_ns c) Hi (proj2 (proj2 Hc)) (Hlate Realtime)) as H2. cbn [index] in H1, H2. lia.
Qed.

Lemma wake_expired_rule c w :
  tfd_ok w → clocks_ok c → wp_res (wake_expired_timers c) w (λ _ w', interrupt_post c w w') (λ _ _, False).
Proof.
  intros Hok Hc. unfold wake_expired_timers. wp_step. eapply wp_res_mono; [apply wake_class_total; [done|apply Hc]|cbv beta|done].
  intros _ w1 [Hok1 Hr1]. eapply wp_res_mono; [apply wake_class_total; [done|apply Hc]|cbv beta|done].
  intros _ w2 [Hok2 Hr2]. by eapply sweep_interrupt.
Qed.

(** ** Counting expirations *)

(** The expirations of the timer that no [read] before the time [t] saw. *)
Definition ticks_at (t : Z) (st : TimerFdState) : Z := ticks st + expirations (expires_ns st) (interval_ns st) t.

Lemma expirations_split e i now t :
  0 < e → e <= now → now <= t → 0 < i →
  let n := (now - e) / i + 1 in n + expirations (e + n * i) i t = (t - e) / i + 1.
Proof.
  intros He Hn Ht Hi n. pose proof (Z.div_mod (now - e) i ltac:(lia)) as Hdm. pose proof (Z.mod_pos_bound (now - e) i Hi) as Hm.
  pose proof (Z.div_pos (now - e) i ltac:(lia) Hi) as Hq. set (q := (now - e) / i) in *. unfold n, expirations.
  destruct (decide (t < e + (q + 1) * i)) as [Hlt|Hlt].
  - rewrite decide_True by lia. assert ((t - e) / i = q) as ->; [|lia]. symmetry. apply (Z.div_unique _ _ _ (t - e - q * i)); nia.
  - rewrite decide_False by nia. rewrite decide_False by lia. replace (t - (e + (q + 1) * i)) with (t - e + (- (q + 1)) * i) by ring.
    rewrite Z.div_add by lia. lia.
Qed.

Lemma ticks_at_after now t st :
  state_ok st → now <= t → ticks_at now st <= u64_max → now + interval_ns st <= u64_max → ticks_at t (after now st) = ticks_at t st.
Proof.
  intros [Hi He Ht] Hle Hsat Hnow. unfold ticks_at in Hsat. unfold after. case_decide as Hd; [done|]. unfold ticks_at. cbn [ticks expires_ns interval_ns].
  unfold in_u64 in *. assert (expirations (expires_ns st) (interval_ns st) now = if decide (interval_ns st = 0) then 1 else (now - expires_ns st) / interval_ns st + 1) as Hn
    by (unfold expirations; by rewrite decide_False by done).
  rewrite Hn in *. case_decide as Hz.
  - unfold expirations, saturating_add. rewrite decide_True by lia. rewrite decide_False by lia. rewrite decide_True by lia. lia.
  - pose proof (expirations_split (expires_ns st) (interval_ns st) now t ltac:(lia) ltac:(lia) Hle ltac:(lia)) as Hs. cbv zeta in Hs.
    pose proof (Z.mul_div_le (now - expires_ns st) (interval_ns st) ltac:(lia)) as Hm. pose proof (Z.div_pos (now - expires_ns st) (interval_ns st)) as Hp.
    set (q := (now - expires_ns st) / interval_ns st) in *. unfold saturating_add, saturating_mul.
    rewrite (Z.min_r _ (ticks st + _)) by lia. rewrite (Z.min_r _ ((q + 1) * _)) by nia. rewrite Z.min_r by nia.
    rewrite (Z.mul_comm (q + 1)) in *. unfold expirations at 2. rewrite decide_False by lia. rewrite decide_False by lia. lia.
Qed.

Lemma expirations_bound e i t : 0 <= e → 0 <= i → 0 <= t → expirations e i t <= t.
Proof.
  intros He Hi Ht. unfold expirations. case_decide; [lia|]. case_decide; [lia|].
  pose proof (Z.div_le_upper_bound (t - e) i (t - e)) as Hd. nia.
Qed.

(** What may happen to a timer between two settings. *)
Inductive tfd_event := EvRead (id n : Z) | EvPoll (id events : Z) | EvGet (id : Z) | EvSweep.

Definition event_target (ev : tfd_event) : option Z :=
  match ev with EvRead id _ | EvPoll id _ | EvGet id => Some id | EvSweep => None end.

(** The run of an event, with the counts that it read. *)
Definition keep_world {E A} (log : A → list (Z * Z)) (r : outcome E A * tfd_world) : option (list (Z * Z) * tfd_world) :=
  match r with (Ok a, w) => Some (log a, w) | (Err _, w) => Some ([], w) | _ => None end.

Definition run_event (c : clocks) (ev : tfd_event) (w : tfd_world) : option (list (Z * Z) * tfd_world) :=
  match ev with
  | EvRead id n => keep_world (λ bytes, [(id, le_val bytes)]) (tfd_read id n c w)
  | EvPoll id events => keep_world (λ _, []) (tfd_poll id events c w)
  | EvGet id => keep_world (λ _, []) (get_time id c w)
  | EvSweep => keep_world (λ _, []) (wake_expired_timers c w)
  end.

Fixpoint run_events (evs : list (clocks * tfd_event)) (w : tfd_world) : option (list (Z * Z) * tfd_world) :=
  match evs with
  | [] => Some ([], w)
  | (c, ev) :: evs => '(l, w) ← run_event c ev w; '(l', w) ← run_events evs w; Some (l ++ l', w)
  end.

(** The expirations of the timer [id] that were read. *)
Definition read_of (id : Z) (log : list (Z * Z)) : Z := foldr Z.add 0 (filter (λ e, e.1 = id) log).*2.

Lemma read_of_app id l l' : read_of id (l ++ l') = read_of id l + read_of id l'.
Proof. unfold read_of. rewrite filter_app, fmap_app. induction (filter _ l).*2; cbn in *; lia. Qed.

(** The state of a timer before and after an event at the time [now] in which
    [taken] expirations were read. *)
Definition observed (now : Z) (st st' : TimerFdState) (taken : Z) : Prop :=
  (st' = st ∧ taken = 0) ∨ (st' = after now st ∧ taken = 0) ∨ (st' = drained (after now st) ∧ taken = ticks (after now st)).

Lemma event_rule c ev w :
  tfd_ok w → clocks_ok c → (∀ id, event_target ev = Some id → is_Some (tw_files w !! id)) →
  ∃ log w', run_event c ev w = Some (log, w') ∧ tfd_ok w' ∧
    (∀ p f, tw_files w !! p = Some f → ∃ f', tw_files w' !! p = Some f' ∧ tfd_clock f' = tfd_clock f ∧ observed (tfd_now c f) (tfd_state f) (tfd_state f') (read_of p log)).
Proof.
  intros Hok Hc Htgt.
  assert (∀ p f log w' g, tw_files w !! p = Some f → changed_to w w' p g → tfd_clock g = tfd_clock f →
    (∀ q, q ≠ p → read_of q log = 0) → observed (tfd_now c f) (tfd_state f) (tfd_state g) (read_of p log) →
    tfd_ok w' ∧ ∀ q f0, tw_files w !! q = Some f0 → ∃ f', tw_files w' !! q = Some f' ∧ tfd_clock f' = tfd_clock f0 ∧ observed (tfd_now c f0) (tfd_state f0) (tfd_state f') (read_of q log)) as Hone.
  { intros p f log w' g Hp [Hok' Hfs] Hcl Hlog Hobs. split; [done|]. intros q f0 Hq. rewrite Hfs. destruct (decide (q = p)) as [->|Hne].
    - rewrite lookup_insert_eq. exists g. by simplify_eq.
    - rewrite lookup_insert_ne by done. exists f0. split; [done|]. split; [done|]. left. by rewrite Hlog. }
  destruct ev as [id n|id events|id|]; cbn [run_event].
  - destruct (Htgt id eq_refl) as [f Hf]. destruct (decide (n < 8)) as [Hn|Hn].
    { exists [], w. unfold tfd_read. rewrite decide_True by done. split; [done|]. split; [done|]. intros p f0 Hp. exists f0. split; [done|]. split; [done|]. by left. }
    pose proof (tfd_read_rule w id f n c Hok Hf Hc ltac:(lia)) as Hr. unfold wp_res, wp in Hr. destruct (tfd_read id n c w) as [[bytes|e| |] w']; cbn in Hr; try done.
    + destruct Hr as (H0 & -> & Hch). eexists _, w'. split; [reflexivity|]. eapply Hone; [done|exact Hch|done| |].
      * intros q Hq. unfold read_of. by rewrite filter_cons_False by (cbn; congruence).
      * right; right. split; [done|]. unfold read_of. rewrite filter_cons_True by done. cbn. rewrite le_val_u64; [lia|].
        apply after_ok; [apply tfd_now_ok, Hc|by eapply (tp_states _ _ _ Hok)].
    + destruct Hr as (H0 & -> & Hch). eexists _, w'. split; [reflexivity|]. eapply Hone; [done|exact Hch|done|done|]. right; left. done.
  - destruct (Htgt id eq_refl) as [f Hf]. pose proof (tfd_poll_rule w id f events c Hok Hf Hc) as Hr. unfold wp_res, wp in Hr.
    destruct (tfd_poll id events c w) as [[ready|e| |] w']; cbn in Hr; try done. destruct Hr as [_ Hch]. eexists _, w'. split; [reflexivity|].
    eapply Hone; [done|exact Hch|done|done|]. right; left. done.
  - destruct (Htgt id eq_refl) as [f Hf]. pose proof (get_time_rule w id f c Hok Hf Hc) as Hr. unfold wp_res, wp in Hr.
    destruct (get_time id c w) as [[ready|e| |] w']; cbn in Hr; try done. destruct Hr as [_ Hch]. eexists _, w'. split; [reflexivity|].
    eapply Hone; [done|exact Hch|done|done|]. right; left. done.
  - pose proof (wake_expired_rule c w Hok Hc) as Hr. unfold wp_res, wp in Hr. destruct (wake_expired_timers c w) as [[[]|e| |] w']; cbn in Hr; try done.
    destruct Hr as [Hok' Hfs _ _]. eexists _, w'. split; [reflexivity|]. split; [done|]. intros p f Hp. specialize (Hfs p). rewrite Hp in Hfs.
    destruct Hfs as (f' & Hp' & E1 & E2 & _). exists f'. split; [done|]. split; [done|]. right; left. done.
Qed.

(** Events at times that do not decrease from [t] on and end before [c]. *)
Fixpoint history (class : DeadlineClass) (t : Z) (evs : list (clocks * tfd_event)) (c : clocks) : Prop :=
  match evs with
  | [] => clocks_ok c ∧ t <= class_now class c
  | (c', _) :: evs => clocks_ok c' ∧ t <= class_now class c' ∧ history class (class_now class c') evs c
  end.

Lemma history_le class evs c : ∀ t, history class t evs c → t <= class_now class c ∧ clocks_ok c.
Proof. induction evs as [|[c' ev] evs IH]; intros t; [by intros []|]. intros (_ & Ht & [? ?]%IH). split; [lia|done]. Qed.

Definition targets_exist (evs : list (clocks * tfd_event)) (w : tfd_world) : Prop :=
  Forall (λ e, ∀ id, event_target e.2 = Some id → is_Some (tw_files w !! id)) evs.

(** The timer [id] with the expirations that are still to be read, [total] of
    those since the setting having been read. *)
Definition counting (class : DeadlineClass) (e i id total t : Z) (w : tfd_world) : Prop :=
  tfd_ok w ∧ 0 <= total ∧ ∃ f, tw_files w !! id = Some f ∧ deadline_class (tfd_clock f) = class ∧ interval_ns (tfd_state f) = i ∧
  ∀ T, t <= T → total + ticks_at T (tfd_state f) = expirations e i T.

Lemma after_interval now st : interval_ns (after now st) = interval_ns st.
Proof. unfold after. by case_decide. Qed.

Lemma observed_counting e i now st st' taken total :
  state_ok st → 0 <= total → 0 <= e → 0 <= i → interval_ns st = i → 0 <= now → now + i <= u64_max →
  (∀ T, now <= T → total + ticks_at T st = expirations e i T) → observed now st st' taken →
  interval_ns st' = i ∧ 0 <= taken ∧ ∀ T, now <= T → total + taken + ticks_at T st' = expirations e i T.
Proof.
  intros Hst Htot He Hi Hint Hn Hsat Hcount Hobs.
  assert (∀ T, now <= T → ticks_at T (after now st) = ticks_at T st) as Hafter.
  { intros T HT. apply ticks_at_after; [done|done| |by rewrite Hint]. pose proof (Hcount now ltac:(lia)). pose proof (expirations_bound e i now). lia. }
  destruct Hobs as [[-> ->]|[[-> ->]|[-> ->]]].
  - split; [done|]. split; [done|]. intros T HT. rewrite Z.add_0_r. by apply Hcount.
  - rewrite after_interval. split; [done|]. split; [done|]. intros T HT. rewrite Z.add_0_r, Hafter by done. by apply Hcount.
  - cbn [drained interval_ns]. rewrite after_interval. split; [done|]. destruct (after_ok now st Hn Hst) as [_ _ Ht]. split; [apply Ht|].
    intros T HT. specialize (Hafter T HT). specialize (Hcount T HT). unfold ticks_at, drained in *. cbn [ticks expires_ns interval_ns]. lia.
Qed.

Lemma run_events_counting class e i id c evs : ∀ w total t,
  counting class e i id total t w → 0 <= e → 0 <= i → history class t evs c → class_now class c + i <= u64_max → targets_exist evs w →
  ∃ log w', run_events evs w = Some (log, w') ∧ counting class e i id (total + read_of id log) (class_now class c) w'.
Proof.
  induction evs as [|[c' ev] evs IH]; intros w total t Hcnt He Hi Hh Hsat Htgt.
  - exists [], w. split; [done|]. destruct Hcnt as (Hok & Htot & f & Hf & Hcl & Hint & Hcount). destruct Hh as [_ Ht].
    replace (total + read_of id []) with total by (unfold read_of; cbn; lia). split; [done|]. split; [done|]. exists f. repeat (split; [done|]). intros T HT. apply Hcount. lia.
  - destruct Hh as (Hc & Ht & Hh). apply Forall_cons in Htgt as [Htgt Htgts]. destruct Hcnt as (Hok & Htot & f & Hf & Hcl & Hint & Hcount).
    destruct (event_rule c' ev w Hok Hc Htgt) as (log & w1 & Hrun & Hok1 & Hfs). destruct (Hfs id f Hf) as (f1 & Hf1 & Hcl1 & Hobs).
    destruct (history_le _ _ _ _ Hh) as [Hlast _].
    assert (tfd_now c' f = class_now class c') as Hnow by (unfold tfd_now, current_time_ns; by rewrite Hcl). rewrite Hnow in Hobs.
    pose proof (tfd_now_ok c' f Hc) as Hnb. rewrite Hnow in Hnb.
    destruct (observed_counting e i _ _ _ _ total (tp_states _ _ _ Hok _ _ Hf) Htot He Hi Hint (proj1 Hnb) ltac:(lia) ltac:(intros T HT; apply Hcount; lia) Hobs) as (Hint1 & Htk & Hc1).
    destruct (IH w1 (total + read_of id log) (class_now class c')) as (log' & w2 & Hrun2 & Hcnt2); [|done|done|done|done| |].
    + split; [done|]. split; [lia|]. exists f1. split; [done|]. split; [by rewrite Hcl1|]. by split.
    + eapply Forall_impl; [exact Htgts|]. cbn. intros [c'' ev'] Hx p Hp. destruct (Hx p Hp) as [g Hg]. destruct (Hfs p g Hg) as (g' & Hg' & _). by exists g'.
    + exists (log ++ log'), w2. cbn [run_events]. rewrite Hrun. cbn. rewrite Hrun2. cbn. split; [done|]. by rewrite read_of_app, Z.add_assoc.
Qed.

Lemma total_nanos_bound t n : total_nanos t = Ok n → in_u64 n.
Proof.
  unfold total_nanos, validate. destruct (decide (tv_sec t < 0 ∨ ¬ (0 <= tv_nsec t < NANOS))) as [|Hv]; [done|]. intros [= <-].
  unfold in_u64, saturating_add, saturating_mul, NANOS, u64_max in *. lia.
Qed.

Lemma setting_ticks now st T : 0 <= now → now <= T → state_ok st → ticks st = 0 → now + interval_ns st <= u64_max →
  ticks_at T (after now st) = expirations (expires_ns st) (interval_ns st) T.
Proof.
  intros Hn HT Hst H0 Hsat. rewrite ticks_at_after; [unfold ticks_at; lia|done|done| |done].
  unfold ticks_at. destruct Hst as [[Hi _] [He _] _]. pose proof (expirations_bound (expires_ns st) (interval_ns st) now He Hi Hn). lia.
Qed.

(** A read returns what is left of the count. *)
Lemma counting_read class e i id total c w :
  counting class e i id total (class_now class c) w → 0 <= e → 0 <= i → clocks_ok c → class_now class c + i <= u64_max →
  (tfd_read id 8 c w).1 =
    (let n := expirations e i (class_now class c) - total in if decide (n = 0) then Err WouldBlock else Ok (le_bytes 8 n)).
Proof.
  intros (Hok & Htot & f & Hf & Hcl & Hint & Hcount) He Hi Hc Hsat. set (T := class_now class c) in *.
  assert (tfd_now c f = T) as HT by (unfold tfd_now, current_time_ns; by rewrite Hcl).
  pose proof (tfd_read_rule w id f 8 c Hok Hf Hc ltac:(lia)) as Hrd. cbv zeta in Hrd. rewrite HT in Hrd.
  pose proof (tp_states _ _ _ Hok _ _ Hf) as Hst. pose proof (tfd_now_ok c f Hc) as HTb. rewrite HT in HTb.
  assert (ticks (after T (tfd_state f)) = expirations e i T - total) as Hticks.
  { destruct (observed_counting e i T (tfd_state f) (drained (after T (tfd_state f))) (ticks (after T (tfd_state f))) total) as (_ & _ & Hx);
      [done|done|done|done|done|lia|done|done|by right; right|].
    specialize (Hx T ltac:(lia)). unfold ticks_at in Hx. cbn [drained ticks expires_ns interval_ns] in Hx.
    assert (expirations (expires_ns (after T (tfd_state f))) (interval_ns (after T (tfd_state f))) T = 0) as H0; [|lia].
    unfold expirations. rewrite decide_True; [done|]. apply after_later; [done|lia]. }
  cbv zeta. rewrite <-Hticks. unfold wp_res, wp in Hrd. destruct (tfd_read id 8 c w) as [[bytes|e'| |] w3]; cbn in Hrd |- *; try done.
  - destruct Hrd as (Hne & -> & _). by rewrite decide_False.
  - destruct Hrd as (H0 & -> & _). by rewrite decide_True.
Qed.

(** C33.  The count that a timer descriptor shows is exact.  After a
    [timerfd_settime], let any sequence of reads, polls, queries and timer
    interrupts happen, on this and on other timers, at times that do not
    decrease.  A read at the time [c] then returns the number of times that the
    timer expired since it was set ([expirations]: the first time at its
    deadline, then once for every full interval), less those that the earlier
    reads returned; when there are none it would block.  No operation panics
    and the sweep of the interrupt ends. *)
Theorem timerfd_ticks_exact w id f flags spec c0 evs c interval value :
  let class := deadline_class (tfd_clock f) in
  let now := class_now class c0 in
  let e := expires_ns (setting now flags interval value) in
  tfd_ok w → tw_files w !! id = Some f → clocks_ok c0 →
  total_nanos (it_interval spec) = Ok interval → total_nanos (it_value spec) = Ok value →
  is_cancel flags && (negb (is_absolute flags) || negb (is_realtime (tfd_clock f))) = false →
  history class now evs c → class_now class c + interval <= u64_max → targets_exist evs w →
  ∃ old w1 log w2, set_time id flags spec c0 w = (Ok old, w1) ∧ run_events evs w1 = Some (log, w2) ∧
    (tfd_read id 8 c w2).1 =
      (let n := expirations e interval (class_now class c) - read_of id log in if decide (n = 0) then Err WouldBlock else Ok (le_bytes 8 n)).
Proof.
  intros class now e Hok Hf Hc0 Hiv Hval Hflags Hh Hsat Htgt. pose proof (total_nanos_bound _ _ Hiv) as Hi. pose proof (total_nanos_bound _ _ Hval) as Hv.
  destruct (history_le _ _ _ _ Hh) as [Hle Hc].
  assert (tfd_now c0 f = now) as Hnow by done. pose proof (tfd_now_ok c0 f Hc0) as Hnb. rewrite Hnow in Hnb.
  pose proof (set_time_rule w id f flags spec c0 interval value Hok Hf Hc0 Hiv Hval Hi Hv Hflags) as Hset. cbv zeta in Hset. rewrite Hnow in Hset.
  unfold wp_res, wp in Hset. destruct (set_time id flags spec c0 w) as [[old| | |] w1]; cbn in Hset; try done. destruct Hset as (_ & f1 & [Hok1 Hf1] & Hcl1 & Hst1).
  pose proof (armed_state_ok now interval value (is_absolute flags) (is_cancel flags) Hnb Hi Hv) as Hst0.
  assert (counting class e interval id 0 now w1) as Hcnt.
  { split; [done|]. split; [done|]. exists f1. split; [rewrite Hf1; apply lookup_insert_eq|]. split; [by rewrite Hcl1|]. rewrite Hst1.
    split; [by rewrite after_interval|]. intros T HT. rewrite setting_ticks; [done|lia|done|done|done|cbn; lia]. }
  destruct (run_events_counting class e interval id c evs w1 0 now Hcnt) as (log & w2 & Hrun & Hcnt2);
    [apply Hst0|apply Hi|done|done| |].
  { eapply Forall_impl; [exact Htgt|]. cbn. intros [c' ev] Hx p Hp. destruct (Hx p Hp) as [g Hg]. rewrite Hf1.
    destruct (decide (p = id)) as [->|]; [rewrite lookup_insert_eq; by eexists|rewrite lookup_insert_ne by done; by exists g]. }
  exists old, w1, log, w2. split; [done|]. split; [done|]. apply counting_read; [done|apply Hst0|apply Hi|done|done].
Qed.

(** The hypotheses hold for a periodic timer, set to expire after 100 and then
    every 30 nanoseconds, that is polled, swept and read at 170. *)
Definition at_time (t : Z) : clocks := mkClocks t 0 0.
Definition demo_timer : tfd_world := (create (E := FsError) ClockMonotonic tfd_new).2.
Definition demo_itimer : LinuxItimerSpec := mkSpec (mkTimespec 0 30) (mkTimespec 0 100).

Lemma tfd_new_ok : tfd_ok tfd_new.
Proof.
  constructor; [|done|by intros|done]. split; [intros []; by split; constructor|]. intros [] d p; (split; [by intros ?%waits_nil|by intros [(? & ? & _) _]]).
Qed.

Lemma demo_timer_ok : tfd_ok demo_timer.
Proof.
  assert (wp_res (create (E := FsError) ClockMonotonic) tfd_new (λ _ w', tfd_ok w') (λ _ _, False)) as H; [|exact H].
  eapply wp_res_mono; [apply tfd_create_rule; [apply tfd_new_ok|done]|cbv beta|done]. by intros id w (_ & _ & [? _]).
Qed.

Lemma timerfd_ticks_exact_witness :
  ∃ old w1 log w2,
    set_time 1 0 demo_itimer (at_time 1000) demo_timer = (Ok old, w1) ∧
    run_events [(at_time 1100, EvPoll 1 1); (at_time 1150, EvSweep); (at_time 1170, EvRead 1 8)] w1 = Some (log, w2) ∧
    (tfd_read 1 8 (at_time 1200) w2).1 =
      (let n := expirations 1100 30 1200 - read_of 1 log in if decide (n = 0) then Err WouldBlock else Ok (le_bytes 8 n)).
Proof.
  apply (timerfd_ticks_exact demo_timer 1 (mkTfd ClockMonotonic (mkTfdState 0 0 0 false) 1 WaitQueue_new) 0 demo_itimer (at_time 1000) _ (at_time 1200) 30 100).
  - apply demo_timer_ok.
  - done.
  - done.
  - done.
  - done.
  - done.
  - done.
  - done.
  - repeat constructor; intros id [= <-]; by eexists.
Defined.

(**  The timer interrupt loses no expiration and its loop ends: from every
    state in which the indices hold the armed timers (the empty registry, and
    every operation keeps it so), [wake_expired_timers] brings every timer
    up to the present, wakes every listener for reading of a timer that became
    readable, leaves the timers that are not due alone, and leaves no deadline
    that is due, so that [deadline_due] is false afterwards. *)
Theorem timerfd_sweep_correct c w :
  tfd_ok w → clocks_ok c → ∃ w', wake_expired_timers c w = (Ok (), w') ∧ interrupt_post c w w'.
Proof.
  intros Hok Hc. pose proof (wake_expired_rule c w Hok Hc) as Hr. unfold wp_res, wp in Hr.
  destruct (wake_expired_timers c w) as [[[]| | |] w']; cbn in Hr; try done. by exists w'.
Qed.

Definition demo_armed : tfd_world := (set_time 1 0 demo_itimer (at_time 1000) demo_timer).2.

Lemma demo_armed_ok : tfd_ok demo_armed.
Proof.
  assert (wp_res (set_time 1 0 demo_itimer (at_time 1000)) demo_timer (λ _ w', tfd_ok w') (λ _ _, False)) as H; [|exact H].
  eapply wp_res_mono; [apply (set_time_rule _ _ (mkTfd ClockMonotonic (mkTfdState 0 0 0 false) 1 WaitQueue_new) _ _ _ 30 100); try done; apply demo_timer_ok|cbv beta|done].
  by intros old w (_ & f' & [? _] & _).
Qed.

Lemma timerfd_sweep_correct_witness :
  ∃ w', wake_expired_timers (at_time 1200) demo_armed = (Ok (), w') ∧ interrupt_post (at_time 1200) demo_armed w'.
Proof. apply timerfd_sweep_correct; [apply demo_armed_ok|done]. Defined.

(** A listener that waits for a timer which [poll] found expired first: the
    poll takes the deadline out of the index and wakes nobody, and the sweep
    at the same time finds nothing to do. *)
Lemma poll_swallows_wakeup :
  ∃ w1 w2 w3, tfd_register 1 PollEvents.READ 7 demo_armed = (Ok 1, w1) ∧ tfd_poll 1 PollEvents.READ (at_time 1100) w1 = (Ok PollEvents.READ, w2) ∧
    wake_expired_timers (at_time 1100) w2 = (Ok (), w3) ∧ tw_woken w3 = [].
Proof. do 3 eexists. repeat (split; [vm_compute; reflexivity|]). vm_compute. reflexivity. Qed.
