(* ===== verification/PageTable.v ===== *)
(** * Page tables

    Models [aether-frame/src/mm/mapper.rs] and
    [aether-frame/src/arch/x86_64/mm/paging.rs]: the trait [PageTableArch] as
    a class of operations on table entries, its x86_64 instance, and the
    operations of [AddressSpace], which walk and edit the tables in physical
    memory and take table frames from a [FrameAllocator].

    Physical memory is a function from the address of an eight-byte word to
    its value ([phys_to_virt] maps all of it linearly, so a table entry is
    named by its physical address); the frame allocator is any state with the
    interface of [FrameApi]; [cr3] is the table root the processor uses, and
    the instructions that flush its translation cache are recorded in
    [flushes].  [MapperProof] holds the theorems. *)

From S2P Require Import Prelude Frame.

Record VirtAddr := mkVirtAddr { virt_u64 : Z }.

Definition virt_is_aligned (a : VirtAddr) (align : Z) : bool :=
  Z.land (virt_u64 a) (align - 1) =? 0.

Definition MAX_PAGE_TABLE_LEVELS : nat := 5.

Module MapFlags.
Definition READ : Z := 1.
Definition WRITE : Z := 2.
Definition EXECUTE : Z := 4.
Definition USER : Z := 8.
Definition GLOBAL : Z := 16.
Definition NO_CACHE : Z := 32.
Definition WRITE_THROUGH : Z := 64.
Definition empty : Z := 0.
Definition contains (self other : Z) : bool := Z.land self other =? other.
Definition without (self other : Z) : Z := Z.land self (u64_max - other).
Definition bitor (self rhs : Z) : Z := Z.lor self rhs.
End MapFlags.

Inductive MapSize := Size4KiB | Size2MiB | Size1GiB.

Inductive MappingError :=
| InvalidAddress
| AlreadyMapped
| NotMapped
| UnsupportedSize
| MapOutOfMemory
| FrameError (e : FrameAllocError).

Record UnmapResult := mkUnmapResult {
  unmapped_frame : PhysFrame;
  remaining_refs : Z;
  unmapped_size : MapSize;
}.

(** The trait [PageTableArch].  [index_of] is [None] where the source indexes
    its shift table out of range. *)
Class PageTableArch := {
  LEVELS : nat;
  ENTRY_COUNT : nat;
  page_size : nat → option Z;
  leaf_level : MapSize → option nat;
  index_of : VirtAddr → nat → option nat;
  table_entry : PhysFrame → nat → Z;
  is_present : Z → bool;
  is_leaf : Z → nat → bool;
  entry_frame : Z → PhysFrame;
  make_table : PhysFrame → Z → Z;
  make_leaf : PhysFrame → nat → Z → Z;
}.

Module X86.
Definition LEVEL_SHIFTS : list Z := [39; 30; 21; 12].
Definition PAGE_SIZES : list Z := [0; 1073741824; 2097152; 4096].
Definition ENTRY_PRESENT : Z := Z.shiftl 1 0.
Definition ENTRY_WRITABLE : Z := Z.shiftl 1 1.
Definition ENTRY_USER : Z := Z.shiftl 1 2.
Definition ENTRY_WRITE_THROUGH : Z := Z.shiftl 1 3.
Definition ENTRY_CACHE_DISABLE : Z := Z.shiftl 1 4.
Definition ENTRY_HUGE : Z := Z.shiftl 1 7.
Definition ENTRY_GLOBAL : Z := Z.shiftl 1 8.
Definition ENTRY_NO_EXECUTE : Z := Z.shiftl 1 63.
(** [0x000f_ffff_ffff_f000] *)
Definition ENTRY_ADDR_MASK : Z := 2 ^ 52 - 2 ^ 12.

Definition x86_page_size (level : nat) : option Z :=
  match PAGE_SIZES !! level with
  | Some size => if decide (size ≠ 0) then Some size else None
  | None => None
  end.

Definition x86_leaf_level (size : MapSize) : option nat :=
  match size with
  | Size1GiB => Some 1%nat
  | Size2MiB => Some 2%nat
  | Size4KiB => Some 3%nat
  end.

Definition x86_index_of (addr : VirtAddr) (level : nat) : option nat :=
  shift ← LEVEL_SHIFTS !! level;
  Some (Z.to_nat (Z.land (Z.shiftr (virt_u64 addr) shift) 511)).

Definition x86_table_entry (frame : PhysFrame) (index : nat) : Z :=
  addr_u64 (start_address frame) + 8 * Z.of_nat index.

Definition x86_is_present (entry : Z) : bool := negb (Z.land entry ENTRY_PRESENT =? 0).

Definition x86_is_leaf (entry : Z) (level : nat) : bool :=
  bool_decide (level = 3)%nat || negb (Z.land entry ENTRY_HUGE =? 0).

Definition x86_entry_frame (entry : Z) : PhysFrame :=
  from_start_address (mkPhysAddr (Z.land entry ENTRY_ADDR_MASK)).

Definition or_if (c : bool) (bit entry : Z) : Z := if c then Z.lor entry bit else entry.

Definition x86_make_table (frame : PhysFrame) (flags : Z) : Z :=
  or_if (MapFlags.contains flags MapFlags.USER) ENTRY_USER
    (Z.lor (Z.lor (addr_u64 (start_address frame)) ENTRY_PRESENT) ENTRY_WRITABLE).

Definition x86_make_leaf (frame : PhysFrame) (level : nat) (flags : Z) : Z :=
  let has := MapFlags.contains flags in
  let entry := Z.lor (addr_u64 (start_address frame)) ENTRY_PRESENT in
  let entry := or_if (has MapFlags.WRITE) ENTRY_WRITABLE entry in
  let entry := or_if (has MapFlags.USER) ENTRY_USER entry in
  let entry := or_if (has MapFlags.WRITE_THROUGH) ENTRY_WRITE_THROUGH entry in
  let entry := or_if (has MapFlags.NO_CACHE) ENTRY_CACHE_DISABLE entry in
  let entry := or_if (has MapFlags.GLOBAL) ENTRY_GLOBAL entry in
  let entry := or_if (negb (has MapFlags.EXECUTE)) ENTRY_NO_EXECUTE entry in
  or_if (bool_decide (level = 1 ∨ level = 2)%nat) ENTRY_HUGE entry.
End X86.

#[export] Instance X86_64PageTableArch : PageTableArch := {
  LEVELS := 4;
  ENTRY_COUNT := 512;
  page_size := X86.x86_page_size;
  leaf_level := X86.x86_leaf_level;
  index_of := X86.x86_index_of;
  table_entry := X86.x86_table_entry;
  is_present := X86.x86_is_present;
  is_leaf := X86.x86_is_leaf;
  entry_frame := X86.x86_entry_frame;
  make_table := X86.x86_make_table;
  make_leaf := X86.x86_make_leaf;
}.

Inductive flush := FlushPage (virt : VirtAddr).

Record machine (St : Type) := mkMachine {
  mem : Z → Z;
  frames : St;
  cr3 : PhysFrame;
  flushes : list flush;
}.
Arguments mkMachine {St}.
Arguments mem {St}.
Arguments frames {St}.
Arguments cr3 {St}.
Arguments flushes {St}.

Section mapper.
Context {A : PageTableArch} {St : Type} {F : FrameAllocator St}.

Definition MM := M (machine St) MappingError.

Definition set_frames (st : St) (σ : machine St) : machine St :=
  mkMachine (mem σ) st (cr3 σ) (flushes σ).
Definition set_mem (w : Z → Z) (σ : machine St) : machine St :=
  mkMachine w (frames σ) (cr3 σ) (flushes σ).
Definition add_flush (f : flush) (σ : machine St) : machine St :=
  mkMachine (mem σ) (frames σ) (cr3 σ) (flushes σ ++ [f]).

(** [ptr::read_volatile(A::table_entry(table, index))] and the write. *)
Definition read_entry (table : PhysFrame) (index : nat) : MM Z :=
  mgets (λ σ, mem σ (table_entry table index)).

Definition store (w : Z → Z) (a v : Z) : Z → Z := λ x, if decide (x = a) then v else w x.

Definition write_entry (table : PhysFrame) (index : nat) (entry : Z) : MM unit :=
  mmodify (λ σ, set_mem (store (mem σ) (table_entry table index) entry) σ).

Definition zero_words (w : Z → Z) (frame : PhysFrame) : Z → Z := λ x,
  let start := addr_u64 (start_address frame) in
  if decide (start <= x < start + PAGE_SIZE) then 0 else w x.

Definition zero_page (frame : PhysFrame) : MM unit :=
  mmodify (λ σ, set_mem (zero_words (mem σ) frame) σ).

(** A call of the frame allocator with its error converted by [conv]. *)
Definition with_frames {X} (conv : FrameAllocError → MappingError) (op : M St FrameAllocError X) : MM X :=
  λ σ, match op (frames σ) with
       | (Ok x, st) => (Ok x, set_frames st σ)
       | (Err e, st) => (Err (conv e), set_frames st σ)
       | (Panic, st) => (Panic, set_frames st σ)
       | (Diverge, st) => (Diverge, set_frames st σ)
       end.

Definition is_active_root (root : PhysFrame) (σ : machine St) : bool := bool_decide (root = cr3 σ).

Definition invalidate (root : PhysFrame) (virt : VirtAddr) : MM unit :=
  mmodify (λ σ, if is_active_root root σ then add_flush (FlushPage virt) σ else σ).

Definition new_root : MM PhysFrame :=
  root ← with_frames FrameError (fa_alloc 1);
  _ ← zero_page root;
  mret root.

Definition frame_count_for_size (size : MapSize) : Z :=
  match size with
  | Size4KiB => 1
  | Size2MiB => 2097152 / PAGE_SIZE
  | Size1GiB => 1073741824 / PAGE_SIZE
  end.

Definition map_size_for_level (level : nat) : MM MapSize :=
  match page_size level with
  | Some 4096 => mret Size4KiB
  | Some 2097152 => mret Size2MiB
  | Some 1073741824 => mret Size1GiB
  | _ => mthrow UnsupportedSize
  end.

(** [for level in 0..leaf_level] of [map]: [n] levels remain. *)
Fixpoint map_walk (n level : nat) (virt : VirtAddr) (flags : Z) (table : PhysFrame) : MM PhysFrame :=
  match n with
  | O => mret table
  | S n' =>
      index ← mexpect (index_of virt level);
      entry ← read_entry table index;
      if negb (is_present entry) then
        next ← with_frames FrameError (fa_alloc 1);
        _ ← zero_page next;
        _ ← write_entry table index (make_table next flags);
        map_walk n' (S level) virt flags next
      else if is_leaf entry level then mthrow AlreadyMapped
      else map_walk n' (S level) virt flags (entry_frame entry)
  end.

Definition map (root : PhysFrame) (virt : VirtAddr) (frame : PhysFrame) (size : MapSize) (flags : Z)
    : MM unit :=
  leaf_level ← mok_or (leaf_level size) UnsupportedSize;
  page_size ← mok_or (page_size leaf_level) UnsupportedSize;
  if negb (virt_is_aligned virt page_size) || negb (is_aligned (start_address frame) page_size)
  then mthrow InvalidAddress
  else
    table ← map_walk leaf_level 0 virt flags root;
    index ← mexpect (index_of virt leaf_level);
    entry ← read_entry table index;
    if is_present entry then mthrow AlreadyMapped
    else
      _ ← write_entry table index (make_leaf frame leaf_level flags);
      invalidate root virt.

(** [self.map(..).inspect_err(|_| { let _ = allocator.release(frame, count); })] *)
Definition map_or_release (root : PhysFrame) (virt : VirtAddr) (frame : PhysFrame) (size : MapSize)
    (flags count : Z) : MM unit := λ σ,
  match map root virt frame size flags σ with
  | (Err e, σ') =>
      match with_frames FrameError (fa_release frame count) σ' with
      | (Panic, σ'') => (Panic, σ'')
      | (Diverge, σ'') => (Diverge, σ'')
      | (_, σ'') => (Err e, σ'')
      end
  | r => r
  end.

Definition map_alloc (root : PhysFrame) (virt : VirtAddr) (size : MapSize) (flags : Z) : MM unit :=
  let count := frame_count_for_size size in
  frame ← with_frames (λ _, MapOutOfMemory) (fa_alloc count);
  map_or_release root virt frame size flags count.

Definition table_is_empty (w : Z → Z) (table : PhysFrame) : bool :=
  forallb (λ index, negb (is_present (w (table_entry table index)))) (seq 0 ENTRY_COUNT).

Record WalkEntry := mkWalkEntry { we_table : PhysFrame; we_index : nat }.

(** [while level > 0] of [prune_empty_tables]. *)
Fixpoint prune_empty_tables (walk : list (option WalkEntry)) (level : nat) : MM unit :=
  match level with
  | O => mret ()
  | S parent_level =>
      slot ← mexpect (walk !! level);
      child ← mok_or slot NotMapped;
      σ ← mget;
      if negb (table_is_empty (mem σ) (we_table child)) then mret ()
      else
        slot ← mexpect (walk !! parent_level);
        parent ← mok_or slot NotMapped;
        _ ← write_entry (we_table parent) (we_index parent) 0;
        _ ← with_frames FrameError (fa_release (we_table child) 1);
        prune_empty_tables walk parent_level
  end.

(** The levels of [unmap_inner] that remain, [n] of them; [walk] holds the
    entries of the levels above. *)
Fixpoint unmap_walk (n level : nat) (root : PhysFrame) (virt : VirtAddr) (release_frame : bool)
    (table : PhysFrame) (walk : list (option WalkEntry)) : MM UnmapResult :=
  match n with
  | O => mthrow NotMapped
  | S n' =>
      index ← mexpect (index_of virt level);
      entry ← read_entry table index;
      if negb (is_present entry) then mthrow NotMapped
      else
        let walk := <[level := Some (mkWalkEntry table index)]> walk in
        if is_leaf entry level then
          size ← map_size_for_level level;
          _ ← write_entry table index 0;
          _ ← invalidate root virt;
          let frame := entry_frame entry in
          refs ← (if release_frame
                  then with_frames FrameError (fa_release frame (frame_count_for_size size))
                  else mret 1);
          _ ← prune_empty_tables walk level;
          mret (mkUnmapResult frame refs size)
        else unmap_walk n' (S level) root virt release_frame (entry_frame entry) walk
  end.

Definition unmap_inner (root : PhysFrame) (virt : VirtAddr) (release_frame : bool) : MM UnmapResult :=
  unmap_walk (LEVELS `min` MAX_PAGE_TABLE_LEVELS) 0 root virt release_frame root
    (replicate MAX_PAGE_TABLE_LEVELS None).

Definition unmap (root : PhysFrame) (virt : VirtAddr) : MM UnmapResult := unmap_inner root virt true.
Definition unmap_preserve (root : PhysFrame) (virt : VirtAddr) : MM UnmapResult :=
  unmap_inner root virt false.

Fixpoint protect_walk (n level : nat) (root : PhysFrame) (virt : VirtAddr) (flags : Z)
    (table : PhysFrame) : MM unit :=
  match n with
  | O => mthrow NotMapped
  | S n' =>
      index ← mexpect (index_of virt level);
      entry ← read_entry table index;
      if negb (is_present entry) then mthrow NotMapped
      else if is_leaf entry level then
        _ ← write_entry table index (make_leaf (entry_frame entry) level flags);
        invalidate root virt
      else protect_walk n' (S level) root virt flags (entry_frame entry)
  end.

Definition protect (root : PhysFrame) (virt : VirtAddr) (flags : Z) : MM unit :=
  protect_walk LEVELS 0 root virt flags root.
End mapper.

(** [copy_kernel_pml4_half] and [new_user_root] of
    [aether-frame/src/arch/x86_64/mm/mod.rs]. *)
Section user_root.
Context {St : Type} {F : FrameAllocator St}.

Definition copy_kernel_pml4_half (root : PhysFrame) : MM (St := St) unit :=
  mmodify (λ σ, set_mem
    (foldl (λ w index, store w (table_entry root index) (w (table_entry (cr3 σ) index)))
       (mem σ) (seq 256 256)) σ).

Definition new_user_root : MM (St := St) PhysFrame :=
  root ← new_root;
  _ ← copy_kernel_pml4_half root;
  mret root.
End user_root.
