(* ===== verification/MapperProof.v ===== *)
(** * Correctness of the page-table editor

    A hardware page walk ([translate]) is the specification of what the tables
    mean.  The tables below a root form a tree ([space_ok]): no table is
    reached by two index paths, tables own their frames, and mapped frames are
    not tables.  Under this invariant, [map], [unmap] and [protect] of
    [PageTable] change the translation of exactly the page they name. *)

From S2P Require Import Prelude Frame PageTable.

(** ** What the architecture promises *)

Definition frame_ok (f : PhysFrame) : Prop := ∃ s, f = frame_of s ∧ 0 <= s < 2 ^ 40.

Class PageTableArchSpec (A : PageTableArch) : Prop := {
  pa_levels : (1 <= LEVELS <= MAX_PAGE_TABLE_LEVELS)%nat;
  pa_index v l : (l < LEVELS)%nat → ∃ i, index_of v l = Some i ∧ (i < ENTRY_COUNT)%nat;
  pa_addr path : (length path <= LEVELS)%nat → Forall (λ i, (i < ENTRY_COUNT)%nat) path →
    ∃ v, ∀ j i, path !! j = Some i → index_of v j = Some i;
  pa_zero : is_present 0 = false;
  pa_last e l : S l = LEVELS → is_leaf e l = true;
  pa_table f flags l : frame_ok f → (S l < LEVELS)%nat →
    is_present (make_table f flags) = true ∧ is_leaf (make_table f flags) l = false ∧
    entry_frame (make_table f flags) = f;
  pa_leaf f l flags size : frame_ok f → leaf_level size = Some l →
    is_present (make_leaf f l flags) = true ∧ is_leaf (make_leaf f l flags) l = true ∧
    entry_frame (make_leaf f l flags) = f;
  pa_size size : ∃ l, leaf_level size = Some l ∧ (l < LEVELS)%nat ∧
    page_size l = Some (frame_count_for_size size * PAGE_SIZE);
  pa_within f i : frame_ok f → (i < ENTRY_COUNT)%nat →
    addr_u64 (start_address f) <= table_entry f i < addr_u64 (start_address f) + PAGE_SIZE;
  pa_entry f i j : frame_ok f → table_entry f i = table_entry f j → i = j;
}.

Lemma frame_of_inj s s' : frame_of s = frame_of s' → s = s'.
Proof. intros H. injection H. lia. Qed.

(** ** The hardware page walk *)

Section walk.
Context {A : PageTableArch}.

Definition idx (v : VirtAddr) (l : nat) : nat := default 0%nat (index_of v l).
Definition indices (v : VirtAddr) (k : nat) : list nat := idx v <$> seq 0 k.

Fixpoint translate_from (n l : nat) (w : Z → Z) (t : PhysFrame) (v : VirtAddr) : option (nat * Z) :=
  match n with
  | O => None
  | S n' =>
      let e := w (table_entry t (idx v l)) in
      if negb (is_present e) then None
      else if is_leaf e l then Some (l, e)
      else translate_from n' (S l) w (entry_frame e) v
  end.

(** The level and the entry that map the address [v]. *)
Definition translate (w : Z → Z) (root : PhysFrame) (v : VirtAddr) : option (nat * Z) :=
  translate_from LEVELS 0 w root v.

(** The entry [e] of level [l] points to a table. *)
Definition points (e : Z) (l : nat) : bool := is_present e && negb (is_leaf e l).

(** The table reached from [t], at level [l], by a path of indices. *)
Fixpoint tbl_from (w : Z → Z) (l : nat) (t : PhysFrame) (p : list nat) : option PhysFrame :=
  match p with
  | [] => Some t
  | i :: r =>
      let e := w (table_entry t i) in
      if bool_decide (i < ENTRY_COUNT)%nat && points e l then tbl_from w (S l) (entry_frame e) r
      else None
  end.

Definition tbl (w : Z → Z) (root : PhysFrame) (p : list nat) : option PhysFrame := tbl_from w 0 root p.

Definition mapped (w : Z → Z) (root : PhysFrame) (v : VirtAddr) (l : nat) (e : Z) : Prop :=
  (l < LEVELS)%nat ∧ ∃ t, tbl w root (indices v l) = Some t ∧ e = w (table_entry t (idx v l)) ∧
    is_present e = true ∧ is_leaf e l = true.

(** The addresses that share the first [S l] indices of [v]. *)
Definition same_page (l : nat) (v v' : VirtAddr) : Prop := indices v' (S l) = indices v (S l).

#[global] Instance same_page_dec l v v' : Decision (same_page l v v').
Proof. unfold same_page. apply _. Defined.

Lemma tbl_from_app w l t p q :
  tbl_from w l t (p ++ q) = tbl_from w l t p ≫= λ u, tbl_from w (l + length p) u q.
Proof.
  revert l t. induction p as [|i p IH]; intros l t; simpl; [by rewrite Nat.add_0_r|].
  destruct (_ && _); [|done]. rewrite IH. destruct (tbl_from _ _ _ p); simpl; [|done].
  f_equal. lia.
Qed.

Lemma tbl_snoc w root p i u :
  tbl w root (p ++ [i]) = Some u ↔
  ∃ t, tbl w root p = Some t ∧ (i < ENTRY_COUNT)%nat ∧
    points (w (table_entry t i)) (length p) = true ∧ u = entry_frame (w (table_entry t i)).
Proof.
  unfold tbl. rewrite tbl_from_app. destruct (tbl_from w 0 root p) as [t|]; simpl; [|naive_solver].
  destruct (bool_decide _ && _) eqn:Hc.
  - apply andb_true_iff in Hc as [Hi%bool_decide_eq_true Hp]. split; [|naive_solver].
    intros [= <-]. by exists t.
  - apply andb_false_iff in Hc. split; [done|].
    intros (t' & [= <-] & Hi & Hp & _). destruct Hc as [Hc%bool_decide_eq_false|Hc]; [done|congruence].
Qed.

Lemma tbl_prefix w root p q t : tbl w root (p ++ q) = Some t → ∃ u, tbl w root p = Some u.
Proof. unfold tbl. rewrite tbl_from_app. destruct (tbl_from w 0 root p); naive_solver. Qed.

Lemma length_indices v k : length (indices v k) = k.
Proof. unfold indices. by rewrite length_fmap, length_seq. Qed.

Lemma indices_S v k : indices v (S k) = indices v k ++ [idx v k].
Proof. unfold indices. by rewrite seq_S, fmap_app. Qed.

(** [indices v l] is [indices v k] followed by the indices in between. *)
Lemma indices_split v k l : (k <= l)%nat → indices v l = indices v k ++ (idx v <$> seq k (l - k)).
Proof. intros H. unfold indices. replace l with (k + (l - k))%nat at 1 by lia. by rewrite seq_app, fmap_app. Qed.

Context `{!PageTableArchSpec A}.

Lemma idx_ok v l : (l < LEVELS)%nat → index_of v l = Some (idx v l) ∧ (idx v l < ENTRY_COUNT)%nat.
Proof. intros Hl. unfold idx. by destruct (pa_index v l Hl) as (i & -> & Hi). Qed.

(** Every path of indices is the beginning of the indices of some address. *)
Lemma indices_onto path : (length path <= LEVELS)%nat → Forall (λ i, (i < ENTRY_COUNT)%nat) path →
  ∃ v, indices v (length path) = path.
Proof.
  intros Hlen Hf. destruct (pa_addr path Hlen Hf) as [v Hv]. exists v. apply list_eq. intros j.
  unfold indices. rewrite list_lookup_fmap. destruct (decide (j < length path)%nat) as [Hj|Hj].
  - rewrite lookup_seq_lt by done. destruct (lookup_lt_is_Some_2 _ _ Hj) as [i Hi]. rewrite Hi. simpl.
    unfold idx. by rewrite (Hv _ _ Hi).
  - rewrite (lookup_ge_None_2 path), lookup_seq_ge by lia. done.
Qed.

Lemma tbl_valid w root p t : tbl w root p = Some t → Forall (λ i, (i < ENTRY_COUNT)%nat) p.
Proof.
  revert t. induction p as [|i p IH] using rev_ind; intros t; [constructor|].
  intros (u & Hu & Hi & _)%tbl_snoc. apply Forall_app. split; [by eapply IH|]. by repeat constructor.
Qed.

Lemma points_level e l : points e l = true → (S l ≠ LEVELS)%nat.
Proof.
  unfold points. intros Hp Hl. rewrite (pa_last _ _ Hl), andb_false_r in Hp. done.
Qed.

Lemma tbl_length w root p t : tbl w root p = Some t → (length p < LEVELS)%nat.
Proof.
  revert t. pose proof (pa_levels (A := A)).
  induction p as [|i p IH] using rev_ind; intros t; [simpl; lia|].
  intros (u & Hu & _ & Hp%points_level & _)%tbl_snoc. specialize (IH u Hu). rewrite length_app. simpl. lia.
Qed.

(** Below a level that the walk goes through, the entry points to a table. *)
Lemma through_points w root v l k t u :
  (l < k)%nat → tbl w root (indices v l) = Some t → tbl w root (indices v k) = Some u →
  points (w (table_entry t (idx v l))) l = true.
Proof.
  intros Hlt Ht Hu. rewrite (indices_split v (S l) k) in Hu by lia.
  apply tbl_prefix in Hu as [x Hx]. rewrite indices_S in Hx.
  apply tbl_snoc in Hx as (t' & Ht' & _ & Hp & _). rewrite length_indices in Hp. by simplify_eq.
Qed.

Lemma mapped_from w root v l k e t :
  tbl w root (indices v l) = Some t → mapped w root v k e → (l <= k)%nat →
  (k = l ∧ e = w (table_entry t (idx v l)) ∧ is_present e = true ∧ is_leaf e l = true) ∨
  ((l < k)%nat ∧ points (w (table_entry t (idx v l))) l = true).
Proof.
  intros Ht (Hk & u & Hu & -> & Hp & Hl) Hle. destruct (decide (k = l)) as [->|Hne].
  - left. by simplify_eq.
  - right. split; [lia|]. eapply through_points; [|done..]. lia.
Qed.

Lemma translate_from_mapped w root v n : ∀ l t,
  tbl w root (indices v l) = Some t → (n + l = LEVELS)%nat →
  ∀ k e, translate_from n l w t v = Some (k, e) ↔ (l <= k)%nat ∧ mapped w root v k e.
Proof.
  induction n as [|n IH]; intros l t Ht Hn k e; simpl.
  { split; [done|]. intros [Hle (Hk & _)]. lia. }
  destruct (idx_ok v l) as [_ Hi]; [lia|].
  pose proof (λ H, mapped_from w root v l k e t Ht H) as Hm. unfold points in Hm.
  set (e0 := w (table_entry t (idx v l))) in *.
  destruct (is_present e0) eqn:Hp; simpl in *.
  2:{ split; [done|]. intros [Hle H]. destruct (Hm H Hle) as [(-> & -> & Hp' & _)|[_ Hp']]; congruence. }
  destruct (is_leaf e0 l) eqn:Hl; simpl in *.
  - split.
    + intros [= <- <-]. split; [done|]. split; [lia|]. by exists t.
    + intros [Hle H]. destruct (Hm H Hle) as [(-> & -> & _)|[_ ?]]; done.
  - rewrite (IH (S l) (entry_frame e0)).
    + split; intros [Hle H]; (split; [|done]); [lia|].
      destruct (Hm H Hle) as [(-> & -> & _ & ?)|[? _]]; [congruence|lia].
    + rewrite indices_S. apply tbl_snoc. exists t. rewrite length_indices. unfold points.
      fold e0. by rewrite Hp, Hl.
    + lia.
Qed.

Lemma translate_mapped w root v k e : translate w root v = Some (k, e) ↔ mapped w root v k e.
Proof.
  unfold translate. rewrite (translate_from_mapped w root v LEVELS 0 root); [|done|lia].
  split; [by intros [_ ?]|]. intros H. split; [lia|done].
Qed.

Lemma translate_ext w w' root v v' :
  (∀ k e, mapped w root v k e ↔ mapped w' root v' k e) → translate w root v = translate w' root v'.
Proof.
  intros H. apply option_eq. intros [k e]. by rewrite !translate_mapped.
Qed.

Lemma translate_none w root v : translate w root v = None ↔ ∀ k e, ¬ mapped w root v k e.
Proof.
  rewrite eq_None_not_Some. split.
  - intros H k e Hm. apply H. exists (k, e). by apply translate_mapped.
  - intros H [[k e] Hm%translate_mapped]. by apply (H k e).
Qed.

(** ** The subtree below an entry *)

Section under.
Context (w : Z → Z) (root : PhysFrame) (p : list nat) (t : PhysFrame) (i : nat).
Context (Hp : tbl w root p = Some t).
Let e0 := w (table_entry t i).

Lemma under_mapped v k e :
  indices v (S (length p)) = p ++ [i] → mapped w root v k e →
  (k = length p ∧ e = e0 ∧ is_present e0 = true ∧ is_leaf e0 k = true) ∨
  ((length p < k)%nat ∧ points e0 (length p) = true).
Proof.
  intros Hv Hm. rewrite indices_S in Hv. apply app_inj_2 in Hv as [Hv [= Hi]]; [|done].
  assert (length p <= k)%nat as Hle.
  { destruct (decide (length p <= k)%nat); [done|]. destruct Hm as (Hk & u & Hu & -> & _ & Hl).
    assert (points (w (table_entry u (idx v k))) k = true) as Hpt.
    { eapply (through_points w root v k (length p)); [lia|done|]. by rewrite Hv. }
    unfold points in Hpt. rewrite Hl, andb_false_r in Hpt. done. }
  destruct (mapped_from w root v (length p) k e t) as [(-> & -> & H1 & H2)|[H1 H2]]; try done.
  - by rewrite Hv.
  - left. unfold e0. by rewrite <- Hi.
  - right. unfold e0. by rewrite <- Hi.
Qed.

(** The entry does not point to a table. *)
Lemma under_entry v k e :
  points e0 (length p) = false → indices v (S (length p)) = p ++ [i] →
  mapped w root v k e ↔ k = length p ∧ e = e0 ∧ is_present e0 = true ∧ is_leaf e0 (length p) = true.
Proof.
  intros Hnp Hv. split.
  - intros Hm. destruct (under_mapped v k e Hv Hm) as [(-> & ?)|[_ ?]]; [done|congruence].
  - intros (-> & -> & H1 & H2). pose proof (tbl_length _ _ _ _ Hp). split; [done|]. exists t.
    rewrite indices_S in Hv. apply app_inj_2 in Hv as [-> [= ->]]; done.
Qed.

(** The entry points to a table without present entries. *)
Lemma under_empty v k e :
  (i < ENTRY_COUNT)%nat → points e0 (length p) = true →
  (∀ j, (j < ENTRY_COUNT)%nat → is_present (w (table_entry (entry_frame e0) j)) = false) →
  indices v (S (length p)) = p ++ [i] → ¬ mapped w root v k e.
Proof.
  intros Hi Hpt Hempty Hv Hm.
  assert (tbl w root (p ++ [i]) = Some (entry_frame e0)) as Hn.
  { apply tbl_snoc. exists t. done. }
  destruct (under_mapped v k e Hv Hm) as [(-> & -> & H1 & H2)|[Hlt _]].
  { unfold points in Hpt. rewrite H2, andb_false_r in Hpt. done. }
  pose proof (tbl_length _ _ _ _ Hn) as Hlen. rewrite length_app in Hlen. simpl in Hlen.
  rewrite <- Hv in Hn.
  assert (idx v (S (length p)) < ENTRY_COUNT)%nat as Hj by (apply idx_ok; lia).
  specialize (Hempty _ Hj).
  destruct (mapped_from _ _ _ _ _ _ _ Hn Hm) as [(-> & -> & H1 & _)|[_ H1]]; [lia|congruence|].
  unfold points in H1. rewrite Hempty in H1. done.
Qed.
End under.
End walk.

(** ** The tables of an address space *)

Section space.
Context {A : PageTableArch} `{!PageTableArchSpec A}.
Context (usable : Z → Prop) (round : Z → Z).
Context (Husable : ∀ s, usable s → 0 <= s < 2 ^ 40).

(** [m] is the map of the allocated blocks.  A frame that the allocator does
    not manage (a table of the boot loader, device memory) is never handed out. *)
Record space_ok (w : Z → Z) (root : PhysFrame) (m : frame_map) : Prop := {
  sp_inj p q t : tbl w root p = Some t → tbl w root q = Some t → p = q;
  sp_table p t : tbl w root p = Some t →
    ∃ s, t = frame_of s ∧ 0 <= s < 2 ^ 40 ∧ (m !! s = Some (round 1, 1) ∨ ¬ usable s);
  sp_leaf p t i e : tbl w root p = Some t → (i < ENTRY_COUNT)%nat → w (table_entry t i) = e →
    is_present e = true → is_leaf e (length p) = true →
    (∃ size, leaf_level size = Some (length p)) ∧
    ∃ s, entry_frame e = frame_of s ∧ 0 <= s < 2 ^ 40 ∧ (is_Some (m !! s) ∨ ¬ usable s) ∧
      ∀ q, tbl w root q ≠ Some (frame_of s);
}.

Lemma sp_frame_ok w root m p t : space_ok w root m → tbl w root p = Some t → frame_ok t.
Proof. intros Hok Ht. destruct (sp_table _ _ _ Hok p t Ht) as (s & -> & Hs & _). by exists s. Qed.

Lemma entry_inj f i f' i' :
  frame_ok f → frame_ok f' → (i < ENTRY_COUNT)%nat → (i' < ENTRY_COUNT)%nat →
  table_entry f i = table_entry f' i' → f = f' ∧ i = i'.
Proof.
  intros Hf Hf' Hi Hi' He. pose proof (pa_within f i Hf Hi). pose proof (pa_within f' i' Hf' Hi').
  rewrite PAGE_SIZE_eq in *. assert (f = f') as <-.
  { destruct Hf as (s & -> & _), Hf' as (s' & -> & _). simpl in *. f_equal. lia. }
  split; [done|]. by eapply pa_entry.
Qed.

(** Writing the entry [i] of the table at [p]. *)
Section store.
Context (w : Z → Z) (root : PhysFrame) (m : frame_map) (p : list nat) (t : PhysFrame) (i : nat) (e : Z).
Context (Hok : space_ok w root m) (Hp : tbl w root p = Some t) (Hi : (i < ENTRY_COUNT)%nat).
#[local] Abbreviation w' := (store w (table_entry t i) e).

Lemma store_same : w' (table_entry t i) = e.
Proof. unfold store. by rewrite decide_True. Qed.

Lemma store_other q u j :
  tbl w root q = Some u → (j < ENTRY_COUNT)%nat → q ++ [j] ≠ p ++ [i] →
  w' (table_entry u j) = w (table_entry u j).
Proof.
  intros Hq Hj Hne. unfold store. rewrite decide_False; [done|]. intros He.
  apply entry_inj in He as [-> ->]; eauto using sp_frame_ok.
  destruct Hne. f_equal. by eapply (sp_inj _ _ _ Hok).
Qed.

Lemma tbl_store_other q : ¬ (p ++ [i]) `prefix_of` q → tbl w' root q = tbl w root q.
Proof.
  induction q as [|j q IH] using rev_ind; intros Hn; [done|].
  assert (tbl w' root q = tbl w root q) as Hq by (apply IH; intros ?; apply Hn; by apply prefix_app_r).
  apply option_eq. intros u. rewrite !tbl_snoc, Hq.
  assert (∀ x, tbl w root q = Some x → (j < ENTRY_COUNT)%nat → w' (table_entry x j) = w (table_entry x j)) as Hx.
  { intros x Hx Hj. eapply store_other; [done|done|]. intros He. apply Hn. by rewrite He. }
  split; intros (x & H1 & H2 & H3 & H4); exists x; (rewrite Hx in * by done || rewrite <- Hx in * by done); done.
Qed.

Lemma tbl_store_here : tbl w' root p = Some t.
Proof.
  rewrite tbl_store_other; [done|]. intros [k Hk]. apply (f_equal length) in Hk.
  rewrite !length_app in Hk. simpl in Hk. lia.
Qed.

(** Paths through the written entry. *)
Lemma tbl_store_below r : points e (length p) = false → tbl w' root ((p ++ [i]) ++ r) = None.
Proof.
  intros Hnp. destruct (tbl w' root _) as [u|] eqn:Hu; [|done].
  apply tbl_prefix in Hu as [x Hx]. apply tbl_snoc in Hx as (y & Hy & _ & Hpt & _).
  rewrite tbl_store_here in Hy. injection Hy as <-. rewrite store_same in Hpt. congruence.
Qed.

Lemma mapped_store_other v k e' :
  indices v (S (length p)) ≠ p ++ [i] → mapped w' root v k e' ↔ mapped w root v k e'.
Proof.
  intros Hv. unfold mapped.
  assert (∀ l, ¬ (p ++ [i]) `prefix_of` indices v l) as Hn.
  { intros l [r Hr]. apply Hv. assert (S (length p) <= l)%nat as Hl.
    { apply (f_equal length) in Hr. rewrite length_indices, !length_app in Hr. simpl in Hr. lia. }
    rewrite (indices_split v (S (length p)) l) in Hr by done. apply app_inj_1 in Hr as [? _]; [done|].
    rewrite length_indices, length_app. simpl. lia. }
  rewrite tbl_store_other by apply Hn.
  assert (∀ u, (k < LEVELS)%nat → tbl w root (indices v k) = Some u →
    w' (table_entry u (idx v k)) = w (table_entry u (idx v k))) as Hu.
  { intros u Hk Hu. eapply store_other; [done|by apply idx_ok|]. rewrite <- indices_S.
    intros He. apply (Hn (S k)). by rewrite He. }
  split; intros (Hk & u & H1 & H2 & H3); (split; [done|]); exists u; (split; [done|]);
    [rewrite Hu in H2 by done|rewrite Hu by done]; done.
Qed.

(** Writing an absent entry or a leaf keeps the tree. *)
Lemma store_tables q u : points e (length p) = false →
  tbl w' root q = Some u → tbl w root q = Some u ∧ ¬ (p ++ [i]) `prefix_of` q.
Proof.
  intros Hnp Hq. destruct (decide ((p ++ [i]) `prefix_of` q)) as [[r ->]|Hn].
  - by rewrite tbl_store_below in Hq.
  - by rewrite tbl_store_other in Hq.
Qed.

Lemma store_space_ok :
  points e (length p) = false →
  (is_present e = true →
    (∃ size, leaf_level size = Some (length p)) ∧
    ∃ s, entry_frame e = frame_of s ∧ 0 <= s < 2 ^ 40 ∧ (is_Some (m !! s) ∨ ¬ usable s) ∧
      ∀ q, tbl w root q ≠ Some (frame_of s)) →
  space_ok w' root m.
Proof.
  intros Hnp Hleaf. split.
  - intros q r u [Hq _]%store_tables [Hr _]%store_tables; [|done..]. by eapply (sp_inj _ _ _ Hok).
  - intros q u [Hq _]%store_tables; [|done]. by apply (sp_table _ _ _ Hok q).
  - intros q u j e' [Hq Hn]%store_tables Hj; [|done]. destruct (decide (q ++ [j] = p ++ [i])) as [He|He].
    + apply app_inj_2 in He as [-> [= ->]]; [|done]. rewrite Hp in Hq. injection Hq as <-. rewrite store_same. intros <- He _.
      destruct (Hleaf He) as (Hsz & s & Hs & Hb & Hown & Hno). split; [done|]. exists s.
      do 3 (split; [done|]). intros r [Hr _]%store_tables; [|done]. by apply (Hno r).
    + erewrite store_other by done. intros Hj' Hpres Hl.
      destruct (sp_leaf _ _ _ Hok q u j e' Hq Hj Hj' Hpres Hl) as (Hsz & s & Hs & Hb & Hown & Hno).
      split; [done|]. exists s. do 3 (split; [done|]). intros r [Hr _]%store_tables; [|done]. by apply (Hno r).
Qed.
End store.

(** Memory that differs only outside the tables. *)
Section agree.
Context (w w' : Z → Z) (root : PhysFrame) (m : frame_map).
Context (Hag : ∀ q u j, tbl w root q = Some u → (j < ENTRY_COUNT)%nat →
  w' (table_entry u j) = w (table_entry u j)).

Lemma agree_tbl q : tbl w' root q = tbl w root q.
Proof.
  induction q as [|j q IH] using rev_ind; [done|]. apply option_eq. intros u. rewrite !tbl_snoc, IH.
  split; intros (x & H1 & H2 & H3 & H4); exists x; pose proof (Hag _ _ _ H1 H2) as Hx; rewrite Hx in *; done.
Qed.

Lemma agree_translate v : translate w' root v = translate w root v.
Proof.
  apply translate_ext. intros k e. unfold mapped. rewrite agree_tbl.
  split; intros (Hk & u & H1 & H2 & H3); (split; [done|]); exists u;
    rewrite (Hag _ _ _ H1 (proj2 (idx_ok v k Hk))) in *; done.
Qed.

Lemma agree_space_ok : space_ok w root m → space_ok w' root m.
Proof.
  intros Hok. split.
  - intros p q t. rewrite !agree_tbl. apply (sp_inj _ _ _ Hok).
  - intros p t. rewrite agree_tbl. apply (sp_table _ _ _ Hok).
  - intros p t i e. rewrite agree_tbl. intros Hp Hi. rewrite (Hag _ _ _ Hp Hi). intros He H1 H2.
    destruct (sp_leaf _ _ _ Hok p t i e Hp Hi He H1 H2) as (Hsz & s & Hs & Hb & Hown & Hno).
    split; [done|]. exists s. do 3 (split; [done|]). intros q. rewrite agree_tbl. apply Hno.
Qed.
End agree.

Lemma zero_agree w root m n :
  space_ok w root m → frame_ok n → (∀ q, tbl w root q ≠ Some n) →
  ∀ q u j, tbl w root q = Some u → (j < ENTRY_COUNT)%nat →
    zero_words w n (table_entry u j) = w (table_entry u j).
Proof.
  intros Hok Hn Hno q u j Hq Hj. unfold zero_words. rewrite decide_False; [done|]. intros Hin.
  pose proof (sp_frame_ok _ _ _ _ _ Hok Hq) as Hu. pose proof (pa_within u j Hu Hj) as Hw.
  rewrite PAGE_SIZE_eq in *. destruct Hn as (s & -> & _), Hu as (s' & -> & _). simpl in *.
  assert (s' = s) as -> by lia. by apply (Hno q).
Qed.

(** A frame that has just been allocated is neither a table nor mapped. *)
Lemma fresh_not_table w root m s :
  space_ok w root m → m !! s = None → usable s → ∀ q, tbl w root q ≠ Some (frame_of s).
Proof.
  intros Hok Hs Hu q Hq. destruct (sp_table _ _ _ Hok _ _ Hq) as (s' & He & _ & Hown).
  apply frame_of_inj in He as <-. destruct Hown; congruence.
Qed.

(** Linking a fresh table [n] below the absent entry [i] of the table at [p]. *)
Section link.
Context (w : Z → Z) (root : PhysFrame) (m : frame_map) (p : list nat) (t : PhysFrame) (i : nat).
Context (s flags : Z).
Context (Hok : space_ok w root m) (Hp : tbl w root p = Some t) (Hi : (i < ENTRY_COUNT)%nat).
Context (Hs : m !! s = None) (Hus : usable s) (Hlen : (S (length p) < LEVELS)%nat).
Context (Habs : is_present (w (table_entry t i)) = false).
#[local] Abbreviation n := (frame_of s).
#[local] Abbreviation w1 := (zero_words w n).
#[local] Abbreviation w2 := (store w1 (table_entry t i) (make_table n flags)).

Lemma link_n_ok : frame_ok n.
Proof. exists s. split; [done|]. by apply Husable. Qed.

Lemma link_zero : space_ok w1 root m ∧ tbl w1 root p = Some t ∧
  is_present (w1 (table_entry t i)) = false ∧ (∀ q, tbl w1 root q ≠ Some n).
Proof.
  pose proof (fresh_not_table _ _ _ _ Hok Hs Hus) as Hno.
  pose proof (zero_agree w root m n Hok link_n_ok Hno) as Hag.
  split; [by eapply agree_space_ok|]. rewrite (agree_tbl _ _ _ Hag), (Hag _ _ _ Hp Hi).
  split; [done|]. split; [done|]. intros q. rewrite (agree_tbl _ _ _ Hag). apply Hno.
Qed.

Lemma link_entry : points (make_table n flags) (length p) = true ∧ entry_frame (make_table n flags) = n.
Proof.
  destruct (pa_table n flags (length p) link_n_ok Hlen) as (H1 & H2 & H3).
  unfold points. by rewrite H1, H2.
Qed.

Lemma link_below : tbl w2 root (p ++ [i]) = Some n.
Proof.
  destruct link_zero as (Hok1 & Hp1 & _). destruct link_entry as [H1 H2].
  apply tbl_snoc. exists t. rewrite (tbl_store_here _ _ _ _ _ _ _ Hok1 Hp1 Hi), store_same. done.
Qed.

Lemma link_words j : (j < ENTRY_COUNT)%nat → w2 (table_entry n j) = 0.
Proof.
  intros Hj. destruct link_zero as (Hok1 & Hp1 & _ & Hno). unfold store. rewrite decide_False.
  - unfold zero_words. pose proof (pa_within n j link_n_ok Hj). by rewrite decide_True.
  - intros He. apply entry_inj in He as [He _]; [|apply link_n_ok|by eapply sp_frame_ok|done|done].
    apply (Hno p). rewrite Hp1. congruence.
Qed.

Lemma link_tables q u :
  tbl w2 root q = Some u → (tbl w1 root q = Some u ∧ u ≠ n) ∨ (q = p ++ [i] ∧ u = n).
Proof.
  destruct link_zero as (Hok1 & Hp1 & _ & Hno). intros Hq.
  destruct (decide ((p ++ [i]) `prefix_of` q)) as [[r ->]|Hn].
  - right. destruct r as [|j r]; [rewrite app_nil_r in *; split; [done|]; rewrite link_below in Hq; congruence|].
    exfalso. replace (j :: r) with ([j] ++ r) in Hq by done. rewrite app_assoc in Hq.
    apply tbl_prefix in Hq as [x Hx]. apply tbl_snoc in Hx as (y & Hy & Hj & Hpt & _).
    rewrite link_below in Hy. injection Hy as <-. rewrite link_words in Hpt by done.
    unfold points in Hpt. by rewrite pa_zero in Hpt.
  - left. rewrite (tbl_store_other w1 root m p t i _ Hok1 Hp1 Hi q Hn) in Hq. split; [done|].
    intros ->. by apply (Hno q).
Qed.

Lemma link_translate v : translate w2 root v = translate w root v.
Proof.
  destruct link_zero as (Hok1 & Hp1 & Habs1 & Hno).
  pose proof (fresh_not_table _ _ _ _ Hok Hs Hus) as Hno0.
  rewrite <- (agree_translate w w1 root (zero_agree w root m n Hok link_n_ok Hno0) v).
  apply translate_ext. intros k e.
  destruct (decide (indices v (S (length p)) = p ++ [i])) as [Hv|Hv].
  - split; intros Hm; exfalso; revert Hm.
    + destruct link_entry as [H1 H2].
      apply (under_empty w2 root p t i (tbl_store_here _ _ _ _ _ _ _ Hok1 Hp1 Hi)); rewrite ?store_same; try done.
      intros j Hj. by rewrite H2, link_words, pa_zero.
    + rewrite (under_entry w1 root p t i Hp1) by (unfold points; by rewrite ?Habs1 || done).
      intros (_ & _ & ? & _). congruence.
  - by eapply (mapped_store_other w1 root m).
Qed.

Lemma link_space_ok : space_ok w2 root (<[s := (round 1, 1)]> m).
Proof.
  destruct link_zero as (Hok1 & Hp1 & _ & Hno). split.
  - intros q r u [[Hq Hu]|[-> ->]]%link_tables [[Hr Hu']|[-> Hu']]%link_tables; try done.
    by eapply (sp_inj _ _ _ Hok1).
  - intros q u [[Hq Hu]|[-> ->]]%link_tables.
    + destruct (sp_table _ _ _ Hok1 q u Hq) as (s' & -> & Hb & Hown). exists s'. do 2 (split; [done|]).
      rewrite lookup_insert_ne by congruence. done.
    + exists s. split; [done|]. split; [by apply Husable|]. left. by rewrite lookup_insert_eq.
  - intros q u j e [[Hq Hu]|[-> ->]]%link_tables Hj He H1 H2.
    2:{ rewrite link_words in He by done. subst e. by rewrite pa_zero in H1. }
    assert (w1 (table_entry u j) = e) as He1.
    { rewrite <- He. symmetry. eapply (store_other w1 root m p t i); [done..|]. intros Heq.
      apply app_inj_2 in Heq as [-> [= ->]]; [|done]. rewrite Hp1 in Hq. injection Hq as <-.
      rewrite store_same in He. destruct link_entry as [Hpt _]. unfold points in Hpt.
      rewrite He, H2, andb_false_r in Hpt. done. }
    destruct (sp_leaf _ _ _ Hok1 q u j e Hq Hj He1 H1 H2) as (Hsz & s' & Hs' & Hb & Hown & Hno').
    assert (s' ≠ s) as Hne. { intros ->. destruct Hown as [[x Hx]|Hx]; [congruence|done]. }
    split; [done|]. exists s'. do 2 (split; [done|]). rewrite lookup_insert_ne by done. split; [done|].
    intros r [[Hr _]|[_ Heq]]%link_tables; [by apply (Hno' r)|]. by apply frame_of_inj in Heq.
Qed.
End link.
End space.

(** ** The operations *)

Section ops.
Context {A : PageTableArch} `{!PageTableArchSpec A}.
Context {St : Type} `{!FrameAllocator St} {rep : St → frame_map → Prop} {usable : Z → Prop} {round : Z → Z}.
Context `{!FrameAllocatorSpec St rep usable round}.
Context (Husable : ∀ s, usable s → 0 <= s < 2 ^ 40).
Implicit Types (σ : machine St) (m : frame_map) (v : VirtAddr).

Lemma wp_with_frames {X} conv (op : M St FrameAllocError X) σ Q Qe :
  wp_res op (frames σ) (λ x st, Q x (set_frames st σ)) (λ e st, Qe (conv e) (set_frames st σ)) →
  wp_res (with_frames conv op) σ Q Qe.
Proof. unfold wp_res, wp, with_frames. by destruct (op (frames σ)) as [[]]. Qed.

(** Symbolic execution of the memory accesses. *)
Local Ltac mm_run :=
  unfold read_entry, write_entry, zero_page; repeat wp_step; cbv beta.

(** What every operation that only adds tables preserves: allocated blocks,
    the active root, and all memory but the tables of the space and the frames
    it has just allocated. *)
Record grew (root : PhysFrame) (σ : machine St) (m : frame_map) (σ' : machine St) (m' : frame_map) : Prop := {
  gr_rep : rep (frames σ') m';
  gr_sub : m ⊆ m';
  gr_cr3 : cr3 σ' = cr3 σ;
  gr_tables q t : tbl (mem σ') root q = Some t →
    (∃ q', tbl (mem σ) root q' = Some t) ∨ (∃ s, t = frame_of s ∧ m !! s = None ∧ is_Some (m' !! s));
  gr_local a : mem σ' a = mem σ a ∨
    (∃ q t i, tbl (mem σ) root q = Some t ∧ (i < ENTRY_COUNT)%nat ∧ a = table_entry t i) ∨
    (∃ s, m !! s = None ∧ is_Some (m' !! s) ∧ s * 4096 <= a < s * 4096 + 4096);
  gr_mono q t : tbl (mem σ) root q = Some t → tbl (mem σ') root q = Some t;
  gr_new s : m !! s = None → is_Some (m' !! s) → ∃ q, tbl (mem σ') root q = Some (frame_of s);
}.

Lemma grew_refl root σ m : rep (frames σ) m → grew root σ m σ m.
Proof. intros. split; eauto. by intros s -> [? ?]. Qed.

Lemma grew_frames root σ m st : rep st m → grew root σ m (set_frames st σ) m.
Proof. intros. split; simpl; eauto. by intros s -> [? ?]. Qed.

Lemma grew_trans root σ m σ1 m1 σ2 m2 :
  grew root σ m σ1 m1 → space_ok usable round (mem σ1) root m1 →
  grew root σ1 m1 σ2 m2 → grew root σ m σ2 m2.
Proof.
  intros [_ Hs1 Hc1 Ht1 Hl1 Hm1 Hn1] Hok1 [Hr2 Hs2 Hc2 Ht2 Hl2 Hm2 Hn2].
  assert (∀ s, m1 !! s = None → m !! s = None) as Hnone.
  { intros s Hs. eapply lookup_weaken_None; eauto. }
  assert (∀ s, is_Some (m1 !! s) → is_Some (m2 !! s)) as Hsome.
  { intros s [x Hx]. exists x. eapply lookup_weaken; eauto. }
  split; [done|by etrans|congruence|..].
  - intros q t [[q' Hq']|(s & -> & Hs & Hs')]%Ht2; [|right; eauto].
    destruct (Ht1 _ _ Hq') as [?|(s & -> & ? & ?)]; [by left|right; eauto].
  - intros a. destruct (Hl2 a) as [->|[(q & t & i & Hq & Hi & ->)|(s & H1 & H2 & H3)]].
    + destruct (Hl1 a) as [?|[?|(s & ? & ? & ?)]]; eauto 10.
    + destruct (Ht1 _ _ Hq) as [[q' Hq']|(s & -> & ? & ?)]; [eauto 10|].
      pose proof (pa_within (frame_of s) i (sp_frame_ok _ _ _ _ _ _ _ Hok1 Hq) Hi) as Hw.
      rewrite PAGE_SIZE_eq in Hw. simpl in Hw. eauto 10.
    + eauto 10.
  - auto.
  - intros s Hs Hs2'. destruct (m1 !! s) eqn:Hs1'; [|by apply Hn2].
    destruct (Hn1 s Hs) as [q Hq]; [eauto|]. exists q. auto.
Qed.

(** Linking one fresh table. *)
Lemma grew_link root σ m p t i s flags st :
  space_ok usable round (mem σ) root m → tbl (mem σ) root p = Some t → (i < ENTRY_COUNT)%nat →
  m !! s = None → usable s → (S (length p) < LEVELS)%nat →
  is_present (mem σ (table_entry t i)) = false → rep st (<[s := (round 1, 1)]> m) →
  grew root σ m
    (mkMachine (store (zero_words (mem σ) (frame_of s)) (table_entry t i) (make_table (frame_of s) flags))
       st (cr3 σ) (flushes σ)) (<[s := (round 1, 1)]> m).
Proof.
  intros Hok Hp Hi Hs Hus Hlen Habs Hrep. split; simpl; [done|by apply insert_subseteq|done|..].
  - intros q u Hq.
    destruct (link_tables usable round Husable _ _ _ _ _ _ _ _ Hok Hp Hi Hs Hus Hlen Habs q u Hq)
      as [[Hq1 _]|[_ ->]].
    + left. exists q. rewrite <- Hq1. symmetry. apply agree_tbl. eapply zero_agree; [done|by eapply link_n_ok|].
      by eapply fresh_not_table.
    + right. exists s. rewrite lookup_insert_eq. eauto.
  - intros a. unfold store. case_decide as Ha; [right; left; by exists p, t, i|].
    unfold zero_words. case_decide as Hz; [|by left]. right. right. exists s.
    rewrite lookup_insert_eq. rewrite PAGE_SIZE_eq in Hz. simpl in Hz. eauto.
  - intros q u Hq.
    destruct (link_zero usable round Husable _ _ _ _ _ _ _ Hok Hp Hi Hs Hus Habs) as (Hok1 & Hp1 & Habs1 & _).
    pose proof (zero_agree _ _ _ _ _ _ Hok (link_n_ok usable Husable s Hus)
      (fresh_not_table _ _ _ _ _ _ Hok Hs Hus)) as Hag.
    rewrite (tbl_store_other usable round _ root m _ _ _ _ Hok1 Hp1 Hi), (agree_tbl _ _ _ Hag); [done|].
    intros [r ->]. apply tbl_prefix in Hq as [x Hx]. apply tbl_snoc in Hx as (y & Hy & _ & Hpt & _).
    simplify_eq. unfold points in Hpt. by rewrite Habs in Hpt.
  - intros s' Hs' Hs''. destruct (decide (s' = s)) as [->|Hne].
    + exists (p ++ [i]). by eapply (link_below usable round Husable).
    + rewrite lookup_insert_ne in Hs'' by done. rewrite Hs' in Hs''. by destruct Hs''.
Qed.

Definition already (σ : machine St) (root : PhysFrame) (virt : VirtAddr) (l : nat) : Prop :=
  ∃ k e, translate (mem σ) root virt = Some (k, e) ∧ (k < l)%nat.

Lemma map_walk_spec root virt flags n : ∀ level table σ m,
  rep (frames σ) m → space_ok usable round (mem σ) root m →
  tbl (mem σ) root (indices virt level) = Some table → (n + level < LEVELS)%nat →
  wp_res (map_walk n level virt flags table) σ
    (λ t' σ', ∃ m', grew root σ m σ' m' ∧ space_ok usable round (mem σ') root m' ∧
       (∀ v, translate (mem σ') root v = translate (mem σ) root v) ∧ flushes σ' = flushes σ ∧
       tbl (mem σ') root (indices virt (n + level)) = Some t')
    (λ e σ', ∃ m', grew root σ m σ' m' ∧ space_ok usable round (mem σ') root m' ∧
       (∀ v, translate (mem σ') root v = translate (mem σ) root v) ∧ flushes σ' = flushes σ ∧
       ((e = AlreadyMapped ∧ already σ root virt (n + level)) ∨ ∃ fe, e = FrameError fe)).
Proof.
  induction n as [|n IH]; intros level table σ m Hrep Hok Ht Hn; simpl.
  { wp_run. exists m. split; [by apply grew_refl|done]. }
  destruct (idx_ok virt level) as [Hidx Hi]; [lia|]. rewrite Hidx. mm_run.
  set (e := mem σ (table_entry table (idx virt level))) in *.
  assert (S (length (indices virt level)) < LEVELS)%nat as Hlen by (rewrite length_indices; lia).
  destruct (is_present e) eqn:Hpres; simpl.
  2:{ apply wp_res_bind, wp_with_frames.
      eapply wp_res_mono; [apply (fas_alloc (frames σ) m 1 Hrep)|..]; cbv beta.
      2:{ intros fe st Hst. exists m. split; [by apply grew_frames|]. split; [done|]. eauto. }
      intros f st (s & -> & _ & Hs & Hst). mm_run.
      assert (usable s) as Hus.
      { eapply (fas_frames st (<[s := (round 1, 1)]> m) s (round 1) 1 s); [done|by rewrite lookup_insert_eq|].
        pose proof (fas_round 1). lia. }
      pose proof (grew_link root σ m _ _ _ s flags st Hok Ht Hi Hs Hus Hlen Hpres Hst) as Hg.
      pose proof (link_space_ok usable round Husable (mem σ) root m _ _ _ s flags Hok Ht Hi Hs Hus Hlen Hpres) as Hok2.
      eapply wp_res_mono; [apply (IH (S level) (frame_of s) _ (<[s := (round 1, 1)]> m))|..]; simpl.
      - done.
      - exact Hok2.
      - rewrite indices_S. by eapply (link_below usable round Husable).
      - lia.
      - intros t' σ' (m' & Hg' & Hok' & Htr & Hfl & Htb). exists m'.
        split; [by eapply grew_trans|]. split; [done|]. split.
        { intros v. rewrite Htr. by eapply (link_translate usable round Husable). }
        split; [done|]. by rewrite Nat.add_succ_r in Htb.
      - intros er σ' (m' & Hg' & Hok' & Htr & Hfl & He). exists m'.
        split; [by eapply grew_trans|]. split; [done|]. split.
        { intros v. rewrite Htr. by eapply (link_translate usable round Husable). }
        split; [done|]. destruct He as [[-> (k & x & Hk & Hlt)]|?]; [|by right]. left. split; [done|].
        exists k, x. split; [|lia]. rewrite <- Hk. symmetry. by eapply (link_translate usable round Husable). }
  destruct (is_leaf e level) eqn:Hleaf.
  - wp_run. exists m. split; [by apply grew_refl|]. split; [done|]. do 2 (split; [done|]). left. split; [done|].
    exists level, e. split; [|lia]. apply translate_mapped. split; [lia|]. by exists table.
  - eapply wp_res_mono; [apply (IH (S level) (entry_frame e) σ m Hrep Hok)|..].
    + rewrite indices_S. apply tbl_snoc. exists table. rewrite length_indices. unfold points.
      fold e. by rewrite Hpres, Hleaf.
    + lia.
    + intros t' σ'. by rewrite Nat.add_succ_r.
    + intros er σ'. by rewrite Nat.add_succ_r.
Qed.

(** ** Writing one entry *)

Section edit.
Context (σ : machine St) (root : PhysFrame) (m : frame_map) (virt : VirtAddr) (l : nat) (t : PhysFrame) (e : Z).
Context (Hrep : rep (frames σ) m) (Hok : space_ok usable round (mem σ) root m).
Context (Hl : (l < LEVELS)%nat) (Ht : tbl (mem σ) root (indices virt l) = Some t).
Context (He : points e l = false).
#[local] Abbreviation i := (idx virt l).
#[local] Abbreviation σ' := (set_mem (store (mem σ) (table_entry t i) e) σ).

Lemma edit_i : (i < ENTRY_COUNT)%nat.
Proof. by apply idx_ok. Qed.

Lemma edit_grew : points (mem σ (table_entry t i)) l = false → grew root σ m σ' m.
Proof.
  intros Hold. split; simpl; [done|done|done|..].
  - intros q u Hq. left. exists q.
    destruct (store_tables usable round (mem σ) root m _ _ _ e Hok Ht edit_i q u) as [? _]; try done.
    by rewrite length_indices.
  - intros a. unfold store. case_decide; [right; left|by left]. exists (indices virt l), t, i.
    auto using edit_i.
  - intros q u Hq. rewrite (tbl_store_other usable round _ root m _ _ _ _ Hok Ht edit_i); [done|].
    intros [r ->]. apply tbl_prefix in Hq as [x Hx]. apply tbl_snoc in Hx as (y & Hy & _ & Hpt & _).
    rewrite Ht in Hy. injection Hy as <-. rewrite length_indices in Hpt. congruence.
  - by intros s -> [? ?].
Qed.

Lemma same_page_under v : same_page l virt v ↔ indices v (S (length (indices virt l))) = indices virt l ++ [i].
Proof. rewrite length_indices, <- indices_S. done. Qed.

(** The page of [virt] is translated by the new entry, other addresses as
    before. *)
Lemma edit_translate v :
  translate (mem σ') root v =
  if decide (same_page l virt v)
  then (if is_present e then Some (l, e) else None)
  else translate (mem σ) root v.
Proof.
  simpl. case_decide as Hv.
  - apply same_page_under in Hv.
    pose proof (tbl_store_here usable round (mem σ) root m _ _ _ e Hok Ht edit_i) as Hhere.
    assert (∀ k x, mapped (mem σ') root v k x ↔ k = l ∧ x = e ∧ is_present e = true ∧ is_leaf e l = true) as Hm.
    { intros k x. simpl. rewrite (under_entry _ root _ t i Hhere); rewrite ?store_same, ?length_indices; try done.
      by rewrite length_indices in Hv. }
    destruct (is_present e) eqn:Hp.
    + apply translate_mapped, Hm. unfold points in He. rewrite Hp in He. simpl in He.
      apply negb_false_iff in He. done.
    + apply translate_none. intros k x (_ & _ & ? & _)%Hm. done.
  - apply translate_ext. intros k x. rewrite same_page_under in Hv.
    by apply (mapped_store_other usable round (mem σ) root m _ _ _ e Hok Ht edit_i).
Qed.

Lemma edit_space_ok :
  (is_present e = true →
    (∃ size, leaf_level size = Some l) ∧
    ∃ s, entry_frame e = frame_of s ∧ 0 <= s < 2 ^ 40 ∧ (is_Some (m !! s) ∨ ¬ usable s) ∧
      ∀ q, tbl (mem σ) root q ≠ Some (frame_of s)) →
  space_ok usable round (mem σ') root m.
Proof.
  intros Hleaf. eapply store_space_ok; [done|done|apply edit_i|..]; by rewrite length_indices.
Qed.
End edit.

(** The frame [frame_of s] may be mapped. *)
Definition mappable (w : Z → Z) (root : PhysFrame) (m : frame_map) (s : Z) : Prop :=
  0 <= s < 2 ^ 40 ∧ (is_Some (m !! s) ∨ ¬ usable s) ∧ ∀ q, tbl w root q ≠ Some (frame_of s).

Lemma mappable_grew root σ m σ' m' s :
  grew root σ m σ' m' → mappable (mem σ) root m s → mappable (mem σ') root m' s.
Proof.
  intros Hg (Hb & Hown & Hno). split; [done|]. split.
  - destruct Hown as [[x Hx]|?]; [|by right]. left. exists x. eapply lookup_weaken; [done|]. apply Hg.
  - intros q Hq. destruct (gr_tables _ _ _ _ _ Hg q _ Hq) as [[q' Hq']|(s' & Heq & Hs & Hs')].
    + by apply (Hno q').
    + apply frame_of_inj in Heq as <-. destruct Hown as [[x Hx]|Hnu]; [congruence|].
      apply Hnu. destruct Hs' as [[len rc] Hs']. pose proof (gr_rep _ _ _ _ _ Hg) as Hrep.
      eapply (fas_frames (frames σ') m' s len rc s); [done..|].
      pose proof (fas_live (frames σ') m' s len rc Hrep Hs'). lia.
Qed.

Definition flushed (root : PhysFrame) (virt : VirtAddr) (σ σ' : machine St) : Prop :=
  flushes σ' = flushes σ ++ (if decide (root = cr3 σ) then [FlushPage virt] else []).

Lemma invalidate_spec root virt σ (Q : unit → machine St → Prop) (Qe : MappingError → machine St → Prop) :
  (∀ σ', mem σ' = mem σ → frames σ' = frames σ → cr3 σ' = cr3 σ → flushed root virt σ σ' → Q () σ') →
  wp_res (invalidate root virt) σ Q Qe.
Proof.
  intros HQ. unfold invalidate. apply wp_res_modify, HQ; unfold is_active_root, flushed; simpl.
  all: repeat case_decide; simpl; try done. by rewrite app_nil_r.
Qed.

Lemma grew_ext root σ m σ' m' σ'' :
  grew root σ m σ' m' → mem σ'' = mem σ' → frames σ'' = frames σ' → cr3 σ'' = cr3 σ' →
  grew root σ m σ'' m'.
Proof. intros [] Hm Hf Hc. split; rewrite ?Hm, ?Hf, ?Hc; done. Qed.

Lemma map_spec root virt s size flags σ m :
  rep (frames σ) m → space_ok usable round (mem σ) root m → mappable (mem σ) root m s →
  ∃ l, leaf_level size = Some l ∧
  wp_res (map root virt (frame_of s) size flags) σ
    (λ _ σ', ∃ m', grew root σ m σ' m' ∧ space_ok usable round (mem σ') root m' ∧
       (∀ v, translate (mem σ') root v =
          if decide (same_page l virt v) then Some (l, make_leaf (frame_of s) l flags)
          else translate (mem σ) root v) ∧
       (∀ v, same_page l virt v → translate (mem σ) root v = None) ∧
       flushed root virt σ σ')
    (λ e σ', ∃ m', grew root σ m σ' m' ∧ space_ok usable round (mem σ') root m' ∧
       (∀ v, translate (mem σ') root v = translate (mem σ) root v) ∧ flushes σ' = flushes σ ∧
       match e with
       | InvalidAddress => σ' = σ ∧
           (virt_is_aligned virt (frame_count_for_size size * PAGE_SIZE) = false ∨
            is_aligned (start_address (frame_of s)) (frame_count_for_size size * PAGE_SIZE) = false)
       | AlreadyMapped => already σ root virt (S l) ∨ ∃ t, tbl (mem σ') root (indices virt (S l)) = Some t
       | FrameError _ => True
       | _ => False
       end).
Proof.
  intros Hrep Hok Hs. destruct (pa_size size) as (l & Hl & Hlt & Hsz). exists l. split; [done|].
  unfold map. rewrite Hl. simpl. wp_run. rewrite Hsz. wp_run.
  destruct (negb _ || negb _) eqn:Hal.
  { wp_run. exists m. split; [by apply grew_refl|]. do 3 (split; [done|]). split; [done|].
    by rewrite orb_true_iff, !negb_true_iff in Hal. }
  wp_run. eapply wp_res_mono; [apply (map_walk_spec root virt flags l 0 root σ m Hrep Hok); [done|lia]|..].
  2:{ intros e σ' (m' & Hg & Hok' & Htr & Hfl & He). rewrite Nat.add_0_r in He.
      exists m'. do 4 (split; [done|]). destruct He as [[-> (k & x & Hk & ?)]|[fe ->]]; [|done].
      left. exists k, x. split; [done|lia]. }
  intros t σ' (m' & Hg & Hok' & Htr & Hfl & Ht). rewrite Nat.add_0_r in Ht. cbv beta.
  destruct (idx_ok virt l Hlt) as [Hidx Hi]. rewrite Hidx. mm_run.
  pose proof (gr_rep _ _ _ _ _ Hg) as Hrep'.
  set (e := mem σ' (table_entry t (idx virt l))) in *. destruct (is_present e) eqn:Hp.
  { wp_run. exists m'. do 4 (split; [done|]). destruct (is_leaf e l) eqn:Hlf.
    - left. exists l, e. split; [|lia]. rewrite <- Htr. apply translate_mapped. split; [done|]. by exists t.
    - right. exists (entry_frame e). rewrite indices_S. apply tbl_snoc. exists t. rewrite length_indices.
      unfold points. fold e. by rewrite Hp, Hlf. }
  pose proof (mappable_grew _ _ _ _ _ s Hg Hs) as (Hb & Hown & Hno).
  destruct (pa_leaf (frame_of s) l flags size) as (L1 & L2 & L3); [by exists s|done|].
  assert (points (make_leaf (frame_of s) l flags) l = false) as Hpt by (unfold points; by rewrite L2, andb_false_r).
  wp_run. apply invalidate_spec. intros σ2 Hm2 Hf2 Hc2 Hfl2.
  assert (points e l = false) as Hold by (unfold points; by rewrite Hp).
  pose proof (edit_grew σ' root m' virt l t _ Hrep' Hok' Hlt Ht Hpt Hold) as Hg2.
  exists m'. split; [eapply grew_trans; [exact Hg|done|]; by eapply grew_ext|].
  rewrite Hm2. split; [|split; [|split]].
  - eapply (edit_space_ok σ' root m' virt l t); eauto 10. 
  - intros v. rewrite (edit_translate σ' root m' virt l t) by done. rewrite L1, Htr. done.
  - intros v Hv. rewrite <- Htr. apply translate_none. intros k x Hm.
    apply (under_entry (mem σ') root _ t (idx virt l) Ht) in Hm as (_ & _ & Hpe & _).
    + unfold e in Hp. congruence.
    + unfold points. fold e. by rewrite Hp.
    + by apply same_page_under.
  - unfold flushed in *. simpl in Hfl2. rewrite Hfl2, Hfl. by rewrite (gr_cr3 _ _ _ _ _ Hg).
Qed.

(** ** Changing the protection of a page *)

Lemma protect_walk_spec root virt flags n : ∀ level table σ m,
  rep (frames σ) m → space_ok usable round (mem σ) root m →
  tbl (mem σ) root (indices virt level) = Some table → (n + level = LEVELS)%nat →
  wp_res (protect_walk n level root virt flags table) σ
    (λ _ σ', ∃ l e, translate (mem σ) root virt = Some (l, e) ∧
       grew root σ m σ' m ∧ space_ok usable round (mem σ') root m ∧
       (∀ v, translate (mem σ') root v =
          if decide (same_page l virt v) then Some (l, make_leaf (entry_frame e) l flags)
          else translate (mem σ) root v) ∧
       flushed root virt σ σ')
    (λ e σ', e = NotMapped ∧ σ' = σ ∧ translate (mem σ) root virt = None).
Proof.
  induction n as [|n IH]; intros level table σ m Hrep Hok Ht Hn; simpl.
  { apply tbl_length in Ht. rewrite length_indices in Ht. lia. }
  destruct (idx_ok virt level) as [Hidx Hi]; [lia|]. rewrite Hidx. mm_run.
  pose proof (under_entry (mem σ) root _ _ (idx virt level) Ht virt) as Hun.
  rewrite length_indices, <- indices_S in Hun.
  set (e := mem σ (table_entry table (idx virt level))) in *.
  destruct (is_present e) eqn:Hp; simpl.
  2:{ wp_run. do 2 (split; [done|]). apply translate_none. intros k x Hm.
      apply Hun in Hm as (_ & _ & ? & _); [congruence| |done]. unfold points. by rewrite Hp. }
  destruct (is_leaf e level) eqn:Hlf.
  - assert (translate (mem σ) root virt = Some (level, e)) as Htr.
    { apply translate_mapped. split; [lia|]. by exists table. }
    destruct (sp_leaf _ _ _ _ _ Hok _ _ _ e Ht Hi eq_refl Hp) as ([size Hsz] & s & Hs & Hb & Hown & Hno);
      [by rewrite length_indices|]. rewrite length_indices in Hsz.
    destruct (pa_leaf (entry_frame e) level flags size) as (L1 & L2 & L3); [rewrite Hs; by exists s|done|].
    assert (points (make_leaf (entry_frame e) level flags) level = false) as Hpt
      by (unfold points; by rewrite L2, andb_false_r).
    wp_run. apply invalidate_spec. intros σ2 Hm2 Hf2 Hc2 Hfl2.
    assert (level < LEVELS)%nat as Hlt by lia.
    assert (points e level = false) as Hold by (unfold points; by rewrite Hlf, andb_false_r).
    pose proof (edit_grew σ root m virt level table _ Hrep Hok Hlt Ht Hpt Hold) as Hg.
    exists level, e. split; [done|]. split; [by eapply grew_ext|].
    rewrite Hm2. split; [|split; [|done]].
    + eapply (edit_space_ok σ root m virt level table); [done..|]. intros _. split; [by exists size|].
      exists s. rewrite L3. done.
    + intros v. rewrite (edit_translate σ root m virt level table) by done. by rewrite L1.
  - apply (IH (S level) (entry_frame e) σ m); [done|done| |lia].
    rewrite indices_S. apply tbl_snoc. exists table. rewrite length_indices. unfold points.
    fold e. by rewrite Hp, Hlf.
Qed.

(** ** Releasing frames *)

(** The entry [j] of the table at [q] maps the frame [frame_of s]. *)
Definition maps_frame (w : Z → Z) (root : PhysFrame) (s : Z) (q : list nat) (j : nat) : Prop :=
  ∃ t, tbl w root q = Some t ∧ (j < ENTRY_COUNT)%nat ∧
    let e := w (table_entry t j) in
    is_present e = true ∧ is_leaf e (length q) = true ∧ entry_frame e = frame_of s.

Lemma unref_space_ok w root m s len rc :
  space_ok usable round w root m → m !! s = Some (len, rc) →
  (∀ q, tbl w root q ≠ Some (frame_of s)) →
  (rc = 1 → ∀ q j, ¬ maps_frame w root s q j) →
  space_ok usable round w root (unref m s len rc).
Proof.
  intros Hok Hs Hno Hsole.
  assert (∀ s', s' ≠ s → unref m s len rc !! s' = m !! s') as Hne.
  { intros s' Hs'. unfold unref. case_decide; [by rewrite lookup_delete_ne|by rewrite lookup_insert_ne]. }
  split; [apply Hok|..].
  - intros p t Hp. destruct (sp_table _ _ _ _ _ Hok p t Hp) as (s' & -> & Hb & Hown).
    exists s'. do 2 (split; [done|]). rewrite Hne; [done|]. intros ->. by apply (Hno p).
  - intros p t i e Hp Hi He H1 H2.
    destruct (sp_leaf _ _ _ _ _ Hok p t i e Hp Hi He H1 H2) as (Hsz & s' & Hs' & Hb & Hown & Hno').
    split; [done|]. exists s'. do 2 (split; [done|]). split; [|done].
    destruct (decide (s' = s)) as [->|Hd]; [|by rewrite Hne]. left. unfold unref. case_decide as Hrc.
    + exfalso. apply (Hsole Hrc p i). exists t. rewrite He. done.
    + rewrite lookup_insert_eq. eauto.
Qed.

(** A frame is mapped by an entry when it is by an address. *)
Lemma maps_frame_translate w root s q j :
  maps_frame w root s q j →
  ∃ v e, translate w root v = Some (length q, e) ∧ entry_frame e = frame_of s ∧ indices v (S (length q)) = q ++ [j].
Proof.
  intros (t & Ht & Hj & Hp & Hl & Hf). pose proof (tbl_length _ _ _ _ Ht) as Hlen.
  destruct (indices_onto (q ++ [j])) as [v Hv].
  { rewrite length_app. simpl. lia. }
  { apply Forall_app. split; [by eapply tbl_valid|]. by repeat constructor. }
  rewrite length_app in Hv. simpl in Hv. rewrite Nat.add_1_r in Hv.
  exists v. eexists. split; [|split; [exact Hf|done]].
  rewrite indices_S in Hv. apply app_inj_2 in Hv as [Hq [= Hi]]; [|done].
  apply translate_mapped. split; [done|]. exists t. rewrite Hq, Hi. done.
Qed.

Lemma translate_maps_frame w root s v l e :
  translate w root v = Some (l, e) → entry_frame e = frame_of s → maps_frame w root s (indices v l) (idx v l).
Proof.
  intros (Hl & t & Ht & -> & Hp & Hlf)%translate_mapped Hf. exists t. split; [done|].
  split; [by apply idx_ok|]. rewrite length_indices. done.
Qed.

(** What pruning keeps. *)
Record pruned (root : PhysFrame) (σ : machine St) (m : frame_map) (σ' : machine St) (m' : frame_map) : Prop := {
  pr_rep : rep (frames σ') m';
  pr_ok : space_ok usable round (mem σ') root m';
  pr_translate v : translate (mem σ') root v = translate (mem σ) root v;
  pr_env : cr3 σ' = cr3 σ ∧ flushes σ' = flushes σ;
  pr_tables q t : tbl (mem σ') root q = Some t → tbl (mem σ) root q = Some t;
  pr_frames s : m' !! s = m !! s ∨
    (m' !! s = None ∧ ∃ q, tbl (mem σ) root q = Some (frame_of s) ∧ tbl (mem σ') root q = None);
  pr_local a : mem σ' a = mem σ a ∨
    ∃ q t i, tbl (mem σ) root q = Some t ∧ (i < ENTRY_COUNT)%nat ∧ a = table_entry t i;
}.

Lemma pruned_refl root σ m :
  rep (frames σ) m → space_ok usable round (mem σ) root m → pruned root σ m σ m.
Proof. intros. split; auto. Qed.

Lemma pruned_trans root σ m σ1 m1 σ2 m2 :
  pruned root σ m σ1 m1 → pruned root σ1 m1 σ2 m2 → pruned root σ m σ2 m2.
Proof.
  intros [_ _ H1 [H2 H3] H4 H5 H6] [K0 K1 K2 [K3 K4] K5 K6 K7]. split; try done.
  - intros v. by rewrite K2, H1.
  - split; congruence.
  - intros q t Hq. by apply H4, K5.
  - intros s. destruct (K6 s) as [->|[Hs (q & Hq & Hq')]].
    + destruct (H5 s) as [->|[Hs (q & Hq & Hq')]]; [by left|]. right. split; [done|]. exists q. split; [done|].
      destruct (tbl (mem σ2) root q) as [u|] eqn:Hu; [|done]. apply K5 in Hu. congruence.
    + right. split; [done|]. exists q. split; [by apply H4|done].
  - intros a. destruct (K7 a) as [->|(q & t & i & Hq & Hi & ->)]; [apply H6|].
    right. exists q, t, i. split; [by apply H4|done].
Qed.

Lemma table_is_empty_spec w t :
  table_is_empty w t = true ↔ ∀ j, (j < ENTRY_COUNT)%nat → is_present (w (table_entry t j)) = false.
Proof.
  unfold table_is_empty. rewrite forallb_forall. split.
  - intros H j Hj. apply negb_true_iff, H. apply in_seq. lia.
  - intros H j Hj%in_seq. apply negb_true_iff, H. lia.
Qed.

(** Unlinking the empty table [c] below the table [t]. *)
Section unlink.
Context (σ : machine St) (root : PhysFrame) (m : frame_map) (virt : VirtAddr) (l : nat) (t c : PhysFrame).
Context (Hrep : rep (frames σ) m) (Hok : space_ok usable round (mem σ) root m).
Context (Ht : tbl (mem σ) root (indices virt l) = Some t).
Context (Hc : tbl (mem σ) root (indices virt (S l)) = Some c).
Context (Hempty : table_is_empty (mem σ) c = true).
#[local] Abbreviation i := (idx virt l).
#[local] Abbreviation w1 := (store (mem σ) (table_entry t i) 0).

Lemma unlink_level : (l < LEVELS)%nat.
Proof. apply tbl_length in Ht. by rewrite length_indices in Ht. Qed.

Lemma unlink_zero : points 0 l = false.
Proof. unfold points. by rewrite pa_zero. Qed.

Lemma unlink_entry : points (mem σ (table_entry t i)) l = true ∧ entry_frame (mem σ (table_entry t i)) = c.
Proof.
  pose proof Hc as Hc'. rewrite indices_S in Hc'. apply tbl_snoc in Hc' as (t' & Ht' & _ & Hp & ->).
  rewrite length_indices in Hp. by simplify_eq.
Qed.

Lemma unlink_tables q u : tbl w1 root q = Some u →
  tbl (mem σ) root q = Some u ∧ ¬ indices virt (S l) `prefix_of` q.
Proof.
  rewrite indices_S. intros Hq. eapply store_tables; [exact Hok|done|by apply idx_ok, unlink_level| |done].
  rewrite length_indices. apply unlink_zero.
Qed.

Lemma unlink_gone q : tbl w1 root q ≠ Some c.
Proof.
  intros [Hq Hn]%unlink_tables. apply Hn. by rewrite (sp_inj _ _ _ _ _ Hok _ _ _ Hq Hc).
Qed.

Lemma unlink_unmapped s q j : c = frame_of s → ¬ maps_frame w1 root s q j.
Proof.
  intros Hs (u & [Hq Hn]%unlink_tables & Hj & Hpres & Hlf & Hfr).
  assert (q ++ [j] ≠ indices virt (S l)) as Hne. { intros He. apply Hn. rewrite <- He.
    exfalso. rewrite indices_S in He. apply app_inj_2 in He as [-> [= ->]]; [|done].
    simplify_eq. rewrite store_same, pa_zero in Hpres. done. }
  rewrite indices_S in Hne.
  rewrite (store_other usable round (mem σ) root m _ _ _ 0 Hok Ht (edit_i virt l unlink_level) q u j) in * by done.
  destruct (sp_leaf _ _ _ _ _ Hok q u j _ Hq Hj eq_refl Hpres Hlf) as (_ & s' & Hs' & _ & _ & Hno).
  apply (Hno (indices virt (S l))). rewrite Hc. congruence.
Qed.

Lemma unlink_pruned st m' :
  rep st m' → space_ok usable round w1 root m' →
  (∀ s, m' !! s = m !! s ∨ (m' !! s = None ∧ c = frame_of s)) →
  pruned root σ m (mkMachine w1 st (cr3 σ) (flushes σ)) m'.
Proof.
  intros Hst Hok' Hm'. split; simpl; try done.
  - intros v.
    pose proof (edit_translate σ root m virt l t 0 Hok unlink_level Ht unlink_zero v) as Htr. simpl in Htr.
    rewrite Htr, pa_zero. case_decide as Hv; [|done]. symmetry. apply translate_none. intros k e.
    destruct unlink_entry as [Hp He]. apply same_page_under in Hv; [|exact unlink_level..].
    eapply (under_empty (mem σ) root _ t i Ht); [by apply idx_ok, unlink_level|by rewrite length_indices| |done].
    rewrite He. by apply table_is_empty_spec.
  - intros q u Hq. by apply unlink_tables in Hq as [? _].
  - intros s. destruct (Hm' s) as [?|[? ->]]; [by left|]. right. split; [done|].
    exists (indices virt (S l)). split; [done|].
    destruct (tbl w1 root (indices virt (S l))) as [u|] eqn:Hu; [|done].
    apply unlink_tables in Hu as [_ Hn]. by destruct Hn.
  - intros a. unfold store. case_decide; [|by left]. right. exists (indices virt l), t, i.
    split; [done|]. split; [by apply idx_ok, unlink_level|done].
Qed.
End unlink.

(** The walk recorded the tables on the path of [virt] down to [level]. *)
Definition walk_ok (w : Z → Z) (root : PhysFrame) (virt : VirtAddr) (walk : list (option WalkEntry))
    (level : nat) : Prop :=
  ∀ j, (j <= level)%nat → ∃ t, walk !! j = Some (Some (mkWalkEntry t (idx virt j))) ∧
    tbl w root (indices virt j) = Some t.

(** A table on the path is not empty. *)
Definition path_full (w : Z → Z) (root : PhysFrame) (virt : VirtAddr) : Prop :=
  ∀ j t, (0 < j)%nat → tbl w root (indices virt j) = Some t → table_is_empty w t = false.

Lemma path_full_below w root virt level t :
  tbl w root (indices virt level) = Some t → table_is_empty w t = false →
  ∀ j u, (0 < j <= level)%nat → tbl w root (indices virt j) = Some u → table_is_empty w u = false.
Proof.
  intros Ht Hne j u [_ Hj] Hu. destruct (decide (j = level)) as [->|]; [congruence|].
  apply not_true_iff_false. intros He. rewrite table_is_empty_spec in He.
  assert (j < level)%nat as Hlt by lia. pose proof (through_points _ _ _ _ _ _ _ Hlt Hu Ht) as Hp.
  apply tbl_length in Hu. rewrite length_indices in Hu.
  unfold points in Hp. rewrite He in Hp by (by apply idx_ok). done.
Qed.

Lemma owned_once σ root m p s rc :
  rep (frames σ) m → space_ok usable round (mem σ) root m → tbl (mem σ) root p = Some (frame_of s) →
  m !! s = Some (round 1, rc) → rc = 1.
Proof.
  intros Hrep Hok Hp Hs. destruct (sp_table _ _ _ _ _ Hok _ _ Hp) as (s' & He & _ & Hown).
  apply frame_of_inj in He as <-. destruct Hown as [?|Hnu]; [congruence|]. destruct Hnu.
  eapply (fas_frames (frames σ) m s _ rc s Hrep Hs). pose proof (fas_live _ _ _ _ _ Hrep Hs). lia.
Qed.

Lemma prune_spec root virt walk level : ∀ σ m,
  rep (frames σ) m → space_ok usable round (mem σ) root m → walk_ok (mem σ) root virt walk level →
  (∀ j t, (level < j)%nat → tbl (mem σ) root (indices virt j) ≠ Some t) →
  wp_res (prune_empty_tables walk level) σ
    (λ _ σ', ∃ m', pruned root σ m σ' m' ∧ path_full (mem σ') root virt)
    (λ e σ', (∃ fe, e = FrameError fe) ∧
       (∃ q s, tbl (mem σ) root q = Some (frame_of s) ∧ ¬ usable s) ∧
       ∃ m', pruned root σ m σ' m').
Proof.
  induction level as [|l IH]; intros σ m Hrep Hok Hwalk Hend.
  { simpl. wp_run. exists m. split; [by apply pruned_refl|]. intros j t Hj Ht. by destruct (Hend j t Hj). }
  destruct (Hwalk (S l)) as (c & Hwc & Hc); [lia|]. destruct (Hwalk l) as (t & Hwt & Ht); [lia|].
  simpl prune_empty_tables. rewrite Hwc, Hwt. mm_run. cbn [we_table we_index].
  destruct (table_is_empty (mem σ) c) eqn:He; simpl.
  2:{ wp_run. exists m. split; [by apply pruned_refl|]. intros j u Hj Hu.
      destruct (decide (S l < j)%nat) as [Hlt|]; [by destruct (Hend j u Hlt)|].
      eapply path_full_below; [exact Hc|done| |exact Hu]. lia. }
  mm_run. apply wp_with_frames. cbn [frames set_mem].
  pose proof (unlink_level σ root virt l t Ht) as Hl.
  destruct (sp_table _ _ _ _ _ Hok _ _ Hc) as (s & -> & Hb & Hown).
  pose proof (edit_space_ok σ root m virt l t 0 Hok Hl Ht (unlink_zero l)) as Hok1.
  rewrite pa_zero in Hok1. specialize (Hok1 ltac:(done)). simpl in Hok1.
  pose proof (unlink_pruned σ root m virt l t _ Hok Ht Hc He) as Hpr.
  eapply wp_res_mono; [apply (fas_release (frames σ) m (frame_of s) 1 Hrep)|..]; cbv beta.
  2:{ intros fe st [-> Hno]. split; [by eexists|]. split.
      - exists (indices virt (S l)), s. split; [done|]. destruct Hown as [Hs|?]; [|done].
        by destruct (Hno s 1 eq_refl ltac:(lia)).
      - exists m. apply (Hpr (frames σ) m); auto. }
  intros r st (s' & rc & Hs' & Hm & -> & Hst). apply frame_of_inj in Hs' as <-.
  assert (rc = 1) as -> by (by eapply owned_once).
  assert (unref m s (round 1) 1 = delete s m) as Hun by (unfold unref; by rewrite decide_True).
  specialize (Hpr st (unref m s (round 1) 1) Hst).
  assert (space_ok usable round (store (mem σ) (table_entry t (idx virt l)) 0) root (unref m s (round 1) 1))
    as Hok2.
  { apply unref_space_ok; [done|done|..].
    - intros q. by eapply unlink_gone.
    - intros _ q j. by eapply unlink_unmapped. }
  specialize (Hpr Hok2).
  assert (∀ s', unref m s (round 1) 1 !! s' = m !! s' ∨
    (unref m s (round 1) 1 !! s' = None ∧ frame_of s = frame_of s')) as Hm'.
  { intros s'. rewrite Hun. destruct (decide (s' = s)) as [->|Hne].
    - right. by rewrite lookup_delete_eq.
    - left. by rewrite lookup_delete_ne. }
  specialize (Hpr Hm').
  eapply wp_res_mono; [apply (IH _ (unref m s (round 1) 1))|..]; cbn [frames set_frames set_mem].
  - done.
  - apply Hpr.
  - intros j Hj. destruct (Hwalk j) as (u & Hwu & Hu); [lia|]. exists u. split; [done|]. simpl.
    rewrite (tbl_store_other usable round (mem σ) root m _ _ _ 0 Hok Ht (edit_i virt l Hl)); [done|].
    intros [x Hx]. apply (f_equal length) in Hx. rewrite !length_app, !length_indices in Hx. simpl in Hx. lia.
  - intros j u Hj Hu. simpl in Hu. eapply unlink_tables in Hu as [Hu Hn]; [|done..].
    destruct (decide (S l < j)%nat) as [Hlt|]; [by destruct (Hend j u Hlt)|].
    assert (j = S l) as -> by lia. by destruct Hn.
  - intros _ σ' (m' & Hpr' & Hfull). exists m'. split; [by eapply pruned_trans|done].
  - intros e σ' (Hfe & (q & s' & Hq & Hnu) & m' & Hpr'). split; [done|]. split.
    + exists q, s'. split; [|done]. by apply (pr_tables _ _ _ _ _ Hpr) in Hq.
    + exists m'. by eapply pruned_trans.
Qed.

(** ** Removing a mapping *)

Lemma map_size_spec size l σ :
  leaf_level size = Some l → map_size_for_level (A := A) (St := St) l σ = (Ok size, σ).
Proof.
  intros Hl. destruct (pa_size size) as (l' & Hl' & _ & Hsz). simplify_eq.
  unfold map_size_for_level. rewrite Hsz. by destruct size.
Qed.

(** The frames after the mapped block has been released, or kept. *)
Definition released (release : bool) (m : frame_map) (e : Z) (size : MapSize) (refs : Z) (m1 : frame_map) : Prop :=
  if release then
    ∃ s rc, entry_frame e = frame_of s ∧ m !! s = Some (round (frame_count_for_size size), rc) ∧
      refs = rc - 1 ∧ m1 = unref m s (round (frame_count_for_size size)) rc
  else refs = 1 ∧ m1 = m.

(** A block with one reference is mapped only by the entry that is removed. *)
Definition sole (w : Z → Z) (root : PhysFrame) (m : frame_map) (e : Z) (path : list nat) : Prop :=
  ∀ s len v l' e', entry_frame e = frame_of s → m !! s = Some (len, 1) →
    translate w root v = Some (l', e') → entry_frame e' = frame_of s → indices v (S l') = path.

(** The page of [virt] is no longer translated and the rest is as before. *)
Definition removed (root : PhysFrame) (virt : VirtAddr) (l : nat) (σ σ' : machine St) : Prop :=
  (∀ v, translate (mem σ') root v = if decide (same_page l virt v) then None else translate (mem σ) root v) ∧
  flushed root virt σ σ' ∧ cr3 σ' = cr3 σ ∧
  ∀ a, mem σ' a = mem σ a ∨
    ∃ q t i, tbl (mem σ) root q = Some t ∧ (i < ENTRY_COUNT)%nat ∧ a = table_entry t i.

Definition unmap_post (root : PhysFrame) (virt : VirtAddr) (release : bool) (σ : machine St) (m : frame_map)
    (r : UnmapResult) (σ' : machine St) : Prop :=
  ∃ l e m1 m', translate (mem σ) root virt = Some (l, e) ∧
    unmapped_frame r = entry_frame e ∧ leaf_level (unmapped_size r) = Some l ∧
    removed root virt l σ σ' ∧ released release m e (unmapped_size r) (remaining_refs r) m1 ∧
    rep (frames σ') m' ∧ space_ok usable round (mem σ') root m' ∧
    (∀ s, m' !! s = m1 !! s ∨
      (m' !! s = None ∧ ∃ q, tbl (mem σ) root q = Some (frame_of s) ∧ tbl (mem σ') root q = None)) ∧
    path_full (mem σ') root virt.

Definition unmap_error (root : PhysFrame) (virt : VirtAddr) (release : bool) (σ : machine St) (m : frame_map)
    (er : MappingError) (σ' : machine St) : Prop :=
  match er with
  | NotMapped => σ' = σ ∧ translate (mem σ) root virt = None
  | FrameError _ => ∃ l e size, translate (mem σ) root virt = Some (l, e) ∧ leaf_level size = Some l ∧
      removed root virt l σ σ' ∧ (∃ m', rep (frames σ') m' ∧ space_ok usable round (mem σ') root m') ∧
      ((release = true ∧ ∀ s rc, entry_frame e = frame_of s →
          m !! s ≠ Some (round (frame_count_for_size size), rc)) ∨
       ∃ q s, tbl (mem σ) root q = Some (frame_of s) ∧ ¬ usable s)
  | _ => False
  end.

Section leaf.
Context (σ : machine St) (root : PhysFrame) (m : frame_map) (virt : VirtAddr) (l : nat) (t : PhysFrame).
Context (release : bool) (walk : list (option WalkEntry)) (size : MapSize).
Context (Hrep : rep (frames σ) m) (Hok : space_ok usable round (mem σ) root m).
Context (Hl : (l < LEVELS)%nat) (Ht : tbl (mem σ) root (indices virt l) = Some t).
#[local] Abbreviation e := (mem σ (table_entry t (idx virt l))).
#[local] Abbreviation w1 := (store (mem σ) (table_entry t (idx virt l)) 0).
Context (Hp : is_present e = true) (Hlf : is_leaf e l = true) (Hsz : leaf_level size = Some l).
Context (Hsole : release = true → sole (mem σ) root m e (indices virt (S l))).
Context (Hwalk : walk_ok (mem σ) root virt walk l).

Lemma leaf_space_ok : space_ok usable round w1 root m.
Proof. apply (edit_space_ok σ root m virt l t 0 Hok Hl Ht (unlink_zero l)). by rewrite pa_zero. Qed.

Lemma leaf_translate : translate (mem σ) root virt = Some (l, e).
Proof. apply translate_mapped. split; [done|]. by exists t. Qed.

Lemma leaf_frame : ∃ s, entry_frame e = frame_of s ∧ ∀ q, tbl (mem σ) root q ≠ Some (frame_of s).
Proof.
  destruct (sp_leaf _ _ _ _ _ Hok _ _ _ e Ht (edit_i virt l Hl) eq_refl Hp) as (_ & s & ? & _ & _ & ?);
    [by rewrite length_indices|]. by exists s.
Qed.

Lemma leaf_tables q u : tbl w1 root q = Some u →
  tbl (mem σ) root q = Some u ∧ ¬ indices virt (S l) `prefix_of` q.
Proof. by apply (unlink_tables σ root m virt l t Hok Ht). Qed.

(** Releasing the block keeps the tree. *)
Lemma leaf_release_ok s len rc :
  release = true → entry_frame e = frame_of s → m !! s = Some (len, rc) →
  space_ok usable round w1 root (unref m s len rc).
Proof.
  intros Hr Hs Hm. destruct leaf_frame as (s' & Hs' & Hno). rewrite Hs in Hs'. apply frame_of_inj in Hs' as <-.
  apply unref_space_ok; [apply leaf_space_ok|done|..].
  - intros q [Hq _]%leaf_tables. by apply (Hno q).
  - intros -> q j (u & [Hq Hn]%leaf_tables & Hj & H1 & H2 & H3).
    destruct (decide (q ++ [j] = indices virt (S l))) as [Heq|Hne].
    + rewrite indices_S in Heq. apply app_inj_2 in Heq as [-> [= ->]]; [|done]. simplify_eq.
      rewrite store_same, pa_zero in H1. done.
    + apply Hne. rewrite indices_S in Hne.
      rewrite (store_other usable round (mem σ) root m _ _ _ 0 Hok Ht (edit_i virt l Hl) q u j) in * by done.
      destruct (maps_frame_translate (mem σ) root s q j) as (v & e' & Hv & He' & <-); [by exists u|].
      by eapply (Hsole Hr).
Qed.

Lemma leaf_walk_ok : walk_ok w1 root virt walk l.
Proof.
  intros j Hj. destruct (Hwalk j Hj) as (u & Hu & Hu'). exists u. split; [done|].
  rewrite (tbl_store_other usable round (mem σ) root m _ _ _ 0 Hok Ht (edit_i virt l Hl)); [done|].
  intros [x Hx]. apply (f_equal length) in Hx. rewrite !length_app, !length_indices in Hx. simpl in Hx. lia.
Qed.

Lemma leaf_end j u : (l < j)%nat → tbl w1 root (indices virt j) ≠ Some u.
Proof.
  intros Hj [Hu Hn]%leaf_tables. apply Hn. rewrite (indices_split virt (S l) j) by lia. by apply prefix_app_r.
Qed.

Lemma leaf_removed σ1 σ2 m1 m2 :
  mem σ1 = w1 → cr3 σ1 = cr3 σ → flushed root virt σ σ1 → pruned root σ1 m1 σ2 m2 →
  removed root virt l σ σ2.
Proof.
  intros Hm Hc Hf Hpr. destruct (pr_env _ _ _ _ _ Hpr) as [H1 H2]. split; [|split; [|split]].
  - intros v. rewrite (pr_translate _ _ _ _ _ Hpr), Hm.
    pose proof (edit_translate σ root m virt l t 0 Hok Hl Ht (unlink_zero l) v) as Htr. simpl in Htr.
    by rewrite Htr, pa_zero.
  - unfold flushed in *. by rewrite H2.
  - congruence.
  - intros a. destruct (pr_local _ _ _ _ _ Hpr a) as [->|(q & u & i & Hq & Hi & ->)]; rewrite Hm in *.
    + unfold store. case_decide; [|by left]. right. exists (indices virt l), t, (idx virt l).
      auto using edit_i.
    + right. exists q, u, i. by apply leaf_tables in Hq as [? _].
Qed.

Lemma unmap_leaf_spec :
  wp_res (_ ← write_entry t (idx virt l) 0;
          _ ← invalidate root virt;
          refs ← (if release then with_frames FrameError (fa_release (entry_frame e) (frame_count_for_size size))
                  else mret 1);
          _ ← prune_empty_tables walk l;
          mret (mkUnmapResult (entry_frame e) refs size)) σ
    (unmap_post root virt release σ m) (unmap_error root virt release σ m).
Proof.
  mm_run. apply invalidate_spec. intros σ1 Hm1 Hf1 Hc1 Hfl1. cbn [mem frames cr3 set_mem] in *. wp_run.
  assert (∀ st refs m1, rep st m1 → space_ok usable round w1 root m1 →
    released release m e size refs m1 →
    wp_res (_ ← prune_empty_tables walk l; mret (mkUnmapResult (entry_frame e) refs size)) (set_frames st σ1)
      (unmap_post root virt release σ m) (unmap_error root virt release σ m)) as Hprune.
  { intros st refs m1 Hst Hok1 Hrel. wp_run.
    eapply wp_res_mono; [apply (prune_spec root virt walk l (set_frames st σ1) m1)|..]; simpl; rewrite ?Hm1.
    - done.
    - done.
    - apply leaf_walk_ok.
    - apply leaf_end.
    - intros _ σ2 (m2 & Hpr & Hfull). wp_run. exists l, e, m1, m2. split; [apply leaf_translate|].
      do 2 (split; [done|]). split; [by apply (leaf_removed (set_frames st σ1) σ2 m1 m2)|]. split; [done|].
      split; [apply Hpr|]. split; [apply Hpr|]. split; [|done].
      intros s. destruct (pr_frames _ _ _ _ _ Hpr s) as [?|[? (q & Hq & ?)]]; [by left|]. right. split; [done|].
      exists q. split; [|done]. simpl in Hq. rewrite Hm1 in Hq. by apply leaf_tables in Hq as [? _].
    - intros er σ2 ([fe ->] & (q & s & Hq & Hnu) & m2 & Hpr). exists l, e, size.
      split; [apply leaf_translate|]. split; [done|]. split; [by apply (leaf_removed (set_frames st σ1) σ2 m1 m2)|].
      split; [exists m2; split; apply Hpr|]. right. exists q, s. split; [|done].
      by apply leaf_tables in Hq as [? _]. }
  pose proof leaf_release_ok as Hro. pose proof leaf_space_ok as Hok1. pose proof leaf_translate as Htr.
  pose proof leaf_removed as Hrem. destruct leaf_frame as (s & Hs & Hno). clear Hsole. destruct release.
  - apply wp_with_frames. rewrite Hf1.
    eapply wp_res_mono; [apply (fas_release (frames σ) m _ _ Hrep)|..]; cbv beta.
    + intros refs st (s' & rc & Hs' & Hm & -> & Hst). rewrite Hs in Hs'. apply frame_of_inj in Hs' as <-.
      eapply Hprune; [exact Hst|by apply Hro|]. exists s, rc. done.
    + intros fe st [-> Hno']. exists l, e, size. split; [done|]. split; [done|]. split.
      { apply (Hrem (set_frames (frames σ) σ1) _ m m); try done.
        apply pruned_refl; simpl; rewrite ?Hm1; done. }
      split; [exists m; simpl; rewrite Hm1; done|]. left. split; [done|].
      intros s' rc Hs'. apply Hno'; [done|]. destruct size; by compute.
  - apply wp_res_ret. replace σ1 with (set_frames (frames σ) σ1) by (rewrite <- Hf1; by destruct σ1).
    by eapply Hprune.
Qed.
End leaf.

(** What [unmap] asks for when it releases the frame. *)
Definition may_release (root : PhysFrame) (virt : VirtAddr) (σ : machine St) (m : frame_map) : Prop :=
  ∀ l e, translate (mem σ) root virt = Some (l, e) → sole (mem σ) root m e (indices virt (S l)).

Lemma unmap_walk_spec root virt release σ m :
  rep (frames σ) m → space_ok usable round (mem σ) root m →
  (release = true → may_release root virt σ m) →
  ∀ n level table walk, tbl (mem σ) root (indices virt level) = Some table → (n + level = LEVELS)%nat →
  (LEVELS <= length walk)%nat →
  (∀ j, (j < level)%nat → ∃ t, walk !! j = Some (Some (mkWalkEntry t (idx virt j))) ∧
    tbl (mem σ) root (indices virt j) = Some t) →
  wp_res (unmap_walk n level root virt release table walk) σ
    (unmap_post root virt release σ m) (unmap_error root virt release σ m).
Proof.
  intros Hrep Hok Hsole. induction n as [|n IH]; intros level table walk Ht Hn Hlen Hwalk; simpl.
  { apply tbl_length in Ht. rewrite length_indices in Ht. lia. }
  destruct (idx_ok virt level) as [Hidx Hi]; [lia|]. rewrite Hidx. mm_run.
  assert (walk_ok (mem σ) root virt (<[level:=Some (mkWalkEntry table (idx virt level))]> walk) level) as Hwalk'.
  { intros j Hj. destruct (decide (j = level)) as [->|Hne].
    - exists table. rewrite list_lookup_insert_eq by lia. done.
    - destruct (Hwalk j) as (u & Hu & Hu'); [lia|]. exists u. by rewrite list_lookup_insert_ne. }
  destruct (is_present (mem σ (table_entry table (idx virt level)))) eqn:Hp; simpl.
  2:{ wp_run. split; [done|]. apply translate_none. intros k x Hm.
      apply (under_entry (mem σ) root _ _ (idx virt level) Ht) in Hm as (_ & _ & ? & _); [congruence|..].
      - unfold points. by rewrite Hp.
      - by rewrite length_indices, <- indices_S. }
  destruct (is_leaf (mem σ (table_entry table (idx virt level))) level) eqn:Hlf.
  - destruct (sp_leaf _ _ _ _ _ Hok _ _ _ _ Ht Hi eq_refl Hp) as ([size Hsz] & _); [by rewrite length_indices|].
    rewrite length_indices in Hsz. apply wp_res_bind. unfold wp_res at 1, wp. rewrite (map_size_spec size) by done.
    apply (unmap_leaf_spec σ root m virt level table); try done; [lia|].
    intros Hr. apply (Hsole Hr). apply translate_mapped. split; [lia|]. by exists table.
  - apply IH; [|lia|by rewrite length_insert|].
    + rewrite indices_S. apply tbl_snoc. exists table. rewrite length_indices. unfold points.
      by rewrite Hp, Hlf.
    + intros j Hj. apply (Hwalk' j). lia.
Qed.

Lemma unmap_inner_spec root virt release σ m :
  rep (frames σ) m → space_ok usable round (mem σ) root m →
  (release = true → may_release root virt σ m) →
  wp_res (unmap_inner root virt release) σ
    (unmap_post root virt release σ m) (unmap_error root virt release σ m).
Proof.
  intros. unfold unmap_inner. pose proof (pa_levels (A := A)). rewrite Nat.min_l by lia.
  apply unmap_walk_spec; rewrite ?length_replicate; try done; try lia.
Qed.

(** ** A new root *)

Lemma alloc_usable st m n s : rep st (<[s := (round n, 1)]> m) → 1 <= n → usable s.
Proof.
  intros Hst Hn. eapply (fas_frames st (<[s := (round n, 1)]> m) s (round n) 1 s); [done|by rewrite lookup_insert_eq|].
  pose proof (fas_round n). lia.
Qed.

Lemma zeroed_root w root :
  (∀ i, (i < ENTRY_COUNT)%nat → is_present (w (table_entry root i)) = false) →
  (∀ q t, tbl w root q = Some t → q = [] ∧ t = root) ∧ ∀ v, translate w root v = None.
Proof.
  intros Hz.
  assert (∀ q t, tbl w root q = Some t → q = [] ∧ t = root) as Hroot.
  { intros q t Hq. destruct q as [|i q]; [by injection Hq as <-|].
    change (i :: q) with ([i] ++ q) in Hq. apply tbl_prefix in Hq as [u Hu].
    change [i] with ([] ++ [i]) in Hu. apply tbl_snoc in Hu as (x & Hx & Hi & Hp & _).
    injection Hx as <-. unfold points in Hp. by rewrite Hz in Hp. }
  split; [done|]. intros v. apply translate_none. intros k e (Hk & t & Ht & -> & Hp & _).
  apply Hroot in Ht as [Hv ->]. apply (f_equal length) in Hv. rewrite length_indices in Hv. simpl in Hv. subst k.
  rewrite Hz in Hp; [done|]. by apply idx_ok.
Qed.

Lemma new_root_spec σ m :
  rep (frames σ) m →
  wp_res new_root σ
    (λ root σ', ∃ s, root = frame_of s ∧ m !! s = None ∧
       rep (frames σ') (<[s := (round 1, 1)]> m) ∧
       space_ok usable round (mem σ') root (<[s := (round 1, 1)]> m) ∧
       (∀ q t, tbl (mem σ') root q = Some t → q = [] ∧ t = root) ∧
       (∀ v, translate (mem σ') root v = None))
    (λ e σ', (∃ fe, e = FrameError fe) ∧ mem σ' = mem σ ∧ rep (frames σ') m).
Proof.
  intros Hrep. unfold new_root. apply wp_res_bind, wp_with_frames.
  eapply wp_res_mono; [apply (fas_alloc (frames σ) m 1 Hrep)|..]; cbv beta.
  2:{ intros fe st Hst. split; [by eexists|]. done. }
  intros f st (s & -> & _ & Hs & Hst). mm_run. simpl.
  assert (usable s) as Hus by (eapply alloc_usable; [done|lia]).
  assert (∀ i, (i < ENTRY_COUNT)%nat → is_present (zero_words (mem σ) (frame_of s) (table_entry (frame_of s) i)) = false) as Hz.
  { intros i Hi. unfold zero_words. rewrite decide_True; [apply pa_zero|]. apply pa_within; [|done].
    exists s. split; [done|]. by apply Husable. }
  destruct (zeroed_root _ _ Hz) as [Hroot Htr].
  exists s. do 3 (split; [done|]). split; [|done]. split.
  - intros p q t [-> _]%Hroot [-> _]%Hroot. done.
  - intros p t [-> ->]%Hroot. exists s. split; [done|]. split; [by apply Husable|]. left. by rewrite lookup_insert_eq.
  - intros p t i e [-> ->]%Hroot Hi <- Hp. by rewrite Hz in Hp.
Qed.

(** ** Other address spaces *)

(** The entries that translate [v] below another root are unchanged. *)
Lemma path_translate w w' root v :
  (∀ k u, (k < LEVELS)%nat → tbl w root (indices v k) = Some u →
    w' (table_entry u (idx v k)) = w (table_entry u (idx v k))) →
  translate w' root v = translate w root v.
Proof.
  intros Hag.
  assert (∀ k, tbl w' root (indices v k) = tbl w root (indices v k)) as Htbl.
  { intros k. induction k as [|k IH]; [done|]. rewrite !indices_S. apply option_eq. intros u.
    rewrite !tbl_snoc, IH. split; intros (x & H1 & H2 & H3 & H4); exists x;
      (assert (k < LEVELS)%nat as Hk by (apply tbl_length in H1; by rewrite length_indices in H1));
      pose proof (Hag k x Hk H1) as Hx; rewrite Hx in *; done. }
  apply translate_ext. intros k e. unfold mapped. rewrite Htbl.
  split; intros (Hk & u & H1 & H2 & H3); (split; [done|]); exists u; rewrite (Hag _ _ Hk H1) in *; done.
Qed.

(** The tables that translate [v] below [other] are allocated or outside the
    allocator's memory, and are not tables of [root]. *)
Definition apart (root other : PhysFrame) (v : VirtAddr) (σ : machine St) (m : frame_map) : Prop :=
  ∀ k u, tbl (mem σ) other (indices v k) = Some u →
    (∀ q, tbl (mem σ) root q ≠ Some u) ∧
    ∃ s, u = frame_of s ∧ 0 <= s < 2 ^ 40 ∧ (is_Some (m !! s) ∨ ¬ usable s).

Lemma apart_entry root other v σ m k u q t i :
  space_ok usable round (mem σ) root m → apart root other v σ m → (k < LEVELS)%nat →
  tbl (mem σ) other (indices v k) = Some u → tbl (mem σ) root q = Some t → (i < ENTRY_COUNT)%nat →
  table_entry u (idx v k) ≠ table_entry t i.
Proof.
  intros Hok Hap Hk Hu Ht Hi He. destruct (Hap k u Hu) as [Hno (s & -> & Hb & _)].
  apply entry_inj in He as [<- _]; [by apply (Hno q)|by exists s|by eapply sp_frame_ok|by apply idx_ok|done].
Qed.

Lemma grew_apart root other v σ m σ' m' :
  space_ok usable round (mem σ) root m → grew root σ m σ' m' → apart root other v σ m →
  translate (mem σ') other v = translate (mem σ) other v.
Proof.
  intros Hok Hg Hap. apply path_translate. intros k u Hk Hu.
  destruct (gr_local _ _ _ _ _ Hg (table_entry u (idx v k))) as [?|[(q & t & i & Ht & Hi & He)|(s & Hs & Hs' & Hin)]].
  - done.
  - exfalso. by eapply apart_entry.
  - exfalso. destruct (Hap k u Hu) as [_ (s' & -> & Hb & Hown)].
    assert (frame_ok (frame_of s')) as Hf by (by exists s').
    pose proof (pa_within _ _ Hf (proj2 (idx_ok v k Hk))) as Hw. rewrite PAGE_SIZE_eq in Hw. simpl in Hw.
    assert (s' = s) as -> by lia. destruct Hown as [[x Hx]|Hnu]; [congruence|]. apply Hnu.
    destruct Hs' as [[len rc] Hs']. pose proof (gr_rep _ _ _ _ _ Hg) as Hrep.
    eapply (fas_frames (frames σ') m' s len rc s Hrep Hs').
    pose proof (fas_live _ _ _ _ _ Hrep Hs'). lia.
Qed.

Lemma removed_apart root other virt l v σ m σ' :
  space_ok usable round (mem σ) root m → removed root virt l σ σ' → apart root other v σ m →
  translate (mem σ') other v = translate (mem σ) other v.
Proof.
  intros Hok (_ & _ & _ & Hloc) Hap. apply path_translate. intros k u Hk Hu.
  destruct (Hloc (table_entry u (idx v k))) as [?|(q & t & i & Ht & Hi & He)]; [done|].
  exfalso. by eapply apart_entry.
Qed.

(** ** Mapping a new block *)

Lemma fresh_mappable σ root m s len :
  space_ok usable round (mem σ) root m → m !! s = None → usable s →
  mappable (mem σ) root (<[s := (len, 1)]> m) s.
Proof.
  intros Hok Hs Hus. split; [by apply Husable|]. split; [left; rewrite lookup_insert_eq; eauto|].
  by eapply fresh_not_table.
Qed.

Lemma insert_space_ok w root m s x :
  space_ok usable round w root m → m !! s = None → space_ok usable round w root (<[s := x]> m).
Proof.
  intros Hok Hs. split; [apply Hok|..].
  - intros p t Hp. destruct (sp_table _ _ _ _ _ Hok p t Hp) as (s' & -> & Hb & Hown). exists s'.
    do 2 (split; [done|]). destruct Hown as [Hs'|?]; [|by right]. left. rewrite lookup_insert_ne; [done|congruence].
  - intros p t i e Hp Hi He H1 H2.
    destruct (sp_leaf _ _ _ _ _ Hok p t i e Hp Hi He H1 H2) as (Hsz & s' & Hs' & Hb & Hown & Hno).
    split; [done|]. exists s'. do 2 (split; [done|]). split; [|done].
    destruct Hown as [[y Hy]|?]; [|by right]. left. rewrite lookup_insert_ne; [eauto|congruence].
Qed.

Lemma map_alloc_spec root virt size flags σ m :
  rep (frames σ) m → space_ok usable round (mem σ) root m →
  ∃ l, leaf_level size = Some l ∧
  wp_res (map_alloc root virt size flags) σ
    (λ _ σ', ∃ s m', m !! s = None ∧ m ⊆ m' ∧
       m' !! s = Some (round (frame_count_for_size size), 1) ∧
       rep (frames σ') m' ∧ space_ok usable round (mem σ') root m' ∧
       (∀ v, translate (mem σ') root v =
          if decide (same_page l virt v) then Some (l, make_leaf (frame_of s) l flags)
          else translate (mem σ) root v))
    (λ e σ', ∃ m', m ⊆ m' ∧ rep (frames σ') m' ∧ space_ok usable round (mem σ') root m' ∧
       (∀ v, translate (mem σ') root v = translate (mem σ) root v) ∧
       (∀ s, m !! s = None → is_Some (m' !! s) → ∃ q, tbl (mem σ') root q = Some (frame_of s))).
Proof.
  intros Hrep Hok. destruct (pa_size size) as (l & Hl & _). exists l. split; [done|].
  set (count := frame_count_for_size size). assert (1 <= count) as Hc by (by destruct size; compute).
  unfold map_alloc. fold count. apply wp_res_bind, wp_with_frames.
  eapply wp_res_mono; [apply (fas_alloc (frames σ) m count Hrep)|..]; cbv beta.
  2:{ intros fe st Hst. exists m. do 4 (split; [done|]). by intros s -> [? ?]. }
  intros f st (s & -> & _ & Hs & Hst). assert (usable s) as Hus by (by eapply alloc_usable).
  set (m1 := <[s := (round count, 1)]> m) in *. set (σ1 := set_frames st σ).
  pose proof (fresh_mappable σ root m s (round count) Hok Hs Hus) as Hmap. fold m1 in Hmap.
  assert (space_ok usable round (mem σ1) root m1) as Hok1 by (by apply insert_space_ok).
  destruct (map_spec root virt s size flags σ1 m1 Hst Hok1 Hmap) as (l' & Hl' & Hspec). simplify_eq.
  assert (m ⊆ m1) as Hsub by (by apply insert_subseteq).
  unfold wp_res, wp, map_or_release in *.
  destruct (map root virt (frame_of s) size flags σ1) as [[[]|e| |] σ2]; simpl in *; try done.
  - destruct Hspec as (m2 & Hg & Hok2 & Htr & _). exists s, m2. split; [done|].
    split; [etrans; [done|apply Hg]|]. split.
    { eapply lookup_weaken; [|apply Hg]. unfold m1. by rewrite lookup_insert_eq. }
    split; [apply Hg|]. done.
  - destruct Hspec as (m2 & Hg & Hok2 & Htr & _).
    assert (m2 !! s = Some (round count, 1)) as Hs2.
    { eapply lookup_weaken; [|apply Hg]. unfold m1. by rewrite lookup_insert_eq. }
    pose proof (fas_release (frames σ2) m2 (frame_of s) count (gr_rep _ _ _ _ _ Hg)) as Hrel.
    unfold with_frames, wp_res, wp in *. destruct (fa_release (frame_of s) count (frames σ2)) as [[r|fe| |] st2];
      simpl in *; try done; [|by destruct Hrel as [_ Hrel]; destruct (Hrel s 1 eq_refl Hc)].
    destruct Hrel as (s' & rc & He & Hm2 & -> & Hst2). apply frame_of_inj in He as <-. simplify_eq.
    assert (unref m2 s (round count) 1 = delete s m2) as Hun by (unfold unref; by rewrite decide_True).
    destruct (mappable_grew _ _ _ _ _ s Hg Hmap) as (_ & _ & Hno).
    assert (∀ q j, ¬ maps_frame (mem σ2) root s q j) as Hnl.
    { intros q j (v & e' & Hv & He' & _)%maps_frame_translate. rewrite Htr in Hv.
      destruct (translate_maps_frame _ _ _ _ _ _ Hv He') as (t & Ht & Hi & Hp & Hlf & Hf).
      destruct (sp_leaf _ _ _ _ _ Hok _ _ _ _ Ht Hi eq_refl Hp Hlf) as (_ & s' & Hs' & _ & [[x Hx]|Hnu] & _);
        rewrite Hf in Hs'; apply frame_of_inj in Hs' as <-; congruence. }
    exists (unref m2 s (round count) 1). split; [|split; [done|split; [|split; [done|]]]].
    + rewrite Hun. apply map_subseteq_spec. intros s' x Hx. rewrite lookup_delete_ne by congruence.
      eapply lookup_weaken; [|apply Hg]. eapply lookup_weaken; [exact Hx|done].
    + by apply unref_space_ok.
    + rewrite Hun. intros s' Hs' Hs''. apply (gr_new _ _ _ _ _ Hg).
      * unfold m1. destruct (decide (s' = s)) as [->|]; [by rewrite lookup_delete_eq in Hs''; destruct Hs''|].
        by rewrite lookup_insert_ne.
      * destruct Hs'' as [x [_ Hx]%lookup_delete_Some]. by exists x.
Qed.
End ops.
