(* ===== verification/X86Paging.v ===== *)
(** * x86_64 page-table entries

    The entry format of [aether-frame/src/arch/x86_64/mm/paging.rs] satisfies
    the laws that [MapperProof] asks of an architecture: indices, entry bits
    and frame addresses do not interfere. *)

From S2P Require Import Prelude Frame PageTable MapperProof.

Lemma testbit_shiftl_one k n : 0 <= k → 0 <= n → Z.testbit (Z.shiftl 1 k) n = (n =? k).
Proof.
  intros Hk Hn. rewrite Z.shiftl_1_l, Z.pow2_bits_eqb by done. apply Z.eqb_sym.
Qed.

Lemma land_one_bit e k : 0 <= k → negb (Z.land e (Z.shiftl 1 k) =? 0) = Z.testbit e k.
Proof.
  intros Hk. destruct (Z.testbit e k) eqn:Hb.
  - apply negb_true_iff, Z.eqb_neq. intros H0. apply (f_equal (λ x, Z.testbit x k)) in H0.
    rewrite Z.land_spec, testbit_shiftl_one, Z.eqb_refl, Hb, Z.bits_0 in H0 by done. done.
  - apply negb_false_iff, Z.eqb_eq. apply Z.bits_inj'. intros n Hn.
    rewrite Z.land_spec, testbit_shiftl_one, Z.bits_0 by done.
    destruct (Z.eqb_spec n k) as [->|]; [by rewrite Hb|apply andb_false_r].
Qed.

Lemma or_if_bit c k e n :
  0 <= k → 0 <= n → Z.testbit (X86.or_if c (Z.shiftl 1 k) e) n = Z.testbit e n || (c && (n =? k)).
Proof.
  intros Hk Hn. unfold X86.or_if. destruct c; simpl; [|by rewrite orb_false_r].
  by rewrite Z.lor_spec, testbit_shiftl_one.
Qed.

Lemma frame_bits s n :
  0 <= s < 2 ^ 40 → 0 <= n → Z.testbit (s * 4096) n = true → 12 <= n < 52.
Proof.
  intros Hs Hn Hb. change 4096 with (2 ^ 12) in Hb. split.
  - destruct (decide (12 <= n)); [done|]. rewrite Z.mul_pow2_bits_low in Hb by lia. done.
  - destruct (decide (n < 52)); [done|]. exfalso.
    rewrite Z.mul_pow2_bits in Hb by lia.
    destruct (decide (s = 0)) as [->|]; [by rewrite Z.bits_0 in Hb|].
    rewrite Z.bits_above_log2 in Hb; [done|lia|].
    apply Z.lt_le_trans with 40; [|lia]. apply Z.log2_lt_pow2; lia.
Qed.

Lemma mask_bits n : 0 <= n → Z.testbit X86.ENTRY_ADDR_MASK n = bool_decide (12 <= n < 52).
Proof.
  intros Hn. change X86.ENTRY_ADDR_MASK with (Z.shiftl (Z.ones 40) 12). rewrite Z.shiftl_spec by done.
  destruct (decide (12 <= n)).
  - destruct (decide (n < 52)).
    + rewrite Z.ones_spec_low by lia. by rewrite bool_decide_true.
    + rewrite Z.ones_spec_high by lia. rewrite bool_decide_false by lia. done.
  - rewrite Z.testbit_neg_r by lia. rewrite bool_decide_false by lia. done.
Qed.

(** An entry whose bits between 12 and 51 are those of the frame address. *)
Lemma entry_frame_bits e s :
  0 <= s < 2 ^ 40 → (∀ n, 12 <= n < 52 → Z.testbit e n = Z.testbit (s * 4096) n) →
  X86.x86_entry_frame e = frame_of s.
Proof.
  intros Hs He. unfold X86.x86_entry_frame, frame_of, from_start_address. do 2 f_equal.
  apply Z.bits_inj'. intros n Hn. rewrite Z.land_spec, mask_bits by done.
  case_bool_decide as Hb; [rewrite andb_true_r; by apply He|]. rewrite andb_false_r.
  destruct (Z.testbit (s * 4096) n) eqn:Ht; [|done]. by apply frame_bits in Ht.
Qed.

(** Bits of the two kinds of entries. *)
Lemma make_table_bits s flags n :
  0 <= n → Z.testbit (X86.x86_make_table (frame_of s) flags) n =
  Z.testbit (s * 4096) n || (n =? 0) || (n =? 1) || (MapFlags.contains flags MapFlags.USER && (n =? 2)).
Proof.
  intros Hn. unfold X86.x86_make_table, X86.ENTRY_USER. rewrite or_if_bit by lia.
  unfold X86.ENTRY_PRESENT, X86.ENTRY_WRITABLE. by rewrite !Z.lor_spec, !testbit_shiftl_one by lia.
Qed.

Lemma make_leaf_bits s level flags n :
  0 <= n → Z.testbit (X86.x86_make_leaf (frame_of s) level flags) n =
  Z.testbit (s * 4096) n || (n =? 0) || (MapFlags.contains flags MapFlags.WRITE && (n =? 1))
  || (MapFlags.contains flags MapFlags.USER && (n =? 2))
  || (MapFlags.contains flags MapFlags.WRITE_THROUGH && (n =? 3))
  || (MapFlags.contains flags MapFlags.NO_CACHE && (n =? 4))
  || (MapFlags.contains flags MapFlags.GLOBAL && (n =? 8))
  || (negb (MapFlags.contains flags MapFlags.EXECUTE) && (n =? 63))
  || (bool_decide (level = 1 ∨ level = 2)%nat && (n =? 7)).
Proof.
  intros Hn. unfold X86.x86_make_leaf, X86.ENTRY_HUGE, X86.ENTRY_NO_EXECUTE, X86.ENTRY_GLOBAL,
    X86.ENTRY_CACHE_DISABLE, X86.ENTRY_WRITE_THROUGH, X86.ENTRY_USER, X86.ENTRY_WRITABLE.
  rewrite !or_if_bit by lia. unfold X86.ENTRY_PRESENT. by rewrite Z.lor_spec, testbit_shiftl_one by lia.
Qed.

(** Evaluates the comparisons of a bit number with constants. *)
Ltac solve_bits n :=
  repeat match goal with |- context [n =? ?k] => rewrite (proj2 (Z.eqb_neq n k)) by lia end;
  rewrite ?andb_false_r, ?orb_false_r.

Lemma x86_present e : X86.x86_is_present e = Z.testbit e 0.
Proof. unfold X86.x86_is_present, X86.ENTRY_PRESENT. by rewrite land_one_bit by lia. Qed.

Lemma x86_leaf e l : X86.x86_is_leaf e l = bool_decide (l = 3)%nat || Z.testbit e 7.
Proof. unfold X86.x86_is_leaf, X86.ENTRY_HUGE. by rewrite land_one_bit by lia. Qed.

Lemma low_frame_bit s n : 0 <= s < 2 ^ 40 → 0 <= n < 12 → Z.testbit (s * 4096) n = false.
Proof.
  intros Hs Hn. destruct (Z.testbit (s * 4096) n) eqn:Hb; [|done]. apply frame_bits in Hb; lia.
Qed.

(** ** Pages of virtual addresses *)

Lemma x86_index v l sh : X86.LEVEL_SHIFTS !! l = Some sh →
  X86.x86_index_of (mkVirtAddr v) l = Some (Z.to_nat (v / 2 ^ sh mod 512)).
Proof.
  intros Hsh. unfold X86.x86_index_of. rewrite Hsh. simpl.
  assert (0 <= sh). { assert (Forall (λ x, 0 <= x) X86.LEVEL_SHIFTS) as Hf by (repeat constructor; lia).
    rewrite Forall_lookup in Hf. by eapply Hf. }
  change 511 with (2 ^ 9 - 1). rewrite land_pow2_mask, Z.shiftr_div_pow2 by lia. done.
Qed.

(** The address with given indices. *)
Definition address (path : list nat) : Z :=
  let i k := Z.of_nat (nth k path 0%nat) in
  i 0%nat * 2 ^ 39 + i 1%nat * 2 ^ 30 + i 2%nat * 2 ^ 21 + i 3%nat * 2 ^ 12.

Lemma address_index path j i :
  (length path <= 4)%nat → Forall (λ i, (i < 512)%nat) path → path !! j = Some i →
  X86.x86_index_of (mkVirtAddr (address path)) j = Some i.
Proof.
  intros Hlen Hf Hj.
  assert (∀ k, (nth k path 0 < 512)%nat) as Hk.
  { intros k. destruct (decide (k < length path)%nat) as [Hlt|Hge].
    - rewrite Forall_lookup in Hf. destruct (lookup_lt_is_Some_2 _ _ Hlt) as [x Hx].
      rewrite (nth_lookup_Some _ _ _ _ Hx). by eapply Hf.
    - rewrite nth_overflow by lia. lia. }
  pose proof (Hk 0%nat). pose proof (Hk 1%nat). pose proof (Hk 2%nat). pose proof (Hk 3%nat).
  apply (nth_lookup_Some _ _ 0%nat) in Hj as Hi. unfold address.
  assert (j < length path)%nat as Hjl by (by eapply lookup_lt_Some).
  destruct j as [|[|[|[|j]]]]; [| | | |lia]; rewrite <- Hi.
  1: rewrite (x86_index _ _ 39) by done. 2: rewrite (x86_index _ _ 30) by done.
  3: rewrite (x86_index _ _ 21) by done. 4: rewrite (x86_index _ _ 12) by done.
  all: f_equal; apply Nat2Z.inj; rewrite Z2Nat.id by (apply Z.mod_pos_bound; lia).
  all: clear Hi Hj Hf; Z.to_euclidean_division_equations; lia.
Qed.

#[export] Instance X86_64PageTableArch_ok : PageTableArchSpec X86_64PageTableArch.
Proof.
  split; simpl.
  - unfold MAX_PAGE_TABLE_LEVELS. lia.
  - intros v l Hl. unfold X86.x86_index_of.
    assert (∃ sh, X86.LEVEL_SHIFTS !! l = Some sh) as [sh ->]
      by (apply lookup_lt_is_Some; done). simpl. eexists. split; [done|].
    change 511 with (2 ^ 9 - 1). rewrite land_pow2_mask by lia.
    pose proof (Z.mod_pos_bound (Z.shiftr (virt_u64 v) sh) (2 ^ 9)). lia.
  - intros path Hlen Hf. exists (mkVirtAddr (address path)). intros j i. by apply address_index.
  - reflexivity.
  - intros e l [= ->]. reflexivity.
  - intros f flags l (s & -> & Hs) Hl. rewrite x86_present, x86_leaf, !make_table_bits by lia.
    rewrite (low_frame_bit s 7), bool_decide_false by lia. simpl.
    split; [by rewrite orb_true_r|]. split; [by rewrite andb_false_r|]. apply entry_frame_bits; [done|].
    intros n Hn. rewrite make_table_bits by lia. by solve_bits n.
  - intros f l flags size (s & -> & Hs) Hl. rewrite x86_present, x86_leaf, !make_leaf_bits by lia.
    split; [simpl; by rewrite orb_true_r|]. split.
    + destruct size; injection Hl as <-; simpl; rewrite ?orb_true_r; done.
    + apply entry_frame_bits; [done|]. intros n Hn. rewrite make_leaf_bits by lia. by solve_bits n.
  - intros []; eexists; (split; [reflexivity|]); (split; [lia|]); reflexivity.
  - intros f i _ Hi. unfold X86.x86_table_entry. rewrite PAGE_SIZE_eq. lia.
  - intros f i j _. unfold X86.x86_table_entry. lia.
Qed.

Lemma x86_idx v l sh : X86.LEVEL_SHIFTS !! l = Some sh →
  idx (mkVirtAddr v) l = Z.to_nat (v / 2 ^ sh mod 512).
Proof. intros Hsh. unfold idx. simpl. by rewrite (x86_index v l sh). Qed.

(** Only the low 48 bits of an address select entries. *)
Lemma same_page_low l v v' :
  (l < 4)%nat →
  same_page l (mkVirtAddr v) (mkVirtAddr v') ↔
  same_page l (mkVirtAddr (v mod 2 ^ 48)) (mkVirtAddr (v' mod 2 ^ 48)).
Proof.
  intros Hl.
  assert (∀ x, indices (mkVirtAddr (x mod 2 ^ 48)) (S l) = indices (mkVirtAddr x) (S l)) as Hx.
  { intros x. unfold indices. apply list_fmap_ext. intros j k Hk. apply lookup_seq in Hk as [-> Hk].
    assert (X86.LEVEL_SHIFTS !! (0 + j)%nat = Some (39 - 9 * Z.of_nat j)) as Hsh
      by (do 4 (destruct j as [|j]; [done|]); lia).
    rewrite !(x86_idx _ _ _ Hsh). f_equal. set (sh := 39 - 9 * Z.of_nat j) in *.
    apply Z.bits_inj'. intros n Hn. change 512 with (2 ^ 9). destruct (decide (n < 9)).
    - rewrite !Z.mod_pow2_bits_low, !Z.div_pow2_bits by lia. apply Z.mod_pow2_bits_low. lia.
    - by rewrite !Z.mod_pow2_bits_high by lia. }
  unfold same_page. by rewrite !Hx.
Qed.

Lemma digit_eq (a b : Z) : 0 <= a → 0 <= b →
  Z.to_nat (a mod 512) = Z.to_nat (b mod 512) ∧ a / 512 = b / 512 ↔ a = b.
Proof.
  intros Ha Hb. pose proof (Z.div_mod a 512). pose proof (Z.div_mod b 512).
  pose proof (Z.mod_pos_bound a 512). pose proof (Z.mod_pos_bound b 512).
  split; [|by intros ->]. intros [Hm Hd]. lia.
Qed.

Lemma same_page_S l v v' : same_page (S l) v v' ↔ same_page l v v' ∧ idx v' (S l) = idx v (S l).
Proof.
  unfold same_page. rewrite (indices_S v (S l)), (indices_S v' (S l)). split.
  - intros H. apply app_inj_2 in H as [Ha Hb]; [|done]. injection Hb as Hb. done.
  - intros [-> ->]. done.
Qed.

(** Addresses below [2^48] share the indices of the levels [0..l] exactly when
    they agree above the shift of the level. *)
Lemma same_page_shift l sh v v' :
  X86.LEVEL_SHIFTS !! l = Some sh → 0 <= v < 2 ^ 48 → 0 <= v' < 2 ^ 48 →
  same_page l (mkVirtAddr v) (mkVirtAddr v') ↔ v / 2 ^ sh = v' / 2 ^ sh.
Proof.
  intros Hsh Hv Hv'. revert sh Hsh. induction l as [|l IH]; intros sh Hsh.
  { injection Hsh as <-. unfold same_page.
    change (indices ?x 1) with [idx x 0]. rewrite !(x86_idx _ 0 39) by done.
    rewrite !Z.mod_small by (Z.to_euclidean_division_equations; lia).
    split; [|by intros ->]. intros [= H]. Z.to_euclidean_division_equations. lia. }
  assert (X86.LEVEL_SHIFTS !! l = Some (sh + 9) ∧ 0 <= sh) as [Hl Hs0].
  { do 3 (destruct l as [|l]; [by injection Hsh as <-|]). by destruct l. }
  rewrite same_page_S, (IH _ Hl), !(x86_idx _ (S l) sh) by done.
  assert (∀ x, x / 2 ^ (sh + 9) = x / 2 ^ sh / 512) as Hdiv.
  { intros x. rewrite Z.pow_add_r by lia. rewrite <- Z.div_div by lia. done. }
  rewrite !Hdiv.
  rewrite <- (digit_eq (v / 2 ^ sh) (v' / 2 ^ sh)) by (apply Z.div_pos; lia).
  split; intros [H1 H2]; split; done.
Qed.

(** The number of the page of the given size that holds an address. *)
Definition page_number (size : MapSize) (v : VirtAddr) : Z :=
  virt_u64 v mod 2 ^ 48 / (frame_count_for_size size * PAGE_SIZE).

Lemma x86_same_page (size : MapSize) (l : nat) (v v' : VirtAddr) :
  X86.x86_leaf_level size = Some l →
  same_page l v v' ↔ page_number size v = page_number size v'.
Proof.
  destruct v as [v], v' as [v']. intros Hl.
  rewrite same_page_low by (destruct size; injection Hl as <-; lia). unfold page_number. simpl virt_u64.
  pose proof (Z.mod_pos_bound v (2 ^ 48)). pose proof (Z.mod_pos_bound v' (2 ^ 48)).
  destruct size; injection Hl as <-.
  - apply (same_page_shift 3 12); [done|lia..].
  - apply (same_page_shift 2 21); [done|lia..].
  - apply (same_page_shift 1 30); [done|lia..].
Qed.
