(* ===== verification/MapperTheorems.v ===== *)
(** * Theorems about page tables

    The properties of [aether-frame/src/mm/mapper.rs] on x86_64, for any frame
    allocator that keeps the laws of [FrameApi]; the witnesses run the model on
    the buddy allocator of a small machine. *)

From S2P Require Import Prelude Frame RangeList Buddy BuddyInv BuddyLists BuddyBoot BuddySpec BuddyTheorems.
From S2P Require Import PageTable MapperProof X86Paging.

Section theorems.
Context {St : Type} `{!FrameAllocator St} {rep : St → frame_map → Prop} {usable : Z → Prop} {round : Z → Z}.
Context `{!FrameAllocatorSpec St rep usable round}.

(** Managed memory lies inside the 52-bit physical address space. *)
Definition physical (usable : Z → Prop) : Prop := ∀ s, usable s → 0 <= s < 2 ^ 40.

(** The allocator and the tables below [root] are consistent. *)
Definition consistent (σ : machine St) (root : PhysFrame) (m : frame_map) : Prop :=
  rep (frames σ) m ∧ space_ok usable round (mem σ) root m.

(** The blocks that are new in [m'] are tables of the space. *)
Definition only_tables (σ' : machine St) (root : PhysFrame) (m m' : frame_map) : Prop :=
  ∀ s, m !! s = None → is_Some (m' !! s) → ∃ q, tbl (mem σ') root q = Some (frame_of s).

Lemma page_decide (l : nat) size v v' (x y : option (nat * Z)) :
  leaf_level size = Some l →
  (if decide (same_page l v v') then x else y) =
  (if decide (page_number size v' = page_number size v) then x else y).
Proof.
  intros Hl. pose proof (x86_same_page size l v v' Hl) as Hiff.
  repeat case_decide; try done; exfalso; naive_solver.
Qed.

(** C5. [map] changes the translation of one page.  On success, every address
    of the page of the given size is translated by a leaf entry with the frame
    and the flags, where it was not translated before, every other address is
    translated as before, and the translation cache is flushed for the page if
    the space is active.  On error no translation changes: a misaligned
    address or frame touches nothing, [AlreadyMapped] means that an entry
    already covers the page, and the only other error is the allocator's.  In
    all cases the tables stay a proper tree and the only blocks taken from the
    allocator are tables of the space. *)
Theorem page_map_correct root virt s size flags (σ : machine St) m :
  physical usable → consistent σ root m → mappable (usable := usable) (mem σ) root m s →
  wp_res (map root virt (frame_of s) size flags) σ
    (λ _ σ', ∃ m' l, leaf_level size = Some l ∧ consistent σ' root m' ∧ m ⊆ m' ∧
       only_tables σ' root m m' ∧ flushed root virt σ σ' ∧
       (∀ v, page_number size v = page_number size virt → translate (mem σ) root v = None) ∧
       ∀ v, translate (mem σ') root v =
         if decide (page_number size v = page_number size virt)
         then Some (l, make_leaf (frame_of s) l flags) else translate (mem σ) root v)
    (λ e σ', ∃ m', consistent σ' root m' ∧ m ⊆ m' ∧ only_tables σ' root m m' ∧
       (∀ v, translate (mem σ') root v = translate (mem σ) root v) ∧ flushes σ' = flushes σ ∧
       match e with
       | InvalidAddress => σ' = σ ∧
           (virt_is_aligned virt (frame_count_for_size size * PAGE_SIZE) = false ∨
            is_aligned (start_address (frame_of s)) (frame_count_for_size size * PAGE_SIZE) = false)
       | AlreadyMapped => ∃ l, leaf_level size = Some l ∧
           (already σ root virt (S l) ∨ ∃ t, tbl (mem σ') root (indices virt (S l)) = Some t)
       | FrameError _ => True
       | _ => False
       end).
Proof.
  intros Hus [Hrep Hok] Hs. destruct (map_spec Hus root virt s size flags σ m Hrep Hok Hs) as (l & Hl & Hspec).
  eapply wp_res_mono; [exact Hspec|..].
  - intros _ σ' (m' & Hg & Hok' & Htr & Hnone & Hfl). exists m', l. split; [done|].
    split; [by split; [apply Hg|]|]. split; [apply Hg|]. split; [exact (gr_new _ _ _ _ _ Hg)|].
    split; [done|]. split.
    + intros v Hv. apply Hnone. by apply (x86_same_page size).
    + intros v. rewrite Htr. by apply page_decide.
  - intros e σ' (m' & Hg & Hok' & Htr & Hfl & He). exists m'. split; [by split; [apply Hg|]|].
    split; [apply Hg|]. split; [exact (gr_new _ _ _ _ _ Hg)|]. do 2 (split; [done|]).
    destruct e; try done. by exists l.
Qed.

(** C6. [unmap] and [unmap_preserve] remove the translation of one page.  On
    success the result names the frame and the size of the entry that
    translated the address; every address of that page is no longer
    translated, the others are as before, and the page is flushed if the space
    is active.  The block is released (or kept) exactly once, the tables that
    became empty are returned to the allocator and no other block is, and no
    empty table is left on the path.  [NotMapped] means that the address was
    not translated, and changes nothing; when the allocator refuses a release,
    the translation is removed all the same. *)
Theorem page_unmap_correct root virt release (σ : machine St) m :
  consistent σ root m → (release = true → may_release root virt σ m) →
  wp_res (if release then unmap root virt else unmap_preserve root virt) σ
    (λ r σ', ∃ l e m1 m', translate (mem σ) root virt = Some (l, e) ∧
       unmapped_frame r = entry_frame e ∧ leaf_level (unmapped_size r) = Some l ∧
       flushed root virt σ σ' ∧ consistent σ' root m' ∧ path_full (mem σ') root virt ∧
       released (round := round) release m e (unmapped_size r) (remaining_refs r) m1 ∧
       (∀ s, m' !! s = m1 !! s ∨
         (m' !! s = None ∧ ∃ q, tbl (mem σ) root q = Some (frame_of s) ∧ tbl (mem σ') root q = None)) ∧
       ∀ v, translate (mem σ') root v =
         if decide (page_number (unmapped_size r) v = page_number (unmapped_size r) virt) then None
         else translate (mem σ) root v)
    (λ e σ', match e with
       | NotMapped => σ' = σ ∧ translate (mem σ) root virt = None
       | FrameError _ => ∃ l x size m', translate (mem σ) root virt = Some (l, x) ∧
           leaf_level size = Some l ∧ consistent σ' root m' ∧ flushed root virt σ σ' ∧
           (∀ v, translate (mem σ') root v =
              if decide (page_number size v = page_number size virt) then None
              else translate (mem σ) root v) ∧
           ((release = true ∧ ∀ s rc, entry_frame x = frame_of s →
               m !! s ≠ Some (round (frame_count_for_size size), rc)) ∨
            ∃ q s, tbl (mem σ) root q = Some (frame_of s) ∧ ¬ usable s)
       | _ => False
       end).
Proof.
  intros [Hrep Hok] Hsole.
  pose proof (unmap_inner_spec root virt release σ m Hrep Hok Hsole) as Hspec.
  eapply wp_res_mono; [by destruct release; exact Hspec|..].
  - intros r σ' (l & e & m1 & m' & Htr & Hf & Hl & (Hrm & Hfl & _) & Hrel & Hrep' & Hok' & Hm' & Hfull).
    exists l, e, m1, m'. do 4 (split; [done|]). split; [by split|]. do 3 (split; [done|]).
    intros v. rewrite Hrm. by apply page_decide.
  - intros [] σ'; try done.
    intros (l & x & size & Htr & Hl & (Hrm & Hfl & _) & (m' & Hrep' & Hok') & Hwhy).
    exists l, x, size, m'. do 2 (split; [done|]). split; [by split|]. split; [done|]. split; [|done].
    intros v. rewrite Hrm. by apply page_decide.
Qed.

(** [protect] replaces the flags of the page that holds the address and
    keeps its frame and size; the other translations are unchanged and the page
    is flushed if the space is active.  It fails exactly when the address is
    not translated, and then changes nothing. *)
Theorem page_protect_correct root virt flags (σ : machine St) m :
  consistent σ root m →
  wp_res (protect root virt flags) σ
    (λ _ σ', ∃ l e size, translate (mem σ) root virt = Some (l, e) ∧ leaf_level size = Some l ∧
       consistent σ' root m ∧ flushed root virt σ σ' ∧
       ∀ v, translate (mem σ') root v =
         if decide (page_number size v = page_number size virt)
         then Some (l, make_leaf (entry_frame e) l flags) else translate (mem σ) root v)
    (λ e σ', e = NotMapped ∧ σ' = σ ∧ translate (mem σ) root virt = None).
Proof.
  intros [Hrep Hok].
  eapply wp_res_mono; [apply (protect_walk_spec root virt flags LEVELS 0 root σ m Hrep Hok); [done|lia]|..].
  2:{ done. }
  intros _ σ' (l & e & Htr & Hg & Hok' & Hch & Hfl).
  pose proof Htr as (Hl & t & Ht & He & Hp & Hlf)%translate_mapped.
  destruct (sp_leaf _ _ _ _ _ Hok _ _ _ e Ht (proj2 (idx_ok virt l Hl)) (eq_sym He) Hp) as ([size Hsz] & _);
    [by rewrite length_indices|]. rewrite length_indices in Hsz.
  exists l, e, size. do 2 (split; [done|]). split; [by split; [apply Hg|]|]. split; [done|].
  intros v. rewrite Hch. by apply page_decide.
Qed.

(** [map_alloc] never leaks.  On success the page is translated to a block
    that was free, with one reference; on error no translation changes and the
    block has been given back: every block that is new in the allocator is a
    table of the space. *)
Theorem page_map_alloc_correct root virt size flags (σ : machine St) m :
  physical usable → consistent σ root m →
  wp_res (map_alloc root virt size flags) σ
    (λ _ σ', ∃ s l m', leaf_level size = Some l ∧ m !! s = None ∧ m ⊆ m' ∧
       m' !! s = Some (round (frame_count_for_size size), 1) ∧ consistent σ' root m' ∧
       ∀ v, translate (mem σ') root v =
         if decide (page_number size v = page_number size virt)
         then Some (l, make_leaf (frame_of s) l flags) else translate (mem σ) root v)
    (λ e σ', ∃ m', m ⊆ m' ∧ consistent σ' root m' ∧ only_tables σ' root m m' ∧
       ∀ v, translate (mem σ') root v = translate (mem σ) root v).
Proof.
  intros Hus [Hrep Hok]. destruct (map_alloc_spec Hus root virt size flags σ m Hrep Hok) as (l & Hl & Hspec).
  eapply wp_res_mono; [exact Hspec|..].
  - intros _ σ' (s & m' & H1 & H2 & H3 & H4 & H5 & H6). exists s, l, m'. do 4 (split; [done|]).
    split; [by split|]. intros v. rewrite H6. by apply page_decide.
  - intros e σ' (m' & H1 & H2 & H3 & H4 & H5). exists m'. split; [done|]. split; [by split|]. done.
Qed.

(** C7. Address spaces are isolated.  Whatever [map], [unmap] and [protect] do
    below one root, successful or not, an address of another space keeps its
    translation, provided that the tables that translate it are not shared with
    the first space and are allocated or outside the managed memory. *)
Theorem page_isolation root other v (σ : machine St) m :
  physical usable → consistent σ root m → apart (usable := usable) root other v σ m →
  (∀ virt s size flags, mappable (usable := usable) (mem σ) root m s →
     let σ' := (map root virt (frame_of s) size flags σ).2 in
     translate (mem σ') other v = translate (mem σ) other v) ∧
  (∀ virt release, (release = true → may_release root virt σ m) →
     let σ' := (unmap_inner root virt release σ).2 in
     translate (mem σ') other v = translate (mem σ) other v) ∧
  (∀ virt flags,
     let σ' := (protect root virt flags σ).2 in
     translate (mem σ') other v = translate (mem σ) other v).
Proof.
  intros Hus [Hrep Hok] Hap. split; [|split]; cbv zeta.
  - intros virt s size flags Hs. destruct (map_spec Hus root virt s size flags σ m Hrep Hok Hs) as (l & _ & Hspec).
    unfold wp_res, wp in Hspec.
    destruct (map root virt (frame_of s) size flags σ) as [[u|e| |] σ']; cbn [fst snd] in Hspec |- *.
    1,2: destruct Hspec as (m' & Hg & _); by eapply grew_apart.
    all: destruct Hspec.
  - intros virt release Hsole. pose proof (unmap_inner_spec root virt release σ m Hrep Hok Hsole) as Hspec.
    unfold wp_res, wp in Hspec.
    destruct (unmap_inner root virt release σ) as [[r|e| |] σ']; cbn [fst snd] in Hspec |- *.
    + destruct Hspec as (l & e & m1 & m' & _ & _ & _ & Hrm & _). by eapply removed_apart.
    + destruct e; cbn [unmap_error] in Hspec; try (by destruct Hspec); [by destruct Hspec as [-> _]|].
      destruct Hspec as (l & x & size & _ & _ & Hrm & _). by eapply removed_apart.
    + destruct Hspec.
    + destruct Hspec.
  - intros virt flags.
    pose proof (protect_walk_spec root virt flags LEVELS 0 root σ m Hrep Hok eq_refl ltac:(lia)) as Hspec.
    unfold wp_res, wp in Hspec. unfold protect.
    destruct (protect_walk LEVELS 0 root virt flags root σ) as [[u|e| |] σ']; cbn [fst snd] in Hspec |- *.
    + destruct Hspec as (l & x & _ & Hg & _). by eapply grew_apart.
    + by destruct Hspec as (_ & -> & _).
    + destruct Hspec.
    + destruct Hspec.
Qed.
End theorems.

(** ** A small machine *)

(** Empty tables on the buddy allocator of [BuddyTheorems], seen by CPU 0; the
    boot loader left the active root in frame 0. *)
#[local] Existing Instance buddy_allocator.
#[local] Instance demo_frames : FrameAllocator BuddyAllocator := buddy_allocator 0 false.

Definition demo_machine0 : machine BuddyAllocator := mkMachine (λ _, 0) demo (frame_of 0) [].
Definition demo_root : PhysFrame := match (new_root demo_machine0).1 with Ok root => root | _ => frame_of 0 end.
Definition demo_machine : machine BuddyAllocator := (new_root demo_machine0).2.

(** One page of device memory at 4 MiB. *)
Definition demo_virt : VirtAddr := mkVirtAddr 4194304.
Definition demo_flags : Z := MapFlags.bitor MapFlags.READ (MapFlags.bitor MapFlags.WRITE MapFlags.USER).
Definition demo_mapped : machine BuddyAllocator :=
  (map demo_root demo_virt (frame_of 200) Size4KiB demo_flags demo_machine).2.

Definition block_round (n : Z) : Z := block_size (ceil_log2 n).

Lemma demo_spec : ∃ c, buddy_rep c demo ∅ ∧ physical (covered (c_ranges c)) ∧
  ¬ covered (c_ranges c) 200 ∧
  FrameAllocatorSpec BuddyAllocator (buddy_rep c) (covered (c_ranges c)) block_round.
Proof.
  pose proof (bootstrap_spec 8 2 32 demo_map 2 demo_map_ok) as H.
  assert (bootstrap 8 2 32 demo_map 2 = Ok demo) as Hd by (vm_compute; reflexivity).
  rewrite Hd in H. destruct H as (c & u & HI & Hcpus & Hcov & _). exists c.
  assert (∀ f, covered (c_ranges c) f → 0 <= f < 100) as Hb.
  { intros f (g & Hg & Hk & Hlo & Hhi)%Hcov.
    apply elem_of_cons in Hg as [->|[->|[]%elem_of_nil]%elem_of_cons];
      rewrite PAGE_SIZE_eq in *; simpl in *; lia. }
  split; [|split; [|split]].
  - exists ∅. split; [|done]. eapply (Rep_intro c demo u _ []); [exact HI|]. intros p o. lia.
  - intros f Hf%Hb. lia.
  - intros Hf%Hb. lia.
  - apply buddy_satisfies_spec. rewrite Hcpus. lia.
Qed.

(** The allocator of the small machine and its table root. *)
Definition demo_setup (c : cfg) : Prop :=
  FrameAllocatorSpec BuddyAllocator (buddy_rep c) (covered (c_ranges c)) block_round ∧
  physical (covered (c_ranges c)) ∧ ¬ covered (c_ranges c) 200.

Definition ready (c : cfg) (σ : machine BuddyAllocator) (root : PhysFrame) (m : frame_map) : Prop :=
  consistent (rep := buddy_rep c) (usable := covered (c_ranges c)) (round := block_round) σ root m ∧
  mappable (usable := covered (c_ranges c)) (mem σ) root m 200.

Lemma new_root_ready c b root σ :
  buddy_rep c b ∅ → demo_setup c → root ≠ frame_of 200 →
  new_root (mkMachine (λ _, 0) b (frame_of 0) []) = (Ok root, σ) → ∃ m, ready c σ root m.
Proof.
  intros Hrep (Hspec & Hph & Hdev) Hne E.
  pose proof (new_root_spec Hph (mkMachine (λ _, 0) b (frame_of 0) []) ∅ Hrep) as H.
  unfold wp_res, wp in H. rewrite E in H. cbn [fst snd] in H.
  destruct H as (s & Hs & _ & Hrep' & Hok & Hroot & _). exists (<[s := (block_round 1, 1)]> ∅).
  split; [by split|]. split; [lia|]. split; [by right|]. intros q [_ Hq]%Hroot. congruence.
Qed.

Lemma pair_of {X Y} (p : X * Y) a : p.1 = a → p = (a, p.2).
Proof. by intros <-; destruct p. Qed.

Lemma demo_ready : ∃ c m, demo_setup c ∧ ready c demo_machine demo_root m.
Proof.
  destruct demo_spec as (c & Hrep & Hph & Hdev & Hspec). exists c.
  assert (demo_setup c) as Hset by exact (conj Hspec (conj Hph Hdev)).
  assert ((new_root demo_machine0).1 = Ok demo_root) as E by (vm_compute; reflexivity).
  destruct (new_root_ready c demo demo_root demo_machine Hrep Hset) as [m Hm].
  - vm_compute. discriminate.
  - exact (pair_of _ _ E).
  - exists m. exact (conj Hset Hm).
Qed.

Lemma page_map_correct_witness :
  (map demo_root demo_virt (frame_of 200) Size4KiB demo_flags demo_machine).1 = Ok () ∧
  translate (mem demo_mapped) demo_root (mkVirtAddr 4196000) =
    Some (3%nat, make_leaf (frame_of 200) 3 demo_flags) ∧
  ∃ c m', consistent (rep := buddy_rep c) (usable := covered (c_ranges c)) (round := block_round)
    demo_mapped demo_root m'.
Proof.
  split; [vm_compute; reflexivity|]. split; [vm_compute; reflexivity|].
  destruct demo_ready as (c & m & (Hspec & Hph & _) & Hcon & Hs).
  pose proof (page_map_correct demo_root demo_virt 200 Size4KiB demo_flags demo_machine m Hph Hcon Hs) as H.
  unfold wp_res, wp in H.
  assert ((map demo_root demo_virt (frame_of 200) Size4KiB demo_flags demo_machine).1 = Ok ()) as E
    by (vm_compute; reflexivity).
  rewrite E in H. destruct H as (m' & l & _ & Hc & _). exists c, m'. exact Hc.
Defined.

(** The mapped page is consistent too. *)
Lemma demo_mapped_ready : ∃ c m, demo_setup c ∧
  consistent (rep := buddy_rep c) (usable := covered (c_ranges c)) (round := block_round) demo_mapped demo_root m.
Proof.
  destruct demo_ready as (c & m & Hset & [Hrep Hok] & Hs). destruct Hset as (Hspec & Hph & Hdev).
  destruct (map_spec Hph demo_root demo_virt 200 Size4KiB demo_flags demo_machine m Hrep Hok Hs)
    as (l & _ & H). unfold wp_res, wp in H.
  assert ((map demo_root demo_virt (frame_of 200) Size4KiB demo_flags demo_machine).1 = Ok ()) as E
    by (vm_compute; reflexivity).
  rewrite E in H. destruct H as (m' & Hg & Hok' & _). exists c, m'. split; [exact (conj Hspec (conj Hph Hdev))|].
  exact (conj (gr_rep _ _ _ _ _ Hg) Hok').
Qed.

Lemma page_unmap_correct_witness :
  (unmap_preserve demo_root demo_virt demo_mapped).1 = Ok (mkUnmapResult (frame_of 200) 1 Size4KiB) ∧
  translate (mem (unmap_preserve demo_root demo_virt demo_mapped).2) demo_root demo_virt = None ∧
  ∃ c m', consistent (rep := buddy_rep c) (usable := covered (c_ranges c)) (round := block_round)
    (unmap_preserve demo_root demo_virt demo_mapped).2 demo_root m'.
Proof.
  split; [vm_compute; reflexivity|]. split; [vm_compute; reflexivity|].
  destruct demo_mapped_ready as (c & m & (Hspec & Hph & _) & Hcon).
  assert (false = true → may_release demo_root demo_virt demo_mapped m) as Hrel by (intros Hf; discriminate Hf).
  pose proof (page_unmap_correct demo_root demo_virt false demo_mapped m Hcon Hrel) as H.
  unfold wp_res, wp in H. cbv iota in H.
  assert ((unmap_preserve demo_root demo_virt demo_mapped).1 = Ok (mkUnmapResult (frame_of 200) 1 Size4KiB)) as E
    by (vm_compute; reflexivity).
  rewrite E in H. destruct H as (l & e & m1 & m' & _ & _ & _ & _ & Hc & _). exists c, m'. exact Hc.
Defined.

Lemma page_protect_correct_witness :
  (protect demo_root demo_virt MapFlags.READ demo_mapped).1 = Ok () ∧
  translate (mem (protect demo_root demo_virt MapFlags.READ demo_mapped).2) demo_root demo_virt =
    Some (3%nat, make_leaf (frame_of 200) 3 MapFlags.READ) ∧
  ∃ c m', consistent (rep := buddy_rep c) (usable := covered (c_ranges c)) (round := block_round)
    (protect demo_root demo_virt MapFlags.READ demo_mapped).2 demo_root m'.
Proof.
  split; [vm_compute; reflexivity|]. split; [vm_compute; reflexivity|].
  destruct demo_mapped_ready as (c & m & (Hspec & Hph & _) & Hcon).
  pose proof (page_protect_correct demo_root demo_virt MapFlags.READ demo_mapped m Hcon) as H.
  unfold wp_res, wp in H.
  assert ((protect demo_root demo_virt MapFlags.READ demo_mapped).1 = Ok ()) as E by (vm_compute; reflexivity).
  rewrite E in H. destruct H as (l & e & size & _ & _ & Hc & _). exists c, m. exact Hc.
Defined.

Lemma page_map_alloc_correct_witness :
  (map_alloc demo_root demo_virt Size4KiB demo_flags demo_machine).1 = Ok () ∧
  ∃ c m', consistent (rep := buddy_rep c) (usable := covered (c_ranges c)) (round := block_round)
    (map_alloc demo_root demo_virt Size4KiB demo_flags demo_machine).2 demo_root m'.
Proof.
  split; [vm_compute; reflexivity|].
  destruct demo_ready as (c & m & (Hspec & Hph & _) & Hcon & _).
  pose proof (page_map_alloc_correct demo_root demo_virt Size4KiB demo_flags demo_machine m Hph Hcon) as H.
  unfold wp_res, wp in H.
  assert ((map_alloc demo_root demo_virt Size4KiB demo_flags demo_machine).1 = Ok ()) as E
    by (vm_compute; reflexivity).
  rewrite E in H. destruct H as (s & l & m' & _ & _ & _ & _ & Hc & _). exists c, m'. exact Hc.
Defined.

(** Another space whose root is a table outside the managed memory. *)
Lemma zero_apart c σ root m :
  ready c σ root m → ¬ covered (c_ranges c) 200 → (∀ a, mem σ a = 0) →
  apart (usable := covered (c_ranges c)) root (frame_of 200) demo_virt σ m.
Proof.
  intros [_ (_ & _ & Hno)] Hdev Hz k u Hu.
  destruct (zeroed_root (mem σ) (frame_of 200)) as [Hroot _]; [intros i _; by rewrite Hz|].
  destruct (Hroot _ _ Hu) as [_ ->]. split; [done|]. exists 200. split; [done|]. split; [lia|]. by right.
Qed.

Lemma new_root_zero (b : BuddyAllocator) a : mem (new_root (mkMachine (λ _, 0) b (frame_of 0) [])).2 a = 0.
Proof.
  unfold new_root, with_frames, zero_page, mbind, M_bind, mmodify. cbn [frames].
  destruct (fa_alloc 1 b) as [[f|e| |] st]; try reflexivity. simpl. unfold zero_words. by case_decide.
Qed.

Lemma page_isolation_witness :
  translate (mem demo_mapped) (frame_of 200) demo_virt = translate (mem demo_machine) (frame_of 200) demo_virt.
Proof.
  destruct demo_ready as (c & m & (Hspec & Hph & Hdev) & Hr).
  pose proof (zero_apart c demo_machine demo_root m Hr Hdev (new_root_zero demo)) as Hap. destruct Hr as [Hcon Hs].
  destruct (page_isolation demo_root (frame_of 200) demo_virt demo_machine m Hph Hcon Hap) as [H _].
  exact (H demo_virt 200 Size4KiB demo_flags Hs).
Defined.
