(* ===== verification/Image.v ===== *)
(** * Searches in sorted slices, and program images

    First the two searches of the Rust standard library that the sources use on
    sorted vectors, [binary_search_by] and [partition_point], as the library
    implements them: halving with a branch-free update of the base.  Then the
    ELF images of [aether-process/src/image.rs]: their sources and the parser
    of headers and segments. *)

From S2P Require Import Prelude Frame.

(** [while size > 1]: every round halves the size, so the size is enough fuel. *)
Fixpoint search_loop {A} (fuel : nat) (f : A → comparison) (l : list A) (base size : nat) : nat :=
  match fuel with
  | O => base
  | S fuel' =>
      if decide (1 < size)%nat then
        let half := (size / 2)%nat in
        let mid := (base + half)%nat in
        let base := match f <$> l !! mid with Some Gt => base | _ => mid end in
        search_loop fuel' f l base (size - half)
      else base
  end.

(** [Ok index] of an equal element, or [Err index] where to insert. *)
Definition binary_search_by {A} (f : A → comparison) (l : list A) : nat + nat :=
  match l with
  | [] => inr 0%nat
  | _ =>
      let base := search_loop (length l) f l 0 (length l) in
      match f <$> l !! base with
      | Some Eq => inl base
      | Some Lt => inr (base + 1)%nat
      | _ => inr base
      end
  end.

Definition binary_search_by_key {A} (key : A → Z) (k : Z) (l : list A) : nat + nat :=
  binary_search_by (λ x, key x ?= k) l.

(** [.unwrap_or_else(|index| index)] *)
Definition search_index (r : nat + nat) : nat := match r with inl i | inr i => i end.

Definition partition_point {A} (pred : A → bool) (l : list A) : nat :=
  search_index (binary_search_by (λ x, if pred x then Lt else Gt) l).

(** ** Correctness *)

(** The elements are below, equal to and above the target, in this order. *)
Definition ordered {A} (f : A → comparison) (l : list A) : Prop :=
  ∀ i j x y, (i <= j)%nat → l !! i = Some x → l !! j = Some y →
    (f x = Gt → f y = Gt) ∧ (f y = Lt → f x = Lt).

Section search.
Context {A : Type} (f : A → comparison) (l : list A) (Hord : ordered f l).

(** Above [base + size] everything is greater; [base] itself is not, unless it
    is the start. *)
Lemma search_loop_spec fuel base size :
  (size <= fuel)%nat → (1 <= size)%nat → (base + size <= length l)%nat →
  (∀ i x, (base + size <= i)%nat → l !! i = Some x → f x = Gt) →
  (base = 0%nat ∨ ∃ x, l !! base = Some x ∧ f x ≠ Gt) →
  let b := search_loop fuel f l base size in
  (b < length l)%nat ∧ (∀ i x, (b < i)%nat → l !! i = Some x → f x = Gt) ∧
  (b = 0%nat ∨ ∃ x, l !! b = Some x ∧ f x ≠ Gt).
Proof.
  revert base size. induction fuel as [|fuel IH]; intros base size Hf Hs Hb Hhi Hlo; [lia|]. cbn [search_loop].
  case_decide as Hsz.
  - assert (1 <= size / 2 < size ∧ 2 * (size / 2) <= size)%nat as Hh.
    { split; [split|apply Nat.Div0.mul_div_le]; [apply (Nat.div_le_lower_bound size 2 1); lia|apply Nat.div_lt; lia]. }
    destruct (lookup_lt_is_Some_2 l (base + size / 2)) as [x Hx]; [lia|]. rewrite Hx. cbn [fmap option_fmap option_map].
    remember (size / 2)%nat as half eqn:Hhalf. clear Hhalf.
    destruct (f x) eqn:Hfx; apply IH; try lia.
    + intros i y Hi. apply Hhi. lia.
    + right. exists x. by rewrite Hx, Hfx.
    + intros i y Hi. apply Hhi. lia.
    + right. exists x. by rewrite Hx, Hfx.
    + intros i y Hi Hy. eapply (Hord (base + half)%nat i); [lia|done..].
    + done.
  - assert (size = 1)%nat as -> by lia. split; [lia|]. split; [|done].
    intros i x Hi. apply Hhi. lia.
Qed.

End search.

(** A match is found, or the position separates the smaller from the greater. *)
Lemma binary_search_by_spec {A} (f : A → comparison) l :
  ordered f l →
  match binary_search_by f l with
  | inl i => ∃ x, l !! i = Some x ∧ f x = Eq
  | inr i => (i <= length l)%nat ∧ (∀ j x, (j < i)%nat → l !! j = Some x → f x = Lt) ∧
             ∀ j x, (i <= j)%nat → l !! j = Some x → f x = Gt
  end.
Proof.
  intros Hord. unfold binary_search_by. destruct l as [|a l'] eqn:Hl; [split; [done|]; split; [lia|done]|]. rewrite <-Hl in *.
  assert (1 <= length l)%nat by (rewrite Hl; simpl; lia). clear Hl a l'.
  destruct (search_loop_spec f l Hord (length l) 0 (length l)) as (Hb & Hhi & Hlo); [lia..| |by left|].
  { intros i x Hi Hx. apply lookup_lt_Some in Hx. lia. }
  set (b := search_loop _ _ _ _ _) in *. destruct (lookup_lt_is_Some_2 l b Hb) as [x Hx]. rewrite Hx. simpl.
  destruct (f x) eqn:Hfx.
  - by exists x.
  - split; [lia|]. split.
    + intros j y Hj Hy. eapply (Hord j b); [lia|done..].
    + intros j y Hj. apply Hhi. lia.
  - destruct Hlo as [Hb0|(y & Hy & Hfy)]; [|simplify_eq]. rewrite Hb0 in *. split; [lia|]. split; [lia|].
    intros j y Hj Hy. eapply (Hord 0%nat j); [lia|done..].
Qed.

Lemma partition_point_spec {A} (pred : A → bool) l :
  (∀ i j x y, (i <= j)%nat → l !! i = Some x → l !! j = Some y → pred y = true → pred x = true) →
  (partition_point pred l <= length l)%nat ∧
  (∀ j x, (j < partition_point pred l)%nat → l !! j = Some x → pred x = true) ∧
  ∀ j x, (partition_point pred l <= j)%nat → l !! j = Some x → pred x = false.
Proof.
  intros Hmono. unfold partition_point.
  pose proof (binary_search_by_spec (λ x, if pred x then Lt else Gt) l) as Hspec.
  destruct (binary_search_by _ _) as [i|i]; simpl.
  - destruct Hspec as (x & _ & Hx); [|by destruct (pred x)].
    intros i' j x y Hij Hx Hy. specialize (Hmono i' j x y Hij Hx Hy). destruct (pred x), (pred y); naive_solver.
  - destruct Hspec as (Hi & Hlo & Hhi).
    { intros i' j x y Hij Hx Hy. specialize (Hmono i' j x y Hij Hx Hy). destruct (pred x), (pred y); naive_solver. }
    split; [done|]. split; intros j x Hj Hx; [specialize (Hlo j x Hj Hx)|specialize (Hhi j x Hj Hx)]; by destruct (pred x).
Qed.

(** Keys that increase. *)
Lemma sorted_ordered {A} (key : A → Z) k l :
  (∀ i j x y, (i < j)%nat → l !! i = Some x → l !! j = Some y → key x <= key y) →
  ordered (λ x, key x ?= k) l.
Proof.
  intros Hs i j x y Hij Hx Hy. assert (key x <= key y) as Hle.
  { destruct (decide (i = j)) as [->|]; [simplify_eq; lia|]. eapply (Hs i j); [lia|done..]. }
  rewrite !Z.compare_gt_iff, !Z.compare_lt_iff. lia.
Qed.

(** ** ELF images

    Models [aether-kernel/libs/aether-process/src/image.rs]: the trait
    [ProgramImageSource] as a record of operations, its implementation for byte
    slices, and the parser of ELF headers.  Bytes are integers below 256; a
    string is the list of its bytes, [String::from_utf8] checks that they are
    valid UTF-8. *)

Inductive ImageError := UnexpectedEof | InvalidElf | UnsupportedElf | ReadFailure.

(** [len] and [read_exact_at(offset, buffer)], which returns the bytes of the
    buffer, whose length is the second argument. *)
Record ProgramImageSource := mkSource {
  src_len : Z;
  read_exact_at : Z → Z → outcome ImageError (list Z);
}.

Definition read_alloc (source : ProgramImageSource) (offset len : Z) : outcome ImageError (list Z) :=
  read_exact_at source offset len.

(** [bytes.get(start..end)] *)
Definition get_range (bytes : list Z) (start end_ : Z) : option (list Z) :=
  if decide (start <= end_ ∧ end_ <= Z.of_nat (length bytes)) then
    Some (take (Z.to_nat (end_ - start)) (drop (Z.to_nat start) bytes))
  else None.

Definition slice_read_exact_at (bytes : list Z) (offset n : Z) : outcome ImageError (list Z) :=
  end_ ← ok_or (checked_add u64_max offset n) UnexpectedEof;
  ok_or (get_range bytes offset end_) UnexpectedEof.

(** [impl ProgramImageSource for [u8]] *)
Definition slice_source (bytes : list Z) : ProgramImageSource :=
  mkSource (Z.of_nat (length bytes)) (slice_read_exact_at bytes).

Inductive ElfImageType := Executable | SharedObject.
Inductive ElfSegmentType := Load | Interp | Phdr | Other (kind : Z).
#[global] Instance ElfSegmentType_eq_dec : EqDecision ElfSegmentType.
Proof. solve_decision. Defined.

(** [ElfSegmentFlags(u32)] *)
Module ElfSegmentFlags.
Definition EXECUTE : Z := 1.
Definition WRITE : Z := 2.
Definition READ : Z := 4.
Definition is_read (flags : Z) : bool := negb (Z.land flags READ =? 0).
Definition is_write (flags : Z) : bool := negb (Z.land flags WRITE =? 0).
Definition is_execute (flags : Z) : bool := negb (Z.land flags EXECUTE =? 0).
End ElfSegmentFlags.

Record ElfProgramHeader := mkPhdr {
  ph_kind : ElfSegmentType;
  ph_flags : Z;
  ph_offset : Z;
  ph_virtual_addr : Z;
  ph_file_size : Z;
  ph_mem_size : Z;
}.

Record ElfImage := mkElf {
  image_type : ElfImageType;
  elf_entry : Z;
  phoff : Z;
  phnum : Z;
  phent : Z;
  min_vaddr : Z;
  program_headers : list ElfProgramHeader;
}.

Definition read_u16 (bytes : list Z) (offset : Z) : outcome ImageError Z :=
  raw ← ok_or (get_range bytes offset (offset + 2)) UnexpectedEof;
  mret (le_val raw).
Definition read_u32 (bytes : list Z) (offset : Z) : outcome ImageError Z :=
  raw ← ok_or (get_range bytes offset (offset + 4)) UnexpectedEof;
  mret (le_val raw).
Definition read_u64 (bytes : list Z) (offset : Z) : outcome ImageError Z :=
  raw ← ok_or (get_range bytes offset (offset + 8)) UnexpectedEof;
  mret (le_val raw).

(** [value + align - 1] is not checked: [None] is an overflow. *)
Definition align_up (value align : Z) : option Z :=
  if decide (value + align - 1 <= u64_max)
  then Some (Z.land (value + align - 1) (u64_max - (align - 1))) else None.
Definition align_down (value align : Z) : Z := Z.land value (u64_max - (align - 1)).

Definition segment_type (kind : Z) : ElfSegmentType :=
  if decide (kind = 1) then Load else if decide (kind = 3) then Interp
  else if decide (kind = 6) then Phdr else Other kind.

(** The fields of one program header. *)
Definition parse_header (entry_bytes : list Z) : outcome ImageError ElfProgramHeader :=
  kind ← read_u32 entry_bytes 0;
  flags ← read_u32 entry_bytes 4;
  offset ← read_u64 entry_bytes 8;
  virtual_addr ← read_u64 entry_bytes 16;
  file_size ← read_u64 entry_bytes 32;
  mem_size ← read_u64 entry_bytes 40;
  mret (mkPhdr (segment_type kind) flags offset virtual_addr file_size mem_size).

(** The extent of the loaded segments so far. *)
Definition widen (h : ElfProgramHeader) (range : Z * Z) : outcome ImageError (Z * Z) :=
  if decide (ph_kind h = Load) then
    sum ← ok_or (checked_add u64_max (ph_virtual_addr h) (ph_mem_size h)) InvalidElf;
    end_ ← expect (align_up sum 4096);
    mret (range.1 `min` align_down (ph_virtual_addr h) 4096, range.2 `max` end_)
  else mret range.

(** [for index in 0..phnum] *)
Fixpoint parse_headers (indices : list nat) (ph_bytes : list Z) (phent : Z) (range : Z * Z)
    : outcome ImageError (list ElfProgramHeader * (Z * Z)) :=
  match indices with
  | [] => mret ([], range)
  | index :: rest =>
      start ← ok_or (if decide (Z.of_nat index * phent <= u64_max) then Some (Z.of_nat index * phent) else None) InvalidElf;
      entry_bytes ← ok_or (get_range ph_bytes start (start + phent)) InvalidElf;
      h ← parse_header entry_bytes;
      range ← widen h range;
      '(hs, range) ← parse_headers rest ph_bytes phent range;
      mret (h :: hs, range)
  end.

Definition byte_at (bytes : list Z) (i : nat) : Z := default 0 (bytes !! i).

Definition parse (source : ProgramImageSource) : outcome ImageError ElfImage :=
  header ← read_exact_at source 0 64;
  if decide (take 4 header ≠ [127; 69; 76; 70]) then Err InvalidElf
  else if decide (byte_at header 4 ≠ 2 ∨ byte_at header 5 ≠ 1 ∨ byte_at header 6 ≠ 1) then Err UnsupportedElf
  else
    kind ← read_u16 header 16;
    image_type ← (if decide (kind = 2) then Ok Executable
                  else if decide (kind = 3) then Ok SharedObject else Err UnsupportedElf);
    entry ← read_u64 header 24;
    phoff ← read_u64 header 32;
    phent ← read_u16 header 54;
    phnum ← read_u16 header 56;
    if decide (phnum = 0 ∨ phent < 56) then Err InvalidElf
    else
      ph_table_len ← ok_or (if decide (phent * phnum <= u64_max) then Some (phent * phnum) else None) InvalidElf;
      ph_bytes ← read_alloc source phoff ph_table_len;
      '(headers, (min_vaddr, max_vaddr)) ←
        parse_headers (seq 0 (Z.to_nat phnum)) ph_bytes phent (u64_max, 0);
      if decide (min_vaddr = u64_max ∨ max_vaddr <= min_vaddr) then Err InvalidElf
      else mret (mkElf image_type entry phoff phnum phent min_vaddr headers).

Definition load_bias (image : ElfImage) (preferred_base : Z) : Z :=
  match image_type image with
  | SharedObject => saturating_sub preferred_base (min_vaddr image)
  | Executable => 0
  end.

(** ** UTF-8 ([core::str::from_utf8]) *)

Definition in_range (lo hi b : Z) : bool := (lo <=? b) && (b <=? hi).

(** The well-formed sequences of the Unicode standard. *)
Fixpoint utf8_valid (bytes : list Z) : bool :=
  match bytes with
  | [] => true
  | a :: rest =>
      if in_range 0 127 a then utf8_valid rest
      else match rest with
      | [] => false
      | b :: rest2 =>
          if in_range 194 223 a then in_range 128 191 b && utf8_valid rest2
          else match rest2 with
          | [] => false
          | c :: rest3 =>
              if in_range 224 239 a then
                (if a =? 224 then in_range 160 191 b
                 else if a =? 237 then in_range 128 159 b else in_range 128 191 b)
                && in_range 128 191 c && utf8_valid rest3
              else match rest3 with
              | [] => false
              | d :: rest4 =>
                  in_range 240 244 a &&
                  (if a =? 240 then in_range 144 191 b
                   else if a =? 244 then in_range 128 143 b else in_range 128 191 b)
                  && in_range 128 191 c && in_range 128 191 d && utf8_valid rest4
              end
          end
      end
  end.

Definition from_utf8 {E} (bytes : list Z) (e : E) : outcome E (list Z) :=
  if utf8_valid bytes then Ok bytes else Err e.

(** The bytes before the first zero byte. *)
Fixpoint until_nul (bytes : list Z) : list Z :=
  match bytes with
  | [] => []
  | b :: rest => if decide (b = 0) then [] else b :: until_nul rest
  end.

Definition interpreter_path (image : ElfImage) (source : ProgramImageSource)
    : outcome ImageError (option (list Z)) :=
  match find (λ h, bool_decide (ph_kind h = Interp)) (program_headers image) with
  | None => mret None
  | Some header =>
      path ← read_alloc source (ph_offset header) (ph_file_size header);
      path ← from_utf8 (until_nul path) InvalidElf;
      mret (Some path)
  end.

(** [for header in &self.program_headers]; the sums of the results are not
    checked. *)
Fixpoint phdr_in_load (hs : list ElfProgramHeader) (phoff load_bias : Z) : outcome ImageError Z :=
  match hs with
  | [] => Err InvalidElf
  | header :: rest =>
      if decide (ph_kind header ≠ Load) then phdr_in_load rest phoff load_bias
      else
        let file_start := ph_offset header in
        file_end ← ok_or (checked_add u64_max (ph_offset header) (ph_file_size header)) InvalidElf;
        if decide (file_start <= phoff ∧ phoff < file_end) then
          expect (checked_add u64_max (load_bias + ph_virtual_addr header) (phoff - file_start))
        else phdr_in_load rest phoff load_bias
  end.

Definition phdr_addr (image : ElfImage) (load_bias : Z) : outcome ImageError Z :=
  match find (λ h, bool_decide (ph_kind h = Phdr)) (program_headers image) with
  | Some header => expect (checked_add u64_max load_bias (ph_virtual_addr header))
  | None => phdr_in_load (program_headers image) (phoff image) load_bias
  end.
