(* ===== verification/ImageProof.v ===== *)
(** * Correctness of the ELF parser

    What a parsed image promises, for any bytes; and that the parser inverts
    the layout of the file format. *)

From S2P Require Import Prelude Frame RangeList Image.

(** ** Outcomes *)

(** A result satisfies [Q], a panic only happens under [P], nothing runs out of
    fuel. *)
Definition returns {E A} (P : Prop) (Q : A → Prop) (o : outcome E A) : Prop :=
  match o with Ok a => Q a | Err _ => True | Panic => P | Diverge => False end.

Lemma returns_bind {E A B} P (Q : A → Prop) (R : B → Prop) (o : outcome E A) (k : A → outcome E B) :
  returns P Q o → (∀ a, Q a → returns P R (k a)) → returns P R (o ≫= k).
Proof. destruct o; simpl; auto. Qed.

Lemma returns_ok_or {E A} P (Q : A → Prop) (o : option A) (e : E) :
  (∀ a, o = Some a → Q a) → returns P Q (ok_or o e).
Proof. destruct o; simpl; auto. Qed.

Lemma returns_mono {E A} P (Q Q' : A → Prop) (o : outcome E A) :
  returns P Q o → (∀ a, Q a → Q' a) → returns P Q' o.
Proof. destruct o; simpl; auto. Qed.

(** ** Bytes *)

Lemma get_range_Some bytes a b l :
  get_range bytes a b = Some l → 0 <= a → Forall is_byte bytes →
  Z.of_nat (length l) = b - a ∧ Forall is_byte l ∧ b <= Z.of_nat (length bytes).
Proof.
  unfold get_range. case_decide as Hd; [|done]. intros [= <-] Ha Hb. split; [|split].
  - rewrite length_take, length_drop. lia.
  - by apply Forall_take, Forall_drop.
  - lia.
Qed.

(** Reading a field of [n] bytes gives a number below [256^n]. *)
Lemma read_field P bytes offset n (mk : Z → outcome ImageError Z) :
  (∀ o, mk o = (raw ← ok_or (get_range bytes o (o + n)) UnexpectedEof; mret (le_val raw))) →
  0 <= offset → 0 <= n → Forall is_byte bytes → returns P (λ v, 0 <= v < 256 ^ n) (mk offset).
Proof.
  intros Hmk Ho Hn Hb. rewrite Hmk. eapply returns_bind; [apply returns_ok_or; intros a Ha; exact Ha|].
  intros l Hl. destruct (get_range_Some _ _ _ _ Hl Ho Hb) as (Hlen & Hbl & _). simpl.
  pose proof (le_val_range l Hbl). replace n with (Z.of_nat (length l)) by lia. done.
Qed.

Lemma read_u16_ok P bytes o : 0 <= o → Forall is_byte bytes → returns P (λ v, 0 <= v < 2 ^ 16) (read_u16 bytes o).
Proof. intros. by apply (read_field P bytes o 2 (read_u16 bytes)). Qed.
Lemma read_u32_ok P bytes o : 0 <= o → Forall is_byte bytes → returns P in_u32 (read_u32 bytes o).
Proof.
  intros. eapply returns_mono; [by apply (read_field P bytes o 4 (read_u32 bytes))|].
  intros v Hv. cbv beta in Hv. unfold in_u32, u32_max. change (256 ^ 4) with (2 ^ 32) in Hv. lia.
Qed.
Lemma read_u64_ok P bytes o : 0 <= o → Forall is_byte bytes → returns P in_u64 (read_u64 bytes o).
Proof.
  intros. eapply returns_mono; [by apply (read_field P bytes o 8 (read_u64 bytes))|].
  intros v Hv. cbv beta in Hv. unfold in_u64, u64_max. change (256 ^ 8) with (2 ^ 64) in Hv. lia.
Qed.

Create HintDb elf.
#[local] Hint Resolve read_u16_ok read_u32_ok read_u64_ok : elf.
#[local] Hint Extern 1 (0 <= _) => lia : elf.
#[local] Hint Extern 1 (0 ≤ _) => lia : elf.

(** ** What a parsed image promises *)

Record header_ok (h : ElfProgramHeader) : Prop := {
  ho_flags : in_u32 (ph_flags h);
  ho_offset : in_u64 (ph_offset h);
  ho_vaddr : in_u64 (ph_virtual_addr h);
  ho_file : in_u64 (ph_file_size h);
  ho_mem : in_u64 (ph_mem_size h);
}.

(** The end of the segment cannot be rounded up to a page. *)
Definition overflowing (h : ElfProgramHeader) : Prop :=
  ph_kind h = Load ∧ u64_max - 4095 < ph_virtual_addr h + ph_mem_size h <= u64_max.

(** A loaded segment inside the extent. *)
Definition covers (range : Z * Z) (h : ElfProgramHeader) : Prop :=
  ph_kind h = Load →
  range.1 <= ph_virtual_addr h ∧ ph_virtual_addr h + ph_mem_size h <= range.2.

(** The extent: page bounds, or the initial pair. *)
Definition extent_ok (range : Z * Z) : Prop :=
  range = (u64_max, 0) ∨ range.1 mod 4096 = 0 ∧ range.2 mod 4096 = 0 ∧ 0 <= range.1.

Lemma image_align_down v : in_u64 v → align_down v 4096 = v / 4096 * 4096.
Proof. intros Hv. exact (align_down_page v Hv). Qed.

Lemma image_align_up v : 0 <= v <= u64_max - 4095 → align_up v 4096 = Some ((v + 4095) / 4096 * 4096).
Proof.
  intros Hv. unfold align_up. rewrite decide_True by lia. f_equal.
  replace (v + 4096 - 1) with (v + 4095) by lia. apply (align_down_page (v + 4095)). unfold in_u64. lia.
Qed.

Lemma round_page v : v / 4096 * 4096 <= v ∧ v <= (v + 4095) / 4096 * 4096 ∧
  (v / 4096 * 4096) mod 4096 = 0 ∧ ((v + 4095) / 4096 * 4096) mod 4096 = 0.
Proof.
  pose proof (Z.div_mod v 4096). pose proof (Z.mod_pos_bound v 4096).
  pose proof (Z.div_mod (v + 4095) 4096). pose proof (Z.mod_pos_bound (v + 4095) 4096).
  rewrite !Z.mod_mul by lia. lia.
Qed.

Lemma widen_ok h range :
  header_ok h → extent_ok range →
  returns (overflowing h)
    (λ range', extent_ok range' ∧ covers range' h ∧ range'.1 <= range.1 ∧ range.2 <= range'.2 ∧
       (ph_kind h ≠ Load → range' = range))
    (widen h range).
Proof.
  intros Hh Hr. unfold widen. case_decide as Hk; [|by simpl; repeat split; try lia].
  eapply returns_bind; [apply returns_ok_or; intros a Ha; exact Ha|]. intros sum Hsum.
  unfold checked_add in Hsum. case_bool_decide as Hle; [|done]. injection Hsum as <-.
  destruct Hh as [_ _ [Hv0 Hv] _ [Hm0 Hm]].
  destruct (decide (ph_virtual_addr h + ph_mem_size h <= u64_max - 4095)) as [Hok|Hno].
  - rewrite image_align_up by lia. simpl. rewrite image_align_down by (unfold in_u64; lia).
    pose proof (round_page (ph_virtual_addr h)) as (? & _ & Ha & _).
    pose proof (round_page (ph_virtual_addr h + ph_mem_size h)) as (_ & ? & _ & Hb).
    set (lo := ph_virtual_addr h / 4096 * 4096) in *.
    set (hi := (ph_virtual_addr h + ph_mem_size h + 4095) / 4096 * 4096) in *.
    assert (0 <= lo) by (unfold lo; pose proof (Z.div_pos (ph_virtual_addr h) 4096); lia).
    split; [|unfold covers; simpl; split; [intros _; lia|]; split; [lia|]; split; [lia|done]].
    right. simpl. destruct Hr as [->|(Hr1 & Hr2 & Hr3)]; simpl.
    + rewrite Z.min_r by lia. rewrite Z.max_r by lia. done.
    + split; [|split; [|lia]].
      * destruct (Z.min_spec range.1 lo) as [[_ ->]|[_ ->]]; done.
      * destruct (Z.max_spec range.2 hi) as [[_ ->]|[_ ->]]; done.
  - unfold align_up. rewrite decide_False by lia. simpl. split; [done|lia].
Qed.

Lemma parse_header_ok P bytes :
  Forall is_byte bytes → returns P header_ok (parse_header bytes).
Proof.
  intros Hb. unfold parse_header.
  eapply returns_bind; [by eauto with elf|]. intros kind Hkind.
  do 5 (eapply returns_bind; [by eauto with elf|]; intros ? ?). simpl. by split.
Qed.

(** One of the headers of the table overflows. *)
Definition overflow_in (indices : list nat) (ph_bytes : list Z) (phent : Z) : Prop :=
  ∃ i entry_bytes h, i ∈ indices ∧ get_range ph_bytes (Z.of_nat i * phent) (Z.of_nat i * phent + phent) = Some entry_bytes ∧
    parse_header entry_bytes = Ok h ∧ overflowing h.

Lemma parse_headers_ok all indices ph_bytes phent range :
  Forall is_byte ph_bytes → 0 <= phent → extent_ok range → indices ⊆ all →
  returns (overflow_in all ph_bytes phent)
    (λ r, length r.1 = length indices ∧ Forall header_ok r.1 ∧ extent_ok r.2 ∧
       Forall (covers r.2) r.1 ∧ r.2.1 <= range.1 ∧ range.2 <= r.2.2 ∧
       (Forall (λ h, ph_kind h ≠ Load) r.1 → r.2 = range))
    (parse_headers indices ph_bytes phent range).
Proof.
  intros Hb Hp. revert range. induction indices as [|i indices IH]; intros range Hr Hall; simpl; [done|].
  eapply returns_bind; [apply returns_ok_or; intros a Ha; exact Ha|]. intros start Hstart.
  assert (start = Z.of_nat i * phent ∧ 0 <= start) as [Hst ?] by (case_decide; simplify_eq; lia).
  eapply returns_bind; [apply returns_ok_or; intros a Ha; exact Ha|]. intros entry Hentry.
  destruct (get_range_Some _ _ _ _ Hentry ltac:(done) Hb) as (_ & Hbe & _).
  eapply (returns_bind _ (λ h, parse_header entry = Ok h ∧ header_ok h)).
  { pose proof (parse_header_ok (overflow_in all ph_bytes phent) entry Hbe) as Hh. destruct (parse_header entry); simpl in *; auto. }
  intros h [Hph Hh]. eapply returns_bind.
  { pose proof (widen_ok h range Hh Hr) as Hw. revert Hw. destruct (widen h range) as [r| | |]; simpl; try done.
    - intros Hw. exact Hw.
    - intros Hov. exists i, entry, h. rewrite <-Hst. split; [apply Hall; by left|done]. }
  intros range1 (Hr1 & Hc1 & Hle1 & Hle2 & Hno1). eapply returns_bind; [apply IH; [done|intros x Hx; apply Hall; by right]|].
  intros [hs range2] (Hlen & Hok & Hr2 & Hc2 & Hle3 & Hle4 & Hno2). simpl in *.
  split; [lia|]. split; [by constructor|]. split; [done|]. split; [|split; [lia|split; [lia|]]].
  - constructor; [|done]. intros Hk. specialize (Hc1 Hk). lia.
  - intros [Hk Hks]%Forall_cons. rewrite Hno2 by done. by apply Hno1.
Qed.

(** An image that the parser returned for a file of [len] bytes. *)
Record elf_ok (len : Z) (image : ElfImage) : Prop := {
  eo_entry : in_u64 (elf_entry image);
  eo_count : Z.of_nat (length (program_headers image)) = phnum image ∧ 1 <= phnum image < 2 ^ 16;
  eo_size : 56 <= phent image < 2 ^ 16;
  eo_table : 0 <= phoff image ∧ phoff image + phent image * phnum image <= len;
  eo_headers : Forall header_ok (program_headers image);
  eo_load : ∃ h, h ∈ program_headers image ∧ ph_kind h = Load;
  eo_min : 0 <= min_vaddr image ∧ min_vaddr image mod 4096 = 0;
  eo_above h : h ∈ program_headers image → ph_kind h = Load → min_vaddr image <= ph_virtual_addr h;
}.

(** A file whose program header table has a segment that ends in the last page
    of the address space. *)
Definition overflow_file (bytes : list Z) : Prop :=
  ∃ header phoff phent phnum ph_bytes,
    slice_read_exact_at bytes 0 64 = Ok header ∧ read_u64 header 32 = Ok phoff ∧ read_u16 header 54 = Ok phent ∧ read_u16 header 56 = Ok phnum ∧
    slice_read_exact_at bytes phoff (phent * phnum) = Ok ph_bytes ∧ overflow_in (seq 0 (Z.to_nat phnum)) ph_bytes phent.

Lemma returns_eq {E A} P (Q : A → Prop) (o : outcome E A) : returns P Q o → returns P (λ a, Q a ∧ o = Ok a) o.
Proof. by destruct o; simpl. Qed.

Lemma slice_read_ok bytes a n l :
  slice_read_exact_at bytes a n = Ok l → 0 <= a → Forall is_byte bytes →
  Forall is_byte l ∧ Z.of_nat (length l) = n ∧ a + n <= Z.of_nat (length bytes).
Proof.
  unfold slice_read_exact_at, checked_add. case_bool_decide; [|done]. simpl.
  destruct (get_range _ _ _) as [l'|] eqn:Hl; [|done]. intros [= ->] Ha Hb.
  destruct (get_range_Some _ _ _ _ Hl Ha Hb) as (? & ? & ?). split; [done|]. lia.
Qed.

(** C36. What parsing a file can do.  For every sequence of bytes, however
    malformed, [ElfImage::parse] ends; with an error, or with an image whose
    program headers are as many as announced and were read inside the file,
    whose fields fit their width, which has a segment to load, and whose
    lowest address is a page boundary at or below every loaded segment, or with
    a panic.  It panics only on a file whose program header table has a segment
    to load that ends in the last page of the address space, where the rounding
    to a page is not checked. *)
Theorem elf_parse_safe bytes :
  Forall is_byte bytes →
  match parse (slice_source bytes) with
  | Ok image => elf_ok (Z.of_nat (length bytes)) image
  | Err _ => True
  | Panic => overflow_file bytes
  | Diverge => False
  end.
Proof.
  intros Hb. change (returns (overflow_file bytes) (elf_ok (Z.of_nat (length bytes))) (parse (slice_source bytes))).
  unfold parse, read_alloc. cbn [read_exact_at slice_source].
  eapply (returns_bind _ (λ l, Forall is_byte l ∧ slice_read_exact_at bytes 0 64 = Ok l)).
  { destruct (slice_read_exact_at bytes 0 64) as [l| | |] eqn:Hl; simpl; try done.
    - split; [|done]. by apply (slice_read_ok _ _ _ _ Hl).
    - unfold slice_read_exact_at in Hl. destruct (checked_add _ _ _); simpl in Hl; [by destruct (get_range _ _ _)|done].
    - unfold slice_read_exact_at in Hl. destruct (checked_add _ _ _); simpl in Hl; [by destruct (get_range _ _ _)|done]. }
  intros header [Hh Hheader]. case_decide; [done|]. case_decide; [done|].
  eapply returns_bind; [by eauto with elf|]. intros kind _.
  eapply (returns_bind _ (λ _, True)); [by repeat case_decide|]. intros ty _.
  eapply returns_bind; [by eauto with elf|]. intros entry Hentry.
  eapply returns_bind; [apply returns_eq; by eauto with elf|]. intros off [Hoff Eoff].
  eapply returns_bind; [apply returns_eq; by eauto with elf|]. intros ent [Hent Eent].
  eapply returns_bind; [apply returns_eq; by eauto with elf|]. intros num [Hnum Enum]. cbv beta in Hent, Hnum.
  case_decide as Hbad; [done|].
  eapply returns_bind; [apply returns_ok_or; intros a Ha; exact Ha|]. intros table_len Htl. cbv beta in Htl.
  assert (table_len = ent * num) as -> by (case_decide; congruence). clear Htl.
  eapply (returns_bind _ (λ l, slice_read_exact_at bytes off (ent * num) = Ok l)).
  { destruct (slice_read_exact_at bytes off (ent * num)) as [l| | |] eqn:Hl; simpl; try done;
      unfold slice_read_exact_at in Hl; destruct (checked_add _ _ _); simpl in Hl; try done; by destruct (get_range _ _ _). }
  intros ph_bytes Hph. destruct (slice_read_ok _ _ _ _ Hph ltac:(apply Hoff) Hb) as (Hbp & Hlp & Hin).
  eapply returns_bind.
  { pose proof (parse_headers_ok (seq 0 (Z.to_nat num)) (seq 0 (Z.to_nat num)) ph_bytes ent (u64_max, 0) Hbp ltac:(lia) ltac:(by left) ltac:(done)) as H1.
    revert H1. destruct (parse_headers _ _ _ _) as [r| | |]; simpl; try done.
    - intros H1. exact H1.
    - intros Hov. by exists header, off, ent, num, ph_bytes. }
  intros [hs [lo hi]] (Hlen & Hok & Hext & Hcov & _ & _ & Hno). cbn [fst snd] in *.
  case_decide as Hrange; [done|]. simpl. rewrite length_seq in Hlen.
  assert (∃ h, h ∈ hs ∧ ph_kind h = Load) as Hload.
  { destruct (decide (Forall (λ h, ph_kind h ≠ Load) hs)) as [Hall|Hex].
    - specialize (Hno Hall). injection Hno as -> ->. exfalso. apply Hrange. by left.
    - apply not_Forall_Exists, Exists_exists in Hex; [|apply _]. destruct Hex as (h & ? & Hk). exists h. split; [done|].
      by apply dec_stable. }
  destruct Hext as [Hext|(H1 & _ & H3)].
  { injection Hext as -> ->. exfalso. apply Hrange. by left. }
  split; simpl; try done.
  - lia.
  - lia.
  - destruct Hoff. lia.
  - intros h Hin' Hk. rewrite Forall_forall in Hcov. by apply (Hcov h Hin').
Qed.

(** ** The file format *)

Definition kind_code (k : ElfSegmentType) : Z :=
  match k with Load => 1 | Interp => 3 | Phdr => 6 | Other kind => kind end.
Definition type_code (t : ElfImageType) : Z := match t with Executable => 2 | SharedObject => 3 end.

(** One entry of the table; the physical address and the alignment, which the
    parser does not read, are given. *)
Definition phdr_bytes (paddr align : Z) (h : ElfProgramHeader) : list Z :=
  le_bytes 4 (kind_code (ph_kind h)) ++ le_bytes 4 (ph_flags h) ++ le_bytes 8 (ph_offset h) ++
  le_bytes 8 (ph_virtual_addr h) ++ le_bytes 8 paddr ++ le_bytes 8 (ph_file_size h) ++
  le_bytes 8 (ph_mem_size h) ++ le_bytes 8 align.

(** The 64 bytes of the file header; [pad], [machine] and [rest] are not read. *)
Definition ehdr_bytes (pad machine rest : list Z) (image : ElfImage) : list Z :=
  [127; 69; 76; 70; 2; 1; 1] ++ pad ++ le_bytes 2 (type_code (image_type image)) ++ machine ++
  le_bytes 8 (elf_entry image) ++ le_bytes 8 (phoff image) ++ rest ++
  le_bytes 2 (phent image) ++ le_bytes 2 (phnum image) ++ le_bytes 6 0.

Definition elf_bytes (pad machine rest : list Z) (paddr align : Z) (image : ElfImage) (payload : list Z) : list Z :=
  ehdr_bytes pad machine rest image ++ (program_headers image ≫= phdr_bytes paddr align) ++ payload.

(** Reading past a prefix of known length, and a field. *)
Lemma get_range_skip l r a b :
  Z.of_nat (length l) <= a → get_range (l ++ r) a b = get_range r (a - Z.of_nat (length l)) (b - Z.of_nat (length l)).
Proof.
  intros Ha. unfold get_range. rewrite length_app. repeat case_decide; try lia; [|done].
  f_equal. rewrite drop_app_ge by lia. f_equal; [lia|]. f_equal. lia.
Qed.

Lemma get_range_field l r n : n = Z.of_nat (length l) → get_range (l ++ r) 0 n = Some l.
Proof.
  intros ->. unfold get_range. rewrite length_app. rewrite decide_True by lia.
  rewrite Z.sub_0_r, Nat2Z.id. change (Z.to_nat 0) with 0%nat. by rewrite drop_0, take_app_length.
Qed.

Lemma get_range_field_at l r a b :
  a = 0 → b = Z.of_nat (length l) → get_range (l ++ r) a b = Some l.
Proof. intros ->. apply get_range_field. Qed.

(** Walks to the field at the given offset. *)
Ltac find_field :=
  repeat first
    [ rewrite get_range_field by (rewrite ?length_le_bytes; done)
    | rewrite get_range_skip by (rewrite ?length_le_bytes; simpl length; lia);
      rewrite ?length_le_bytes; cbn [length Z.of_nat Z.add Z.sub Z.opp Pos.of_succ_nat Pos.succ]; simpl Z.add; simpl Z.sub ].

(** The extent of the loaded segments. *)
Definition extent_step (range : Z * Z) (h : ElfProgramHeader) : Z * Z :=
  if decide (ph_kind h = Load) then
    (range.1 `min` (ph_virtual_addr h / 4096 * 4096),
     range.2 `max` ((ph_virtual_addr h + ph_mem_size h + 4095) / 4096 * 4096))
  else range.
Definition extent (hs : list ElfProgramHeader) : Z * Z := foldl extent_step (u64_max, 0) hs.

Definition known_kind (h : ElfProgramHeader) : Prop :=
  match ph_kind h with Other k => in_u32 k ∧ k ≠ 1 ∧ k ≠ 3 ∧ k ≠ 6 | _ => True end.
Definition loadable (h : ElfProgramHeader) : Prop :=
  ph_kind h = Load → ph_virtual_addr h + ph_mem_size h <= u64_max - 4095.

(** An image with its table after the file header. *)
Record encodable (image : ElfImage) : Prop := {
  en_phoff : phoff image = 64;
  en_phent : phent image = 56;
  en_count : Z.of_nat (length (program_headers image)) = phnum image;
  en_number : 1 <= phnum image < 2 ^ 16;
  en_entry : in_u64 (elf_entry image);
  en_headers : Forall (λ h, header_ok h ∧ known_kind h ∧ loadable h) (program_headers image);
  en_load : ∃ h, h ∈ program_headers image ∧ ph_kind h = Load ∧ 0 < ph_mem_size h;
  en_min : min_vaddr image = (extent (program_headers image)).1;
}.

Lemma segment_type_code k :
  (match k with Other k => in_u32 k ∧ k ≠ 1 ∧ k ≠ 3 ∧ k ≠ 6 | _ => True end) →
  segment_type (le_val (le_bytes 4 (kind_code k))) = k.
Proof.
  intros Hk. rewrite le_val_u32; [|destruct k; unfold in_u32, u32_max in *; simpl; lia].
  unfold segment_type. destruct k; simpl; try done. repeat case_decide; try done; lia.
Qed.

Lemma parse_phdr_bytes paddr align h :
  header_ok h → known_kind h → parse_header (phdr_bytes paddr align h) = Ok h.
Proof.
  intros [Hf Ho Hv Hfs Hm] Hk. unfold parse_header, read_u32, read_u64, phdr_bytes.
  find_field. cbn [ok_or mbind outcome_bind mret outcome_ret].
  rewrite segment_type_code, le_val_u32, !le_val_u64 by done. by destruct h.
Qed.

Lemma length_phdr_bytes paddr align h : length (phdr_bytes paddr align h) = 56%nat.
Proof. unfold phdr_bytes. rewrite !length_app, !length_le_bytes. done. Qed.

Lemma widen_step h range : header_ok h → loadable h → widen h range = Ok (extent_step range h).
Proof.
  intros [_ _ [Hv0 Hv] _ [Hm0 Hm]] Hl. unfold widen, extent_step. case_decide as Hk; [|done]. specialize (Hl Hk).
  rewrite checked_add_Some by lia. cbn [ok_or mbind outcome_bind]. rewrite image_align_up by lia.
  rewrite image_align_down by (unfold in_u64; lia). done.
Qed.

Lemma parse_table paddr align hs i pre range :
  Forall (λ h, header_ok h ∧ known_kind h ∧ loadable h) hs → length pre = (i * 56)%nat →
  Z.of_nat (i + length hs) < 2 ^ 16 →
  parse_headers (seq i (length hs)) (pre ++ (hs ≫= phdr_bytes paddr align)) 56 range =
  Ok (hs, foldl extent_step range hs).
Proof.
  revert i pre range. induction hs as [|h hs IH]; intros i pre range Hhs Hpre Hi; [done|].
  apply Forall_cons in Hhs as [(Hh & Hk & Hl) Hhs]. rewrite bind_cons. cbn [length seq parse_headers].
  rewrite decide_True by (unfold u64_max; simpl in Hi; lia). cbn [ok_or mbind outcome_bind].
  rewrite get_range_skip by lia. rewrite get_range_field_at by (rewrite ?length_phdr_bytes; lia).
  cbn [ok_or mbind outcome_bind]. rewrite parse_phdr_bytes by done. cbn [mbind outcome_bind].
  rewrite widen_step by done. cbn [mbind outcome_bind].
  specialize (IH (S i) (pre ++ phdr_bytes paddr align h) (extent_step range h) Hhs).
  rewrite <-app_assoc in IH. rewrite IH; [done| |simpl in Hi; lia].
  rewrite length_app, length_phdr_bytes. lia.
Qed.

Lemma length_table paddr align hs : length (hs ≫= phdr_bytes paddr align) = (length hs * 56)%nat.
Proof. induction hs as [|h hs IH]; [done|]. rewrite bind_cons, length_app, length_phdr_bytes, IH. simpl. lia. Qed.

Lemma length_ehdr pad machine rest image :
  length pad = 9%nat → length machine = 6%nat → length rest = 14%nat →
  length (ehdr_bytes pad machine rest image) = 64%nat.
Proof. intros H1 H2 H3. unfold ehdr_bytes. rewrite !length_app, !length_le_bytes, H1, H2, H3. done. Qed.

Lemma extent_mono hs range :
  (foldl extent_step range hs).1 <= range.1 ∧ range.2 <= (foldl extent_step range hs).2.
Proof.
  revert range. induction hs as [|h hs IH]; intros range; simpl; [lia|].
  specialize (IH (extent_step range h)). unfold extent_step in *. case_decide; simpl in *; lia.
Qed.

(** A segment with memory makes the extent a proper range. *)
Lemma extent_proper hs h :
  Forall (λ h, header_ok h ∧ known_kind h ∧ loadable h) hs → h ∈ hs → ph_kind h = Load → 0 < ph_mem_size h →
  (extent hs).1 ≠ u64_max ∧ (extent hs).1 < (extent hs).2.
Proof.
  unfold extent. generalize (u64_max, 0). induction hs as [|h' hs IH]; intros range Hhs Hin Hk Hm; [set_solver|].
  apply Forall_cons in Hhs as [(Hh & _ & Hl) Hhs]. simpl. apply elem_of_cons in Hin as [<-|Hin]; [|by apply IH].
  pose proof (extent_mono hs (extent_step range h)) as Hmono.
  assert ((extent_step range h).1 <= ph_virtual_addr h / 4096 * 4096 ∧
    (ph_virtual_addr h + ph_mem_size h + 4095) / 4096 * 4096 <= (extent_step range h).2).
  { unfold extent_step. rewrite decide_True by done. simpl. lia. }
  specialize (Hl Hk). destruct Hh as [_ _ [Hv0 _] _ _].
  pose proof (round_page (ph_virtual_addr h)) as (? & _). pose proof (round_page (ph_virtual_addr h + ph_mem_size h)) as (_ & ? & _).
  lia.
Qed.

(** The fields of the file header. *)
Lemma ehdr_fields pad machine rest image :
  length pad = 9%nat → length machine = 6%nat → length rest = 14%nat →
  in_u64 (elf_entry image) → in_u64 (phoff image) → 0 <= phent image < 2 ^ 16 → 0 <= phnum image < 2 ^ 16 →
  let hd := ehdr_bytes pad machine rest image in
  read_u16 hd 16 = Ok (type_code (image_type image)) ∧ read_u64 hd 24 = Ok (elf_entry image) ∧
  read_u64 hd 32 = Ok (phoff image) ∧ read_u16 hd 54 = Ok (phent image) ∧ read_u16 hd 56 = Ok (phnum image).
Proof.
  intros H1 H2 H3 He Ho Hs Hn. unfold read_u16, read_u64, ehdr_bytes. cbv zeta.
  assert (∀ v, 0 <= v < 2 ^ 16 → le_val (le_bytes 2 v) = v) as Hv by (intros v Hv; by apply le_val_bytes).
  repeat split.
  all: repeat first
    [ rewrite get_range_field_at by (rewrite ?length_le_bytes; done)
    | rewrite get_range_skip by (rewrite ?length_le_bytes, ?H1, ?H2, ?H3; simpl length; lia);
      rewrite ?length_le_bytes, ?H1, ?H2, ?H3; simpl length ].
  all: cbn [ok_or mbind outcome_bind mret outcome_ret]; f_equal.
  all: first [apply le_val_u64; done|apply Hv; try done].
  by destruct (image_type image).
Qed.

Lemma slice_read_field a b c offset n :
  offset = Z.of_nat (length a) → n = Z.of_nat (length b) → offset + n <= u64_max →
  slice_read_exact_at (a ++ b ++ c) offset n = Ok b.
Proof.
  intros -> -> Hle. unfold slice_read_exact_at. rewrite checked_add_Some by done. cbn [ok_or mbind outcome_bind].
  rewrite get_range_skip by lia. by rewrite get_range_field_at by lia.
Qed.

(** The parser inverts the ELF layout.  The bytes of a file header, a table
    of program headers and any payload, laid out as the format prescribes,
    parse to the image they describe, whatever stands in the fields the parser
    does not read. *)
Theorem elf_roundtrip pad machine rest paddr align image payload :
  encodable image → length pad = 9%nat → length machine = 6%nat → length rest = 14%nat →
  parse (slice_source (elf_bytes pad machine rest paddr align image payload)) = Ok image.
Proof.
  intros Hen H1 H2 H3. pose proof (length_ehdr pad machine rest image H1 H2 H3) as Hlen.
  destruct Hen as [Hoff Hent Hcount Hnum Hentry Hhs (h & Hin & Hk & Hm) Hmin].
  pose proof (extent_proper _ h Hhs Hin Hk Hm) as [Hne Hlt].
  destruct (ehdr_fields pad machine rest image H1 H2 H3) as (F1 & F2 & F3 & F4 & F5);
    [done|rewrite Hoff; unfold in_u64, u64_max; lia|lia|lia|].
  unfold parse, read_alloc, elf_bytes. cbn [read_exact_at slice_source].
  assert (∀ c, slice_read_exact_at (ehdr_bytes pad machine rest image ++ c) 0 64 =
    Ok (ehdr_bytes pad machine rest image)) as ->.
  { intros c. apply (slice_read_field []); [done|by rewrite Hlen|done]. }
  cbn [mbind outcome_bind].
  rewrite decide_False by (intros Hc; by apply Hc). rewrite decide_False by (unfold byte_at; simpl; lia).
  rewrite F1, F2, F3, F4, F5. cbn [mbind outcome_bind].
  assert ((if decide (type_code (image_type image) = 2) then Ok Executable
           else if decide (type_code (image_type image) = 3) then Ok SharedObject else Err UnsupportedElf)
          = Ok (image_type image)) as -> by (by destruct (image_type image)).
  cbn [mbind outcome_bind]. rewrite decide_False by lia. rewrite decide_True by (unfold u64_max; lia).
  cbn [ok_or mbind outcome_bind].
  rewrite slice_read_field by (rewrite ?Hlen, ?length_table; unfold u64_max; lia). cbn [mbind outcome_bind].
  rewrite <-Hcount at 1. rewrite Nat2Z.id, Hent.
  pose proof (parse_table paddr align _ 0 [] (u64_max, 0) Hhs eq_refl ltac:(simpl; lia)) as Htab.
  cbn [app] in Htab. rewrite Htab. cbn [mbind outcome_bind].
  fold (extent (program_headers image)). destruct (extent (program_headers image)) as [lo hi]. simpl in *.
  rewrite decide_False by lia. destruct image. simpl in *. subst. reflexivity.
Qed.

(** ** Witnesses *)

Definition tiny_image : ElfImage :=
  mkElf SharedObject 4128 64 1 56 4096 [mkPhdr Load 5 0 4128 32 64].

Lemma tiny_encodable : encodable tiny_image.
Proof.
  split; simpl.
  - done.
  - done.
  - done.
  - lia.
  - unfold in_u64, u64_max. lia.
  - constructor; [|constructor]. split; [split; simpl; unfold in_u64, in_u32, u64_max, u32_max; lia|].
    split; [done|]. unfold loadable, u64_max. simpl. lia.
  - eexists. split; [by apply list_elem_of_singleton|]. simpl. split; [done|lia].
  - reflexivity.
Qed.

Definition tiny_file : list Z :=
  elf_bytes (replicate 9 0) (replicate 6 0) (replicate 14 0) 4128 4096 tiny_image [1; 2; 3].

Lemma elf_roundtrip_witness : parse (slice_source tiny_file) = Ok tiny_image.
Proof. 
  exact (elf_roundtrip (replicate 9 0) (replicate 6 0) (replicate 14 0) 4128 4096 tiny_image [1; 2; 3]
    tiny_encodable eq_refl eq_refl eq_refl).
 Defined.

Lemma elf_parse_safe_witness : elf_ok (Z.of_nat (length tiny_file)) tiny_image.
Proof.
  assert (Forall is_byte tiny_file) as Hb.
  { apply (bool_decide_unpack (Forall (λ b, 0 <= b < 256) tiny_file)). vm_compute. exact I. }
  pose proof (elf_parse_safe tiny_file Hb) as H.
  assert (parse (slice_source tiny_file) = Ok tiny_image) as E by (vm_compute; reflexivity).
  rewrite E in H. exact H.
Defined.
