(* ===== verification/Vma.v ===== *)
(** * Virtual memory areas

    Models the areas of [aether-kernel/libs/aether-process/src/process.rs]:
    [UserVma], [UserVmaKind] and the functions of [UserAddressSpaceInner] that
    only change the vector [vmas], which is kept sorted by start address.  The
    image behind an area is a [ProgramImageSource] of [Image]. *)

From S2P Require Import Prelude Frame Image.

Inductive UserVmaKind :=
| Program
| Heap
| Stack
| Anonymous
| PagedImage (source : ProgramImageSource) (image_offset image_len : Z)
| ElfSegmentImage (source : ProgramImageSource) (segment_start image_offset image_len : Z) (order : nat)
| Shared
| Device.

Record UserVma := mkVma {
  vma_start : Z;
  vma_end : Z;
  vma_flags : Z;
  vma_kind : UserVmaKind;
  vma_lazy : bool;
}.

Definition set_end (v : UserVma) (e : Z) : UserVma :=
  mkVma (vma_start v) e (vma_flags v) (vma_kind v) (vma_lazy v).
Definition set_flags (v : UserVma) (flags : Z) : UserVma :=
  mkVma (vma_start v) (vma_end v) flags (vma_kind v) (vma_lazy v).

Definition adjusted (kind : UserVmaKind) (delta : Z) : UserVmaKind :=
  match kind with
  | PagedImage source image_offset image_len =>
      PagedImage source (saturating_add u64_max image_offset delta) (saturating_sub image_len delta)
  | other => other
  end.

(** The span is not used. *)
Definition can_merge_with (a b : UserVmaKind) (span : Z) : bool :=
  match a, b with
  | Program, Program | Heap, Heap | Stack, Stack | Anonymous, Anonymous
  | Shared, Shared | Device, Device => true
  | _, _ => false
  end.

Definition slice (v : UserVma) (start end_ : Z) : UserVma :=
  mkVma start end_ (vma_flags v) (adjusted (vma_kind v) (saturating_sub start (vma_start v))) (vma_lazy v).

Definition lazy_order (v : UserVma) : nat :=
  match vma_kind v with ElfSegmentImage _ _ _ _ order => order | _ => 0%nat end.

Definition vmas_mergeable (lhs rhs : UserVma) : bool :=
  (vma_end lhs =? vma_start rhs) && (vma_flags lhs =? vma_flags rhs) &&
  eqb (vma_lazy lhs) (vma_lazy rhs) &&
  can_merge_with (vma_kind lhs) (vma_kind rhs) (saturating_sub (vma_end lhs) (vma_start lhs)).

(** [Vec::insert] and [Vec::remove] at an index in range. *)
Definition vec_insert {A} (i : nat) (x : A) (l : list A) : list A := take i l ++ x :: drop i l.
Definition vec_remove {A} (i : nat) (l : list A) : list A := take i l ++ drop (S i) l.

(** [while index > 0 && mergeable(vmas[index - 1], vmas[index])]; the index is
    always that of an area. *)
Fixpoint merge_left (index : nat) (vmas : list UserVma) : nat * list UserVma :=
  match index with
  | O => (O, vmas)
  | S i =>
      match vmas !! i, vmas !! S i with
      | Some l, Some r =>
          if vmas_mergeable l r
          then merge_left i (vec_remove (S i) (<[i := set_end l (vma_end r)]> vmas))
          else (S i, vmas)
      | _, _ => (S i, vmas)
      end
  end.

(** [while index + 1 < vmas.len() && ..]: every round removes an area. *)
Fixpoint merge_right (fuel index : nat) (vmas : list UserVma) : list UserVma :=
  match fuel with
  | O => vmas
  | S fuel' =>
      match vmas !! index, vmas !! S index with
      | Some l, Some r =>
          if vmas_mergeable l r
          then merge_right fuel' index (vec_remove (S index) (<[index := set_end l (vma_end r)]> vmas))
          else vmas
      | _, _ => vmas
      end
  end.

Definition merge_vma_neighbors_around (index : nat) (vmas : list UserVma) : list UserVma :=
  match vmas with
  | [] => []
  | _ => let '(index, vmas) := merge_left index vmas in merge_right (length vmas) index vmas
  end.

(** The area [previous] is the last of [merged]. *)
Fixpoint coalesce_onto (previous : UserVma) (rest : list UserVma) : list UserVma :=
  match rest with
  | [] => [previous]
  | vma :: rest' =>
      if vmas_mergeable previous vma then coalesce_onto (set_end previous (vma_end vma)) rest'
      else previous :: coalesce_onto vma rest'
  end.

Definition coalesce_vmas (vmas : list UserVma) : list UserVma :=
  match vmas with
  | [] => []
  | vma :: rest => coalesce_onto vma rest
  end.

Definition record_vma (start end_ flags : Z) (kind : UserVmaKind) (lazy : bool) (vmas : list UserVma)
    : list UserVma :=
  let vma := mkVma start end_ flags kind lazy in
  let index := search_index (binary_search_by_key vma_start start vmas) in
  merge_vma_neighbors_around index (vec_insert index vma vmas).

Definition overlaps (start end_ : Z) (v : UserVma) : bool := (vma_start v <? end_) && (start <? vma_end v).

Definition vma_range_overlaps (start end_ : Z) (vmas : list UserVma) : bool :=
  existsb (overlaps start end_) vmas.

(** [while start_index > 0 && vmas[start_index - 1].end > page_base] *)
Fixpoint window_start (start_index : nat) (page_base : Z) (vmas : list UserVma) : nat :=
  match start_index with
  | O => O
  | S i =>
      match vmas !! i with
      | Some v => if decide (page_base < vma_end v) then window_start i page_base vmas else S i
      | None => S i
      end
  end.

Definition lazy_vma_window (page_base page_end : Z) (vmas : list UserVma) : option (nat * nat) :=
  let end_index := partition_point (λ v, vma_start v <? page_end) vmas in
  let start_index := window_start end_index page_base vmas in
  if decide (start_index = end_index) then None else Some (start_index, end_index).

Definition is_heap (v : UserVma) : bool := match vma_kind v with Heap => true | _ => false end.

(** [iter_mut().find(..)] *)
Fixpoint update_heap_vma_end (end_ : Z) (vmas : list UserVma) : list UserVma :=
  match vmas with
  | [] => []
  | v :: rest => if is_heap v then set_end v end_ :: rest else v :: update_heap_vma_end end_ rest
  end.

(** The pieces of an area when its part in the range gets new flags. *)
Definition flag_pieces (start end_ flags : Z) (v : UserVma) : list UserVma :=
  if decide (vma_end v <= start ∨ end_ <= vma_start v) then [v]
  else
    (if decide (vma_start v < start) then [slice v (vma_start v) start] else []) ++
    [set_flags (slice v (vma_start v `max` start) (vma_end v `min` end_)) flags] ++
    (if decide (end_ < vma_end v) then [slice v end_ (vma_end v)] else []).

Definition update_vma_flags (start end_ flags : Z) (vmas : list UserVma) : list UserVma :=
  coalesce_vmas (vmas ≫= flag_pieces start end_ flags).

Definition remove_pieces (start end_ : Z) (v : UserVma) : list UserVma :=
  if decide (end_ <= vma_start v ∨ vma_end v <= start) then [v]
  else
    (if decide (vma_start v < start) then [slice v (vma_start v) start] else []) ++
    (if decide (end_ < vma_end v) then [slice v end_ (vma_end v)] else []).

Definition remove_vma_range (start end_ : Z) (vmas : list UserVma) : list UserVma :=
  coalesce_vmas (vmas ≫= remove_pieces start end_).

(** [value + align - 1] is not checked: [None] is an overflow. *)
Definition align_up (value align : Z) : option Z :=
  if decide (value + align - 1 <= u64_max)
  then Some (Z.land (value + align - 1) (u64_max - (align - 1))) else None.
Definition align_down (value align : Z) : Z := Z.land value (u64_max - (align - 1)).

(** [gap_end.checked_sub(aligned_len).map(..).filter(..)] *)
Definition gap_candidate (gap_end aligned_len : Z) : option Z :=
  match checked_sub gap_end aligned_len with
  | Some c => Some (align_down c PAGE_SIZE)
  | None => None
  end.

Definition below (lower_bound : Z) (gap_end aligned_len : Z) : option Z :=
  match gap_candidate gap_end aligned_len with
  | Some c => if decide (lower_bound <= c) then Some c else None
  | None => None
  end.

(** [for vma in self.vmas.iter().rev()]; the list is reversed. *)
Fixpoint gap_loop (rev_vmas : list UserVma) (lower_bound upper_bound aligned_len gap_end : Z) : option Z :=
  match rev_vmas with
  | [] => below lower_bound gap_end aligned_len
  | vma :: rest =>
      if decide (upper_bound <= vma_start vma) then gap_loop rest lower_bound upper_bound aligned_len gap_end
      else if decide (vma_end vma <= lower_bound) then below lower_bound gap_end aligned_len
      else
        match gap_candidate gap_end aligned_len with
        | Some c =>
            if decide (lower_bound <= c ∧ saturating_add u64_max c aligned_len <= vma_start vma) then Some c
            else
              let gap_end := align_down (vma_start vma) PAGE_SIZE in
              if decide (gap_end <= lower_bound) then None
              else gap_loop rest lower_bound upper_bound aligned_len gap_end
        | None =>
            let gap_end := align_down (vma_start vma) PAGE_SIZE in
            if decide (gap_end <= lower_bound) then None
            else gap_loop rest lower_bound upper_bound aligned_len gap_end
        end
  end.

Definition find_top_down_gap {E} (lower_bound upper_bound len : Z) (vmas : list UserVma)
    : outcome E (option Z) :=
  aligned_len ← expect (align_up len PAGE_SIZE);
  if decide (upper_bound < lower_bound ∨ upper_bound - lower_bound < aligned_len) then mret None
  else mret (gap_loop (reverse vmas) lower_bound upper_bound aligned_len upper_bound).
