(* ===== verification/VmaProof.v ===== *)
(** * Correctness of the area list

    The meaning of a list of areas is what stands at each address: flags, kind,
    and the position in an image.  Removing, protecting and recording ranges
    changes exactly the addresses of the range, merging neighbours changes
    nothing, and the search for a gap returns free addresses. *)

From S2P Require Import Prelude Frame RangeList Image Vma.

(** ** The meaning of an area *)

Definition kind_tag (k : UserVmaKind) : nat :=
  match k with
  | Program => 0 | Heap => 1 | Stack => 2 | Anonymous => 3
  | PagedImage _ _ _ => 4 | ElfSegmentImage _ _ _ _ _ => 5 | Shared => 6 | Device => 7
  end.

(** The image and the position in it that back an address. *)
Definition file_at (v : UserVma) (a : Z) : option (ProgramImageSource * Z) :=
  match vma_kind v with
  | PagedImage source offset len =>
      if decide (a - vma_start v < len) then Some (source, offset + (a - vma_start v)) else None
  | ElfSegmentImage source start offset len _ =>
      if decide (start <= a < start + len) then Some (source, offset + (a - start)) else None
  | _ => None
  end.

Record attributes := mkAttr {
  at_flags : Z;
  at_kind : nat;
  at_lazy : bool;
  at_file : option (ProgramImageSource * Z);
  at_order : nat;
}.

Definition attr (v : UserVma) (a : Z) : attributes :=
  mkAttr (vma_flags v) (kind_tag (vma_kind v)) (vma_lazy v) (file_at v a) (lazy_order v).

Definition contains_addr (v : UserVma) (a : Z) : Prop := vma_start v <= a < vma_end v.
#[global] Instance contains_addr_dec v a : Decision (contains_addr v a).
Proof. unfold contains_addr. apply _. Defined.

(** What stands at address [a], in the order of the list. *)
Definition cover (l : list UserVma) (a : Z) : list attributes :=
  omap (λ v, if decide (contains_addr v a) then Some (attr v a) else None) l.

Definition vma_wf (v : UserVma) : Prop :=
  vma_start v <= vma_end v ∧
  match vma_kind v with PagedImage _ offset len => offset + len <= u64_max | _ => True end.

(** Sorted and disjoint. *)
Fixpoint separated (l : list UserVma) : Prop :=
  match l with
  | [] => True
  | v :: l' => vma_wf v ∧ Forall (λ w, vma_end v <= vma_start w) l' ∧ separated l'
  end.

Lemma areas_separated_app l1 l2 :
  separated (l1 ++ l2) ↔
  separated l1 ∧ separated l2 ∧ ∀ v w, v ∈ l1 → w ∈ l2 → vma_end v <= vma_start w.
Proof.
  induction l1 as [|v l1 IH]; simpl; [set_solver|].
  rewrite IH, Forall_app, !Forall_forall. set_solver.
Qed.

Lemma separated_wf l : separated l → Forall vma_wf l.
Proof. induction l as [|v l IH]; simpl; [constructor|]. intros (? & _ & ?). constructor; auto. Qed.

Lemma cover_nil a : cover [] a = [].
Proof. done. Qed.
Lemma cover_cons v l a : cover (v :: l) a = cover [v] a ++ cover l a.
Proof. unfold cover. simpl. by case_decide. Qed.
Lemma cover_app l1 l2 a : cover (l1 ++ l2) a = cover l1 a ++ cover l2 a.
Proof. unfold cover. by rewrite omap_app. Qed.
Lemma cover_one v a : cover [v] a = if decide (contains_addr v a) then [attr v a] else [].
Proof. unfold cover. simpl. by case_decide. Qed.

(** ** Merging *)

Lemma mergeable_spec l r :
  vmas_mergeable l r = true →
  vma_end l = vma_start r ∧ ∀ a, attr l a = attr r a ∧ ∀ e, attr (set_end l e) a = attr l a.
Proof.
  unfold vmas_mergeable. rewrite !andb_true_iff, !Z.eqb_eq, eqb_true_iff. intros [[[He Hf] Hl] Hk].
  split; [done|]. intros a. unfold attr, file_at, lazy_order. simpl. rewrite Hf, Hl.
  destruct (vma_kind l), (vma_kind r); done.
Qed.

Lemma merge_cover l r a :
  vmas_mergeable l r = true → vma_wf l → vma_wf r → cover [set_end l (vma_end r)] a = cover [l; r] a.
Proof.
  intros [He Ha]%mergeable_spec [Hl _] [Hr _]. destruct (Ha a) as [Hattr Hset].
  rewrite (cover_cons l), !cover_one, Hset, <-Hattr. unfold contains_addr in *. simpl.
  repeat case_decide; try done; lia.
Qed.

Lemma set_end_wf l r : vmas_mergeable l r = true → vma_wf l → vma_wf r → vma_wf (set_end l (vma_end r)).
Proof.
  intros H [Hl Hk] [Hr _]. apply mergeable_spec in H as [He _]. split; [simpl; lia|done].
Qed.

Lemma coalesce_onto_cover p l a :
  vma_wf p → Forall vma_wf l → cover (coalesce_onto p l) a = cover (p :: l) a.
Proof.
  revert p. induction l as [|v l IH]; intros p Hp Hl; simpl; [done|].
  apply Forall_cons in Hl as [Hv Hl]. destruct (vmas_mergeable p v) eqn:Hm.
  - rewrite IH by eauto using set_end_wf. rewrite cover_cons, merge_cover by done.
    by rewrite <-cover_app.
  - rewrite cover_cons, IH, <-cover_cons by done. done.
Qed.

Lemma coalesce_cover l a : Forall vma_wf l → cover (coalesce_vmas l) a = cover l a.
Proof. intros Hl. destruct l as [|v l]; [done|]. apply Forall_cons in Hl as [? ?]. by apply coalesce_onto_cover. Qed.

(** Merging two areas keeps a list separated. *)
Lemma merge_separated l1 p v l2 :
  vmas_mergeable p v = true → separated (l1 ++ p :: v :: l2) → separated (l1 ++ set_end p (vma_end v) :: l2).
Proof.
  intros Hm. rewrite !areas_separated_app. simpl. intros (H1 & (Hp & Hpl & Hv & Hvl & H2) & H3).
  split; [done|]. split; [split; [by eapply set_end_wf|]; done|].
  intros x w Hx [->|Hw]%elem_of_cons; [simpl; apply H3; set_solver|]. apply H3; set_solver.
Qed.

Lemma coalesce_onto_separated l1 p l :
  separated (l1 ++ p :: l) → separated (l1 ++ coalesce_onto p l).
Proof.
  revert l1 p. induction l as [|v l IH]; intros l1 p Hs; simpl; [done|].
  destruct (vmas_mergeable p v) eqn:Hm; [apply IH; by eapply merge_separated|].
  specialize (IH (l1 ++ [p]) v). rewrite <-!app_assoc in IH. by apply IH.
Qed.

Lemma coalesce_separated l : separated l → separated (coalesce_vmas l).
Proof. destruct l as [|v l]; [done|]. apply (coalesce_onto_separated []). Qed.

(** ** Slices *)

Lemma slice_attr v s e a :
  vma_wf v → vma_start v <= s → s <= a → attr (slice v s e) a = attr v a.
Proof.
  intros [_ Hk] Hs Ha. unfold attr, slice, file_at, lazy_order. simpl. unfold saturating_sub.
  rewrite Z.max_r by lia. destruct (vma_kind v); simpl; try done. f_equal. unfold saturating_add, saturating_sub.
  destruct (decide (a - vma_start v < image_len)) as [Hlt|Hge].
  - rewrite decide_True by lia. rewrite Z.min_r by lia. do 2 f_equal. lia.
  - rewrite decide_False by lia. done.
Qed.

Lemma slice_wf v s e : vma_wf v → vma_start v <= s → s <= e → vma_wf (slice v s e).
Proof.
  intros [_ Hk] Hs He. split; [done|]. simpl. unfold saturating_sub. rewrite Z.max_r by lia.
  destruct (vma_kind v); simpl; try done. unfold saturating_add, saturating_sub. lia.
Qed.

Lemma slice_cover v s e a :
  vma_wf v → vma_start v <= s → s <= e → e <= vma_end v →
  cover [slice v s e] a = if decide (s <= a < e) then cover [v] a else [].
Proof.
  intros Hv Hs He Hve. rewrite !cover_one. unfold contains_addr. simpl.
  repeat case_decide; try done; try lia. by rewrite slice_attr by (done || lia).
Qed.

(** ** Removing a range *)

Lemma remove_pieces_cover s e v a :
  vma_wf v → s <= e →
  cover (remove_pieces s e v) a = if decide (s <= a < e) then [] else cover [v] a.
Proof.
  intros Hv Hse. pose proof Hv as [Hle _]. unfold remove_pieces. case_decide as Hout.
  - case_decide; [|done]. rewrite cover_one. unfold contains_addr. rewrite decide_False; [done|lia].
  - rewrite cover_app.
    assert (cover [v] a = if decide (vma_start v <= a < vma_end v) then [attr v a] else []) as Hc by apply cover_one.
    repeat case_decide; rewrite ?cover_nil, ?slice_cover by (done || lia);
      repeat case_decide; rewrite ?Hc; repeat case_decide; try done; lia.
Qed.

Lemma remove_pieces_wf s e v : vma_wf v → s <= e → Forall vma_wf (remove_pieces s e v).
Proof.
  intros Hv Hse. pose proof Hv as [Hle _]. unfold remove_pieces. case_decide; [by constructor|].
  apply Forall_app. split; case_decide; repeat constructor; apply slice_wf; done || lia.
Qed.

(** The pieces lie inside the area, in order. *)
Lemma remove_pieces_inside s e v w : vma_wf v → s <= e → w ∈ remove_pieces s e v →
  vma_start v <= vma_start w ∧ vma_end w <= vma_end v.
Proof.
  intros [Hle _] Hse. unfold remove_pieces. case_decide as Hout.
  - intros ->%list_elem_of_singleton. lia.
  - repeat case_decide; set_unfold; intros Hw; repeat destruct Hw as [Hw|Hw]; try done; subst; simpl; lia.
Qed.

Lemma remove_pieces_separated s e v : vma_wf v → s <= e → separated (remove_pieces s e v).
Proof.
  intros Hv Hse. pose proof (remove_pieces_wf s e v Hv Hse) as Hwf. pose proof Hv as [Hle _].
  unfold remove_pieces in *. repeat case_decide; simpl in *; rewrite ?Forall_cons in Hwf; destruct_and?;
    split_and?; rewrite ?Forall_cons; split_and?; try done; try constructor.
Qed.

(** Replacing every area by separated pieces inside it. *)
Lemma pieces_separated (f : UserVma → list UserVma) l :
  (∀ v, vma_wf v → separated (f v)) →
  (∀ v w, vma_wf v → w ∈ f v → vma_start v <= vma_start w ∧ vma_end w <= vma_end v) →
  separated l → separated (l ≫= f).
Proof.
  intros Hf Hin. induction l as [|v l IH]; [done|]. intros (Hv & Hvl & Hl).
  rewrite bind_cons. apply areas_separated_app. split; [auto|]. split; [auto|].
  intros x w Hx (y & Hy & Hyl)%list_elem_of_bind. rewrite Forall_forall in Hvl. specialize (Hvl y Hyl).
  pose proof (separated_wf l Hl) as Hwf. rewrite Forall_forall in Hwf.
  destruct (Hin v x Hv Hx), (Hin y w (Hwf y Hyl) Hy). lia.
Qed.

Lemma pieces_cover (f : UserVma → list UserVma) (g : list attributes → list attributes) l a :
  (∀ v, vma_wf v → cover (f v) a = g (cover [v] a)) → g [] = [] → (∀ x y, g (x ++ y) = g x ++ g y) →
  Forall vma_wf l → cover (l ≫= f) a = g (cover l a).
Proof.
  intros Hf Hnil Happ. induction 1 as [|v l Hv Hl IH]; [by rewrite !cover_nil, Hnil|].
  by rewrite bind_cons, cover_app, Hf, IH, (cover_cons v l), Happ.
Qed.

Lemma pieces_wf (f : UserVma → list UserVma) l :
  (∀ v, vma_wf v → Forall vma_wf (f v)) → Forall vma_wf l → Forall vma_wf (l ≫= f).
Proof. intros Hf. induction 1; [constructor|]. rewrite bind_cons. apply Forall_app. auto. Qed.

Lemma remove_vma_range_cover s e l a :
  Forall vma_wf l → s <= e → cover (remove_vma_range s e l) a = if decide (s <= a < e) then [] else cover l a.
Proof.
  intros Hl Hse. unfold remove_vma_range.
  rewrite coalesce_cover by (apply pieces_wf; [intros v Hv; by apply remove_pieces_wf|done]).
  apply (pieces_cover _ (λ c, if decide (s <= a < e) then [] else c)); [|by case_decide|by case_decide|done].
  intros v Hv. by apply remove_pieces_cover.
Qed.

Lemma remove_vma_range_separated s e l : separated l → s <= e → separated (remove_vma_range s e l).
Proof.
  intros Hl Hse. apply coalesce_separated, pieces_separated; [| |done].
  - intros v Hv. by apply remove_pieces_separated.
  - intros v w Hv. by apply remove_pieces_inside.
Qed.

(** ** Protecting a range *)

Definition with_flags (flags : Z) (x : attributes) : attributes :=
  mkAttr flags (at_kind x) (at_lazy x) (at_file x) (at_order x).

Lemma flag_pieces_inside s e flags v w : vma_wf v → s <= e → w ∈ flag_pieces s e flags v →
  vma_start v <= vma_start w ∧ vma_end w <= vma_end v ∧ vma_wf w.
Proof.
  intros Hv Hse. pose proof Hv as [Hle _]. unfold flag_pieces. case_decide as Hout.
  - intros ->%list_elem_of_singleton. split; [lia|]. by split; [lia|].
  - intros [Hw|[Hw|Hw]%elem_of_app]%elem_of_app.
    + case_decide; [|by apply elem_of_nil in Hw]. apply list_elem_of_singleton in Hw as ->. simpl.
      split; [lia|]. split; [lia|]. apply slice_wf; done || lia.
    + apply list_elem_of_singleton in Hw as ->. simpl. split; [lia|]. split; [lia|].
      apply (slice_wf v (vma_start v `max` s) (vma_end v `min` e)); done || lia.
    + case_decide; [|by apply elem_of_nil in Hw]. apply list_elem_of_singleton in Hw as ->. simpl.
      split; [lia|]. split; [lia|]. apply slice_wf; done || lia.
Qed.

Lemma flag_pieces_separated s e flags v : vma_wf v → s <= e → separated (flag_pieces s e flags v).
Proof.
  intros Hv Hse. assert (∀ w, w ∈ flag_pieces s e flags v → vma_wf w) as Hwf
    by (intros w Hw; by eapply flag_pieces_inside).
  pose proof Hv as [Hle _]. unfold flag_pieces in *. case_decide; [simpl; split_and?; try done; constructor|].
  set (x := slice v (vma_start v) s) in *. set (z := slice v e (vma_end v)) in *.
  set (y := set_flags (slice v (vma_start v `max` s) (vma_end v `min` e)) flags) in *.
  assert (vma_end x = s ∧ vma_start z = e ∧ s <= vma_start y ∧ vma_end y <= e) as (H1 & H2 & H3 & H4).
  { unfold x, y, z. simpl. lia. }
  assert (vma_wf y) as Hy by (apply Hwf; set_solver).
  clearbody x y z. pose proof Hy as [Hyle _].
  destruct (decide (vma_start v < s)), (decide (e < vma_end v)); simpl in *; split_and?; try done;
    rewrite ?Forall_cons; split_and?; try done; try lia; try (apply Hwf; set_solver); constructor.
Qed.

Lemma flag_pieces_cover s e flags v a :
  vma_wf v → s <= e →
  cover (flag_pieces s e flags v) a =
  if decide (s <= a < e) then with_flags flags <$> cover [v] a else cover [v] a.
Proof.
  intros Hv Hse. pose proof Hv as [Hle _]. unfold flag_pieces. case_decide as Hout.
  - case_decide; [|done]. rewrite cover_one. unfold contains_addr. rewrite decide_False; [done|lia].
  - rewrite !cover_app.
    assert (cover [v] a = if decide (vma_start v <= a < vma_end v) then [attr v a] else []) as Hc by apply cover_one.
    assert (∀ x y, vma_start v <= x → x <= a →
      attr (set_flags (slice v x y) flags) a = with_flags flags (attr v a)) as Hmid.
    { intros x y Hx Ha. change (with_flags flags (attr (slice v x y) a) = with_flags flags (attr v a)).
      by rewrite slice_attr. }
    rewrite (cover_one (set_flags _ _)). unfold contains_addr. simpl.
    repeat case_decide; rewrite ?cover_nil, ?slice_cover by (done || lia);
      repeat case_decide; rewrite ?Hc; repeat case_decide; rewrite ?Hmid by lia; try done; lia.
Qed.

Lemma update_vma_flags_cover s e flags l a :
  Forall vma_wf l → s <= e →
  cover (update_vma_flags s e flags l) a =
  if decide (s <= a < e) then with_flags flags <$> cover l a else cover l a.
Proof.
  intros Hl Hse. unfold update_vma_flags.
  assert (∀ v, vma_wf v → Forall vma_wf (flag_pieces s e flags v)) as Hwf.
  { intros v Hv. apply Forall_forall. intros w Hw. by eapply flag_pieces_inside. }
  rewrite coalesce_cover by (by apply pieces_wf).
  apply (pieces_cover _ (λ c, if decide (s <= a < e) then with_flags flags <$> c else c)); [|by case_decide| |done].
  - intros v Hv. by apply flag_pieces_cover.
  - intros x y. case_decide; [apply fmap_app|done].
Qed.

Lemma update_vma_flags_separated s e flags l : separated l → s <= e → separated (update_vma_flags s e flags l).
Proof.
  intros Hl Hse. apply coalesce_separated, pieces_separated; [| |done].
  - intros v Hv. by apply flag_pieces_separated.
  - intros v w Hv Hw. destruct (flag_pieces_inside s e flags v w) as (? & ? & _); done.
Qed.

(** ** Recording an area *)

(** Merging the elements at [i] and [S i], as the code does with a vector. *)
Lemma vec_merge {A} (l : list A) i p v q :
  l !! i = Some p → l !! S i = Some v →
  l = take i l ++ p :: v :: drop (S (S i)) l ∧
  vec_remove (S i) (<[i := q]> l) = take i l ++ q :: drop (S (S i)) l.
Proof.
  revert l. induction i as [|i IH]; intros [|x l] Hp Hv; simplify_eq/=.
  - destruct l; simplify_eq/=. done.
  - destruct (IH l Hp Hv) as [Hl Hr]. split; [by f_equal|]. unfold vec_remove in *. simpl in *. by f_equal.
Qed.

Definition merged_from (l l' : list UserVma) : Prop := separated l' ∧ ∀ a, cover l' a = cover l a.

Lemma merge_step l i p v :
  separated l → l !! i = Some p → l !! S i = Some v → vmas_mergeable p v = true →
  merged_from l (vec_remove (S i) (<[i := set_end p (vma_end v)]> l)).
Proof.
  intros Hl Hp Hv Hm. destruct (vec_merge l i p v (set_end p (vma_end v)) Hp Hv) as [Heq ->].
  rewrite Heq in Hl. split; [by apply merge_separated|]. intros a.
  trans (cover (take i l ++ p :: v :: drop (S (S i)) l) a); [|by rewrite <-Heq].
  pose proof (separated_wf _ Hl) as Hwf. apply Forall_app in Hwf as [_ Hwf]. rewrite !Forall_cons in Hwf.
  destruct Hwf as (Hwp & Hwv & _). rewrite !cover_app, (cover_cons (set_end _ _)), merge_cover by done.
  f_equal. by rewrite <-cover_app.
Qed.

Lemma merge_left_spec index l :
  separated l → merged_from l (merge_left index l).2.
Proof.
  revert l. induction index as [|i IH]; intros l Hl; simpl; [done|].
  destruct (l !! i) as [p|] eqn:Hp, (l !! S i) as [v|] eqn:Hv; try done.
  destruct (vmas_mergeable p v) eqn:Hm; [|done].
  destruct (merge_step l i p v Hl Hp Hv Hm) as [Hs Hc]. destruct (IH _ Hs) as [Hs' Hc'].
  split; [done|]. intros a. by rewrite Hc', Hc.
Qed.

Lemma merge_right_spec fuel index l :
  separated l → merged_from l (merge_right fuel index l).
Proof.
  revert l. induction fuel as [|fuel IH]; intros l Hl; simpl; [done|].
  destruct (l !! index) as [p|] eqn:Hp, (l !! S index) as [v|] eqn:Hv; try done.
  destruct (vmas_mergeable p v) eqn:Hm; [|done].
  destruct (merge_step l index p v Hl Hp Hv Hm) as [Hs Hc]. destruct (IH _ Hs) as [Hs' Hc'].
  split; [done|]. intros a. by rewrite Hc', Hc.
Qed.

Lemma merge_neighbors_spec index l : separated l → merged_from l (merge_vma_neighbors_around index l).
Proof.
  intros Hl. unfold merge_vma_neighbors_around. destruct l as [|v l]; [done|].
  pose proof (merge_left_spec index (v :: l) Hl) as [H1 H2]. destruct (merge_left index (v :: l)) as [i l'].
  simpl in *. destruct (merge_right_spec (length l') i l' H1) as [H3 H4]. split; [done|]. intros a. by rewrite H4.
Qed.

(** The area is not empty and meets no other. *)
Definition clear_of (v : UserVma) (l : list UserVma) : Prop :=
  vma_start v < vma_end v ∧
  ∀ w, w ∈ l → vma_end w <= vma_start v ∧ vma_start w < vma_start v ∨ vma_end v <= vma_start w.

Lemma separated_sorted l i j v w :
  separated l → (i < j)%nat → l !! i = Some v → l !! j = Some w → vma_end v <= vma_start w.
Proof.
  intros Hl Hij Hi Hj. rewrite <-(take_drop j l) in Hl. apply areas_separated_app in Hl as (_ & _ & Hl). apply Hl.
  - apply list_elem_of_lookup. exists i. by rewrite lookup_take_lt.
  - apply list_elem_of_lookup. exists 0%nat. by rewrite lookup_drop, Nat.add_0_r.
Qed.

Lemma separated_starts l : separated l →
  ∀ i j v w, (i < j)%nat → l !! i = Some v → l !! j = Some w → vma_start v <= vma_start w.
Proof.
  intros Hl i j v w Hij Hi Hj. pose proof (separated_sorted l i j v w Hl Hij Hi Hj).
  pose proof (separated_wf l Hl) as Hwf. rewrite Forall_forall in Hwf.
  destruct (Hwf v) as [? _]; [by apply list_elem_of_lookup_2 in Hi|]. lia.
Qed.

Lemma cover_single l1 v l2 a :
  separated (l1 ++ v :: l2) → contains_addr v a → cover (l1 ++ v :: l2) a = [attr v a].
Proof.
  intros Hs Ha. assert (∀ l, (∀ w, w ∈ l → ¬ contains_addr w a) → cover l a = []) as Hnil.
  { induction l as [|w l IH]; intros Hl; [done|]. rewrite cover_cons, cover_one, decide_False, IH; [done| |].
    - intros w' Hw'. apply Hl. set_solver.
    - apply Hl. set_solver. }
  apply areas_separated_app in Hs as (H1 & (Hv & Hvl & H2) & H3). rewrite cover_app, cover_cons, cover_one, decide_True by done.
  rewrite (Hnil l1), (Hnil l2); [done|..]; unfold contains_addr in *.
  - intros w Hw. rewrite Forall_forall in Hvl. specialize (Hvl w Hw). lia.
  - intros w Hw. specialize (H3 w v Hw ltac:(set_solver)). lia.
Qed.

Lemma record_vma_spec start end_ flags kind lazy l :
  let v := mkVma start end_ flags kind lazy in
  separated l → vma_wf v → clear_of v l →
  separated (record_vma start end_ flags kind lazy l) ∧
  ∀ a, cover (record_vma start end_ flags kind lazy l) a =
       if decide (start <= a < end_) then [attr v a] else cover l a.
Proof.
  intros v Hl Hv [Hne Hclear]. unfold record_vma. fold v.
  pose proof (binary_search_by_spec _ l (sorted_ordered vma_start start l (separated_starts l Hl))) as Hs.
  unfold binary_search_by_key. destruct (binary_search_by _ l) as [i|i]; simpl search_index.
  { destruct Hs as (w & Hw & He%Z.compare_eq). apply list_elem_of_lookup_2 in Hw. specialize (Hclear w Hw). simpl in *. lia. }
  destruct Hs as (Hi & Hlo & Hhi).
  assert (separated (vec_insert i v l)) as Hins.
  { rewrite <-(take_drop i l) in Hl. apply areas_separated_app in Hl as (H1 & H2 & H3).
    unfold vec_insert. apply areas_separated_app. simpl. split; [done|]. split; [split; [done|split; [|done]]|].
    - apply Forall_forall. intros w (j & Hw)%list_elem_of_lookup. rewrite lookup_drop in Hw.
      specialize (Hhi (i + j)%nat w ltac:(lia) Hw). apply Z.compare_gt_iff in Hhi.
      apply list_elem_of_lookup_2 in Hw. specialize (Hclear w Hw). simpl in *. lia.
    - intros x w Hx [->|Hw]%elem_of_cons; [|by apply H3].
      apply list_elem_of_lookup in Hx as (j & Hx).
      assert (j < i)%nat as Hji by (apply lookup_lt_Some in Hx; rewrite length_take in Hx; lia).
      rewrite lookup_take_lt in Hx by done. specialize (Hlo _ _ Hji Hx). change (vma_start x < start) in Hlo.
      apply list_elem_of_lookup_2 in Hx. specialize (Hclear x Hx). unfold v in *. simpl in *. lia. }
  destruct (merge_neighbors_spec i _ Hins) as [Hs Hc]. split; [done|]. intros a. rewrite Hc.
  case_decide as Ha; [by apply cover_single|].
  unfold vec_insert. rewrite cover_app, cover_cons, cover_one, decide_False by done.
  by rewrite app_nil_l, <-cover_app, take_drop.
Qed.

(** ** The heap area *)

(** Only the end of the heap moves. *)
Lemma update_heap_cover end_ l a :
  (∀ v, v ∈ l → is_heap v = true → ¬ (vma_end v `min` end_ <= a < vma_end v `max` end_)) →
  cover (update_heap_vma_end end_ l) a = cover l a.
Proof.
  intros Hh. induction l as [|v l IH]; [done|]. cbn [update_heap_vma_end]. destruct (is_heap v) eqn:Hv.
  - rewrite (cover_cons v), (cover_cons (set_end v end_)), !cover_one. f_equal.
    specialize (Hh v ltac:(set_solver) Hv).
    assert (attr (set_end v end_) a = attr v a) as ->.
    { unfold attr, file_at, lazy_order, is_heap in *. simpl. by destruct (vma_kind v). }
    unfold contains_addr. simpl. repeat case_decide; try done; lia.
  - rewrite (cover_cons v), (cover_cons v l), IH by set_solver. done.
Qed.

(** ** The areas of a page *)

(** Starts and ends increase; areas may share a page. *)
Definition monotone (l : list UserVma) : Prop :=
  ∀ i j v w, (i < j)%nat → l !! i = Some v → l !! j = Some w →
    vma_start v <= vma_start w ∧ vma_end v <= vma_end w.

Lemma separated_monotone l : separated l → monotone l.
Proof.
  intros Hl i j v w Hij Hi Hj. split; [by eapply (separated_starts l Hl i j)|].
  pose proof (separated_sorted l i j v w Hl Hij Hi Hj). pose proof (separated_wf l Hl) as Hwf.
  rewrite Forall_forall in Hwf. destruct (Hwf w) as [? _]; [by apply list_elem_of_lookup_2 in Hj|]. lia.
Qed.

Lemma window_start_spec j pb l :
  (j <= length l)%nat →
  let s := window_start j pb l in
  (s <= j)%nat ∧ (∀ k v, (s <= k < j)%nat → l !! k = Some v → pb < vma_end v) ∧
  (s = 0%nat ∨ ∃ v, l !! (s - 1)%nat = Some v ∧ vma_end v <= pb).
Proof.
  induction j as [|j IH]; intros Hj; simpl; [split; [lia|]; split; [lia|by left]|].
  destruct (lookup_lt_is_Some_2 l j ltac:(lia)) as [v Hv]. rewrite Hv. case_decide as Hpb.
  - destruct IH as (H1 & H2 & H3); [lia|]. split; [lia|]. split; [|done]. intros k w Hk Hw.
    destruct (decide (k = j)) as [->|]; [by simplify_eq|]. apply (H2 k w); [lia|done].
  - split; [lia|]. split; [lia|]. right. exists v. simpl. rewrite Nat.sub_0_r. split; [done|lia].
Qed.

(** The window holds exactly the areas that meet the page. *)
Lemma lazy_vma_window_spec pb pe l :
  monotone l →
  match lazy_vma_window pb pe l with
  | Some (i, j) => (i < j <= length l)%nat ∧
      ∀ k v, l !! k = Some v → ((i <= k < j)%nat ↔ vma_start v < pe ∧ pb < vma_end v)
  | None => ∀ v, v ∈ l → ¬ (vma_start v < pe ∧ pb < vma_end v)
  end.
Proof.
  intros Hm. unfold lazy_vma_window.
  destruct (partition_point_spec (λ v, vma_start v <? pe) l) as (Hj & Hlo & Hhi).
  { intros i j v w Hij Hi Hj Hw. destruct (decide (i = j)) as [->|]; [by simplify_eq|].
    destruct (Hm i j v w ltac:(lia) Hi Hj). lia. }
  set (j := partition_point _ l) in *. destruct (window_start_spec j pb l Hj) as (Hs & Hin & Hout).
  set (i := window_start j pb l) in *.
  assert (∀ k v, l !! k = Some v → ((i <= k < j)%nat ↔ vma_start v < pe ∧ pb < vma_end v)) as Hiff.
  { intros k v Hk. split.
    - intros Hk'. split; [|by eapply Hin]. specialize (Hlo k v ltac:(lia) Hk). simpl in Hlo. lia.
    - intros [Hpe Hpb]. split.
      + destruct (decide (i <= k)%nat); [done|]. destruct Hout as [Hi|(w & Hw & Hwe)]; [lia|].
        assert (vma_end v <= vma_end w); [|lia]. destruct (decide (k = i - 1)%nat) as [->|]; [simplify_eq; lia|].
        by apply (Hm k (i - 1)%nat v w ltac:(lia) Hk Hw).
      + destruct (decide (k < j)%nat); [done|]. specialize (Hhi k v ltac:(lia) Hk). simpl in Hhi. lia. }
  case_decide as Hij; simpl; [|split; [lia|done]].
  intros v (k & Hk)%list_elem_of_lookup Hv. apply (Hiff k v Hk) in Hv. lia.
Qed.

(** ** The search for a gap *)

Definition aligned (a : Z) : Prop := a mod 4096 = 0.

Lemma vma_align_down v : in_u64 v → align_down v PAGE_SIZE = v / 4096 * 4096.
Proof. intros Hv. exact (align_down_page v Hv). Qed.

Lemma vma_align_up v : 0 <= v <= u64_max - 4095 → align_up v PAGE_SIZE = Some ((v + 4095) / 4096 * 4096).
Proof.
  intros Hv. unfold align_up. change PAGE_SIZE with 4096. rewrite decide_True by lia. f_equal.
  replace (v + 4096 - 1) with (v + 4095) by lia. apply (align_down_page (v + 4095)). unfold in_u64. lia.
Qed.

Lemma align_down_aligned v : in_u64 v → aligned v → align_down v PAGE_SIZE = v.
Proof. intros Hv Ha. rewrite vma_align_down by done. unfold aligned in Ha. pose proof (Z.div_mod v 4096). lia. Qed.

(** The lowest start among the areas between the bounds. *)
Definition lowest (lower upper gap_end : Z) (l : list UserVma) : Z :=
  foldr (λ v acc, if decide (vma_start v < upper ∧ lower < vma_end v) then vma_start v `min` acc else acc) gap_end l.

Definition fit_below (lower top len : Z) : option Z :=
  if decide (lower <= top - len) then Some (top - len) else None.

Lemma lowest_le lower upper g l : lowest lower upper g l <= g.
Proof. induction l as [|v l IH]; simpl; [lia|]. case_decide; lia. Qed.

Lemma lowest_elem lower upper g l v :
  v ∈ l → vma_start v < upper → lower < vma_end v → lowest lower upper g l <= vma_start v.
Proof.
  intros Hv Hu Hl. induction l as [|w l IH]; [set_solver|]. apply elem_of_cons in Hv as [->|Hv]; simpl.
  - rewrite decide_True by done. lia.
  - specialize (IH Hv). case_decide; lia.
Qed.

(** Areas that end at or below [lower] do not count. *)
Lemma lowest_none lower upper g l : (∀ v, v ∈ l → vma_end v <= lower) → lowest lower upper g l = g.
Proof.
  induction l as [|v l IH]; intros Hl; simpl; [done|]. rewrite decide_False; [apply IH; set_solver|].
  specialize (Hl v ltac:(set_solver)). lia.
Qed.

(** Lowering the top to the start of an area. *)
Lemma lowest_start lower upper g l v :
  vma_start v <= g → lowest lower upper (vma_start v) l = vma_start v `min` lowest lower upper g l.
Proof. intros Hg. induction l as [|w l IH]; simpl; [lia|]. case_decide; lia. Qed.

(** What the search relies on. *)
Record gap_area (lower : Z) (v : UserVma) : Prop := {
  ga_start : in_u64 (vma_start v);
  ga_aligned : aligned (vma_start v);
  ga_le : vma_start v <= vma_end v;
  ga_proper : vma_start v < vma_end v ∨ vma_end v <= lower;
}.

Lemma below_fit lower top len :
  in_u64 top → aligned top → aligned len → 0 <= len → 0 <= lower → below lower top len = fit_below lower top len.
Proof.
  intros Ht Hat Hal Hlen Hlo. unfold below, gap_candidate, fit_below, checked_sub. case_bool_decide.
  - rewrite align_down_aligned; [done|unfold in_u64 in *; lia|].
    unfold aligned in *. rewrite Zminus_mod, Hat, Hal. done.
  - rewrite decide_False by lia. done.
Qed.

Lemma gap_loop_spec l lower upper len top :
  Forall (gap_area lower) l → separated (reverse l) → 0 < len → in_u64 len → aligned len →
  0 <= lower → in_u64 top → aligned top → top <= upper →
  (∀ v, v ∈ l → vma_start v < upper → vma_start v < top ∨ vma_end v <= lower) →
  gap_loop l lower upper len top = fit_below lower (lowest lower upper top l) len.
Proof.
  intros Hl Hs Hlen Hlu Hal Hlo. revert top Hs. induction Hl as [|v l [Hv1 Hv2 Hv3 Hv4] Hl IH];
    intros top Hs Ht Hat Hup Hrel; simpl; [apply below_fit; done || lia|].
  rewrite reverse_cons in Hs. apply areas_separated_app in Hs as (Hs & _ & Hsv).
  assert (∀ w, w ∈ l → vma_end w <= vma_start v) as Hbelow.
  { intros w Hw. apply Hsv; [by apply elem_of_reverse|set_solver]. }
  case_decide as Hu; [rewrite decide_False by lia; apply IH; try done; set_solver|].
  case_decide as He.
  - rewrite decide_False by lia. rewrite lowest_none; [apply below_fit; done || lia|].
    intros w Hw. specialize (Hbelow w Hw). lia.
  - rewrite (decide_True (P := vma_start v < upper ∧ lower < vma_end v)) by lia.
    assert (vma_start v < top) as Hvt by (destruct (Hrel v ltac:(set_solver) ltac:(lia)); lia).
    rewrite (align_down_aligned (vma_start v)) by done.
    assert (gap_loop l lower upper len (vma_start v) = fit_below lower (lowest lower upper (vma_start v) l) len ∨
            vma_start v <= lower) as Hrec.
    { destruct (decide (vma_start v <= lower)); [by right|left]. apply IH; try done; [lia|].
      intros w Hw _. specialize (Hbelow w Hw). rewrite Forall_forall in Hl. destruct (Hl w Hw) as [_ _ _ []]; lia. }
    assert ((if decide (vma_start v <= lower) then None else gap_loop l lower upper len (vma_start v)) =
            fit_below lower (vma_start v `min` lowest lower upper top l) len) as Hend.
    { rewrite <-(lowest_start lower upper top) by lia. case_decide as Hlow; [|by destruct Hrec as [->|]; [|lia]].
      unfold fit_below. pose proof (lowest_le lower upper (vma_start v) l). rewrite decide_False by lia. done. }
    unfold gap_candidate, checked_sub. case_bool_decide as Hlt; [|done].
    rewrite (align_down_aligned (top - len)).
    + rewrite decide_False; [done|]. unfold saturating_add, in_u64 in *. lia.
    + unfold in_u64 in *. lia.
    + unfold aligned in *. rewrite Zminus_mod, Hat, Hal. done.
Qed.

(** The search returns the addresses right below the lowest area between the
    bounds, which are free, or nothing. *)
Lemma find_top_down_gap_spec {E} lower upper len l :
  Forall (gap_area lower) l → separated l → 0 < len → len <= u64_max - 4095 →
  0 <= lower → in_u64 upper → aligned upper →
  let alen := (len + 4095) / 4096 * 4096 in
  let top := lowest lower upper upper (reverse l) in
  find_top_down_gap (E := E) lower upper len l = Ok (fit_below lower top alen) ∧
  (∀ base, fit_below lower top alen = Some base →
     lower <= base ∧ base + alen = top ∧ base + alen <= upper ∧ vma_range_overlaps base (base + alen) l = false).
Proof.
  intros Hl Hs Hlen Hlu Hlo Hup Hau alen top. unfold find_top_down_gap. rewrite vma_align_up by lia.
  cbn [expect mbind outcome_bind]. fold alen.
  assert (aligned alen) as Hal by (unfold aligned, alen; by rewrite Z.mod_mul).
  assert (0 < alen) by (unfold alen; pose proof (Z.div_mod (len + 4095) 4096); pose proof (Z.mod_pos_bound (len + 4095) 4096); lia).
  assert (alen <= u64_max) by (unfold alen; pose proof (Z.div_mod (len + 4095) 4096); pose proof (Z.mod_pos_bound (len + 4095) 4096); lia).
  assert (top <= upper) as Htop by apply lowest_le. split.
  - case_decide as Hd; [unfold fit_below; rewrite decide_False by lia; done|]. simpl. f_equal.
    apply gap_loop_spec; try done; [by apply Forall_reverse|by rewrite reverse_involutive|unfold in_u64 in *; lia|].
    intros v _ ?. lia.
  - intros base. unfold fit_below. case_decide as Hd; [|done]. intros [= <-]. split; [done|]. split; [lia|]. split; [lia|].
    replace (top - alen + alen) with top by lia. unfold vma_range_overlaps. apply not_true_is_false.
    rewrite existsb_exists. intros (v & Hv & Ho). apply list_elem_of_In in Hv.
    unfold overlaps in Ho. apply andb_true_iff in Ho as [H1%Z.ltb_lt H2%Z.ltb_lt].
    destruct (decide (vma_start v < upper)); [|lia].
    assert (top <= vma_start v); [|lia]. apply lowest_elem; [by apply elem_of_reverse|done|lia].
Qed.

(** On sorted, disjoint areas the three edits of the list are exact at every
    address: removing a range empties it, protecting a range changes the flags
    in it, recording a fresh area adds it, and nothing else changes (splitting
    and merging areas, with their positions in images, is not visible); the
    list stays sorted and disjoint. *)
Theorem vma_edits_exact s e flags kind lazy l :
  separated l → s < e →
  (separated (remove_vma_range s e l) ∧
   ∀ a, cover (remove_vma_range s e l) a = if decide (s <= a < e) then [] else cover l a) ∧
  (separated (update_vma_flags s e flags l) ∧
   ∀ a, cover (update_vma_flags s e flags l) a =
     if decide (s <= a < e) then with_flags flags <$> cover l a else cover l a) ∧
  (vma_wf (mkVma s e flags kind lazy) → clear_of (mkVma s e flags kind lazy) l →
   separated (record_vma s e flags kind lazy l) ∧
   ∀ a, cover (record_vma s e flags kind lazy l) a =
     if decide (s <= a < e) then [attr (mkVma s e flags kind lazy) a] else cover l a).
Proof.
  intros Hl Hse. assert (s <= e) as Hle by lia. pose proof (separated_wf l Hl) as Hwf. split_and!.
  - by apply remove_vma_range_separated.
  - intros a. by apply remove_vma_range_cover.
  - by apply update_vma_flags_separated.
  - intros a. by apply update_vma_flags_cover.
  - by apply record_vma_spec.
Qed.

Definition demo_areas : list UserVma :=
  [mkVma 0x1000 0x5000 3 (PagedImage (slice_source [1; 2; 3]) 0 0x4000) true; mkVma 0x8000 0x9000 3 Anonymous true].

Lemma vma_edits_exact_witness :
  length (remove_vma_range 0x2000 0x3000 demo_areas) = 3%nat ∧
  (separated (remove_vma_range 0x2000 0x3000 demo_areas) ∧
   ∀ a, cover (remove_vma_range 0x2000 0x3000 demo_areas) a =
     if decide (0x2000 <= a < 0x3000) then [] else cover demo_areas a) ∧
  (separated (update_vma_flags 0x2000 0x3000 1 demo_areas) ∧
   ∀ a, cover (update_vma_flags 0x2000 0x3000 1 demo_areas) a =
     if decide (0x2000 <= a < 0x3000) then with_flags 1 <$> cover demo_areas a else cover demo_areas a) ∧
  (vma_wf (mkVma 0x2000 0x3000 1 Anonymous true) → clear_of (mkVma 0x2000 0x3000 1 Anonymous true) demo_areas →
   separated (record_vma 0x2000 0x3000 1 Anonymous true demo_areas) ∧
   ∀ a, cover (record_vma 0x2000 0x3000 1 Anonymous true demo_areas) a =
     if decide (0x2000 <= a < 0x3000) then [attr (mkVma 0x2000 0x3000 1 Anonymous true) a] else cover demo_areas a).
Proof.
  split; [reflexivity|]. apply (vma_edits_exact 0x2000 0x3000 1 Anonymous true demo_areas); [|lia].
  repeat split; try (by vm_compute); repeat constructor; by vm_compute.
Defined.
