(* ===== verification/MmapRegion.v ===== *)
(** * Recorded mappings of a process

    Models [MmapRegion] and the methods of [KernelProcess] in
    [aether-kernel/src/process.rs] that keep the vector [mmap_regions]: what
    [mmap] was asked for at which addresses.  It is beside the areas of [Vma],
    which belong to the address space: [mremap] and [mincore] consult it, and
    [mmap], [munmap] and [mprotect] keep it up to date.

    The meaning of the vector is the list [claims] of what is recorded for an
    address.  The operations change it exactly in their range, also when
    regions overlap; the order by address, on which the searches rely, is kept
    as long as regions do not overlap. *)

From stdpp Require Import sorting.
From S2P Require Import Prelude Frame RangeList Image Vma VmaProof.

(** ** Data *)

(** A file is the identity of its [Arc]. *)
Module Backing.
Inductive MmapRegionBacking :=
| Anonymous
| BufferedFile (file offset : Z)
| SharedFile (file offset : Z)
| DirectFile (file offset : Z).
End Backing.
Abbreviation MmapRegionBacking := Backing.MmapRegionBacking.

Record MmapRegion := mkRegion {
  rg_start : Z;
  rg_end : Z;
  rg_page_flags : Z;
  rg_mmap_flags : Z;
  rg_backing : MmapRegionBacking;
}.

(** [MmapRegion { start, end, ..region }] *)
Definition with_range (start end_ : Z) (r : MmapRegion) : MmapRegion :=
  mkRegion start end_ (rg_page_flags r) (rg_mmap_flags r) (rg_backing r).
Definition set_region_end (r : MmapRegion) (end_ : Z) : MmapRegion := with_range (rg_start r) end_ r.

(** ** Operations *)

(** [Arc::ptr_eq(..) && rhs_offset.saturating_sub(lhs_offset) == lhs.end.saturating_sub(lhs.start)] *)
Definition offsets_follow (lhs : MmapRegion) (lhs_file lhs_offset rhs_file rhs_offset : Z) : bool :=
  (lhs_file =? rhs_file) &&
  (saturating_sub rhs_offset lhs_offset =? saturating_sub (rg_end lhs) (rg_start lhs)).

Definition mmap_backing_is_mergeable (lhs rhs : MmapRegion) : bool :=
  if decide (rg_end lhs ≠ rg_start rhs ∨ rg_page_flags lhs ≠ rg_page_flags rhs ∨ rg_mmap_flags lhs ≠ rg_mmap_flags rhs)
  then false
  else
    match rg_backing lhs, rg_backing rhs with
    | Backing.Anonymous, Backing.Anonymous => true
    | Backing.BufferedFile f o, Backing.BufferedFile f' o'
    | Backing.SharedFile f o, Backing.SharedFile f' o'
    | Backing.DirectFile f o, Backing.DirectFile f' o' => offsets_follow lhs f o f' o'
    | _, _ => false
    end.

(** [previous] is the last of [merged]. *)
Fixpoint coalesce_regions_onto (previous : MmapRegion) (rest : list MmapRegion) : list MmapRegion :=
  match rest with
  | [] => [previous]
  | region :: rest' =>
      if mmap_backing_is_mergeable previous region
      then coalesce_regions_onto (set_region_end previous (rg_end region)) rest'
      else previous :: coalesce_regions_onto region rest'
  end.

Definition coalesce_mmap_regions (l : list MmapRegion) : list MmapRegion :=
  match l with
  | [] => []
  | region :: rest => coalesce_regions_onto region rest
  end.

(** The two loops of [merge_mmap_region_neighbors_around]; the index is that of
    a region, and every round of the second removes one. *)
Fixpoint region_merge_left (index : nat) (l : list MmapRegion) : nat * list MmapRegion :=
  match index with
  | O => (O, l)
  | S i =>
      match l !! i, l !! S i with
      | Some lhs, Some rhs =>
          if mmap_backing_is_mergeable lhs rhs
          then region_merge_left i (vec_remove (S i) (<[i := set_region_end lhs (rg_end rhs)]> l))
          else (S i, l)
      | _, _ => (S i, l)
      end
  end.

Fixpoint region_merge_right (fuel index : nat) (l : list MmapRegion) : list MmapRegion :=
  match fuel with
  | O => l
  | S fuel' =>
      match l !! index, l !! S index with
      | Some lhs, Some rhs =>
          if mmap_backing_is_mergeable lhs rhs
          then region_merge_right fuel' index (vec_remove (S index) (<[index := set_region_end lhs (rg_end rhs)]> l))
          else l
      | _, _ => l
      end
  end.

Definition merge_mmap_region_neighbors_around (index : nat) (l : list MmapRegion) : list MmapRegion :=
  match l with
  | [] => []
  | _ => let '(index, l) := region_merge_left index l in region_merge_right (length l) index l
  end.

(** [.then_some(&self.mmap_regions[index - 1])]: the argument is evaluated
    before the condition is looked at. *)
Definition covering_mmap_region {E} (start end_ : Z) (l : list MmapRegion) : outcome E (option MmapRegion) :=
  let index := partition_point (λ r, rg_start r <=? start) l in
  region ← expect (match index with O => None | S i => l !! i end);
  mret (if decide ((0 < index)%nat ∧ end_ <= rg_end region) then Some region else None).

Definition adjusted_mmap_backing (backing : MmapRegionBacking) (delta : Z) : MmapRegionBacking :=
  match backing with
  | Backing.Anonymous => Backing.Anonymous
  | Backing.BufferedFile file offset => Backing.BufferedFile file (saturating_add u64_max offset delta)
  | Backing.SharedFile file offset => Backing.SharedFile file (saturating_add u64_max offset delta)
  | Backing.DirectFile file offset => Backing.DirectFile file (saturating_add u64_max offset delta)
  end.

(** A part of a region, with the file offset moved along. *)
Definition region_part (r : MmapRegion) (start end_ : Z) : MmapRegion :=
  mkRegion start end_ (rg_page_flags r) (rg_mmap_flags r)
    (adjusted_mmap_backing (rg_backing r) (saturating_sub start (rg_start r))).

Definition slice_mmap_region {E} (start end_ : Z) (l : list MmapRegion) : outcome E (option MmapRegion) :=
  region ← covering_mmap_region start end_ l;
  mret (option_map (λ r, region_part r start end_) region).

Definition insert_mmap_region (region : MmapRegion) (l : list MmapRegion) : list MmapRegion :=
  let index := search_index (binary_search_by_key rg_start (rg_start region) l) in
  merge_mmap_region_neighbors_around index (vec_insert index region l).

(** What the loop of [update_mmap_region_flags] pushes for a region. *)
Definition updated_pieces (start end_ page_flags : Z) (r : MmapRegion) : list MmapRegion :=
  if decide (rg_end r <= start ∨ end_ <= rg_start r) then [r]
  else
    (if decide (rg_start r < start) then [with_range (rg_start r) start r] else []) ++
    [mkRegion (rg_start r `max` start) (rg_end r `min` end_) page_flags (rg_mmap_flags r)
       (adjusted_mmap_backing (rg_backing r) (saturating_sub (rg_start r `max` start) (rg_start r)))] ++
    (if decide (end_ < rg_end r) then [region_part r end_ (rg_end r)] else []).

Definition update_mmap_region_flags (start end_ page_flags : Z) (l : list MmapRegion) : list MmapRegion :=
  coalesce_mmap_regions (l ≫= updated_pieces start end_ page_flags).

(** The same for [remove_mmap_region_range]. *)
Definition kept_pieces (start end_ : Z) (r : MmapRegion) : list MmapRegion :=
  if decide (end_ <= rg_start r ∨ rg_end r <= start) then [r]
  else
    (if decide (rg_start r < start) then [with_range (rg_start r) start r] else []) ++
    (if decide (end_ < rg_end r) then [region_part r end_ (rg_end r)] else []).

Definition remove_mmap_region_range (start end_ : Z) (l : list MmapRegion) : list MmapRegion :=
  coalesce_mmap_regions (l ≫= kept_pieces start end_).

(** ** The meaning of a region *)

(** What is recorded for an address: flags of the pages, flags of the call and
    the position in the file. *)
Definition claim : Type := Z * Z * MmapRegionBacking.
Definition claim_at (r : MmapRegion) (a : Z) : claim :=
  (rg_page_flags r, rg_mmap_flags r, adjusted_mmap_backing (rg_backing r) (a - rg_start r)).

Definition within (r : MmapRegion) (a : Z) : Prop := rg_start r <= a < rg_end r.
#[global] Instance within_dec r a : Decision (within r a).
Proof. unfold within. apply _. Defined.

Definition claims (l : list MmapRegion) (a : Z) : list claim :=
  omap (λ r, if decide (within r a) then Some (claim_at r a) else None) l.

Definition set_claim_flags (page_flags : Z) (c : claim) : claim := (page_flags, c.1.2, c.2).

Definition region_wf (r : MmapRegion) : Prop := rg_start r < rg_end r.
Definition before (r s : MmapRegion) : Prop := rg_end r <= rg_start s.

(** Not empty; in order and disjoint. *)
Definition regions_wf (l : list MmapRegion) : Prop := Forall region_wf l.
Definition regions_ok (l : list MmapRegion) : Prop := regions_wf l ∧ StronglySorted before l.

Lemma claims_app l1 l2 a : claims (l1 ++ l2) a = claims l1 a ++ claims l2 a.
Proof. unfold claims. by rewrite omap_app. Qed.
Lemma claims_cons r l a : claims (r :: l) a = claims [r] a ++ claims l a.
Proof. apply (claims_app [r]). Qed.
Lemma claims_one r a : claims [r] a = if decide (within r a) then [claim_at r a] else [].
Proof. unfold claims. simpl. by case_decide. Qed.

Lemma adjusted_add b d e : 0 <= e → adjusted_mmap_backing (adjusted_mmap_backing b d) e = adjusted_mmap_backing b (d + e).
Proof. intros He. destruct b; simpl; try done; f_equal; unfold saturating_add; lia. Qed.

(** ** Merging *)

Lemma mergeable_claims l r a :
  mmap_backing_is_mergeable l r = true → region_wf l → region_wf r →
  rg_end l = rg_start r ∧ (rg_start r <= a → claim_at l a = claim_at r a).
Proof.
  unfold mmap_backing_is_mergeable, region_wf, claim_at. intros Hm Hl Hr. case_decide as Hd; [done|].
  assert (rg_end l = rg_start r ∧ rg_page_flags l = rg_page_flags r ∧ rg_mmap_flags l = rg_mmap_flags r) as (He & -> & ->)
    by (destruct (decide (rg_end l = rg_start r)), (decide (rg_page_flags l = rg_page_flags r)),
          (decide (rg_mmap_flags l = rg_mmap_flags r)); tauto).
  split; [done|]. intros Ha. f_equal.
  destruct (rg_backing l), (rg_backing r); try done; simpl; unfold offsets_follow, saturating_sub in Hm;
    apply andb_true_iff in Hm as [->%Z.eqb_eq Ho%Z.eqb_eq]; f_equal; unfold saturating_add; lia.
Qed.

Lemma merged_claims l r a :
  mmap_backing_is_mergeable l r = true → region_wf l → region_wf r →
  claims [set_region_end l (rg_end r)] a = claims [l; r] a.
Proof.
  intros Hm Hl Hr. destruct (mergeable_claims l r a Hm Hl Hr) as [He Hc].
  rewrite (claims_cons l), !claims_one. change (claim_at (set_region_end l (rg_end r)) a) with (claim_at l a).
  unfold within, region_wf in *. simpl. repeat case_decide; try done; try lia. by rewrite Hc by lia.
Qed.

Lemma merged_wf l r : mmap_backing_is_mergeable l r = true → region_wf l → region_wf r → region_wf (set_region_end l (rg_end r)).
Proof. intros Hm Hl Hr. destruct (mergeable_claims l r 0 Hm Hl Hr) as [He _]. unfold region_wf in *. simpl. lia. Qed.

(** [l'] is [l] with neighbours merged. *)
Record merges (l l' : list MmapRegion) : Prop := {
  mg_wf : regions_wf l';
  mg_claims a : claims l' a = claims l a;
  mg_sorted : StronglySorted before l → StronglySorted before l';
}.

Lemma merges_refl l : regions_wf l → merges l l.
Proof. by split. Qed.
Lemma merges_trans l1 l2 l3 : merges l1 l2 → merges l2 l3 → merges l1 l3.
Proof. intros [? Hc ?] [? Hc' ?]. split; [done|intros a; by rewrite Hc', Hc|auto]. Qed.

(** Two neighbours become one. *)
Lemma merges_pair l1 p r l2 :
  mmap_backing_is_mergeable p r = true → regions_wf (l1 ++ p :: r :: l2) →
  merges (l1 ++ p :: r :: l2) (l1 ++ set_region_end p (rg_end r) :: l2).
Proof.
  unfold regions_wf. rewrite Forall_app, !Forall_cons. intros Hm (H1 & Hp & Hr & H2). split.
  - unfold regions_wf. rewrite Forall_app, Forall_cons. by eauto using merged_wf.
  - intros a. rewrite !claims_app, (claims_cons (set_region_end _ _)), merged_claims, <-claims_app by done. done.
  - rewrite !StronglySorted_app, !StronglySorted_cons. intros (Hcross & H1s & Hpl & Hrl & H2s). split; [|split_and!; try done].
    + intros x y Hx [->|Hy]%elem_of_cons; [apply (Hcross x p); set_solver|]. apply Hcross; set_solver.
Qed.

Lemma coalesce_onto_merges l1 p l :
  regions_wf (l1 ++ p :: l) → merges (l1 ++ p :: l) (l1 ++ coalesce_regions_onto p l).
Proof.
  revert l1 p. induction l as [|r l IH]; intros l1 p Hwf; simpl; [by apply merges_refl|].
  destruct (mmap_backing_is_mergeable p r) eqn:Hm.
  - eapply merges_trans; [by apply merges_pair|]. apply IH. by apply merges_pair.
  - specialize (IH (l1 ++ [p]) r). rewrite <-!app_assoc in IH. by apply IH.
Qed.

Lemma coalesce_merges l : regions_wf l → merges l (coalesce_mmap_regions l).
Proof. destruct l as [|r l]; intros Hwf; [by apply merges_refl|]. by apply (coalesce_onto_merges []). Qed.

Lemma merge_at l i p r :
  regions_wf l → l !! i = Some p → l !! S i = Some r → mmap_backing_is_mergeable p r = true →
  merges l (vec_remove (S i) (<[i := set_region_end p (rg_end r)]> l)).
Proof.
  intros Hwf Hp Hr Hm. destruct (vec_merge l i p r (set_region_end p (rg_end r)) Hp Hr) as [Heq ->].
  rewrite Heq in Hwf. rewrite Heq at 1. by apply merges_pair.
Qed.

Lemma merge_left_merges index l : regions_wf l → merges l (region_merge_left index l).2.
Proof.
  revert l. induction index as [|i IH]; intros l Hwf; simpl; [by apply merges_refl|].
  destruct (l !! i) as [p|] eqn:Hp, (l !! S i) as [r|] eqn:Hr; try by apply merges_refl.
  destruct (mmap_backing_is_mergeable p r) eqn:Hm; [|by apply merges_refl].
  pose proof (merge_at l i p r Hwf Hp Hr Hm) as Hmg. eapply merges_trans; [exact Hmg|]. apply IH, Hmg.
Qed.

Lemma merge_right_merges fuel index l : regions_wf l → merges l (region_merge_right fuel index l).
Proof.
  revert l. induction fuel as [|fuel IH]; intros l Hwf; simpl; [by apply merges_refl|].
  destruct (l !! index) as [p|] eqn:Hp, (l !! S index) as [r|] eqn:Hr; try by apply merges_refl.
  destruct (mmap_backing_is_mergeable p r) eqn:Hm; [|by apply merges_refl].
  pose proof (merge_at l index p r Hwf Hp Hr Hm) as Hmg. eapply merges_trans; [exact Hmg|]. apply IH, Hmg.
Qed.

Lemma merge_neighbors_merges index l : regions_wf l → merges l (merge_mmap_region_neighbors_around index l).
Proof.
  intros Hwf. unfold merge_mmap_region_neighbors_around. destruct l as [|r l]; [by apply merges_refl|].
  pose proof (merge_left_merges index (r :: l) Hwf) as Hmg. destruct (region_merge_left index (r :: l)) as [i l'].
  simpl in Hmg. eapply merges_trans; [exact Hmg|]. apply merge_right_merges, Hmg.
Qed.

(** ** Parts *)

Lemma part_claims r s e a :
  rg_start r <= s → e <= rg_end r →
  claims [region_part r s e] a = if decide (s <= a < e) then claims [r] a else [].
Proof.
  intros Hs He. rewrite !claims_one. unfold within. simpl. repeat case_decide; try done; try lia.
  unfold claim_at. simpl. rewrite adjusted_add by lia. unfold saturating_sub. do 3 f_equal. lia.
Qed.

Lemma head_claims r e a :
  e <= rg_end r → claims [with_range (rg_start r) e r] a = if decide (rg_start r <= a < e) then claims [r] a else [].
Proof.
  intros He. rewrite !claims_one. unfold within. simpl. repeat case_decide; try done; lia.
Qed.

Lemma kept_pieces_claims s e r a :
  s <= e → region_wf r → claims (kept_pieces s e r) a = if decide (s <= a < e) then [] else claims [r] a.
Proof.
  intros Hse Hr. unfold kept_pieces, region_wf in *. case_decide as Hout.
  - case_decide; [|done]. rewrite claims_one, decide_False; [done|]. unfold within. lia.
  - pose proof (claims_one r a) as Hone. unfold within in Hone. rewrite claims_app.
    repeat case_decide; rewrite ?head_claims, ?part_claims, ?Hone by lia; repeat case_decide; simpl; try done; lia.
Qed.

Lemma updated_pieces_claims s e flags r a :
  s < e → region_wf r →
  claims (updated_pieces s e flags r) a =
  if decide (s <= a < e) then set_claim_flags flags <$> claims [r] a else claims [r] a.
Proof.
  intros Hse Hr. unfold updated_pieces, region_wf in *. case_decide as Hout.
  - case_decide; [|done]. rewrite claims_one, decide_False; [done|]. unfold within. lia.
  - pose proof (claims_one r a) as Hone. unfold within in Hone. rewrite !claims_app.
    set (mid := mkRegion _ _ _ _ _).
    assert (claims [mid] a = if decide (s <= a < e) then set_claim_flags flags <$> claims [r] a else []) as ->.
    { rewrite claims_one, Hone. unfold within, mid. simpl. repeat case_decide; simpl; try done; try lia.
      unfold claim_at, set_claim_flags. simpl. rewrite adjusted_add by lia. unfold saturating_sub. do 3 f_equal. lia. }
    repeat case_decide; rewrite ?head_claims, ?part_claims, ?Hone by lia; repeat case_decide; simpl; try done; lia.
Qed.

(** The pieces are in order, not empty and inside the region. *)
Definition pieces_of (f : MmapRegion → list MmapRegion) : Prop :=
  ∀ r, region_wf r → regions_ok (f r) ∧ ∀ x, x ∈ f r → rg_start r <= rg_start x ∧ rg_end x <= rg_end r.

Ltac pieces :=
  repeat case_decide; unfold regions_wf, region_wf in *; simpl in *;
  rewrite ?Forall_cons, ?StronglySorted_cons, ?Forall_cons; unfold before; simpl;
  split_and?; try done; try constructor; try lia.

Lemma kept_pieces_of s e : s <= e → pieces_of (kept_pieces s e).
Proof.
  intros Hse r Hr. unfold kept_pieces. split; [split|].
  - pieces.
  - pieces.
  - intros x Hx. unfold region_wf in *. repeat case_decide; set_unfold; repeat destruct Hx as [Hx|Hx]; subst; simpl; try done; lia.
Qed.

Lemma updated_pieces_of s e flags : s < e → pieces_of (updated_pieces s e flags).
Proof.
  intros Hse r Hr. unfold updated_pieces. split; [split|].
  - pieces.
  - pieces.
  - intros x Hx. unfold region_wf in *. repeat case_decide; set_unfold; repeat destruct Hx as [Hx|Hx]; subst; simpl; try done; lia.
Qed.

Lemma bind_wf f l : pieces_of f → regions_wf l → regions_wf (l ≫= f).
Proof.
  intros Hf Hl. unfold regions_wf in *. rewrite Forall_forall in *. intros x (r & Hx & Hr)%list_elem_of_bind.
  destruct (Hf r (Hl r Hr)) as [[Hwf _] _]. unfold regions_wf in Hwf. rewrite Forall_forall in Hwf. auto.
Qed.

Lemma bind_sorted f l : pieces_of f → regions_ok l → StronglySorted before (l ≫= f).
Proof.
  intros Hf [Hwf Hs]. induction l as [|r l IH]; [constructor|]. apply Forall_cons in Hwf as [Hr Hl].
  apply StronglySorted_cons in Hs as [Hrl Hs]. rewrite bind_cons. destruct (Hf r Hr) as [[_ Hfr] Hin].
  apply StronglySorted_app. split; [|split; auto]. intros x y Hx (r' & Hy & Hr')%list_elem_of_bind.
  rewrite Forall_forall in Hrl, Hl. destruct (Hf r' (Hl r' Hr')) as [_ Hin']. specialize (Hrl r' Hr').
  destruct (Hin x Hx), (Hin' y Hy). unfold before in *. lia.
Qed.

Lemma bind_claims f (g : list claim → list claim) l a :
  (∀ r, region_wf r → claims (f r) a = g (claims [r] a)) → g [] = [] → (∀ x y, g (x ++ y) = g x ++ g y) →
  regions_wf l → claims (l ≫= f) a = g (claims l a).
Proof.
  intros Hf Hnil Happ. induction 1 as [|r l Hr Hl IH]; [done|].
  by rewrite bind_cons, claims_app, Hf, IH, (claims_cons r l), Happ.
Qed.

(** Removing a range, whatever overlaps. *)
Lemma remove_claims s e l a :
  s <= e → regions_wf l → claims (remove_mmap_region_range s e l) a = if decide (s <= a < e) then [] else claims l a.
Proof.
  intros Hse Hl. unfold remove_mmap_region_range. rewrite (mg_claims _ _ (coalesce_merges _ (bind_wf _ _ (kept_pieces_of s e Hse) Hl))).
  apply (bind_claims _ (λ c, if decide (s <= a < e) then [] else c)); [|by case_decide|by case_decide|done].
  intros r Hr. by apply kept_pieces_claims.
Qed.

Lemma remove_ok s e l : s <= e → regions_ok l → regions_ok (remove_mmap_region_range s e l).
Proof.
  intros Hse Hl. pose proof (kept_pieces_of s e Hse) as Hp. pose proof (coalesce_merges _ (bind_wf _ _ Hp (proj1 Hl))) as [H1 _ H2].
  split; [done|]. apply H2. by apply bind_sorted.
Qed.

Lemma remove_wf s e l : s <= e → regions_wf l → regions_wf (remove_mmap_region_range s e l).
Proof. intros Hse Hl. apply coalesce_merges, bind_wf; [by apply kept_pieces_of|done]. Qed.

Lemma update_claims s e flags l a :
  s < e → regions_wf l →
  claims (update_mmap_region_flags s e flags l) a =
  if decide (s <= a < e) then set_claim_flags flags <$> claims l a else claims l a.
Proof.
  intros Hse Hl. unfold update_mmap_region_flags.
  rewrite (mg_claims _ _ (coalesce_merges _ (bind_wf _ _ (updated_pieces_of s e flags Hse) Hl))).
  apply (bind_claims _ (λ c, if decide (s <= a < e) then set_claim_flags flags <$> c else c)); [|by case_decide| |done].
  - intros r Hr. by apply updated_pieces_claims.
  - intros x y. case_decide; [apply fmap_app|done].
Qed.

Lemma update_ok s e flags l : s < e → regions_ok l → regions_ok (update_mmap_region_flags s e flags l).
Proof.
  intros Hse Hl. pose proof (updated_pieces_of s e flags Hse) as Hp.
  pose proof (coalesce_merges _ (bind_wf _ _ Hp (proj1 Hl))) as [H1 _ H2]. split; [done|]. apply H2. by apply bind_sorted.
Qed.

(** ** Inserting *)

Lemma insert_merges r l :
  regions_wf l → region_wf r →
  let index := search_index (binary_search_by_key rg_start (rg_start r) l) in
  merges (vec_insert index r l) (insert_mmap_region r l).
Proof.
  intros Hl Hr index. apply merge_neighbors_merges. unfold vec_insert, regions_wf. apply Forall_app.
  split; [by apply Forall_take|]. constructor; [done|by apply Forall_drop].
Qed.

Lemma insert_wf r l : regions_wf l → region_wf r → regions_wf (insert_mmap_region r l).
Proof. intros Hl Hr. apply (insert_merges r l Hl Hr). Qed.

(** The new claim is one more, whatever overlaps. *)
Lemma insert_claims r l a :
  regions_wf l → region_wf r → claims (insert_mmap_region r l) a ≡ₚ claims [r] a ++ claims l a.
Proof.
  intros Hl Hr. rewrite (mg_claims _ _ (insert_merges r l Hl Hr)). unfold vec_insert. set (i := search_index _).
  rewrite claims_app, (claims_cons r), Permutation_app_swap_app, <-claims_app, take_drop. done.
Qed.

Definition range_clear (s e : Z) (l : list MmapRegion) : Prop := ∀ a, s <= a < e → claims l a = [].

Lemma claims_nil l a : claims l a = [] ↔ ∀ r, r ∈ l → ¬ within r a.
Proof.
  induction l as [|r l IH]; [set_solver|]. rewrite claims_cons, claims_one. split.
  - intros H x [->|Hx]%elem_of_cons; [by case_decide|]. apply IH; [|done]. by case_decide.
  - intros H. rewrite decide_False by (apply H; set_solver). apply IH. set_solver.
Qed.

Lemma clear_apart r l x : region_wf r → regions_wf l → range_clear (rg_start r) (rg_end r) l → x ∈ l → before x r ∨ before r x.
Proof.
  intros Hr Hl Hc Hx. unfold regions_wf in Hl. rewrite Forall_forall in Hl. specialize (Hl x Hx). unfold region_wf, before in *.
  destruct (decide (rg_end x <= rg_start r)); [by left|]. right. destruct (decide (rg_end r <= rg_start x)); [done|].
  destruct (proj1 (claims_nil l (rg_start x `max` rg_start r)) ltac:(apply Hc; lia) x Hx). unfold within. lia.
Qed.

Lemma before_starts l : regions_ok l →
  ∀ i j x y, (i < j)%nat → l !! i = Some x → l !! j = Some y → rg_start x <= rg_start y.
Proof.
  intros [Hwf Hs] i j x y Hij Hx Hy. rewrite <-(take_drop j l) in Hs. apply StronglySorted_app in Hs as [Hs _].
  unfold regions_wf in Hwf. rewrite Forall_forall in Hwf. specialize (Hwf x ltac:(by eapply list_elem_of_lookup_2)).
  specialize (Hs x y). unfold region_wf, before in *. rewrite <-Hs; [lia|..]; apply list_elem_of_lookup.
  - exists i. by rewrite lookup_take_lt.
  - exists 0%nat. by rewrite lookup_drop, Nat.add_0_r.
Qed.

Lemma insert_region_ok r l :
  regions_ok l → region_wf r → range_clear (rg_start r) (rg_end r) l → regions_ok (insert_mmap_region r l).
Proof.
  intros Hl Hr Hc. pose proof Hl as [Hwf Hs]. pose proof (insert_merges r l Hwf Hr) as [H1 _ H2]. split; [done|]. apply H2.
  pose proof (binary_search_by_spec _ l (sorted_ordered rg_start (rg_start r) l (before_starts l Hl))) as Hb.
  unfold binary_search_by_key. destruct (binary_search_by _ l) as [i|i]; simpl search_index.
  { destruct Hb as (x & Hx & He%Z.compare_eq). pose proof (Forall_lookup_1 _ _ _ _ Hwf Hx). apply list_elem_of_lookup_2 in Hx.
    destruct (clear_apart r l x Hr Hwf Hc Hx); unfold before, region_wf in *; lia. }
  destruct Hb as (Hi & Hlo & Hhi). rewrite <-(take_drop i l) in Hs. apply StronglySorted_app in Hs as (Hcross & H3 & H4).
  unfold vec_insert. apply StronglySorted_app. split; [|split; [done|apply StronglySorted_cons; split; [|done]]].
  - intros x y Hx [->|Hy]%elem_of_cons; [|by apply Hcross]. apply list_elem_of_lookup in Hx as (j & Hx).
    assert (j < i)%nat as Hji by (apply lookup_lt_Some in Hx; rewrite length_take in Hx; lia).
    rewrite lookup_take_lt in Hx by done. specialize (Hlo _ _ Hji Hx). change (rg_start x < rg_start r) in Hlo.
    apply list_elem_of_lookup_2 in Hx. destruct (clear_apart r l x Hr Hwf Hc Hx); unfold before, region_wf in *; lia.
  - apply Forall_forall. intros x (j & Hx)%list_elem_of_lookup. rewrite lookup_drop in Hx.
    specialize (Hhi (i + j)%nat x ltac:(lia) Hx). apply Z.compare_gt_iff in Hhi. pose proof (Forall_lookup_1 _ _ _ _ Hwf Hx).
    apply list_elem_of_lookup_2 in Hx. destruct (clear_apart r l x Hr Hwf Hc Hx); unfold before, region_wf in *; lia.
Qed.

(** ** Searching *)

(** The last region that starts at or below [s]. *)
Lemma covering_spec {E} s e l :
  regions_ok l →
  match covering_mmap_region (E := E) s e l with
  | Ok (Some r) => r ∈ l ∧ rg_start r <= s ∧ e <= rg_end r
  | Ok None => ∀ r, r ∈ l → ¬ (rg_start r <= s < rg_end r ∧ e <= rg_end r)
  | Panic => ∀ r, r ∈ l → s < rg_start r
  | _ => False
  end.
Proof.
  intros Hl. unfold covering_mmap_region.
  destruct (partition_point_spec (λ r, rg_start r <=? s) l) as (Hi & Hlo & Hhi).
  { intros i j x y Hij Hx Hy Hle. destruct (decide (i = j)) as [->|]; [congruence|].
    pose proof (before_starts l Hl i j x y ltac:(lia) Hx Hy). lia. }
  set (index := partition_point _ l) in *. destruct index as [|i] eqn:Hidx.
  - simpl. intros r (j & Hj)%list_elem_of_lookup. specialize (Hhi j r ltac:(lia) Hj). lia.
  - destruct (lookup_lt_is_Some_2 l i ltac:(lia)) as [r Hr]. rewrite Hr. simpl. pose proof (Hlo i r ltac:(lia) Hr) as Hs.
    case_decide as Hd; [split; [by eapply list_elem_of_lookup_2|lia]|].
    intros x (j & Hj)%list_elem_of_lookup [Hx1 Hx2]. destruct Hl as [Hwf Hsort].
    destruct (decide (j < i)%nat) as [Hji|]; [|destruct (decide (j = i)) as [->|]].
    + rewrite <-(take_drop i l) in Hsort. apply StronglySorted_app in Hsort as [Hsort _].
      assert (before x r) as Hb; [|unfold before in Hb; lia]. apply Hsort; apply list_elem_of_lookup.
      * exists j. by rewrite lookup_take_lt.
      * exists 0%nat. by rewrite lookup_drop, Nat.add_0_r.
    + simplify_eq. apply Hd. lia.
    + specialize (Hhi j x ltac:(lia) Hj). lia.
Qed.

Lemma claims_member l r a : regions_ok l → r ∈ l → within r a → claims l a = [claim_at r a].
Proof.
  intros [_ Hs] (l1 & l2 & ->)%list_elem_of_split Ha. apply StronglySorted_app in Hs as (Hcross & _ & Hs).
  apply StronglySorted_cons in Hs as [Hrl _]. rewrite claims_app, claims_cons, claims_one, decide_True by done.
  rewrite (proj2 (claims_nil l1 a)), (proj2 (claims_nil l2 a)); [done|..]; unfold within, before in *.
  - rewrite Forall_forall in Hrl. intros x Hx. specialize (Hrl x Hx). lia.
  - intros x Hx. specialize (Hcross x r Hx ltac:(set_solver)). lia.
Qed.

(** A slice records what the list records. *)
Lemma slice_spec {E} s e l :
  regions_ok l → s < e →
  match slice_mmap_region (E := E) s e l with
  | Ok (Some r) => rg_start r = s ∧ rg_end r = e ∧ ∀ a, s <= a < e → claims l a = [claim_at r a]
  | Ok None => ¬ ∃ r, r ∈ l ∧ rg_start r <= s ∧ e <= rg_end r
  | Panic => ∀ r, r ∈ l → s < rg_start r
  | _ => False
  end.
Proof.
  intros Hl Hse. pose proof (covering_spec (E := E) s e l Hl) as Hc. unfold slice_mmap_region.
  destruct (covering_mmap_region s e l) as [[r|]| | |]; try done; simpl.
  - destruct Hc as (Hr & Hs & He). split; [done|]. split; [done|]. intros a Ha.
    rewrite (claims_member l r a Hl Hr) by (unfold within; lia). unfold claim_at. simpl. rewrite adjusted_add by lia.
    unfold saturating_sub. do 3 f_equal. lia.
  - intros (r & Hr & Hs & He). apply (Hc r Hr). lia.
Qed.

(** Into a clear range. *)
Lemma insert_exact r l a :
  regions_wf l → region_wf r → range_clear (rg_start r) (rg_end r) l →
  claims (insert_mmap_region r l) a = if decide (within r a) then [claim_at r a] else claims l a.
Proof.
  intros Hl Hr Hc. rewrite (mg_claims _ _ (insert_merges r l Hl Hr)). unfold vec_insert. set (i := search_index _).
  rewrite claims_app, (claims_cons r), claims_one. rewrite <-(take_drop i l) in Hc. case_decide as Hw.
  - specialize (Hc a Hw). rewrite claims_app in Hc. apply app_nil in Hc as [-> ->]. done.
  - by rewrite <-(claims_app (take i l) (drop i l)), take_drop.
Qed.
