(* ===== verification/UserSpace.v ===== *)
(** * User address spaces

    Models [UserAddressSpaceInner] of
    [aether-kernel/libs/aether-process/src/process.rs] (and the layout of
    [layout.rs]): the sorted vector of mapped pages, the areas of [Vma], the
    program break, demand paging, copy on write and [fork].

    The page tables, the frame allocator and the contents of the frames are
    reached through the class [UserMachine], whose operations are those the
    code calls on [AddressSpace], [FrameAllocator] and the linear mapping;
    [SpaceApi] states their laws.
    A method with [&mut self] runs on a pair of the address space and the
    machine.  Arithmetic that the source does not check panics on overflow.
    [for page in (a..b).step_by(PAGE_SIZE)] runs over a list of addresses. *)

From S2P Require Import Prelude Frame PageTable Image Vma.

(** ** Layout *)

Record UserAddressSpaceLayout := mkLayout {
  region_base : Z;
  region_align : Z;
  pie_base : Z;
  interpreter_base : Z;
  stack_end : Z;
  mmap_top : Z;
  brk_reserve : Z;
  default_elf_stack_pages : Z;
}.

Definition layout_current : UserAddressSpaceLayout :=
  mkLayout 0x40000000 0x200000 0x600000000000 0x6ff000000000 0x700000000000
    (0x6ff000000000 - 0x200000) (16 * 1024 * 1024) 64.

Definition set_region_base (b : Z) (l : UserAddressSpaceLayout) : UserAddressSpaceLayout :=
  mkLayout b (region_align l) (pie_base l) (interpreter_base l) (stack_end l) (mmap_top l) (brk_reserve l)
    (default_elf_stack_pages l).
Definition set_stack_end (e : Z) (l : UserAddressSpaceLayout) : UserAddressSpaceLayout :=
  mkLayout (region_base l) (region_align l) (pie_base l) (interpreter_base l) e (mmap_top l) (brk_reserve l)
    (default_elf_stack_pages l).

(** ** Errors *)

Inductive BuildError :=
| EmptyProgram
| AddressOverflow
| StackOverflow
| BuildInvalidElf
| BuildUnsupportedElf
| BuildImage (e : ImageError)
| BuildMap (e : MappingError)
| BuildFrame (e : FrameAllocError).

(** [impl From<ImageError> for BuildError] *)
Definition build_from_image (e : ImageError) : BuildError :=
  match e with
  | InvalidElf => BuildInvalidElf
  | UnsupportedElf => BuildUnsupportedElf
  | other => BuildImage other
  end.

(** ** What the code calls *)

(** [map] is for pages of 4 KiB; [um_bytes] is the frame seen through the
    linear mapping. *)
Class UserMachine (W : Type) := {
  um_frames :: FrameAllocator W;
  um_new_user_root : M W MappingError PhysFrame;
  um_map : PhysFrame → VirtAddr → PhysFrame → Z → M W MappingError unit;
  um_unmap : PhysFrame → VirtAddr → M W MappingError UnmapResult;
  um_unmap_preserve : PhysFrame → VirtAddr → M W MappingError UnmapResult;
  um_protect : PhysFrame → VirtAddr → Z → M W MappingError unit;
  um_invalidate : PhysFrame → VirtAddr → W → W;
  um_bytes : W → PhysFrame → list Z;
  um_set_bytes : PhysFrame → list Z → W → W;
}.

(** ** State *)

Record UserMapping := mkMapping {
  mp_virt : VirtAddr;
  mp_frame : PhysFrame;
  mp_flags : Z;
  mp_cow : bool;
  mp_owned : bool;
  mp_shared : bool;
}.

Record UserAddressSpaceInner := mkSpace {
  layout : UserAddressSpaceLayout;
  space_root : PhysFrame;
  stack_base : Z;
  mappings : list UserMapping;
  vmas : list UserVma;
  brk_start : Z;
  brk_current : Z;
  brk_limit : Z;
}.

Definition set_layout (l : UserAddressSpaceLayout) (s : UserAddressSpaceInner) : UserAddressSpaceInner :=
  mkSpace l (space_root s) (stack_base s) (mappings s) (vmas s) (brk_start s) (brk_current s) (brk_limit s).
Definition set_stack_base (b : Z) (s : UserAddressSpaceInner) : UserAddressSpaceInner :=
  mkSpace (layout s) (space_root s) b (mappings s) (vmas s) (brk_start s) (brk_current s) (brk_limit s).
Definition set_mappings (ms : list UserMapping) (s : UserAddressSpaceInner) : UserAddressSpaceInner :=
  mkSpace (layout s) (space_root s) (stack_base s) ms (vmas s) (brk_start s) (brk_current s) (brk_limit s).
Definition set_vmas (vs : list UserVma) (s : UserAddressSpaceInner) : UserAddressSpaceInner :=
  mkSpace (layout s) (space_root s) (stack_base s) (mappings s) vs (brk_start s) (brk_current s) (brk_limit s).
Definition set_brk (start current limit : Z) (s : UserAddressSpaceInner) : UserAddressSpaceInner :=
  mkSpace (layout s) (space_root s) (stack_base s) (mappings s) (vmas s) start current limit.

Definition MAP_FIXED : Z := 0x10.
Definition MAP_FIXED_NOREPLACE : Z := 0x100000.
Definition MAP_ANONYMOUS : Z := 0x20.

Definition RW_USER : Z := MapFlags.bitor (MapFlags.bitor MapFlags.READ MapFlags.WRITE) MapFlags.USER.

(** [(0..len).step_by(PAGE_SIZE)] for a multiple of the page size. *)
Definition page_offsets (len : Z) : list Z := (λ i, PAGE_SIZE * Z.of_nat i) <$> seq 0 (Z.to_nat (len / PAGE_SIZE)).

Inductive PageFaultHandling := Resolved | InvalidateTlb | Unhandled.

Section space.
Context {W : Type} {U : UserMachine W}.

Definition MU := M (UserAddressSpaceInner * W) BuildError.

(** A call on the machine; [conv] is the conversion of [?]. *)
Definition on_machine {E A} (conv : E → BuildError) (op : M W E A) : MU A := λ s,
  match op s.2 with
  | (Ok a, w) => (Ok a, (s.1, w))
  | (Err e, w) => (Err (conv e), (s.1, w))
  | (Panic, w) => (Panic, (s.1, w))
  | (Diverge, w) => (Diverge, (s.1, w))
  end.

(** [let _ = call()]: the result is dropped. *)
Definition ignore {S E A} (op : M S E A) : M S E unit := λ s,
  match op s with
  | (Panic, s') => (Panic, s')
  | (Diverge, s') => (Diverge, s')
  | (_, s') => (Ok tt, s')
  end.

Definition get_space : MU UserAddressSpaceInner := mgets fst.
Definition modify_space (f : UserAddressSpaceInner → UserAddressSpaceInner) : MU unit :=
  mmodify (λ s, (f s.1, s.2)).
Definition modify_machine (f : W → W) : MU unit := mmodify (λ s, (s.1, f s.2)).

(** Unchecked [+] and [align_up]. *)
Definition add64 {S E} (a b : Z) : M S E Z := mexpect (checked_add u64_max a b).
Definition align_up_page {S E} (value : Z) : M S E Z := mexpect (align_up value PAGE_SIZE).

(** ** Mappings *)

Definition mapping_index (address : Z) (s : UserAddressSpaceInner) : option nat :=
  let page_base := align_down address PAGE_SIZE in
  match binary_search_by_key (λ m, virt_u64 (mp_virt m)) page_base (mappings s) with
  | inl index => Some index
  | inr _ => None
  end.

Definition mapping (address : Z) (s : UserAddressSpaceInner) : option UserMapping :=
  index ← mapping_index address s; mappings s !! index.

Definition insert_mapping (m : UserMapping) : MU unit :=
  modify_space (λ s,
    let index := search_index (binary_search_by_key (λ e, virt_u64 (mp_virt e)) (virt_u64 (mp_virt m)) (mappings s)) in
    set_mappings (vec_insert index m (mappings s)) s).

Definition zero_bytes : list Z := replicate (Z.to_nat PAGE_SIZE) 0.

Definition allocate_zeroed_owned_frame : MU PhysFrame :=
  frame ← on_machine BuildFrame (fa_alloc 1);
  _ ← modify_machine (um_set_bytes frame zero_bytes);
  mret frame.

Definition release_frames (frame : PhysFrame) : MU unit := ignore (on_machine BuildFrame (fa_release frame 1)).

Definition map_owned_frame (addr : Z) (frame : PhysFrame) (flags : Z) : MU unit := λ s,
  let virt := mkVirtAddr addr in
  match on_machine BuildMap (um_map (space_root s.1) virt frame flags) s with
  | (Err error, s') => (_ ← release_frames frame; mthrow error) s'
  | (Ok _, s') => insert_mapping (mkMapping virt frame flags false true false) s'
  | (Panic, s') => (Panic, s')
  | (Diverge, s') => (Diverge, s')
  end.

Definition map_zeroed_page (addr flags : Z) : MU unit :=
  frame ← allocate_zeroed_owned_frame;
  map_owned_frame addr frame flags.

(** [copy_nonoverlapping(data, frame + offset)] inside the frame. *)
Definition write_at (offset : nat) (data bytes : list Z) : list Z :=
  take offset bytes ++ data ++ drop (offset + length data) bytes.

Definition write_frame_partial (frame : PhysFrame) (offset : Z) (data : list Z) : MU unit :=
  modify_machine (λ w, um_set_bytes frame (write_at (Z.to_nat offset) data (um_bytes w frame)) w).

Definition copy_frame (source destination : PhysFrame) : MU unit :=
  modify_machine (λ w, um_set_bytes destination (um_bytes w source) w).

Definition map_page (addr flags dest_offset : Z) (bytes : list Z) : MU unit :=
  frame ← allocate_zeroed_owned_frame;
  _ ← (if decide (bytes = []) then mret () else write_frame_partial frame dest_offset bytes);
  map_owned_frame addr frame flags.

Definition map_physical_page (addr : Z) (frame : PhysFrame) (flags : Z) : MU unit :=
  s ← get_space;
  let virt := mkVirtAddr addr in
  _ ← on_machine BuildMap (um_map (space_root s) virt frame flags);
  insert_mapping (mkMapping virt frame flags false false false).

Definition map_shared_page (addr : Z) (frame : PhysFrame) (flags : Z) : MU unit :=
  s ← get_space;
  _ ← on_machine BuildFrame (fa_retain frame);
  let virt := mkVirtAddr addr in
  _ ← on_machine BuildMap (um_map (space_root s) virt frame flags);
  insert_mapping (mkMapping virt frame flags false false true).

(** The two ways to take a page out of the tables. *)
Definition unmap_entry (root : PhysFrame) (m : UserMapping) : MU unit :=
  if mp_owned m then
    _ ← on_machine BuildMap (um_unmap root (mp_virt m)); mret ()
  else
    _ ← on_machine BuildMap (um_unmap_preserve root (mp_virt m));
    if mp_shared m then release_frames (mp_frame m) else mret ().

Definition unmap_page (addr : Z) : MU unit :=
  s ← get_space;
  index ← mok_or (mapping_index addr s) (BuildMap NotMapped);
  m ← mexpect (mappings s !! index);
  _ ← modify_space (λ s, set_mappings (vec_remove index (mappings s)) s);
  unmap_entry (space_root s) m.

(** [let _ = self.unmap_page(base + page)] for every page. *)
Fixpoint unmap_pages (base : Z) (pages : list Z) : MU unit :=
  match pages with
  | [] => mret ()
  | page :: rest =>
      va ← add64 base page;
      _ ← ignore (unmap_page va);
      unmap_pages base rest
  end.

(** ** Ranges *)

Definition is_range_free (addr len : Z) (s : UserAddressSpaceInner) : outcome BuildError bool :=
  if decide (len = 0 ∨ virt_is_aligned (mkVirtAddr addr) PAGE_SIZE = false) then mret false
  else
    alen ← expect (align_up len PAGE_SIZE);
    match checked_add u64_max addr alen with
    | None => mret false
    | Some end_ => mret (negb (existsb (overlaps addr end_) (vmas s)))
    end.

Definition record_area (start end_ flags : Z) (kind : UserVmaKind) (lazy : bool) : MU unit :=
  modify_space (λ s, set_vmas (record_vma start end_ flags kind lazy (vmas s)) s).

Definition munmap (addr len : Z) : MU unit :=
  if decide (len = 0 ∨ virt_is_aligned (mkVirtAddr addr) PAGE_SIZE = false) then mthrow AddressOverflow
  else
    aligned_len ← align_up_page len;
    _ ← unmap_pages addr (page_offsets aligned_len);
    end_ ← add64 addr aligned_len;
    modify_space (λ s, set_vmas (remove_vma_range addr end_ (vmas s)) s).

Definition allocate_mmap_base (len : Z) : MU Z :=
  s ← get_space;
  lower_bound ← align_up_page (brk_limit s);
  let upper_bound := align_down (mmap_top (layout s)) PAGE_SIZE in
  match find_top_down_gap (E := BuildError) lower_bound upper_bound len (vmas s) with
  | Ok (Some base) => mret base
  | Ok None => mthrow (BuildFrame OutOfMemory)
  | Err e => mthrow e
  | Panic => mpanic
  | Diverge => mdiverge
  end.

Definition prepare_mapping_base (addr len flags : Z) : MU Z :=
  if decide (Z.land flags MAP_FIXED_NOREPLACE ≠ 0) then
    if negb (virt_is_aligned (mkVirtAddr addr) PAGE_SIZE) then mthrow AddressOverflow
    else
      s ← get_space;
      match is_range_free addr len s with
      | Ok true => mret addr
      | Ok false => mthrow (BuildMap AlreadyMapped)
      | Err e => mthrow e
      | Panic => mpanic
      | Diverge => mdiverge
      end
  else if decide (Z.land flags MAP_FIXED ≠ 0) then
    if negb (virt_is_aligned (mkVirtAddr addr) PAGE_SIZE) then mthrow AddressOverflow
    else _ ← ignore (munmap addr len); mret addr
  else allocate_mmap_base len.

Definition allocate_region (len : Z) : MU Z :=
  s ← get_space;
  len ← mexpect (align_up len (region_align (layout s)));
  let current := region_base (layout s) in
  next ← mok_or (checked_add u64_max current len) AddressOverflow;
  _ ← modify_space (λ s, set_layout (set_region_base next (layout s)) s);
  mret current.

Definition allocate_stack (len : Z) : MU Z :=
  s ← get_space;
  len ← mexpect (align_up len (region_align (layout s)));
  let top := stack_end (layout s) in
  next ← mok_or (checked_sub top len) AddressOverflow;
  _ ← modify_space (λ s, set_layout (set_stack_end next (layout s)) s);
  mret top.

Definition initialize_heap : MU unit :=
  s ← get_space;
  start ← allocate_region (brk_reserve (layout s));
  limit ← add64 start (brk_reserve (layout s));
  _ ← modify_space (set_brk start start limit);
  record_area start start RW_USER Heap true.

(** [(new_end..old_end).step_by(PAGE_SIZE)] *)
Definition brk (new_brk : Z) : MU Z :=
  s ← get_space;
  if decide (new_brk = 0) then mret (brk_current s)
  else if decide (new_brk < brk_start s ∨ brk_limit s < new_brk) then mret (brk_current s)
  else
    old_end ← align_up_page (brk_current s);
    new_end ← align_up_page new_brk;
    _ ← (if decide (new_end < old_end)
         then unmap_pages new_end (page_offsets (old_end - new_end)) else mret ());
    _ ← modify_space (λ s, set_brk (brk_start s) new_brk (brk_limit s) s);
    _ ← modify_space (λ s, set_vmas (update_heap_vma_end new_brk (vmas s)) s);
    mret new_brk.

(** ** [mmap] *)

Definition mmap_anonymous (addr len flags page_flags : Z) : MU Z :=
  if decide (len = 0 ∨ Z.land flags MAP_ANONYMOUS = 0) then mthrow AddressOverflow
  else
    aligned_len ← align_up_page len;
    base ← prepare_mapping_base addr aligned_len flags;
    end_ ← add64 base aligned_len;
    _ ← record_area base end_ page_flags Anonymous true;
    mret base.

(** The part of [bytes] for the page at offset [page]. *)
Definition page_slice (bytes : list Z) (page : Z) : list Z :=
  take (Z.to_nat PAGE_SIZE) (drop (Z.to_nat page) bytes).

Fixpoint map_pages (base page_flags : Z) (bytes : list Z) (pages : list Z) : MU unit :=
  match pages with
  | [] => mret ()
  | page :: rest =>
      va ← add64 base page;
      _ ← map_page va page_flags 0 (page_slice bytes page);
      map_pages base page_flags bytes rest
  end.

Definition mmap_bytes (addr len flags page_flags : Z) (bytes : list Z) : MU Z :=
  if decide (len = 0) then mthrow AddressOverflow
  else
    aligned_len ← align_up_page len;
    base ← prepare_mapping_base addr aligned_len flags;
    _ ← map_pages base page_flags bytes (page_offsets aligned_len);
    end_ ← add64 base aligned_len;
    _ ← record_area base end_ page_flags Anonymous false;
    mret base.

(** [image.read_exact_at(..)?] *)
Definition read_image (source : ProgramImageSource) (offset n : Z) : MU (list Z) :=
  match read_exact_at source offset n with
  | Ok bytes => mret bytes
  | Err e => mthrow (build_from_image e)
  | Panic => mpanic
  | Diverge => mdiverge
  end.

Fixpoint map_image_pages (base page_flags : Z) (image : ProgramImageSource) (image_offset image_len : Z)
    (pages : list Z) : MU unit :=
  match pages with
  | [] => mret ()
  | page :: rest =>
      bytes ← (if decide (page < image_len) then
                 offset ← mok_or (checked_add u64_max image_offset page) AddressOverflow;
                 read_image image offset (PAGE_SIZE `min` (image_len - page))
               else mret []);
      va ← add64 base page;
      _ ← map_page va page_flags 0 bytes;
      map_image_pages base page_flags image image_offset image_len rest
  end.

Definition mmap_image (addr len flags page_flags : Z) (image : ProgramImageSource) (image_offset image_len : Z)
    : MU Z :=
  if decide (len = 0) then mthrow AddressOverflow
  else
    aligned_len ← align_up_page len;
    base ← prepare_mapping_base addr aligned_len flags;
    _ ← map_image_pages base page_flags image image_offset image_len (page_offsets aligned_len);
    end_ ← add64 base aligned_len;
    _ ← record_area base end_ page_flags Anonymous false;
    mret base.

Definition mmap_lazy_image (addr len flags page_flags : Z) (image : ProgramImageSource)
    (image_offset image_len : Z) : MU Z :=
  if decide (len = 0) then mthrow AddressOverflow
  else
    aligned_len ← align_up_page len;
    base ← prepare_mapping_base addr aligned_len flags;
    end_ ← add64 base aligned_len;
    _ ← record_area base end_ page_flags (PagedImage image image_offset image_len) true;
    mret base.

Fixpoint map_physical_pages (base page_base page_flags : Z) (pages : list Z) : MU unit :=
  match pages with
  | [] => mret ()
  | page :: rest =>
      pa ← add64 page_base page;
      va ← add64 base page;
      _ ← map_physical_page va (from_start_address (mkPhysAddr pa)) page_flags;
      map_physical_pages base page_base page_flags rest
  end.

Definition mmap_physical (addr len flags page_flags physical_address : Z) : MU Z :=
  if decide (len = 0) then mthrow AddressOverflow
  else
    let page_base := align_down physical_address PAGE_SIZE in
    let page_offset := saturating_sub physical_address page_base in
    total_len ← align_up_page (saturating_add u64_max len page_offset);
    base ← prepare_mapping_base addr total_len flags;
    _ ← map_physical_pages base page_base page_flags (page_offsets total_len);
    end_ ← add64 base total_len;
    _ ← record_area base end_ page_flags Device false;
    add64 base page_offset.

Fixpoint map_shared_pages (base page_flags : Z) (index : Z) (frames : list Z) : MU unit :=
  match frames with
  | [] => mret ()
  | physical_address :: rest =>
      va ← add64 base (index * PAGE_SIZE);
      _ ← map_shared_page va (from_start_address (mkPhysAddr physical_address)) page_flags;
      map_shared_pages base page_flags (index + 1) rest
  end.

Definition mmap_shared_physical (addr len flags page_flags : Z) (physical_pages : list Z) : MU Z :=
  if decide (len = 0) then mthrow AddressOverflow
  else
    aligned_len ← align_up_page len;
    let expected_pages := aligned_len / PAGE_SIZE in
    if decide (Z.of_nat (length physical_pages) < expected_pages) then mthrow AddressOverflow
    else
      base ← prepare_mapping_base addr aligned_len flags;
      _ ← map_shared_pages base page_flags 0 (take (Z.to_nat expected_pages) physical_pages);
      end_ ← add64 base aligned_len;
      _ ← record_area base end_ page_flags Shared false;
      mret base.

(** ** Protection *)

(** [for mapping in &mut self.mappings[start_index..end_index]]: an error leaves
    the mappings that were already changed. *)
Fixpoint protect_mappings (indices : list nat) (flags : Z) : MU unit :=
  match indices with
  | [] => mret ()
  | index :: rest =>
      s ← get_space;
      m ← mexpect (mappings s !! index);
      _ ← on_machine BuildMap (um_protect (space_root s) (mp_virt m) flags);
      _ ← modify_space (λ s, set_mappings (<[index := mkMapping (mp_virt m) (mp_frame m) flags false
                                                      (mp_owned m) (mp_shared m)]> (mappings s)) s);
      protect_mappings rest flags
  end.

Definition mprotect (addr len flags : Z) : MU unit :=
  if decide (len = 0 ∨ virt_is_aligned (mkVirtAddr addr) PAGE_SIZE = false) then mthrow AddressOverflow
  else
    aligned_len ← align_up_page len;
    end_ ← mok_or (checked_add u64_max addr aligned_len) AddressOverflow;
    s ← get_space;
    let start_index := partition_point (λ m, virt_u64 (mp_virt m) <? addr) (mappings s) in
    let end_index := partition_point (λ m, virt_u64 (mp_virt m) <? end_) (mappings s) in
    let changed := bool_decide (start_index ≠ end_index) || vma_range_overlaps addr end_ (vmas s) in
    _ ← protect_mappings (seq start_index (end_index - start_index)) flags;
    if negb changed then mthrow (BuildMap NotMapped)
    else modify_space (λ s, set_vmas (update_vma_flags addr end_ flags (vmas s)) s).

(** ** Demand paging *)

(** Bytes read into the frame; an error is passed on. *)
Definition fill_from (frame : PhysFrame) (source : ProgramImageSource) (source_offset dest_offset n : Z) : MU unit :=
  bytes ← read_image source source_offset n;
  write_frame_partial frame dest_offset bytes.

Definition fill_lazy_page_from_vma (frame : PhysFrame) (page_base page_end : Z) (vma : UserVma) : MU unit :=
  match vma_kind vma with
  | Anonymous | Heap | Stack => mret ()
  | PagedImage source image_offset image_len =>
      let page_offset := saturating_sub page_base (vma_start vma) in
      if decide (image_len <= page_offset) then mret ()
      else
        let copy_len := PAGE_SIZE `min` saturating_sub image_len page_offset in
        source_offset ← mok_or (checked_add u64_max image_offset page_offset) AddressOverflow;
        fill_from frame source source_offset 0 copy_len
  | ElfSegmentImage source segment_start image_offset image_len _ =>
      file_segment_end ← mok_or (checked_add u64_max segment_start image_len) AddressOverflow;
      let copy_start := page_base `max` segment_start in
      let copy_end := page_end `min` file_segment_end in
      if decide (copy_end <= copy_start) then mret ()
      else
        let dest_offset := copy_start - page_base in
        source_offset ← mok_or (checked_add u64_max image_offset (copy_start - segment_start)) AddressOverflow;
        fill_from frame source source_offset dest_offset (copy_end - copy_start)
  | _ => mret ()
  end.

(** An area that contributes to the page. *)
Definition contributes (page_base : Z) (vma : UserVma) : bool := vma_lazy vma && (page_base <? vma_end vma).

(** Fills the frame from each area in turn; on an error the frame is given
    back. *)
Fixpoint fill_all (frame : PhysFrame) (page_base page_end : Z) (areas : list UserVma) : MU unit :=
  match areas with
  | [] => mret ()
  | vma :: rest => λ s,
      match fill_lazy_page_from_vma frame page_base page_end vma s with
      | (Ok _, s') => fill_all frame page_base page_end rest s'
      | (Err error, s') => (_ ← release_frames frame; mthrow error) s'
      | (Panic, s') => (Panic, s')
      | (Diverge, s') => (Diverge, s')
      end
  end.

Definition merged_flags (areas : list UserVma) : Z :=
  foldl (λ acc v, MapFlags.bitor acc (vma_flags v)) MapFlags.empty areas.

(** The areas at the indices of a window. *)
Definition window_areas (start_index end_index : nat) (l : list UserVma) : list UserVma :=
  take (end_index - start_index) (drop start_index l).

(** Both callers pass the contributing areas, in the order of the window or
    sorted by the order of the segments. *)
Definition map_lazy_page_from (page_base page_end : Z) (areas : list UserVma) : MU unit :=
  frame ← allocate_zeroed_owned_frame;
  _ ← fill_all frame page_base page_end areas;
  map_owned_frame page_base frame (merged_flags areas).

(** [window[start..end]] with the areas that do not contribute skipped. *)
Definition map_lazy_page_from_window (page_base page_end : Z) (start_index end_index : nat) : MU unit :=
  s ← get_space;
  map_lazy_page_from page_base page_end
    (List.filter (contributes page_base) (window_areas start_index end_index (vmas s))).

Definition map_lazy_page_from_indices (page_base page_end : Z) (contributors : list nat) : MU unit :=
  s ← get_space;
  map_lazy_page_from page_base page_end (omap (λ index, vmas s !! index) contributors).

(** [sort_by_key(|index| lazy_order)]: a stable insertion sort. *)
Fixpoint insert_by_order (l : list UserVma) (index : nat) (sorted : list nat) : list nat :=
  match sorted with
  | [] => [index]
  | j :: rest =>
      if decide (default 0%nat (lazy_order <$> l !! index) < default 0%nat (lazy_order <$> l !! j))%nat
      then index :: j :: rest else j :: insert_by_order l index rest
  end.
Definition sort_by_order (l : list UserVma) (indices : list nat) : list nat :=
  foldl (λ acc index, insert_by_order l index acc) [] indices.

(** Whether the orders increase along the contributing areas. *)
Fixpoint monotonic_order (orders : list nat) : bool :=
  match orders with
  | [] => true
  | a :: rest => match rest with [] => true | b :: _ => bool_decide (a <= b)%nat && monotonic_order rest end
  end.

Definition map_lazy_page (page_base : Z) (write : bool) : MU bool :=
  page_end ← mok_or (checked_add u64_max page_base PAGE_SIZE) AddressOverflow;
  s ← get_space;
  match lazy_vma_window page_base page_end (vmas s) with
  | None => mret false
  | Some (start_index, end_index) =>
      let contributing := List.filter (contributes page_base) (window_areas start_index end_index (vmas s)) in
      let write_allowed := existsb (λ v, MapFlags.contains (vma_flags v) MapFlags.WRITE) contributing in
      if decide (contributing = []) then mret false
      else if write && negb write_allowed then mret false
      else if bool_decide (length contributing = 1)%nat || monotonic_order (lazy_order <$> contributing) then
        _ ← map_lazy_page_from_window page_base page_end start_index end_index;
        mret true
      else
        let contributors :=
          List.filter (λ index, match vmas s !! index with Some v => contributes page_base v | None => false end)
            (seq start_index (end_index - start_index)) in
        _ ← map_lazy_page_from_indices page_base page_end (sort_by_order (vmas s) contributors);
        mret true
  end.

(** ** Copy on write *)

Definition set_cow_done (index : nat) (frame : PhysFrame) (flags : Z) : MU unit :=
  modify_space (λ s,
    set_mappings (alter (λ m, mkMapping (mp_virt m) frame flags false (mp_owned m) (mp_shared m)) index
                    (mappings s)) s).

Definition resolve_cow_fault (page_base : Z) : MU unit :=
  s ← get_space;
  index ← mok_or (mapping_index page_base s) (BuildMap NotMapped);
  m ← mexpect (mappings s !! index);
  let old_frame := mp_frame m in
  let writable_flags := MapFlags.bitor (mp_flags m) MapFlags.WRITE in
  let virt := mkVirtAddr page_base in
  rc ← on_machine BuildFrame (fa_ref_count old_frame);
  let ref_count := default 1 rc in
  if decide (1 < ref_count) then
    new_frame ← on_machine BuildFrame (fa_alloc 1);
    _ ← copy_frame old_frame new_frame;
    _ ← on_machine BuildMap (um_unmap (space_root s) virt);
    _ ← on_machine BuildMap (um_map (space_root s) virt new_frame writable_flags);
    set_cow_done index new_frame writable_flags
  else
    _ ← on_machine BuildMap (um_protect (space_root s) virt writable_flags);
    set_cow_done index old_frame writable_flags.

Definition ensure_access (address : Z) (write : bool) : MU unit :=
  let page_base := align_down address PAGE_SIZE in
  s ← get_space;
  match mapping page_base s with
  | Some m =>
      if write then
        if mp_cow m then resolve_cow_fault page_base
        else if negb (MapFlags.contains (mp_flags m) MapFlags.WRITE) then mthrow (BuildMap NotMapped)
        else mret ()
      else mret ()
  | None =>
      mapped ← map_lazy_page page_base write;
      if (mapped : bool) then mret () else mthrow (BuildMap NotMapped)
  end.

Definition PF_WRITE : Z := 2.
Definition PF_USER : Z := 4.
Definition PF_INSTR : Z := 16.

Definition fault_access_allowed (m : UserMapping) (error_code : Z) : bool :=
  let denied bit flag := negb (Z.land error_code bit =? 0) && negb (MapFlags.contains (mp_flags m) flag) in
  negb (denied PF_WRITE MapFlags.WRITE) && negb (denied PF_USER MapFlags.USER) &&
  negb (denied PF_INSTR MapFlags.EXECUTE).

Definition handle_page_fault (address error_code : Z) : MU PageFaultHandling :=
  let page_base := align_down address PAGE_SIZE in
  let write_fault := negb (Z.land error_code 2 =? 0) in
  s ← get_space;
  match mapping page_base s with
  | Some m =>
      if write_fault && mp_cow m then
        _ ← resolve_cow_fault page_base;
        mret Resolved
      else mret (if fault_access_allowed m error_code then InvalidateTlb else Unhandled)
  | None =>
      mapped ← map_lazy_page page_base write_fault;
      mret (if (mapped : bool) then Resolved else Unhandled)
  end.

Definition invalidate_page (address : Z) : MU unit :=
  s ← get_space;
  modify_machine (um_invalidate (space_root s) (mkVirtAddr (align_down address PAGE_SIZE))).

(** [UserAddressSpace::handle_page_fault] *)
Definition user_page_fault (address error_code : Z) : MU bool :=
  handling ← handle_page_fault address error_code;
  match handling with
  | Resolved => mret true
  | InvalidateTlb => _ ← invalidate_page address; mret true
  | Unhandled => mret false
  end.

(** ** Access from the kernel *)

(** The frame and the offset that hold an address. *)
Definition translate (address : Z) (s : UserAddressSpaceInner) : option (PhysFrame * Z) :=
  let page_base := align_down address PAGE_SIZE in
  m ← mapping page_base s;
  Some (mp_frame m, address - page_base).

(** [while copied < buffer.len()]: every round copies a byte at least. *)
Fixpoint read_loop (fuel : nat) (n : Z) (current : Z) (acc : list Z) : MU (list Z) :=
  let copied := Z.of_nat (length acc) in
  if decide (copied < n) then
    match fuel with
    | O => mdiverge
    | S fuel' =>
        _ ← ensure_access current false;
        s ← mget;
        match translate current s.1 with
        | None => mret acc
        | Some (frame, offset) =>
            let chunk := (n - copied) `min` (PAGE_SIZE - offset) in
            let bytes := take (Z.to_nat chunk) (drop (Z.to_nat offset) (um_bytes s.2 frame)) in
            current ← mok_or (checked_add u64_max current chunk) AddressOverflow;
            read_loop fuel' n current (acc ++ bytes)
        end
    end
  else mret acc.

Definition read (address n : Z) : MU (list Z) := read_loop (Z.to_nat n) n address [].

Definition read_user_exact (address len : Z) : MU (list Z) :=
  bytes ← read address len;
  if decide (Z.of_nat (length bytes) ≠ len) then mthrow AddressOverflow else mret bytes.

Fixpoint write_loop (fuel : nat) (buffer : list Z) (current copied : Z) : MU Z :=
  if decide (copied < Z.of_nat (length buffer)) then
    match fuel with
    | O => mdiverge
    | S fuel' =>
        _ ← ensure_access current true;
        s ← mget;
        match translate current s.1 with
        | None => mret copied
        | Some (frame, offset) =>
            let chunk := (Z.of_nat (length buffer) - copied) `min` (PAGE_SIZE - offset) in
            _ ← write_frame_partial frame offset (take (Z.to_nat chunk) (drop (Z.to_nat copied) buffer));
            current ← mok_or (checked_add u64_max current chunk) AddressOverflow;
            write_loop fuel' buffer current (copied + chunk)
        end
    end
  else mret copied.

Definition write (address : Z) (buffer : list Z) : MU Z := write_loop (length buffer) buffer address 0.

Fixpoint c_string_loop (fuel : nat) (current : Z) (bytes : list Z) : MU (list Z) :=
  match fuel with
  | O => mret bytes
  | S fuel' =>
      _ ← ensure_access current false;
      s ← mget;
      match translate current s.1 with
      | None => mret bytes
      | Some (frame, offset) =>
          byte ← mexpect (um_bytes s.2 frame !! Z.to_nat offset);
          if decide (byte = 0) then mret bytes
          else
            current ← mok_or (checked_add u64_max current 1) AddressOverflow;
            c_string_loop fuel' current (bytes ++ [byte])
      end
  end.

Definition read_c_string (address max_len : Z) : MU (list Z) :=
  bytes ← c_string_loop (Z.to_nat max_len) address [];
  if utf8_valid bytes then mret bytes else mthrow AddressOverflow.

(** ** Loading programs *)

Fixpoint load_flat_pages (base flags : Z) (image : ProgramImageSource) (pages : list Z) : MU unit :=
  match pages with
  | [] => mret ()
  | page :: rest =>
      let len := PAGE_SIZE `min` saturating_sub (src_len image) page in
      va ← add64 base page;
      _ ← (if decide (len = 0) then map_zeroed_page va flags
           else
             frame ← allocate_zeroed_owned_frame;
             _ ← ((λ s, match fill_from frame image page 0 len s with
                        | (Err error, s') => (_ ← release_frames frame; mthrow error) s'
                        | r => r
                        end) : MU unit);
             map_owned_frame va frame flags);
      load_flat_pages base flags image rest
  end.

Definition load_flat_image (base : Z) (image : ProgramImageSource) : MU unit :=
  let flags := MapFlags.bitor (MapFlags.bitor MapFlags.READ MapFlags.EXECUTE) MapFlags.USER in
  aligned_len ← align_up_page (src_len image);
  _ ← load_flat_pages base flags image (page_offsets aligned_len);
  end_ ← add64 base aligned_len;
  record_area base end_ flags Program false.

Definition map_stack (base stack_pages : Z) : MU unit :=
  _ ← modify_space (set_stack_base base);
  end_ ← add64 base (stack_pages * PAGE_SIZE);
  record_area base end_ RW_USER Stack true.

Definition map_program_flags (flags : Z) : Z :=
  let map := MapFlags.bitor MapFlags.READ MapFlags.USER in
  let map := if ElfSegmentFlags.is_write flags then MapFlags.bitor map MapFlags.WRITE else map in
  if ElfSegmentFlags.is_execute flags then MapFlags.bitor map MapFlags.EXECUTE else map.

(** [iter().enumerate()] *)
Fixpoint load_segments (source : ProgramImageSource) (load_bias : Z) (order : nat) (hs : list ElfProgramHeader)
    : MU unit :=
  match hs with
  | [] => mret ()
  | header :: rest =>
      _ ← (if decide (ph_kind header ≠ Load) then mret ()
           else
             segment_base ← add64 load_bias (ph_virtual_addr header);
             let map_base := align_down segment_base PAGE_SIZE in
             segment_end ← add64 segment_base (ph_mem_size header);
             map_end ← align_up_page segment_end;
             record_area map_base map_end (map_program_flags (ph_flags header))
               (ElfSegmentImage source segment_base (ph_offset header) (ph_file_size header) order) true);
      load_segments source load_bias (S order) rest
  end.

Definition load_elf_image (source : ProgramImageSource) (image : ElfImage) (load_bias : Z) : MU unit :=
  load_segments source load_bias 0 (program_headers image).

(** ** Creation, fork and drop *)

Definition new_space : M W BuildError UserAddressSpaceInner := λ w,
  match um_new_user_root w with
  | (Ok root, w') => (Ok (mkSpace layout_current root 0 [] [] 0 0 0), w')
  | (Err e, w') => (Err (BuildMap e), w')
  | (Panic, w') => (Panic, w')
  | (Diverge, w') => (Diverge, w')
  end.

(** [for mapping in self.mappings.drain(..).rev()]; errors are dropped. *)
Fixpoint drop_mappings (ms : list UserMapping) : MU unit :=
  match ms with
  | [] => mret ()
  | m :: rest =>
      s ← get_space;
      _ ← (if mp_owned m then ignore (on_machine BuildMap (um_unmap (space_root s) (mp_virt m)))
           else
             _ ← ignore (on_machine BuildMap (um_unmap_preserve (space_root s) (mp_virt m)));
             if mp_shared m then release_frames (mp_frame m) else mret ());
      drop_mappings rest
  end.

Definition drop_space : MU unit :=
  s ← get_space;
  _ ← modify_space (set_mappings []);
  drop_mappings (rev (mappings s)).

Definition copy_mapping (m : UserMapping) : MU unit :=
  s ← get_space;
  if mp_shared m then
    _ ← on_machine BuildFrame (fa_retain (mp_frame m));
    _ ← on_machine BuildMap (um_map (space_root s) (mp_virt m) (mp_frame m) (mp_flags m));
    insert_mapping (mkMapping (mp_virt m) (mp_frame m) (mp_flags m) false false true)
  else
    frame ← on_machine BuildFrame (fa_alloc 1);
    _ ← copy_frame (mp_frame m) frame;
    let flags := MapFlags.bitor (mp_flags m) (if mp_cow m then MapFlags.WRITE else MapFlags.empty) in
    _ ← on_machine BuildMap (um_map (space_root s) (mp_virt m) frame flags);
    insert_mapping (mkMapping (mp_virt m) frame
                      (if mp_cow m then MapFlags.bitor (mp_flags m) MapFlags.WRITE else mp_flags m)
                      false true false).

Fixpoint copy_mappings (ms : list UserMapping) : MU unit :=
  match ms with
  | [] => mret ()
  | m :: rest => _ ← copy_mapping m; copy_mappings rest
  end.

(** The child with the fields that are copied. *)
Definition child_of (parent copy : UserAddressSpaceInner) : UserAddressSpaceInner :=
  mkSpace (layout parent) (space_root copy) (stack_base parent) [] (vmas parent)
    (brk_start parent) (brk_current parent) (brk_limit parent).

(** The new space is dropped when [body], which runs on it, fails. *)
Definition with_child {A} (parent : UserAddressSpaceInner) (body : MU A)
    : M W BuildError UserAddressSpaceInner := λ w,
  match new_space w with
  | (Ok copy, w1) =>
      match body (child_of parent copy, w1) with
      | (Ok _, (child, w2)) => (Ok child, w2)
      | (Err e, s2) =>
          match drop_space s2 with
          | (Ok _, (_, w3)) => (Err e, w3)
          | (Err e', (_, w3)) => (Err e', w3)
          | (Panic, (_, w3)) => (Panic, w3)
          | (Diverge, (_, w3)) => (Diverge, w3)
          end
      | (Panic, (_, w2)) => (Panic, w2)
      | (Diverge, (_, w2)) => (Diverge, w2)
      end
  | (Err e, w1) => (Err e, w1)
  | (Panic, w1) => (Panic, w1)
  | (Diverge, w1) => (Diverge, w1)
  end.

Definition fork_copy (parent : UserAddressSpaceInner) : M W BuildError UserAddressSpaceInner :=
  with_child parent (copy_mappings (mappings parent)).

(** [fork_cow] changes the parent too: the state is the parent, the child and
    the machine. *)
Definition MF := M (UserAddressSpaceInner * (UserAddressSpaceInner * W)) BuildError.

Definition on_child {A} (op : MU A) : MF A := λ s,
  let '(r, s') := op s.2 in (r, (s.1, s')).

Definition push_mapping (m : UserMapping) : MU unit :=
  modify_space (λ s, set_mappings (mappings s ++ [m]) s).

Definition fork_one (index : nat) : MF unit :=
  parent ← mgets fst;
  child ← mgets (λ s, s.2.1);
  m ← mexpect (mappings parent !! index);
  if negb (mp_owned m) then
    _ ← (if mp_shared m then _ ← on_child (on_machine BuildFrame (fa_retain (mp_frame m))); mret () else mret ());
    _ ← on_child (on_machine BuildMap (um_map (space_root child) (mp_virt m) (mp_frame m) (mp_flags m)));
    on_child (push_mapping (mkMapping (mp_virt m) (mp_frame m) (mp_flags m) false false (mp_shared m)))
  else
    let shared := mp_cow m || MapFlags.contains (mp_flags m) (MapFlags.bitor MapFlags.WRITE MapFlags.USER) in
    let child_flags := if shared then MapFlags.without (mp_flags m) MapFlags.WRITE else mp_flags m in
    _ ← on_child (on_machine BuildFrame (fa_retain (mp_frame m)));
    _ ← on_child (on_machine BuildMap (um_map (space_root child) (mp_virt m) (mp_frame m) child_flags));
    _ ← (if shared && negb (mp_cow m) then
           _ ← on_child (on_machine BuildMap (um_protect (space_root parent) (mp_virt m) child_flags));
           mmodify (λ s, (set_mappings (<[index := mkMapping (mp_virt m) (mp_frame m) child_flags true
                                                     (mp_owned m) (mp_shared m)]> (mappings s.1)) s.1, s.2))
         else mret ());
    on_child (push_mapping (mkMapping (mp_virt m) (mp_frame m) child_flags shared true false)).

Fixpoint fork_loop (indices : list nat) : MF unit :=
  match indices with
  | [] => mret ()
  | index :: rest => _ ← fork_one index; fork_loop rest
  end.

Definition fork_cow : MU UserAddressSpaceInner := λ '(parent, w),
  match new_space w with
  | (Ok copy, w1) =>
      match fork_loop (seq 0 (length (mappings parent))) (parent, (child_of parent copy, w1)) with
      | (Ok _, (parent', (child, w2))) => (Ok child, (parent', w2))
      | (Err e, (parent', s2)) =>
          match drop_space s2 with
          | (Ok _, (_, w3)) => (Err e, (parent', w3))
          | (Err e', (_, w3)) => (Err e', (parent', w3))
          | (Panic, (_, w3)) => (Panic, (parent', w3))
          | (Diverge, (_, w3)) => (Diverge, (parent', w3))
          end
      | (Panic, (parent', (_, w2))) => (Panic, (parent', w2))
      | (Diverge, (parent', (_, w2))) => (Diverge, (parent', w2))
      end
  | (Err e, w1) => (Err e, (parent, w1))
  | (Panic, w1) => (Panic, (parent, w1))
  | (Diverge, w1) => (Diverge, (parent, w1))
  end.
End space.
