(* ===== verification/SpaceApi.v ===== *)
(** * What user address spaces rely on

    The laws of the class [UserMachine] over an abstract machine: for every
    root of a live address space the finite map from page addresses to frame
    and flags, the allocated blocks that are not page tables with their
    reference counts, and the bytes of the frames. *)

From S2P Require Import Prelude Frame PageTable Image Vma UserSpace.

#[global] Instance PhysFrame_countable : Countable PhysFrame.
Proof.
  refine (inj_countable' (λ f, addr_u64 (frame_start f)) (λ a, mkPhysFrame (mkPhysAddr a)) _). by intros [[]].
Defined.

Record abstract := mkAbs {
  am_spaces : gmap PhysFrame (gmap Z (PhysFrame * Z));
  am_blocks : frame_map;
  am_data : PhysFrame → list Z;
}.

Definition set_space (root : PhysFrame) (V : gmap Z (PhysFrame * Z)) (am : abstract) : abstract :=
  mkAbs (<[root := V]> (am_spaces am)) (am_blocks am) (am_data am).
Definition set_blocks (m : frame_map) (am : abstract) : abstract :=
  mkAbs (am_spaces am) m (am_data am).
Definition set_data (f : PhysFrame) (bs : list Z) (am : abstract) : abstract :=
  mkAbs (am_spaces am) (am_blocks am) (λ g, if decide (g = f) then bs else am_data am g).

(** User addresses: the lower half, page aligned. *)
Definition user_page (va : Z) : Prop := 0 <= va < 2 ^ 47 ∧ va mod 4096 = 0.

Section laws.
Context {W : Type} `{!UserMachine W} (rep : W → abstract → Prop) (round1 : Z) (foreign : PhysFrame → Prop).

(** A frame that may be mapped: allocated on its own, or device memory. *)
Definition mappable_frame (am : abstract) (f : PhysFrame) : Prop :=
  (∃ s len rc, f = frame_of s ∧ am_blocks am !! s = Some (len, rc)) ∨ foreign f.

Class UserMachineSpec : Prop := {
  us_live w am s len rc : rep w am → am_blocks am !! s = Some (len, rc) → 1 <= rc;
  us_foreign w am s : rep w am → foreign (frame_of s) → am_blocks am !! s = None;
  us_bytes w am f : rep w am → um_bytes w f = am_data am f;
  us_page w am f : rep w am → length (am_data am f) = Z.to_nat PAGE_SIZE;
  us_set_bytes w am f bs :
    rep w am → length bs = Z.to_nat PAGE_SIZE → rep (um_set_bytes f bs w) (set_data f bs am);
  us_invalidate w am root v : rep w am → rep (um_invalidate root v w) am;
  us_alloc w am :
    rep w am →
    wp_res (fa_alloc 1) w
      (λ f w', ∃ s, f = frame_of s ∧ am_blocks am !! s = None ∧ ¬ foreign f ∧
         rep w' (set_blocks (<[s := (round1, 1)]> (am_blocks am)) am))
      (λ _ w', rep w' am);
  us_retain w am f :
    rep w am →
    wp_res (fa_retain f) w
      (λ _ w', ∃ s len rc, f = frame_of s ∧ am_blocks am !! s = Some (len, rc) ∧
         rep w' (set_blocks (<[s := (len, rc + 1)]> (am_blocks am)) am))
      (λ _ w', rep w' am);
  us_release w am s rc :
    rep w am → am_blocks am !! s = Some (round1, rc) →
    (rc = 1 → ∀ root V va flags, am_spaces am !! root = Some V → V !! va ≠ Some (frame_of s, flags)) →
    wp_res (fa_release (frame_of s) 1) w
      (λ _ w', rep w' (set_blocks (unref (am_blocks am) s round1 rc) am)) (λ _ _, False);
  us_ref_count w am f :
    rep w am →
    wp_res (fa_ref_count f) w
      (λ r w', w' = w ∧ ∀ s len rc, f = frame_of s → am_blocks am !! s = Some (len, rc) → r = Some rc)
      (λ _ _, False);
  us_new_root w am :
    rep w am →
    wp_res um_new_user_root w
      (λ root w', am_spaces am !! root = None ∧ rep w' (set_space root ∅ am)) (λ _ w', rep w' am);
  us_map w am root V va f flags :
    rep w am → am_spaces am !! root = Some V → user_page va → mappable_frame am f →
    wp_res (um_map root (mkVirtAddr va) f flags) w
      (λ _ w', V !! va = None ∧ rep w' (set_space root (<[va := (f, flags)]> V) am)) (λ _ w', rep w' am);
  us_unmap w am root V va s rc flags :
    rep w am → am_spaces am !! root = Some V → user_page va → V !! va = Some (frame_of s, flags) →
    am_blocks am !! s = Some (round1, rc) →
    (rc = 1 → ∀ root' V' va' flags', am_spaces am !! root' = Some V' → V' !! va' = Some (frame_of s, flags') →
       root' = root ∧ va' = va) →
    wp_res (um_unmap root (mkVirtAddr va)) w
      (λ _ w', rep w' (set_blocks (unref (am_blocks am) s round1 rc) (set_space root (delete va V) am)))
      (λ _ _, False);
  us_unmap_preserve w am root V va f flags :
    rep w am → am_spaces am !! root = Some V → user_page va → V !! va = Some (f, flags) →
    wp_res (um_unmap_preserve root (mkVirtAddr va)) w
      (λ _ w', rep w' (set_space root (delete va V) am)) (λ _ _, False);
  us_protect w am root V va f flags flags' :
    rep w am → am_spaces am !! root = Some V → user_page va → V !! va = Some (f, flags) →
    wp_res (um_protect root (mkVirtAddr va) flags') w
      (λ _ w', rep w' (set_space root (<[va := (f, flags')]> V) am)) (λ _ _, False);
}.
End laws.
