(* ===== verification/SpaceInv.v ===== *)
(** * The invariant of a system of address spaces

    Several address spaces over one machine.  Every space's vector of mappings
    is sorted and agrees with its page table; every reference count is the
    number of mappings that hold the frame and of the references from outside;
    and a private page that can be written without a fault belongs to one
    mapping only.  The last clause is what makes [fork] a copy. *)

From S2P Require Import Prelude Frame PageTable Image Vma UserSpace SpaceApi.

(** ** Sorted vectors of mappings *)

Definition mkey (m : UserMapping) : Z := virt_u64 (mp_virt m).

Definition sorted_keys (ms : list UserMapping) : Prop :=
  ∀ i j x y, (i < j)%nat → ms !! i = Some x → ms !! j = Some y → mkey x < mkey y.

Lemma sorted_unique ms x y : sorted_keys ms → x ∈ ms → y ∈ ms → mkey x = mkey y → x = y.
Proof.
  intros Hs (i & Hi)%list_elem_of_lookup (j & Hj)%list_elem_of_lookup Hk.
  destruct (lt_eq_lt_dec i j) as [[Hij|Hij]|Hij].
  - specialize (Hs i j x y Hij Hi Hj). lia.
  - subst. congruence.
  - specialize (Hs j i y x Hij Hj Hi). lia.
Qed.

Lemma sorted_search ms k :
  sorted_keys ms →
  match binary_search_by_key mkey k ms with
  | inl i => ∃ x, ms !! i = Some x ∧ mkey x = k
  | inr i => (i <= length ms)%nat ∧ (∀ j x, (j < i)%nat → ms !! j = Some x → mkey x < k) ∧
             ∀ j x, (i <= j)%nat → ms !! j = Some x → k < mkey x
  end.
Proof.
  intros Hs. pose proof (binary_search_by_spec (λ x, mkey x ?= k) ms) as H. unfold binary_search_by_key.
  destruct (binary_search_by _ ms) as [i|i].
  - destruct H as (x & Hx & He%Z.compare_eq); [|by exists x]. apply sorted_ordered. intros. by apply Z.lt_le_incl, (Hs i0 j).
  - destruct H as (Hi & H1 & H2); [apply sorted_ordered; intros; by apply Z.lt_le_incl, (Hs i0 j)|].
    split; [done|]. split; intros j x Hj Hx.
    + exact (H1 j x Hj Hx).
    + by apply Z.compare_gt_iff, (H2 j x).
Qed.

(** Looking a key up. *)
Definition find_mapping (ms : list UserMapping) (k : Z) : option (nat * UserMapping) :=
  match binary_search_by_key mkey k ms with
  | inl i => m ← ms !! i; Some (i, m)
  | inr _ => None
  end.

Lemma find_mapping_Some ms k i m :
  sorted_keys ms → find_mapping ms k = Some (i, m) ↔ ms !! i = Some m ∧ mkey m = k.
Proof.
  intros Hs. unfold find_mapping. pose proof (sorted_search ms k Hs) as H.
  destruct (binary_search_by_key mkey k ms) as [j|j].
  - destruct H as (x & Hx & Hk). rewrite Hx. simpl. split; [intros; by simplify_eq|].
    intros [Hm Hkm]. assert (x = m) as ->.
    { eapply (sorted_unique ms); [done|by eapply list_elem_of_lookup_2..|congruence]. }
    assert (i = j) as ->; [|done].
    destruct (lt_eq_lt_dec i j) as [[Hij|Hij]|Hij]; [|done|].
    + specialize (Hs i j m m Hij Hm Hx). lia.
    + specialize (Hs j i m m Hij Hx Hm). lia.
  - destruct H as (_ & H1 & H2). split; [done|]. intros [Hm <-].
    destruct (decide (i < j)%nat) as [Hij|Hij]; [specialize (H1 i m Hij Hm)|specialize (H2 i m ltac:(lia) Hm)]; lia.
Qed.

Lemma find_mapping_None ms k : sorted_keys ms → find_mapping ms k = None ↔ ∀ m, m ∈ ms → mkey m ≠ k.
Proof.
  intros Hs. split.
  - intros Hn m (i & Hm)%list_elem_of_lookup Hk. assert (find_mapping ms k = Some (i, m)) by by apply find_mapping_Some.
    congruence.
  - intros Hno. destruct (find_mapping ms k) as [[i m]|] eqn:H; [|done].
    apply find_mapping_Some in H as [Hm Hk]; [|done]. apply list_elem_of_lookup_2 in Hm. by destruct (Hno m Hm).
Qed.

Lemma vec_insert_Permutation {A} i (x : A) l : vec_insert i x l ≡ₚ x :: l.
Proof. unfold vec_insert. rewrite <-Permutation_middle. by rewrite take_drop. Qed.

Lemma vec_remove_Permutation {A} i (x : A) l : l !! i = Some x → l ≡ₚ x :: vec_remove i l.
Proof.
  intros Hx. unfold vec_remove. rewrite <-(take_drop_middle l i x Hx) at 1. by rewrite Permutation_middle.
Qed.

Lemma sorted_keys_sublist ms ms' : ms' `sublist_of` ms → sorted_keys ms → sorted_keys ms'.
Proof.
  induction 1 as [|x l1 l2 Hsub IH|x l1 l2 Hsub IH]; intros Hs; [done| |].
  - intros [|i] [|j] a b Hij Ha Hb; simplify_eq/=; try lia.
    + apply list_elem_of_lookup_2 in Hb. pose proof (sublist_subseteq _ _ Hsub) as Hin. apply Hin in Hb.
      apply list_elem_of_lookup in Hb as (k & Hk). by apply (Hs 0%nat (S k)); [lia| |].
    + refine (IH _ i j a b _ Ha Hb); [|lia]. intros i' j' a' b' Hij' Ha' Hb'. by apply (Hs (S i') (S j')); [lia| |].
  - apply IH. intros i' j' a' b' Hij' Ha' Hb'. by apply (Hs (S i') (S j')); [lia| |].
Qed.

Lemma sorted_keys_remove i ms : sorted_keys ms → sorted_keys (vec_remove i ms).
Proof.
  apply sorted_keys_sublist. unfold vec_remove. rewrite <-(take_drop i ms) at 3. apply sublist_app; [done|].
  rewrite <-(Nat.add_1_r i), <-drop_drop. apply sublist_drop.
Qed.

Lemma sorted_keys_insert m ms :
  sorted_keys ms → (∀ x, x ∈ ms → mkey x ≠ mkey m) →
  sorted_keys (vec_insert (search_index (binary_search_by_key mkey (mkey m) ms)) m ms).
Proof.
  intros Hs Hno. pose proof (sorted_search ms (mkey m) Hs) as H.
  destruct (binary_search_by_key _ _ _) as [i|i]; simpl.
  { destruct H as (x & Hx & Hk). apply list_elem_of_lookup_2 in Hx. by destruct (Hno x Hx). }
  destruct H as (Hi & Hlo & Hhi). unfold vec_insert. intros a b x y Hab Ha Hb.
  assert (length (take i ms) = i) as Hlen by (rewrite length_take; lia).
  destruct (decide (b < i)%nat).
  - rewrite lookup_app_l in Ha, Hb by lia. rewrite lookup_take_lt in Ha, Hb by lia. by apply (Hs a b).
  - rewrite lookup_app_r in Hb by lia. rewrite Hlen in Hb. destruct (decide (a < i)%nat).
    + rewrite lookup_app_l, lookup_take_lt in Ha by lia. specialize (Hlo a x ltac:(lia) Ha).
      destruct (b - i)%nat as [|c] eqn:Hc; simplify_eq/=; [done|].
      rewrite lookup_drop in Hb. specialize (Hhi _ y (Nat.le_add_r i c) Hb). lia.
    + rewrite lookup_app_r in Ha by lia. rewrite Hlen in Ha.
      destruct (b - i)%nat as [|c] eqn:Hc; [lia|]. simpl in Hb. rewrite lookup_drop in Hb.
      destruct (a - i)%nat as [|d] eqn:Hd; simplify_eq/=.
      * exact (Hhi _ y (Nat.le_add_r i c) Hb).
      * rewrite lookup_drop in Ha. apply (Hs (i + d)%nat (i + c)%nat); [lia|done..].
Qed.

(** Replacing a mapping by one with the same key. *)
Lemma sorted_keys_update i m m' ms :
  sorted_keys ms → ms !! i = Some m → mkey m' = mkey m → sorted_keys (<[i := m']> ms).
Proof.
  intros Hs Hm Hk. assert (∀ a x, <[i := m']> ms !! a = Some x → ∃ x', ms !! a = Some x' ∧ mkey x' = mkey x) as Hold.
  { intros a x [(-> & <- & _)|[_ ?]]%list_lookup_insert_Some; eauto. }
  intros a b x y Hab (x' & Hx & <-)%Hold (y' & Hy & <-)%Hold. by apply (Hs a b).
Qed.

Lemma update_Permutation {A} i (x y : A) l : l !! i = Some x → <[i := y]> l ≡ₚ y :: vec_remove i l.
Proof.
  intros Hx. rewrite insert_take_drop by (by apply lookup_lt_Some in Hx). unfold vec_remove. by rewrite Permutation_middle.
Qed.

(** ** Flags *)

Lemma testbit_pow2 n i : 0 <= n → Z.testbit (2 ^ n) i = bool_decide (i = n).
Proof.
  intros Hn. case_bool_decide as H; [subst; by apply Z.pow2_bits_true|]. apply Z.pow2_bits_false. lia.
Qed.

Lemma contains_bit x n : 0 <= n → MapFlags.contains x (2 ^ n) = Z.testbit x n.
Proof.
  intros Hn. unfold MapFlags.contains. apply eq_true_iff_eq. rewrite Z.eqb_eq. split.
  - intros He. apply (f_equal (λ z, Z.testbit z n)) in He. rewrite Z.land_spec, Z.pow2_bits_true in He by done.
    by rewrite andb_true_r in He.
  - intros Hb. apply Z.bits_inj'. intros i Hi. rewrite Z.land_spec, testbit_pow2 by done.
    case_bool_decide; [subst; by rewrite Hb|by rewrite andb_false_r].
Qed.

Lemma contains_write x : MapFlags.contains x MapFlags.WRITE = Z.testbit x 1.
Proof. apply (contains_bit x 1). lia. Qed.
Lemma contains_user x : MapFlags.contains x MapFlags.USER = Z.testbit x 3.
Proof. apply (contains_bit x 3). lia. Qed.

Lemma contains_write_user x :
  MapFlags.contains x (MapFlags.bitor MapFlags.WRITE MapFlags.USER) = Z.testbit x 1 && Z.testbit x 3.
Proof.
  unfold MapFlags.contains. apply eq_true_iff_eq. rewrite Z.eqb_eq, andb_true_iff.
  change (MapFlags.bitor MapFlags.WRITE MapFlags.USER) with (Z.lor (2 ^ 1) (2 ^ 3)). split.
  - intros He. split; [apply (f_equal (λ z, Z.testbit z 1)) in He|apply (f_equal (λ z, Z.testbit z 3)) in He];
      rewrite Z.land_spec in He; by destruct (Z.testbit x _).
  - intros [H1 H3]. apply Z.bits_inj'. intros i Hi. rewrite Z.land_spec, Z.lor_spec, !testbit_pow2 by lia.
    repeat case_bool_decide; subst; rewrite ?H1, ?H3, ?andb_true_r, ?andb_false_r; done.
Qed.

Lemma without_write x : Z.testbit (MapFlags.without x MapFlags.WRITE) 1 = false.
Proof. unfold MapFlags.without. rewrite Z.land_spec. change (Z.testbit (u64_max - MapFlags.WRITE) 1) with false. apply andb_false_r. Qed.
Lemma without_user x : Z.testbit (MapFlags.without x MapFlags.WRITE) 3 = Z.testbit x 3.
Proof. unfold MapFlags.without. rewrite Z.land_spec. change (Z.testbit (u64_max - MapFlags.WRITE) 3) with true. apply andb_true_r. Qed.
Lemma bitor_write x : Z.testbit (MapFlags.bitor x MapFlags.WRITE) 1 = true.
Proof. unfold MapFlags.bitor. rewrite Z.lor_spec. change (Z.testbit MapFlags.WRITE 1) with true. apply orb_true_r. Qed.
Lemma bitor_user x y : Z.testbit (MapFlags.bitor x y) 3 = Z.testbit x 3 || Z.testbit y 3.
Proof. apply Z.lor_spec. Qed.

(** ** References *)

Definition holds (m : UserMapping) : bool := mp_owned m || mp_shared m.
Definition writable (m : UserMapping) : bool := mp_owned m && negb (mp_cow m) && Z.testbit (mp_flags m) 1.

(** The mapping holds a reference to the frame with number [s]. *)
Definition refers (s : Z) (m : UserMapping) : bool := holds m && bool_decide (mp_frame m = frame_of s).

Definition refs (ms : list UserMapping) (s : Z) : Z := Z.of_nat (length (List.filter (refers s) ms)).

Lemma refs_cons m ms s : refs (m :: ms) s = (if refers s m then 1 else 0) + refs ms s.
Proof. unfold refs. simpl. destruct (refers s m); simpl length; lia. Qed.

Lemma refs_app ms ms' s : refs (ms ++ ms') s = refs ms s + refs ms' s.
Proof. induction ms as [|m ms IH]; [done|]. rewrite <-app_comm_cons, !refs_cons, IH. lia. Qed.

#[global] Instance refs_perm : Proper ((≡ₚ) ==> eq ==> eq) refs.
Proof.
  intros ms ms' Hp s _ <-. induction Hp; rewrite ?refs_cons; lia.
Qed.

Lemma refs_nonneg ms s : 0 <= refs ms s.
Proof. unfold refs. lia. Qed.

Lemma refs_elem ms s m : m ∈ ms → refers s m = true → 1 <= refs ms s.
Proof.
  intros (ms1 & ms2 & ->)%list_elem_of_split Hr. rewrite refs_app, refs_cons, Hr.
  pose proof (refs_nonneg ms1 s). pose proof (refs_nonneg ms2 s). lia.
Qed.

Lemma refs_zero ms s : (∀ m, m ∈ ms → refers s m = false) → refs ms s = 0.
Proof.
  induction ms as [|m ms IH]; intros H; [done|]. rewrite refs_cons, H, IH; [done|..]; set_solver.
Qed.

Lemma refers_frame s m : refers s m = true ↔ holds m = true ∧ mp_frame m = frame_of s.
Proof. unfold refers. by rewrite andb_true_iff, bool_decide_eq_true. Qed.

Lemma writable_holds m : writable m = true → holds m = true ∧ mp_owned m = true.
Proof. unfold writable, holds. destruct (mp_owned m); simpl; naive_solver. Qed.

(** ** The system *)

Definition all_mappings (sps : list UserAddressSpaceInner) : list UserMapping := sps ≫= mappings.

Definition view_ok (V : gmap Z (PhysFrame * Z)) (ms : list UserMapping) : Prop :=
  ∀ va f fl, V !! va = Some (f, fl) ↔ ∃ m, m ∈ ms ∧ mkey m = va ∧ mp_frame m = f ∧ mp_flags m = fl.

Section system.
Context (round1 : Z) (foreign : PhysFrame → Prop).

Record mapping_ok (am : abstract) (m : UserMapping) : Prop := {
  mo_page : user_page (mkey m);
  mo_held : holds m = true → ∃ s rc, mp_frame m = frame_of s ∧ am_blocks am !! s = Some (round1, rc);
  mo_foreign : holds m = false → foreign (mp_frame m);
  mo_cow : mp_cow m = true → mp_owned m = true ∧ Z.testbit (mp_flags m) 1 = false;
  mo_user : mp_owned m = true → Z.testbit (mp_flags m) 3 = true;
}.

(** A byte of a source, and a source that returns the bytes that were asked for
    or an error. *)
Definition src_byte (src : ProgramImageSource) (off : Z) : option Z :=
  match read_exact_at src off 1 with Ok [b] => Some b | _ => None end.

Definition source_ok (src : ProgramImageSource) : Prop :=
  ∀ off n, match read_exact_at src off n with
           | Ok bytes => length bytes = Z.to_nat n ∧ ∀ i, (i < length bytes)%nat → bytes !! i = src_byte src (off + Z.of_nat i)
           | Err _ => True
           | _ => False
           end.

Definition kind_ok (k : UserVmaKind) : Prop :=
  match k with
  | PagedImage src _ _ => source_ok src
  | ElfSegmentImage src _ _ _ _ => source_ok src
  | _ => True
  end.

(** An area of user pages: the lower half, with the user flag. *)
Record area_ok (v : UserVma) : Prop := {
  ao_user : Z.testbit (vma_flags v) 3 = true;
  ao_end : vma_end v <= 2 ^ 47;
  ao_kind : kind_ok (vma_kind v);
}.

(** [ext s] counts the references to the block [s] from outside the mappings. *)
Record system (ext : Z → Z) (am : abstract) (sps : list UserAddressSpaceInner) : Prop := {
  sy_roots : NoDup (space_root <$> sps);
  sy_view sp : sp ∈ sps → ∃ V, am_spaces am !! space_root sp = Some V ∧ view_ok V (mappings sp);
  sy_sorted sp : sp ∈ sps → sorted_keys (mappings sp);
  sy_areas sp v : sp ∈ sps → v ∈ vmas sp → area_ok v;
  sy_others root V : am_spaces am !! root = Some V → root ∈ (space_root <$> sps) ∨ V = ∅;
  sy_mapping m : m ∈ all_mappings sps → mapping_ok am m;
  sy_refs s len rc : am_blocks am !! s = Some (len, rc) → rc = ext s + refs (all_mappings sps) s;
  sy_ext s : 0 <= ext s;
  sy_free s : am_blocks am !! s = None → ext s = 0;
  sy_private m s : m ∈ all_mappings sps → writable m = true → mp_frame m = frame_of s →
    refs (all_mappings sps) s = 1;
  sy_kind m m' : m ∈ all_mappings sps → m' ∈ all_mappings sps → holds m = true → holds m' = true →
    mp_frame m = mp_frame m' → mp_owned m = mp_owned m';
}.

Definition upd (ext : Z → Z) (s v : Z) : Z → Z := λ x, if decide (x = s) then v else ext x.

Lemma upd_same ext s v : upd ext s v s = v.
Proof. unfold upd. by rewrite decide_True. Qed.
Lemma upd_other ext s v x : x ≠ s → upd ext s v x = ext x.
Proof. unfold upd. intros. by rewrite decide_False. Qed.

Lemma system_ext ext ext' am sps : (∀ s, ext' s = ext s) → system ext am sps → system ext' am sps.
Proof.
  intros He []. split; try done.
  - intros s len rc Hs. rewrite He. eauto.
  - intros s. rewrite He. eauto.
  - intros s. rewrite He. eauto.
Qed.

(** The bytes do not matter. *)
Lemma system_data ext am sps f bs : system ext am sps → system ext (set_data f bs am) sps.
Proof.
  intros []. split; try done. intros m Hm. destruct (sy_mapping0 m Hm). by split.
Qed.

Lemma all_mappings_cons sp sps : all_mappings (sp :: sps) = mappings sp ++ all_mappings sps.
Proof. done. Qed.

(** No mapping refers to a block that is not allocated. *)
Lemma unallocated_refs ext am sps s :
  system ext am sps → am_blocks am !! s = None → refs (all_mappings sps) s = 0.
Proof.
  intros Hs Hb. apply refs_zero. intros m Hm. apply not_true_is_false. intros [Hh Hf]%refers_frame.
  destruct (mo_held _ _ (sy_mapping _ _ _ Hs m Hm) Hh) as (s' & rc & Hf' & Hb'). rewrite Hf in Hf'.
  injection Hf' as Heq. assert (s = s') by lia. congruence.
Qed.

Lemma frame_of_eq s s' : frame_of s = frame_of s' → s = s'.
Proof. intros H. injection H. lia. Qed.

(** A block leaves the allocator with one reference, held by the caller. *)
Lemma system_alloc ext am sps s :
  system ext am sps → am_blocks am !! s = None →
  system (upd ext s 1) (set_blocks (<[s := (round1, 1)]> (am_blocks am)) am) sps.
Proof.
  intros Hs Hb. pose proof (unallocated_refs _ _ _ _ Hs Hb) as Hr. destruct Hs. split; try done.
  - intros m Hm. destruct (sy_mapping0 m Hm) as [? Hh ? ? ?]. split; try done. intros Hm'.
    destruct (Hh Hm') as (s' & rc & Hf & Hb'). exists s', rc. split; [done|]. simpl.
    rewrite lookup_insert_ne by congruence. done.
  - intros s' len rc. simpl. intros [[<- [= <- <-]]|[Hne Hs']]%lookup_insert_Some.
    + rewrite upd_same, Hr. done.
    + rewrite upd_other by done. eauto.
  - intros s'. unfold upd. case_decide; [lia|apply sy_ext0].
  - intros s'. simpl. intros [Hne Hn]%lookup_insert_None. rewrite upd_other by done. eauto.
Qed.

(** The caller drops a reference. *)
Lemma system_release ext am sps s len rc :
  system ext am sps → am_blocks am !! s = Some (len, rc) → 1 <= ext s →
  system (upd ext s (ext s - 1)) (set_blocks (unref (am_blocks am) s len rc) am) sps.
Proof.
  intros Hs Hb Hext. pose proof (sy_refs _ _ _ Hs s len rc Hb) as Hrc.
  pose proof (refs_nonneg (all_mappings sps) s) as Hnn. destruct Hs. split; try done.
  - intros m Hm. destruct (sy_mapping0 m Hm) as [? Hh ? ? ?]. split; try done. intros Hm'.
    destruct (Hh Hm') as (s' & rc' & Hf & Hb'). simpl. unfold unref.
    destruct (decide (s' = s)) as [->|Hne].
    + simplify_eq. assert (1 <= refs (all_mappings sps) s) by (eapply refs_elem; [exact Hm|]; by apply refers_frame).
      rewrite decide_False by lia. exists s. eexists. rewrite lookup_insert_eq. done.
    + exists s', rc'. split; [done|]. case_decide; rewrite ?lookup_delete_ne, ?lookup_insert_ne by done; done.
  - intros s' len' rc'. simpl. unfold unref. case_decide as H1.
    + intros [Hne Hs']%lookup_delete_Some. rewrite upd_other by done. eauto.
    + intros [[<- [= <- <-]]|[Hne Hs']]%lookup_insert_Some; [rewrite upd_same; lia|]. rewrite upd_other by done. eauto.
  - intros s'. unfold upd. case_decide; [lia|apply sy_ext0].
  - intros s'. simpl. unfold unref. case_decide as H1.
    + intros [<-|Hn]%lookup_delete_None; [rewrite upd_same; lia|].
      rewrite upd_other by congruence. eauto.
    + intros [Hne Hn]%lookup_insert_None. rewrite upd_other by congruence. eauto.
Qed.

(** The caller takes a reference. *)
Lemma system_retain ext am sps s len rc :
  system ext am sps → am_blocks am !! s = Some (len, rc) →
  system (upd ext s (ext s + 1)) (set_blocks (<[s := (len, rc + 1)]> (am_blocks am)) am) sps.
Proof.
  intros Hs Hb. pose proof (sy_refs _ _ _ Hs s len rc Hb) as Hrc. destruct Hs. split; try done.
  - intros m Hm. destruct (sy_mapping0 m Hm) as [? Hh ? ? ?]. split; try done. intros Hm'.
    destruct (Hh Hm') as (s' & rc' & Hf & Hb'). simpl. destruct (decide (s' = s)) as [->|Hne].
    + simplify_eq. exists s. eexists. rewrite lookup_insert_eq. done.
    + exists s', rc'. by rewrite lookup_insert_ne.
  - intros s' len' rc'. simpl. intros [[<- [= <- <-]]|[Hne Hs']]%lookup_insert_Some; [rewrite upd_same; lia|].
    rewrite upd_other by done. eauto.
  - intros s'. unfold upd. pose proof (sy_ext0 s). case_decide; [lia|apply sy_ext0].
  - intros s'. simpl. intros [Hne Hn]%lookup_insert_None. rewrite upd_other by congruence. eauto.
Qed.

(** ** Changing the mappings of one space *)

Lemma system_replace ext ext' am sp sp' rest V' :
  system ext am (sp :: rest) → space_root sp' = space_root sp → sorted_keys (mappings sp') →
  view_ok V' (mappings sp') → (∀ v, v ∈ vmas sp' → area_ok v) →
  (∀ m, m ∈ mappings sp' → mapping_ok am m) →
  (∀ s, ext' s + refs (mappings sp') s = ext s + refs (mappings sp) s) →
  (∀ s, 0 <= ext' s) → (∀ s, am_blocks am !! s = None → ext' s = 0) →
  (∀ m s, m ∈ all_mappings (sp' :: rest) → writable m = true → mp_frame m = frame_of s →
     refs (all_mappings (sp' :: rest)) s = 1) →
  (∀ m m', m ∈ all_mappings (sp' :: rest) → m' ∈ all_mappings (sp' :: rest) → holds m = true → holds m' = true →
     mp_frame m = mp_frame m' → mp_owned m = mp_owned m') →
  system ext' (set_space (space_root sp) V' am) (sp' :: rest).
Proof.
  intros Hs Hroot Hsort Hview Hareas Hmaps Hrefs Hpos Hfree Hpriv Hkind.
  pose proof (sy_roots _ _ _ Hs) as Hnd. apply NoDup_cons in Hnd as [Hnin Hnd].
  assert (∀ m, mapping_ok am m → mapping_ok (set_space (space_root sp) V' am) m) as Hmo.
  { intros m [? ? ? ? ?]. by split. }
  destruct Hs. split; simpl; try done.
  - rewrite Hroot. done.
  - intros x [->|Hx]%elem_of_cons.
    + exists V'. by rewrite Hroot, lookup_insert_eq.
    + rewrite lookup_insert_ne; [apply sy_view0; set_solver|]. intros Heq. apply Hnin. rewrite Heq. by apply list_elem_of_fmap_2.
  - intros x [->|Hx]%elem_of_cons; [done|]. apply sy_sorted0. set_solver.
  - intros x v [->|Hx]%elem_of_cons; [apply Hareas|]. apply sy_areas0. set_solver.
  - intros root V [[<- <-]|[Hne HV]]%lookup_insert_Some; [left; rewrite Hroot; set_solver|].
    destruct (sy_others0 root V HV) as [Hin|]; [|by right]. left. rewrite Hroot. exact Hin.
  - intros m [Hm|Hm]%elem_of_app; apply Hmo; [by apply Hmaps|]. apply sy_mapping0. apply elem_of_app. by right.
  - intros s len rc Hb. rewrite (sy_refs0 s len rc Hb). unfold all_mappings. rewrite !bind_cons, !refs_app.
    specialize (Hrefs s). lia.
Qed.

Lemma view_add V m ms ms' :
  view_ok V ms → V !! mkey m = None → ms' ≡ₚ m :: ms → view_ok (<[mkey m := (mp_frame m, mp_flags m)]> V) ms'.
Proof.
  intros HV Hn Hp va f fl. split.
  - intros [[<- [= <- <-]]|[Hne HV']]%lookup_insert_Some.
    + exists m. split; [rewrite Hp; set_solver|done].
    + apply HV in HV' as (x & Hx & ?). exists x. split; [rewrite Hp; set_solver|done].
  - intros (x & Hx & <- & <- & <-). rewrite Hp in Hx. apply elem_of_cons in Hx as [->|Hx]; [apply lookup_insert_eq|].
    assert (V !! mkey x = Some (mp_frame x, mp_flags x)) as HVx by (apply HV; eauto).
    rewrite lookup_insert_ne; [done|]. congruence.
Qed.

Lemma view_remove V m ms ms' :
  sorted_keys ms → view_ok V ms → ms ≡ₚ m :: ms' → NoDup ms → view_ok (delete (mkey m) V) ms'.
Proof.
  intros Hs HV Hp Hnd va f fl. split.
  - intros [Hne HV']%lookup_delete_Some. apply HV in HV' as (x & Hx & Hk & Hf). exists x. split; [|done].
    rewrite Hp in Hx. apply elem_of_cons in Hx as [->|?]; done.
  - intros (x & Hx & <- & <- & <-). rewrite lookup_delete_ne.
    + apply HV. exists x. rewrite Hp. set_solver.
    + intros Hk. assert (m = x) as <- by (eapply (sorted_unique ms); [done|rewrite Hp; set_solver..|done]).
      rewrite Hp in Hnd. apply NoDup_cons in Hnd as [? _]. done.
Qed.

Lemma sorted_keys_NoDup ms : sorted_keys ms → NoDup ms.
Proof.
  intros Hs. apply NoDup_alt. intros i j x Hi Hj. destruct (lt_eq_lt_dec i j) as [[Hij|Hij]|Hij]; [|done|].
  - specialize (Hs i j x x Hij Hi Hj). lia.
  - specialize (Hs j i x x Hij Hj Hi). lia.
Qed.

(** The reference of a mapping, or none for device memory. *)
Definition give (ext : Z → Z) (m : UserMapping) (d : Z) : Z → Z := λ s, ext s + if refers s m then d else 0.

Lemma system_remove ext am sp sp' rest V m :
  system ext am (sp :: rest) → am_spaces am !! space_root sp = Some V →
  space_root sp' = space_root sp → vmas sp' = vmas sp → sorted_keys (mappings sp') →
  mappings sp ≡ₚ m :: mappings sp' →
  system (give ext m 1) (set_space (space_root sp) (delete (mkey m) V) am) (sp' :: rest) ∧
  V !! mkey m = Some (mp_frame m, mp_flags m) ∧ mapping_ok am m.
Proof.
  intros Hs HV Hroot Hv Hsort Hp. destruct (sy_view _ _ _ Hs sp ltac:(set_solver)) as (V' & HV' & Hview). simplify_eq.
  assert (m ∈ mappings sp) as Hm by (rewrite Hp; set_solver).
  assert (∀ x, x ∈ all_mappings (sp' :: rest) → x ∈ all_mappings (sp :: rest)) as Hsub.
  { intros x [Hx|Hx]%elem_of_app; apply elem_of_app; [left; rewrite Hp; set_solver|by right]. }
  assert (∀ s, refs (all_mappings (sp :: rest)) s = (if refers s m then 1 else 0) + refs (all_mappings (sp' :: rest)) s) as Href.
  { intros s. unfold all_mappings. rewrite !bind_cons, !refs_app, Hp, refs_cons. lia. }
  pose proof (sy_mapping _ _ _ Hs m ltac:(apply elem_of_app; by left)) as Hmo.
  split; [|split; [apply Hview; by exists m|done]].
  eapply system_replace; [done|done|done| | | | | | | |].
  - pose proof (sy_sorted _ _ _ Hs sp (list_elem_of_here _ _)) as Hss.
    eapply view_remove; [exact Hss|done|done|by apply sorted_keys_NoDup].
  - intros v. rewrite Hv. apply (sy_areas _ _ _ Hs sp v), list_elem_of_here.
  - intros x Hx. apply (sy_mapping _ _ _ Hs), Hsub, elem_of_app. by left.
  - intros s. unfold give. rewrite Hp, refs_cons. lia.
  - intros s. unfold give. pose proof (sy_ext _ _ _ Hs s). destruct (refers s m); lia.
  - intros s Hb. unfold give. rewrite (sy_free _ _ _ Hs s Hb). destruct (refers s m) eqn:Hr; [|done].
    apply refers_frame in Hr as [Hh Hf]. destruct (mo_held _ _ Hmo Hh) as (s' & rc & Hf' & Hb').
    rewrite Hf in Hf'. apply frame_of_eq in Hf' as <-. congruence.
  - intros x s Hx Hw Hf. pose proof (sy_private _ _ _ Hs x s (Hsub x Hx) Hw Hf) as H1.
    assert (1 <= refs (all_mappings (sp' :: rest)) s) as H2.
    { eapply refs_elem; [done|]. apply refers_frame. split; [by apply writable_holds|done]. }
    rewrite Href in H1. destruct (refers s m); lia.
  - intros x y Hx Hy. by apply (sy_kind _ _ _ Hs); apply Hsub.
Qed.

(** A mapping whose frame nobody else writes, and whose reference the caller
    holds. *)
Lemma system_add ext am sp sp' rest V m :
  system ext am (sp :: rest) → am_spaces am !! space_root sp = Some V → V !! mkey m = None →
  space_root sp' = space_root sp → vmas sp' = vmas sp → sorted_keys (mappings sp') →
  mappings sp' ≡ₚ m :: mappings sp → mapping_ok am m →
  (∀ s, refers s m = true → 1 <= ext s) →
  (∀ x, x ∈ all_mappings (sp :: rest) → holds x = true → holds m = true → mp_frame x = mp_frame m →
     writable x = false ∧ writable m = false ∧ mp_owned x = mp_owned m) →
  system (give ext m (-1)) (set_space (space_root sp) (<[mkey m := (mp_frame m, mp_flags m)]> V) am) (sp' :: rest).
Proof.
  intros Hs HV Hn Hroot Hv Hsort Hp Hmo Hext Hother.
  destruct (sy_view _ _ _ Hs sp ltac:(set_solver)) as (V' & HV' & Hview). simplify_eq.
  assert (∀ x, x ∈ all_mappings (sp' :: rest) → x = m ∨ x ∈ all_mappings (sp :: rest)) as Hsub.
  { intros x [Hx|Hx]%elem_of_app; [|right; apply elem_of_app; by right]. rewrite Hp in Hx.
    apply elem_of_cons in Hx as [->|Hx]; [by left|]. right. apply elem_of_app. by left. }
  assert (∀ s, refs (all_mappings (sp' :: rest)) s = (if refers s m then 1 else 0) + refs (all_mappings (sp :: rest)) s) as Href.
  { intros s. unfold all_mappings. rewrite !bind_cons, !refs_app, Hp, refs_cons. lia. }
  eapply system_replace; [done|done|done| | | | | | | |].
  - by eapply view_add.
  - intros v. rewrite Hv. apply (sy_areas _ _ _ Hs sp v), list_elem_of_here.
  - intros x Hx. rewrite Hp in Hx. apply elem_of_cons in Hx as [->|Hx]; [done|].
    apply (sy_mapping _ _ _ Hs), elem_of_app. by left.
  - intros s. unfold give. rewrite Hp, refs_cons. destruct (refers s m); lia.
  - intros s. unfold give. pose proof (sy_ext _ _ _ Hs s). destruct (refers s m) eqn:Hr; [apply Hext in Hr|]; lia.
  - intros s Hb. unfold give. rewrite (sy_free _ _ _ Hs s Hb). destruct (refers s m) eqn:Hr; [|done].
    apply Hext in Hr. rewrite (sy_free _ _ _ Hs s Hb) in Hr. lia.
  - intros x s Hx Hw Hf. rewrite Href. pose proof (writable_holds x Hw) as [Hhx _]. apply Hsub in Hx as [->|Hx].
    + rewrite (proj2 (refers_frame s m)) by done. rewrite refs_zero; [done|]. intros y Hy.
      apply not_true_is_false. intros [Hhy Hfy]%refers_frame. destruct (Hother y Hy Hhy Hhx) as (_ & Hwm & _); congruence.
    + rewrite (sy_private _ _ _ Hs x s Hx Hw Hf). destruct (refers s m) eqn:Hr; [|done].
      apply refers_frame in Hr as [Hhm Hfm]. destruct (Hother x Hx Hhx Hhm) as (Hwx & _); congruence.
  - intros x y [->|Hx]%Hsub [->|Hy]%Hsub Hhx Hhy Hf; [done| | |by apply (sy_kind _ _ _ Hs)].
    + symmetry. by apply Hother.
    + by apply Hother.
Qed.

(** New flags for a mapping; it may become writable only if nobody else refers
    to its frame. *)
Lemma system_update ext am sp sp' rest V m m' ms :
  system ext am (sp :: rest) → am_spaces am !! space_root sp = Some V →
  space_root sp' = space_root sp → vmas sp' = vmas sp → sorted_keys (mappings sp') →
  mappings sp ≡ₚ m :: ms → mappings sp' ≡ₚ m' :: ms →
  mkey m' = mkey m → mp_frame m' = mp_frame m → mp_owned m' = mp_owned m → mp_shared m' = mp_shared m →
  (mp_cow m' = true → mp_owned m' = true ∧ Z.testbit (mp_flags m') 1 = false) →
  (mp_owned m' = true → Z.testbit (mp_flags m') 3 = true) →
  (writable m' = true → ∀ s, mp_frame m = frame_of s → refs (all_mappings (sp :: rest)) s = 1) →
  system ext (set_space (space_root sp) (<[mkey m := (mp_frame m, mp_flags m')]> V) am) (sp' :: rest).
Proof.
  intros Hs HV Hroot Hv Hsort Hp Hp' Hk Hf Ho Hsh Hcow Huser Hpriv.
  destruct (sy_view _ _ _ Hs sp ltac:(set_solver)) as (V' & HV' & Hview). simplify_eq.
  assert (m ∈ mappings sp) as Hm by (rewrite Hp; set_solver).
  pose proof (sy_mapping _ _ _ Hs m ltac:(apply elem_of_app; by left)) as Hmo.
  assert (holds m' = holds m) as Hh by (unfold holds; by rewrite Ho, Hsh).
  assert (∀ s, refers s m' = refers s m) as Hr by (intros s; unfold refers; by rewrite Hh, Hf).
  assert (∀ x, x ∈ all_mappings (sp' :: rest) → x = m' ∨ x ∈ all_mappings (sp :: rest)) as Hsub.
  { intros x [Hx|Hx]%elem_of_app; [|right; apply elem_of_app; by right]. rewrite Hp' in Hx.
    apply elem_of_cons in Hx as [->|Hx]; [by left|]. right. apply elem_of_app. left. rewrite Hp. set_solver. }
  assert (∀ s, refs (all_mappings (sp' :: rest)) s = refs (all_mappings (sp :: rest)) s) as Href.
  { intros s. unfold all_mappings. rewrite !bind_cons, !refs_app, Hp, Hp', !refs_cons, Hr. lia. }
  assert (m ∈ all_mappings (sp :: rest)) as Hma by (apply elem_of_app; by left).
  eapply system_replace; [done|done|done| | | | | | | |].
  - pose proof (sy_sorted _ _ _ Hs sp ltac:(set_solver)) as Hss.
    pose proof (view_remove V m (mappings sp) ms Hss Hview Hp (sorted_keys_NoDup _ Hss)) as Hvr.
    assert (<[mkey m := (mp_frame m, mp_flags m')]> V = <[mkey m' := (mp_frame m', mp_flags m')]> (delete (mkey m) V)) as HV''.
    { rewrite Hk, Hf. by rewrite insert_delete_eq. }
    rewrite HV''. eapply view_add; [done| |done]. rewrite Hk. apply lookup_delete_eq.
  - intros v. rewrite Hv. apply (sy_areas _ _ _ Hs sp v), list_elem_of_here.
  - intros x Hx. rewrite Hp' in Hx. apply elem_of_cons in Hx as [->|Hx].
    + destruct Hmo. split; rewrite ?Hk, ?Hf, ?Hh; done.
    + apply (sy_mapping _ _ _ Hs), elem_of_app. left. rewrite Hp. set_solver.
  - intros s. by rewrite Hp, Hp', !refs_cons, Hr.
  - apply (sy_ext _ _ _ Hs).
  - apply (sy_free _ _ _ Hs).
  - intros x s Hx Hw Hfx. rewrite Href. apply Hsub in Hx as [->|Hx]; [|by apply (sy_private _ _ _ Hs x)].
    apply Hpriv; [done|congruence].
  - intros x y [->|Hx]%Hsub [->|Hy]%Hsub Hhx Hhy Hfxy; [done| | |by apply (sy_kind _ _ _ Hs)].
    + rewrite Ho. apply (sy_kind _ _ _ Hs); congruence.
    + rewrite Ho. apply (sy_kind _ _ _ Hs); congruence.
Qed.
End system.
