(* ===== verification/SpaceProof.v ===== *)
(** * The operations of an address space keep the invariant

    Weakest-precondition rules for the operations of [UserSpace] on one space
    of a system of spaces, over any machine that satisfies the laws of
    [SpaceApi]. *)

From S2P Require Import Prelude Frame PageTable Image Vma VmaProof UserSpace SpaceApi SpaceInv.

(** ** Pages of a space *)

Definition page_of (sp : UserAddressSpaceInner) (va : Z) : option UserMapping :=
  snd <$> find_mapping (mappings sp) va.

(** What a page holds. *)
Definition page_bytes (am : abstract) (sp : UserAddressSpaceInner) (va : Z) : option (list Z) :=
  (λ m, am_data am (mp_frame m)) <$> page_of sp va.

Definition page_base (a : Z) : Z := align_down a PAGE_SIZE.

Lemma page_of_Some sp va m :
  sorted_keys (mappings sp) → page_of sp va = Some m ↔ m ∈ mappings sp ∧ mkey m = va.
Proof.
  intros Hs. unfold page_of. split.
  - intros ([i x] & Hf & ->)%fmap_Some. apply find_mapping_Some in Hf as [Hi Hk]; [|done].
    split; [by eapply list_elem_of_lookup_2|done].
  - intros [(i & Hi)%list_elem_of_lookup Hk]. by rewrite (proj2 (find_mapping_Some _ va i m Hs)).
Qed.

Lemma page_of_None sp va :
  sorted_keys (mappings sp) → page_of sp va = None ↔ ∀ m, m ∈ mappings sp → mkey m ≠ va.
Proof. intros Hs. unfold page_of. rewrite fmap_None. by apply find_mapping_None. Qed.

Lemma mapping_page_of sp a : mapping a sp = page_of sp (page_base a).
Proof.
  unfold mapping, mapping_index, page_of, find_mapping, page_base. fold mkey.
  change (λ m : UserMapping, virt_u64 (mp_virt m)) with mkey.
  destruct (binary_search_by_key mkey _ _) as [i|i]; [|done]. simpl. by destruct (mappings sp !! i).
Qed.

Lemma mapping_index_page_of sp a i :
  sorted_keys (mappings sp) → mapping_index a sp = Some i →
  ∃ m, mappings sp !! i = Some m ∧ mkey m = page_base a ∧ page_of sp (page_base a) = Some m.
Proof.
  intros Hs. unfold mapping_index. change (λ m : UserMapping, virt_u64 (mp_virt m)) with mkey. intros Hi.
  pose proof (sorted_search (mappings sp) (page_base a) Hs) as H. unfold page_base in *.
  destruct (binary_search_by_key mkey _ _) as [j|j]; simplify_eq. destruct H as (m & Hm & Hk).
  exists m. split; [done|]. split; [done|]. apply page_of_Some; [done|]. by eapply list_elem_of_lookup_2 in Hm.
Qed.

Lemma mapping_index_None sp a :
  sorted_keys (mappings sp) → mapping_index a sp = None → page_of sp (page_base a) = None.
Proof.
  intros Hs Hn. rewrite <-mapping_page_of. unfold mapping. by rewrite Hn.
Qed.

Lemma mapping_index_Some sp a m :
  sorted_keys (mappings sp) → page_of sp (page_base a) = Some m →
  ∃ i, mapping_index a sp = Some i ∧ mappings sp !! i = Some m.
Proof.
  intros Hs Hm. destruct (mapping_index a sp) as [i|] eqn:Hi.
  - destruct (mapping_index_page_of sp a i Hs Hi) as (m' & Hm' & _ & Hp). exists i. split; [done|congruence].
  - apply mapping_index_None in Hi; [congruence|done].
Qed.

(** The pages after one mapping has come, gone or changed. *)
Lemma page_of_perm_cons sp sp' m va :
  sorted_keys (mappings sp) → sorted_keys (mappings sp') → mappings sp' ≡ₚ m :: mappings sp →
  page_of sp' va = if decide (va = mkey m) then Some m else page_of sp va.
Proof.
  intros Hs Hs' Hp. destruct (decide _) as [->|Hne].
  - apply page_of_Some; [done|]. rewrite Hp. set_solver.
  - destruct (page_of sp va) as [x|] eqn:Hx.
    + apply page_of_Some in Hx as [Hx Hk]; [|done]. apply page_of_Some; [done|]. rewrite Hp. set_solver.
    + apply page_of_None; [done|]. intros x. rewrite Hp. intros [->|Hx']%elem_of_cons; [done|].
      by eapply page_of_None in Hx.
Qed.

Lemma page_of_perm_remove sp sp' m va :
  sorted_keys (mappings sp) → sorted_keys (mappings sp') → mappings sp ≡ₚ m :: mappings sp' →
  page_of sp' va = if decide (va = mkey m) then None else page_of sp va.
Proof.
  intros Hs Hs' Hp. rewrite (page_of_perm_cons sp' sp m va) by done. destruct (decide _) as [->|]; [|done].
  apply page_of_None; [done|]. intros x Hx Hk. pose proof (sorted_keys_NoDup _ Hs) as Hnd.
  rewrite Hp in Hnd. apply NoDup_cons in Hnd as [Hnin _]. apply Hnin.
  assert (x = m) as <-; [|done]. eapply (sorted_unique (mappings sp)); [done|rewrite Hp; set_solver..|done].
Qed.

(** ** Rules for the monad of an address space *)

Section rules.
Context {W : Type} {U : UserMachine W}.

Lemma wp_machine {E A} (conv : E → BuildError) (op : M W E A) sp w Q Qe :
  wp_res op w (λ a w', Q a (sp, w')) (λ e w', Qe (conv e) (sp, w')) →
  wp_res (on_machine conv op) (sp, w) Q Qe.
Proof. unfold wp_res, wp, on_machine. simpl. destruct (op w) as [[]]; done. Qed.

Lemma wp_ignore {St E A} (op : M St E A) s Q Qe :
  wp_res op s (λ _ s', Q () s') (λ _ s', Q () s') → wp_res (ignore op) s Q Qe.
Proof. unfold wp_res, wp, ignore. destruct (op s) as [[]]; done. Qed.

Lemma wp_get_space sp w Q Qe : Q sp (sp, w) → wp_res (get_space (W := W)) (sp, w) Q Qe.
Proof. done. Qed.

Lemma wp_modify_space f sp w Q Qe : Q () (f sp, w) → wp_res (modify_space (W := W) f) (sp, w) Q Qe.
Proof. done. Qed.

Lemma wp_modify_machine f sp w Q Qe : Q () (sp, f w) → wp_res (modify_machine (W := W) f) (sp, w) Q Qe.
Proof. done. Qed.

(** [Err] is passed on by a handler that cleans up. *)
Lemma wp_cleanup {St E A B} (op : M St E A) (k : A → M St E B) (h : E → M St E B) s Q Qe :
  wp_res op s (λ a s', wp_res (k a) s' Q Qe) (λ e s', wp_res (h e) s' Q Qe) →
  wp_res (λ s, match op s with
               | (Err e, s') => h e s'
               | (Ok a, s') => k a s'
               | (Panic, s') => (Panic, s')
               | (Diverge, s') => (Diverge, s')
               end) s Q Qe.
Proof. unfold wp_res, wp. destruct (op s) as [[]]; done. Qed.
End rules.

Ltac sp_step :=
  lazymatch goal with
  | |- wp_res get_space (_, _) _ _ => apply wp_get_space
  | |- wp_res (modify_space _) (_, _) _ _ => apply wp_modify_space
  | |- wp_res (modify_machine _) (_, _) _ _ => apply wp_modify_machine
  | |- wp_res (on_machine _ _) (_, _) _ _ => apply wp_machine
  | |- wp_res (ignore _) _ _ _ => apply wp_ignore
  | |- _ => wp_step
  end; cbv beta.
Ltac sp_run := repeat sp_step.

(** ** One space among others *)

Section ops.
Context {W : Type} {U : UserMachine W} (rep : W → abstract → Prop) (round1 : Z) (foreign : PhysFrame → Prop).
Context (US : UserMachineSpec rep round1 foreign).
Implicit Types (sp : UserAddressSpaceInner) (w : W) (am : abstract) (rest : list UserAddressSpaceInner).

Abbreviation system := (system round1 foreign).

Record good (ext : Z → Z) (rest : list UserAddressSpaceInner) (sp : UserAddressSpaceInner) (w : W) (am : abstract)
    : Prop := {
  gd_rep : rep w am;
  gd_system : system ext am (sp :: rest);
}.

(** What the mapped pages of a list of spaces hold is the same. *)
Definition same_data (sps : list UserAddressSpaceInner) (am am' : abstract) : Prop :=
  ∀ m, m ∈ all_mappings sps → am_data am' (mp_frame m) = am_data am (mp_frame m).

Lemma same_data_refl sps am : same_data sps am am.
Proof. done. Qed.

Lemma same_data_trans sps am1 am2 am3 : same_data sps am1 am2 → same_data sps am2 am3 → same_data sps am1 am3.
Proof. intros H12 H23 m Hm. by rewrite H23, H12. Qed.

Lemma good_sorted ext rest sp w am : good ext rest sp w am → sorted_keys (mappings sp).
Proof. intros [_ Hs]. apply (sy_sorted _ _ _ _ _ Hs), list_elem_of_here. Qed.

Lemma good_mapping ext rest sp w am m : good ext rest sp w am → m ∈ mappings sp → mapping_ok round1 foreign am m.
Proof. intros [_ Hs] Hm. apply (sy_mapping _ _ _ _ _ Hs), elem_of_app. by left. Qed.

(** No page is in a frame that was not allocated. *)
Lemma fresh_frame ext am sps n m :
  system ext am sps → am_blocks am !! n = None → ¬ foreign (frame_of n) → m ∈ all_mappings sps →
  mp_frame m ≠ frame_of n.
Proof.
  intros Hs Hb Hf Hm Heq. pose proof (sy_mapping _ _ _ _ _ Hs m Hm) as Hmo. destruct (holds m) eqn:Hh.
  - destruct (mo_held _ _ _ _ Hmo Hh) as (s & rc & Hfr & Hb'). rewrite Heq in Hfr. apply frame_of_eq in Hfr. congruence.
  - apply Hf. rewrite <-Heq. by apply (mo_foreign _ _ _ _ Hmo).
Qed.

(** A page-table entry for an allocated frame comes from a mapping that holds
    it. *)
Lemma entry_mapping w ext am sps root V va n fl b :
  rep w am → system ext am sps → am_spaces am !! root = Some V → V !! va = Some (frame_of n, fl) →
  am_blocks am !! n = Some b →
  ∃ sp m, sp ∈ sps ∧ space_root sp = root ∧ m ∈ mappings sp ∧ mkey m = va ∧ refers n m = true.
Proof.
  intros Hr Hs HV Hva Hb. destruct (sy_others _ _ _ _ _ Hs root V HV) as [Hin| ->]; [|by rewrite lookup_empty in Hva].
  apply list_elem_of_fmap in Hin as (sp & -> & Hsp). destruct (sy_view _ _ _ _ _ Hs sp Hsp) as (V' & HV' & Hview).
  simplify_eq. apply Hview in Hva as (m & Hm & Hk & Hf & Hfl). exists sp, m. repeat split; try done.
  apply refers_frame. split; [|done]. destruct (holds m) eqn:Hh; [done|].
  assert (foreign (frame_of n)) as Hfo.
  { rewrite <-Hf. eapply mo_foreign, Hh. apply (sy_mapping _ _ _ _ _ Hs), list_elem_of_bind. eauto. }
  by rewrite (us_foreign _ _ _ w am n) in Hb.
Qed.

Lemma not_mapped w ext am sps n b :
  rep w am → system ext am sps → am_blocks am !! n = Some b → refs (all_mappings sps) n = 0 →
  ∀ root V va fl, am_spaces am !! root = Some V → V !! va ≠ Some (frame_of n, fl).
Proof.
  intros Hr Hs Hb Hz root V va fl HV Hva.
  destruct (entry_mapping w ext am sps root V va n fl b Hr Hs HV Hva Hb) as (sp & m & Hsp & _ & Hm & _ & Href).
  assert (1 <= refs (all_mappings sps) n); [|lia]. eapply refs_elem; [|done]. apply list_elem_of_bind. eauto.
Qed.

(** The last reference to a frame is the mapping itself. *)
Lemma last_mapping w ext am sp rest m n ms :
  rep w am → system ext am (sp :: rest) → mappings sp ≡ₚ m :: ms → refers n m = true →
  am_blocks am !! n = Some (round1, 1) →
  ∀ root V va fl, am_spaces am !! root = Some V → V !! va = Some (frame_of n, fl) → root = space_root sp ∧ va = mkey m.
Proof.
  intros Hr Hs Hp Href Hb root V va fl HV Hva.
  destruct (entry_mapping w ext am _ root V va n fl _ Hr Hs HV Hva Hb) as (sp' & m' & Hsp & <- & Hm & <- & Href').
  pose proof (sy_refs _ _ _ _ _ Hs n _ _ Hb) as Hrc. pose proof (sy_ext _ _ _ _ _ Hs n) as He.
  rewrite all_mappings_cons, refs_app, Hp, refs_cons, Href in Hrc.
  pose proof (refs_nonneg ms n). pose proof (refs_nonneg (all_mappings rest) n).
  apply elem_of_cons in Hsp as [->|Hsp].
  - split; [done|]. rewrite Hp in Hm. apply elem_of_cons in Hm as [->|Hm]; [done|].
    pose proof (refs_elem ms n m' Hm Href'). lia.
  - assert (m' ∈ all_mappings rest) as Hm' by (apply list_elem_of_bind; eauto).
    pose proof (refs_elem _ n m' Hm' Href'). lia.
Qed.

(** *** Frames *)

(** The caller holds the frame [n], which no page maps. *)
Record loaded (ext : Z → Z) (rest : list UserAddressSpaceInner) (sp : UserAddressSpaceInner) (w : W) (am : abstract)
    (n : Z) : Prop := {
  ld_good : good (upd ext n 1) rest sp w am;
  ld_ext : ext n = 0;
  ld_block : am_blocks am !! n = Some (round1, 1);
  ld_fresh : ∀ m, m ∈ all_mappings (sp :: rest) → mp_frame m ≠ frame_of n;
}.

Lemma alloc_rule ext rest sp w am :
  good ext rest sp w am →
  wp_res (on_machine BuildFrame (fa_alloc 1)) (sp, w)
    (λ f s', ∃ n am', f = frame_of n ∧ s'.1 = sp ∧ loaded ext rest sp s'.2 am' n ∧ am_data am' = am_data am ∧
       am_blocks am !! n = None ∧ am_spaces am' = am_spaces am ∧
       am_blocks am' = <[n := (round1, 1)]> (am_blocks am))
    (λ _ s', s'.1 = sp ∧ good ext rest sp s'.2 am).
Proof.
  intros [Hr Hs]. sp_step. eapply wp_res_mono; [by apply (us_alloc _ _ _ w am)|..]; cbv beta.
  - intros f w' (n & -> & Hb & Hf & Hr'). exists n, (set_blocks (<[n := (round1, 1)]> (am_blocks am)) am). split; [done|]. split; [done|]. split; [|done].
    split.
    + split; [exact Hr'|]. by apply system_alloc.
    + by apply (sy_free _ _ _ _ _ Hs).
    + apply lookup_insert_eq.
    + intros m Hm. by eapply fresh_frame.
  - intros e w' Hr'. by split.
Qed.

Lemma loaded_data ext rest sp w am n bs :
  loaded ext rest sp w am n → length bs = Z.to_nat PAGE_SIZE →
  loaded ext rest sp (um_set_bytes (frame_of n) bs w) (set_data (frame_of n) bs am) n.
Proof.
  intros [[Hr Hs] He Hb Hf] Hlen. split; [split|done..].
  - by apply (us_set_bytes rep round1 foreign).
  - by apply system_data.
Qed.

Lemma loaded_same ext rest sp w am n bs sps :
  loaded ext rest sp w am n → (∀ x, x ∈ sps → x ∈ sp :: rest) → same_data sps am (set_data (frame_of n) bs am).
Proof.
  intros Hl Hsub m (x & Hm & Hx)%list_elem_of_bind. simpl. rewrite decide_False; [done|].
  apply (ld_fresh _ _ _ _ _ _ Hl). apply list_elem_of_bind. eauto.
Qed.

Lemma zeroed_rule ext rest sp w am :
  good ext rest sp w am →
  wp_res allocate_zeroed_owned_frame (sp, w)
    (λ f s', ∃ n am', f = frame_of n ∧ s'.1 = sp ∧ loaded ext rest sp s'.2 am' n ∧ same_data (sp :: rest) am am' ∧
       am_data am' (frame_of n) = zero_bytes)
    (λ _ s', s'.1 = sp ∧ good ext rest sp s'.2 am).
Proof.
  intros Hg. unfold allocate_zeroed_owned_frame. sp_step.
  eapply wp_res_mono; [by apply alloc_rule|..]; cbv beta; [|done].
  intros f [sp' w'] (n & am' & -> & Hsp & Hl & Hd & _). simpl in *. subst sp'. sp_run. exists n. eexists. split; [done|].
  split; [done|]. split; [by apply loaded_data|]. split.
  - intros m Hm. rewrite (loaded_same _ _ _ _ _ _ _ (sp :: rest) Hl); [by rewrite Hd|done|done].
  - simpl. by rewrite decide_True.
Qed.

(** The caller gives the frame back. *)
Lemma release_loaded ext rest sp w am n :
  loaded ext rest sp w am n →
  wp_res (release_frames (frame_of n)) (sp, w)
    (λ _ s', ∃ am', s'.1 = sp ∧ good ext rest sp s'.2 am' ∧ am_data am' = am_data am) (λ _ _, False).
Proof.
  intros [[Hr Hs] He Hb Hf]. unfold release_frames. sp_run. eapply wp_res_mono; [apply (us_release _ _ _ w am n 1)|..]; cbv beta; [done|done| | |done].
  - intros _. eapply not_mapped; [done..|]. apply refs_zero. intros m Hm. apply not_true_is_false.
    intros [_ Hfr]%refers_frame. by eapply Hf.
  - intros _ w' Hr'. eexists. split; [done|]. split; [split; [exact Hr'|]|done].
    eapply system_ext; [|eapply system_release; [exact Hs|exact Hb|rewrite upd_same; lia]].
    intros s. simpl. rewrite upd_same. unfold upd. destruct (decide _); subst; lia.
Qed.

(** Only the mappings differ. *)
Definition same_frame (sp sp' : UserAddressSpaceInner) : Prop := sp' = set_mappings (mappings sp') sp.

Lemma set_mappings_frame ms sp : same_frame sp (set_mappings ms sp).
Proof. done. Qed.

Lemma same_frame_refl sp : same_frame sp sp.
Proof. by destruct sp. Qed.

Lemma same_frame_trans sp1 sp2 sp3 : same_frame sp1 sp2 → same_frame sp2 sp3 → same_frame sp1 sp3.
Proof. unfold same_frame. intros -> ->. done. Qed.

Lemma good_space ext rest sp w am :
  good ext rest sp w am → ∃ V, am_spaces am !! space_root sp = Some V ∧ view_ok V (mappings sp).
Proof. intros [_ Hs]. apply (sy_view _ _ _ _ _ Hs), list_elem_of_here. Qed.

Lemma view_None V sp va : sorted_keys (mappings sp) → view_ok V (mappings sp) → V !! va = None ↔ page_of sp va = None.
Proof.
  intros Hs HV. rewrite page_of_None by done. split.
  - intros Hn m Hm Hk. assert (V !! va = Some (mp_frame m, mp_flags m)) by (apply HV; eauto). congruence.
  - intros Hno. apply eq_None_not_Some. intros [[f fl] Hva]. apply HV in Hva as (m & Hm & Hk & _). by apply (Hno m Hm).
Qed.

(** The vector with a mapping inserted at its place. *)
Definition with_mapping (m : UserMapping) (sp : UserAddressSpaceInner) : UserAddressSpaceInner :=
  set_mappings (vec_insert (search_index (binary_search_by_key mkey (mkey m) (mappings sp))) m (mappings sp)) sp.

Lemma wp_insert_mapping m sp w Q Qe : Q () (with_mapping m sp, w) → wp_res (insert_mapping m) (sp, w) Q Qe.
Proof. done. Qed.

Lemma with_mapping_perm m sp : mappings (with_mapping m sp) ≡ₚ m :: mappings sp.
Proof. apply vec_insert_Permutation. Qed.

Lemma with_mapping_sorted m sp :
  sorted_keys (mappings sp) → page_of sp (mkey m) = None → sorted_keys (mappings (with_mapping m sp)).
Proof. intros Hs Hn. apply sorted_keys_insert; [done|]. by apply page_of_None. Qed.

(** [sp'] is [sp] with the new page [m]. *)
Record page_added (sp sp' : UserAddressSpaceInner) (m : UserMapping) : Prop := {
  pa_frame : same_frame sp sp';
  pa_none : page_of sp (mkey m) = None;
  pa_pages va : page_of sp' va = if decide (va = mkey m) then Some m else page_of sp va;
}.

Lemma with_mapping_added m sp :
  sorted_keys (mappings sp) → page_of sp (mkey m) = None → page_added sp (with_mapping m sp) m.
Proof.
  intros Hs Hn. split; [done|done|]. intros va. apply page_of_perm_cons; [done|by apply with_mapping_sorted|].
  apply with_mapping_perm.
Qed.

Lemma map_owned_rule ext rest sp w am n va flags :
  loaded ext rest sp w am n → user_page va → Z.testbit flags 3 = true →
  wp_res (map_owned_frame va (frame_of n) flags) (sp, w)
    (λ _ s', ∃ am', good ext rest s'.1 s'.2 am' ∧ am_data am' = am_data am ∧
       page_added sp s'.1 (mkMapping (mkVirtAddr va) (frame_of n) flags false true false))
    (λ _ s', ∃ am', s'.1 = sp ∧ good ext rest sp s'.2 am' ∧ am_data am' = am_data am).
Proof.
  intros Hl Hva Hu. pose proof (ld_good _ _ _ _ _ _ Hl) as Hg. pose proof (good_sorted _ _ _ _ _ Hg) as Hsort.
  destruct (good_space _ _ _ _ _ Hg) as (V & HV & Hview). destruct Hg as [Hr Hs]. unfold map_owned_frame.
  apply (wp_cleanup (on_machine BuildMap (um_map (space_root sp) (mkVirtAddr va) (frame_of n) flags))
           (λ _, insert_mapping _) (λ e, _ ← release_frames (frame_of n); mthrow e)).
  sp_step. eapply wp_res_mono; [apply (us_map _ _ _ w am _ V va (frame_of n) flags Hr HV Hva)|..]; cbv beta.
  - left. exists n, round1, 1. split; [done|]. apply (ld_block _ _ _ _ _ _ Hl).
  - intros _ w' [Hn Hr']. apply wp_insert_mapping. set (m := mkMapping _ _ _ _ _ _).
    assert (page_of sp (mkey m) = None) as Hnp by by apply (view_None V).
    eexists. split; [split; [exact Hr'|]|split; [done|by apply with_mapping_added]].
    eapply system_ext; [|eapply (system_add round1 foreign _ am sp (with_mapping m sp) rest V m Hs HV Hn)];
      [|done|done|by apply with_mapping_sorted|apply with_mapping_perm|..].
    + intros s. unfold give, upd, refers. simpl. destruct (decide (s = n)) as [->|Hne].
      * rewrite bool_decide_eq_true_2 by done. rewrite (ld_ext _ _ _ _ _ _ Hl). lia.
      * rewrite bool_decide_eq_false_2; [lia|]. intros Heq%frame_of_eq. congruence.
    + split; simpl; try done. intros _. exists n, 1. split; [done|]. apply (ld_block _ _ _ _ _ _ Hl).
    + intros s [_ Heq]%refers_frame. simpl in Heq. apply frame_of_eq in Heq as <-. rewrite upd_same. lia.
    + intros x Hx _ _ Heq. by destruct (ld_fresh _ _ _ _ _ _ Hl x Hx).
  - intros e w' Hr'. sp_step. assert (loaded ext rest sp w' am n) as Hl'.
    { destruct Hl as [[_ ?] ? ? ?]. split; [split|..]; done. }
    eapply wp_res_mono; [by apply release_loaded|..]; cbv beta; [|done].
    intros _ [sp' w''] H. exact H.
Qed.

(** *** Unmapping *)

(** [sp'] is [sp] without the page at [va]. *)
Record page_removed (sp sp' : UserAddressSpaceInner) (va : Z) : Prop := {
  pr_frame : same_frame sp sp';
  pr_pages va' : page_of sp' va' = if decide (va' = va) then None else page_of sp va';
}.

Lemma held_block ext rest sp w am m :
  good ext rest sp w am → m ∈ mappings sp → holds m = true →
  ∃ n rc, mp_frame m = frame_of n ∧ am_blocks am !! n = Some (round1, rc) ∧ refers n m = true.
Proof.
  intros Hg Hm Hh. destruct (mo_held _ _ _ _ (good_mapping _ _ _ _ _ m Hg Hm) Hh) as (n & rc & Hf & Hb).
  exists n, rc. split; [done|]. split; [done|]. by apply refers_frame.
Qed.

Lemma refers_same n m s : mp_frame m = frame_of n → refers s m = holds m && bool_decide (s = n).
Proof.
  intros Hf. unfold refers. f_equal. apply bool_decide_ext. rewrite Hf. split; [intros H%frame_of_eq; done|by intros ->].
Qed.

(** The reference that a removed mapping held is given back. *)
Lemma system_remove_release ext am sp sp' rest V m n rc :
  system ext am (sp :: rest) → am_spaces am !! space_root sp = Some V →
  space_root sp' = space_root sp → vmas sp' = vmas sp → sorted_keys (mappings sp') →
  mappings sp ≡ₚ m :: mappings sp' → holds m = true → mp_frame m = frame_of n →
  am_blocks am !! n = Some (round1, rc) →
  system ext (set_blocks (unref (am_blocks am) n round1 rc) (set_space (space_root sp) (delete (mkey m) V) am)) (sp' :: rest).
Proof.
  intros Hs HV Hroot Hv Hsort Hp Hh Hf Hb.
  destruct (system_remove round1 foreign ext am sp sp' rest V m Hs HV Hroot Hv Hsort Hp) as (Hs' & _ & _).
  assert (refers n m = true) as Hr by (by apply refers_frame).
  eapply system_ext; [|eapply (system_release round1 foreign _ _ _ n round1 rc Hs' Hb)].
  - intros s. unfold upd, give. rewrite Hr. destruct (decide (s = n)) as [->|Hne]; [lia|].
    rewrite (refers_same n) by done. rewrite bool_decide_eq_false_2 by done. rewrite andb_false_r. lia.
  - unfold give. rewrite Hr. pose proof (sy_ext _ _ _ _ _ Hs n). lia.
Qed.

Lemma virt_mkey m : mp_virt m = mkVirtAddr (mkey m).
Proof. unfold mkey. by destruct (mp_virt m). Qed.

(** [sp'] is [sp] without [m]; [sx] is the space at hand, whose vector may have
    been emptied already. *)
Lemma unmap_entry_rule ext rest sp sp' sx w am m :
  good ext rest sp w am → space_root sp' = space_root sp → vmas sp' = vmas sp → sorted_keys (mappings sp') →
  mappings sp ≡ₚ m :: mappings sp' →
  wp_res (unmap_entry (space_root sp) m) (sx, w)
    (λ _ s', ∃ am', s'.1 = sx ∧ good ext rest sp' s'.2 am' ∧ am_data am' = am_data am) (λ _ _, False).
Proof.
  intros Hg Hroot Hv Hsort Hp. assert (m ∈ mappings sp) as Hm by (rewrite Hp; set_solver).
  destruct (good_space _ _ _ _ _ Hg) as (V & HV & Hview). pose proof (mo_page _ _ _ _ (good_mapping _ _ _ _ _ m Hg Hm)) as Hpage.
  destruct (system_remove round1 foreign ext am sp sp' rest V m (gd_system _ _ _ _ _ Hg) HV Hroot Hv Hsort Hp) as (Hs' & HVm & _).
  pose proof Hg as [Hr Hs]. unfold unmap_entry. rewrite virt_mkey. destruct (mp_owned m) eqn:Ho; sp_run.
  - assert (holds m = true) as Hh by (unfold holds; by rewrite Ho).
    destruct (held_block _ _ _ _ _ m Hg Hm Hh) as (n & rc & Hf & Hb & Href). rewrite Hf in HVm.
    eapply wp_res_mono; [apply (us_unmap _ _ _ w am _ V (mkey m) n rc (mp_flags m))|..]; cbv beta; try done.
    + intros -> root' V' va' fl' HV' Hva'. by eapply last_mapping.
    + intros _ w' Hr'. sp_run. eexists. split; [done|]. split; [split; [exact Hr'|]|done].
      by apply (system_remove_release ext am sp).
  - eapply wp_res_mono; [apply (us_unmap_preserve _ _ _ w am _ V (mkey m) (mp_frame m) (mp_flags m))|..]; cbv beta; try done.
    intros _ w' Hr'. destruct (mp_shared m) eqn:Hsh; sp_run.
    + assert (holds m = true) as Hh by (unfold holds; by rewrite Ho, Hsh).
      destruct (held_block _ _ _ _ _ m Hg Hm Hh) as (n & rc & Hf & Hb & Href). rewrite Hf in *. unfold release_frames. sp_run.
      eapply wp_res_mono; [apply (us_release rep round1 foreign w' _ n rc Hr' Hb)|..]; cbv beta; [| |done].
      * intros ->. eapply (not_mapped w'); [exact Hr'|exact Hs'|exact Hb|].
        pose proof (sy_refs _ _ _ _ _ Hs' n _ _ Hb) as Hrc. unfold give in Hrc. rewrite Href in Hrc.
        pose proof (sy_ext _ _ _ _ _ Hs n). pose proof (refs_nonneg (all_mappings (sp' :: rest)) n). lia.
      * intros _ w'' Hr''. eexists. split; [done|]. split; [split; [exact Hr''|]|done].
        by apply (system_remove_release ext am sp).
    + eexists. split; [done|]. split; [split; [exact Hr'|]|done]. eapply system_ext; [|exact Hs'].
      intros s. unfold give, refers, holds. rewrite Ho, Hsh. simpl. lia.
Qed.

Definition without_mapping (i : nat) (sp : UserAddressSpaceInner) : UserAddressSpaceInner :=
  set_mappings (vec_remove i (mappings sp)) sp.

Lemma without_mapping_removed i m sp :
  sorted_keys (mappings sp) → mappings sp !! i = Some m → page_removed sp (without_mapping i sp) (mkey m).
Proof.
  intros Hs Hm. split; [done|]. intros va. apply page_of_perm_remove; [done|by apply sorted_keys_remove|].
  by apply vec_remove_Permutation.
Qed.

Lemma unmap_page_rule ext rest sp w am va :
  good ext rest sp w am →
  wp_res (unmap_page va) (sp, w)
    (λ _ s', ∃ am', good ext rest s'.1 s'.2 am' ∧ am_data am' = am_data am ∧ page_removed sp s'.1 (page_base va))
    (λ e s', e = BuildMap NotMapped ∧ s' = (sp, w) ∧ page_of sp (page_base va) = None).
Proof.
  intros Hg. pose proof (good_sorted _ _ _ _ _ Hg) as Hsort. unfold unmap_page. sp_run.
  destruct (mapping_index va sp) as [i|] eqn:Hi; sp_run; [|by split_and!; [..|apply mapping_index_None]].
  destruct (mapping_index_page_of sp va i Hsort Hi) as (m & Hm & Hk & _). rewrite Hm. sp_run.
  eapply wp_res_mono; [apply (unmap_entry_rule ext rest sp (without_mapping i sp) _ w am m Hg)|..]; cbv beta; try done.
  - by apply sorted_keys_remove.
  - by apply vec_remove_Permutation.
  - intros _ [sp' w'] (am' & -> & Hg' & Hd). exists am'. split; [done|]. split; [done|]. rewrite <-Hk.
    by apply without_mapping_removed.
Qed.

(** *** Copy on write *)

(** [sp'] is [sp] with another mapping for a page. *)
Record page_changed (sp sp' : UserAddressSpaceInner) (m : UserMapping) : Prop := {
  pc_frame : same_frame sp sp';
  pc_pages va : page_of sp' va = if decide (va = mkey m) then Some m else page_of sp va;
}.

Definition change_mapping (i : nat) (m : UserMapping) (sp : UserAddressSpaceInner) : UserAddressSpaceInner :=
  set_mappings (<[i := m]> (mappings sp)) sp.

Lemma change_mapping_changed i m m' sp :
  sorted_keys (mappings sp) → mappings sp !! i = Some m → mkey m' = mkey m →
  page_changed sp (change_mapping i m' sp) m'.
Proof.
  intros Hs Hm Hk. split; [done|]. intros va.
  rewrite (page_of_perm_cons (without_mapping i sp) (change_mapping i m' sp) m' va).
  - destruct (decide _) as [|Hne]; [done|]. rewrite (pr_pages _ _ _ (without_mapping_removed i m sp Hs Hm)).
    rewrite decide_False; [done|congruence].
  - by apply sorted_keys_remove.
  - by eapply sorted_keys_update.
  - by eapply update_Permutation.
Qed.

Lemma wp_set_cow_done i m f fl sp w Q Qe :
  mappings sp !! i = Some m →
  Q () (change_mapping i (mkMapping (mp_virt m) f fl false (mp_owned m) (mp_shared m)) sp, w) →
  wp_res (set_cow_done i f fl) (sp, w) Q Qe.
Proof.
  intros Hm HQ. unfold set_cow_done. sp_run. unfold change_mapping in HQ. rewrite list_insert_alter in HQ.
  erewrite list_alter_ext; [exact HQ| |done]. intros x Hx. by simplify_eq.
Qed.

Definition cow_resolved (m : UserMapping) (f : PhysFrame) : UserMapping :=
  mkMapping (mp_virt m) f (MapFlags.bitor (mp_flags m) MapFlags.WRITE) false (mp_owned m) (mp_shared m).

(** After an error the machine is consistent and the other spaces have what
    they had. *)
Definition spared (rest : list UserAddressSpaceInner) (am : abstract) (w : W) : Prop :=
  ∃ am', rep w am' ∧ same_data rest am am'.

Lemma good_spared ext rest sp w am : good ext rest sp w am → spared rest am w.
Proof. intros [Hr _]. by exists am. Qed.

(** The page has its own frame now. *)
Lemma cow_copied ext rest sp w w' am m n n2 i rc V :
  loaded ext rest sp w am n2 → am_spaces am !! space_root sp = Some V → mappings sp !! i = Some m →
  mp_owned m = true → mp_frame m = frame_of n → n ≠ n2 → am_blocks am !! n = Some (round1, rc) →
  let am3 := set_blocks (unref (am_blocks am) n round1 rc) (set_space (space_root sp) (delete (mkey m) V) am) in
  let m' := cow_resolved m (frame_of n2) in
  rep w' (set_space (space_root sp) (<[mkey m := (frame_of n2, mp_flags m')]> (delete (mkey m) V)) am3) →
  good ext rest (change_mapping i m' sp) w'
    (set_space (space_root sp) (<[mkey m := (frame_of n2, mp_flags m')]> (delete (mkey m) V)) am3).
Proof.
  intros Hl HV Hm Ho Hf Hne Hb am3 m' Hr. split; [done|]. pose proof (ld_good _ _ _ _ _ _ Hl) as Hg.
  pose proof (good_sorted _ _ _ _ _ Hg) as Hsort. pose proof (good_mapping _ _ _ _ _ m Hg (list_elem_of_lookup_2 _ _ _ Hm)) as Hmo.
  assert (holds m = true) as Hh by (unfold holds; by rewrite Ho).
  assert (am_blocks am3 !! n2 = Some (round1, 1)) as Hb2.
  { simpl. unfold unref. pose proof (ld_block _ _ _ _ _ _ Hl). destruct (decide _); by rewrite ?lookup_delete_ne, ?lookup_insert_ne. }
  assert (system (upd ext n2 1) am3 (without_mapping i sp :: rest)) as Hs.
  { apply (system_remove_release _ am sp _ rest V m n rc (gd_system _ _ _ _ _ Hg) HV); try done.
    - by apply sorted_keys_remove.
    - by apply vec_remove_Permutation. }
  eapply system_ext; [|eapply (system_add round1 foreign _ am3 (without_mapping i sp) _ rest (delete (mkey m) V) m' Hs)].
  - intros s. unfold give, upd. rewrite (refers_same n2) by done. change (holds m') with (holds m). rewrite Hh. simpl.
    case_bool_decide; destruct (decide _); subst; try done; [rewrite (ld_ext _ _ _ _ _ _ Hl)|]; lia.
  - apply lookup_insert_eq.
  - apply lookup_delete_eq.
  - done.
  - done.
  - by eapply sorted_keys_update.
  - by eapply update_Permutation.
  - split; simpl; try done.
    + apply (mo_page _ _ _ _ Hmo).
    + intros _. exists n2, 1. done.
    + change (holds m') with (holds m). by rewrite Hh.
    + intros Ho'. change (Z.testbit (MapFlags.bitor (mp_flags m) MapFlags.WRITE) 3 = true).
      by rewrite bitor_user, (mo_user _ _ _ _ Hmo Ho').
  - intros s [_ Heq]%refers_frame. apply frame_of_eq in Heq as <-. rewrite upd_same. lia.
  - intros x Hx _ _ Heq. destruct (ld_fresh _ _ _ _ _ _ Hl x); [|done].
    apply elem_of_app in Hx as [Hx|Hx]; apply elem_of_app; [left|by right].
    simpl in Hx. rewrite (vec_remove_Permutation i m) by done. by apply elem_of_cons; right.
Qed.

Lemma set_data_other am f bs g : g ≠ f → am_data (set_data f bs am) g = am_data am g.
Proof. intros Hne. simpl. by rewrite decide_False. Qed.
Lemma set_data_same am f bs : am_data (set_data f bs am) f = bs.
Proof. simpl. by rewrite decide_True. Qed.

Lemma cow_rule ext rest sp w am va m :
  good ext rest sp w am → page_base va = va → page_of sp va = Some m → mp_cow m = true →
  wp_res (resolve_cow_fault va) (sp, w)
    (λ _ s', ∃ am' f, good ext rest s'.1 s'.2 am' ∧ same_data rest am am' ∧
       page_changed sp s'.1 (cow_resolved m f) ∧ ∀ va', page_bytes am' s'.1 va' = page_bytes am sp va')
    (λ _ s', spared rest am s'.2).
Proof.
  intros Hg Hbase Hm Hc. pose proof (good_sorted _ _ _ _ _ Hg) as Hsort.
  destruct (mapping_index_Some sp va m Hsort) as (i & Hi & Hmi); [by rewrite Hbase|].
  apply page_of_Some in Hm as [Hm Hk]; [|done]. pose proof (good_mapping _ _ _ _ _ m Hg Hm) as Hmo.
  destruct (mo_cow _ _ _ _ Hmo Hc) as [Ho _]. assert (holds m = true) as Hh by (unfold holds; by rewrite Ho).
  destruct (held_block _ _ _ _ _ m Hg Hm Hh) as (n & rc & Hf & Hb & Href).
  destruct (good_space _ _ _ _ _ Hg) as (V & HV & Hview).
  assert (V !! mkey m = Some (frame_of n, mp_flags m)) as HVm by (rewrite <-Hf; apply Hview; eauto).
  pose proof Hg as [Hr Hs]. unfold resolve_cow_fault. sp_run. rewrite Hi. sp_run. rewrite Hmi. sp_run.
  eapply wp_res_mono; [by apply (us_ref_count rep round1 foreign w am)|..]; cbv beta; [|done].
  intros r w' [-> Hrc]. rewrite (Hrc n round1 rc Hf Hb). change (default 1 (Some rc)) with rc.
  destruct (decide (1 < rc)) as [Hgt|Hle]; wp_run.
  - rewrite <-Hk. eapply wp_res_mono; [by apply alloc_rule|..]; cbv beta; [|intros e [sp' w'] [_ Hg']; by eapply good_spared].
    intros f2 [sp' w1] (n2 & am1 & -> & Hsp & Hl & Hd & Hfree & Hspaces & Hblocks). simpl in *. subst sp'.
    assert (n ≠ n2) as Hne by congruence. unfold copy_frame. sp_run.
    pose proof (gd_rep _ _ _ _ _ (ld_good _ _ _ _ _ _ Hl)) as Hr1. rewrite Hf.
    rewrite (us_bytes rep round1 foreign w1 am1) by done.
    pose proof (loaded_data _ _ _ _ _ _ _ Hl (us_page rep round1 foreign w1 am1 (frame_of n) Hr1)) as Hl2.
    set (am2 := set_data _ _ am1) in Hl2. set (w2 := um_set_bytes _ _ w1) in Hl2 |- *.
    assert (same_data (sp :: rest) am am2) as Hsame.
    { intros x Hx. unfold am2. rewrite (loaded_same _ _ _ _ _ _ _ (sp :: rest) Hl); [by rewrite Hd|done|done]. }
    assert (same_data rest am am2) as Hrest by (intros x Hx; apply Hsame, elem_of_app; by right).
    assert (am_blocks am2 !! n = Some (round1, rc)) as Hb2 by (simpl; rewrite Hblocks, lookup_insert_ne; done).
    assert (am_spaces am2 !! space_root sp = Some V) as HV2 by (simpl; by rewrite Hspaces).
    pose proof (gd_rep _ _ _ _ _ (ld_good _ _ _ _ _ _ Hl2)) as Hr2.
    eapply wp_res_mono; [apply (us_unmap rep round1 foreign w2 am2 _ V (mkey m) n rc (mp_flags m) Hr2 HV2)|..]; cbv beta; try done.
    { apply (mo_page _ _ _ _ Hmo). }
    { lia. }
    intros _ w3 Hr3. sp_run.
    eapply wp_res_mono; [eapply (us_map rep round1 foreign w3 _ _ (delete (mkey m) V) (mkey m) (frame_of n2) _ Hr3)|..]; cbv beta.
    { apply lookup_insert_eq. }
    { apply (mo_page _ _ _ _ Hmo). }
    { left. exists n2, round1, 1. split; [done|]. simpl. unfold unref. rewrite decide_False by lia.
      rewrite lookup_insert_ne by done. rewrite Hblocks. apply lookup_insert_eq. }
    2:{ intros e w4 Hr4. by eexists. }
    intros _ w4 [_ Hr4]. eapply wp_set_cow_done; [done|]. eexists _, (frame_of n2). split.
    { refine (cow_copied ext rest sp w2 w4 am2 m n n2 i rc V _ _ _ _ _ _ _ _); try done. }
    split; [done|]. pose proof (change_mapping_changed i m (cow_resolved m (frame_of n2)) sp Hsort Hmi eq_refl) as Hpc.
    split; [done|]. intros va'. unfold page_bytes. rewrite (pc_pages _ _ _ Hpc). destruct (decide _) as [->|Hva'].
    + change (mkey (cow_resolved m (frame_of n2))) with (mkey m).
      rewrite (proj2 (page_of_Some sp (mkey m) m Hsort)) by done. cbn [fmap option_fmap option_map cow_resolved mp_frame].
      unfold am2. cbn [am_data set_space set_blocks]. rewrite set_data_same, Hd, Hf. done.
    + destruct (page_of sp va') as [x|] eqn:Hx; [|done]. simpl. f_equal.
      apply page_of_Some in Hx as [Hx _]; [|done]. apply (Hsame x), elem_of_app. by left.
  - assert (rc = 1) as -> by (pose proof (us_live rep round1 foreign w am n round1 rc Hr Hb); lia). rewrite <-Hk. sp_run.
    eapply wp_res_mono; [by apply (us_protect rep round1 foreign w am _ V (mkey m) (frame_of n) (mp_flags m) _ Hr HV (mo_page _ _ _ _ Hmo))|..]; cbv beta; [|done].
    intros _ w' Hr'. eapply wp_set_cow_done; [done|]. eexists _, (mp_frame m). split; [split; [exact Hr'|]|].
    + rewrite <-Hf. eapply (system_update round1 foreign ext am sp _ rest V m (cow_resolved m (mp_frame m)) (vec_remove i (mappings sp))); try done.
      * by eapply sorted_keys_update.
      * by apply vec_remove_Permutation.
      * by eapply update_Permutation.
      * intros Ho'. change (Z.testbit (MapFlags.bitor (mp_flags m) MapFlags.WRITE) 3 = true).
        by rewrite bitor_user, (mo_user _ _ _ _ Hmo Ho).
      * intros _ s Hs'. rewrite Hf in Hs'. apply frame_of_eq in Hs' as <-.
        pose proof (sy_refs _ _ _ _ _ Hs n _ _ Hb). pose proof (sy_ext _ _ _ _ _ Hs n).
        assert (1 <= refs (all_mappings (sp :: rest)) n) by (eapply refs_elem; [apply elem_of_app; by left|done]). lia.
    + split; [done|]. pose proof (change_mapping_changed i m (cow_resolved m (mp_frame m)) sp Hsort Hmi eq_refl) as Hpc.
      split; [done|]. intros va'. unfold page_bytes. rewrite (pc_pages _ _ _ Hpc). destruct (decide _) as [->|Hva']; [|done].
      change (mkey (cow_resolved m (mp_frame m))) with (mkey m).
      by rewrite (proj2 (page_of_Some sp (mkey m) m Hsort)).
Qed.

(** *** Demand paging *)

(** The bytes that an area puts over a page. *)
Definition fills (va : Z) (v : UserVma) (old new : list Z) : Prop :=
  length new = Z.to_nat PAGE_SIZE ∧
  ∀ i, (i < Z.to_nat PAGE_SIZE)%nat →
    new !! i = match file_at v (va + Z.of_nat i) with Some (src, off) => src_byte src off | None => old !! i end.

Lemma length_write_at offset data bytes :
  (offset + length data <= length bytes)%nat → length (write_at offset data bytes) = length bytes.
Proof. intros H. unfold write_at. rewrite !length_app, length_take, length_drop. lia. Qed.

Lemma lookup_write_at offset data bytes i :
  (offset + length data <= length bytes)%nat →
  write_at offset data bytes !! i =
    if decide (offset <= i < offset + length data)%nat then data !! (i - offset)%nat else bytes !! i.
Proof.
  intros H. unfold write_at. assert (length (take offset bytes) = offset) as Hl by (rewrite length_take; lia).
  destruct (decide (i < offset)%nat).
  - rewrite decide_False by lia. rewrite lookup_app_l by lia. by rewrite lookup_take_lt.
  - rewrite lookup_app_r by lia. rewrite Hl. destruct (decide (i < offset + length data)%nat).
    + rewrite decide_True by lia. by rewrite lookup_app_l by lia.
    + rewrite decide_False by lia. rewrite lookup_app_r by lia. rewrite lookup_drop. f_equal. lia.
Qed.

Lemma fill_from_rule ext rest sp w am n src off doff len :
  loaded ext rest sp w am n → source_ok src → 0 <= doff → 0 <= len → doff + len <= PAGE_SIZE →
  wp_res (fill_from (frame_of n) src off doff len) (sp, w)
    (λ _ s', ∃ bs, s'.1 = sp ∧ loaded ext rest sp s'.2 (set_data (frame_of n) bs am) n ∧
       length bs = Z.to_nat PAGE_SIZE ∧
       ∀ i, (i < Z.to_nat PAGE_SIZE)%nat → bs !! i =
         if decide (doff <= Z.of_nat i < doff + len) then src_byte src (off + (Z.of_nat i - doff))
         else am_data am (frame_of n) !! i)
    (λ _ s', s' = (sp, w)).
Proof.
  intros Hl Hsrc Hd0 Hl0 Hlen. unfold fill_from, read_image. wp_run. pose proof (Hsrc off len) as Hread.
  destruct (read_exact_at src off len) as [bytes| | |]; wp_run; try done. destruct Hread as [Hblen Hbytes].
  pose proof (gd_rep _ _ _ _ _ (ld_good _ _ _ _ _ _ Hl)) as Hr. pose proof (us_page rep round1 foreign w am (frame_of n) Hr) as Hpage.
  unfold write_frame_partial. sp_run. rewrite (us_bytes rep round1 foreign w am) by done.
  assert (Z.to_nat doff + length bytes <= length (am_data am (frame_of n)))%nat as Hfit by (rewrite Hpage, Hblen; lia).
  eexists. split; [done|]. split; [apply loaded_data; [done|]; by rewrite length_write_at|].
  split; [by rewrite length_write_at|]. intros i Hi. rewrite lookup_write_at by done.
  destruct (decide (doff <= Z.of_nat i < doff + len)).
  - rewrite decide_True by lia. rewrite Hbytes by lia. do 2 f_equal. lia.
  - rewrite decide_False by lia. done.
Qed.

Lemma fills_none va v old :
  length old = Z.to_nat PAGE_SIZE → (∀ i, (i < Z.to_nat PAGE_SIZE)%nat → file_at v (va + Z.of_nat i) = None) → fills va v old old.
Proof. intros Hl Hn. split; [done|]. intros i Hi. by rewrite Hn. Qed.

Lemma fills_range va v old new src off doff len :
  length new = Z.to_nat PAGE_SIZE → 0 <= doff →
  (∀ i, (i < Z.to_nat PAGE_SIZE)%nat → new !! i =
     if decide (doff <= Z.of_nat i < doff + len) then src_byte src (off + (Z.of_nat i - doff)) else old !! i) →
  (∀ i, 0 <= i < PAGE_SIZE → file_at v (va + i) =
     if decide (doff <= i < doff + len) then Some (src, off + (i - doff)) else None) →
  fills va v old new.
Proof.
  intros Hl Hd Hnew Hf. split; [done|]. intros i Hi. rewrite Hnew, Hf by lia. by destruct (decide _).
Qed.

(** Nothing was written. *)
Definition untouched (am am' : abstract) (n : Z) (bs : list Z) : Prop :=
  am' = am ∧ bs = am_data am (frame_of n) ∨ am' = set_data (frame_of n) bs am.

Lemma fill_rule ext rest sp w am n va v :
  loaded ext rest sp w am n → area_ok v →
  wp_res (fill_lazy_page_from_vma (frame_of n) va (va + PAGE_SIZE) v) (sp, w)
    (λ _ s', ∃ am' bs, s'.1 = sp ∧ loaded ext rest sp s'.2 am' n ∧ untouched am am' n bs ∧
       (vma_start v <= va → fills va v (am_data am (frame_of n)) bs))
    (λ _ s', s' = (sp, w)).
Proof.
  intros Hl Hv. pose proof PAGE_SIZE_eq as Hps.
  pose proof (us_page rep round1 foreign w am (frame_of n) (gd_rep _ _ _ _ _ (ld_good _ _ _ _ _ _ Hl))) as Hpage.
  assert (∀ Q : Prop, (∀ i, (i < Z.to_nat PAGE_SIZE)%nat → file_at v (va + Z.of_nat i) = None) →
    ∃ am' bs, sp = sp ∧ loaded ext rest sp w am' n ∧ untouched am am' n bs ∧ (vma_start v <= va → fills va v (am_data am (frame_of n)) bs)) as Hnone.
  { intros _ Hn. exists am, (am_data am (frame_of n)). split; [done|]. split; [done|]. split; [by left|]. intros _. by apply fills_none. }
  unfold fill_lazy_page_from_vma. unfold file_at in Hnone. pose proof (ao_kind _ Hv) as Hk.
  destruct (vma_kind v) as [| | | |src off len|src seg off len ord| |] eqn:Hkind; wp_run; try (by apply (Hnone True)).
  - unfold saturating_sub. destruct (decide _) as [Hle|Hgt]; wp_run.
    { exists am, (am_data am (frame_of n)). split; [done|]. split; [done|]. split; [by left|]. intros Hstart.
      apply fills_none; [done|]. intros i Hi. unfold file_at. rewrite Hkind, decide_False by lia. done. }
    apply wp_res_ok_or; [|done]. intros a Ha. unfold checked_add in Ha. case_bool_decide; simplify_eq.
    eapply wp_res_mono; [apply fill_from_rule; try done; lia|..]; cbv beta; [|done].
    intros _ [sp' w'] (bs & -> & Hl' & Hlen & Hbs). eexists _, bs. split; [done|]. split; [exact Hl'|]. split; [by right|]. intros Hstart.
    eapply fills_range; [done| |exact Hbs|]; [lia|]. intros i Hi. unfold file_at. rewrite Hkind.
    destruct (decide (va + i - vma_start v < len)); [rewrite decide_True by lia|by rewrite decide_False by lia].
    do 2 f_equal. lia.
  - apply wp_res_ok_or; [|done]. intros a Ha. unfold checked_add in Ha. case_bool_decide; simplify_eq.
    destruct (decide _) as [Hle|Hgt]; wp_run.
    { apply (Hnone True). intros i Hi. rewrite decide_False by lia. done. }
    apply wp_res_ok_or; [|done]. intros a Ha. unfold checked_add in Ha. case_bool_decide; simplify_eq.
    eapply wp_res_mono; [apply fill_from_rule; try done; lia|..]; cbv beta; [|done].
    intros _ [sp' w'] (bs & -> & Hl' & Hlen & Hbs). eexists _, bs. split; [done|]. split; [exact Hl'|]. split; [by right|]. intros Hstart.
    eapply fills_range; [done| |exact Hbs|]; [lia|]. intros i Hi. unfold file_at. rewrite Hkind.
    destruct (decide (seg <= va + i < seg + len)); [rewrite decide_True by lia|by rewrite decide_False by lia].
    do 2 f_equal. lia.
Qed.
End ops.
