(* ===== verification/SpaceFault.v ===== *)
(** * Faults and accesses

    Demand paging, copy on write and the copies between the kernel and user
    memory: [map_lazy_page], [ensure_access], [handle_page_fault], [read] and
    [write] of [UserSpace] on one space of a system of spaces. *)

From S2P Require Import Prelude Frame PageTable Image Vma VmaProof UserSpace SpaceApi SpaceInv SpaceProof.

(** ** What demand paging puts into a page *)

(** The byte at address [a]: the last area with a file byte there decides. *)
Definition byte_over (a : Z) (acc : option Z) (v : UserVma) : option Z :=
  match file_at v a with Some (src, off) => src_byte src off | None => acc end.
Definition page_byte (areas : list UserVma) (a : Z) : option Z := foldl (byte_over a) (Some 0) areas.

(** The lazy areas of a page, and the order in which they are applied: by the
    order of their segments, stably. *)
Definition lazy_areas (va : Z) (l : list UserVma) : list UserVma :=
  match lazy_vma_window va (va + PAGE_SIZE) l with
  | Some (i, j) => List.filter (contributes va) (window_areas i j l)
  | None => []
  end.

Fixpoint insert_area (v : UserVma) (sorted : list UserVma) : list UserVma :=
  match sorted with
  | [] => [v]
  | x :: rest => if decide (lazy_order v < lazy_order x)%nat then v :: x :: rest else x :: insert_area v rest
  end.
Definition in_order (areas : list UserVma) : list UserVma := foldl (λ acc v, insert_area v acc) [] areas.

Lemma omap_lookup_cons {A} (l : list A) j x idx : l !! j = Some x → omap (l !!.) (j :: idx) = x :: omap (l !!.) idx.
Proof. intros H. simpl. by rewrite H. Qed.

Lemma insert_by_order_areas l i v idx :
  l !! i = Some v → Forall (λ j, is_Some (l !! j)) idx →
  omap (l !!.) (insert_by_order l i idx) = insert_area v (omap (l !!.) idx) ∧
  Forall (λ j, is_Some (l !! j)) (insert_by_order l i idx).
Proof.
  intros Hi. induction 1 as [|j idx [x Hj] Hall [IH1 IH2]].
  { cbn [insert_by_order]. rewrite (omap_lookup_cons l i v) by done. by repeat constructor. }
  rewrite (omap_lookup_cons l j x) by done. cbn [insert_by_order insert_area].
  rewrite Hi, Hj. cbn [fmap option_fmap option_map default]. unfold default, id. destruct (decide _).
  - rewrite (omap_lookup_cons l i v), (omap_lookup_cons l j x) by done. split; [done|]. repeat constructor; eauto.
  - rewrite (omap_lookup_cons l j x), IH1 by done. split; [done|]. constructor; eauto.
Qed.

Lemma sort_by_order_areas l idx :
  Forall (λ j, is_Some (l !! j)) idx → omap (l !!.) (sort_by_order l idx) = in_order (omap (l !!.) idx).
Proof.
  intros Hall. unfold sort_by_order, in_order.
  assert (∀ acc, Forall (λ j, is_Some (l !! j)) acc →
    omap (l !!.) (foldl (λ acc i, insert_by_order l i acc) acc idx) =
    foldl (λ acc v, insert_area v acc) (omap (l !!.) acc) (omap (l !!.) idx)) as Hgen; [|by apply Hgen].
  induction Hall as [|i idx [v Hi] Hall IH]; intros acc Hacc; [done|]. rewrite (omap_lookup_cons l i v) by done.
  cbn [foldl]. destruct (insert_by_order_areas l i v acc Hi Hacc) as [Heq Hok]. by rewrite IH, Heq.
Qed.

(** Areas that are in order already stay where they are. *)
Lemma insert_area_last v sorted :
  Forall (λ x, (lazy_order x <= lazy_order v)%nat) sorted → insert_area v sorted = sorted ++ [v].
Proof. induction 1 as [|x sorted Hx Hall IH]; simpl; [done|]. rewrite decide_False by lia. by rewrite IH. Qed.

Lemma monotonic_order_cons a orders :
  monotonic_order (a :: orders) = true ↔ Forall (λ b, (a <= b)%nat) orders ∧ monotonic_order orders = true.
Proof.
  revert a. induction orders as [|b orders IH]; intros a; [by simpl; split|].
  change (monotonic_order (a :: b :: orders)) with (bool_decide (a <= b)%nat && monotonic_order (b :: orders)).
  rewrite andb_true_iff, bool_decide_eq_true, IH, Forall_cons. split.
  - intros (Hab & Hall & Hm). split; [|done]. split; [done|]. eapply Forall_impl; [exact Hall|]. simpl. lia.
  - intros ((Hab & Hall) & Hbl & Hm). done.
Qed.

Lemma in_order_monotonic areas : monotonic_order (lazy_order <$> areas) = true → in_order areas = areas.
Proof.
  unfold in_order. intros Hm.
  assert (∀ acc, (∀ x v, x ∈ acc → v ∈ areas → (lazy_order x <= lazy_order v)%nat) →
    foldl (λ acc v, insert_area v acc) acc areas = acc ++ areas) as Hgen; [|by rewrite Hgen by set_solver].
  induction areas as [|v areas IH]; intros acc Hacc; simpl; [by rewrite app_nil_r|].
  cbn [fmap list_fmap] in Hm. apply monotonic_order_cons in Hm as [Hv Hm]. rewrite insert_area_last.
  - rewrite IH; [by rewrite <-app_assoc|done|]. intros x y [Hx|Hx]%elem_of_app Hy; [apply Hacc; set_solver|].
    apply list_elem_of_singleton in Hx as ->. rewrite Forall_fmap, Forall_forall in Hv. by apply Hv.
  - apply Forall_forall. intros x Hx. apply Hacc; set_solver.
Qed.

Lemma window_filter (l : list UserVma) i k (P : UserVma → bool) :
  omap (l !!.) (List.filter (λ j, match l !! j with Some v => P v | None => false end) (seq i k)) =
  List.filter P (take k (drop i l)).
Proof.
  revert i. induction k as [|k IH]; intros i; [done|]. cbn [seq List.filter].
  destruct (l !! i) as [v|] eqn:Hv.
  - rewrite (drop_S l v i Hv). cbn [take List.filter]. destruct (P v); rewrite ?(omap_lookup_cons l i v) by done; by rewrite IH.
  - apply lookup_ge_None in Hv. rewrite IH, !drop_ge by lia. by destruct k.
Qed.

Lemma insert_area_perm v sorted : insert_area v sorted ≡ₚ v :: sorted.
Proof.
  induction sorted as [|x sorted IH]; simpl; [done|]. destruct (decide _); [done|]. rewrite IH. apply perm_swap.
Qed.

Lemma in_order_perm areas : in_order areas ≡ₚ areas.
Proof.
  unfold in_order. assert (∀ acc, foldl (λ acc v, insert_area v acc) acc areas ≡ₚ acc ++ areas) as Hgen; [|by rewrite Hgen].
  induction areas as [|v areas IH]; intros acc; simpl; [by rewrite app_nil_r|].
  rewrite IH, insert_area_perm. simpl. by rewrite Permutation_middle.
Qed.

(** ** Flags *)

Lemma merged_bit areas b : 
  Z.testbit (merged_flags areas) b = existsb (λ v, Z.testbit (vma_flags v) b) areas.
Proof.
  unfold merged_flags. assert (∀ acc, Z.testbit (foldl (λ acc v, MapFlags.bitor acc (vma_flags v)) acc areas) b =
    Z.testbit acc b || existsb (λ v, Z.testbit (vma_flags v) b) areas) as Hgen.
  { induction areas as [|v areas IH]; intros acc; simpl; [by rewrite orb_false_r|]. rewrite IH.
    unfold MapFlags.bitor. by rewrite Z.lor_spec, orb_assoc. }
  rewrite Hgen. change MapFlags.empty with 0. by rewrite Z.testbit_0_l.
Qed.

#[global] Instance existsb_perm {A} (f : A → bool) : Proper ((≡ₚ) ==> eq) (existsb f).
Proof.
  intros l l' Hp. apply eq_true_iff_eq. rewrite !existsb_exists.
  split; intros (x & Hx & Hf); exists x; (split; [|done]); apply list_elem_of_In; apply list_elem_of_In in Hx;
    [by rewrite <-Hp|by rewrite Hp].
Qed.

Lemma write_allowed_bit areas :
  existsb (λ v, MapFlags.contains (vma_flags v) MapFlags.WRITE) areas = existsb (λ v, Z.testbit (vma_flags v) 1) areas.
Proof. induction areas as [|v areas IH]; [done|]. cbn [existsb]. by rewrite IH, contains_write. Qed.

(** Sorted areas that start on a page. *)
Definition areas_wf (l : list UserVma) : Prop := monotone l ∧ Forall (λ v, vma_start v mod 4096 = 0) l.

Lemma lazy_areas_elem va l v : v ∈ lazy_areas va l → v ∈ l ∧ va < vma_end v ∧ vma_lazy v = true.
Proof.
  unfold lazy_areas. destruct (lazy_vma_window _ _ _) as [[i j]|]; [|set_solver].
  intros [Hv Hc]%list_elem_of_In%filter_In. apply list_elem_of_In in Hv. split.
  - eapply sublist_subseteq; [|exact Hv]. unfold window_areas. etrans; [apply sublist_take|apply sublist_drop].
  - unfold contributes in Hc. apply andb_true_iff in Hc as [? ?]. split; [lia|done].
Qed.

Lemma lazy_areas_start va l v : areas_wf l → va mod 4096 = 0 → v ∈ lazy_areas va l → vma_start v <= va.
Proof.
  intros [Hm Hal] Hva Hv. pose proof (lazy_areas_elem va l v Hv) as (Hvl & _). unfold lazy_areas in Hv.
  pose proof (lazy_vma_window_spec va (va + PAGE_SIZE) l Hm) as Hspec.
  destruct (lazy_vma_window _ _ _) as [[i j]|]; [|set_solver]. destruct Hspec as [Hij Hspec].
  apply list_elem_of_In, filter_In in Hv as [Hv _]. apply list_elem_of_In, list_elem_of_lookup in Hv as (k & Hk).
  unfold window_areas in Hk. apply lookup_take_Some in Hk as [Hk Hlt]. rewrite lookup_drop in Hk.
  apply Hspec in Hk as Hw. assert (vma_start v < va + PAGE_SIZE) as Hs by (apply Hw; lia). rewrite PAGE_SIZE_eq in Hs.
  rewrite Forall_forall in Hal. specialize (Hal v Hvl). pose proof (Z.div_mod va 4096). pose proof (Z.div_mod (vma_start v) 4096). lia.
Qed.

Section faults.
Context {W : Type} {U : UserMachine W} (rep : W → abstract → Prop) (round1 : Z) (foreign : PhysFrame → Prop).
Context (US : UserMachineSpec rep round1 foreign).
Implicit Types (sp : UserAddressSpaceInner) (w : W) (am : abstract) (rest : list UserAddressSpaceInner).

Abbreviation good := (good rep round1 foreign).
Abbreviation loaded := (loaded rep round1 foreign).
Abbreviation spared := (spared rep).

(** ** Demand paging *)

Lemma fill_all_rule ext rest sp w am n va areas :
  loaded ext rest sp w am n → Forall area_ok areas →
  wp_res (fill_all (frame_of n) va (va + PAGE_SIZE) areas) (sp, w)
    (λ _ s', ∃ am', s'.1 = sp ∧ loaded ext rest sp s'.2 am' n ∧ same_data (sp :: rest) am am' ∧
       (Forall (λ v, vma_start v <= va) areas → ∀ i, (i < Z.to_nat PAGE_SIZE)%nat →
         am_data am' (frame_of n) !! i = foldl (byte_over (va + Z.of_nat i)) (am_data am (frame_of n) !! i) areas))
    (λ _ s', ∃ am', s'.1 = sp ∧ good ext rest sp s'.2 am' ∧ same_data (sp :: rest) am am').
Proof.
  intros Hl Hall. revert w am Hl. induction Hall as [|v areas Hv Hall IH]; intros w am Hl; cbn [fill_all].
  { wp_run. exists am. done. }
  apply (wp_cleanup (fill_lazy_page_from_vma (frame_of n) va (va + PAGE_SIZE) v)
           (λ _, fill_all (frame_of n) va (va + PAGE_SIZE) areas) (λ e, _ ← release_frames (frame_of n); mthrow e)).
  eapply wp_res_mono; [by apply (fill_rule rep round1 foreign US ext rest sp w am)|..]; cbv beta.
  - intros _ [sp' w'] (am' & bs & Hsp & Hl' & Hun & Hfills). simpl in Hsp. subst sp'.
    assert (same_data (sp :: rest) am am') as Hsame.
    { destruct Hun as [[-> _]| ->]; [done|]. by eapply (loaded_same rep round1 foreign). }
    assert (am_data am' (frame_of n) = bs) as Hbs.
    { destruct Hun as [[-> ->]| ->]; [done|]. apply set_data_same. }
    eapply wp_res_mono; [by apply IH|..]; cbv beta.
    + intros _ s' (am2 & Hsp & Hl2 & Hsame2 & Hd). exists am2. split; [done|]. split; [done|].
      split; [by eapply same_data_trans|]. intros [Hv1 Hv2]%Forall_cons i Hi. rewrite Hd by done. cbn [foldl]. f_equal.
      rewrite Hbs. destruct (Hfills Hv1) as [_ Hf]. rewrite Hf by done. done.
    + intros _ s' (am2 & Hsp & Hg & Hsame2). exists am2. split; [done|]. split; [done|]. by eapply same_data_trans.
  - intros e s' ->. sp_step. eapply wp_res_mono; [by apply (release_loaded rep round1 foreign US)|..]; cbv beta; [|done].
    intros _ [sp' w'] (am' & Hsp & Hg & Hd). sp_run. exists am'. split; [done|]. split; [done|]. intros m Hm. by rewrite Hd.
Qed.

(** What a page that demand paging has added is like. *)
Record lazily_mapped (am : abstract) (va : Z) (areas : list UserVma) (m : UserMapping) : Prop := {
  lm_key : mkey m = va;
  lm_owned : mp_owned m = true;
  lm_cow : mp_cow m = false;
  lm_flags : mp_flags m = merged_flags areas;
  lm_bytes i : Forall (λ v, vma_start v <= va) areas → (i < Z.to_nat PAGE_SIZE)%nat → am_data am (mp_frame m) !! i = page_byte areas (va + Z.of_nat i);
}.

Lemma lookup_zero_bytes i : (i < Z.to_nat PAGE_SIZE)%nat → zero_bytes !! i = Some 0.
Proof. intros Hi. by apply lookup_replicate_2. Qed.

Lemma map_lazy_from_rule ext rest sp w am va areas :
  good ext rest sp w am → user_page va → Forall area_ok areas → areas ≠ [] →
  wp_res (map_lazy_page_from va (va + PAGE_SIZE) areas) (sp, w)
    (λ _ s', ∃ am' m, good ext rest s'.1 s'.2 am' ∧ same_data (sp :: rest) am am' ∧ page_added sp s'.1 m ∧
       lazily_mapped am' va areas m)
    (λ _ s', ∃ am', s'.1 = sp ∧ good ext rest sp s'.2 am' ∧ same_data (sp :: rest) am am').
Proof.
  intros Hg Hva Hall Hne. unfold map_lazy_page_from. sp_step.
  eapply wp_res_mono; [by apply (zeroed_rule rep round1 foreign US)|..]; cbv beta.
  2:{ intros e [sp' w'] [Hsp Hg']. exists am. done. }
  intros f [sp' w1] (n & am1 & -> & Hsp & Hl & Hsame1 & Hz). simpl in Hsp. subst sp'. sp_step.
  eapply wp_res_mono; [by apply fill_all_rule|..]; cbv beta.
  2:{ intros e [sp' w'] (am' & Hsp & Hg' & Hsame). exists am'. split; [done|]. split; [done|]. by eapply same_data_trans. }
  intros _ [sp' w2] (am2 & Hsp & Hl2 & Hsame2 & Hd). simpl in Hsp. subst sp'.
  assert (same_data (sp :: rest) am am2) as Hsame by by eapply same_data_trans.
  eapply wp_res_mono; [apply (map_owned_rule rep round1 foreign US); [done|done|]|..]; cbv beta.
  - rewrite merged_bit. apply existsb_exists. destruct areas as [|v areas]; [done|]. exists v. split; [by left|].
    apply Forall_cons in Hall as [Hv _]. apply (ao_user _ Hv).
  - intros _ [sp' w3] (am3 & Hg3 & Hd3 & Hadd). exists am3. eexists. split; [done|]. split; [|split; [exact Hadd|]].
    { intros m Hm. rewrite Hd3. by apply Hsame. }
    split; try done. intros i Hst Hi. cbn [mp_frame]. rewrite Hd3, Hd, Hz by done. unfold page_byte.
    by rewrite lookup_zero_bytes.
  - intros e [sp' w3] (am3 & Hsp & Hg3 & Hd3). exists am3. split; [done|]. split; [done|]. intros m Hm. rewrite Hd3. by apply Hsame.
Qed.


(** The result of demand paging at [va]. *)
Definition lazy_page (ext : Z → Z) (rest : list UserAddressSpaceInner) (am : abstract) (sp : UserAddressSpaceInner)
    (va : Z) (s' : UserAddressSpaceInner * W) : Prop :=
  ∃ am' m, good ext rest s'.1 s'.2 am' ∧ same_data (sp :: rest) am am' ∧ page_added sp s'.1 m ∧
    lazily_mapped am' va (in_order (lazy_areas va (vmas sp))) m.

(** Nothing has changed but for failed allocations. *)
Definition no_page (ext : Z → Z) (rest : list UserAddressSpaceInner) (am : abstract) (sp : UserAddressSpaceInner)
    (s' : UserAddressSpaceInner * W) : Prop :=
  ∃ am', s'.1 = sp ∧ good ext rest sp s'.2 am' ∧ same_data (sp :: rest) am am'.

Lemma map_lazy_areas ext rest sp w am va :
  good ext rest sp w am → 0 <= va → va mod 4096 = 0 → lazy_areas va (vmas sp) ≠ [] →
  wp_res (map_lazy_page_from va (va + PAGE_SIZE) (in_order (lazy_areas va (vmas sp)))) (sp, w)
    (λ _, lazy_page ext rest am sp va) (λ _, no_page ext rest am sp).
Proof.
  intros Hg H0 Hal Hne. assert (Forall area_ok (lazy_areas va (vmas sp))) as Hall.
  { apply Forall_forall. intros v (Hv & _)%lazy_areas_elem.
    apply (sy_areas _ _ _ _ _ (gd_system _ _ _ _ _ _ _ _ Hg) sp v); [apply list_elem_of_here|done]. }
  apply (map_lazy_from_rule ext rest sp w am va); try done.
  - split; [|done]. destruct (lazy_areas va (vmas sp)) as [|v l] eqn:Hv; [done|].
    destruct (lazy_areas_elem va (vmas sp) v) as (_ & Hend & _); [rewrite Hv; apply list_elem_of_here|].
    apply Forall_cons in Hall as [Hok _]. pose proof (ao_end _ Hok). lia.
  - by rewrite in_order_perm.
  - intros Hn. pose proof (in_order_perm (lazy_areas va (vmas sp))) as Hp. rewrite Hn in Hp. by apply Permutation_nil_l in Hp.
Qed.

Lemma map_lazy_rule ext rest sp w am va wr :
  good ext rest sp w am → 0 <= va → va mod 4096 = 0 →
  wp_res (map_lazy_page va wr) (sp, w)
    (λ b s', if b then lazy_areas va (vmas sp) ≠ [] ∧ lazy_page ext rest am sp va s' ∧
                       (wr = true → Z.testbit (merged_flags (lazy_areas va (vmas sp))) 1 = true)
             else s' = (sp, w) ∧ (lazy_areas va (vmas sp) = [] ∨
                    wr = true ∧ Z.testbit (merged_flags (lazy_areas va (vmas sp))) 1 = false))
    (λ _, no_page ext rest am sp).
Proof.
  intros Hg H0 Hal. pose proof (map_lazy_areas ext rest sp w am va Hg H0 Hal) as Hmap. unfold map_lazy_page. sp_step.
  apply wp_res_ok_or; [|by intros _; exists am]. intros pe Hpe. unfold checked_add in Hpe. case_bool_decide; simplify_eq.
  sp_run. unfold lazy_areas in *. destruct (lazy_vma_window va (va + PAGE_SIZE) (vmas sp)) as [[i j]|] eqn:Hwin;
    [|sp_run; split; [done|by left]].
  set (areas := List.filter (contributes va) (window_areas i j (vmas sp))) in *.
  destruct (decide (areas = [])) as [Hnil|Hne]; sp_run; [split; [done|by left]|].
  rewrite merged_bit in *. rewrite write_allowed_bit.
  destruct (wr && negb _) eqn:Hw; sp_run.
  { split; [done|]. right. apply andb_true_iff in Hw as [-> Hw]. by apply negb_true_iff in Hw. }
  assert (wr = true → existsb (λ v, Z.testbit (vma_flags v) 1) areas = true) as Hwr.
  { intros ->. by destruct (existsb _ areas). }
  destruct (bool_decide (length areas = 1%nat) || monotonic_order (lazy_order <$> areas)) eqn:Hord; sp_step.
  - assert (in_order areas = areas) as Hsorted.
    { apply orb_true_iff in Hord as [Hone|Hmono]; [|by apply in_order_monotonic].
      apply bool_decide_eq_true in Hone. destruct areas as [|v [|? ?]]; done. }
    unfold map_lazy_page_from_window. sp_run. fold areas. rewrite Hsorted in Hmap.
    eapply wp_res_mono; [by apply Hmap|..]; cbv beta; [|done]. intros _ s' Hp. sp_run. done.
  - unfold map_lazy_page_from_indices. sp_run. rewrite sort_by_order_areas.
    2:{ apply Forall_forall. intros k [_ Hk]%list_elem_of_In%filter_In. by destruct (vmas sp !! k). }
    rewrite window_filter. change (List.filter (contributes va) (take (j - i) (drop i (vmas sp)))) with areas.
    eapply wp_res_mono; [by apply Hmap|..]; cbv beta; [|done]. intros _ s' Hp. sp_run. done.
Qed.

(** ** Memory as a program sees it *)

(** The byte at an address: in the page, or what demand paging would put
    there. *)
Definition vbyte (am : abstract) (sp : UserAddressSpaceInner) (a : Z) : option Z :=
  let va := page_base a in
  match page_of sp va with
  | Some m => am_data am (mp_frame m) !! Z.to_nat (a - va)
  | None => match lazy_areas va (vmas sp) with
            | [] => None
            | areas => page_byte (in_order areas) a
            end
  end.

(** No other space has the page, unless by [fork]. *)
Definition private (sp : UserAddressSpaceInner) (a : Z) : Prop :=
  ∀ m, page_of sp (page_base a) = Some m → mp_owned m = true.

(** Copy on write is the only access that may fail with a page lost. *)
Definition not_cow (sp : UserAddressSpaceInner) (a : Z) : Prop :=
  ∀ m, page_of sp (page_base a) = Some m → mp_cow m = false.

(** New pages come from areas. *)
Definition pages_from (sp sp' : UserAddressSpaceInner) : Prop :=
  ∀ va, page_of sp' va ≠ None → page_of sp va ≠ None ∨ lazy_areas va (vmas sp) ≠ [].

Lemma pages_from_refl sp : pages_from sp sp.
Proof. by left. Qed.
Lemma pages_from_trans sp1 sp2 sp3 : vmas sp2 = vmas sp1 → pages_from sp1 sp2 → pages_from sp2 sp3 → pages_from sp1 sp3.
Proof. intros Hv H12 H23 va Hva. destruct (H23 va Hva) as [H|H]; [by apply H12|right; by rewrite <-Hv]. Qed.

Record mem_same (am : abstract) (sp : UserAddressSpaceInner) (am' : abstract) (sp' : UserAddressSpaceInner) : Prop := {
  ms_frame : same_frame sp sp';
  ms_private a : private sp' a ↔ private sp a;
  ms_cow a : not_cow sp a → not_cow sp' a;
  ms_pages : pages_from sp sp';
  ms_bytes : areas_wf (vmas sp) → ∀ a, in_u64 a → vbyte am' sp' a = vbyte am sp a;
}.

Lemma mem_same_refl am sp : mem_same am sp am sp.
Proof. split; [apply same_frame_refl|done|done|apply pages_from_refl|done]. Qed.

Lemma same_frame_vmas sp sp' : same_frame sp sp' → vmas sp' = vmas sp.
Proof. by intros ->. Qed.

Lemma mem_same_trans am1 sp1 am2 sp2 am3 sp3 :
  mem_same am1 sp1 am2 sp2 → mem_same am2 sp2 am3 sp3 → mem_same am1 sp1 am3 sp3.
Proof.
  intros [Hf Hp Hc Hg Hb] [Hf' Hp' Hc' Hg' Hb'].
  split; [by eapply same_frame_trans|intros a; by rewrite Hp', Hp|by auto|by eapply pages_from_trans; [apply same_frame_vmas|..]|].
  intros Hwf a Ha. rewrite Hb', Hb; [done..| |done]. by rewrite (same_frame_vmas _ _ Hf).
Qed.

Lemma page_base_spec a : in_u64 a → page_base a = a / 4096 * 4096.
Proof. apply vma_align_down. Qed.

Lemma page_base_range a : in_u64 a → page_base a <= a < page_base a + 4096 ∧ page_base a mod 4096 = 0 ∧ 0 <= page_base a.
Proof.
  intros Ha. rewrite page_base_spec by done. pose proof (Z.div_mod a 4096). pose proof (Z.mod_pos_bound a 4096).
  destruct Ha as [Ha _]. pose proof (Z.div_pos a 4096). split; [lia|]. split; [apply Z.mod_mul; lia|lia].
Qed.

Lemma page_base_idem a : in_u64 a → page_base (page_base a) = page_base a.
Proof.
  intros Ha. destruct (page_base_range a Ha) as (H1 & H2 & H3). apply align_down_aligned; [|done].
  destruct Ha. split; lia.
Qed.

(** Demand paging does not change what a program sees. *)
Lemma lazy_page_same ext rest am sp a s' :
  in_u64 a → sorted_keys (mappings sp) → lazy_areas (page_base a) (vmas sp) ≠ [] →
  lazy_page ext rest am sp (page_base a) s' →
  ∃ am' m, good ext rest s'.1 s'.2 am' ∧ same_data rest am am' ∧ mem_same am sp am' s'.1 ∧
    (∀ va, va ≠ page_base a → page_of s'.1 va = page_of sp va) ∧ page_of s'.1 (page_base a) = Some m ∧ mp_cow m = false ∧ mp_owned m = true ∧
    mp_flags m = merged_flags (in_order (lazy_areas (page_base a) (vmas sp))).
Proof.
  intros Ha Hsort Hne (am' & m & Hg & Hsame & Hadd & Hm). exists am', m. split; [done|]. split.
  { intros x Hx. apply Hsame, elem_of_app. by right. }
  pose proof (page_base_range a Ha) as (Hr & Hal & H0). pose proof Hm as [Hk Ho Hc Hfl Hb].
  pose proof (pa_pages _ _ _ Hadd) as Hpages. pose proof (pa_none _ _ _ Hadd) as Hnone. rewrite Hk in Hpages, Hnone.
  split; [|split_and!; [intros va Hva; by rewrite Hpages, decide_False|by rewrite Hpages, decide_True|done..]]. split.
  - apply (pa_frame _ _ _ Hadd).
  - intros b. unfold private. rewrite Hpages. destruct (decide _) as [Hbeq|]; [|done]. rewrite Hbeq, Hnone. naive_solver.
  - intros b Hn x. rewrite Hpages. destruct (decide _) as [Hbeq|]; [by intros [= <-]|by apply Hn].
  - intros va. rewrite Hpages. destruct (decide _) as [->|]; [by right|by left].
  - intros Hwf b Hbr. unfold vbyte. rewrite (same_frame_vmas _ _ (pa_frame _ _ _ Hadd)), Hpages.
    destruct (decide _) as [Hbeq|].
    + rewrite Hbeq, Hnone. pose proof (page_base_range b Hbr) as (Hr' & _). rewrite Hbeq in Hr'. rewrite Hb.
      * rewrite Z2Nat.id by lia. replace (page_base a + (b - page_base a)) with b by lia.
        by destruct (lazy_areas (page_base a) (vmas sp)).
      * apply Forall_forall. intros v Hv. rewrite in_order_perm in Hv. by eapply lazy_areas_start.
      * rewrite PAGE_SIZE_eq. lia.
    + destruct (page_of sp (page_base b)) as [x|] eqn:Hx; [|done]. apply page_of_Some in Hx as [Hx _]; [|done].
      rewrite (Hsame x); [done|]. apply elem_of_app. by left.
Qed.

(** The page can be accessed without a fault. *)
Definition accessible (sp : UserAddressSpaceInner) (a : Z) (wr : bool) : Prop :=
  ∃ m, page_of sp (page_base a) = Some m ∧ (wr = true → mp_cow m = false ∧ Z.testbit (mp_flags m) 1 = true).

Definition accessed (ext : Z → Z) (rest : list UserAddressSpaceInner) (am : abstract) (sp : UserAddressSpaceInner)
    (a : Z) (wr : bool) (s' : UserAddressSpaceInner * W) : Prop :=
  ∃ am', good ext rest s'.1 s'.2 am' ∧ same_data rest am am' ∧ mem_same am sp am' s'.1 ∧
    (∀ va, va ≠ page_base a → page_of s'.1 va = page_of sp va) ∧ accessible s'.1 a wr.

(** A failed access that has not changed the memory. *)
Definition stays (ext : Z → Z) (rest : list UserAddressSpaceInner) (am : abstract) (sp : UserAddressSpaceInner)
    (s' : UserAddressSpaceInner * W) : Prop :=
  ∃ am', good ext rest s'.1 s'.2 am' ∧ same_data rest am am' ∧ mem_same am sp am' s'.1.

Lemma stays_spared ext rest am sp s' : stays ext rest am sp s' → spared rest am s'.2.
Proof. intros (am' & Hg & Hsame & _). exists am'. split; [apply Hg|done]. Qed.

Lemma no_page_stays ext rest am sp s' : sorted_keys (mappings sp) → no_page ext rest am sp s' → stays ext rest am sp s'.
Proof.
  intros Hsort (am' & Hsp & Hg & Hsame). exists am'. rewrite Hsp. split; [done|]. split; [intros x Hx; apply Hsame, elem_of_app; by right|].
  split; [apply same_frame_refl|done|done|apply pages_from_refl|]. intros _ b _. unfold vbyte. destruct (page_of sp (page_base b)) as [x|] eqn:Hx; [|done].
  apply page_of_Some in Hx as [Hx _]; [|done]. rewrite (Hsame x); [done|]. apply elem_of_app. by left.
Qed.


Lemma cow_accessed ext rest sp w am a m :
  good ext rest sp w am → in_u64 a → page_of sp (page_base a) = Some m → mp_cow m = true →
  wp_res (resolve_cow_fault (page_base a)) (sp, w)
    (λ _, accessed ext rest am sp a true) (λ _ s', spared rest am s'.2).
Proof.
  intros Hg Ha Hm Hc. pose proof (good_sorted _ _ _ _ _ _ _ _ Hg) as Hsort.
  eapply wp_res_mono; [apply (cow_rule rep round1 foreign US _ _ _ _ _ _ _ Hg (page_base_idem a Ha) Hm Hc)|..]; cbv beta; [|done].
  intros _ s' (am' & f & Hg' & Hsame & Hpc & Hbytes). exists am'. split; [done|]. split; [done|].
  apply page_of_Some in Hm as Hm'; [|done]. destruct Hm' as [Hin Hk].
  assert (mkey (cow_resolved m f) = page_base a) as Hk' by done. pose proof (pc_pages _ _ _ Hpc) as Hpages. rewrite Hk' in Hpages.
  split.
  - split; [apply (pc_frame _ _ _ Hpc)|..].
    + intros b. unfold private. rewrite Hpages. destruct (decide _) as [Hb|]; [|done]. rewrite Hb, Hm.
      split; intros H x [= <-]; [exact (H _ eq_refl)|exact (H _ eq_refl)].
    + intros b Hn x. rewrite Hpages. destruct (decide _) as [Hb|]; [by intros [= <-]|by apply Hn].
    + intros va. rewrite Hpages. destruct (decide _) as [->|]; left; [by rewrite Hm|done].
    + intros _ b Hb. unfold vbyte. rewrite (same_frame_vmas _ _ (pc_frame _ _ _ Hpc)).
      specialize (Hbytes (page_base b)). unfold page_bytes in Hbytes.
      destruct (page_of s'.1 (page_base b)), (page_of sp (page_base b)); simplify_eq/=; [congruence|done].
  - split; [intros va Hva; by rewrite Hpages, decide_False|].
    eexists. split; [by rewrite Hpages, decide_True|]. intros _. split; [done|]. apply bitor_write.
Qed.

Lemma ensure_access_rule ext rest sp w am a wr :
  good ext rest sp w am → in_u64 a →
  wp_res (ensure_access a wr) (sp, w) (λ _, accessed ext rest am sp a wr)
    (λ _ s', spared rest am s'.2 ∧ ((wr = true → not_cow sp a) → stays ext rest am sp s')).
Proof.
  intros Hg Ha. pose proof (good_sorted _ _ _ _ _ _ _ _ Hg) as Hsort. pose proof (page_base_range a Ha) as (Hr & Hal & H0).
  unfold ensure_access. sp_run. fold (page_base a). rewrite mapping_page_of, page_base_idem by done.
  assert (∀ m, page_of sp (page_base a) = Some m → (wr = true → mp_cow m = false ∧ Z.testbit (mp_flags m) 1 = true) →
    accessed ext rest am sp a wr (sp, w)) as Hstay.
  { intros m Hm Hacc. exists am. split; [done|]. split; [done|]. split; [apply mem_same_refl|]. split; [done|]. by exists m. }
  assert (spared rest am w ∧ ((wr = true → not_cow sp a) → stays ext rest am sp (sp, w))) as Hkeep.
  { split; [by eapply (good_spared rep round1 foreign)|]. intros _. exists am. split; [done|]. split; [done|apply mem_same_refl]. }
  destruct (page_of sp (page_base a)) as [m|] eqn:Hm.
  - destruct wr; sp_run; [|by apply (Hstay m)]. destruct (mp_cow m) eqn:Hc.
    { eapply wp_res_mono; [by apply (cow_accessed ext rest sp w am a m)|done|]. cbv beta. intros e s' Hsp. split; [done|].
      intros Hn. by rewrite (Hn eq_refl m Hm) in Hc. }
    rewrite contains_write. destruct (Z.testbit (mp_flags m) 1) eqn:Hw; sp_run; [by apply (Hstay m)|done].
  - sp_step. eapply wp_res_mono; [by apply map_lazy_rule|..]; cbv beta.
    2:{ intros e s' Hno%no_page_stays; [|done]. split; [by eapply stays_spared|done]. }
    intros [] s'; sp_run.
    + intros (Hne & Hp & Hw). destruct (lazy_page_same ext rest am sp a s' Ha Hsort Hne Hp) as
        (am' & m & Hg' & Hsame & Hms & Hot & Hpm & Hc & Ho & Hfl).
      exists am'. split; [done|]. split; [done|]. split; [done|]. split; [done|]. exists m. split; [done|]. intros Hwr. split; [done|].
      rewrite Hfl, merged_bit, in_order_perm, <-merged_bit. by apply Hw.
    + intros [-> _]. by sp_run.
Qed.

(** ** Copies *)

Lemma page_base_plus a i : in_u64 a → 0 <= i → a - page_base a + i < 4096 → page_base (a + i) = page_base a.
Proof.
  intros Ha Hi Hlt. pose proof (page_base_range a Ha) as (Hr & Hal & H0).
  assert (in_u64 (a + i)) as Hai.
  { split; [unfold in_u64 in Ha; lia|]. assert (page_base a <= u64_max - 4095); [|lia].
    rewrite page_base_spec in * by done. unfold in_u64, u64_max in *.
    assert (a / 4096 <= (2 ^ 64 - 1) / 4096) by (apply Z.div_le_mono; lia). change ((2 ^ 64 - 1) / 4096) with 4503599627370495 in *. lia. }
  rewrite (page_base_spec (a + i)) by done. replace ((a + i) / 4096) with (page_base a / 4096).
  - pose proof (Z.div_mod (page_base a) 4096). lia.
  - apply (Z.div_unique_pos _ _ _ (a + i - page_base a)); [lia|]. pose proof (Z.div_mod (page_base a) 4096). lia.
Qed.

Lemma translate_accessible a sp wr :
  in_u64 a → accessible sp a wr →
  ∃ m, page_of sp (page_base a) = Some m ∧ translate a sp = Some (mp_frame m, a - page_base a) ∧
    (wr = true → mp_cow m = false ∧ Z.testbit (mp_flags m) 1 = true).
Proof.
  intros Ha (m & Hm & Hacc). exists m. split; [done|]. split; [|done]. unfold translate. fold (page_base a).
  by rewrite mapping_page_of, page_base_idem, Hm.
Qed.

(** The bytes of one page as [vbyte] sees them. *)
Lemma vbyte_page am sp a m i :
  in_u64 a → page_of sp (page_base a) = Some m → 0 <= i → a - page_base a + i < 4096 →
  vbyte am sp (a + i) = am_data am (mp_frame m) !! Z.to_nat (a - page_base a + i).
Proof.
  intros Ha Hm Hi Hlt. unfold vbyte. rewrite page_base_plus, Hm by done. f_equal. f_equal. lia.
Qed.

Lemma read_loop_rule fuel ext rest sp w am n cur acc :
  good ext rest sp w am → in_u64 cur → n - Z.of_nat (length acc) <= Z.of_nat fuel →
  wp_res (read_loop fuel n cur acc) (sp, w)
    (λ bytes s', ∃ am' more, good ext rest s'.1 s'.2 am' ∧ same_data rest am am' ∧ mem_same am sp am' s'.1 ∧
       bytes = acc ++ more ∧ length more = Z.to_nat (n - Z.of_nat (length acc)) ∧ cur + Z.of_nat (length more) <= u64_max ∧
       (areas_wf (vmas sp) → ∀ i b, more !! i = Some b → vbyte am sp (cur + Z.of_nat i) = Some b))
    (λ _, stays ext rest am sp).
Proof.
  revert sp w am cur acc. induction fuel as [|fuel IH]; intros sp w am cur acc Hg Hcur Hfuel; cbn [read_loop];
    (destruct (decide _) as [Hlt|Hge]; [|wp_run; exists am, []; rewrite app_nil_r; split_and!; try done; [apply mem_same_refl|simpl; lia|destruct Hcur; simpl; lia]]).
  { simpl in Hfuel. lia. }
  sp_step. eapply wp_res_mono; [by apply ensure_access_rule|..]; cbv beta.
  2:{ intros e s' [_ Hst]. by apply Hst. }
  intros _ [sp1 w1] (am1 & Hg1 & Hsame1 & Hms1 & _ & Hacc). cbn [fst snd] in *. wp_run.
  destruct (translate_accessible cur sp1 false Hcur Hacc) as (m & Hm & Htr & _). cbn [fst snd]. rewrite Htr.
  pose proof (page_base_range cur Hcur) as (Hr & _). rewrite PAGE_SIZE_eq.
  set (chunk := (n - Z.of_nat (length acc)) `min` (4096 - (cur - page_base cur))).
  assert (0 < chunk <= n - Z.of_nat (length acc) ∧ chunk <= 4096 - (cur - page_base cur)) as [Hchunk Hfit] by (unfold chunk; lia).
  rewrite (us_bytes rep round1 foreign w1 am1) by apply Hg1.
  pose proof (us_page rep round1 foreign w1 am1 (mp_frame m) (gd_rep _ _ _ _ _ _ _ _ Hg1)) as Hpage. rewrite PAGE_SIZE_eq in Hpage.
  set (piece := take (Z.to_nat chunk) _).
  assert (length piece = Z.to_nat chunk) as Hlen by (unfold piece; rewrite length_take, length_drop, Hpage; lia).
  sp_step. apply wp_res_ok_or; [|intros _; by exists am1].
  intros cur' Hc. unfold checked_add in Hc. case_bool_decide; simplify_eq.
  eapply wp_res_mono; [apply IH; [exact Hg1|split; [destruct Hcur|]; lia|rewrite length_app; lia]|..]; cbv beta.
  2:{ intros e s' (am' & Hg' & Hsame' & Hms'). exists am'. split; [done|]. split; [by eapply same_data_trans|]. by eapply mem_same_trans. }
  intros bytes s' (am' & more & Hg' & Hsame' & Hms' & -> & Hmore & Hmax & Hbytes). exists am', (piece ++ more).
  split; [done|]. split; [by eapply same_data_trans|]. split; [by eapply mem_same_trans|].
  split; [by rewrite app_assoc|]. rewrite length_app in Hmore |- *. split; [lia|]. split; [lia|]. intros Hwf i b Hib.
  assert (i < length (piece ++ more))%nat as Hi by by eapply lookup_lt_Some. rewrite length_app in Hi.
  rewrite <-(ms_bytes _ _ _ _ Hms1 Hwf) by (destruct Hcur; split; lia). destruct (decide (i < length piece)%nat).
  - rewrite lookup_app_l in Hib by done. unfold piece in Hib. apply lookup_take_Some in Hib as [Hib _].
    rewrite lookup_drop in Hib. rewrite (vbyte_page am1 sp1 cur m) by (done || lia). rewrite <-Hib. f_equal. lia.
  - rewrite lookup_app_r in Hib by lia. rewrite (same_frame_vmas _ _ (ms_frame _ _ _ _ Hms1)) in Hbytes.
    rewrite <-(Hbytes Hwf _ _ Hib). f_equal. lia.
Qed.

(** What the other spaces have to themselves is kept. *)
Definition keeps (rest : list UserAddressSpaceInner) (am am' : abstract) : Prop :=
  ∀ m, m ∈ all_mappings rest → mp_owned m = true → am_data am' (mp_frame m) = am_data am (mp_frame m).

Lemma same_keeps rest am am' : same_data rest am am' → keeps rest am am'.
Proof. intros H m Hm _. by apply H. Qed.

Lemma keeps_trans rest am1 am2 am3 : keeps rest am1 am2 → keeps rest am2 am3 → keeps rest am1 am3.
Proof. intros H12 H23 m Hm Ho. by rewrite H23, H12. Qed.

Lemma owned_held ext am sps m : 
  system round1 foreign ext am sps → m ∈ all_mappings sps → mp_owned m = true →
  ∃ n rc, mp_frame m = frame_of n ∧ am_blocks am !! n = Some (round1, rc) ∧ refers n m = true.
Proof.
  intros Hs Hm Ho. assert (holds m = true) as Hh by (unfold holds; by rewrite Ho).
  destruct (mo_held _ _ _ _ (sy_mapping _ _ _ _ _ Hs m Hm) Hh) as (n & rc & Hf & Hb).
  exists n, rc. split; [done|]. split; [done|]. by apply refers_frame.
Qed.

(** A page that can be written shares its frame with no private page. *)
Lemma written_frame ext rest sp w am m x :
  good ext rest sp w am → m ∈ mappings sp → mp_cow m = false → Z.testbit (mp_flags m) 1 = true →
  mp_owned x = true → mp_frame x = mp_frame m → x ∈ all_mappings (sp :: rest) → (x ∉ all_mappings rest) ∧ x = m.
Proof.
  intros [Hr Hs] Hm Hc Hw Hox Hf Hx. assert (m ∈ all_mappings (sp :: rest)) as Hma by (apply elem_of_app; by left).
  destruct (owned_held ext am _ x Hs Hx Hox) as (n & rc & Hfx & Hb & Hrx).
  destruct (holds m) eqn:Hh.
  2:{ pose proof (mo_foreign _ _ _ _ (sy_mapping _ _ _ _ _ Hs m Hma) Hh) as Hfor. rewrite <-Hf, Hfx in Hfor.
      by rewrite (us_foreign rep round1 foreign w am n) in Hb. }
  assert (mp_owned m = true) as Hom.
  { rewrite <-(sy_kind _ _ _ _ _ Hs x m Hx Hma); [done| |done|done]. unfold holds. by rewrite Hox. }
  assert (writable m = true) as Hwr by (unfold writable; by rewrite Hom, Hc, Hw).
  pose proof (sy_private _ _ _ _ _ Hs m n Hma Hwr ltac:(congruence)) as Hone.
  destruct (list_elem_of_split _ _ Hm) as (l1 & l2 & Hsplit).
  assert (refers n m = true) as Hrm by (apply refers_frame; split; [done|congruence]).
  rewrite all_mappings_cons, refs_app, Hsplit, refs_app, refs_cons, Hrm in Hone.
  pose proof (refs_nonneg l1 n). pose proof (refs_nonneg l2 n). pose proof (refs_nonneg (all_mappings rest) n).
  assert (x ∉ all_mappings rest) as Hnr by (intros Hxr; pose proof (refs_elem _ n x Hxr Hrx); lia).
  split; [done|]. apply elem_of_app in Hx as [Hx|Hx]; [|done]. rewrite Hsplit in Hx.
  apply elem_of_app in Hx as [Hx|[->|Hx]%elem_of_cons]; [|done|]; pose proof (refs_elem _ n x Hx Hrx); lia.
Qed.

(** The memory of [sp] with [buf] at [a]; pages that are shared with others
    may be mapped more than once. *)
Record mem_written (am : abstract) (sp : UserAddressSpaceInner) (a : Z) (buf : list Z) (am' : abstract)
    (sp' : UserAddressSpaceInner) : Prop := {
  mw_frame : same_frame sp sp';
  mw_private b : private sp' b ↔ private sp b;
  mw_cow b : not_cow sp b → not_cow sp' b;
  mw_pages : pages_from sp sp';
  mw_bytes : areas_wf (vmas sp) → ∀ b, in_u64 b → private sp b →
    vbyte am' sp' b = if decide (a <= b < a + Z.of_nat (length buf)) then buf !! Z.to_nat (b - a) else vbyte am sp b;
}.

Lemma page_written ext rest sp w am a m data :
  good ext rest sp w am → in_u64 a → page_of sp (page_base a) = Some m → mp_cow m = false →
  Z.testbit (mp_flags m) 1 = true → a - page_base a + Z.of_nat (length data) <= 4096 →
  let bs := write_at (Z.to_nat (a - page_base a)) data (am_data am (mp_frame m)) in
  good ext rest sp (um_set_bytes (mp_frame m) bs w) (set_data (mp_frame m) bs am) ∧
  keeps rest am (set_data (mp_frame m) bs am) ∧ mem_written am sp a data (set_data (mp_frame m) bs am) sp.
Proof.
  intros Hg Ha Hm Hc Hw Hlen bs. pose proof (good_sorted _ _ _ _ _ _ _ _ Hg) as Hsort.
  pose proof (us_page rep round1 foreign w am (mp_frame m) (gd_rep _ _ _ _ _ _ _ _ Hg)) as Hpage. rewrite PAGE_SIZE_eq in Hpage.
  pose proof (page_base_range a Ha) as (Hr & _).
  assert (Z.to_nat (a - page_base a) + length data <= length (am_data am (mp_frame m)))%nat as Hfit by (rewrite Hpage; lia).
  apply page_of_Some in Hm as Hm'; [|done]. destruct Hm' as [Hin Hk].
  assert (∀ x, x ∈ all_mappings (sp :: rest) → mp_owned x = true → mp_frame x = mp_frame m → (x ∉ all_mappings rest) ∧ x = m) as Huniq.
  { intros x Hx Ho Hf. by eapply written_frame. }
  split; [|split].
  - destruct Hg as [Hr' Hs]. split; [|by apply system_data]. apply (us_set_bytes rep round1 foreign); [done|].
    unfold bs. rewrite length_write_at by done. by rewrite Hpage, PAGE_SIZE_eq.
  - intros x Hx Ho. apply set_data_other. intros Hf. destruct (Huniq x) as [Hn _]; try done. apply elem_of_app. by right.
  - split; [apply same_frame_refl|done|done|apply pages_from_refl|]. intros _ b Hb Hpriv. pose proof (page_base_range b Hb) as (Hrb & _). unfold vbyte.
    destruct (page_of sp (page_base b)) as [x|] eqn:Hx.
    2:{ rewrite decide_False; [done|]. intros Hin'. assert (page_base b = page_base a) as Heq; [|congruence].
        replace b with (a + (b - a)) by lia. apply page_base_plus; [done|lia..]. }
    specialize (Hpriv x Hx). apply page_of_Some in Hx as Hx'; [|done]. destruct Hx' as [Hxin Hxk].
    destruct (decide (page_base b = page_base a)) as [Heq|Hne].
    + rewrite Heq in *. assert (x = m) as -> by congruence. rewrite set_data_same. unfold bs. rewrite lookup_write_at by done.
      destruct (decide (a <= b < a + Z.of_nat (length data))).
      * rewrite decide_True by lia. f_equal. lia.
      * rewrite decide_False by lia. done.
    + rewrite set_data_other.
      * rewrite decide_False; [done|]. intros Hin'. apply Hne.
        replace b with (a + (b - a)) by lia. apply page_base_plus; [done|lia..].
      * intros Hf. destruct (Huniq x) as [_ ->]; try done; [apply elem_of_app; by left|]. congruence.
Qed.

Lemma mem_written_join am sp am1 sp1 am2 sp2 am3 sp3 a buf1 buf2 :
  mem_same am sp am1 sp1 → mem_written am1 sp1 a buf1 am2 sp2 →
  mem_written am2 sp2 (a + Z.of_nat (length buf1)) buf2 am3 sp3 → mem_written am sp a (buf1 ++ buf2) am3 sp3.
Proof.
  intros [Hf1 Hp1 Hc1 Hg1 Hb1] [Hf2 Hp2 Hc2 Hg2 Hb2] [Hf3 Hp3 Hc3 Hg3 Hb3]. assert (same_frame sp sp2) as Hf12 by by eapply same_frame_trans.
  split; [by eapply same_frame_trans|intros b; by rewrite Hp3, Hp2, Hp1|by auto| |].
  { eapply (pages_from_trans _ sp2); [by apply same_frame_vmas| |done]. by eapply (pages_from_trans _ sp1); [apply same_frame_vmas|..]. }
  intros Hwf b Hb Hpriv.
  rewrite Hb3, Hb2, Hb1; try done; try (by rewrite (same_frame_vmas sp) by done); [|by apply Hp1|by apply Hp2, Hp1].
  rewrite length_app. repeat destruct (decide _); try lia; try done.
  - rewrite lookup_app_r by lia. f_equal. lia.
  - rewrite lookup_app_l by lia. done.
Qed.

(** A write that failed half-way: only the range is affected. *)
Record partly_written (am : abstract) (sp : UserAddressSpaceInner) (a n : Z) (am' : abstract)
    (sp' : UserAddressSpaceInner) : Prop := {
  pw_frame : same_frame sp sp';
  pw_private b : private sp' b ↔ private sp b;
  pw_pages : pages_from sp sp';
  pw_bytes : areas_wf (vmas sp) → ∀ b, in_u64 b → private sp b → ¬ a <= b < a + n → vbyte am' sp' b = vbyte am sp b;
}.

Lemma same_partly am sp a n am' sp' : mem_same am sp am' sp' → partly_written am sp a n am' sp'.
Proof. intros [Hf Hp _ Hg Hb]. split; [done|done|done|]. intros Hwf b Hbr _ _. by apply Hb. Qed.

Lemma written_partly am sp a buf n am' sp' :
  Z.of_nat (length buf) <= n → mem_written am sp a buf am' sp' → partly_written am sp a n am' sp'.
Proof.
  intros Hn [Hf Hp _ Hg Hb]. split; [done|done|done|]. intros Hwf b Hbr Hpr Hout. rewrite Hb by done. rewrite decide_False; [done|lia].
Qed.

Lemma partly_trans am1 sp1 am2 sp2 am3 sp3 a n b k :
  a <= b → b + k <= a + n →
  partly_written am1 sp1 a n am2 sp2 → partly_written am2 sp2 b k am3 sp3 → partly_written am1 sp1 a n am3 sp3.
Proof.
  intros Hab Hbk [Hf Hp Hg Hb] [Hf' Hp' Hg' Hb'].
  split; [by eapply same_frame_trans|intros x; by rewrite Hp', Hp|by eapply pages_from_trans; [apply same_frame_vmas|..]|].
  intros Hwf x Hx Hpr Hout. rewrite Hb', Hb; try done; [by rewrite (same_frame_vmas _ _ Hf)|by apply Hp|lia].
Qed.

Lemma write_loop_rule fuel ext rest sp w am buf cur copied :
  good ext rest sp w am → in_u64 cur → 0 <= copied → Z.of_nat (length buf) - copied <= Z.of_nat fuel →
  wp_res (write_loop fuel buf cur copied) (sp, w)
    (λ n s', ∃ am', n = Z.max copied (Z.of_nat (length buf)) ∧ good ext rest s'.1 s'.2 am' ∧ keeps rest am am' ∧
       mem_written am sp cur (drop (Z.to_nat copied) buf) am' s'.1)
    (λ _ s', (∃ am', rep s'.2 am' ∧ keeps rest am am') ∧
       ((∀ b, cur <= b < cur + (Z.of_nat (length buf) - copied) → in_u64 b → not_cow sp b) →
        ∃ am', good ext rest s'.1 s'.2 am' ∧ keeps rest am am' ∧
          partly_written am sp cur (Z.of_nat (length buf) - copied) am' s'.1)).
Proof.
  revert sp w am cur copied. induction fuel as [|fuel IH]; intros sp w am cur copied Hg Hcur H0 Hfuel; cbn [write_loop];
    (destruct (decide _) as [Hlt|Hge]; [|wp_run; exists am; split_and!; [lia|done|done|];
      rewrite drop_ge by lia; split; [apply same_frame_refl|done|done|apply pages_from_refl|intros _ b Hb _; rewrite decide_False; [done|simpl; lia]]]).
  { simpl in Hfuel. lia. }
  sp_step. eapply wp_res_mono; [by apply ensure_access_rule|..]; cbv beta.
  2:{ intros e s' [(am' & Hr & Hsame) Hst]. split; [exists am'; split; [done|by apply same_keeps]|]. intros Hn.
      destruct Hst as (am2 & Hg2 & Hsame2 & Hms2); [intros _; apply Hn; [lia|done]|]. exists am2. split; [done|].
      split; [by apply same_keeps|by apply same_partly]. }
  intros _ [sp1 w1] (am1 & Hg1 & Hsame1 & Hms1 & Hot & Hacc). cbn [fst snd] in *. wp_run.
  destruct (translate_accessible cur sp1 true Hcur Hacc) as (m & Hm & Htr & Hwm). cbn [fst snd]. rewrite Htr.
  destruct (Hwm eq_refl) as [Hc Hw]. pose proof (page_base_range cur Hcur) as (Hr & _). rewrite PAGE_SIZE_eq.
  set (chunk := (Z.of_nat (length buf) - copied) `min` (4096 - (cur - page_base cur))).
  assert (0 < chunk <= Z.of_nat (length buf) - copied ∧ chunk <= 4096 - (cur - page_base cur)) as [Hchunk Hfit] by (unfold chunk; lia).
  unfold write_frame_partial. sp_step. sp_step. rewrite (us_bytes rep round1 foreign w1 am1) by apply Hg1.
  set (piece := take (Z.to_nat chunk) (drop (Z.to_nat copied) buf)).
  assert (length piece = Z.to_nat chunk) as Hlen by (unfold piece; rewrite length_take, length_drop; lia).
  destruct (page_written ext rest sp1 w1 am1 cur m piece Hg1 Hcur Hm Hc Hw ltac:(lia)) as (Hg2 & Hk2 & Hmw2).
  assert (keeps rest am (set_data (mp_frame m) (write_at (Z.to_nat (cur - page_base cur)) piece (am_data am1 (mp_frame m))) am1)) as Hk.
  { eapply keeps_trans; [by apply same_keeps|done]. }
  assert (partly_written am sp cur (Z.of_nat (length buf) - copied)
    (set_data (mp_frame m) (write_at (Z.to_nat (cur - page_base cur)) piece (am_data am1 (mp_frame m))) am1) sp1) as Hpw.
  { apply (partly_trans _ _ am1 sp1 _ _ _ _ cur (Z.of_nat (length piece))); [lia..|by apply same_partly|]. by apply (written_partly _ _ _ piece). }
  sp_step. apply wp_res_ok_or; [|intros _; split; [eexists; split; [apply Hg2|done]|intros _; by eexists]].
  intros cur' Hcu. unfold checked_add in Hcu. case_bool_decide; simplify_eq.
  eapply wp_res_mono; [apply (IH _ _ _ (cur + chunk) (copied + chunk) Hg2); [split; [destruct Hcur|]; lia|lia..]|..]; cbv beta.
  2:{ intros e s' [(am' & Hr' & Hk') Hst]. split; [exists am'; split; [done|by eapply keeps_trans]|]. intros Hn.
      destruct Hst as (am2 & Hg3 & Hk3 & Hpw3).
      - intros b Hb Hbu x Hx. destruct (decide (page_base b = page_base cur)) as [Heq|Hne]; [congruence|].
        rewrite Hot in Hx by done. apply (Hn b); [lia|done|done].
      - exists am2. split; [done|]. split; [by eapply keeps_trans|].
        eapply (partly_trans _ _ _ _ _ _ _ _ (cur + chunk)); [| |exact Hpw|exact Hpw3]; lia. }
  intros n s' (am' & -> & Hg' & Hk' & Hmw'). exists am'. split; [lia|]. split; [done|]. split; [by eapply keeps_trans|].
  replace (drop (Z.to_nat copied) buf) with (piece ++ drop (Z.to_nat (copied + chunk)) buf).
  - eapply mem_written_join; [done|exact Hmw2|]. rewrite Hlen, Z2Nat.id by lia. done.
  - unfold piece. rewrite Z2Nat.inj_add by lia. rewrite <-drop_drop. apply take_drop.
Qed.
End faults.
