(* ===== verification/SpaceFork.v ===== *)
(** * Creating, forking and dropping address spaces

    [new_space], [drop_space] and [fork_cow] of [UserSpace] on a system of
    spaces: a fork adds a space with the memory of its parent, and nobody can
    write a page of the other without taking a copy first. *)

From S2P Require Import Prelude Frame RangeList PageTable Image Vma VmaProof UserSpace SpaceApi SpaceInv SpaceProof SpaceFault.

#[local] Arguments Z.testbit : simpl never.

(** ** Spaces come and go *)

Section spaces.
Context (round1 : Z) (foreign : PhysFrame → Prop).

Abbreviation system := (system round1 foreign).

Lemma system_perm ext am sps sps' : sps ≡ₚ sps' → system ext am sps → system ext am sps'.
Proof.
  intros Hp Hs. assert (all_mappings sps ≡ₚ all_mappings sps') as Ha by (unfold all_mappings; by rewrite Hp).
  assert (∀ sp, sp ∈ sps' → sp ∈ sps) as Hin by (intros sp; by rewrite Hp).
  assert (∀ m, m ∈ all_mappings sps' → m ∈ all_mappings sps) as Hmin by (intros m; by rewrite Ha).
  destruct Hs. split; try (by eauto).
  - by rewrite <-Hp.
  - intros root V HV. rewrite <-Hp. eauto.
  - intros s len rc Hb. rewrite <-Ha. eauto.
  - intros m s Hm Hw Hf. rewrite <-Ha. eauto.
Qed.

(** A space without mappings. *)
Lemma system_new ext am sps sp :
  system ext am sps → am_spaces am !! space_root sp = None → mappings sp = [] → Forall area_ok (vmas sp) →
  system ext (set_space (space_root sp) ∅ am) (sp :: sps).
Proof.
  intros Hs Hn Hm Ha. assert (space_root sp ∉ (space_root <$> sps)) as Hnin.
  { intros (x & Hx & Hin)%list_elem_of_fmap. destruct (sy_view _ _ _ _ _ Hs x Hin) as (V & HV & _). congruence. }
  assert (all_mappings (sp :: sps) = all_mappings sps) as Hall by (by rewrite all_mappings_cons, Hm).
  destruct Hs. split; try (by rewrite ?Hall; eauto).
  - simpl. by apply NoDup_cons.
  - intros x [->|Hx]%elem_of_cons; simpl.
    + exists ∅. rewrite lookup_insert_eq, Hm. split; [done|]. intros va f fl. rewrite lookup_empty. split; [done|].
      intros (m & Hin & _). set_solver.
    + rewrite lookup_insert_ne; [by apply sy_view|]. intros Heq. apply Hnin. rewrite Heq. by apply list_elem_of_fmap_2.
  - intros x [->|Hx]%elem_of_cons; [by rewrite Hm|by apply sy_sorted].
  - intros x v [->|Hx]%elem_of_cons; [|by apply sy_areas]. intros Hv. rewrite Forall_forall in Ha. by apply Ha.
  - simpl. intros root V [[<- <-]|[Hne HV]]%lookup_insert_Some; [by right|].
    destruct (sy_others root V HV) as [Hin|]; [left; set_solver|by right].
  - rewrite Hall. intros m Hin. destruct (sy_mapping m Hin). by split.
Qed.

(** It may be forgotten. *)
Lemma system_forget ext am sp sps : system ext am (sp :: sps) → mappings sp = [] → system ext am sps.
Proof.
  intros Hs Hm. assert (all_mappings (sp :: sps) = all_mappings sps) as Hall by (by rewrite all_mappings_cons, Hm).
  destruct Hs. rewrite Hall in *. split; try done.
  - by apply NoDup_cons in sy_roots as [_ ?].
  - intros x Hx. apply sy_view. set_solver.
  - intros x Hx. apply sy_sorted. set_solver.
  - intros x v Hx. apply sy_areas. set_solver.
  - intros root V HV. destruct (sy_others root V HV) as [Hin|]; [|by right]. simpl in Hin.
    apply elem_of_cons in Hin as [->|Hin]; [|by left]. right.
    destruct (sy_view sp (list_elem_of_here _ _)) as (V' & HV' & Hview). rewrite HV in HV'. simplify_eq.
    apply map_empty. intros va. apply eq_None_not_Some. intros [[f fl] (m & Hin & _)%Hview]. rewrite Hm in Hin. set_solver.
Qed.

(** Two mappings of one frame. *)
Lemma refs_two ms n x y : x ∈ ms → y ∈ ms → x ≠ y → refers n x = true → refers n y = true → 2 <= refs ms n.
Proof.
  intros (l1 & l2 & ->)%list_elem_of_split Hy Hne Hx Hyr. rewrite refs_app, refs_cons, Hx.
  pose proof (refs_nonneg l1 n). pose proof (refs_nonneg l2 n).
  apply elem_of_app in Hy as [Hy|[->|Hy]%elem_of_cons]; [|done|]; pose proof (refs_elem _ n y Hy Hyr); lia.
Qed.
End spaces.

Section forks.
Context {W : Type} {U : UserMachine W} (rep : W → abstract → Prop) (round1 : Z) (foreign : PhysFrame → Prop).
Context (US : UserMachineSpec rep round1 foreign).
Implicit Types (sp parent child : UserAddressSpaceInner) (w : W) (am : abstract) (rest : list UserAddressSpaceInner).

Abbreviation system := (system round1 foreign).
Abbreviation good := (good rep round1 foreign).

(** ** Dropping *)

Lemma drop_entry root m sx w (Q : unit → UserAddressSpaceInner * W → Prop) :
  wp_res (unmap_entry root m) (sx, w) Q (λ _ _, False) →
  wp_res (if mp_owned m then ignore (on_machine BuildMap (um_unmap root (mp_virt m)))
          else
            _ ← ignore (on_machine BuildMap (um_unmap_preserve root (mp_virt m)));
            if mp_shared m then release_frames (mp_frame m) else mret ()) (sx, w) Q (λ _ _, False).
Proof.
  unfold unmap_entry. destruct (mp_owned m).
  - unfold wp_res, wp, mbind, M_bind, ignore, on_machine. simpl. by destruct (um_unmap root (mp_virt m) w) as [[]].
  - unfold wp_res, wp, mbind, M_bind, ignore, on_machine. simpl. by destruct (um_unmap_preserve root (mp_virt m) w) as [[]].
Qed.

Lemma drop_mappings_rule ext rest sp sx w am :
  good ext rest sp w am → space_root sx = space_root sp →
  wp_res (drop_mappings (rev (mappings sp))) (sx, w)
    (λ _ s', ∃ am', rep s'.2 am' ∧ system ext am' rest ∧ am_data am' = am_data am) (λ _ _, False).
Proof.
  remember (mappings sp) as ms eqn:Hms. revert sp w am Hms.
  induction ms as [|m ms IH] using rev_ind; intros sp w am Hms Hg Hroot.
  { simpl. sp_run. exists am. split; [apply Hg|]. split; [|done]. eapply system_forget; [apply Hg|done]. }
  rewrite rev_app_distr. cbn [rev app drop_mappings]. sp_step. sp_step. rewrite Hroot. sp_step. apply drop_entry.
  pose proof (good_sorted _ _ _ _ _ _ _ _ Hg) as Hsort. rewrite <-Hms in Hsort.
  set (sp' := set_mappings ms sp). eapply wp_res_mono; [apply (unmap_entry_rule rep round1 foreign US ext rest sp sp' sx w am m Hg)|..]; cbv beta; try done.
  - eapply sorted_keys_sublist; [|exact Hsort]. simpl. by apply sublist_inserts_r.
  - rewrite <-Hms. simpl. by rewrite Permutation_app_comm.
  - intros _ [sx' w'] (am' & Hsx & Hg' & Hd). simpl in Hsx. subst sx'.
    eapply wp_res_mono; [by apply (IH sp' w' am')|..]; cbv beta; [|done].
    intros _ s' (am2 & Hr & Hs & Hd2). exists am2. split; [done|]. split; [done|]. congruence.
Qed.

Lemma drop_space_rule ext rest sp w am :
  good ext rest sp w am →
  wp_res drop_space (sp, w)
    (λ _ s', ∃ am', rep s'.2 am' ∧ system ext am' rest ∧ am_data am' = am_data am) (λ _ _, False).
Proof. intros Hg. unfold drop_space. sp_run. by apply (drop_mappings_rule ext rest sp). Qed.

Lemma new_space_rule ext sps w am :
  rep w am → system ext am sps →
  wp_res new_space w
    (λ sp w', mappings sp = [] ∧ vmas sp = [] ∧ am_spaces am !! space_root sp = None ∧
       rep w' (set_space (space_root sp) ∅ am))
    (λ _ w', rep w' am).
Proof.
  intros Hr Hs. pose proof (us_new_root rep round1 foreign w am Hr) as Hroot. unfold new_space. revert Hroot.
  unfold wp_res, wp. destruct (um_new_user_root w) as [[]]; simpl; tauto.
Qed.

(** ** One page of a fork *)

(** A private page that could be written is shared until one side writes. *)
Definition becomes_cow (m : UserMapping) : bool :=
  mp_cow m || MapFlags.contains (mp_flags m) (MapFlags.bitor MapFlags.WRITE MapFlags.USER).
Definition forked_flags (m : UserMapping) : Z :=
  if becomes_cow m then MapFlags.without (mp_flags m) MapFlags.WRITE else mp_flags m.

Definition child_mapping (m : UserMapping) : UserMapping :=
  if mp_owned m then mkMapping (mp_virt m) (mp_frame m) (forked_flags m) (becomes_cow m) true false
  else mkMapping (mp_virt m) (mp_frame m) (mp_flags m) false false (mp_shared m).

Definition parent_mapping (m : UserMapping) : UserMapping :=
  if mp_owned m && becomes_cow m && negb (mp_cow m)
  then mkMapping (mp_virt m) (mp_frame m) (forked_flags m) true (mp_owned m) (mp_shared m) else m.

Definition with_last (m : UserMapping) (sp : UserAddressSpaceInner) : UserAddressSpaceInner :=
  set_mappings (mappings sp ++ [m]) sp.

Lemma forked_not_writable am m :
  mapping_ok round1 foreign am m → mp_owned m = true → Z.testbit (forked_flags m) 1 = false.
Proof.
  intros Hmo Ho. unfold forked_flags. destruct (becomes_cow m) eqn:Hb; [apply without_write|].
  unfold becomes_cow in Hb. apply orb_false_iff in Hb as [_ Hb]. rewrite contains_write_user, (mo_user _ _ _ _ Hmo Ho) in Hb.
  by rewrite andb_true_r in Hb.
Qed.

Lemma forked_flags_user m : Z.testbit (forked_flags m) 3 = Z.testbit (mp_flags m) 3.
Proof. unfold forked_flags. destruct (becomes_cow m); [apply without_user|done]. Qed.

Lemma child_mapping_key m : mkey (child_mapping m) = mkey m ∧ mp_frame (child_mapping m) = mp_frame m ∧
  mp_owned (child_mapping m) = mp_owned m ∧ holds (child_mapping m) = holds m.
Proof. unfold child_mapping, holds. destruct (mp_owned m) eqn:Ho; [done|]. simpl. by rewrite ?Ho. Qed.

Lemma parent_mapping_key m : mkey (parent_mapping m) = mkey m ∧ mp_frame (parent_mapping m) = mp_frame m ∧
  mp_owned (parent_mapping m) = mp_owned m ∧ holds (parent_mapping m) = holds m.
Proof. unfold parent_mapping, holds. by destruct (mp_owned m && becomes_cow m && negb (mp_cow m)). Qed.

Lemma child_not_writable am m : mapping_ok round1 foreign am m → writable (child_mapping m) = false.
Proof.
  intros Hmo. unfold writable, child_mapping. destruct (mp_owned m) eqn:Ho; [|done]. simpl.
  rewrite (forked_not_writable am m) by done. apply andb_false_r.
Qed.

Lemma parent_not_writable am m : mapping_ok round1 foreign am m → writable (parent_mapping m) = false.
Proof.
  intros Hmo. unfold writable, parent_mapping. destruct (mp_owned m) eqn:Ho; [|simpl; by rewrite Ho].
  destruct (becomes_cow m) eqn:Hb; simpl.
  - destruct (mp_cow m) eqn:Hc; simpl; rewrite ?Ho, ?Hc; done.
  - pose proof (forked_not_writable am m Hmo Ho) as Hw. unfold forked_flags in Hw. rewrite Hb in Hw. rewrite Hw.
    by rewrite andb_false_r.
Qed.

Lemma child_mapping_ok am am' m :
  mapping_ok round1 foreign am m →
  (∀ n rc, mp_frame m = frame_of n → am_blocks am !! n = Some (round1, rc) → ∃ rc', am_blocks am' !! n = Some (round1, rc')) →
  mapping_ok round1 foreign am' (child_mapping m).
Proof.
  intros Hmo Hb. destruct (child_mapping_key m) as (Hk & Hf & Ho & Hh). split.
  - rewrite Hk. apply (mo_page _ _ _ _ Hmo).
  - rewrite Hh, Hf. intros H. destruct (mo_held _ _ _ _ Hmo H) as (n & rc & Hfr & Hblk).
    destruct (Hb n rc Hfr Hblk) as (rc' & Hb'). eauto.
  - rewrite Hh, Hf. apply (mo_foreign _ _ _ _ Hmo).
  - unfold child_mapping. destruct (mp_owned m) eqn:Hom; [|done]. simpl. intros _. split; [done|]. by eapply forked_not_writable.
  - rewrite Ho. intros Hom. unfold child_mapping. rewrite Hom. simpl. rewrite forked_flags_user. by apply (mo_user _ _ _ _ Hmo).
Qed.

(** The mapping that a frame has already does not stand in the way of another
    one that cannot be written. *)
Lemma sharing ext am sps p x :
  system ext am sps → p ∈ all_mappings sps → x ∈ all_mappings sps → holds p = true → holds x = true →
  mp_frame x = mp_frame p → writable p = false → writable x = false ∧ mp_owned x = mp_owned p.
Proof.
  intros Hs Hp Hx Hhp Hhx Hf Hw. split; [|by apply (sy_kind _ _ _ _ _ Hs)].
  apply not_true_is_false. intros Hwx. destruct (mo_held _ _ _ _ (sy_mapping _ _ _ _ _ Hs p Hp) Hhp) as (n & rc & Hfp & _).
  pose proof (sy_private _ _ _ _ _ Hs x n Hx Hwx ltac:(congruence)) as Hone.
  assert (2 <= refs (all_mappings sps) n); [|lia]. eapply (refs_two _ n x p); try done; [congruence|..].
  - apply refers_frame. split; [done|congruence].
  - by apply refers_frame.
Qed.

(** The child gets a mapping of a frame that its parent maps, and a reference
    that the caller holds. *)
Lemma fork_add ext am parent child rest V m p :
  system ext am (child :: parent :: rest) → am_spaces am !! space_root child = Some V → V !! mkey m = None →
  p ∈ mappings parent → mp_frame p = mp_frame m → mp_owned p = mp_owned m → holds p = holds m → writable p = false →
  mapping_ok round1 foreign am (child_mapping m) → writable (child_mapping m) = false →
  (∀ n, refers n m = true → 1 <= ext n) → (∀ x, x ∈ mappings child → mkey x < mkey m) →
  system (give ext m (-1))
    (set_space (space_root child) (<[mkey m := (mp_frame m, mp_flags (child_mapping m))]> V) am)
    (with_last (child_mapping m) child :: parent :: rest).
Proof.
  intros Hs HV Hn Hp Hfp Hop Hhp Hwp Hmo Hw Hext Hlast. destruct (child_mapping_key m) as (Hk & Hf & Ho & Hh).
  assert (∀ s, refers s (child_mapping m) = refers s m) as Hr by (intros s; unfold refers; by rewrite Hh, Hf).
  assert (p ∈ all_mappings (child :: parent :: rest)) as Hpa.
  { rewrite !all_mappings_cons. apply elem_of_app. right. apply elem_of_app. by left. }
  rewrite <-Hk, <-Hf. eapply system_ext; [|eapply (system_add round1 foreign ext am child _ (parent :: rest) V (child_mapping m) Hs HV)];
    try done.
  - intros s. unfold give. by rewrite Hr.
  - by rewrite Hk.
  - simpl. intros i j x y Hij Hx Hy. pose proof (sy_sorted _ _ _ _ _ Hs child (list_elem_of_here _ _)) as Hsort.
    destruct (decide (j < length (mappings child))%nat).
    + rewrite lookup_app_l in Hx, Hy by lia. by apply (Hsort i j).
    + rewrite lookup_app_r in Hy by lia. apply list_lookup_singleton_Some in Hy as [Hj <-].
      rewrite lookup_app_l in Hx by lia. rewrite Hk. apply Hlast. by eapply list_elem_of_lookup_2.
  - simpl. by rewrite Permutation_app_comm.
  - intros s. rewrite Hr. apply Hext.
  - intros x Hx Hhx Hhm Hfx. rewrite Ho, Hw, <-Hop.
    destruct (sharing ext am _ p x Hs Hpa Hx) as [H1 H2]; try done; congruence || by split_and!.
Qed.

Lemma wp_on_child {A} (op : MU (W := W) A) parent s Q Qe :
  wp_res op s (λ a s', Q a (parent, s')) (λ e s', Qe e (parent, s')) → wp_res (on_child op) (parent, s) Q Qe.
Proof. unfold wp_res, wp, on_child. simpl. destruct (op s) as [[] ?]; done. Qed.

(** The state of a fork: the parent, the child and the machine. *)
Definition forking (ext : Z → Z) (rest : list UserAddressSpaceInner) (am : abstract)
    (s : UserAddressSpaceInner * (UserAddressSpaceInner * W)) : Prop :=
  ∃ am', good ext (s.1 :: rest) s.2.1 s.2.2 am' ∧ am_data am' = am_data am.

(** A failure may lose a reference. *)
Definition fork_failed (ext : Z → Z) (rest : list UserAddressSpaceInner) (am : abstract)
    (s0 s : UserAddressSpaceInner * (UserAddressSpaceInner * W)) : Prop :=
  ∃ ext', (∀ n, ext n <= ext' n) ∧ forking ext' rest am s ∧ s.1 = s0.1 ∧ s.2.1 = s0.2.1.

Lemma retain_rule ext rest sp w am m :
  good ext rest sp w am → m ∈ all_mappings (sp :: rest) → holds m = true →
  wp_res (on_machine BuildFrame (fa_retain (mp_frame m))) (sp, w)
    (λ _ s', ∃ am' n, s'.1 = sp ∧ mp_frame m = frame_of n ∧ good (give ext m 1) rest sp s'.2 am' ∧
       am_data am' = am_data am ∧ am_spaces am' = am_spaces am ∧
       ∀ n' rc, am_blocks am !! n' = Some (round1, rc) → ∃ rc', am_blocks am' !! n' = Some (round1, rc'))
    (λ _ s', s'.1 = sp ∧ good ext rest sp s'.2 am).
Proof.
  intros [Hr Hs] Hm Hh. sp_step. eapply wp_res_mono; [by apply (us_retain rep round1 foreign w am)|..]; cbv beta; [|done].
  intros _ w' (n & len & rc & Hf & Hb & Hr'). eexists _, n. split; [done|]. split; [done|]. split; [split; [exact Hr'|]|].
  - eapply system_ext; [|by apply (system_retain round1 foreign ext am _ n len rc)].
    intros s. unfold give, upd. rewrite (refers_same n) by done. rewrite Hh. simpl.
    case_bool_decide; destruct (decide _); subst; try done; lia.
  - split; [done|]. split; [done|]. intros n' rc' Hb'. simpl. destruct (decide (n' = n)) as [->|].
    + rewrite lookup_insert_eq. simplify_eq. eauto.
    + rewrite lookup_insert_ne by done. eauto.
Qed.

Lemma change_mapping_id k m sp : mappings sp !! k = Some m → change_mapping k m sp = sp.
Proof. intros Hm. unfold change_mapping. rewrite list_insert_id by done. apply eq_sym, same_frame_refl. Qed.

Lemma good_parent ext rest parent child w am :
  good ext (parent :: rest) child w am → sorted_keys (mappings parent) ∧
  (∃ V, am_spaces am !! space_root parent = Some V ∧ view_ok V (mappings parent)) ∧
  (∀ m, m ∈ mappings parent → m ∈ all_mappings (child :: parent :: rest) ∧ mapping_ok round1 foreign am m) ∧
  space_root parent ≠ space_root child.
Proof.
  intros [_ Hs]. assert (parent ∈ child :: parent :: rest) as Hp by set_solver. split; [by apply (sy_sorted _ _ _ _ _ Hs)|].
  split; [by apply (sy_view _ _ _ _ _ Hs)|]. split.
  - intros m Hm. assert (m ∈ all_mappings (child :: parent :: rest)) as Hma by (apply list_elem_of_bind; eauto).
    split; [done|]. by apply (sy_mapping _ _ _ _ _ Hs).
  - pose proof (sy_roots _ _ _ _ _ Hs) as Hnd. simpl in Hnd. apply NoDup_cons in Hnd as [Hnin _]. set_solver.
Qed.

(** Mapping a frame of the parent into the child. *)
Lemma fork_map_rule ext rest parent child w am m fl :
  good ext (parent :: rest) child w am → mapping_ok round1 foreign am m →
  ∃ V, am_spaces am !! space_root child = Some V ∧
  wp_res (on_machine BuildMap (um_map (space_root child) (mp_virt m) (mp_frame m) fl)) (child, w)
    (λ _ s', s'.1 = child ∧ V !! mkey m = None ∧
       rep s'.2 (set_space (space_root child) (<[mkey m := (mp_frame m, fl)]> V) am))
    (λ _ s', s'.1 = child ∧ good ext (parent :: rest) child s'.2 am).
Proof.
  intros Hg Hmo. destruct (good_space _ _ _ _ _ _ _ _ Hg) as (V & HV & _). exists V. split; [done|]. pose proof Hg as [Hr Hs].
  sp_step. rewrite virt_mkey.
  eapply wp_res_mono; [apply (us_map rep round1 foreign w am _ V (mkey m) (mp_frame m) fl Hr HV)|..]; cbv beta.
  - apply (mo_page _ _ _ _ Hmo).
  - destruct (holds m) eqn:Hh; [left|right; by apply (mo_foreign _ _ _ _ Hmo)].
    destruct (mo_held _ _ _ _ Hmo Hh) as (n & rc & Hf & Hb). eauto.
  - intros _ w' [Hn Hr']. done.
  - intros e w' Hr'. done.
Qed.

Lemma give_back ext m n : give (give ext m 1) m (-1) n = ext n.
Proof. unfold give. destruct (refers n m); lia. Qed.

Lemma give_le ext m n : ext n <= give ext m 1 n.
Proof. unfold give. destruct (refers n m); lia. Qed.

(** The parent's page can no longer be written. *)
Lemma fork_protect ext am parent child rest V k m :
  system ext am (child :: parent :: rest) → am_spaces am !! space_root parent = Some V →
  mappings parent !! k = Some m → mapping_ok round1 foreign am m → mp_owned m = true → becomes_cow m = true → mp_cow m = false →
  system ext (set_space (space_root parent) (<[mkey m := (mp_frame m, forked_flags m)]> V) am)
    (child :: change_mapping k (parent_mapping m) parent :: rest).
Proof.
  intros Hs HV Hm Hmo Ho Hb Hc.
  assert (parent_mapping m = mkMapping (mp_virt m) (mp_frame m) (forked_flags m) true (mp_owned m) (mp_shared m)) as Hpm.
  { unfold parent_mapping. by rewrite Ho, Hb, Hc. }
  pose proof (sy_sorted _ _ _ _ _ Hs parent ltac:(set_solver)) as Hsort.
  eapply system_perm; [apply Permutation_swap|]. apply (system_perm _ _ _ _ _ (parent :: child :: rest)) in Hs; [|apply Permutation_swap].
  change (forked_flags m) with (mp_flags (mkMapping (mp_virt m) (mp_frame m) (forked_flags m) true (mp_owned m) (mp_shared m))).
  rewrite <-Hpm. eapply (system_update round1 foreign ext am parent _ (child :: rest) V m (parent_mapping m) (vec_remove k (mappings parent))); try done.
  - eapply sorted_keys_update; [done..|]. apply parent_mapping_key.
  - by apply vec_remove_Permutation.
  - by eapply update_Permutation.
  - apply parent_mapping_key.
  - apply parent_mapping_key.
  - apply parent_mapping_key.
  - by rewrite Hpm.
  - rewrite Hpm. simpl. intros _. split; [done|]. by eapply forked_not_writable.
  - rewrite Hpm. simpl. intros _. rewrite forked_flags_user. by apply (mo_user _ _ _ _ Hmo).
  - by rewrite (parent_not_writable am m Hmo).
Qed.

Definition fork_step (k : nat) (m : UserMapping) (s0 s : UserAddressSpaceInner * (UserAddressSpaceInner * W)) : Prop :=
  s.1 = change_mapping k (parent_mapping m) s0.1 ∧ s.2.1 = with_last (child_mapping m) s0.2.1.

(** Pages that the parent does not own are mapped as they are. *)
Lemma fork_unowned ext rest parent child w am k m :
  good ext (parent :: rest) child w am → mappings parent !! k = Some m → mp_owned m = false →
  (∀ x, x ∈ mappings child → mkey x < mkey m) →
  wp_res (_ ← (if mp_shared m then _ ← on_child (on_machine BuildFrame (fa_retain (mp_frame m))); mret () else mret ());
          _ ← on_child (on_machine BuildMap (um_map (space_root child) (mp_virt m) (mp_frame m) (mp_flags m)));
          on_child (push_mapping (mkMapping (mp_virt m) (mp_frame m) (mp_flags m) false false (mp_shared m))))
    (parent, (child, w))
    (λ _ s', forking ext rest am s' ∧ fork_step k m (parent, (child, w)) s')
    (λ _ s', fork_failed ext rest am (parent, (child, w)) s').
Proof.
  intros Hg Hm Ho Hlast. destruct (good_parent _ _ _ _ _ _ Hg) as (Hsort & _ & Hpm & _).
  assert (m ∈ mappings parent) as Hmin by by eapply list_elem_of_lookup_2. destruct (Hpm m Hmin) as [Hma Hmo].
  assert (parent_mapping m = m) as Hpar by (unfold parent_mapping; by rewrite Ho).
  assert (child_mapping m = mkMapping (mp_virt m) (mp_frame m) (mp_flags m) false false (mp_shared m)) as Hchild.
  { unfold child_mapping. by rewrite Ho. }
  assert (∀ w1 am1, good (give ext m 1) (parent :: rest) child w1 am1 → am_data am1 = am_data am → mapping_ok round1 foreign am1 m →
    wp_res (_ ← on_child (on_machine BuildMap (um_map (space_root child) (mp_virt m) (mp_frame m) (mp_flags m)));
            on_child (push_mapping (child_mapping m))) (parent, (child, w1))
      (λ _ s', forking ext rest am s' ∧ fork_step k m (parent, (child, w)) s')
      (λ _ s', fork_failed ext rest am (parent, (child, w)) s')) as Hmap.
  { intros w1 am1 Hg1 Hd1 Hmo1. sp_step. apply wp_on_child.
    destruct (fork_map_rule _ _ _ _ _ _ m (mp_flags m) Hg1 Hmo1) as (V & HV & Hrule).
    eapply wp_res_mono; [exact Hrule|..]; cbv beta.
    - intros _ [child' w2] (Hch & Hn & Hr2). simpl in Hch. subst child'. apply wp_on_child. unfold push_mapping. sp_step.
      split.
      + eexists. split; [split; [exact Hr2|]|done]. eapply system_ext; [intros n; symmetry; apply (give_back ext m)|].
        replace (mp_flags m) with (mp_flags (child_mapping m)) by by rewrite Hchild.
        apply (fork_add _ _ _ _ _ _ _ m (gd_system _ _ _ _ _ _ _ _ Hg1)); try done.
        * unfold writable. by rewrite Ho.
        * eapply child_mapping_ok; [exact Hmo1|]. eauto.
        * by eapply child_not_writable.
        * intros n Hr. unfold give. rewrite Hr. pose proof (sy_ext _ _ _ _ _ (gd_system _ _ _ _ _ _ _ _ Hg) n). lia.
      + split; [|done]. simpl. by rewrite Hpar, change_mapping_id.
    - intros e [child' w2] (Hch & Hg2). simpl in *. subst child'. exists (give ext m 1). split; [apply give_le|].
      split; [|done]. by exists am1. }
  rewrite <-Hchild. sp_step. destruct (mp_shared m) eqn:Hsh.
  - sp_step. apply wp_on_child. eapply wp_res_mono; [apply (retain_rule ext _ child w am m Hg Hma)|..]; cbv beta.
    + unfold holds. by rewrite Ho, Hsh.
    + intros _ [child' w1] (am1 & n & Hch & Hf & Hg1 & Hd1 & Hsp1 & Hb1). simpl in Hch. subst child'. sp_step.
      apply (Hmap w1 am1); [done|done|]. by apply (good_parent _ _ _ _ _ _ Hg1).
    + intros e [child' w1] [Hch Hg1]. simpl in *. subst child'. exists ext. split; [done|]. split; [|done]. by exists am.
  - sp_step. apply (Hmap w am); [|done|done]. destruct Hg as [Hr Hs]. split; [done|]. eapply system_ext; [|exact Hs].
    intros n. unfold give, refers, holds. rewrite Ho, Hsh. simpl. lia.
Qed.

Lemma set_space_comm r1 r2 V1 V2 am : r1 ≠ r2 → set_space r1 V1 (set_space r2 V2 am) = set_space r2 V2 (set_space r1 V1 am).
Proof. intros Hne. unfold set_space. simpl. f_equal. by apply insert_insert_ne. Qed.

(** Private pages are shared, read-only. *)
Lemma fork_owned ext rest parent child w am k m :
  good ext (parent :: rest) child w am → mappings parent !! k = Some m → mp_owned m = true →
  (∀ x, x ∈ mappings child → mkey x < mkey m) →
  wp_res (_ ← on_child (on_machine BuildFrame (fa_retain (mp_frame m)));
          _ ← on_child (on_machine BuildMap (um_map (space_root child) (mp_virt m) (mp_frame m) (forked_flags m)));
          _ ← (if becomes_cow m && negb (mp_cow m) then
                 _ ← on_child (on_machine BuildMap (um_protect (space_root parent) (mp_virt m) (forked_flags m)));
                 mmodify (λ s, (set_mappings (<[k := mkMapping (mp_virt m) (mp_frame m) (forked_flags m) true
                                                     (mp_owned m) (mp_shared m)]> (mappings s.1)) s.1, s.2))
               else mret ());
          on_child (push_mapping (mkMapping (mp_virt m) (mp_frame m) (forked_flags m) (becomes_cow m) true false)))
    (parent, (child, w))
    (λ _ s', forking ext rest am s' ∧ fork_step k m (parent, (child, w)) s')
    (λ _ s', fork_failed ext rest am (parent, (child, w)) s').
Proof.
  intros Hg Hm Ho Hlast. destruct (good_parent _ _ _ _ _ _ Hg) as (Hsort & _ & Hpm & _).
  assert (m ∈ mappings parent) as Hmin by by eapply list_elem_of_lookup_2. destruct (Hpm m Hmin) as [Hma Hmo].
  assert (child_mapping m = mkMapping (mp_virt m) (mp_frame m) (forked_flags m) (becomes_cow m) true false) as Hchild.
  { unfold child_mapping. by rewrite Ho. }
  rewrite <-Hchild. sp_step. apply wp_on_child.
  eapply wp_res_mono; [apply (retain_rule ext _ child w am m Hg Hma)|..]; cbv beta.
  { unfold holds. by rewrite Ho. }
  2:{ intros e [child' w1] [Hch Hg1]. simpl in *. subst child'. exists ext. split; [done|]. split; [|done]. by exists am. }
  intros _ [child' w1] (am1 & n & Hch & Hf & Hg1 & Hd1 & Hsp1 & Hb1). simpl in Hch. subst child'. sp_step. apply wp_on_child.
  destruct (good_parent _ _ _ _ _ _ Hg1) as (_ & (Vp & HVp & Hview) & Hpm1 & Hroots). destruct (Hpm1 m Hmin) as [_ Hmo1].
  destruct (fork_map_rule _ _ _ _ _ _ m (forked_flags m) Hg1 Hmo1) as (V & HV & Hrule).
  eapply wp_res_mono; [exact Hrule|..]; cbv beta.
  2:{ intros e [child' w2] (Hch & Hg2). simpl in *. subst child'. exists (give ext m 1). split; [apply give_le|].
      split; [|done]. by exists am1. }
  intros _ [child' w2] (Hch & Hn & Hr2). simpl in Hch. subst child'.
  assert (mp_flags (child_mapping m) = forked_flags m) as Hfl by by rewrite Hchild.
  (* the child's mapping goes in once the parent's cannot be written *)
  assert (∀ am2 parent', system (give ext m 1) am2 (child :: parent' :: rest) → am_spaces am2 !! space_root child = Some V →
    am_blocks am2 = am_blocks am1 → parent_mapping m ∈ mappings parent' →
    system ext (set_space (space_root child) (<[mkey m := (mp_frame m, forked_flags m)]> V) am2)
      (with_last (child_mapping m) child :: parent' :: rest)) as Hadd.
  { intros am2 parent' Hs2 HV2 Hbl Hin. eapply system_ext; [intros n'; symmetry; apply (give_back ext m)|]. rewrite <-Hfl.
    destruct (parent_mapping_key m) as (Hpk & Hpf & Hpo & Hph).
    apply (fork_add _ _ _ _ _ _ _ (parent_mapping m) Hs2); try done.
    - by eapply parent_not_writable.
    - eapply child_mapping_ok; [exact Hmo1|]. rewrite Hbl. eauto.
    - by eapply child_not_writable.
    - intros n' Hr. unfold give. rewrite Hr. pose proof (sy_ext _ _ _ _ _ (gd_system _ _ _ _ _ _ _ _ Hg) n'). lia. }
  sp_step. destruct (becomes_cow m && negb (mp_cow m)) eqn:Hbc.
  - apply andb_true_iff in Hbc as [Hb Hc%negb_true_iff].
    assert (parent_mapping m = mkMapping (mp_virt m) (mp_frame m) (forked_flags m) true (mp_owned m) (mp_shared m)) as Hpar.
    { unfold parent_mapping. by rewrite Ho, Hb, Hc. }
    sp_step. apply wp_on_child. sp_step. rewrite (virt_mkey m) at 1.
    eapply wp_res_mono; [eapply (us_protect rep round1 foreign w2 _ _ Vp (mkey m) (mp_frame m) (mp_flags m) _ Hr2)|..]; cbv beta; [| | |..|done].
    + simpl. by rewrite lookup_insert_ne.
    + apply (mo_page _ _ _ _ Hmo).
    + apply Hview. by exists m.
    + intros _ w3 Hr3. sp_run. cbn [fst snd]. apply wp_on_child. unfold push_mapping. sp_step. split.
      * eexists. split; [split; [exact Hr3|]|done]. rewrite set_space_comm by done. simpl. rewrite <-Hpar.
        apply (Hadd _ (change_mapping k (parent_mapping m) parent)); [|by simpl; rewrite lookup_insert_ne|done|].
        -- by apply (fork_protect _ am1 parent child rest Vp k m (gd_system _ _ _ _ _ _ _ _ Hg1) HVp Hm Hmo1).
        -- simpl. apply list_elem_of_lookup. exists k. rewrite list_lookup_insert_eq; [done|]. by eapply lookup_lt_Some.
      * split; [|done]. simpl. by rewrite Hpar.
  - assert (parent_mapping m = m) as Hpar by (unfold parent_mapping; by rewrite Ho, andb_true_l, Hbc).
    sp_step. apply wp_on_child. unfold push_mapping. sp_step. split.
    + eexists. split; [split; [exact Hr2|]|done]. simpl. apply (Hadd am1 parent); [apply Hg1|done|done|by rewrite Hpar].
    + split; [|done]. simpl. by rewrite Hpar, change_mapping_id.
Qed.

Lemma fork_one_rule ext rest parent child w am k m :
  good ext (parent :: rest) child w am → mappings parent !! k = Some m → (∀ x, x ∈ mappings child → mkey x < mkey m) →
  wp_res (fork_one k) (parent, (child, w))
    (λ _ s', forking ext rest am s' ∧ fork_step k m (parent, (child, w)) s')
    (λ _ s', fork_failed ext rest am (parent, (child, w)) s').
Proof.
  intros Hg Hm Hlast. unfold fork_one. wp_run. cbn [fst snd]. rewrite Hm. wp_step. cbn [fst snd].
  destruct (mp_owned m) eqn:Ho; cbn [negb].
  - pose proof (fork_owned ext rest parent child w am k m Hg Hm Ho Hlast) as H. rewrite Ho in H. exact H.
  - by apply (fork_unowned ext rest parent child w am k m).
Qed.

(** ** The fork *)

(** The first [k] pages have been forked. *)
Record fork_progress (ms0 : list UserMapping) (k : nat) (parent0 child0 parent child : UserAddressSpaceInner) : Prop := {
  fp_parent : parent = set_mappings ((parent_mapping <$> take k ms0) ++ drop k ms0) parent0;
  fp_child : child = set_mappings (child_mapping <$> take k ms0) child0;
}.

Lemma fork_progress_step ms0 k m parent0 child0 parent child w s' :
  ms0 !! k = Some m → fork_progress ms0 k parent0 child0 parent child → fork_step k m (parent, (child, w)) s' →
  fork_progress ms0 (S k) parent0 child0 s'.1 s'.2.1.
Proof.
  intros Hm [-> ->] [Hp Hc]. assert (k < length ms0)%nat as Hk by by eapply lookup_lt_Some.
  assert (length (parent_mapping <$> take k ms0) = k) as Hlen by (rewrite length_fmap, length_take; lia).
  split.
  - rewrite Hp. unfold change_mapping. cbn [fst mappings set_mappings]. unfold set_mappings. simpl. f_equal.
    rewrite insert_app_r_alt by lia. rewrite Hlen, Nat.sub_diag. rewrite (drop_S ms0 m k Hm). simpl.
    rewrite (take_S_r ms0 k m Hm), fmap_app, <-app_assoc. done.
  - rewrite Hc. unfold with_last, set_mappings. simpl. f_equal. by rewrite (take_S_r ms0 k m Hm), fmap_app.
Qed.

Lemma fork_loop_rule ext rest ms0 parent0 child0 n k parent child w am :
  (k + n = length ms0)%nat → sorted_keys ms0 → fork_progress ms0 k parent0 child0 parent child →
  good ext (parent :: rest) child w am →
  wp_res (fork_loop (seq k n)) (parent, (child, w))
    (λ _ s', forking ext rest am s' ∧ fork_progress ms0 (length ms0) parent0 child0 s'.1 s'.2.1)
    (λ _ s', ∃ ext' j, (∀ n, ext n <= ext' n) ∧ forking ext' rest am s' ∧ fork_progress ms0 j parent0 child0 s'.1 s'.2.1).
Proof.
  revert k parent child w am. induction n as [|n IH]; intros k parent child w am Hlen Hsort Hp Hg; cbn [seq fork_loop].
  { sp_run. rewrite Nat.add_0_r in Hlen. subst k. split; [by exists am|done]. }
  destruct (lookup_lt_is_Some_2 ms0 k ltac:(lia)) as [m Hm]. sp_step.
  eapply wp_res_mono; [apply (fork_one_rule ext rest parent child w am k m Hg)|..]; cbv beta.
  - destruct Hp as [-> _]. simpl. rewrite lookup_app_r; rewrite length_fmap, length_take; [|lia].
    rewrite lookup_drop. rewrite <-Hm. f_equal. lia.
  - intros x Hx. destruct Hp as [_ ->]. simpl in Hx. apply list_elem_of_fmap in Hx as (y & -> & Hy).
    destruct (child_mapping_key y) as (-> & _). apply list_elem_of_lookup in Hy as (j & Hj).
    apply lookup_take_Some in Hj as [Hj Hlt]. by apply (Hsort j k).
  - intros _ [parent' [child' w']] [(am' & Hg' & Hd) Hstep].
    pose proof (fork_progress_step ms0 k m parent0 child0 parent child w _ Hm Hp Hstep) as Hp'. cbn [fst snd] in *.
    eapply wp_res_mono; [apply (IH (S k) parent' child' w' am'); [lia|done..]|..]; cbv beta.
    + intros _ s' [(am2 & Hg2 & Hd2) Hp2]. split; [|done]. exists am2. split; [done|congruence].
    + intros e s' (ext' & j & Hle & (am2 & Hg2 & Hd2) & Hp2). exists ext', j. split; [done|]. split; [|done].
      exists am2. split; [done|congruence].
  - intros e [parent' [child' w']] (ext' & Hle & Hf & Hpar & Hch). cbn [fst snd] in *. subst. exists ext', k. done.
Qed.

(** Spaces whose pages are in the same frames have the same memory. *)
Definition same_page (x y : UserMapping) : Prop :=
  mkey y = mkey x ∧ mp_frame y = mp_frame x ∧ mp_owned y = mp_owned x.

Lemma same_pages_lookup sp sp' va :
  sorted_keys (mappings sp) → sorted_keys (mappings sp') → Forall2 same_page (mappings sp) (mappings sp') →
  match page_of sp va, page_of sp' va with
  | Some x, Some y => same_page x y
  | None, None => True
  | _, _ => False
  end.
Proof.
  intros Hs Hs' Hf. destruct (page_of sp va) as [x|] eqn:Hx.
  - apply page_of_Some in Hx as [(i & Hi)%list_elem_of_lookup Hk]; [|done].
    destruct (Forall2_lookup_l _ _ _ _ _ Hf Hi) as (y & Hy & Hxy). pose proof Hxy as (Hky & _).
    rewrite (proj2 (page_of_Some sp' va y Hs')); [done|]. split; [by eapply list_elem_of_lookup_2|congruence].
  - destruct (page_of sp' va) as [y|] eqn:Hy; [|done].
    apply page_of_Some in Hy as [(i & Hi)%list_elem_of_lookup Hk]; [|done].
    destruct (Forall2_lookup_r _ _ _ _ _ Hf Hi) as (x & Hxi & Hky & _).
    rewrite page_of_None in Hx by done. apply (Hx x); [by eapply list_elem_of_lookup_2|congruence].
Qed.

Record mem_equal (am : abstract) (sp : UserAddressSpaceInner) (am' : abstract) (sp' : UserAddressSpaceInner) : Prop := {
  me_vmas : vmas sp' = vmas sp;
  me_brk : (brk_start sp', brk_current sp', brk_limit sp') = (brk_start sp, brk_current sp, brk_limit sp);
  me_layout : layout sp' = layout sp;
  me_private a : private sp' a ↔ private sp a;
  me_bytes a : vbyte am' sp' a = vbyte am sp a;
}.

Lemma same_pages_equal am am' sp sp' ms :
  sorted_keys (mappings sp) → sorted_keys (mappings sp') → Forall2 same_page (mappings sp) (mappings sp') →
  am_data am' = am_data am → sp' = set_mappings ms sp ∨ (∃ c, sp' = set_mappings ms (child_of sp c)) → mem_equal am sp am' sp'.
Proof.
  intros Hs Hs' Hf Hd Hsp. pose proof (λ va, same_pages_lookup sp sp' va Hs Hs' Hf) as Hpages.
  assert (vmas sp' = vmas sp) as Hv by (destruct Hsp as [->|[c ->]]; done). split.
  - done.
  - destruct Hsp as [->|[c ->]]; done.
  - destruct Hsp as [->|[c ->]]; done.
  - intros a. unfold private. specialize (Hpages (page_base a)).
    destruct (page_of sp (page_base a)) as [x|], (page_of sp' (page_base a)) as [y|]; try done.
    destruct Hpages as (_ & _ & Ho). split; intros H m [= <-]; specialize (H _ eq_refl); congruence.
  - intros a. unfold vbyte. rewrite Hv. specialize (Hpages (page_base a)).
    destruct (page_of sp (page_base a)) as [x|], (page_of sp' (page_base a)) as [y|]; try done.
    destruct Hpages as (_ & Hfr & _). by rewrite Hfr, Hd.
Qed.

Lemma same_page_fmap f l : (∀ m, same_page m (f m)) → Forall2 same_page l (f <$> l).
Proof. intros Hf. apply Forall2_fmap_r. apply Forall_Forall2_diag, Forall_forall. intros m _. apply Hf. Qed.

Lemma parent_same m : same_page m (parent_mapping m).
Proof. destruct (parent_mapping_key m) as (? & ? & ? & _). done. Qed.
Lemma child_same m : same_page m (child_mapping m).
Proof. destruct (child_mapping_key m) as (? & ? & ? & _). done. Qed.

Lemma parent_equal ms0 j sp c ext rest s' am am' :
  fork_progress ms0 j sp (child_of sp c) s'.1 s'.2.1 → ms0 = mappings sp → sorted_keys (mappings sp) →
  good ext (s'.1 :: rest) s'.2.1 s'.2.2 am' → am_data am' = am_data am → mem_equal am sp am' s'.1.
Proof.
  intros [Hp _] -> Hsort Hg Hd. destruct (good_parent _ _ _ _ _ _ Hg) as (Hsort' & _).
  eapply same_pages_equal; [done|done| |done|by left]. rewrite Hp. simpl. rewrite <-(take_drop j (mappings sp)) at 1.
  apply Forall2_app; [by apply same_page_fmap, parent_same|]. apply Forall_Forall2_diag, Forall_forall. done.
Qed.

Lemma fork_cow_rule ext rest sp w am :
  good ext rest sp w am →
  wp_res fork_cow (sp, w)
    (λ child s', ∃ am', good ext (s'.1 :: rest) child s'.2 am' ∧ am_data am' = am_data am ∧
       mem_equal am sp am' s'.1 ∧ mem_equal am sp am' child)
    (λ _ s', ∃ ext' am', (∀ n, ext n <= ext' n) ∧ good ext' rest s'.1 s'.2 am' ∧ am_data am' = am_data am ∧ mem_equal am sp am' s'.1).
Proof.
  intros Hg. pose proof Hg as [Hr Hs]. pose proof (good_sorted _ _ _ _ _ _ _ _ Hg) as Hsort.
  pose proof (new_space_rule ext (sp :: rest) w am Hr Hs) as Hnew. unfold wp_res, wp, fork_cow. unfold wp_res, wp in Hnew.
  assert (mem_equal am sp am sp) as Hrefl by (split; done).
  destruct (new_space w) as [[copy|e| |] w1]; cbn [fst snd] in *; [|by exists ext, am|done|done].
  destruct Hnew as (Hm & Hv & Hnone & Hr1).
  assert (good ext (sp :: rest) (child_of sp copy) w1 (set_space (space_root copy) ∅ am)) as Hg1.
  { split; [done|]. apply (system_new round1 foreign ext am (sp :: rest) (child_of sp copy) Hs Hnone); [done|].
    apply Forall_forall. intros v Hin. by apply (sy_areas _ _ _ _ _ Hs sp v (list_elem_of_here _ _)). }
  pose proof (fork_loop_rule ext rest (mappings sp) sp (child_of sp copy) (length (mappings sp)) 0 sp (child_of sp copy) w1 (set_space (space_root copy) ∅ am)
    eq_refl Hsort) as Hloop. unfold wp_res, wp in Hloop.
  destruct (fork_loop _ (sp, (child_of sp copy, w1))) as [[[]|e| |] [parent' [child w2]]]; cbn [fst snd] in Hloop |- *;
    specialize (Hloop ltac:(split; [apply same_frame_refl|done]) Hg1); [| |done|done].
  - destruct Hloop as [(am' & Hg' & Hd) Hp]. exists am'. cbn [fst snd] in *. split; [done|]. split; [done|].
    split; [by eapply (parent_equal (mappings sp) _ sp copy ext rest (parent', (child, w2)))|].
    destruct Hp as [_ Hc]. rewrite take_ge in Hc by done. pose proof (good_sorted _ _ _ _ _ _ _ _ Hg') as Hsc.
    eapply same_pages_equal; [done|done| |done|right; by exists copy]. rewrite Hc. simpl. by apply same_page_fmap, child_same.
  - destruct Hloop as (ext' & j & Hle & (am' & Hg' & Hd) & Hp). cbn [fst snd] in *.
    pose proof (parent_equal (mappings sp) j sp copy ext' rest (parent', (child, w2)) am am' Hp eq_refl Hsort Hg' Hd) as Heq.
    pose proof (drop_space_rule ext' (parent' :: rest) child w2 am' Hg') as Hdrop. unfold wp_res, wp in Hdrop.
    destruct (drop_space (child, w2)) as [[] [c3 w3]]; cbn [fst snd] in *; try done.
    destruct Hdrop as (am3 & Hr3 & Hs3 & Hd3). exists ext', am3. split; [done|]. split; [by split|]. split; [by rewrite Hd3, Hd|].
    destruct Heq as [? ? ? ? Hb]. split; try done. intros b. rewrite <-Hb. unfold vbyte. by rewrite Hd3.
Qed.
End forks.

(** ** Mapping and unmapping ranges

    [munmap], [brk] and the anonymous [mmap] of [UserSpace] on one space of a
    system of spaces: the pages and the areas of exactly the range change. *)

(** ** The areas stay in the lower half *)

Lemma area_ok_pieces (f : UserVma → list UserVma) l :
  (∀ v, area_ok v → Forall area_ok (f v)) → Forall area_ok l → Forall area_ok (l ≫= f).
Proof. intros Hf. induction 1; [constructor|]. rewrite bind_cons. apply Forall_app. auto. Qed.

Lemma area_ok_set_end v e : area_ok v → e <= 2 ^ 47 → area_ok (set_end v e).
Proof. intros [? ? ?] He. by split. Qed.

Lemma area_ok_slice v s e : area_ok v → e <= 2 ^ 47 → area_ok (slice v s e).
Proof. intros [? ? Hk] He. split; [done|done|]. simpl. by destruct (vma_kind v). Qed.

Lemma area_ok_merge l r : area_ok l → area_ok r → area_ok (set_end l (vma_end r)).
Proof. intros Hl Hr. apply area_ok_set_end; [done|apply Hr]. Qed.

Lemma area_ok_coalesce l : Forall area_ok l → Forall area_ok (coalesce_vmas l).
Proof.
  destruct 1 as [|p l Hp Hl]; [constructor|]. simpl. revert p Hp.
  induction Hl as [|v l Hv Hl IH]; intros p Hp; simpl; [by rewrite Forall_singleton|].
  destruct (vmas_mergeable p v); [apply IH; by apply area_ok_merge|]. constructor; [done|by apply IH].
Qed.

Lemma area_ok_remove s e l : Forall area_ok l → Forall area_ok (remove_vma_range s e l).
Proof.
  intros Hl. apply area_ok_coalesce, area_ok_pieces; [|done]. intros v Hv. unfold remove_pieces. pose proof (ao_end _ Hv).
  destruct (decide _) as [|Hn]; [by rewrite Forall_singleton|].
  apply Forall_app. split; destruct (decide _); rewrite ?Forall_singleton, ?Forall_nil; try done; apply area_ok_slice; done || lia.
Qed.

Lemma Forall_vec_remove {A} (P : A → Prop) i l : Forall P l → Forall P (vec_remove i l).
Proof. intros H. unfold vec_remove. apply Forall_app. split; [by apply Forall_take|by apply Forall_drop]. Qed.

Lemma merge_step_ok l i a b :
  Forall area_ok l → l !! i = Some a → l !! S i = Some b →
  Forall area_ok (vec_remove (S i) (<[i := set_end a (vma_end b)]> l)).
Proof.
  intros Hl Ha Hb. apply Forall_vec_remove, Forall_insert; [done|]. apply area_ok_merge; by eapply Forall_lookup_1.
Qed.

Lemma area_ok_record start end_ flags kind lazy l :
  Forall area_ok l → area_ok (mkVma start end_ flags kind lazy) → Forall area_ok (record_vma start end_ flags kind lazy l).
Proof.
  intros Hl Hv. unfold record_vma. set (i := search_index _).
  assert (Forall area_ok (vec_insert i (mkVma start end_ flags kind lazy) l)) as Hins.
  { unfold vec_insert. apply Forall_app. split; [by apply Forall_take|]. constructor; [done|by apply Forall_drop]. }
  revert Hins. generalize (vec_insert i (mkVma start end_ flags kind lazy) l). clearbody i. clear. intros l Hl.
  assert (∀ i l, Forall area_ok l → Forall area_ok (merge_left i l).2) as Hleft.
  { clear. induction i as [|i IH]; intros l Hl; simpl; [done|]. destruct (l !! i) eqn:Ha, (l !! S i) eqn:Hb; try done.
    destruct (vmas_mergeable _ _); [|done]. by apply IH, merge_step_ok. }
  assert (∀ fuel i l, Forall area_ok l → Forall area_ok (merge_right fuel i l)) as Hright.
  { clear. induction fuel as [|fuel IH]; intros i l Hl; simpl; [done|]. destruct (l !! i) eqn:Ha, (l !! S i) eqn:Hb; try done.
    destruct (vmas_mergeable _ _); [|done]. by apply IH, merge_step_ok. }
  unfold merge_vma_neighbors_around. destruct l as [|v l]; [done|]. specialize (Hleft i (v :: l) Hl).
  destruct (merge_left i (v :: l)) as [j l']. by apply Hright.
Qed.

Lemma area_ok_heap e l : Forall area_ok l → e <= 2 ^ 47 → Forall area_ok (update_heap_vma_end e l).
Proof.
  intros Hl He. induction Hl as [|v l Hv Hl IH]; simpl; [done|]. destruct (is_heap v); constructor; try done.
  by apply area_ok_set_end.
Qed.

Section maps.
Context {W : Type} {U : UserMachine W} (rep : W → abstract → Prop) (round1 : Z) (foreign : PhysFrame → Prop).
Context (US : UserMachineSpec rep round1 foreign).
Implicit Types (sp : UserAddressSpaceInner) (w : W) (am : abstract) (rest : list UserAddressSpaceInner).

Abbreviation system := (system round1 foreign).
Abbreviation good := (good rep round1 foreign).

(** Areas, layout and break are not part of the page tables. *)
Lemma good_areas ext rest sp sp' w am :
  good ext rest sp w am → mappings sp' = mappings sp → space_root sp' = space_root sp → Forall area_ok (vmas sp') →
  good ext rest sp' w am.
Proof.
  intros [Hr Hs] Hm Hroot Ha. split; [done|].
  assert (all_mappings (sp' :: rest) = all_mappings (sp :: rest)) as Hall by (by rewrite !all_mappings_cons, Hm).
  destruct Hs. split; rewrite ?Hall; try done.
  - simpl. by rewrite Hroot.
  - intros x [->|Hx]%elem_of_cons; [rewrite Hm, Hroot; apply sy_view; set_solver|apply sy_view; set_solver].
  - intros x [->|Hx]%elem_of_cons; [rewrite Hm|]; apply sy_sorted; set_solver.
  - intros x v [->|Hx]%elem_of_cons; [intros Hv; rewrite Forall_forall in Ha; by apply Ha|apply sy_areas; set_solver].
  - simpl. rewrite Hroot. done.
Qed.

Lemma good_area_ok ext rest sp w am : good ext rest sp w am → Forall area_ok (vmas sp).
Proof. intros [_ Hs]. apply Forall_forall. intros v. apply (sy_areas _ _ _ _ _ Hs), list_elem_of_here. Qed.

(** ** Unmapping *)

Lemma unmap_pages_rule ext rest sp w am base pages :
  good ext rest sp w am → 0 <= base → base mod 4096 = 0 → Forall (λ p, 0 <= p ∧ p mod 4096 = 0 ∧ base + p <= u64_max) pages →
  wp_res (unmap_pages base pages) (sp, w)
    (λ _ s', ∃ am', good ext rest s'.1 s'.2 am' ∧ am_data am' = am_data am ∧ same_frame sp s'.1 ∧
       ∀ va, page_of s'.1 va = if decide (va - base ∈ pages) then None else page_of sp va)
    (λ _ _, False).
Proof.
  intros Hg H0 Hal Hpages. revert sp w am Hg. induction Hpages as [|p pages (Hp0 & Hp & Hmax) Hpages IH]; intros sp w am Hg; cbn [unmap_pages].
  { sp_run. exists am. split; [done|]. split; [done|]. split; [apply same_frame_refl|]. done. }
  sp_step. unfold add64. rewrite checked_add_Some by done. sp_run.
  assert (page_base (base + p) = base + p) as Hbase.
  { apply align_down_aligned; [split; lia|]. unfold aligned. rewrite Z.add_mod, Hal, Hp by lia. done. }
  assert (∀ sp1 w1 am1, good ext rest sp1 w1 am1 → am_data am1 = am_data am → same_frame sp sp1 →
    (∀ va, page_of sp1 va = if decide (va = base + p) then None else page_of sp va) →
    wp_res (unmap_pages base pages) (sp1, w1)
      (λ _ s', ∃ am', good ext rest s'.1 s'.2 am' ∧ am_data am' = am_data am ∧ same_frame sp s'.1 ∧
         ∀ va, page_of s'.1 va = if decide (va - base ∈ p :: pages) then None else page_of sp va)
      (λ _ _, False)) as Hnext.
  { intros sp1 w1 am1 Hg1 Hd1 Hf1 Hp1. eapply wp_res_mono; [by apply IH|..]; cbv beta; [|done].
    intros _ s' (am' & Hg' & Hd' & Hf' & Hp'). exists am'. split; [done|]. split; [congruence|].
    split; [by eapply same_frame_trans|]. intros va. rewrite Hp', Hp1.
    destruct (decide (va - base ∈ pages)) as [Hin|Hnin]; [rewrite decide_True by set_solver; done|].
    destruct (decide (va = base + p)) as [->|Hne].
    - rewrite decide_True; [done|]. replace (base + p - base) with p by lia. apply list_elem_of_here.
    - rewrite decide_False; [done|]. intros [Heq|Hin]%elem_of_cons; [lia|done]. }
  eapply wp_res_mono; [by apply (unmap_page_rule rep round1 foreign US)|..]; cbv beta.
  - intros _ [sp1 w1] (am1 & Hg1 & Hd1 & [Hf1 Hp1]). rewrite Hbase in Hp1. by apply (Hnext sp1 w1 am1).
  - intros e s' (_ & -> & Hn). rewrite Hbase in Hn. apply (Hnext sp w am); [done|done|apply same_frame_refl|].
    intros va. destruct (decide _) as [->|]; done.
Qed.

Lemma page_offsets_elem len p : p ∈ page_offsets len ↔ 0 <= p ∧ p mod 4096 = 0 ∧ p / 4096 < len / 4096.
Proof.
  unfold page_offsets. rewrite list_elem_of_fmap, PAGE_SIZE_eq. split.
  - intros (i & -> & Hi). apply elem_of_seq in Hi. rewrite Z.mul_comm, Z.mod_mul, Z.div_mul by lia. lia.
  - intros (H0 & Hm & Hlt). exists (Z.to_nat (p / 4096)). pose proof (Z.div_mod p 4096). pose proof (Z.div_pos p 4096).
    split; [lia|]. apply elem_of_seq. lia.
Qed.

Lemma page_offsets_range base len p :
  0 <= base → len mod 4096 = 0 → base + len <= 2 ^ 47 → p ∈ page_offsets len → 0 <= p ∧ p mod 4096 = 0 ∧ base + p <= u64_max.
Proof.
  intros H0 Hl Hmax (Hp & Hm & Hlt)%page_offsets_elem. split; [done|]. split; [done|].
  pose proof (Z.div_mod p 4096). pose proof (Z.div_mod len 4096). unfold u64_max. lia.
Qed.

(** The pages of a range, from what the offsets say. *)
Lemma page_range ext rest sp w am base len va (x : option UserMapping) :
  good ext rest sp w am → base mod 4096 = 0 → 0 <= len → len mod 4096 = 0 →
  x = (if decide (va - base ∈ page_offsets len) then None else page_of sp va) →
  x = if decide (base <= va < base + len) then None else page_of sp va.
Proof.
  intros Hg Hb H0 Hl ->. pose proof (good_sorted _ _ _ _ _ _ _ _ Hg) as Hsort.
  destruct (decide (va - base ∈ page_offsets len)) as [Hin|Hnin].
  - apply page_offsets_elem in Hin as (Hp & Hm & Hlt). rewrite decide_True; [done|].
    pose proof (Z.div_mod (va - base) 4096). pose proof (Z.div_mod len 4096). lia.
  - destruct (decide (base <= va < base + len)) as [Hr|]; [|done].
    destruct (page_of sp va) as [m|] eqn:Hm; [|done]. destruct Hnin. apply page_of_Some in Hm as [Hm Hk]; [|done].
    pose proof (mo_page _ _ _ _ (good_mapping _ _ _ _ _ _ _ _ m Hg Hm)) as [_ Hal]. rewrite Hk in Hal.
    apply page_offsets_elem. split; [lia|]. split; [rewrite Zminus_mod, Hal, Hb; done|].
    apply Z.div_lt_upper_bound; [lia|]. pose proof (Z.div_mod len 4096). lia.
Qed.

(** The space with another vector of pages and of areas. *)
Definition range_unmapped (sp sp' : UserAddressSpaceInner) (start end_ : Z) : Prop :=
  ∀ va, page_of sp' va = if decide (start <= va < end_) then None else page_of sp va.

Definition round_up (len : Z) : Z := (len + 4095) / 4096 * 4096.

Lemma round_up_spec len : 0 <= len → len <= round_up len ∧ round_up len mod 4096 = 0 ∧ round_up len < len + 4096.
Proof.
  intros H. unfold round_up. pose proof (Z.div_mod (len + 4095) 4096). pose proof (Z.mod_pos_bound (len + 4095) 4096).
  split; [lia|]. split; [apply Z.mod_mul; lia|lia].
Qed.

Lemma wp_align_up {St E} v (s : St) (Q : Z → St → Prop) (Qe : E → St → Prop) :
  0 <= v → v <= u64_max - 4095 → Q (round_up v) s → wp_res (align_up_page v) s Q Qe.
Proof. intros H0 H1 HQ. unfold align_up_page. rewrite vma_align_up by lia. done. Qed.

Lemma virt_aligned a : virt_is_aligned (mkVirtAddr a) PAGE_SIZE = true ↔ a mod 4096 = 0.
Proof. unfold virt_is_aligned. simpl. rewrite PAGE_SIZE_eq, (land_pow2_mask _ 12), Z.eqb_eq by lia. done. Qed.

Lemma munmap_rule ext rest sp w am addr len :
  good ext rest sp w am → 0 <= addr → 0 <= len → addr + len <= 2 ^ 47 - 4096 →
  let end_ := addr + round_up len in
  wp_res (munmap addr len) (sp, w)
    (λ _ s', 0 < len ∧ addr mod 4096 = 0 ∧ ∃ am', good ext rest s'.1 s'.2 am' ∧ am_data am' = am_data am ∧
       s'.1 = set_vmas (remove_vma_range addr end_ (vmas sp)) (set_mappings (mappings s'.1) sp) ∧
       range_unmapped sp s'.1 addr end_)
    (λ e s', e = AddressOverflow ∧ s' = (sp, w) ∧ (len = 0 ∨ addr mod 4096 ≠ 0)).
Proof.
  intros Hg Ha Hl Hmax end_. pose proof (round_up_spec len Hl) as (Hr1 & Hr2 & Hr3). unfold munmap.
  destruct (decide _) as [Hbad|Hok]; sp_run.
  { split; [done|]. split; [done|]. destruct Hbad as [|Hb]; [by left|right]. rewrite <-virt_aligned. by rewrite Hb. }
  assert (0 < len ∧ addr mod 4096 = 0) as [Hlen Hal].
  { split; [destruct (decide (len = 0)); [tauto|lia]|]. apply virt_aligned. destruct (virt_is_aligned _ _); tauto. }
  apply wp_align_up; [lia|unfold u64_max; lia|]. sp_step.
  eapply wp_res_mono; [apply (unmap_pages_rule ext rest sp w am addr); try done|..]; cbv beta; [|..|done].
  { apply Forall_forall. intros p Hp. apply (page_offsets_range addr (round_up len)); try done. lia. }
  intros _ [sp1 w1] (am1 & Hg1 & Hd1 & Hf1 & Hp1). unfold add64. rewrite checked_add_Some by (unfold u64_max; lia). sp_run.
  split; [done|]. split; [done|]. exists am1. cbn [fst snd] in *. pose proof (same_frame_vmas _ _ Hf1) as Hv. split; [|split; [done|split]].
  - eapply good_areas; [exact Hg1|done|done|]. apply area_ok_remove. by eapply good_area_ok.
  - unfold same_frame in Hf1. rewrite Hv, Hf1. done.
  - intros va. change (page_of (set_vmas _ sp1) va) with (page_of sp1 va).
    apply (page_range ext rest sp w am addr (round_up len) va); try done; first [lia|apply Hp1].
Qed.

(** ** The break *)

Definition brk_wf (sp : UserAddressSpaceInner) : Prop :=
  0 <= brk_start sp <= brk_current sp ∧ brk_current sp <= brk_limit sp ∧ brk_limit sp <= 2 ^ 47 - 4096.

Lemma brk_rule ext rest sp w am new :
  good ext rest sp w am → brk_wf sp → 0 <= new →
  wp_res (brk new) (sp, w)
    (λ r s', if decide (new ≠ 0 ∧ brk_start sp <= new <= brk_limit sp) then
       r = new ∧ ∃ am', good ext rest s'.1 s'.2 am' ∧ am_data am' = am_data am ∧ brk_wf s'.1 ∧ brk_current s'.1 = new ∧
         vmas s'.1 = update_heap_vma_end new (vmas sp) ∧ range_unmapped sp s'.1 (round_up new) (round_up (brk_current sp))
     else r = brk_current sp ∧ s' = (sp, w))
    (λ _ _, False).
Proof.
  intros Hg (Hb1 & Hb2 & Hb3) Hnew. unfold brk. sp_run.
  destruct (decide (new ≠ 0 ∧ brk_start sp <= new <= brk_limit sp)) as [Hin|Hout].
  2:{ destruct (decide (new = 0)); sp_run; [done|]. rewrite decide_True by lia. sp_run. done. }
  rewrite (decide_False (P := new = 0)), (decide_False (P := new < brk_start sp ∨ brk_limit sp < new)) by lia. sp_step.
  pose proof (round_up_spec new Hnew) as (Hr1 & Hr2 & Hr3).
  pose proof (round_up_spec (brk_current sp) ltac:(lia)) as (Hc1 & Hc2 & Hc3).
  apply wp_align_up; [lia|unfold u64_max; lia|]. sp_step. apply wp_align_up; [lia|unfold u64_max; lia|].
  assert (∀ sp1 w1 am1, good ext rest sp1 w1 am1 → am_data am1 = am_data am → same_frame sp sp1 →
    range_unmapped sp sp1 (round_up new) (round_up (brk_current sp)) →
    wp_res (_ ← modify_space (λ s, set_brk (brk_start s) new (brk_limit s) s);
            _ ← modify_space (λ s, set_vmas (update_heap_vma_end new (vmas s)) s);
            mret new) (sp1, w1)
      (λ r s', r = new ∧ ∃ am', good ext rest s'.1 s'.2 am' ∧ am_data am' = am_data am ∧ brk_wf s'.1 ∧ brk_current s'.1 = new ∧
         vmas s'.1 = update_heap_vma_end new (vmas sp) ∧ range_unmapped sp s'.1 (round_up new) (round_up (brk_current sp)))
      (λ (_ : BuildError) _, False)) as Hend.
  { intros sp1 w1 am1 Hg1 Hd1 Hf1 Hp1. sp_run. split; [done|]. exists am1. cbn [fst snd].
    rewrite <-(same_frame_vmas _ _ Hf1). split_and!; try done.
    - eapply good_areas; [exact Hg1|done|done|]. apply area_ok_heap; [exact (good_area_ok _ _ _ _ _ Hg1)|lia].
    - rewrite Hf1. unfold brk_wf. simpl. lia. }
  sp_step. destruct (decide (round_up new < round_up (brk_current sp))) as [Hlt|Hge]; sp_run.
  - eapply wp_res_mono; [apply (unmap_pages_rule ext rest sp w am (round_up new)); try done; [lia|]|..]; cbv beta; [| |done].
    + apply Forall_forall. intros p Hp. apply (page_offsets_range (round_up new) (round_up (brk_current sp) - round_up new)); try done; [lia| |lia].
      rewrite Zminus_mod, Hr2, Hc2. done.
    + intros _ [sp1 w1] (am1 & Hg1 & Hd1 & Hf1 & Hp1). apply (Hend sp1 w1 am1); try done. intros va.
      assert ((round_up (brk_current sp) - round_up new) mod 4096 = 0) as Hmod by (rewrite Zminus_mod, Hr2, Hc2; done).
      assert (0 <= round_up (brk_current sp) - round_up new) as Hpos by lia.
      pose proof (page_range ext rest sp w am (round_up new) _ va _ Hg Hr2 Hpos Hmod (Hp1 va)) as Hrange.
      by replace (round_up new + (round_up (brk_current sp) - round_up new)) with (round_up (brk_current sp)) in Hrange by lia.
  - apply (Hend sp w am); try done; [apply same_frame_refl|]. intros va. rewrite decide_False by lia. done.
Qed.

(** ** Anonymous mappings *)

(** What the search for addresses relies on. *)
Record areas_searchable (sp : UserAddressSpaceInner) : Prop := {
  as_separated : separated (vmas sp);
  as_gap : Forall (gap_area (round_up (brk_limit sp))) (vmas sp);
  as_empty v : v ∈ vmas sp → vma_start v = vma_end v → vma_end v < round_up (brk_limit sp);
  as_limit : 0 <= brk_limit sp <= u64_max - 4095;
  as_top : 0 <= mmap_top (layout sp) <= 2 ^ 47;
}.

(** The addresses right below the lowest area between the break and the top. *)
Definition mmap_ceiling (sp : UserAddressSpaceInner) : Z :=
  let upper := page_base (mmap_top (layout sp)) in
  lowest (round_up (brk_limit sp)) upper upper (reverse (vmas sp)).

Lemma mmap_base_rule sp w len :
  areas_searchable sp → 0 < len → len <= u64_max - 4095 →
  wp_res (allocate_mmap_base (W := W) len) (sp, w)
    (λ base s', s' = (sp, w) ∧ base + round_up len = mmap_ceiling sp ∧ round_up (brk_limit sp) <= base ∧
       base + round_up len <= 2 ^ 47 ∧ vma_range_overlaps base (base + round_up len) (vmas sp) = false)
    (λ e s', s' = (sp, w) ∧ e = BuildFrame OutOfMemory ∧ mmap_ceiling sp - round_up len < round_up (brk_limit sp)).
Proof.
  intros [Hsep Hgap _ Hlim Htop] Hlen Hmax. unfold allocate_mmap_base. sp_run. apply wp_align_up; [lia..|].
  assert (in_u64 (mmap_top (layout sp))) as Htu by (split; unfold u64_max; lia).
  destruct (page_base_range _ Htu) as (Hpr & Hpal & Hp0). pose proof (round_up_spec (brk_limit sp) ltac:(lia)) as (Hr1 & _ & _).
  destruct (find_top_down_gap_spec (E := BuildError) (round_up (brk_limit sp)) (page_base (mmap_top (layout sp))) len (vmas sp))
    as [Hfind Hbase]; try done; [lia|split; unfold u64_max; lia|].
  unfold page_base in *. rewrite Hfind. fold (round_up len) in *. unfold fit_below in *. fold (page_base (mmap_top (layout sp))) in *.
  change (lowest (round_up (brk_limit sp)) (page_base (mmap_top (layout sp))) (page_base (mmap_top (layout sp))) (reverse (vmas sp)))
    with (mmap_ceiling sp) in *.
  destruct (decide _) as [Hfit|Hno]; sp_run.
  - destruct (Hbase _ eq_refl) as (H1 & H2 & H3 & H4). split_and!; try done; lia.
  - split_and!; try done. lia.
Qed.

Lemma mmap_anonymous_rule ext rest sp w am addr len flags page_flags :
  good ext rest sp w am → areas_searchable sp → 0 < len → len <= u64_max - 8190 →
  Z.land flags MAP_ANONYMOUS ≠ 0 → Z.land flags MAP_FIXED = 0 → Z.land flags MAP_FIXED_NOREPLACE = 0 →
  Z.testbit page_flags 3 = true →
  wp_res (mmap_anonymous addr len flags page_flags) (sp, w)
    (λ base s', base + round_up len = mmap_ceiling sp ∧ round_up (brk_limit sp) <= base ∧
       vma_range_overlaps base (base + round_up len) (vmas sp) = false ∧ good ext rest s'.1 s'.2 am ∧
       s'.1 = set_vmas (vmas s'.1) sp ∧ separated (vmas s'.1) ∧
       ∀ a, cover (vmas s'.1) a =
         if decide (base <= a < base + round_up len) then [mkAttr page_flags (kind_tag Anonymous) true None 0] else cover (vmas sp) a)
    (λ e s', s' = (sp, w) ∧ e = BuildFrame OutOfMemory ∧ mmap_ceiling sp - round_up len < round_up (brk_limit sp)).
Proof.
  intros Hg Has Hlen Hmax Han Hfix Hno Hu. pose proof (round_up_spec len ltac:(lia)) as (Hr1 & Hr2 & Hr3).
  assert (round_up (round_up len) = round_up len) as Hrr.
  { unfold round_up at 1. pose proof (Z.div_mod (round_up len) 4096).
    pose proof (Z.div_mod (round_up len + 4095) 4096). pose proof (Z.mod_pos_bound (round_up len + 4095) 4096). lia. }
  unfold mmap_anonymous. rewrite decide_False by (intros [|]; lia). sp_step. apply wp_align_up; [lia..|]. sp_step.
  unfold prepare_mapping_base. rewrite (decide_False (P := Z.land flags MAP_FIXED_NOREPLACE ≠ 0)) by (rewrite Hno; tauto).
  rewrite (decide_False (P := Z.land flags MAP_FIXED ≠ 0)) by (rewrite Hfix; tauto).
  eapply wp_res_mono; [apply (mmap_base_rule sp w (round_up len) Has); lia|..]; cbv beta; rewrite Hrr; [|done].
  intros base s' (-> & Hceil & Hlow & Htop & Hfree). unfold add64.
  pose proof (round_up_spec (brk_limit sp) ltac:(apply Has)) as (Hb1 & _ & _). pose proof (as_limit _ Has).
  rewrite checked_add_Some by (unfold u64_max; lia). sp_run. unfold record_area. sp_run. cbn [fst snd].
  set (v := mkVma base (base + round_up len) page_flags Anonymous true).
  destruct (record_vma_spec base (base + round_up len) page_flags Anonymous true (vmas sp)) as [Hsep Hcov].
  - apply Has.
  - split; [simpl; lia|done].
  - split; [simpl; lia|]. intros x Hx. simpl. pose proof (as_gap _ Has) as Hgap. rewrite Forall_forall in Hgap.
    destruct (Hgap x Hx) as [_ _ Hle Hprop]. unfold vma_range_overlaps in Hfree.
    assert (overlaps base (base + round_up len) x = false) as Hov.
    { apply not_true_is_false. intros Ho. apply not_true_iff_false in Hfree. apply Hfree, existsb_exists. exists x. by rewrite <-list_elem_of_In. }
    pose proof (as_empty _ Has x Hx). unfold overlaps in Hov. lia.
  - split_and!; try done. eapply good_areas; [exact Hg|done|done|].
    apply area_ok_record; [by eapply good_area_ok|]. split; [done|simpl; lia|done].
Qed.
End maps.
