(* ===== verification/SpaceDemo.v ===== *)
(** * A small machine

    A [UserMachine] of 64 frames whose page tables are finite maps: it
    satisfies the laws of [SpaceApi], so the theorems on address spaces can be
    run on concrete programs. *)

From S2P Require Import Prelude Frame PageTable Image Vma UserSpace SpaceApi SpaceInv SpaceProof SpaceFault.

Module Demo.

Definition number (f : PhysFrame) : Z := addr_u64 (frame_start f) / 4096.

Lemma number_frame_of s : number (frame_of s) = s.
Proof. apply frame_of_number. Qed.

(** The first of the candidates that [p] accepts. *)
Definition first (p : Z → bool) (l : list Z) : option Z := head (List.filter p l).

Lemma first_Some p l x : first p l = Some x → x ∈ l ∧ p x = true.
Proof.
  unfold first. destruct (List.filter p l) as [|y l'] eqn:Hf; [done|]. intros [= <-].
  rewrite list_elem_of_In. apply filter_In. rewrite Hf. by left.
Qed.

Definition free (am : abstract) (s : Z) : bool := bool_decide (am_blocks am !! s = None).

Definition demo_alloc (n : Z) : M abstract FrameAllocError PhysFrame := λ am,
  match first (free am) (seqZ 0 64) with
  | Some s => (Ok (frame_of s), set_blocks (<[s := (1, 1)]> (am_blocks am)) am)
  | None => (Err OutOfMemory, am)
  end.

Definition block_of (am : abstract) (f : PhysFrame) : option (Z * Z) :=
  if decide (f = frame_of (number f)) then am_blocks am !! number f else None.

Definition demo_retain (f : PhysFrame) : M abstract FrameAllocError Z := λ am,
  match block_of am f with
  | Some (len, rc) => (Ok (rc + 1), set_blocks (<[number f := (len, rc + 1)]> (am_blocks am)) am)
  | None => (Err InvalidFrame, am)
  end.

Definition demo_release (f : PhysFrame) (n : Z) : M abstract FrameAllocError Z := λ am,
  match block_of am f with
  | Some (len, rc) => (Ok (rc - 1), set_blocks (unref (am_blocks am) (number f) len rc) am)
  | None => (Err InvalidFrame, am)
  end.

Definition demo_ref_count (f : PhysFrame) : M abstract FrameAllocError (option Z) := λ am, (Ok (snd <$> block_of am f), am).

#[local] Instance demo_frames : FrameAllocator abstract := {
  fa_alloc := demo_alloc; fa_retain := demo_retain; fa_release := demo_release; fa_ref_count := demo_ref_count;
}.

Definition demo_new_root : M abstract MappingError PhysFrame := λ am,
  match first (λ s, bool_decide (am_spaces am !! frame_of s = None)) (seqZ 64 8) with
  | Some s => (Ok (frame_of s), set_space (frame_of s) ∅ am)
  | None => (Err MapOutOfMemory, am)
  end.

Definition on_tables {A} (root : PhysFrame) (k : gmap Z (PhysFrame * Z) → M abstract MappingError A) : M abstract MappingError A := λ am,
  match am_spaces am !! root with
  | Some V => k V am
  | None => (Err NotMapped, am)
  end.

Definition demo_map_page (root : PhysFrame) (va : VirtAddr) (f : PhysFrame) (flags : Z) : M abstract MappingError unit :=
  on_tables root (λ V am,
    match V !! virt_u64 va with
    | None => (Ok tt, set_space root (<[virt_u64 va := (f, flags)]> V) am)
    | Some _ => (Err AlreadyMapped, am)
    end).

Definition take_page (root : PhysFrame) (va : VirtAddr) : M abstract MappingError UnmapResult :=
  on_tables root (λ V am,
    match V !! virt_u64 va with
    | Some (f, _) => (Ok (mkUnmapResult f 1 Size4KiB), set_space root (delete (virt_u64 va) V) am)
    | None => (Err NotMapped, am)
    end).

Definition demo_unmap_page (root : PhysFrame) (va : VirtAddr) : M abstract MappingError UnmapResult := λ am,
  match take_page root va am with
  | (Ok r, am') =>
      match demo_release (unmapped_frame r) 1 am' with
      | (Ok _, am'') => (Ok r, am'')
      | (_, am'') => (Err NotMapped, am'')
      end
  | (e, am') => (e, am')
  end.

Definition protect_page (root : PhysFrame) (va : VirtAddr) (flags : Z) : M abstract MappingError unit :=
  on_tables root (λ V am,
    match V !! virt_u64 va with
    | Some (f, _) => (Ok tt, set_space root (<[virt_u64 va := (f, flags)]> V) am)
    | None => (Err NotMapped, am)
    end).

#[local] Instance demo_machine : UserMachine abstract := {
  um_frames := demo_frames;
  um_new_user_root := demo_new_root;
  um_map := demo_map_page;
  um_unmap := demo_unmap_page;
  um_unmap_preserve := take_page;
  um_protect := protect_page;
  um_invalidate := λ _ _ am, am;
  um_bytes := am_data;
  um_set_bytes := set_data;
}.

Definition foreign (f : PhysFrame) : Prop := ∃ s, f = frame_of s ∧ 64 <= s.

Definition rep (w am : abstract) : Prop :=
  w = am ∧ (∀ s len rc, am_blocks am !! s = Some (len, rc) → 1 <= rc ∧ s < 64) ∧
  ∀ f, length (am_data am f) = Z.to_nat PAGE_SIZE.

Lemma block_of_frame am s : block_of am (frame_of s) = am_blocks am !! s.
Proof. unfold block_of. by rewrite number_frame_of, decide_True. Qed.

Lemma block_of_Some am f b : block_of am f = Some b → ∃ s, f = frame_of s ∧ am_blocks am !! s = Some b.
Proof. unfold block_of. destruct (decide _) as [Hf|]; [|done]. eauto. Qed.

Lemma rep_blocks w am s len rc :
  rep w am → 1 <= rc → s < 64 → rep (set_blocks (<[s := (len, rc)]> (am_blocks am)) w) (set_blocks (<[s := (len, rc)]> (am_blocks am)) am).
Proof.
  intros (-> & Hb & Hd) Hrc Hs. split; [done|]. split; [|done]. simpl. intros s' len' rc' [[<- [= <- <-]]|[_ Hs']]%lookup_insert_Some; eauto.
Qed.

Lemma rep_unref w am s len rc :
  rep w am → am_blocks am !! s = Some (len, rc) →
  rep (set_blocks (unref (am_blocks am) s len rc) w) (set_blocks (unref (am_blocks am) s len rc) am).
Proof.
  intros Hr Hb. unfold unref. destruct (decide (rc = 1)).
  - destruct Hr as (-> & Hbl & Hd). split; [done|]. split; [|done]. simpl. intros s' len' rc' [_ Hs']%lookup_delete_Some. eauto.
  - pose proof Hr as (_ & Hbl & _). destruct (Hbl _ _ _ Hb). apply rep_blocks; [done|lia|lia].
Qed.

Lemma rep_space w am root V : rep w am → rep (set_space root V w) (set_space root V am).
Proof. intros (-> & Hb & Hd). done. Qed.

#[local] Instance demo_spec : UserMachineSpec rep 1 foreign.
Proof.
  split.
  - intros w am s len rc (_ & Hb & _) Hs. by apply (Hb s len rc).
  - intros w am s (_ & Hb & _) (s' & Hf & Hs'). apply frame_of_eq in Hf as <-.
    destruct (am_blocks am !! s) as [[len rc]|] eqn:Hs; [|done]. destruct (Hb _ _ _ Hs). lia.
  - intros w am f (-> & _). done.
  - intros w am f (_ & _ & Hd). apply Hd.
  - intros w am f bs (-> & Hb & Hd) Hlen. split; [done|]. split; [done|]. intros g. simpl. by destruct (decide _).
  - done.
  - intros w am Hr. unfold wp_res, wp. simpl. unfold demo_alloc. destruct Hr as (-> & Hb & Hd).
    destruct (first (free am) (seqZ 0 64)) as [s|] eqn:Hf; simpl; [|done].
    apply first_Some in Hf as [Hs Hfree]. apply elem_of_seqZ in Hs. unfold free in Hfree. apply bool_decide_eq_true in Hfree.
    exists s. split; [done|]. split; [done|]. split; [|apply (rep_blocks am am); [done|lia..]].
    intros (s' & Hf' & Hs'). apply frame_of_eq in Hf' as <-. lia.
  - intros w am f Hr. unfold wp_res, wp. simpl. unfold demo_retain. pose proof Hr as (-> & Hb & Hd).
    destruct (block_of am f) as [[len rc]|] eqn:Hbo; simpl; [|done]. apply block_of_Some in Hbo as (s & -> & Hs).
    destruct (Hb _ _ _ Hs). rewrite number_frame_of. exists s, len, rc. split; [done|]. split; [done|]. apply (rep_blocks am am); [done|lia..].
  - intros w am s rc Hr Hs _. unfold wp_res, wp. simpl. unfold demo_release. pose proof Hr as (-> & Hb & Hd).
    rewrite block_of_frame, Hs. simpl. rewrite number_frame_of. by apply rep_unref.
  - intros w am f (-> & Hb & Hd). unfold wp_res, wp. simpl. split; [done|]. intros s len rc -> Hs.
    by rewrite block_of_frame, Hs.
  - intros w am Hr. unfold wp_res, wp. simpl. unfold demo_new_root. pose proof Hr as (-> & _).
    destruct (first _ _) as [s|] eqn:Hf; simpl; [|done]. apply first_Some in Hf as [_ Hf]. apply bool_decide_eq_true in Hf.
    split; [done|by apply rep_space].
  - intros w am root V va f flags Hr HV _ _. unfold wp_res, wp. simpl. unfold demo_map_page, on_tables. pose proof Hr as (-> & _).
    rewrite HV. simpl. destruct (V !! va); [done|]. split; [done|by apply rep_space].
  - intros w am root V va s rc flags Hr HV _ Hva Hs _. unfold wp_res, wp. simpl. unfold demo_unmap_page, take_page, on_tables.
    pose proof Hr as (-> & _). rewrite HV. simpl. rewrite Hva. simpl. unfold demo_release. rewrite block_of_frame. simpl. rewrite Hs. simpl.
    rewrite number_frame_of. apply (rep_unref (set_space root (delete va V) am) (set_space root (delete va V) am) s 1 rc); [|done]. by apply rep_space.
  - intros w am root V va f flags Hr HV _ Hva. unfold wp_res, wp. simpl. unfold take_page, on_tables. pose proof Hr as (-> & _).
    rewrite HV. simpl. rewrite Hva. by apply rep_space.
  - intros w am root V va f flags flags' Hr HV _ Hva. unfold wp_res, wp. simpl. unfold protect_page, on_tables. pose proof Hr as (-> & _).
    rewrite HV. simpl. rewrite Hva. by apply rep_space.
Qed.
End Demo.
