(* ===== verification/SpaceTheorems.v ===== *)
(** * Theorems on user address spaces

    What a process may rely on: its memory is its own, [fork] copies it,
    faults do not change it, and the ranges that it maps and unmaps are
    exactly those that it names. *)

From S2P Require Import Prelude Frame PageTable Image Vma VmaProof UserSpace SpaceApi SpaceInv SpaceProof SpaceFault SpaceFork SpaceDemo.

Section theorems.
Context {W : Type} {U : UserMachine W} (rep : W → abstract → Prop) (round1 : Z) (foreign : PhysFrame → Prop).
Context (US : UserMachineSpec rep round1 foreign).
Implicit Types (sp child : UserAddressSpaceInner) (w : W) (am : abstract) (rest : list UserAddressSpaceInner).

Abbreviation system := (system round1 foreign).
Abbreviation good := (good rep round1 foreign).

(** The private memory of the spaces of a list is what it was. *)
Definition undisturbed (others : list UserAddressSpaceInner) (am am' : abstract) : Prop :=
  ∀ other b, other ∈ others → private other b → vbyte am' other b = vbyte am other b.

Lemma keeps_undisturbed rest am am' : keeps rest am am' → undisturbed rest am am'.
Proof.
  intros Hk other b Hin Hpriv. unfold vbyte. destruct (page_of other (page_base b)) as [m|] eqn:Hm; [|done].
  rewrite Hk; [done| |by apply Hpriv]. apply list_elem_of_bind. exists other. split; [|done].
  unfold page_of in Hm. apply fmap_Some in Hm as ([i x] & Hf & ->). unfold find_mapping in Hf.
  destruct (binary_search_by_key _ _ _) as [j|]; [|done]. destruct (mappings other !! j) eqn:Hj; simplify_eq/=.
  by eapply list_elem_of_lookup_2.
Qed.

Lemma write_rule ext rest sp w am a buf :
  good ext rest sp w am → in_u64 a →
  wp_res (write a buf) (sp, w)
    (λ n s', n = Z.of_nat (length buf) ∧ ∃ am', good ext rest s'.1 s'.2 am' ∧ mem_written am sp a buf am' s'.1 ∧
       undisturbed rest am am')
    (λ _ s', ∃ am', rep s'.2 am' ∧ undisturbed rest am am').
Proof.
  intros Hg Ha. eapply wp_res_mono; [apply (write_loop_rule rep round1 foreign US); try done; lia|..]; cbv beta.
  - intros n s' (am' & -> & Hg' & Hk & Hmw). split; [lia|]. exists am'. split; [done|]. split; [done|]. by apply keeps_undisturbed.
  - intros e s' [(am' & Hr & Hk) _]. exists am'. split; [done|]. by apply keeps_undisturbed.
Qed.

Lemma read_rule ext rest sp w am a n :
  good ext rest sp w am → in_u64 a → 0 <= n →
  wp_res (read a n) (sp, w)
    (λ bytes s', ∃ am', good ext rest s'.1 s'.2 am' ∧ same_data rest am am' ∧ mem_same am sp am' s'.1 ∧
       Z.of_nat (length bytes) = n ∧
       (areas_wf (vmas sp) → ∀ i b, bytes !! i = Some b → vbyte am sp (a + Z.of_nat i) = Some b))
    (λ _, stays rep round1 foreign ext rest am sp).
Proof.
  intros Hg Ha Hn. eapply wp_res_mono; [apply (read_loop_rule rep round1 foreign US (Z.to_nat n) ext rest sp w am); try done; simpl; lia|..]; cbv beta; [|done].
  intros bytes s' (am' & more & Hg' & Hsame & Hms & -> & Hlen & _ & Hb). exists am'. simpl in *. split; [done|]. split; [done|].
  split; [done|]. split; [lia|]. done.
Qed.


(** C10. What a process has written to private memory is what it reads back,
    through demand paging and copy on write. *)
Theorem user_write_read ext rest sp w am a buf :
  good ext rest sp w am → in_u64 a → areas_wf (vmas sp) →
  (∀ i, (i < length buf)%nat → private sp (a + Z.of_nat i)) → a + Z.of_nat (length buf) <= u64_max →
  wp_res (_ ← write a buf; read_user_exact a (Z.of_nat (length buf))) (sp, w) (λ bytes _, bytes = buf) (λ _ _, True).
Proof.
  intros Hg Ha Hwf Hpriv Hmax. sp_step. eapply wp_res_mono; [by apply write_rule|..]; cbv beta; [|done].
  intros n [sp1 w1] (_ & am1 & Hg1 & Hmw & _). unfold read_user_exact. sp_step.
  eapply wp_res_mono; [apply (read_rule ext rest sp1 w1 am1); [done|done|lia]|..]; cbv beta; [|done].
  intros bytes s' (am2 & _ & _ & _ & Hlen & Hb). destruct (decide _) as [|_]; [done|]. sp_run.
  assert (vmas sp1 = vmas sp) as Hv by apply same_frame_vmas, Hmw.
  apply list_eq_same_length with (n := length buf); [done|lia|]. intros i x y Hi Hx Hy.
  assert (vbyte am1 sp1 (a + Z.of_nat i) = Some x) as Hvx by (apply Hb; [by rewrite Hv|done]).
  rewrite (mw_bytes _ _ _ _ _ _ Hmw Hwf) in Hvx by (apply Hpriv; lia) || (unfold in_u64 in *; lia).
  rewrite decide_True in Hvx by lia. replace (Z.to_nat (a + Z.of_nat i - a)) with i in Hvx by lia. congruence.
Qed.

(** C8. [fork] makes a copy: parent and child have the memory the parent had,
    and afterwards a write by either of them is not seen by the other, nor by
    anybody else.  A failed fork leaves the parent's memory as it was. *)
Theorem user_fork_copies ext rest sp w am a buf :
  good ext rest sp w am → in_u64 a →
  wp_res fork_cow (sp, w)
    (λ child s', ∃ am', good ext (s'.1 :: rest) child s'.2 am' ∧
       mem_equal am sp am' s'.1 ∧ mem_equal am sp am' child ∧ undisturbed rest am am' ∧
       wp_res (write a buf) (child, s'.2)
         (λ _ s2, ∃ am2, rep s2.2 am2 ∧ undisturbed (s'.1 :: rest) am' am2)
         (λ _ s2, ∃ am2, rep s2.2 am2 ∧ undisturbed (s'.1 :: rest) am' am2) ∧
       wp_res (write a buf) s'
         (λ _ s2, ∃ am2, rep s2.2 am2 ∧ undisturbed (child :: rest) am' am2)
         (λ _ s2, ∃ am2, rep s2.2 am2 ∧ undisturbed (child :: rest) am' am2))
    (λ _ s', ∃ ext' am', (∀ n, ext n <= ext' n) ∧ good ext' rest s'.1 s'.2 am' ∧ mem_equal am sp am' s'.1 ∧
       undisturbed rest am am').
Proof.
  intros Hg Ha. eapply wp_res_mono; [by apply (fork_cow_rule rep round1 foreign US)|..]; cbv beta.
  - intros child [sp' w'] (am' & Hg' & Hd & Hmp & Hmc). exists am'. cbn [fst snd] in *.
    assert (good ext (child :: rest) sp' w' am') as Hgp.
    { destruct Hg' as [Hr Hs]. split; [done|]. eapply system_perm; [apply Permutation_swap|done]. }
    split; [done|]. split; [done|]. split; [done|]. split; [apply keeps_undisturbed; by intros m _ _; rewrite Hd|]. split.
    + eapply wp_res_mono; [by apply (write_rule ext (sp' :: rest) child w' am')|..]; cbv beta; [|done].
      intros n s2 (_ & am2 & Hg2 & _ & Hu). exists am2. split; [apply Hg2|done].
    + eapply wp_res_mono; [by apply (write_rule ext (child :: rest) sp' w' am')|..]; cbv beta; [|done].
      intros n s2 (_ & am2 & Hg2 & _ & Hu). exists am2. split; [apply Hg2|done].
  - intros e s' (ext' & am' & Hle & Hg' & Hd & Hm). exists ext', am'. split; [done|]. split; [done|]. split; [done|].
    apply keeps_undisturbed. by intros m _ _; rewrite Hd.
Qed.

(** The access that a fault's error code names. *)
Definition fault_write (error_code : Z) : bool := negb (Z.land error_code 2 =? 0).

(** C11. A page fault that is [Resolved] leaves the page present, writable for a
    write fault, with the memory of the process and of all others as a program
    sees it unchanged; [InvalidateTlb] means that the tables already allow the
    access; [Unhandled] means that the page is mapped without the permission,
    or that no area lets it be mapped for this access. *)
Theorem user_page_fault_correct ext rest sp w am a code :
  good ext rest sp w am → in_u64 a →
  wp_res (handle_page_fault a code) (sp, w)
    (λ r s', match r with
      | Resolved => accessed rep round1 foreign ext rest am sp a (fault_write code) s'
      | InvalidateTlb => s' = (sp, w) ∧ ∃ m, page_of sp (page_base a) = Some m ∧ fault_access_allowed m code = true
      | Unhandled => s' = (sp, w) ∧
          match page_of sp (page_base a) with
          | Some m => fault_access_allowed m code = false
          | None => lazy_areas (page_base a) (vmas sp) = [] ∨
              fault_write code = true ∧ Z.testbit (merged_flags (lazy_areas (page_base a) (vmas sp))) 1 = false
          end
      end)
    (λ _ s', spared rep rest am s'.2).
Proof.
  intros Hg Ha. pose proof (good_sorted _ _ _ _ _ _ _ _ Hg) as Hsort. pose proof (page_base_range a Ha) as (Hr & Hal & H0).
  unfold handle_page_fault. sp_run. fold (page_base a) (fault_write code). rewrite mapping_page_of, page_base_idem by done.
  destruct (page_of sp (page_base a)) as [m|] eqn:Hm.
  - destruct (fault_write code && mp_cow m) eqn:Hc; sp_run.
    + apply andb_true_iff in Hc as [Hw Hc]. rewrite Hw.
      eapply wp_res_mono; [by apply (cow_accessed rep round1 foreign US ext rest sp w am a m)|..]; cbv beta; [|done].
      intros _ s' Hacc. done.
    + destruct (fault_access_allowed m code) eqn:Hf; [|done]. split; [done|]. by exists m.
  - sp_step. eapply wp_res_mono; [by apply (map_lazy_rule rep round1 foreign US)|..]; cbv beta.
    2:{ intros e s' (am' & Hsp & Hg' & Hsame). exists am'. split; [apply Hg'|]. intros x Hx. apply Hsame, elem_of_app. by right. }
    intros [] s'; sp_run; [|done]. intros (Hne & Hp & Hw).
    destruct (lazy_page_same rep round1 foreign ext rest am sp a s' Ha Hsort Hne Hp) as (am' & m & Hg' & Hsame & Hms & Hot & Hpm & Hc & Ho & Hfl).
    exists am'. split; [done|]. split; [done|]. split; [done|]. split; [done|]. exists m. split; [done|]. intros Hwr. split; [done|].
    rewrite Hfl, merged_bit, in_order_perm, <-merged_bit. by apply Hw.
Qed.

(** C12. Dropping an address space gives back its pages: afterwards no block
    that backed only pages of this space is allocated, the count of every block
    still allocated is the number of mappings of the other spaces that refer to
    it (and of holders outside), and the memory of the other processes is
    unchanged.  Blocks are those that mapped pages refer to; the frames of the
    page tables are not among them, and the frame of the root table is in fact
    never given back. *)
Theorem user_drop_releases ext rest sp w am :
  good ext rest sp w am →
  wp_res drop_space (sp, w)
    (λ _ s', ∃ am', rep s'.2 am' ∧ system ext am' rest ∧ undisturbed rest am am' ∧
       (∀ n len rc, am_blocks am' !! n = Some (len, rc) → rc = ext n + refs (all_mappings rest) n) ∧
       ∀ n, ext n = 0 → refs (all_mappings rest) n = 0 → am_blocks am' !! n = None)
    (λ _ _, False).
Proof.
  intros Hg. eapply wp_res_mono; [by apply (drop_space_rule rep round1 foreign US)|..]; cbv beta; [|done].
  intros _ s' (am' & Hr & Hs & Hd). exists am'. split; [done|]. split; [done|].
  split; [apply keeps_undisturbed; by intros m _ _; rewrite Hd|]. split; [apply (sy_refs _ _ _ _ _ Hs)|].
  intros n He Hz. destruct (am_blocks am' !! n) as [[len rc]|] eqn:Hb; [|done].
  pose proof (sy_refs _ _ _ _ _ Hs n len rc Hb). pose proof (us_live rep round1 foreign _ am' n len rc Hr Hb). lia.
Qed.

(** [munmap] removes the pages and the areas of exactly the range, rounded
    up to pages, and keeps the areas sorted and disjoint; it fails, without any
    effect, only on an empty range or an address that is not on a page. *)
Theorem user_munmap_exact ext rest sp w am addr len :
  good ext rest sp w am → separated (vmas sp) → 0 <= addr → 0 <= len → addr + len <= 2 ^ 47 - 4096 →
  wp_res (munmap addr len) (sp, w)
    (λ _ s', ∃ am', good ext rest s'.1 s'.2 am' ∧ am_data am' = am_data am ∧ separated (vmas s'.1) ∧
       (∀ va, page_of s'.1 va = if decide (addr <= va < addr + round_up len) then None else page_of sp va) ∧
       ∀ a, cover (vmas s'.1) a = if decide (addr <= a < addr + round_up len) then [] else cover (vmas sp) a)
    (λ e s', e = AddressOverflow ∧ s' = (sp, w) ∧ (len = 0 ∨ addr mod 4096 ≠ 0)).
Proof.
  intros Hg Hsep Ha Hl Hmax. pose proof (round_up_spec len Hl) as (Hr1 & _).
  eapply wp_res_mono; [by apply (munmap_rule rep round1 foreign US)|..]; cbv beta; [|done].
  intros _ s' (_ & _ & am' & Hg' & Hd & Hsp & Hp). exists am'. split; [done|]. split; [done|].
  assert (vmas s'.1 = remove_vma_range addr (addr + round_up len) (vmas sp)) as Hv by by rewrite Hsp.
  rewrite Hv. split; [apply remove_vma_range_separated; [done|lia]|]. split; [done|]. intros a.
  apply remove_vma_range_cover; [by apply separated_wf|lia].
Qed.

(** An anonymous [mmap] at an address of the kernel's choice returns the
    pages right below the lowest area between the break and the top of the
    mapping region; they overlap no area, and afterwards exactly they are a new
    area with the given flags.  It fails, without any effect, only if the pages
    do not fit. *)
Theorem user_mmap_fresh ext rest sp w am addr len flags page_flags :
  good ext rest sp w am → areas_searchable sp → 0 < len → len <= u64_max - 8190 →
  Z.land flags MAP_ANONYMOUS ≠ 0 → Z.land flags MAP_FIXED = 0 → Z.land flags MAP_FIXED_NOREPLACE = 0 →
  Z.testbit page_flags 3 = true →
  wp_res (mmap_anonymous addr len flags page_flags) (sp, w)
    (λ base s', base + round_up len = mmap_ceiling sp ∧ round_up (brk_limit sp) <= base ∧
       vma_range_overlaps base (base + round_up len) (vmas sp) = false ∧ good ext rest s'.1 s'.2 am ∧
       s'.1 = set_vmas (vmas s'.1) sp ∧ separated (vmas s'.1) ∧
       ∀ a, cover (vmas s'.1) a =
         if decide (base <= a < base + round_up len) then [mkAttr page_flags (kind_tag Anonymous) true None 0] else cover (vmas sp) a)
    (λ e s', s' = (sp, w) ∧ e = BuildFrame OutOfMemory ∧ mmap_ceiling sp - round_up len < round_up (brk_limit sp)).
Proof. intros. by apply (mmap_anonymous_rule rep round1 foreign). Qed.
End theorems.

(** ** Examples on the small machine *)

Section examples.
#[local] Existing Instance Demo.demo_machine.

Abbreviation demo_good := (good Demo.rep 1 Demo.foreign (λ _, 0)).

Definition demo_empty : abstract := mkAbs ∅ ∅ (λ _, zero_bytes).
Definition demo_root : PhysFrame := match (new_space demo_empty).1 with Ok sp => space_root sp | _ => frame_of 0 end.
Definition demo_area : UserVma := mkVma 0x400000 0x402000 RW_USER Anonymous true.
Definition demo_space : UserAddressSpaceInner :=
  mkSpace layout_current demo_root 0 [] [demo_area] 0x40000000 0x40000000 0x41000000.
Definition demo_start : abstract := (new_space demo_empty).2.
Definition demo_bytes : list Z := [1; 2; 3; 4; 5; 6; 7; 8].

(** Two pages are faulted in by a write that crosses their boundary. *)
Definition demo_written : UserAddressSpaceInner * abstract := (write 0x400ffc demo_bytes (demo_space, demo_start)).2.
Definition demo_forked : outcome BuildError UserAddressSpaceInner * (UserAddressSpaceInner * abstract) := fork_cow demo_written.

Lemma demo_new : new_space demo_empty = (Ok (mkSpace layout_current (frame_of 64) 0 [] [] 0 0 0), set_space (frame_of 64) ∅ demo_empty).
Proof. reflexivity. Qed.

Lemma demo_start_good : demo_good [] demo_space demo_start demo_start.
Proof.
  assert (demo_start = set_space (frame_of 64) ∅ demo_empty) as -> by reflexivity. split; [done|].
  apply (system_new 1 Demo.foreign (λ _, 0) demo_empty [] demo_space); [|done|done|].
  - split; try done; simpl; try (by constructor); intros; set_solver.
  - apply Forall_singleton. split; [done| |done]. by vm_compute.
Qed.

Lemma demo_write_ok : (write 0x400ffc demo_bytes (demo_space, demo_start)).1 = Ok 8.
Proof. by vm_compute. Qed.

Lemma wp_res_Ok {S E A} (m : M S E A) s a (Q : A → S → Prop) (Qe : E → S → Prop) :
  wp_res m s Q Qe → (m s).1 = Ok a → Q a (m s).2.
Proof. unfold wp_res, wp. intros H Ha. by rewrite Ha in H. Qed.

Lemma demo_written_good :
  ∃ am, demo_good [] demo_written.1 demo_written.2 am ∧ vmas demo_written.1 = [demo_area] ∧
    brk_limit demo_written.1 = 0x41000000 ∧ layout demo_written.1 = layout_current.
Proof.
  assert (in_u64 0x400ffc) as Ha by by vm_compute.
  destruct (wp_res_Ok _ _ _ _ _ (write_rule Demo.rep 1 Demo.foreign Demo.demo_spec (λ _, 0) [] demo_space demo_start demo_start
    0x400ffc demo_bytes demo_start_good Ha) demo_write_ok) as (_ & am & Hg & Hmw & _).
  exists am. split; [exact Hg|]. apply mw_frame in Hmw as Hf. unfold same_frame in Hf.
  assert (demo_written.1 = set_mappings (mappings demo_written.1) demo_space) as Hw by exact Hf.
  rewrite Hw. split_and!; reflexivity.
Qed.

Lemma demo_separated : separated [demo_area].
Proof. split; [split; [by vm_compute|done]|]. done. Qed.

Lemma demo_areas_wf : areas_wf [demo_area].
Proof. split; [apply separated_monotone, demo_separated|]. by apply Forall_singleton. Qed.


Lemma user_write_read_witness :
  wp_res (_ ← write 0x400ffc demo_bytes; read_user_exact 0x400ffc 8) (demo_space, demo_start)
    (λ bytes _, bytes = demo_bytes) (λ _ _, True).
Proof.
  apply (user_write_read Demo.rep 1 Demo.foreign Demo.demo_spec (λ _, 0) [] demo_space demo_start demo_start 0x400ffc demo_bytes demo_start_good).
  - by vm_compute.
  - exact demo_areas_wf.
  - intros i _ m Hm. done.
  - by vm_compute.
Defined.

Lemma user_fork_copies_witness :
  (∃ child, demo_forked.1 = Ok child) ∧
  ∃ am, wp_res fork_cow demo_written
    (λ child s', ∃ am', demo_good [s'.1] child s'.2 am' ∧
       mem_equal am demo_written.1 am' s'.1 ∧ mem_equal am demo_written.1 am' child ∧ undisturbed [] am am' ∧
       wp_res (write 0x400000 [7; 7]) (child, s'.2)
         (λ _ s2, ∃ am2, Demo.rep s2.2 am2 ∧ undisturbed [s'.1] am' am2)
         (λ _ s2, ∃ am2, Demo.rep s2.2 am2 ∧ undisturbed [s'.1] am' am2) ∧
       wp_res (write 0x400000 [7; 7]) s'
         (λ _ s2, ∃ am2, Demo.rep s2.2 am2 ∧ undisturbed [child] am' am2)
         (λ _ s2, ∃ am2, Demo.rep s2.2 am2 ∧ undisturbed [child] am' am2))
    (λ _ s', ∃ ext' am', (∀ n, 0 <= ext' n) ∧ good Demo.rep 1 Demo.foreign ext' [] s'.1 s'.2 am' ∧
       mem_equal am demo_written.1 am' s'.1 ∧ undisturbed [] am am').
Proof.
  split; [by eexists; vm_compute|]. destruct demo_written_good as (am & Hg & _). exists am.
  rewrite (surjective_pairing demo_written).
  exact (user_fork_copies Demo.rep 1 Demo.foreign Demo.demo_spec (λ _, 0) [] _ _ am 0x400000 [7; 7] Hg ltac:(by vm_compute)).
Defined.

Lemma user_page_fault_correct_witness :
  (handle_page_fault 0x400123 6 (demo_space, demo_start)).1 = Ok Resolved ∧
  wp_res (handle_page_fault 0x400123 6) (demo_space, demo_start)
    (λ r s', match r with
      | Resolved => accessed Demo.rep 1 Demo.foreign (λ _, 0) [] demo_start demo_space 0x400123 true s'
      | InvalidateTlb => s' = (demo_space, demo_start) ∧
          ∃ m, page_of demo_space (page_base 0x400123) = Some m ∧ fault_access_allowed m 6 = true
      | Unhandled => s' = (demo_space, demo_start) ∧
          match page_of demo_space (page_base 0x400123) with
          | Some m => fault_access_allowed m 6 = false
          | None => lazy_areas (page_base 0x400123) [demo_area] = [] ∨
              fault_write 6 = true ∧ Z.testbit (merged_flags (lazy_areas (page_base 0x400123) [demo_area])) 1 = false
          end
      end)
    (λ _ s', spared Demo.rep [] demo_start s'.2).
Proof.
  split; [by vm_compute|].
  exact (user_page_fault_correct Demo.rep 1 Demo.foreign Demo.demo_spec (λ _, 0) [] _ _ demo_start 0x400123 6 demo_start_good ltac:(by vm_compute)).
Defined.

Lemma user_drop_releases_witness :
  am_blocks (drop_space demo_written).2.2 = ∅ ∧
  ∃ am, wp_res drop_space demo_written
    (λ _ s', ∃ am', Demo.rep s'.2 am' ∧ SpaceInv.system 1 Demo.foreign (λ _, 0) am' [] ∧ undisturbed [] am am' ∧
       (∀ n len rc, am_blocks am' !! n = Some (len, rc) → rc = 0 + refs (all_mappings []) n) ∧
       ∀ n, 0 = 0 → refs (all_mappings []) n = 0 → am_blocks am' !! n = None)
    (λ _ _, False).
Proof.
  split; [by vm_compute|]. destruct demo_written_good as (am & Hg & _). exists am.
  rewrite (surjective_pairing demo_written).
  exact (user_drop_releases Demo.rep 1 Demo.foreign Demo.demo_spec (λ _, 0) [] _ _ am Hg).
Defined.

Lemma user_munmap_exact_witness :
  ∃ am, wp_res (munmap 0x400000 4096) demo_written
    (λ _ s', ∃ am', demo_good [] s'.1 s'.2 am' ∧ am_data am' = am_data am ∧ separated (vmas s'.1) ∧
       (∀ va, page_of s'.1 va = if decide (0x400000 <= va < 0x400000 + round_up 4096) then None else page_of demo_written.1 va) ∧
       ∀ a, cover (vmas s'.1) a = if decide (0x400000 <= a < 0x400000 + round_up 4096) then [] else cover (vmas demo_written.1) a)
    (λ e s', e = AddressOverflow ∧ s' = (demo_written.1, demo_written.2) ∧ (4096 = 0 ∨ 0x400000 mod 4096 ≠ 0)).
Proof.
  destruct demo_written_good as (am & Hg & Hv & _). exists am. rewrite (surjective_pairing demo_written) at 1.
  apply (user_munmap_exact Demo.rep 1 Demo.foreign Demo.demo_spec); [exact Hg|rewrite Hv; exact demo_separated|by vm_compute..].
Defined.

Lemma demo_searchable sp :
  vmas sp = [demo_area] → brk_limit sp = 0x41000000 → layout sp = layout_current → areas_searchable sp.
Proof.
  intros Hv Hb Hl. split; rewrite ?Hv, ?Hb, ?Hl.
  - exact demo_separated.
  - apply Forall_singleton. split; [by vm_compute|by vm_compute|by vm_compute|by right; vm_compute].
  - intros v ->%list_elem_of_singleton. done.
  - by vm_compute.
  - by vm_compute.
Qed.

Lemma user_mmap_fresh_witness :
  ∃ am, wp_res (mmap_anonymous 0 5000 MAP_ANONYMOUS RW_USER) demo_written
    (λ base s', base + round_up 5000 = mmap_ceiling demo_written.1 ∧ round_up (brk_limit demo_written.1) <= base ∧
       vma_range_overlaps base (base + round_up 5000) (vmas demo_written.1) = false ∧ demo_good [] s'.1 s'.2 am ∧
       s'.1 = set_vmas (vmas s'.1) demo_written.1 ∧ separated (vmas s'.1) ∧
       ∀ a, cover (vmas s'.1) a = if decide (base <= a < base + round_up 5000)
              then [mkAttr RW_USER (kind_tag Anonymous) true None 0] else cover (vmas demo_written.1) a)
    (λ e s', s' = (demo_written.1, demo_written.2) ∧ e = BuildFrame OutOfMemory ∧
       mmap_ceiling demo_written.1 - round_up 5000 < round_up (brk_limit demo_written.1)).
Proof.
  destruct demo_written_good as (am & Hg & Hv & Hb & Hl). exists am. rewrite (surjective_pairing demo_written) at 1.
  apply (user_mmap_fresh Demo.rep 1 Demo.foreign Demo.demo_spec); [exact Hg|by apply demo_searchable|by vm_compute..].
Defined.
End examples.
