(* ===== verification/StackProof.v ===== *)
(** * Building programs

    Models the rest of [aether-kernel/libs/aether-process/src/process.rs]: the
    initial stack of a program ([StackWriter], [initialize_linux_stack]), the
    values of [AT_RANDOM], and the two builders.  [ProcessBuilder] of
    [aether-frame], which fills the registers of a task, is a parameter.

    A string is the list of its bytes.  The writer's state is the address space
    with its machine, the cursor and the seed of the random values. *)

From S2P Require Import Prelude Frame PageTable Image Vma VmaProof UserSpace SpaceApi SpaceInv SpaceProof SpaceFault SpaceDemo SpaceTheorems.

Definition DEFAULT_EXECFN : list Z := [60; 97; 101; 116; 104; 101; 114; 45; 112; 114; 111; 99; 101; 115; 115; 62].
Definition ELF64_PHDR_SIZE : Z := 56.

Definition AT_NULL : Z := 0.
Definition AT_PHDR : Z := 3.
Definition AT_PHENT : Z := 4.
Definition AT_PHNUM : Z := 5.
Definition AT_PAGESZ : Z := 6.
Definition AT_BASE : Z := 7.
Definition AT_FLAGS : Z := 8.
Definition AT_ENTRY : Z := 9.
Definition AT_UID : Z := 11.
Definition AT_EUID : Z := 12.
Definition AT_GID : Z := 13.
Definition AT_EGID : Z := 14.
Definition AT_PLATFORM : Z := 15.
Definition AT_HWCAP : Z := 16.
Definition AT_CLKTCK : Z := 17.
Definition AT_SECURE : Z := 23.
Definition AT_BASE_PLATFORM : Z := 24.
Definition AT_RANDOM : Z := 25.
Definition AT_HWCAP2 : Z := 26.
Definition AT_EXECFN : Z := 31.
Definition AT_SYSINFO_EHDR : Z := 33.
Definition AT_MINSIGSTKSZ : Z := 51.

(** ** Random values *)

Definition mix64 (value : Z) : Z :=
  let value := Z.lxor value (Z.shiftr value 30) in
  let value := wrapping_mul u64_max value 0xbf58476d1ce4e5b9 in
  let value := Z.lxor value (Z.shiftr value 27) in
  let value := wrapping_mul u64_max value 0x94d049bb133111eb in
  Z.lxor value (Z.shiftr value 31).

Definition rotate_left (x n : Z) : Z :=
  Z.lor (Z.land (Z.shiftl x n) u64_max) (Z.shiftr x (64 - n)).

(** [compare_exchange] against [seed], which no other processor changes: a
    failure loads the seed. *)
Fixpoint random_loop (fuel : nat) (current seed : Z) : option Z :=
  match fuel with
  | O => None
  | S fuel' => if decide (current = seed) then Some (mix64 current) else random_loop fuel' seed seed
  end.

(** The values and the new seed. *)
Definition next_aux_random (ticks seed : Z) : option (Z * Z * Z) :=
  first ← random_loop 2 (Z.lxor seed (rotate_left ticks 17)) seed;
  Some (first, mix64 (Z.lxor first 16), first).

Definition random_values_as_bytes (a b : Z) : list Z := le_bytes 8 a ++ le_bytes 8 b.

(** ** The auxiliary vector *)

Record LinuxAuxVector := mkAux {
  aux_phdr : Z; aux_phent : Z; aux_phnum : Z; aux_base : Z; aux_entry : Z;
  aux_uid : Z; aux_euid : Z; aux_gid : Z; aux_egid : Z;
  aux_clock_tick : Z; aux_page_size : Z; aux_flags : Z; aux_secure : Z;
  aux_hwcap : Z; aux_hwcap2 : Z; aux_sysinfo_ehdr : Z; aux_minsigstksz : Z;
}.

Definition LinuxAuxVector_new : LinuxAuxVector :=
  mkAux 0 ELF64_PHDR_SIZE 0 0 0 0 0 0 0 100 PAGE_SIZE 0 0 0 0 0 2048.

Definition with_entry (entry : Z) (a : LinuxAuxVector) : LinuxAuxVector :=
  if decide (aux_entry a = 0) then
    mkAux (aux_phdr a) (aux_phent a) (aux_phnum a) (aux_base a) entry (aux_uid a) (aux_euid a) (aux_gid a) (aux_egid a)
      (aux_clock_tick a) (aux_page_size a) (aux_flags a) (aux_secure a) (aux_hwcap a) (aux_hwcap2 a)
      (aux_sysinfo_ehdr a) (aux_minsigstksz a)
  else a.

Record LinuxStackInfo := mkStackInfo {
  stack_pointer : Z;
  arg_start : Z;
  arg_end : Z;
  env_start : Z;
  env_end : Z;
  execfn_ptr : Z;
  random_ptr : Z;
}.

(** [(key, value)] in the order of the array. *)
Definition aux_entries (execfn random platform : Z) (a : LinuxAuxVector) : list (Z * Z) :=
  [(AT_EXECFN, execfn); (AT_RANDOM, random); (AT_BASE_PLATFORM, 0);
   (AT_EGID, aux_egid a); (AT_GID, aux_gid a); (AT_EUID, aux_euid a); (AT_UID, aux_uid a);
   (AT_ENTRY, aux_entry a); (AT_MINSIGSTKSZ, aux_minsigstksz a); (AT_FLAGS, aux_flags a);
   (AT_HWCAP, aux_hwcap a); (AT_HWCAP2, aux_hwcap2 a); (AT_PLATFORM, platform); (AT_SECURE, aux_secure a);
   (AT_PHNUM, aux_phnum a); (AT_PHENT, aux_phent a); (AT_PHDR, aux_phdr a); (AT_PAGESZ, aux_page_size a);
   (AT_CLKTCK, aux_clock_tick a); (AT_BASE, aux_base a); (AT_SYSINFO_EHDR, aux_sysinfo_ehdr a)].

(** [arch_platform_string()] on x86_64 *)
Definition platform_string : option (list Z) := Some [120; 56; 54; 95; 54; 52].

Definition pages_for (len : Z) : Z := (len + PAGE_SIZE - 1) / PAGE_SIZE.

Section stack.
Context {W : Type} {U : UserMachine W}.

Record StackWriter := mkWriter {
  wr_space : UserAddressSpaceInner * W;
  wr_cursor : Z;
  wr_seed : Z;
}.

Definition MS := M StackWriter BuildError.

Definition set_cursor (c : Z) : MS unit := mmodify (λ s, mkWriter (wr_space s) c (wr_seed s)).

(** [self.address_space.write(..).map_err(|_| BuildError::AddressOverflow)?] *)
Definition on_space {A} (op : MU (W := W) A) : MS A := λ s,
  match op (wr_space s) with
  | (Ok a, s') => (Ok a, mkWriter s' (wr_cursor s) (wr_seed s))
  | (Err _, s') => (Err AddressOverflow, mkWriter s' (wr_cursor s) (wr_seed s))
  | (Panic, s') => (Panic, mkWriter s' (wr_cursor s) (wr_seed s))
  | (Diverge, s') => (Diverge, mkWriter s' (wr_cursor s) (wr_seed s))
  end.

Definition push_raw_bytes (base : Z) (bytes : list Z) : MS Z :=
  s ← mget;
  cursor ← mok_or (checked_sub (wr_cursor s) (Z.of_nat (length bytes))) AddressOverflow;
  _ ← set_cursor cursor;
  if decide (cursor < base) then mthrow StackOverflow
  else
    written ← on_space (write cursor bytes);
    if decide (written ≠ Z.of_nat (length bytes)) then mthrow AddressOverflow else mret cursor.

Definition push_u64 (base value : Z) : MS Z := push_raw_bytes base (le_bytes 8 value).
Definition push_u8 (base value : Z) : MS Z := push_raw_bytes base [value].

Definition push_c_string (base : Z) (bytes : list Z) : MS Z :=
  _ ← push_u8 base 0;
  push_raw_bytes base bytes.

(** [StackWriter::align_down] *)
Definition cursor_align_down (align : Z) : MS unit :=
  s ← mget; set_cursor (Z.land (wr_cursor s) (u64_max - (align - 1))).

(** [for entry in strings.iter().rev()]: the list is reversed; the addresses
    are collected in the order of the pushes. *)
Fixpoint push_strings (base : Z) (rev_strings : list (list Z)) (addrs : list Z) (low high : Z) : MS (list Z * (Z * Z)) :=
  match rev_strings with
  | [] => mret (addrs, (low, high))
  | entry :: rest =>
      ptr ← push_c_string base entry;
      end_ ← add64 ptr (Z.of_nat (length entry) + 1);
      push_strings base rest (addrs ++ [ptr]) (low `min` ptr) (high `max` end_)
  end.

(** A sequence of [push_u64]. *)
Fixpoint push_words (base : Z) (words : list Z) : MS unit :=
  match words with
  | [] => mret ()
  | word :: rest => _ ← push_u64 base word; push_words base rest
  end.

Definition take_random (ticks : Z) : MS (Z * Z) := λ s,
  match next_aux_random ticks (wr_seed s) with
  | Some (a, b, seed) => (Ok (a, b), mkWriter (wr_space s) (wr_cursor s) seed)
  | None => (Diverge, s)
  end.

Definition initialize_linux_stack (ticks base : Z) (argv envp : list (list Z)) (execfn : option (list Z))
    (auxv : LinuxAuxVector) : MS LinuxStackInfo :=
  let execfn_name := default DEFAULT_EXECFN execfn in
  execfn_ptr ← push_c_string base execfn_name;
  platform_ptr ← match platform_string with
                 | Some platform => push_c_string base platform
                 | None => mret 0
                 end;
  '(r1, r2) ← take_random ticks;
  random_ptr ← push_raw_bytes base (random_values_as_bytes r1 r2);
  '(env_rev, (env_low, env_high)) ← push_strings base (rev envp) [] u64_max 0;
  let env_addrs := rev env_rev in
  '(argv_rev, (arg_low, arg_high)) ← push_strings base (rev argv) [] u64_max 0;
  let argv_addrs := rev argv_rev in
  let entries := aux_entries execfn_ptr random_ptr platform_ptr auxv in
  let qwords_to_push := (length entries * 2 + length argv_addrs + length env_addrs + 3)%nat in
  _ ← cursor_align_down 16;
  _ ← (if Nat.even qwords_to_push then mret () else _ ← push_u64 base 0; mret ());
  _ ← push_words base [0; AT_NULL];
  _ ← push_words base (entries ≫= λ '(key, value), [value; key]);
  _ ← push_words base [0];
  _ ← push_words base (rev env_addrs);
  _ ← push_words base [0];
  _ ← push_words base (rev argv_addrs);
  _ ← push_words base [Z.of_nat (length argv_addrs)];
  s ← mget;
  mret (mkStackInfo (wr_cursor s)
          (if decide (argv_addrs = []) then 0 else arg_low) (if decide (argv_addrs = []) then 0 else arg_high)
          (if decide (env_addrs = []) then 0 else env_low) (if decide (env_addrs = []) then 0 else env_high)
          execfn_ptr random_ptr).

(** ** The builders *)

(** [ProcessBuilder::new(entry, stack).address_space_root(root).build()] *)
Context {Process : Type} (build_process : Z → Z → PhysFrame → outcome BuildError Process).

Record BuiltProcess := mkBuilt {
  bp_process : Process;
  bp_stack : LinuxStackInfo;
}.

(** The state of a builder is that of the writer without a cursor. *)
Definition in_space {A} (op : MU (W := W) A) : MS A := λ s,
  let '(r, s') := op (wr_space s) in (r, mkWriter s' (wr_cursor s) (wr_seed s)).

Definition lift_image {A} (r : outcome ImageError A) : MS A :=
  match r with
  | Ok a => mret a
  | Err e => mthrow (build_from_image e)
  | Panic => mpanic
  | Diverge => mdiverge
  end.

Definition lift_build {A} (r : outcome BuildError A) : MS A := λ s, (r, s).

Definition init_stack (ticks base top : Z) (argv envp : list (list Z)) (execfn : option (list Z)) (auxv : LinuxAuxVector)
    : MS LinuxStackInfo :=
  _ ← set_cursor top;
  initialize_linux_stack ticks base argv envp (match execfn with Some e => Some e | None => head argv end) auxv.

(** Unchecked [*]; the later products are not larger than the first. *)
Definition mul64 {S E} (a b : Z) : M S E Z := mexpect (if decide (a * b <= u64_max) then Some (a * b) else None).

(** [UserProgramBuilder::build] after [UserAddressSpace::new] *)
Definition build_flat (ticks : Z) (code : ProgramImageSource) (stack_pages : Z) (argv envp : list (list Z))
    (execfn : option (list Z)) (auxv : LinuxAuxVector) : MS BuiltProcess :=
  let code_pages := pages_for (src_len code) in
  let stack_pages := stack_pages `max` 1 in
  let total_pages := code_pages + stack_pages in
  len ← mul64 total_pages PAGE_SIZE;
  region_base ← in_space (allocate_region len);
  stack_base ← mok_or (checked_add u64_max region_base (code_pages * PAGE_SIZE)) AddressOverflow;
  stack_top ← mok_or (checked_add u64_max stack_base (stack_pages * PAGE_SIZE)) AddressOverflow;
  _ ← in_space (load_flat_image region_base code);
  _ ← in_space (map_stack stack_base stack_pages);
  _ ← in_space initialize_heap;
  stack ← init_stack ticks stack_base stack_top argv envp execfn (with_entry region_base auxv);
  s ← mget;
  process ← lift_build (build_process region_base (stack_pointer stack) (space_root (wr_space s).1));
  mret (mkBuilt process stack).

(** [ElfProgramBuilder::build] after the images were parsed and the space was
    created. *)
Definition build_elf (ticks : Z) (source : ProgramImageSource) (executable : ElfImage)
    (interpreter : option (ProgramImageSource * ElfImage)) (stack_pages : Z) (argv envp : list (list Z))
    (execfn : option (list Z)) : MS BuiltProcess :=
  let stack_pages := stack_pages `max` 1 in
  len ← mul64 stack_pages PAGE_SIZE;
  stack_top ← in_space (allocate_stack len);
  stack_base ← mok_or (checked_sub stack_top len) AddressOverflow;
  s ← mget;
  let l := layout (wr_space s).1 in
  let executable_bias := load_bias executable (pie_base l) in
  _ ← in_space (load_elf_image source executable executable_bias);
  interpreter_bias ← match interpreter with
                     | Some (source, image) =>
                         let bias := load_bias image (interpreter_base l) in
                         _ ← in_space (load_elf_image source image bias);
                         mret (Some bias)
                     | None => mret None
                     end;
  _ ← in_space (map_stack stack_base stack_pages);
  _ ← in_space initialize_heap;
  phdr ← lift_image (phdr_addr executable executable_bias);
  entry ← add64 (elf_entry executable) executable_bias;
  let auxv := mkAux phdr (phent executable) (phnum executable) (default 0 interpreter_bias) entry
                0 0 0 0 100 PAGE_SIZE 0 0 0 0 0 2048 in
  stack ← init_stack ticks stack_base stack_top argv envp execfn auxv;
  start ← match interpreter with
          | Some (_, image) => add64 (elf_entry image) (default 0 interpreter_bias)
          | None => mret entry
          end;
  s ← mget;
  process ← lift_build (build_process start (stack_pointer stack) (space_root (wr_space s).1));
  mret (mkBuilt process stack).

(** A new space for the builder; an error drops it. *)
Definition with_new_space {A} (body : MS A) (seed : Z) (w : W) : outcome BuildError (A * UserAddressSpaceInner) * (Z * W) :=
  match new_space w with
  | (Ok space, w1) =>
      match body (mkWriter (space, w1) 0 seed) with
      | (Ok a, s) => (Ok (a, (wr_space s).1), (wr_seed s, (wr_space s).2))
      | (Err e, s) =>
          match drop_space (wr_space s) with
          | (Ok _, (_, w3)) => (Err e, (wr_seed s, w3))
          | (Err e', (_, w3)) => (Err e', (wr_seed s, w3))
          | (Panic, (_, w3)) => (Panic, (wr_seed s, w3))
          | (Diverge, (_, w3)) => (Diverge, (wr_seed s, w3))
          end
      | (Panic, s) => (Panic, (wr_seed s, (wr_space s).2))
      | (Diverge, s) => (Diverge, (wr_seed s, (wr_space s).2))
      end
  | (Err e, w1) => (Err e, (seed, w1))
  | (Panic, w1) => (Panic, (seed, w1))
  | (Diverge, w1) => (Diverge, (seed, w1))
  end.

Definition build_user_program (ticks : Z) (code : ProgramImageSource) (stack_pages : Z) (argv envp : list (list Z))
    (execfn : option (list Z)) (auxv : LinuxAuxVector) (seed : Z) (w : W)
    : outcome BuildError (BuiltProcess * UserAddressSpaceInner) * (Z * W) :=
  if decide (src_len code = 0) then (Err EmptyProgram, (seed, w))
  else with_new_space (build_flat ticks code stack_pages argv envp execfn auxv) seed w.

Definition build_elf_program (ticks : Z) (executable : ProgramImageSource) (interpreter : option ProgramImageSource)
    (stack_pages : Z) (argv envp : list (list Z)) (execfn : option (list Z)) (seed : Z) (w : W)
    : outcome BuildError (BuiltProcess * UserAddressSpaceInner) * (Z * W) :=
  match parse executable with
  | Ok image =>
      match interpreter with
      | None => with_new_space (build_elf ticks executable image None stack_pages argv envp execfn) seed w
      | Some i =>
          match parse i with
          | Ok i_image => with_new_space (build_elf ticks executable image (Some (i, i_image)) stack_pages argv envp execfn) seed w
          | Err e => (Err (build_from_image e), (seed, w))
          | Panic => (Panic, (seed, w))
          | Diverge => (Diverge, (seed, w))
          end
      end
  | Err e => (Err (build_from_image e), (seed, w))
  | Panic => (Panic, (seed, w))
  | Diverge => (Diverge, (seed, w))
  end.
End stack.

(** ** The initial stack of a program

    After [initialize_linux_stack] a program finds, at its stack pointer, what
    the System V ABI says: the number of arguments, their addresses, those of
    the environment and the auxiliary vector, all aligned to 16 bytes, and at
    the addresses the strings. *)

(** ** Random values *)

(** The ticks never reach the values: the first [compare_exchange] compares
    the mixed value, not the seed that was loaded. *)
Lemma next_aux_random_ignores_ticks ticks seed :
  next_aux_random ticks seed = Some (mix64 seed, mix64 (Z.lxor (mix64 seed) 16), mix64 seed).
Proof.
  unfold next_aux_random. simpl. destruct (decide _) as [->|Hne]; [done|]. by rewrite decide_True.
Qed.

Section stack.
Context {W : Type} {U : UserMachine W} (rep : W → abstract → Prop) (round1 : Z) (foreign : PhysFrame → Prop).
Context (US : UserMachineSpec rep round1 foreign).
Context (ext : Z → Z) (rest : list UserAddressSpaceInner) (base top : Z).

Abbreviation good := (good rep round1 foreign).

(** The memory at [a] holds the bytes. *)
Definition mem_holds (am : abstract) (sp : UserAddressSpaceInner) (a : Z) (bytes : list Z) : Prop :=
  ∀ i b, bytes !! i = Some b → vbyte am sp (a + Z.of_nat i) = Some b.

Lemma mem_holds_app am sp a l1 l2 :
  mem_holds am sp a (l1 ++ l2) ↔ mem_holds am sp a l1 ∧ mem_holds am sp (a + Z.of_nat (length l1)) l2.
Proof.
  split.
  - intros H. split; intros i b Hi.
    + apply H. by rewrite lookup_app_l by (by eapply lookup_lt_Some).
    + replace (a + Z.of_nat (length l1) + Z.of_nat i) with (a + Z.of_nat (length l1 + i)) by lia.
      apply H. rewrite lookup_app_r by lia. rewrite <-Hi. f_equal. lia.
  - intros [H1 H2] i b Hi. destruct (decide (i < length l1)%nat).
    + apply H1. by rewrite lookup_app_l in Hi.
    + rewrite lookup_app_r in Hi by lia. rewrite <-(H2 _ _ Hi). f_equal. lia.
Qed.

(** What was written so far lies at or above the cursor. *)
Record stack_inv (am0 am : abstract) (facts : list (Z * list Z)) (s : StackWriter (W := W)) : Prop := {
  si_good : good ext rest (wr_space s).1 (wr_space s).2 am;
  si_areas : areas_wf (vmas (wr_space s).1);
  si_private a : base <= a < top → private (wr_space s).1 a;
  si_cursor : 0 <= wr_cursor s <= top;
  si_facts a bytes : (a, bytes) ∈ facts →
    wr_cursor s <= a ∧ a + Z.of_nat (length bytes) <= top ∧ mem_holds am (wr_space s).1 a bytes;
  si_rest : undisturbed rest am0 am;
}.

(** After a failure the other spaces are what they were. *)
Definition stack_failed (am0 : abstract) (s : StackWriter (W := W)) : Prop :=
  ∃ am, rep (wr_space s).2 am ∧ undisturbed rest am0 am.

Lemma inv_failed am0 am facts s : stack_inv am0 am facts s → stack_failed am0 s.
Proof. intros [Hg _ _ _ _ Hu]. exists am. split; [apply Hg|done]. Qed.

Lemma undisturbed_trans am1 am2 am3 : undisturbed rest am1 am2 → undisturbed rest am2 am3 → undisturbed rest am1 am3.
Proof. intros H12 H23 o b Ho Hp. by rewrite H23, H12. Qed.

Lemma wp_on_space {A} (op : MU (W := W) A) s c seed Q Qe :
  wp_res op s (λ a s', Q a (mkWriter s' c seed)) (λ _ s', Qe AddressOverflow (mkWriter s' c seed)) →
  wp_res (on_space op) (mkWriter s c seed) Q Qe.
Proof. unfold wp_res, wp, on_space. simpl. by destruct (op s) as [[]]. Qed.

Context (Htop : top <= u64_max).

Lemma push_rule am0 am facts s bytes :
  stack_inv am0 am facts s →
  wp_res (push_raw_bytes base bytes) s
    (λ p s', p = wr_cursor s - Z.of_nat (length bytes) ∧ base <= p ∧ wr_cursor s' = p ∧ wr_seed s' = wr_seed s ∧ ∃ am', stack_inv am0 am' ((p, bytes) :: facts) s')
    (λ _ s', stack_failed am0 s').
Proof.
  intros Hi. destruct s as [[sp w] c seed]. pose proof Hi as [Hg Ha Hp Hc Hf Hu]. cbn [wr_space wr_cursor fst snd] in *.
  unfold push_raw_bytes. wp_run. cbn [wr_cursor]. apply wp_res_ok_or; [|intros _; by eapply inv_failed].
  intros c' Hc'. unfold checked_sub in Hc'. case_bool_decide as Hle; simplify_eq. unfold set_cursor. wp_run. cbn [wr_space wr_seed].
  destruct (decide _) as [Hlow|Hok]; wp_run; [exists am; by split; [apply Hg|]|].
  apply wp_on_space. assert (in_u64 (c - Z.of_nat (length bytes))) as Hin by (split; lia).
  eapply wp_res_mono; [by apply (write_rule rep round1 foreign US)|..]; cbv beta.
  2:{ intros e [sp' w'] (am' & Hr & Hu'). exists am'. split; [done|]. by eapply undisturbed_trans. }
  intros n [sp' w'] (-> & am' & Hg' & Hmw & Hu'). rewrite decide_False by lia. wp_run. split; [done|]. split; [lia|]. split; [done|]. split; [done|].
  exists am'. cbn [fst snd] in *. assert (vmas sp' = vmas sp) as Hv by apply same_frame_vmas, Hmw.
  assert (∀ a, c - Z.of_nat (length bytes) <= a < top → vbyte am' sp' a =
    if decide (c - Z.of_nat (length bytes) <= a < c) then bytes !! Z.to_nat (a - (c - Z.of_nat (length bytes))) else vbyte am sp a) as Hb.
  { intros a Har. rewrite (mw_bytes _ _ _ _ _ _ Hmw Ha a) by ((split; lia) || (apply Hp; lia)).
    replace (c - Z.of_nat (length bytes) + Z.of_nat (length bytes)) with c by lia. done. }
  split; cbn [wr_space wr_cursor fst snd].
  - done.
  - by rewrite Hv.
  - intros a Har. apply (mw_private _ _ _ _ _ _ Hmw), Hp, Har.
  - lia.
  - intros a x [[= -> ->]|Hin']%elem_of_cons.
    + split_and!; [lia..|]. intros i b Hib. rewrite Hb by (apply lookup_lt_Some in Hib; lia).
      rewrite decide_True by (apply lookup_lt_Some in Hib; lia). rewrite <-Hib. f_equal. lia.
    + destruct (Hf a x Hin') as (H2 & H3 & H4). split_and!; [lia..|]. intros i b Hib.
      rewrite Hb by (apply lookup_lt_Some in Hib; lia). rewrite decide_False by lia. by apply H4.
  - by eapply undisturbed_trans.
Qed.

(** Adjacent facts are one. *)
Lemma inv_join am0 am facts s p q l1 l2 :
  q = p + Z.of_nat (length l1) → stack_inv am0 am ((p, l1) :: (q, l2) :: facts) s → stack_inv am0 am ((p, l1 ++ l2) :: facts) s.
Proof.
  intros -> [Hg Ha Hp Hc Hf Hu]. split; [done..| |done].
  intros a x [[= -> ->]|Hin]%elem_of_cons; [|apply Hf; do 2 right; done].
  destruct (Hf p l1) as (H1 & H2 & H3); [by left|]. destruct (Hf (p + Z.of_nat (length l1)) l2) as (H4 & H5 & H6); [by right; left|].
  rewrite length_app, mem_holds_app. split_and!; [lia..|done|done].
Qed.

(** The state after a sequence of pushes from [s] that left the facts. *)
Definition pushed (am0 : abstract) (facts : list (Z * list Z)) (s s' : StackWriter (W := W)) : Prop :=
  wr_cursor s' <= wr_cursor s ∧ wr_seed s' = wr_seed s ∧ ∃ am', stack_inv am0 am' facts s'.

Lemma push_c_string_rule am0 am facts s bytes :
  stack_inv am0 am facts s →
  wp_res (push_c_string base bytes) s
    (λ p s', p = wr_cursor s - Z.of_nat (length bytes) - 1 ∧ wr_cursor s' = p ∧ pushed am0 ((p, bytes ++ [0]) :: facts) s s')
    (λ _ s', stack_failed am0 s').
Proof.
  intros Hi. unfold push_c_string, push_u8. wp_run. eapply wp_res_mono; [by eapply push_rule|..]; cbv beta; [|done].
  intros q s1 (Hq & Hb & Hc & Hs & am1 & Hi1). eapply wp_res_mono; [by eapply push_rule|..]; cbv beta; [|done].
  intros p s2 (Hp & Hb2 & Hc2 & Hs2 & am2 & Hi2). simpl length in Hq. split; [lia|]. split; [done|]. split; [lia|]. split; [congruence|].
  exists am2. eapply inv_join, Hi2. lia.
Qed.

Lemma align16 v : in_u64 v → Z.land v (u64_max - (16 - 1)) = v - v `mod` 16.
Proof.
  intros Hv. replace (u64_max - (16 - 1)) with (Z.ldiff (Z.ones 64) (Z.ones 4)) by done.
  rewrite Z.ldiff_land, Z.land_assoc, Z.land_ones, Z.mod_small by (unfold in_u64, u64_max in Hv; lia).
  rewrite <-Z.ldiff_land, Z.ldiff_ones_r, Z.shiftr_div_pow2, Z.shiftl_mul_pow2 by lia. change (2 ^ 4) with 16. pose proof (Z.div_mod v 16). lia.
Qed.

Lemma align_rule am0 am facts s :
  stack_inv am0 am facts s →
  wp_res (cursor_align_down 16) s
    (λ _ s', wr_cursor s' = wr_cursor s - wr_cursor s `mod` 16 ∧ stack_inv am0 am facts s') (λ _ s', stack_failed am0 s').
Proof.
  intros [Hg Ha Hp Hc Hf Hu]. unfold cursor_align_down, set_cursor. wp_run. cbn [wr_cursor wr_space wr_seed].
  rewrite align16 by (split; lia). split; [done|]. split; cbn [wr_cursor wr_space]; [done..| | |done].
  { pose proof (Z.mod_pos_bound (wr_cursor s) 16). pose proof (Z.mod_le (wr_cursor s) 16). lia. }
  intros a x Hin. pose proof (Z.mod_pos_bound (wr_cursor s) 16). destruct (Hf a x Hin) as (H1 & H2 & H3). split_and!; [lia|done..].
Qed.

(** The words of a table in memory. *)
Definition words_bytes (words : list Z) : list Z := words ≫= le_bytes 8.

Lemma length_words_bytes words : length (words_bytes words) = (8 * length words)%nat.
Proof. induction words as [|w ws IH]; [done|]. unfold words_bytes in *. cbn [mbind list_bind]. rewrite length_app, IH. simpl. lia. Qed.

Lemma words_bytes_app l1 l2 : words_bytes (l1 ++ l2) = words_bytes l1 ++ words_bytes l2.
Proof. apply bind_app. Qed.

(** Words that are pushed extend the table at the cursor downwards. *)
Lemma push_words_rule am0 words : ∀ am facts s table,
  stack_inv am0 am ((wr_cursor s, words_bytes table) :: facts) s →
  wp_res (push_words base words) s
    (λ _ s', wr_cursor s' = wr_cursor s - 8 * Z.of_nat (length words) ∧ (words ≠ [] → base <= wr_cursor s') ∧
      pushed am0 ((wr_cursor s', words_bytes (rev words ++ table)) :: facts) s s')
    (λ _ s', stack_failed am0 s').
Proof.
  induction words as [|x words IH]; intros am facts s table Hi; cbn [push_words].
  - wp_run. simpl. split; [lia|]. split; [done|]. split; [lia|]. split; [done|]. by exists am.
  - wp_run. unfold push_u64. eapply wp_res_mono; [by eapply push_rule|..]; cbv beta; [|done].
    intros q s1 (Hq & Hb & Hc & Hs & am1 & Hi1). rewrite length_le_bytes in Hq. subst q.
    apply inv_join in Hi1; [|rewrite length_le_bytes; lia].
    eapply wp_res_mono; [apply (IH am1 facts s1 (x :: table)); rewrite Hc; exact Hi1|..]; cbv beta; [|done].
    intros _ s2 (Hc2 & Hne & Hle & Hs2 & am2 & Hi2). simpl length. split; [lia|].
    split; [|split; [lia|]; split; [congruence|]; exists am2; simpl rev; by rewrite <-app_assoc].
    intros _. destruct words; [simpl in Hc2; lia|by apply Hne].
Qed.

(** The facts of the strings, in the order of the pushes. *)
Definition string_facts (ptrs : list Z) (strings : list (list Z)) : list (Z * list Z) :=
  rev (zip ptrs ((λ l, l ++ [0]) <$> strings)).

(** The strings lie between the bounds. *)
Definition strings_within (low high : Z) (ptrs : list Z) (strings : list (list Z)) : Prop :=
  Forall2 (λ p l, low <= p ∧ p + Z.of_nat (length l) + 1 <= high) ptrs strings.

Lemma push_strings_rule am0 strings : ∀ am facts s addrs low high,
  stack_inv am0 am facts s →
  wp_res (push_strings base strings addrs low high) s
    (λ r s', ∃ ptrs, r.1 = addrs ++ ptrs ∧ length ptrs = length strings ∧ (strings = [] → wr_cursor s' = wr_cursor s) ∧
      r.2 = (if decide (strings = []) then (low, high) else (low `min` wr_cursor s', high `max` wr_cursor s)) ∧
      strings_within (wr_cursor s') (wr_cursor s) ptrs strings ∧ pushed am0 (string_facts ptrs strings ++ facts) s s')
    (λ _ s', stack_failed am0 s').
Proof.
  induction strings as [|x strings IH]; intros am facts s addrs low high Hi; cbn [push_strings].
  - wp_run. exists []. rewrite app_nil_r. split_and!; try done; [constructor|]. split; [lia|]. split; [done|by exists am].
  - wp_run. eapply wp_res_mono; [by eapply push_c_string_rule|..]; cbv beta; [|done].
    intros p s1 (Hp & Hc & Hle & Hs & am1 & Hi1). unfold add64, checked_add. pose proof (si_cursor _ _ _ _ Hi).
    rewrite bool_decide_true by lia.
    wp_run. eapply wp_res_mono; [by eapply IH|..]; cbv beta; [|done].
    intros [as_ rng] s2 (ptrs & Has & Hlen & Hnil & Hr & Hw & Hle2 & Hs2 & am2 & Hi2). cbn [fst snd] in *. exists (p :: ptrs).
    split; [by rewrite Has, <-app_assoc|]. split; [simpl; lia|]. split; [done|]. split.
    + rewrite Hr. destruct strings; [rewrite decide_True by done|rewrite decide_False by done]; simpl.
      * rewrite Hnil by done. f_equal; lia.
      * f_equal; lia.
    + split; [constructor; [lia|]; eapply Forall2_impl; [exact Hw|]; simpl; lia|].
      split; [lia|]. split; [congruence|]. exists am2. unfold string_facts in *. simpl. rewrite <-app_assoc. exact Hi2.
Qed.

(** ** The whole stack *)

(** The table at the stack pointer, upwards. *)
Definition stack_table (argv_ptrs env_ptrs : list Z) (entries : list (Z * Z)) : list Z :=
  [Z.of_nat (length argv_ptrs)] ++ argv_ptrs ++ [0] ++ env_ptrs ++ [0] ++ (rev entries ≫= λ '(key, value), [key; value]) ++ [AT_NULL; 0].

Definition holds_strings (am : abstract) (sp : UserAddressSpaceInner) (ptrs : list Z) (strings : list (list Z)) : Prop :=
  Forall2 (λ p l, mem_holds am sp p (l ++ [0])) ptrs strings.

(** What a program that starts with [info] finds in its memory. *)
Definition program_stack (am : abstract) (sp : UserAddressSpaceInner) (argv envp : list (list Z)) (execfn : list Z)
    (auxv : LinuxAuxVector) (random : list Z) (info : LinuxStackInfo) : Prop :=
  ∃ argv_ptrs env_ptrs platform_ptr,
    stack_pointer info mod 16 = 0 ∧ base <= stack_pointer info ∧ stack_pointer info + 8 * (Z.of_nat (length argv + length envp) + 47) <= top ∧
    mem_holds am sp (stack_pointer info)
      (words_bytes (stack_table argv_ptrs env_ptrs (aux_entries (execfn_ptr info) (random_ptr info) platform_ptr auxv))) ∧
    holds_strings am sp argv_ptrs argv ∧ holds_strings am sp env_ptrs envp ∧
    mem_holds am sp (execfn_ptr info) (execfn ++ [0]) ∧ mem_holds am sp (random_ptr info) random ∧
    strings_within (arg_start info) (arg_end info) argv_ptrs argv ∧ strings_within (env_start info) (env_end info) env_ptrs envp ∧
    mem_holds am sp platform_ptr ([120; 56; 54; 95; 54; 52] ++ [0]).

Lemma inv_fact am0 am facts s a bytes : stack_inv am0 am facts s → (a, bytes) ∈ facts → mem_holds am (wr_space s).1 a bytes.
Proof. intros [] Hin. by edestruct si_facts0 as (_ & _ & ?). Qed.

Lemma inv_strings am0 am facts s ptrs strings :
  length ptrs = length (rev strings) → stack_inv am0 am facts s → string_facts ptrs (rev strings) ⊆ facts →
  holds_strings am (wr_space s).1 (rev ptrs) strings.
Proof.
  intros Hlen Hi Hsub. unfold holds_strings. rewrite <-(rev_involutive strings), !rev_alt. apply Forall2_reverse.
  rewrite <-rev_alt. apply Forall2_same_length_lookup_2; [done|]. intros i p l Hp Hl.
  eapply inv_fact; [done|]. apply Hsub. unfold string_facts. apply list_elem_of_In. rewrite <-in_rev. apply list_elem_of_In.
  apply list_elem_of_lookup_2 with i. rewrite lookup_zip_with, Hp, list_lookup_fmap, Hl. done.
Qed.

Lemma rev_entries (entries : list (Z * Z)) :
  rev (entries ≫= λ '(key, value), [value; key]) = rev entries ≫= λ '(key, value), [key; value].
Proof.
  induction entries as [|[k v] l IH]; [done|]. cbn [mbind list_bind]. rewrite rev_app_distr, IH. simpl rev at 2.
  cbn [rev]. rewrite bind_app. done.
Qed.

(** The tables the sequence of pushes builds. *)
Lemma pushed_table (argv_ptrs env_ptrs : list Z) entries :
  rev [Z.of_nat (length argv_ptrs)] ++ rev (rev argv_ptrs) ++ rev [0] ++ rev (rev env_ptrs) ++ rev [0] ++
    rev (entries ≫= λ '(key, value), [value; key]) ++ rev [0; AT_NULL] ++ [] = stack_table argv_ptrs env_ptrs entries.
Proof. rewrite !rev_involutive, rev_entries, app_nil_r. done. Qed.

Lemma length_stack_table argv_ptrs env_ptrs execfn random platform auxv :
  length (stack_table argv_ptrs env_ptrs (aux_entries execfn random platform auxv)) = (length argv_ptrs + length env_ptrs + 47)%nat.
Proof. unfold stack_table. rewrite !length_app. cbn. lia. Qed.


Lemma inv_empty am0 am facts s : stack_inv am0 am facts s → stack_inv am0 am ((wr_cursor s, words_bytes []) :: facts) s.
Proof.
  intros [Hg Ha Hp Hc Hf Hu]. split; [done..| |done]. intros a x [[= -> ->]|Hin]%elem_of_cons; [|by apply Hf].
  split_and!; [lia|simpl; lia|]. intros i b Hib. by destruct i.
Qed.

Lemma inv_seed am0 am facts s seed : stack_inv am0 am facts s → stack_inv am0 am facts (mkWriter (wr_space s) (wr_cursor s) seed).
Proof. by intros []. Qed.

Lemma take_random_rule ticks am0 am facts s :
  stack_inv am0 am facts s →
  wp_res (take_random ticks) s
    (λ r s', r = (mix64 (wr_seed s), mix64 (Z.lxor (mix64 (wr_seed s)) 16)) ∧ s' = mkWriter (wr_space s) (wr_cursor s) (mix64 (wr_seed s)))
    (λ _ s', stack_failed am0 s').
Proof. intros Hi. unfold wp_res, wp, take_random. by rewrite next_aux_random_ignores_ticks. Qed.

(** The padding and the table, from an aligned cursor. *)
Lemma pad_rule am0 am facts s (n : nat) :
  stack_inv am0 am facts s → wr_cursor s mod 16 = 0 →
  wp_res (if Nat.even n then mret () else _ ← push_u64 base 0; mret ()) s
    (λ _ s', (wr_cursor s' - 8 * Z.of_nat n) mod 16 = 0 ∧ pushed am0 facts s s')
    (λ _ s', stack_failed am0 s').
Proof.
  intros Hi Hal. destruct (Nat.even n) eqn:He.
  - apply Nat.even_spec in He as [k ->]. wp_run. split; [|split; [lia|split; [done|by exists am]]].
    replace (wr_cursor s - 8 * Z.of_nat (2 * k)) with (wr_cursor s + (- Z.of_nat k) * 16) by lia. by rewrite Z.mod_add.
  - assert (Nat.odd n) as Ho by (rewrite <-Nat.negb_even, He; done). apply Is_true_true_1, Nat.odd_spec in Ho as [k ->].
    wp_run. unfold push_u64. eapply wp_res_mono; [by eapply push_rule|..]; cbv beta; [|done].
    intros q s1 (Hq & Hb & Hc & Hs & am1 & Hi1). rewrite length_le_bytes in Hq. wp_run. split.
    + replace (wr_cursor s1 - 8 * Z.of_nat (2 * k + 1)) with (wr_cursor s + (- Z.of_nat k - 1) * 16) by lia. by rewrite Z.mod_add.
    + split; [lia|]. split; [done|]. exists am1. destruct Hi1 as [Hg Ha Hp Hc' Hf Hu]. split; [done..| |done]. intros a x Hin. apply Hf. by right.
Qed.

Ltac push_step H :=
  wp_run; eapply wp_res_mono; [eapply push_words_rule; exact H|cbv beta|by intros ??];
  let s := fresh "s" in let am := fresh "am" in let Hc := fresh "Hc" in let Hb := fresh "Hb" in let Hle := fresh "Hle" in
  let Hn := fresh in intros _ s (Hc & Hb & Hle & _ & am & Hn); clear H; rename Hn into H.

Lemma range_result low high c c' ptrs strings :
  (low, high) = (if decide (rev strings = []) then (u64_max, 0) else (u64_max `min` c', 0 `max` c)) → 0 <= c → c' <= u64_max →
  strings_within c' c ptrs (rev strings) →
  strings_within (if decide (rev ptrs = []) then 0 else low) (if decide (rev ptrs = []) then 0 else high) (rev ptrs) strings.
Proof.
  intros Heq Hc Hc' Hw. assert (strings_within c' c (rev ptrs) strings) as Hr.
  { unfold strings_within in *. rewrite <-(rev_involutive strings), !rev_alt. apply Forall2_reverse. by rewrite <-rev_alt. }
  destruct (decide (rev ptrs = [])) as [Hn|Hn].
  - rewrite Hn in *. apply Forall2_nil_inv_l in Hr as ->. constructor.
  - rewrite decide_False in Heq; [|intros Hs; rewrite Hs in Hw; by apply Forall2_nil_inv_r in Hw as ->].
    simplify_eq. by rewrite Z.min_r, Z.max_r.
Qed.

Lemma initialize_rule ticks argv envp execfn auxv am s :
  stack_inv am am [] s →
  wp_res (initialize_linux_stack ticks base argv envp execfn auxv) s
    (λ info s', ∃ am', stack_inv am am' [] s' ∧
      program_stack am' (wr_space s').1 argv envp (default DEFAULT_EXECFN execfn) auxv
        (random_values_as_bytes (mix64 (wr_seed s)) (mix64 (Z.lxor (mix64 (wr_seed s)) 16))) info)
    (λ _ s', stack_failed am s').
Proof.
  intros Hi. unfold initialize_linux_stack, platform_string. wp_run.
  eapply wp_res_mono; [by eapply push_c_string_rule|cbv beta|done]. intros pe s1 (_ & Hc1 & Hl1 & Hs1 & am1 & H1). wp_run.
  eapply wp_res_mono; [by eapply push_c_string_rule|cbv beta|done]. intros pp s2 (_ & Hc2 & Hl2 & Hs2 & am2 & H2). wp_run.
  eapply wp_res_mono; [by eapply take_random_rule|cbv beta|done]. intros [r1 r2] s3 ([= Hr1 Hr2] & ->). wp_run.
  eapply wp_res_mono; [eapply push_rule, inv_seed, H2|cbv beta|done]. intros pr s4 (_ & _ & Hc4 & _ & am4 & H4). wp_run.
  eapply wp_res_mono; [eapply push_strings_rule, H4|cbv beta|done].
  intros [er [el eh]] s5 (eptrs & Her & Hel & _ & Hre & Hwe & Hl5 & _ & am5 & H5). cbn [fst snd] in *. wp_run.
  eapply wp_res_mono; [eapply push_strings_rule, H5|cbv beta|done].
  intros [ar [al ah]] s6 (aptrs & Har & Hal & _ & Hra & Hwa & Hl6 & _ & am6 & H6). cbn [fst snd] in *. wp_run.
  eapply wp_res_mono; [eapply align_rule, H6|cbv beta|done]. intros _ s7 (Hc7 & H7). wp_run.
  eapply wp_res_mono; [eapply pad_rule; [exact H7|]|cbv beta|done].
  { rewrite Hc7. by rewrite Zminus_mod_idemp_r, Z.sub_diag. }
  intros _ s8 (Hm8 & Hl8 & _ & am8 & H8). apply inv_empty in H8.
  do 7 push_step H8. wp_run. rewrite pushed_table in H8. rewrite app_nil_l in Her, Har. subst er ar.
  assert (length (rev eptrs) = length envp ∧ length (rev aptrs) = length argv) as [Hne Hna] by (split; [by rewrite length_rev, Hel, length_rev|by rewrite length_rev, Hal, length_rev]).
  pose proof (si_cursor _ _ _ _ H5). pose proof (si_cursor _ _ _ _ H6). pose proof (si_cursor _ _ _ _ H4).
  eexists. split.
  { destruct H8 as [Hg Ha Hp Hcc Hf Hu]. split; [done..| |done]. by intros a x ?%elem_of_nil. }
  exists (rev aptrs), (rev eptrs), pp. cbn [stack_pointer execfn_ptr random_ptr arg_start arg_end env_start env_end].
  subst r1 r2. rewrite <-Hs1, <-Hs2.
  assert (wr_cursor s13 = wr_cursor s8 - 8 * (Z.of_nat (length argv + length envp) + 47)) as Hcur.
  { rewrite length_rev in Hc5, Hc8. rewrite Hne in Hc5. rewrite Hna in Hc8. simpl in Hc, Hc0, Hc3, Hc6, Hc9. lia. }
  split_and!.
  - rewrite Hcur. rewrite Hne, Hna in Hm8. simpl length in Hm8. rewrite <-Hm8, <-(Z.mod_add _ 1) by lia. f_equal. lia.
  - by apply Hb5.
  - pose proof (si_cursor _ _ _ _ H7). lia.
  - eapply inv_fact; [exact H8|]. by left.
  - eapply inv_strings; [done|exact H8|]. intros f Hf. right. apply elem_of_app. by left.
  - eapply inv_strings; [done|exact H8|]. intros f Hf. right. rewrite !elem_of_app. auto.
  - eapply inv_fact; [exact H8|]. right. rewrite !elem_of_app. right; right. do 2 right. by left.
  - eapply inv_fact; [exact H8|]. right. rewrite !elem_of_app. right; right. by left.
  - eapply range_result; [exact Hra|lia..|done].
  - eapply range_result; [exact Hre|lia..|done].
  - eapply inv_fact; [exact H8|]. right. rewrite !elem_of_app. right; right. right. by left.
Qed.

(** C16. [init_stack] puts into the private stack area [[base, top)] what the System V
    ABI promises: the stack pointer is a multiple of 16 in the area; at it are the
    number of arguments, the addresses of the arguments and of the environment,
    each list ended by a zero, and the auxiliary vector ended by [AT_NULL]; the
    addresses point to the strings with their final zero, inside the ranges the
    kernel records, and [AT_RANDOM] to 16 bytes that come from the seed.  It never
    panics, and other processes keep their memory even if it fails. *)
Theorem initial_stack_abi ticks argv envp execfn auxv sp w am cursor seed :
  good ext rest sp w am → areas_wf (vmas sp) → (∀ a, base <= a < top → private sp a) → 0 <= top →
  wp_res (init_stack ticks base top argv envp execfn auxv) (mkWriter (sp, w) cursor seed)
    (λ info s', ∃ am', good ext rest (wr_space s').1 (wr_space s').2 am' ∧ undisturbed rest am am' ∧
      program_stack am' (wr_space s').1 argv envp
        (default DEFAULT_EXECFN (match execfn with Some e => Some e | None => head argv end)) auxv
        (random_values_as_bytes (mix64 seed) (mix64 (Z.lxor (mix64 seed) 16))) info)
    (λ _ s', stack_failed am s').
Proof.
  intros Hg Ha Hp Ht. unfold init_stack, set_cursor. wp_run. cbn [wr_space wr_seed].
  eapply wp_res_mono; [apply initialize_rule with (am := am)|cbv beta|done].
  - split; cbn [wr_space wr_cursor fst snd]; [exact Hg|exact Ha|exact Hp|lia| |by intros ?]. by intros a x ?%elem_of_nil.
  - intros info s' (am' & [] & Hs). by exists am'.
Qed.
End stack.

(** ** A witness: two arguments and one variable on a stack of two pages *)

Section witness.
#[local] Existing Instance Demo.demo_machine.

Definition demo_argv : list (list Z) := [[47; 98; 105; 110; 47; 115; 104]; [45; 99]].
Definition demo_envp : list (list Z) := [[65; 61; 98]].
Definition demo_writer : StackWriter := mkWriter (demo_space, demo_start) 0 42.

Lemma initial_stack_abi_witness :
  (∃ info, (init_stack 7 0x400000 0x402000 demo_argv demo_envp None LinuxAuxVector_new demo_writer).1 = Ok info ∧
     stack_pointer info = 0x402000 - 448) ∧
  wp_res (init_stack 7 0x400000 0x402000 demo_argv demo_envp None LinuxAuxVector_new) demo_writer
    (λ info s', ∃ am', good Demo.rep 1 Demo.foreign (λ _, 0) [] (wr_space s').1 (wr_space s').2 am' ∧ undisturbed [] demo_start am' ∧
      program_stack 0x400000 0x402000 am' (wr_space s').1 demo_argv demo_envp [47; 98; 105; 110; 47; 115; 104] LinuxAuxVector_new
        (random_values_as_bytes (mix64 42) (mix64 (Z.lxor (mix64 42) 16))) info)
    (λ _ s', stack_failed Demo.rep [] demo_start s').
Proof.
  split; [eexists; split; by vm_compute|].
  apply (initial_stack_abi Demo.rep 1 Demo.foreign Demo.demo_spec (λ _, 0) [] 0x400000 0x402000 ltac:(by vm_compute)
    7 demo_argv demo_envp None LinuxAuxVector_new demo_space demo_start demo_start 0 42 demo_start_good).
  - exact demo_areas_wf.
  - intros a _ m Hm. done.
  - by vm_compute.
Defined.
End witness.
