(* ===== verification/MemFile.v ===== *)
(** * Files in memory

    Models the files of [aether-kernel/libs/aether-vfs/src/node.rs]:
    [MemoryFile] (fixed bytes), [MutableMemoryFile] (a vector), [CowMemoryFile]
    (borrowed bytes that the first write copies) and [SharedMemoryFile] (a list
    of page frames with the seals of [memfd_create]).  [FileOperations] is the
    part of the trait that they implement, [ByteFile] what it promises to the
    layers above: the file is a vector of bytes.

    A vector cannot be longer than [isize::MAX] bytes: growing it further
    panics.  [compare_exchange] of the seals succeeds at once, because no other
    processor changes them. *)

From S2P Require Import Prelude Frame Poll.

(** ** The interface *)

(** Bytes read into a buffer of [n] bytes are returned. *)
Class FileOperations (S : Type) := {
  fo_read : Z → Z → M S FsError (list Z);
  fo_write : Z → list Z → M S FsError Z;
  fo_size : S → Z;
  fo_truncate : Z → M S FsError unit;
}.

Definition isize_max : Z := 2 ^ 63 - 1.

(** The vector after [bytes[off..off + buf.len()].copy_from_slice(buf)], in
    range. *)
Definition splice (off : nat) (buf bytes : list Z) : list Z :=
  take off bytes ++ buf ++ drop (off + length buf) bytes.

(** A write grows the file with zeros first. *)
Definition written (off : nat) (buf bytes : list Z) : list Z :=
  splice off buf (resize (length bytes `max` (off + length buf)) 0 bytes).

Class ByteFile (S : Type) `{!FileOperations S} (rep : S → list Z → Prop) : Prop := {
  bf_size s bs : rep s bs → fo_size s = Z.of_nat (length bs);
  bf_read s bs off n :
    rep s bs → in_u64 off → in_u64 n →
    wp_res (fo_read off n) s
      (λ r s', s' = s ∧ r = take (Z.to_nat n) (drop (Z.to_nat off) bs)) (λ _ _, False);
  bf_write s bs off buf :
    rep s bs → in_u64 off → off + Z.of_nat (length buf) <= isize_max →
    wp_res (fo_write off buf) s
      (λ n s', n = Z.of_nat (length buf) ∧ rep s' (written (Z.to_nat off) buf bs)) (λ _ s', rep s' bs);
  bf_truncate s bs n :
    rep s bs → 0 <= n <= isize_max →
    wp_res (fo_truncate n) s (λ _ s', rep s' (resize (Z.to_nat n) 0 bs)) (λ _ s', rep s' bs);
}.

(** ** Vectors *)

(** [bytes.resize(size, 0)] *)
Definition vec_resize {S E} (size : Z) (bytes : list Z) : M S E (list Z) :=
  if decide (size <= isize_max) then mret (resize (Z.to_nat size) 0 bytes) else mpanic.

Definition bytes_read (bytes : list Z) (offset n : Z) : list Z :=
  if decide (Z.of_nat (length bytes) <= offset) then []
  else
    let len := n `min` (Z.of_nat (length bytes) - offset) in
    take (Z.to_nat len) (drop (Z.to_nat offset) bytes).

(** [bytes[offset..end].copy_from_slice(buffer)] panics when the lengths differ. *)
Definition vec_write {S E} (offset : Z) (buffer bytes : list Z) : M S E (list Z) :=
  let end_ := saturating_add u64_max offset (Z.of_nat (length buffer)) in
  bytes ← (if decide (Z.of_nat (length bytes) < end_) then vec_resize end_ bytes else mret bytes);
  if decide (end_ - offset = Z.of_nat (length buffer)) then mret (splice (Z.to_nat offset) buffer bytes) else mpanic.

Record MemoryFile := mkMemoryFile { mf_bytes : list Z }.

#[export] Instance MemoryFile_ops : FileOperations MemoryFile := {
  fo_read offset n := λ f, (Ok (bytes_read (mf_bytes f) offset n), f);
  fo_write _ _ := mthrow Unsupported;
  fo_size f := Z.of_nat (length (mf_bytes f));
  fo_truncate _ := mthrow Unsupported;
}.

Record MutableMemoryFile := mkMutable { mm_bytes : list Z }.

Definition MutableMemoryFile_new (bytes : list Z) : MutableMemoryFile := mkMutable bytes.

Definition mutable_read (offset n : Z) : M MutableMemoryFile FsError (list Z) :=
  mgets (λ f, bytes_read (mm_bytes f) offset n).

Definition mutable_write (offset : Z) (buffer : list Z) : M MutableMemoryFile FsError Z :=
  f ← mget;
  bytes ← vec_write offset buffer (mm_bytes f);
  _ ← mput (mkMutable bytes);
  mret (Z.of_nat (length buffer)).

Definition mutable_truncate (size : Z) : M MutableMemoryFile FsError unit :=
  f ← mget;
  bytes ← vec_resize size (mm_bytes f);
  mput (mkMutable bytes).

#[export] Instance MutableMemoryFile_ops : FileOperations MutableMemoryFile := {
  fo_read := mutable_read;
  fo_write := mutable_write;
  fo_size f := Z.of_nat (length (mm_bytes f));
  fo_truncate := mutable_truncate;
}.

Inductive CowMemoryBytes :=
| Borrowed (bytes : list Z)
| Owned (bytes : list Z).

Definition cow_bytes (b : CowMemoryBytes) : list Z :=
  match b with Borrowed bytes => bytes | Owned bytes => bytes end.

Record CowMemoryFile := mkCow { cow_state : CowMemoryBytes }.

Definition new_borrowed (bytes : list Z) : CowMemoryFile := mkCow (Borrowed bytes).

(** [materialize]: the vector that is then changed. *)
Definition materialize : M CowMemoryFile FsError (list Z) :=
  f ← mget;
  match cow_state f with
  | Borrowed borrowed => _ ← mput (mkCow (Owned borrowed)); mret borrowed
  | Owned owned => mret owned
  end.

Definition cow_read (offset n : Z) : M CowMemoryFile FsError (list Z) :=
  mgets (λ f, bytes_read (cow_bytes (cow_state f)) offset n).

Definition cow_write (offset : Z) (buffer : list Z) : M CowMemoryFile FsError Z :=
  bytes ← materialize;
  bytes ← vec_write offset buffer bytes;
  _ ← mput (mkCow (Owned bytes));
  mret (Z.of_nat (length buffer)).

Definition cow_truncate (size : Z) : M CowMemoryFile FsError unit :=
  bytes ← materialize;
  bytes ← vec_resize size bytes;
  mput (mkCow (Owned bytes)).

#[export] Instance CowMemoryFile_ops : FileOperations CowMemoryFile := {
  fo_read := cow_read;
  fo_write := cow_write;
  fo_size f := Z.of_nat (length (cow_bytes (cow_state f)));
  fo_truncate := cow_truncate;
}.

(** ** Page frames *)

Definition F_SEAL_SEAL : Z := 0x0001.
Definition F_SEAL_SHRINK : Z := 0x0002.
Definition F_SEAL_GROW : Z := 0x0004.
Definition F_SEAL_WRITE : Z := 0x0008.
Definition F_SEAL_FUTURE_WRITE : Z := 0x0010.
Definition F_SEAL_EXEC : Z := 0x0020.

Record SharedMemoryState := mkShmState {
  shm_size : Z;
  shm_pages : list PhysFrame;
}.

Record SharedMemoryFile := mkShm {
  shm_state : SharedMemoryState;
  shm_seals : Z;
  shm_allow_sealing : bool;
}.

Record MemfdOptions := mkMemfd {
  opt_allow_sealing : bool;
  opt_executable : bool;
}.

Definition new_memfd (options : MemfdOptions) : SharedMemoryFile :=
  let seals := if opt_allow_sealing options then 0 else F_SEAL_SEAL in
  let seals := if negb (opt_executable options) then Z.lor seals F_SEAL_EXEC else seals in
  mkShm (mkShmState 0 []) seals (opt_allow_sealing options).

Definition SharedMemoryFile_new : SharedMemoryFile := new_memfd (mkMemfd false true).
Definition new_with_sealing (allow_sealing : bool) : SharedMemoryFile := new_memfd (mkMemfd allow_sealing true).

Definition div_ceil (a b : Z) : Z := (a + b - 1) / b.

Section shared.
Context {St : Type} {F : FrameAllocator St}.

(** The file with the frame allocator and the bytes of the frames. *)
Record shm := mkShmWorld {
  sh_file : SharedMemoryFile;
  sh_frames : St;
  sh_bytes : PhysFrame → list Z;
}.

Definition MM := M shm FsError.

Definition set_shm_state (x : SharedMemoryState) (s : shm) : shm :=
  mkShmWorld (mkShm x (shm_seals (sh_file s)) (shm_allow_sealing (sh_file s))) (sh_frames s) (sh_bytes s).
Definition set_shm_seals (x : Z) (s : shm) : shm :=
  mkShmWorld (mkShm (shm_state (sh_file s)) x (shm_allow_sealing (sh_file s))) (sh_frames s) (sh_bytes s).
Definition set_shm_frames (st : St) (s : shm) : shm := mkShmWorld (sh_file s) st (sh_bytes s).
Definition set_shm_bytes (f : PhysFrame) (bs : list Z) (s : shm) : shm :=
  mkShmWorld (sh_file s) (sh_frames s) (λ g, if decide (g = f) then bs else sh_bytes s g).

Definition get_state : MM SharedMemoryState := mgets (λ s, shm_state (sh_file s)).
Definition put_state (x : SharedMemoryState) : MM unit := mmodify (set_shm_state x).
Definition seals : MM Z := mgets (λ s, shm_seals (sh_file s)).

Definition add_seals (new : Z) : MM unit :=
  let supported := Z.lor (Z.lor (Z.lor (Z.lor (Z.lor F_SEAL_SEAL F_SEAL_SHRINK) F_SEAL_GROW) F_SEAL_WRITE) F_SEAL_FUTURE_WRITE) F_SEAL_EXEC in
  if decide (Z.ldiff new supported ≠ 0) then mthrow InvalidInput
  else
    s ← mget;
    if negb (shm_allow_sealing (sh_file s)) then mthrow InvalidInput
    else
      current ← seals;
      if decide (Z.land current F_SEAL_SEAL ≠ 0) then mthrow InvalidInput
      else mmodify (set_shm_seals (Z.lor current new)).

(** [allocator.alloc(1).map_err(|_| FsError::InvalidInput)?] and [zero_frame] *)
Definition alloc_page : MM PhysFrame := λ s,
  match fa_alloc 1 (sh_frames s) with
  | (Ok f, st) => (Ok f, set_shm_bytes f (replicate (Z.to_nat PAGE_SIZE) 0) (set_shm_frames st s))
  | (Err _, st) => (Err InvalidInput, set_shm_frames st s)
  | (Panic, st) => (Panic, set_shm_frames st s)
  | (Diverge, st) => (Diverge, set_shm_frames st s)
  end.

(** [while state.pages.len() < required_pages] *)
Fixpoint grow_loop (fuel : nat) (required_pages : Z) : MM unit :=
  x ← get_state;
  if decide (Z.of_nat (length (shm_pages x)) < required_pages) then
    match fuel with
    | O => mdiverge
    | S fuel' =>
        frame ← alloc_page;
        _ ← put_state (mkShmState (shm_size x) (shm_pages x ++ [frame]));
        grow_loop fuel' required_pages
    end
  else mret ().

Definition ensure_capacity (len : Z) : MM unit :=
  let required_pages := div_ceil len PAGE_SIZE in
  x ← get_state;
  if decide (required_pages <= Z.of_nat (length (shm_pages x))) then mret ()
  else grow_loop (Z.to_nat required_pages) required_pages.

(** The bytes [data] written at [page_offset] of the frame [state.pages[page_index]]. *)
Definition write_page (page_index page_offset : Z) (data : list Z) : MM unit :=
  x ← get_state;
  frame ← mexpect (shm_pages x !! Z.to_nat page_index);
  mmodify (λ s, set_shm_bytes frame (splice (Z.to_nat page_offset) data (sh_bytes s frame)) s).

(** [while current < end]: a round advances by at least one byte. *)
Fixpoint zero_loop (fuel : nat) (current end_ : Z) : MM unit :=
  if decide (current < end_) then
    match fuel with
    | O => mdiverge
    | S fuel' =>
        let page_index := current / PAGE_SIZE in
        let page_offset := current mod PAGE_SIZE in
        let chunk := (end_ - current) `min` (PAGE_SIZE - page_offset) in
        _ ← write_page page_index page_offset (replicate (Z.to_nat chunk) 0);
        zero_loop fuel' (current + chunk) end_
    end
  else mret ().

Definition zero_range (start end_ : Z) : MM unit :=
  if decide (end_ <= start) then mret () else zero_loop (Z.to_nat (end_ - start)) start end_.

Fixpoint copy_out_loop (fuel : nat) (current end_ : Z) (copied : list Z) : MM (list Z) :=
  if decide (current < end_) then
    match fuel with
    | O => mdiverge
    | S fuel' =>
        let page_index := current / PAGE_SIZE in
        let page_offset := current mod PAGE_SIZE in
        let chunk := (end_ - current) `min` (PAGE_SIZE - page_offset) in
        s ← mget;
        frame ← mexpect (shm_pages (shm_state (sh_file s)) !! Z.to_nat page_index);
        let data := take (Z.to_nat chunk) (drop (Z.to_nat page_offset) (sh_bytes s frame)) in
        copy_out_loop fuel' (current + chunk) end_ (copied ++ data)
    end
  else mret copied.

Definition copy_out (offset n : Z) : MM (list Z) :=
  x ← get_state;
  if decide (shm_size x <= offset) then mret []
  else
    let end_ := saturating_add u64_max offset n `min` shm_size x in
    copy_out_loop (Z.to_nat (end_ - offset)) offset end_ [].

Fixpoint copy_in_loop (fuel : nat) (current : Z) (buffer : list Z) : MM unit :=
  if decide (buffer = []) then mret ()
  else
    match fuel with
    | O => mdiverge
    | S fuel' =>
        let page_index := current / PAGE_SIZE in
        let page_offset := current mod PAGE_SIZE in
        let chunk := Z.of_nat (length buffer) `min` (PAGE_SIZE - page_offset) in
        _ ← write_page page_index page_offset (take (Z.to_nat chunk) buffer);
        copy_in_loop fuel' (current + chunk) (drop (Z.to_nat chunk) buffer)
    end.

Definition copy_in (offset : Z) (buffer : list Z) : MM unit := copy_in_loop (length buffer) offset buffer.

Definition ensure_grow_allowed (new_end current_size : Z) : MM unit :=
  sl ← seals;
  if decide (current_size < new_end ∧ Z.land sl F_SEAL_GROW ≠ 0) then mthrow InvalidInput else mret ().

Definition ensure_shrink_allowed (new_size current_size : Z) : MM unit :=
  sl ← seals;
  if decide (new_size < current_size ∧ Z.land sl F_SEAL_SHRINK ≠ 0) then mthrow InvalidInput else mret ().

Definition ensure_write_allowed : MM unit :=
  sl ← seals;
  if decide (Z.land sl (Z.lor F_SEAL_WRITE F_SEAL_FUTURE_WRITE) ≠ 0) then mthrow InvalidInput else mret ().

Definition ensure_exec_allowed (prot : Z) : MM unit :=
  sl ← seals;
  if decide (Z.land prot 0x4 ≠ 0 ∧ Z.land sl F_SEAL_EXEC ≠ 0) then mthrow PermissionDenied else mret ().

(** The physical addresses of the pages of the range. *)
Definition shared_pages (offset len : Z) : MM (list Z) :=
  x ← get_state;
  end_ ← mok_or (checked_add u64_max offset len) InvalidInput;
  let first_page := offset / PAGE_SIZE in
  let page_offset := offset mod PAGE_SIZE in
  let page_count := div_ceil (saturating_add u64_max page_offset len) PAGE_SIZE in
  if decide (saturating_add u64_max (shm_size x) (saturating_sub PAGE_SIZE 1) < end_
             ∨ Z.of_nat (length (shm_pages x)) < saturating_add u64_max first_page page_count)
  then mthrow InvalidInput
  else mret ((λ f, addr_u64 (start_address f)) <$> take (Z.to_nat page_count) (drop (Z.to_nat first_page) (shm_pages x))).

Definition shm_read (offset n : Z) : MM (list Z) := copy_out offset n.

Definition shm_write (offset : Z) (buffer : list Z) : MM Z :=
  _ ← ensure_write_allowed;
  x ← get_state;
  let old_size := shm_size x in
  end_ ← mok_or (checked_add u64_max offset (Z.of_nat (length buffer))) InvalidInput;
  _ ← ensure_grow_allowed end_ old_size;
  _ ← ensure_capacity end_;
  _ ← (if decide (old_size < offset) then zero_range old_size offset else mret ());
  _ ← copy_in offset buffer;
  _ ← (if decide (old_size < end_) then x ← get_state; put_state (mkShmState end_ (shm_pages x)) else mret ());
  mret (Z.of_nat (length buffer)).

Definition shm_truncate (size : Z) : MM unit :=
  x ← get_state;
  _ ← ensure_grow_allowed size (shm_size x);
  _ ← ensure_shrink_allowed size (shm_size x);
  _ ← (if decide (shm_size x < size) then
         _ ← ensure_capacity size;
         zero_range (shm_size x) size
       else zero_range size (shm_size x));
  x ← get_state;
  put_state (mkShmState size (shm_pages x)).

Definition FALLOC_FL_KEEP_SIZE : Z := 1.

Definition shm_fallocate (mode offset len : Z) : MM unit :=
  if decide (Z.ldiff mode FALLOC_FL_KEEP_SIZE ≠ 0) then mthrow Unsupported
  else
    end_ ← mok_or (checked_add u64_max offset len) InvalidInput;
    x ← get_state;
    _ ← ensure_grow_allowed end_ (shm_size x);
    _ ← ensure_capacity end_;
    if decide (Z.land mode FALLOC_FL_KEEP_SIZE = 0 ∧ shm_size x < end_) then
      _ ← zero_range (shm_size x) end_;
      x ← get_state;
      put_state (mkShmState end_ (shm_pages x))
    else mret ().

Record MmapRequest := mkMmapRequest {
  rq_offset : Z;
  rq_length : Z;
  rq_prot : Z;
  rq_flags : Z;
}.

(** The pages of [MmapKind::SharedPhysical]. *)
Definition shm_mmap (request : MmapRequest) : MM (list Z) :=
  if decide (rq_offset request mod PAGE_SIZE ≠ 0) then mthrow InvalidInput
  else
    _ ← ensure_exec_allowed (rq_prot request);
    if decide (rq_length request = 0) then mthrow InvalidInput
    else shared_pages (rq_offset request) (rq_length request).

(** [let _ = allocator.release(frame, 1)] for every page. *)
Fixpoint release_pages (l : list PhysFrame) : MM unit :=
  match l with
  | [] => mret ()
  | frame :: rest => λ s,
      match fa_release frame 1 (sh_frames s) with
      | (Panic, st) => (Panic, set_shm_frames st s)
      | (Diverge, st) => (Diverge, set_shm_frames st s)
      | (_, st) => release_pages rest (set_shm_frames st s)
      end
  end.

Definition shm_drop : MM unit :=
  x ← get_state;
  _ ← put_state (mkShmState (shm_size x) []);
  release_pages (shm_pages x).

#[export] Instance shm_ops : FileOperations shm := {
  fo_read := shm_read;
  fo_write := shm_write;
  fo_size s := shm_size (shm_state (sh_file s));
  fo_truncate := shm_truncate;
}.
End shared.
Arguments shm : clear implicits.
