(* ===== verification/MmapCalls.v ===== *)
(** * The memory system calls

    Models the handlers of [aether-kernel/src/syscall/handlers/memory/]:
    [mmap], [munmap], [mprotect], [mremap], [mincore], [brk] and [madvise].  They change
    the address space ([UserSpace]) and the recorded regions ([MmapRegion]) of
    a process, and a call that fails half-way keeps what it has done.

    A file is reached through class [MappableFiles]: the answer of its
    [FileOperations::mmap], the size of its node and the image of its contents. *)

From stdpp Require Import sorting.
From S2P Require Import Prelude Frame Poll Errno RangeList PageTable Image Vma VmaProof MmapRegion MemFile UserSpace.

(** ** Errors *)

(** [impl From<BuildError> for SysErr] *)
Definition from_build_error (value : BuildError) : SysErr.SysErr :=
  match value with
  | BuildFrame _ => SysErr.NoMem
  | BuildMap MapOutOfMemory | BuildMap (FrameError _) => SysErr.NoMem
  | BuildMap AlreadyMapped => SysErr.Exists
  | BuildMap NotMapped => SysErr.Fault
  | AddressOverflow | StackOverflow | BuildInvalidElf | BuildUnsupportedElf | BuildImage _ | EmptyProgram
  | BuildMap _ => SysErr.Inval
  end.

(** ** Files *)

Inductive MmapCachePolicy := Cached | Uncached | WriteThrough.

Inductive MmapKind :=
| Buffered
| DirectPhysical (physical_address : Z) (cache_policy : MmapCachePolicy)
| SharedPhysical (physical_pages : list Z) (cache_policy : MmapCachePolicy).

(** The calls on an open file: [file.mmap(request)], [file.node().size()] and
    [NodeImageSource::new(file.node())].  How often the node is open is not kept. *)
Class MappableFiles (W : Type) := {
  fm_mmap : Z → MmapRequest → M W FsError MmapKind;
  fm_size : Z → W → Z;
  fm_image : Z → W → option ProgramImageSource;
}.

(** ** Constants *)

Definition PROT_READ : Z := 1.
Definition PROT_WRITE : Z := 2.
Definition PROT_EXEC : Z := 4.
Definition MAP_SHARED : Z := 1.
Definition MREMAP_MAYMOVE : Z := 1.
Definition MREMAP_FIXED : Z := 2.
Definition MREMAP_DONTUNMAP : Z := 4.
Definition COPY_CHUNK : Z := 64 * 1024.

Section calls.
Context {W : Type} {U : UserMachine W} {FM : MappableFiles W}.

(** The parts of a process that the calls change: the recorded regions, the
    address space and the machine with the files. *)
Definition memory : Type := list MmapRegion * (UserAddressSpaceInner * W).
Definition MC := M memory SysErr.SysErr.

(** [self.process.task.address_space.op(..).map_err(SysErr::from)?] *)
Definition on_space {A} (op : MU (W := W) A) : MC A := λ p,
  match op p.2 with
  | (Ok a, s) => (Ok a, (p.1, s))
  | (Err e, s) => (Err (from_build_error e), (p.1, s))
  | (Panic, s) => (Panic, (p.1, s))
  | (Diverge, s) => (Diverge, (p.1, s))
  end.

Definition modify_regions (f : list MmapRegion → list MmapRegion) : MC unit := mmodify (λ p, (f p.1, p.2)).

(** A search in the regions. *)
Definition on_regions {A} (f : list MmapRegion → outcome SysErr.SysErr A) : MC A := λ p, (f p.1, p).

(** [file.mmap(..).map_err(SysErr::from)?] *)
Definition on_file {A} (op : M W FsError A) : MC A := λ p,
  match op p.2.2 with
  | (Ok a, w) => (Ok a, (p.1, (p.2.1, w)))
  | (Err e, w) => (Err (SysErr.from_fs_error e), (p.1, (p.2.1, w)))
  | (Panic, w) => (Panic, (p.1, (p.2.1, w)))
  | (Diverge, w) => (Diverge, (p.1, (p.2.1, w)))
  end.

(** [len.div_ceil(PAGE_SIZE) * PAGE_SIZE], where the product may overflow. *)
Definition div_ceil_pages (len : Z) : Z := (len + (PAGE_SIZE - 1)) / PAGE_SIZE.
Definition page_len (len : Z) : MC Z :=
  let n := div_ceil_pages len * PAGE_SIZE in
  mexpect (if decide (n <= u64_max) then Some n else None).

(** ** [mmap] *)

Definition mmap_page_flags (prot : Z) : Z :=
  let page_flags := MapFlags.bitor MapFlags.READ MapFlags.USER in
  let page_flags := if decide (Z.land prot PROT_WRITE ≠ 0) then MapFlags.bitor page_flags MapFlags.WRITE else page_flags in
  if decide (Z.land prot PROT_EXEC ≠ 0) then MapFlags.bitor page_flags MapFlags.EXECUTE else page_flags.

Definition record_mmap_region (start len page_flags mmap_flags : Z) (backing : MmapRegionBacking) : MC unit :=
  aligned_len ← page_len len;
  modify_regions (insert_mmap_region
    (mkRegion start (saturating_add u64_max start aligned_len) page_flags mmap_flags backing)).

Definition map_buffered_file (file address len flags page_flags offset : Z) : MC Z :=
  p ← mget;
  let size := fm_size file p.2.2 in
  let start := offset `min` size in
  let end_ := saturating_add u64_max start len `min` size in
  source ← mok_or (fm_image file p.2.2) SysErr.Inval;
  on_space (mmap_lazy_image address len flags page_flags source start (saturating_sub end_ start)).

Definition device_flags (cache_policy : MmapCachePolicy) : Z :=
  match cache_policy with
  | Cached => MapFlags.empty
  | Uncached => MapFlags.NO_CACHE
  | WriteThrough => MapFlags.WRITE_THROUGH
  end.

Definition map_file_region (file address len prot flags offset : Z) (record_region : bool) : MC Z :=
  if decide (offset mod PAGE_SIZE ≠ 0) then mthrow SysErr.Inval
  else
    let page_flags := mmap_page_flags prot in
    kind ← on_file (fm_mmap file (mkMmapRequest offset len prot flags));
    r ← (match kind with
         | Buffered =>
             mapped ← map_buffered_file file address len flags page_flags offset;
             mret (mapped, Backing.BufferedFile file offset)
         | DirectPhysical physical_address cache_policy =>
             mapped ← on_space (mmap_physical address len flags
                                  (MapFlags.bitor page_flags (device_flags cache_policy)) physical_address);
             mret (mapped, Backing.DirectFile file offset)
         | SharedPhysical physical_pages cache_policy =>
             mapped ← on_space (mmap_shared_physical address len flags
                                  (MapFlags.bitor page_flags (device_flags cache_policy)) physical_pages);
             mret (mapped, Backing.SharedFile file offset)
         end);
    _ ← (if record_region then record_mmap_region r.1 len page_flags flags r.2 else mret ());
    mret r.1.

Definition map_anonymous_region (address len prot flags : Z) (record_region : bool) : MC Z :=
  let page_flags := mmap_page_flags prot in
  mapped ← on_space (mmap_anonymous address len flags page_flags);
  _ ← (if record_region then record_mmap_region mapped len page_flags flags Backing.Anonymous else mret ());
  mret mapped.

(** [files] is the descriptor table: the open file of a descriptor. *)
Definition sys_mmap (files : gmap Z Z) (address len prot flags fd offset : Z) : MC Z :=
  if decide (Z.land flags MAP_ANONYMOUS ≠ 0) then map_anonymous_region address len prot flags true
  else
    file ← mok_or (files !! (fd mod 2 ^ 32)) SysErr.BadFd;
    map_file_region file address len prot flags offset true.

(** ** [munmap] and [mprotect] *)

Definition sys_munmap (address len : Z) : MC Z :=
  _ ← on_space (munmap address len);
  _ ← (if decide (len ≠ 0) then
         n ← page_len len;
         modify_regions (remove_mmap_region_range address (saturating_add u64_max address n))
       else mret ());
  mret 0.

Definition sys_mprotect (address len prot : Z) : MC Z :=
  let page_flags := mmap_page_flags prot in
  _ ← on_space (mprotect address len page_flags);
  _ ← (if decide (len ≠ 0) then
         n ← page_len len;
         modify_regions (update_mmap_region_flags address (saturating_add u64_max address n) page_flags)
       else mret ());
  mret 0.

(** ** [mremap] *)

Definition mmap_prot_from_page_flags (flags : Z) : Z :=
  let prot := PROT_READ in
  let prot := if MapFlags.contains flags MapFlags.WRITE then Z.lor prot 2 else prot in
  if MapFlags.contains flags MapFlags.EXECUTE then Z.lor prot 4 else prot.

Definition map_region_backing (region : MmapRegion) (address len offset_delta : Z) (fixed : bool) : MC Z :=
  let flags := if fixed then Z.lor (rg_mmap_flags region) MAP_FIXED else rg_mmap_flags region in
  let prot := mmap_prot_from_page_flags (rg_page_flags region) in
  match rg_backing region with
  | Backing.Anonymous => map_anonymous_region address len prot flags false
  | Backing.BufferedFile file offset | Backing.SharedFile file offset | Backing.DirectFile file offset =>
      map_file_region file address len prot flags (saturating_add u64_max offset offset_delta) false
  end.

(** [while copied < len]: every round copies at least one byte. *)
Fixpoint copy_user_loop (fuel : nat) (src dst len copied : Z) : MC unit :=
  if decide (copied < len) then
    match fuel with
    | O => mdiverge
    | S fuel' =>
        let chunk := (len - copied) `min` COPY_CHUNK in
        bytes ← on_space (read (saturating_add u64_max src copied) chunk);
        if decide (Z.of_nat (length bytes) ≠ chunk) then mthrow SysErr.Fault
        else
          written ← on_space (write (saturating_add u64_max dst copied) bytes);
          if decide (written ≠ chunk) then mthrow SysErr.Fault
          else copy_user_loop fuel' src dst len (saturating_add u64_max copied chunk)
    end
  else mret ().

(** The rounds of [COPY_CHUNK] bytes, and the last one. *)
Definition copy_user_range (src dst len : Z) : MC unit :=
  copy_user_loop (Z.to_nat (len / COPY_CHUNK + 1)) src dst len 0.

Definition should_copy_data (region : MmapRegion) : bool :=
  match rg_backing region with Backing.Anonymous | Backing.BufferedFile _ _ => true | _ => false end.

(** The result of [munmap] is dropped. *)
Definition cleanup_mremap_target (address len : Z) : MC unit :=
  _ ← ignore (on_space (munmap address len));
  modify_regions (remove_mmap_region_range address (saturating_add u64_max address len)).

(** [if let Err(error) = call { self.cleanup_mremap_target(..); return Err(error); }] *)
Definition or_cleanup (target len : Z) (op : MC unit) : MC unit := λ p,
  match op p with
  | (Err e, p') => (_ ← cleanup_mremap_target target len; mthrow e) p'
  | r => r
  end.

(** The data of a moved mapping. *)
Definition mremap_copy (region : MmapRegion) (old_address old_size new_size target new_len : Z) : MC unit :=
  if should_copy_data region && MapFlags.contains (rg_page_flags region) MapFlags.READ then
    let copy_len := old_size `min` new_size in
    let restore_flags := rg_page_flags region in
    let needs_temp_write := bool_decide (copy_len ≠ 0) && negb (MapFlags.contains restore_flags MapFlags.WRITE) in
    _ ← (if needs_temp_write then
           or_cleanup target new_len (on_space (mprotect target copy_len (MapFlags.bitor restore_flags MapFlags.WRITE)))
         else mret ());
    _ ← or_cleanup target new_len (copy_user_range old_address target copy_len);
    (if needs_temp_write then or_cleanup target new_len (on_space (mprotect target copy_len restore_flags)) else mret ())
  else mret ().

(** From [let target = self.map_region_backing(..)] to the end. *)
Definition mremap_move (region : MmapRegion) (old_address old_size new_size flags old_len new_len : Z)
    (fixed_target : option Z) : MC Z :=
  let old_end := saturating_add u64_max old_address old_len in
  target ← map_region_backing region (default 0 fixed_target) new_len 0 (bool_decide (is_Some fixed_target));
  _ ← mremap_copy region old_address old_size new_size target new_len;
  _ ← (if decide (Z.land flags MREMAP_DONTUNMAP = 0)
       then or_cleanup target new_len (on_space (munmap old_address old_len)) else mret ());
  _ ← modify_regions (remove_mmap_region_range target (saturating_add u64_max target new_len));
  _ ← modify_regions (remove_mmap_region_range old_address old_end);
  _ ← modify_regions (insert_mmap_region (with_range target (saturating_add u64_max target new_len) region));
  mret target.

(** The region with its new length, at the old address. *)
Definition resize_region (region : MmapRegion) (old_address old_end new_len : Z) : MC unit :=
  _ ← modify_regions (remove_mmap_region_range old_address old_end);
  modify_regions (insert_mmap_region (with_range old_address (saturating_add u64_max old_address new_len) region)).

(** [is_range_free] does not fail: its errors are answers. *)
Definition space_range_free (addr len : Z) : MC bool := λ p,
  match is_range_free addr len p.2.1 with
  | Ok b => (Ok b, p)
  | Err e => (Err (from_build_error e), p)
  | Panic => (Panic, p)
  | Diverge => (Diverge, p)
  end.

(** The checks of the arguments. *)
Definition mremap_args_ok (old_address old_size new_size flags new_address : Z) : bool :=
  let has bit := negb (Z.land flags bit =? 0) in
  (Z.land flags (u64_max - Z.lor MREMAP_MAYMOVE (Z.lor MREMAP_FIXED MREMAP_DONTUNMAP)) =? 0) &&
  negb (has MREMAP_DONTUNMAP && negb (has MREMAP_MAYMOVE)) &&
  negb ((old_size =? 0) || (new_size =? 0) || negb (old_address mod PAGE_SIZE =? 0)) &&
  (if has MREMAP_FIXED then
     negb (negb (has MREMAP_MAYMOVE) || (new_address =? 0) || negb (new_address mod PAGE_SIZE =? 0))
   else new_address =? 0).

Definition is_anonymous (b : MmapRegionBacking) : bool := match b with Backing.Anonymous => true | _ => false end.

Definition sys_mremap (old_address old_size new_size flags new_address : Z) : MC Z :=
  if negb (mremap_args_ok old_address old_size new_size flags new_address) then mthrow SysErr.Inval
  else
    let has bit := negb (Z.land flags bit =? 0) in
    old_len ← page_len old_size;
    new_len ← page_len new_size;
    if has MREMAP_DONTUNMAP && negb (old_len =? new_len) then mthrow SysErr.Inval
    else
      let old_end := saturating_add u64_max old_address old_len in
      slice ← on_regions (slice_mmap_region old_address old_end);
      region ← mok_or slice SysErr.Fault;
      if has MREMAP_DONTUNMAP &&
         (negb (is_anonymous (rg_backing region)) || negb (Z.land (rg_mmap_flags region) MAP_SHARED =? 0))
      then mthrow SysErr.Inval
      else if (new_len =? old_len) && negb (has MREMAP_DONTUNMAP) &&
              (negb (has MREMAP_FIXED) || (new_address =? old_address))
      then mret old_address
      else
        let fixed_target := if has MREMAP_FIXED then Some new_address else None in
        let overlapping :=
          match fixed_target with
          | Some target => (target <? old_end) && (old_address <? saturating_add u64_max target new_len)
          | None => false
          end in
        if overlapping then mthrow SysErr.Inval
        else if bool_decide (fixed_target = None) && (new_len <? old_len) then
          _ ← on_space (munmap (saturating_add u64_max old_address new_len) (old_len - new_len));
          _ ← resize_region region old_address old_end new_len;
          mret old_address
        else
          free ← (if bool_decide (fixed_target = None) && (old_len <? new_len)
                  then space_range_free old_end (new_len - old_len) else mret false);
          if (free : bool) then
            _ ← map_region_backing region old_end (new_len - old_len) old_len true;
            _ ← resize_region region old_address old_end new_len;
            mret old_address
          else if negb (has MREMAP_MAYMOVE) then mthrow SysErr.NoMem
          else mremap_move region old_address old_size new_size flags old_len new_len fixed_target.

(** ** [mincore] *)

Definition write_user_buffer (address : Z) (bytes : list Z) : MC unit :=
  written ← on_space (write address bytes);
  if decide (written ≠ Z.of_nat (length bytes)) then mthrow SysErr.Fault else mret ().

(** [for page_base in (address..end).step_by(PAGE_SIZE)]: the statuses of the
    pages, all of them one. *)
Fixpoint mincore_loop (pages : list Z) (status : list Z) : MC (list Z) :=
  match pages with
  | [] => mret status
  | page_base :: rest =>
      region ← on_regions (covering_mmap_region page_base (saturating_add u64_max page_base 1));
      if decide (region = None) then mthrow SysErr.NoMem else mincore_loop rest (status ++ [1])
  end.

Definition sys_mincore (address len vec : Z) : MC Z :=
  if decide (len = 0) then mret 0
  else if decide (address mod PAGE_SIZE ≠ 0) then mthrow SysErr.Inval
  else if decide (vec = 0) then mthrow SysErr.Fault
  else
    n ← page_len len;
    end_ ← mok_or (checked_add u64_max address n) SysErr.NoMem;
    status ← mincore_loop ((λ offset, address + offset) <$> page_offsets n) [];
    _ ← write_user_buffer vec status;
    mret 0.

(** ** [brk] and [madvise] *)

Definition sys_brk (address : Z) : MC Z := on_space (brk address).
Definition sys_madvise (address len advice : Z) : MC Z := mthrow SysErr.NoSys.
End calls.
