(* ===== verification/MmapTheorems.v ===== *)
(** * Theorems on the memory system calls

    The recorded regions and the address space of a process agree: [munmap]
    and [mremap] change both in the same range, and [mremap] carries the data
    of the mapping along. *)

From stdpp Require Import sorting.
From S2P Require Import Prelude Frame Poll Errno RangeList PageTable Image Vma VmaProof MmapRegion MemFile UserSpace SpaceApi SpaceInv SpaceProof SpaceFault SpaceFork SpaceDemo SpaceTheorems MmapCalls.

(** ** Areas that the search for addresses accepts *)

(** What [areas_searchable] asks of one area. *)
Definition area_placed (lower : Z) (v : UserVma) : Prop :=
  gap_area lower v ∧ (vma_start v = vma_end v → vma_end v < lower).

Lemma placed_merge lower l r :
  area_placed lower l → area_placed lower r → vmas_mergeable l r = true → area_placed lower (set_end l (vma_end r)).
Proof.
  intros [[H1 H2 H3 H4] H5] [[H6 H7 H8 H9] H10] [He _]%mergeable_spec. split; [split|]; simpl; try done; lia.
Qed.

Section closed.
Context (P : UserVma → Prop).
Context (HP : ∀ l r, P l → P r → vmas_mergeable l r = true → P (set_end l (vma_end r))).

Lemma coalesce_Forall l : Forall P l → Forall P (coalesce_vmas l).
Proof.
  destruct 1 as [|p l Hp Hl]; [constructor|]. simpl. revert p Hp.
  induction Hl as [|v l Hv Hl IH]; intros p Hp; simpl; [by rewrite Forall_singleton|].
  destruct (vmas_mergeable p v) eqn:Hm; [by apply IH, HP|]. constructor; [done|by apply IH].
Qed.

Lemma merge_at_Forall l i a b :
  Forall P l → l !! i = Some a → l !! S i = Some b → vmas_mergeable a b = true →
  Forall P (vec_remove (S i) (<[i := set_end a (vma_end b)]> l)).
Proof.
  intros Hl Ha Hb Hm. apply Forall_vec_remove, Forall_insert; [done|]. apply HP; [..|done]; by eapply Forall_lookup_1.
Qed.

Lemma merge_neighbors_Forall i l : Forall P l → Forall P (merge_vma_neighbors_around i l).
Proof.
  revert i l. assert (∀ i l, Forall P l → Forall P (merge_left i l).2) as Hleft.
  { induction i as [|j IH]; intros k Hl; simpl; [done|]. destruct (k !! j) eqn:Ha, (k !! S j) eqn:Hb; try done.
    destruct (vmas_mergeable _ _) eqn:Hm; [|done]. by apply IH, merge_at_Forall. }
  assert (∀ fuel i l, Forall P l → Forall P (merge_right fuel i l)) as Hright.
  { induction fuel as [|fuel IH]; intros j k Hl; simpl; [done|]. destruct (k !! j) eqn:Ha, (k !! S j) eqn:Hb; try done.
    destruct (vmas_mergeable _ _) eqn:Hm; [|done]. by apply IH, merge_at_Forall. }
  intros i l Hl. unfold merge_vma_neighbors_around. destruct l as [|v l]; [done|]. specialize (Hleft i (v :: l) Hl).
  destruct (merge_left i (v :: l)) as [j l']. by apply Hright.
Qed.

Lemma record_Forall s e flags kind lazy l :
  Forall P l → P (mkVma s e flags kind lazy) → Forall P (record_vma s e flags kind lazy l).
Proof.
  intros Hl Hv. apply merge_neighbors_Forall. unfold vec_insert. apply Forall_app. split; [by apply Forall_take|].
  constructor; [done|by apply Forall_drop].
Qed.
End closed.

Lemma remove_placed lower s e l :
  in_u64 e → e mod 4096 = 0 → Forall (area_placed lower) l → Forall (area_placed lower) (remove_vma_range s e l).
Proof.
  intros He Hal Hl. apply coalesce_Forall; [apply placed_merge|]. apply Forall_forall. intros x (v & Hx & Hv)%list_elem_of_bind.
  rewrite Forall_forall in Hl. destruct (Hl v Hv) as [[H1 H2 H3 H4] H5]. unfold remove_pieces in Hx. case_decide as Hd.
  { apply list_elem_of_singleton in Hx as ->. done. }
  apply elem_of_app in Hx as [Hx|Hx]; case_decide as Hc; try (by apply elem_of_nil in Hx);
    apply list_elem_of_singleton in Hx as ->; (split; [split|]); simpl; try done; lia.
Qed.

Lemma searchable_placed sp : areas_searchable sp → Forall (area_placed (round_up (brk_limit sp))) (vmas sp).
Proof.
  intros Has. apply Forall_forall. intros v Hv. split; [|by apply (as_empty _ Has)].
  pose proof (as_gap _ Has) as Hg. rewrite Forall_forall in Hg. auto.
Qed.

Lemma searchable_set sp l ms :
  areas_searchable sp → separated l → Forall (area_placed (round_up (brk_limit sp))) l →
  areas_searchable (set_vmas l (set_mappings ms sp)).
Proof.
  intros [? ? ? ? ?] Hs Hl. rewrite Forall_forall in Hl. split; simpl; try done.
  - apply Forall_forall. intros v Hv. by apply Hl.
  - intros v Hv. by apply Hl.
Qed.

Lemma searchable_frame sp sp' : same_frame sp sp' → areas_searchable sp → areas_searchable sp'.
Proof. intros -> [? ? ? ? ?]. by split. Qed.

Lemma searchable_wf sp : areas_searchable sp → areas_wf (vmas sp).
Proof.
  intros [Hs Hg _ _ _]. split; [by apply separated_monotone|]. eapply Forall_impl; [exact Hg|]. intros v [_ Ha _ _]. exact Ha.
Qed.

(** ** The byte at an address of an area *)

Lemma cover_elem l a : cover l a ≠ [] → ∃ v, v ∈ l ∧ contains_addr v a.
Proof.
  induction l as [|v l IH]; [done|]. rewrite cover_cons, cover_one. destruct (decide (contains_addr v a)) as [Hc|].
  - intros _. exists v. split; [set_solver|done].
  - intros Hn. destruct (IH Hn) as (x & Hx & Ha). exists x. split; [set_solver|done].
Qed.

Lemma elem_cover l v a : v ∈ l → contains_addr v a → cover l a ≠ [].
Proof.
  intros (l1 & l2 & ->)%list_elem_of_split Ha. rewrite cover_app, cover_cons, cover_one, decide_True by done.
  by destruct (cover l1 a).
Qed.

Lemma lazy_areas_cover va l : areas_wf l → va mod 4096 = 0 → lazy_areas va l ≠ [] → cover l va ≠ [].
Proof.
  intros Hwf Hva Hne. destruct (lazy_areas va l) as [|v rest] eqn:Hl; [done|].
  assert (v ∈ lazy_areas va l) as Hv by (rewrite Hl; set_solver). pose proof (lazy_areas_elem va l v Hv) as (Hvl & Hend & _).
  apply (elem_cover l v); [done|]. split; [by eapply lazy_areas_start|done].
Qed.

(** A page belongs to one area at most. *)
Lemma lazy_areas_one l v a :
  separated l → areas_wf l → in_u64 a → v ∈ l → contains_addr v a →
  lazy_areas (page_base a) l = if vma_lazy v then [v] else [].
Proof.
  intros Hs Hwf Ha Hv Hc. pose proof (page_base_range a Ha) as (Hr & Hal & H0).
  assert (vma_start v <= page_base a) as Hst.
  { destruct Hwf as [_ Hwf]. rewrite Forall_forall in Hwf. specialize (Hwf v Hv). unfold contains_addr in Hc.
    pose proof (Z.div_mod (page_base a) 4096). pose proof (Z.div_mod (vma_start v) 4096). lia. }
  assert (∀ x, x ∈ l → vma_start x <= page_base a < vma_end x → x = v) as Huniq.
  { intros x Hx Hxa. apply list_elem_of_lookup in Hx as (i & Hi). apply list_elem_of_lookup in Hv as (j & Hj).
    destruct (decide (i = j)) as [->|]; [congruence|]. unfold contains_addr in Hc. destruct (decide (i < j)%nat).
    - pose proof (separated_sorted l i j x v Hs ltac:(lia) Hi Hj). lia.
    - pose proof (separated_sorted l j i v x Hs ltac:(lia) Hj Hi). lia. }
  unfold lazy_areas. pose proof (lazy_vma_window_spec (page_base a) (page_base a + PAGE_SIZE) l (proj1 Hwf)) as Hspec.
  rewrite PAGE_SIZE_eq in *. destruct (lazy_vma_window _ _ l) as [[i j]|].
  2:{ destruct (Hspec v Hv). unfold contains_addr in Hc. lia. }
  destruct Hspec as [Hij Hspec]. apply list_elem_of_lookup in Hv as (k & Hk).
  assert (i <= k < j)%nat as Hkij by (apply (Hspec k v Hk); unfold contains_addr in Hc; lia).
  assert (∀ k' x, (i <= k' < j)%nat → l !! k' = Some x → k' = k) as Honly.
  { intros k' x Hk' Hx. apply (Hspec k' x Hx) in Hk' as Hx'. destruct Hwf as [_ Hwf]. pose proof (Forall_lookup_1 _ _ _ _ Hwf Hx) as Hxal.
    simpl in Hxal. assert (vma_start x <= page_base a) as Hxs.
    { pose proof (Z.div_mod (page_base a) 4096). pose proof (Z.div_mod (vma_start x) 4096). lia. }
    destruct (decide (k' < k)%nat); [|destruct (decide (k < k')%nat); [|lia]].
    - pose proof (separated_sorted l k' k x v Hs ltac:(lia) Hx Hk). unfold contains_addr in Hc. lia.
    - pose proof (separated_sorted l k k' v x Hs ltac:(lia) Hk Hx). unfold contains_addr in Hc. lia. }
  assert (window_areas i j l = [v]) as ->.
  { unfold window_areas. destruct (lookup_lt_is_Some_2 l i ltac:(lia)) as [x Hx].
    assert (i = k) as -> by (apply (Honly i x); [lia|done]).
    assert (j = S k) as ->.
    { destruct (decide (j = S k)); [done|]. destruct (lookup_lt_is_Some_2 l (S k) ltac:(lia)) as [y Hy].
      pose proof (Honly (S k) y ltac:(lia) Hy). lia. }
    replace (S k - k)%nat with 1%nat by lia. by rewrite (drop_S _ _ _ Hk). }
  simpl. unfold contributes. assert ((page_base a <? vma_end v) = true) as -> by (unfold contains_addr in Hc; lia).
  rewrite andb_true_r. by destruct (vma_lazy v).
Qed.

(** What demand paging would put there, from the attributes of the area. *)
Definition lazy_byte (x : attributes) : option Z :=
  if at_lazy x then match at_file x with Some (src, off) => src_byte src off | None => Some 0 end else None.

Lemma vbyte_area am sp a x :
  areas_searchable sp → in_u64 a → cover (vmas sp) a = [x] →
  vbyte am sp a =
  match page_of sp (page_base a) with
  | Some m => am_data am (mp_frame m) !! Z.to_nat (a - page_base a)
  | None => lazy_byte x
  end.
Proof.
  intros Has Ha Hx. pose proof (searchable_wf sp Has) as Hwf. pose proof (as_separated _ Has) as Hs. unfold vbyte.
  destruct (page_of sp (page_base a)); [done|]. destruct (cover_elem (vmas sp) a) as (v & Hv & Hc); [by rewrite Hx|].
  rewrite (lazy_areas_one _ v) by done. apply list_elem_of_split in Hv as (l1 & l2 & Hl). rewrite Hl in Hx, Hs.
  rewrite cover_single in Hx by done. simplify_eq. unfold lazy_byte. simpl. destruct (vma_lazy v); [|done].
  unfold page_byte, in_order. simpl. unfold byte_over. done.
Qed.

Section spaces.
Context {W : Type} {U : UserMachine W} (rep : W → abstract → Prop) (round1 : Z) (foreign : PhysFrame → Prop).
Context (US : UserMachineSpec rep round1 foreign).
Implicit Types (sp : UserAddressSpaceInner) (w : W) (am : abstract) (rest : list UserAddressSpaceInner).

Abbreviation good := (good rep round1 foreign).

(** ** The address space *)

(** Every page lies in an area. *)
Definition paged (sp : UserAddressSpaceInner) : Prop :=
  ∀ va, page_of sp va ≠ None → cover (vmas sp) va ≠ [].

Record space_ok (ext : Z → Z) (rest : list UserAddressSpaceInner) (sp : UserAddressSpaceInner) (w : W) (am : abstract) : Prop := {
  so_good : good ext rest sp w am;
  so_areas : areas_searchable sp;
  so_top : mmap_top (layout sp) <= 2 ^ 47 - 4096;
  so_paged : paged sp;
}.

(** At [a] the space is as before. *)
Definition kept (am : abstract) (sp : UserAddressSpaceInner) (am' : abstract) (sp' : UserAddressSpaceInner) (a : Z) : Prop :=
  cover (vmas sp') a = cover (vmas sp) a ∧
  (private sp a → private sp' a ∧ vbyte am' sp' a = vbyte am sp a).

Lemma kept_trans am1 sp1 am2 sp2 am3 sp3 a :
  kept am1 sp1 am2 sp2 a → kept am2 sp2 am3 sp3 a → kept am1 sp1 am3 sp3 a.
Proof.
  intros [Hc Hk] [Hc' Hk']. split; [congruence|]. intros Hp. destruct (Hk Hp) as [Hp2 Hv]. destruct (Hk' Hp2) as [Hp3 Hv'].
  split; [done|congruence].
Qed.

Lemma cover_attr sp a : areas_searchable sp → cover (vmas sp) a ≠ [] → ∃ x, cover (vmas sp) a = [x].
Proof.
  intros Has Hne. destruct (cover_elem _ _ Hne) as (v & (l1 & l2 & Hl)%list_elem_of_split & Ha). exists (attr v a).
  pose proof (as_separated _ Has) as Hs. rewrite Hl in *. by apply cover_single.
Qed.

Lemma kept_pages am sp am' sp' a :
  areas_searchable sp → areas_searchable sp' → in_u64 a → cover (vmas sp) a ≠ [] → cover (vmas sp') a = cover (vmas sp) a →
  page_of sp' (page_base a) = page_of sp (page_base a) → am_data am' = am_data am → kept am sp am' sp' a.
Proof.
  intros Has Has' Ha Hne Hc Hp Hd. split; [done|]. intros Hpriv. split; [unfold private; by rewrite Hp|].
  destruct (cover_attr sp a Has Hne) as [x Hx]. rewrite (vbyte_area am' sp' a x), (vbyte_area am sp a x), Hp, Hd; congruence || done.
Qed.

Definition fresh_attr (page_flags : Z) : attributes := mkAttr page_flags (kind_tag Anonymous) true None 0.

Lemma fresh_area am sp a page_flags :
  areas_searchable sp → in_u64 a → cover (vmas sp) a = [fresh_attr page_flags] → page_of sp (page_base a) = None →
  vbyte am sp a = Some 0 ∧ private sp a ∧ not_cow sp a.
Proof.
  intros Has Ha Hc Hp. split_and!; [|intros m Hm; congruence..]. by rewrite (vbyte_area am sp a _ Has Ha Hc), Hp.
Qed.

(** The pages of a range of whole pages. *)
Lemma page_base_in a s e : in_u64 a → s mod 4096 = 0 → e mod 4096 = 0 → s <= a < e ↔ s <= page_base a < e.
Proof.
  intros Ha Hs He. destruct (page_base_range a Ha) as (Hr & Hal & _).
  pose proof (Z.div_mod (page_base a) 4096). pose proof (Z.div_mod s 4096). pose proof (Z.div_mod e 4096). lia.
Qed.

Lemma free_cover s e l a : vma_range_overlaps s e l = false → s <= a < e → cover l a = [].
Proof.
  intros Hf Ha. destruct (cover l a) as [|x c] eqn:Hc; [done|]. destruct (cover_elem l a) as (v & Hv & Hva); [by rewrite Hc|].
  apply not_true_iff_false in Hf. destruct Hf. unfold vma_range_overlaps. apply existsb_exists. exists v. rewrite <-list_elem_of_In.
  split; [done|]. unfold overlaps, contains_addr in *. lia.
Qed.

(** ** Placing an anonymous area in a free range *)

Lemma place_area sp s e page_flags :
  areas_searchable sp → round_up (brk_limit sp) <= s → s < e → e <= 2 ^ 47 → s mod 4096 = 0 →
  vma_range_overlaps s e (vmas sp) = false →
  let l := record_vma s e page_flags Anonymous true (vmas sp) in
  areas_searchable (set_vmas l sp) ∧
  ∀ a, cover l a = if decide (s <= a < e) then [fresh_attr page_flags] else cover (vmas sp) a.
Proof.
  intros Has Hlow Hse He Hal Hfree l. pose proof (as_limit _ Has) as Hlim. pose proof (round_up_spec (brk_limit sp) ltac:(lia)) as (Hb & _).
  destruct (record_vma_spec s e page_flags Anonymous true (vmas sp)) as [Hsep Hcov].
  - apply Has.
  - split; [simpl; lia|done].
  - split; [simpl; lia|]. intros x Hx. simpl. pose proof (as_gap _ Has) as Hgap. rewrite Forall_forall in Hgap.
    destruct (Hgap x Hx) as [_ _ Hle Hprop]. apply not_true_iff_false in Hfree.
    assert (overlaps s e x = false) as Hov.
    { apply not_true_is_false. intros Ho. apply Hfree, existsb_exists. exists x. by rewrite <-list_elem_of_In. }
    pose proof (as_empty _ Has x Hx). unfold overlaps in Hov. lia.
  - split; [|exact Hcov]. apply (searchable_set sp l (mappings sp)); [done|done|]. apply record_Forall; [apply placed_merge|by apply searchable_placed|].
    split; [split|]; simpl; try done; try lia. split; unfold u64_max; lia.
Qed.

(** The space with one more anonymous area. *)
Record placed (sp sp' : UserAddressSpaceInner) (s e page_flags : Z) : Prop := {
  pl_pages va : page_of sp' va = page_of sp va;
  pl_cover a : cover (vmas sp') a = if decide (s <= a < e) then [fresh_attr page_flags] else cover (vmas sp) a;
  pl_free a : s <= a < e → cover (vmas sp) a = [];
  pl_brk : brk_limit sp' = brk_limit sp;
}.

Lemma placed_ok ext rest sp sp1 w am s e page_flags :
  space_ok ext rest sp w am → good ext rest sp1 w am → sp1 = set_mappings (mappings sp1) sp →
  (∀ va, page_of sp1 va = page_of sp va) →
  round_up (brk_limit sp) <= s → s < e → e <= 2 ^ 47 → s mod 4096 = 0 →
  Z.testbit page_flags 3 = true → vma_range_overlaps s e (vmas sp) = false →
  let sp' := set_vmas (record_vma s e page_flags Anonymous true (vmas sp)) sp1 in
  space_ok ext rest sp' w am ∧ placed sp sp' s e page_flags.
Proof.
  intros [Hg Has Htop Hpg] Hg1 Hsp1 Hpages Hlow Hse He Hal Hu Hfree sp'.
  destruct (place_area sp s e page_flags) as [Has' Hcov]; try done.
  assert (Forall area_ok (record_vma s e page_flags Anonymous true (vmas sp))) as Haok.
  { apply area_ok_record; [by eapply good_area_ok|]. split; [done|simpl; lia|done]. }
  split; [|split]; unfold sp' in *.
  - split.
    + by eapply good_areas.
    + rewrite Hsp1. apply (searchable_set sp _ (mappings sp1)); [done|apply Has'|apply (searchable_placed _ Has')].
    + by rewrite Hsp1.
    + intros va Hva. simpl. rewrite Hcov. case_decide; [done|]. apply Hpg. rewrite <-Hpages. exact Hva.
  - intros va. rewrite <-Hpages. done.
  - exact Hcov.
  - intros a Ha. by eapply free_cover.
  - by rewrite Hsp1.
Qed.

(** ** Unmapping a range of pages *)

Record unplaced (sp sp' : UserAddressSpaceInner) (s e : Z) : Prop := {
  up_pages va : page_of sp' va = if decide (s <= va < e) then None else page_of sp va;
  up_cover a : cover (vmas sp') a = if decide (s <= a < e) then [] else cover (vmas sp) a;
  up_brk : brk_limit sp' = brk_limit sp;
}.

Lemma round_up_id n : n mod 4096 = 0 → round_up n = n.
Proof.
  intros Hn. unfold round_up. pose proof (Z.div_mod n 4096). pose proof (Z.div_mod (n + 4095) 4096).
  pose proof (Z.mod_pos_bound (n + 4095) 4096). lia.
Qed.

Lemma unmap_any ext rest sp w am s n :
  space_ok ext rest sp w am → 0 <= s → s mod 4096 = 0 → 0 < n → s + n <= 2 ^ 47 - 4096 →
  wp_res (munmap s n) (sp, w)
    (λ _ s', ∃ am', space_ok ext rest s'.1 s'.2 am' ∧ am_data am' = am_data am ∧ unplaced sp s'.1 s (s + round_up n))
    (λ _ _, False).
Proof.
  intros [Hg Has Htop Hpg] Hs Hal Hn Hmax. pose proof (round_up_spec n ltac:(lia)) as (Hr1 & Hr2 & Hr3).
  eapply wp_res_mono; [apply (munmap_rule rep round1 foreign US ext rest sp w am s n); done || lia|..]; cbv beta.
  2:{ intros e s' (_ & _ & [|]); lia. }
  intros _ s' (_ & _ & am' & Hg' & Hd & Hsp & Hp). exists am'.
  assert (vmas s'.1 = remove_vma_range s (s + round_up n) (vmas sp)) as Hv by by rewrite Hsp.
  assert (∀ a, cover (vmas s'.1) a = if decide (s <= a < s + round_up n) then [] else cover (vmas sp) a) as Hcov.
  { intros a. rewrite Hv. apply remove_vma_range_cover; [apply separated_wf, Has|lia]. }
  split; [|split; [done|split; [exact Hp|exact Hcov|by rewrite Hsp]]]. split.
  - done.
  - rewrite Hsp. apply searchable_set; [done|apply remove_vma_range_separated; [apply Has|lia]|].
    apply remove_placed; [split; unfold u64_max; lia|rewrite Z.add_mod, Hal, Hr2 by lia; done|by apply searchable_placed].
  - by rewrite Hsp.
  - intros va. rewrite Hp, Hcov. case_decide; [done|]. apply Hpg.
Qed.

Lemma unmap_range ext rest sp w am s n :
  space_ok ext rest sp w am → 0 <= s → s mod 4096 = 0 → 0 < n → n mod 4096 = 0 → s + n <= 2 ^ 47 - 4096 →
  wp_res (munmap s n) (sp, w)
    (λ _ s', ∃ am', space_ok ext rest s'.1 s'.2 am' ∧ am_data am' = am_data am ∧ unplaced sp s'.1 s (s + n))
    (λ _ _, False).
Proof.
  intros Hok Hs Hal Hn Hnal Hmax. eapply wp_res_mono; [by apply (unmap_any ext rest sp w am s n)|..]; cbv beta; [|done].
  by rewrite (round_up_id n Hnal).
Qed.

(** ** Mapping anonymous memory *)

Definition flag_set (flags bit : Z) : Prop := Z.land flags bit ≠ 0.

Lemma ceiling_aligned sp : areas_searchable sp → mmap_ceiling sp mod 4096 = 0 ∧ mmap_ceiling sp <= mmap_top (layout sp).
Proof.
  intros Has. pose proof (as_top _ Has) as Htop. assert (in_u64 (mmap_top (layout sp))) as Htu by (split; unfold u64_max; lia).
  destruct (page_base_range _ Htu) as (Hr & Hal & _). unfold mmap_ceiling. split; [|etrans; [apply lowest_le|lia]].
  pose proof (as_gap _ Has) as Hg. apply Forall_reverse in Hg. induction Hg as [|v l [_ Hv _ _] Hl IH]; [done|]. simpl.
  case_decide; [|done]. destruct (Z.min_spec (vma_start v) (lowest (round_up (brk_limit sp)) (page_base (mmap_top (layout sp)))
    (page_base (mmap_top (layout sp))) l)) as [[_ ->]|[_ ->]]; done.
Qed.

(** At addresses of the kernel's choice. *)
Lemma map_anywhere ext rest sp w am addr n flags page_flags :
  space_ok ext rest sp w am → 0 < n → n mod 4096 = 0 → n <= u64_max - 4095 →
  flag_set flags MAP_ANONYMOUS → ¬ flag_set flags MAP_FIXED → ¬ flag_set flags MAP_FIXED_NOREPLACE →
  Z.testbit page_flags 3 = true →
  wp_res (mmap_anonymous addr n flags page_flags) (sp, w)
    (λ base s', base mod 4096 = 0 ∧ round_up (brk_limit sp) <= base ∧ base + n <= 2 ^ 47 - 4096 ∧
       space_ok ext rest s'.1 s'.2 am ∧ placed sp s'.1 base (base + n) page_flags)
    (λ e s', s' = (sp, w)).
Proof.
  intros Hok Hn Hnal Hmax Han Hfix Hno Hu. pose proof Hok as [Hg Has Htop Hpg]. unfold flag_set in *.
  destruct (ceiling_aligned sp Has) as [Hcal Hctop].
  unfold mmap_anonymous. rewrite decide_False by (intros [|]; lia). sp_step. apply wp_align_up; [lia..|]. rewrite (round_up_id n Hnal).
  sp_step. unfold prepare_mapping_base. rewrite (decide_False (P := Z.land flags MAP_FIXED_NOREPLACE ≠ 0)) by done.
  rewrite (decide_False (P := Z.land flags MAP_FIXED ≠ 0)) by done.
  eapply wp_res_mono; [apply (mmap_base_rule sp w n Has); lia|..]; cbv beta; rewrite (round_up_id n Hnal); [|naive_solver].
  intros base s' (-> & Hceil & Hlow & Hend & Hfree). pose proof (as_limit _ Has) as Hlim.
  pose proof (round_up_spec (brk_limit sp) ltac:(lia)) as (Hrb & _). unfold add64.
  rewrite checked_add_Some by (unfold u64_max; lia). sp_run. unfold record_area. sp_run. cbn [fst snd].
  assert (base mod 4096 = 0) as Hbal.
  { replace base with (mmap_ceiling sp - n) by lia. rewrite Zminus_mod, Hcal, Hnal. done. }
  split; [done|]. split; [done|]. split; [lia|]. apply placed_ok; try done; [by destruct sp|lia].
Qed.

Lemma cover_free sp s e :
  areas_searchable sp → round_up (brk_limit sp) <= s → s < e → (∀ a, s <= a < e → cover (vmas sp) a = []) →
  vma_range_overlaps s e (vmas sp) = false.
Proof.
  intros Has Hlow Hse Hc. apply not_true_is_false. unfold vma_range_overlaps. rewrite existsb_exists. intros (v & Hv & Ho).
  rewrite <-list_elem_of_In in Hv. unfold overlaps in Ho. pose proof (as_gap _ Has) as Hg. rewrite Forall_forall in Hg.
  destruct (Hg v Hv) as [_ _ Hle _]. pose proof (as_empty _ Has v Hv) as Hem.
  apply (elem_cover (vmas sp) v (vma_start v `max` s)); [done|unfold contains_addr; lia|]. apply Hc. lia.
Qed.

(** At a free range that is named. *)
Lemma map_free_at ext rest sp w am s n flags page_flags :
  space_ok ext rest sp w am → 0 < n → n mod 4096 = 0 → s mod 4096 = 0 → round_up (brk_limit sp) <= s → s + n <= 2 ^ 47 - 4096 →
  flag_set flags MAP_ANONYMOUS → flag_set flags MAP_FIXED → ¬ flag_set flags MAP_FIXED_NOREPLACE →
  Z.testbit page_flags 3 = true → vma_range_overlaps s (s + n) (vmas sp) = false →
  wp_res (mmap_anonymous s n flags page_flags) (sp, w)
    (λ base s', base = s ∧ ∃ am', am_data am' = am_data am ∧
       space_ok ext rest s'.1 s'.2 am' ∧ placed sp s'.1 s (s + n) page_flags)
    (λ _ _, False).
Proof.
  intros Hok Hn Hnal Hal Hlow Hmax Han Hfix Hno Hu Hfree. pose proof Hok as [Hg Has Htop Hpg]. unfold flag_set in *.
  pose proof (as_limit _ Has) as Hlim. pose proof (round_up_spec (brk_limit sp) ltac:(lia)) as (Hrb & _).
  unfold mmap_anonymous. rewrite decide_False by (intros [|]; lia). sp_step.
  apply wp_align_up; [lia|unfold u64_max; lia|]. rewrite (round_up_id n Hnal).
  sp_step. unfold prepare_mapping_base. rewrite (decide_False (P := Z.land flags MAP_FIXED_NOREPLACE ≠ 0)) by done.
  rewrite (decide_True (P := Z.land flags MAP_FIXED ≠ 0)) by done. rewrite (proj2 (virt_aligned s) Hal). cbn [negb].
  sp_step. sp_step. eapply wp_res_mono; [apply (unmap_range ext rest sp w am s n); done || lia|..]; cbv beta; [|done].
  intros _ [sp1 w1] (am1 & Hok1 & Hd1 & [Hp1 Hc1 Hb1]). cbn [fst snd] in *. sp_run.
  unfold add64. rewrite checked_add_Some by (unfold u64_max; lia). sp_run. unfold record_area. sp_run. cbn [fst snd].
  split; [done|]. exists am1. split; [done|]. pose proof Hok1 as [Hg1 Has1 _ _].
  assert (vma_range_overlaps s (s + n) (vmas sp1) = false) as Hfree1.
  { apply cover_free; [done|by rewrite Hb1|lia|]. intros a Ha. by rewrite Hc1, decide_True. }
  destruct (placed_ok ext rest sp1 sp1 w1 am1 s (s + n) page_flags) as [Hok2 [Hp2 Hc2 Hn2 Hb2]];
    try done; [by destruct sp1|by rewrite Hb1|lia|lia|].
  split; [done|]. split.
  - intros va. rewrite Hp2, Hp1. case_decide as Hin; [|done]. destruct (page_of sp va) eqn:Hpv; [|done].
    destruct (Hpg va); [by rewrite Hpv|]. by eapply free_cover.
  - intros a. rewrite Hc2, Hc1. by case_decide.
  - intros a Ha. by eapply free_cover.
  - by rewrite Hb2.
Qed.

Lemma unplaced_kept am am' sp sp' s e a :
  areas_searchable sp → areas_searchable sp' → unplaced sp sp' s e → s mod 4096 = 0 → e mod 4096 = 0 →
  am_data am' = am_data am → in_u64 a → cover (vmas sp) a ≠ [] → ¬ s <= a < e → kept am sp am' sp' a.
Proof.
  intros Has Has' [Hp Hc _] Hs He Hd Ha Hne Hout. apply kept_pages; try done; [by rewrite Hc, decide_False|].
  rewrite Hp, decide_False; [done|]. by rewrite <-page_base_in.
Qed.

Lemma placed_kept am am' sp sp' s e page_flags a :
  areas_searchable sp → areas_searchable sp' → placed sp sp' s e page_flags → am_data am' = am_data am →
  in_u64 a → cover (vmas sp) a ≠ [] → kept am sp am' sp' a.
Proof.
  intros Has Has' [Hp Hc Hf _] Hd Ha Hne. apply kept_pages; try done. rewrite Hc, decide_False; [done|].
  intros Hin. by apply Hne, Hf.
Qed.

(** Fresh memory is zero. *)
Lemma placed_fresh am sp sp' s e page_flags a :
  paged sp → areas_searchable sp' → placed sp sp' s e page_flags → s mod 4096 = 0 → e mod 4096 = 0 → in_u64 a → s <= a < e →
  vbyte am sp' a = Some 0 ∧ private sp' a ∧ not_cow sp' a.
Proof.
  intros Hpg Has' [Hp Hc Hf _] Hs He Ha Hin. apply (fresh_area am sp' a page_flags); try done; [by rewrite Hc, decide_True|].
  rewrite Hp. destruct (page_of sp (page_base a)) eqn:Hm; [|done]. destruct (Hpg (page_base a)); [by rewrite Hm|].
  apply Hf. by rewrite <-page_base_in.
Qed.

(** ** Reads and writes keep the space *)

Lemma mem_written_nil am sp a : mem_written am sp a [] am sp.
Proof.
  split; [apply same_frame_refl|done|done|apply pages_from_refl|]. intros _ b _ _. rewrite decide_False; [done|simpl; lia].
Qed.

Lemma space_ok_frame ext rest sp w am sp' w' am' :
  space_ok ext rest sp w am → good ext rest sp' w' am' → same_frame sp sp' → pages_from sp sp' →
  space_ok ext rest sp' w' am'.
Proof.
  intros [Hg Has Htop Hpg] Hg' Hf Hfrom. split; [done|by eapply searchable_frame|by rewrite Hf|].
  intros va Hva. rewrite (same_frame_vmas _ _ Hf). destruct (Hfrom va Hva) as [|Hl]; [by apply Hpg|].
  apply lazy_areas_cover; [by apply searchable_wf| |done]. destruct (page_of sp' va) as [m|] eqn:Hm; [|done].
  apply page_of_Some in Hm as [Hm Hk]; [|by eapply good_sorted].
  destruct (mo_page _ _ _ _ (good_mapping _ _ _ _ _ _ _ _ m Hg' Hm)) as [_ Hal]. by rewrite <-Hk.
Qed.

Lemma write_space_rule ext rest sp w am a buf :
  space_ok ext rest sp w am → in_u64 a →
  (∀ b, a <= b < a + Z.of_nat (length buf) → in_u64 b → not_cow sp b) →
  wp_res (write a buf) (sp, w)
    (λ n s', n = Z.of_nat (length buf) ∧ ∃ am', space_ok ext rest s'.1 s'.2 am' ∧ keeps rest am am' ∧
       mem_written am sp a buf am' s'.1)
    (λ _ s', ∃ am', space_ok ext rest s'.1 s'.2 am' ∧ keeps rest am am' ∧
       partly_written am sp a (Z.of_nat (length buf)) am' s'.1).
Proof.
  intros Hok Ha Hcow. unfold write.
  eapply wp_res_mono; [apply (write_loop_rule rep round1 foreign US (length buf) ext rest sp w am); [apply Hok|done|lia..]|..]; cbv beta.
  - intros n s' (am' & -> & Hg & Hk & Hmw). split; [lia|]. exists am'. split; [|done].
    eapply space_ok_frame; [done|done|apply (mw_frame _ _ _ _ _ _ Hmw)|apply (mw_pages _ _ _ _ _ _ Hmw)].
  - rewrite Z.sub_0_r. intros e s' [_ Hst]. destruct (Hst Hcow) as (am' & Hg & Hk & Hpw). exists am'. split; [|done].
    eapply space_ok_frame; [done|done|apply (pw_frame _ _ _ _ _ _ Hpw)|apply (pw_pages _ _ _ _ _ _ Hpw)].
Qed.

Lemma read_space_rule ext rest sp w am a n :
  space_ok ext rest sp w am → in_u64 a → 0 <= n →
  wp_res (read a n) (sp, w)
    (λ bytes s', ∃ am', space_ok ext rest s'.1 s'.2 am' ∧ keeps rest am am' ∧ mem_same am sp am' s'.1 ∧
       Z.of_nat (length bytes) = n ∧ ∀ i b, bytes !! i = Some b → vbyte am sp (a + Z.of_nat i) = Some b)
    (λ _ s', ∃ am', space_ok ext rest s'.1 s'.2 am' ∧ keeps rest am am' ∧ mem_same am sp am' s'.1).
Proof.
  intros Hok Ha Hn. pose proof Hok as [Hg Has _ _].
  assert (∀ am' s', good ext rest s'.1 s'.2 am' → mem_same am sp am' s'.1 → space_ok ext rest s'.1 s'.2 am') as Hso.
  { intros am' s' Hg' Hms. eapply space_ok_frame; [done|done|apply (ms_frame _ _ _ _ Hms)|apply (ms_pages _ _ _ _ Hms)]. }
  eapply wp_res_mono; [by apply (read_rule rep round1 foreign US ext rest sp w am)|..]; cbv beta.
  - intros bytes s' (am' & Hg' & Hsame & Hms & Hlen & Hb). exists am'. split; [by apply Hso|]. split; [by apply same_keeps|].
    split; [done|]. split; [done|]. apply Hb. by apply searchable_wf.
  - intros e s' (am' & Hg' & Hsame & Hms). exists am'. split; [by apply Hso|]. split; [by apply same_keeps|done].
Qed.
End spaces.

Section remap.
Context {W : Type} {U : UserMachine W} {FM : MappableFiles W}.
Context (rep : W → abstract → Prop) (round1 : Z) (foreign : PhysFrame → Prop).
Context (US : UserMachineSpec rep round1 foreign).
Implicit Types (sp : UserAddressSpaceInner) (w : W) (am : abstract) (rest : list UserAddressSpaceInner) (l : list MmapRegion).

Abbreviation space_ok := (space_ok rep round1 foreign).

Lemma wp_space_call {A} (op : MU (W := W) A) l s (Q : A → memory → Prop) (Qe : SysErr.SysErr → memory → Prop) :
  wp_res op s (λ a s', Q a (l, s')) (λ e s', Qe (from_build_error e) (l, s')) → wp_res (on_space op) (l, s) Q Qe.
Proof. unfold wp_res, wp, on_space. cbn [fst snd]. by destruct (op s) as [[]]. Qed.

Lemma wp_regions f l (s : UserAddressSpaceInner * W) (Q : unit → memory → Prop) (Qe : SysErr.SysErr → memory → Prop) :
  Q () (f l, s) → wp_res (modify_regions f) (l, s) Q Qe.
Proof. done. Qed.

Lemma wp_on_regions {A} (f : list MmapRegion → outcome SysErr.SysErr A) a l (s : UserAddressSpaceInner * W)
    (Q : A → memory → Prop) (Qe : SysErr.SysErr → memory → Prop) :
  f l = Ok a → Q a (l, s) → wp_res (on_regions f) (l, s) Q Qe.
Proof. unfold wp_res, wp, on_regions. cbn [fst]. by intros ->. Qed.

Lemma wp_page_len len (p : memory (W := W)) (Q : Z → memory → Prop) (Qe : SysErr.SysErr → memory → Prop) :
  0 <= len → len <= u64_max - 4095 → Q (round_up len) p → wp_res (page_len len) p Q Qe.
Proof.
  intros H0 Hmax HQ. unfold page_len, div_ceil_pages. rewrite PAGE_SIZE_eq. change (4096 - 1) with 4095. fold (round_up len).
  pose proof (round_up_spec len H0). rewrite decide_True by lia. done.
Qed.

(** ** Copying a range *)

(** The bytes of [src..src+len]. *)
Definition bytes_of (am : abstract) (sp : UserAddressSpaceInner) (src : Z) (buf : list Z) : Prop :=
  ∀ i b, buf !! i = Some b → vbyte am sp (src + Z.of_nat i) = Some b.

Lemma copy_loop_rule fuel ext rest l sp w am src dst len copied :
  space_ok ext rest sp w am → 0 <= copied → 0 <= len → len - copied <= Z.of_nat fuel * COPY_CHUNK →
  0 <= src → 0 <= dst → src + len <= 2 ^ 47 → dst + len <= 2 ^ 47 → (src + len <= dst ∨ dst + len <= src) →
  (∀ b, src <= b < src + len → private sp b) → (∀ b, dst <= b < dst + len → private sp b ∧ not_cow sp b) →
  wp_res (copy_user_loop fuel src dst len copied) (l, (sp, w))
    (λ _ p, p.1 = l ∧ ∃ am' buf, space_ok ext rest p.2.1 p.2.2 am' ∧ keeps rest am am' ∧
       mem_written am sp (dst + copied) buf am' p.2.1 ∧ length buf = Z.to_nat (len - copied) ∧ bytes_of am sp (src + copied) buf)
    (λ _ p, p.1 = l ∧ ∃ am', space_ok ext rest p.2.1 p.2.2 am' ∧ keeps rest am am' ∧
       partly_written am sp dst len am' p.2.1).
Proof.
  revert sp w am copied. induction fuel as [|fuel IH];
    intros sp w am copied Hok Hc0 Hl0 Hfuel Hs0 Hd0 Hsmax Hdmax Hdisj Hsp Hdp; cbn [copy_user_loop];
    (destruct (decide (copied < len)) as [Hlt|Hge];
      [|wp_run; split; [done|]; exists am, []; split_and!; try done;
        [apply mem_written_nil|simpl; lia]]).
  { simpl in Hfuel. lia. }
  set (chunk := (len - copied) `min` COPY_CHUNK). assert (0 < COPY_CHUNK) as Hcc by done.
  assert (0 < chunk <= len - copied ∧ (chunk = len - copied ∨ chunk = COPY_CHUNK)) as [Hch Hch'] by (unfold chunk; lia).
  assert (∀ x, 0 <= x <= 2 ^ 47 → in_u64 x) as Hu by (intros x Hx; split; unfold u64_max; lia).
  assert (∀ x y, x + y <= 2 ^ 47 → saturating_add u64_max x y = x + y) as Hsat by (intros x y Hx; unfold saturating_add, u64_max; lia).
  wp_step. apply wp_space_call. rewrite Hsat by lia.
  eapply wp_res_mono; [apply (read_space_rule rep round1 foreign US ext rest sp w am); [done|apply Hu; lia|lia]|..]; cbv beta.
  2:{ intros e s' (am' & Hok' & Hk & Hms). split; [done|]. exists am'. split; [done|]. split; [done|]. by apply same_partly. }
  intros bytes [sp1 w1] (am1 & Hok1 & Hk1 & Hms1 & Hlen & Hb). cbn [fst snd] in *.
  rewrite (decide_False (P := Z.of_nat (length bytes) ≠ chunk)) by lia. wp_step. apply wp_space_call. rewrite Hsat by lia.
  eapply wp_res_mono; [apply (write_space_rule rep round1 foreign US ext rest sp1 w1 am1); [done|apply Hu; lia|]|..]; cbv beta.
  { intros b Hbr _. apply (ms_cow _ _ _ _ Hms1), Hdp. lia. }
  2:{ intros e s' (am' & Hok' & Hk & Hpw). split; [done|]. exists am'. split; [done|]. split; [by eapply keeps_trans|].
      apply (partly_trans _ _ am1 sp1 _ _ _ _ (dst + copied) (Z.of_nat (length bytes))); [lia..|by apply same_partly|done]. }
  intros n [sp2 w2] (-> & am2 & Hok2 & Hk2 & Hmw2). cbn [fst snd] in *.
  rewrite (decide_False (P := Z.of_nat (length bytes) ≠ chunk)) by lia. rewrite Hsat by lia.
  assert (∀ b, private sp2 b ↔ private sp b) as Hpriv by (intros b; by rewrite (mw_private _ _ _ _ _ _ Hmw2), (ms_private _ _ _ _ Hms1)).
  eapply wp_res_mono; [apply (IH sp2 w2 am2 (copied + chunk)); try done; try lia|..]; cbv beta.
  - intros b Hbr. by apply Hpriv, Hsp.
  - intros b Hbr. destruct (Hdp b Hbr). split; [by apply Hpriv|]. apply (mw_cow _ _ _ _ _ _ Hmw2), (ms_cow _ _ _ _ Hms1). done.
  - intros _ [l' [sp3 w3]] (Hl & am3 & buf & Hok3 & Hk3 & Hmw3 & Hlen3 & Hb3). cbn [fst snd] in *. split; [done|].
    exists am3, (bytes ++ buf). split; [done|]. split; [by do 2 (eapply keeps_trans; [done|])|]. split; [|split; [rewrite length_app; lia|]].
    + eapply mem_written_join; [exact Hms1|exact Hmw2|]. by replace (dst + copied + Z.of_nat (length bytes)) with (dst + (copied + chunk)) by lia.
    + intros i b Hi. destruct (decide (i < length bytes)%nat) as [Hil|Hil].
      { apply Hb. by rewrite lookup_app_l in Hi by done. }
      rewrite lookup_app_r in Hi by lia. pose proof (lookup_lt_Some _ _ _ Hi). specialize (Hb3 _ _ Hi).
      assert (areas_wf (vmas sp)) as Hwf by (apply searchable_wf, Hok).
      replace (src + copied + Z.of_nat i) with (src + (copied + chunk) + Z.of_nat (i - length bytes)) by lia.
      set (x := src + (copied + chunk) + Z.of_nat (i - length bytes)) in *.
      assert (src <= x < src + len ∧ in_u64 x) as [Hx Hxu] by (split; [|apply Hu]; unfold x; lia).
      rewrite <-(ms_bytes _ _ _ _ Hms1 Hwf x Hxu), <-Hb3, (mw_bytes _ _ _ _ _ _ Hmw2); [by rewrite decide_False by lia| |done|].
      * by rewrite (same_frame_vmas _ _ (ms_frame _ _ _ _ Hms1)).
      * apply (ms_private _ _ _ _ Hms1). by apply Hsp.
  - intros e [l' [sp3 w3]] (Hl & am3 & Hok3 & Hk3 & Hpw3). cbn [fst snd] in *. split; [done|]. exists am3. split; [done|].
    split; [by do 2 (eapply keeps_trans; [done|])|].
    apply (partly_trans _ _ am2 sp2 _ _ _ _ dst len); [lia..| |done].
    apply (partly_trans _ _ am1 sp1 _ _ _ _ dst len); [lia..|by apply same_partly|].
    destruct (written_partly am1 sp1 (dst + copied) bytes (Z.of_nat (length bytes)) am2 sp2 ltac:(lia) Hmw2) as [Hf2 Hp2 Hg2 Hb2].
    split; [done|done|done|]. intros Hwf b Hbr Hpr Hout. apply Hb2; try done. lia.
Qed.

(** ** A process's memory *)

(** Whatever is recorded is in an area, above the break. *)
Record memory_ok (ext : Z → Z) (rest : list UserAddressSpaceInner) (p : memory (W := W)) (am : abstract) : Prop := {
  me_space : space_ok ext rest p.2.1 p.2.2 am;
  me_regions : regions_ok p.1;
  me_claims a : claims p.1 a ≠ [] →
    round_up (brk_limit p.2.1) <= a < 2 ^ 47 - 4096 ∧ cover (vmas p.2.1) a ≠ [];
}.

(** Areas, regions and memory are as before. *)
Record unmoved (am : abstract) (p : memory (W := W)) (am' : abstract) (p' : memory (W := W)) : Prop := {
  un_claims a : claims p'.1 a = claims p.1 a;
  un_cover a : cover (vmas p'.2.1) a = cover (vmas p.2.1) a;
  un_kept a : in_u64 a → cover (vmas p.2.1) a ≠ [] → kept am p.2.1 am' p'.2.1 a;
}.

(** The mapping [old..old+old_len] has become [target..target+new_len]. *)
Record remapped (am : abstract) (p : memory (W := W)) (old old_size new_size : Z) (region : MmapRegion)
    (target : Z) (am' : abstract) (p' : memory (W := W)) : Prop := {
  rm_data i : 0 <= i < old_size `min` new_size → vbyte am' p'.2.1 (target + i) = vbyte am p.2.1 (old + i);
  rm_zero i : round_up old_size <= i < round_up new_size → vbyte am' p'.2.1 (target + i) = Some 0;
  rm_fresh a : target <= a < target + round_up new_size → ¬ old <= a < old + round_up old_size → cover (vmas p.2.1) a = [];
  rm_gone a : old <= a < old + round_up old_size → ¬ target <= a < target + round_up new_size →
    cover (vmas p'.2.1) a = [] ∧ page_of p'.2.1 (page_base a) = None;
  rm_kept a : in_u64 a → cover (vmas p.2.1) a ≠ [] → ¬ old <= a < old + round_up old_size → kept am p.2.1 am' p'.2.1 a;
  rm_claims a : claims p'.1 a =
    if decide (target <= a < target + round_up new_size)
    then [(rg_page_flags region, rg_mmap_flags region, rg_backing region)]
    else if decide (old <= a < old + round_up old_size) then [] else claims p.1 a;
}.

Section moves.
Context (ext : Z → Z) (rest : list UserAddressSpaceInner) (l : list MmapRegion) (sp : UserAddressSpaceInner) (w : W) (am : abstract).
Context (old old_size new_size : Z) (region : MmapRegion).
Context (Hok : memory_ok ext rest (l, (sp, w)) am).
Context (Hold : in_u64 old) (Hal : old mod 4096 = 0) (Hos : 0 < old_size <= u64_max - 8190) (Hns : 0 < new_size <= u64_max - 8190).
Context (Hslice : slice_mmap_region (E := SysErr.SysErr) old (saturating_add u64_max old (round_up old_size)) l = Ok (Some region)).
Context (Hanon : rg_backing region = Backing.Anonymous).
Context (Hpriv : ∀ a, old <= a < old + round_up old_size → private sp a).

Lemma sizes_ok :
  (old_size <= round_up old_size ∧ round_up old_size mod 4096 = 0 ∧ 0 < round_up old_size <= u64_max) ∧
  (new_size <= round_up new_size ∧ round_up new_size mod 4096 = 0 ∧ 0 < round_up new_size <= u64_max - 4095).
Proof.
  pose proof (round_up_spec old_size ltac:(lia)) as (H1 & H2 & H3). pose proof (round_up_spec new_size ltac:(lia)) as (H4 & H5 & H6).
  split_and!; try done; lia.
Qed.

(** Where the old mapping is. *)
Lemma old_range :
  round_up (brk_limit sp) <= old ∧ 0 <= old ∧ old + round_up old_size <= 2 ^ 47 - 4096 ∧
  saturating_add u64_max old (round_up old_size) = old + round_up old_size ∧
  rg_start region = old ∧ rg_end region = old + round_up old_size ∧
  ∀ a, old <= a < old + round_up old_size →
    claims l a = [(rg_page_flags region, rg_mmap_flags region, Backing.Anonymous)] ∧ cover (vmas sp) a ≠ [] ∧ in_u64 a.
Proof.
  destruct sizes_ok as [(_ & _ & Ho) _].
  assert (old < saturating_add u64_max old (round_up old_size)) as Hlt.
  { pose proof (Z.div_mod old 4096). unfold saturating_add, in_u64, u64_max in *. lia. }
  pose proof (slice_spec (E := SysErr.SysErr) old _ l (me_regions _ _ _ _ Hok) Hlt) as Hs. rewrite Hslice in Hs.
  destruct Hs as (Hst & Hen & Hcl). set (e := saturating_add u64_max old (round_up old_size)) in *.
  assert (∀ a, old <= a < e → round_up (brk_limit sp) <= a < 2 ^ 47 - 4096 ∧ cover (vmas sp) a ≠ []) as Hin.
  { intros a Ha. apply (me_claims _ _ _ _ Hok a). cbn [fst]. by rewrite (Hcl a Ha). }
  destruct (Hin old ltac:(lia)) as [Hlo _]. destruct (Hin (e - 1) ltac:(lia)) as [Hhi _].
  assert (e = old + round_up old_size) as He by (unfold e, saturating_add, u64_max in *; lia). rewrite He in *.
  split_and!; try done; try lia; [unfold in_u64 in Hold; lia|]. intros a Ha. split_and!.
  - rewrite (Hcl a Ha). unfold claim_at. rewrite Hanon. done.
  - by apply Hin.
  - unfold in_u64, u64_max in *. lia.
Qed.

(** The region is recorded at [target]. *)
Lemma rerecord l1 target :
  regions_ok l1 → 0 <= target → target + round_up new_size <= u64_max → range_clear target (target + round_up new_size) l1 →
  let l2 := insert_mmap_region (with_range target (saturating_add u64_max target (round_up new_size)) region) l1 in
  regions_ok l2 ∧
  ∀ a, claims l2 a = if decide (target <= a < target + round_up new_size)
                     then [(rg_page_flags region, rg_mmap_flags region, rg_backing region)] else claims l1 a.
Proof.
  intros Hl1 H0 Hmax Hclear l2. destruct sizes_ok as [_ (_ & _ & Hn)]. unfold l2, saturating_add. rewrite Z.min_r by done.
  set (r := with_range _ _ _). assert (region_wf r) as Hr by (unfold region_wf; simpl; lia).
  split; [by apply insert_region_ok|]. intros a. rewrite insert_exact by (done || apply Hl1). unfold claim_at. simpl. rewrite Hanon. done.
Qed.

Lemma remap_ok l' sp' w' am' target :
  space_ok ext rest sp' w' am' → regions_ok l' → brk_limit sp' = brk_limit sp →
  round_up (brk_limit sp) <= target → target + round_up new_size <= 2 ^ 47 - 4096 →
  (∀ a, target <= a < target + round_up new_size → cover (vmas sp') a ≠ []) →
  remapped am (l, (sp, w)) old old_size new_size region target am' (l', (sp', w')) →
  memory_ok ext rest (l', (sp', w')) am'.
Proof.
  intros Hsp Hl Hb Hlo Hhi Hcov Hrm. split; [done|done|]. intros a. rewrite (rm_claims _ _ _ _ _ _ _ _ _ Hrm). cbn [fst snd].
  rewrite Hb. destruct (decide _) as [Hin|Hout]; [intros _; split; [lia|by apply Hcov]|].
  destruct (decide _) as [|Hold']; [done|]. intros Hc. destruct (me_claims _ _ _ _ Hok a Hc) as [Hr Hne]. split; [done|].
  cbn [fst snd] in *. destruct old_range as (_ & H0 & _).
  destruct (rm_kept _ _ _ _ _ _ _ _ _ Hrm a) as [Hcv _]; [|done..|by cbn [fst snd] in Hcv; rewrite Hcv].
  pose proof (as_limit _ (so_areas _ _ _ _ _ _ _ _ (me_space _ _ _ _ Hok))) as Hlim. cbn [fst snd] in Hlim.
  pose proof (round_up_spec (brk_limit sp) ltac:(lia)). unfold in_u64, u64_max. lia.
Qed.

(** ** The mapping shrinks *)

Lemma mremap_shrink :
  round_up new_size < round_up old_size →
  wp_res (_ ← on_space (munmap (saturating_add u64_max old (round_up new_size)) (round_up old_size - round_up new_size));
          _ ← resize_region region old (old + round_up old_size) (round_up new_size);
          mret old) (l, (sp, w))
    (λ target p', ∃ am', memory_ok ext rest p' am' ∧ am_data am' = am_data am ∧
       remapped am (l, (sp, w)) old old_size new_size region target am' p')
    (λ (_ : SysErr.SysErr) _, False).
Proof.
  intros Hlt. destruct sizes_ok as [(Ho1 & Ho2 & Ho3) (Hn1 & Hn2 & Hn3)]. destruct old_range as (Hlo & H0 & Hhi & Hsat & _ & _ & Hin).
  pose proof (me_space _ _ _ _ Hok) as Hsp. cbn [fst snd] in Hsp. pose proof (so_areas _ _ _ _ _ _ _ _ Hsp) as Has.
  assert (saturating_add u64_max old (round_up new_size) = old + round_up new_size) as Hsn by (unfold saturating_add, u64_max in *; lia).
  assert ((old + round_up new_size) mod 4096 = 0 ∧ (old + round_up old_size) mod 4096 = 0) as [Ha1 Ha2]
    by (split; rewrite Z.add_mod, Hal, ?Hn2, ?Ho2 by lia; done).
  rewrite Hsn. wp_step. apply wp_space_call.
  eapply wp_res_mono; [apply (unmap_range rep round1 foreign US ext rest sp w am); [done|lia|done|lia| |lia]|..]; cbv beta; [|..|done].
  { rewrite Zminus_mod, Ho2, Hn2. done. }
  replace (old + round_up new_size + (round_up old_size - round_up new_size)) with (old + round_up old_size) by lia.
  intros _ [sp1 w1] (am1 & Hsp1 & Hd1 & Hup). cbn [fst snd] in *. pose proof (so_areas _ _ _ _ _ _ _ _ Hsp1) as Has1.
  unfold resize_region. wp_step. wp_step. apply wp_regions. cbv beta. apply wp_regions. wp_run.
  destruct (rerecord (remove_mmap_region_range old (old + round_up old_size) l) old) as [Hl2 Hc2].
  { apply remove_ok; [lia|apply Hok]. }
  { done. }
  { unfold u64_max in *. lia. }
  { intros a Ha. rewrite remove_claims by (lia || apply Hok). by rewrite decide_True by lia. }
  assert (∀ a, in_u64 a → cover (vmas sp) a ≠ [] → ¬ (old + round_up new_size <= a < old + round_up old_size) → kept am sp am1 sp1 a) as Hk
    by (intros; by eapply unplaced_kept).
  set (l2 := insert_mmap_region _ _) in *.
  assert (remapped am (l, (sp, w)) old old_size new_size region old am1 (l2, (sp1, w1))) as Hrm.
  { split; cbn [fst snd].
    - intros i Hi. destruct (Hin (old + i) ltac:(lia)) as (_ & Hne & Hu). apply Hk; [done|done|lia|]. apply Hpriv. lia.
    - lia.
    - lia.
    - intros a Ha Hnt. rewrite (up_cover _ _ _ _ Hup), decide_True by lia. split; [done|].
      rewrite (up_pages _ _ _ _ Hup), decide_True; [done|]. apply (proj1 (page_base_in a _ _ (proj2 (proj2 (Hin a Ha))) Ha1 Ha2)). lia.
    - intros a Hu Hne Hout. apply Hk; [done|done|lia].
    - intros a. rewrite Hc2. destruct (decide _); [done|]. apply remove_claims; [lia|apply Hok]. }
  exists am1. split; [|done]. eapply remap_ok; try done; [apply Hup|lia|].
  intros a Ha. rewrite (up_cover _ _ _ _ Hup), decide_False by lia. apply Hin. lia.
Qed.

(** ** The mapping grows in place *)

Context (Hfit : old + round_up new_size <= 2 ^ 47 - 4096).
Context (Hmap : flag_set (rg_mmap_flags region) MAP_ANONYMOUS) (Hnofix : ¬ flag_set (rg_mmap_flags region) MAP_FIXED).
Context (Hnorep : ¬ flag_set (rg_mmap_flags region) MAP_FIXED_NOREPLACE).

Lemma page_flags_user prot : Z.testbit (mmap_page_flags prot) 3 = true.
Proof. unfold mmap_page_flags. by repeat case_decide. Qed.

Lemma fixed_flags :
  flag_set (Z.lor (rg_mmap_flags region) MAP_FIXED) MAP_ANONYMOUS ∧ flag_set (Z.lor (rg_mmap_flags region) MAP_FIXED) MAP_FIXED ∧
  ¬ flag_set (Z.lor (rg_mmap_flags region) MAP_FIXED) MAP_FIXED_NOREPLACE.
Proof.
  unfold flag_set in *. rewrite !Z.land_lor_distr_l. split_and!.
  - change (Z.land MAP_FIXED MAP_ANONYMOUS) with 0. by rewrite Z.lor_0_r.
  - change (Z.land MAP_FIXED MAP_FIXED) with 16. intros [_ H]%Z.lor_eq_0_iff. done.
  - change (Z.land MAP_FIXED MAP_FIXED_NOREPLACE) with 0. by rewrite Z.lor_0_r.
Qed.

Lemma map_anonymous_backing address len delta fixed p Q Qe :
  let flags := if fixed : bool then Z.lor (rg_mmap_flags region) MAP_FIXED else rg_mmap_flags region in
  wp_res (on_space (mmap_anonymous address len flags (mmap_page_flags (mmap_prot_from_page_flags (rg_page_flags region))))) p Q Qe →
  wp_res (map_region_backing region address len delta fixed) p Q Qe.
Proof.
  intros flags Hw. unfold map_region_backing, map_anonymous_region. rewrite Hanon. fold flags. wp_step.
  eapply wp_res_mono; [exact Hw|..]; cbv beta; [|done]. intros a s' HQ. wp_run. exact HQ.
Qed.

Lemma mremap_grow :
  round_up old_size < round_up new_size →
  vma_range_overlaps (old + round_up old_size) (old + round_up new_size) (vmas sp) = false →
  wp_res (_ ← map_region_backing region (old + round_up old_size) (round_up new_size - round_up old_size) (round_up old_size) true;
          _ ← resize_region region old (old + round_up old_size) (round_up new_size);
          mret old) (l, (sp, w))
    (λ target p', ∃ am', memory_ok ext rest p' am' ∧ am_data am' = am_data am ∧
       remapped am (l, (sp, w)) old old_size new_size region target am' p')
    (λ (_ : SysErr.SysErr) _, False).
Proof.
  intros Hlt Hfree. destruct sizes_ok as [(Ho1 & Ho2 & Ho3) (Hn1 & Hn2 & Hn3)]. destruct old_range as (Hlo & H0 & Hhi & Hsat & _ & _ & Hin).
  pose proof (me_space _ _ _ _ Hok) as Hsp. cbn [fst snd] in Hsp. pose proof (so_areas _ _ _ _ _ _ _ _ Hsp) as Has.
  assert ((old + round_up new_size) mod 4096 = 0 ∧ (old + round_up old_size) mod 4096 = 0) as [Ha1 Ha2]
    by (split; rewrite Z.add_mod, Hal, ?Hn2, ?Ho2 by lia; done).
  destruct fixed_flags as (Hf1 & Hf2 & Hf3). wp_step. apply map_anonymous_backing, wp_space_call.
  set (pf := mmap_page_flags _).
  assert (old + round_up old_size + (round_up new_size - round_up old_size) = old + round_up new_size) as Hend by lia.
  eapply wp_res_mono; [apply (map_free_at rep round1 foreign US ext rest sp w am)|..]; cbv beta; rewrite ?Hend;
    try done; try lia; [rewrite Zminus_mod, Ho2, Hn2; done|apply page_flags_user|].
  intros base [sp1 w1] (-> & am1 & Hd1 & Hsp1 & Hpl). cbn [fst snd] in *. pose proof (so_areas _ _ _ _ _ _ _ _ Hsp1) as Has1.
  unfold resize_region. wp_step. wp_step. apply wp_regions. cbv beta. apply wp_regions. wp_run.
  destruct (rerecord (remove_mmap_region_range old (old + round_up old_size) l) old) as [Hl2 Hc2].
  { apply remove_ok; [lia|apply Hok]. }
  { done. }
  { unfold u64_max in *. lia. }
  { intros a Ha. rewrite remove_claims by (lia || apply Hok). destruct (decide _) as [|Hout]; [done|].
    destruct (claims l a) as [|c cs] eqn:Hcl; [done|]. destruct (me_claims _ _ _ _ Hok a) as [_ Hne]; [cbn [fst]; by rewrite Hcl|].
    destruct Hne. apply (pl_free _ _ _ _ _ Hpl). lia. }
  assert (∀ a, in_u64 a → cover (vmas sp) a ≠ [] → kept am sp am1 sp1 a) as Hk by (intros; by eapply placed_kept).
  set (l2 := insert_mmap_region _ _) in *.
  assert (remapped am (l, (sp, w)) old old_size new_size region old am1 (l2, (sp1, w1))) as Hrm.
  { split; cbn [fst snd].
    - intros i Hi. destruct (Hin (old + i) ltac:(lia)) as (_ & Hne & Hu). apply Hk; [done|done|]. apply Hpriv. lia.
    - intros i Hi. apply (placed_fresh am1 sp sp1 _ _ _ _ (so_paged _ _ _ _ _ _ _ _ Hsp) Has1 Hpl); try done; [|lia].
      unfold in_u64, u64_max in *. lia.
    - intros a Ha Hout. apply (pl_free _ _ _ _ _ Hpl). lia.
    - lia.
    - intros a Hu Hne _. by apply Hk.
    - intros a. rewrite Hc2. destruct (decide _); [done|]. apply remove_claims; [lia|apply Hok]. }
  exists am1. split; [|done]. eapply remap_ok; try done; [apply Hpl|].
  intros a Ha. rewrite (pl_cover _ _ _ _ _ Hpl). destruct (decide _); [done|]. apply Hin. lia.
Qed.

(** ** The mapping moves *)

Context (Hread : MapFlags.contains (rg_page_flags region) MapFlags.READ = true).
Context (Hwrite : MapFlags.contains (rg_page_flags region) MapFlags.WRITE = true).

Lemma wp_or_cleanup target n (op : MC (W := W) unit) p Q Qe :
  wp_res op p Q (λ e p', wp_res (_ ← cleanup_mremap_target target n; mthrow e) p' Q Qe) → wp_res (or_cleanup target n op) p Q Qe.
Proof. unfold wp_res, wp, or_cleanup. by destruct (op p) as [[]]. Qed.

Lemma wp_ignore_call {A} (op : MC (W := W) A) p Q Qe :
  wp_res op p (λ _ p', Q () p') (λ _ p', Q () p') → wp_res (ignore op) p Q Qe.
Proof. unfold wp_res, wp, ignore. by destruct (op p) as [[]]. Qed.

(** The new area, while the old one is still there. *)
Record opened (target : Z) (sp1 : UserAddressSpaceInner) : Prop := {
  op_aligned : target mod 4096 = 0;
  op_low : round_up (brk_limit sp) <= target;
  op_high : target + round_up new_size <= 2 ^ 47 - 4096;
  op_placed : placed sp sp1 target (target + round_up new_size) (mmap_page_flags (mmap_prot_from_page_flags (rg_page_flags region)));
}.

(** The target is apart from the old mapping. *)
Lemma opened_apart target sp1 : opened target sp1 →
  0 <= target ∧ (old + round_up old_size <= target ∨ target + round_up new_size <= old).
Proof.
  intros [_ Hl _ Hpl]. destruct old_range as (_ & H0 & _ & _ & _ & _ & Hin). destruct sizes_ok as [(_ & _ & Ho) (_ & _ & Hn)].
  pose proof (as_limit _ (so_areas _ _ _ _ _ _ _ _ (me_space _ _ _ _ Hok))) as Hlim. cbn [fst snd] in Hlim.
  pose proof (round_up_spec (brk_limit sp) ltac:(lia)). split; [lia|].
  destruct (decide (old + round_up old_size <= target)); [by left|]. destruct (decide (target + round_up new_size <= old)); [by right|].
  destruct (Hin (old `max` target) ltac:(lia)) as (_ & Hne & _). destruct Hne. apply (pl_free _ _ _ _ _ Hpl). lia.
Qed.

Lemma target_unrecorded target sp1 a : opened target sp1 → target <= a < target + round_up new_size → claims l a = [].
Proof.
  intros Hop Ha. destruct (claims l a) eqn:Hcl; [done|]. destruct (me_claims _ _ _ _ Hok a) as [_ Hne]; [cbn [fst]; by rewrite Hcl|].
  destruct Hne. by apply (pl_free _ _ _ _ _ (op_placed _ _ Hop)).
Qed.

(** Giving up: the new area goes away again. *)
Lemma cleanup_rule target sp1 sp2 w2 am2 e (Q : unit → memory → Prop) :
  opened target sp1 → areas_searchable sp1 → space_ok ext rest sp2 w2 am2 → keeps rest am am2 →
  partly_written am sp1 target (old_size `min` new_size) am2 sp2 →
  wp_res (_ ← cleanup_mremap_target target (round_up new_size); mthrow e) (l, (sp2, w2)) Q
    (λ _ p', ∃ am', memory_ok ext rest p' am' ∧ keeps rest am am' ∧ unmoved am (l, (sp, w)) am' p').
Proof.
  intros Hop Has1 Hsp2 Hk2 Hpw. destruct sizes_ok as [(Ho1 & Ho2 & Ho3) (Hn1 & Hn2 & Hn3)].
  destruct (opened_apart _ _ Hop) as [H0 Hap]. pose proof Hop as [Htal Hlow Hhigh Hpl].
  pose proof (me_space _ _ _ _ Hok) as Hsp. cbn [fst snd] in Hsp. pose proof (so_areas _ _ _ _ _ _ _ _ Hsp) as Has.
  assert (saturating_add u64_max target (round_up new_size) = target + round_up new_size) as Hsat by (unfold saturating_add, u64_max; lia).
  unfold cleanup_mremap_target. rewrite Hsat. wp_step. wp_step. apply wp_ignore_call, wp_space_call.
  eapply wp_res_mono; [apply (unmap_range rep round1 foreign US ext rest sp2 w2 am2); done || lia|..]; cbv beta; [|done].
  intros _ [sp3 w3] (am3 & Hsp3 & Hd3 & Hup). cbn [fst snd] in *. apply wp_regions. wp_run.
  pose proof (pw_frame _ _ _ _ _ _ Hpw) as Hfr. pose proof (so_areas _ _ _ _ _ _ _ _ Hsp2) as Has2.
  assert (∀ a, claims (remove_mmap_region_range target (target + round_up new_size) l) a = claims l a) as Hcl.
  { intros a. rewrite remove_claims by (lia || apply Hok). destruct (decide _) as [Ha|]; [|done]. by erewrite target_unrecorded. }
  assert (∀ a, cover (vmas sp3) a = cover (vmas sp) a) as Hcv.
  { intros a. rewrite (up_cover _ _ _ _ Hup), (same_frame_vmas _ _ Hfr), (pl_cover _ _ _ _ _ Hpl).
    destruct (decide _) as [Ha|]; [|done]. symmetry. by apply (pl_free _ _ _ _ _ Hpl). }
  exists am3. split; [split|split].
  - exact Hsp3.
  - apply remove_ok; [lia|apply Hok].
  - intros a. cbn [fst snd]. rewrite Hcl, Hcv, (up_brk _ _ _ _ Hup), Hfr. change (brk_limit (set_mappings _ sp1)) with (brk_limit sp1).
    rewrite (pl_brk _ _ _ _ _ Hpl). apply (me_claims _ _ _ _ Hok).
  - intros x Hx Hox. rewrite Hd3. by apply Hk2.
  - split; [exact Hcl|exact Hcv|]. cbn [fst snd]. intros a Hu Hne.
    assert (¬ target <= a < target + round_up new_size) as Hout by (intros Ha; by apply Hne, (pl_free _ _ _ _ _ Hpl)).
    pose proof (placed_kept am am _ _ _ _ _ a Has Has1 Hpl eq_refl Hu Hne) as Hk1. eapply kept_trans; [exact Hk1|]. destruct Hk1 as [Hc1 _].
    eapply kept_trans.
    2:{ eapply (unplaced_kept am2 am3 sp2 sp3 target (target + round_up new_size) a); try done.
        - apply Hsp3.
        - rewrite Z.add_mod, Htal, Hn2 by lia. done.
        - by rewrite (same_frame_vmas _ _ Hfr), Hc1. }
    split; [by rewrite (same_frame_vmas _ _ Hfr)|]. intros Hp. split; [by apply (pw_private _ _ _ _ _ _ Hpw)|].
    apply (pw_bytes _ _ _ _ _ _ Hpw); [by apply searchable_wf|done|done|lia].
Qed.

(** The memory at the end of a move. *)
Lemma moved_memory target sp1 buf am2 sp2 w2 am3 sp3 w3 l' :
  opened target sp1 → areas_searchable sp1 → space_ok ext rest sp2 w2 am2 → space_ok ext rest sp3 w3 am3 →
  mem_written am sp1 target buf am2 sp2 → Z.of_nat (length buf) = old_size `min` new_size → bytes_of am sp1 old buf →
  am_data am3 = am_data am2 → unplaced sp2 sp3 old (old + round_up old_size) →
  (∀ a, claims l' a = if decide (target <= a < target + round_up new_size)
                      then [(rg_page_flags region, rg_mmap_flags region, rg_backing region)]
                      else if decide (old <= a < old + round_up old_size) then [] else claims l a) →
  remapped am (l, (sp, w)) old old_size new_size region target am3 (l', (sp3, w3)).
Proof.
  intros Hop Has1 Hsp2 Hsp3 Hmw Hlen Hbytes Hd3 Hup Hcl. destruct sizes_ok as [(Ho1 & Ho2 & Ho3) (Hn1 & Hn2 & Hn3)].
  destruct (opened_apart _ _ Hop) as [H0 Hap]. pose proof Hop as [Htal Hlow Hhigh Hpl]. destruct old_range as (_ & H0' & Hhi & _ & _ & _ & Hin).
  pose proof (me_space _ _ _ _ Hok) as Hsp. cbn [fst snd] in Hsp. pose proof (so_areas _ _ _ _ _ _ _ _ Hsp) as Has.
  pose proof (so_areas _ _ _ _ _ _ _ _ Hsp2) as Has2. pose proof (so_areas _ _ _ _ _ _ _ _ Hsp3) as Has3.
  pose proof (same_frame_vmas _ _ (mw_frame _ _ _ _ _ _ Hmw)) as Hv2. pose proof (searchable_wf sp1 Has1) as Hwf1.
  assert ((target + round_up new_size) mod 4096 = 0 ∧ (old + round_up old_size) mod 4096 = 0) as [Ha1 Ha2]
    by (split; rewrite Z.add_mod, ?Hal, ?Htal, ?Hn2, ?Ho2 by lia; done).
  assert (∀ a, in_u64 a → cover (vmas sp2) a ≠ [] → ¬ old <= a < old + round_up old_size → kept am2 sp2 am3 sp3 a) as Hk3
    by (intros; by eapply unplaced_kept).
  assert (∀ i, 0 <= i < round_up new_size →
    vbyte am3 sp3 (target + i) = if decide (i < old_size `min` new_size) then buf !! Z.to_nat i else Some 0) as Htgt.
  { intros i Hi. assert (in_u64 (target + i)) as Hu by (unfold in_u64, u64_max; lia).
    destruct (placed_fresh am sp sp1 _ _ _ (target + i) (so_paged _ _ _ _ _ _ _ _ Hsp) Has1 Hpl Htal Ha1 Hu ltac:(lia)) as (Hz & Hp1 & _).
    destruct (Hk3 (target + i)) as [_ Hkv]; [done| |lia|].
    { by rewrite Hv2, (pl_cover _ _ _ _ _ Hpl), decide_True by lia. }
    destruct Hkv as [_ ->]; [by apply (mw_private _ _ _ _ _ _ Hmw)|]. rewrite (mw_bytes _ _ _ _ _ _ Hmw Hwf1 _ Hu Hp1), Hlen, Hz.
    replace (target + i - target) with i by lia. destruct (decide (i < _)); [rewrite decide_True by lia|rewrite decide_False by lia]; done. }
  assert (∀ a, in_u64 a → cover (vmas sp) a ≠ [] → kept am sp am sp1 a) as Hk1 by (intros; by eapply placed_kept).
  split; cbn [fst snd].
  - intros i Hi. rewrite Htgt, decide_True by lia. destruct (Hin (old + i) ltac:(lia)) as (_ & Hne & Hu).
    destruct (lookup_lt_is_Some_2 buf (Z.to_nat i) ltac:(lia)) as [b Hb]. rewrite Hb. specialize (Hbytes _ _ Hb).
    rewrite Z2Nat.id in Hbytes by lia. rewrite <-Hbytes. apply (Hk1 _ Hu Hne). apply Hpriv. lia.
  - intros i Hi. rewrite Htgt, decide_False by lia. done.
  - intros a Ha _. by apply (pl_free _ _ _ _ _ Hpl).
  - intros a Ha _. rewrite (up_cover _ _ _ _ Hup), decide_True by done. split; [done|]. rewrite (up_pages _ _ _ _ Hup), decide_True; [done|].
    apply (proj1 (page_base_in a _ _ (proj2 (proj2 (Hin a Ha))) Hal Ha2)). done.
  - intros a Hu Hne Hout. pose proof (Hk1 a Hu Hne) as Hka. eapply kept_trans; [exact Hka|]. destruct Hka as [Hc1 _].
    assert (¬ target <= a < target + round_up new_size) as Hnt by (intros Ha; by apply Hne, (pl_free _ _ _ _ _ Hpl)).
    eapply kept_trans; [|apply Hk3; [done|by rewrite Hv2, Hc1|done]]. split; [by rewrite Hv2|]. intros Hp.
    split; [by apply (mw_private _ _ _ _ _ _ Hmw)|]. rewrite (mw_bytes _ _ _ _ _ _ Hmw) by done. rewrite decide_False; [done|lia].
  - exact Hcl.
Qed.

(** Copying, with the new area taken back on failure. *)
Lemma mremap_copy_rule target sp1 w1 :
  opened target sp1 → space_ok ext rest sp1 w1 am →
  wp_res (mremap_copy region old old_size new_size target (round_up new_size)) (l, (sp1, w1))
    (λ _ p, p.1 = l ∧ ∃ am2 buf, space_ok ext rest p.2.1 p.2.2 am2 ∧ keeps rest am am2 ∧
       mem_written am sp1 target buf am2 p.2.1 ∧ Z.of_nat (length buf) = old_size `min` new_size ∧ bytes_of am sp1 old buf)
    (λ _ p', ∃ am', memory_ok ext rest p' am' ∧ keeps rest am am' ∧ unmoved am (l, (sp, w)) am' p').
Proof.
  intros Hop Hsp1. destruct sizes_ok as [(Ho1 & Ho2 & Ho3) (Hn1 & Hn2 & Hn3)].
  destruct (opened_apart _ _ Hop) as [H0 Hap]. pose proof Hop as [Htal Hlow Hhigh Hpl]. destruct old_range as (_ & H0' & Hhi & _ & _ & _ & Hin).
  pose proof (me_space _ _ _ _ Hok) as Hsp. cbn [fst snd] in Hsp. pose proof (so_areas _ _ _ _ _ _ _ _ Hsp) as Has.
  pose proof (so_areas _ _ _ _ _ _ _ _ Hsp1) as Has1. set (n := old_size `min` new_size).
  assert (0 < n <= round_up old_size ∧ n <= round_up new_size) as [Hn Hn'] by (unfold n; lia).
  unfold mremap_copy, should_copy_data. rewrite Hanon, Hread, Hwrite. fold n. cbn [andb negb]. rewrite andb_false_r. wp_step. wp_step. wp_step.
  apply wp_or_cleanup. unfold copy_user_range.
  eapply wp_res_mono; [apply (copy_loop_rule _ ext rest l sp1 w1 am old target n 0); try done; try lia|..]; cbv beta.
  - rewrite Z.sub_0_r, Z2Nat.id by (pose proof (Z.div_pos n COPY_CHUNK ltac:(lia) eq_refl); lia).
    pose proof (Z.div_mod n COPY_CHUNK ltac:(done)). pose proof (Z.mod_pos_bound n COPY_CHUNK eq_refl). lia.
  - intros b Hb. destruct (Hin b ltac:(lia)) as (_ & Hne & Hu).
    apply (placed_kept am am _ _ _ _ _ b Has Has1 Hpl eq_refl Hu Hne). apply Hpriv. lia.
  - intros b Hb. apply (placed_fresh am sp sp1 target (target + round_up new_size) _ b (so_paged _ _ _ _ _ _ _ _ Hsp) Has1 Hpl); try done; try lia.
    + rewrite Z.add_mod, Htal, Hn2 by lia. done.
    + unfold in_u64, u64_max. lia.
  - intros _ p (Hl & am2 & buf & Hsp2 & Hk2 & Hmw & Hlen & Hb). rewrite !Z.add_0_r in *. wp_run. split; [done|]. exists am2, buf.
    split_and!; try done. lia.
  - intros e [l' [sp2 w2]] (Hl & am2 & Hsp2 & Hk2 & Hpw). cbn [fst snd] in *. subst l'. by eapply cleanup_rule.
Qed.

Lemma mremap_move_rule :
  wp_res (mremap_move region old old_size new_size MREMAP_MAYMOVE (round_up old_size) (round_up new_size) None) (l, (sp, w))
    (λ target p', ∃ am', memory_ok ext rest p' am' ∧ keeps rest am am' ∧
       remapped am (l, (sp, w)) old old_size new_size region target am' p')
    (λ _ p', ∃ am', memory_ok ext rest p' am' ∧ keeps rest am am' ∧ unmoved am (l, (sp, w)) am' p').
Proof.
  destruct sizes_ok as [(Ho1 & Ho2 & Ho3) (Hn1 & Hn2 & Hn3)]. destruct old_range as (Hlo & H0' & Hhi & Hsat & _ & _ & Hin).
  pose proof (me_space _ _ _ _ Hok) as Hsp. cbn [fst snd] in Hsp.
  unfold mremap_move. rewrite Hsat. wp_step. cbn [default]. rewrite bool_decide_false by (by intros []).
  apply map_anonymous_backing, wp_space_call.
  eapply wp_res_mono; [apply (map_anywhere rep round1 foreign US ext rest sp w am); try done; [lia|unfold u64_max; lia|apply page_flags_user]|..]; cbv beta.
  2:{ intros e s' ->. exists am. split; [done|]. split; [done|]. split; [done..|]. intros a _ _. split; [done|]. done. }
  intros target [sp1 w1] (Htal & Hlow & Hhigh & Hsp1 & Hpl). cbn [fst snd] in *.
  assert (opened target sp1) as Hop by by split. destruct (opened_apart _ _ Hop) as [H0 Hap].
  wp_step. eapply wp_res_mono; [by apply mremap_copy_rule|..]; cbv beta; [|done].
  intros _ [l1 [sp2 w2]] (Hl & am2 & buf & Hsp2 & Hk2 & Hmw & Hlen & Hb). cbn [fst snd] in *. subst l1.
  assert (saturating_add u64_max target (round_up new_size) = target + round_up new_size) as Hsatt by (unfold saturating_add, u64_max; lia).
  rewrite Hsatt. wp_step. rewrite decide_True by done. apply wp_or_cleanup, wp_space_call.
  eapply wp_res_mono; [apply (unmap_range rep round1 foreign US ext rest sp2 w2 am2); done || lia|..]; cbv beta; [|done].
  intros _ [sp3 w3] (am3 & Hsp3 & Hd3 & Hup). cbn [fst snd] in *.
  wp_step. apply wp_regions. wp_step. apply wp_regions. wp_step. apply wp_regions. wp_run.
  set (l1 := remove_mmap_region_range target (target + round_up new_size) l).
  assert (regions_ok l1) as Hl1 by (apply remove_ok; [lia|apply Hok]).
  assert (∀ a, claims (remove_mmap_region_range old (old + round_up old_size) l1) a =
    if decide (old <= a < old + round_up old_size) then []
    else if decide (target <= a < target + round_up new_size) then [] else claims l a) as Hc1.
  { intros a. rewrite remove_claims by (lia || apply Hl1). destruct (decide _); [done|]. apply remove_claims; [lia|apply Hok]. }
  destruct (rerecord (remove_mmap_region_range old (old + round_up old_size) l1) target) as [Hl2 Hc2].
  { apply remove_ok; [lia|done]. }
  { done. }
  { unfold u64_max. lia. }
  { intros a Ha. rewrite Hc1. by repeat (destruct (decide _); [done|]). }
  rewrite Hsatt in *. set (l2 := insert_mmap_region _ _) in *.
  assert (remapped am (l, (sp, w)) old old_size new_size region target am3 (l2, (sp3, w3))) as Hrm.
  { apply (moved_memory target sp1 buf am2 sp2 w2); try done; [apply Hsp1|]. intros a. rewrite Hc2, Hc1. repeat destruct (decide _); try done; lia. }
  pose proof (mw_frame _ _ _ _ _ _ Hmw) as Hfr.
  exists am3. split; [eapply remap_ok; try done|split; [|done]].
  - rewrite (up_brk _ _ _ _ Hup), Hfr. change (brk_limit (set_mappings _ sp1)) with (brk_limit sp1). apply (pl_brk _ _ _ _ _ Hpl).
  - intros a Ha. rewrite (up_cover _ _ _ _ Hup), decide_False by lia. rewrite (same_frame_vmas _ _ Hfr), (pl_cover _ _ _ _ _ Hpl).
    by rewrite decide_True by lia.
  - intros x Hx Hox. rewrite Hd3. by apply Hk2.
Qed.
End moves.

(** A private anonymous mapping that can be read and written, and that was
    placed by the kernel. *)
Record plain_mapping (region : MmapRegion) : Prop := {
  pm_backing : rg_backing region = Backing.Anonymous;
  pm_read : MapFlags.contains (rg_page_flags region) MapFlags.READ = true;
  pm_write : MapFlags.contains (rg_page_flags region) MapFlags.WRITE = true;
  pm_anonymous : flag_set (rg_mmap_flags region) MAP_ANONYMOUS;
  pm_fixed : ¬ flag_set (rg_mmap_flags region) MAP_FIXED;
  pm_noreplace : ¬ flag_set (rg_mmap_flags region) MAP_FIXED_NOREPLACE;
}.

Lemma wp_range_free s n l sp w (Q : bool → memory (W := W) → Prop) (Qe : SysErr.SysErr → memory → Prop) :
  0 <= s → s mod 4096 = 0 → 0 < n → n mod 4096 = 0 → s + n <= u64_max - 4095 →
  Q (negb (vma_range_overlaps s (s + n) (vmas sp))) (l, (sp, w)) → wp_res (space_range_free s n) (l, (sp, w)) Q Qe.
Proof.
  intros Hs Hal Hn Hnal Hmax HQ. unfold space_range_free, is_range_free, wp_res, wp. cbn [fst snd].
  rewrite decide_False by (rewrite (proj2 (virt_aligned s) Hal); intros [|]; [lia|done]).
  rewrite vma_align_up by lia. fold (round_up n). rewrite (round_up_id n Hnal). cbn [expect mbind outcome_bind].
  rewrite checked_add_Some by lia. exact HQ.
Qed.

Lemma same_length_remapped ext rest l sp w am old old_size new_size region :
  memory_ok ext rest (l, (sp, w)) am → in_u64 old → old mod 4096 = 0 → 0 < old_size <= u64_max - 8190 → 0 < new_size <= u64_max - 8190 →
  slice_mmap_region (E := SysErr.SysErr) old (saturating_add u64_max old (round_up old_size)) l = Ok (Some region) →
  rg_backing region = Backing.Anonymous → round_up new_size = round_up old_size →
  remapped am (l, (sp, w)) old old_size new_size region old am (l, (sp, w)).
Proof.
  intros Hok Hold Hal Hos Hns Hslice Hanon Heq.
  destruct (old_range ext rest l sp w am old old_size new_size region Hok Hold Hal Hos Hns Hslice Hanon) as (_ & _ & _ & _ & _ & _ & Hin).
  split; cbn [fst snd]; rewrite ?Heq; try done; try lia. intros a. destruct (decide _) as [Ha|]; [|done].
  rewrite Hanon. by apply Hin.
Qed.

(** The call with [MREMAP_MAYMOVE] alone. *)
Lemma mremap_maymove old old_size new_size :
  0 < old_size → 0 < new_size → old mod 4096 = 0 →
  sys_mremap old old_size new_size MREMAP_MAYMOVE 0 =
  (old_len ← page_len old_size;
   new_len ← page_len new_size;
   slice ← on_regions (slice_mmap_region old (saturating_add u64_max old old_len));
   region ← mok_or slice SysErr.Fault;
   if (new_len =? old_len) && true && true then mret old
   else if new_len <? old_len then
     _ ← on_space (munmap (saturating_add u64_max old new_len) (old_len - new_len));
     _ ← resize_region region old (saturating_add u64_max old old_len) new_len;
     mret old
   else
     free ← (if old_len <? new_len then space_range_free (saturating_add u64_max old old_len) (new_len - old_len) else mret false);
     if (free : bool) then
       _ ← map_region_backing region (saturating_add u64_max old old_len) (new_len - old_len) old_len true;
       _ ← resize_region region old (saturating_add u64_max old old_len) new_len;
       mret old
     else mremap_move region old old_size new_size MREMAP_MAYMOVE old_len new_len None).
Proof.
  intros Ho Hn Hal. unfold sys_mremap.
  assert (mremap_args_ok old old_size new_size MREMAP_MAYMOVE 0 = true) as ->.
  { unfold mremap_args_ok. rewrite PAGE_SIZE_eq, Hal. rewrite (proj2 (Z.eqb_neq old_size 0)), (proj2 (Z.eqb_neq new_size 0)) by lia. reflexivity. }
  reflexivity.
Qed.

(** What is needed for the theorem about a call. *)
Lemma mremap_rule ext rest l sp w am old old_size new_size region :
  memory_ok ext rest (l, (sp, w)) am → in_u64 old → old mod 4096 = 0 →
  0 < old_size <= u64_max - 8190 → 0 < new_size → old + round_up new_size <= 2 ^ 47 - 4096 →
  slice_mmap_region (E := SysErr.SysErr) old (saturating_add u64_max old (round_up old_size)) l = Ok (Some region) →
  plain_mapping region → (∀ a, old <= a < old + round_up old_size → private sp a) →
  wp_res (sys_mremap old old_size new_size MREMAP_MAYMOVE 0) (l, (sp, w))
    (λ target p', ∃ am', memory_ok ext rest p' am' ∧ keeps rest am am' ∧
       remapped am (l, (sp, w)) old old_size new_size region target am' p')
    (λ _ p', ∃ am', memory_ok ext rest p' am' ∧ keeps rest am am' ∧ unmoved am (l, (sp, w)) am' p').
Proof.
  intros Hok Hold Hal Hos Hns Hfit Hslice [Hb Hr Hw Ha Hf Hnr] Hpriv.
  pose proof (round_up_spec new_size ltac:(lia)) as (Hn1 & Hn2 & Hn3). pose proof (round_up_spec old_size ltac:(lia)) as (Ho1 & Ho2 & Ho3).
  assert (0 < new_size <= u64_max - 8190) as Hns' by (unfold in_u64, u64_max in *; lia).
  destruct (old_range ext rest l sp w am old old_size new_size region Hok Hold Hal Hos Hns' Hslice Hb) as (Hlo & H0 & Hhi & Hsat & _).
  assert (∀ am', am_data am' = am_data am → keeps rest am am') as Hkd by (intros am' Hd x _ _; by rewrite Hd).
  rewrite mremap_maymove by lia. wp_step. apply wp_page_len; [lia..|]. wp_step. apply wp_page_len; [lia..|].
  wp_step. eapply wp_on_regions; [exact Hslice|]. wp_step. wp_step. rewrite Hsat.
  destruct (Z.eqb_spec (round_up new_size) (round_up old_size)) as [Heq|Hne]; cbn [andb].
  { wp_run. exists am. split; [done|]. split; [done|]. by apply (same_length_remapped ext rest l sp w am). }
  destruct (Z.ltb_spec (round_up new_size) (round_up old_size)) as [Hlt|Hge].
  { eapply wp_res_mono; [by apply (mremap_shrink ext rest l sp w am old old_size new_size region)|..]; cbv beta; [|done].
    intros target p' (am' & Hok' & Hd & Hrm). exists am'. auto. }
  rewrite (proj2 (Z.ltb_lt _ _)) by lia. wp_step.
  apply wp_range_free; [lia|rewrite Z.add_mod, Hal, Ho2 by lia; done|lia|rewrite Zminus_mod, Ho2, Hn2; done|unfold u64_max; lia|].
  replace (old + round_up old_size + (round_up new_size - round_up old_size)) with (old + round_up new_size) by lia.
  destruct (vma_range_overlaps _ _ _) eqn:Hfree; cbn [negb].
  - by apply (mremap_move_rule ext rest l sp w am old old_size new_size region).
  - eapply wp_res_mono; [by apply (mremap_grow ext rest l sp w am old old_size new_size region); try lia|..]; cbv beta; [|done].
    intros target p' (am' & Hok' & Hd & Hrm). exists am'. auto.
Qed.

(** ** [mmap] and [munmap] *)

(** Only the number of pages counts. *)
Lemma wp_mmap_rounded addr len flags page_flags (s : UserAddressSpaceInner * W) Q Qe :
  0 < len → len <= u64_max - 8190 →
  wp_res (mmap_anonymous addr (round_up len) flags page_flags) s Q Qe → wp_res (mmap_anonymous addr len flags page_flags) s Q Qe.
Proof.
  intros Hlen Hmax. pose proof (round_up_spec len ltac:(lia)) as (Hr1 & Hr2 & Hr3). unfold mmap_anonymous, align_up_page.
  rewrite !vma_align_up by lia. fold (round_up len) (round_up (round_up len)). rewrite (round_up_id _ Hr2).
  destruct (decide (len = 0 ∨ _)) as [[|Hf]|Hn], (decide (round_up len = 0 ∨ _)) as [[|]|]; try lia; try done; tauto.
Qed.

(** The memory with a new mapping, or without a range. *)
Record mapped (am : abstract) (p : memory (W := W)) (base len page_flags flags : Z) (p' : memory (W := W)) : Prop := {
  mp_free a : base <= a < base + round_up len → cover (vmas p.2.1) a = [] ∧ claims p.1 a = [];
  mp_zero a : base <= a < base + round_up len → vbyte am p'.2.1 a = Some 0;
  mp_rest a : in_u64 a → cover (vmas p.2.1) a ≠ [] → kept am p.2.1 am p'.2.1 a;
  mp_claims a : claims p'.1 a = if decide (base <= a < base + round_up len) then [(page_flags, flags, Backing.Anonymous)]
                                else claims p.1 a;
}.

Record unmapped (am : abstract) (p : memory (W := W)) (addr len : Z) (am' : abstract) (p' : memory (W := W)) : Prop := {
  um_gone a : addr <= a < addr + round_up len → cover (vmas p'.2.1) a = [] ∧ page_of p'.2.1 (page_base a) = None;
  um_rest a : in_u64 a → cover (vmas p.2.1) a ≠ [] → ¬ addr <= a < addr + round_up len → kept am p.2.1 am' p'.2.1 a;
  um_claims a : claims p'.1 a = if decide (addr <= a < addr + round_up len) then [] else claims p.1 a;
}.

Lemma mmap_call_rule ext rest l sp w am files addr len prot flags fd offset :
  memory_ok ext rest (l, (sp, w)) am → 0 < len <= u64_max - 8190 →
  flag_set flags MAP_ANONYMOUS → ¬ flag_set flags MAP_FIXED → ¬ flag_set flags MAP_FIXED_NOREPLACE →
  wp_res (sys_mmap files addr len prot flags fd offset) (l, (sp, w))
    (λ base p', memory_ok ext rest p' am ∧ mapped am (l, (sp, w)) base len (mmap_page_flags prot) flags p')
    (λ _ p', p' = (l, (sp, w))).
Proof.
  intros Hok Hlen Han Hfix Hno. pose proof (round_up_spec len ltac:(lia)) as (Hr1 & Hr2 & Hr3).
  pose proof (me_space _ _ _ _ Hok) as Hsp. cbn [fst snd] in Hsp. pose proof (so_areas _ _ _ _ _ _ _ _ Hsp) as Has.
  unfold sys_mmap, map_anonymous_region. rewrite decide_True by done. wp_step. apply wp_space_call.
  apply wp_mmap_rounded; [lia..|].
  eapply wp_res_mono; [apply (map_anywhere rep round1 foreign US ext rest sp w am); try done; [lia|lia|apply page_flags_user]|..]; cbv beta.
  2:{ by intros e s' ->. }
  intros base [sp1 w1] (Hbal & Hlow & Hhigh & Hsp1 & Hpl). cbn [fst snd] in *. pose proof (so_areas _ _ _ _ _ _ _ _ Hsp1) as Has1.
  pose proof (as_limit _ Has) as Hlim. pose proof (round_up_spec (brk_limit sp) ltac:(lia)) as (Hrb & _).
  unfold record_mmap_region. wp_step. wp_step. apply wp_page_len; [lia..|]. apply wp_regions. wp_run.
  assert (saturating_add u64_max base (round_up len) = base + round_up len) as -> by (unfold saturating_add, u64_max; lia).
  set (r := mkRegion _ _ _ _ _). assert (region_wf r) as Hr by (unfold region_wf; simpl; lia).
  assert (∀ a, base <= a < base + round_up len → claims l a = []) as Hclear.
  { intros a Ha. destruct (claims l a) eqn:Hcl; [done|]. destruct (me_claims _ _ _ _ Hok a) as [_ Hne]; [cbn [fst]; by rewrite Hcl|].
    destruct Hne. by apply (pl_free _ _ _ _ _ Hpl). }
  assert (∀ a, claims (insert_mmap_region r l) a =
    if decide (base <= a < base + round_up len) then [(mmap_page_flags prot, flags, Backing.Anonymous)] else claims l a) as Hcl.
  { intros a. rewrite insert_exact; [done|apply Hok|done|exact Hclear]. }
  assert (∀ a, in_u64 a → cover (vmas sp) a ≠ [] → kept am sp am sp1 a) as Hk by (intros; by eapply placed_kept).
  split; [split; [exact Hsp1|by apply insert_region_ok; [apply Hok|..]|]|split]; cbn [fst snd].
  - intros a. rewrite Hcl, (pl_cover _ _ _ _ _ Hpl), (pl_brk _ _ _ _ _ Hpl). destruct (decide _); [intros _; split; [lia|done]|].
    apply (me_claims _ _ _ _ Hok).
  - intros a Ha. split; [by apply (pl_free _ _ _ _ _ Hpl)|by apply Hclear].
  - intros a Ha. apply (placed_fresh am sp sp1 base (base + round_up len) _ a (so_paged _ _ _ _ _ _ _ _ Hsp) Has1 Hpl); try done.
    + rewrite Z.add_mod, Hbal, Hr2 by lia. done.
    + unfold in_u64, u64_max. lia.
  - exact Hk.
  - exact Hcl.
Qed.

Lemma munmap_call_rule ext rest l sp w am addr len :
  memory_ok ext rest (l, (sp, w)) am → 0 <= addr → addr mod 4096 = 0 → 0 < len → addr + len <= 2 ^ 47 - 4096 →
  wp_res (sys_munmap addr len) (l, (sp, w))
    (λ _ p', ∃ am', memory_ok ext rest p' am' ∧ am_data am' = am_data am ∧ unmapped am (l, (sp, w)) addr len am' p')
    (λ _ _, False).
Proof.
  intros Hok H0 Hal Hlen Hmax. pose proof (round_up_spec len ltac:(lia)) as (Hr1 & Hr2 & Hr3).
  pose proof (me_space _ _ _ _ Hok) as Hsp. cbn [fst snd] in Hsp. pose proof (so_areas _ _ _ _ _ _ _ _ Hsp) as Has.
  assert ((addr + round_up len) mod 4096 = 0) as Hal' by (rewrite Z.add_mod, Hal, Hr2 by lia; done).
  unfold sys_munmap. wp_step. apply wp_space_call.
  eapply wp_res_mono; [apply (unmap_any rep round1 foreign US ext rest sp w am); done || lia|..]; cbv beta; [|done].
  intros _ [sp1 w1] (am1 & Hsp1 & Hd1 & Hup). cbn [fst snd] in *. rewrite decide_True by lia.
  wp_step. wp_step. apply wp_page_len; [lia|unfold u64_max; lia|]. apply wp_regions. wp_run.
  assert (saturating_add u64_max addr (round_up len) = addr + round_up len) as -> by (unfold saturating_add, u64_max; lia).
  assert (∀ a, claims (remove_mmap_region_range addr (addr + round_up len) l) a =
    if decide (addr <= a < addr + round_up len) then [] else claims l a) as Hcl by (intros a; apply remove_claims; [lia|apply Hok]).
  exists am1. split; [split; [exact Hsp1|apply remove_ok; [lia|apply Hok]|]|split; [done|split]]; cbn [fst snd].
  - intros a. rewrite Hcl, (up_cover _ _ _ _ Hup), (up_brk _ _ _ _ Hup). destruct (decide _); [done|]. apply (me_claims _ _ _ _ Hok).
  - intros a Ha. rewrite (up_cover _ _ _ _ Hup), decide_True by done. split; [done|]. rewrite (up_pages _ _ _ _ Hup), decide_True; [done|].
    apply (proj1 (page_base_in a _ _ ltac:(unfold in_u64, u64_max; lia) Hal Hal')). done.
  - intros a Hu Hne Hout. apply (unplaced_kept am am1 sp sp1 addr (addr + round_up len)); try done. apply Hsp1.
  - exact Hcl.
Qed.

(** ** Claims *)

(** C13. [mremap] with the flag [MREMAP_MAYMOVE] alone, on a plain mapping.
    The pages are those of one recorded region or part of one: anonymous,
    readable and writable, not placed by [MAP_FIXED] or [MAP_FIXED_NOREPLACE],
    with pages that belong to the process, and the new size would end below the
    top of the user space.  Then the call always returns; when it succeeds, by
    shrinking, growing in place or moving, the first bytes are at the new place,
    up to the smaller of the two sizes, what was added is zero, the pages of the
    old place are gone unless they are part of the new one, the regions record
    the new place instead of the old, nothing else that is mapped has changed,
    and the new place was free; when it fails, areas, regions and memory are as
    before.  The memory of other processes is not touched, and recorded regions
    stay inside mapped areas.  A move keeps exactly the bytes of the old size:
    the rest of its last page is lost ([tail_of_page_lost]).  With
    [MREMAP_DONTUNMAP] the old place is forgotten ([dontunmap_forgets_old]). *)
Theorem mremap_moves_memory ext rest l sp w am old old_size new_size region :
  memory_ok ext rest (l, (sp, w)) am → in_u64 old → old mod 4096 = 0 →
  0 < old_size <= u64_max - 8190 → 0 < new_size → old + round_up new_size <= 2 ^ 47 - 4096 →
  slice_mmap_region (E := SysErr.SysErr) old (saturating_add u64_max old (round_up old_size)) l = Ok (Some region) →
  plain_mapping region → (∀ a, old <= a < old + round_up old_size → private sp a) →
  wp_res (sys_mremap old old_size new_size MREMAP_MAYMOVE 0) (l, (sp, w))
    (λ target p', ∃ am', memory_ok ext rest p' am' ∧ undisturbed rest am am' ∧
       remapped am (l, (sp, w)) old old_size new_size region target am' p')
    (λ _ p', ∃ am', memory_ok ext rest p' am' ∧ undisturbed rest am am' ∧ unmoved am (l, (sp, w)) am' p').
Proof.
  intros. eapply wp_res_mono; [by eapply (mremap_rule ext rest l sp w am old old_size new_size region)|..]; cbv beta.
  - intros target p' (am' & Hok' & Hk & Hrm). exists am'. split; [done|]. split; [by apply keeps_undisturbed|done].
  - intros e p' (am' & Hok' & Hk & Hun). exists am'. split; [done|]. split; [by apply keeps_undisturbed|done].
Qed.

(** C14. Anonymous [mmap] at an address of the kernel's choice, that is
    without [MAP_FIXED] and [MAP_FIXED_NOREPLACE], and [munmap] of a range that
    starts on a page and ends below the top of the user space, keep the recorded
    regions and the address space in step: a new mapping is zero memory at
    addresses that were neither mapped nor recorded, and is recorded exactly
    there; unmapping removes areas, pages and records of exactly the range;
    everything else stays, and a failed [mmap] changes nothing.  A fixed mapping
    is recorded over what is there: [fixed_mmap_overlaps]. *)
Theorem mmap_munmap_recorded ext rest l sp w am files addr len prot flags fd offset :
  memory_ok ext rest (l, (sp, w)) am →
  (0 < len <= u64_max - 8190 → flag_set flags MAP_ANONYMOUS → ¬ flag_set flags MAP_FIXED → ¬ flag_set flags MAP_FIXED_NOREPLACE →
   wp_res (sys_mmap files addr len prot flags fd offset) (l, (sp, w))
     (λ base p', memory_ok ext rest p' am ∧ mapped am (l, (sp, w)) base len (mmap_page_flags prot) flags p')
     (λ _ p', p' = (l, (sp, w)))) ∧
  (0 <= addr → addr mod 4096 = 0 → 0 < len → addr + len <= 2 ^ 47 - 4096 →
   wp_res (sys_munmap addr len) (l, (sp, w))
     (λ _ p', ∃ am', memory_ok ext rest p' am' ∧ am_data am' = am_data am ∧ unmapped am (l, (sp, w)) addr len am' p')
     (λ _ _, False)).
Proof. intros Hok. split; intros; [by apply mmap_call_rule|by apply munmap_call_rule]. Qed.
End remap.

(** C15. The list of regions is exact at every address: inserting adds the
    claim of the new region to what is recorded, removing a range empties it,
    changing the flags of a range changes them there and nowhere else, whatever
    overlaps; splitting and merging regions, with their file offsets, is not
    visible.  Without overlaps the list stays sorted and disjoint, and a slice
    records what the list records. *)
Theorem mmap_regions_exact s e page_flags r l :
  regions_wf l → region_wf r → s < e →
  (∀ a, claims (insert_mmap_region r l) a ≡ₚ claims [r] a ++ claims l a) ∧
  (∀ a, claims (remove_mmap_region_range s e l) a = if decide (s <= a < e) then [] else claims l a) ∧
  (∀ a, claims (update_mmap_region_flags s e page_flags l) a =
        if decide (s <= a < e) then set_claim_flags page_flags <$> claims l a else claims l a) ∧
  (StronglySorted before l →
   regions_ok (remove_mmap_region_range s e l) ∧ regions_ok (update_mmap_region_flags s e page_flags l) ∧
   (range_clear (rg_start r) (rg_end r) l → regions_ok (insert_mmap_region r l)) ∧
   match slice_mmap_region (E := SysErr.SysErr) s e l with
   | Ok (Some x) => rg_start x = s ∧ rg_end x = e ∧ ∀ a, s <= a < e → claims l a = [claim_at x a]
   | Ok None => ¬ ∃ x, x ∈ l ∧ rg_start x <= s ∧ e <= rg_end x
   | Panic => ∀ x, x ∈ l → s < rg_start x
   | _ => False
   end).
Proof.
  intros Hl Hr Hse. split; [by intros; apply insert_claims|]. split; [intros a; apply remove_claims; [lia|done]|].
  split; [by intros; apply update_claims|]. intros Hs. split; [by apply remove_ok; [lia|split]|]. split; [by apply update_ok|].
  split; [by intros; apply insert_region_ok|]. by apply slice_spec.
Qed.

(** ** Examples on the small machine *)

Section examples.
#[local] Existing Instance Demo.demo_machine.

(** No file can be mapped. *)
#[local] Instance demo_files : MappableFiles abstract := {
  fm_mmap _ _ := mthrow Poll.Unsupported;
  fm_size _ _ := 0;
  fm_image _ _ := None;
}.

Abbreviation demo_memory_ok := (memory_ok Demo.rep 1 Demo.foreign (λ _, 0) []).

Definition map_area : UserVma := mkVma 0x50000000 0x50003000 (mmap_page_flags 3) Anonymous true.
Definition map_space : UserAddressSpaceInner := mkSpace layout_current demo_root 0 [] [map_area] 0x40000000 0x40000000 0x41000000.
Definition map_region : MmapRegion := mkRegion 0x50000000 0x50003000 (mmap_page_flags 3) 0x22 Backing.Anonymous.
Definition map_memory : memory := ([map_region], (map_space, demo_start)).

Lemma map_memory_ok : demo_memory_ok map_memory demo_start.
Proof.
  assert (separated [map_area]) as Hsep by (split; [split; [by vm_compute|done]|]; done).
  split; [split| |]; cbn [map_memory fst snd].
  - assert (demo_start = set_space (frame_of 64) ∅ demo_empty) as -> by reflexivity. split; [done|].
    apply (system_new 1 Demo.foreign (λ _, 0) demo_empty [] map_space); [|done|done|].
    + split; try done; simpl; try (by constructor); intros; set_solver.
    + apply Forall_singleton. split; [done| |done]. by vm_compute.
  - split; try done.
    + apply Forall_singleton. split; try done. by left.
    + intros v ->%list_elem_of_singleton. done.
  - by vm_compute.
  - intros va Hva. done.
  - split; [by apply Forall_singleton|]. repeat constructor.
  - intros a. rewrite claims_one. destruct (decide _) as [Ha|]; [|done]. intros _. unfold within in Ha. simpl in Ha.
    split; [change (round_up (brk_limit map_space)) with 0x41000000; lia|]. cbn [vmas map_space]. rewrite cover_one.
    rewrite decide_True; [done|]. exact Ha.
Qed.

(** The first page cannot grow in place: it moves below the lowest area. *)
Lemma mremap_moves_memory_witness :
  (sys_mremap 0x50000000 4096 0x3000 MREMAP_MAYMOVE 0 map_memory).1 = Ok 0x4fffd000 ∧
  wp_res (sys_mremap 0x50000000 4096 0x3000 MREMAP_MAYMOVE 0) map_memory
    (λ target p', ∃ am', demo_memory_ok p' am' ∧ undisturbed [] demo_start am' ∧
       remapped demo_start map_memory 0x50000000 4096 0x3000 (region_part map_region 0x50000000 0x50001000) target am' p')
    (λ _ p', ∃ am', demo_memory_ok p' am' ∧ undisturbed [] demo_start am' ∧ unmoved demo_start map_memory am' p').
Proof.
  split; [by vm_compute|].
  apply (mremap_moves_memory Demo.rep 1 Demo.foreign Demo.demo_spec (λ _, 0) [] [map_region] map_space demo_start demo_start
    0x50000000 4096 0x3000 (region_part map_region 0x50000000 0x50001000) map_memory_ok);
    [by vm_compute|by vm_compute|by vm_compute|by vm_compute|by vm_compute|by vm_compute| |].
  - split; try (by vm_compute); by intros H; vm_compute in H; apply H.
  - intros a _ m Hm. done.
Defined.

Lemma mmap_munmap_recorded_witness :
  (sys_mmap ∅ 0 5000 3 0x22 0 0 map_memory).1 = Ok 0x4fffe000 ∧
  wp_res (sys_mmap ∅ 0x50001000 5000 3 0x22 0 0) map_memory
    (λ base p', demo_memory_ok p' demo_start ∧ mapped demo_start map_memory base 5000 (mmap_page_flags 3) 0x22 p')
    (λ _ p', p' = map_memory) ∧
  wp_res (sys_munmap 0x50001000 5000) map_memory
    (λ _ p', ∃ am', demo_memory_ok p' am' ∧ am_data am' = am_data demo_start ∧ unmapped demo_start map_memory 0x50001000 5000 am' p')
    (λ _ _, False).
Proof.
  split; [by vm_compute|].
  destruct (mmap_munmap_recorded Demo.rep 1 Demo.foreign Demo.demo_spec (λ _, 0) [] [map_region] map_space demo_start demo_start
    ∅ 0x50001000 5000 3 0x22 0 0 map_memory_ok) as [Hmmap Hmunmap].
  split; [apply Hmmap|apply Hmunmap]; try (by vm_compute); by intros H; vm_compute in H; apply H.
Defined.

Lemma mmap_regions_exact_witness :
  remove_mmap_region_range 0x50001000 0x50002000 [map_region] =
    [with_range 0x50000000 0x50001000 map_region; with_range 0x50002000 0x50003000 map_region] ∧
  (∀ a, claims (remove_mmap_region_range 0x50001000 0x50002000 [map_region]) a =
        if decide (0x50001000 <= a < 0x50002000) then [] else claims [map_region] a).
Proof.
  split; [by vm_compute|].
  apply (mmap_regions_exact 0x50001000 0x50002000 0 (with_range 0x60000000 0x60001000 map_region) [map_region]);
    [by apply Forall_singleton|by vm_compute|by vm_compute].
Defined.

(** ** What goes wrong *)

(** The search below the first region indexes before the start of the vector:
    [mremap] and [mincore] of an address below all mappings panic. *)
Lemma covering_below_panics :
  (sys_mincore 0x1000 1 0x50000000 map_memory).1 = Panic ∧
  (sys_mremap 0x1000 1 1 0 0 map_memory).1 = Panic.
Proof. split; by vm_compute. Qed.

(** A mapping that was made with [MAP_FIXED] is moved to address zero, because
    its flags still say [MAP_FIXED] and the hint is zero. *)
Lemma fixed_mapping_moves_to_zero :
  let p := ([mkRegion 0x50000000 0x50003000 (mmap_page_flags 3) 0x32 Backing.Anonymous], (map_space, demo_start)) in
  (sys_mremap 0x50000000 4096 0x3000 MREMAP_MAYMOVE 0 p).1 = Ok 0.
Proof. by vm_compute. Qed.

(** With [MREMAP_DONTUNMAP] the old area stays, but is not recorded any more:
    the next [mremap] of it fails. *)
Lemma dontunmap_forgets_old :
  let p' := (sys_mremap 0x50000000 4096 4096 (Z.lor MREMAP_MAYMOVE MREMAP_DONTUNMAP) 0 map_memory).2 in
  cover (vmas p'.2.1) 0x50000000 ≠ [] ∧ claims p'.1 0x50000000 = [] ∧
  (sys_mremap 0x50000000 4096 8192 MREMAP_MAYMOVE 0 p').1 = Err SysErr.Fault.
Proof. split_and!; by vm_compute. Qed.

(** Only [old_size] bytes are copied, not the whole pages: the rest of the last
    page is lost. *)
Lemma tail_of_page_lost :
  let p := (l ← mgets fst; _ ← on_space (write 0x50000064 [7]); mret l : MC (list MmapRegion)) map_memory in
  let r := sys_mremap 0x50000000 5 0x3000 MREMAP_MAYMOVE 0 p.2 in
  r.1 = Ok 0x4fffd000 ∧ (on_space (read 0x50000064 1) p.2).1 = Ok [7] ∧ (on_space (read 0x4fffd064 1) r.2).1 = Ok [0].
Proof. split_and!; by vm_compute. Qed.

(** [mmap] with [MAP_FIXED] records the new region over the old one; unmapping a
    page in the middle then leaves the vector out of order. *)
Lemma fixed_mmap_overlaps :
  let p0 := (sys_mmap ∅ 0 0x5000 3 0x22 0 0 map_memory).2 in
  let p1 := (sys_mmap ∅ 0x4fffc000 0x3000 1 0x32 0 0 p0).2 in
  let p2 := (sys_munmap 0x4fffd000 0x1000 p1).2 in
  length (claims p1.1 0x4fffc000) = 2%nat ∧ (rg_start <$> p2.1) = [0x4fffb000; 0x4fffe000; 0x4fffc000; 0x4fffe000].
Proof. split; by vm_compute. Qed.
End examples.
