(* ===== verification/MemFileProof.v ===== *)
(** * Correctness of the files in memory

    The three writable kinds of file behave as vectors of bytes ([ByteFile]):
    for the one that is a list of page frames this is a refinement, with the
    loops over pages, the allocation of frames and the failure half way through
    it.  Seals, once set, hold. *)

From S2P Require Import Prelude Frame RangeList Buddy BuddyInv BuddySpec BuddyTheorems PageTable X86Paging MapperTheorems Poll MemFile.

(** ** Splicing *)

Lemma length_splice off buf l : (off + length buf <= length l)%nat → length (splice off buf l) = length l.
Proof. intros H. unfold splice. rewrite !length_app, length_take, length_drop. lia. Qed.

Lemma lookup_splice off buf l i :
  (off + length buf <= length l)%nat →
  splice off buf l !! i = if decide (off <= i < off + length buf)%nat then buf !! (i - off)%nat else l !! i.
Proof.
  intros H. unfold splice. destruct (decide (i < off)%nat) as [Hi|Hi].
  - rewrite lookup_app_l by (rewrite length_take; lia). rewrite lookup_take_lt by lia. rewrite decide_False by lia. done.
  - rewrite lookup_app_r by (rewrite length_take; lia). rewrite length_take, Nat.min_l by lia.
    destruct (decide (i - off < length buf)%nat) as [Hb|Hb].
    + rewrite lookup_app_l by lia. rewrite decide_True by lia. done.
    + rewrite lookup_app_r by lia. rewrite lookup_drop, decide_False by lia. f_equal. lia.
Qed.

Lemma splice_nil off l : splice off [] l = l.
Proof. unfold splice. simpl. rewrite Nat.add_0_r. apply take_drop. Qed.

Lemma splice_splice off b1 b2 l :
  (off + length b1 + length b2 <= length l)%nat →
  splice (off + length b1) b2 (splice off b1 l) = splice off (b1 ++ b2) l.
Proof.
  intros H. apply list_eq. intros i. rewrite !lookup_splice by (rewrite ?length_splice, ?length_app; lia).
  rewrite length_app. repeat case_decide; try lia; try done.
  - rewrite lookup_app_r by lia. f_equal. lia.
  - rewrite lookup_app_l by lia. done.
Qed.

Lemma splice_app_l off buf a b : (off + length buf <= length a)%nat → splice off buf (a ++ b) = splice off buf a ++ b.
Proof. intros H. unfold splice. rewrite take_app_le, drop_app_le by lia. by rewrite <-!app_assoc. Qed.

Lemma splice_app_r off buf a b : splice (length a + off) buf (a ++ b) = a ++ splice off buf b.
Proof.
  unfold splice. rewrite take_app_add, <-app_assoc. do 3 f_equal. rewrite <-Nat.add_assoc. apply drop_app_add.
Qed.

(** ** Vectors *)

Lemma bytes_read_spec bytes off n : 0 <= off → 0 <= n → bytes_read bytes off n = take (Z.to_nat n) (drop (Z.to_nat off) bytes).
Proof.
  intros Ho Hn. unfold bytes_read. destruct (decide _) as [Hle|Hlt]; [rewrite drop_ge by lia; by rewrite take_nil|].
  destruct (decide (n <= Z.of_nat (length bytes) - off)); [by rewrite Z.min_l by lia|].
  rewrite Z.min_r by lia. rewrite !take_ge by (rewrite length_drop; lia). done.
Qed.

Lemma vec_write_spec {S E} off buf bytes (s : S) :
  in_u64 off → off + Z.of_nat (length buf) <= isize_max →
  vec_write (E := E) off buf bytes s = (Ok (written (Z.to_nat off) buf bytes), s).
Proof.
  intros Ho He. unfold vec_write, saturating_add, vec_resize, written.
  rewrite Z.min_r by (unfold isize_max, u64_max in *; lia). unfold in_u64 in Ho.
  destruct (decide (Z.of_nat (length bytes) < _)).
  - rewrite (decide_True (P := _ <= isize_max)) by lia. unfold mbind, M_bind, mret, M_ret. rewrite decide_True by lia. do 3 f_equal.
    f_equal. lia.
  - unfold mbind, M_bind, mret, M_ret. rewrite decide_True by lia. do 3 f_equal.
    replace (_ `max` _)%nat with (length bytes) by lia. by rewrite resize_all.
Qed.

Lemma vec_resize_spec {S E} n bytes (s : S) :
  n <= isize_max → vec_resize (E := E) n bytes s = (Ok (resize (Z.to_nat n) 0 bytes), s).
Proof. intros H. unfold vec_resize. by rewrite decide_True. Qed.

Definition mutable_rep (f : MutableMemoryFile) (bs : list Z) : Prop := mm_bytes f = bs.
Definition cow_rep (f : CowMemoryFile) (bs : list Z) : Prop := cow_bytes (cow_state f) = bs.

#[export] Instance mutable_is_byte_file : ByteFile MutableMemoryFile mutable_rep.
Proof.
  split; unfold mutable_rep.
  - by intros s bs <-.
  - intros s bs off n <- [] []. split; [done|]. by apply bytes_read_spec.
  - intros s bs off buf <- Ho He. unfold wp_res, wp. simpl. unfold mutable_write, mbind, M_bind. simpl. by rewrite vec_write_spec.
  - intros s bs n <- Hn. unfold wp_res, wp. simpl. unfold mutable_truncate, mbind, M_bind. simpl. rewrite vec_resize_spec by lia. done.
Qed.

#[export] Instance cow_is_byte_file : ByteFile CowMemoryFile cow_rep.
Proof.
  split; unfold cow_rep.
  - by intros s bs <-.
  - intros s bs off n <- [] []. split; [done|]. by apply bytes_read_spec.
  - intros s bs off buf <- Ho He. unfold wp_res, wp. simpl. unfold cow_write, materialize, mbind, M_bind. simpl.
    destruct (cow_state s); simpl; by rewrite vec_write_spec.
  - intros s bs n <- Hn. unfold wp_res, wp. simpl. unfold cow_truncate, materialize, mbind, M_bind. simpl.
    destruct (cow_state s); simpl; rewrite vec_resize_spec by lia; done.
Qed.

(** ** Page frames *)

(** The bytes of the pages under an update of one frame. *)
Lemma bind_splice (N : nat) (bytes : PhysFrame → list Z) f po data :
  (po + length data <= N)%nat → ∀ pages idx,
  NoDup pages → (∀ g, g ∈ pages → length (bytes g) = N) → pages !! idx = Some f →
  pages ≫= (λ g, if decide (g = f) then splice po data (bytes f) else bytes g) =
    splice (idx * N + po) data (pages ≫= bytes).
Proof.
  intros Hpo. induction pages as [|p pages IH]; intros idx Hnd Hlen Hi; [done|]. apply NoDup_cons in Hnd as [Hp Hnd].
  assert (length (bytes p) = N) as Hl by (apply Hlen; by left). rewrite !bind_cons. destruct idx as [|idx]; simpl in Hi.
  - simplify_eq. rewrite decide_True by done. rewrite splice_app_l by lia. f_equal.
    apply Forall_bind_ext, Forall_forall. intros g Hg. rewrite decide_False; [done|]. by intros ->.
  - rewrite decide_False by (intros ->; apply Hp; by eapply list_elem_of_lookup_2).
    rewrite (IH idx) by (done || (intros; apply Hlen; by right)).
    rewrite <-splice_app_r, Hl. f_equal. lia.
Qed.

Section shared.
Context {St : Type} `{!FrameAllocator St} {rep : St → frame_map → Prop} {usable : Z → Prop} {round : Z → Z}.
Context `{!FrameAllocatorSpec St rep usable round}.
Implicit Types (s : shm St) (m : frame_map).

Definition pages_of s : list PhysFrame := shm_pages (shm_state (sh_file s)).
Definition size_of s : Z := shm_size (shm_state (sh_file s)).
Definition all_bytes s : list Z := pages_of s ≫= sh_bytes s.

(** The file owns a reference to each of its pages, which are different. *)
Record shm_ok s m : Prop := {
  so_rep : rep (sh_frames s) m;
  so_nodup : NoDup (pages_of s);
  so_owned f : f ∈ pages_of s → ∃ a rc, f = frame_of a ∧ m !! a = Some (round 1, rc);
  so_page f : f ∈ pages_of s → Z.of_nat (length (sh_bytes s f)) = 4096;
  so_size : 0 <= size_of s <= 4096 * Z.of_nat (length (pages_of s));
  so_max : size_of s <= u64_max;
}.

(** The contents of the file. *)
Definition contents s : list Z := take (Z.to_nat (size_of s)) (all_bytes s).

Definition shm_rep s (bs : list Z) : Prop := (∃ m, shm_ok s m) ∧ contents s = bs.

Lemma length_all_bytes s m : shm_ok s m → Z.of_nat (length (all_bytes s)) = 4096 * Z.of_nat (length (pages_of s)).
Proof.
  intros Hok. pose proof (so_page _ _ Hok) as Hp. unfold all_bytes. induction (pages_of s) as [|p l IH]; [done|].
  rewrite bind_cons, length_app. specialize (IH (λ f Hf, Hp f (list_elem_of_further _ _ _ Hf))). specialize (Hp p (list_elem_of_here _ _)).
  cbn [length]. lia.
Qed.

Lemma length_contents s m : shm_ok s m → length (contents s) = Z.to_nat (size_of s).
Proof. intros Hok. unfold contents. rewrite length_take. pose proof (length_all_bytes _ _ Hok). pose proof (so_size _ _ Hok). lia. Qed.

(** Only the bytes of the pages have changed. *)
Definition spliced s (off : nat) (data : list Z) s' : Prop :=
  sh_file s' = sh_file s ∧ sh_frames s' = sh_frames s ∧ all_bytes s' = splice off data (all_bytes s) ∧
  (∀ m, shm_ok s m → shm_ok s' m).

Lemma write_page_rule s m i po data :
  shm_ok s m → 0 <= i < Z.of_nat (length (pages_of s)) → 0 <= po → po + Z.of_nat (length data) <= 4096 →
  wp_res (write_page i po data) s (λ _ s', spliced s (Z.to_nat (i * 4096 + po)) data s') (λ _ _, False).
Proof.
  intros Hok Hi Hpo Hd. destruct (lookup_lt_is_Some_2 (pages_of s) (Z.to_nat i)) as [f Hf]; [lia|].
  assert (f ∈ pages_of s) as Hin by (by eapply list_elem_of_lookup_2).
  unfold write_page, get_state. wp_run. unfold pages_of in Hf. rewrite Hf. wp_run. split; [done|]. split; [done|]. split.
  - unfold all_bytes. replace (Z.to_nat (i * 4096 + po)) with (Z.to_nat i * Z.to_nat 4096 + Z.to_nat po)%nat by lia.
    rewrite <-(bind_splice _ _ f); [|lia|apply Hok|intros g Hg; pose proof (so_page _ _ Hok g Hg); lia|done]. apply Forall_bind_ext, Forall_forall. intros g _. simpl.
    by destruct (decide (g = f)) as [->|].
  - intros m' Hok'. destruct Hok' as [Hr Hnd Ho Hp Hs Hx]. split; try done. intros g Hg. simpl. destruct (decide (g = f)) as [->|]; [|by apply Hp].
    specialize (Hp f Hg). rewrite length_splice; lia.
Qed.

Lemma spliced_trans s s1 s2 m off d1 d2 :
  shm_ok s m → (off + length d1 + length d2 <= length (all_bytes s))%nat →
  spliced s off d1 s1 → spliced s1 (off + length d1) d2 s2 → spliced s off (d1 ++ d2) s2.
Proof.
  intros Hok Hlen (Hf1 & Hs1 & Hb1 & Ho1) (Hf2 & Hs2 & Hb2 & Ho2). split; [congruence|]. split; [congruence|]. split; [|auto].
  rewrite Hb2, Hb1. by apply splice_splice.
Qed.

Lemma spliced_nil s off : spliced s off [] s.
Proof. split_and!; try done. by rewrite splice_nil. Qed.

(** The chunk of a round lies in one page of the file. *)
Lemma chunk_bounds current left_ n :
  0 <= current → 0 < left_ → current + left_ <= 4096 * n →
  let chunk := left_ `min` (PAGE_SIZE - current mod PAGE_SIZE) in
  0 < chunk ∧ chunk <= left_ ∧ 0 <= current / PAGE_SIZE < n ∧ 0 <= current mod PAGE_SIZE ∧ current mod PAGE_SIZE + chunk <= 4096 ∧
  current / PAGE_SIZE * 4096 + current mod PAGE_SIZE = current.
Proof.
  intros Hc Hl Hn. change PAGE_SIZE with 4096. pose proof (Z.mod_pos_bound current 4096). pose proof (Z.div_mod current 4096).
  pose proof (Z.div_pos current 4096). assert (current / 4096 < n) by (apply Z.div_lt_upper_bound; lia). cbv zeta. lia.
Qed.

Lemma copy_in_rule fuel : ∀ s m current buffer,
  shm_ok s m → (length buffer <= fuel)%nat → 0 <= current →
  current + Z.of_nat (length buffer) <= 4096 * Z.of_nat (length (pages_of s)) →
  wp_res (copy_in_loop fuel current buffer) s (λ _ s', spliced s (Z.to_nat current) buffer s') (λ _ _, False).
Proof.
  induction fuel as [|fuel IH]; intros s m current buffer Hok Hfuel Hc Hn; cbn [copy_in_loop].
  - destruct buffer; [|simpl in Hfuel; lia]. rewrite decide_True by done. wp_run. apply spliced_nil.
  - destruct (decide (buffer = [])) as [->|Hne]; [wp_run; apply spliced_nil|].
    assert (0 < Z.of_nat (length buffer)) as Hpos by (destruct buffer; simpl; [done|lia]).
    pose proof (chunk_bounds current _ _ Hc Hpos Hn) as Hch. cbv zeta in Hch.
    set (chunk := _ `min` _) in *. destruct Hch as (H1 & H2 & H3 & H4 & H5 & H6).
    assert (length (take (Z.to_nat chunk) buffer) = Z.to_nat chunk) as Ht by (rewrite length_take; lia). wp_step.
    eapply wp_res_mono; [eapply (write_page_rule s m); [done|lia|done|lia]|cbv beta|done].
    intros _ s1 Hs1. rewrite H6 in Hs1. pose proof Hs1 as (Hf1 & _ & Hb1 & Ho1).
    assert (pages_of s1 = pages_of s) as Hp1 by (unfold pages_of; by rewrite Hf1).
    eapply wp_res_mono; [eapply (IH s1 m); [by apply Ho1|rewrite length_drop; lia|lia|rewrite length_drop, Hp1; lia]|cbv beta|done].
    intros _ s2 Hs2. rewrite <-(take_drop (Z.to_nat chunk) buffer). eapply spliced_trans; [done| |done|].
    + rewrite Ht, length_drop. pose proof (length_all_bytes _ _ Hok). lia.
    + rewrite Ht. replace (Z.to_nat current + Z.to_nat chunk)%nat with (Z.to_nat (current + chunk)) by lia. done.
Qed.

Lemma zero_loop_rule fuel : ∀ s m current end_,
  shm_ok s m → (Z.to_nat (end_ - current) <= fuel)%nat → 0 <= current → end_ <= 4096 * Z.of_nat (length (pages_of s)) →
  wp_res (zero_loop fuel current end_) s
    (λ _ s', spliced s (Z.to_nat current) (replicate (Z.to_nat (end_ - current)) 0) s') (λ _ _, False).
Proof.
  induction fuel as [|fuel IH]; intros s m current end_ Hok Hfuel Hc Hn; cbn [zero_loop].
  - rewrite decide_False by lia. wp_run. replace (Z.to_nat (end_ - current)) with 0%nat by lia. apply spliced_nil.
  - destruct (decide (current < end_)) as [Hlt|]; [|wp_run; replace (Z.to_nat (end_ - current)) with 0%nat by lia; apply spliced_nil].
    pose proof (chunk_bounds current (end_ - current) (Z.of_nat (length (pages_of s))) Hc ltac:(lia) ltac:(lia)) as Hch. cbv zeta in Hch.
    set (chunk := _ `min` _) in *. destruct Hch as (H1 & H2 & H3 & H4 & H5 & H6). wp_step.
    eapply wp_res_mono; [eapply (write_page_rule s m); [done|lia|done|rewrite length_replicate; lia]|cbv beta|done].
    intros _ s1 Hs1. rewrite H6 in Hs1. pose proof Hs1 as (Hf1 & _ & Hb1 & Ho1).
    assert (pages_of s1 = pages_of s) as Hp1 by (unfold pages_of; by rewrite Hf1).
    eapply wp_res_mono; [eapply (IH s1 m); [by apply Ho1|lia|lia|rewrite Hp1; lia]|cbv beta|done].
    intros _ s2 Hs2. replace (Z.to_nat (end_ - current)) with (Z.to_nat chunk + Z.to_nat (end_ - (current + chunk)))%nat by lia.
    rewrite replicate_add. eapply spliced_trans; [done| |done|].
    + rewrite !length_replicate. pose proof (length_all_bytes _ _ Hok). lia.
    + rewrite length_replicate. replace (Z.to_nat current + Z.to_nat chunk)%nat with (Z.to_nat (current + chunk)) by lia. done.
Qed.

Lemma zero_range_rule s m start end_ :
  shm_ok s m → 0 <= start → end_ <= 4096 * Z.of_nat (length (pages_of s)) →
  wp_res (zero_range start end_) s
    (λ _ s', spliced s (Z.to_nat start) (replicate (Z.to_nat (end_ - start)) 0) s') (λ _ _, False).
Proof.
  intros Hok Hs He. unfold zero_range. destruct (decide _).
  - wp_run. replace (Z.to_nat (end_ - start)) with 0%nat by lia. apply spliced_nil.
  - eapply zero_loop_rule; [done|lia..].
Qed.

(** A part of a page is a part of the file. *)
Lemma page_slice s m i f po n :
  shm_ok s m → pages_of s !! i = Some f → (po + n <= Z.to_nat 4096)%nat →
  take n (drop po (sh_bytes s f)) = take n (drop (i * Z.to_nat 4096 + po) (all_bytes s)).
Proof.
  intros Hok. unfold all_bytes. pose proof (so_page _ _ Hok) as Hp. revert i Hp.
  induction (pages_of s) as [|p pages IH]; intros i Hp Hi Hn; [done|]. rewrite bind_cons.
  pose proof (Hp p (list_elem_of_here _ _)) as Hlp. destruct i as [|i]; simpl in Hi.
  - simplify_eq. rewrite Nat.mul_0_l, Nat.add_0_l, drop_app_le, take_app_le; [done|rewrite length_drop; lia|lia].
  - rewrite (IH i (λ f Hf, Hp f (list_elem_of_further _ _ _ Hf)) Hi Hn).
    replace (S i * Z.to_nat 4096 + po)%nat with (length (sh_bytes s p) + (i * Z.to_nat 4096 + po))%nat by lia.
    by rewrite drop_app_add.
Qed.

Lemma copy_out_rule fuel : ∀ s m current end_ acc,
  shm_ok s m → (Z.to_nat (end_ - current) <= fuel)%nat → 0 <= current → end_ <= 4096 * Z.of_nat (length (pages_of s)) →
  wp_res (copy_out_loop fuel current end_ acc) s
    (λ r s', s' = s ∧ r = acc ++ take (Z.to_nat (end_ - current)) (drop (Z.to_nat current) (all_bytes s))) (λ _ _, False).
Proof.
  induction fuel as [|fuel IH]; intros s m current end_ acc Hok Hfuel Hc Hn; cbn [copy_out_loop].
  - rewrite decide_False by lia. wp_run. replace (Z.to_nat (end_ - current)) with 0%nat by lia. by rewrite app_nil_r.
  - destruct (decide (current < end_)) as [Hlt|];
      [|wp_run; replace (Z.to_nat (end_ - current)) with 0%nat by lia; by rewrite app_nil_r].
    pose proof (chunk_bounds current (end_ - current) (Z.of_nat (length (pages_of s))) Hc ltac:(lia) ltac:(lia)) as Hch. cbv zeta in Hch.
    set (chunk := _ `min` _) in *. destruct Hch as (H1 & H2 & H3 & H4 & H5 & H6).
    destruct (lookup_lt_is_Some_2 (pages_of s) (Z.to_nat (current / PAGE_SIZE))) as [f Hf]; [lia|].
    wp_run. unfold pages_of in Hf. rewrite Hf. wp_run.
    eapply wp_res_mono; [eapply (IH s m); [done|lia|lia|lia]|cbv beta|done]. intros r s' [-> ->]. split; [done|].
    rewrite <-app_assoc. f_equal. rewrite (page_slice s m _ f _ _ Hok Hf) by lia.
    replace (_ * _ + _)%nat with (Z.to_nat current) by lia.
    replace (Z.to_nat (end_ - current)) with (Z.to_nat chunk + Z.to_nat (end_ - (current + chunk)))%nat by lia.
    replace (Z.to_nat (current + chunk)) with (Z.to_nat current + Z.to_nat chunk)%nat by lia.
    rewrite <-drop_drop. apply take_take_drop.
Qed.

(** Pages were added: the bytes that were there are the same. *)
Definition grown s m s' m' : Prop :=
  (∃ new, sh_file s' = mkShm (mkShmState (size_of s) (pages_of s ++ new)) (shm_seals (sh_file s)) (shm_allow_sealing (sh_file s))) ∧
  (∃ n, all_bytes s' = all_bytes s ++ replicate n 0) ∧ shm_ok s' m' ∧ m ⊆ m'.

Lemma grown_refl s m : shm_ok s m → grown s m s m.
Proof.
  intros Hok. split; [exists []; rewrite app_nil_r; by destruct s as [[[]]]|]. split; [exists 0%nat; by rewrite app_nil_r|done].
Qed.

Lemma grown_trans s m s1 m1 s2 m2 : grown s m s1 m1 → grown s1 m1 s2 m2 → grown s m s2 m2.
Proof.
  intros ((n1 & Hf1) & (k1 & Hb1) & Hok1 & Hm1) ((n2 & Hf2) & (k2 & Hb2) & Hok2 & Hm2).
  split; [|split; [|split; [done|by etrans]]].
  - exists (n1 ++ n2). rewrite Hf2. unfold size_of, pages_of. rewrite Hf1. simpl. by rewrite app_assoc.
  - exists (k1 + k2)%nat. by rewrite Hb2, Hb1, replicate_add, app_assoc.
Qed.

(** A fresh frame that is appended. *)
Lemma grow_step s m a st' :
  shm_ok s m → m !! a = None → rep st' (<[a := (round 1, 1)]> m) →
  grown s m (set_shm_state (mkShmState (size_of s) (pages_of s ++ [frame_of a]))
               (set_shm_bytes (frame_of a) (replicate (Z.to_nat PAGE_SIZE) 0) (set_shm_frames st' s))) (<[a := (round 1, 1)]> m).
Proof.
  intros [Hr Hnd Ho Hp Hs Hx] Ha Hr'.
  assert (∀ f, f ∈ pages_of s → f ≠ frame_of a) as Hfresh.
  { intros f Hf ->. destruct (Ho _ Hf) as (b & rc & Hb & Hm). assert (b = a) as -> by (injection Hb; lia). congruence. }
  split; [by exists [frame_of a]|]. split.
  - exists (Z.to_nat PAGE_SIZE). unfold all_bytes.
    cbn [pages_of set_shm_state sh_file shm_state shm_pages set_shm_bytes set_shm_frames sh_bytes]. rewrite bind_app. f_equal.
    + apply Forall_bind_ext, Forall_forall. intros f Hf. simpl. by rewrite decide_False by (by apply Hfresh).
    + cbn [mbind list_bind]. rewrite decide_True by done. by rewrite app_nil_r.
  - split; [|by apply insert_subseteq].
    split; cbn [pages_of size_of set_shm_state sh_file shm_state shm_pages shm_size set_shm_bytes set_shm_frames sh_bytes sh_frames].
    + done.
    + apply NoDup_app. split; [done|]. split; [|apply NoDup_singleton]. intros f Hf ->%list_elem_of_singleton. by apply (Hfresh _ Hf).
    + intros f [Hf| ->%list_elem_of_singleton]%elem_of_app.
      * destruct (Ho _ Hf) as (b & rc & -> & Hm). exists b, rc. split; [done|]. rewrite lookup_insert_ne; [done|]. intros ->. congruence.
      * exists a, 1. by rewrite lookup_insert_eq.
    + intros f [Hf| ->%list_elem_of_singleton]%elem_of_app.
      * rewrite decide_False by (by apply Hfresh). by apply Hp.
      * rewrite decide_True by done. by rewrite length_replicate.
    + rewrite length_app. cbn [length]. lia.
    + done.
Qed.

Lemma grow_loop_rule fuel : ∀ s m required,
  shm_ok s m → (Z.to_nat (required - Z.of_nat (length (pages_of s))) <= fuel)%nat →
  wp_res (grow_loop fuel required) s
    (λ _ s', ∃ m', grown s m s' m' ∧ required <= Z.of_nat (length (pages_of s'))) (λ _ s', ∃ m', grown s m s' m').
Proof.
  induction fuel as [|fuel IH]; intros s m required Hok Hfuel; cbn [grow_loop]; unfold get_state; wp_run; fold (pages_of s).
  - rewrite decide_False by lia. wp_run. exists m. split; [by apply grown_refl|lia].
  - destruct (decide _) as [Hlt|]; [|wp_run; exists m; split; [by apply grown_refl|lia]].
    wp_step. unfold wp_res at 1, wp, alloc_page. pose proof (fas_alloc _ _ 1 (so_rep _ _ Hok)) as Ha.
    unfold wp_res, wp in Ha. destruct (fa_alloc 1 (sh_frames s)) as [[f|e| |] st']; cbn [fst snd] in *; [| |done|done].
    + destruct Ha as (a & -> & _ & Hm & Hr). unfold put_state. wp_run. pose proof (grow_step _ _ _ _ Hok Hm Hr) as Hg.
      set (s1 := set_shm_state _ _). change (grown s m s1 (<[a := (round 1, 1)]> m)) in Hg.
      assert (length (pages_of s1) = S (length (pages_of s))) as Hl by (unfold s1, pages_of; simpl; rewrite length_app; simpl; lia).
      eapply wp_res_mono; [eapply (IH s1); [apply Hg|lia]|..]; cbv beta.
      * intros _ s2 (m2 & Hg2 & Hle). exists m2. split; [by eapply grown_trans|done].
      * intros _ s2 (m2 & Hg2). exists m2. by eapply grown_trans.
    + exists m. destruct Hok as [Hr0 Hnd Ho Hp Hs Hx]. split; [exists []; rewrite app_nil_r; by destruct s as [[[]]]|].
      split; [exists 0%nat; by rewrite app_nil_r|]. split; [by split|done].
Qed.

Lemma div_ceil_page n : n <= 4096 * div_ceil n PAGE_SIZE.
Proof. unfold div_ceil. change PAGE_SIZE with 4096. pose proof (Z.div_mod (n + 4096 - 1) 4096). pose proof (Z.mod_pos_bound (n + 4096 - 1) 4096). lia. Qed.

Lemma ensure_capacity_rule s m len :
  shm_ok s m →
  wp_res (ensure_capacity len) s
    (λ _ s', ∃ m', grown s m s' m' ∧ len <= 4096 * Z.of_nat (length (pages_of s'))) (λ _ s', ∃ m', grown s m s' m').
Proof.
  intros Hok. unfold ensure_capacity, get_state. wp_run. fold (pages_of s). pose proof (div_ceil_page len). destruct (decide _).
  - wp_run. exists m. split; [by apply grown_refl|lia].
  - eapply wp_res_mono; [eapply (grow_loop_rule _ s m); [done|lia]|..]; cbv beta; [|done].
    intros _ s' (m' & Hg & Hle). exists m'. split; [done|lia].
Qed.

Lemma grown_size s m s' m' : grown s m s' m' → size_of s' = size_of s ∧ shm_seals (sh_file s') = shm_seals (sh_file s).
Proof. intros ((new & Hf) & _). unfold size_of. by rewrite Hf. Qed.

Lemma grown_contents s m s' m' : shm_ok s m → grown s m s' m' → contents s' = contents s.
Proof.
  intros Hok Hg. destruct (grown_size _ _ _ _ Hg) as [Hs _]. destruct Hg as (_ & (n & Hb) & _ & _). unfold contents. rewrite Hs, Hb.
  apply take_app_le. pose proof (length_all_bytes _ _ Hok). pose proof (so_size _ _ Hok). lia.
Qed.

(** ** What the steps compute *)

Lemma lookup_zeros n i : (replicate n 0 : list Z) !! i = if decide (i < n)%nat then Some 0 else None.
Proof.
  destruct (decide (i < n)%nat).
  - by apply lookup_replicate_2.
  - apply lookup_replicate_None. lia.
Qed.

(** The bytes of a page list after a write at [off] with the gap zeroed. *)
Lemma written_bytes (sz off : nat) (all zeros buf all2 : list Z) :
  (sz <= length all)%nat → (off + length buf <= length all + length zeros)%nat → zeros = replicate (length zeros) 0 →
  all2 = (if decide (sz < off)%nat then splice sz (replicate (off - sz) 0) (all ++ zeros) else all ++ zeros) →
  take (sz `max` (off + length buf)) (splice off buf all2) = written off buf (take sz all).
Proof.
  intros Hsz Hlen Hz ->. unfold written. rewrite length_take, Nat.min_l by lia.
  assert (length (splice sz (replicate (off - sz) 0) (all ++ zeros)) = length (all ++ zeros)) as Hls
    by (destruct (decide (sz <= off)%nat); [apply length_splice; rewrite length_replicate, length_app; lia|
        replace (off - sz)%nat with 0%nat by lia; by rewrite splice_nil]).
  apply list_eq. intros i. destruct (decide (i < sz `max` (off + length buf))%nat) as [Hi|Hi].
  2:{ rewrite lookup_take_ge by lia. symmetry. apply lookup_ge_None_2. rewrite length_splice; rewrite length_resize; lia. }
  rewrite lookup_take_lt by lia. rewrite !lookup_splice; [|rewrite length_resize; lia|case_decide; rewrite ?Hls, ?length_app; lia].
  destruct (decide (off <= i < off + length buf)%nat) as [|Hout]; [done|]. destruct (decide (i < sz)%nat) as [His|His].
  - rewrite lookup_resize by (rewrite ?length_take; lia). rewrite lookup_take_lt by lia.
    destruct (decide (sz < off)%nat).
    + rewrite lookup_splice by (rewrite length_replicate, length_app; lia). rewrite decide_False by lia. by rewrite lookup_app_l by lia.
    + by rewrite lookup_app_l by lia.
  - rewrite lookup_resize_new by (rewrite ?length_take; lia). rewrite decide_True by lia.
    rewrite lookup_splice by (rewrite length_replicate, length_app; lia). rewrite length_replicate, decide_True by lia.
    rewrite lookup_zeros, decide_True by lia. done.
Qed.

(** The bytes after the file was grown to [n] with zeros. *)
Lemma resized_bytes (sz n : nat) (all zeros : list Z) :
  (sz <= length all)%nat → (sz <= n)%nat → (n <= length all + length zeros)%nat →
  take n (splice sz (replicate (n - sz) 0) (all ++ zeros)) = resize n 0 (take sz all).
Proof.
  intros Hsz Hn Hlen. rewrite resize_spec, length_take, Nat.min_l by lia. rewrite take_take, Nat.min_r by lia.
  unfold splice. rewrite length_replicate, (take_app_le all) by lia. rewrite app_assoc, take_app_le by (rewrite length_app, length_take, length_replicate; lia).
  apply take_ge. rewrite length_app, length_take, length_replicate. lia.
Qed.

(** The bytes after the file was shrunk to [n], with the rest zeroed. *)
Lemma shrunk_bytes (sz n : nat) (all : list Z) :
  (sz <= length all)%nat → (n <= sz)%nat → take n (splice n (replicate (sz - n) 0) all) = resize n 0 (take sz all).
Proof.
  intros Hsz Hn. rewrite resize_le by (rewrite length_take; lia). rewrite take_take, Nat.min_l by lia.
  unfold splice. rewrite take_app_le by (rewrite length_take; lia). rewrite take_take. f_equal. lia.
Qed.

(** ** The operations *)

(** The file is consistent with the given contents; the blocks of the allocator
    that were there are the same and the seals have not changed. *)
Definition becomes s m (bs : list Z) s' : Prop :=
  ∃ m', shm_ok s' m' ∧ m ⊆ m' ∧ contents s' = bs ∧ shm_seals (sh_file s') = shm_seals (sh_file s).

Lemma grown_becomes s m s' m' : shm_ok s m → grown s m s' m' → becomes s m (contents s) s'.
Proof.
  intros Hok Hg. exists m'. split; [apply Hg|]. split; [apply Hg|]. split; [by eapply grown_contents|by eapply grown_size].
Qed.

Lemma becomes_refl s m : shm_ok s m → becomes s m (contents s) s.
Proof. intros Hok. by exists m. Qed.

(** A new size within the pages. *)
Lemma resize_ok s m n :
  shm_ok s m → 0 <= n <= 4096 * Z.of_nat (length (pages_of s)) → n <= u64_max → shm_ok (set_shm_state (mkShmState n (pages_of s)) s) m.
Proof. intros [] Hn Hx. by split. Qed.

Lemma spliced_pages s off data s' : spliced s off data s' → pages_of s' = pages_of s ∧ size_of s' = size_of s.
Proof. intros (Hf & _). unfold pages_of, size_of. by rewrite Hf. Qed.

Lemma finish_becomes s m s' m' n bs :
  shm_ok s' m' → m ⊆ m' → shm_seals (sh_file s') = shm_seals (sh_file s) → 0 <= n <= 4096 * Z.of_nat (length (pages_of s')) →
  n <= u64_max → take (Z.to_nat n) (all_bytes s') = bs → becomes s m bs (set_shm_state (mkShmState n (pages_of s')) s').
Proof. intros Hok Hm Hs Hn Hx <-. exists m'. split; [by apply resize_ok|done]. Qed.

Lemma state_eta s : set_shm_state (mkShmState (size_of s) (pages_of s)) s = s.
Proof. by destruct s as [[[]]]. Qed.

(** The seals permit an end at [new]. *)
Definition grow_allowed s (new : Z) : Prop := size_of s < new → Z.land (shm_seals (sh_file s)) F_SEAL_GROW = 0.
Definition shrink_allowed s (new : Z) : Prop := new < size_of s → Z.land (shm_seals (sh_file s)) F_SEAL_SHRINK = 0.
Definition write_allowed s : Prop := Z.land (shm_seals (sh_file s)) (Z.lor F_SEAL_WRITE F_SEAL_FUTURE_WRITE) = 0.

Lemma check_grow s new : 
  wp_res (ensure_grow_allowed new (size_of s)) s (λ _ s', s' = s ∧ grow_allowed s new) (λ _ s', s' = s).
Proof. unfold ensure_grow_allowed, seals. wp_run. destruct (decide _); wp_run; [done|]. split; [done|]. intros H. apply dec_stable. tauto. Qed.

Lemma check_shrink s new :
  wp_res (ensure_shrink_allowed new (size_of s)) s (λ _ s', s' = s ∧ shrink_allowed s new) (λ _ s', s' = s).
Proof. unfold ensure_shrink_allowed, seals. wp_run. destruct (decide _); wp_run; [done|]. split; [done|]. intros H. apply dec_stable. tauto. Qed.

Lemma check_write s : wp_res ensure_write_allowed s (λ _ s', s' = s ∧ write_allowed s) (λ _ s', s' = s).
Proof. unfold ensure_write_allowed, seals. wp_run. destruct (decide _); wp_run; [done|]. split; [done|]. by apply dec_stable. Qed.

Lemma shm_write_rule s m off buf :
  shm_ok s m → 0 <= off →
  wp_res (shm_write off buf) s
    (λ n s', n = Z.of_nat (length buf) ∧ write_allowed s ∧ grow_allowed s (off + Z.of_nat (length buf)) ∧
       becomes s m (written (Z.to_nat off) buf (contents s)) s')
    (λ _ s', becomes s m (contents s) s').
Proof.
  intros Hok Ho. pose proof (so_size _ _ Hok) as Hsz. pose proof (length_all_bytes _ _ Hok) as Hla. unfold shm_write. wp_step.
  eapply wp_res_mono; [apply check_write|..]; cbv beta; [|intros _ s' ->; by apply becomes_refl]. intros _ s' [-> Hw].
  unfold get_state. wp_run. apply wp_res_ok_or; [|intros _; by apply becomes_refl]. intros e He. unfold checked_add in He.
  case_bool_decide; simplify_eq. wp_run. fold (size_of s).
  eapply wp_res_mono; [apply check_grow|..]; cbv beta; [|intros _ s' ->; by apply becomes_refl]. intros _ s' [-> Hgr]. wp_run.
  eapply wp_res_mono; [apply (ensure_capacity_rule s m); done|..]; cbv beta; [|intros _ s' (m' & Hg); by eapply grown_becomes].
  intros _ s1 (m1 & Hg & Hcap). pose proof Hg as (_ & (nz & Hb1) & Hok1 & _). destruct (grown_size _ _ _ _ Hg) as [Hs1 _]. wp_step.
  pose proof (length_all_bytes _ _ Hok1) as Hla1. rewrite Hb1, length_app, length_replicate in Hla1.
  eapply (wp_res_mono _ _ (λ _ s2, spliced s1 (Z.to_nat (size_of s)) (replicate (Z.to_nat off - Z.to_nat (size_of s)) 0) s2) _ (λ _ _, False));
    [|cbv beta|done].
  { destruct (decide _).
    - replace (_ - _)%nat with (Z.to_nat (off - size_of s)) by lia. apply (zero_range_rule s1 m1); [done|lia|lia].
    - wp_run. replace (_ - _)%nat with 0%nat by lia. apply spliced_nil. }
  intros _ s2 Hs2. destruct (spliced_pages _ _ _ _ Hs2) as [Hp2 Hz2]. pose proof Hs2 as (Hf2 & _ & Hb2 & Ho2). wp_step. unfold copy_in.
  eapply wp_res_mono; [apply (copy_in_rule _ s2 m1); [by apply Ho2|done|done|rewrite Hp2; lia]|cbv beta|done].
  intros _ s3 Hs3. destruct (spliced_pages _ _ _ _ Hs3) as [Hp3 Hz3]. wp_step.
  assert (becomes s m (written (Z.to_nat off) buf (contents s))
    (set_shm_state (mkShmState (size_of s `max` (off + Z.of_nat (length buf))) (pages_of s3)) s3)) as Hfin.
  { pose proof Hs3 as (Hf3 & _ & Hb3 & Ho3). apply (finish_becomes s m s3 m1); [by apply Ho3, Ho2|apply Hg| |rewrite Hp3, Hp2; lia|pose proof (so_max _ _ Hok); lia|].
    - rewrite Hf3, Hf2. by eapply grown_size.
    - rewrite Hb3. unfold contents.
      replace (Z.to_nat (_ `max` _)) with (Z.to_nat (size_of s) `max` (Z.to_nat off + length buf))%nat by lia.
      apply (written_bytes _ _ _ (replicate nz 0)); [lia|rewrite length_replicate; lia|by rewrite length_replicate|].
      rewrite Hb2, Hb1. case_decide; [done|]. replace (_ - _)%nat with 0%nat by lia. by rewrite splice_nil. }
  destruct (decide _) as [Hlt|Hge]; wp_run; (split; [done|]; split; [done|]; split; [done|]).
  - rewrite Z.max_r in Hfin by lia. exact Hfin.
  - rewrite Z.max_l in Hfin by lia. rewrite <-(state_eta s3), Hz3, Hz2, Hs1. exact Hfin.
Qed.

(** Growing to [n]: the pages, then the zeros. *)
Lemma grow_to_rule s m n :
  shm_ok s m → size_of s <= n <= u64_max →
  wp_res (_ ← ensure_capacity n; zero_range (size_of s) n) s
    (λ _ s', becomes s m (resize (Z.to_nat n) 0 (contents s)) (set_shm_state (mkShmState n (pages_of s')) s'))
    (λ _ s', becomes s m (contents s) s').
Proof.
  intros Hok Hn. pose proof (so_size _ _ Hok) as Hsz. pose proof (length_all_bytes _ _ Hok) as Hla. wp_step.
  eapply wp_res_mono; [apply (ensure_capacity_rule s m); done|..]; cbv beta; [|intros _ s' (m' & Hg); by eapply grown_becomes].
  intros _ s1 (m1 & Hg & Hcap). pose proof Hg as (_ & (nz & Hb1) & Hok1 & _).
  pose proof (length_all_bytes _ _ Hok1) as Hla1. rewrite Hb1, length_app, length_replicate in Hla1.
  eapply wp_res_mono; [apply (zero_range_rule s1 m1); [done|lia|lia]|cbv beta|done].
  intros _ s2 Hs2. destruct (spliced_pages _ _ _ _ Hs2) as [Hp2 _]. destruct Hs2 as (Hf2 & _ & Hb2 & Ho2).
  apply (finish_becomes s m s2 m1); [by apply Ho2|apply Hg| |rewrite Hp2; lia|lia|].
  - rewrite Hf2. by eapply grown_size.
  - rewrite Hb2, Hb1. unfold contents. replace (Z.to_nat (n - size_of s)) with (Z.to_nat n - Z.to_nat (size_of s))%nat by lia.
    apply resized_bytes; [lia|lia|rewrite length_replicate; lia].
Qed.

Lemma shm_truncate_rule s m n :
  shm_ok s m → in_u64 n →
  wp_res (shm_truncate n) s
    (λ _ s', grow_allowed s n ∧ shrink_allowed s n ∧ becomes s m (resize (Z.to_nat n) 0 (contents s)) s')
    (λ _ s', becomes s m (contents s) s').
Proof.
  intros Hok [Hn Hnx]. pose proof (so_size _ _ Hok) as Hsz. pose proof (length_all_bytes _ _ Hok) as Hla. unfold shm_truncate, get_state. wp_run.
  fold (size_of s). eapply wp_res_mono; [apply check_grow|..]; cbv beta; [|intros _ s' ->; by apply becomes_refl]. intros _ s' [-> Hgr]. wp_run.
  eapply wp_res_mono; [apply check_shrink|..]; cbv beta; [|intros _ s' ->; by apply becomes_refl]. intros _ s' [-> Hsh]. wp_step.
  destruct (decide (size_of s < n)) as [Hlt|Hge].
  - eapply wp_res_mono; [apply (grow_to_rule s m); [done|lia]|..]; cbv beta; [|done]. intros _ s' Hb. unfold put_state. wp_run. done.
  - eapply wp_res_mono; [apply (zero_range_rule s m); [done|lia|lia]|cbv beta|done]. intros _ s' Hs. unfold put_state. wp_run.
    split; [done|]. split; [done|]. destruct (spliced_pages _ _ _ _ Hs) as [Hp _]. destruct Hs as (Hf & _ & Hb & Ho).
    apply (finish_becomes s m s' m); [by apply Ho|done|by rewrite Hf|rewrite Hp; lia|done|].
    rewrite Hb. unfold contents. replace (Z.to_nat (size_of s - n)) with (Z.to_nat (size_of s) - Z.to_nat n)%nat by lia. apply shrunk_bytes; lia.
Qed.

(** The contents after [fallocate]. *)
Definition allocated_bytes (mode e : Z) (bs : list Z) : list Z :=
  if decide (Z.land mode FALLOC_FL_KEEP_SIZE = 0 ∧ Z.of_nat (length bs) < e) then resize (Z.to_nat e) 0 bs else bs.

Lemma shm_fallocate_rule s m mode off len :
  shm_ok s m → 0 <= off → 0 <= len →
  wp_res (shm_fallocate mode off len) s
    (λ _ s', grow_allowed s (off + len) ∧ becomes s m (allocated_bytes mode (off + len) (contents s)) s')
    (λ _ s', becomes s m (contents s) s').
Proof.
  intros Hok Ho Hl. pose proof (so_size _ _ Hok) as Hsz. unfold shm_fallocate. destruct (decide _); [wp_run; by apply becomes_refl|].
  wp_step. apply wp_res_ok_or; [|intros _; by apply becomes_refl]. intros e He. unfold checked_add in He. case_bool_decide; simplify_eq.
  unfold get_state. wp_run. fold (size_of s). eapply wp_res_mono; [apply check_grow|..]; cbv beta; [|intros _ s' ->; by apply becomes_refl].
  intros _ s' [-> Hgr]. unfold allocated_bytes. rewrite (length_contents _ _ Hok), Z2Nat.id by lia.
  destruct (decide (_ ∧ _)) as [[_ Hlt]|_].
  - pose proof (grow_to_rule s m (off + len) Hok ltac:(lia)) as Hgt. revert Hgt. unfold wp_res, wp, mbind, M_bind.
    destruct (ensure_capacity (off + len) s) as [[] s1]; simpl; try done.
    destruct (zero_range (size_of s) (off + len) s1) as [[] s2]; simpl; done.
  - wp_step. eapply wp_res_mono; [apply (ensure_capacity_rule s m); done|..]; cbv beta.
    + intros _ s' (m' & Hg & _). wp_run. split; [done|]. by eapply grown_becomes.
    + intros _ s' (m' & Hg). by eapply grown_becomes.
Qed.

Lemma shm_read_rule s m off n :
  shm_ok s m → in_u64 off → 0 <= n →
  wp_res (shm_read off n) s (λ r s', s' = s ∧ r = take (Z.to_nat n) (drop (Z.to_nat off) (contents s))) (λ _ _, False).
Proof.
  intros Hok [Ho Ho'] Hn. pose proof (so_size _ _ Hok) as Hsz. pose proof (length_contents _ _ Hok) as Hlc.
  pose proof (so_max _ _ Hok) as Hmax. unfold shm_read, copy_out, get_state. wp_run. fold (size_of s).
  destruct (decide _) as [Hge|Hlt]; wp_run.
  - split; [done|]. rewrite drop_ge by lia. by rewrite take_nil.
  - unfold saturating_add. set (e := _ `min` size_of s). assert (e = (off + n) `min` size_of s) as He by (unfold e; lia). clearbody e.
    eapply wp_res_mono; [apply (copy_out_rule _ s m); [done|lia..]|cbv beta|done]. intros r s' [-> ->]. split; [done|]. rewrite app_nil_l.
    unfold contents. rewrite !take_drop_commute, take_take. do 2 f_equal. lia.
Qed.

#[export] Instance shm_is_byte_file : ByteFile (shm St) shm_rep.
Proof.
  split.
  - intros s bs [[m Hok] <-]. rewrite (length_contents _ _ Hok). pose proof (so_size _ _ Hok). simpl. fold (size_of s). lia.
  - intros s bs off n [[m Hok] <-] Ho [Hn _]. by apply (shm_read_rule s m).
  - intros s bs off buf [[m Hok] <-] [Ho _] He. eapply wp_res_mono; [by apply (shm_write_rule s m)|..]; cbv beta.
    + intros n s' (-> & _ & _ & m' & Hok' & _ & Hc & _). split; [done|]. split; [by exists m'|done].
    + intros _ s' (m' & Hok' & _ & Hc & _). split; [by exists m'|done].
  - intros s bs n [[m Hok] <-] Hn. eapply wp_res_mono; [apply (shm_truncate_rule s m); [done|]|..]; cbv beta.
    + split; [lia|]. unfold isize_max, u64_max in *. lia.
    + intros _ s' (_ & _ & m' & Hok' & _ & Hc & _). split; [by exists m'|done].
    + intros _ s' (m' & Hok' & _ & Hc & _). split; [by exists m'|done].
Qed.

(** Dropping one reference of each frame of the list. *)
Fixpoint unref_all (l : list PhysFrame) m : frame_map :=
  match l with
  | [] => m
  | f :: rest =>
      let a := addr_u64 (frame_start f) / 4096 in
      unref_all rest (match m !! a with Some (len, rc) => unref m a len rc | None => m end)
  end.

Lemma release_pages_rule l : ∀ s m,
  rep (sh_frames s) m → NoDup l → (∀ f, f ∈ l → ∃ a rc, f = frame_of a ∧ m !! a = Some (round 1, rc)) →
  wp_res (release_pages l) s (λ _ s', rep (sh_frames s') (unref_all l m)) (λ _ _, False).
Proof.
  induction l as [|f l IH]; intros s m Hr Hnd Ho; cbn [release_pages]; [wp_run; done|]. apply NoDup_cons in Hnd as [Hf Hnd].
  destruct (Ho f (list_elem_of_here _ _)) as (a & rc & -> & Ha). pose proof (fas_release _ _ (frame_of a) 1 Hr) as Hrel.
  unfold wp_res at 1, wp. unfold wp_res, wp in Hrel. cbn [unref_all frame_of frame_start addr_u64].
  destruct (frame_of_number a) as [-> _]. rewrite Ha.
  destruct (fa_release (frame_of a) 1 (sh_frames s)) as [[r|e| |] st']; cbn [fst snd] in *; [|exfalso|done|done].
  - destruct Hrel as (a' & rc' & Heq & Ha' & _ & Hr'). assert (a' = a) as -> by (injection Heq; lia).
    rewrite Ha in Ha'. simplify_eq. apply (IH (set_shm_frames st' s)); [done|done|].
    intros g Hg. destruct (Ho g (list_elem_of_further _ _ _ Hg)) as (b & rcb & -> & Hb). exists b, rcb. split; [done|].
    assert (a ≠ b) by (intros ->; done). unfold unref. case_decide; [by rewrite lookup_delete_ne|by rewrite lookup_insert_ne].
  - destruct Hrel as [_ Hno]. by apply (Hno a rc).
Qed.

(** ** Seals *)

Inductive shm_op :=
| OpRead (off n : Z)
| OpWrite (off : Z) (buf : list Z)
| OpTruncate (n : Z)
| OpFallocate (mode off len : Z)
| OpSeal (new : Z)
| OpMmap (rq : MmapRequest).

(** The arguments are machine integers. *)
Definition op_ok (op : shm_op) : Prop :=
  match op with
  | OpRead off n => in_u64 off ∧ in_u64 n
  | OpWrite off _ => in_u64 off
  | OpTruncate n => in_u64 n
  | OpFallocate _ off len => in_u64 off ∧ in_u64 len
  | OpSeal _ => True
  | OpMmap rq => in_u64 (rq_offset rq) ∧ in_u64 (rq_length rq)
  end.

Definition shm_exec (op : shm_op) : MM (St := St) unit :=
  match op with
  | OpRead off n => _ ← shm_read off n; mret ()
  | OpWrite off buf => _ ← shm_write off buf; mret ()
  | OpTruncate n => shm_truncate n
  | OpFallocate mode off len => shm_fallocate mode off len
  | OpSeal new => add_seals new
  | OpMmap rq => _ ← shm_mmap rq; mret ()
  end.

(** A sequence of calls, each whatever its result. *)
Fixpoint shm_execs (ops : list shm_op) s : shm St :=
  match ops with
  | [] => s
  | op :: rest => shm_execs rest (shm_exec op s).2
  end.

Definition sealed s : Prop :=
  Z.land (shm_seals (sh_file s)) (Z.lor F_SEAL_WRITE F_SEAL_FUTURE_WRITE) ≠ 0 ∧
  Z.land (shm_seals (sh_file s)) F_SEAL_GROW ≠ 0 ∧ Z.land (shm_seals (sh_file s)) F_SEAL_SHRINK ≠ 0.

(** The same contents, with at least the same seals. *)
Definition kept s s' : Prop :=
  contents s' = contents s ∧ ∀ bits, Z.land (shm_seals (sh_file s)) bits ≠ 0 → Z.land (shm_seals (sh_file s')) bits ≠ 0.

Lemma becomes_kept s m s' : becomes s m (contents s) s' → (∃ m', shm_ok s' m') ∧ kept s s'.
Proof. intros (m' & Hok & _ & Hc & Hs). split; [by exists m'|]. split; [done|]. by rewrite Hs. Qed.

Lemma add_seals_rule s m new :
  shm_ok s m →
  wp_res (add_seals new) s (λ _ s', shm_ok s' m ∧ kept s s' ∧ shm_seals (sh_file s') = Z.lor (shm_seals (sh_file s)) new) (λ _ s', s' = s).
Proof.
  intros Hok. unfold add_seals, seals. destruct (decide _); [by wp_run|]. wp_run. destruct (negb _); [by wp_run|]. wp_run.
  destruct (decide _); [by wp_run|]. wp_run. split; [destruct Hok; by split|]. split; [|done]. split; [done|].
  intros bits Hne. simpl. rewrite Z.land_lor_distr_l. intros [? _]%Z.lor_eq_0_iff. done.
Qed.

Lemma shared_pages_rule s off len :
  wp_res (shared_pages off len) s
    (λ r s', s' = s ∧ r = (λ f, addr_u64 (start_address f)) <$>
       take (Z.to_nat (div_ceil (saturating_add u64_max (off mod PAGE_SIZE) len) PAGE_SIZE)) (drop (Z.to_nat (off / PAGE_SIZE)) (pages_of s)))
    (λ _ s', s' = s).
Proof.
  unfold shared_pages, get_state. wp_run. apply wp_res_ok_or; [|done]. intros e _. by destruct (decide _); wp_run.
Qed.

Lemma mmap_rule s rq :
  wp_res (shm_mmap rq) s
    (λ r s', s' = s ∧ r = (λ f, addr_u64 (start_address f)) <$>
       take (Z.to_nat (div_ceil (saturating_add u64_max (rq_offset rq mod PAGE_SIZE) (rq_length rq)) PAGE_SIZE))
         (drop (Z.to_nat (rq_offset rq / PAGE_SIZE)) (pages_of s)))
    (λ _ s', s' = s).
Proof.
  unfold shm_mmap, ensure_exec_allowed, seals. destruct (decide _); [by wp_run|]. wp_run. destruct (decide _); [by wp_run|]. wp_run.
  destruct (decide _); [by wp_run|]. apply shared_pages_rule.
Qed.

Definition stays s s' : Prop := (∃ m, shm_ok s' m) ∧ kept s s'.

Lemma stays_refl s m : shm_ok s m → stays s s.
Proof. intros Hok. by split; [exists m|]. Qed.

Lemma exec_sealed s m op :
  shm_ok s m → op_ok op → sealed s → wp_res (shm_exec op) s (λ _ s', stays s s') (λ _ s', stays s s').
Proof.
  intros Hok Hop (Hw & Hg & Hsh). pose proof (length_contents _ _ Hok) as Hlc. pose proof (so_size _ _ Hok) as Hsz.
  destruct op as [off n|off buf|n|mode off len|new|rq]; cbn [shm_exec op_ok] in *.
  - wp_run. eapply wp_res_mono; [apply (shm_read_rule s m); [done|apply Hop|apply Hop]|cbv beta|done].
    intros r s' [-> _]. wp_run. by eapply stays_refl.
  - wp_run. eapply wp_res_mono; [apply (shm_write_rule s m); [done|apply Hop]|..]; cbv beta.
    + by intros n s' (_ & ? & _).
    + intros _ s' Hb. by eapply becomes_kept.
  - eapply wp_res_mono; [by apply (shm_truncate_rule s m)|..]; cbv beta.
    + intros _ s' (Hga & Hsa & Hb). apply (becomes_kept s m).
      assert (size_of s = n) as <- by (destruct (Z.lt_trichotomy (size_of s) n) as [?|[?|?]]; [by destruct Hg; apply Hga|done|by destruct Hsh; apply Hsa]).
      by rewrite resize_all_alt in Hb by done.
    + intros _ s' Hb. by eapply becomes_kept.
  - eapply wp_res_mono; [apply (shm_fallocate_rule s m); [done|apply Hop|apply Hop]|..]; cbv beta.
    + intros _ s' (Hga & Hb). apply (becomes_kept s m). unfold allocated_bytes in Hb. rewrite decide_False in Hb; [done|].
      intros [_ Hlt]. destruct Hg. apply Hga. lia.
    + intros _ s' Hb. by eapply becomes_kept.
  - eapply wp_res_mono; [by apply (add_seals_rule s m)|..]; cbv beta.
    + intros _ s' (Hok' & Hk & _). split; [by exists m|done].
    + intros _ s' ->. by eapply stays_refl.
  - wp_run. eapply wp_res_mono; [apply mmap_rule|..]; cbv beta.
    + intros r s' [-> _]. wp_run. by eapply stays_refl.
    + intros _ s' ->. by eapply stays_refl.
Qed.

(** C34. The calls on a memory file respect its seals: from a well-formed
    file with the seals against writing (now or in future), growing and
    shrinking, after any sequence of calls of its file operations (read, write,
    truncate, fallocate, adding seals, mmap, with machine integers as
    arguments, each whatever its result) the contents are what they were and
    every seal that was set is still set; and a further call neither panics nor
    fails to return.  What programs store through pages that [mmap] has handed
    out is not a call on the file; [mmap] hands out writable shared pages of a
    sealed file, so the contents can change that way
    ([mapping_escapes_seal]). *)
Theorem sealed_file_immutable s m ops op :
  shm_ok s m → sealed s → Forall op_ok ops → op_ok op →
  contents (shm_execs ops s) = contents s ∧
  (∀ bits, Z.land (shm_seals (sh_file s)) bits ≠ 0 → Z.land (shm_seals (sh_file (shm_execs ops s))) bits ≠ 0) ∧
  wp_res (shm_exec op) (shm_execs ops s) (λ _ _, True) (λ _ _, True).
Proof.
  intros Hok Hs Hops Hop. revert s m Hok Hs. induction Hops as [|op' ops Hop' Hops IH]; intros s m Hok Hs; cbn [shm_execs].
  - split; [done|]. split; [done|]. by eapply wp_res_mono; [apply (exec_sealed s m)|..].
  - pose proof (exec_sealed s m op' Hok Hop' Hs) as Hst. assert (stays s (shm_exec op' s).2) as [[m' Hok'] [Hc Hk]].
    { revert Hst. unfold wp_res, wp. by destruct (shm_exec op' s) as [[]]. }
    destruct (IH _ m' Hok') as (Hc' & Hs' & Hr); [destruct Hs as (? & ? & ?); by split_and!; apply Hk|].
    split; [congruence|]. split; [auto|done].
Qed.

(** A file of shared pages is a vector of bytes.  Reads return its bytes up to
    the end; a write replaces the bytes at the offset, with zeros in a gap; a
    truncation cuts or extends with zeros; a call that fails (a seal, an
    overflow, no frame) leaves the contents as they were.  The pages that a
    mapping gets are those of the range.  Blocks of other owners stay allocated,
    and dropping the file gives back exactly one reference to each page. *)
Theorem shared_memory_file_correct s m :
  shm_ok s m →
  (∀ off n, in_u64 off → in_u64 n →
     wp_res (shm_read off n) s (λ r s', s' = s ∧ r = take (Z.to_nat n) (drop (Z.to_nat off) (contents s))) (λ _ _, False)) ∧
  (∀ off buf, in_u64 off →
     wp_res (shm_write off buf) s
       (λ n s', n = Z.of_nat (length buf) ∧ becomes s m (written (Z.to_nat off) buf (contents s)) s')
       (λ _ s', becomes s m (contents s) s')) ∧
  (∀ n, in_u64 n →
     wp_res (shm_truncate n) s (λ _ s', becomes s m (resize (Z.to_nat n) 0 (contents s)) s') (λ _ s', becomes s m (contents s) s')) ∧
  (∀ mode off len, in_u64 off → in_u64 len →
     wp_res (shm_fallocate mode off len) s
       (λ _ s', becomes s m (allocated_bytes mode (off + len) (contents s)) s') (λ _ s', becomes s m (contents s) s')) ∧
  (∀ rq, wp_res (shm_mmap rq) s
     (λ r s', s' = s ∧ r = (λ f, addr_u64 (start_address f)) <$>
        take (Z.to_nat (div_ceil (saturating_add u64_max (rq_offset rq mod PAGE_SIZE) (rq_length rq)) PAGE_SIZE))
          (drop (Z.to_nat (rq_offset rq / PAGE_SIZE)) (pages_of s)))
     (λ _ s', s' = s)) ∧
  wp_res shm_drop s (λ _ s', rep (sh_frames s') (unref_all (pages_of s) m)) (λ _ _, False).
Proof.
  intros Hok. split_and!.
  - intros off n Ho [Hn _]. by apply (shm_read_rule s m).
  - intros off buf [Ho _]. eapply wp_res_mono; [by apply (shm_write_rule s m)|naive_solver|naive_solver].
  - intros n Hn. eapply wp_res_mono; [by apply (shm_truncate_rule s m)|naive_solver|naive_solver].
  - intros mode off len [Ho _] [Hl _]. eapply wp_res_mono; [by apply (shm_fallocate_rule s m)|naive_solver|naive_solver].
  - intros rq. apply mmap_rule.
  - unfold shm_drop, get_state, put_state. wp_run.
    eapply wp_res_mono; [apply (release_pages_rule _ _ m); [apply Hok|apply Hok|apply Hok]|cbv beta|done]. done.
Qed.
End shared.

(** ** Witnesses: a file over the buddy allocator *)

Section witness.
#[local] Instance mem_frames : FrameAllocator BuddyAllocator := buddy_allocator 0 false.

Definition mem_start : shm BuddyAllocator := mkShmWorld (new_memfd (mkMemfd true false)) demo (λ _, []).

Lemma mem_start_ok : ∃ c,
  FrameAllocatorSpec BuddyAllocator (buddy_rep c) (covered (c_ranges c)) block_round ∧
  shm_ok (rep := buddy_rep c) (round := block_round) mem_start ∅.
Proof.
  destruct demo_spec as (c & Hrep & _ & _ & Hspec). exists c. split; [exact Hspec|].
  split; change (pages_of mem_start) with (@nil PhysFrame); change (size_of mem_start) with 0.
  - exact Hrep.
  - constructor.
  - by intros f ?%elem_of_nil.
  - by intros f ?%elem_of_nil.
  - simpl. lia.
  - unfold u64_max. lia.
Qed.

Lemma shared_memory_file_correct_witness :
  (shm_read 0 10 (shm_write 3 [7; 8] mem_start).2).1 = Ok [0; 0; 0; 7; 8].
Proof.
  destruct mem_start_ok as (c & Hspec & Hok).
  destruct (shared_memory_file_correct mem_start ∅ Hok) as (_ & Hw & _).
  specialize (Hw 3 [7; 8] ltac:(by vm_compute)). unfold wp_res, wp in Hw.
  assert ((shm_write 3 [7; 8] mem_start).1 = Ok 2) as E by (vm_compute; reflexivity). revert Hw E.
  destruct (shm_write 3 [7; 8] mem_start) as [r1 s1]. cbn [fst snd]. intros Hw ->.
  destruct Hw as (_ & m' & Hok' & _ & Hc & _). destruct (shared_memory_file_correct s1 m' Hok') as (Hr & _).
  specialize (Hr 0 10 ltac:(by vm_compute) ltac:(by vm_compute)). rewrite Hc in Hr. unfold wp_res, wp in Hr.
  destruct (shm_read 0 10 s1) as [[r|e| |] s']; cbn [fst snd] in *; [|done..]. destruct Hr as [_ ->]. vm_compute. reflexivity.
Defined.

Definition mem_sealed : shm BuddyAllocator :=
  shm_execs [OpWrite 0 [1; 2; 3]; OpSeal (F_SEAL_WRITE + F_SEAL_GROW + F_SEAL_SHRINK)] mem_start.

(** A mapping of the sealed file hands out its page, and a store through it
    changes the contents. *)
Lemma mapping_escapes_seal :
  ∃ frame, pages_of mem_sealed = [frame] ∧
    (shm_mmap (mkMmapRequest 0 4096 3 1) mem_sealed).1 = Ok [addr_u64 (start_address frame)] ∧
    contents (set_shm_bytes frame (9 :: drop 1 (sh_bytes mem_sealed frame)) mem_sealed) = [9; 2; 3].
Proof. eexists. split; [vm_compute; reflexivity|]. split; vm_compute; reflexivity. Qed.

Lemma sealed_file_immutable_witness :
  contents (shm_execs [OpWrite 0 [9]; OpTruncate 0] mem_sealed) = [1; 2; 3].
Proof.
  destruct mem_start_ok as (c & Hspec & Hok).
  assert (∃ m, shm_ok (rep := buddy_rep c) (round := block_round) mem_sealed m) as [m Hm].
  { unfold mem_sealed. cbn [shm_execs shm_exec]. pose proof (shm_write_rule mem_start ∅ 0 [1; 2; 3] Hok ltac:(lia)) as Hw.
    revert Hw. unfold wp_res, wp, mbind, M_bind.
    assert ((shm_write 0 [1; 2; 3] mem_start).1 = Ok 3) as E by (vm_compute; reflexivity). revert E.
    destruct (shm_write 0 [1; 2; 3] mem_start) as [r1 s1]. cbn [fst snd]. intros -> (_ & _ & _ & m & Hok1 & _). exists m. cbn [mret M_ret snd].
    pose proof (add_seals_rule s1 m (F_SEAL_WRITE + F_SEAL_GROW + F_SEAL_SHRINK) Hok1) as Hs. unfold wp_res, wp in Hs.
    destruct (add_seals (F_SEAL_WRITE + F_SEAL_GROW + F_SEAL_SHRINK) s1) as [[] s2]; cbn [fst snd] in *;
      [apply Hs|subst; exact Hok1|done|done]. }
  destruct (sealed_file_immutable mem_sealed m [OpWrite 0 [9]; OpTruncate 0] (OpTruncate 1) Hm) as [-> _].
  - split_and!; by vm_compute.
  - repeat constructor; by vm_compute.
  - by vm_compute.
  - vm_compute. reflexivity.
Defined.
End witness.
