(* ===== verification/PageCache.v ===== *)
(** * The page cache

    Models [aether-kernel/libs/aether-vfs/src/page_cache.rs].  The state is the
    global cache together with what its pages live in: the frame allocator (any
    one with the interface of [FrameApi]) and the bytes of each frame.  A file
    is the trait object the cache reads from: [file_read offset n] is what
    [FileOperations::read] returns for a buffer of [n] bytes, and
    [page_cache_enabled].  Bytes read into a buffer are returned.  The
    [BTreeMap] of pages is a [gmap]; the only operation that depends on its
    order, the choice of a page to evict, compares keys explicitly.  The cache
    lock is released between two steps of [read]; the model runs one call. *)

From S2P Require Import Prelude Frame Poll.

Definition PAGE_CACHE_MAX_PAGES : Z := 8192.
Definition PAGE_PREFETCH_LIMIT : Z := 16.

Record CachedFileId := mkFileId {
  device_id : Z;
  inode : Z;
}.
#[global] Instance CachedFileId_eq_dec : EqDecision CachedFileId.
Proof. solve_decision. Defined.
#[global] Instance CachedFileId_countable : Countable CachedFileId.
Proof.
  refine (inj_countable' (λ i, (device_id i, inode i)) (λ '(d, i), mkFileId d i) _). by intros [].
Defined.

Record PageCacheKey := mkKey {
  key_file : CachedFileId;
  page_index : Z;
}.
#[global] Instance PageCacheKey_eq_dec : EqDecision PageCacheKey.
Proof. solve_decision. Defined.
#[global] Instance PageCacheKey_countable : Countable PageCacheKey.
Proof.
  refine (inj_countable' (λ k, (key_file k, page_index k)) (λ '(f, p), mkKey f p) _). by intros [].
Defined.

Record CachedPage := mkPage {
  cp_frame : PhysFrame;
  cp_len : Z;
  cp_last_access : Z;
}.

Inductive FileAdvice := AdviceNormal | AdviceRandom | AdviceSequential | WillNeed | DontNeed | NoReuse.

(** The trait object: its identity ([NodeMetadata]) and its operations. *)
Record File := mkFile {
  file_id : CachedFileId;
  page_cache_enabled : bool;
  file_read : Z → Z → outcome FsError (list Z);
}.

Record world (St : Type) := mkWorld {
  pages : gmap PageCacheKey CachedPage;
  access_epoch : Z;
  wframes : St;
  bytes_of : PhysFrame → list Z;
}.
Arguments mkWorld {St}.
Arguments pages {St}.
Arguments access_epoch {St}.
Arguments wframes {St}.
Arguments bytes_of {St}.

(** The order of the derived [Ord] on keys. *)
Definition key_lt (a b : PageCacheKey) : bool :=
  let '(mkKey (mkFileId d i) p) := a in let '(mkKey (mkFileId d' i') p') := b in
  (d <? d') || ((d =? d') && ((i <? i') || ((i =? i') && (p <? p')))).

(** [iter().min_by_key(|(_, page)| page.last_access)]: the first of the pages
    with the least access time. *)
Definition older (a b : PageCacheKey * CachedPage) : bool :=
  (cp_last_access a.2 <? cp_last_access b.2) ||
  ((cp_last_access a.2 =? cp_last_access b.2) && key_lt a.1 b.1).

Definition oldest (l : list (PageCacheKey * CachedPage)) : option (PageCacheKey * CachedPage) :=
  foldr (λ e acc, match acc with
                  | None => Some e
                  | Some b => if older e b then Some e else Some b
                  end) None l.

Section cache.
Context {St : Type} {F : FrameAllocator St}.

Definition MC := M (world St) FsError.

Definition set_pages (m : gmap PageCacheKey CachedPage) (σ : world St) : world St :=
  mkWorld m (access_epoch σ) (wframes σ) (bytes_of σ).
Definition set_epoch (e : Z) (σ : world St) : world St := mkWorld (pages σ) e (wframes σ) (bytes_of σ).
Definition set_wframes (st : St) (σ : world St) : world St :=
  mkWorld (pages σ) (access_epoch σ) st (bytes_of σ).
Definition set_bytes_of (f : PhysFrame) (bs : list Z) (σ : world St) : world St :=
  mkWorld (pages σ) (access_epoch σ) (wframes σ) (λ g, if decide (g = f) then bs else bytes_of σ g).

(** [release_frames]: the result is dropped. *)
Definition release_frames (frame : PhysFrame) (count : Z) : MC unit := λ σ,
  match fa_release frame count (wframes σ) with
  | (Panic, st) => (Panic, set_wframes st σ)
  | (Diverge, st) => (Diverge, set_wframes st σ)
  | (_, st) => (Ok (), set_wframes st σ)
  end.

(** [frame_allocator().lock().alloc(1).ok()] *)
Definition alloc_frame : MC (option PhysFrame) := λ σ,
  match fa_alloc 1 (wframes σ) with
  | (Ok f, st) => (Ok (Some f), set_wframes st σ)
  | (Err _, st) => (Ok None, set_wframes st σ)
  | (Panic, st) => (Panic, set_wframes st σ)
  | (Diverge, st) => (Diverge, set_wframes st σ)
  end.

Definition PageCacheState_new (st : St) (w : PhysFrame → list Z) : world St := mkWorld ∅ 1 st w.

Definition next_access : MC Z :=
  σ ← mget;
  _ ← mput (set_epoch (saturating_add u64_max (access_epoch σ) 1) σ);
  mret (access_epoch σ).

Definition cached_page (key : PageCacheKey) : MC (option CachedPage) :=
  access ← next_access;
  σ ← mget;
  match pages σ !! key with
  | None => mret None
  | Some page =>
      let page := mkPage (cp_frame page) (cp_len page) access in
      _ ← mput (set_pages (<[key := page]> (pages σ)) σ);
      mret (Some page)
  end.

(** The bytes copied into the buffer of [n] bytes, and whether the page is short. *)
Definition copy_cached (key : PageCacheKey) (page_offset n : Z) : MC (option (list Z * bool)) :=
  found ← cached_page key;
  match found with
  | None => mret None
  | Some page =>
      if decide (cp_len page <= page_offset) then mret (Some ([], true))
      else
        let chunk := n `min` (cp_len page - page_offset) in
        σ ← mget;
        mret (Some (take (Z.to_nat chunk) (drop (Z.to_nat page_offset) (bytes_of σ (cp_frame page))),
                    bool_decide (cp_len page < PAGE_SIZE)))
  end.

Definition evict_one : MC bool :=
  σ ← mget;
  match oldest (map_to_list (pages σ)) with
  | None => mret false
  | Some (oldest_key, oldest_page) =>
      _ ← mput (set_pages (delete oldest_key (pages σ)) σ);
      _ ← release_frames (cp_frame oldest_page) 1;
      mret true
  end.

(** [while self.entries.len() >= PAGE_CACHE_MAX_PAGES]: every round removes a
    page. *)
Fixpoint evict_loop (fuel : nat) : MC unit :=
  σ ← mget;
  if decide (PAGE_CACHE_MAX_PAGES <= Z.of_nat (size (pages σ))) then
    match fuel with
    | O => mdiverge
    | S fuel' =>
        evicted ← evict_one;
        if (evicted : bool) then evict_loop fuel' else mret ()
    end
  else mret ().

Definition insert_page (key : PageCacheKey) (frame : PhysFrame) (len : Z) : MC CachedPage :=
  access ← next_access;
  σ ← mget;
  match pages σ !! key with
  | Some existing =>
      let existing := mkPage (cp_frame existing) (cp_len existing) access in
      _ ← mput (set_pages (<[key := existing]> (pages σ)) σ);
      mret existing
  | None =>
      _ ← evict_loop (size (pages σ));
      let page := mkPage frame len access in
      _ ← mmodify (λ σ, set_pages (<[key := page]> (pages σ)) σ);
      mret page
  end.

(** [while read < buffer.len()] of [load_page]: the bytes read so far.  A read
    of nothing ends the loop, so every round reads a byte. *)
Fixpoint load_loop (fuel : nat) (file : File) (index : Z) (acc : list Z)
    : outcome FsError (list Z) :=
  if decide (Z.of_nat (length acc) < PAGE_SIZE) then
    match fuel with
    | O => Diverge
    | S fuel' =>
        let offset := index * PAGE_SIZE + Z.of_nat (length acc) in
        if decide (u64_max < offset) then Panic
        else
          match file_read file offset (PAGE_SIZE - Z.of_nat (length acc)) with
          | Ok [] => Ok acc
          | Ok chunk => load_loop fuel' file index (acc ++ chunk)
          | Err error => Err error
          | Panic => Panic
          | Diverge => Diverge
          end
    end
  else Ok acc.

(** The page after the bytes [bs] have been read into the zeroed frame (the
    contents of a frame that is given back are not followed). *)
Definition fill (bs : list Z) : list Z := bs ++ replicate (Z.to_nat PAGE_SIZE - length bs) 0.

Definition load_page (file : File) (key : PageCacheKey) : MC (option CachedPage) :=
  frame ← alloc_frame;
  match frame with
  | None => mret None
  | Some frame =>
      _ ← mmodify (set_bytes_of frame (fill []));
      match load_loop (Z.to_nat PAGE_SIZE) file (page_index key) [] with
      | Err error => _ ← release_frames frame 1; mthrow error
      | Ok bs =>
          _ ← mmodify (set_bytes_of frame (fill bs));
          if decide (bs = []) then
            _ ← release_frames frame 1;
            mret None
          else
            inserted ← insert_page key frame (Z.of_nat (length bs));
            _ ← (if decide (cp_frame inserted ≠ frame) then release_frames frame 1 else mret ());
            mret (Some inserted)
      | Panic => mpanic
      | Diverge => mdiverge
      end
  end.

Definition cacheable_file_id (file : File) : option CachedFileId :=
  if page_cache_enabled file then Some (file_id file) else None.

(** [while copied < buffer.len()] of [read]: a round copies, or loads the page
    that the next round copies from. *)
Fixpoint read_loop (fuel : nat) (file : File) (id : CachedFileId) (offset n : Z) (acc : list Z)
    : MC (list Z) :=
  let copied := Z.of_nat (length acc) in
  if decide (copied < n) then
    match fuel with
    | O => mdiverge
    | S fuel' =>
        absolute ← mok_or (checked_add u64_max offset copied) InvalidInput;
        let key := mkKey id (absolute / PAGE_SIZE) in
        hit ← copy_cached key (absolute mod PAGE_SIZE) (n - copied);
        match hit with
        | Some (chunk, short_page) =>
            if decide (chunk = []) then mret acc
            else if (short_page : bool) then mret (acc ++ chunk)
            else read_loop fuel' file id offset n (acc ++ chunk)
        | None =>
            loaded ← load_page file key;
            match loaded with
            | None => mret acc
            | Some _ => read_loop fuel' file id offset n acc
            end
        end
    end
  else mret acc.

Definition read (file : File) (offset n : Z) : MC (list Z) :=
  match cacheable_file_id file with
  | None =>
      match file_read file offset n with
      | Ok bs => mret bs
      | Err e => mthrow e
      | Panic => mpanic
      | Diverge => mdiverge
      end
  | Some id =>
      if decide (n = 0) then mret []
      else read_loop (2 * Z.to_nat n + 1) file id offset n []
  end.

(** [entries.retain(..)] with the frames of the dropped pages released. *)
Fixpoint release_all (l : list (PageCacheKey * CachedPage)) : MC unit :=
  match l with
  | [] => mret ()
  | (_, page) :: rest => _ ← release_frames (cp_frame page) 1; release_all rest
  end.

Definition drop_pages (P : PageCacheKey → bool) : MC unit :=
  σ ← mget;
  let dropped := filter (λ e : PageCacheKey * CachedPage, P e.1 = true) (pages σ) in
  _ ← mput (set_pages (filter (λ e : PageCacheKey * CachedPage, P e.1 = false) (pages σ)) σ);
  release_all (map_to_list dropped).

Definition in_file_range (id : CachedFileId) (start_page end_page : Z) (key : PageCacheKey) : bool :=
  bool_decide (key_file key = id) && (start_page <=? page_index key) && (page_index key <=? end_page).

Definition invalidate_file_range (id : CachedFileId) (offset len : Z) : MC unit :=
  if decide (len = 0) then mret ()
  else
    let start_page := offset / PAGE_SIZE in
    let end_page := saturating_add u64_max offset (saturating_sub len 1) / PAGE_SIZE in
    drop_pages (in_file_range id start_page end_page).

Definition invalidate_write (file : File) (offset len : Z) : MC unit :=
  match cacheable_file_id file with
  | None => mret ()
  | Some id => invalidate_file_range id offset len
  end.

Definition invalidate_all_pages (file : File) : MC unit :=
  match cacheable_file_id file with
  | None => mret ()
  | Some id => drop_pages (λ key, bool_decide (key_file key = id))
  end.

Definition div_ceil (a b : Z) : Z := (a + b - 1) / b.

(** [for page in 0..page_count]; the result of [load_page] is dropped. *)
Fixpoint prefetch_loop (l : list nat) (file : File) (id : CachedFileId) (first_page : Z) : MC unit :=
  match l with
  | [] => mret ()
  | page :: rest =>
      let key := mkKey id (first_page + Z.of_nat page) in
      σ ← mget;
      _ ← (match pages σ !! key with
           | Some _ => mret ()
           | None => λ σ, match load_page file key σ with
                          | (Panic, σ') => (Panic, σ')
                          | (Diverge, σ') => (Diverge, σ')
                          | (_, σ') => (Ok (), σ')
                          end
           end : MC unit);
      prefetch_loop rest file id first_page
  end.

Definition prefetch_range (file : File) (id : CachedFileId) (offset len : Z) : MC unit :=
  if decide (len = 0) then mret ()
  else
    let first_page := offset / PAGE_SIZE in
    let page_count := div_ceil len PAGE_SIZE `min` PAGE_PREFETCH_LIMIT in
    prefetch_loop (seq 0 (Z.to_nat page_count)) file id first_page.

Definition handle_advice (file : File) (offset len : Z) (advice : FileAdvice) : MC unit :=
  match cacheable_file_id file with
  | None => mret ()
  | Some id =>
      match advice with
      | DontNeed => invalidate_file_range id offset len
      | WillNeed => prefetch_range file id offset len
      | _ => mret ()
      end
  end.

(** [reclaim_page_cache]; [locked] is whether another CPU holds the lock. *)
Definition reclaim_page_cache (locked : bool) : MC Z :=
  if locked then mret 0
  else
    σ ← mget;
    _ ← mput (set_epoch 1 (set_pages ∅ σ));
    _ ← release_all (map_to_list (pages σ));
    mret (Z.of_nat (size (pages σ))).
End cache.
