(* ===== verification/PageCacheTheorems.v ===== *)
(** * Correctness of the page cache

    Every page of the cache owns one frame, all other allocated blocks are left
    alone, and a read through the cache returns the bytes of the file. *)

From S2P Require Import Prelude Frame RangeList Buddy BuddyInv BuddySpec BuddyTheorems Poll MapperTheorems PageCache.

Section proof.
Context {St : Type} `{!FrameAllocator St} {rep : St → frame_map → Prop} {usable : Z → Prop} {round : Z → Z}.
Context `{!FrameAllocatorSpec St rep usable round}.
Implicit Types (σ : world St) (m base : frame_map) (k : PageCacheKey).

(** ** The invariant *)

(** The blocks of the allocator are those of [base], which the cache does not
    own, and one frame for every cached page. *)
Record cache_inv (σ : world St) (base m : frame_map) : Prop := {
  ci_rep : rep (wframes σ) m;
  ci_base : base ⊆ m;
  ci_frame k pg : pages σ !! k = Some pg →
    ∃ s, cp_frame pg = frame_of s ∧ m !! s = Some (round 1, 1) ∧ base !! s = None;
  ci_inj k k' pg pg' : pages σ !! k = Some pg → pages σ !! k' = Some pg' →
    cp_frame pg = cp_frame pg' → k = k';
  ci_exact s x : m !! s = Some x →
    base !! s = Some x ∨ ∃ k pg, pages σ !! k = Some pg ∧ cp_frame pg = frame_of s;
  ci_len k pg : pages σ !! k = Some pg →
    0 < cp_len pg <= 4096 ∧ length (bytes_of σ (cp_frame pg)) = 4096%nat;
  ci_size : Z.of_nat (size (pages σ)) <= PAGE_CACHE_MAX_PAGES;
}.

Definition cache_ok σ base : Prop := ∃ m, cache_inv σ base m.

(** The bytes that the cache holds for a page. *)
Definition page_data (σ : world St) (k : PageCacheKey) : option (list Z) :=
  (λ pg, take (Z.to_nat (cp_len pg)) (bytes_of σ (cp_frame pg))) <$> pages σ !! k.

(** No page was added or changed. *)
Definition forgets (σ σ' : world St) : Prop :=
  ∀ k d, page_data σ' k = Some d → page_data σ k = Some d.

Lemma frame_of_inj' s s' : frame_of s = frame_of s' → s = s'.
Proof. intros H. injection H. lia. Qed.

Lemma forgets_refl σ : forgets σ σ.
Proof. by intros k d. Qed.
Lemma forgets_trans σ1 σ2 σ3 : forgets σ1 σ2 → forgets σ2 σ3 → forgets σ1 σ3.
Proof. intros H1 H2 k d Hd. by apply H1, H2. Qed.

(** ** Moves of the invariant *)

Lemma inv_epoch σ base m e : cache_inv σ base m → cache_inv (set_epoch e σ) base m.
Proof. intros []. by split. Qed.

(** A new access time. *)
Lemma inv_touch σ base m k pg a :
  cache_inv σ base m → pages σ !! k = Some pg →
  cache_inv (set_pages (<[k := mkPage (cp_frame pg) (cp_len pg) a]> (pages σ)) σ) base m.
Proof.
  intros Hok Hk.
  assert (∀ k' pg', <[k := mkPage (cp_frame pg) (cp_len pg) a]> (pages σ) !! k' = Some pg' →
    ∃ pg0, pages σ !! k' = Some pg0 ∧ cp_frame pg0 = cp_frame pg' ∧ cp_len pg0 = cp_len pg') as Hold.
  { intros k' pg' [[-> <-]|[_ ?]]%lookup_insert_Some; [by exists pg|by exists pg']. }
  split; simpl.
  - apply Hok.
  - apply Hok.
  - intros k' pg' (pg0 & H0 & <- & _)%Hold. by eapply (ci_frame _ _ _ Hok).
  - intros k1 k2 p1 p2 (q1 & H1 & <- & _)%Hold (q2 & H2 & <- & _)%Hold. by eapply (ci_inj _ _ _ Hok).
  - intros s x Hs. destruct (ci_exact _ _ _ Hok s x Hs) as [?|(k' & pg' & Hk' & Hf)]; [by left|]. right.
    destruct (decide (k' = k)) as [->|Hne].
    + exists k. eexists. rewrite lookup_insert_eq. split; [done|]. simpl. congruence.
    + exists k', pg'. by rewrite lookup_insert_ne.
  - intros k' pg' (pg0 & H0 & <- & <-)%Hold. by eapply (ci_len _ _ _ Hok).
  - rewrite map_size_insert_Some by (by eexists). apply Hok.
Qed.

Lemma touch_data σ k pg a :
  pages σ !! k = Some pg →
  ∀ k', page_data (set_pages (<[k := mkPage (cp_frame pg) (cp_len pg) a]> (pages σ)) σ) k' = page_data σ k'.
Proof.
  intros Hk k'. unfold page_data. simpl. destruct (decide (k' = k)) as [->|Hne].
  - by rewrite lookup_insert_eq, Hk.
  - by rewrite lookup_insert_ne.
Qed.

(** A page leaves the cache; its frame is in the hands of the caller. *)
Lemma inv_remove σ base m k pg s :
  cache_inv σ base m → pages σ !! k = Some pg → cp_frame pg = frame_of s →
  cache_inv (set_pages (delete k (pages σ)) σ) (<[s := (round 1, 1)]> base) m.
Proof.
  intros Hok Hk Hs. destruct (ci_frame _ _ _ Hok k pg Hk) as (s' & Hs' & Hm & Hb).
  rewrite Hs in Hs'. apply frame_of_inj' in Hs' as <-.
  split; simpl.
  - apply Hok.
  - apply map_subseteq_spec. intros s' x [[<- <-]|[_ Hx]]%lookup_insert_Some; [done|].
    eapply lookup_weaken; [done|apply Hok].
  - intros k' pg' [Hne Hk']%lookup_delete_Some. destruct (ci_frame _ _ _ Hok k' pg' Hk') as (s' & Hf & Hm' & Hb').
    exists s'. do 2 (split; [done|]). rewrite lookup_insert_ne; [done|]. intros ->.
    apply Hne. eapply (ci_inj _ _ _ Hok k k' pg pg'); [done|done|congruence].
  - intros k1 k2 p1 p2 [_ H1]%lookup_delete_Some [_ H2]%lookup_delete_Some. by eapply (ci_inj _ _ _ Hok).
  - intros s' x Hs'. destruct (decide (s' = s)) as [->|Hne].
    + left. rewrite lookup_insert_eq. congruence.
    + rewrite lookup_insert_ne by done.
      destruct (ci_exact _ _ _ Hok s' x Hs') as [?|(k' & pg' & Hk' & Hf)]; [by left|]. right. exists k', pg'.
      split; [|done]. rewrite lookup_delete_ne; [done|]. intros ->. simplify_eq. rewrite Hs in Hf.
      by apply frame_of_inj' in Hf.
  - intros k' pg' [_ Hk']%lookup_delete_Some. by eapply (ci_len _ _ _ Hok).
  - rewrite map_size_delete_Some by (by eexists). pose proof (ci_size _ _ _ Hok). lia.
Qed.

Lemma remove_forgets σ k : forgets σ (set_pages (delete k (pages σ)) σ).
Proof.
  intros k' d. unfold page_data. simpl. destruct (decide (k' = k)) as [->|].
  - by rewrite lookup_delete_eq.
  - by rewrite lookup_delete_ne.
Qed.

(** A frame in the hands of the caller becomes a page. *)
Lemma inv_add σ base m k s len a :
  cache_inv σ (<[s := (round 1, 1)]> base) m → base !! s = None → pages σ !! k = None →
  Z.of_nat (size (pages σ)) < PAGE_CACHE_MAX_PAGES → 0 < len <= 4096 →
  length (bytes_of σ (frame_of s)) = 4096%nat →
  cache_inv (set_pages (<[k := mkPage (frame_of s) len a]> (pages σ)) σ) base m.
Proof.
  intros Hok Hb Hk Hsz Hlen Hbytes.
  assert (m !! s = Some (round 1, 1)) as Hm.
  { eapply lookup_weaken; [|apply Hok]. by rewrite lookup_insert_eq. }
  assert (∀ k' pg', pages σ !! k' = Some pg' → cp_frame pg' ≠ frame_of s) as Hfresh.
  { intros k' pg' Hk' Hf. destruct (ci_frame _ _ _ Hok k' pg' Hk') as (s' & Hs' & _ & Hb').
    rewrite Hf in Hs'. apply frame_of_inj' in Hs' as <-. by rewrite lookup_insert_eq in Hb'. }
  split; simpl.
  - apply Hok.
  - etrans; [|apply Hok]. by apply insert_subseteq.
  - intros k' pg' [[-> <-]|[_ Hk']]%lookup_insert_Some; [by exists s|].
    destruct (ci_frame _ _ _ Hok k' pg' Hk') as (s' & Hf & Hm' & [? ?]%lookup_insert_None). by exists s'.
  - intros k1 k2 p1 p2 [[-> <-]|[_ H1]]%lookup_insert_Some [[-> <-]|[_ H2]]%lookup_insert_Some Hf; simpl in *.
    + done.
    + by destruct (Hfresh _ _ H2).
    + by destruct (Hfresh _ _ H1).
    + by eapply (ci_inj _ _ _ Hok).
  - intros s' x Hs'. destruct (ci_exact _ _ _ Hok s' x Hs') as [[[<- <-]|[_ ?]]%lookup_insert_Some|(k' & pg' & Hk' & Hf)].
    + right. exists k. eexists. rewrite lookup_insert_eq. done.
    + by left.
    + right. exists k', pg'. rewrite lookup_insert_ne; [done|congruence].
  - intros k' pg' [[-> <-]|[_ Hk']]%lookup_insert_Some; [done|]. by eapply (ci_len _ _ _ Hok).
  - rewrite map_size_insert_None by done. lia.
Qed.

(** The bytes of a frame that the caller holds. *)
Lemma inv_bytes σ base m s bs :
  cache_inv σ base m → is_Some (base !! s) →
  cache_inv (set_bytes_of (frame_of s) bs σ) base m ∧
  ∀ k, page_data (set_bytes_of (frame_of s) bs σ) k = page_data σ k.
Proof.
  intros Hok [x Hx].
  assert (∀ k pg, pages σ !! k = Some pg → cp_frame pg ≠ frame_of s) as Hfresh.
  { intros k pg Hk Hf. destruct (ci_frame _ _ _ Hok k pg Hk) as (s' & Hs' & _ & Hb').
    rewrite Hf in Hs'. apply frame_of_inj' in Hs' as <-. congruence. }
  split.
  - destruct Hok. split; simpl; try done. intros k pg Hk. rewrite decide_False by (by eapply Hfresh). eauto.
  - intros k. unfold page_data. simpl. destruct (pages σ !! k) as [pg|] eqn:Hk; simpl; [|done].
    by rewrite decide_False by (by eapply Hfresh).
Qed.

(** A frame leaves the allocator. *)
Lemma inv_alloc σ base m s st :
  cache_inv σ base m → m !! s = None → rep st (<[s := (round 1, 1)]> m) →
  cache_inv (set_wframes st σ) (<[s := (round 1, 1)]> base) (<[s := (round 1, 1)]> m) ∧ base !! s = None.
Proof.
  intros Hok Hm Hrep.
  assert (base !! s = None) as Hb by (eapply lookup_weaken_None; [done|apply Hok]).
  split; [|done]. destruct Hok as [_ Hsub Hframe Hinj Hex Hlen Hsz]. split; simpl; try done.
  - by apply insert_mono.
  - intros k pg Hk. destruct (Hframe k pg Hk) as (s' & Hf & Hm' & Hb'). exists s'.
    assert (s ≠ s') by congruence. by rewrite !lookup_insert_ne.
  - intros s' x [[<- <-]|[Hne Hs']]%lookup_insert_Some; [left; by rewrite lookup_insert_eq|].
    rewrite lookup_insert_ne by done. eauto.
Qed.

(** A frame in the hands of the caller goes back. *)
Lemma inv_release σ base m s st :
  cache_inv σ (<[s := (round 1, 1)]> base) m → base !! s = None → rep st (delete s m) →
  cache_inv (set_wframes st σ) base (delete s m).
Proof.
  intros [_ Hsub Hframe Hinj Hex Hlen Hsz] Hb Hrep. split; simpl; try done.
  - apply map_subseteq_spec. intros s' x Hs'. assert (s ≠ s') by congruence.
    rewrite lookup_delete_ne by done. eapply lookup_weaken; [|done]. by rewrite lookup_insert_ne.
  - intros k pg Hk. destruct (Hframe k pg Hk) as (s' & Hf & Hm' & [? ?]%lookup_insert_None).
    exists s'. by rewrite lookup_delete_ne.
  - intros s' x [Hne Hs']%lookup_delete_Some. destruct (Hex s' x Hs') as [[[<- _]|[_ ?]]%lookup_insert_Some|?]; auto.
    done.
Qed.

(** ** Frames in flight *)

(** The pages and the bytes are the same. *)
Definition same_pages (σ σ' : world St) : Prop := pages σ' = pages σ ∧ bytes_of σ' = bytes_of σ.

Lemma same_pages_data σ σ' k : same_pages σ σ' → page_data σ' k = page_data σ k.
Proof. unfold page_data. by intros [-> ->]. Qed.

Lemma cache_alloc_frame_spec σ base :
  cache_ok σ base →
  wp_res alloc_frame σ
    (λ r σ', same_pages σ σ' ∧
       match r with
       | Some f => ∃ s, f = frame_of s ∧ base !! s = None ∧ cache_ok σ' (<[s := (round 1, 1)]> base)
       | None => cache_ok σ' base ∧ ∃ st m e, cache_inv (set_wframes st σ') base m ∧ fa_alloc 1 st = (Err e, wframes σ')
       end)
    (λ _ _, False).
Proof.
  intros [m Hok]. pose proof (fas_alloc _ _ 1 (ci_rep _ _ _ Hok)) as Ha. revert Ha.
  unfold wp_res, wp, alloc_frame. destruct (fa_alloc 1 (wframes σ)) as [[f|e| |] st] eqn:Ha; simpl; [| |done|done].
  - intros (s & -> & _ & Hm & Hrep). split; [done|]. exists s.
    destruct (inv_alloc _ _ _ _ _ Hok Hm Hrep) as [? ?]. split; [done|]. split; [done|]. by eexists.
  - intros Hrep. split; [done|]. split.
    + exists m. destruct Hok. by split.
    + exists (wframes σ), m, e. split; [|done]. by destruct σ.
Qed.

Lemma release_frames_spec σ base s :
  cache_ok σ (<[s := (round 1, 1)]> base) → base !! s = None →
  wp_res (release_frames (frame_of s) 1) σ
    (λ _ σ', same_pages σ σ' ∧ cache_ok σ' base) (λ _ _, False).
Proof.
  intros [m Hok] Hb.
  assert (m !! s = Some (round 1, 1)) as Hm.
  { eapply lookup_weaken; [|apply Hok]. by rewrite lookup_insert_eq. }
  pose proof (fas_release _ _ (frame_of s) 1 (ci_rep _ _ _ Hok)) as Hr. revert Hr.
  unfold wp_res, wp, release_frames. destruct (fa_release (frame_of s) 1 (wframes σ)) as [[r|e| |] st]; simpl; [| |done|done].
  - intros (s' & rc & Hs' & Hm' & _ & Hrep). apply frame_of_inj' in Hs' as <-.
    assert (rc = 1) as -> by congruence. unfold unref in Hrep. rewrite decide_True in Hrep by done.
    split; [done|]. eexists. by eapply inv_release.
  - intros [_ Hno]. destruct (Hno s 1); done.
Qed.

(** ** Eviction *)

Lemma oldest_spec l e :
  oldest l = Some e → e ∈ l ∧ ∀ e', e' ∈ l → cp_last_access e.2 <= cp_last_access e'.2.
Proof.
  revert e. induction l as [|a l IH]; intros e; simpl; [done|].
  destruct (oldest l) as [b|] eqn:Hl.
  - specialize (IH b eq_refl) as [Hb Hmin]. unfold older. intros He. split.
    + case_match; simplify_eq; set_solver.
    + intros e' [->|He']%elem_of_cons; [|specialize (Hmin e' He')];
        destruct (cp_last_access a.2 <? cp_last_access b.2) eqn:H1;
        destruct (cp_last_access a.2 =? cp_last_access b.2) eqn:H2; simpl in He;
        try case_match; simplify_eq; lia.
  - intros [= <-]. split; [set_solver|]. intros e' [->|He']%elem_of_cons; [lia|].
    destruct l as [|b l]; [set_solver|]. simpl in Hl. repeat case_match; done.
Qed.

Lemma oldest_None l : oldest l = None → l = [].
Proof. destruct l; [done|]. simpl. by repeat case_match. Qed.

(** The page that was not used for the longest time leaves. *)
Lemma evict_one_spec σ base :
  cache_ok σ base →
  wp_res evict_one σ
    (λ b σ', cache_ok σ' base ∧ bytes_of σ' = bytes_of σ ∧
       match b with
       | true => ∃ k pg, pages σ !! k = Some pg ∧ pages σ' = delete k (pages σ) ∧
                   ∀ k' pg', pages σ !! k' = Some pg' → cp_last_access pg <= cp_last_access pg'
       | false => pages σ = ∅ ∧ pages σ' = ∅
       end)
    (λ _ _, False).
Proof.
  intros Hok. unfold evict_one. wp_step. wp_step.
  destruct (oldest _) as [[k pg]|] eqn:Ho.
  - apply oldest_spec in Ho as [Hin Hmin]. apply elem_of_map_to_list in Hin.
    destruct Hok as [m Hok]. destruct (ci_frame _ _ _ Hok k pg Hin) as (s & Hs & _ & Hb).
    wp_step. wp_step. wp_step. rewrite Hs.
    eapply wp_res_mono; [apply release_frames_spec; [eexists; by eapply inv_remove|done]| |done].
    intros [] σ' [[Hp Hby] Hok']. wp_step. simpl in *. split; [done|]. split; [done|]. exists k, pg.
    split; [done|]. split; [done|]. intros k' pg' Hk'. apply (Hmin (k', pg')). by apply elem_of_map_to_list.
  - apply oldest_None in Ho. wp_step. assert (pages σ = ∅) by by apply map_to_list_empty_iff. done.
Qed.

Lemma delete_forgets σ σ' k :
  pages σ' = delete k (pages σ) → bytes_of σ' = bytes_of σ → forgets σ σ'.
Proof.
  intros Hp Hb k' d. unfold page_data. rewrite Hp, Hb.
  destruct (decide (k' = k)) as [->|]; [by rewrite lookup_delete_eq|by rewrite lookup_delete_ne].
Qed.

Lemma evict_loop_spec fuel σ base :
  cache_ok σ base → (size (pages σ) <= fuel)%nat →
  wp_res (evict_loop fuel) σ
    (λ _ σ', cache_ok σ' base ∧ bytes_of σ' = bytes_of σ ∧ pages σ' ⊆ pages σ ∧
             Z.of_nat (size (pages σ')) < PAGE_CACHE_MAX_PAGES)
    (λ _ _, False).
Proof.
  revert σ. induction fuel as [|fuel IH]; intros σ Hok Hfuel; simpl; do 2 wp_step.
  - assert (Z.of_nat (size (pages σ)) < PAGE_CACHE_MAX_PAGES) by (unfold PAGE_CACHE_MAX_PAGES; lia).
    rewrite decide_False by lia. apply wp_res_ret. done.
  - case_decide as Hsz; [|apply wp_res_ret; repeat split; try done; lia].
    wp_step. eapply wp_res_mono; [by apply evict_one_spec| |done].
    intros [] σ1 (Hok1 & Hb1 & H1).
    + destruct H1 as (k & pg & Hk & Hp & _).
      eapply wp_res_mono; [apply IH; [done|]| |done].
      * rewrite Hp, map_size_delete_Some by (by eexists). lia.
      * intros [] σ2 (? & ? & ? & ?). split; [done|]. split; [congruence|]. split; [|done].
        etrans; [done|]. rewrite Hp. apply delete_subseteq.
    + destruct H1 as [H1 H1']. rewrite H1, map_size_empty in Hsz. unfold PAGE_CACHE_MAX_PAGES in Hsz. lia.
Qed.

Lemma subseteq_forgets σ σ' : pages σ' ⊆ pages σ → bytes_of σ' = bytes_of σ → forgets σ σ'.
Proof.
  intros Hp Hb k d. unfold page_data. rewrite Hb. intros (pg & Hk & ->)%fmap_Some.
  by rewrite (lookup_weaken _ _ _ _ Hk Hp).
Qed.

(** ** Insertion *)

Lemma cache_ok_epoch σ base e : cache_ok σ base → cache_ok (set_epoch e σ) base.
Proof. intros [m ?]. exists m. by apply inv_epoch. Qed.

(** The frame becomes the page, unless the key is already cached: then the
    caller keeps the frame. *)
Lemma insert_page_spec σ base k s len :
  cache_ok σ (<[s := (round 1, 1)]> base) → base !! s = None → 0 < len <= 4096 →
  length (bytes_of σ (frame_of s)) = 4096%nat →
  wp_res (insert_page k (frame_of s) len) σ
    (λ pg σ', is_Some (pages σ' !! k) ∧
       if decide (cp_frame pg = frame_of s) then
         cache_ok σ' base ∧
         page_data σ' k = Some (take (Z.to_nat len) (bytes_of σ (frame_of s))) ∧
         ∀ k' d, k' ≠ k → page_data σ' k' = Some d → page_data σ k' = Some d
       else cache_ok σ' (<[s := (round 1, 1)]> base) ∧ forgets σ σ')
    (λ _ _, False).
Proof.
  intros Hok Hb Hlen Hbytes. unfold insert_page, next_access.
  do 6 wp_step. wp_step. wp_step. destruct (pages _ !! k) as [pg|] eqn:Hk; simpl in Hk.
  - destruct Hok as [m Hok]. do 3 wp_step. simpl.
    split; [rewrite lookup_insert_eq; by eexists|].
    destruct (ci_frame _ _ _ Hok k pg Hk) as (s' & Hs' & _ & [Hne ?]%lookup_insert_None).
    rewrite decide_False by (rewrite Hs'; intros ->%frame_of_inj'; done). split.
    + exists m. apply (inv_touch (set_epoch _ σ)); [by apply inv_epoch|done].
    + intros k' d. unfold page_data. simpl. destruct (decide (k' = k)) as [->|].
      * by rewrite lookup_insert_eq, Hk.
      * by rewrite lookup_insert_ne.
  - wp_step. eapply wp_res_mono; [apply (evict_loop_spec _ _ _ (cache_ok_epoch _ _ _ Hok)); simpl; lia| |done].
    intros [] σ1 ([m1 Hok1] & Hb1 & Hp1 & Hs1). simpl in Hb1, Hp1.
    assert (pages σ1 !! k = None) as Hk1 by (eapply lookup_weaken_None; done).
    do 3 wp_step. simpl. split; [rewrite lookup_insert_eq; by eexists|].
    rewrite decide_True by done. split; [|split].
    + exists m1. apply inv_add; [done..|by rewrite Hb1].
    + unfold page_data. simpl. rewrite lookup_insert_eq. simpl. by rewrite Hb1.
    + intros k' d Hne. unfold page_data. simpl. rewrite lookup_insert_ne by done. rewrite Hb1.
      intros (pg & Hpg & ->)%fmap_Some. by rewrite (lookup_weaken _ _ _ _ Hpg Hp1).
Qed.

(** ** Coherence *)

(** The bytes of page [p] of a file with the given content. *)
Definition page_of (content : list Z) (p : Z) : list Z :=
  take 4096 (drop (Z.to_nat (p * 4096)) content).

(** Every cached page holds the bytes of its file. *)
Definition coherent (contents : CachedFileId → list Z) (σ : world St) : Prop :=
  ∀ id p d, page_data σ (mkKey id p) = Some d → 0 <= p ∧ d = page_of (contents id) p.

Lemma coherent_forgets contents σ σ' : coherent contents σ → forgets σ σ' → coherent contents σ'.
Proof. intros Hc Hf id p d Hd. by apply Hc, Hf. Qed.

Lemma coherent_same contents σ σ' : coherent contents σ → same_pages σ σ' → coherent contents σ'.
Proof. intros Hc Hs id p d. rewrite (same_pages_data _ _ _ Hs). apply Hc. Qed.
End proof.

(** What the cache relies on in [FileOperations::read]: a read of at least one
    byte returns at most that many bytes of the content at the offset, and
    nothing only at the end of the file; or it fails. *)
Record file_ok (file : File) (content : list Z) : Prop := {
  fo_size : Z.of_nat (length content) <= u64_max;
  fo_read offset n : 0 <= offset → 0 < n →
    match file_read file offset n with
    | Ok bs => Z.of_nat (length bs) <= n ∧
               bs = take (length bs) (drop (Z.to_nat offset) content) ∧
               (bs = [] → Z.of_nat (length content) <= offset)
    | Err _ => True
    | _ => False
    end;
}.

Definition file_fails (file : File) (e : FsError) : Prop :=
  ∃ offset n, file_read file offset n = Err e.

(** The bytes [a] are those of [l] from position [o] on. *)
Definition at_pos (l : list Z) (o : nat) (a : list Z) : Prop := a = take (length a) (drop o l).

Lemma at_pos_app l o a b : at_pos l o a → at_pos l (o + length a) b → at_pos l o (a ++ b).
Proof.
  unfold at_pos. intros Ha Hb. rewrite Ha at 1. rewrite Hb at 1.
  rewrite <-drop_drop, take_take_drop, length_app. done.
Qed.

Lemma at_pos_end l o a : at_pos l o a → (length l <= o + length a)%nat → a = drop o l.
Proof. unfold at_pos. intros Ha Hl. rewrite Ha. apply take_ge. rewrite length_drop. lia. Qed.

Lemma at_pos_take l o n : at_pos l o (take n (drop o l)).
Proof. unfold at_pos. rewrite length_take. rewrite <-take_take. f_equal. symmetry. by apply take_ge. Qed.

Lemma at_pos_prefix l o a n : at_pos l o a → (length a <= n)%nat → a `prefix_of` take n (drop o l).
Proof.
  unfold at_pos. intros Ha Hn. exists (take (n - length a) (drop (length a) (drop o l))).
  trans (take (length a) (drop o l) ++ take (n - length a) (drop (length a) (drop o l))); [|by f_equal].
  rewrite take_take_drop. f_equal. lia.
Qed.

(** [a] reaches the end of [l] or has the [n] bytes that were asked for. *)
Lemma at_pos_eof l o a n :
  at_pos l o a → (length a <= n)%nat → (length l <= o + length a ∨ length a = n)%nat → a = take n (drop o l).
Proof.
  intros Ha Hn [Hl| <-]; [|done]. rewrite (at_pos_end _ _ _ Ha Hl). symmetry. apply take_ge.
  rewrite length_drop. lia.
Qed.

(** A read within a page is a read of the file. *)
Lemma at_pos_page content p off n :
  0 <= p → (off <= 4096)%nat → 
  take n (drop off (page_of content p)) = take (n `min` (4096 - off)) (drop (Z.to_nat (p * 4096) + off) content).
Proof.
  intros Hp Hoff. unfold page_of. rewrite <-drop_drop.
  replace 4096%nat with (off + (4096 - off))%nat at 1 by lia.
  rewrite <-take_drop_commute, take_take. done.
Qed.

(** ** Loading a page *)

Lemma load_loop_spec fuel file content p acc :
  file_ok file content → 0 <= p → p * 4096 <= u64_max - 4095 →
  at_pos content (Z.to_nat (p * 4096)) acc → (length acc <= 4096)%nat → (4096 - length acc <= fuel)%nat →
  match load_loop fuel file p acc with
  | Ok bs => bs = page_of content p
  | Err e => file_fails file e
  | _ => False
  end.
Proof.
  intros Hfile Hp Hmax. revert acc. induction fuel as [|fuel IH]; intros acc Hacc Hlen Hfuel; simpl; change PAGE_SIZE with 4096.
  - rewrite decide_False by lia. rewrite Hacc. unfold page_of. f_equal. lia.
  - case_decide as Hlt; [|rewrite Hacc; unfold page_of; f_equal; lia].
    rewrite decide_False by lia.
    pose proof (fo_read _ _ Hfile (p * 4096 + Z.of_nat (length acc)) (4096 - Z.of_nat (length acc)) ltac:(lia) ltac:(lia)) as Hr.
    destruct (file_read _ _ _) as [bs|e| |] eqn:Hrd; [|by do 2 eexists|done|done].
    destruct Hr as (Hn & Hbs & Hend). destruct bs as [|b bs].
    + specialize (Hend eq_refl). rewrite (at_pos_end _ _ _ Hacc) by lia. unfold page_of. symmetry. apply take_ge.
      rewrite length_drop. lia.
    + remember (b :: bs) as bs'. assert (1 <= length bs')%nat by (subst; simpl; lia).
      apply IH; rewrite ?length_app; [|lia..]. apply at_pos_app; [done|].
      unfold at_pos. rewrite Z2Nat.inj_add, Nat2Z.id in Hbs by lia. done.
Qed.

Lemma length_fill bs : (length bs <= 4096)%nat → length (fill bs) = 4096%nat.
Proof. intros H. unfold fill. change PAGE_SIZE with 4096. rewrite length_app, length_replicate. lia. Qed.

Lemma take_fill bs : take (length bs) (fill bs) = bs.
Proof. unfold fill. apply take_app_length. Qed.

Lemma length_page_of content p : (length (page_of content p) <= 4096)%nat.
Proof. unfold page_of. rewrite length_take. lia. Qed.

Section load.
Context {St : Type} `{!FrameAllocator St} {rep : St → frame_map → Prop} {usable : Z → Prop} {round : Z → Z}.
Context `{!FrameAllocatorSpec St rep usable round}.
Context (contents : CachedFileId → list Z) (base : frame_map).
Implicit Types (σ : world St) (file : File).

(** What holds between two steps. *)
Definition consistent σ : Prop := cache_ok (rep := rep) (round := round) σ base ∧ coherent contents σ.

(** The last thing that happened was an allocation of a frame that failed: the
    allocator is in the state that this allocation left, and when it was made
    the allocated blocks were those of [base] and the frames of exactly the
    pages that are cached. *)
Definition out_of_memory σ : Prop :=
  ∃ (st : St) m e, cache_inv (rep := rep) (round := round) (set_wframes st σ) base m ∧
    fa_alloc 1 st = (Err e, wframes σ).

Lemma cache_give_back σ s :
  cache_ok (rep := rep) (round := round) σ (<[s := (round 1, 1)]> base) → base !! s = None → coherent contents σ →
  wp_res (release_frames (frame_of s) 1) σ (λ _ σ', consistent σ' ∧ pages σ' = pages σ) (λ _ _, False).
Proof.
  intros Hok Hb Hc. eapply wp_res_mono; [by apply release_frames_spec| |done].
  intros [] σ' [Hs Hok']. split; [split; [done|by eapply coherent_same]|apply Hs].
Qed.

Lemma load_page_spec σ file p :
  consistent σ → file_ok file (contents (file_id file)) → 0 <= p → p * 4096 <= u64_max - 4095 →
  wp_res (load_page file (mkKey (file_id file) p)) σ
    (λ r σ', consistent σ' ∧
       match r with
       | Some _ => is_Some (pages σ' !! (mkKey (file_id file) p))
       | None => page_of (contents (file_id file)) p = [] ∨ out_of_memory σ'
       end)
    (λ e σ', consistent σ' ∧ file_fails file e).
Proof.
  intros [Hok Hco] Hfile Hp Hmax. unfold load_page.
  wp_step. eapply wp_res_mono; [by apply cache_alloc_frame_spec| |done].
  intros [f|] σ1 [Hs1 H1].
  2:{ destruct H1 as (Hok1 & Hoom). wp_step. split; [split; [done|by eapply coherent_same]|]. by right. }
  destruct H1 as (s & -> & Hb & [m1 Hok1]).
  assert (is_Some (<[s := (round 1, 1)]> base !! s)) as Hheld by (rewrite lookup_insert_eq; by eexists).
  wp_step. wp_step.
  destruct (inv_bytes _ _ _ s (fill []) Hok1 Hheld) as [Hok2 Hd2].
  assert (coherent contents (set_bytes_of (frame_of s) (fill []) σ1)) as Hco2.
  { intros id q d. rewrite Hd2. by apply (coherent_same _ σ). }
  pose proof (load_loop_spec (Z.to_nat PAGE_SIZE) file _ p [] Hfile Hp Hmax eq_refl) as Hload.
  specialize (Hload ltac:(simpl; lia) ltac:(change PAGE_SIZE with 4096; simpl; lia)). cbn [page_index].
  destruct (load_loop _ _ _ _) as [bs|e| |]; [| |done|done].
  - subst bs. set (bs := page_of _ p). wp_step. wp_step.
    destruct (inv_bytes _ _ _ s (fill bs) Hok2 Hheld) as [Hok3 Hd3].
    set (σ3 := set_bytes_of (frame_of s) (fill bs) _) in *.
    assert (coherent contents σ3) as Hco3.
    { intros id q d. rewrite Hd3. apply Hco2. }
    assert (bytes_of σ3 (frame_of s) = fill bs) as Hby by (simpl; by rewrite decide_True).
    pose proof (length_page_of (contents (file_id file)) p) as Hlen. fold bs in Hlen.
    clearbody σ3. case_decide as Hbs.
    + wp_step. eapply wp_res_mono; [apply cache_give_back; [by eexists|done..]| |by intros ?? []].
      intros [] σ4 [Hok4 _]. wp_step. auto.
    + assert (1 <= length bs)%nat by (destruct bs; [done|simpl; lia]).
      wp_step. eapply wp_res_mono; [apply (insert_page_spec σ3 base); [by eexists|done|lia|by rewrite Hby, length_fill]| |done].
      intros pg σ4 [Hk4 H4]. wp_step. destruct (decide (cp_frame pg = frame_of s)) as [Heq|Hne].
      * rewrite decide_False by tauto. wp_step. wp_step. destruct H4 as (Hok4 & Hd4 & Hd4').
        split; [split; [done|]|done]. intros id q d Hd. destruct (decide (mkKey id q = mkKey (file_id file) p)) as [[= -> ->]|Hne].
        -- split; [done|]. rewrite Hd4, Hby, Nat2Z.id, take_fill in Hd. by injection Hd as <-.
        -- apply Hco3. eauto.
      * rewrite decide_True by done. destruct H4 as [Hok4 Hf4].
        eapply wp_res_mono; [apply cache_give_back; [done..|by eapply coherent_forgets]| |by intros ?? []].
        intros [] σ5 [Hok5 Hp5]. wp_step. split; [done|]. by rewrite Hp5.
  - wp_step. eapply wp_res_mono; [apply cache_give_back; [by eexists|done..]| |by intros ?? []].
    intros [] σ3 [Hok3 _]. wp_step. auto.
Qed.

(** ** Reading *)

Lemma page_data_length σ k pg :
  cache_ok (rep := rep) (round := round) σ base → pages σ !! k = Some pg →
  page_data σ k = Some (take (Z.to_nat (cp_len pg)) (bytes_of σ (cp_frame pg))) ∧
  Z.of_nat (length (take (Z.to_nat (cp_len pg)) (bytes_of σ (cp_frame pg)))) = cp_len pg ∧ 0 < cp_len pg <= 4096.
Proof.
  intros [m Hok] Hk. destruct (ci_len _ _ _ Hok k pg Hk) as [Hlen Hby].
  unfold page_data. rewrite Hk, length_take, Hby. split; [done|]. split; lia.
Qed.

Lemma copy_cached_spec σ id p off n :
  consistent σ → 0 <= off < 4096 → 0 < n →
  wp_res (copy_cached (mkKey id p) off n) σ
    (λ r σ', consistent σ' ∧
       match r with
       | Some (chunk, short) =>
           0 <= p ∧ chunk = take (Z.to_nat n) (drop (Z.to_nat off) (page_of (contents id) p)) ∧
           short = bool_decide (length (page_of (contents id) p) < 4096)%nat
       | None => pages σ !! (mkKey id p) = None
       end)
    (λ _ _, False).
Proof.
  intros [Hok Hco] Hoff Hn. unfold copy_cached, cached_page, next_access.
  repeat wp_step. cbn [pages set_epoch].
  destruct (pages σ !! (mkKey id p)) as [pg|] eqn:Hk.
  2:{ wp_step. wp_step. simpl. split; [|done]. split; [by apply cache_ok_epoch|done]. }
  repeat wp_step. set (σ' := set_pages _ _).
  assert (consistent σ') as Hc'.
  { destruct Hok as [m Hok]. split.
    - exists m. apply (inv_touch (set_epoch _ σ)); [by apply inv_epoch|done].
    - intros id' p' d. unfold σ'. rewrite (touch_data (set_epoch _ σ)) by done. apply Hco. }
  destruct (page_data_length σ _ _ Hok Hk) as (Hd & Hlen & Hpos).
  apply Hco in Hd as [Hp Hd]. rewrite <-Hd in *. simpl.
  case_decide as Hle; wp_step.
  - split; [done|]. split; [done|]. split; [by rewrite drop_ge, take_nil by lia|].
    rewrite bool_decide_eq_true_2; [done|lia].
  - wp_step. wp_step. split; [done|]. split; [done|]. change PAGE_SIZE with 4096. split.
    + rewrite !take_drop_commute, take_take. do 2 f_equal. lia.
    + apply bool_decide_ext. lia.
Qed.

Lemma page_offset o : 0 <= o → 
  0 <= o / 4096 ∧ 0 <= o mod 4096 < 4096 ∧ (Z.to_nat (o / 4096 * 4096) + Z.to_nat (o mod 4096))%nat = Z.to_nat o.
Proof. intros Ho. pose proof (Z.div_mod o 4096). pose proof (Z.mod_pos_bound o 4096). pose proof (Z.div_pos o 4096). lia. Qed.

(** The fuel that is left pays for two rounds per missing byte, and one more
    when the next page is not cached. *)
Definition read_fuel σ id (offset n : Z) (acc : list Z) : nat :=
  2 * (Z.to_nat n - length acc) +
  if decide (pages σ !! mkKey id ((offset + Z.of_nat (length acc)) / 4096) = None) then 1 else 0.

Lemma read_loop_spec fuel σ file offset n acc :
  let content := contents (file_id file) in
  consistent σ → file_ok file content → 0 <= offset <= u64_max → 0 <= n →
  at_pos content (Z.to_nat offset) acc → Z.of_nat (length acc) <= n →
  (read_fuel σ (file_id file) offset n acc <= fuel)%nat →
  wp_res (read_loop fuel file (file_id file) offset n acc) σ
    (λ bs σ', consistent σ' ∧
       (bs = take (Z.to_nat n) (drop (Z.to_nat offset) content) ∨
        bs `prefix_of` take (Z.to_nat n) (drop (Z.to_nat offset) content) ∧ out_of_memory σ'))
    (λ e σ', consistent σ' ∧ file_fails file e).
Proof.
  intros content. revert σ acc. induction fuel as [|fuel IH]; intros σ acc Hc Hfile Hoff Hn Hacc Hlen Hfuel; simpl.
  - unfold read_fuel in Hfuel. rewrite decide_False by lia. wp_step. split; [done|]. left. rewrite Hacc. f_equal. lia.
  - case_decide as Hlt; [|wp_step; split; [done|]; left; rewrite Hacc; f_equal; lia].
    assert (Z.of_nat (length acc) <= Z.of_nat (length content) - offset ∨ acc = []) as Hin.
    { destruct acc; [by right|left]. pose proof (f_equal length Hacc) as Hl.
      rewrite length_take, length_drop in Hl. cbn [length] in *. lia. }
    pose proof (fo_size _ _ Hfile) as Hsize. fold content in Hsize.
    assert (offset + Z.of_nat (length acc) <= u64_max) as Habs by (destruct Hin as [| ->]; cbn [length] in *; lia).
    rewrite checked_add_Some by done. wp_step. wp_step.
    set (abs := offset + Z.of_nat (length acc)) in *. change PAGE_SIZE with 4096.
    destruct (page_offset abs ltac:(lia)) as (Hp & Hpo & Habs').
    assert (Z.to_nat abs = (Z.to_nat offset + length acc)%nat) as Habsn by lia.
    wp_step. eapply wp_res_mono; [apply copy_cached_spec; [done..|lia]| |done].
    assert (∀ σ', consistent σ' → (length content <= Z.to_nat abs)%nat →
      consistent σ' ∧ (acc = take (Z.to_nat n) (drop (Z.to_nat offset) content) ∨
        acc `prefix_of` take (Z.to_nat n) (drop (Z.to_nat offset) content) ∧ out_of_memory σ')) as Heof.
    { intros σ' Hσ' Hend. split; [done|left]. apply at_pos_eof; [done|lia..]. }
    intros [[chunk short]|] σ1 [Hc1 H1].
    + destruct H1 as (_ & Hchunk & Hshort). fold content in Hchunk, Hshort. rewrite at_pos_page in Hchunk by lia. rewrite Habs', Habsn in Hchunk.
      assert (at_pos content (Z.to_nat offset) (acc ++ chunk)) as Hacc'.
      { apply at_pos_app; [done|]. subst chunk. apply at_pos_take. }
      pose proof (f_equal length Hchunk) as Hlc. rewrite length_take, length_drop in Hlc.
      destruct (decide (chunk = [])) as [Hnil|Hnil]; [wp_step; apply Heof; [done|]; rewrite Hnil in Hlc; cbn [length] in Hlc; lia|].
      assert (1 <= length chunk)%nat by (destruct chunk; [done|simpl; lia]).
      subst short. case_bool_decide as Hshort; [wp_step|].
      * split; [done|left]. unfold page_of in Hshort. rewrite length_take, length_drop in Hshort.
        apply at_pos_eof; [done|rewrite length_app; lia..].
      * apply IH; [done..|rewrite length_app; lia|]. unfold read_fuel in *. rewrite length_app.
        repeat case_decide; lia.
    + wp_step. eapply wp_res_mono; [apply load_page_spec; [done..|unfold u64_max in *; lia]| |done].
      intros [pg|] σ2 [Hc2 H2].
      * apply IH; [done..|]. unfold read_fuel in *. fold abs in Hfuel |- *. rewrite decide_True in Hfuel by done.
        destruct H2 as [? H2]. rewrite H2, decide_False by done. lia.
      * wp_step. destruct H2 as [Hpg|Hoom].
        -- apply Heof; [done|]. pose proof (f_equal length Hpg) as Hl. unfold page_of in Hl.
           rewrite length_take, length_drop in Hl. cbn [length] in Hl. fold content in Hl. lia.
        -- split; [done|right]. split; [|done]. apply at_pos_prefix; [done|lia].
Qed.

(** ** Dropping pages *)

Definition frame_no (pg : CachedPage) : Z := addr_u64 (frame_start (cp_frame pg)) / 4096.

Lemma frame_no_of pg s : cp_frame pg = frame_of s → frame_no pg = s.
Proof. unfold frame_no. intros ->. apply frame_of_number. Qed.

(** The frames of the pages [l] are in the hands of the caller. *)
Definition owed (l : list (PageCacheKey * CachedPage)) : frame_map :=
  foldr (λ e b, <[frame_no e.2 := (round 1, 1)]> b) base l.

Fixpoint owed_fresh (l : list (PageCacheKey * CachedPage)) : Prop :=
  match l with
  | [] => True
  | e :: l' => cp_frame e.2 = frame_of (frame_no e.2) ∧ owed l' !! frame_no e.2 = None ∧ owed_fresh l'
  end.

Lemma remove_list σ l :
  cache_ok (rep := rep) (round := round) σ base → NoDup l.*1 → (∀ e, e ∈ l → pages σ !! e.1 = Some e.2) →
  cache_ok (rep := rep) (round := round) (set_pages (foldr delete (pages σ) l.*1) σ) (owed l) ∧ owed_fresh l.
Proof.
  intros Hok. induction l as [|[k pg] l IH]; intros Hnd Hin; simpl.
  - split; [|done]. by destruct σ.
  - apply NoDup_cons in Hnd as [Hk Hnd]. destruct IH as [[m Hok'] Hfr]; [done|set_solver|].
    assert (foldr delete (pages σ) l.*1 !! k = Some pg) as Hk'.
    { rewrite lookup_foldr_delete_not_elem_of by done. apply (Hin (k, pg)). set_solver. }
    destruct (ci_frame _ _ _ Hok' k pg Hk') as (s & Hs & _ & Hb).
    rewrite (frame_no_of _ _ Hs). split; [|done].
    exists m. by apply (inv_remove (set_pages (foldr delete (pages σ) l.*1) σ) _ m k pg s).
Qed.

Lemma release_all_spec σ l :
  cache_ok (rep := rep) (round := round) σ (owed l) → owed_fresh l →
  wp_res (release_all l) σ (λ _ σ', same_pages σ σ' ∧ cache_ok (rep := rep) (round := round) σ' base) (λ _ _, False).
Proof.
  revert σ. induction l as [|[k pg] l IH]; intros σ Hok Hfr; simpl; [by wp_step|].
  destruct Hfr as (Hs & Hb & Hfr). simpl in Hs, Hb. wp_step. rewrite Hs.
  eapply wp_res_mono; [apply release_frames_spec; [done|done]| |done].
  intros [] σ1 [[Hp1 Hb1] Hok1]. eapply wp_res_mono; [by apply IH| |done].
  intros [] σ2 [[Hp2 Hb2] Hok2]. split; [|done]. split; congruence.
Qed.

(** Pages are dropped and their frames are given back. *)
Lemma drop_list_spec σ σ' l :
  consistent σ → NoDup l.*1 → (∀ e, e ∈ l → pages σ !! e.1 = Some e.2) →
  pages σ' = foldr delete (pages σ) l.*1 → bytes_of σ' = bytes_of σ → wframes σ' = wframes σ →
  wp_res (release_all l) σ'
    (λ _ σ'', consistent σ'' ∧ pages σ'' = pages σ' ∧ bytes_of σ'' = bytes_of σ) (λ _ _, False).
Proof.
  intros [Hok Hco] Hnd Hin Hp Hb Hw. destruct (remove_list σ l Hok Hnd Hin) as [[m Hok'] Hfr].
  eapply wp_res_mono; [apply release_all_spec; [|done]| |done].
  - exists m. destruct σ' as [p' e' w' b']. simpl in *. subst. destruct Hok'. by split.
  - intros [] σ2 [[Hp2 Hb2] Hok2]. split; [|split; congruence]. split; [done|].
    eapply coherent_forgets; [done|]. apply subseteq_forgets; [|congruence]. rewrite Hp2, Hp.
    apply map_subseteq_spec. intros k pg Hk. destruct (decide (k ∈ l.*1)).
    + by rewrite lookup_foldr_delete in Hk.
    + by rewrite lookup_foldr_delete_not_elem_of in Hk.
Qed.

(** The pages with [P] are gone, the others are kept. *)
Lemma drop_pages_spec σ P :
  consistent σ →
  wp_res (drop_pages P) σ
    (λ _ σ', consistent σ' ∧ bytes_of σ' = bytes_of σ ∧
       ∀ k, pages σ' !! k = if P k then None else pages σ !! k)
    (λ _ _, False).
Proof.
  intros Hc. unfold drop_pages. do 4 wp_step. 
  eapply wp_res_mono; [apply (drop_list_spec σ); [done|apply NoDup_fst_map_to_list| | |done..]| |done].
  - intros [k pg] Hk%elem_of_map_to_list. by apply map_lookup_filter_Some in Hk as [? _].
  - simpl. apply map_eq. intros k.
    destruct (P k) eqn:HP.
    + destruct (pages σ !! k) as [pg|] eqn:Hk.
      * rewrite lookup_foldr_delete.
        -- apply map_lookup_filter_None. right. intros x _. simpl. congruence.
        -- apply list_elem_of_fmap. exists (k, pg). split; [done|]. apply elem_of_map_to_list, map_lookup_filter_Some. done.
      * trans (@None CachedPage); [apply map_lookup_filter_None; by left|]. symmetry.
        destruct (decide (k ∈ (map_to_list (filter (λ e : PageCacheKey * CachedPage, P e.1 = true) (pages σ))).*1)).
        -- by apply lookup_foldr_delete.
        -- by rewrite lookup_foldr_delete_not_elem_of.
    + rewrite lookup_foldr_delete_not_elem_of.
      * apply option_eq. intros pg. rewrite map_lookup_filter_Some. naive_solver.
      * intros ([k' pg] & -> & Hk%elem_of_map_to_list)%list_elem_of_fmap.
        apply map_lookup_filter_Some in Hk as [_ Hk]. simpl in *. congruence.
  - intros [] σ' (Hc' & Hp & Hb). split; [done|]. split; [done|]. intros k. rewrite Hp. simpl.
    destruct (P k) eqn:HP.
    + apply map_lookup_filter_None. right. intros x _. simpl. congruence.
    + apply option_eq. intros pg. rewrite map_lookup_filter_Some. naive_solver.
Qed.

(** ** Advice and reclaim *)

Lemma prefetch_loop_spec l σ file first :
  consistent σ → file_ok file (contents (file_id file)) → 0 <= first →
  (∀ i, i ∈ l → (first + Z.of_nat i) * 4096 <= u64_max - 4095) →
  wp_res (prefetch_loop l file (file_id file) first) σ (λ _ σ', consistent σ') (λ _ _, False).
Proof.
  revert σ. induction l as [|i l IH]; intros σ Hc Hfile Hf Hl; simpl; [by wp_step|].
  do 3 wp_step. destruct (pages σ !! _); [wp_step; apply IH; set_solver|].
  pose proof (load_page_spec σ file (first + Z.of_nat i) Hc Hfile ltac:(lia) ltac:(apply Hl; set_solver)) as Hload.
  revert Hload. unfold wp_res at 1 2, wp.
  destruct (load_page _ _ _) as [[r|e| |] σ1]; simpl; try done; intros [Hc1 _]; apply IH; set_solver.
Qed.

Lemma invalidate_file_range_spec σ id offset len :
  consistent σ →
  wp_res (invalidate_file_range id offset len) σ
    (λ _ σ', consistent σ' ∧ bytes_of σ' = bytes_of σ ∧
       ∀ k, pages σ' !! k =
         if bool_decide (len ≠ 0) && in_file_range id (offset / 4096)
              (saturating_add u64_max offset (saturating_sub len 1) / 4096) k
         then None else pages σ !! k)
    (λ _ _, False).
Proof.
  intros Hc. unfold invalidate_file_range. case_decide as Hlen.
  - wp_step. rewrite bool_decide_eq_false_2 by lia. done.
  - rewrite bool_decide_eq_true_2 by done. by apply drop_pages_spec.
Qed.

(** [off_t] offsets are below 2^63. *)
Lemma handle_advice_spec σ file offset len advice :
  consistent σ → file_ok file (contents (file_id file)) → 0 <= offset < 2 ^ 63 → 0 <= len →
  wp_res (handle_advice file offset len advice) σ (λ _ σ', consistent σ') (λ _ _, False).
Proof.
  intros Hc Hfile Hoff Hlen. unfold handle_advice, cacheable_file_id.
  destruct (page_cache_enabled file); [|by wp_step].
  destruct advice; try (by wp_step).
  - unfold prefetch_range. case_decide; [by wp_step|].
    change PAGE_SIZE with 4096. apply prefetch_loop_spec; [done..|apply Z.div_pos; lia|].
    intros i Hi%elem_of_seq. unfold u64_max. pose proof (Z.mul_div_le offset 4096). unfold PAGE_PREFETCH_LIMIT in Hi. lia.
  - eapply wp_res_mono; [by apply invalidate_file_range_spec| |done]. by intros [] σ' (? & _).
Qed.

Lemma reclaim_spec σ locked :
  consistent σ →
  wp_res (reclaim_page_cache locked) σ
    (λ n σ', consistent σ' ∧ if locked then n = 0 ∧ σ' = σ else n = Z.of_nat (size (pages σ)) ∧ pages σ' = ∅)
    (λ _ _, False).
Proof.
  intros Hc. unfold reclaim_page_cache. destruct locked; [by wp_step|]. do 5 wp_step.
  eapply wp_res_mono; [apply (drop_list_spec σ); [done|apply NoDup_fst_map_to_list| | |done..]| |done].
  - intros [k pg] Hk. by apply elem_of_map_to_list in Hk.
  - simpl. symmetry. apply map_eq. intros k. rewrite lookup_empty. apply eq_None_not_Some.
    intros [pg [Hk Hpg]%lookup_foldr_delete_Some]. apply Hk, list_elem_of_fmap. exists (k, pg).
    split; [done|]. by apply elem_of_map_to_list.
  - intros [] σ' (Hc' & Hp & _). wp_step. done.
Qed.
End load.

(** ** Sequences of operations *)

(** The file [id] got new bytes in the given range. *)
Definition written (contents : CachedFileId → list Z) (id : CachedFileId) (offset len : Z)
    (contents' : CachedFileId → list Z) : Prop :=
  (∀ id', id' ≠ id → contents' id' = contents id') ∧
  ∀ i : nat, Z.of_nat i < offset ∨ offset + len <= Z.of_nat i → contents' id !! i = contents id !! i.

Lemma page_of_ext l l' p :
  0 <= p → (∀ i : nat, p * 4096 <= Z.of_nat i < (p + 1) * 4096 → l !! i = l' !! i) → page_of l p = page_of l' p.
Proof.
  intros Hp H. unfold page_of. apply list_eq. intros i. destruct (decide (i < 4096)%nat).
  - rewrite !lookup_take_lt, !lookup_drop by done. apply H. lia.
  - by rewrite !lookup_take_ge by lia.
Qed.

Section steps.
Context {St : Type} `{!FrameAllocator St} {rep : St → frame_map → Prop} {usable : Z → Prop} {round : Z → Z}.
Context `{HS : !FrameAllocatorSpec St rep usable round}.
Context (base : frame_map).
Implicit Types (σ : world St) (contents : CachedFileId → list Z).

Abbreviation consistent := (consistent (rep := rep) (round := round)).

Lemma invalidate_write_spec contents contents' σ file offset len :
  consistent contents base σ → page_cache_enabled file = true →
  written contents (file_id file) offset len contents' → 0 <= offset → 0 <= len → offset + len <= u64_max →
  wp_res (invalidate_write file offset len) σ (λ _ σ', consistent contents' base σ') (λ _ _, False).
Proof.
  intros Hc Hen [Hother Hw] Hoff Hlen Hmax. unfold invalidate_write, cacheable_file_id. rewrite Hen.
  eapply wp_res_mono; [by apply invalidate_file_range_spec| |done].
  intros [] σ' ([Hok' Hco'] & _ & Hp). split; [done|]. intros id p d Hd.
  destruct (Hco' id p d Hd) as [Hp0 ->]. split; [done|].
  destruct (decide (id = file_id file)) as [->|Hne]; [|by rewrite Hother].
  apply page_of_ext; [done|]. intros i Hi. symmetry. apply Hw.
  destruct (decide (len = 0)) as [->|Hl]; [lia|].
  unfold page_data in Hd. rewrite Hp, bool_decide_eq_true_2 in Hd by done. simpl in Hd.
  unfold in_file_range in Hd. simpl in Hd. rewrite bool_decide_eq_true_2 in Hd by done. simpl in Hd.
  unfold saturating_add, saturating_sub in Hd. rewrite Z.min_r, Z.max_r in Hd by lia.
  destruct (_ <=? p) eqn:H1; [destruct (p <=? _) eqn:H2; [done|]|].
  - right. apply Z.leb_gt in H2. pose proof (Z.mul_succ_div_gt (offset + (len - 1)) 4096). lia.
  - left. apply Z.leb_gt in H1. pose proof (Z.mul_div_le offset 4096). lia.
Qed.

Lemma invalidate_all_spec contents contents' σ file :
  consistent contents base σ → page_cache_enabled file = true →
  (∀ id, id ≠ file_id file → contents' id = contents id) →
  wp_res (invalidate_all_pages file) σ (λ _ σ', consistent contents' base σ') (λ _ _, False).
Proof.
  intros Hc Hen Hother. unfold invalidate_all_pages, cacheable_file_id. rewrite Hen.
  eapply wp_res_mono; [by apply drop_pages_spec| |done].
  intros [] σ' ([Hok' Hco'] & _ & Hp). split; [done|]. intros id p d Hd.
  destruct (Hco' id p d Hd) as [Hp0 ->]. split; [done|]. rewrite Hother; [done|].
  intros ->. unfold page_data in Hd. rewrite Hp in Hd. simpl in Hd. by rewrite bool_decide_eq_true_2 in Hd.
Qed.
End steps.

(** ** Theorems about the page cache

    Reads through the cache along any sequence of reads, writes, truncations,
    advice and reclaims; the witness runs the cache on the buddy allocator of
    the small machine. *)

Section theorems.
Context {St : Type} `{!FrameAllocator St} {rep : St → frame_map → Prop} {usable : Z → Prop} {round : Z → Z}.
Context `{HS : !FrameAllocatorSpec St rep usable round}.

(** The cache and the contents of the files.  A write changes the file and then
    calls [invalidate_write] with the range that was written, [set_len] and
    truncation call [invalidate_all]. *)
Inductive cache_step : world St * (CachedFileId → list Z) → world St * (CachedFileId → list Z) → Prop :=
| step_read file offset n r σ σ' contents :
    file_ok file (contents (file_id file)) → page_cache_enabled file = true →
    0 <= offset <= u64_max → 0 <= n → read file offset n σ = (r, σ') →
    cache_step (σ, contents) (σ', contents)
| step_write file offset len r σ σ' contents contents' :
    page_cache_enabled file = true → written contents (file_id file) offset len contents' →
    0 <= offset → 0 <= len → offset + len <= u64_max →
    invalidate_write file offset len σ = (r, σ') →
    cache_step (σ, contents) (σ', contents')
| step_truncate file r σ σ' contents contents' :
    page_cache_enabled file = true → (∀ id, id ≠ file_id file → contents' id = contents id) →
    invalidate_all_pages file σ = (r, σ') →
    cache_step (σ, contents) (σ', contents')
| step_advice file offset len advice r σ σ' contents :
    file_ok file (contents (file_id file)) → 0 <= offset < 2 ^ 63 → 0 <= len →
    handle_advice file offset len advice σ = (r, σ') →
    cache_step (σ, contents) (σ', contents)
| step_reclaim locked r σ σ' contents :
    reclaim_page_cache locked σ = (r, σ') →
    cache_step (σ, contents) (σ', contents).

(** A cache that started empty over an allocator with the blocks [base]. *)
Definition cache_reachable (base : frame_map) (σ : world St) (contents : CachedFileId → list Z) : Prop :=
  ∃ st w contents0, rep st base ∧ rtc cache_step (PageCacheState_new st w, contents0) (σ, contents).

Abbreviation consistent := (consistent (rep := rep) (round := round)).

Lemma empty_consistent st base w contents :
  rep st base → consistent contents base (PageCacheState_new st w).
Proof.
  intros Hrep. split.
  - exists base. split; simpl; [done|done|intros k pg|intros k k' pg pg'|intros s x; by left|intros k pg|];
      rewrite ?lookup_empty; done.
  - intros id p d. unfold page_data. simpl. by rewrite lookup_empty.
Qed.

Lemma cache_res_run {S E A} (m : M S E A) s r s' (P : S → Prop) :
  m s = (r, s') → wp_res m s (λ _ s', P s') (λ _ s', P s') → P s'.
Proof. unfold wp_res, wp. intros Hrun H. rewrite Hrun in H. simpl in H. by destruct r. Qed.

Lemma read_spec contents base σ file offset n :
  let whole := take (Z.to_nat n) (drop (Z.to_nat offset) (contents (file_id file))) in
  consistent contents base σ → file_ok file (contents (file_id file)) → page_cache_enabled file = true →
  0 <= offset <= u64_max → 0 <= n →
  wp_res (read file offset n) σ
    (λ bs σ', consistent contents base σ' ∧
       (bs = whole ∨ bs `prefix_of` whole ∧ out_of_memory (rep := rep) (round := round) base σ'))
    (λ e σ', consistent contents base σ' ∧ file_fails file e).
Proof.
  intros whole Hc Hfile Hen Hoff Hn. unfold read, cacheable_file_id. rewrite Hen.
  case_decide as Hz; [subst n; wp_step; split; [done|]; by left|].
  apply read_loop_spec; try done; [simpl; lia..|]. unfold read_fuel. simpl. case_decide; lia.
Qed.

Lemma step_consistent base s s' :
  cache_step s s' → consistent s.2 base s.1 → consistent s'.2 base s'.1.
Proof.
  destruct 1 as [? ? ? ? ? ? ? Hf Hen Ho Hn E|? ? ? ? ? ? ? ? Hen Hw Ho Hl Hm E|? ? ? ? ? ? Hen Hw E|? ? ? ? ? ? ? ? Hf Ho Hl E|? ? ? ? ? E];
    simpl; intros Hc; apply (cache_res_run _ _ _ _ (consistent _ base) E).
  - eapply wp_res_mono; [by apply read_spec| |]; naive_solver.
  - eapply wp_res_mono; [by eapply invalidate_write_spec|done|done].
  - eapply wp_res_mono; [by eapply invalidate_all_spec|done|done].
  - eapply wp_res_mono; [by apply handle_advice_spec|done|done].
  - eapply wp_res_mono; [by apply reclaim_spec| |done]. naive_solver.
Qed.

Lemma steps_consistent base s s' :
  rtc cache_step s s' → consistent s.2 base s.1 → consistent s'.2 base s'.1.
Proof. induction 1; eauto using step_consistent. Qed.

Lemma reachable_consistent base σ contents : cache_reachable base σ contents → consistent contents base σ.
Proof.
  intros (st & w & c0 & Hrep & Hsteps).
  apply (steps_consistent base _ _ Hsteps). by apply empty_consistent.
Qed.

(** C35. A read through the cache returns the bytes of the file.  Take any
    sequence of reads, truncations, advice, reclaims and writes that start no
    later than the end of the file (after a write that leaves a gap the cache
    keeps a stale short page, see [stale_after_gap]).  Then [read] ends and
    returns exactly the bytes of the file's current content at the offset, as
    many as asked for or up to the end of the file; or a prefix of them, only
    when its last action was an allocation of a frame that failed; or an error
    that the file returned.  In each case the cache is left consistent: every
    cached page holds the current bytes of its file in a frame of its own, at
    most 8192 pages are cached, and nothing else has been allocated or
    released. *)
Theorem page_cache_read_correct base σ contents file offset n :
  let whole := take (Z.to_nat n) (drop (Z.to_nat offset) (contents (file_id file))) in
  cache_reachable base σ contents → file_ok file (contents (file_id file)) → page_cache_enabled file = true →
  0 <= offset <= u64_max → 0 <= n →
  wp_res (read file offset n) σ
    (λ bs σ', (∃ m, cache_inv (rep := rep) (round := round) σ' base m) ∧ coherent contents σ' ∧
       (bs = whole ∨ bs `prefix_of` whole ∧ out_of_memory (rep := rep) (round := round) base σ'))
    (λ e σ', (∃ m, cache_inv (rep := rep) (round := round) σ' base m) ∧ coherent contents σ' ∧ file_fails file e).
Proof.
  intros whole Hr Hfile Hen Hoff Hn. apply reachable_consistent in Hr.
  eapply wp_res_mono; [by apply read_spec|cbv beta..].
  - intros bs σ' [[Hok Hco] H]. done.
  - intros e σ' [[Hok Hco] H]. done.
Qed.

(** The cache owns its frames.  In every reachable state each cached page
    has a frame of its own, allocated with one reference and apart from the
    blocks [base] that others hold, no frame is allocated that is neither in
    [base] nor a cached page (nothing leaks), at most 8192 pages are cached,
    and every page holds the current bytes of its file.  A reclaim returns the
    number of cached pages and gives back all their frames. *)
Theorem page_cache_invariant base σ contents :
  cache_reachable base σ contents →
  (∃ m, cache_inv (rep := rep) (round := round) σ base m) ∧ coherent contents σ ∧
  wp_res (reclaim_page_cache false) σ
    (λ freed σ', freed = Z.of_nat (size (pages σ)) ∧ pages σ' = ∅ ∧ rep (wframes σ') base)
    (λ _ _, False).
Proof.
  intros Hr. apply reachable_consistent in Hr as Hc. split; [apply Hc|]. split; [apply Hc|].
  eapply wp_res_mono; [by apply reclaim_spec| |done].
  intros freed σ' ([[m Hok] _] & Hfreed & Hp). split; [done|]. split; [done|].
  replace base with m; [apply Hok|]. apply map_eq. intros s. apply option_eq. intros x. split.
  - intros Hs. destruct (ci_exact _ _ _ Hok s x Hs) as [?|(k & pg & Hk & _)]; [done|].
    by rewrite Hp, lookup_empty in Hk.
  - intros Hs. eapply lookup_weaken; [done|apply Hok].
Qed.
End theorems.

(** ** Witnesses *)

Definition small_id : CachedFileId := mkFileId 1 7.
Definition small_content : list Z := [10; 20; 30; 40; 50].

(** A file that reads two bytes at a time. *)
Definition small_file : File :=
  mkFile small_id true (λ offset n, Ok (take (Z.to_nat (n `min` 2)) (drop (Z.to_nat offset) small_content))).
Definition small_contents (id : CachedFileId) : list Z := if decide (id = small_id) then small_content else [].

Lemma small_file_ok : file_ok small_file (small_contents (file_id small_file)).
Proof.
  split; [vm_compute; discriminate|]. intros offset n Hoff Hn. simpl.
  set (bs := take _ _). split; [unfold bs; rewrite length_take; lia|]. split; [apply at_pos_take|].
  intros Hbs. pose proof (f_equal length Hbs) as Hl. unfold bs in Hl. rewrite length_take, length_drop in Hl.
  change (length small_content) with 5%nat in *. change (Z.of_nat (length (small_contents small_id))) with 5.
  cbn [length] in Hl. lia.
Qed.

#[local] Instance small_frames : FrameAllocator BuddyAllocator := buddy_allocator 0 false.

Definition small_start : world BuddyAllocator := PageCacheState_new demo (λ _, []).
Definition small_run : world BuddyAllocator := (read small_file 1 3 small_start).2.

Lemma small_reachable : ∃ c,
  FrameAllocatorSpec BuddyAllocator (buddy_rep c) (covered (c_ranges c)) block_round ∧
  cache_reachable (rep := buddy_rep c) ∅ small_run small_contents.
Proof.
  destruct demo_spec as (c & Hrep & _ & _ & Hspec). exists c. split; [exact Hspec|].
  exists demo, (λ _, []), small_contents. split; [exact Hrep|]. apply rtc_once.
  apply (step_read small_file 1 3 (read small_file 1 3 small_start).1).
  - exact small_file_ok.
  - reflexivity.
  - unfold u64_max. lia.
  - lia.
  - unfold small_run. apply surjective_pairing.
Qed.

Lemma page_cache_read_correct_witness :
  (read small_file 2 100 small_run).1 = Ok [30; 40; 50] ∧
  [30; 40; 50] `prefix_of` take 100 (drop 2 small_content) ∧
  coherent small_contents (read small_file 2 100 small_run).2.
Proof.
  destruct small_reachable as (c & Hspec & Hr).
  pose proof (page_cache_read_correct ∅ small_run small_contents small_file 2 100 Hr small_file_ok eq_refl
    ltac:(unfold u64_max; lia) ltac:(lia)) as H.
  assert ((read small_file 2 100 small_run).1 = Ok [30; 40; 50]) as E by (vm_compute; reflexivity).
  unfold wp_res, wp in H. rewrite E in H. destruct H as (_ & Hco & H). split; [exact E|]. split; [|exact Hco].
  destruct H as [H|[H _]]; [rewrite H; reflexivity|exact H].
Defined.

(** A write that leaves a gap: the five bytes of the file are cached, byte 4096
    is written, which makes the file 4097 bytes long, and the page written is
    dropped.  A read of the first page still stops after five bytes. *)
Definition gap_content : list Z := small_content ++ replicate 4091 0 ++ [60].
Definition gap_file : File :=
  mkFile small_id true (λ offset n, Ok (take (Z.to_nat n) (drop (Z.to_nat offset) gap_content))).

Lemma stale_after_gap :
  let σ := (invalidate_write gap_file 4096 1 small_run).2 in
  (read gap_file 0 10 σ).1 = Ok small_content ∧
  (read gap_file 0 10 small_start).1 = Ok (small_content ++ [0; 0; 0; 0; 0]).
Proof. split; vm_compute; reflexivity. Qed.

Lemma page_cache_invariant_witness :
  size (pages small_run) = 1%nat ∧ (reclaim_page_cache false small_run).1 = Ok 1.
Proof.
  destruct small_reachable as (c & Hspec & Hr).
  destruct (page_cache_invariant ∅ small_run small_contents Hr) as (_ & _ & H).
  assert (size (pages small_run) = 1%nat) as Hs by (vm_compute; reflexivity). split; [exact Hs|].
  unfold wp_res, wp in H. revert H. destruct (reclaim_page_cache false small_run) as [[r|e| |] σ']; simpl; intros H.
  - destruct H as (-> & _). rewrite Hs. reflexivity.
  - destruct H.
  - destruct H.
  - destruct H.
Defined.
