(* ===== verification/Node.v ===== *)
(** * Nodes of the virtual file system

    Models [aether-kernel/libs/aether-vfs/src/inode.rs], the nodes of
    [node.rs] (directories, files, symbolic links, metadata) and the wrapper
    [MountedVfsNode] of [aether-kernel/src/rootfs/filesystem.rs].

    A [NodeRef] is a shared pointer, so nodes live in a heap and a reference is
    a number; [Arc::ptr_eq] is equality of numbers.  A lookup below a mount
    makes a fresh wrapper: every [Inode] has a lock state of its own, which
    the wrapper does not forward.  [FileNode] refers to an object of the table
    [files] (the memory files of [MemFile]).  A [BTreeMap] of entries is a
    [gmap]. *)

From Stdlib Require Import Ascii String.
From S2P Require Import Prelude Poll Path MemFile.

Open Scope list_scope.

Inductive NodeKind := Directory | File | Socket | Symlink | BlockDevice | CharDevice | Fifo.
#[global] Instance NodeKind_eq_dec : EqDecision NodeKind.
Proof. solve_decision. Defined.

Record NodeTimestamp := mkTime { ts_secs : Z; ts_nanos : Z }.
Definition time_zero : NodeTimestamp := mkTime 0 0.

Record NodeMetadata := mkMeta {
  md_device_id : Z;
  md_inode : Z;
  md_mode : Z;
  md_uid : Z;
  md_gid : Z;
  md_nlink : Z;
  md_rdev_major : Z;
  md_rdev_minor : Z;
  md_size : Z;
  md_block_size : Z;
  md_blocks : Z;
  md_atime : NodeTimestamp;
  md_mtime : NodeTimestamp;
  md_ctime : NodeTimestamp;
  md_btime : NodeTimestamp;
}.

(** [NodeMetadata::default()] with the given inode number *)
Definition metadata_default (inode : Z) : NodeMetadata :=
  mkMeta 0 inode 0 0 0 1 0 0 0 4096 0 time_zero time_zero time_zero time_zero.

Definition with_mode (mode : Z) (m : NodeMetadata) : NodeMetadata :=
  mkMeta (md_device_id m) (md_inode m) mode (md_uid m) (md_gid m) (md_nlink m) (md_rdev_major m) (md_rdev_minor m)
    (md_size m) (md_block_size m) (md_blocks m) (md_atime m) (md_mtime m) (md_ctime m) (md_btime m).
Definition with_nlink (nlink : Z) (m : NodeMetadata) : NodeMetadata :=
  mkMeta (md_device_id m) (md_inode m) (md_mode m) (md_uid m) (md_gid m) nlink (md_rdev_major m) (md_rdev_minor m)
    (md_size m) (md_block_size m) (md_blocks m) (md_atime m) (md_mtime m) (md_ctime m) (md_btime m).
Definition with_owner (uid gid : Z) (m : NodeMetadata) : NodeMetadata :=
  mkMeta (md_device_id m) (md_inode m) (md_mode m) uid gid (md_nlink m) (md_rdev_major m) (md_rdev_minor m)
    (md_size m) (md_block_size m) (md_blocks m) (md_atime m) (md_mtime m) (md_ctime m) (md_btime m).
Definition with_rdev (major minor : Z) (m : NodeMetadata) : NodeMetadata :=
  mkMeta (md_device_id m) (md_inode m) (md_mode m) (md_uid m) (md_gid m) (md_nlink m) major minor
    (md_size m) (md_block_size m) (md_blocks m) (md_atime m) (md_mtime m) (md_ctime m) (md_btime m).
Definition with_device_id (device_id : Z) (m : NodeMetadata) : NodeMetadata :=
  mkMeta device_id (md_inode m) (md_mode m) (md_uid m) (md_gid m) (md_nlink m) (md_rdev_major m) (md_rdev_minor m)
    (md_size m) (md_block_size m) (md_blocks m) (md_atime m) (md_mtime m) (md_ctime m) (md_btime m).
Definition with_size_blocks (size blocks : Z) (m : NodeMetadata) : NodeMetadata :=
  mkMeta (md_device_id m) (md_inode m) (md_mode m) (md_uid m) (md_gid m) (md_nlink m) (md_rdev_major m) (md_rdev_minor m)
    size (md_block_size m) blocks (md_atime m) (md_mtime m) (md_ctime m) (md_btime m).
Definition with_size (size : Z) (m : NodeMetadata) : NodeMetadata := with_size_blocks size (div_ceil size 512) m.
Definition with_times (atime mtime : option NodeTimestamp) (ctime : NodeTimestamp) (m : NodeMetadata) : NodeMetadata :=
  mkMeta (md_device_id m) (md_inode m) (md_mode m) (md_uid m) (md_gid m) (md_nlink m) (md_rdev_major m) (md_rdev_minor m)
    (md_size m) (md_block_size m) (md_blocks m) (default (md_atime m) atime) (default (md_mtime m) mtime) ctime (md_btime m).

Definition metadata_directory (mode inode : Z) : NodeMetadata := with_nlink 2 (with_mode mode (metadata_default inode)).
Definition metadata_file (mode inode : Z) : NodeMetadata := with_mode mode (metadata_default inode).
Definition metadata_symlink (mode size inode : Z) : NodeMetadata := with_size_blocks size 0 (with_mode mode (metadata_default inode)).
Definition metadata_device (mode major minor inode : Z) : NodeMetadata := with_rdev major minor (with_mode mode (metadata_default inode)).

(** ** The objects *)

(** [Arc<dyn FileOperations>] of the nodes in memory *)
Inductive FileObject :=
| SharedObject (f : SharedMemoryFile)
| MutableObject (f : MutableMemoryFile)
| CowObject (f : CowMemoryFile)
| ConstObject (f : MemoryFile).

Definition object_size (o : FileObject) : Z :=
  match o with
  | SharedObject f => shm_size (shm_state f)
  | MutableObject f => fo_size f
  | CowObject f => fo_size f
  | ConstObject f => fo_size f
  end.

Abbreviation NodeRef := Z.

(** [Arc<dyn InodeOperations>] *)
Inductive InodeOps :=
| DirectoryNode (name : str) (meta : NodeMetadata) (entries : gmap str NodeRef)
| FileNode (name : str) (kind : NodeKind) (meta : NodeMetadata) (operations : Z)
| SymlinkNode (name target : str) (meta : NodeMetadata)
| MountedVfsNode (node : NodeRef) (device_id : Z).

Record FlockState := mkFlock {
  fl_shared : gset Z;
  fl_exclusive : option Z;
}.

Inductive FlockOperation := FlockShared | FlockExclusive | FlockUnlock.

(** A superblock is known by its device. *)
Record Inode := mkInode {
  in_superblock : option Z;
  in_flock : FlockState;
  in_flock_waiters : WaitQueue Z;
  in_operations : InodeOps;
}.

Definition Inode_new (operations : InodeOps) : Inode := mkInode None (mkFlock ∅ None) WaitQueue_new operations.

Record heap := mkHeap {
  nodes : gmap NodeRef Inode;
  next_node : NodeRef;
  next_inode : Z;
  files : gmap Z FileObject;
  next_file : Z;
}.

Definition MF := M heap FsError.

Definition set_nodes (m : gmap NodeRef Inode) (h : heap) : heap := mkHeap m (next_node h) (next_inode h) (files h) (next_file h).

(** [Inode::new] *)
Definition alloc_node {E} (operations : InodeOps) : M heap E NodeRef := λ h,
  (Ok (next_node h), mkHeap (<[next_node h := Inode_new operations]> (nodes h)) (next_node h + 1) (next_inode h) (files h) (next_file h)).

Definition take_inode {E} : M heap E Z := λ h,
  (Ok (next_inode h), mkHeap (nodes h) (next_node h) (wrapping_add u64_max (next_inode h) 1) (files h) (next_file h)).

Definition alloc_file {E} (o : FileObject) : M heap E Z := λ h,
  (Ok (next_file h), mkHeap (nodes h) (next_node h) (next_inode h) (<[next_file h := o]> (files h)) (next_file h + 1)).

(** A reference always points to a node. *)
Definition inode_at {E} (n : NodeRef) : M heap E Inode := λ h, mexpect (nodes h !! n) h.

Definition set_operations (operations : InodeOps) (i : Inode) : Inode :=
  mkInode (in_superblock i) (in_flock i) (in_flock_waiters i) operations.

Definition put_operations {E} (n : NodeRef) (operations : InodeOps) : M heap E unit :=
  i ← inode_at n;
  mmodify (λ h, set_nodes (<[n := set_operations operations i]> (nodes h)) h).

(** ** Wrappers *)

(** The devices of the wrappers around a node, from the outside, and the node
    inside.  A wrapper is younger than what it wraps, so the chain is not longer
    than its number. *)
Fixpoint strip (fuel : nat) (m : gmap NodeRef Inode) (n : NodeRef) : outcome FsError (list Z * NodeRef * InodeOps) :=
  match fuel with
  | O => Diverge
  | S fuel' =>
      i ← expect (m !! n);
      match in_operations i with
      | MountedVfsNode node device_id =>
          '(devices, base, operations) ← strip fuel' m node;
          mret (device_id :: devices, base, operations)
      | operations => mret ([], n, operations)
      end
  end.

Definition base_of (n : NodeRef) : MF (list Z * NodeRef * InodeOps) := λ h, (strip (S (Z.to_nat n)) (nodes h) n, h).

(** [self.wrap(..)] of every wrapper, the innermost first. *)
Fixpoint wrap (devices : list Z) (n : NodeRef) : MF NodeRef :=
  match devices with
  | [] => mret n
  | device_id :: rest =>
      inner ← wrap rest n;
      alloc_node (MountedVfsNode inner device_id)
  end.

(** [unwrap_peer], once for every wrapper that the call goes through. *)
Fixpoint unwrap_peers (devices : list Z) (n : NodeRef) : MF NodeRef :=
  match devices with
  | [] => mret n
  | _ :: rest =>
      i ← inode_at n;
      unwrap_peers rest (match in_operations i with MountedVfsNode node _ => node | _ => n end)
  end.

Definition ops_kind (operations : InodeOps) : NodeKind :=
  match operations with
  | DirectoryNode _ _ _ => Directory
  | FileNode _ kind _ _ => kind
  | SymlinkNode _ _ _ => Symlink
  | MountedVfsNode _ _ => Directory
  end.

Definition kind (n : NodeRef) : MF NodeKind :=
  '(_, _, operations) ← base_of n; mret (ops_kind operations).

Definition symlink_target (n : NodeRef) : MF (option str) :=
  '(_, _, operations) ← base_of n;
  mret (match operations with SymlinkNode _ target _ => Some target | _ => None end).

(** [Inode::file]: the object behind the node *)
Definition node_file (n : NodeRef) : MF (option Z) :=
  '(_, _, operations) ← base_of n;
  mret (match operations with FileNode _ _ _ object => Some object | _ => None end).

(** [open_file]; the files in memory open as themselves. *)
Definition open_file (n : NodeRef) : MF Z :=
  object ← node_file n;
  mok_or object NotFile.

(** ** Directories *)

Definition node_lookup (n : NodeRef) (name : str) : MF (option NodeRef) :=
  '(devices, _, operations) ← base_of n;
  match operations with
  | DirectoryNode _ _ entries =>
      match entries !! name with
      | Some child => wrapped ← wrap devices child; mret (Some wrapped)
      | None => mret None
      end
  | _ => mret None
  end.

(** [DirectoryNode::insert] of the directory [d] *)
Definition dir_insert (d : NodeRef) (name : str) (node : NodeRef) : MF unit :=
  i ← inode_at d;
  match in_operations i with
  | DirectoryNode dname meta entries =>
      match entries !! name with
      | Some _ => mthrow AlreadyExists
      | None => put_operations d (DirectoryNode dname meta (<[name := node]> entries))
      end
  | _ => mthrow NotDirectory
  end.

(** [u32::saturating_add_signed] *)
Definition saturating_add_signed (value delta : Z) : Z := 0 `max` (u32_max `min` (value + delta)).

Definition adjust_link_count (n : NodeRef) (delta : Z) : MF unit :=
  i ← inode_at n;
  match in_operations i with
  | FileNode name kind meta object =>
      put_operations n (FileNode name kind (with_nlink (saturating_add_signed (md_nlink meta) delta) meta) object)
  | SymlinkNode name target meta =>
      put_operations n (SymlinkNode name target (with_nlink (saturating_add_signed (md_nlink meta) delta) meta))
  | _ => mret ()
  end.

Definition dir_remove (d : NodeRef) (name : str) (remove_directory : bool) : MF unit :=
  i ← inode_at d;
  match in_operations i with
  | DirectoryNode dname meta entries =>
      match entries !! name with
      | None => mthrow NotFound
      | Some node =>
          k ← kind node;
          let is_directory := bool_decide (k = Directory) in
          if negb (Bool.eqb remove_directory is_directory) then mthrow InvalidInput
          else
            _ ← put_operations d (DirectoryNode dname meta (delete name entries));
            if negb remove_directory then adjust_link_count node (-1) else mret ()
      end
  | _ => mthrow NotDirectory
  end.

(** The entries of the directory [d]. *)
Definition dir_entries (d : NodeRef) : MF (str * NodeMetadata * gmap str NodeRef) :=
  i ← inode_at d;
  match in_operations i with
  | DirectoryNode name meta entries => mret (name, meta, entries)
  | _ => mthrow NotDirectory
  end.

(** [rename_between_maps]: the source has lost the node and is put back on an
    error. *)
Definition rename_between_maps (d target : NodeRef) (old_name new_name : str) (replace : bool) : MF unit :=
  '(sname, smeta, source_entries) ← dir_entries d;
  node ← mok_or (source_entries !! old_name) NotFound;
  '(tname, tmeta, target_entries) ← dir_entries target;
  if negb replace && bool_decide (is_Some (target_entries !! new_name)) then mthrow AlreadyExists
  else
    _ ← put_operations d (DirectoryNode sname smeta (delete old_name source_entries));
    _ ← (match target_entries !! new_name with
         | Some replaced => if decide (replaced ≠ node) then adjust_link_count replaced (-1) else mret ()
         | None => mret ()
         end);
    put_operations target (DirectoryNode tname tmeta (<[new_name := node]> target_entries)).

(** [DirectoryNode::rename] of the directory [d] *)
Definition dir_rename (d : NodeRef) (old_name : str) (new_parent : NodeRef) (new_name : str) (replace : bool) : MF unit :=
  _ ← dir_entries new_parent;
  if decide (d = new_parent) then
    '(dname, meta, entries) ← dir_entries d;
    node ← mok_or (entries !! old_name) NotFound;
    let rest := delete old_name entries in
    if negb replace && bool_decide (is_Some (rest !! new_name)) then mthrow AlreadyExists
    else put_operations d (DirectoryNode dname meta (<[new_name := node]> rest))
  else rename_between_maps d new_parent old_name new_name replace.

Definition link_existing (d : NodeRef) (name : str) (node : NodeRef) : MF unit :=
  k ← kind node;
  if decide (k = Directory) then mthrow Unsupported
  else
    _ ← dir_insert d name node;
    adjust_link_count node 1.

(** ** Constructors *)

Definition DirectoryNode_new_with_metadata {E} (name : str) (meta : NodeMetadata) : M heap E NodeRef :=
  alloc_node (DirectoryNode name meta ∅).
Definition DirectoryNode_new_with_mode {E} (name : str) (mode : Z) : M heap E NodeRef :=
  inode ← take_inode;
  DirectoryNode_new_with_metadata name (metadata_directory mode inode).
Definition DirectoryNode_new {E} (name : str) : M heap E NodeRef := DirectoryNode_new_with_mode name 0x41ed.

Definition FileNode_new_with_mode {E} (name : str) (mode device_id object : Z) : M heap E NodeRef :=
  inode ← take_inode;
  alloc_node (FileNode name File (with_device_id device_id (metadata_file mode inode)) object).
Definition FileNode_new_socket {E} (name : str) (mode object : Z) : M heap E NodeRef :=
  inode ← take_inode;
  alloc_node (FileNode name Socket (metadata_file mode inode) object).
Definition FileNode_new_block_device {E} (name : str) (major minor object : Z) : M heap E NodeRef :=
  inode ← take_inode;
  alloc_node (FileNode name BlockDevice (metadata_device 0x61a4 major minor inode) object).
Definition FileNode_new_char_device {E} (name : str) (major minor object : Z) : M heap E NodeRef :=
  inode ← take_inode;
  alloc_node (FileNode name CharDevice (metadata_device 0x21b6 major minor inode) object).
Definition FileNode_new_fifo {E} (name : str) (object : Z) : M heap E NodeRef :=
  inode ← take_inode;
  alloc_node (FileNode name Fifo (metadata_file 0x1180 inode) object).
Definition SymlinkNode_new_with_mode {E} (name target : str) (mode : Z) : M heap E NodeRef :=
  inode ← take_inode;
  alloc_node (SymlinkNode name target (metadata_symlink mode (Z.of_nat (length target)) inode)).

(** ** The operations of [Inode]

    They go through the wrappers; a node that is not a directory has the
    default methods of the trait. *)

Definition insert_child (n : NodeRef) (name : str) (node : NodeRef) : MF unit :=
  '(_, base, _) ← base_of n; dir_insert base name node.

Definition remove_child (n : NodeRef) (name : str) (remove_directory : bool) : MF unit :=
  '(_, base, _) ← base_of n; dir_remove base name remove_directory.

Definition rename_child (n : NodeRef) (old_name : str) (new_parent : NodeRef) (new_name : str) (replace : bool) : MF unit :=
  '(devices, base, operations) ← base_of n;
  peer ← unwrap_peers devices new_parent;
  match operations with
  | DirectoryNode _ _ _ => dir_rename base old_name peer new_name replace
  | _ => mthrow NotDirectory
  end.

Definition link_child (n : NodeRef) (name : str) (existing : NodeRef) : MF unit :=
  '(devices, base, operations) ← base_of n;
  peer ← unwrap_peers devices existing;
  match operations with
  | DirectoryNode _ _ _ => link_existing base name peer
  | _ => mthrow NotDirectory
  end.

(** A new child of the directory inside [n], wrapped as the directory is. *)
Definition create_child (n : NodeRef) (name : str) (make : NodeMetadata → MF NodeRef) : MF NodeRef :=
  '(devices, base, operations) ← base_of n;
  match operations with
  | DirectoryNode _ meta _ =>
      node ← make meta;
      _ ← dir_insert base name node;
      wrap devices node
  | _ => mthrow NotDirectory
  end.

Definition create_file (n : NodeRef) (name : str) (mode : Z) : MF NodeRef :=
  create_child n name (λ _, object ← alloc_file (SharedObject SharedMemoryFile_new); FileNode_new_with_mode name mode 0 object).

Definition create_dir (n : NodeRef) (name : str) (mode : Z) : MF NodeRef :=
  create_child n name (λ meta,
    inode ← take_inode;
    DirectoryNode_new_with_metadata name (with_device_id (md_device_id meta) (metadata_directory mode inode))).

Definition create_symlink (n : NodeRef) (name target : str) (mode : Z) : MF NodeRef :=
  create_child n name (λ _, SymlinkNode_new_with_mode name target mode).

Definition create_socket (n : NodeRef) (name : str) (mode : Z) : MF NodeRef :=
  create_child n name (λ _, object ← alloc_file (MutableObject (MutableMemoryFile_new [])); FileNode_new_socket name mode object).

(** [entries()]; only whether there are any matters to the callers here. *)
Definition node_entries (n : NodeRef) : MF (gmap str NodeRef) :=
  '(_, _, operations) ← base_of n;
  mret (match operations with DirectoryNode _ _ entries => entries | _ => ∅ end).

Definition ops_meta (operations : InodeOps) : NodeMetadata :=
  match operations with
  | DirectoryNode _ meta _ | FileNode _ _ meta _ | SymlinkNode _ _ meta => meta
  | MountedVfsNode _ _ => metadata_default 0
  end.

Definition set_ops_meta (meta : NodeMetadata) (operations : InodeOps) : InodeOps :=
  match operations with
  | DirectoryNode name _ entries => DirectoryNode name meta entries
  | FileNode name kind _ object => FileNode name kind meta object
  | SymlinkNode name target _ => SymlinkNode name target meta
  | MountedVfsNode node device_id => MountedVfsNode node device_id
  end.

Definition set_mode (n : NodeRef) (mode : Z) : MF unit :=
  '(_, base, operations) ← base_of n;
  put_operations base (set_ops_meta (with_mode mode (ops_meta operations)) operations).

Definition set_owner (n : NodeRef) (uid gid : Z) : MF unit :=
  '(_, base, operations) ← base_of n;
  put_operations base (set_ops_meta (with_owner uid gid (ops_meta operations)) operations).

(** A wrapper does not forward [set_times]. *)
Definition set_times (n : NodeRef) (atime mtime : option NodeTimestamp) (ctime : NodeTimestamp) : MF unit :=
  i ← inode_at n;
  match in_operations i with
  | MountedVfsNode _ _ => mthrow Unsupported
  | operations => put_operations n (set_ops_meta (with_times atime mtime ctime (ops_meta operations)) operations)
  end.

(** [Inode::metadata] at every level *)
Fixpoint metadata_walk (fuel : nat) (h : heap) (n : NodeRef) : outcome FsError NodeMetadata :=
  match fuel with
  | O => Diverge
  | S fuel' =>
      i ← expect (nodes h !! n);
      meta ← match in_operations i with
             | DirectoryNode _ meta _ | SymlinkNode _ _ meta => mret meta
             | FileNode _ _ meta object => o ← expect (files h !! object); mret (with_size (object_size o) meta)
             | MountedVfsNode node device_id => meta ← metadata_walk fuel' h node; mret (with_device_id device_id meta)
             end;
      mret (if decide (md_device_id meta = 0) then
              match in_superblock i with Some device_id => with_device_id device_id meta | None => meta end
            else meta)
  end.

Definition metadata (n : NodeRef) : MF NodeMetadata := λ h, (metadata_walk (S (Z.to_nat n)) h n, h).

(** ** Advisory locks *)

Definition set_flock (st : FlockState) (w : WaitQueue Z) (i : Inode) : Inode :=
  mkInode (in_superblock i) st w (in_operations i).

(** The new state and whether it changed; [None] is [WouldBlock]. *)
Definition flock_step (owner : Z) (operation : FlockOperation) (st : FlockState) : option (FlockState * bool) :=
  match operation with
  | FlockUnlock =>
      let removed_shared := bool_decide (owner ∈ fl_shared st) in
      let removed_exclusive := bool_decide (fl_exclusive st = Some owner) in
      Some (mkFlock (fl_shared st ∖ {[owner]}) (if removed_exclusive then None else fl_exclusive st),
            removed_shared || removed_exclusive)
  | FlockShared =>
      if match fl_exclusive st with Some holder => bool_decide (holder ≠ owner) | None => false end then None
      else
        let was_exclusive := bool_decide (fl_exclusive st = Some owner) in
        let inserted := bool_decide (owner ∉ fl_shared st) in
        Some (mkFlock ({[owner]} ∪ fl_shared st) (if was_exclusive then None else fl_exclusive st), was_exclusive || inserted)
  | FlockExclusive =>
      if decide (fl_exclusive st = Some owner) then Some (st, false)
      else
        let shared_by_others := negb (bool_decide (fl_shared st ⊆ {[owner]})) in
        if bool_decide (is_Some (fl_exclusive st)) || shared_by_others then None
        else Some (mkFlock (fl_shared st ∖ {[owner]}) (Some owner), true)
  end.

(** The listeners that are woken. *)
Definition flock (n : NodeRef) (owner : Z) (operation : FlockOperation) : MF (list (Z * Z)) :=
  i ← inode_at n;
  match flock_step owner operation (in_flock i) with
  | None => mthrow WouldBlock
  | Some (st, changed) =>
      let '(woken, w) := if (changed : bool) then notify (in_flock_waiters i) PollEvents.LOCK else ([], in_flock_waiters i) in
      _ ← mmodify (λ h, set_nodes (<[n := set_flock st w i]> (nodes h)) h);
      mret woken
  end.

Definition register_flock_waiter (n : NodeRef) (listener : Z) : MF Z :=
  i ← inode_at n;
  let '(id, w) := register (in_flock_waiters i) PollEvents.LOCK listener in
  _ ← mmodify (λ h, set_nodes (<[n := set_flock (in_flock i) w i]> (nodes h)) h);
  mret id.

Definition unregister_flock_waiter (n : NodeRef) (id : Z) : MF bool :=
  i ← inode_at n;
  let '(removed, w) := unregister (in_flock_waiters i) id in
  _ ← mmodify (λ h, set_nodes (<[n := set_flock (in_flock i) w i]> (nodes h)) h);
  mret removed.
