(* ===== verification/Namespace.v ===== *)
(** * Mount namespaces

    Models [aether-kernel/src/rootfs/namespace.rs] and the mounted nodes of
    [filesystem.rs]: stacks of mounts at normalized paths, the mount that
    covers a path, and moves of a mount with everything mounted below it.

    A stack is a list whose last element is the visible mount.  The order of
    the [BTreeMap] of mounts does not matter: two mount points of the same
    length that match one path are equal. *)

From Stdlib Require Import Ascii String.
From S2P Require Import Prelude Path Poll Errno Node.

Open Scope list_scope.

Record LinuxStatFs := mkStatFs {
  f_type : Z; f_bsize : Z; f_blocks : Z; f_bfree : Z; f_bavail : Z; f_files : Z; f_ffree : Z;
  f_fsid : Z * Z; f_namelen : Z; f_frsize : Z; f_flags : Z;
}.

Definition LinuxStatFs_new (magic block_size name_len : Z) : LinuxStatFs :=
  mkStatFs magic block_size 0 0 0 0 0 (0, 0) name_len block_size 0.

(** [x as i32] *)
Definition as_i32 (x : Z) : Z := (x + 2 ^ 31) mod 2 ^ 32 - 2 ^ 31.

Definition statfs_with_device_id (device_id : Z) (s : LinuxStatFs) : LinuxStatFs :=
  mkStatFs (f_type s) (f_bsize s) (f_blocks s) (f_bfree s) (f_bavail s) (f_files s) (f_ffree s)
    (as_i32 device_id, as_i32 (Z.shiftr device_id 32)) (f_namelen s) (f_frsize s) (f_flags s).

Record FileSystemIdentity := mkIdentity {
  fsid_device_id : Z;
  fsid_statfs : LinuxStatFs;
}.

Record MountedNode := mkMounted {
  mn_node : NodeRef;
  mn_device_id : Z;
  mn_statfs : LinuxStatFs;
}.

Definition MountedNode_new (node device_id : Z) (statfs : LinuxStatFs) : MountedNode :=
  mkMounted node device_id (statfs_with_device_id device_id statfs).

Record MountNamespace := mkNamespace {
  root_stack : list MountedNode;
  mounts : gmap str (list MountedNode);
}.

Abbreviation SysResult := (outcome SysErr.SysErr).

Definition MountNamespace_new (root : MountedNode) : MountNamespace := mkNamespace [root] ∅.

Definition root_mount (ns : MountNamespace) : SysResult MountedNode := expect (last (root_stack ns)).

Definition lookup_mount (path : str) (ns : MountNamespace) : SysResult (option MountedNode) :=
  if decide (path = SLASH) then m ← root_mount ns; mret (Some m)
  else mret (stack ← mounts ns !! path; last stack).

(** [path == mount_path || path.starts_with(mount_path) && path[mount_path.len()] == '/'] *)
Definition mount_path_matches (path mount_path : str) : bool :=
  bool_decide (path = mount_path) ||
  match strip_prefix mount_path path with
  | Some rest => starts_with_slash rest
  | None => false
  end.

Definition covering_step (path : str) (selected : MountedNode * nat) (entry : str * list MountedNode) : MountedNode * nat :=
  let '(mount_path, stack) := entry in
  if negb (mount_path_matches path mount_path) then selected
  else if decide (length mount_path < selected.2)%nat then selected
  else match last stack with
       | Some mount => (mount, length mount_path)
       | None => selected
       end.

Definition covering_mount (path : str) (ns : MountNamespace) : SysResult MountedNode :=
  let path := normalize_absolute_path path in
  root ← root_mount ns;
  mret (foldl (covering_step path) (root, 1%nat) (map_to_list (mounts ns))).1.

(** [self.mounts.entry(target).or_default().push(node)], or the root stack *)
Definition push_mount (target : str) (node : MountedNode) (ns : MountNamespace) : MountNamespace :=
  if decide (target = SLASH) then mkNamespace (root_stack ns ++ [node]) (mounts ns)
  else mkNamespace (root_stack ns) (<[target := default [] (mounts ns !! target) ++ [node]]> (mounts ns)).

Definition mount (target : str) (node : MountedNode) (ns : MountNamespace) : MountNamespace :=
  push_mount (normalize_absolute_path target) node ns.

(** [stack.pop()] of the mounts at a path other than the root; an empty stack is
    removed. *)
Definition pop_mount (path : str) (ns : MountNamespace) : SysResult (MountedNode * MountNamespace) :=
  stack ← ok_or (mounts ns !! path) SysErr.Inval;
  node ← ok_or (last stack) SysErr.Inval;
  mret (node, mkNamespace (root_stack ns)
          (if decide (removelast stack = []) then delete path (mounts ns) else <[path := removelast stack]> (mounts ns))).

(** The paths below [source], and the path that each is moved to. *)
Definition descendant (source path : str) : option str :=
  match strip_prefix source path with
  | Some suffix => if starts_with_slash suffix then Some suffix else None
  | None => None
  end.

Definition moved_path (target suffix : str) : str :=
  normalize_absolute_path (if decide (target = SLASH) then suffix else target ++ suffix).

(** What is left, and the stacks that were taken out with their new paths. *)
Definition rewrite_descendant_mounts (source target : str) (ms : gmap str (list MountedNode))
    : gmap str (list MountedNode) * gmap str (list MountedNode) :=
  if decide (source = SLASH) then (ms, ∅)
  else
    (filter (λ e : str * list MountedNode, descendant source e.1 = None) ms,
     list_to_map (omap (λ e, suffix ← descendant source e.1; Some (moved_path target suffix, e.2)) (map_to_list ms))).

Definition move_mount (source target : str) (ns : MountNamespace) : SysResult MountNamespace :=
  let source := normalize_absolute_path source in
  let target := normalize_absolute_path target in
  '(node, ns) ← (if decide (source = SLASH) then node ← root_mount ns; mret (node, ns) else pop_mount source ns);
  let '(kept, moved) := rewrite_descendant_mounts source target (mounts ns) in
  let ns := push_mount target node (mkNamespace (root_stack ns) kept) in
  mret (mkNamespace (root_stack ns) (moved ∪ mounts ns)).

Definition unmount (target : str) (ns : MountNamespace) : SysResult MountNamespace :=
  let target := normalize_absolute_path target in
  if decide (target = SLASH) then
    if decide (length (root_stack ns) <= 1)%nat then Err SysErr.Inval
    else mret (mkNamespace (removelast (root_stack ns)) (mounts ns))
  else '(_, ns) ← pop_mount target ns; mret ns.

(** ** Mount namespaces: theorems

    The mount that covers a path is the one at its longest prefix with a
    mount; mounting and unmounting; moving a mount with everything below it. *)

Open Scope list_scope.

Implicit Types (ns : MountNamespace) (m : MountedNode) (cs : list str) (path : str).

(** Mount points are normalized paths other than the root, and no stack is
    empty. *)
Record mounts_ok ns : Prop := {
  mo_root : root_stack ns ≠ [];
  mo_path path stack : mounts ns !! path = Some stack → path ≠ SLASH ∧ normalized path;
  mo_stack path stack : mounts ns !! path = Some stack → stack ≠ [];
}.

(** ** The covering mount *)

(** The mount at the longest prefix of [cs] that has one. *)
Fixpoint nearest_mount ns (rcs : list str) : option MountedNode :=
  match rcs with
  | [] => last (root_stack ns)
  | _ :: rest =>
      match stack ← mounts ns !! render (reverse rcs); last stack with
      | Some m => Some m
      | None => nearest_mount ns rest
      end
  end.

Lemma mount_path_matches_prefix cs ms :
  components_ok cs → components_ok ms → ms ≠ [] → mount_path_matches (render cs) (render ms) = true ↔ ∃ rest, cs = ms ++ rest.
Proof.
  intros Hcs Hms Hne. rewrite <-is_within_prefix by done. unfold is_within, mount_path_matches.
  rewrite decide_False; [done|]. by rewrite render_slash.
Qed.

Lemma covering_fold path l : ∀ sel,
  (∀ e, e ∈ l → e.2 ≠ []) →
  let r := foldl (covering_step path) sel l in
  (r = sel ∧ ∀ e, e ∈ l → mount_path_matches path e.1 = true → (length e.1 < sel.2)%nat) ∨
  (∃ e, e ∈ l ∧ mount_path_matches path e.1 = true ∧ last e.2 = Some r.1 ∧ r.2 = length e.1 ∧ (sel.2 <= length e.1)%nat ∧
     ∀ e', e' ∈ l → mount_path_matches path e'.1 = true → (length e'.1 <= length e.1)%nat).
Proof.
  induction l as [|[mp stack] l IH]; intros sel Hne; cbn [foldl]; [left; split; [done|]; by intros e ?%elem_of_nil|].
  assert (∀ e, e ∈ l → e.2 ≠ []) as Hne' by (intros e He; apply Hne; by right).
  assert (∃ m, last stack = Some m) as [m Hm].
  { destruct (last stack) as [m|] eqn:Hl; [by exists m|]. apply last_None in Hl. by destruct (Hne (mp, stack) ltac:(by left)). }
  specialize (IH (covering_step path sel (mp, stack)) Hne'). cbn zeta in IH. remember (covering_step path sel (mp, stack)) as sel' eqn:Hsel.
  unfold covering_step in Hsel. rewrite Hm in Hsel.
  destruct (mount_path_matches path mp) eqn:Hmatch; cbn [negb] in Hsel; [destruct (decide (length mp < sel.2)%nat) as [Hlt|Hge]|].
  - subst sel'. destruct IH as [[-> H]|(e & He & H)].
    + left. split; [done|]. intros e [->|He]%elem_of_cons Hx; [done|by apply H].
    + right. destruct H as (H1 & H2 & H3 & H4 & H5). exists e. split; [by right|]. split_and!; try done.
      intros e' [->|He']%elem_of_cons Hx; [simpl; lia|by apply H5].
  - right. destruct IH as [[-> H]|(e & He & H1 & H2 & H3 & H4 & H5)]; subst sel'.
    + exists (mp, stack). split; [by left|]. split_and!; try done; [simpl; lia|]. intros e' [->|He']%elem_of_cons Hx; [done|].
      pose proof (H e' He' Hx). simpl in *. lia.
    + exists e. simpl in H4. split; [by right|]. split_and!; try done; [lia|]. intros e' [->|He']%elem_of_cons Hx; [simpl; lia|by apply H5].
  - subst sel'. destruct IH as [[-> H]|(e & He & H)].
    + left. split; [done|]. intros e [->|He]%elem_of_cons Hx; [simpl in Hx; congruence|by apply H].
    + right. destruct H as (H1 & H2 & H3 & H4 & H5). exists e. split; [by right|]. split_and!; try done.
      intros e' [->|He']%elem_of_cons Hx; [simpl in Hx; congruence|by apply H5].
Qed.

Lemma render_length_lt ms rest : ms ≠ [] → components_ok rest → rest ≠ [] → (length (render ms) < length (render (ms ++ rest)))%nat.
Proof.
  intros Hms Hr Hne. rewrite !render_flat by (by destruct ms). rewrite flat_app, length_app. destruct rest as [|c rest]; [done|].
  rewrite flat_cons. simpl. lia.
Qed.

(** Without a mount at any prefix, the root covers. *)
Lemma nearest_none ns cs :
  (∀ ms rest, cs = ms ++ rest → ms ≠ [] → mounts ns !! render ms = None) → nearest_mount ns (reverse cs) = last (root_stack ns).
Proof.
  induction cs as [|c cs IH] using rev_ind; intros Hno; [done|]. rewrite reverse_snoc. cbn [nearest_mount]. rewrite <-reverse_snoc, reverse_involutive.
  rewrite (Hno (cs ++ [c]) []); [|by rewrite app_nil_r|by destruct cs]. simpl. apply IH. intros ms rest -> Hms.
  apply (Hno ms (rest ++ [c])); [by rewrite app_assoc|done].
Qed.

(** The mount at a prefix below which there is none. *)
Lemma nearest_at ns ms rest stack m :
  ms ≠ [] → mounts ns !! render ms = Some stack → last stack = Some m →
  (∀ rest1 rest2, rest = rest1 ++ rest2 → rest1 ≠ [] → mounts ns !! render (ms ++ rest1) = None) →
  nearest_mount ns (reverse (ms ++ rest)) = Some m.
Proof.
  intros Hms Hs Hm. induction rest as [|c rest IH] using rev_ind; intros Hno.
  - rewrite app_nil_r. destruct ms as [|x ms _] using rev_ind; [done|]. rewrite reverse_snoc. cbn [nearest_mount].
    rewrite <-reverse_snoc, reverse_involutive, Hs. simpl. by rewrite Hm.
  - rewrite app_assoc, reverse_snoc. cbn [nearest_mount]. rewrite <-reverse_snoc, reverse_involutive, <-app_assoc.
    rewrite (Hno (rest ++ [c]) []); [|by rewrite app_nil_r|by destruct rest]. simpl. apply IH. intros rest1 rest2 -> Hr.
    apply (Hno rest1 (rest2 ++ [c])); [by rewrite app_assoc|done].
Qed.

Lemma covering_nearest ns cs :
  mounts_ok ns → components_ok cs → ∃ m, covering_mount (render cs) ns = Ok m ∧ nearest_mount ns (reverse cs) = Some m.
Proof.
  intros [Hroot Hpath Hstack] Hcs. unfold covering_mount, root_mount. rewrite normalize_render by done.
  destruct (last (root_stack ns)) as [root|] eqn:Hl; [|by apply last_None in Hl]. cbn [expect mbind outcome_bind mret outcome_ret].
  eexists. split; [done|].
  assert (∀ e, e ∈ map_to_list (mounts ns) → e.2 ≠ []) as Hne by (intros [p st] He%elem_of_map_to_list; by eapply Hstack).
  assert (∀ ms rest, cs = ms ++ rest → components_ok ms ∧ components_ok rest) as Hsplit by (intros ms rest ->; by apply Forall_app).
  destruct (covering_fold (render cs) _ (root, 1%nat) Hne) as [[-> Hno]|(e & He & Hmatch & Hlast & _ & _ & Hmax)].
  - rewrite nearest_none; [done|]. intros ms rest Heq Hms. destruct (mounts ns !! render ms) as [st|] eqn:Hst; [|done]. exfalso.
    destruct (Hsplit _ _ Heq) as [Hok _]. pose proof (proj2 (elem_of_map_to_list _ _ _) Hst) as Hin.
    pose proof (Hno _ Hin ltac:(apply mount_path_matches_prefix; eauto)) as Hlt. simpl in Hlt. rewrite render_flat in Hlt by done.
    destruct ms as [|x ms]; [done|]. rewrite flat_cons in Hlt. simpl in Hlt. lia.
  - destruct e as [mp st]. apply elem_of_map_to_list in He. destruct (Hpath _ _ He) as [Hns (ms & Hok & ->)]. cbn [fst snd] in Hmatch, Hlast, Hmax.
    assert (ms ≠ []) as Hms by (intros ->; done). apply mount_path_matches_prefix in Hmatch as [rest Heq]; try done. rewrite Heq at 1.
    apply (nearest_at ns ms rest st); [done|done|done|]. intros rest1 rest2 -> Hr1. destruct (mounts ns !! render (ms ++ rest1)) as [st1|] eqn:Hst1; [|done]. exfalso.
    destruct (Hsplit (ms ++ rest1) rest2) as [Hok1 _]; [by rewrite <-app_assoc|]. pose proof Hok1 as [_ Hokr]%Forall_app.
    pose proof (Hmax _ (proj2 (elem_of_map_to_list _ _ _) Hst1)) as Hle. simpl in Hle.
    assert (mount_path_matches (render cs) (render (ms ++ rest1)) = true) as Hx.
    { apply mount_path_matches_prefix; try done; [by destruct ms|]. exists rest2. by rewrite <-app_assoc. }
    specialize (Hle Hx). pose proof (render_length_lt ms rest1 Hms Hokr Hr1). lia.
Qed.

(** ** Mounting and unmounting *)

Lemma push_ok path m ns : mounts_ok ns → normalized path → mounts_ok (push_mount path m ns).
Proof.
  intros [Hr Hp Hs] Hn. unfold push_mount. destruct (decide _) as [->|Hne]; split; simpl; try done.
  - by destruct (root_stack ns).
  - intros p st [[<- <-]|[_ ?]]%lookup_insert_Some; eauto.
  - intros p st [[<- <-]|[_ ?]]%lookup_insert_Some; [by destruct (default _ _)|eauto].
Qed.

Lemma mount_ok path m ns : mounts_ok ns → mounts_ok (mount path m ns).
Proof. intros Hok. apply push_ok; [done|apply normalize_normalized]. Qed.

Lemma removelast_snoc {A} (l : list A) x : removelast (l ++ [x]) = l.
Proof. by rewrite removelast_last. Qed.

Lemma pop_push path m ns : mounts_ok ns → path ≠ SLASH → pop_mount path (push_mount path m ns) = Ok (m, ns).
Proof.
  intros [Hr Hp Hs] Hne. unfold push_mount, pop_mount. rewrite decide_False by done. cbn [mounts root_stack]. rewrite lookup_insert_eq.
  cbn [ok_or mbind outcome_bind]. rewrite last_snoc. cbn [ok_or mbind outcome_bind mret outcome_ret]. rewrite removelast_snoc.
  do 3 f_equal. destruct ns as [rs ms]. cbn [mounts root_stack] in *. f_equal. destruct (ms !! path) as [st|] eqn:Hst; cbn [default from_option].
  - rewrite decide_False by (by eapply Hs). by rewrite insert_insert_eq, insert_id.
  - rewrite decide_True by done. by apply delete_insert_id.
Qed.

Lemma push_root m ns : push_mount SLASH m ns = mkNamespace (root_stack ns ++ [m]) (mounts ns).
Proof. done. Qed.

Lemma unmount_mount path m ns : mounts_ok ns → unmount path (mount path m ns) = Ok ns.
Proof.
  intros Hok. unfold unmount, mount. destruct (decide (normalize_absolute_path path = SLASH)) as [Hs|Hs].
  - rewrite Hs, push_root. cbn [root_stack mounts]. destruct Hok as [Hr _ _]. destruct ns as [rs ms]. simpl in *.
    rewrite decide_False by (rewrite length_app; destruct rs; [done|simpl; lia]). by rewrite removelast_snoc.
  - by rewrite pop_push.
Qed.

Lemma lookup_mount_push path m ns q :
  lookup_mount q (push_mount path m ns) = if decide (q = path) then Ok (Some m) else lookup_mount q ns.
Proof.
  unfold push_mount, lookup_mount, root_mount. destruct (decide (path = SLASH)) as [->|Hne]; cbn [root_stack mounts].
  - destruct (decide (q = SLASH)) as [->|Hq]; [by rewrite last_snoc|done].
  - destruct (decide (q = path)) as [->|Hq].
    + rewrite decide_False by done. rewrite lookup_insert_eq. simpl. by rewrite last_snoc.
    + by rewrite lookup_insert_ne.
Qed.

Lemma pop_ok path ns m ns' : mounts_ok ns → pop_mount path ns = Ok (m, ns') → mounts_ok ns'.
Proof.
  intros [Hr Hp Hs]. unfold pop_mount. destruct (mounts ns !! path) as [st|] eqn:Hst; [|done]. cbn [ok_or mbind outcome_bind].
  destruct (last st) as [x|]; [|done]. cbn [ok_or mbind outcome_bind]. intros [= <- <-]. split; simpl; try done.
  - destruct (decide _).
    + intros p st' [_ ?]%lookup_delete_Some. eauto.
    + intros p st' [[<- <-]|[_ ?]]%lookup_insert_Some; eauto.
  - destruct (decide _).
    + intros p st' [_ ?]%lookup_delete_Some. eauto.
    + intros p st' [[<- <-]|[_ ?]]%lookup_insert_Some; eauto.
Qed.

Lemma unmount_ok path ns ns' : mounts_ok ns → unmount path ns = Ok ns' → mounts_ok ns'.
Proof.
  intros Hok. unfold unmount. destruct (decide _).
  - destruct (decide _) as [|Hlen]; [done|]. intros [= <-]. destruct Hok as [Hr Hp Hs]. split; simpl; try done.
    destruct (root_stack ns) as [|x [|y l]]; simpl in *; [lia|lia|done].
  - destruct (pop_mount _ ns) as [[m n1]| | |] eqn:Hpop; try done. intros [= <-]. by eapply pop_ok.
Qed.

(** ** Moving *)

Lemma descendant_render ss ps suffix :
  components_ok ss → components_ok ps → ss ≠ [] →
  descendant (render ss) (render ps) = Some suffix ↔ ∃ q, q ≠ [] ∧ ps = ss ++ q ∧ suffix = flat q.
Proof.
  intros Hss Hps Hne. unfold descendant. split.
  - destruct (strip_prefix (render ss) (render ps)) as [rest|] eqn:Hs; [|done]. destruct (starts_with_slash rest) eqn:Hst; [|done]. intros [= <-].
    assert (is_within (render ss) (render ps) = true) as Hin.
    { unfold is_within. rewrite decide_False by (by rewrite render_slash). by rewrite Hs, Hst, orb_true_r. }
    apply is_within_prefix in Hin as [q ->]; try done. apply strip_prefix_Some in Hs. rewrite !render_flat in Hs by (by destruct ss).
    rewrite flat_app in Hs. apply app_inv_head in Hs as <-. exists q. split; [|done]. by intros ->.
  - intros (q & Hq & -> & ->). rewrite !render_flat by (by destruct ss). rewrite flat_app.
    rewrite (proj2 (strip_prefix_Some (flat ss) (flat ss ++ flat q) (flat q)) eq_refl). destruct q as [|c q]; [done|]. by rewrite flat_cons.
Qed.

Lemma moved_path_render ts q : components_ok ts → components_ok q → q ≠ [] → moved_path (render ts) (flat q) = render (ts ++ q).
Proof.
  intros Hts Hq Hne. unfold moved_path. destruct (decide _) as [Hs|Hs].
  - apply render_slash in Hs as ->; [|done]. simpl. rewrite <-render_flat by done. by apply normalize_render.
  - rewrite render_slash in Hs by done. rewrite render_flat by done. rewrite <-flat_app. rewrite <-render_flat by (by destruct ts).
    apply normalize_render. by apply Forall_app.
Qed.

Section move.
Context (ss ts : list str) (Hss : components_ok ss) (Hts : components_ok ts) (Hne : ss ≠ []).
Context (ms : gmap str (list MountedNode)) (Hms : ∀ p st, ms !! p = Some st → normalized p).

Lemma rewrite_eq :
  rewrite_descendant_mounts (render ss) (render ts) ms =
    (filter (λ e : str * list MountedNode, descendant (render ss) e.1 = None) ms,
     list_to_map (omap (λ e, suffix ← descendant (render ss) e.1; Some (moved_path (render ts) suffix, e.2)) (map_to_list ms))).
Proof. unfold rewrite_descendant_mounts. rewrite decide_False; [done|]. by rewrite render_slash. Qed.

(** What is under a new path. *)
Lemma moved_elem k st :
  (k, st) ∈ omap (λ e, suffix ← descendant (render ss) e.1; Some (moved_path (render ts) suffix, e.2)) (map_to_list ms) ↔
  ∃ q, q ≠ [] ∧ components_ok q ∧ k = render (ts ++ q) ∧ ms !! render (ss ++ q) = Some st.
Proof.
  rewrite list_elem_of_omap. split.
  - intros ([p st'] & Hin%elem_of_map_to_list & Hx). cbn [fst snd] in Hx. destruct (descendant (render ss) p) as [suffix|] eqn:Hd; [|done].
    simpl in Hx. injection Hx as <- <-. destruct (Hms _ _ Hin) as (ps & Hps & ->).
    apply descendant_render in Hd as (q & Hq & -> & ->); try done. pose proof Hps as [_ Hqok]%Forall_app. exists q.
    split_and!; try done. by apply moved_path_render.
  - intros (q & Hq & Hqok & -> & Hst). exists (render (ss ++ q), st). split; [by apply elem_of_map_to_list|]. cbn [fst snd].
    rewrite (proj2 (descendant_render ss (ss ++ q) (flat q) Hss ltac:(by apply Forall_app) Hne)) by (by exists q). simpl.
    by rewrite moved_path_render.
Qed.

Lemma moved_lookup_some q st :
  q ≠ [] → components_ok q → ms !! render (ss ++ q) = Some st → (rewrite_descendant_mounts (render ss) (render ts) ms).2 !! render (ts ++ q) = Some st.
Proof.
  intros Hq Hqok Hst. rewrite rewrite_eq. cbn [snd]. apply elem_of_list_to_map_1'; [|apply moved_elem; by exists q].
  intros st' (q' & Hq' & Hqok' & Heq & Hst')%moved_elem. apply render_inj in Heq; [|by apply Forall_app..]. apply app_inv_head in Heq as <-. congruence.
Qed.

Lemma moved_lookup_inv k st :
  (rewrite_descendant_mounts (render ss) (render ts) ms).2 !! k = Some st →
  ∃ q, q ≠ [] ∧ components_ok q ∧ k = render (ts ++ q) ∧ ms !! render (ss ++ q) = Some st.
Proof. rewrite rewrite_eq. cbn [snd]. intros Hk%elem_of_list_to_map_2. by apply moved_elem. Qed.

Lemma kept_lookup p st :
  (rewrite_descendant_mounts (render ss) (render ts) ms).1 !! p = Some st ↔ ms !! p = Some st ∧ descendant (render ss) p = None.
Proof. rewrite rewrite_eq. cbn [fst]. by rewrite map_lookup_filter_Some. Qed.
End move.

Lemma lookup_mount_ne path ns : path ≠ SLASH → lookup_mount path ns = Ok (stack ← mounts ns !! path; last stack).
Proof. intros Hne. unfold lookup_mount. by rewrite decide_False. Qed.

Lemma pop_lookup path ns m ns' q :
  pop_mount path ns = Ok (m, ns') → q ≠ path → mounts ns' !! q = mounts ns !! q ∧ root_stack ns' = root_stack ns.
Proof.
  unfold pop_mount. destruct (mounts ns !! path) as [st|]; [|done]. cbn [ok_or mbind outcome_bind]. destruct (last st); [|done].
  cbn [ok_or mbind outcome_bind]. intros [= <- <-] Hq. cbn [mounts root_stack]. split; [|done].
  destruct (decide _); [by rewrite lookup_delete_ne|by rewrite lookup_insert_ne].
Qed.

Lemma pop_top path ns m ns' : pop_mount path ns = Ok (m, ns') → ∃ st, mounts ns !! path = Some st ∧ last st = Some m.
Proof.
  unfold pop_mount. destruct (mounts ns !! path) as [st|]; [|done]. cbn [ok_or mbind outcome_bind]. destruct (last st) as [x|] eqn:Hl; [|done].
  cbn [ok_or mbind outcome_bind]. intros [= <- <-]. eauto.
Qed.

Section moved.
Context ns (ns' : MountNamespace) (ss ts : list str) (Hok : mounts_ok ns) (Hss : components_ok ss) (Hts : components_ok ts) (Hne : ss ≠ []).
Context (Hmv : move_mount (render ss) (render ts) ns = Ok ns').

(** The parts of the new namespace. *)
Lemma move_mount_split :
  ∃ m ns1, pop_mount (render ss) ns = Ok (m, ns1) ∧
    let km := rewrite_descendant_mounts (render ss) (render ts) (mounts ns1) in
    let ns2 := push_mount (render ts) m (mkNamespace (root_stack ns1) km.1) in
    ns' = mkNamespace (root_stack ns2) (km.2 ∪ mounts ns2).
Proof.
  revert Hmv. unfold move_mount. rewrite !normalize_render by done. rewrite decide_False by (by rewrite render_slash).
  destruct (pop_mount (render ss) ns) as [[m ns1]| | |]; try done. cbn [mbind outcome_bind].
  destruct (rewrite_descendant_mounts _ _ _) as [kept moved] eqn:Hr. intros [= <-]. exists m, ns1. split; [done|]. by rewrite Hr.
Qed.

(** The mount itself is at the target. *)
Lemma move_mount_top m : lookup_mount (render ss) ns = Ok (Some m) → (¬ ∃ q, q ≠ [] ∧ ts = ss ++ q) → lookup_mount (render ts) ns' = Ok (Some m).
Proof.
  intros Hl Hno. destruct move_mount_split as (x & ns1 & Hpop & Heq). cbn zeta in Heq. destruct (pop_top _ _ _ _ Hpop) as (st & Hst & Hlast).
  rewrite lookup_mount_ne, Hst in Hl by (by rewrite render_slash). simpl in Hl. rewrite Hlast in Hl. injection Hl as <-.
  pose proof (pop_ok _ _ _ _ Hok Hpop) as [_ Hp1 _]. destruct (decide (render ts = SLASH)) as [Hs|Hs].
  - rewrite Heq, Hs, push_root. unfold lookup_mount, root_mount. simpl. by rewrite last_snoc.
  - rewrite lookup_mount_ne by done. rewrite Heq. cbn [mounts]. rewrite lookup_union_r.
    + pose proof (lookup_mount_push (render ts) x (mkNamespace (root_stack ns1) (rewrite_descendant_mounts (render ss) (render ts) (mounts ns1)).1) (render ts)) as Hpush.
      rewrite decide_True, lookup_mount_ne in Hpush by done. injection Hpush as ->. done.
    + destruct (_ !! render ts) as [st'|] eqn:Hx; [|done]. exfalso.
      apply moved_lookup_inv in Hx as (q & Hq & Hqok & Hr & _); try done; [|intros p s ?; by eapply Hp1].
      apply render_inj in Hr; [|done|by apply Forall_app]. rewrite <-(app_nil_r ts) in Hr at 1. by apply app_inv_head in Hr.
Qed.

(** What was mounted below it is below the target. *)
Lemma move_mount_below q m :
  q ≠ [] → components_ok q → lookup_mount (render (ss ++ q)) ns = Ok (Some m) → lookup_mount (render (ts ++ q)) ns' = Ok (Some m).
Proof.
  intros Hq Hqok Hl. destruct move_mount_split as (x & ns1 & Hpop & Heq). cbn zeta in Heq. pose proof (pop_ok _ _ _ _ Hok Hpop) as [_ Hp1 _].
  assert (components_ok (ss ++ q)) as Hsq by (by apply Forall_app). assert (components_ok (ts ++ q)) as Htq by (by apply Forall_app).
  rewrite lookup_mount_ne in Hl by (rewrite render_slash by done; by destruct ss).
  rewrite lookup_mount_ne by (rewrite render_slash by done; by destruct ts, q).
  destruct (mounts ns !! render (ss ++ q)) as [st|] eqn:Hst; [|done]. simpl in Hl.
  assert (mounts ns1 !! render (ss ++ q) = Some st) as Hst1.
  { rewrite <-Hst. apply (pop_lookup _ _ _ _ _ Hpop). intros Hr. apply render_inj in Hr; [|done|done].
    rewrite <-(app_nil_r ss) in Hr at 2. by apply app_inv_head in Hr. }
  rewrite Heq. cbn [mounts]. erewrite lookup_union_Some_l; [done|]. apply moved_lookup_some; try done. intros p s ?. by eapply Hp1.
Qed.

(** Elsewhere nothing changes. *)
Lemma move_mount_outside ps :
  components_ok ps → (¬ ∃ q, ps = ss ++ q) → (¬ ∃ q, ps = ts ++ q) → lookup_mount (render ps) ns' = lookup_mount (render ps) ns.
Proof.
  intros Hps Hs Ht. destruct move_mount_split as (x & ns1 & Hpop & Heq). cbn zeta in Heq. pose proof (pop_ok _ _ _ _ Hok Hpop) as [_ Hp1 _].
  assert (ts ≠ []) as Htne by (intros ->; apply Ht; by exists ps).
  assert (render ps ≠ render ss) as Hne1.
  { intros Hr. apply render_inj in Hr; [|done|done]. apply Hs. exists []. by rewrite app_nil_r. }
  assert (render ps ≠ render ts) as Hne2.
  { intros Hr. apply render_inj in Hr; [|done|done]. apply Ht. exists []. by rewrite app_nil_r. }
  destruct (pop_lookup _ _ _ _ _ Hpop Hne1) as [Hl1 Hr1].
  assert (push_mount (render ts) x (mkNamespace (root_stack ns1) (rewrite_descendant_mounts (render ss) (render ts) (mounts ns1)).1) =
    mkNamespace (root_stack ns1) (<[render ts := default [] ((rewrite_descendant_mounts (render ss) (render ts) (mounts ns1)).1 !! render ts) ++ [x]]>
      (rewrite_descendant_mounts (render ss) (render ts) (mounts ns1)).1)) as Hpush.
  { unfold push_mount. by rewrite decide_False by (by rewrite render_slash). }
  rewrite Hpush in Heq. rewrite Heq. unfold lookup_mount, root_mount. cbn [root_stack mounts]. rewrite Hr1. destruct (decide _); [done|]. apply f_equal, (f_equal (λ o, o ≫= last)).
  rewrite lookup_union_r.
  2:{ destruct ((rewrite_descendant_mounts _ _ _).2 !! render ps) as [st|] eqn:Hx; [|done]. exfalso.
      apply moved_lookup_inv in Hx as (q & Hq & Hqok & Hr & _); try done; [|intros p s ?; by eapply Hp1].
      apply render_inj in Hr; [|done|by apply Forall_app]. apply Ht. by exists q. }
  rewrite lookup_insert_ne by done.
  rewrite <-Hl1. apply option_eq. intros st. rewrite kept_lookup by done. split; [tauto|]. intros Hst. split; [done|].
  destruct (descendant (render ss) (render ps)) as [sx|] eqn:Hd; [|done]. exfalso. apply descendant_render in Hd as (q & _ & -> & _); try done. apply Hs. by exists q.
Qed.
End moved.

(** ** Claims *)

(** The mount that covers a path is the mount at the longest prefix of the
    path (by whole components) that has one, or the root. *)
Theorem covering_mount_longest ns path :
  mounts_ok ns →
  covering_mount path ns = expect (nearest_mount ns (reverse (split_components (normalize_absolute_path path)))).
Proof.
  intros Hok. destruct (normalize_normalized path) as (cs & Hcs & Hp). destruct (covering_nearest ns cs Hok Hcs) as (m & Hc & Hn).
  assert (covering_mount path ns = covering_mount (render cs) ns) as ->.
  { unfold covering_mount. by rewrite Hp, normalize_render. }
  by rewrite Hc, Hp, split_components_render, Hn.
Qed.

(** Mounting and unmounting: a mount at [target] is what is found there and
    nowhere else anything changes, unmounting it gives the namespace back, and
    the last mount of the root cannot be unmounted. *)
Theorem mount_unmount_roundtrip ns target m :
  mounts_ok ns →
  mounts_ok (mount target m ns) ∧ unmount target (mount target m ns) = Ok ns ∧
  (∀ path, lookup_mount path (mount target m ns) =
     if decide (path = normalize_absolute_path target) then Ok (Some m) else lookup_mount path ns) ∧
  (length (root_stack ns) = 1%nat → unmount SLASH ns = Err SysErr.Inval).
Proof.
  intros Hok. split; [by apply mount_ok|]. split; [by apply unmount_mount|]. split; [intros path; apply lookup_mount_push|].
  intros Hlen. unfold unmount. rewrite decide_True by done. by rewrite decide_True by lia.
Qed.

(** Moving a mount: the mount and every mount below it are found at their
    new paths (what [remap_mount_path] makes of the old ones), and mounts
    outside the source and the target are where they were; there is a mount at
    the source, or the move fails. *)
Theorem move_mount_relocates ns source target :
  mounts_ok ns → normalized source → normalized target → source ≠ SLASH → is_within source target = false →
  match move_mount source target ns with
  | Ok ns' =>
      (∀ path m, normalized path → is_within source path = true → lookup_mount path ns = Ok (Some m) →
         lookup_mount (remap_mount_path path source target) ns' = Ok (Some m)) ∧
      (∀ path, normalized path → is_within source path = false → is_within target path = false → lookup_mount path ns' = lookup_mount path ns)
  | Err e => e = SysErr.Inval ∧ lookup_mount source ns = Ok None
  | _ => False
  end.
Proof.
  intros Hok (ss & Hss & ->) (ts & Hts & ->) Hne Hin. rewrite render_slash in Hne by done. destruct (move_mount (render ss) (render ts) ns) as [ns'|e| |] eqn:Hmv.
  - split.
    + intros path m (ps & Hps & ->) Hw Hl. apply is_within_prefix in Hw as [q ->]; [|done..]. pose proof Hps as [_ Hq]%Forall_app.
      rewrite remap_inside by done. destruct (decide (q = [])) as [->|Hqn]; [|by apply (move_mount_below ns ns' ss ts)].
      rewrite app_nil_r in *. apply (move_mount_top ns ns' ss ts); try done. intros (q & _ & ->). apply not_true_iff_false in Hin. apply Hin, is_within_prefix; eauto.
    + intros path (ps & Hps & ->) Hs Ht. apply (move_mount_outside ns ns' ss ts); try done.
      * intros Hx. apply not_true_iff_false in Hs. by apply Hs, is_within_prefix.
      * intros Hx. apply not_true_iff_false in Ht. by apply Ht, is_within_prefix.
  - revert Hmv. unfold move_mount. rewrite !normalize_render by done. rewrite decide_False by (by rewrite render_slash).
    unfold lookup_mount, pop_mount. rewrite decide_False by (by rewrite render_slash). destruct (mounts ns !! render ss) as [st|] eqn:Hst; [|intros [= <-]; split; done].
    cbn [ok_or mbind outcome_bind]. destruct (last st) as [x|] eqn:Hl; [|apply last_None in Hl; by destruct (mo_stack _ Hok _ _ Hst)].
    cbn [ok_or mbind outcome_bind mret outcome_ret]. by case_match.
  - revert Hmv. unfold move_mount. destruct (decide _) as [Hx|_]; [by rewrite normalize_render, render_slash in Hx|]. unfold pop_mount.
    destruct (mounts ns !! _) as [st|]; [|done]. cbn [ok_or mbind outcome_bind]. destruct (last st); [|done].
    cbn [ok_or mbind outcome_bind mret outcome_ret]. by case_match.
  - revert Hmv. unfold move_mount. destruct (decide _) as [Hx|_]; [by rewrite normalize_render, render_slash in Hx|]. unfold pop_mount.
    destruct (mounts ns !! _) as [st|]; [|done]. cbn [ok_or mbind outcome_bind]. destruct (last st); [|done].
    cbn [ok_or mbind outcome_bind mret outcome_ret]. by case_match.
Qed.

(** ** A namespace with mounts at [/a], [/a/b] and [/c] *)

Definition mount_of (node : Z) : MountedNode := MountedNode_new node node (LinuxStatFs_new 0 4096 255).
Definition demo_mounts : MountNamespace :=
  mount (lit "/c") (mount_of 3) (mount (lit "/a/b") (mount_of 2) (mount (lit "/a") (mount_of 1) (MountNamespace_new (mount_of 0)))).

Lemma demo_mounts_ok : mounts_ok demo_mounts.
Proof. do 3 apply mount_ok. split; simpl; [done|intros ? ?; by rewrite lookup_empty..]. Qed.

Lemma covering_mount_longest_witness :
  covering_mount (lit "/a/./b/../bc/d") demo_mounts = Ok (mount_of 1) ∧ covering_mount (lit "/a/b/d") demo_mounts = Ok (mount_of 2) ∧
  nearest_mount demo_mounts (reverse (split_components (lit "/a/b/d"))) = Some (mount_of 2).
Proof.
  split; [rewrite (covering_mount_longest _ _ demo_mounts_ok); vm_compute; reflexivity|]. split; vm_compute; reflexivity.
Defined.

Lemma mount_unmount_roundtrip_witness :
  unmount (lit "/a/../d") (mount (lit "/d") (mount_of 4) demo_mounts) = Ok demo_mounts.
Proof.
  change (unmount (lit "/d") (mount (lit "/d") (mount_of 4) demo_mounts) = Ok demo_mounts).
  exact (proj1 (proj2 (mount_unmount_roundtrip demo_mounts (lit "/d") (mount_of 4) demo_mounts_ok))).
Defined.

Lemma move_mount_relocates_witness :
  match move_mount (lit "/a") (lit "/c/m") demo_mounts with
  | Ok ns' => lookup_mount (lit "/c/m/b") ns' = Ok (Some (mount_of 2)) ∧ lookup_mount (lit "/c") ns' = Ok (Some (mount_of 3))
  | _ => False
  end.
Proof.
  assert (normalized (lit "/a")) as Ha by (apply (normalized_lit [lit "a"]); solve_components).
  assert (normalized (lit "/c/m")) as Hc by (apply (normalized_lit [lit "c"; lit "m"]); solve_components).
  assert (normalized (lit "/a/b")) as Hab by (apply (normalized_lit [lit "a"; lit "b"]); solve_components).
  pose proof (move_mount_relocates demo_mounts (lit "/a") (lit "/c/m") demo_mounts_ok Ha Hc ltac:(discriminate) ltac:(reflexivity)) as H.
  assert (match move_mount (lit "/a") (lit "/c/m") demo_mounts with Ok ns' => lookup_mount (lit "/c") ns' | _ => Panic end = Ok (Some (mount_of 3))) as Hcm
    by (vm_compute; reflexivity).
  destruct (move_mount (lit "/a") (lit "/c/m") demo_mounts) as [ns'|e| |]; [|discriminate Hcm..]. split; [|exact Hcm].
  exact (proj1 H (lit "/a/b") (mount_of 2) Hab ltac:(reflexivity) ltac:(vm_compute; reflexivity)).
Defined.
