(* ===== verification/Rootfs.v ===== *)
(** * The root file system

    Models [RootfsManager] of [aether-kernel/src/rootfs/mod.rs] and the
    contexts of [namespace.rs]: path lookup through mounts and symbolic links,
    and the system calls on names.  The file systems that can be mounted by
    name are a parameter ([KernelFileSystem] is a trait; [ext] wraps a
    third-party crate), as are the nodes that procfs makes up for the processes.
    Notifications of inotify are recorded in the order they are sent. *)

From Stdlib Require Import Ascii String.
From S2P Require Import Prelude Poll Errno Path MemFile Node Namespace.

Open Scope list_scope.

(** ** State *)

(** [FsLocation] ([VfsPath]) *)
Record FsLocation := mkLocation {
  loc_path : str;
  loc_node : NodeRef;
}.

(** [ProcessFsState]; the namespace is shared, so it is a reference. *)
Record ProcessFsState := mkFsState {
  fs_namespace : Z;
  fs_root : FsLocation;
  fs_cwd : FsLocation;
}.

Inductive FsEvent :=
| Created (parent node : NodeRef) (name : str)
| Deleted (parent node : NodeRef) (name : str)
| Moved (source_parent target_parent node : NodeRef) (source_name target_name : str).

Record world := mkRootfs {
  w_heap : heap;
  w_namespaces : gmap Z MountNamespace;
  w_contexts : gmap Z ProcessFsState;
  w_next_context : Z;
  w_next_device : Z;
  w_events : list FsEvent;
}.

Definition MR := M world SysErr.SysErr.

Definition set_heap (h : heap) (w : world) : world :=
  mkRootfs h (w_namespaces w) (w_contexts w) (w_next_context w) (w_next_device w) (w_events w).
Definition set_namespaces (m : gmap Z MountNamespace) (w : world) : world :=
  mkRootfs (w_heap w) m (w_contexts w) (w_next_context w) (w_next_device w) (w_events w).
Definition set_contexts (m : gmap Z ProcessFsState) (w : world) : world :=
  mkRootfs (w_heap w) (w_namespaces w) m (w_next_context w) (w_next_device w) (w_events w).

(** [.map_err(SysErr::from)?] of an operation on nodes *)
Definition on_heap {A} (op : MF A) : MR A := λ w,
  match op (w_heap w) with
  | (Ok a, h) => (Ok a, set_heap h w)
  | (Err e, h) => (Err (SysErr.from_fs_error e), set_heap h w)
  | (Panic, h) => (Panic, set_heap h w)
  | (Diverge, h) => (Diverge, set_heap h w)
  end.

Definition lift {A} (r : SysResult A) : MR A := λ w, (r, w).

Definition notify_fs (e : FsEvent) : MR unit :=
  mmodify (λ w, mkRootfs (w_heap w) (w_namespaces w) (w_contexts w) (w_next_context w) (w_next_device w) (w_events w ++ [e])).

(** A reference always points to its object. *)
Definition fetch {A} (f : world → option A) : MR A := λ w, mexpect (f w) w.

Definition context (fs : Z) : MR ProcessFsState := fetch (λ w, w_contexts w !! fs).

(** [fs.namespace().lock()] *)
Definition namespace_of (fs : Z) : MR MountNamespace :=
  s ← context fs; fetch (λ w, w_namespaces w !! fs_namespace s).

Definition put_namespace (fs : Z) (ns : MountNamespace) : MR unit :=
  s ← context fs; mmodify (λ w, set_namespaces (<[fs_namespace s := ns]> (w_namespaces w)) w).

Definition put_context (fs : Z) (s : ProcessFsState) : MR unit :=
  mmodify (λ w, set_contexts (<[fs := s]> (w_contexts w)) w).

(** ** Mounted nodes *)

(** [MountedNode::node]: a fresh wrapper each time *)
Definition mounted_node (m : MountedNode) : MR NodeRef :=
  on_heap (alloc_node (MountedVfsNode (mn_node m) (mn_device_id m))).

Definition root_node (ns : MountNamespace) : MR NodeRef :=
  m ← lift (root_mount ns); mounted_node m.

Definition mount_identity (m : MountedNode) : FileSystemIdentity := mkIdentity (mn_device_id m) (mn_statfs m).

Definition allocate_mount_device_id : MR Z := λ w,
  (Ok (w_next_device w),
   mkRootfs (w_heap w) (w_namespaces w) (w_contexts w) (w_next_context w)
     (saturating_add u64_max (w_next_device w) 1) (w_events w)).

(** ** Contexts *)

(** [Arc::new(SpinLock::new(..))] *)
Definition alloc_context (s : ProcessFsState) : MR Z := λ w,
  (Ok (w_next_context w),
   mkRootfs (w_heap w) (w_namespaces w) (<[w_next_context w := s]> (w_contexts w))
     (w_next_context w + 1) (w_next_device w) (w_events w)).

Definition ProcessFsContext_new (namespace : Z) : MR Z :=
  ns ← fetch (λ w, w_namespaces w !! namespace);
  node ← root_node ns;
  let root := mkLocation SLASH node in
  alloc_context (mkFsState namespace root root).

Definition context_fork_copy (fs : Z) : MR Z :=
  s ← context fs;
  alloc_context s.

Definition set_root_location (fs : Z) (l : FsLocation) : MR unit :=
  s ← context fs; put_context fs (mkFsState (fs_namespace s) l (fs_cwd s)).
Definition set_cwd_location (fs : Z) (l : FsLocation) : MR unit :=
  s ← context fs; put_context fs (mkFsState (fs_namespace s) (fs_root s) l).

(** [resolve_view_path(&fs.root_path(), &fs.cwd_path(), path)] *)
Definition view_path (fs : Z) (path : str) : MR str :=
  s ← context fs; mret (resolve_view_path (loc_path (fs_root s)) (loc_path (fs_cwd s)) path).

(** ** Lookup *)

Record NamespaceLookup := mkLookup {
  lk_node : NodeRef;
  lk_path : str;
}.

(** The node at [current_path/component]: what is mounted there, or the entry. *)
Definition step_component (ns : MountNamespace) (current : NodeRef) (current_path component : str) : MR NodeRef :=
  m ← lift (lookup_mount (resolve_namespace_path current_path component) ns);
  match m with
  | Some m => mounted_node m
  | None => found ← on_heap (node_lookup current component); mok_or found SysErr.NoEnt
  end.

(** The loop over the components; [redirect] looks up the path that a symbolic
    link leads to, one level deeper. *)
Fixpoint walk_components (redirect : str → MR NamespaceLookup) (ns : MountNamespace) (follow_final : bool)
    (components : list str) (current : NodeRef) (current_path : str) : MR NamespaceLookup :=
  match components with
  | [] => mret (mkLookup current current_path)
  | component :: tail =>
      next ← step_component ns current current_path component;
      let is_final := bool_decide (tail = []) in
      k ← on_heap (kind next);
      if bool_decide (k = Symlink) && (negb is_final || follow_final) then
        target ← on_heap (symlink_target next);
        target ← mok_or target SysErr.Inval;
        redirect (foldl resolve_namespace_path (resolve_symlink_path current_path target) tail)
      else walk_components redirect ns follow_final tail next (resolve_namespace_path current_path component)
  end.

(** [depth > 8] is an error: [left] is [9 - depth]. *)
Fixpoint lookup_namespace_entry (left : nat) (ns : MountNamespace) (path : str) (follow_final : bool) : MR NamespaceLookup :=
  match left with
  | O => mthrow SysErr.Loop
  | S left' =>
      let normalized := normalize_absolute_path path in
      root ← root_node ns;
      if decide (normalized = SLASH) then mret (mkLookup root SLASH)
      else walk_components (λ redirected, lookup_namespace_entry left' ns redirected follow_final) ns follow_final
             (split_components normalized) root SLASH
  end.

Definition MAX_LINKS : nat := 9.

Definition lookup_namespace_path (ns : MountNamespace) (path : str) (follow_final : bool) : MR NodeRef :=
  l ← lookup_namespace_entry MAX_LINKS ns path follow_final; mret (lk_node l).

Section manager.
(** [crate::procfs::lookup_virtual] *)
Context (lookup_virtual : str → option (SysResult NodeRef)).

Definition lookup_in_with_identity (fs : Z) (path : str) (follow_final : bool) : MR (NodeRef * FileSystemIdentity) :=
  namespace_path ← view_path fs path;
  ns ← namespace_of fs;
  match lookup_virtual namespace_path with
  | Some result =>
      m ← lift (covering_mount namespace_path ns);
      node ← lift result;
      mret (node, mount_identity m)
  | None =>
      l ← lookup_namespace_entry MAX_LINKS ns namespace_path follow_final;
      m ← lift (covering_mount (lk_path l) ns);
      mret (lk_node l, mount_identity m)
  end.

Definition lookup_in (fs : Z) (path : str) (follow_final : bool) : MR NodeRef :=
  r ← lookup_in_with_identity fs path follow_final; mret r.1.

Definition statfs_in (fs : Z) (path : str) : MR LinuxStatFs :=
  namespace_path ← view_path fs path;
  ns ← namespace_of fs;
  l ← lookup_namespace_entry MAX_LINKS ns namespace_path true;
  m ← lift (covering_mount (lk_path l) ns);
  mret (mn_statfs m).

(** ** Creation *)

Definition expect_directory (n : NodeRef) : MR unit :=
  k ← on_heap (kind n);
  if decide (k = Directory) then mret () else mthrow SysErr.NotDir.

(** The node an existing entry stands for when it is walked through. *)
Definition through (ns : MountNamespace) (next_path : str) (existing : NodeRef) : MR NodeRef :=
  k ← on_heap (kind existing);
  if decide (k = Symlink) then lookup_namespace_path ns next_path true else mret existing.

Fixpoint ensure_dirs (ns : MountNamespace) (components : list str) (current : NodeRef) (current_path : str) : MR NodeRef :=
  match components with
  | [] => mret current
  | component :: tail =>
      let next_path := resolve_namespace_path current_path component in
      m ← lift (lookup_mount next_path ns);
      match m with
      | Some m =>
          mount_node ← mounted_node m;
          _ ← expect_directory mount_node;
          ensure_dirs ns tail mount_node next_path
      | None =>
          found ← on_heap (node_lookup current component);
          match found with
          | Some existing =>
              next ← through ns next_path existing;
              _ ← expect_directory next;
              ensure_dirs ns tail next next_path
          | None =>
              next ← on_heap (DirectoryNode_new component);
              _ ← on_heap (insert_child current component next);
              ensure_dirs ns tail next next_path
          end
      end
  end.

Definition ensure_dir_namespace_locked (ns : MountNamespace) (path : str) : MR NodeRef :=
  let normalized := normalize_absolute_path path in
  root ← root_node ns;
  if decide (normalized = SLASH) then _ ← expect_directory root; mret root
  else ensure_dirs ns (split_components normalized) root SLASH.

Inductive NamespaceCreateKind := CreateDirectory (mode : Z) | CreateFile (mode : Z).

Fixpoint create_walk (ns : MountNamespace) (ck : NamespaceCreateKind) (parent_dir_mode : Z) (components : list str)
    (current : NodeRef) (current_path : str) : MR NodeRef :=
  match components with
  | [] => mret current
  | component :: tail =>
      let next_path := resolve_namespace_path current_path component in
      let is_final := bool_decide (tail = []) in
      m ← lift (lookup_mount next_path ns);
      match m with
      | Some m =>
          if is_final then mthrow SysErr.Exists
          else
            mount_node ← mounted_node m;
            _ ← expect_directory mount_node;
            create_walk ns ck parent_dir_mode tail mount_node next_path
      | None =>
          found ← on_heap (node_lookup current component);
          match found with
          | Some existing =>
              next ← through ns next_path existing;
              if is_final then mthrow SysErr.Exists
              else
                _ ← expect_directory next;
                create_walk ns ck parent_dir_mode tail next next_path
          | None =>
              next ← on_heap (if is_final then
                                match ck with
                                | CreateDirectory mode => create_dir current component mode
                                | CreateFile mode => create_file current component mode
                                end
                              else create_dir current component parent_dir_mode);
              _ ← (if is_final then mret () else expect_directory next);
              create_walk ns ck parent_dir_mode tail next next_path
          end
      end
  end.

Definition create_namespace_path_locked (ns : MountNamespace) (path : str) (ck : NamespaceCreateKind) (parent_dir_mode : Z) : MR NodeRef :=
  let normalized := normalize_absolute_path path in
  if decide (normalized = SLASH) then mthrow SysErr.Exists
  else
    root ← root_node ns;
    create_walk ns ck parent_dir_mode (split_components normalized) root SLASH.

Definition create_child_namespace_locked (ns : MountNamespace) (path : str) (create : NodeRef → str → MF NodeRef) : MR NodeRef :=
  let normalized := normalize_absolute_path path in
  if decide (normalized = SLASH) then mthrow SysErr.Exists
  else
    m ← lift (lookup_mount normalized ns);
    if bool_decide (is_Some m) then mthrow SysErr.Exists
    else
      parent ← lookup_namespace_path ns (parent_path normalized) true;
      _ ← expect_directory parent;
      let name := leaf_name normalized in
      if decide (name = []) then mthrow SysErr.Inval
      else
        found ← on_heap (node_lookup parent name);
        if bool_decide (is_Some found) then mthrow SysErr.Exists
        else on_heap (create parent name).

(** The parent is looked up again for the notification. *)
Definition notify_created (fs : Z) (namespace_path : str) (node : NodeRef) : MR unit :=
  ns ← namespace_of fs;
  parent ← lookup_namespace_path ns (parent_path namespace_path) true;
  notify_fs (Created parent node (leaf_name namespace_path)).

Definition mkdir_in (fs : Z) (path : str) (mode : Z) : MR Z :=
  namespace_path ← view_path fs path;
  ns ← namespace_of fs;
  node ← create_namespace_path_locked ns namespace_path (CreateDirectory mode) mode;
  _ ← notify_created fs namespace_path node;
  mret 0.

Definition create_file_in (fs : Z) (path : str) (mode : Z) : MR (NodeRef * FileSystemIdentity) :=
  namespace_path ← view_path fs path;
  ns ← namespace_of fs;
  node ← create_namespace_path_locked ns namespace_path (CreateFile mode) 0x41ed;
  _ ← notify_created fs namespace_path node;
  ns ← namespace_of fs;
  m ← lift (covering_mount namespace_path ns);
  mret (node, mount_identity m).

Definition create_symlink_in (fs : Z) (path target : str) : MR Z :=
  namespace_path ← view_path fs path;
  ns ← namespace_of fs;
  node ← create_child_namespace_locked ns namespace_path (λ parent name, create_symlink parent name target 0xa1ff);
  _ ← notify_created fs namespace_path node;
  mret 0.

Definition bind_socket_in (fs : Z) (path : str) (mode : Z) : MR Z :=
  namespace_path ← view_path fs path;
  ns ← namespace_of fs;
  node ← create_child_namespace_locked ns namespace_path (λ parent name, create_socket parent name mode);
  _ ← notify_created fs namespace_path node;
  mret 0.

Definition getcwd_in (fs : Z) : MR str :=
  s ← context fs; mret (display_path_from_root (loc_path (fs_root s)) (loc_path (fs_cwd s))).

(** ** Removal, links, renaming *)

Definition AT_REMOVEDIR : Z := 0x200.
Definition AT_SYMLINK_FOLLOW : Z := 0x400.
Definition AT_EMPTY_PATH : Z := 0x1000.

Definition unlink_in (fs : Z) (path : str) (flags : Z) : MR Z :=
  namespace_path ← view_path fs path;
  let normalized := normalize_absolute_path namespace_path in
  if decide (normalized = SLASH) then mthrow SysErr.Inval
  else
    ns ← namespace_of fs;
    m ← lift (lookup_mount normalized ns);
    if bool_decide (is_Some m) then mthrow SysErr.Inval
    else
      parent ← lookup_namespace_path ns (parent_path normalized) true;
      _ ← expect_directory parent;
      let name := leaf_name normalized in
      if decide (name = []) then mthrow SysErr.Inval
      else
        found ← on_heap (node_lookup parent name);
        victim ← mok_or found SysErr.NoEnt;
        k ← on_heap (kind victim);
        let remove_directory := bool_decide (Z.land flags AT_REMOVEDIR ≠ 0) in
        _ ← (if decide (k = Directory) then
               if negb remove_directory then mthrow SysErr.IsDir
               else
                 entries ← on_heap (node_entries victim);
                 if decide (entries = ∅) then mret () else mthrow SysErr.NotEmpty
             else if remove_directory then mthrow SysErr.NotDir else mret ());
        _ ← on_heap (remove_child parent name remove_directory);
        _ ← notify_fs (Deleted parent victim name);
        mret 0.

Definition link_in (fs : Z) (old_path new_path : str) (flags : Z) : MR Z :=
  if decide (Z.ldiff flags (Z.lor AT_SYMLINK_FOLLOW AT_EMPTY_PATH) ≠ 0) then mthrow SysErr.Inval
  else if decide (old_path = [] ∨ new_path = []) then mthrow SysErr.NoEnt
  else if decide (Z.land flags AT_EMPTY_PATH ≠ 0) then mthrow SysErr.Inval
  else
    old_namespace_path ← view_path fs old_path;
    new_namespace_path ← view_path fs new_path;
    let old_normalized := normalize_absolute_path old_namespace_path in
    let new_normalized := normalize_absolute_path new_namespace_path in
    if decide (old_normalized = SLASH ∨ new_normalized = SLASH) then mthrow SysErr.Perm
    else
      ns ← namespace_of fs;
      let follow_source := bool_decide (Z.land flags AT_SYMLINK_FOLLOW ≠ 0) in
      l ← lookup_namespace_entry MAX_LINKS ns old_normalized follow_source;
      let source := lk_node l in
      k ← on_heap (kind source);
      if decide (k = Directory) then mthrow SysErr.Perm
      else
        source_mount ← lift (covering_mount (lk_path l) ns);
        target_mount ← lift (covering_mount new_normalized ns);
        if decide (mn_device_id source_mount ≠ mn_device_id target_mount) then mthrow SysErr.XDev
        else
          m ← lift (lookup_mount new_normalized ns);
          if bool_decide (is_Some m) then mthrow SysErr.Exists
          else
            parent ← lookup_namespace_path ns (parent_path new_normalized) true;
            _ ← expect_directory parent;
            let name := leaf_name new_normalized in
            if decide (name = []) then mthrow SysErr.NoEnt
            else
              found ← on_heap (node_lookup parent name);
              if bool_decide (is_Some found) then mthrow SysErr.Exists
              else
                _ ← on_heap (link_child parent name source);
                _ ← notify_fs (Created parent source name);
                mret 0.

(** What is under the new name; [true] when it is the node itself. *)
Definition rename_replaces (source : NodeRef) (existing_target : option NodeRef) : MR bool :=
  match existing_target with
  | None => mret false
  | Some target =>
      if decide (source = target) then mret true
      else
        sk ← on_heap (kind source);
        tk ← on_heap (kind target);
        entries ← on_heap (node_entries target);
        if decide (sk = Directory ∧ tk = Directory ∧ entries ≠ ∅) then mthrow SysErr.NotEmpty
        else if decide (sk = Directory) then mthrow SysErr.NotDir
        else if decide (tk = Directory) then mthrow SysErr.IsDir
        else mret false
  end.

Definition rename_in (fs : Z) (old_path new_path : str) : MR Z :=
  if decide (old_path = [] ∨ new_path = []) then mthrow SysErr.NoEnt
  else
    old_namespace_path ← view_path fs old_path;
    new_namespace_path ← view_path fs new_path;
    let old_normalized := normalize_absolute_path old_namespace_path in
    let new_normalized := normalize_absolute_path new_namespace_path in
    if decide (old_normalized = new_normalized) then mret 0
    else if decide (old_normalized = SLASH ∨ new_normalized = SLASH) then mthrow SysErr.Busy
    else
      ns ← namespace_of fs;
      _ ← (if match strip_prefix old_normalized new_normalized with Some rest => starts_with_slash rest | None => false end then
             source ← lookup_namespace_path ns old_normalized false;
             k ← on_heap (kind source);
             if decide (k = Directory) then mthrow SysErr.Inval else mret ()
           else mret ());
      m_old ← lift (lookup_mount old_normalized ns);
      m_new ← lift (lookup_mount new_normalized ns);
      if bool_decide (is_Some m_old) || bool_decide (is_Some m_new) then mthrow SysErr.Busy
      else
        c_old ← lift (covering_mount old_normalized ns);
        c_new ← lift (covering_mount new_normalized ns);
        if decide (mn_device_id c_old ≠ mn_device_id c_new) then mthrow SysErr.XDev
        else
          source_parent ← lookup_namespace_path ns (parent_path old_normalized) true;
          target_parent ← lookup_namespace_path ns (parent_path new_normalized) true;
          let source_name := leaf_name old_normalized in
          let target_name := leaf_name new_normalized in
          if decide (source_name = [] ∨ target_name = []) then mthrow SysErr.Inval
          else
            found ← on_heap (node_lookup source_parent source_name);
            source ← mok_or found SysErr.NoEnt;
            existing_target ← on_heap (node_lookup target_parent target_name);
            same ← rename_replaces source existing_target;
            if (same : bool) then mret 0
            else
              _ ← on_heap (rename_child source_parent source_name target_parent target_name (bool_decide (is_Some existing_target)));
              _ ← notify_fs (Moved source_parent target_parent source source_name target_name);
              mret 0.

(** ** Directories of a process *)

Definition chdir_in (fs : Z) (path : str) : MR Z :=
  namespace_path ← view_path fs path;
  ns ← namespace_of fs;
  l ← lookup_namespace_entry MAX_LINKS ns namespace_path true;
  _ ← expect_directory (lk_node l);
  _ ← set_cwd_location fs (mkLocation (lk_path l) (lk_node l));
  mret 0.

Definition chroot_in (fs : Z) (path : str) : MR Z :=
  namespace_path ← view_path fs path;
  ns ← namespace_of fs;
  l ← lookup_namespace_entry MAX_LINKS ns namespace_path true;
  _ ← expect_directory (lk_node l);
  _ ← set_root_location fs (mkLocation (lk_path l) (lk_node l));
  s ← context fs;
  _ ← (if is_within (loc_path (fs_root s)) (loc_path (fs_cwd s)) then mret ()
       else set_cwd_location fs (mkLocation (lk_path l) (loc_node (fs_root s))));
  mret 0.

(** ** Mounts *)

Definition MS_BIND : Z := 4096.
Definition MS_MOVE : Z := 8192.

Record MountRequest := mkMountRequest {
  rq_target_name : str;
  rq_source : option NodeRef;
}.

(** [FileSystemRegistry]: what [mount] of the file system of that name returns *)
Context (filesystems : str → option (MountRequest → MR (NodeRef * LinuxStatFs))).

Definition mount_with_device (fstype : str) (request : MountRequest) (device_id : Z) : MR MountedNode :=
  filesystem ← mok_or (filesystems fstype) SysErr.NoSys;
  '(root, statfs) ← filesystem request;
  mret (MountedNode_new root device_id statfs).

Definition lookup_mount_source (fs : Z) (path : str) : MR MountedNode :=
  namespace_path ← view_path fs path;
  ns ← namespace_of fs;
  m ← lift (lookup_mount namespace_path ns);
  match m with
  | Some mounted => mret mounted
  | None =>
      '(node, filesystem) ← lookup_in_with_identity fs path true;
      device_id ← allocate_mount_device_id;
      mret (MountedNode_new node device_id (fsid_statfs filesystem))
  end.

Definition rebind_fs_context_after_move (fs : Z) (source target : str) : MR unit :=
  s ← context fs;
  let rebind l := mkLocation (remap_mount_path (loc_path l) source target) (loc_node l) in
  put_context fs (mkFsState (fs_namespace s) (rebind (fs_root s)) (rebind (fs_cwd s))).

(** [source.and_then(|path| self.lookup_in(fs, path, true).ok())] *)
Definition lookup_source (fs : Z) (source : option str) : MR (option NodeRef) :=
  match source with
  | None => mret None
  | Some path => λ w,
      match lookup_in fs path true w with
      | (Ok node, w') => (Ok (Some node), w')
      | (Err _, w') => (Ok None, w')
      | (Panic, w') => (Panic, w')
      | (Diverge, w') => (Diverge, w')
      end
  end.

(** [target_node.kind() != Directory && mounted.node().kind() == Directory] *)
Definition mount_conflict (target_node : NodeRef) (mounted : MountedNode) : MR bool :=
  tk ← on_heap (kind target_node);
  if decide (tk = Directory) then mret false
  else
    node ← mounted_node mounted;
    mk ← on_heap (kind node);
    mret (bool_decide (mk = Directory)).

Definition mount_in (fs : Z) (source : option str) (target : str) (fstype : option str) (flags : Z) : MR Z :=
  target_path ← view_path fs target;
  if decide (Z.land flags MS_MOVE ≠ 0) then
    source ← mok_or source SysErr.Inval;
    source_path ← view_path fs source;
    target_node ← lookup_in fs target false;
    ns ← namespace_of fs;
    m ← lift (lookup_mount source_path ns);
    source_mount ← mok_or m SysErr.Inval;
    conflict ← mount_conflict target_node source_mount;
    if (conflict : bool) then mthrow SysErr.NotDir
    else
      ns ← namespace_of fs;
      ns ← lift (move_mount source_path target_path ns);
      _ ← put_namespace fs ns;
      _ ← rebind_fs_context_after_move fs source_path target_path;
      mret 0
  else
    target_node ← lookup_in fs target false;
    mounted ← (if decide (Z.land flags MS_BIND ≠ 0) then
                 source ← mok_or source SysErr.Inval;
                 lookup_mount_source fs source
               else
                 fstype ← mok_or fstype SysErr.Inval;
                 node ← lookup_source fs source;
                 device_id ← allocate_mount_device_id;
                 mount_with_device fstype (mkMountRequest (leaf_name target_path) node) device_id);
    conflict ← mount_conflict target_node mounted;
    if (conflict : bool) then mthrow SysErr.NotDir
    else
      ns ← namespace_of fs;
      _ ← put_namespace fs (mount target_path mounted ns);
      mret 0.

Definition umount_in (fs : Z) (target : str) : MR Z :=
  target_path ← view_path fs target;
  ns ← namespace_of fs;
  ns ← lift (unmount target_path ns);
  _ ← put_namespace fs ns;
  mret 0.

Definition pivot_root_in (fs : Z) (new_root put_old : str) : MR Z :=
  new_root_path ← view_path fs new_root;
  put_old_path ← view_path fs put_old;
  if negb (is_within new_root_path put_old_path) || bool_decide (put_old_path = new_root_path) then mthrow SysErr.Inval
  else
    ns ← namespace_of fs;
    new_root_node ← lookup_namespace_path ns new_root_path true;
    _ ← expect_directory new_root_node;
    old_root ← lift (root_mount ns);
    _ ← ensure_dir_namespace_locked ns put_old_path;
    let ns := mount put_old_path old_root ns in
    m ← lift (lookup_mount new_root_path ns);
    new_root_mount ← match m with
                     | Some m => mret m
                     | None =>
                         device_id ← allocate_mount_device_id;
                         c ← lift (covering_mount new_root_path ns);
                         mret (MountedNode_new new_root_node device_id (mn_statfs c))
                     end;
    _ ← put_namespace fs (mount SLASH new_root_mount ns);
    ns ← namespace_of fs;
    node ← root_node ns;
    let root_location := mkLocation SLASH node in
    _ ← set_root_location fs root_location;
    _ ← set_cwd_location fs root_location;
    mret 0.
End manager.

(** ** The file systems in memory *)

Definition DEFAULT_BLOCK_SIZE : Z := 4096.
Definition DEFAULT_NAME_LEN : Z := 255.
Definition TMPFS_MAGIC : Z := 0x01021994.
Definition PROC_SUPER_MAGIC : Z := 0x9fa0.
Definition SYSFS_MAGIC : Z := 0x62656572.
Definition RAMFS_MAGIC : Z := 0x858458f6.

Definition FileSystem := MountRequest → MR (NodeRef * LinuxStatFs).

(** The root is shared by all mounts. *)
Definition StaticDirectoryFs_mount (magic : Z) (root : NodeRef) : FileSystem := λ _,
  mret (root, LinuxStatFs_new magic DEFAULT_BLOCK_SIZE DEFAULT_NAME_LEN).

(** [tmpfs::directory_with_mode(.., 0o041777)]: an empty directory *)
Definition TmpFs_mount : FileSystem := λ request,
  root ← on_heap (DirectoryNode_new_with_mode (rq_target_name request) 0x43ff);
  mret (root, LinuxStatFs_new TMPFS_MAGIC DEFAULT_BLOCK_SIZE DEFAULT_NAME_LEN).

Definition BindFs_mount : FileSystem := λ _, mthrow SysErr.Inval.

Abbreviation FileSystemRegistry := (gmap str FileSystem).
Definition filesystems_new : FileSystemRegistry := ∅.
Definition registry_register (fstype : str) (filesystem : FileSystem) (r : FileSystemRegistry) : FileSystemRegistry :=
  <[fstype := filesystem]> r.
Definition registry_get (fstype : str) (r : FileSystemRegistry) : option FileSystem := r !! fstype.

(** Files of [aether-tmpfs] *)
Definition tmpfs_file_with_mode {E} (name : str) (bytes : list Z) (mode : Z) : M heap E NodeRef :=
  object ← alloc_file (MutableObject (MutableMemoryFile_new bytes));
  FileNode_new_with_mode name mode 0 object.
Definition tmpfs_file {E} (name : str) (bytes : list Z) : M heap E NodeRef := tmpfs_file_with_mode name bytes 0x81a4.
Definition tmpfs_borrowed_file_with_mode {E} (name : str) (bytes : list Z) (mode : Z) : M heap E NodeRef :=
  object ← alloc_file (CowObject (new_borrowed bytes));
  FileNode_new_with_mode name mode 0 object.
Definition tmpfs_symlink {E} (name target : str) : M heap E NodeRef := SymlinkNode_new_with_mode name target 0xa1ff.
