(* ===== verification/NodeProof.v ===== *)
(** * The heap of nodes

    Well-formedness of the heap, the node behind a chain of wrappers, and the
    effect of every operation on directories; the link count of a file is the
    number of names it has. *)

From Stdlib Require Import Ascii String.
From S2P Require Import Prelude Poll Path MemFile Node.

Open Scope list_scope.

Implicit Types (h : heap) (n b d : NodeRef) (i : Inode) (ops : InodeOps) (name : str).

(** ** Well-formed heaps *)

Definition is_wrapper ops : bool := match ops with MountedVfsNode _ _ => true | _ => false end.

Record heap_wf h : Prop := {
  hw_next n : is_Some (nodes h !! n) → 0 <= n < next_node h;
  hw_first : 0 <= next_node h;
  hw_wrapped n i b dev : nodes h !! n = Some i → in_operations i = MountedVfsNode b dev → b < n ∧ is_Some (nodes h !! b);
  hw_entry d i nm meta es name c :
    nodes h !! d = Some i → in_operations i = DirectoryNode nm meta es → es !! name = Some c → is_Some (nodes h !! c);
  hw_file n i nm k meta o : nodes h !! n = Some i → in_operations i = FileNode nm k meta o → k ≠ Directory ∧ is_Some (files h !! o);
  hw_next_file o : is_Some (files h !! o) → o < next_file h;
}.

(** The node inside the wrappers of [n]. *)
Definition base h n : option (NodeRef * InodeOps) :=
  match strip (S (Z.to_nat n)) (nodes h) n with
  | Ok (_, b, ops) => Some (b, ops)
  | _ => None
  end.

(** More fuel and more nodes do not change the chain. *)
Lemma strip_mono fuel : ∀ fuel' m m' n r,
  strip fuel m n = Ok r → (fuel <= fuel')%nat → m ⊆ m' → strip fuel' m' n = Ok r.
Proof.
  induction fuel as [|fuel IH]; intros fuel' m m' n r Hs Hf Hm; [done|]. destruct fuel' as [|fuel']; [lia|]. simpl in *.
  destruct (m !! n) as [i|] eqn:Hn; [|done]. rewrite (lookup_weaken _ _ _ _ Hn Hm). simpl in *.
  destruct (in_operations i); try done. unfold mbind, outcome_bind in *.
  destruct (strip fuel m node) as [[[ds b] o]| | |] eqn:Hs'; try done. rewrite (IH fuel' m m' node _ Hs'); [done|lia|done].
Qed.

Lemma strip_total h n :
  heap_wf h → is_Some (nodes h !! n) →
  ∃ ds b i, strip (S (Z.to_nat n)) (nodes h) n = Ok (ds, b, in_operations i) ∧ nodes h !! b = Some i ∧ is_wrapper (in_operations i) = false.
Proof.
  intros Hwf. remember (Z.to_nat n) as k eqn:Hk. revert n Hk.
  induction (lt_wf k) as [k _ IH]. intros n -> [i Hi]. simpl. rewrite Hi. simpl.
  destruct (in_operations i) as [nm meta es|nm kd meta o|nm tg meta|b dev] eqn:Ho; try (eexists [], n, i; rewrite Ho; done).
  destruct (hw_wrapped _ Hwf _ _ _ _ Hi Ho) as [Hlt Hb]. pose proof (hw_next _ Hwf _ Hb).
  destruct (IH (Z.to_nat b) ltac:(lia) b eq_refl Hb) as (ds & b' & i' & Hs & Hi' & Hw).
  rewrite (strip_mono _ (Z.to_nat n) (nodes h) (nodes h) b _ Hs) by (done || lia). simpl. by eexists _, b', i'.
Qed.

Lemma base_total h n :
  heap_wf h → is_Some (nodes h !! n) → ∃ b i, base h n = Some (b, in_operations i) ∧ nodes h !! b = Some i ∧ is_wrapper (in_operations i) = false.
Proof. intros Hwf Hn. destruct (strip_total h n Hwf Hn) as (ds & b & i & Hs & ?). exists b, i. unfold base. by rewrite Hs. Qed.

Lemma base_self h b i : nodes h !! b = Some i → is_wrapper (in_operations i) = false → base h b = Some (b, in_operations i).
Proof. intros Hb Hw. unfold base. simpl. rewrite Hb. simpl. by destruct (in_operations i). Qed.

Lemma base_of_rule h n :
  heap_wf h → is_Some (nodes h !! n) →
  ∃ ds b i, base_of n h = (Ok (ds, b, in_operations i), h) ∧ base h n = Some (b, in_operations i) ∧
    nodes h !! b = Some i ∧ is_wrapper (in_operations i) = false.
Proof.
  intros Hwf Hn. destruct (strip_total h n Hwf Hn) as (ds & b & i & Hs & ?). exists ds, b, i. unfold base_of, base. by rewrite Hs.
Qed.

(** ** Fresh wrappers *)

(** Only wrappers were added. *)
Record extends h h' : Prop := {
  ex_nodes : nodes h ⊆ nodes h';
  ex_new n i : nodes h' !! n = Some i → nodes h !! n = None → is_wrapper (in_operations i) = true;
  ex_files : files h' = files h;
  ex_next_file : next_file h' = next_file h;
  ex_inode : next_inode h' = next_inode h;
}.

Lemma extends_refl h : extends h h.
Proof. split; try done. intros n i H1 H2. congruence. Qed.

Lemma extends_trans h1 h2 h3 : extends h1 h2 → extends h2 h3 → extends h1 h3.
Proof.
  intros [H1 H2 H3 H4 H5] [G1 G2 G3 G4 G5]. split; try congruence.
  - by etrans.
  - intros n i Hn Hn1. destruct (nodes h2 !! n) as [j|] eqn:Hj; [|by eapply G2]. rewrite (lookup_weaken _ _ _ _ Hj G1) in Hn. simplify_eq.
    by eapply H2.
Qed.

Lemma base_extends h h' n x : extends h h' → base h n = Some x → base h' n = Some x.
Proof.
  intros He. unfold base. destruct (strip _ (nodes h) n) as [[[ds b] o]| | |] eqn:Hs; try done. intros [= <-].
  by rewrite (strip_mono _ (S (Z.to_nat n)) _ (nodes h') _ _ Hs) by (done || apply He).
Qed.

(** The nodes that are not wrappers are the same. *)
Lemma extends_ops h h' b i : extends h h' → is_wrapper (in_operations i) = false → nodes h' !! b = Some i ↔ nodes h !! b = Some i.
Proof.
  intros He Hw. split; intros Hb.
  - destruct (nodes h !! b) as [j|] eqn:Hj; [|exfalso; pose proof (ex_new _ _ He _ _ Hb Hj); congruence].
    rewrite (lookup_weaken _ _ _ _ Hj (ex_nodes _ _ He)) in Hb. done.
  - eapply lookup_weaken; [done|apply He].
Qed.

Lemma alloc_wrapper_rule {E} h n dev b ops Q Qe :
  heap_wf h → is_Some (nodes h !! n) → base h n = Some (b, ops) →
  (∀ w h', heap_wf h' → extends h h' → base h' w = Some (b, ops) → is_Some (nodes h' !! w) → (w ≠ n ∧ nodes h !! w = None) → Q w h') →
  wp_res (alloc_node (E := E) (MountedVfsNode n dev)) h Q Qe.
Proof.
  intros Hwf Hn Hb HQ. unfold alloc_node, wp_res, wp. simpl. set (h' := mkHeap _ _ _ _ _).
  pose proof (hw_next _ Hwf _ Hn) as Hlt. pose proof (hw_first _ Hwf) as H0.
  assert (nodes h !! next_node h = None) as Hfresh.
  { destruct (nodes h !! next_node h) eqn:Hx; [|done]. pose proof (hw_next _ Hwf (next_node h) ltac:(by eexists)). lia. }
  assert (nodes h ⊆ nodes h') as Hsub by by apply insert_subseteq.
  assert (extends h h') as He.
  { split; try done. intros m i. simpl. intros [[<- <-]|[_ ?]]%lookup_insert_Some; [done|congruence]. }
  apply HQ; [|done| | |split; [lia|done]].
  - split; simpl.
    + intros m [<-|[_ Hm]]%lookup_insert_is_Some; [lia|]. pose proof (hw_next _ Hwf m Hm). lia.
    + lia.
    + intros m i b' dev' [[<- <-]|[_ Hm]]%lookup_insert_Some Ho.
      * simpl in Ho. simplify_eq. split; [lia|]. apply lookup_insert_is_Some. right. split; [lia|done].
      * destruct (hw_wrapped _ Hwf _ _ _ _ Hm Ho) as [? [j Hj]]. split; [done|]. exists j. by apply (lookup_weaken (nodes h)).
    + intros d i nm meta es name c [[<- <-]|[_ Hm]]%lookup_insert_Some Ho Hc; [done|].
      destruct (hw_entry _ Hwf _ _ _ _ _ _ _ Hm Ho Hc) as [j Hj]. exists j. by apply (lookup_weaken (nodes h)).
    + intros m i nm k meta o [[<- <-]|[_ Hm]]%lookup_insert_Some Ho; [done|]. by apply (hw_file _ Hwf _ _ _ _ _ _ Hm Ho).
    + apply Hwf.
  - pose proof (base_extends _ _ _ _ He Hb) as Hb'.
    assert (nodes h' !! next_node h = Some (Inode_new (MountedVfsNode n dev))) as Hnew by (simpl; apply lookup_insert_eq).
    unfold base in *. cbn [strip]. rewrite Hnew. cbn [expect mbind outcome_bind in_operations Inode_new].
    destruct (strip (S (Z.to_nat n)) (nodes h') n) as [[[ds b'] o]| | |] eqn:Hs; try done.
    by rewrite (strip_mono _ (Z.to_nat (next_node h)) _ (nodes h') _ _ Hs) by (done || lia).
  - simpl. by rewrite lookup_insert_eq.
Qed.

(** The reference [n] stands for the node [b]. *)
Definition refers h n b ops : Prop := is_Some (nodes h !! n) ∧ base h n = Some (b, ops).

Lemma refers_extends h h' n b ops : extends h h' → refers h n b ops → refers h' n b ops.
Proof. intros He [[i Hn] Hb]. split; [exists i; eapply lookup_weaken; [done|apply He]|by eapply base_extends]. Qed.

Lemma refers_ops h n b ops :
  heap_wf h → refers h n b ops → ∃ i, nodes h !! b = Some i ∧ in_operations i = ops ∧ is_wrapper ops = false.
Proof. intros Hwf [Hn Hb]. destruct (base_total h n Hwf Hn) as (b' & i & Hb' & Hi & Hw). rewrite Hb in Hb'. simplify_eq. by exists i. Qed.

Lemma refers_total h n : heap_wf h → is_Some (nodes h !! n) → ∃ b ops, refers h n b ops.
Proof. intros Hwf Hn. destruct (base_total h n Hwf Hn) as (b & i & Hb & _). by exists b, (in_operations i). Qed.

Lemma refers_self h b i : nodes h !! b = Some i → is_wrapper (in_operations i) = false → refers h b b (in_operations i).
Proof. intros Hb Hw. split; [by exists i|by apply base_self]. Qed.

Lemma base_of_eq h n b ops : heap_wf h → refers h n b ops → ∃ ds, base_of n h = (Ok (ds, b, ops), h).
Proof.
  intros Hwf [Hn Hb]. destruct (base_of_rule h n Hwf Hn) as (ds & b' & i & Hs & Hb' & _). rewrite Hb in Hb'. simplify_eq. by exists ds.
Qed.

Lemma kind_eq h n b ops : heap_wf h → refers h n b ops → kind n h = (Ok (ops_kind ops), h).
Proof. intros Hwf Hr. destruct (base_of_eq _ _ _ _ Hwf Hr) as [ds Hs]. unfold kind, mbind, M_bind. by rewrite Hs. Qed.

Definition ops_target ops : option str := match ops with SymlinkNode _ target _ => Some target | _ => None end.
Definition ops_entries ops : gmap str NodeRef := match ops with DirectoryNode _ _ es => es | _ => ∅ end.

Lemma symlink_target_eq h n b ops : heap_wf h → refers h n b ops → symlink_target n h = (Ok (ops_target ops), h).
Proof. intros Hwf Hr. destruct (base_of_eq _ _ _ _ Hwf Hr) as [ds Hs]. unfold symlink_target, mbind, M_bind. by rewrite Hs. Qed.

Lemma node_entries_eq h n b ops : heap_wf h → refers h n b ops → node_entries n h = (Ok (ops_entries ops), h).
Proof. intros Hwf Hr. destruct (base_of_eq _ _ _ _ Hwf Hr) as [ds Hs]. unfold node_entries, mbind, M_bind. by rewrite Hs. Qed.

Lemma wrap_rule devices : ∀ h n b ops,
  heap_wf h → refers h n b ops →
  wp_res (wrap devices n) h (λ w h', heap_wf h' ∧ extends h h' ∧ refers h' w b ops) (λ _ _, False).
Proof.
  induction devices as [|dev devices IH]; intros h n b ops Hwf Hr; cbn [wrap].
  - wp_run. split; [done|]. split; [apply extends_refl|done].
  - wp_step. eapply wp_res_mono; [by apply IH|cbv beta|done]. intros w h1 (Hwf1 & He1 & [Hw1 Hb1]).
    eapply alloc_wrapper_rule; [done|done|done|]. intros w2 h2 Hwf2 He2 Hb2 Hw2 _.
    split; [done|]. split; [by eapply extends_trans|done].
Qed.

Lemma node_lookup_rule h n b ops name :
  heap_wf h → refers h n b ops →
  wp_res (node_lookup n name) h
    (λ r h', heap_wf h' ∧ extends h h' ∧
       match r with
       | Some w => ∃ c cb cops, ops_entries ops !! name = Some c ∧ refers h c cb cops ∧ refers h' w cb cops
       | None => ops_entries ops !! name = None
       end)
    (λ _ _, False).
Proof.
  intros Hwf Hr. destruct (base_of_eq _ _ _ _ Hwf Hr) as [ds Hs]. destruct (refers_ops _ _ _ _ Hwf Hr) as (i & Hi & Ho & _).
  unfold node_lookup, wp_res at 1, wp, mbind, M_bind. rewrite Hs.
  destruct ops as [nm meta es|nm k meta o|nm tg meta|x dev]; cbn [fst snd ops_entries]; try (split; [done|]; split; [apply extends_refl|done]).
  destruct (es !! name) as [c|] eqn:Hc; [|split; [done|]; split; [apply extends_refl|done]].
  destruct (refers_total h c Hwf (hw_entry _ Hwf _ _ _ _ _ _ _ Hi Ho Hc)) as (cb & cops & Hcr).
  pose proof (wrap_rule ds h c cb cops Hwf Hcr) as Hw. unfold wp_res, wp in Hw.
  destruct (wrap ds c h) as [[w| | |] h']; simpl in *; try done. destruct Hw as (Hwf' & He & Hr'). split; [done|]. split; [done|].
  by exists c, cb, cops.
Qed.

(** ** Changing a node *)

Definition put_ops h d i ops : heap := set_nodes (<[d := set_operations ops i]> (nodes h)) h.

Lemma put_operations_eq {E} h d i ops : nodes h !! d = Some i → put_operations (E := E) d ops h = (Ok (), put_ops h d i ops).
Proof. intros Hd. unfold put_operations, inode_at, mbind, M_bind. rewrite Hd. done. Qed.

(** The references of the new operations exist. *)
Definition ops_ok h ops : Prop :=
  match ops with
  | DirectoryNode _ _ es => ∀ name c, es !! name = Some c → is_Some (nodes h !! c)
  | FileNode _ k _ o => k ≠ Directory ∧ is_Some (files h !! o)
  | SymlinkNode _ _ _ => True
  | MountedVfsNode _ _ => False
  end.

Lemma put_ops_lookup h d i ops n : is_Some (nodes h !! d) → is_Some (nodes (put_ops h d i ops) !! n) ↔ is_Some (nodes h !! n).
Proof.
  intros Hd. unfold put_ops. simpl. rewrite lookup_insert_is_Some. split; [intros [<-|[_ ?]]; done|].
  intros Hn. destruct (decide (d = n)); [by left|by right].
Qed.

Lemma put_ops_wf h d i ops :
  heap_wf h → nodes h !! d = Some i → is_wrapper (in_operations i) = false → ops_ok h ops → heap_wf (put_ops h d i ops).
Proof.
  intros Hwf Hd Hw Hok. assert (is_Some (nodes h !! d)) as Hs by (by eexists).
  split.
  - intros n Hn. rewrite put_ops_lookup in Hn by done. by apply (hw_next _ Hwf).
  - exact (hw_first _ Hwf).
  - intros n j b dev. simpl. intros [[<- <-]|[_ Hn]]%lookup_insert_Some Ho; [simpl in Ho; by subst|].
    destruct (hw_wrapped _ Hwf _ _ _ _ Hn Ho) as [? ?]. split; [done|]. by apply put_ops_lookup.
  - intros n j nm meta es name c. simpl. intros [[<- <-]|[_ Hn]]%lookup_insert_Some Ho Hc; apply put_ops_lookup; try done.
    + simpl in Ho. subst ops. by eapply Hok.
    + by eapply (hw_entry _ Hwf).
  - intros n j nm k meta o. simpl. intros [[<- <-]|[_ Hn]]%lookup_insert_Some Ho; [simpl in Ho; by subst ops|by eapply (hw_file _ Hwf)].
  - exact (hw_next_file _ Hwf).
Qed.

(** What a reference stands for after the change. *)
Lemma strip_put h d i ops :
  nodes h !! d = Some i → is_wrapper (in_operations i) = false → is_wrapper ops = false → ∀ fuel n ds b o,
  strip fuel (nodes h) n = Ok (ds, b, o) →
  strip fuel (nodes (put_ops h d i ops)) n = Ok (ds, b, if decide (b = d) then ops else o).
Proof.
  intros Hd Hw Hw'. induction fuel as [|fuel IH]; intros n ds b o; [done|]. cbn [strip]. unfold put_ops. cbn [set_nodes nodes].
  destruct (decide (n = d)) as [->|Hne].
  - rewrite Hd, lookup_insert_eq. cbn [expect mbind outcome_bind].
    change (in_operations (set_operations ops i)) with ops.
    destruct (in_operations i); try done; destruct ops; try done; intros [= <- <- <-]; by rewrite decide_True.
  - rewrite lookup_insert_ne by done. destruct (nodes h !! n) as [j|]; [|done]. cbn [expect mbind outcome_bind].
    destruct (in_operations j) as [?|?|?|x dev]; try (intros [= <- <- <-]; by rewrite decide_False).
    destruct (strip fuel (nodes h) x) as [[[ds' b'] o']| | |] eqn:Hs; try done. cbn [mbind outcome_bind]. intros [= <- <- <-].
    apply IH in Hs. unfold put_ops in Hs. cbn [set_nodes nodes] in Hs. by rewrite Hs.
Qed.

Lemma refers_put h d i ops n b o :
  nodes h !! d = Some i → is_wrapper (in_operations i) = false → is_wrapper ops = false → refers h n b o →
  refers (put_ops h d i ops) n b (if decide (b = d) then ops else o).
Proof.
  intros Hd Hw Hw' [Hn Hb]. split; [apply put_ops_lookup; [by eexists|done]|]. unfold base in *.
  destruct (strip _ (nodes h) n) as [[[ds b'] o']| | |] eqn:Hs; try done. simplify_eq. by rewrite (strip_put _ _ _ _ Hd Hw Hw' _ _ _ _ _ Hs).
Qed.

(** ** The tree: the nodes that are not wrappers *)

Definition tree_entry i : option InodeOps := if is_wrapper (in_operations i) then None else Some (in_operations i).
Definition tree h : gmap NodeRef InodeOps := omap tree_entry (nodes h).

Lemma tree_lookup h b ops : tree h !! b = Some ops ↔ ∃ i, nodes h !! b = Some i ∧ in_operations i = ops ∧ is_wrapper ops = false.
Proof.
  unfold tree. rewrite lookup_omap. destruct (nodes h !! b) as [i|]; simpl; [|split; [done|by intros (? & ? & _)]].
  unfold tree_entry. destruct (is_wrapper (in_operations i)) eqn:Hw.
  - split; [done|]. intros (j & [= <-] & <- & ?). congruence.
  - split; [intros [= <-]; by exists i|by intros (j & [= <-] & <- & ?)].
Qed.

Lemma refers_tree h n b ops : heap_wf h → refers h n b ops → tree h !! b = Some ops.
Proof. intros Hwf Hr. apply tree_lookup. by apply (refers_ops h n). Qed.

Lemma tree_refers h b ops : tree h !! b = Some ops → refers h b b ops.
Proof. intros (i & Hi & <- & Hw)%tree_lookup. by apply refers_self. Qed.

(** The tree has become [T]; references stand for the nodes they stood for. *)
Definition changes h h' (T : gmap NodeRef InodeOps) : Prop :=
  heap_wf h' ∧ tree h' = T ∧ (∀ n b o, refers h n b o → ∃ o', T !! b = Some o' ∧ refers h' n b o').

Lemma changes_trans h h1 h2 T1 T2 : changes h h1 T1 → changes h1 h2 T2 → changes h h2 T2.
Proof.
  intros (_ & _ & H1) (Hw & Ht & H2). split; [done|]. split; [done|]. intros n b o (o1 & _ & Hr1)%H1. by apply (H2 n b o1).
Qed.

Lemma changes_refl h : heap_wf h → changes h h (tree h).
Proof. intros Hwf. split; [done|]. split; [done|]. intros n b o Hr. exists o. split; [by eapply refers_tree|done]. Qed.

Lemma extends_tree h h' : extends h h' → tree h' = tree h.
Proof.
  intros He. apply map_eq. intros b. apply option_eq. intros ops. rewrite !tree_lookup. split.
  - intros (i & Hi & <- & Hw). exists i. split; [|done]. by apply (extends_ops h h').
  - intros (i & Hi & <- & Hw). exists i. split; [|done]. by apply (extends_ops h h').
Qed.

Lemma extends_changes h h' : heap_wf h → heap_wf h' → extends h h' → changes h h' (tree h).
Proof.
  intros Hwf Hwf' He. split; [done|]. split; [by apply extends_tree|]. intros n b o Hr. exists o.
  split; [by eapply refers_tree|by eapply refers_extends].
Qed.

Lemma put_ops_tree h d i ops : is_wrapper ops = false → tree (put_ops h d i ops) = <[d := ops]> (tree h).
Proof.
  intros Hw. unfold tree, put_ops. simpl. rewrite omap_insert. unfold tree_entry at 1. simpl. by rewrite Hw.
Qed.

Lemma put_ops_changes h d i ops :
  heap_wf h → nodes h !! d = Some i → is_wrapper (in_operations i) = false → is_wrapper ops = false → ops_ok h ops →
  changes h (put_ops h d i ops) (<[d := ops]> (tree h)).
Proof.
  intros Hwf Hd Hw Hw' Hok. split; [by apply put_ops_wf|]. split; [by apply put_ops_tree|]. intros n b o Hr.
  pose proof (refers_put _ _ _ _ _ _ _ Hd Hw Hw' Hr) as Hr'. eexists. split; [|done]. destruct (decide (b = d)) as [->|Hne].
  - by rewrite lookup_insert_eq.
  - rewrite lookup_insert_ne by done. by eapply refers_tree.
Qed.

(** A new node. *)
Lemma alloc_node_rule {E} h ops (Q : NodeRef → heap → Prop) (Qe : E → heap → Prop) :
  heap_wf h → is_wrapper ops = false → ops_ok h ops →
  (∀ n h', changes h h' (<[n := ops]> (tree h)) → nodes h !! n = None → nodes h ⊆ nodes h' → tree h !! n = None → refers h' n n ops →
     (∀ c, is_Some (nodes h' !! c) → c ≠ n → is_Some (nodes h !! c)) → files h' = files h → Q n h') →
  wp_res (alloc_node ops) h Q Qe.
Proof.
  intros Hwf Hw Hok HQ. unfold alloc_node, wp_res, wp. simpl. set (h' := mkHeap _ _ _ _ _). pose proof (hw_first _ Hwf) as H0.
  assert (nodes h !! next_node h = None) as Hfresh.
  { destruct (nodes h !! next_node h) eqn:Hx; [|done]. pose proof (hw_next _ Hwf (next_node h) ltac:(by eexists)). lia. }
  assert (nodes h ⊆ nodes h') as Hsub by by apply insert_subseteq.
  assert (∀ m, is_Some (nodes h !! m) → is_Some (nodes h' !! m)) as Hmono.
  { intros m [j Hj]. exists j. by apply (lookup_weaken (nodes h)). }
  assert (tree h' = <[next_node h := ops]> (tree h)) as Ht.
  { unfold tree. simpl. rewrite omap_insert. unfold tree_entry at 1. simpl. by rewrite Hw. }
  assert (tree h !! next_node h = None) as Htn by (unfold tree; by rewrite lookup_omap, Hfresh).
  assert (heap_wf h') as Hwf'.
  { split; simpl.
    - intros m [<-|[_ Hm]]%lookup_insert_is_Some; [lia|]. pose proof (hw_next _ Hwf m Hm). lia.
    - lia.
    - intros m i b' dev' [[<- <-]|[_ Hm]]%lookup_insert_Some Ho; [simpl in Ho; by subst ops|].
      destruct (hw_wrapped _ Hwf _ _ _ _ Hm Ho) as [? ?]. split; [done|]. by apply Hmono.
    - intros d i nm meta es name c [[<- <-]|[_ Hm]]%lookup_insert_Some Ho Hc.
      + simpl in Ho. subst ops. by eapply Hmono, Hok.
      + by eapply Hmono, (hw_entry _ Hwf).
    - intros m i nm k meta o [[<- <-]|[_ Hm]]%lookup_insert_Some Ho; [simpl in Ho; by subst ops|by eapply (hw_file _ Hwf)].
    - exact (hw_next_file _ Hwf). }
  apply HQ; try done.
  - split; [done|]. split; [done|]. intros n b o Hr. exists o. assert (b ≠ next_node h) as Hne.
    { intros ->. pose proof (refers_tree _ _ _ _ Hwf Hr). congruence. }
    rewrite lookup_insert_ne by done. split; [by eapply refers_tree|]. destruct Hr as [Hn Hb]. split; [by apply Hmono|].
    unfold base in *. destruct (strip _ (nodes h) n) as [[[ds b'] o']| | |] eqn:Hs; try done.
    by rewrite (strip_mono _ (S (Z.to_nat n)) _ (nodes h') _ _ Hs).
  - apply tree_refers. by rewrite Ht, lookup_insert_eq.
  - intros c. simpl. intros [<-|[_ Hc]]%lookup_insert_is_Some; [done|done].
Qed.

(** ** The operations on directories *)

Lemma inode_at_rule {E} h n i (Q : Inode → heap → Prop) (Qe : E → heap → Prop) :
  nodes h !! n = Some i → Q i h → wp_res (inode_at n) h Q Qe.
Proof. intros Hn HQ. unfold wp_res, wp, inode_at. by rewrite Hn. Qed.

Definition adjust_ops (delta : Z) ops : InodeOps :=
  match ops with
  | FileNode name kind meta object => FileNode name kind (with_nlink (saturating_add_signed (md_nlink meta) delta) meta) object
  | SymlinkNode name target meta => SymlinkNode name target (with_nlink (saturating_add_signed (md_nlink meta) delta) meta)
  | _ => ops
  end.

Lemma adjust_link_count_rule h n delta :
  heap_wf h → is_Some (nodes h !! n) →
  wp_res (adjust_link_count n delta) h (λ _ h', changes h h' (alter (adjust_ops delta) n (tree h)) ∧ files h' = files h) (λ _ _, False).
Proof.
  intros Hwf [i Hi]. unfold adjust_link_count. wp_step. eapply inode_at_rule; [done|]. destruct (tree h !! n) as [o|] eqn:Hn.
  - pose proof Hn as (j & Hj & Ho & Hw)%tree_lookup. assert (j = i) as -> by congruence.
    assert (alter (adjust_ops delta) n (tree h) = <[n := adjust_ops delta o]> (tree h)) as ->.
    { apply map_eq. intros x. destruct (decide (x = n)) as [->|Hne]; [by rewrite lookup_alter_eq, lookup_insert_eq, Hn|].
      by rewrite lookup_alter_ne, lookup_insert_ne. }
    rewrite Ho. destruct o as [nm meta es|nm k meta ob|nm tg meta|x dev]; try done; simpl.
    + wp_run. rewrite insert_id by done. split; [by apply changes_refl|done].
    + unfold wp_res, wp. rewrite (put_operations_eq _ _ _ _ Hi). split; [|done]. apply put_ops_changes; rewrite ?Ho; try done.
      simpl. by apply (hw_file _ Hwf _ _ _ _ _ _ Hi Ho).
    + unfold wp_res, wp. rewrite (put_operations_eq _ _ _ _ Hi). split; [|done]. apply put_ops_changes; rewrite ?Ho; try done.
  - rewrite (map_eq (alter (adjust_ops delta) n (tree h)) (tree h)).
    2:{ intros x. destruct (decide (x = n)) as [->|Hne]; [by rewrite lookup_alter_eq, Hn|by rewrite lookup_alter_ne]. }
    destruct (in_operations i) as [nm meta es|nm k meta ob|nm tg meta|x dev] eqn:Ho;
      try (exfalso; assert (tree h !! n = Some (in_operations i)) by (apply tree_lookup; exists i; by rewrite Ho); congruence).
    wp_run. split; [by apply changes_refl|done].
Qed.

(** A directory [d] with the entries [es]. *)
Definition dir_at h d nm meta es : Prop := tree h !! d = Some (DirectoryNode nm meta es).

Lemma put_dir_rule {E} h d nm meta es es' (Q : unit → heap → Prop) (Qe : E → heap → Prop) :
  heap_wf h → dir_at h d nm meta es → (∀ name c, es' !! name = Some c → is_Some (nodes h !! c)) →
  (∀ h', changes h h' (<[d := DirectoryNode nm meta es']> (tree h)) → files h' = files h → Q () h') →
  wp_res (put_operations d (DirectoryNode nm meta es')) h Q Qe.
Proof.
  intros Hwf (i & Hi & Ho & Hw)%tree_lookup Hes HQ. unfold wp_res, wp. rewrite (put_operations_eq _ _ _ _ Hi).
  apply HQ; [|done]. apply put_ops_changes; try done. by rewrite Ho.
Qed.

Lemma dir_entry h d nm meta es name c : heap_wf h → dir_at h d nm meta es → es !! name = Some c → is_Some (nodes h !! c).
Proof. intros Hwf (i & Hi & Ho & _)%tree_lookup Hc. by eapply (hw_entry _ Hwf). Qed.

Lemma dir_insert_rule h d nm meta es name c :
  heap_wf h → dir_at h d nm meta es → is_Some (nodes h !! c) →
  wp_res (dir_insert d name c) h
    (λ _ h', es !! name = None ∧ changes h h' (<[d := DirectoryNode nm meta (<[name := c]> es)]> (tree h)) ∧ files h' = files h)
    (λ e h', h' = h ∧ e = AlreadyExists ∧ is_Some (es !! name)).
Proof.
  intros Hwf Hd Hc. pose proof Hd as (i & Hi & Ho & _)%tree_lookup. unfold dir_insert. wp_step. eapply inode_at_rule; [done|]. rewrite Ho.
  destruct (es !! name) as [x|] eqn:Hx; [wp_run; by split_and!|]. eapply put_dir_rule; [done|done| |by auto].
  intros name' c' [[<- <-]|[_ ?]]%lookup_insert_Some; [done|by eapply dir_entry].
Qed.

Lemma dir_remove_rule h d nm meta es name rd c cb cops :
  heap_wf h → dir_at h d nm meta es → es !! name = Some c → refers h c cb cops → rd = bool_decide (ops_kind cops = Directory) →
  wp_res (dir_remove d name rd) h
    (λ _ h', changes h h' (alter (if rd then id else adjust_ops (-1)) c (<[d := DirectoryNode nm meta (delete name es)]> (tree h))))
    (λ _ _, False).
Proof.
  intros Hwf Hd Hc Hr Hrd. pose proof Hd as (i & Hi & Ho & _)%tree_lookup. unfold dir_remove. wp_step. eapply inode_at_rule; [done|]. rewrite Ho, Hc.
  wp_step. unfold wp_res at 1, wp. rewrite (kind_eq _ _ _ _ Hwf Hr). cbn [fst snd]. rewrite <-Hrd, eqb_reflx. cbn [negb]. wp_step.
  eapply put_dir_rule; [done|done|intros name' c' [_ ?]%lookup_delete_Some; by eapply dir_entry|]. intros h1 Hch Hf. destruct rd; cbn [negb].
  - wp_run. rewrite (map_eq (alter id c _) (<[d := DirectoryNode nm meta (delete name es)]> (tree h))); [done|].
    intros x. destruct (decide (x = c)) as [->|?]; [rewrite lookup_alter_eq; by destruct (_ !! c)|by rewrite lookup_alter_ne].
  - pose proof Hch as (Hwf1 & Ht1 & Hr1). eapply wp_res_mono; [apply adjust_link_count_rule; [done|]|cbv beta|done].
    + destruct (Hr1 _ _ _ Hr) as (? & _ & ? & _). done.
    + intros [] h2 [Hch2 _]. rewrite Ht1 in Hch2. by eapply changes_trans.
Qed.

(** ** Creation *)

(** A change of the files and of the inode counter. *)
Lemma same_nodes_changes h h' :
  heap_wf h → nodes h' = nodes h → next_node h' = next_node h → files h ⊆ files h' → (∀ o, is_Some (files h' !! o) → o < next_file h') →
  changes h h' (tree h).
Proof.
  intros Hwf Hn Hnx Hf Hnf. assert (∀ n b o, refers h n b o → refers h' n b o) as Hr by (intros n b o; unfold refers, base; by rewrite Hn).
  split; [|split].
  - pose proof Hwf as [H1 H2 H3 H4 _ _]. split; rewrite ?Hn, ?Hnx; try done. intros n i nm k meta o Hi Ho.
    destruct (hw_file _ Hwf _ _ _ _ _ _ Hi Ho) as (Hk & x & Hx). split; [done|]. exists x. by eapply lookup_weaken.
  - unfold tree. by rewrite Hn.
  - intros n b o Hx. exists o. split; [by eapply refers_tree|by apply Hr].
Qed.

Lemma take_inode_rule {E} h (Q : Z → heap → Prop) (Qe : E → heap → Prop) :
  heap_wf h → (∀ h', changes h h' (tree h) → files h' = files h → Q (next_inode h) h') → wp_res take_inode h Q Qe.
Proof.
  intros Hwf HQ. unfold wp_res, wp. apply HQ; [|done]. apply same_nodes_changes; try done. apply (hw_next_file _ Hwf).
Qed.

Lemma alloc_file_rule {E} h f (Q : Z → heap → Prop) (Qe : E → heap → Prop) :
  heap_wf h → (∀ o h', changes h h' (tree h) → files h' !! o = Some f → Q o h') → wp_res (alloc_file f) h Q Qe.
Proof.
  intros Hwf HQ. unfold wp_res, wp. simpl. apply HQ; [|simpl; by rewrite lookup_insert_eq]. apply same_nodes_changes; try done; simpl.
  - apply insert_subseteq. destruct (files h !! next_file h) as [x|] eqn:Hx; [|done].
    pose proof (hw_next_file _ Hwf (next_file h) ltac:(by eexists)). lia.
  - intros o [<-|[_ Ho]]%lookup_insert_is_Some; [lia|]. pose proof (hw_next_file _ Hwf _ Ho). lia.
Qed.

(** The entry [name] of the directory [d]. *)
Definition entry (T : gmap NodeRef InodeOps) d name : option NodeRef := ops ← T !! d; ops_entries ops !! name.

(** Every entry refers to a node itself, not to a wrapper. *)
Definition direct (T : gmap NodeRef InodeOps) : Prop := ∀ d name c, entry T d name = Some c → is_Some (T !! c).

Lemma entry_some h d name c : heap_wf h → entry (tree h) d name = Some c → is_Some (nodes h !! c).
Proof.
  intros Hwf. unfold entry. destruct (tree h !! d) as [ops|] eqn:Hd; [|done]. simpl. intros Hc. destruct ops as [nm meta es| | |]; try done.
  by eapply dir_entry.
Qed.

(** [h'] has a new node [c], a [K]. *)
Definition made (K : InodeOps → Prop) h c h' : Prop :=
  ∃ ops, K ops ∧ tree h !! c = None ∧ (∀ d name, entry (tree h) d name ≠ Some c) ∧ changes h h' (<[c := ops]> (tree h)).

Definition is_new_file (k : NodeKind) (mode : Z) ops : Prop :=
  ∃ name inode dev object, ops = FileNode name k (with_device_id dev (metadata_file mode inode)) object.
Definition is_new_symlink (target : str) (mode : Z) ops : Prop :=
  ∃ name inode, ops = SymlinkNode name target (metadata_symlink mode (Z.of_nat (length target)) inode).
Definition is_new_dir (mode : Z) ops : Prop :=
  ∃ name inode dev, ops = DirectoryNode name (with_device_id dev (metadata_directory mode inode)) ∅.

Lemma made_rule {E} (K : InodeOps → Prop) h h0 ops (Qe : E → heap → Prop) :
  changes h h0 (tree h) → is_wrapper ops = false → ops_ok h0 ops → K ops → wp_res (alloc_node ops) h0 (made K h) Qe.
Proof.
  intros Hch Hw Hok HK. pose proof Hch as (Hwf0 & Ht & _). apply alloc_node_rule; try done. intros n h' Hch' Hnew _ Hn _ _ _. exists ops.
  split; [done|]. rewrite <-Ht. split; [done|]. split; [|by eapply changes_trans].
  intros d name Hx. apply entry_some in Hx as [? ?]; [congruence|done].
Qed.

Lemma make_symlink_rule h name target mode :
  heap_wf h → wp_res (SymlinkNode_new_with_mode name target mode) h (made (is_new_symlink target mode) h) (λ _ : FsError, λ _, False).
Proof.
  intros Hwf. unfold SymlinkNode_new_with_mode. wp_step. apply take_inode_rule; [done|]. intros h' Hch Hf.
  apply made_rule; [done|done|done|]. by eexists _, _.
Qed.

Lemma make_file_rule h name mode :
  heap_wf h →
  wp_res (object ← alloc_file (SharedObject SharedMemoryFile_new); FileNode_new_with_mode name mode 0 object) h
    (made (is_new_file File mode) h) (λ _ : FsError, λ _, False).
Proof.
  intros Hwf. wp_step. apply alloc_file_rule; [done|]. intros o h1 Ha Ho. pose proof Ha as (Hw & Ht & _). unfold FileNode_new_with_mode. wp_step.
  apply take_inode_rule; [done|]. intros h2 Hb Hf. rewrite Ht in Hb. apply made_rule; [by eapply changes_trans|done| |by eexists _, _, _, _].
  simpl. split; [done|]. rewrite Hf. by eexists.
Qed.

Lemma make_socket_rule h name mode :
  heap_wf h →
  wp_res (object ← alloc_file (MutableObject (MutableMemoryFile_new [])); FileNode_new_socket name mode object) h
    (made (is_new_file Socket mode) h) (λ _ : FsError, λ _, False).
Proof.
  intros Hwf. wp_step. apply alloc_file_rule; [done|]. intros o h1 Ha Ho. pose proof Ha as (Hw & Ht & _). unfold FileNode_new_socket. wp_step.
  apply take_inode_rule; [done|]. intros h2 Hb Hf. rewrite Ht in Hb. apply made_rule; [by eapply changes_trans|done| |].
  - simpl. split; [done|]. rewrite Hf. by eexists.
  - by exists name, (next_inode h1), 0, o.
Qed.

Lemma make_dir_rule h name mode dev :
  heap_wf h →
  wp_res (inode ← take_inode; DirectoryNode_new_with_metadata name (with_device_id dev (metadata_directory mode inode))) h
    (made (is_new_dir mode) h) (λ _ : FsError, λ _, False).
Proof.
  intros Hwf. wp_step. apply take_inode_rule; [done|]. intros h' Hch Hf. apply made_rule; [done|done|done|]. by eexists _, _, _.
Qed.

Lemma create_child_rule K h n d nm meta es name make :
  heap_wf h → refers h n d (DirectoryNode nm meta es) → es !! name = None →
  wp_res (make meta) h (made K h) (λ _ _, False) →
  wp_res (create_child n name make) h
    (λ w h', ∃ c ops, K ops ∧ tree h !! c = None ∧ (∀ d' name', entry (tree h) d' name' ≠ Some c) ∧ refers h' w c ops ∧
       changes h h' (<[d := DirectoryNode nm meta (<[name := c]> es)]> (<[c := ops]> (tree h))))
    (λ _ _, False).
Proof.
  intros Hwf Hr Hn Hm. destruct (base_of_eq _ _ _ _ Hwf Hr) as [ds Hs]. pose proof (refers_tree _ _ _ _ Hwf Hr) as Hd.
  unfold create_child. wp_step. unfold wp_res at 1, wp. rewrite Hs. cbn [fst snd]. wp_step.
  eapply wp_res_mono; [exact Hm|cbv beta|done]. intros c h1 (ops & HK & Hc & Hnone & Hch1). pose proof Hch1 as (Hwf1 & Ht1 & _).
  assert (c ≠ d) as Hne by congruence. assert (refers h1 c c ops) as Hrc by (apply tree_refers; by rewrite Ht1, lookup_insert_eq).
  wp_step. eapply wp_res_mono; [apply (dir_insert_rule h1 d nm meta es); [done| |apply Hrc]|cbv beta|].
  - unfold dir_at. by rewrite Ht1, lookup_insert_ne.
  - intros [] h2 (_ & Hch2 & _). pose proof Hch2 as (Hwf2 & Ht2 & Hr2). rewrite Ht1 in Hch2, Hr2.
    destruct (Hr2 _ _ _ Hrc) as (ops' & Ho' & Hrc'). rewrite lookup_insert_ne, lookup_insert_eq in Ho' by done. simplify_eq.
    eapply wp_res_mono; [by apply (wrap_rule ds h2 c c ops')|cbv beta|done]. intros w h3 (Hwf3 & He & Hrw). exists c, ops'.
    split_and!; try done. eapply changes_trans; [by eapply changes_trans|].
    rewrite <-Ht1, <-Ht2. by apply extends_changes.
  - intros e h2 (_ & _ & [x Hx]). congruence.
Qed.

(** ** Links and renaming *)

Lemma unwrap_peers_rule ds : ∀ h n b ops,
  heap_wf h → refers h n b ops → wp_res (unwrap_peers ds n) h (λ p h', h' = h ∧ refers h p b ops) (λ _ _, False).
Proof.
  induction ds as [|dev ds IH]; intros h n b ops Hwf Hr; cbn [unwrap_peers]; [wp_run; done|].
  pose proof Hr as [[i Hi] Hb]. wp_step. eapply inode_at_rule; [done|].
  apply IH; [done|]. destruct (in_operations i) as [nm meta es|nm k meta o|nm tg meta|x dev'] eqn:Ho; try done.
  destruct (hw_wrapped _ Hwf _ _ _ _ Hi Ho) as [Hlt Hx]. split; [done|]. destruct (base_total _ _ Hwf Hx) as (b' & j & Hb' & _).
  rewrite Hb'. unfold base in Hb. cbn [strip] in Hb. rewrite Hi in Hb. cbn [expect mbind outcome_bind] in Hb. rewrite Ho in Hb.
  pose proof (hw_next _ Hwf _ Hx). unfold base in Hb'. destruct (strip (S (Z.to_nat x)) (nodes h) x) as [[[ds' b''] o'']| | |] eqn:Hs; try done.
  rewrite (strip_mono _ (Z.to_nat n) (nodes h) (nodes h) x _ Hs) in Hb by (done || lia). rewrite <-Hb'. exact Hb.
Qed.

Lemma link_existing_rule h d nm meta es name c cb cops :
  heap_wf h → dir_at h d nm meta es → refers h c cb cops →
  wp_res (link_existing d name c) h
    (λ _ h', ops_kind cops ≠ Directory ∧ es !! name = None ∧
       changes h h' (alter (adjust_ops 1) c (<[d := DirectoryNode nm meta (<[name := c]> es)]> (tree h))))
    (λ e h', h' = h ∧ (e = Unsupported ∧ ops_kind cops = Directory ∨ e = AlreadyExists ∧ is_Some (es !! name))).
Proof.
  intros Hwf Hd Hr. unfold link_existing. wp_step. unfold wp_res at 1, wp. rewrite (kind_eq _ _ _ _ Hwf Hr). cbn [fst snd].
  destruct (decide (ops_kind cops = Directory)) as [Hk|Hk]; [wp_run; auto|]. wp_step.
  eapply wp_res_mono; [apply (dir_insert_rule h d nm meta es name c); [done|done|apply Hr]|cbv beta|].
  - intros [] h1 (Hn & Hch & _). pose proof Hch as (Hwf1 & Ht1 & Hr1). destruct (Hr1 _ _ _ Hr) as (? & _ & Hc & _).
    eapply wp_res_mono; [by apply adjust_link_count_rule|cbv beta|done]. intros [] h2 [Hch2 _]. split; [done|]. split; [done|].
    rewrite Ht1 in Hch2. by eapply changes_trans.
  - intros e h1 (-> & -> & ?). auto.
Qed.

Lemma dir_entries_rule h d (nm : str) (meta : NodeMetadata) (es : gmap str NodeRef) (Q : str * NodeMetadata * gmap str NodeRef → heap → Prop) (Qe : FsError → heap → Prop) :
  dir_at h d nm meta es → Q (nm, meta, es) h → wp_res (dir_entries d) h Q Qe.
Proof.
  intros (i & Hi & Ho & _)%tree_lookup HQ. unfold dir_entries. wp_step. eapply inode_at_rule; [done|]. rewrite Ho. by wp_run.
Qed.

(** In one directory: the entry gets the new name. *)
Lemma dir_rename_same_rule h d nm meta es old new (replace : bool) :
  heap_wf h → dir_at h d nm meta es →
  wp_res (dir_rename d old d new replace) h
    (λ _ h', ∃ c, es !! old = Some c ∧ (replace = false → delete old es !! new = None) ∧
       changes h h' (<[d := DirectoryNode nm meta (<[new := c]> (delete old es))]> (tree h)))
    (λ e h', h' = h ∧ (e = NotFound ∧ es !! old = None ∨ e = AlreadyExists ∧ replace = false ∧ is_Some (delete old es !! new))).
Proof.
  intros Hwf Hd. unfold dir_rename. wp_step. eapply dir_entries_rule; [done|]. rewrite decide_True by done. wp_step.
  eapply dir_entries_rule; [done|]. cbn [fst snd]. wp_step. destruct (es !! old) as [c|] eqn:Hc; wp_run; [|auto].
  destruct (negb replace && bool_decide (is_Some (delete old es !! new))) eqn:Hb.
  - apply andb_true_iff in Hb as [Hr%negb_true_iff Hx%bool_decide_eq_true]. wp_run. auto.
  - eapply put_dir_rule; [done|done| |].
    + intros name x [[<- <-]|[_ [_ ?]%lookup_delete_Some]]%lookup_insert_Some; by eapply dir_entry.
    + intros h' Hch _. exists c. split; [done|]. split; [|done]. intros ->. cbn [negb andb] in Hb. apply bool_decide_eq_false in Hb.
      by apply eq_None_not_Some.
Qed.

(** Between two directories: a node that is replaced loses a link. *)
Definition drop_replaced (replaced : option NodeRef) c (T : gmap NodeRef InodeOps) : gmap NodeRef InodeOps :=
  match replaced with
  | Some r => if decide (r ≠ c) then alter (adjust_ops (-1)) r T else T
  | None => T
  end.

Lemma drop_replaced_rule h replaced c :
  heap_wf h → (∀ r, replaced = Some r → is_Some (nodes h !! r)) →
  wp_res (match replaced with
          | Some r => if decide (r ≠ c) then adjust_link_count r (-1) else mret ()
          | None => mret ()
          end) h (λ _ h', changes h h' (drop_replaced replaced c (tree h))) (λ _ _, False).
Proof.
  intros Hwf Hr. destruct replaced as [r|]; simpl; [|wp_run; by apply changes_refl]. destruct (decide (r ≠ c)); [|wp_run; by apply changes_refl].
  eapply wp_res_mono; [apply adjust_link_count_rule; [done|by apply Hr]|by intros [] h' [? _]|done].
Qed.

Lemma drop_replaced_dir replaced c T d nm meta es :
  T !! d = Some (DirectoryNode nm meta es) → drop_replaced replaced c T !! d = Some (DirectoryNode nm meta es).
Proof.
  intros Hd. unfold drop_replaced. destruct replaced as [r|]; [|done]. destruct (decide _); [|done].
  destruct (decide (r = d)) as [->|Hne]; [by rewrite lookup_alter_eq, Hd|by rewrite lookup_alter_ne].
Qed.

Lemma dir_rename_cross_rule h d nm meta es t tnm tmeta tes old new (replace : bool) :
  heap_wf h → dir_at h d nm meta es → dir_at h t tnm tmeta tes → d ≠ t →
  wp_res (dir_rename d old t new replace) h
    (λ _ h', ∃ c, es !! old = Some c ∧ (replace = false → tes !! new = None) ∧
       changes h h' (<[t := DirectoryNode tnm tmeta (<[new := c]> tes)]>
                       (drop_replaced (tes !! new) c (<[d := DirectoryNode nm meta (delete old es)]> (tree h)))))
    (λ e h', h' = h ∧ (e = NotFound ∧ es !! old = None ∨ e = AlreadyExists ∧ replace = false ∧ is_Some (tes !! new))).
Proof.
  intros Hwf Hd Ht Hne. unfold dir_rename. wp_step. eapply dir_entries_rule; [done|]. rewrite decide_False by done.
  unfold rename_between_maps. wp_step. eapply dir_entries_rule; [done|]. cbn [fst snd]. wp_step.
  destruct (es !! old) as [c|] eqn:Hc; wp_run; [|auto]. eapply dir_entries_rule; [done|]. cbn [fst snd].
  destruct (negb replace && bool_decide (is_Some (tes !! new))) eqn:Hb.
  { apply andb_true_iff in Hb as [Hr%negb_true_iff Hx%bool_decide_eq_true]. wp_run. auto. }
  wp_step. eapply put_dir_rule; [done|done|intros name x [_ ?]%lookup_delete_Some; by eapply (dir_entry h d)|]. intros h1 Hch1 _.
  pose proof Hch1 as (Hwf1 & Ht1 & Hr1).
  assert (∀ x, is_Some (nodes h !! x) → is_Some (nodes h1 !! x)) as Hmono1.
  { intros x Hx. destruct (refers_total _ _ Hwf Hx) as (b & o & Hr). destruct (Hr1 _ _ _ Hr) as (? & _ & ? & _). done. }
  wp_step. eapply wp_res_mono; [apply (drop_replaced_rule h1); [done|]|cbv beta|done].
  { intros r Hr. apply Hmono1. by eapply (dir_entry h t). }
  intros [] h2 Hch2. pose proof Hch2 as (Hwf2 & Ht2 & Hr2). rewrite Ht1 in Hch2, Ht2, Hr2.
  eapply put_dir_rule; [done| | |].
  - unfold dir_at. rewrite Ht2. apply drop_replaced_dir. by rewrite lookup_insert_ne.
  - intros name x Hx. assert (is_Some (nodes h1 !! x)) as Hx1.
    { apply Hmono1. apply lookup_insert_Some in Hx as [[_ <-]|[_ Hx]]; [by eapply (dir_entry h d)|by eapply (dir_entry h t)]. }
    destruct (refers_total _ _ Hwf1 Hx1) as (b & o & Hr). destruct (Hr2 _ _ _ Hr) as (? & _ & ? & _). done.
  - intros h3 Hch3 _. exists c. split; [done|]. split.
    + intros ->. cbn [negb andb] in Hb. apply bool_decide_eq_false in Hb. by apply eq_None_not_Some.
    + rewrite Ht2 in Hch3. eapply changes_trans; [done|]. by eapply changes_trans.
Qed.
