(* ===== verification/LinkProof.v ===== *)
(** * Link counts

    The link count of a file or symbolic link is the number of directory
    entries that lead to it: the number that refer to it ([counts_ok]), where
    all entries refer to nodes and none to a wrapper ([direct]).  Creation,
    linking and removal keep this so; it is shown on the trees of [NodeProof],
    which the operations change as their rules say. *)

From Stdlib Require Import Ascii String.
From S2P Require Import Prelude Poll Path MemFile Node NodeProof.

Open Scope list_scope.

Implicit Types (T : gmap NodeRef InodeOps) (n d c : NodeRef) (name : str) (X : gset (NodeRef * str)).

(** Directories have no adjusted count. *)
Definition ops_nlink (ops : InodeOps) : option Z :=
  match ops with
  | FileNode _ _ meta _ | SymlinkNode _ _ meta => Some (md_nlink meta)
  | _ => None
  end.
Definition nlink T n : option Z := ops ← T !! n; ops_nlink ops.

(** The entries that refer to [n]. *)
Definition names T n X : Prop := ∀ d name, (d, name) ∈ X ↔ entry T d name = Some n.

Definition counts_ok T : Prop := ∀ n k, nlink T n = Some k → k <= u32_max ∧ ∃ X, names T n X ∧ k = Z.of_nat (size X).

(** A new entry. *)
Lemma counts_insert T T' d name c :
  counts_ok T → entry T d name = None →
  (∀ d' name', entry T' d' name' = if decide ((d', name') = (d, name)) then Some c else entry T d' name') →
  (∀ n, n ≠ c → nlink T' n = nlink T n) →
  (∀ k, nlink T' c = Some k → k <= u32_max ∧ (nlink T c = Some (k - 1) ∨ (k = 1 ∧ ∀ d' name', entry T d' name' ≠ Some c))) →
  counts_ok T'.
Proof.
  intros Hok Hnone He Hn Hc n k Hk. destruct (decide (n = c)) as [->|Hne].
  - destruct (Hc _ Hk) as [Hmax [H|[-> H]]]; (split; [done|]).
    + destruct (Hok _ _ H) as (_ & X & HX & Hs). exists ({[(d, name)]} ∪ X). split.
      * intros d' name'. rewrite He, elem_of_union, elem_of_singleton, (HX d' name'). destruct (decide _); naive_solver.
      * assert ((d, name) ∉ X) by (rewrite (HX d name); congruence). rewrite size_union, size_singleton by set_solver. lia.
    + exists {[(d, name)]}. split; [|by rewrite size_singleton]. intros d' name'. rewrite He, elem_of_singleton. pose proof (H d' name').
      destruct (decide _); naive_solver.
  - rewrite Hn in Hk by done. destruct (Hok _ _ Hk) as (Hmax & X & HX & Hs). split; [done|]. exists X. split; [|done].
    intros d' name'. rewrite He, (HX d' name'). destruct (decide _) as [[= -> ->]|]; [|done]. rewrite Hnone. naive_solver.
Qed.

(** An entry less. *)
Lemma counts_delete T T' d name c :
  counts_ok T → entry T d name = Some c →
  (∀ d' name', entry T' d' name' = if decide ((d', name') = (d, name)) then None else entry T d' name') →
  (∀ n, n ≠ c → nlink T' n = nlink T n) → (∀ k, nlink T' c = Some k → ∃ k', nlink T c = Some k' ∧ k = saturating_add_signed k' (-1)) →
  counts_ok T'.
Proof.
  intros Hok Hsome He Hn Hc n k Hk. destruct (decide (n = c)) as [->|Hne].
  - destruct (Hc _ Hk) as (k' & Hk' & ->). destruct (Hok _ _ Hk') as (Hmax & X & HX & Hs).
    assert ((d, name) ∈ X) as Hin by (by apply HX). assert ({[(d, name)]} ⊆ X) as Hsub by set_solver.
    pose proof (size_difference _ _ Hsub) as Hsz. rewrite size_singleton in Hsz. pose proof (subseteq_size _ _ Hsub) as Hle. rewrite size_singleton in Hle.
    unfold saturating_add_signed. split; [lia|]. exists (X ∖ {[(d, name)]}). split; [|lia].
    intros d' name'. rewrite He, elem_of_difference, elem_of_singleton, (HX d' name'). destruct (decide _); naive_solver.
  - rewrite Hn in Hk by done. destruct (Hok _ _ Hk) as (Hmax & X & HX & Hs). split; [done|]. exists X. split; [|done].
    intros d' name'. rewrite He, (HX d' name'). destruct (decide _) as [[= -> ->]|]; [|done]. rewrite Hsome. naive_solver.
Qed.

(** An entry is moved. *)
Lemma counts_move T T' d name t new c :
  counts_ok T → entry T d name = Some c → (entry T t new = None ∨ (t, new) = (d, name)) →
  (∀ d' name', entry T' d' name' =
     if decide ((d', name') = (t, new)) then Some c else if decide ((d', name') = (d, name)) then None else entry T d' name') →
  (∀ n, nlink T' n = nlink T n) → counts_ok T'.
Proof.
  intros Hok Hsome Hnone He Hn n k Hk. rewrite Hn in Hk. destruct (Hok _ _ Hk) as (Hmax & X & HX & Hs). split; [done|].
  destruct (decide (n = c)) as [->|Hne].
  - exists ({[(t, new)]} ∪ X ∖ {[(d, name)]}). assert ((d, name) ∈ X) as Hin by (by apply HX). assert ({[(d, name)]} ⊆ X) as Hsub by set_solver.
    pose proof (size_difference _ _ Hsub) as Hsz. rewrite size_singleton in Hsz. pose proof (subseteq_size _ _ Hsub) as Hle. rewrite size_singleton in Hle.
    assert ((t, new) ∉ X ∖ {[(d, name)]}) as Hout.
    { rewrite elem_of_difference, elem_of_singleton, (HX t new). destruct Hnone; naive_solver. }
    split; [|rewrite size_union, size_singleton by set_solver; lia].
    intros d' name'. rewrite He, elem_of_union, elem_of_difference, !elem_of_singleton, (HX d' name'). repeat destruct (decide _); naive_solver.
  - exists X. split; [|done]. intros d' name'. rewrite He, (HX d' name'). destruct (decide _) as [[= -> ->]|].
    { destruct Hnone as [Hnone|[= -> ->]]; [rewrite Hnone|rewrite Hsome]; naive_solver. }
    destruct (decide _) as [[= -> ->]|]; [|done]. rewrite Hsome. naive_solver.
Qed.

(** ** The trees of the operations *)

Lemma entry_alter delta n T d name : entry (alter (adjust_ops delta) n T) d name = entry T d name.
Proof.
  unfold entry. destruct (decide (n = d)) as [->|Hne]; [|by rewrite lookup_alter_ne]. rewrite lookup_alter_eq.
  destruct (T !! d) as [[]|]; done.
Qed.

Lemma entry_insert T d nm meta es d' name' :
  entry (<[d := DirectoryNode nm meta es]> T) d' name' = if decide (d' = d) then es !! name' else entry T d' name'.
Proof. unfold entry. destruct (decide (d' = d)) as [->|Hne]; [by rewrite lookup_insert_eq|by rewrite lookup_insert_ne]. Qed.

Lemma nlink_insert_dir T d nm meta es nm' meta' es' n :
  T !! d = Some (DirectoryNode nm' meta' es') → nlink (<[d := DirectoryNode nm meta es]> T) n = nlink T n.
Proof.
  intros Hd. unfold nlink. destruct (decide (n = d)) as [->|Hne]; [by rewrite lookup_insert_eq, Hd|by rewrite lookup_insert_ne].
Qed.

Lemma nlink_alter delta n T m :
  nlink (alter (adjust_ops delta) n T) m = if decide (m = n) then (λ k, saturating_add_signed k delta) <$> nlink T m else nlink T m.
Proof.
  unfold nlink. destruct (decide (m = n)) as [->|Hne]; [|by rewrite lookup_alter_ne]. rewrite lookup_alter_eq. destruct (T !! n) as [[]|]; done.
Qed.

Lemma dir_entry_at T d nm meta es name : T !! d = Some (DirectoryNode nm meta es) → entry T d name = es !! name.
Proof. intros Hd. unfold entry. by rewrite Hd. Qed.

Lemma counts_create T d nm meta es name c ops :
  counts_ok T → T !! d = Some (DirectoryNode nm meta es) → es !! name = None → T !! c = None → (∀ d' name', entry T d' name' ≠ Some c) →
  ops_entries ops = ∅ → (∀ k, ops_nlink ops = Some k → k = 1) →
  counts_ok (<[d := DirectoryNode nm meta (<[name := c]> es)]> (<[c := ops]> T)).
Proof.
  intros Hok Hd Hnone Hc Hno Hes Hk. assert (c ≠ d) as Hne by congruence.
  assert (∀ n, nlink (<[d := DirectoryNode nm meta (<[name := c]> es)]> (<[c := ops]> T)) n = nlink (<[c := ops]> T) n) as Hnl.
  { intros n. eapply nlink_insert_dir. by rewrite lookup_insert_ne. }
  eapply (counts_insert T _ d name c); [done|by rewrite (dir_entry_at _ _ _ _ _ _ Hd)| | |].
  - intros d' name'. rewrite entry_insert. destruct (decide (d' = d)) as [->|Hd'].
    + rewrite (dir_entry_at _ _ _ _ _ _ Hd). destruct (decide (name' = name)) as [->|Hn'].
      * by rewrite lookup_insert_eq, decide_True.
      * rewrite lookup_insert_ne by done. rewrite decide_False by (by intros [= ?]). done.
    + rewrite decide_False by (by intros [= ?]). unfold entry. destruct (decide (d' = c)) as [->|Hdc]; [|by rewrite lookup_insert_ne].
      rewrite lookup_insert_eq, Hc. simpl. by rewrite Hes.
  - intros n Hn. rewrite Hnl. unfold nlink. by rewrite lookup_insert_ne.
  - intros k. rewrite Hnl. unfold nlink. rewrite lookup_insert_eq. simpl. intros ->%Hk. split; [done|]. by right.
Qed.

Lemma entry_put T d nm meta es es' (f : NodeRef → str → option NodeRef) :
  T !! d = Some (DirectoryNode nm meta es) → (∀ name', es' !! name' = f d name') → (∀ d' name', d' ≠ d → f d' name' = entry T d' name') →
  ∀ d' name', entry (<[d := DirectoryNode nm meta es']> T) d' name' = f d' name'.
Proof. intros Hd H1 H2 d' name'. rewrite entry_insert. destruct (decide (d' = d)) as [->|Hne]; [done|by rewrite H2]. Qed.

Lemma counts_link T d nm meta es name c :
  counts_ok T → T !! d = Some (DirectoryNode nm meta es) → es !! name = None →
  (∀ k, nlink T c = Some k → k < u32_max) →
  counts_ok (alter (adjust_ops 1) c (<[d := DirectoryNode nm meta (<[name := c]> es)]> T)).
Proof.
  intros Hok Hd Hnone Hmax. eapply (counts_insert T _ d name c); [done|by rewrite (dir_entry_at _ _ _ _ _ _ Hd)| | |].
  - intros d' name'. rewrite entry_alter. revert d' name'. eapply entry_put; [done| |].
    + intros name'. rewrite (dir_entry_at _ _ _ _ _ _ Hd). destruct (decide _) as [[= ->]|Hn']; [by rewrite lookup_insert_eq|].
      rewrite lookup_insert_ne; [done|]. by intros ->.
    + intros d' name' Hne. rewrite decide_False; [done|]. by intros [= ?].
  - intros n Hn. rewrite nlink_alter, decide_False by done. by eapply nlink_insert_dir.
  - intros k. rewrite nlink_alter, decide_True, (nlink_insert_dir _ _ _ _ _ _ _ _ _ Hd) by done.
    destruct (nlink T c) as [k0|] eqn:Hk; [|done]. simpl. intros [= <-]. pose proof (Hmax _ eq_refl). destruct (Hok _ _ Hk) as (? & X & _ & ->).
    unfold saturating_add_signed. split; [lia|]. left. f_equal. lia.
Qed.

(** A name is removed, and the node loses a link unless it is a directory. *)
Lemma counts_unlink T d nm meta es name c (g : InodeOps → InodeOps) :
  counts_ok T → T !! d = Some (DirectoryNode nm meta es) → es !! name = Some c →
  g = adjust_ops (-1) ∨ (g = id ∧ nlink T c = None) →
  counts_ok (alter g c (<[d := DirectoryNode nm meta (delete name es)]> T)).
Proof.
  intros Hok Hd Hsome Hg. set (T1 := <[d := _]> T).
  assert (∀ d' name', entry (alter g c T1) d' name' = entry T1 d' name') as He.
  { intros d' name'. destruct Hg as [->|[-> _]]; [apply entry_alter|]. unfold entry. destruct (decide (c = d')) as [->|Hne].
    - rewrite lookup_alter_eq. by destruct (T1 !! d').
    - by rewrite lookup_alter_ne. }
  assert (∀ n, nlink T1 n = nlink T n) as Hn1 by (intros n; by eapply nlink_insert_dir).
  eapply (counts_delete T _ d name c); [done|by rewrite (dir_entry_at _ _ _ _ _ _ Hd)| | |].
  - intros d' name'. rewrite He. revert d' name'. eapply entry_put; [done| |].
    + intros name'. rewrite (dir_entry_at _ _ _ _ _ _ Hd). destruct (decide _) as [[= ->]|Hn']; [by rewrite lookup_delete_eq|].
      rewrite lookup_delete_ne; [done|]. by intros ->.
    + intros d' name' Hne. rewrite decide_False; [done|]. by intros [= ?].
  - intros n Hn. rewrite <-(Hn1 n). unfold nlink. by rewrite lookup_alter_ne.
  - intros k. destruct Hg as [->|[-> Hno]].
    + rewrite nlink_alter, decide_True, Hn1 by done. destruct (nlink T c) as [k0|]; [|done]. simpl. intros [= <-]. eauto.
    + assert (nlink (alter id c T1) c = nlink T1 c) as -> by (unfold nlink; rewrite lookup_alter_eq; by destruct (T1 !! c)).
      rewrite Hn1, Hno. done.
Qed.

(** ** Renaming *)

Definition renamed T d nm meta es (old : str) (t : NodeRef) tnm tmeta tes (new : str) c : gmap NodeRef InodeOps :=
  if decide (d = t) then <[d := DirectoryNode nm meta (<[new := c]> (delete old es))]> T
  else <[t := DirectoryNode tnm tmeta (<[new := c]> tes)]> (drop_replaced (tes !! new) c (<[d := DirectoryNode nm meta (delete old es)]> T)).

Section renamed.
Context T (d : NodeRef) (nm : str) (meta : NodeMetadata) (es : gmap str NodeRef) (old : str)
  (t : NodeRef) (tnm : str) (tmeta : NodeMetadata) (tes : gmap str NodeRef) (new : str) (c : NodeRef).
Context (Hd : T !! d = Some (DirectoryNode nm meta es)) (Ht : T !! t = Some (DirectoryNode tnm tmeta tes)).
Local Abbreviation T' := (renamed T d nm meta es old t tnm tmeta tes new c).

Lemma entry_drop_replaced r T0 d' name' : entry (drop_replaced r c T0) d' name' = entry T0 d' name'.
Proof. unfold drop_replaced. destruct r; [|done]. destruct (decide _); [apply entry_alter|done]. Qed.

(** The entry has moved; the others are the same. *)
Lemma entry_renamed d' name' :
  entry T' d' name' =
    if decide ((d', name') = (t, new)) then Some c else if decide ((d', name') = (d, old)) then None else entry T d' name'.
Proof.
  unfold renamed.
  destruct (decide (d = t)) as [<-|Hne]; rewrite ?entry_insert, ?entry_drop_replaced, ?entry_insert.
  - destruct (decide (d' = d)) as [->|Hne]; [|by rewrite !decide_False by congruence].
    rewrite (dir_entry_at _ _ _ _ _ _ Hd). destruct (decide (name' = new)) as [->|Hn]; [by rewrite lookup_insert_eq, decide_True|].
    rewrite lookup_insert_ne, (decide_False (P := (d, name') = (d, new))) by congruence.
    destruct (decide (name' = old)) as [->|Ho]; [by rewrite lookup_delete_eq, decide_True|].
    by rewrite lookup_delete_ne, decide_False by congruence.
  - destruct (decide (d' = t)) as [->|Hne'].
    + rewrite (dir_entry_at _ _ _ _ _ _ Ht). destruct (decide (name' = new)) as [->|Hn]; [by rewrite lookup_insert_eq, decide_True|].
      by rewrite lookup_insert_ne, !decide_False by congruence.
    + rewrite (decide_False (P := (d', name') = (t, new))) by congruence. destruct (decide (d' = d)) as [->|Hne''].
      * rewrite (dir_entry_at _ _ _ _ _ _ Hd). destruct (decide (name' = old)) as [->|Ho]; [by rewrite lookup_delete_eq, decide_True|].
        by rewrite lookup_delete_ne, decide_False by congruence.
      * by rewrite decide_False by congruence.
Qed.

(** The count of a node that is replaced, in another directory. *)
Lemma nlink_renamed n :
  nlink T' n = match tes !! new with
               | Some r => if decide (d ≠ t ∧ r ≠ c ∧ n = r) then (λ k, saturating_add_signed k (-1)) <$> nlink T n else nlink T n
               | None => nlink T n
               end.
Proof.
  unfold renamed. destruct (decide (d = t)) as [<-|Hne].
  - rewrite (nlink_insert_dir _ _ _ _ _ _ _ _ _ Hd). destruct (tes !! new); [|done]. by rewrite decide_False by tauto.
  - assert (<[d := DirectoryNode nm meta (delete old es)]> T !! t = Some (DirectoryNode tnm tmeta tes)) as Ht' by (by rewrite lookup_insert_ne).
    rewrite (nlink_insert_dir _ _ _ _ _ _ _ _ _ (drop_replaced_dir _ _ _ _ _ _ _ Ht')).
    destruct (tes !! new) as [r|]; simpl; [|by rewrite (nlink_insert_dir _ _ _ _ _ _ _ _ _ Hd)]. destruct (decide (r ≠ c)) as [Hrc|Hrc].
    + rewrite nlink_alter, (nlink_insert_dir _ _ _ _ _ _ _ _ _ Hd). destruct (decide (n = r)); [by rewrite decide_True|by rewrite decide_False by tauto].
    + rewrite (nlink_insert_dir _ _ _ _ _ _ _ _ _ Hd). by rewrite decide_False by tauto.
Qed.

(** Nothing is replaced in the same directory, and no other name of the node. *)
Lemma counts_renamed :
  counts_ok T → es !! old = Some c →
  (∀ r, tes !! new = Some r → (d ≠ t ∧ r ≠ c) ∨ (d = t ∧ new = old)) → counts_ok T'.
Proof.
  intros Hok Hsome Hrep. assert (entry T d old = Some c) as He0 by (by rewrite (dir_entry_at _ _ _ _ _ _ Hd)).
  assert (entry T t new = tes !! new) as He1 by (by rewrite (dir_entry_at _ _ _ _ _ _ Ht)).
  destruct (tes !! new) as [r|] eqn:Hr.
  2:{ eapply (counts_move T _ d old t new c); [done|done|by left|by apply entry_renamed|]. intros n. by rewrite nlink_renamed, Hr. }
  destruct (Hrep r eq_refl) as [[Hne Hrc]|[Hdt Hno]].
  - set (T1 := alter (adjust_ops (-1)) r (<[t := DirectoryNode tnm tmeta (delete new tes)]> T)).
    assert (∀ d' name', entry T1 d' name' = if decide ((d', name') = (t, new)) then None else entry T d' name') as HT1.
    { intros d' name'. unfold T1. rewrite entry_alter, entry_insert. destruct (decide (d' = t)) as [->|Hd']; [|by rewrite decide_False by congruence].
      rewrite (dir_entry_at _ _ _ _ _ _ Ht). destruct (decide (name' = new)) as [->|Hn]; [by rewrite lookup_delete_eq, decide_True|].
      by rewrite lookup_delete_ne, decide_False by congruence. }
    eapply (counts_move T1 _ d old t new c); [apply counts_unlink; auto| | | |].
    + by rewrite HT1, decide_False by congruence.
    + left. by rewrite HT1, decide_True.
    + intros d' name'. rewrite entry_renamed, HT1. destruct (decide ((d', name') = (t, new))); [done|]. by destruct (decide _).
    + intros n. rewrite nlink_renamed, Hr. unfold T1. rewrite nlink_alter, (nlink_insert_dir _ _ _ _ _ _ _ _ _ Ht).
      destruct (decide (n = r)); [by rewrite decide_True|by rewrite decide_False by tauto].
  - eapply (counts_move T _ d old t new c); [done|done|right; congruence|by apply entry_renamed|]. intros n. rewrite nlink_renamed, Hr. by rewrite decide_False by tauto.
Qed.
End renamed.

(** ** Counts that are the numbers of names *)

Definition links_ok T : Prop := direct T ∧ counts_ok T.

(** Nodes stay, and an entry is an old one or refers to a node. *)
Lemma direct_keep T T' :
  direct T → (∀ n, is_Some (T !! n) → is_Some (T' !! n)) →
  (∀ d name c, entry T' d name = Some c → (∃ d' name', entry T d' name' = Some c) ∨ is_Some (T' !! c)) → direct T'.
Proof. intros Hd Hdom He d name c Hc. destruct (He _ _ _ Hc) as [(d' & name' & H)|H]; eauto. Qed.

Lemma alter_is_Some (g : InodeOps → InodeOps) c T n : is_Some (alter g c T !! n) ↔ is_Some (T !! n).
Proof.
  destruct (decide (c = n)) as [->|Hne]; [rewrite lookup_alter_eq, fmap_is_Some|rewrite lookup_alter_ne by done]; done.
Qed.

Lemma insert_keeps d ops T n : is_Some (T !! n) → is_Some (<[d := ops]> T !! n).
Proof. rewrite lookup_insert_is_Some. destruct (decide (d = n)); auto. Qed.

Lemma links_create T d nm meta es name c ops :
  links_ok T → T !! d = Some (DirectoryNode nm meta es) → es !! name = None → T !! c = None → (∀ d' name', entry T d' name' ≠ Some c) →
  ops_entries ops = ∅ → (∀ k, ops_nlink ops = Some k → k = 1) →
  links_ok (<[d := DirectoryNode nm meta (<[name := c]> es)]> (<[c := ops]> T)).
Proof.
  intros [Hdir Hcnt] Hd Hn Hc Hno He Hk. split; [|by apply counts_create]. eapply direct_keep; [done|intros n Hs; by do 2 apply insert_keeps|].
  intros d' name' c'. rewrite entry_insert. destruct (decide (d' = d)) as [->|Hne].
  - intros [[<- <-]|[_ Hs]]%lookup_insert_Some; [right; apply insert_keeps; rewrite lookup_insert_eq; by eexists|].
    left. exists d, name'. by rewrite (dir_entry_at _ _ _ _ _ _ Hd).
  - unfold entry at 1. destruct (decide (d' = c)) as [->|Hdc]; [rewrite lookup_insert_eq; simpl; by rewrite He|].
    rewrite lookup_insert_ne by done. intros Hs. left. by exists d', name'.
Qed.

Lemma links_alloc T c ops :
  links_ok T → T !! c = None → ops_entries ops = ∅ → ops_nlink ops = None → links_ok (<[c := ops]> T).
Proof.
  intros [Hdir Hcnt] Hc He Hn.
  assert (∀ d name, entry (<[c := ops]> T) d name = entry T d name) as Hent.
  { intros d name. unfold entry. destruct (decide (d = c)) as [->|Hne]; [|by rewrite lookup_insert_ne].
    rewrite lookup_insert_eq, Hc. simpl. by rewrite He. }
  split.
  - eapply direct_keep; [done|intros n; apply insert_keeps|]. intros d name x. rewrite Hent. eauto.
  - intros n k Hk. unfold nlink in Hk. apply bind_Some in Hk as (o & [[<- <-]|[Hne Ho]]%lookup_insert_Some & Hk); [congruence|].
    destruct (Hcnt n k) as (Hmax & X & HX & Hs); [unfold nlink; by rewrite Ho|]. split; [done|]. exists X. split; [|done].
    intros d name. by rewrite (HX d name), Hent.
Qed.

(** A second name for a node, not for a wrapper. *)
Lemma links_link T d nm meta es name c :
  links_ok T → T !! d = Some (DirectoryNode nm meta es) → es !! name = None → is_Some (T !! c) →
  (∀ k, nlink T c = Some k → k < u32_max) →
  links_ok (alter (adjust_ops 1) c (<[d := DirectoryNode nm meta (<[name := c]> es)]> T)).
Proof.
  intros [Hdir Hcnt] Hd Hn Hc Hmax. split; [|by apply counts_link].
  eapply direct_keep; [done|intros n Hs; by apply alter_is_Some, insert_keeps|].
  intros d' name' c'. rewrite entry_alter, entry_insert. destruct (decide (d' = d)) as [->|Hne].
  - intros [[<- <-]|[_ Hs]]%lookup_insert_Some; [right; by apply alter_is_Some, insert_keeps|].
    left. exists d, name'. by rewrite (dir_entry_at _ _ _ _ _ _ Hd).
  - intros Hs. left. by exists d', name'.
Qed.

Lemma links_unlink T d nm meta es name c (g : InodeOps → InodeOps) :
  links_ok T → T !! d = Some (DirectoryNode nm meta es) → es !! name = Some c →
  g = adjust_ops (-1) ∨ (g = id ∧ nlink T c = None) →
  links_ok (alter g c (<[d := DirectoryNode nm meta (delete name es)]> T)).
Proof.
  intros [Hdir Hcnt] Hd Hs Hg. split; [|by apply counts_unlink].
  eapply direct_keep; [done|intros n Hn; by apply alter_is_Some, insert_keeps|]. intros d' name' c' He. left. exists d', name'.
  assert (entry (alter g c (<[d := DirectoryNode nm meta (delete name es)]> T)) d' name' = entry (<[d := DirectoryNode nm meta (delete name es)]> T) d' name') as Heq.
  { destruct Hg as [->|[-> _]]; [apply entry_alter|]. unfold entry. destruct (decide (c = d')) as [->|Hne].
    - rewrite lookup_alter_eq. by destruct (_ !! d').
    - by rewrite lookup_alter_ne. }
  rewrite Heq, entry_insert in He. destruct (decide (d' = d)) as [->|Hne]; [|done].
  apply lookup_delete_Some in He as [_ He]. by rewrite (dir_entry_at _ _ _ _ _ _ Hd).
Qed.

Lemma links_renamed T d nm meta es old t tnm tmeta tes new c :
  T !! d = Some (DirectoryNode nm meta es) → T !! t = Some (DirectoryNode tnm tmeta tes) → links_ok T → es !! old = Some c →
  (∀ r, tes !! new = Some r → (d ≠ t ∧ r ≠ c) ∨ (d = t ∧ new = old)) → links_ok (renamed T d nm meta es old t tnm tmeta tes new c).
Proof.
  intros Hd Ht [Hdir Hcnt] Hs Hr. split; [|by apply counts_renamed]. eapply direct_keep; [done| |].
  - intros n Hn. unfold renamed, drop_replaced. destruct (decide (d = t)); [by apply insert_keeps|]. apply insert_keeps.
    destruct (tes !! new); [destruct (decide _); [apply alter_is_Some|]|]; by apply insert_keeps.
  - intros d' name' c' He. rewrite (entry_renamed T d nm meta es old t tnm tmeta tes new c Hd Ht) in He. left.
    destruct (decide ((d', name') = (t, new))); [injection He as <-; exists d, old; by rewrite (dir_entry_at _ _ _ _ _ _ Hd)|].
    destruct (decide _); [done|]. by exists d', name'.
Qed.
