(* ===== verification/LookupProof.v ===== *)
(** * Path lookup

    What a lookup computes, without the wrappers that it allocates: [plookup]
    is a function of the tree and of the mounts, and [lookup_namespace_entry]
    implements it.  The theorems on names are proved on [plookup]. *)

From Stdlib Require Import Ascii String.
From S2P Require Import Prelude Poll Errno Path MemFile Node NodeProof Namespace Rootfs.

Open Scope list_scope.

Implicit Types (h : heap) (n b : NodeRef) (ops : InodeOps) (ns : MountNamespace) (w : world).

(** ** The specification *)

(** A node: its reference and what it is. *)
Abbreviation place := (NodeRef * InodeOps)%type.

Definition mount_place h (m : MountedNode) : SysResult place := expect (base h (mn_node m)).

(** What [current/component] is: the mount at that path, or the entry. *)
Definition pstep h ns (current : place) (path component : str) : SysResult place :=
  m ← lookup_mount (resolve_namespace_path path component) ns;
  match m with
  | Some m => mount_place h m
  | None => c ← ok_or (ops_entries current.2 !! component) SysErr.NoEnt; expect (base h c)
  end.

Definition is_link (p : place) : bool := bool_decide (ops_kind p.2 = Symlink).

Fixpoint pwalk (redirect : str → SysResult (place * str)) h ns (follow_final : bool) (components : list str)
    (current : place) (path : str) : SysResult (place * str) :=
  match components with
  | [] => mret (current, path)
  | component :: tail =>
      next ← pstep h ns current path component;
      if is_link next && (negb (bool_decide (tail = [])) || follow_final) then
        target ← ok_or (ops_target next.2) SysErr.Inval;
        redirect (foldl resolve_namespace_path (resolve_symlink_path path target) tail)
      else pwalk redirect h ns follow_final tail next (resolve_namespace_path path component)
  end.

Definition proot h ns : SysResult place := m ← root_mount ns; mount_place h m.

Fixpoint plookup (left : nat) h ns (path : str) (follow_final : bool) : SysResult (place * str) :=
  match left with
  | O => Err SysErr.Loop
  | S left' =>
      let normalized := normalize_absolute_path path in
      root ← proot h ns;
      if decide (normalized = SLASH) then mret (root, SLASH)
      else pwalk (λ redirected, plookup left' h ns redirected follow_final) h ns follow_final
             (split_components normalized) root SLASH
  end.

(** ** Well-formed namespaces *)

Record ns_wf h ns : Prop := {
  nw_root : root_stack ns ≠ [];
  nw_root_node m : m ∈ root_stack ns → is_Some (nodes h !! mn_node m);
  nw_mount path stack m : mounts ns !! path = Some stack → m ∈ stack → is_Some (nodes h !! mn_node m);
}.

Lemma ns_wf_nodes h h' ns : ns_wf h ns → (∀ n, is_Some (nodes h !! n) → is_Some (nodes h' !! n)) → ns_wf h' ns.
Proof. intros [] Hn. split; eauto. Qed.

Lemma extends_is_Some h h' n : extends h h' → is_Some (nodes h !! n) → is_Some (nodes h' !! n).
Proof. intros He [i Hi]. exists i. eapply lookup_weaken; [done|apply He]. Qed.

Lemma ns_wf_extends h h' ns : extends h h' → ns_wf h ns → ns_wf h' ns.
Proof. intros He Hns. eapply ns_wf_nodes; [done|]. intros n. by apply extends_is_Some. Qed.

Lemma last_elem {A} (l : list A) x : last l = Some x → x ∈ l.
Proof. intros H. apply last_Some in H as [l' ->]. apply elem_of_app. right. by left. Qed.

Lemma root_mount_ok h ns : ns_wf h ns → ∃ m, root_mount ns = Ok m ∧ is_Some (nodes h !! mn_node m).
Proof.
  intros [Hr Hrn _]. unfold root_mount. destruct (last (root_stack ns)) as [m|] eqn:Hl; [|by apply last_None in Hl].
  exists m. split; [done|]. by apply Hrn, last_elem.
Qed.

Lemma lookup_mount_ok h ns path :
  ns_wf h ns → ∃ m, lookup_mount path ns = Ok m ∧ ∀ x, m = Some x → is_Some (nodes h !! mn_node x).
Proof.
  intros Hns. unfold lookup_mount. destruct (decide _).
  - destruct (root_mount_ok _ _ Hns) as (m & -> & Hm). exists (Some m). split; [done|]. by intros x [= <-].
  - eexists. split; [done|]. intros x. destruct (mounts ns !! path) as [stack|] eqn:Hp; [|done]. simpl. intros Hl%last_elem.
    by eapply (nw_mount _ _ Hns).
Qed.

(** ** The refinement *)

(** Only wrappers were added. *)
Definition looked (w w' : world) : Prop :=
  heap_wf (w_heap w') ∧ extends (w_heap w) (w_heap w') ∧ w' = set_heap (w_heap w') w.

Lemma looked_refl w : heap_wf (w_heap w) → looked w w.
Proof. intros Hwf. split; [done|]. split; [apply extends_refl|by destruct w]. Qed.

Lemma looked_trans w1 w2 w3 : looked w1 w2 → looked w2 w3 → looked w1 w3.
Proof.
  intros (H1 & H2 & H3) (G1 & G2 & G3). split; [done|]. split; [by eapply extends_trans|]. rewrite G3, H3. done.
Qed.

Lemma looked_heap w h : heap_wf h → extends (w_heap w) h → looked w (set_heap h w).
Proof. by split. Qed.

Lemma on_heap_rule {A} (op : MF A) w (Q : A → heap → Prop) (Qe : FsError → heap → Prop) :
  wp_res op (w_heap w) Q Qe →
  wp_res (on_heap op) w (λ a w', Q a (w_heap w') ∧ w' = set_heap (w_heap w') w)
    (λ e w', ∃ e', e = SysErr.from_fs_error e' ∧ Qe e' (w_heap w') ∧ w' = set_heap (w_heap w') w).
Proof. unfold wp_res, wp, on_heap. destruct (op (w_heap w)) as [[a|e| |] h']; simpl; eauto. Qed.

(** An operation that only reads. *)
Lemma on_heap_read {A} (op : MF A) w a (Q : A → world → Prop) (Qe : SysErr.SysErr → world → Prop) :
  op (w_heap w) = (Ok a, w_heap w) → Q a w → wp_res (on_heap op) w Q Qe.
Proof. intros Ho HQ. unfold wp_res, wp, on_heap. rewrite Ho. by destruct w. Qed.

Lemma lift_rule {A} (r : SysResult A) w a (Q : A → world → Prop) (Qe : SysErr.SysErr → world → Prop) :
  r = Ok a → Q a w → wp_res (lift r) w Q Qe.
Proof. by intros ->. Qed.

Lemma mounted_node_rule w m :
  heap_wf (w_heap w) → is_Some (nodes (w_heap w) !! mn_node m) →
  wp_res (mounted_node m) w
    (λ n w', looked w w' ∧ ∃ b ops, mount_place (w_heap w) m = Ok (b, ops) ∧ refers (w_heap w') n b ops) (λ _ _, False).
Proof.
  intros Hwf Hm. destruct (refers_total _ _ Hwf Hm) as (b & ops & Hr). unfold mounted_node.
  eapply wp_res_mono.
  - apply on_heap_rule. eapply (alloc_wrapper_rule (E := FsError) (w_heap w) (mn_node m) (mn_device_id m) b ops
      (λ n h', heap_wf h' ∧ extends (w_heap w) h' ∧ refers h' n b ops) (λ _ _, False)); [done|done|apply Hr|].
    intros n h' Hwf' He Hb Hn _. done.
  - intros n w' ((Hwf' & He & Hr') & Hw'). split; [done|]. exists b, ops. split; [|done].
    unfold mount_place. destruct Hr as [_ ->]. done.
  - by intros e w' (e' & _ & [] & _).
Qed.

(** A result of the specification for an error or a reference. *)
Definition implements (r : SysResult (place * str)) (w : world) : NamespaceLookup → world → Prop := λ l w',
  looked w w' ∧ ∃ b ops, r = Ok ((b, ops), lk_path l) ∧ refers (w_heap w') (lk_node l) b ops.

Definition fails (r : SysResult (place * str)) (w : world) : SysErr.SysErr → world → Prop := λ e w',
  looked w w' ∧ r = Err e.

(** The tree that the specification reads is the same after a lookup. *)
Lemma base_looked w w' n : heap_wf (w_heap w) → looked w w' → is_Some (nodes (w_heap w) !! n) → base (w_heap w') n = base (w_heap w) n.
Proof.
  intros Hwf (_ & He & _) Hn. destruct (base_total _ _ Hwf Hn) as (b & i & Hb & _). rewrite Hb. by eapply base_extends.
Qed.

Lemma base_stable h h' n x : heap_wf h → extends h h' → is_Some (nodes h !! n) → base h' n = Some x → base h n = Some x.
Proof. intros Hwf He Hn Hb. destruct (base_total _ _ Hwf Hn) as (b & i & Hb0 & _). rewrite (base_extends _ _ _ _ He Hb0) in Hb. congruence. Qed.

(** A step of the walk, from a heap [h0] that the world's heap extends. *)
Lemma step_rule h0 ns w current b ops path component :
  heap_wf h0 → ns_wf h0 ns → heap_wf (w_heap w) → extends h0 (w_heap w) → refers (w_heap w) current b ops → refers h0 b b ops →
  wp_res (step_component ns current path component) w
    (λ next w', looked w w' ∧ ∃ b' ops', pstep h0 ns (b, ops) path component = Ok (b', ops') ∧
       refers (w_heap w') next b' ops' ∧ refers h0 b' b' ops')
    (λ e w', looked w w' ∧ pstep h0 ns (b, ops) path component = Err e).
Proof.
  intros Hwf0 Hns Hwf He Hr Hr0. destruct (lookup_mount_ok _ _ (resolve_namespace_path path component) Hns) as (m & Hm & Hnode).
  assert (∀ n b' ops', is_Some (nodes h0 !! n) → base (w_heap w) n = Some (b', ops') → base h0 n = Some (b', ops') ∧ refers h0 b' b' ops') as Hst.
  { intros n b' ops' Hn Hb. apply (base_stable h0) in Hb; try done. split; [done|]. destruct (base_total _ _ Hwf0 Hn) as (x & i & Hx & Hi & Hw).
    rewrite Hb in Hx. simplify_eq. by apply refers_self. }
  unfold pstep, step_component. wp_step. eapply lift_rule; [done|]. rewrite Hm. cbn [mbind outcome_bind]. destruct m as [m|].
  - eapply wp_res_mono; [apply mounted_node_rule; [done|eapply extends_is_Some; [done|by apply Hnode]]|cbv beta|done].
    intros next w' (Hl & b' & ops' & Hp & Hr'). split; [done|]. exists b', ops'.
    unfold mount_place in *. destruct (base (w_heap w) (mn_node m)) as [x|] eqn:Hb; simpl in Hp; simplify_eq.
    destruct (Hst _ _ _ (Hnode _ eq_refl) Hb) as [-> ?]. done.
  - wp_step. eapply wp_res_mono; [apply on_heap_rule, (node_lookup_rule _ _ b ops); done|cbv beta|by intros e w' (? & _ & [] & _)].
    intros found w' ((Hwf' & He' & Hf) & Hw'). assert (looked w w') as Hl by done. destruct found as [x|]; simpl.
    + destruct Hf as (c & cb & cops & Hc & [Hcs Hcb] & Hx). wp_run. split; [done|]. exists cb, cops. simpl. rewrite Hc. simpl.
      destruct (refers_ops _ _ _ _ Hwf0 Hr0) as (i & Hi & Ho & _).
      assert (is_Some (nodes h0 !! c)) as Hc0.
      { destruct ops as [nm meta es|? ? ? ?|? ? ?|? ?]; simpl in Hc; try done. by eapply (hw_entry _ Hwf0). }
      destruct (Hst _ _ _ Hc0 Hcb) as [-> ?]. done.
    + wp_run. split; [done|]. simpl. by rewrite Hf.
Qed.

Lemma implements_looked r w w1 l w' : looked w w1 → implements r w1 l w' → implements r w l w'.
Proof. intros Hl [Hl' Hx]. split; [by eapply looked_trans|done]. Qed.
Lemma fails_looked r w w1 e w' : looked w w1 → fails r w1 e w' → fails r w e w'.
Proof. intros Hl [Hl' Hx]. split; [by eapply looked_trans|done]. Qed.

Lemma walk_rule redirect predirect h0 ns follow components :
  heap_wf h0 → ns_wf h0 ns →
  (∀ w p, heap_wf (w_heap w) → extends h0 (w_heap w) → wp_res (redirect p) w (implements (predirect p) w) (fails (predirect p) w)) →
  ∀ w current b ops path,
  heap_wf (w_heap w) → extends h0 (w_heap w) → refers (w_heap w) current b ops → refers h0 b b ops →
  wp_res (walk_components redirect ns follow components current path) w
    (implements (pwalk predirect h0 ns follow components (b, ops) path) w)
    (fails (pwalk predirect h0 ns follow components (b, ops) path) w).
Proof.
  intros Hwf0 Hns Hred. induction components as [|c tail IH]; intros w current b ops path Hwf He Hr Hr0; cbn [walk_components pwalk].
  - wp_run. split; [by apply looked_refl|]. by exists b, ops.
  - wp_step. eapply wp_res_mono; [by apply (step_rule h0)|cbv beta|cbv beta].
    2:{ intros e w1 [Hl ->]. by split. }
    intros next w1 (Hl & b' & ops' & -> & Hr' & Hr0'). cbn [mbind outcome_bind snd]. unfold is_link. cbn [snd].
    pose proof Hl as (Hwf1 & He1 & _). assert (extends h0 (w_heap w1)) as He01 by (by eapply extends_trans).
    wp_step. eapply on_heap_read; [by eapply kind_eq|]. destruct (_ && _).
    + wp_step. eapply on_heap_read; [by eapply symlink_target_eq|]. destruct (ops_target ops') as [target|]; simpl; [|wp_run; by split].
      wp_run. eapply wp_res_mono; [by apply Hred|intros l w2; by apply implements_looked|intros e w2; by apply fails_looked].
    + eapply wp_res_mono; [by apply IH|intros l w2; by apply implements_looked|intros e w2; by apply fails_looked].
Qed.

Lemma root_node_rule h0 ns w :
  heap_wf h0 → ns_wf h0 ns → heap_wf (w_heap w) → extends h0 (w_heap w) →
  wp_res (root_node ns) w
    (λ n w', looked w w' ∧ ∃ b ops, proot h0 ns = Ok (b, ops) ∧ refers (w_heap w') n b ops ∧ refers h0 b b ops) (λ _ _, False).
Proof.
  intros Hwf0 Hns Hwf He. destruct (root_mount_ok _ _ Hns) as (m & Hm & Hs). unfold root_node, proot. rewrite Hm. wp_step.
  eapply lift_rule; [done|]. eapply wp_res_mono; [apply mounted_node_rule; [done|by eapply extends_is_Some]|cbv beta|done].
  intros n w' (Hl & b & ops & Hp & Hr). split; [done|]. exists b, ops. cbn [mbind outcome_bind]. unfold mount_place in *.
  destruct (base_total _ _ Hwf0 Hs) as (x & i & Hx & Hi & Hw). rewrite (base_extends _ _ _ _ He Hx) in Hp. simpl in Hp. simplify_eq.
  rewrite Hx. split; [done|]. split; [done|]. by apply refers_self.
Qed.

(** The lookup of the code computes the specification. *)
Lemma lookup_rule left : ∀ h0 ns path follow w,
  heap_wf h0 → ns_wf h0 ns → heap_wf (w_heap w) → extends h0 (w_heap w) →
  wp_res (lookup_namespace_entry left ns path follow) w
    (implements (plookup left h0 ns path follow) w) (fails (plookup left h0 ns path follow) w).
Proof.
  induction left as [|left IH]; intros h0 ns path follow w Hwf0 Hns Hwf He; cbn [lookup_namespace_entry plookup].
  { wp_run. split; [by apply looked_refl|done]. }
  wp_step. eapply wp_res_mono; [by apply (root_node_rule h0)|cbv beta|done].
  intros root w1 (Hl & b & ops & -> & Hr & Hr0). cbn [mbind outcome_bind]. pose proof Hl as (Hwf1 & He1 & _).
  assert (extends h0 (w_heap w1)) as He01 by (by eapply extends_trans). destruct (decide _).
  - wp_run. split; [done|]. by exists b, ops.
  - eapply wp_res_mono.
    + apply (walk_rule _ (λ redirected, plookup left h0 ns redirected follow) h0); try done. intros w2 p Hwf2 He2. by apply IH.
    + intros l w2. by apply implements_looked.
    + intros e w2. by apply fails_looked.
Qed.

(** ** Wrappers that lookups return

    When the roots of the mounts are nodes, not wrappers (nothing is bound to a
    path that was itself looked up), and entries refer to nodes, a lookup
    returns a node behind exactly one wrapper. *)

Definition plain_mounts (T : gmap NodeRef InodeOps) ns : Prop :=
  (∀ m, m ∈ root_stack ns → is_Some (T !! mn_node m)) ∧
  ∀ path stack m, mounts ns !! path = Some stack → m ∈ stack → is_Some (T !! mn_node m).

Definition plain (T : gmap NodeRef InodeOps) ns : Prop := plain_mounts T ns ∧ direct T.

Definition once h n : Prop :=
  ∃ i c dev, nodes h !! n = Some i ∧ in_operations i = MountedVfsNode c dev ∧ is_Some (tree h !! c).

Lemma root_mount_plain T ns m : plain_mounts T ns → root_mount ns = Ok m → is_Some (T !! mn_node m).
Proof.
  intros [Hroot _]. unfold root_mount. destruct (last (root_stack ns)) as [x|] eqn:Hl; [|done]. intros [= <-]. by apply Hroot, last_elem.
Qed.

Lemma lookup_mount_plain T ns path m : plain_mounts T ns → lookup_mount path ns = Ok (Some m) → is_Some (T !! mn_node m).
Proof.
  intros Hp. unfold lookup_mount. destruct (decide _).
  - destruct (root_mount ns) as [x| | |] eqn:Hr; [|done..]. intros [= <-]. by eapply root_mount_plain.
  - destruct (mounts ns !! path) as [stack|] eqn:Hs; [|done]. intros [= Hl]. destruct Hp as [_ Hmount]. eapply Hmount; [done|]. by apply last_elem.
Qed.

Lemma once_extends h h' n : extends h h' → once h n → once h' n.
Proof.
  intros He (i & c & dev & Hi & Ho & Hc). exists i, c, dev. split; [eapply lookup_weaken; [done|apply He]|]. split; [done|].
  by rewrite (extends_tree _ _ He).
Qed.

Lemma once_strip h n : heap_wf h → once h n → ∃ c dev ops, base_of n h = (Ok ([dev], c, ops), h) ∧ tree h !! c = Some ops.
Proof.
  intros Hwf (i & c & dev & Hi & Ho & [ops Hc]). exists c, dev, ops. split; [|done].
  destruct (hw_wrapped _ Hwf _ _ _ _ Hi Ho) as [Hlt _]. pose proof (hw_next _ Hwf n ltac:(by eexists)).
  apply tree_lookup in Hc as (j & Hj & <- & Hw). pose proof (hw_next _ Hwf c ltac:(by eexists)).
  unfold base_of. cbn [strip]. rewrite Hi. cbn [expect mbind outcome_bind]. rewrite Ho.
  destruct (Z.to_nat n) as [|k] eqn:Hk; [lia|]. cbn [strip]. rewrite Hj. cbn [expect mbind outcome_bind].
  by destruct (in_operations j).
Qed.

Lemma alloc_once {E} h c dev :
  heap_wf h → is_Some (tree h !! c) → wp_res (alloc_node (E := E) (MountedVfsNode c dev)) h (λ n h', once h' n) (λ _ _, False).
Proof.
  intros Hwf Hc. unfold alloc_node, wp_res, wp. simpl. set (h' := mkHeap _ _ _ _ _).
  assert (nodes h !! next_node h = None) as Hfresh.
  { destruct (nodes h !! next_node h) eqn:Hx; [|done]. pose proof (hw_next _ Hwf (next_node h) ltac:(by eexists)). lia. }
  eexists _, c, dev. split; [apply lookup_insert_eq|]. split; [done|]. destruct Hc as [ops Hc]. exists ops.
  apply tree_lookup in Hc as (j & Hj & Ho & Hw). apply tree_lookup. exists j. split; [|done]. simpl. rewrite lookup_insert_ne; [done|congruence].
Qed.

Lemma mounted_node_once w m :
  heap_wf (w_heap w) → is_Some (tree (w_heap w) !! mn_node m) → wp_res (mounted_node m) w (λ n w', once (w_heap w') n) (λ _ _, True).
Proof.
  intros Hwf Hm. unfold mounted_node. eapply wp_res_mono; [apply on_heap_rule; by apply (alloc_once (E := FsError))|cbv beta; by intros n w' [? _]|done].
Qed.

Lemma node_lookup_once h n name :
  heap_wf h → direct (tree h) → once h n → wp_res (node_lookup n name) h (λ r h', ∀ v, r = Some v → once h' v) (λ _ _, True).
Proof.
  intros Hwf Hd Hn. destruct (once_strip _ _ Hwf Hn) as (c & dev & ops & Hs & Hc). unfold node_lookup, wp_res at 1, wp, mbind, M_bind. rewrite Hs.
  destruct ops as [nm meta es|nm k meta o|nm tg meta|x dev']; cbn [fst snd]; try done. destruct (es !! name) as [x|] eqn:Hx; [|done].
  cbn [wrap]. unfold mbind, M_bind. cbn [mret M_ret].
  pose proof (alloc_once (E := FsError) h x dev Hwf) as Ha. unfold wp_res, wp in Ha. destruct (alloc_node (MountedVfsNode x dev) h) as [[v| | |] h']; simpl in *;
    (assert (is_Some (tree h !! x)) as Hpl by (eapply Hd; unfold entry; rewrite Hc; exact Hx)); specialize (Ha Hpl); try done. by intros v' [= <-].
Qed.

Lemma step_once h0 ns w current b ops path component :
  heap_wf h0 → ns_wf h0 ns → heap_wf (w_heap w) → extends h0 (w_heap w) → refers (w_heap w) current b ops → refers h0 b b ops →
  plain (tree h0) ns → once (w_heap w) current →
  wp_res (step_component ns current path component) w (λ next w', once (w_heap w') next) (λ _ _, True).
Proof.
  intros Hwf0 Hns Hwf He Hr Hr0 [Hpm Hd] Hc. pose proof (extends_tree _ _ He) as HT.
  destruct (lookup_mount_ok _ _ (resolve_namespace_path path component) Hns) as (m & Hm & _). unfold step_component. wp_step. eapply lift_rule; [done|].
  destruct m as [m|].
  - apply mounted_node_once; [done|]. rewrite HT. by eapply lookup_mount_plain.
  - wp_step. eapply wp_res_mono; [apply on_heap_rule, wp_res_and; [by apply (node_lookup_rule _ _ b ops)|apply node_lookup_once; [done|by rewrite HT|done]]|cbv beta|done].
    intros found w' ((_ & Hf) & _). destruct found as [v|]; wp_run; [by apply Hf|done].
Qed.

Lemma walk_once redirect predirect h0 ns follow components :
  heap_wf h0 → ns_wf h0 ns → plain (tree h0) ns →
  (∀ w p, heap_wf (w_heap w) → extends h0 (w_heap w) → wp_res (redirect p) w (implements (predirect p) w) (fails (predirect p) w)) →
  (∀ w p, heap_wf (w_heap w) → extends h0 (w_heap w) → wp_res (redirect p) w (λ l w', once (w_heap w') (lk_node l)) (λ _ _, True)) →
  ∀ w current b ops path,
  heap_wf (w_heap w) → extends h0 (w_heap w) → refers (w_heap w) current b ops → refers h0 b b ops → once (w_heap w) current →
  wp_res (walk_components redirect ns follow components current path) w (λ l w', once (w_heap w') (lk_node l)) (λ _ _, True).
Proof.
  intros Hwf0 Hns Hpl Hred Honce. induction components as [|c tail IH]; intros w current b ops path Hwf He Hr Hr0 Hc; cbn [walk_components]; [by wp_run|].
  wp_step. eapply wp_res_mono; [eapply wp_res_and; [by apply (step_rule h0)|by eapply (step_once h0)]|cbv beta|done].
  intros next w1 ((Hl & b' & ops' & _ & Hr' & Hr0') & Hn). pose proof Hl as (Hwf1 & He1 & _). assert (extends h0 (w_heap w1)) as He01 by (by eapply extends_trans).
  wp_step. eapply on_heap_read; [by eapply kind_eq|]. destruct (_ && _); [|by eapply IH].
  wp_step. eapply on_heap_read; [by eapply symlink_target_eq|]. destruct (ops_target ops') as [target|]; simpl; wp_run; [by apply Honce|done].
Qed.

Lemma lookup_once left : ∀ h0 ns path follow w,
  heap_wf h0 → ns_wf h0 ns → plain (tree h0) ns → heap_wf (w_heap w) → extends h0 (w_heap w) →
  wp_res (lookup_namespace_entry left ns path follow) w (λ l w', once (w_heap w') (lk_node l)) (λ _ _, True).
Proof.
  induction left as [|left IH]; intros h0 ns path follow w Hwf0 Hns Hpl Hwf He; cbn [lookup_namespace_entry]; [by wp_run|].
  wp_step. eapply wp_res_mono; [eapply wp_res_and; [by apply (root_node_rule h0)|]|cbv beta|done].
  - unfold root_node. destruct (root_mount_ok _ _ Hns) as (m & Hm & _). wp_step. eapply lift_rule; [done|]. apply mounted_node_once; [done|].
    rewrite (extends_tree _ _ He). destruct Hpl as [Hpm _]. by eapply root_mount_plain.
  - intros root w1 ((Hl & b & ops & _ & Hr & Hr0) & Hn). pose proof Hl as (Hwf1 & He1 & _).
    assert (extends h0 (w_heap w1)) as He01 by (by eapply extends_trans). destruct (decide _); [by wp_run|].
    eapply (walk_once _ (λ redirected, plookup left h0 ns redirected follow) h0); try done; intros w2 p Hwf2 He2; [by apply lookup_rule|by apply (IH h0)].
Qed.

(** ** Lookup of a name in a directory *)

Lemma resolve_component ps c : components_ok ps → component_ok c → resolve_namespace_path (render ps) c = render (ps ++ [c]).
Proof.
  intros Hps Hc. unfold resolve_namespace_path. pose proof Hc as (Hne & Hns & _).
  assert (starts_with_slash c = false) as ->.
  { destruct c as [|x c]; [done|]. simpl. apply bool_decide_eq_false. intros ->. apply Hns. by left. }
  by rewrite split_components_render, resolve_components_walk, walk_component.
Qed.

Lemma resolve_tail ps tail : components_ok ps → components_ok tail → foldl resolve_namespace_path (render ps) tail = render (ps ++ tail).
Proof.
  intros Hps Ht. revert ps Hps. induction Ht as [|c tail Hc Ht IH]; intros ps Hps; simpl; [by rewrite app_nil_r|].
  rewrite resolve_component, IH by (done || (apply Forall_app; auto)). by rewrite <-app_assoc.
Qed.

Lemma resolve_link ps target : components_ok ps → ∃ ds, components_ok ds ∧ resolve_symlink_path (render ps) target = render ds.
Proof.
  intros Hps. unfold resolve_symlink_path, resolve_namespace_path. destruct (starts_with_slash target).
  - destruct (normalize_normalized target) as (ds & ? & ->). by exists ds.
  - rewrite split_components_render, resolve_components_walk by done. eexists. split; [|done]. by apply walk_ok.
Qed.

(** The part of [plookup] below the root. *)
Definition pwalk_from left h ns follow (cs : list str) (cur : place) (path : str) : SysResult (place * str) :=
  pwalk (λ redirected, plookup left h ns redirected follow) h ns follow cs cur path.

Lemma plookup_render left h ns cs follow :
  components_ok cs →
  plookup (S left) h ns (render cs) follow = (root ← proot h ns; pwalk_from left h ns follow cs root SLASH).
Proof.
  intros Hcs. cbn [plookup]. rewrite normalize_render by done. destruct (proot h ns) as [root| | |]; try done. cbn [mbind outcome_bind].
  destruct (decide _) as [Hs|Hne]; [apply render_slash in Hs as ->; done|]. by rewrite split_components_render.
Qed.

(** [cs/c] without following a final link is the entry [c] of the directory
    that [cs] leads to. *)
Definition entry_below h ns (c : str) (r : SysResult (place * str)) : SysResult (place * str) :=
  '(cur, path) ← r;
  next ← pstep h ns cur path c;
  mret (next, resolve_namespace_path path c).

Lemma pwalk_child left h ns c :
  component_ok c →
  (∀ cs, components_ok cs → plookup left h ns (render (cs ++ [c])) false = entry_below h ns c (plookup left h ns (render cs) true)) →
  ∀ cs cur ps, components_ok cs → components_ok ps →
  pwalk_from left h ns false (cs ++ [c]) cur (render ps) = entry_below h ns c (pwalk_from left h ns true cs cur (render ps)).
Proof.
  intros Hc Hred. induction cs as [|x cs IH]; intros cur ps Hcs Hps; unfold pwalk_from in *; cbn [pwalk app].
  - unfold entry_below. cbn [mbind outcome_bind mret outcome_ret]. destruct (pstep h ns cur (render ps) c) as [next| | |]; try done. cbn [mbind outcome_bind].
    rewrite (bool_decide_true ([] = [])) by done. cbn [negb orb]. by rewrite andb_false_r.
  - apply Forall_cons in Hcs as [Hx Hcs]. destruct (pstep h ns cur (render ps) x) as [next| | |]; try done. cbn [mbind outcome_bind].
    rewrite (bool_decide_false (cs ++ [c] = [])) by (by destruct cs). cbn [negb orb]. rewrite orb_true_r. destruct (is_link next && true) eqn:Hl.
    + destruct (ops_target next.2) as [target|]; [|done]. cbn [ok_or mbind outcome_bind].
      destruct (resolve_link ps target Hps) as (ds & Hds & ->).
      rewrite !resolve_tail by (done || (apply Forall_app; auto)). rewrite app_assoc. apply Hred. by apply Forall_app.
    + rewrite resolve_component by done. apply IH; [done|]. apply Forall_app; auto.
Qed.

Lemma plookup_child left : ∀ h ns cs c,
  components_ok cs → component_ok c →
  plookup left h ns (render (cs ++ [c])) false = entry_below h ns c (plookup left h ns (render cs) true).
Proof.
  induction left as [|left IH]; intros h ns cs c Hcs Hc; [done|]. rewrite !plookup_render by (done || (apply Forall_app; auto)).
  destruct (proot h ns) as [root| | |]; try done. cbn [mbind outcome_bind].
  change SLASH with (render []). apply (pwalk_child left h ns c Hc); [by intros; apply IH|done|constructor].
Qed.

(** ** Lookup in a tree with fewer entries *)

Definition sub_ops (small big : InodeOps) : Prop :=
  ops_kind small = ops_kind big ∧ ops_target small = ops_target big ∧ ops_entries small ⊆ ops_entries big.

(** The nodes of both trees have fewer entries in [small]. *)
Definition pruned (big small : heap) : Prop :=
  ∀ n, is_Some (nodes big !! n) → is_Some (nodes small !! n) →
  ∃ b ops ops', base big n = Some (b, ops) ∧ base small n = Some (b, ops') ∧ sub_ops ops' ops.

(** The same result, up to the entries of the node found. *)
Definition similar (r r' : SysResult (place * str)) : Prop :=
  match r', r with
  | Ok ((b', ops'), p'), Ok ((b, ops), p) => b' = b ∧ p' = p ∧ sub_ops ops' ops
  | Err e', Err e => e' = e
  | Panic, Panic | Diverge, Diverge => True
  | _, _ => False
  end.

Definition prefix_result (r r' : SysResult (place * str)) : Prop := r' = Err SysErr.NoEnt ∨ similar r r'.

Lemma sub_ops_refl ops : sub_ops ops ops.
Proof. done. Qed.

Lemma entry_exists h b ops c x : heap_wf h → refers h b b ops → ops_entries ops !! c = Some x → is_Some (nodes h !! x).
Proof.
  intros Hwf Hr Hx. destruct (refers_ops _ _ _ _ Hwf Hr) as (i & Hi & Ho & _). destruct ops as [nm meta es|? ? ? ?|? ? ?|? ?]; simpl in Hx; try done.
  by eapply (hw_entry _ Hwf).
Qed.

Lemma base_refers h n b ops : heap_wf h → is_Some (nodes h !! n) → base h n = Some (b, ops) → refers h b b ops.
Proof.
  intros Hwf Hn Hb. destruct (base_total _ _ Hwf Hn) as (x & i & Hx & Hi & Hw). rewrite Hb in Hx. simplify_eq. by apply refers_self.
Qed.

Section pruned.
Context (big small : heap) (ns : MountNamespace).
Context (Hwb : heap_wf big) (Hws : heap_wf small) (Hnb : ns_wf big ns) (Hnsm : ns_wf small ns) (Hp : pruned big small).

Lemma base_pruned n :
  is_Some (nodes big !! n) → is_Some (nodes small !! n) →
  ∃ b ops ops', expect (E := SysErr.SysErr) (base big n) = Ok (b, ops) ∧ expect (E := SysErr.SysErr) (base small n) = Ok (b, ops') ∧
    sub_ops ops' ops ∧ refers big b b ops ∧ refers small b b ops'.
Proof.
  intros Hb Hs. destruct (Hp n Hb Hs) as (b & ops & ops' & Hbb & Hbs & Hsub). exists b, ops, ops'. rewrite Hbb, Hbs.
  split_and!; try done; try apply Hsub; by eapply base_refers.
Qed.

Lemma pstep_pruned b ops ops' path c :
  sub_ops ops' ops → refers big b b ops → refers small b b ops' →
  pstep small ns (b, ops') path c = Err SysErr.NoEnt ∨
  ∃ nb nops nops', pstep big ns (b, ops) path c = Ok (nb, nops) ∧ pstep small ns (b, ops') path c = Ok (nb, nops') ∧ sub_ops nops' nops ∧
    refers big nb nb nops ∧ refers small nb nb nops'.
Proof.
  intros (Hk & Ht & Hsub) Hrb Hrs. unfold pstep.
  destruct (lookup_mount_ok _ _ (resolve_namespace_path path c) Hnsm) as (m & Hlm & Hm). 
  destruct (lookup_mount_ok _ _ (resolve_namespace_path path c) Hnb) as (m' & Hlm' & Hm'). rewrite Hlm in *. simplify_eq. cbn [mbind outcome_bind snd].
  destruct m' as [m|]; [right; unfold mount_place; apply base_pruned; auto|].
  destruct (ops_entries ops' !! c) as [x|] eqn:Hx; [|by left]. pose proof (lookup_weaken _ _ _ _ Hx Hsub) as Hx'. rewrite Hx'. simpl. right.
  apply base_pruned; by eapply entry_exists.
Qed.

Lemma pwalk_pruned redirect redirect' follow cs :
  (∀ p, prefix_result (redirect p) (redirect' p)) → ∀ b ops ops' path,
  sub_ops ops' ops → refers big b b ops → refers small b b ops' →
  prefix_result (pwalk redirect big ns follow cs (b, ops) path) (pwalk redirect' small ns follow cs (b, ops') path).
Proof.
  intros Hred. induction cs as [|c cs IH]; intros b ops ops' path Hs Hrb Hrs; cbn [pwalk]; [right; done|].
  destruct (pstep_pruned _ _ _ path c Hs Hrb Hrs) as [->|(nb & nops & nops' & -> & -> & Hs' & Hrb' & Hrs')]; [by left|].
  cbn [mbind outcome_bind]. pose proof Hs' as (Hk & Ht & Hsub). unfold is_link. cbn [snd]. rewrite Hk, Ht. destruct (_ && _).
  - destruct (ops_target nops); [apply Hred|by right].
  - by apply IH.
Qed.

Lemma plookup_pruned left : ∀ path follow, prefix_result (plookup left big ns path follow) (plookup left small ns path follow).
Proof.
  induction left as [|left IH]; intros path follow; cbn [plookup]; [by right|].
  unfold proot. destruct (root_mount_ok _ _ Hnsm) as (m & Hrm & Hm). destruct (root_mount_ok _ _ Hnb) as (m' & Hrm' & Hm').
  rewrite Hrm in *. simplify_eq. cbn [mbind outcome_bind]. unfold mount_place.
  destruct (base_pruned _ Hm' Hm) as (b & ops & ops' & -> & -> & Hs & Hrb & Hrs). cbn [mbind outcome_bind].
  destruct (decide _); [by right|]. by apply pwalk_pruned.
Qed.

(** What is found in the smaller tree is found in the larger one. *)
Lemma plookup_grow left path follow b ops' p :
  plookup left small ns path follow = Ok ((b, ops'), p) → ∃ ops, plookup left big ns path follow = Ok ((b, ops), p) ∧ sub_ops ops' ops.
Proof.
  intros Hl. destruct (plookup_pruned left path follow) as [?|Hs]; [congruence|].
  rewrite Hl in Hs. unfold similar in Hs. destruct (plookup left big ns path follow) as [[[b' ops] p']| | |]; try done.
  destruct Hs as (<- & <- & Hs). by exists ops.
Qed.
End pruned.
