(* ===== verification/RootfsProof.v ===== *)
(** * System calls on names

    Creation, removal, links and renaming, proved against the specification of
    lookup ([plookup]) and the trees of [NodeProof]. *)

From Stdlib Require Import Ascii String.
From S2P Require Import Prelude Poll Errno Path MemFile Node NodeProof LinkProof Namespace Rootfs LookupProof.

Open Scope list_scope.

Implicit Types (h : heap) (n b d c : NodeRef) (ops : InodeOps) (ns : MountNamespace) (w : world) (fs : Z) (T : gmap NodeRef InodeOps).

(** ** Worlds *)

(** The context [fs] with its namespace. *)
Record fs_ok fs (s : ProcessFsState) ns w : Prop := {
  fo_heap : heap_wf (w_heap w);
  fo_context : w_contexts w !! fs = Some s;
  fo_namespace : w_namespaces w !! fs_namespace s = Some ns;
  fo_ns : ns_wf (w_heap w) ns;
  fo_root : normalized (loc_path (fs_root s));
  fo_cwd : normalized (loc_path (fs_cwd s));
}.

(** The tree has become [T]; contexts and namespaces are the same. *)
Definition wchanges w w' T : Prop :=
  changes (w_heap w) (w_heap w') T ∧ w_contexts w' = w_contexts w ∧ w_namespaces w' = w_namespaces w.

Lemma looked_wchanges w w' : heap_wf (w_heap w) → looked w w' → wchanges w w' (tree (w_heap w)).
Proof. intros Hwf (Hwf' & He & ->). split; [by apply extends_changes|done]. Qed.

Lemma wchanges_trans w w1 w2 T1 T2 : wchanges w w1 T1 → wchanges w1 w2 T2 → wchanges w w2 T2.
Proof. intros (H1 & H2 & H3) (G1 & G2 & G3). split; [by eapply changes_trans|]. split; congruence. Qed.

Lemma changes_nodes h h' T n : heap_wf h → changes h h' T → is_Some (nodes h !! n) → is_Some (nodes h' !! n).
Proof. intros Hwf (_ & _ & Hr) Hn. destruct (refers_total _ _ Hwf Hn) as (b & o & Hb). by destruct (Hr _ _ _ Hb) as (? & _ & ? & _). Qed.

Lemma fs_ok_changes fs s ns w w' T : fs_ok fs s ns w → wchanges w w' T → fs_ok fs s ns w'.
Proof.
  intros [Hwf Hc Hn Hns ? ?] (Hch & Hc' & Hn'). split; try done; [apply Hch|congruence|congruence|]. eapply ns_wf_nodes; [done|].
  intros n. by eapply changes_nodes.
Qed.

(** ** Reading the world *)

Lemma view_path_rule fs s w path (Q : str → world → Prop) (Qe : SysErr.SysErr → world → Prop) :
  w_contexts w !! fs = Some s → Q (resolve_view_path (loc_path (fs_root s)) (loc_path (fs_cwd s)) path) w → wp_res (view_path fs path) w Q Qe.
Proof. intros Hc HQ. unfold view_path, context, fetch, wp_res, wp, mbind, M_bind. by rewrite Hc. Qed.

Lemma namespace_of_rule fs s ns w (Q : MountNamespace → world → Prop) (Qe : SysErr.SysErr → world → Prop) :
  fs_ok fs s ns w → Q ns w → wp_res (namespace_of fs) w Q Qe.
Proof.
  intros [_ Hc Hn _ _ _] HQ. unfold namespace_of, context, fetch, wp_res, wp, mbind, M_bind. rewrite Hc. cbn. by rewrite Hn.
Qed.

Lemma lookup_path_rule fs s ns w path follow :
  fs_ok fs s ns w →
  wp_res (lookup_namespace_path ns path follow) w
    (λ n w', looked w w' ∧ ∃ b ops p, plookup MAX_LINKS (w_heap w) ns path follow = Ok ((b, ops), p) ∧ refers (w_heap w') n b ops)
    (λ e w', looked w w' ∧ plookup MAX_LINKS (w_heap w) ns path follow = Err e).
Proof.
  intros [Hwf _ _ Hns _ _]. unfold lookup_namespace_path. wp_step.
  eapply wp_res_mono; [apply (lookup_rule _ (w_heap w)); try done; apply extends_refl|cbv beta|done].
  intros l w' (Hl & b & ops & Hp & Hr). wp_run. split; [done|]. exists b, ops, (lk_path l). done.
Qed.

Lemma directory_ops h n b ops : heap_wf h → refers h n b ops → ops_kind ops = Directory → ∃ nm meta es, ops = DirectoryNode nm meta es.
Proof.
  intros Hwf Hr Hk. destruct (refers_ops _ _ _ _ Hwf Hr) as (i & Hi & Ho & Hw). destruct ops as [nm meta es|nm k meta o|nm tg meta|x dev]; try done; [eauto|].
  simpl in Hk. subst k. by destruct (hw_file _ Hwf _ _ _ _ _ _ Hi Ho).
Qed.

Lemma expect_directory_rule n b ops w (Q : unit → world → Prop) (Qe : SysErr.SysErr → world → Prop) :
  heap_wf (w_heap w) → refers (w_heap w) n b ops →
  (∀ nm meta es, ops = DirectoryNode nm meta es → Q () w) → (ops_kind ops ≠ Directory → Qe SysErr.NotDir w) →
  wp_res (expect_directory n) w Q Qe.
Proof.
  intros Hwf Hr HQ HQe. unfold expect_directory. wp_step. eapply on_heap_read; [by eapply kind_eq|].
  destruct (decide _) as [Hk|Hk]; wp_run; [|by apply HQe]. destruct (directory_ops _ _ _ _ Hwf Hr Hk) as (nm & meta & es & ?). by eapply HQ.
Qed.

(** The directory that a path names an entry of. *)
Definition parent_is h ns (P : str) d nm meta es p : Prop :=
  plookup MAX_LINKS h ns (parent_path P) true = Ok ((d, DirectoryNode nm meta es), p).

(** The lookup of the parent fails with [e]. *)
Definition parent_fails h ns (P : str) (e : SysErr.SysErr) : Prop :=
  plookup MAX_LINKS h ns (parent_path P) true = Err e ∨
  (e = SysErr.NotDir ∧ ∃ b ops p, plookup MAX_LINKS h ns (parent_path P) true = Ok ((b, ops), p) ∧ ops_kind ops ≠ Directory).

Lemma parent_rule {A} fs s ns w P (k : NodeRef → MR A) Q Qe :
  fs_ok fs s ns w →
  (∀ n w1 d nm meta es p, looked w w1 → parent_is (w_heap w) ns P d nm meta es p → refers (w_heap w1) n d (DirectoryNode nm meta es) →
     wp_res (k n) w1 Q Qe) →
  (∀ e w1, looked w w1 → parent_fails (w_heap w) ns P e → Qe e w1) →
  wp_res (n ← lookup_namespace_path ns (parent_path P) true; _ ← expect_directory n; k n) w Q Qe.
Proof.
  intros Hok HQ HQe. wp_step. eapply wp_res_mono; [by eapply lookup_path_rule|cbv beta|].
  - intros n w1 (Hl & b & ops & p & Hp & Hr). wp_step. eapply expect_directory_rule; [apply Hl|done| |].
    + intros nm meta es ->. by eapply HQ.
    + intros Hk. apply HQe; [done|]. right. split; [done|]. eauto.
  - intros e w1 [Hl Hp]. apply HQe; [done|]. by left.
Qed.

(** A normalized path that is not the root. *)
Lemma leaf_split path :
  normalize_absolute_path path ≠ SLASH →
  ∃ cs (c : str), components_ok cs ∧ component_ok c ∧ normalize_absolute_path path = render (cs ++ [c]) ∧
    parent_path (normalize_absolute_path path) = render cs ∧ leaf_name (normalize_absolute_path path) = c.
Proof.
  intros Hne. destruct (normalize_normalized path) as (ds & Hds & Hp). rewrite Hp in *.
  destruct ds as [|c cs _] using rev_ind; [done|]. apply Forall_app in Hds as [Hcs Hc]. apply Forall_cons in Hc as [Hc _]. exists cs, c.
  destruct (parent_leaf_render cs c Hcs Hc) as [-> ->]. done.
Qed.

Lemma leaf_nonempty path : normalize_absolute_path path ≠ SLASH → leaf_name (normalize_absolute_path path) ≠ [].
Proof. intros (cs & c & _ & Hc & _ & _ & ->)%leaf_split. apply Hc. Qed.

(** ** Removal *)

Definition sub_tree (h : heap) T : Prop := ∀ b o o', tree h !! b = Some o → T !! b = Some o' → sub_ops o' o.

Lemma changes_pruned h h' T : heap_wf h → changes h h' T → sub_tree h T → pruned h h'.
Proof.
  intros Hwf (_ & _ & Hr) Hs n Hn _. destruct (refers_total _ _ Hwf Hn) as (b & o & Hb). destruct (Hr _ _ _ Hb) as (o' & Ho' & _ & Hb').
  exists b, o, o'. split; [apply Hb|]. split; [done|]. eapply Hs; [by eapply refers_tree|done].
Qed.

Lemma sub_ops_adjust delta ops : sub_ops (adjust_ops delta ops) ops.
Proof. by destruct ops. Qed.

Lemma sub_ops_trans o1 o2 o3 : sub_ops o1 o2 → sub_ops o2 o3 → sub_ops o1 o3.
Proof. intros (H1 & H2 & H3) (G1 & G2 & G3). split; [congruence|]. split; [congruence|by etrans]. Qed.

Lemma sub_ops_delete nm meta es (name : str) : sub_ops (DirectoryNode nm meta (delete name es)) (DirectoryNode nm meta es).
Proof. split; [done|]. split; [done|]. apply delete_subseteq. Qed.

Lemma unlinked_sub h d nm meta es name c (rd : bool) :
  tree h !! d = Some (DirectoryNode nm meta es) →
  sub_tree h (alter (if rd then id else adjust_ops (-1)) c (<[d := DirectoryNode nm meta (delete name es)]> (tree h))).
Proof.
  intros Hd b o o' Ho Ho'. assert (∃ o1, <[d := DirectoryNode nm meta (delete name es)]> (tree h) !! b = Some o1 ∧ sub_ops o' o1) as (o1 & Ho1 & Hs).
  { destruct (decide (b = c)) as [->|Hne]; [|rewrite lookup_alter_ne in Ho' by done; eauto using sub_ops_refl].
    rewrite lookup_alter_eq in Ho'. destruct (_ !! c) as [o1|]; [|done]. exists o1. split; [done|]. simplify_eq/=.
    destruct rd; [done|apply sub_ops_adjust]. }
  apply lookup_insert_Some in Ho1 as [[<- <-]|[_ Ho1]]; simplify_eq; [|done]. eapply sub_ops_trans; [done|apply sub_ops_delete].
Qed.

(** What the system call does to the tree. *)
Definition removed h ns (P : str) (remove_directory : bool) T : Prop :=
  ∃ d nm meta es p c cb cops,
    parent_is h ns P d nm meta es p ∧ es !! leaf_name P = Some c ∧ refers h c cb cops ∧
    remove_directory = bool_decide (ops_kind cops = Directory) ∧ (ops_kind cops = Directory → ops_entries cops = ∅) ∧
    T = alter (if remove_directory then id else adjust_ops (-1)) c (<[d := DirectoryNode nm meta (delete (leaf_name P) es)]> (tree h)).

(** Why the entry [name] of a directory cannot be removed. *)
Definition victim_error h (es : gmap str NodeRef) (name : str) (remove_directory : bool) (e : SysErr.SysErr) : Prop :=
  (e = SysErr.NoEnt ∧ es !! name = None) ∨
  ∃ c cb cops, es !! name = Some c ∧ refers h c cb cops ∧
    ((e = SysErr.IsDir ∧ ops_kind cops = Directory ∧ remove_directory = false) ∨
     (e = SysErr.NotEmpty ∧ ops_kind cops = Directory ∧ remove_directory = true ∧ ops_entries cops ≠ ∅) ∨
     (e = SysErr.NotDir ∧ ops_kind cops ≠ Directory ∧ remove_directory = true)).

Definition unlink_error h ns (P : str) (remove_directory : bool) (e : SysErr.SysErr) : Prop :=
  (e = SysErr.Inval ∧ (P = SLASH ∨ ∃ m, lookup_mount P ns = Ok (Some m))) ∨
  parent_fails h ns P e ∨
  ∃ d nm meta es p, parent_is h ns P d nm meta es p ∧ victim_error h es (leaf_name P) remove_directory e.

Lemma remove_child_rule h n d nm meta es name rd c cb cops :
  heap_wf h → refers h n d (DirectoryNode nm meta es) → es !! name = Some c → refers h c cb cops → rd = bool_decide (ops_kind cops = Directory) →
  wp_res (remove_child n name rd) h
    (λ _ h', changes h h' (alter (if rd then id else adjust_ops (-1)) c (<[d := DirectoryNode nm meta (delete name es)]> (tree h))))
    (λ _ _, False).
Proof.
  intros Hwf Hr Hc Hcr Hrd. destruct (base_of_eq _ _ _ _ Hwf Hr) as [ds Hs]. unfold remove_child. wp_step. unfold wp_res at 1, wp. rewrite Hs.
  cbn [fst snd]. eapply dir_remove_rule; try done. by eapply refers_tree.
Qed.

(** The rest of a system call after a change of the tree. *)
Lemma notify_rule e w w1 T (Q : unit → world → Prop) (Qe : SysErr.SysErr → world → Prop) :
  wchanges w w1 T → (∀ w2, wchanges w w2 T → w_heap w2 = w_heap w1 → Q () w2) → wp_res (notify_fs e) w1 Q Qe.
Proof. intros Hch HQ. unfold notify_fs. wp_run. by apply HQ. Qed.

(** A change of the heap after a lookup. *)
Lemma looked_changes w w1 w2 T :
  heap_wf (w_heap w) → looked w w1 → changes (w_heap w1) (w_heap w2) T → w2 = set_heap (w_heap w2) w1 → wchanges w w2 T.
Proof. intros Hwf Hl Hch ->. eapply wchanges_trans; [by apply looked_wchanges|done]. Qed.

Lemma looked_tree w w' : looked w w' → tree (w_heap w') = tree (w_heap w).
Proof. intros (_ & He & _). by apply extends_tree. Qed.

Lemma looked_refers w w' n b ops : looked w w' → refers (w_heap w) n b ops → refers (w_heap w') n b ops.
Proof. intros (_ & He & _). by apply refers_extends. Qed.

Lemma looked_refers_back w w' n b ops :
  heap_wf (w_heap w) → looked w w' → is_Some (nodes (w_heap w) !! n) → refers (w_heap w') n b ops → refers (w_heap w) n b ops.
Proof.
  intros Hwf Hl Hn [_ Hb]. destruct (refers_total _ _ Hwf Hn) as (b' & ops' & Hr). pose proof (looked_refers _ _ _ _ _ Hl Hr) as [_ Hb'].
  by simplify_eq.
Qed.

(** The path that a system call works on. *)
Definition target_of (s : ProcessFsState) (path : str) : str :=
  normalize_absolute_path (resolve_view_path (loc_path (fs_root s)) (loc_path (fs_cwd s)) path).

Lemma target_view fs s ns w path :
  fs_ok fs s ns w → resolve_view_path (loc_path (fs_root s)) (loc_path (fs_cwd s)) path = target_of s path.
Proof.
  intros [_ _ _ _ (r & Hr & Hr') (q & Hq & Hq')]. unfold target_of. rewrite Hr', Hq'. unfold resolve_view_path.
  rewrite !split_components_render by done.
  destruct (starts_with_slash path); rewrite resolve_components_walk, normalize_render by (by apply walk_ok); done.
Qed.

Lemma lookup_mount_none fs s ns w P :
  fs_ok fs s ns w → ∃ m, lookup_mount P ns = Ok m.
Proof. intros Hok. destruct (lookup_mount_ok _ _ P (fo_ns _ _ _ _ Hok)) as (m & ? & _). by exists m. Qed.

(** The entry of the directory found by [parent_rule]. *)
Lemma entry_rule' {A} w w1 n d nm meta es p P ns (k : option NodeRef → MR A) Q Qe :
  heap_wf (w_heap w) → looked w w1 → parent_is (w_heap w) ns P d nm meta es p → refers (w_heap w1) n d (DirectoryNode nm meta es) →
  (∀ w2, looked w w2 → looked w1 w2 → refers (w_heap w2) n d (DirectoryNode nm meta es) → es !! leaf_name P = None → wp_res (k None) w2 Q Qe) →
  (∀ w2 v c cb cops, looked w w2 → refers (w_heap w2) n d (DirectoryNode nm meta es) → es !! leaf_name P = Some c →
     refers (w_heap w) c cb cops → refers (w_heap w2) v cb cops → wp_res (k (Some v)) w2 Q Qe) →
  wp_res (found ← on_heap (node_lookup n (leaf_name P)); k found) w1 Q Qe.
Proof.
  intros Hwf Hl Hpar Hr HN HS. pose proof Hl as (Hwf1 & He1 & _). wp_step.
  eapply wp_res_mono; [apply on_heap_rule, (node_lookup_rule _ _ d (DirectoryNode nm meta es)); done|cbv beta|by intros e w2 (? & _ & [] & _)].
  intros found w2 ((Hwf2 & He2 & Hf) & Hw2). assert (looked w1 w2) as Hl12 by done. assert (looked w w2) as Hl2 by (by eapply looked_trans). cbn [ops_entries] in Hf.
  pose proof (refers_extends _ _ _ _ _ He2 Hr) as Hr2.
  destruct found as [v|]; [|by apply HN]. destruct Hf as (c & cb & cops & Hc & Hcr & Hv). eapply HS; try done.
  apply (looked_refers_back w w1); [done|done| |done]. eapply dir_entry; [done| |done]. unfold dir_at. rewrite <-(looked_tree _ _ Hl). by eapply refers_tree.
Qed.

Lemma entry_rule {A} w w1 n d nm meta es p P ns (k : option NodeRef → MR A) Q Qe :
  heap_wf (w_heap w) → looked w w1 → parent_is (w_heap w) ns P d nm meta es p → refers (w_heap w1) n d (DirectoryNode nm meta es) →
  (∀ w2, looked w w2 → refers (w_heap w2) n d (DirectoryNode nm meta es) → es !! leaf_name P = None → wp_res (k None) w2 Q Qe) →
  (∀ w2 v c cb cops, looked w w2 → refers (w_heap w2) n d (DirectoryNode nm meta es) → es !! leaf_name P = Some c →
     refers (w_heap w) c cb cops → refers (w_heap w2) v cb cops → wp_res (k (Some v)) w2 Q Qe) →
  wp_res (found ← on_heap (node_lookup n (leaf_name P)); k found) w1 Q Qe.
Proof.
  intros Hwf Hl Hpar Hr HN HS. eapply entry_rule'; try done. intros w2 Hl2 _. by apply HN.
Qed.

Lemma unlink_rule fs s ns w path flags :
  fs_ok fs s ns w →
  let P := target_of s path in
  let rd := bool_decide (Z.land flags AT_REMOVEDIR ≠ 0) in
  wp_res (unlink_in fs path flags) w
    (λ _ w', P ≠ SLASH ∧ ∃ T, removed (w_heap w) ns P rd T ∧ wchanges w w' T)
    (λ e w', unlink_error (w_heap w) ns P rd e ∧ looked w w').
Proof.
  intros Hok P rd. pose proof Hok as [Hwf Hctx Hnsp Hns _ _]. unfold unlink_in. wp_step. eapply view_path_rule; [done|]. fold (target_of s path). fold P.
  destruct (decide (P = SLASH)) as [Hs|Hs]; [wp_run; split; [by left; auto|by apply looked_refl]|].
  wp_step. eapply namespace_of_rule; [done|]. destruct (lookup_mount_none _ _ _ _ P Hok) as [m Hm]. wp_step. eapply lift_rule; [done|].
  destruct m as [m|]; [rewrite bool_decide_true by (by eexists); wp_run; split; [left; eauto|by apply looked_refl]|].
  rewrite bool_decide_false by (by intros [? ?]). eapply parent_rule; [done| |intros e w1 Hl Hpf; split; [right; by left|done]].
  intros n w1 d nm meta es p Hl Hpar Hr. rewrite (decide_False (P := leaf_name P = [])) by (by apply leaf_nonempty).
  assert (∀ e w', victim_error (w_heap w) es (leaf_name P) rd e → looked w w' → unlink_error (w_heap w) ns P rd e ∧ looked w w') as Herr.
  { intros e w' He Hl'. split; [|done]. right. right. by exists d, nm, meta, es, p. }
  eapply entry_rule; [done|done|done|done|intros w2 Hl2 _ Hc; wp_run; apply Herr; [by left|done]|].
  intros w2 v c cb cops Hl2 Hr2 Hc Hcr Hv. pose proof Hl2 as (Hwf2 & _). wp_run. eapply on_heap_read; [by eapply kind_eq|]. fold rd. wp_step.
  assert (∀ w3 : world, w3 = w2 → rd = bool_decide (ops_kind cops = Directory) → (ops_kind cops = Directory → ops_entries cops = ∅) →
    wp_res (_ ← on_heap (remove_child n (leaf_name P) rd); _ ← notify_fs (Deleted n v (leaf_name P)); mret 0) w3
      (λ _ w', P ≠ SLASH ∧ ∃ T, removed (w_heap w) ns P rd T ∧ wchanges w w' T)
      (λ e w', unlink_error (w_heap w) ns P rd e ∧ looked w w')) as Hend.
  { intros w3 -> Hrd Hem. wp_step.
    eapply wp_res_mono; [apply on_heap_rule; eapply remove_child_rule; [done|exact Hr2|exact Hc|by eapply looked_refers|done]|cbv beta|by intros e w3 (? & _ & [] & _)].
    intros [] w3 [Hch Hw3]. rewrite (looked_tree _ _ Hl2) in Hch. wp_step. eapply (notify_rule _ w); [by eapply (looked_changes w w2)|].
    intros w4 Hch4 _. wp_run. split; [done|]. eexists. split; [|done]. by exists d, nm, meta, es, p, c, cb, cops. }
  assert (∀ e, ((e = SysErr.IsDir ∧ ops_kind cops = Directory ∧ rd = false) ∨
     (e = SysErr.NotEmpty ∧ ops_kind cops = Directory ∧ rd = true ∧ ops_entries cops ≠ ∅) ∨
     (e = SysErr.NotDir ∧ ops_kind cops ≠ Directory ∧ rd = true)) → unlink_error (w_heap w) ns P rd e ∧ looked w w2) as Herr2.
  { intros e He. apply Herr; [|done]. right. by exists c, cb, cops. }
  clearbody rd. destruct (decide (ops_kind cops = Directory)) as [Hk|Hk]; destruct rd; cbn [negb]; wp_step; try (apply Herr2; by auto).
  - eapply on_heap_read; [by eapply node_entries_eq|]. destruct (decide _) as [Hem|Hem]; wp_step; [|apply Herr2; right; by left].
    apply Hend; [done|by rewrite bool_decide_true|done].
  - apply Hend; [done|by rewrite bool_decide_false|done].
Qed.

(** A lookup finds a node of the tree. *)
Lemma plookup_tree fs s ns w path follow b ops p :
  fs_ok fs s ns w → plookup MAX_LINKS (w_heap w) ns path follow = Ok ((b, ops), p) → tree (w_heap w) !! b = Some ops.
Proof.
  intros Hok Hp. pose proof (lookup_path_rule fs s ns w path follow Hok) as Hl. unfold wp_res, wp in Hl.
  destruct (lookup_namespace_path ns path follow w) as [[n|e| |] w']; cbn [fst snd] in Hl; try done.
  - destruct Hl as (Hl & b' & ops' & p' & Hp' & Hr). rewrite Hp in Hp'. simplify_eq. rewrite <-(looked_tree _ _ Hl). eapply refers_tree; [apply Hl|done].
  - destruct Hl as [_ ?]. congruence.
Qed.

Lemma plookup_looked fs s ns w w' path follow :
  fs_ok fs s ns w → looked w w' → plookup MAX_LINKS (w_heap w') ns path follow = plookup MAX_LINKS (w_heap w) ns path follow.
Proof.
  intros Hok Hl. pose proof Hok as [Hwf _ _ Hns _ _]. pose proof Hl as (Hwf' & He & _).
  pose proof (lookup_rule MAX_LINKS (w_heap w) ns path follow w' Hwf Hns Hwf' He) as H1.
  pose proof (lookup_rule MAX_LINKS (w_heap w') ns path follow w' Hwf' (ns_wf_extends _ _ _ He Hns) Hwf' (extends_refl _)) as H2.
  unfold wp_res, wp in *. destruct (lookup_namespace_entry _ _ _ _ w') as [[l|e| |] w2]; cbn [fst snd] in *; try done.
  - destruct H1 as (_ & b & ops & H1 & Hr1), H2 as (_ & b' & ops' & H2 & Hr2). destruct Hr1 as [_ Hr1], Hr2 as [_ Hr2].
    rewrite Hr1 in Hr2. simplify_eq. congruence.
  - destruct H1 as [_ H1], H2 as [_ H2]. congruence.
Qed.

(** The entry [leaf] of the directory that [cs] leads to. *)
Lemma plookup_target h ns s path :
  target_of s path ≠ SLASH →
  plookup MAX_LINKS h ns (target_of s path) false =
    entry_below h ns (leaf_name (target_of s path)) (plookup MAX_LINKS h ns (parent_path (target_of s path)) true).
Proof. unfold target_of. intros (cs & c & Hcs & Hc & Hp & -> & ->)%leaf_split. rewrite Hp. by apply plookup_child. Qed.

Section removed.
Context fs (s : ProcessFsState) ns w w' (path : str) (rd : bool) T.
Local Abbreviation P := (target_of s path).
Context (Hok : fs_ok fs s ns w) (Hs : P ≠ SLASH) (Hrem : removed (w_heap w) ns P rd T) (Hch : wchanges w w' T).

Lemma removed_ok : fs_ok fs s ns w'.
Proof. by eapply fs_ok_changes. Qed.

Lemma removed_prefix q follow : prefix_result (plookup MAX_LINKS (w_heap w) ns q follow) (plookup MAX_LINKS (w_heap w') ns q follow).
Proof.
  pose proof removed_ok as [Hwf' _ _ Hns' _ _]. pose proof Hok as [Hwf _ _ Hns _ _]. apply plookup_pruned; try done.
  eapply changes_pruned; [done|apply Hch|]. destruct Hrem as (d & nm & meta & es & p & c & cb & cops & Hpar & Hc & _ & _ & _ & ->).
  apply unlinked_sub. by eapply plookup_tree.
Qed.

(** No entry is left under the name. *)
Lemma removed_gone d nm meta es p :
  parent_is (w_heap w) ns P d nm meta es p → lookup_mount (resolve_namespace_path p (leaf_name P)) ns = Ok None →
  plookup MAX_LINKS (w_heap w') ns P false = Err SysErr.NoEnt.
Proof.
  intros Hpar Hm. rewrite plookup_target by done.
  destruct (removed_prefix (parent_path P) true) as [->|Hsim]; [done|]. unfold parent_is in Hpar. rewrite Hpar in Hsim. unfold similar in Hsim.
  destruct (plookup MAX_LINKS (w_heap w') ns (parent_path P) true) as [[[d' ops'] p']| | |] eqn:Hl'; try done. destruct Hsim as (-> & -> & _).
  pose proof (plookup_tree _ _ _ _ _ _ _ _ _ removed_ok Hl') as Ht'. pose proof Hch as ((_ & HT & _) & _). rewrite HT in Ht'.
  destruct Hrem as (d0 & nm0 & meta0 & es0 & p0 & c & cb & cops & Hpar0 & Hc & _ & _ & _ & ->). unfold parent_is in Hpar0. rewrite Hpar in Hpar0. simplify_eq.
  unfold entry_below. cbn [mbind outcome_bind]. unfold pstep. rewrite Hm. cbn [mbind outcome_bind snd].
  assert (ops_entries ops' = delete (leaf_name P) es0) as ->; [|by rewrite lookup_delete_eq].
  destruct (decide (c = d0)) as [->|Hne].
  - rewrite lookup_alter_eq, lookup_insert_eq in Ht'. simplify_eq/=. by destruct rd.
  - rewrite lookup_alter_ne, lookup_insert_eq in Ht' by done. by simplify_eq.
Qed.

Lemma removed_links : links_ok (tree (w_heap w)) → links_ok (tree (w_heap w')).
Proof.
  intros Hl. pose proof Hok as [Hwf _ _ _ _ _]. pose proof Hch as ((_ & -> & _) & _).
  destruct Hrem as (d & nm & meta & es & p & c & cb & cops & Hpar & Hc & Hcr & Hrd & _ & ->). apply links_unlink; try done; [by eapply plookup_tree|].
  destruct rd; [|by left]. right. split; [done|]. symmetry in Hrd. apply bool_decide_eq_true in Hrd. unfold nlink.
  destruct (tree (w_heap w) !! c) as [o|] eqn:Ho; [|done]. pose proof (tree_refers _ _ _ Ho) as [_ Hb]. destruct Hcr as [Hn Hb']. rewrite Hb in Hb'. simplify_eq.
  destruct (directory_ops _ _ _ _ Hwf (conj Hn Hb) Hrd) as (? & ? & ? & ->). done.
Qed.
End removed.

(** ** Creation *)

(** A new node [c], a [K], under the name [P]. *)
Definition created h ns (P : str) (K : InodeOps → Prop) c T : Prop :=
  ∃ d nm meta es p ops,
    parent_is h ns P d nm meta es p ∧ es !! leaf_name P = None ∧ K ops ∧ tree h !! c = None ∧ (∀ d' name', entry (tree h) d' name' ≠ Some c) ∧
    T = <[d := DirectoryNode nm meta (<[leaf_name P := c]> es)]> (<[c := ops]> (tree h)).

Definition create_error h ns (P : str) (e : SysErr.SysErr) : Prop :=
  (e = SysErr.Exists ∧ (P = SLASH ∨ ∃ m, lookup_mount P ns = Ok (Some m))) ∨
  parent_fails h ns P e ∨
  (e = SysErr.Exists ∧ ∃ d nm meta es p, parent_is h ns P d nm meta es p ∧ is_Some (es !! leaf_name P)).

(** [create] makes a [K]. *)
Definition creates (create : NodeRef → str → MF NodeRef) (K : InodeOps → Prop) : Prop :=
  ∀ h n d nm meta es name, heap_wf h → refers h n d (DirectoryNode nm meta es) → es !! name = None →
  wp_res (create n name) h
    (λ v h', ∃ c ops, K ops ∧ tree h !! c = None ∧ (∀ d' name', entry (tree h) d' name' ≠ Some c) ∧ refers h' v c ops ∧
       changes h h' (<[d := DirectoryNode nm meta (<[name := c]> es)]> (<[c := ops]> (tree h))))
    (λ _ _, False).

Lemma create_symlink_creates target mode : creates (λ parent name, create_symlink parent name target mode) (is_new_symlink target mode).
Proof. intros h n d nm meta es name Hwf Hr Hn. eapply create_child_rule; try done. by apply make_symlink_rule. Qed.
Lemma create_socket_creates mode : creates (λ parent name, create_socket parent name mode) (is_new_file Socket mode).
Proof. intros h n d nm meta es name Hwf Hr Hn. eapply create_child_rule; try done. by apply make_socket_rule. Qed.
Lemma create_file_creates mode : creates (λ parent name, create_file parent name mode) (is_new_file File mode).
Proof. intros h n d nm meta es name Hwf Hr Hn. eapply create_child_rule; try done. by apply make_file_rule. Qed.
Lemma create_dir_creates mode : creates (λ parent name, create_dir parent name mode) (is_new_dir mode).
Proof. intros h n d nm meta es name Hwf Hr Hn. eapply create_child_rule; try done. by apply make_dir_rule. Qed.

Lemma create_locked_rule fs s ns w path create K :
  fs_ok fs s ns w → creates create K →
  let P := target_of s path in
  wp_res (create_child_namespace_locked ns P create) w
    (λ v w', P ≠ SLASH ∧ ∃ c T, created (w_heap w) ns P K c T ∧ wchanges w w' T)
    (λ e w', create_error (w_heap w) ns P e ∧ looked w w').
Proof.
  intros Hok Hcr P. pose proof Hok as [Hwf Hctx Hnsp Hns _ _]. unfold create_child_namespace_locked.
  assert (normalize_absolute_path P = P) as -> by (unfold P, target_of; apply normalize_idempotent).
  destruct (decide (P = SLASH)) as [Hs|Hs]; [wp_run; split; [by left; auto|by apply looked_refl]|].
  destruct (lookup_mount_none _ _ _ _ P Hok) as [m Hm]. wp_step. eapply lift_rule; [done|].
  destruct m as [m|]; [rewrite bool_decide_true by (by eexists); wp_run; split; [left; eauto|by apply looked_refl]|].
  rewrite bool_decide_false by (by intros [? ?]). eapply parent_rule; [done| |intros e w1 Hl Hpf; split; [right; by left|done]].
  intros n w1 d nm meta es p Hl Hpar Hr. rewrite (decide_False (P := leaf_name P = [])) by (by apply leaf_nonempty).
  eapply entry_rule; [done|done|done|done| |].
  - intros w2 Hl2 Hr2 Hc. rewrite bool_decide_false by (by intros [? ?]).
    eapply wp_res_mono; [apply on_heap_rule; by apply (Hcr _ n d nm meta es); [apply Hl2| |]|cbv beta|by intros e w3 (? & _ & [] & _)].
    intros v w3 ((c & ops & HK & Hnew & Hno & Hv & Hch) & Hw3). rewrite (looked_tree _ _ Hl2) in *. split; [done|]. exists c. eexists.
    split; [by exists d, nm, meta, es, p, ops|]. by eapply (looked_changes w w2).
  - intros w2 v c cb cops Hl2 Hr2 Hc _ _. rewrite bool_decide_true by (by eexists). wp_run. split; [|done]. right. right. split; [done|].
    exists d, nm, meta, es, p. split; [done|]. by eexists.
Qed.

(** A tree in which every node keeps its entries. *)
Definition super_tree (h : heap) T : Prop := ∀ b o o', tree h !! b = Some o → T !! b = Some o' → sub_ops o o'.

Lemma changes_grown h h' T : heap_wf h → changes h h' T → super_tree h T → pruned h' h.
Proof.
  intros Hwf (_ & _ & Hr) Hs n _ Hn. destruct (refers_total _ _ Hwf Hn) as (b & o & Hb). destruct (Hr _ _ _ Hb) as (o' & Ho' & _ & Hb').
  exists b, o', o. split; [done|]. split; [apply Hb|]. eapply Hs; [by eapply refers_tree|done].
Qed.

Lemma inserted_super h d nm meta es (name : str) c T :
  tree h !! d = Some (DirectoryNode nm meta es) → es !! name = None →
  (∀ b o o', b ≠ d → tree h !! b = Some o → T !! b = Some o' → sub_ops o o') →
  super_tree h (<[d := DirectoryNode nm meta (<[name := c]> es)]> T).
Proof.
  intros Hd Hn HT b o o' Ho. rewrite lookup_insert_Some. intros [[<- <-]|[Hne Ho']]; [|by eapply HT]. simplify_eq.
  split; [done|]. split; [done|]. by apply insert_subseteq.
Qed.

Section created.
Context fs (s : ProcessFsState) ns w w' (path : str) (K : InodeOps → Prop) c T.
Local Abbreviation P := (target_of s path).
Context (Hok : fs_ok fs s ns w) (Hs : P ≠ SLASH) (Hcr : created (w_heap w) ns P K c T) (Hch : wchanges w w' T).

Lemma created_ok : fs_ok fs s ns w'.
Proof. by eapply fs_ok_changes. Qed.

Lemma created_super : super_tree (w_heap w) T.
Proof.
  destruct Hcr as (d & nm & meta & es & p & ops & Hpar & Hn & _ & Hc & _ & ->). apply inserted_super; [by eapply plookup_tree|done|].
  intros b o o' _ Ho [[<- _]|[_ Ho']]%lookup_insert_Some; [congruence|]. by simplify_eq.
Qed.

(** Every lookup that succeeded still does. *)
Lemma created_grow q follow b ops p :
  plookup MAX_LINKS (w_heap w) ns q follow = Ok ((b, ops), p) →
  ∃ ops', plookup MAX_LINKS (w_heap w') ns q follow = Ok ((b, ops'), p) ∧ sub_ops ops ops'.
Proof.
  pose proof created_ok as [Hwf' _ _ Hns' _ _]. pose proof Hok as [Hwf _ _ Hns _ _]. apply plookup_grow; try done.
  eapply changes_grown; [done|apply Hch|]. apply created_super.
Qed.

(** The new name leads to the new node. *)
Lemma created_found d nm meta es p :
  parent_is (w_heap w) ns P d nm meta es p → lookup_mount (resolve_namespace_path p (leaf_name P)) ns = Ok None →
  ∃ ops, K ops ∧ plookup MAX_LINKS (w_heap w') ns P false = Ok ((c, ops), resolve_namespace_path p (leaf_name P)).
Proof.
  intros Hpar Hm. rewrite plookup_target by done. pose proof created_ok as [Hwf' _ _ Hns' _ _].
  destruct (created_grow _ _ _ _ _ Hpar) as (ops' & Hl' & _). rewrite Hl'. pose proof (plookup_tree _ _ _ _ _ _ _ _ _ created_ok Hl') as Ht'.
  pose proof Hch as ((_ & HT & _) & _). rewrite HT in Ht'. destruct Hcr as (d0 & nm0 & meta0 & es0 & p0 & ops & Hpar0 & Hn & HK & Hc & _ & HT').
  unfold parent_is in Hpar0. rewrite Hpar in Hpar0. injection Hpar0 as <- <- <- <- <-. exists ops. split; [done|].
  rewrite HT' in HT, Ht'. rewrite lookup_insert_eq in Ht'. injection Ht' as <-.
  assert (tree (w_heap w') !! c = Some ops) as Htc.
  { rewrite HT. rewrite lookup_insert_ne, lookup_insert_eq; [done|]. intros <-. pose proof (plookup_tree _ _ _ _ _ _ _ _ _ Hok Hpar). congruence. }
  unfold entry_below. cbn [mbind outcome_bind]. unfold pstep. rewrite Hm. cbn [mbind outcome_bind snd ops_entries]. rewrite lookup_insert_eq.
  cbn [ok_or mbind outcome_bind]. destruct (tree_refers _ _ _ Htc) as [_ ->]. done.
Qed.

Lemma created_links :
  (∀ ops, K ops → ops_entries ops = ∅ ∧ ∀ k, ops_nlink ops = Some k → k = 1) → links_ok (tree (w_heap w)) → links_ok (tree (w_heap w')).
Proof.
  intros HK Hl. pose proof Hch as ((_ & -> & _) & _). destruct Hcr as (d & nm & meta & es & p & ops & Hpar & Hn & HKo & Hc & Hno & ->).
  destruct (HK _ HKo). apply links_create; try done. by eapply plookup_tree.
Qed.

(** The parent is found again, so the notification is sent. *)
Lemma notify_created_rule v :
  wp_res (notify_created fs P v) w' (λ _ w2, wchanges w w2 T) (λ _ _, False).
Proof.
  pose proof created_ok as Hok'. unfold notify_created. wp_step. eapply namespace_of_rule; [done|]. wp_step.
  destruct Hcr as (d & nm & meta & es & p & ops & Hpar & _). destruct (created_grow _ _ _ _ _ Hpar) as (ops' & Hl' & _).
  eapply wp_res_mono; [by eapply lookup_path_rule|cbv beta|intros e w2 [_ ?]; congruence].
  intros n w2 (Hl & _). eapply (notify_rule _ w); [|by intros w3 ? _]. eapply wchanges_trans; [done|].
  pose proof Hch as ((_ & HT & _) & _). rewrite <-HT. apply looked_wchanges; [|done]. by destruct Hok'.
Qed.
End created.

Lemma create_rule fs s ns w path create K :
  fs_ok fs s ns w → creates create K →
  let P := target_of s path in
  wp_res (namespace_path ← view_path fs path; ns ← namespace_of fs; node ← create_child_namespace_locked ns namespace_path create;
          _ ← notify_created fs namespace_path node; mret 0) w
    (λ _ w', P ≠ SLASH ∧ ∃ c T, created (w_heap w) ns P K c T ∧ wchanges w w' T)
    (λ e w', create_error (w_heap w) ns P e ∧ looked w w').
Proof.
  intros Hok Hcr P. wp_step. eapply view_path_rule; [by apply (fo_context _ _ _ _ Hok)|]. rewrite (target_view _ _ _ _ path Hok).
  wp_step. eapply namespace_of_rule; [done|]. wp_step. eapply wp_res_mono; [by eapply create_locked_rule|cbv beta|done].
  intros v w1 (Hs & c & T & Hc & Hch). wp_step. eapply wp_res_mono; [by eapply notify_created_rule|cbv beta|done].
  intros [] w2 Hch2. wp_run. split; [done|]. by exists c, T.
Qed.

(** ** Links *)

Lemma covering_ok h ns path : ns_wf h ns → ∃ m, covering_mount path ns = Ok m.
Proof. intros Hns. destruct (root_mount_ok _ _ Hns) as (m & Hm & _). unfold covering_mount. rewrite Hm. by eexists. Qed.

Definition device_of ns (path : str) (dev : Z) : Prop := ∃ m, covering_mount path ns = Ok m ∧ mn_device_id m = dev.

Lemma looked_fs_ok fs s ns w w' : fs_ok fs s ns w → looked w w' → fs_ok fs s ns w'.
Proof. intros Hok Hl. eapply fs_ok_changes; [done|]. apply looked_wchanges; [by destruct Hok|done]. Qed.

Lemma parent_is_looked fs s ns w w' P d nm meta es p :
  fs_ok fs s ns w → looked w w' → parent_is (w_heap w') ns P d nm meta es p → parent_is (w_heap w) ns P d nm meta es p.
Proof. intros Hok Hl. unfold parent_is. by rewrite (plookup_looked _ _ _ _ _ _ _ Hok Hl). Qed.

Lemma parent_fails_looked fs s ns w w' P e :
  fs_ok fs s ns w → looked w w' → parent_fails (w_heap w') ns P e → parent_fails (w_heap w) ns P e.
Proof. intros Hok Hl. unfold parent_fails. by rewrite !(plookup_looked _ _ _ _ _ _ _ Hok Hl). Qed.

(** The parent looked up after another lookup. *)
Lemma parent_rule_after {A} fs s ns w w1 P (k : NodeRef → MR A) Q Qe :
  fs_ok fs s ns w → looked w w1 →
  (∀ n w2 d nm meta es p, looked w w2 → looked w1 w2 → parent_is (w_heap w) ns P d nm meta es p →
     parent_is (w_heap w1) ns P d nm meta es p → refers (w_heap w2) n d (DirectoryNode nm meta es) →
     (plain (tree (w_heap w)) ns → once (w_heap w2) n) → wp_res (k n) w2 Q Qe) →
  (∀ e w2, looked w w2 → parent_fails (w_heap w) ns P e → Qe e w2) →
  wp_res (n ← lookup_namespace_path ns (parent_path P) true; _ ← expect_directory n; k n) w1 Q Qe.
Proof.
  intros Hok Hl HQ HQe. pose proof (looked_fs_ok _ _ _ _ _ Hok Hl) as Hok1. pose proof Hok1 as [Hwf1 _ _ Hns1 _ _]. wp_step.
  eapply wp_res_mono; [eapply (wp_res_when (plain (tree (w_heap w)) ns)); [by eapply lookup_path_rule|]|cbv beta|].
  - instantiate (1 := λ n w', once (w_heap w') n). intros Hpl. unfold lookup_namespace_path. wp_step.
    eapply wp_res_mono; [apply (lookup_once _ (w_heap w1)); try done; [by rewrite (looked_tree _ _ Hl)|apply extends_refl]|cbv beta|done]. intros l w' Ho. by wp_run.
  - intros n w2 ((Hl2 & b & ops & p & Hp & Hr) & Ho). pose proof (looked_trans _ _ _ Hl Hl2) as Hl02.
    wp_step. eapply expect_directory_rule; [apply Hl2|done| |].
    + intros nm meta es ->. assert (parent_is (w_heap w1) ns P b nm meta es p) as Hpar by done. apply (HQ n w2 b nm meta es p); try done. by apply (parent_is_looked fs s ns w w1).
    + intros Hk. apply HQe; [done|]. apply (parent_fails_looked fs s ns w w1); [done|done|]. right. split; [done|]. eauto.
  - intros e w2 [Hl2 Hp]. apply HQe; [by eapply looked_trans|]. apply (parent_fails_looked fs s ns w w1); [done|done|]. by left.
Qed.

Lemma link_child_rule h n d nm meta es name v cb cops :
  heap_wf h → refers h n d (DirectoryNode nm meta es) → refers h v cb cops → ops_kind cops ≠ Directory → es !! name = None →
  wp_res (link_child n name v) h
    (λ _ h', ∃ peer, refers h peer cb cops ∧ (once h n → once h v → is_Some (tree h !! peer)) ∧
       changes h h' (alter (adjust_ops 1) peer (<[d := DirectoryNode nm meta (<[name := peer]> es)]> (tree h))))
    (λ _ _, False).
Proof.
  intros Hwf Hr Hv Hk Hn. destruct (base_of_eq _ _ _ _ Hwf Hr) as [ds Hs]. unfold link_child. wp_step. unfold wp_res at 1, wp. rewrite Hs.
  cbn [fst snd]. wp_step. eapply wp_res_mono; [eapply (wp_res_when (once h n ∧ once h v)); [by apply (unwrap_peers_rule ds)|]|cbv beta|done].
  - instantiate (1 := λ p h', is_Some (tree h !! p)). intros [Hon Hov]. destruct (once_strip _ _ Hwf Hon) as (c & dev & ops & Hs' & _).
    rewrite Hs in Hs'. injection Hs' as -> _ _. destruct Hov as (i & x & dev' & Hi & Ho & Hx). cbn [unwrap_peers]. wp_step. eapply inode_at_rule; [done|].
    rewrite Ho. by wp_run.
  - intros peer h' [[-> Hp] Hpl]. eapply wp_res_mono; [eapply link_existing_rule; [done|by eapply refers_tree|done]|cbv beta|].
    + intros [] h' (_ & _ & Hch). exists peer. split; [done|]. split; [auto|done].
    + intros e h' [_ [[_ ?]|[_ [x ?]]]]; congruence.
Qed.

(** A second name for what [O] leads to. *)
Definition linked h ns (O P : str) (follow : bool) (peer : NodeRef) T : Prop :=
  ∃ cb cops sp d nm meta es p,
    plookup MAX_LINKS h ns O follow = Ok ((cb, cops), sp) ∧ ops_kind cops ≠ Directory ∧
    parent_is h ns P d nm meta es p ∧ es !! leaf_name P = None ∧
    T = alter (adjust_ops 1) peer (<[d := DirectoryNode nm meta (<[leaf_name P := peer]> es)]> (tree h)).

Definition link_error h ns (O P : str) (follow : bool) (e : SysErr.SysErr) : Prop :=
  (e = SysErr.Perm ∧ (O = SLASH ∨ P = SLASH)) ∨
  plookup MAX_LINKS h ns O follow = Err e ∨
  create_error h ns P e ∨
  ∃ cb cops sp, plookup MAX_LINKS h ns O follow = Ok ((cb, cops), sp) ∧
    ((e = SysErr.Perm ∧ ops_kind cops = Directory) ∨
     (e = SysErr.XDev ∧ ∃ dev dev', device_of ns sp dev ∧ device_of ns P dev' ∧ dev ≠ dev')).

Definition link_flags_ok (flags : Z) : Prop :=
  Z.ldiff flags (Z.lor AT_SYMLINK_FOLLOW AT_EMPTY_PATH) = 0 ∧ Z.land flags AT_EMPTY_PATH = 0.

Lemma link_rule fs s ns w old_path new_path flags :
  fs_ok fs s ns w → link_flags_ok flags → old_path ≠ [] → new_path ≠ [] →
  let O := target_of s old_path in
  let P := target_of s new_path in
  let follow := bool_decide (Z.land flags AT_SYMLINK_FOLLOW ≠ 0) in
  wp_res (link_in fs old_path new_path flags) w
    (λ _ w', P ≠ SLASH ∧ ∃ peer T cb cops sp, linked (w_heap w) ns O P follow peer T ∧ wchanges w w' T ∧
       plookup MAX_LINKS (w_heap w) ns O follow = Ok ((cb, cops), sp) ∧ (∃ cops', refers (w_heap w') peer cb cops') ∧
       (plain (tree (w_heap w)) ns → is_Some (tree (w_heap w) !! peer)))
    (λ e w', link_error (w_heap w) ns O P follow e ∧ looked w w').
Proof.
  intros Hok [Hf1 Hf2] Ho Hn O P follow. pose proof Hok as [Hwf Hctx Hnsp Hns _ _]. unfold link_in.
  rewrite decide_False by (rewrite Hf1; tauto). rewrite decide_False by (by intros [?|?]). rewrite decide_False by (rewrite Hf2; tauto).
  wp_step. eapply view_path_rule; [done|]. fold (target_of s old_path). fold O. wp_step. eapply view_path_rule; [done|]. fold (target_of s new_path). fold P.
  destruct (decide (O = SLASH ∨ P = SLASH)) as [Hs|Hs]; [wp_run; split; [by left|by apply looked_refl]|].
  assert (P ≠ SLASH) as HsP by tauto. wp_step. eapply namespace_of_rule; [done|]. fold follow. wp_step.
  eapply wp_res_mono; [eapply (wp_res_when (plain (tree (w_heap w)) ns)); [apply (lookup_rule _ (w_heap w)); try done; apply extends_refl|]|cbv beta|].
  { intros Hpl. apply (lookup_once _ (w_heap w)); try done. apply extends_refl. }
  2:{ intros e w1 [Hl He]. split; [right; by left|done]. }
  intros l w1 ((Hl & cb & cops & Hp & Hr) & Hol). pose proof Hl as (Hwf1 & _). wp_step. eapply on_heap_read; [by eapply kind_eq|].
  assert (∀ e w', ((e = SysErr.Perm ∧ ops_kind cops = Directory) ∨
     (e = SysErr.XDev ∧ ∃ dev dev', device_of ns (lk_path l) dev ∧ device_of ns P dev' ∧ dev ≠ dev')) → looked w w' →
     link_error (w_heap w) ns O P follow e ∧ looked w w') as Herr.
  { intros e w' He Hl'. split; [|done]. right. right. right. by exists cb, cops, (lk_path l). }
  assert (∀ e w', create_error (w_heap w) ns P e → looked w w' → link_error (w_heap w) ns O P follow e ∧ looked w w') as Herr2.
  { intros e w' He Hl'. split; [|done]. right. right. by left. }
  destruct (decide (ops_kind cops = Directory)) as [Hk|Hk]; [wp_run; apply Herr; auto|].
  destruct (covering_ok _ _ (lk_path l) Hns) as [m1 Hm1], (covering_ok _ _ P Hns) as [m2 Hm2].
  wp_step. eapply lift_rule; [done|]. wp_step. eapply lift_rule; [done|].
  destruct (decide _) as [Hdev|Hdev]; [wp_run; apply Herr; [|done]; right; split; [done|]; eexists _, _; split_and!; [by exists m1|by exists m2|done]|].
  destruct (lookup_mount_none _ _ _ _ P Hok) as [m Hm]. wp_step. eapply lift_rule; [done|].
  destruct m as [m|]; [rewrite bool_decide_true by (by eexists); wp_run; apply Herr2; [left; eauto|done]|].
  rewrite bool_decide_false by (by intros [? ?]).
  eapply (parent_rule_after fs s ns w w1); [done|done| |intros e w2 Hl2 Hpf; apply Herr2; [right; by left|done]].
  intros n w2 d nm meta es p Hl2 Hl12 Hpar Hpar1 Hr2 Hon. rewrite (decide_False (P := leaf_name P = [])) by (by apply leaf_nonempty).
  eapply (entry_rule' w1 w2); [done|done|done|done| |].
  - intros w3 Hl3 Hl23 Hr3 Hc. rewrite bool_decide_false by (by intros [? ?]). wp_step. pose proof (looked_trans _ _ _ Hl Hl3) as Hl03.
    eapply wp_res_mono; [apply on_heap_rule; eapply link_child_rule; [apply Hl3|exact Hr3|by apply (looked_refers w1)|done|done]|cbv beta|by intros e w4 (? & _ & [] & _)].
    intros [] w4 [(peer & Hpr & Hpp & Hch) Hw4]. rewrite (looked_tree _ _ Hl03) in Hch. wp_step. eapply (notify_rule _ w); [by eapply (looked_changes w w3)|].
    intros w5 Hch5 Hw5. wp_run. split; [done|]. eexists peer, _, cb, cops, (lk_path l). split; [by exists cb, cops, (lk_path l), d, nm, meta, es, p|].
    split; [done|]. split; [done|]. split; [destruct Hch as (_ & _ & Hrr); destruct (Hrr _ _ _ Hpr) as (o' & _ & ?); exists o'; by rewrite Hw5|].
    intros Hpl. rewrite <-(looked_tree _ _ Hl03). apply Hpp; eapply once_extends; [apply Hl23|by apply Hon|apply Hl3|by apply Hol].
  - intros w3 v c cb' cops' Hl3 Hr3 Hc _ _. rewrite bool_decide_true by (by eexists). wp_run. apply Herr2; [|exact (looked_trans _ _ _ Hl Hl3)].
    right. right. split; [done|]. exists d, nm, meta, es, p. split; [done|]. by eexists.
Qed.

Lemma sub_ops_adjusted delta ops : sub_ops ops (adjust_ops delta ops).
Proof. by destruct ops. Qed.

Section linked.
Context fs (s : ProcessFsState) ns w w' (O path : str) (follow : bool) (peer : NodeRef) T (cb : NodeRef) (cops : InodeOps) (sp : str).
Local Abbreviation P := (target_of s path).
Context (Hok : fs_ok fs s ns w) (Hs : P ≠ SLASH) (Hlk : linked (w_heap w) ns O P follow peer T) (Hch : wchanges w w' T).
Context (HO : plookup MAX_LINKS (w_heap w) ns O follow = Ok ((cb, cops), sp)) (Hpeer : ∃ cops', refers (w_heap w') peer cb cops').

Lemma linked_ok : fs_ok fs s ns w'.
Proof. by eapply fs_ok_changes. Qed.

Lemma linked_super : super_tree (w_heap w) T.
Proof.
  destruct Hlk as (cb' & cops' & sp' & d & nm & meta & es & p & _ & _ & Hpar & Hn & ->). intros b o o' Ho Ho'.
  assert (∃ o1, <[d := DirectoryNode nm meta (<[leaf_name P := peer]> es)]> (tree (w_heap w)) !! b = Some o1 ∧ sub_ops o1 o') as (o1 & Ho1 & Hsub).
  { destruct (decide (b = peer)) as [->|Hne]; [|rewrite lookup_alter_ne in Ho' by done; eauto using sub_ops_refl].
    rewrite lookup_alter_eq in Ho'. destruct (_ !! peer) as [o1|]; [|done]. exists o1. simplify_eq/=. split; [done|apply sub_ops_adjusted]. }
  eapply sub_ops_trans; [|done]. eapply (inserted_super (w_heap w) d nm meta es); [by eapply plookup_tree|done| |done|done].
  intros b' x x' _ ? ?. by simplify_eq.
Qed.

Lemma linked_grow q f b ops p :
  plookup MAX_LINKS (w_heap w) ns q f = Ok ((b, ops), p) →
  ∃ ops', plookup MAX_LINKS (w_heap w') ns q f = Ok ((b, ops'), p) ∧ sub_ops ops ops'.
Proof.
  pose proof linked_ok as [Hwf' _ _ Hns' _ _]. pose proof Hok as [Hwf _ _ Hns _ _]. apply plookup_grow; try done.
  eapply changes_grown; [done|apply Hch|]. apply linked_super.
Qed.

(** Both names lead to the node. *)
Lemma linked_found d nm meta es p :
  parent_is (w_heap w) ns P d nm meta es p → lookup_mount (resolve_namespace_path p (leaf_name P)) ns = Ok None →
  ∃ ops, plookup MAX_LINKS (w_heap w') ns P false = Ok ((cb, ops), resolve_namespace_path p (leaf_name P)) ∧
         plookup MAX_LINKS (w_heap w') ns O follow = Ok ((cb, ops), sp).
Proof.
  intros Hpar Hm. rewrite plookup_target by done. destruct (linked_grow _ _ _ _ _ HO) as (cops2 & HO' & _).
  destruct (linked_grow _ _ _ _ _ Hpar) as (ops' & Hl' & _). rewrite Hl'. pose proof (plookup_tree _ _ _ _ _ _ _ _ _ linked_ok Hl') as Ht'.
  pose proof Hch as ((_ & HT & _) & _). rewrite HT in Ht'. destruct Hlk as (cb' & cops' & sp' & d0 & nm0 & meta0 & es0 & p0 & _ & _ & Hpar0 & Hn & HT').
  unfold parent_is in Hpar0. rewrite Hpar in Hpar0. injection Hpar0 as <- <- <- <- <-. rewrite HT' in Ht'.
  assert (ops_entries ops' = <[leaf_name P := peer]> es) as Hes.
  { destruct (decide (peer = d)) as [->|Hne].
    - rewrite lookup_alter_eq, lookup_insert_eq in Ht'. by simplify_eq/=.
    - rewrite lookup_alter_ne, lookup_insert_eq in Ht' by done. by simplify_eq. }
  exists cops2. split; [|done]. unfold entry_below. cbn [mbind outcome_bind]. unfold pstep. rewrite Hm. cbn [mbind outcome_bind snd].
  rewrite Hes, lookup_insert_eq. cbn [ok_or mbind outcome_bind]. destruct Hpeer as (co & Hpr). pose proof Hpr as [_ ->]. cbn [expect mbind outcome_bind].
  pose proof linked_ok as Hok'. pose proof (plookup_tree _ _ _ _ _ _ _ _ _ Hok' HO') as Ht2. destruct Hok' as [Hwf' _ _ _ _ _].
  pose proof (refers_tree _ _ _ _ Hwf' Hpr). by simplify_eq.
Qed.

Lemma linked_links :
  is_Some (tree (w_heap w) !! peer) → (∀ k, nlink (tree (w_heap w)) cb = Some k → k < u32_max) → links_ok (tree (w_heap w)) → links_ok (tree (w_heap w')).
Proof.
  intros Hpl Hmax Hl. pose proof Hok as [Hwf _ _ _ _ _]. pose proof Hch as ((Hwf' & HT & Hrr) & _). rewrite HT.
  destruct Hlk as (cb' & cops' & sp' & d & nm & meta & es & p & _ & _ & Hpar & Hn & HT'). rewrite HT'. apply links_link; try done; [by eapply plookup_tree|].
  intros k Hk. assert (peer = cb) as ->; [|by apply Hmax]. unfold nlink in Hk. destruct (tree (w_heap w) !! peer) as [o|] eqn:Ho; [|done].
  destruct (Hrr _ _ _ (tree_refers _ _ _ Ho)) as (o' & _ & _ & Hb). destruct Hpeer as (co & _ & Hb'). by simplify_eq.
Qed.
End linked.

(** ** Creation with the directories on the way *)

(** Nodes and names were added. *)
Definition grows w w' : Prop :=
  wchanges w w' (tree (w_heap w')) ∧ super_tree (w_heap w) (tree (w_heap w')) ∧ (links_ok (tree (w_heap w)) → links_ok (tree (w_heap w'))).

Lemma wchanges_tree w w' T : wchanges w w' T → wchanges w w' (tree (w_heap w')).
Proof. intros ((H1 & <- & H2) & H3). by split. Qed.

Lemma grows_trans w w1 w2 : heap_wf (w_heap w) → grows w w1 → grows w1 w2 → grows w w2.
Proof.
  intros Hwf (H1 & H2 & H3) (G1 & G2 & G3). split; [by eapply wchanges_trans|]. split; [|auto]. intros b o o' Ho Ho'.
  pose proof H1 as ((_ & _ & Hr) & _). destruct (Hr _ _ _ (tree_refers _ _ _ Ho)) as (o1 & Ho1 & _). eapply sub_ops_trans; [by eapply H2|by eapply G2].
Qed.

Lemma looked_grows w w' : heap_wf (w_heap w) → looked w w' → grows w w'.
Proof.
  intros Hwf Hl. split; [eapply wchanges_tree; by apply looked_wchanges|]. rewrite (looked_tree _ _ Hl). split; [|done].
  intros b o o' ? ?. simplify_eq. apply sub_ops_refl.
Qed.

Lemma grows_ok fs s ns w w' : fs_ok fs s ns w → grows w w' → fs_ok fs s ns w'.
Proof. intros Hok (Hch & _). by eapply fs_ok_changes. Qed.

Lemma grows_lookup fs s ns w w' q follow b ops p :
  fs_ok fs s ns w → grows w w' → plookup MAX_LINKS (w_heap w) ns q follow = Ok ((b, ops), p) →
  ∃ ops', plookup MAX_LINKS (w_heap w') ns q follow = Ok ((b, ops'), p) ∧ sub_ops ops ops'.
Proof.
  intros Hok Hg. pose proof (grows_ok _ _ _ _ _ Hok Hg) as [Hwf' _ _ Hns' _ _]. destruct Hok as [Hwf _ _ Hns _ _]. destruct Hg as (Hch & Hsup & _).
  apply plookup_grow; try done. eapply changes_grown; [done|apply Hch|done].
Qed.

Definition born (K : InodeOps → Prop) : Prop := ∀ ops, K ops → ops_entries ops = ∅ ∧ ∀ k, ops_nlink ops = Some k → k = 1.
Lemma born_symlink target mode : born (is_new_symlink target mode).
Proof. intros ops (? & ? & ->). split; [done|]. by intros k [= <-]. Qed.
Lemma born_file k mode : born (is_new_file k mode).
Proof. intros ops (? & ? & ? & ? & ->). split; [done|]. by intros ? [= <-]. Qed.
Lemma born_dir mode : born (is_new_dir mode).
Proof. by intros ops (? & ? & ? & ->). Qed.

(** A creation, wherever the directory was found. *)
Lemma create_grows w create K n d nm meta es name :
  heap_wf (w_heap w) → creates create K → born K → refers (w_heap w) n d (DirectoryNode nm meta es) → es !! name = None →
  wp_res (on_heap (create n name)) w (λ v w', grows w w' ∧ ∃ c ops, K ops ∧ refers (w_heap w') v c ops) (λ _ _, False).
Proof.
  intros Hwf Hcr Hb Hr Hn. pose proof (refers_tree _ _ _ _ Hwf Hr) as Hd.
  eapply wp_res_mono; [apply on_heap_rule; by apply (Hcr _ n d nm meta es)|cbv beta|by intros e w' (? & _ & [] & _)].
  intros v w' ((c & ops & HK & Hc & Hno & Hv & Hch) & Hw'). split; [|by exists c, ops]. destruct (Hb _ HK). pose proof Hch as (_ & HT & _).
  split; [apply (wchanges_tree _ _ (<[d := DirectoryNode nm meta (<[name := c]> es)]> (<[c := ops]> (tree (w_heap w))))); by rewrite Hw'|].
  rewrite HT. split; [|intros Hl; by apply links_create]. apply inserted_super; try done.
  intros b o o' _ Ho [[<- _]|[_ Ho']]%lookup_insert_Some; [congruence|by simplify_eq].
Qed.

Lemma create_child_nondir h n b ops name make :
  heap_wf h → refers h n b ops → (∀ nm meta es, ops ≠ DirectoryNode nm meta es) → create_child n name make h = (Err NotDirectory, h).
Proof.
  intros Hwf Hr Hnd. destruct (base_of_eq _ _ _ _ Hwf Hr) as [ds Hs]. unfold create_child, mbind, M_bind. rewrite Hs. cbn.
  destruct ops; try done. by edestruct Hnd.
Qed.

(** A creation that only adds, whatever it is tried on. *)
Lemma create_any w create K n b ops name make :
  heap_wf (w_heap w) → creates create K → born K → create n name = create_child n name make → refers (w_heap w) n b ops → ops_entries ops !! name = None →
  wp_res (on_heap (create n name)) w (λ v w', grows w w' ∧ ∃ c o, K o ∧ refers (w_heap w') v c o) (λ _ w', grows w w').
Proof.
  intros Hwf Hcr Hb Heq Hr Hn. destruct (decide (ops_kind ops = Directory)) as [Hk|Hk].
  - destruct (directory_ops _ _ _ _ Hwf Hr Hk) as (nm & meta & es & ->). eapply wp_res_mono; [by eapply create_grows|done|done].
  - rewrite Heq. unfold wp_res, wp, on_heap. rewrite (create_child_nondir _ _ _ _ _ _ Hwf Hr) by (intros nm meta es ->; by apply Hk).
    apply looked_grows; [done|]. destruct w. by apply looked_refl.
Qed.

Lemma lookup_grows fs s ns w path follow :
  fs_ok fs s ns w →
  wp_res (lookup_namespace_path ns path follow) w
    (λ n w', grows w w' ∧ looked w w' ∧ ∃ b ops, refers (w_heap w') n b ops) (λ _ w', grows w w').
Proof.
  intros Hok. pose proof Hok as [Hwf _ _ _ _ _]. eapply wp_res_mono; [by eapply lookup_path_rule|cbv beta|].
  - intros n w' (Hl & b & ops & _ & _ & Hr). split; [by apply looked_grows|]. eauto.
  - intros e w' [Hl _]. by apply looked_grows.
Qed.

(** The rest of the walk starts in a world that has grown. *)
Lemma grows_rest {A} w w1 (m : MR A) (Q : A → world → Prop) :
  heap_wf (w_heap w) → grows w w1 → wp_res m w1 (λ a w2, grows w1 w2 ∧ Q a w2) (λ _ w2, grows w1 w2) →
  wp_res m w1 (λ a w2, grows w w2 ∧ Q a w2) (λ _ w2, grows w w2).
Proof.
  intros Hwf Hg Hm. eapply wp_res_mono; [exact Hm|intros a w2 [Hg2 HQ]; split; [by eapply grows_trans|done]|intros e w2 Hg2; by eapply grows_trans].
Qed.

Definition create_kind (ck : NamespaceCreateKind) ops : Prop :=
  match ck with CreateDirectory mode => is_new_dir mode ops | CreateFile mode => is_new_file File mode ops end.

Lemma create_final_rule w (ck : NamespaceCreateKind) (is_final : bool) parent_dir_mode n b ops name :
  heap_wf (w_heap w) → refers (w_heap w) n b ops → ops_entries ops !! name = None →
  wp_res (on_heap (if is_final then match ck with CreateDirectory mode => create_dir n name mode | CreateFile mode => create_file n name mode end
                   else create_dir n name parent_dir_mode)) w
    (λ v w', grows w w' ∧ ∃ c o, (if is_final then create_kind ck o else is_new_dir parent_dir_mode o) ∧ refers (w_heap w') v c o)
    (λ _ w', grows w w').
Proof.
  intros Hwf Hr Hn. destruct is_final; [destruct ck as [mode|mode]|].
  - by apply (create_any w (λ n name, create_dir n name mode) _ n b ops name _ Hwf (create_dir_creates mode) (born_dir mode) eq_refl).
  - by apply (create_any w (λ n name, create_file n name mode) _ n b ops name _ Hwf (create_file_creates mode) (born_file File mode) eq_refl).
  - by apply (create_any w (λ n name, create_dir n name parent_dir_mode) _ n b ops name _ Hwf (create_dir_creates _) (born_dir _) eq_refl).
Qed.

Lemma through_rule fs s ns w path n b ops :
  fs_ok fs s ns w → refers (w_heap w) n b ops →
  wp_res (through ns path n) w (λ v w', grows w w' ∧ ∃ b' ops', refers (w_heap w') v b' ops') (λ _ w', grows w w').
Proof.
  intros Hok Hr. pose proof Hok as [Hwf _ _ _ _ _]. unfold through. wp_step. eapply on_heap_read; [by eapply kind_eq|]. destruct (decide _).
  - eapply wp_res_mono; [by eapply lookup_grows|intros v w' (? & _ & ?); auto|done].
  - wp_run. split; [apply looked_grows, looked_refl; done|eauto].
Qed.

Lemma create_walk_rule fs s ns ck pm cs : ∀ w current b ops path,
  cs ≠ [] → fs_ok fs s ns w → refers (w_heap w) current b ops →
  wp_res (create_walk ns ck pm cs current path) w
    (λ v w', grows w w' ∧ ∃ c o, create_kind ck o ∧ refers (w_heap w') v c o) (λ _ w', grows w w').
Proof.
  induction cs as [|x tail IH]; intros w current b ops path Hne Hok Hr; [done|]. cbn [create_walk]. pose proof Hok as [Hwf _ _ Hns _ _].
  assert (grows w w) as Hg0 by (by apply looked_grows, looked_refl).
  destruct (lookup_mount_ok _ _ (resolve_namespace_path path x) Hns) as (m & Hm & Hmn). wp_step. eapply lift_rule; [done|]. destruct m as [m|].
  { destruct (bool_decide_reflect (tail = [])) as [_|Htail]; [by wp_run|]. wp_step.
    eapply wp_res_mono; [apply mounted_node_rule; [done|by apply Hmn]|cbv beta|done]. intros n1 w1 (Hl & b1 & ops1 & _ & Hr1).
    pose proof (looked_grows _ _ Hwf Hl) as Hg1. pose proof (grows_ok _ _ _ _ _ Hok Hg1) as Hok1. pose proof Hok1 as [Hwf1 _ _ _ _ _].
    wp_step. eapply expect_directory_rule; [done|done| |done]. intros ? ? ? _. eapply grows_rest; [done|done|]. by eapply IH. }
  wp_step. eapply wp_res_mono; [apply on_heap_rule, (node_lookup_rule _ _ b ops); done|cbv beta|by intros e w2 (? & _ & [] & _)].
  intros found w1 ((Hwf1 & He & Hf) & Hw1). assert (looked w w1) as Hl by done. pose proof (looked_grows _ _ Hwf Hl) as Hg1.
  pose proof (grows_ok _ _ _ _ _ Hok Hg1) as Hok1. pose proof (looked_refers _ _ _ _ _ Hl Hr) as Hr1. destruct found as [v|].
  - destruct Hf as (c & cb & cops & _ & _ & Hv). wp_step. eapply wp_res_mono; [by eapply through_rule|cbv beta|intros e w2 Hg2; by eapply grows_trans].
    intros n2 w2 (Hg2 & b2 & ops2 & Hr2). assert (grows w w2) as Hg02 by (by eapply (grows_trans w w1)). pose proof (grows_ok _ _ _ _ _ Hok Hg02) as Hok2.
    pose proof Hok2 as [Hwf2 _ _ _ _ _].
    destruct (bool_decide_reflect (tail = [])) as [_|Htail]; [by wp_run|]. wp_step. eapply expect_directory_rule; [done|done| |done].
    intros ? ? ? _. eapply grows_rest; [done|done|]. by eapply IH.
  - wp_step. eapply wp_res_mono; [by eapply create_final_rule|cbv beta|intros e w2 Hg2; by eapply grows_trans].
    intros n2 w2 (Hg2 & c & o & HK & Hr2). assert (grows w w2) as Hg02 by (by eapply (grows_trans w w1)).
    pose proof (grows_ok _ _ _ _ _ Hok Hg02) as Hok2. pose proof Hok2 as [Hwf2 _ _ _ _ _].
    destruct (bool_decide_reflect (tail = [])) as [->|Htail].
    + wp_run. cbn [create_walk]. wp_run. split; [done|]. by exists c, o.
    + wp_step. eapply expect_directory_rule; [done|done| |done]. intros ? ? ? _. eapply grows_rest; [done|done|]. by eapply IH.
Qed.

Lemma create_path_rule fs s ns w path ck pm :
  fs_ok fs s ns w →
  wp_res (create_namespace_path_locked ns path ck pm) w
    (λ v w', grows w w' ∧ ∃ c o, create_kind ck o ∧ refers (w_heap w') v c o) (λ _ w', grows w w').
Proof.
  intros Hok. pose proof Hok as [Hwf _ _ Hns _ _]. unfold create_namespace_path_locked. destruct (decide _) as [Hs|Hs].
  { wp_run. by apply looked_grows, looked_refl. }
  wp_step. eapply wp_res_mono; [apply (root_node_rule (w_heap w)); try done; apply extends_refl|cbv beta|done].
  intros root w1 (Hl & b & ops & _ & Hr & _). pose proof (looked_grows _ _ Hwf Hl) as Hg. eapply grows_rest; [done|done|].
  eapply create_walk_rule; [|by eapply grows_ok|done]. destruct (leaf_split _ Hs) as (cs & c & Hcs & Hc & -> & _).
  rewrite split_components_render by (apply Forall_app; auto). by destruct cs.
Qed.

(** The notification after a creation; the parent may not be found. *)
Lemma notify_created_grows fs s ns w path v :
  fs_ok fs s ns w → wp_res (notify_created fs path v) w (λ _ w', grows w w') (λ _ w', grows w w').
Proof.
  intros Hok. pose proof Hok as [Hwf _ _ _ _ _]. unfold notify_created. wp_step. eapply namespace_of_rule; [done|]. wp_step.
  eapply wp_res_mono; [by eapply lookup_grows|cbv beta|done]. intros n w1 (Hg & _ & _). unfold notify_fs. wp_run. exact Hg.
Qed.

(** ** Renaming *)

(** The entry [old] of the directory [d] moves to [new] of [t]. *)
Definition renames h d ops (old : str) (t : NodeRef) tops (new : str) (replace : bool) T : Prop :=
  ∃ nm meta es tnm tmeta tes c, ops = DirectoryNode nm meta es ∧ tops = DirectoryNode tnm tmeta tes ∧ es !! old = Some c ∧
    (replace = false → tes !! new = None ∨ (d = t ∧ new = old)) ∧ T = renamed (tree h) d nm meta es old t tnm tmeta tes new c.

Lemma rename_child_rule h n d ops old v t tops new replace :
  heap_wf h → refers h n d ops → refers h v t tops →
  wp_res (rename_child n old v new replace) h (λ _ h', ∃ T, renames h d ops old t tops new replace T ∧ changes h h' T) (λ _ h', h' = h).
Proof.
  intros Hwf Hr Hv. destruct (base_of_eq _ _ _ _ Hwf Hr) as [ds Hs]. unfold rename_child. wp_step. unfold wp_res at 1, wp. rewrite Hs.
  cbn [fst snd]. wp_step. eapply wp_res_mono; [by apply (unwrap_peers_rule ds)|cbv beta|done]. intros peer h' [-> Hp].
  destruct ops as [nm meta es| | |]; try by wp_run. pose proof (refers_tree _ _ _ _ Hwf Hr) as Hd. pose proof (refers_tree _ _ _ _ Hwf Hp) as Ht.
  pose proof Hp as [[j Hj] _]. destruct (in_operations j) as [tnm tmeta tes| | |] eqn:Hjo.
  2-4: unfold dir_rename; wp_step; unfold dir_entries; wp_step; eapply inode_at_rule; [done|]; rewrite Hjo; by wp_run.
  - assert (refers h peer peer (in_operations j)) as [_ Hb] by (apply refers_self; [done|by rewrite Hjo]). destruct Hp as [_ Hb']. rewrite Hb in Hb'.
    injection Hb' as <- <-. rewrite Hjo in *. destruct (decide (d = peer)) as [->|Hne].
    + rewrite Hd in Ht. injection Ht as <- <- <-. eapply wp_res_mono; [by eapply dir_rename_same_rule|cbv beta|by intros e h' [-> _]].
      intros [] h' (c & Hc & Hrep & Hch). eexists. split; [|done]. exists nm, meta, es, nm, meta, es, c. unfold renamed. rewrite decide_True by done.
      split_and!; try done. intros Hf. destruct (decide (new = old)) as [->|Hno]; [by right|]. left.
      specialize (Hrep Hf). by rewrite lookup_delete_ne in Hrep.
    + eapply wp_res_mono; [by eapply (dir_rename_cross_rule h d nm meta es peer)|cbv beta|by intros e h' [-> _]].
      intros [] h' (c & Hc & Hrep & Hch). eexists. split; [|done]. exists nm, meta, es, tnm, tmeta, tes, c. unfold renamed. rewrite decide_False by done.
      split_and!; try done. intros Hf. left. auto.
Qed.

Definition moved h ns (O P : str) T : Prop :=
  ∃ d nm meta es dp t tnm tmeta tes tp c cb cops,
    parent_is h ns O d nm meta es dp ∧ parent_is h ns P t tnm tmeta tes tp ∧ es !! leaf_name O = Some c ∧ refers h c cb cops ∧
    (∀ r rb rops, tes !! leaf_name P = Some r → refers h r rb rops → ops_kind cops ≠ Directory ∧ ops_kind rops ≠ Directory) ∧
    T = renamed (tree h) d nm meta es (leaf_name O) t tnm tmeta tes (leaf_name P) c.

(** The check against a move below itself only looks. *)
Lemma rename_guard_rule fs s ns w (guard : bool) O :
  fs_ok fs s ns w →
  wp_res (if guard then source ← lookup_namespace_path ns O false; k ← on_heap (kind source);
                        if decide (k = Directory) then mthrow SysErr.Inval else mret ()
          else mret ()) w (λ _ w', looked w w') (λ _ w', looked w w').
Proof.
  intros Hok. pose proof Hok as [Hwf _ _ _ _ _]. destruct guard; [|wp_run; by apply looked_refl]. wp_step.
  eapply wp_res_mono; [by eapply lookup_path_rule|cbv beta|by intros e w' [? _]]. intros v w1 (Hl & b & ops & p & _ & Hr). wp_step.
  eapply on_heap_read; [eapply kind_eq; [apply Hl|done]|]. by destruct (decide _); wp_run.
Qed.

(** The node under a name, looked up from its parent. *)
Lemma child_rule {A} fs s ns w w1 n d ops (name : str) (k : option NodeRef → MR A) Q Qe :
  fs_ok fs s ns w → looked w w1 → refers (w_heap w1) n d ops → refers (w_heap w) d d ops →
  (∀ w2, looked w w2 → looked w1 w2 → ops_entries ops !! name = None → wp_res (k None) w2 Q Qe) →
  (∀ w2 v c cb cops, looked w w2 → looked w1 w2 → ops_entries ops !! name = Some c → refers (w_heap w) c cb cops → refers (w_heap w2) v cb cops →
     wp_res (k (Some v)) w2 Q Qe) →
  wp_res (found ← on_heap (node_lookup n name); k found) w1 Q Qe.
Proof.
  intros Hok Hl Hr Hd HN HS. pose proof Hok as [Hwf _ _ _ _ _]. pose proof Hl as (Hwf1 & _). wp_step.
  eapply wp_res_mono; [apply on_heap_rule, (node_lookup_rule _ _ d ops); done|cbv beta|by intros e w2 (? & _ & [] & _)].
  intros found w2 ((Hwf2 & He2 & Hf) & Hw2). assert (looked w1 w2) as Hl12 by done. assert (looked w w2) as Hl2 by (by eapply looked_trans).
  destruct found as [v|]; [|by apply HN]. destruct Hf as (c & cb & cops & Hc & Hcr & Hv). eapply HS; try done.
  apply (looked_refers_back w w1); [done|done| |done]. by eapply entry_exists.
Qed.

(** What stands in the way of the new name. *)
Lemma rename_target_rule fs s ns w w1 v cb cops target :
  fs_ok fs s ns w → looked w w1 → refers (w_heap w1) v cb cops →
  (∀ r, target = Some r → ∃ rb rops, refers (w_heap w1) r rb rops) →
  wp_res (rename_replaces v target) w1
    (λ same w', w' = w1 ∧ (same = false → ∀ r rb rops, target = Some r → refers (w_heap w1) r rb rops →
       ops_kind cops ≠ Directory ∧ ops_kind rops ≠ Directory)) (λ _ w', looked w w').
Proof.
  intros Hok Hl Hv Ht. unfold rename_replaces. destruct target as [r|]; [|wp_run; split; [done|]; by intros _ ? ? ?]. destruct (decide (v = r)); [by wp_run|].
  destruct (Ht r eq_refl) as (rb & rops & Hr). pose proof Hl as (Hwf1 & _). wp_step. eapply on_heap_read; [by eapply kind_eq|].
  wp_step. eapply on_heap_read; [by eapply kind_eq|]. wp_step. eapply on_heap_read; [by eapply node_entries_eq|].
  destruct (decide _); [by wp_run|]. destruct (decide _); [by wp_run|]. destruct (decide _); [by wp_run|]. wp_run. split; [done|].
  intros _ r' rb' rops' [= <-] [_ Hb']. destruct Hr as [_ Hb]. rewrite Hb in Hb'. by simplify_eq.
Qed.

(** A lookup after other lookups. *)
Lemma lookup_after_rule fs s ns w w1 path follow :
  fs_ok fs s ns w → looked w w1 →
  wp_res (lookup_namespace_path ns path follow) w1
    (λ n w', looked w1 w' ∧ looked w w' ∧ ∃ b ops p, plookup MAX_LINKS (w_heap w) ns path follow = Ok ((b, ops), p) ∧
       refers (w_heap w') n b ops ∧ refers (w_heap w) b b ops)
    (λ _ w', looked w w').
Proof.
  intros Hok Hl. eapply wp_res_mono; [eapply lookup_path_rule; by eapply looked_fs_ok|cbv beta|].
  - intros n w' (Hl1 & b & ops & p & Hp & Hr). rewrite (plookup_looked _ _ _ _ _ _ _ Hok Hl) in Hp. split; [done|].
    split; [by eapply looked_trans|]. exists b, ops, p. split; [done|]. split; [done|]. apply tree_refers. by eapply plookup_tree.
  - intros e w' [Hl1 _]. by eapply looked_trans.
Qed.

Lemma entries_directory h b ops name c :
  heap_wf h → refers h b b ops → ops_entries ops !! name = Some c → ∃ nm meta es, ops = DirectoryNode nm meta es ∧ es !! name = Some c.
Proof. intros Hwf Hr Hc. destruct ops; try done. eauto. Qed.

(** The end of the call, once the nodes under both names are known. *)
Lemma rename_end_rule fs s ns w w5 O P sp tp v d ops dp t tops tpp c cb cops existing :
  fs_ok fs s ns w → looked w w5 →
  plookup MAX_LINKS (w_heap w) ns (parent_path O) true = Ok ((d, ops), dp) → refers (w_heap w5) sp d ops →
  plookup MAX_LINKS (w_heap w) ns (parent_path P) true = Ok ((t, tops), tpp) → refers (w_heap w5) tp t tops →
  ops_entries ops !! leaf_name O = Some c → refers (w_heap w) c cb cops → refers (w_heap w5) v cb cops →
  (is_Some existing ↔ is_Some (ops_entries tops !! leaf_name P)) →
  (∀ r, existing = Some r → ∃ rb rops e, refers (w_heap w5) r rb rops ∧ ops_entries tops !! leaf_name P = Some e ∧ refers (w_heap w) e rb rops) →
  wp_res (same ← rename_replaces v existing;
          if (same : bool) then mret 0
          else _ ← on_heap (rename_child sp (leaf_name O) tp (leaf_name P) (bool_decide (is_Some existing)));
               _ ← notify_fs (Moved sp tp v (leaf_name O) (leaf_name P)); mret 0) w5
    (λ _ w', looked w w' ∨ ∃ T, moved (w_heap w) ns O P T ∧ wchanges w w' T) (λ _ w', looked w w').
Proof.
  intros Hok Hl5 Hdp Hd Htp Ht Hc Hcr Hv Hex Hr. pose proof Hok as [Hwf _ _ _ _ _]. pose proof Hl5 as (Hwf5 & _). wp_step.
  eapply wp_res_mono; [by eapply (rename_target_rule fs s ns w w5); [| | |intros r Hr'; destruct (Hr r Hr') as (rb & rops & _ & ? & _); eauto]|cbv beta|done].
  intros same w5' [-> Hsame]. destruct same; [wp_run; by left|]. specialize (Hsame eq_refl). wp_step.
  eapply wp_res_mono; [by apply on_heap_rule, (rename_child_rule _ _ d ops _ _ t tops)|cbv beta|].
  2:{ intros e w6 (e' & _ & Hh & ->). rewrite Hh. by destruct w5. }
  intros [] w6 ((T & (nm & meta & es & tnm & tmeta & tes & c' & -> & -> & Hc' & Hrep & ->) & Hch) & Hw6). cbn [ops_entries] in *. simplify_eq.
  rewrite (looked_tree _ _ Hl5) in Hch. wp_step. eapply (notify_rule _ w); [by eapply (looked_changes w w5)|]. intros w7 Hch7 _. wp_run. right.
  eexists. split; [|done]. exists d, nm, meta, es, dp, t, tnm, tmeta, tes, tpp, c, cb, cops. split_and!; try done.
  intros r rb rops Hr' Hrr. destruct existing as [x|]; [|by destruct (proj2 Hex ltac:(by eexists))].
  destruct (Hr x eq_refl) as (xb & xops & e & Hx & He & Hxe). rewrite Hr' in He. injection He as <-. destruct Hrr as [_ Hrb], Hxe as [_ Hxb].
  rewrite Hrb in Hxb. simplify_eq. by eapply (Hsame x).
Qed.

Lemma rename_rule fs s ns w old_path new_path :
  fs_ok fs s ns w →
  let O := target_of s old_path in
  let P := target_of s new_path in
  wp_res (rename_in fs old_path new_path) w
    (λ _ w', looked w w' ∨ ∃ T, moved (w_heap w) ns O P T ∧ wchanges w w' T) (λ _ w', looked w w').
Proof.
  intros Hok O P. pose proof Hok as [Hwf Hctx Hnsp Hns _ _]. pose proof (looked_refl w Hwf) as Hl0. unfold rename_in.
  destruct (decide (old_path = [] ∨ new_path = [])); [by wp_run|].
  wp_step. eapply view_path_rule; [done|]. fold (target_of s old_path). fold O. wp_step. eapply view_path_rule; [done|]. fold (target_of s new_path). fold P.
  destruct (decide (O = P)); [wp_run; by left|]. destruct (decide (O = SLASH ∨ P = SLASH)); [by wp_run|].
  wp_step. eapply namespace_of_rule; [done|]. wp_step. eapply wp_res_mono; [by eapply rename_guard_rule|cbv beta|done]. intros [] w1 Hl1.
  destruct (lookup_mount_none _ _ _ _ O Hok) as [m1 Hm1], (lookup_mount_none _ _ _ _ P Hok) as [m2 Hm2].
  wp_step. eapply lift_rule; [done|]. wp_step. eapply lift_rule; [done|]. destruct (_ || _); [by wp_run|].
  destruct (covering_ok _ _ O Hns) as [c1 Hc1], (covering_ok _ _ P Hns) as [c2 Hc2].
  wp_step. eapply lift_rule; [done|]. wp_step. eapply lift_rule; [done|]. destruct (decide _); [by wp_run|].
  wp_step. eapply wp_res_mono; [by eapply lookup_after_rule|cbv beta|done]. intros sp w2 (_ & Hl2 & d & ops & dp & Hdp & Hd2 & Hd).
  wp_step. eapply wp_res_mono; [by eapply lookup_after_rule|cbv beta|done]. intros tp w3 (Hl23 & Hl3 & t & tops & tpp & Htp & Ht3 & Ht).
  pose proof (looked_refers _ _ _ _ _ Hl23 Hd2) as Hd3. destruct (decide _); [by wp_run|].
  eapply (child_rule fs s ns w w3 sp d ops); [done|done|done|done|intros; by wp_run|]. intros w4 v c cb cops Hl4 Hl34 Hc Hcr Hv. wp_step. wp_step.
  pose proof (looked_refers _ _ _ _ _ Hl34 Hd3) as Hd4. pose proof (looked_refers _ _ _ _ _ Hl34 Ht3) as Ht4.
  eapply (child_rule fs s ns w w4 tp t tops); [done|done|done|done| |].
  - intros w5 Hl5 Hl45 Hn. eapply (rename_end_rule fs s ns w w5 O P sp tp v d ops dp t tops tpp c cb cops None); try done;
      [by apply (looked_refers w4)..|].
    split; [by intros [? ?]|]. rewrite Hn. by intros [? ?].
  - intros w5 x e rb rops Hl5 Hl45 Hx Hxr Hxv.
    eapply (rename_end_rule fs s ns w w5 O P sp tp v d ops dp t tops tpp c cb cops (Some x)); try done; [by apply (looked_refers w4)..|].
    intros r [= <-]. by exists rb, rops, e.
Qed.
