(* ===== verification/RootfsCalls.v ===== *)
(** * The root file system: all calls

    Changes of directory, mounts and the missing directories of a path; no
    system call on names panics, and all keep the world well formed. *)

From Stdlib Require Import Ascii String.
From S2P Require Import Prelude Poll Errno Path MemFile Node NodeProof LinkProof Namespace Rootfs LookupProof RootfsProof.

Open Scope list_scope.

Implicit Types (ns : MountNamespace) (w : world) (fs : Z) (path : str).

(** procfs makes up no node here. *)
Definition no_virtual (path : str) : option (SysResult NodeRef) := None.

Definition world_ok fs w : Prop := ∃ s ns, fs_ok fs s ns w.

Lemma world_ok_grows fs s ns w w' : fs_ok fs s ns w → grows w w' → world_ok fs w'.
Proof. intros Hok Hg. exists s, ns. by eapply grows_ok. Qed.
Lemma world_ok_looked fs s ns w w' : fs_ok fs s ns w → looked w w' → world_ok fs w'.
Proof. intros Hok Hl. exists s, ns. by eapply looked_fs_ok. Qed.
Lemma world_ok_changes fs s ns w w' T : fs_ok fs s ns w → wchanges w w' T → world_ok fs w'.
Proof. intros Hok Hch. exists s, ns. by eapply fs_ok_changes. Qed.

(** The path of a lookup is normalized. *)
Lemma pwalk_normalized redirect h ns follow cs : ∀ cur ps b p,
  components_ok cs → components_ok ps →
  (∀ q b p, redirect q = Ok (b, p) → normalized p) → pwalk redirect h ns follow cs cur (render ps) = Ok (b, p) → normalized p.
Proof.
  induction cs as [|c cs IH]; intros cur ps b p Hcs Hps Hred; cbn [pwalk]; [intros [= _ <-]; by exists ps|].
  apply Forall_cons in Hcs as [Hc Hcs]. destruct (pstep h ns cur (render ps) c) as [next| | |]; try done. cbn [mbind outcome_bind].
  destruct (_ && _).
  - destruct (ops_target next.2); [|done]. cbn [ok_or mbind outcome_bind]. apply Hred.
  - rewrite resolve_component by done. apply IH; try done. apply Forall_app; auto.
Qed.

Lemma plookup_normalized left : ∀ h ns path follow b p, plookup left h ns path follow = Ok (b, p) → normalized p.
Proof.
  induction left as [|left IH]; intros h ns path follow b p; cbn [plookup]; [done|]. destruct (proot h ns) as [root| | |]; try done.
  cbn [mbind outcome_bind]. destruct (decide _) as [_|Hs]; [intros [= _ <-]; exists []; by split; [constructor|]|]. destruct (normalize_normalized path) as (cs & Hcs & ->).
  rewrite split_components_render by done. change SLASH with (render []). apply pwalk_normalized; [done|constructor|]. intros q. apply IH.
Qed.

(** ** Every call keeps the world well formed *)

Lemma lookup_entry_rule fs s ns w path follow :
  fs_ok fs s ns w →
  wp_res (lookup_namespace_entry MAX_LINKS ns path follow) w
    (λ l w', looked w w' ∧ normalized (lk_path l) ∧ ∃ b ops, refers (w_heap w') (lk_node l) b ops) (λ _ w', looked w w').
Proof.
  intros [Hwf _ _ Hns _ _]. eapply wp_res_mono; [apply (lookup_rule _ (w_heap w)); try done; apply extends_refl|cbv beta|by intros e w' [? _]].
  intros l w' (Hl & b & ops & Hp & Hr). split; [done|]. split; [by eapply plookup_normalized|eauto].
Qed.

Lemma lookup_in_rule fs s ns w path follow :
  fs_ok fs s ns w → wp_res (lookup_in no_virtual fs path follow) w (λ _ w', looked w w') (λ _ w', looked w w').
Proof.
  intros Hok. pose proof Hok as [Hwf Hctx _ Hns _ _]. unfold lookup_in, lookup_in_with_identity. wp_step. wp_step. eapply view_path_rule; [done|].
  wp_step. eapply namespace_of_rule; [done|]. cbn [no_virtual]. wp_step. eapply wp_res_mono; [by eapply lookup_entry_rule|cbv beta|done].
  intros l w' (Hl & _). destruct (covering_ok _ _ (lk_path l) Hns) as [m Hm]. wp_step. eapply lift_rule; [done|]. by wp_run.
Qed.

Lemma mkdir_rule fs s ns w path mode :
  fs_ok fs s ns w → wp_res (mkdir_in fs path mode) w (λ _ w', grows w w') (λ _ w', grows w w').
Proof.
  intros Hok. pose proof Hok as [Hwf Hctx _ Hns _ _]. unfold mkdir_in. wp_step. eapply view_path_rule; [done|].
  wp_step. eapply namespace_of_rule; [done|]. wp_step. eapply wp_res_mono; [by eapply create_path_rule|cbv beta|done].
  intros v w1 (Hg & _). wp_step. eapply wp_res_mono; [eapply notify_created_grows; by eapply grows_ok|cbv beta|intros e w2 ?; by eapply grows_trans].
  intros [] w2 Hg2. wp_run. by eapply grows_trans.
Qed.

Lemma create_file_rule fs s ns w path mode :
  fs_ok fs s ns w → wp_res (create_file_in fs path mode) w (λ _ w', grows w w') (λ _ w', grows w w').
Proof.
  intros Hok. pose proof Hok as [Hwf Hctx _ Hns _ _]. unfold create_file_in. wp_step. eapply view_path_rule; [done|].
  wp_step. eapply namespace_of_rule; [done|]. wp_step. eapply wp_res_mono; [by eapply create_path_rule|cbv beta|done].
  intros v w1 (Hg & _). wp_step. eapply wp_res_mono; [eapply notify_created_grows; by eapply grows_ok|cbv beta|intros e w2 ?; by eapply grows_trans].
  intros [] w2 Hg2. pose proof (grows_trans _ _ _ Hwf Hg Hg2) as Hg02. pose proof (grows_ok _ _ _ _ _ Hok Hg02) as Hok2. wp_step.
  eapply namespace_of_rule; [done|]. destruct (covering_ok _ _ (resolve_view_path (loc_path (fs_root s)) (loc_path (fs_cwd s)) path) Hns) as [m Hm].
  wp_step. eapply lift_rule; [done|]. by wp_run.
Qed.

Lemma context_rule fs s w (Q : ProcessFsState → world → Prop) (Qe : SysErr.SysErr → world → Prop) :
  w_contexts w !! fs = Some s → Q s w → wp_res (context fs) w Q Qe.
Proof. intros Hc HQ. unfold context, fetch, wp_res, wp. by rewrite Hc. Qed.

Definition with_context fs (s : ProcessFsState) w : world := set_contexts (<[fs := s]> (w_contexts w)) w.

Lemma fs_ok_context fs s ns w l l' :
  fs_ok fs s ns w → normalized (loc_path l) → normalized (loc_path l') →
  fs_ok fs (mkFsState (fs_namespace s) l l') ns (with_context fs (mkFsState (fs_namespace s) l l') w).
Proof. intros [] Hl Hl'. split; try done. simpl. by rewrite lookup_insert_eq. Qed.

Lemma chdir_rule fs s ns w path :
  fs_ok fs s ns w → wp_res (chdir_in fs path) w (λ _ w', world_ok fs w') (λ _ w', world_ok fs w').
Proof.
  intros Hok. pose proof Hok as [Hwf Hctx _ Hns Hr _]. unfold chdir_in. wp_step. eapply view_path_rule; [done|].
  wp_step. eapply namespace_of_rule; [done|]. wp_step.
  eapply wp_res_mono; [by eapply lookup_entry_rule|cbv beta|intros e w1 ?; by eapply world_ok_looked]. intros l w1 (Hl & Hn & b & ops & Hrl).
  pose proof (looked_fs_ok _ _ _ _ _ Hok Hl) as Hok1. pose proof Hok1 as [Hwf1 Hctx1 _ _ _ _]. wp_step.
  eapply expect_directory_rule; [done|done| |intros _; by exists s, ns]. intros _ _ _ _. unfold set_cwd_location. wp_run.
  eapply context_rule; [done|]. unfold put_context. wp_run. eexists _, ns. by apply fs_ok_context.
Qed.

Lemma chroot_rule fs s ns w path :
  fs_ok fs s ns w → wp_res (chroot_in fs path) w (λ _ w', world_ok fs w') (λ _ w', world_ok fs w').
Proof.
  intros Hok. pose proof Hok as [Hwf Hctx _ Hns Hr Hcw]. unfold chroot_in. wp_step. eapply view_path_rule; [done|].
  wp_step. eapply namespace_of_rule; [done|]. wp_step.
  eapply wp_res_mono; [by eapply lookup_entry_rule|cbv beta|intros e w1 ?; by eapply world_ok_looked]. intros l w1 (Hl & Hn & b & ops & Hrl).
  pose proof (looked_fs_ok _ _ _ _ _ Hok Hl) as Hok1. pose proof Hok1 as [Hwf1 Hctx1 _ _ _ _]. wp_step.
  eapply expect_directory_rule; [done|done| |intros _; by exists s, ns]. intros _ _ _ _. unfold set_root_location. wp_run.
  eapply context_rule; [done|]. unfold put_context. wp_run.
  set (l1 := mkLocation (lk_path l) (lk_node l)). pose proof (fs_ok_context _ _ _ _ l1 (fs_cwd s) Hok1 Hn Hcw) as Hok2.
  eapply context_rule; [apply Hok2|]. destruct (is_within _ _); wp_run; [by eexists _, ns|]. unfold set_cwd_location. wp_run.
  eapply context_rule; [apply Hok2|]. unfold put_context. wp_run. eexists _, ns. by apply (fs_ok_context _ _ _ _ l1 _ Hok2).
Qed.

(** ** Namespaces that change *)

Lemma push_wf h path m ns : ns_wf h ns → is_Some (nodes h !! mn_node m) → ns_wf h (push_mount path m ns).
Proof.
  intros [Hr Hrn Hm] Hn. unfold push_mount. destruct (decide _); split; simpl; try done.
  - by destruct (root_stack ns).
  - intros x [?| ->%list_elem_of_singleton]%elem_of_app; auto.
  - intros p st x [[<- <-]|[_ ?]]%lookup_insert_Some Hx; [|eauto]. apply elem_of_app in Hx as [Hx| ->%list_elem_of_singleton]; [|done].
    destruct (mounts ns !! path) as [st|] eqn:Hst; simpl in Hx; [eauto|by apply elem_of_nil in Hx].
Qed.

Lemma elem_of_removelast {A} (x : A) l : x ∈ removelast l → x ∈ l.
Proof.
  destruct l as [|y l] using rev_ind; [done|]. rewrite removelast_last. intros ?. apply elem_of_app. by left.
Qed.

Lemma pop_wf h path ns m ns' : ns_wf h ns → pop_mount path ns = Ok (m, ns') → ns_wf h ns' ∧ is_Some (nodes h !! mn_node m).
Proof.
  intros [Hr Hrn Hm]. unfold pop_mount. destruct (mounts ns !! path) as [st|] eqn:Hst; [|done]. cbn [ok_or mbind outcome_bind].
  destruct (last st) as [x|] eqn:Hl; [|done]. cbn [ok_or mbind outcome_bind]. intros [= <- <-]. split; [|by eapply Hm, last_elem].
  split; simpl; try done. destruct (decide _).
  - intros p st' y [_ ?]%lookup_delete_Some; eauto.
  - intros p st' y [[<- <-]|[_ ?]]%lookup_insert_Some Hy; [|eauto]. eapply Hm; [done|]. by apply elem_of_removelast.
Qed.

Lemma unmount_wf h path ns : ns_wf h ns → (∃ ns', unmount path ns = Ok ns' ∧ ns_wf h ns') ∨ unmount path ns = Err SysErr.Inval.
Proof.
  intros Hns. unfold unmount. destruct (decide _).
  - destruct (decide _) as [|Hlen]; [by right|]. left. eexists. split; [done|]. destruct Hns as [Hr Hrn Hm]. split; simpl; try done.
    + destruct (root_stack ns) as [|x [|y l]]; simpl in *; [lia|lia|done].
    + intros m Hx. by apply Hrn, elem_of_removelast.
  - destruct (pop_mount _ ns) as [[m ns']|e| |] eqn:Hpop.
    + left. eexists. split; [done|]. by eapply pop_wf.
    + right. revert Hpop. unfold pop_mount. destruct (mounts ns !! _) as [st|]; [|by intros [= <-]]. cbn [ok_or mbind outcome_bind].
      destruct (last st); [done|by intros [= <-]].
    + revert Hpop. unfold pop_mount. destruct (mounts ns !! _) as [st|]; [|done]. cbn [ok_or mbind outcome_bind]. by destruct (last st).
    + revert Hpop. unfold pop_mount. destruct (mounts ns !! _) as [st|]; [|done]. cbn [ok_or mbind outcome_bind]. by destruct (last st).
Qed.

Lemma rewrite_wf source target ms p st :
  (rewrite_descendant_mounts source target ms).1 !! p = Some st ∨ (rewrite_descendant_mounts source target ms).2 !! p = Some st →
  ∃ q, ms !! q = Some st.
Proof.
  unfold rewrite_descendant_mounts. destruct (decide _); simpl; intros [H|H]; [by exists p|done| |].
  - apply map_lookup_filter_Some in H as [? _]. by exists p.
  - apply elem_of_list_to_map_2, list_elem_of_omap in H as ([q st'] & Hin%elem_of_map_to_list & Hx). cbn [fst snd] in Hx.
    destruct (descendant source q); [|done]. simpl in Hx. injection Hx as _ <-. by exists q.
Qed.

Lemma move_wf h source target ns :
  ns_wf h ns → (∃ ns', move_mount source target ns = Ok ns' ∧ ns_wf h ns') ∨ move_mount source target ns = Err SysErr.Inval.
Proof.
  intros Hns. unfold move_mount.
  assert ((∃ m ns1, (if decide (normalize_absolute_path source = SLASH) then node ← root_mount ns; mret (node, ns) else pop_mount (normalize_absolute_path source) ns)
     = Ok (m, ns1) ∧ ns_wf h ns1 ∧ is_Some (nodes h !! mn_node m)) ∨
     (if decide (normalize_absolute_path source = SLASH) then node ← root_mount ns; mret (node, ns) else pop_mount (normalize_absolute_path source) ns) = Err SysErr.Inval)
    as [(m & ns1 & -> & Hns1 & Hm)|Herr].
  - destruct (decide _).
    + left. destruct (root_mount_ok _ _ Hns) as (m & -> & ?). by exists m, ns.
    + destruct (pop_mount _ ns) as [[m ns1]|e| |] eqn:Hpop; [left; exists m, ns1; split; [done|]; by eapply pop_wf| | |];
        revert Hpop; unfold pop_mount; (destruct (mounts ns !! _) as [st|]; [|first [done|intros [= <-]; by right]]); cbn [ok_or mbind outcome_bind];
        destruct (last st); first [done|intros [= <-]; by right].
  - left. cbn [mbind outcome_bind]. destruct (rewrite_descendant_mounts _ _ _) as [kept moved] eqn:Hrw. eexists. split; [done|].
    assert (∀ p st, kept !! p = Some st ∨ moved !! p = Some st → ∃ q, mounts ns1 !! q = Some st) as Hsub.
    { intros p st H. eapply (rewrite_wf _ _ _ p). by rewrite Hrw. }
    assert (ns_wf h (push_mount (normalize_absolute_path target) m (mkNamespace (root_stack ns1) kept))) as [Hr2 Hrn2 Hm2].
    { apply push_wf; [|done]. destruct Hns1 as [Hr1 Hrn1 Hm1]. split; simpl; try done. intros p st x Hp Hx. destruct (Hsub p st) as [q Hq]; eauto. }
    split; simpl; try done. intros p st x [Hp|[_ Hp]]%lookup_union_Some_raw Hx; [|eauto]. destruct (Hsub p st) as [q Hq]; [by right|].
    destruct Hns1 as [_ _ Hm1]. eauto.
  - rewrite Herr. by right.
Qed.

Definition with_namespace (key : Z) ns w : world := set_namespaces (<[key := ns]> (w_namespaces w)) w.

Lemma fs_ok_namespace fs s ns ns' w : fs_ok fs s ns w → ns_wf (w_heap w) ns' → fs_ok fs s ns' (with_namespace (fs_namespace s) ns' w).
Proof. intros [] Hns. split; try done. simpl. by rewrite lookup_insert_eq. Qed.

Lemma put_namespace_rule fs s ns ns' w (Q : unit → world → Prop) (Qe : SysErr.SysErr → world → Prop) :
  fs_ok fs s ns w → ns_wf (w_heap w) ns' → (∀ w', fs_ok fs s ns' w' → Q () w') → wp_res (put_namespace fs ns') w Q Qe.
Proof.
  intros Hok Hns HQ. unfold put_namespace. wp_step. eapply context_rule; [apply Hok|]. wp_run. apply HQ. by apply (fs_ok_namespace fs s ns).
Qed.

Lemma umount_rule fs s ns w target :
  fs_ok fs s ns w → wp_res (umount_in fs target) w (λ _ w', world_ok fs w') (λ _ w', world_ok fs w').
Proof.
  intros Hok. unfold umount_in. wp_step. eapply view_path_rule; [apply Hok|]. wp_step. eapply namespace_of_rule; [done|]. wp_step.
  destruct (unmount_wf _ (resolve_view_path (loc_path (fs_root s)) (loc_path (fs_cwd s)) target) _ (fo_ns _ _ _ _ Hok)) as [(ns' & Hu & Hns')|Hu].
  - eapply lift_rule; [done|]. wp_step. eapply put_namespace_rule; [done|done|]. intros w' Hok'. wp_run. by exists s, ns'.
  - unfold lift, wp_res, wp. rewrite Hu. by exists s, ns.
Qed.

(** ** Missing directories *)

Lemma DirectoryNode_new_rule h name :
  heap_wf h → wp_res (DirectoryNode_new name) h (made (is_new_dir 0x41ed) h) (λ _ : FsError, λ _, False).
Proof.
  intros Hwf. unfold DirectoryNode_new, DirectoryNode_new_with_mode. wp_step. apply take_inode_rule; [done|]. intros h' Hch Hf.
  apply made_rule; [done|done|done|]. by exists name, (next_inode h), 0.
Qed.

Lemma made_dir_grows mode w c w1 : made (is_new_dir mode) (w_heap w) c (w_heap w1) → w1 = set_heap (w_heap w1) w → grows w w1.
Proof.
  intros (o & HK & Hc & Hno & Hch) Hw1. destruct (born_dir _ _ HK) as [He _]. pose proof Hch as (_ & HT & _).
  split; [apply (wchanges_tree _ _ (<[c := o]> (tree (w_heap w)))); split; [done|]; by rewrite Hw1|]. rewrite HT. split.
  - intros b x x' Hx [[<- _]|[_ Hx']]%lookup_insert_Some; [congruence|by simplify_eq].
  - intros Hl. apply links_alloc; try done. by destruct HK as (? & ? & ? & ->).
Qed.

Lemma insert_dir_rule {A} w n d ops name (k : NodeRef → MR A) Q Qe :
  heap_wf (w_heap w) → refers (w_heap w) n d ops → ops_entries ops !! name = None →
  (∀ v w' b o, grows w w' → refers (w_heap w') v b o → wp_res (k v) w' Q Qe) → (∀ e w', grows w w' → Qe e w') →
  wp_res (next ← on_heap (DirectoryNode_new name); _ ← on_heap (insert_child n name next); k next) w Q Qe.
Proof.
  intros Hwf Hr Hn HQ HQe. wp_step. eapply wp_res_mono; [by apply on_heap_rule, DirectoryNode_new_rule|cbv beta|by intros e w' (? & _ & [] & _)].
  intros c w1 ((o & HK & Hc & Hno & Hch) & Hw1). destruct (born_dir _ _ HK) as [He _]. pose proof Hch as (Hwf1 & HT & Hrr).
  destruct (Hrr _ _ _ Hr) as (ops' & Ho' & Hr1). destruct (base_of_eq _ _ _ _ Hwf1 Hr1) as [ds Hs].
  pose proof (refers_tree _ _ _ _ Hwf Hr) as Hd. assert (c ≠ d) as Hne by congruence. rewrite lookup_insert_ne in Ho' by done. simplify_eq.
  assert (wchanges w w1 (<[c := o]> (tree (w_heap w)))) as Hwc by (split; [done|]; by rewrite Hw1).
  assert (grows w w1) as Hg1 by (eapply made_dir_grows; [by exists o|done]).
  assert (refers (w_heap w1) c c o) as Hrc by (apply tree_refers; by rewrite HT, lookup_insert_eq).
  wp_step. unfold insert_child. eapply wp_res_mono; [apply on_heap_rule; wp_step; unfold wp_res at 1, wp; rewrite Hs; cbn [fst snd]|cbv beta|].
  - instantiate (1 := λ e h', grows w (set_heap h' w1)). instantiate (1 := λ _ h', grows w (set_heap h' w1) ∧ ∃ b o, refers h' c b o).
    destruct ops' as [nm meta es|nm kd meta ob|nm tg meta|x dev].
    2-4: destruct (refers_ops _ _ _ _ Hwf1 Hr1) as (i & Hi & Hio & _); unfold dir_insert; wp_step; eapply inode_at_rule; [done|]; rewrite Hio; wp_run; by destruct w1.
    eapply wp_res_mono; [apply (dir_insert_rule _ d nm meta es); [done|by eapply refers_tree|apply Hrc]|cbv beta|].
    + intros [] h2 (_ & Hch2 & _). pose proof Hch2 as (_ & HT2 & Hrr2). rewrite HT in Hch2, HT2.
      split; [|destruct (Hrr2 _ _ _ Hrc) as (? & _ & ?); eauto]. unfold grows. change (w_heap (set_heap h2 w1)) with h2. rewrite HT2. split; [|split].
      * eapply wchanges_trans; [done|]. by split.
      * apply inserted_super; try done. intros b x x' _ Hx [[<- _]|[_ Hx']]%lookup_insert_Some; [congruence|by simplify_eq].
      * intros Hl. apply links_create; try done. intros y Hk. by destruct HK as (? & ? & ? & ->).
    + intros e h2 (-> & _ & [x Hx]). simpl in Hn. congruence.
  - intros [] w2 ((Hg & b & x & Hb) & Hw2). rewrite <-Hw2 in Hg. by eapply HQ.
  - intros e w2 (e' & _ & Hg & Hw2). rewrite <-Hw2 in Hg. by apply HQe.
Qed.

(** ** Mounts *)

Section mounts.
Context (filesystems : str → option (MountRequest → MR (NodeRef * LinuxStatFs))).

(** A file system makes nodes of its own and returns one. *)
Definition mounts_ok_fs : Prop := ∀ name f request fs s ns w, filesystems name = Some f → fs_ok fs s ns w →
  wp_res (f request) w (λ r w', grows w w' ∧ is_Some (nodes (w_heap w') !! r.1)) (λ _ w', grows w w').
Context (Hfs : mounts_ok_fs).

(** No node was lost. *)
Definition keeps w w' : Prop := ∀ n, is_Some (nodes (w_heap w) !! n) → is_Some (nodes (w_heap w') !! n).

Lemma call_keeps_trans w1 w2 w3 : keeps w1 w2 → keeps w2 w3 → keeps w1 w3.
Proof. intros H1 H2 n Hn. auto. Qed.
Lemma looked_keeps w w' : looked w w' → keeps w w'.
Proof. intros (_ & He & _) n. by apply extends_is_Some. Qed.
Lemma grows_keeps fs s ns w w' : fs_ok fs s ns w → grows w w' → keeps w w'.
Proof. intros [Hwf _ _ _ _ _] ((Hch & _) & _) n. by eapply changes_nodes. Qed.

(** A mounted node that exists, in a world that is still well formed. *)
Definition good_mount fs s ns w (m : MountedNode) w' : Prop := fs_ok fs s ns w' ∧ is_Some (nodes (w_heap w') !! mn_node m) ∧ keeps w w'.

Lemma device_id_rule fs s ns w (Q : Z → world → Prop) (Qe : SysErr.SysErr → world → Prop) :
  fs_ok fs s ns w → (∀ w', fs_ok fs s ns w' → w_heap w' = w_heap w → Q (w_next_device w) w') → wp_res allocate_mount_device_id w Q Qe.
Proof. intros Hok HQ. unfold wp_res, wp. simpl. apply HQ; [|done]. by destruct Hok. Qed.

Lemma lookup_identity_rule fs s ns w path follow :
  fs_ok fs s ns w →
  wp_res (lookup_in_with_identity no_virtual fs path follow) w
    (λ r w', looked w w' ∧ ∃ b ops, refers (w_heap w') r.1 b ops) (λ _ w', looked w w').
Proof.
  intros Hok. pose proof Hok as [Hwf Hctx _ Hns _ _]. unfold lookup_in_with_identity. wp_step. eapply view_path_rule; [done|].
  wp_step. eapply namespace_of_rule; [done|]. cbn [no_virtual]. wp_step. eapply wp_res_mono; [by eapply lookup_entry_rule|cbv beta|done].
  intros l w' (Hl & _ & Hr). destruct (covering_ok _ _ (lk_path l) Hns) as [m Hm]. wp_step. eapply lift_rule; [done|]. by wp_run.
Qed.

Lemma lookup_node_rule fs s ns w path follow :
  fs_ok fs s ns w →
  wp_res (lookup_in no_virtual fs path follow) w (λ n w', looked w w' ∧ ∃ b ops, refers (w_heap w') n b ops) (λ _ w', looked w w').
Proof.
  intros Hok. unfold lookup_in. wp_step. eapply wp_res_mono; [by eapply lookup_identity_rule|cbv beta|done]. intros r w' H. by wp_run.
Qed.

Lemma mount_source_rule fs s ns w path :
  fs_ok fs s ns w → wp_res (lookup_mount_source no_virtual fs path) w (good_mount fs s ns w) (λ _ w', fs_ok fs s ns w').
Proof.
  intros Hok. pose proof Hok as [Hwf Hctx _ Hns _ _]. unfold lookup_mount_source. wp_step. eapply view_path_rule; [done|].
  wp_step. eapply namespace_of_rule; [done|].
  destruct (lookup_mount_ok _ _ (resolve_view_path (loc_path (fs_root s)) (loc_path (fs_cwd s)) path) Hns) as (m & Hm & Hn).
  wp_step. eapply lift_rule; [done|]. destruct m as [m|]; [wp_run; split; [done|]; split; [by apply Hn|by intros ? ?]|]. wp_step.
  eapply wp_res_mono; [by eapply lookup_identity_rule|cbv beta|intros e w' Hl; by eapply looked_fs_ok].
  intros [n id] w1 (Hl & b & ops & [Hsome _]). wp_step. eapply device_id_rule; [by eapply looked_fs_ok|]. intros w2 Hok2 Hh. wp_run.
  split; [done|]. simpl. unfold keeps. rewrite Hh. split; [done|]. by apply looked_keeps.
Qed.

Lemma mount_fs_rule fs s ns w fstype request dev :
  fs_ok fs s ns w → wp_res (mount_with_device filesystems fstype request dev) w (good_mount fs s ns w) (λ _ w', fs_ok fs s ns w').
Proof.
  intros Hok. unfold mount_with_device. wp_step. destruct (filesystems fstype) as [f|] eqn:Hf; wp_run; [|done].
  eapply wp_res_mono; [by eapply Hfs|cbv beta|intros e w' Hg; by eapply grows_ok]. intros [root st] w' [Hg Hr]. wp_run.
  split; [by eapply grows_ok|]. split; [done|by eapply grows_keeps].
Qed.

Lemma lookup_source_rule fs s ns w source :
  fs_ok fs s ns w → wp_res (lookup_source no_virtual fs source) w (λ _ w', fs_ok fs s ns w' ∧ keeps w w') (λ _ _, False).
Proof.
  intros Hok. destruct source as [path|]; simpl; [|wp_run; split; [done|by intros ? ?]]. pose proof (lookup_node_rule fs s ns w path true Hok) as H.
  unfold wp_res, wp in *. destruct (lookup_in no_virtual fs path true w) as [[n|e| |] w']; simpl in *; try done.
  - destruct H as [Hl _]. split; [by eapply looked_fs_ok|by apply looked_keeps].
  - split; [by eapply looked_fs_ok|by apply looked_keeps].
Qed.

Lemma mount_conflict_rule fs s ns w n m :
  fs_ok fs s ns w → is_Some (nodes (w_heap w) !! mn_node m) → is_Some (nodes (w_heap w) !! n) →
  wp_res (mount_conflict n m) w (λ _ w', fs_ok fs s ns w' ∧ is_Some (nodes (w_heap w') !! mn_node m)) (λ _ _, False).
Proof.
  intros Hok Hm Hn. pose proof Hok as [Hwf _ _ _ _ _]. destruct (refers_total _ _ Hwf Hn) as (b & ops & Hr). unfold mount_conflict. wp_step.
  eapply on_heap_read; [by eapply kind_eq|]. destruct (decide _); [by wp_run|]. wp_step. eapply wp_res_mono; [by apply mounted_node_rule|cbv beta|done].
  intros x w1 (Hl & b1 & ops1 & _ & Hx). pose proof Hl as (Hwf1 & He & _). wp_step. eapply on_heap_read; [by eapply kind_eq|]. wp_run.
  split; [by eapply looked_fs_ok|by eapply extends_is_Some].
Qed.

Lemma ensure_dirs_rule fs s ns cs : ∀ w current b ops path,
  fs_ok fs s ns w → refers (w_heap w) current b ops →
  wp_res (ensure_dirs ns cs current path) w (λ _ w', grows w w' ∧ True) (λ _ w', grows w w').
Proof.
  induction cs as [|x tail IH]; intros w current b ops path Hok Hr; cbn [ensure_dirs]; pose proof Hok as [Hwf _ _ Hns _ _].
  { wp_run. split; [by apply looked_grows, looked_refl|done]. }
  destruct (lookup_mount_ok _ _ (resolve_namespace_path path x) Hns) as (m & Hm & Hmn). wp_step. eapply lift_rule; [done|]. destruct m as [m|].
  { wp_step. eapply wp_res_mono; [apply mounted_node_rule; [done|by apply Hmn]|cbv beta|done]. intros n1 w1 (Hl & b1 & ops1 & _ & Hr1).
    pose proof (looked_grows _ _ Hwf Hl) as Hg1. pose proof (grows_ok _ _ _ _ _ Hok Hg1) as Hok1. pose proof Hok1 as [Hwf1 _ _ _ _ _].
    wp_step. eapply expect_directory_rule; [done|done| |done]. intros ? ? ? _. eapply grows_rest; [done|done|]. by eapply IH. }
  wp_step. eapply wp_res_mono; [apply on_heap_rule, (node_lookup_rule _ _ b ops); done|cbv beta|by intros e w2 (? & _ & [] & _)].
  intros found w1 ((Hwf1 & He & Hf) & Hw1). assert (looked w w1) as Hl by done. pose proof (looked_grows _ _ Hwf Hl) as Hg1.
  pose proof (grows_ok _ _ _ _ _ Hok Hg1) as Hok1. pose proof (looked_refers _ _ _ _ _ Hl Hr) as Hr1. destruct found as [v|].
  - destruct Hf as (c & cb & cops & _ & _ & Hv). wp_step. eapply wp_res_mono; [by eapply through_rule|cbv beta|intros e w2 Hg2; by eapply grows_trans].
    intros n2 w2 (Hg2 & b2 & ops2 & Hr2). assert (grows w w2) as Hg02 by (by eapply (grows_trans w w1)). pose proof (grows_ok _ _ _ _ _ Hok Hg02) as Hok2.
    pose proof Hok2 as [Hwf2 _ _ _ _ _]. wp_step. eapply expect_directory_rule; [done|done| |done]. intros ? ? ? _. eapply grows_rest; [done|done|]. by eapply IH.
  - eapply insert_dir_rule; [done|done|done| |intros e w2 Hg2; by eapply grows_trans].
    intros v w2 b2 o2 Hg2 Hr2. assert (grows w w2) as Hg02 by (by eapply (grows_trans w w1)).
    eapply grows_rest; [done|done|]. eapply IH; [by eapply grows_ok|done].
Qed.

Lemma ensure_dir_rule fs s ns w path :
  fs_ok fs s ns w → wp_res (ensure_dir_namespace_locked ns path) w (λ _ w', grows w w' ∧ True) (λ _ w', grows w w').
Proof.
  intros Hok. pose proof Hok as [Hwf _ _ Hns _ _]. unfold ensure_dir_namespace_locked. wp_step.
  eapply wp_res_mono; [apply (root_node_rule (w_heap w)); try done; apply extends_refl|cbv beta|done].
  intros root w1 (Hl & b & ops & _ & Hr & _). pose proof (looked_grows _ _ Hwf Hl) as Hg. pose proof Hl as (Hwf1 & _). destruct (decide _).
  - wp_step. eapply expect_directory_rule; [done|done| |done]. intros _ _ _ _. by wp_run.
  - eapply grows_rest; [done|done|]. eapply ensure_dirs_rule; [by eapply grows_ok|done].
Qed.

Lemma mount_end_rule fs s ns w n m target :
  fs_ok fs s ns w → is_Some (nodes (w_heap w) !! mn_node m) → is_Some (nodes (w_heap w) !! n) →
  wp_res (conflict ← mount_conflict n m;
          if (conflict : bool) then mthrow SysErr.NotDir
          else ns ← namespace_of fs; _ ← put_namespace fs (mount target m ns); mret 0) w (λ _ w', world_ok fs w') (λ _ w', world_ok fs w').
Proof.
  intros Hok Hm Hr. wp_step. eapply wp_res_mono; [by eapply mount_conflict_rule|cbv beta|done]. intros [] w1 [Hok1 Hm1]; [wp_run; by exists s, ns|].
  wp_step. eapply namespace_of_rule; [done|]. wp_step. eapply (put_namespace_rule fs s ns); [done|by apply push_wf; [apply (fo_ns _ _ _ _ Hok1)|]|].
  intros w2 Hok2. wp_run. by eexists s, _.
Qed.

(** The file system that is mounted, by bind or by name. *)
Lemma mount_choice_rule fs s ns w source fstype target_path (bind : bool) :
  fs_ok fs s ns w →
  wp_res (if bind then source ← mok_or source SysErr.Inval; lookup_mount_source no_virtual fs source
          else
            fstype ← mok_or fstype SysErr.Inval;
            node ← lookup_source no_virtual fs source;
            device_id ← allocate_mount_device_id;
            mount_with_device filesystems fstype (mkMountRequest (leaf_name target_path) node) device_id) w
    (good_mount fs s ns w) (λ _ w', fs_ok fs s ns w').
Proof.
  intros Hok. destruct bind.
  - wp_step. destruct source as [source|]; wp_run; [|done]. by apply mount_source_rule.
  - wp_step. destruct fstype as [fstype|]; wp_run; [|done]. eapply wp_res_mono; [by eapply lookup_source_rule|cbv beta|done].
    intros node w1 [Hok1 Hk1]. wp_step. eapply device_id_rule; [done|]. intros w2 Hok2 Hh. eapply wp_res_mono; [by eapply mount_fs_rule|cbv beta|done].
    intros m w3 (Hok3 & Hm & Hk3). split; [done|]. split; [done|]. eapply call_keeps_trans; [done|]. unfold keeps in *. by rewrite <-Hh.
Qed.

Lemma remap_normalized path source target : normalized (remap_mount_path path source target).
Proof.
  destruct (normalize_normalized path) as (p & Hp & Ep), (normalize_normalized source) as (q & Hq & Eq), (normalize_normalized target) as (t & Ht & Et).
  assert (remap_mount_path path source target = remap_mount_path (render p) (render q) (render t)) as ->.
  { unfold remap_mount_path. by rewrite Ep, Eq, Et, !normalize_render. }
  destruct (is_within (render q) (render p)) eqn:Hin.
  - apply is_within_prefix in Hin as [r ->]; try done. pose proof Hp as [_ Hr]%Forall_app. rewrite remap_inside by done. exists (t ++ r).
    split; [by apply Forall_app|done].
  - rewrite remap_outside; [by exists p|done..|]. intros Hx. apply is_within_prefix in Hx; [|done..]. congruence.
Qed.

Lemma mount_rule fs s ns w source target fstype flags :
  fs_ok fs s ns w → wp_res (mount_in no_virtual filesystems fs source target fstype flags) w (λ _ w', world_ok fs w') (λ _ w', world_ok fs w').
Proof.
  intros Hok. pose proof Hok as [Hwf Hctx _ Hns _ _]. assert (world_ok fs w) as Hw0 by (by exists s, ns).
  unfold mount_in. wp_step. eapply view_path_rule; [done|]. destruct (decide _) as [_|_].
  - wp_step. destruct source as [source|]; wp_run; [|done]. eapply view_path_rule; [done|]. wp_step.
    eapply wp_res_mono; [by eapply lookup_node_rule|cbv beta|intros e w1 ?; by eapply world_ok_looked]. intros n w1 (Hl & b & ops & Hr).
    pose proof (looked_fs_ok _ _ _ _ _ Hok Hl) as Hok1. wp_step. eapply namespace_of_rule; [done|].
    destruct (lookup_mount_ok _ _ (resolve_view_path (loc_path (fs_root s)) (loc_path (fs_cwd s)) source) (fo_ns _ _ _ _ Hok1)) as (m & Hm & Hn).
    wp_step. eapply lift_rule; [done|]. wp_step. destruct m as [m|]; wp_run; [|by exists s, ns].
    eapply wp_res_mono; [eapply mount_conflict_rule; [done|by apply Hn|apply Hr]|cbv beta|done]. intros [] w2 [Hok2 Hm2]; [wp_run; by exists s, ns|].
    wp_step. eapply namespace_of_rule; [done|]. wp_step.
    destruct (move_wf _ (resolve_view_path (loc_path (fs_root s)) (loc_path (fs_cwd s)) source)
      (resolve_view_path (loc_path (fs_root s)) (loc_path (fs_cwd s)) target) _ (fo_ns _ _ _ _ Hok2)) as [(ns' & Hu & Hns')|Hu].
    2:{ unfold lift, wp_res, wp. rewrite Hu. by exists s, ns. }
    eapply lift_rule; [done|]. wp_step. eapply put_namespace_rule; [done|done|]. intros w3 Hok3. wp_step. unfold rebind_fs_context_after_move.
    wp_step. eapply context_rule; [apply (fo_context _ _ _ _ Hok3)|]. unfold put_context. wp_run. eexists _, ns'.
    apply fs_ok_context; [done|apply remap_normalized|apply remap_normalized].
  - wp_step. eapply wp_res_mono; [by eapply lookup_node_rule|cbv beta|intros e w1 ?; by eapply world_ok_looked]. intros n w1 (Hl & b & ops & Hr).
    pose proof (looked_fs_ok _ _ _ _ _ Hok Hl) as Hok1. wp_step.
    pose proof (λ t bind, mount_choice_rule fs s ns w1 source fstype t bind Hok1) as Hc. case_decide.
    + eapply wp_res_mono; [exact (Hc [] true)|cbv beta|intros e w2 ?; by exists s, ns]. intros m w2 (Hok2 & Hm2 & Hk2).
      eapply mount_end_rule; [done|done|apply Hk2, Hr].
    + eapply wp_res_mono; [exact (Hc _ false)|cbv beta|intros e w2 ?; by exists s, ns]. intros m w2 (Hok2 & Hm2 & Hk2).
      eapply mount_end_rule; [done|done|apply Hk2, Hr].
Qed.

Lemma pivot_root_rule fs s ns w new_root put_old :
  fs_ok fs s ns w → wp_res (pivot_root_in fs new_root put_old) w (λ _ w', world_ok fs w') (λ _ w', world_ok fs w').
Proof.
  intros Hok. pose proof Hok as [Hwf Hctx _ Hns _ _]. assert (world_ok fs w) as Hw0 by (by exists s, ns).
  unfold pivot_root_in. wp_step. eapply view_path_rule; [done|]. wp_step. eapply view_path_rule; [done|].
  set (nr := resolve_view_path _ _ new_root). set (po := resolve_view_path _ _ put_old). destruct (_ || _); [by wp_run|].
  wp_step. eapply namespace_of_rule; [done|]. wp_step.
  eapply wp_res_mono; [by eapply lookup_path_rule|cbv beta|intros e w1 [? _]; by eapply world_ok_looked]. intros n w1 (Hl & b & ops & p & _ & Hr).
  pose proof (looked_fs_ok _ _ _ _ _ Hok Hl) as Hok1. pose proof Hok1 as [Hwf1 _ _ Hns1 _ _]. wp_step.
  eapply expect_directory_rule; [done|done| |intros _; by exists s, ns]. intros _ _ _ _.
  destruct (root_mount_ok _ _ Hns1) as (m0 & Hm0 & Hn0). wp_step. eapply lift_rule; [done|]. wp_step.
  eapply wp_res_mono; [by eapply ensure_dir_rule|cbv beta|intros e w2 Hg; by eapply world_ok_grows]. intros x w2 [Hg _].
  pose proof (grows_ok _ _ _ _ _ Hok1 Hg) as Hok2. pose proof (grows_keeps _ _ _ _ _ Hok1 Hg) as Hk.
  assert (ns_wf (w_heap w2) (mount po m0 ns)) as Hnsm by (apply push_wf; [apply (fo_ns _ _ _ _ Hok2)|by apply Hk]).
  destruct (lookup_mount_ok _ _ nr Hnsm) as (m & Hm & Hmn). wp_step. eapply lift_rule; [done|]. wp_step.
  eapply (wp_res_mono _ _ (λ m w3, fs_ok fs s ns w3 ∧ ns_wf (w_heap w3) (mount po m0 ns) ∧ is_Some (nodes (w_heap w3) !! mn_node m)) _ (λ _ _, False)); [|cbv beta|done].
  - destruct m as [m|]; [wp_run; split; [done|]; split; [done|by apply Hmn]|]. wp_step. eapply device_id_rule; [done|]. intros w3 Hok3 Hh.
    destruct (covering_ok _ _ nr Hnsm) as [c Hc]. wp_step. eapply lift_rule; [done|]. wp_run. split; [done|]. rewrite Hh. split; [done|]. simpl.
    apply Hk, Hr.
  - intros m' w3 (Hok3 & Hns3 & Hm3). wp_step. eapply (put_namespace_rule fs s ns); [done|by apply push_wf|]. intros w4 Hok4.
    wp_step. eapply namespace_of_rule; [done|]. wp_step. pose proof Hok4 as [Hwf4 _ _ Hns4 _ _].
    eapply wp_res_mono; [apply (root_node_rule (w_heap w4)); try done; apply extends_refl|cbv beta|done]. intros root w5 (Hl5 & _).
    pose proof (looked_fs_ok _ _ _ _ _ Hok4 Hl5) as Hok5. wp_step. unfold set_root_location. wp_step.
    eapply context_rule; [apply (fo_context _ _ _ _ Hok5)|]. unfold put_context. wp_run.
    assert (normalized SLASH) as Hnorm by (exists []; by split; [constructor|]).
    pose proof (fs_ok_context _ _ _ _ (mkLocation SLASH root) (fs_cwd s) Hok5 Hnorm (fo_cwd _ _ _ _ Hok5)) as Hok6.
    unfold set_cwd_location. wp_run. eapply context_rule; [apply (fo_context _ _ _ _ Hok6)|]. unfold put_context. wp_run. eexists _, _.
    by apply (fs_ok_context _ _ _ _ (mkLocation SLASH root) (mkLocation SLASH root) Hok6).
Qed.
End mounts.

(** ** Sequences of system calls *)

Inductive NameCall :=
| CallLookup (path : str) (follow_final : bool)
| CallMkdir (path : str) (mode : Z)
| CallCreate (path : str) (mode : Z)
| CallSymlink (path target : str)
| CallSocket (path : str) (mode : Z)
| CallLink (old_path new_path : str) (flags : Z)
| CallUnlink (path : str) (flags : Z)
| CallRename (old_path new_path : str)
| CallChdir (path : str)
| CallChroot (path : str)
| CallUmount (target : str)
| CallMount (source : option str) (target : str) (fstype : option str) (flags : Z)
| CallPivotRoot (new_root put_old : str).

Section calls.
Context (filesystems : str → option (MountRequest → MR (NodeRef * LinuxStatFs))).

Definition run_call fs (call : NameCall) : MR unit :=
  match call with
  | CallLookup path follow_final => _ ← lookup_in no_virtual fs path follow_final; mret ()
  | CallMkdir path mode => _ ← mkdir_in fs path mode; mret ()
  | CallCreate path mode => _ ← create_file_in fs path mode; mret ()
  | CallSymlink path target => _ ← create_symlink_in fs path target; mret ()
  | CallSocket path mode => _ ← bind_socket_in fs path mode; mret ()
  | CallLink old_path new_path flags => _ ← link_in fs old_path new_path flags; mret ()
  | CallUnlink path flags => _ ← unlink_in fs path flags; mret ()
  | CallRename old_path new_path => _ ← rename_in fs old_path new_path; mret ()
  | CallChdir path => _ ← chdir_in fs path; mret ()
  | CallChroot path => _ ← chroot_in fs path; mret ()
  | CallUmount target => _ ← umount_in fs target; mret ()
  | CallMount source target fstype flags => _ ← mount_in no_virtual filesystems fs source target fstype flags; mret ()
  | CallPivotRoot new_root put_old => _ ← pivot_root_in fs new_root put_old; mret ()
  end.

(** A call returns or fails; the next one starts in the world it leaves. *)
Inductive reaches fs : world → world → Prop :=
| reaches_refl w : reaches fs w w
| reaches_step w call r w1 w2 : run_call fs call w = (r, w1) → (∃ a, r = Ok a) ∨ (∃ e, r = Err e) → reaches fs w1 w2 → reaches fs w w2.
End calls.

(** Dropping the result of a call. *)
Lemma ignore_rule {A} (m : MR A) w (Q Qe : world → Prop) :
  wp_res m w (λ _ w', Q w') (λ _ w', Qe w') → wp_res (_ ← m; mret ()) w (λ _ w', Q w') (λ _ w', Qe w').
Proof. intros Hm. wp_step. eapply wp_res_mono; [exact Hm|intros a w' HQ; by wp_run|done]. Qed.

Lemma link_ok_rule fs s ns w old new flags :
  fs_ok fs s ns w → wp_res (link_in fs old new flags) w (λ _ w', world_ok fs w') (λ _ w', world_ok fs w').
Proof.
  intros Hok. assert (world_ok fs w) as Hw by (by exists s, ns).
  destruct (decide (Z.ldiff flags (Z.lor AT_SYMLINK_FOLLOW AT_EMPTY_PATH) ≠ 0)) as [Hf|Hf]; [unfold link_in; rewrite decide_True by done; by wp_run|].
  destruct (decide (old = [] ∨ new = [])) as [Ho|Ho]; [unfold link_in; rewrite decide_False, decide_True by done; by wp_run|].
  destruct (decide (Z.land flags AT_EMPTY_PATH ≠ 0)) as [He|He]; [unfold link_in; rewrite !decide_False, decide_True by done; by wp_run|].
  eapply wp_res_mono; [apply (link_rule fs s ns w old new flags Hok); [split; lia|tauto|tauto]|cbv beta|].
  - intros _ w' (_ & peer & T & _ & _ & _ & _ & Hch & _). by eapply world_ok_changes.
  - intros e w' [_ Hl]. by eapply world_ok_looked.
Qed.

Lemma call_rule filesystems fs call w :
  mounts_ok_fs filesystems → world_ok fs w →
  wp_res (run_call filesystems fs call) w (λ _ w', world_ok fs w') (λ _ w', world_ok fs w').
Proof.
  intros Hfs (s & ns & Hok). assert (∀ w', grows w w' → world_ok fs w') as Hg by (intros; by eapply world_ok_grows).
  assert (∀ w', looked w w' → world_ok fs w') as Hl by (intros; by eapply world_ok_looked).
  assert (∀ w' T, wchanges w w' T → world_ok fs w') as Hc by (intros; by eapply world_ok_changes).
  destruct call as [path follow|path mode|path mode|path target|path mode|old new flags|path flags|old new|path|path|target|source target fstype flags|nr po];
    cbn [run_call]; apply ignore_rule.
  - eapply wp_res_mono; [by eapply lookup_in_rule|auto|auto].
  - eapply wp_res_mono; [by eapply mkdir_rule|auto|auto].
  - eapply wp_res_mono; [by eapply create_file_rule|auto|auto].
  - eapply wp_res_mono; [by eapply (create_rule fs s ns w), create_symlink_creates|cbv beta|by intros e w' [_ ?]; auto].
    intros _ w' (_ & c & T & _ & Hch). eauto.
  - eapply wp_res_mono; [by eapply (create_rule fs s ns w), create_socket_creates|cbv beta|by intros e w' [_ ?]; auto].
    intros _ w' (_ & c & T & _ & Hch). eauto.
  - by eapply link_ok_rule.
  - eapply wp_res_mono; [by eapply unlink_rule|cbv beta|by intros e w' [_ ?]; auto]. intros _ w' (_ & T & _ & Hch). eauto.
  - eapply wp_res_mono; [by eapply rename_rule|cbv beta|auto]. intros _ w' [?|(T & _ & Hch)]; eauto.
  - by eapply chdir_rule.
  - by eapply chroot_rule.
  - by eapply umount_rule.
  - by eapply mount_rule.
  - by eapply pivot_root_rule.
Qed.

Lemma reaches_ok filesystems fs w w' : mounts_ok_fs filesystems → reaches filesystems fs w w' → world_ok fs w → world_ok fs w'.
Proof.
  intros Hfs. induction 1 as [|w call r w1 w2 Hrun Hr _ IH]; [done|]. intros Hok. apply IH. pose proof (call_rule filesystems fs call w Hfs Hok) as H.
  unfold wp_res, wp in H. rewrite Hrun in H. by destruct Hr as [[a ->]|[e ->]].
Qed.
