(* ===== verification/RootfsTheorems.v ===== *)
(** * The root file system: theorems

    Path lookup, the system calls on names, and their invariants, with
    witnesses on a small file system. *)

From Stdlib Require Import Ascii String.
From S2P Require Import Prelude Poll Errno Path MemFile Node NodeProof LinkProof Namespace Rootfs LookupProof RootfsProof RootfsCalls.

Open Scope list_scope.

Implicit Types (ns : MountNamespace) (w : world) (fs : Z) (path : str).

(** ** A small file system *)

Definition demo_heap : heap :=
  mkHeap {[0 := Inode_new (DirectoryNode SLASH (metadata_directory 0x41ed 1) ∅)]} 1 2 ∅ 0.
Definition demo_ns : MountNamespace := MountNamespace_new (MountedNode_new 0 1 (LinuxStatFs_new RAMFS_MAGIC DEFAULT_BLOCK_SIZE DEFAULT_NAME_LEN)).
Definition demo_state : ProcessFsState := mkFsState 0 (mkLocation SLASH 0) (mkLocation SLASH 0).
Definition demo_world : world := mkRootfs demo_heap {[0 := demo_ns]} {[0 := demo_state]} 1 2 [].
Definition demo_filesystems (name : str) : option FileSystem := registry_get name (registry_register (lit "tmpfs") TmpFs_mount filesystems_new).

Lemma demo_ok : fs_ok 0 demo_state demo_ns demo_world.
Proof.
  assert (∀ n i, nodes demo_heap !! n = Some i → n = 0 ∧ i = Inode_new (DirectoryNode SLASH (metadata_directory 0x41ed 1) ∅)) as Hn.
  { intros n i. simpl. by intros [<- <-]%lookup_singleton_Some. }
  split; simpl; try done; [| |exists []; by split; [constructor|]..].
  - split; simpl.
    + intros n [i [-> ->]%Hn]. lia.
    + lia.
    + by intros n i b dev [-> ->]%Hn.
    + intros d i nm meta es name c [-> ->]%Hn [= _ _ <-]. by rewrite lookup_empty.
    + by intros n i nm k meta o [-> ->]%Hn.
    + intros o [x Hx]. by rewrite lookup_empty in Hx.
  - split; simpl.
    + done.
    + intros m ->%list_elem_of_singleton. by eexists.
    + intros p st m. by rewrite lookup_empty.
Qed.

Lemma demo_links : links_ok (tree demo_heap).
Proof.
  split.
  { intros d name c. unfold entry, tree. rewrite lookup_omap. simpl.
    destruct ({[0 := Inode_new (DirectoryNode SLASH (metadata_directory 0x41ed 1) ∅)]} !! d) as [i|] eqn:Hd; [|done].
    apply lookup_singleton_Some in Hd as [<- <-]. simpl. by rewrite lookup_empty. }
  intros n k. unfold nlink, tree. rewrite lookup_omap. simpl.
  destruct ({[0 := Inode_new (DirectoryNode SLASH (metadata_directory 0x41ed 1) ∅)]} !! n) as [i|] eqn:Hn; [|done].
  apply lookup_singleton_Some in Hn as [<- <-]. done.
Qed.

Lemma tmpfs_mounts_ok : mounts_ok_fs demo_filesystems.
Proof.
  intros name f request fs s ns w. unfold demo_filesystems, registry_get, registry_register.
  intros [[<- <-]|[_ Hx]]%lookup_insert_Some Hok; [|unfold filesystems_new in Hx; by rewrite lookup_empty in Hx]. pose proof Hok as [Hwf _ _ _ _ _]. unfold TmpFs_mount. wp_step.
  eapply wp_res_mono; [apply on_heap_rule|cbv beta|].
  - unfold DirectoryNode_new_with_mode. wp_step. apply (take_inode_rule (w_heap w)); [done|]. intros h' Hch Hf.
    apply (made_rule (is_new_dir 0x43ff) (w_heap w)); [done|done|done|]. by exists (rq_target_name request), (next_inode (w_heap w)), 0.
  - intros n w' [Hm Hw']. wp_run. split; [by eapply made_dir_grows|]. destruct Hm as (o & _ & _ & _ & (Hwf' & HT & _)).
    apply (tree_refers _ _ o). by rewrite HT, lookup_insert_eq.
  - instantiate (1 := λ _ _, False). by intros e w' (? & _ & [] & _).
Qed.

Definition demo_dir : world := (mkdir_in 0 (lit "/a") 0x41ed demo_world).2.
Definition demo_tree : world := (create_symlink_in 0 (lit "/a/l") (lit "/b") demo_dir).2.

Lemma demo_dir_grows : grows demo_world demo_dir.
Proof.
  pose proof (mkdir_rule _ _ _ _ (lit "/a") 0x41ed demo_ok) as H. unfold demo_dir, wp_res, wp in *.
  by destruct (mkdir_in 0 (lit "/a") 0x41ed demo_world) as [[| | |] w'].
Qed.

Lemma demo_dir_ok : fs_ok 0 demo_state demo_ns demo_dir.
Proof. eapply grows_ok; [exact demo_ok|exact demo_dir_grows]. Qed.

Lemma demo_tree_created :
  ∃ c T, created (w_heap demo_dir) demo_ns (target_of demo_state (lit "/a/l")) (is_new_symlink (lit "/b") 0xa1ff) c T ∧ wchanges demo_dir demo_tree T.
Proof.
  pose proof (create_rule _ _ _ _ (lit "/a/l") _ _ demo_dir_ok (create_symlink_creates (lit "/b") 0xa1ff)) as H.
  assert ((create_symlink_in 0 (lit "/a/l") (lit "/b") demo_dir).1 = Ok 0) as Hr by (vm_compute; reflexivity).
  unfold demo_tree. revert H Hr. unfold create_symlink_in, wp_res, wp.
  match goal with |- context [(?m demo_dir).1] => destruct (m demo_dir) as [[r|e| |] w'] end; cbn [fst snd]; try done.
  intros (_ & c & T & H) _. exists c, T. exact H.
Qed.

Lemma demo_tree_ok : fs_ok 0 demo_state demo_ns demo_tree.
Proof. destruct demo_tree_created as (c & T & _ & Hch). eapply fs_ok_changes; [exact demo_dir_ok|exact Hch]. Qed.

Lemma demo_tree_links : links_ok (tree (w_heap demo_tree)).
Proof.
  destruct demo_tree_created as (c & T & Hc & Hch). eapply created_links; [exact demo_dir_ok|exact Hc|exact Hch|apply born_symlink|].
  destruct demo_dir_grows as (_ & _ & Hl). apply Hl. exact demo_links.
Qed.

(** ** Claims *)

(** C17. System calls on names never panic and never loop: in every world reached
    from a well-formed one by lookups, creations, links, removals, renames,
    changes of directory or root, mounts and unmounts, every further call
    returns or fails with an error, and the world is well formed again (every
    reference points to a node, wrappers do not form cycles, files have their
    objects, the namespace has a root and its mounts their nodes, the root and
    working directory are normalized paths). *)
Theorem name_calls_total filesystems fs w w' call :
  mounts_ok_fs filesystems → world_ok fs w → reaches filesystems fs w w' →
  match run_call filesystems fs call w' with
  | (Ok _, w'') | (Err _, w'') => world_ok fs w''
  | (Panic, _) | (Diverge, _) => False
  end.
Proof.
  intros Hfs Hok Hr. pose proof (call_rule filesystems fs call w' Hfs (reaches_ok _ _ _ _ Hfs Hr Hok)) as H. unfold wp_res, wp in H.
  by destruct (run_call filesystems fs call w') as [[| | |] w''].
Qed.

Lemma name_calls_total_witness :
  (run_call demo_filesystems 0 (CallMount None (lit "/a") (Some (lit "tmpfs")) 0) demo_dir).1 = Ok () ∧
  world_ok 0 (run_call demo_filesystems 0 (CallMount None (lit "/a") (Some (lit "tmpfs")) 0) demo_dir).2.
Proof.
  assert ((run_call demo_filesystems 0 (CallMount None (lit "/a") (Some (lit "tmpfs")) 0) demo_dir).1 = Ok ()) as Hr by (vm_compute; reflexivity).
  split; [exact Hr|].
  assert (reaches demo_filesystems 0 demo_world demo_dir) as Hreach.
  { apply (reaches_step _ _ _ (CallMkdir (lit "/a") 0x41ed) (Ok ()) demo_dir); [|left; by exists ()|apply reaches_refl].
    cbn [run_call]. unfold demo_dir. unfold mbind at 1, M_bind.
    assert ((mkdir_in 0 (lit "/a") 0x41ed demo_world).1 = Ok 0) as Hd by (vm_compute; reflexivity).
    destruct (mkdir_in 0 (lit "/a") 0x41ed demo_world) as [r w']. cbn [fst] in Hd. subst r. reflexivity. }
  pose proof (name_calls_total demo_filesystems 0 demo_world demo_dir (CallMount None (lit "/a") (Some (lit "tmpfs")) 0) tmpfs_mounts_ok
    (ex_intro _ demo_state (ex_intro _ demo_ns demo_ok)) Hreach) as H.
  destruct (run_call demo_filesystems 0 (CallMount None (lit "/a") (Some (lit "tmpfs")) 0) demo_dir) as [r w']. cbn [fst] in Hr. subst r. exact H.
Defined.

(** C18. The lookup of the code, which allocates a wrapper for every node that
    it passes, computes a function of the directory tree and the mounts: it
    finds the same node and path or fails with the same error, never panics,
    and terminates after at most eight symbolic links; nothing but wrappers is
    added. *)
Theorem namespace_lookup_correct fs s ns w path follow :
  fs_ok fs s ns w →
  match lookup_namespace_entry MAX_LINKS ns path follow w with
  | (Ok l, w') => ∃ b ops, plookup MAX_LINKS (w_heap w) ns path follow = Ok ((b, ops), lk_path l) ∧
      refers (w_heap w') (lk_node l) b ops ∧ tree (w_heap w) !! b = Some ops ∧ normalized (lk_path l) ∧ looked w w'
  | (Err e, w') => plookup MAX_LINKS (w_heap w) ns path follow = Err e ∧ looked w w'
  | _ => False
  end.
Proof.
  intros Hok. pose proof Hok as [Hwf _ _ Hns _ _]. pose proof (lookup_rule MAX_LINKS (w_heap w) ns path follow w Hwf Hns Hwf (extends_refl _)) as H.
  unfold wp_res, wp in H. destruct (lookup_namespace_entry _ _ _ _ w) as [[l|e| |] w']; cbn [fst snd] in H; try done.
  - destruct H as (Hl & b & ops & Hp & Hr). exists b, ops. split_and!; try done; [by eapply plookup_tree|by eapply plookup_normalized|apply Hl..].
  - destruct H as [Hl Hp]. by split.
Qed.

Lemma namespace_lookup_correct_witness :
  (λ l, lk_path l) <$> (match (lookup_namespace_entry MAX_LINKS demo_ns (lit "/a/./l") false demo_tree).1 with Ok l => Some l | _ => None end) = Some (lit "/a/l") ∧
  ∃ b ops, tree (w_heap demo_tree) !! b = Some ops ∧ ops_target ops = Some (lit "/b").
Proof.
  split; [vm_compute; reflexivity|].
  pose proof (namespace_lookup_correct 0 demo_state demo_ns demo_tree (lit "/a/l") false demo_tree_ok) as H.
  assert (match plookup MAX_LINKS (w_heap demo_tree) demo_ns (lit "/a/l") false with Ok ((_, ops), _) => ops_target ops | _ => None end = Some (lit "/b")) as Ht
    by (vm_compute; reflexivity).
  destruct (lookup_namespace_entry MAX_LINKS demo_ns (lit "/a/l") false demo_tree) as [[l|e| |] w']; [| |destruct H|destruct H].
  - destruct H as (b & ops & Hp & _ & Hb & _). rewrite Hp in Ht. exists b, ops. split; [exact Hb|exact Ht].
  - destruct H as [Hp _]. rewrite Hp in Ht. discriminate Ht.
Defined.

(** The code's result, by cases on the specification. *)
Lemma lookup_determined fs s ns w path follow :
  fs_ok fs s ns w →
  match plookup MAX_LINKS (w_heap w) ns path follow with
  | Ok ((b, ops), p) => ∃ l w', lookup_namespace_entry MAX_LINKS ns path follow w = (Ok l, w') ∧ lk_path l = p ∧ base (w_heap w') (lk_node l) = Some (b, ops)
  | Err e => ∃ w', lookup_namespace_entry MAX_LINKS ns path follow w = (Err e, w')
  | _ => False
  end.
Proof.
  intros [Hwf _ _ Hns _ _]. pose proof (lookup_rule MAX_LINKS (w_heap w) ns path follow w Hwf Hns Hwf (extends_refl _)) as H.
  unfold wp_res, wp in H. destruct (lookup_namespace_entry _ _ _ _ w) as [[l|e| |] w']; cbn [fst snd] in H; try done.
  - destruct H as (_ & b & ops & -> & _ & Hb). by exists l, w'.
  - destruct H as [_ ->]. by exists w'.
Qed.

(** A name in a directory: looking up [dir/name], without following a final
    link, finds what is mounted at that path of the directory that [dir]
    leads to (through symbolic links), else the entry [name] of that
    directory, else fails with [NoEnt]; when [dir] cannot be resolved it fails
    in the same way. *)
Theorem lookup_in_directory fs s ns w cs c :
  fs_ok fs s ns w → components_ok cs → component_ok c →
  match lookup_namespace_entry MAX_LINKS ns (render cs) true w, lookup_namespace_entry MAX_LINKS ns (render (cs ++ [c])) false w with
  | (Ok l, _), (r, w') =>
      ∃ d ops, base (w_heap w) d = Some (d, ops) ∧ plookup MAX_LINKS (w_heap w) ns (render cs) true = Ok ((d, ops), lk_path l) ∧
        match lookup_mount (resolve_namespace_path (lk_path l) c) ns, ops_entries ops !! c with
        | Ok (Some m), _ => ∃ l', r = Ok l' ∧ base (w_heap w') (lk_node l') = base (w_heap w) (mn_node m)
        | Ok None, Some e => ∃ l', r = Ok l' ∧ base (w_heap w') (lk_node l') = base (w_heap w) e
        | Ok None, None => r = Err SysErr.NoEnt
        | _, _ => False
        end
  | (Err e, _), (r, _) => r = Err e
  | _, _ => False
  end.
Proof.
  intros Hok Hcs Hc. pose proof Hok as [Hwf _ _ Hns _ _]. pose proof (plookup_child MAX_LINKS (w_heap w) ns cs c Hcs Hc) as Hch.
  pose proof (lookup_determined fs s ns w (render cs) true Hok) as H1. pose proof (lookup_determined fs s ns w (render (cs ++ [c])) false Hok) as H2.
  rewrite Hch in H2. destruct (plookup MAX_LINKS (w_heap w) ns (render cs) true) as [[[d ops] p]|e| |] eqn:Hp; try done; unfold entry_below in H2; cbn [mbind outcome_bind] in H2.
  2:{ destruct H1 as [w1 ->], H2 as [w2 ->]. done. }
  destruct H1 as (l & w1 & -> & <- & _). pose proof (plookup_tree _ _ _ _ _ _ _ _ _ Hok Hp) as Ht. destruct (tree_refers _ _ _ Ht) as [_ Hbd].
  destruct (lookup_namespace_entry MAX_LINKS ns (render (cs ++ [c])) false w) as [r w2]. exists d, ops. split; [done|]. split; [done|].
  revert H2. unfold pstep. destruct (lookup_mount_ok _ _ (resolve_namespace_path (lk_path l) c) Hns) as (m & -> & _). cbn [mbind outcome_bind snd].
  destruct m as [m|]; [|destruct (ops_entries ops !! c) as [e|]].
  - unfold mount_place. destruct (base (w_heap w) (mn_node m)) as [[b bops]|]; [|done]. intros (l' & w' & [= -> ->] & _ & Hb). eauto.
  - cbn [ok_or mbind outcome_bind]. destruct (base (w_heap w) e) as [[b bops]|]; [|done]. intros (l' & w' & [= -> ->] & _ & Hb). eauto.
  - cbn [ok_or mbind outcome_bind]. by intros (w' & [= -> ->]).
Qed.

Lemma lookup_in_directory_witness :
  (match (lookup_namespace_entry MAX_LINKS demo_ns (lit "/a/x") false demo_tree).1 with Err e => Some e | _ => None end) = Some SysErr.NoEnt ∧
  ∃ l w', lookup_namespace_entry MAX_LINKS demo_ns (lit "/a") true demo_tree = (Ok l, w').
Proof.
  split; [vm_compute; reflexivity|].
  pose proof (lookup_in_directory 0 demo_state demo_ns demo_tree [lit "a"] (lit "x") demo_tree_ok ltac:(solve_components)
    ltac:(assert (components_ok [lit "x"]) as Hx by solve_components; by apply Forall_cons in Hx as [Hx _])) as H.
  assert (match (lookup_namespace_entry MAX_LINKS demo_ns (lit "/a") true demo_tree).1 with Ok _ => true | _ => false end = true) as Hr by (vm_compute; reflexivity).
  change (render [lit "a"]) with (lit "/a") in H.
  destruct (lookup_namespace_entry MAX_LINKS demo_ns (lit "/a") true demo_tree) as [[l|e| |] w']; cbn [fst] in Hr; [|discriminate Hr..].
  exists l, w'. reflexivity.
Defined.

(** Removal: when [unlink] succeeds, the name is gone (a lookup without
    following a final link fails with [NoEnt], unless a mount hides it), what
    was removed is of the kind that the flag asks for and a directory was
    empty, every other lookup finds what it found or fails with [NoEnt], and no
    other node changed but the link count of the one removed; when it fails,
    the tree is as before and the error names the cause. *)
Theorem unlink_in_correct fs s ns w path flags :
  fs_ok fs s ns w →
  let P := target_of s path in
  let rd := bool_decide (Z.land flags AT_REMOVEDIR ≠ 0) in
  match unlink_in fs path flags w with
  | (Ok _, w') =>
      fs_ok fs s ns w' ∧ removed (w_heap w) ns P rd (tree (w_heap w')) ∧
      (∀ d nm meta es p, parent_is (w_heap w) ns P d nm meta es p → lookup_mount (resolve_namespace_path p (leaf_name P)) ns = Ok None →
         plookup MAX_LINKS (w_heap w') ns P false = Err SysErr.NoEnt) ∧
      (∀ q follow, prefix_result (plookup MAX_LINKS (w_heap w) ns q follow) (plookup MAX_LINKS (w_heap w') ns q follow))
  | (Err e, w') => unlink_error (w_heap w) ns P rd e ∧ tree (w_heap w') = tree (w_heap w)
  | _ => False
  end.
Proof.
  intros Hok P rd. pose proof (unlink_rule fs s ns w path flags Hok) as H. cbn zeta in H. unfold wp_res, wp in H.
  destruct (unlink_in fs path flags w) as [[r|e| |] w']; cbn [fst snd] in H; try done.
  - destruct H as (Hs & T & Hrem & Hch). pose proof Hch as ((_ & HT & _) & _). split; [by eapply fs_ok_changes|]. split; [by rewrite HT|]. split.
    + intros d nm meta es p. by eapply removed_gone.
    + intros q follow. by eapply removed_prefix.
  - destruct H as [He Hl]. split; [done|by apply looked_tree].
Qed.

Lemma unlink_in_correct_witness :
  (unlink_in 0 (lit "/a/l") 0 demo_tree).1 = Ok 0 ∧
  ∃ w', fs_ok 0 demo_state demo_ns w' ∧ plookup MAX_LINKS (w_heap w') demo_ns (lit "/a/l") false = Err SysErr.NoEnt.
Proof.
  split; [vm_compute; reflexivity|]. pose proof (unlink_in_correct 0 demo_state demo_ns demo_tree (lit "/a/l") 0 demo_tree_ok) as H. cbn zeta in H.
  assert ((unlink_in 0 (lit "/a/l") 0 demo_tree).1 = Ok 0) as Hr by (vm_compute; reflexivity).
  destruct (unlink_in 0 (lit "/a/l") 0 demo_tree) as [r w']. cbn [fst] in Hr. subst r. destruct H as (Hok & (d & nm & meta & es & p & c & cb & cops & Hpar & _) & Hg & _).
  exists w'. split; [exact Hok|]. refine (Hg d nm meta es p Hpar _).
  assert (p = lit "/a") as -> by (unfold parent_is in Hpar; vm_compute in Hpar; injection Hpar as _ _ _ _ <-; reflexivity). vm_compute. reflexivity.
Defined.

(** Creation of a symbolic link: afterwards every lookup that succeeded
    finds the same node, and the new name, not followed, leads to a new link
    with the given target; it fails, leaving the tree as it was, when the name
    exists, is a mount point or the root, or its directory cannot be found. *)
Theorem create_symlink_in_correct fs s ns w path target :
  fs_ok fs s ns w →
  let P := target_of s path in
  match create_symlink_in fs path target w with
  | (Ok _, w') =>
      fs_ok fs s ns w' ∧
      (∀ d nm meta es p, parent_is (w_heap w) ns P d nm meta es p → lookup_mount (resolve_namespace_path p (leaf_name P)) ns = Ok None →
         ∃ c ops q, tree (w_heap w) !! c = None ∧ plookup MAX_LINKS (w_heap w') ns P false = Ok ((c, ops), q) ∧ ops_target ops = Some target) ∧
      (∀ q follow b ops p, plookup MAX_LINKS (w_heap w) ns q follow = Ok ((b, ops), p) →
         ∃ ops', plookup MAX_LINKS (w_heap w') ns q follow = Ok ((b, ops'), p) ∧ sub_ops ops ops')
  | (Err e, w') => create_error (w_heap w) ns P e ∧ tree (w_heap w') = tree (w_heap w)
  | _ => False
  end.
Proof.
  intros Hok P. pose proof (create_rule fs s ns w path _ _ Hok (create_symlink_creates target 0xa1ff)) as H. cbn zeta in H. unfold create_symlink_in.
  unfold wp_res, wp in H. match type of H with context [(?m w).1] => destruct (m w) as [[r|e| |] w'] end; cbn [fst snd] in H; try done.
  - destruct H as (Hs & c & T & Hc & Hch). split; [by eapply fs_ok_changes|]. split.
    + intros d nm meta es p Hpar Hm. destruct (created_found _ _ _ _ _ _ _ _ _ Hok Hs Hc Hch _ _ _ _ _ Hpar Hm) as (ops & HK & Hl).
      exists c, ops. eexists. destruct Hc as (? & ? & ? & ? & ? & ? & _ & _ & _ & Hnew & _). split; [done|]. split; [done|]. by destruct HK as (? & ? & ->).
    + intros q follow b ops p. by eapply created_grow.
  - destruct H as [He Hl]. split; [done|by apply looked_tree].
Qed.

Lemma create_symlink_in_correct_witness :
  (create_symlink_in 0 (lit "/a/l") (lit "/b") demo_dir).1 = Ok 0 ∧
  ∃ c ops q, plookup MAX_LINKS (w_heap demo_tree) demo_ns (lit "/a/l") false = Ok ((c, ops), q) ∧ ops_target ops = Some (lit "/b").
Proof.
  split; [vm_compute; reflexivity|]. pose proof (create_symlink_in_correct 0 demo_state demo_ns demo_dir (lit "/a/l") (lit "/b") demo_dir_ok) as H. cbn zeta in H.
  assert ((create_symlink_in 0 (lit "/a/l") (lit "/b") demo_dir).1 = Ok 0) as Hr by (vm_compute; reflexivity).
  unfold demo_tree. destruct (create_symlink_in 0 (lit "/a/l") (lit "/b") demo_dir) as [r w']. cbn [fst] in Hr. subst r. destruct H as (_ & Hf & _).
  assert (∃ d nm meta es, parent_is (w_heap demo_dir) demo_ns (target_of demo_state (lit "/a/l")) d nm meta es (lit "/a")) as (d & nm & meta & es & Hpar).
  { unfold parent_is. vm_compute. eexists _, _, _, _. reflexivity. }
  destruct (Hf d nm meta es (lit "/a") Hpar ltac:(vm_compute; reflexivity)) as (c & ops & q & _ & Hl & Ht). exists c, ops, q. split; [exact Hl|exact Ht].
Defined.

(** Hard links: afterwards both names lead to the same node, every lookup
    that succeeded finds the same node, and a node other than a directory has
    got one name more; directories, other devices and existing names are
    refused with their errors and leave the tree as it was. *)
Theorem link_in_correct fs s ns w old_path new_path flags :
  fs_ok fs s ns w → link_flags_ok flags → old_path ≠ [] → new_path ≠ [] →
  let O := target_of s old_path in
  let P := target_of s new_path in
  let follow := bool_decide (Z.land flags AT_SYMLINK_FOLLOW ≠ 0) in
  match link_in fs old_path new_path flags w with
  | (Ok _, w') =>
      fs_ok fs s ns w' ∧
      (∃ peer, linked (w_heap w) ns O P follow peer (tree (w_heap w'))) ∧
      (∀ d nm meta es p, parent_is (w_heap w) ns P d nm meta es p → lookup_mount (resolve_namespace_path p (leaf_name P)) ns = Ok None →
         ∃ b ops p1 p2, plookup MAX_LINKS (w_heap w') ns P false = Ok ((b, ops), p1) ∧
           plookup MAX_LINKS (w_heap w') ns O follow = Ok ((b, ops), p2) ∧ ops_kind ops ≠ Directory) ∧
      (∀ q f b ops p, plookup MAX_LINKS (w_heap w) ns q f = Ok ((b, ops), p) →
         ∃ ops', plookup MAX_LINKS (w_heap w') ns q f = Ok ((b, ops'), p) ∧ sub_ops ops ops')
  | (Err e, w') => link_error (w_heap w) ns O P follow e ∧ tree (w_heap w') = tree (w_heap w)
  | _ => False
  end.
Proof.
  intros Hok Hf Ho Hn. cbn zeta. pose proof (link_rule fs s ns w old_path new_path flags Hok Hf Ho Hn) as H. cbn zeta in H. unfold wp_res, wp in H.
  destruct (link_in fs old_path new_path flags w) as [[r|e| |] w']; cbn [fst snd] in H; try done.
  - destruct H as (Hs & peer & T & cb & cops & sp & Hlk & Hch & HO & Hpeer & _). pose proof Hch as ((_ & HT & _) & _). split; [by eapply fs_ok_changes|].
    split; [exists peer; by rewrite HT|]. split.
    + intros d nm meta es p Hpar Hm. destruct (linked_found _ _ _ _ _ _ _ _ _ _ _ _ _ Hok Hs Hlk Hch HO Hpeer _ _ _ _ _ Hpar Hm) as (ops & H1 & H2).
      eexists cb, ops, _, sp. split; [done|]. split; [done|]. destruct (linked_grow _ _ _ _ _ _ _ _ _ _ Hok Hlk Hch _ _ _ _ _ HO) as (ops' & H2' & Hk & _).
      rewrite H2 in H2'. injection H2' as <-. rewrite <-Hk. destruct Hlk as (cb' & cops' & sp' & ? & ? & ? & ? & ? & HO' & Hnd & _).
      rewrite HO in HO'. by injection HO' as <- <- <-.
    + intros q f b ops p. by eapply linked_grow.
  - destruct H as [He Hl]. split; [done|by apply looked_tree].
Qed.

Lemma link_in_correct_witness :
  (link_in 0 (lit "/a/l") (lit "/k") 0 demo_tree).1 = Ok 0 ∧
  ∃ w' b ops p1 p2, plookup MAX_LINKS (w_heap w') demo_ns (lit "/k") false = Ok ((b, ops), p1) ∧
    plookup MAX_LINKS (w_heap w') demo_ns (lit "/a/l") false = Ok ((b, ops), p2).
Proof.
  split; [vm_compute; reflexivity|].
  pose proof (link_in_correct 0 demo_state demo_ns demo_tree (lit "/a/l") (lit "/k") 0 demo_tree_ok ltac:(by vm_compute) ltac:(done) ltac:(done)) as H. cbn zeta in H.
  assert ((link_in 0 (lit "/a/l") (lit "/k") 0 demo_tree).1 = Ok 0) as Hr by (vm_compute; reflexivity).
  destruct (link_in 0 (lit "/a/l") (lit "/k") 0 demo_tree) as [r w']. cbn [fst] in Hr. subst r. destruct H as (_ & _ & Hf & _).
  assert (∃ d nm meta es, parent_is (w_heap demo_tree) demo_ns (target_of demo_state (lit "/k")) d nm meta es (lit "/")) as (d & nm & meta & es & Hpar).
  { unfold parent_is. vm_compute. eexists _, _, _, _. reflexivity. }
  destruct (Hf d nm meta es (lit "/") Hpar ltac:(vm_compute; reflexivity)) as (b & ops & p1 & p2 & H1 & H2 & _).
  exists w', b, ops, p1, p2. split; [exact H1|exact H2].
Defined.

(** C19. Renaming moves one entry: either nothing changes, or the entry of the
    old name is removed from its directory and put under the new name, in
    place of what was there, and every other entry of every directory stays;
    neither node is a directory when one is replaced; a rename that fails
    changes nothing. *)
Theorem rename_in_correct fs s ns w old_path new_path :
  fs_ok fs s ns w →
  let O := target_of s old_path in
  let P := target_of s new_path in
  match rename_in fs old_path new_path w with
  | (Ok _, w') =>
      fs_ok fs s ns w' ∧
      (tree (w_heap w') = tree (w_heap w) ∨
       ∃ d nm meta es dp t tnm tmeta tes tp c,
         parent_is (w_heap w) ns O d nm meta es dp ∧ parent_is (w_heap w) ns P t tnm tmeta tes tp ∧ es !! leaf_name O = Some c ∧
         (∀ d' name', entry (tree (w_heap w')) d' name' =
            if decide ((d', name') = (t, leaf_name P)) then Some c
            else if decide ((d', name') = (d, leaf_name O)) then None else entry (tree (w_heap w)) d' name') ∧
         (∀ r b ops, tes !! leaf_name P = Some r → refers (w_heap w) r b ops → ops_kind ops ≠ Directory))
  | (Err e, w') => tree (w_heap w') = tree (w_heap w)
  | _ => False
  end.
Proof.
  intros Hok O P. pose proof (rename_rule fs s ns w old_path new_path Hok) as H. cbn zeta in H. unfold wp_res, wp in H.
  destruct (rename_in fs old_path new_path w) as [[r|e| |] w']; cbn [fst snd] in H; try done; [|by apply looked_tree].
  destruct H as [Hl|(T & Hmv & Hch)]; [split; [by eapply looked_fs_ok|]; left; by apply looked_tree|].
  split; [by eapply fs_ok_changes|]. right. pose proof Hch as ((_ & HT & _) & _).
  destruct Hmv as (d & nm & meta & es & dp & t & tnm & tmeta & tes & tp & c & cb & cops & Hd & Ht & Hc & _ & Hrep & ->).
  exists d, nm, meta, es, dp, t, tnm, tmeta, tes, tp, c. split_and!; try done.
  - intros d' name'. rewrite HT. apply entry_renamed; by eapply plookup_tree.
  - intros r' b ops Hr' Hb. by apply (Hrep r' b ops).
Qed.

Lemma rename_in_correct_witness :
  (rename_in 0 (lit "/a/l") (lit "/m") demo_tree).1 = Ok 0 ∧ ∃ w', fs_ok 0 demo_state demo_ns w'.
Proof.
  split; [vm_compute; reflexivity|]. pose proof (rename_in_correct 0 demo_state demo_ns demo_tree (lit "/a/l") (lit "/m") demo_tree_ok) as H. cbn zeta in H.
  assert ((rename_in 0 (lit "/a/l") (lit "/m") demo_tree).1 = Ok 0) as Hr by (vm_compute; reflexivity).
  destruct (rename_in 0 (lit "/a/l") (lit "/m") demo_tree) as [r w']. cbn [fst] in Hr. subst r. exists w'. exact (proj1 H).
Defined.

(** ** Link counts *)

(** The calls that change directories. *)
Definition edits_names (call : NameCall) : bool :=
  match call with
  | CallLookup _ _ | CallMkdir _ _ | CallCreate _ _ | CallSymlink _ _ | CallSocket _ _ | CallLink _ _ _ | CallUnlink _ _ | CallRename _ _ => true
  | _ => false
  end.

(** The directory of [P] has no entry of its name. *)
Definition name_free h ns (P : str) : Prop :=
  ∀ d nm meta es p, parent_is h ns P d nm meta es p → es !! leaf_name P = None.

Definition free_target (s : ProcessFsState) h ns (call : NameCall) : Prop :=
  match call with CallRename _ new_path => name_free h ns (target_of s new_path) | _ => True end.

(** The roots of the mounts and all entries are nodes, not wrappers, and every
    count is the number of entries that refer to the node. *)
Definition counted ns w : Prop := plain_mounts (tree (w_heap w)) ns ∧ links_ok (tree (w_heap w)).

(** Every count of a file or symbolic link is the number of the entries that
    lead to it, through however many wrappers. *)
Definition counts_names h : Prop :=
  ∀ n k, nlink (tree h) n = Some k →
    ∃ X : gset (NodeRef * str), (∀ d name, (d, name) ∈ X ↔ ∃ c ops, entry (tree h) d name = Some c ∧ refers h c n ops) ∧ k = Z.of_nat (size X).

Lemma counted_names ns w : counted ns w → counts_names (w_heap w).
Proof.
  intros (_ & Hd & Hc) n k Hk. destruct (Hc n k Hk) as (_ & X & HX & Hs). exists X. split; [|done]. intros d name. rewrite (HX d name). split.
  - intros He. destruct (Hd _ _ _ He) as [ops Ho]. exists n, ops. split; [done|]. by apply tree_refers.
  - intros (c & ops & He & Hr). destruct (Hd _ _ _ He) as [ops' Ho]. destruct (tree_refers _ _ _ Ho) as [_ Hb]. destruct Hr as [_ Hb']. by simplify_eq.
Qed.

Lemma plain_changes ns w w' T : wchanges w w' T → plain_mounts (tree (w_heap w)) ns → plain_mounts (tree (w_heap w')) ns.
Proof.
  intros ((_ & -> & Hr) & _) [H1 H2].
  assert (∀ n, is_Some (tree (w_heap w) !! n) → is_Some (T !! n)) as Hs.
  { intros n [o Ho]. destruct (Hr _ _ _ (tree_refers _ _ _ Ho)) as (o' & Ho' & _). by exists o'. }
  split; [intros m Hm; by apply Hs, H1|intros path stack m Hp Hm; by eapply Hs, H2].
Qed.

Lemma counted_looked ns w w' : counted ns w → looked w w' → counted ns w'.
Proof. intros Hc Hl. unfold counted. by rewrite (looked_tree _ _ Hl). Qed.

Lemma link_counted_rule fs s ns w old new flags :
  fs_ok fs s ns w → counted ns w → (∀ n k, nlink (tree (w_heap w)) n = Some k → k < u32_max) →
  wp_res (link_in fs old new flags) w (λ _ w', counted ns w') (λ _ w', counted ns w').
Proof.
  intros Hok Hw Hmax.
  destruct (decide (Z.ldiff flags (Z.lor AT_SYMLINK_FOLLOW AT_EMPTY_PATH) ≠ 0)) as [Hf|Hf]; [unfold link_in; rewrite decide_True by done; by wp_run|].
  destruct (decide (old = [] ∨ new = [])) as [Ho|Ho]; [unfold link_in; rewrite decide_False, decide_True by done; by wp_run|].
  destruct (decide (Z.land flags AT_EMPTY_PATH ≠ 0)) as [He|He]; [unfold link_in; rewrite !decide_False, decide_True by done; by wp_run|].
  eapply wp_res_mono; [apply (link_rule fs s ns w old new flags Hok); [split; lia|tauto|tauto]|cbv beta|].
  - intros _ w' (Hs & peer & T & cb & cops & sp & Hlk & Hch & HO & Hpeer & Hpl). destruct Hw as (Hpm & Hl).
    split; [by eapply plain_changes|]. eapply linked_links; try done; [apply Hpl; split; [done|apply Hl]|apply Hmax].
  - intros e w' [_ Hl]. by eapply counted_looked.
Qed.

Lemma rename_counted_rule fs s ns w old new :
  fs_ok fs s ns w → counted ns w → name_free (w_heap w) ns (target_of s new) →
  wp_res (rename_in fs old new) w (λ _ w', counted ns w') (λ _ w', counted ns w').
Proof.
  intros Hok Hw Hfree. eapply wp_res_mono; [by eapply rename_rule|cbv beta|intros e w' Hl; by eapply counted_looked].
  intros _ w' [Hl|(T & Hmv & Hch)]; [by eapply counted_looked|]. destruct Hw as (Hpm & Hl). split; [by eapply plain_changes|].
  pose proof Hch as ((_ & HT & _) & _). rewrite HT.
  destruct Hmv as (d & nm & meta & es & dp & t & tnm & tmeta & tes & tp & c & cb & cops & Hd & Ht & Hc & _ & _ & ->).
  apply links_renamed; [by eapply plookup_tree|by eapply plookup_tree|done|done|]. intros r Hr. by rewrite (Hfree _ _ _ _ _ Ht) in Hr.
Qed.

(** Without the assumption on mounts this fails.  [/a] is mounted on [/b] by a
    bind mount and the symbolic link [/a/s] leads to [/d].  A link from [/b/f]
    to [/b/s/k] then stores in [/d] the wrapper of the file that the first
    mount made, and the count of the file stays one with two names. *)
Definition bind_mount_calls : list NameCall :=
  [CallMkdir (lit "/a") 0x1ed; CallMkdir (lit "/b") 0x1ed; CallMkdir (lit "/d") 0x1ed;
   CallCreate (lit "/a/f") 0x1a4; CallSymlink (lit "/a/s") (lit "/d");
   CallMount (Some (lit "/a")) (lit "/b") None MS_BIND; CallLink (lit "/b/f") (lit "/b/s/k") 0].

Definition run_calls (calls : list NameCall) w : world := fold_left (λ w call, (run_call demo_filesystems 0 call w).2) calls w.

Lemma two_names h n k d1 d2 name1 name2 c1 c2 ops1 ops2 :
  counts_names h → nlink (tree h) n = Some k →
  entry (tree h) d1 name1 = Some c1 → refers h c1 n ops1 → entry (tree h) d2 name2 = Some c2 → refers h c2 n ops2 →
  (d1, name1) ≠ (d2, name2) → 2 <= k.
Proof.
  intros H Hk He1 Hr1 He2 Hr2 Hne. destruct (H n k Hk) as (X & HX & ->).
  assert (size ({[(d1, name1); (d2, name2)]} : gset (NodeRef * str)) <= size X)%nat as Hle.
  { apply subseteq_size. intros x Hx. apply elem_of_union in Hx as [Hx|Hx]; apply elem_of_singleton in Hx as ->; apply HX; eauto. }
  rewrite size_union, !size_singleton in Hle by (by apply disjoint_singleton_l, not_elem_of_singleton). lia.
Qed.

Lemma bind_mount_miscounts : ¬ counts_names (w_heap (run_calls bind_mount_calls demo_world)).
Proof.
  intros H. assert (2 <= 1); [|lia].
  eapply (two_names _ 15 1 2 10 (lit "f") (lit "k") 15 31 _ _ H);
    [vm_compute; reflexivity|vm_compute; reflexivity|split; [vm_compute; by eexists|vm_compute; reflexivity]
    |vm_compute; reflexivity|split; [vm_compute; by eexists|vm_compute; reflexivity]|done].
Qed.

(** C20. Link counts are exact in a namespace without bind mounts.  Assume
    that the roots of all mounts are nodes and not wrappers (nothing is mounted
    that was itself found through a mount), that directory entries refer to
    nodes, that the count of every file and symbolic link is the number of
    directory entries that lead to it, and that no count has reached the
    maximum of 32 bits.  Then all this, the maximum apart, still holds after
    every lookup, creation, link and removal, and after every rename to a name
    that does not exist, whether the call succeeds or fails.  Through a bind
    mount it is not so: [bind_mount_miscounts]. *)
Theorem link_counts_exact filesystems fs s ns w call :
  fs_ok fs s ns w → edits_names call = true → free_target s (w_heap w) ns call →
  (∀ n k, nlink (tree (w_heap w)) n = Some k → k < u32_max) → counted ns w →
  match run_call filesystems fs call w with
  | (Ok _, w') | (Err _, w') => counted ns w' ∧ counts_names (w_heap w')
  | _ => False
  end.
Proof.
  intros Hok Hed Hfree Hmax Hc. assert (∀ w', looked w w' → counted ns w') as Hl by (intros; by eapply counted_looked).
  assert (∀ w', grows w w' → counted ns w') as Hg.
  { intros w' (Hch & _ & H). destruct Hc as (Hpm & Hlk). split; [by eapply plain_changes|by apply H]. }
  assert (wp_res (run_call filesystems fs call) w (λ _ w', counted ns w') (λ _ w', counted ns w')) as H.
  2:{ unfold wp_res, wp in H. destruct (run_call filesystems fs call w) as [[r|e| |] w']; cbn [fst snd] in H; try done; (split; [done|by apply (counted_names ns)]). }
  pose proof Hc as (Hpm & Hlk).
  destruct call; try done; cbn [run_call]; apply ignore_rule.
  - eapply wp_res_mono; [by eapply lookup_in_rule|auto|auto].
  - eapply wp_res_mono; [by eapply mkdir_rule|auto|auto].
  - eapply wp_res_mono; [by eapply create_file_rule|auto|auto].
  - eapply wp_res_mono; [by eapply (create_rule fs s ns w), create_symlink_creates|cbv beta|by intros e w' [_ ?]; auto].
    intros _ w' (_ & c & T & Hcr & Hch). split; [by eapply plain_changes|]. eapply created_links; [done..|apply born_symlink|done].
  - eapply wp_res_mono; [by eapply (create_rule fs s ns w), create_socket_creates|cbv beta|by intros e w' [_ ?]; auto].
    intros _ w' (_ & c & T & Hcr & Hch). split; [by eapply plain_changes|]. eapply created_links; [done..|apply born_file|done].
  - by eapply link_counted_rule.
  - eapply wp_res_mono; [by eapply unlink_rule|cbv beta|by intros e w' [_ ?]; auto]. intros _ w' (_ & T & Hrem & Hch).
    split; [by eapply plain_changes|by eapply removed_links].
  - by eapply rename_counted_rule.
Qed.

Lemma demo_counted : counted demo_ns demo_tree.
Proof.
  split; [|exact demo_tree_links]. split.
  - intros m ->%list_elem_of_singleton. vm_compute. by eexists.
  - intros path stack m. simpl. by rewrite lookup_empty.
Qed.

(** A second link to the symbolic link [/a/l]. *)
Lemma link_counts_exact_witness :
  (run_call demo_filesystems 0 (CallLink (lit "/a/l") (lit "/k") 0) demo_tree).1 = Ok () ∧
  counts_names (w_heap (run_call demo_filesystems 0 (CallLink (lit "/a/l") (lit "/k") 0) demo_tree).2).
Proof.
  assert ((run_call demo_filesystems 0 (CallLink (lit "/a/l") (lit "/k") 0) demo_tree).1 = Ok ()) as Hr by (vm_compute; reflexivity).
  split; [exact Hr|].
  assert (∀ n k, nlink (tree (w_heap demo_tree)) n = Some k → k < u32_max) as Hmax.
  { assert (List.forallb (λ p : Z * InodeOps, match ops_nlink p.2 with Some k => k <? u32_max | None => true end)
      (map_to_list (tree (w_heap demo_tree))) = true) as Hall by (vm_compute; reflexivity).
    rewrite List.forallb_forall in Hall. intros n k Hk. unfold nlink in Hk. apply bind_Some in Hk as (o & Ho & Hk).
    apply elem_of_map_to_list, list_elem_of_In in Ho. pose proof (Hall _ Ho) as H. cbn [snd] in H. rewrite Hk in H. lia. }
  pose proof (link_counts_exact demo_filesystems 0 demo_state demo_ns demo_tree (CallLink (lit "/a/l") (lit "/k") 0) demo_tree_ok eq_refl I Hmax demo_counted) as H.
  destruct (run_call demo_filesystems 0 (CallLink (lit "/a/l") (lit "/k") 0) demo_tree) as [r w']. cbn [fst] in Hr. subst r. exact (proj2 H).
Defined.

(** A rename in one directory does not count the name that it takes away: the
    link that was [/y] keeps the count 1 without a name. *)
Definition demo_two : world := (create_symlink_in 0 (lit "/y") (lit "/b") (create_symlink_in 0 (lit "/x") (lit "/b") demo_world).2).2.

Lemma rename_keeps_replaced_count :
  match plookup MAX_LINKS (w_heap demo_two) demo_ns (lit "/y") false with
  | Ok ((y, _), _) =>
      let w' := (rename_in 0 (lit "/x") (lit "/y") demo_two).2 in
      nlink (tree (w_heap w')) y = Some 1 ∧
      List.forallb (λ p : Z * InodeOps, List.forallb (λ e : str * NodeRef, negb (e.2 =? y)) (map_to_list (ops_entries p.2)))
        (map_to_list (tree (w_heap w'))) = true
  | _ => False
  end.
Proof. vm_compute. split; reflexivity. Qed.
