(* ===== verification/Fd.v ===== *)
(** * Open files and descriptor tables

    Models [OpenFlags], [VfsFile] and [OpenFileDescription] of
    [aether-kernel/libs/aether-vfs/src/file.rs], the tables of
    [aether-kernel/src/fs/fd.rs], and the system calls on them ([dup],
    [dup2], [dup3], [close], [close_range] and the descriptor and flag
    commands of [fcntl], in [src/syscall/handlers/fd/] and
    [src/process/context/mod.rs]).

    A descriptor holds an [Arc] of an open file: the open files are a map with
    the number of owners of each, and dropping the last one unlocks and
    releases the file.  A table is shared by the threads that were cloned with
    it, so tables are a map with their owners too.  The nodes below are a
    parameter: a state with the operations of class [OpenNodes]. *)

From S2P Require Import Prelude Poll Errno Path Node Namespace Rootfs.

(** ** Flags *)

Module OpenFlags.
Definition READ : Z := 1.
Definition WRITE : Z := 2.
Definition APPEND : Z := 4.
Definition NONBLOCK : Z := 8.
Definition DIRECTORY : Z := 16.
Definition contains (bits bit : Z) : bool := bool_decide (Z.land bits bit ≠ 0).
Definition can_read (bits : Z) : bool := contains bits READ || negb (contains bits WRITE).
Definition can_write (bits : Z) : bool := contains bits WRITE.
Definition append (bits : Z) : bool := contains bits APPEND.
Definition nonblock (bits : Z) : bool := contains bits NONBLOCK.
Definition directory (bits : Z) : bool := contains bits DIRECTORY.
End OpenFlags.

Definition O_ACCMODE : Z := 3.
Definition O_WRONLY : Z := 1.
Definition O_RDWR : Z := 2.
Definition O_APPEND : Z := 0x400.
Definition O_NONBLOCK : Z := 0x800.
Definition O_DIRECTORY : Z := 0x10000.
Definition O_CLOEXEC : Z := 0x80000.

Definition linux_open_flags (raw : Z) : Z :=
  let bits := if decide (Z.land raw O_ACCMODE = O_WRONLY) then OpenFlags.WRITE
              else if decide (Z.land raw O_ACCMODE = O_RDWR) then Z.lor OpenFlags.READ OpenFlags.WRITE
              else OpenFlags.READ in
  let bits := if decide (Z.land raw O_APPEND ≠ 0) then Z.lor bits OpenFlags.APPEND else bits in
  let bits := if decide (Z.land raw O_NONBLOCK ≠ 0) then Z.lor bits OpenFlags.NONBLOCK else bits in
  if decide (Z.land raw O_DIRECTORY ≠ 0) then Z.lor bits OpenFlags.DIRECTORY else bits.

Definition linux_status_flags (flags : Z) : Z :=
  let raw := if OpenFlags.can_write flags then (if OpenFlags.can_read flags then O_RDWR else O_WRONLY) else 0 in
  let raw := if OpenFlags.append flags then Z.lor raw O_APPEND else raw in
  let raw := if OpenFlags.nonblock flags then Z.lor raw O_NONBLOCK else raw in
  if OpenFlags.directory flags then Z.lor raw O_DIRECTORY else raw.

(** ** State *)

(** [OpenFileDescription] with its [VfsFile]; [of_operations] is false for a
    directory, [of_refs] the count of its [Arc]. *)
Record OpenFileDescription := mkOpen {
  of_node : NodeRef;
  of_operations : bool;
  of_flags : Z;
  of_position : Z;
  of_refs : Z;
}.

Record FileDescriptor := mkDescriptor {
  fd_file : Z;
  fd_filesystem : FileSystemIdentity;
  fd_location : option FsLocation;
  fd_cloexec : bool;
}.

Record FdTable := mkTable {
  ft_owners : Z;
  ft_entries : gmap Z FileDescriptor;
}.

(** What an open file needs from the node: [open_file] with [open], reads
    through the page cache, writes with the invalidation that follows, [size],
    and the calls of the destructors, whose results are ignored. *)
Class OpenNodes (S : Type) := {
  on_open : NodeRef → Z → M S FsError bool;
  on_read : NodeRef → Z → Z → M S FsError (list Z);
  on_write : NodeRef → Z → list Z → M S FsError Z;
  on_size : NodeRef → S → Z;
  on_unlock : NodeRef → Z → S → S;
  on_release : NodeRef → S → S;
}.

Record fd_world (S : Type) := mkFdWorld {
  fw_tables : gmap Z FdTable;
  fw_files : gmap Z OpenFileDescription;
  fw_next_file : Z;
  fw_next_table : Z;
  fw_nodes : S;
}.
Arguments mkFdWorld {S}.
Arguments fw_tables {S}.
Arguments fw_files {S}.
Arguments fw_next_file {S}.
Arguments fw_next_table {S}.
Arguments fw_nodes {S}.

(** The order of the keys. *)
Definition fd_le (a b : Z * FileDescriptor) : Prop := a.1 <= b.1.
#[global] Instance fd_le_dec a b : Decision (fd_le a b).
Proof. unfold fd_le. apply _. Defined.

Section fds.
Context {S : Type} `{ON : !OpenNodes S}.

Definition set_tables (m : gmap Z FdTable) (w : fd_world S) : fd_world S :=
  mkFdWorld m (fw_files w) (fw_next_file w) (fw_next_table w) (fw_nodes w).
Definition set_files (m : gmap Z OpenFileDescription) (w : fd_world S) : fd_world S :=
  mkFdWorld (fw_tables w) m (fw_next_file w) (fw_next_table w) (fw_nodes w).
Definition set_fd_nodes (s : S) (w : fd_world S) : fd_world S :=
  mkFdWorld (fw_tables w) (fw_files w) (fw_next_file w) (fw_next_table w) s.

(** A call on the nodes. *)
Definition on_nodes {E A} (op : M S E A) : M (fd_world S) E A := λ w,
  let '(r, s) := op (fw_nodes w) in (r, set_fd_nodes s w).

Section operations.
Context {E : Type}.
Abbreviation MD := (M (fd_world S) E).

Definition file_at (f : Z) : MD OpenFileDescription := λ w, mexpect (fw_files w !! f) w.
Definition put_file (f : Z) (o : OpenFileDescription) : MD unit := mmodify (λ w, set_files (<[f := o]> (fw_files w)) w).

(** ** Owners *)

(** [Arc::clone] *)
Definition clone_file (f : Z) : MD unit :=
  o ← file_at f;
  put_file f (mkOpen (of_node o) (of_operations o) (of_flags o) (of_position o) (of_refs o + 1)).

(** The destructor of an [Arc]; the last one drops the description, which
    unlocks the node, and the [VfsFile], which releases its operations. *)
Definition drop_file (f : Z) : MD unit :=
  o ← file_at f;
  if decide (of_refs o = 1) then
    mmodify (λ w,
      let s := on_unlock (of_node o) f (fw_nodes w) in
      let s := if of_operations o then on_release (of_node o) s else s in
      set_fd_nodes s (set_files (delete f (fw_files w)) w))
  else put_file f (mkOpen (of_node o) (of_operations o) (of_flags o) (of_position o) (of_refs o - 1)).

Fixpoint drop_all (l : list FileDescriptor) : MD unit :=
  match l with
  | [] => mret ()
  | d :: rest => _ ← drop_file (fd_file d); drop_all rest
  end.

Fixpoint clone_all (l : list FileDescriptor) : MD unit :=
  match l with
  | [] => mret ()
  | d :: rest => _ ← clone_file (fd_file d); clone_all rest
  end.

(** [OpenFileDescription::new]: [expect] panics when the open fails. *)
Definition open_new (node : NodeRef) (flags : Z) : MD Z := λ w,
  let f := fw_next_file w in
  let '(r, s) := on_open node flags (fw_nodes w) in
  let w := mkFdWorld (fw_tables w) (fw_files w) (f + 1) (fw_next_table w) s in
  match r with
  | Ok operations => (Ok f, set_files (<[f := mkOpen node operations flags 0 1]> (fw_files w)) w)
  | Diverge => (Diverge, w)
  | _ => (Panic, w)
  end.

(** ** Tables *)

Definition table_at (t : Z) : MD FdTable := λ w, mexpect (fw_tables w !! t) w.
Definition entries_of (t : Z) : MD (gmap Z FileDescriptor) := tb ← table_at t; mret (ft_entries tb).
Definition put_entries (t : Z) (m : gmap Z FileDescriptor) : MD unit :=
  tb ← table_at t; mmodify (λ w, set_tables (<[t := mkTable (ft_owners tb) m]> (fw_tables w)) w).

(** The entries in the order of the [BTreeMap]. *)
Definition in_order (m : gmap Z FileDescriptor) : list FileDescriptor :=
  snd <$> merge_sort fd_le (map_to_list m).

Definition alloc_table (m : gmap Z FileDescriptor) : MD Z := λ w,
  let t := fw_next_table w in
  (Ok t, mkFdWorld (<[t := mkTable 1 m]> (fw_tables w)) (fw_files w) (fw_next_file w) (t + 1) (fw_nodes w)).

Definition FdTable_empty : MD Z := alloc_table ∅.

(** [while entries.contains_key(&fd) { fd = fd.saturating_add(1) }] *)
Fixpoint free_fd (fuel : nat) (m : gmap Z FileDescriptor) (fd : Z) : option Z :=
  match m !! fd with
  | None => Some fd
  | Some _ =>
      match fuel with
      | O => None
      | Datatypes.S fuel' => free_fd fuel' m (saturating_add u32_max fd 1)
      end
  end.

(** The descriptor is moved into the table. *)
Definition insert_descriptor (t : Z) (d : FileDescriptor) (min_fd : Z) : MD Z :=
  m ← entries_of t;
  match free_fd (size m) m min_fd with
  | None => mdiverge
  | Some fd => _ ← put_entries t (<[fd := d]> m); mret fd
  end.

(** [entries.insert(fd, descriptor)] drops what was there. *)
Definition insert_at (t fd : Z) (d : FileDescriptor) : MD unit :=
  m ← entries_of t;
  _ ← put_entries t (<[fd := d]> m);
  match m !! fd with Some old => drop_file (fd_file old) | None => mret () end.

Definition insert_node (t : Z) (node : NodeRef) (flags : Z) (filesystem : FileSystemIdentity) (location : option FsLocation) (cloexec : bool) : MD Z :=
  f ← open_new node flags;
  insert_descriptor t (mkDescriptor f filesystem location cloexec) 0.

Definition new_with_stdio (stdin stdout stderr : NodeRef) (filesystem : FileSystemIdentity) : MD Z :=
  t ← FdTable_empty;
  f0 ← open_new stdin OpenFlags.READ;
  _ ← insert_at t 0 (mkDescriptor f0 filesystem None false);
  f1 ← open_new stdout OpenFlags.WRITE;
  _ ← insert_at t 1 (mkDescriptor f1 filesystem None false);
  f2 ← open_new stderr OpenFlags.WRITE;
  _ ← insert_at t 2 (mkDescriptor f2 filesystem None false);
  mret t.

Definition table_fork_copy (t : Z) : MD Z :=
  m ← entries_of t;
  _ ← clone_all (in_order m);
  alloc_table m.

(** [FdTable::clone] and the destructor of the table. *)
Definition share_table (t : Z) : MD unit :=
  tb ← table_at t; mmodify (λ w, set_tables (<[t := mkTable (ft_owners tb + 1) (ft_entries tb)]> (fw_tables w)) w).
Definition drop_table (t : Z) : MD unit :=
  tb ← table_at t;
  if decide (ft_owners tb = 1) then
    _ ← mmodify (λ w, set_tables (delete t (fw_tables w)) w);
    drop_all (in_order (ft_entries tb))
  else mmodify (λ w, set_tables (<[t := mkTable (ft_owners tb - 1) (ft_entries tb)]> (fw_tables w)) w).

Definition close (t fd : Z) : MD bool :=
  m ← entries_of t;
  match m !! fd with
  | None => mret false
  | Some d => _ ← put_entries t (delete fd m); _ ← drop_file (fd_file d); mret true
  end.

Definition with_cloexec (cloexec : bool) (d : FileDescriptor) : FileDescriptor :=
  mkDescriptor (fd_file d) (fd_filesystem d) (fd_location d) cloexec.

(** [duplicate]: [get] makes the owner that the new descriptor keeps. *)
Definition duplicate (t fd min_fd : Z) (cloexec : bool) : MD (option Z) :=
  m ← entries_of t;
  match m !! fd with
  | None => mret None
  | Some d =>
      _ ← clone_file (fd_file d);
      newfd ← insert_descriptor t (with_cloexec cloexec d) min_fd;
      mret (Some newfd)
  end.

Definition duplicate_to (t fd newfd : Z) (cloexec : bool) : MD (option Z) :=
  m ← entries_of t;
  match m !! fd with
  | None => mret None
  | Some d =>
      _ ← clone_file (fd_file d);
      _ ← insert_at t newfd (with_cloexec cloexec d);
      mret (Some newfd)
  end.

(** [with_descriptor_mut] with the closures that its callers pass. *)
Definition set_cloexec (t fd : Z) (cloexec : bool) : MD (option unit) :=
  m ← entries_of t;
  match m !! fd with
  | None => mret None
  | Some d => _ ← put_entries t (<[fd := with_cloexec cloexec d]> m); mret (Some ())
  end.

(** [split_off(&first)], then the part above [last] is put back. *)
Definition table_close_range (t first last : Z) : MD unit :=
  if decide (last < first) then mret ()
  else
    m ← entries_of t;
    let tail := filter (λ e : Z * FileDescriptor, first <= e.1) m in
    let head := filter (λ e : Z * FileDescriptor, e.1 < first) m in
    let keep := if decide (last = u32_max) then ∅
                else filter (λ e : Z * FileDescriptor, saturating_add u32_max last 1 <= e.1) tail in
    let dropped := if decide (last = u32_max) then tail
                   else filter (λ e : Z * FileDescriptor, e.1 < saturating_add u32_max last 1) tail in
    _ ← put_entries t (head ∪ keep);
    drop_all (in_order dropped).

Definition close_cloexec (t : Z) : MD unit :=
  m ← entries_of t;
  _ ← put_entries t (filter (λ e : Z * FileDescriptor, fd_cloexec e.2 = false) m);
  drop_all (in_order (filter (λ e : Z * FileDescriptor, fd_cloexec e.2 = true) m)).

Definition set_cloexec_range (t first last : Z) : MD unit :=
  if decide (last < first) then mret ()
  else
    m ← entries_of t;
    put_entries t (map_imap (λ fd d, Some (if decide (first <= fd <= last) then with_cloexec true d else d)) m).
End operations.

(** ** Reading and writing an open file *)

Definition MV := M (fd_world S) FsError.

Definition set_position (f position : Z) : MV unit :=
  o ← file_at f; put_file f (mkOpen (of_node o) (of_operations o) (of_flags o) position (of_refs o)).

(** Bytes read into a buffer of [n] bytes. *)
Definition file_read (f n : Z) : MV (list Z) :=
  o ← file_at f;
  if negb (OpenFlags.can_read (of_flags o)) then mthrow InvalidInput
  else if negb (of_operations o) then mthrow NotFile
  else
    bytes ← on_nodes (on_read (of_node o) (of_position o) n);
    _ ← set_position f (saturating_add u64_max (of_position o) (Z.of_nat (length bytes)));
    mret bytes.

(** The position moves to the end before the file is asked for. *)
Definition file_write (f : Z) (buffer : list Z) : MV Z :=
  o ← file_at f;
  if negb (OpenFlags.can_write (of_flags o)) then mthrow InvalidInput
  else
    _ ← (if OpenFlags.append (of_flags o) then
           w ← mget; set_position f (on_size (of_node o) (fw_nodes w))
         else mret ());
    o ← file_at f;
    if negb (of_operations o) then mthrow NotFile
    else
      written ← on_nodes (on_write (of_node o) (of_position o) buffer);
      _ ← set_position f (saturating_add u64_max (of_position o) written);
      mret written.

Definition set_flags {E} (f flags : Z) : M (fd_world S) E unit :=
  o ← file_at f;
  let preserved := Z.land (of_flags o) OpenFlags.DIRECTORY in
  let mutable := Z.land flags (Z.lxor u32_max OpenFlags.DIRECTORY) in
  put_file f (mkOpen (of_node o) (of_operations o) (Z.lor preserved mutable) (of_position o) (of_refs o)).

(** ** System calls *)

Definition MX := M (fd_world S) SysErr.SysErr.

(** [x as u32] *)
Definition as_u32 (x : Z) : Z := x mod 2 ^ 32.

Definition sys_dup (t fd : Z) : MX Z := r ← duplicate t (as_u32 fd) 0 false; mok_or r SysErr.BadFd.

Definition dup_to (t oldfd newfd flags : Z) (reject_same_fd : bool) : MX Z :=
  if decide (oldfd = newfd) then
    if decide (reject_same_fd = true ∨ flags ≠ 0) then mthrow SysErr.Inval
    else m ← entries_of t; _ ← mok_or (m !! as_u32 oldfd) SysErr.BadFd; mret newfd
  else if decide (Z.land flags (Z.lxor u64_max O_CLOEXEC) ≠ 0) then mthrow SysErr.Inval
  else
    r ← duplicate_to t (as_u32 oldfd) (as_u32 newfd) (bool_decide (Z.land flags O_CLOEXEC ≠ 0));
    mok_or r SysErr.BadFd.

Definition sys_dup2 (t oldfd newfd : Z) : MX Z := dup_to t oldfd newfd 0 false.
Definition sys_dup3 (t oldfd newfd flags : Z) : MX Z := dup_to t oldfd newfd flags true.

Definition close_fd (t fd : Z) : MX Z :=
  closed ← close t (as_u32 fd);
  if (closed : bool) then mret 0 else mthrow SysErr.BadFd.

Definition CLOSE_RANGE_CLOEXEC : Z := 4.
Definition CLOSE_RANGE_UNSHARE : Z := 2.

Definition sys_close_range (t first last flags : Z) : MX Z :=
  if decide (last < first ∨ Z.land flags (Z.lxor u64_max (Z.lor CLOSE_RANGE_CLOEXEC CLOSE_RANGE_UNSHARE)) ≠ 0) then mthrow SysErr.Inval
  else if decide (u32_max < first) then mret 0
  else
    let end_ := last `min` u32_max in
    _ ← (if decide (Z.land flags CLOSE_RANGE_CLOEXEC ≠ 0) then set_cloexec_range t first end_ else table_close_range t first end_);
    mret 0.

(** The commands of [fcntl] on descriptors and status flags. *)
Inductive FcntlCommand := F_DUPFD | F_DUPFD_CLOEXEC | F_GETFD | F_SETFD | F_GETFL | F_SETFL.
Definition FD_CLOEXEC : Z := 1.

Definition fcntl (t fd : Z) (command : FcntlCommand) (arg : Z) : MX Z :=
  match command with
  | F_DUPFD => r ← duplicate t (as_u32 fd) (as_u32 arg) false; mok_or r SysErr.BadFd
  | F_DUPFD_CLOEXEC => r ← duplicate t (as_u32 fd) (as_u32 arg) true; mok_or r SysErr.BadFd
  | F_GETFD =>
      m ← entries_of t;
      d ← mok_or (m !! as_u32 fd) SysErr.BadFd;
      mret (if fd_cloexec d then FD_CLOEXEC else 0)
  | F_SETFD =>
      r ← set_cloexec t (as_u32 fd) (bool_decide (Z.land arg FD_CLOEXEC ≠ 0));
      _ ← mok_or r SysErr.BadFd;
      mret 0
  | F_GETFL =>
      m ← entries_of t;
      d ← mok_or (m !! as_u32 fd) SysErr.BadFd;
      o ← file_at (fd_file d);
      mret (linux_status_flags (of_flags o))
  | F_SETFL =>
      m ← entries_of t;
      d ← mok_or (m !! as_u32 fd) SysErr.BadFd;
      o ← file_at (fd_file d);
      let next := Z.land (of_flags o) (Z.lxor u32_max (Z.lor OpenFlags.APPEND OpenFlags.NONBLOCK)) in
      let next := if decide (Z.land arg O_APPEND ≠ 0) then Z.lor next OpenFlags.APPEND else next in
      let next := if decide (Z.land arg O_NONBLOCK ≠ 0) then Z.lor next OpenFlags.NONBLOCK else next in
      _ ← set_flags (fd_file d) next;
      mret 0
  end.
End fds.
