(* ===== verification/FdProof.v ===== *)
(** * Open files and descriptor tables: proofs

    [fds_ok w held]: the count of every open file is the number of descriptors
    that refer to it, in all tables, together with the handles [held] that a
    running operation holds.  Each operation has a rule that says what it makes
    of the tables and that it keeps the counts exact. *)

From S2P Require Import Prelude Poll Errno Path Node Namespace Rootfs Fd.

(** ** Counting *)

Definition occ (f : Z) (l : list Z) : nat := length (filter (λ g, g = f) l).

#[global] Instance occ_proper f : Proper ((≡ₚ) ==> eq) (occ f).
Proof. intros l l' Hp. unfold occ. by rewrite Hp. Qed.

Lemma occ_nil f : occ f [] = 0%nat.
Proof. done. Qed.
Lemma occ_cons f g l : occ f (g :: l) = ((if decide (g = f) then 1 else 0) + occ f l)%nat.
Proof. unfold occ. rewrite filter_cons. by destruct (decide (g = f)). Qed.
Lemma occ_app f l l' : occ f (l ++ l') = (occ f l + occ f l')%nat.
Proof. unfold occ. by rewrite filter_app, length_app. Qed.
Lemma occ_elem f l : f ∈ l → (0 < occ f l)%nat.
Proof. intros Hin. apply list_elem_of_split in Hin as (a & b & ->). rewrite occ_app, occ_cons, decide_True by done. lia. Qed.
Lemma occ_pos f l : (0 < occ f l)%nat → f ∈ l.
Proof.
  induction l as [|g l IH]; [rewrite occ_nil; lia|]. rewrite occ_cons. destruct (decide (g = f)) as [->|]; [by left|]. right. apply IH. lia.
Qed.

Lemma occ_held f g l l' : occ f (l ++ g :: l') = ((if decide (g = f) then 1 else 0) + occ f (l ++ l'))%nat.
Proof. rewrite !occ_app, occ_cons. lia. Qed.

(** ** References of a table and of all tables *)

Definition refs_of (m : gmap Z FileDescriptor) : list Z := (λ e : Z * FileDescriptor, fd_file e.2) <$> map_to_list m.
Definition table_refs (T : gmap Z FdTable) : list Z := map_to_list T ≫= λ e : Z * FdTable, refs_of (ft_entries e.2).

Lemma refs_of_insert m fd d : m !! fd = None → refs_of (<[fd := d]> m) ≡ₚ fd_file d :: refs_of m.
Proof. intros Hm. unfold refs_of. rewrite map_to_list_insert by done. done. Qed.
Lemma refs_of_delete m fd d : m !! fd = Some d → refs_of m ≡ₚ fd_file d :: refs_of (delete fd m).
Proof. intros Hm. rewrite <-(insert_id m fd d) at 1 by done. rewrite <-insert_delete_eq. apply refs_of_insert. apply lookup_delete_eq. Qed.
Lemma refs_of_replace m fd d d' : m !! fd = Some d → refs_of (<[fd := d']> m) ++ [fd_file d] ≡ₚ fd_file d' :: refs_of m.
Proof.
  intros Hm. rewrite <-insert_delete_eq. rewrite refs_of_insert by apply lookup_delete_eq. rewrite (refs_of_delete m fd d) by done.
  simpl. by rewrite <-Permutation_cons_append.
Qed.
Lemma refs_of_union m1 m2 : m1 ##ₘ m2 → refs_of (m1 ∪ m2) ≡ₚ refs_of m1 ++ refs_of m2.
Proof.
  intros Hd. unfold refs_of. rewrite <-fmap_app. apply fmap_Permutation, NoDup_Permutation.
  - apply NoDup_map_to_list.
  - apply NoDup_app. split; [apply NoDup_map_to_list|]. split; [|apply NoDup_map_to_list].
    intros [fd d] H1 H2. apply elem_of_map_to_list in H1, H2. by eapply map_disjoint_spec.
  - intros [fd d]. by rewrite elem_of_app, !elem_of_map_to_list, lookup_union_Some.
Qed.
Lemma refs_of_elem m fd d : m !! fd = Some d → fd_file d ∈ refs_of m.
Proof. intros Hm. unfold refs_of. apply list_elem_of_fmap. exists (fd, d). split; [done|]. by apply elem_of_map_to_list. Qed.
Lemma refs_of_inv m f : f ∈ refs_of m → ∃ fd d, m !! fd = Some d ∧ fd_file d = f.
Proof. intros Hf. apply list_elem_of_fmap in Hf as ([fd d] & -> & Hin). apply elem_of_map_to_list in Hin. eauto. Qed.

Lemma table_refs_insert T t tb : T !! t = None → table_refs (<[t := tb]> T) ≡ₚ refs_of (ft_entries tb) ++ table_refs T.
Proof. intros Ht. unfold table_refs. by rewrite map_to_list_insert. Qed.
Lemma table_refs_delete T t tb : T !! t = Some tb → table_refs T ≡ₚ refs_of (ft_entries tb) ++ table_refs (delete t T).
Proof. intros Ht. rewrite <-(insert_id T t tb) at 1 by done. rewrite <-insert_delete_eq. apply table_refs_insert. apply lookup_delete_eq. Qed.
Lemma table_refs_replace T t tb tb' :
  T !! t = Some tb → table_refs (<[t := tb']> T) ≡ₚ refs_of (ft_entries tb') ++ table_refs (delete t T).
Proof. intros Ht. rewrite <-insert_delete_eq. apply table_refs_insert. apply lookup_delete_eq. Qed.
Lemma table_refs_elem T t tb fd d : T !! t = Some tb → ft_entries tb !! fd = Some d → fd_file d ∈ table_refs T.
Proof. intros Ht Hd. rewrite table_refs_delete by done. apply elem_of_app. left. by eapply refs_of_elem. Qed.
Lemma table_refs_inv T f : f ∈ table_refs T → ∃ t tb fd d, T !! t = Some tb ∧ ft_entries tb !! fd = Some d ∧ fd_file d = f.
Proof.
  intros Hf. apply list_elem_of_bind in Hf as ([t tb] & Hf & Hin). apply elem_of_map_to_list in Hin. apply refs_of_inv in Hf as (fd & d & ? & ?). eauto 10.
Qed.

Lemma fd_order_perm m : in_order m ≡ₚ snd <$> map_to_list m.
Proof. unfold in_order. by rewrite merge_sort_Permutation. Qed.
Lemma in_order_refs m : fd_file <$> in_order m ≡ₚ refs_of m.
Proof. rewrite fd_order_perm. unfold refs_of. by rewrite <-list_fmap_compose. Qed.

(** ** The lowest free descriptor *)

Definition lowest_free (m : gmap Z FileDescriptor) (min_fd r : Z) : Prop :=
  min_fd <= r <= u32_max ∧ m !! r = None ∧ ∀ x, min_fd <= x < r → is_Some (m !! x).

(** There is a descriptor left. *)
Definition has_free (m : gmap Z FileDescriptor) (min_fd : Z) : Prop := ∃ x, min_fd <= x <= u32_max ∧ m !! x = None.

Lemma free_fd_Some fuel m : ∀ fd r, fd <= u32_max → free_fd fuel m fd = Some r → lowest_free m fd r.
Proof.
  induction fuel as [|fuel IH]; intros fd r Hfd; cbn [free_fd]; destruct (m !! fd) eqn:Hm; try done.
  - intros [= <-]. split; [lia|]. split; [done|]. lia.
  - intros Hr. apply IH in Hr as (Hr & Hn & Hlow); [|unfold saturating_add; lia].
    assert (fd ≠ r) by congruence. unfold saturating_add in *. split; [lia|]. split; [done|].
    intros x Hx. destruct (decide (x = fd)) as [->|]; [by rewrite Hm|]. apply Hlow. lia.
  - intros [= <-]. split; [lia|]. split; [done|]. lia.
Qed.

Lemma free_fd_None fuel m : ∀ fd x, free_fd fuel m fd = None → fd <= x <= u32_max → x <= fd + Z.of_nat fuel → is_Some (m !! x).
Proof.
  induction fuel as [|fuel IH]; intros fd x; cbn [free_fd]; destruct (m !! fd) eqn:Hm; try done; intros Hn Hx Hle.
  - assert (x = fd) as -> by lia. by rewrite Hm.
  - destruct (decide (x = fd)) as [->|]; [by rewrite Hm|]. eapply IH; [done|unfold saturating_add; lia|unfold saturating_add; lia].
Qed.

Lemma free_fd_total m fd : has_free m fd → is_Some (free_fd (size m) m fd).
Proof.
  intros (x & Hx & Hn). destruct (free_fd (size m) m fd) eqn:Hf; [done|]. exfalso.
  assert (fd + Z.of_nat (size m) < x) as Hlt.
  { destruct (decide (x <= fd + Z.of_nat (size m))) as [Hle|]; [|lia]. destruct (free_fd_None _ _ _ x Hf Hx Hle) as [d Hd]. congruence. }
  assert (list_to_set (seqZ fd (Z.of_nat (size m) + 1)) ⊆ dom m) as Hsub.
  { intros y Hy. apply elem_of_list_to_set, elem_of_seqZ in Hy. apply elem_of_dom. eapply free_fd_None; [done|lia|lia]. }
  apply subseteq_size in Hsub. rewrite size_list_to_set, length_seqZ, size_dom in Hsub by apply NoDup_seqZ. lia.
Qed.

(** ** The invariant *)

Section proof.
Context {S : Type} `{ON : !OpenNodes S}.
Implicit Types (w : fd_world S) (held : list Z).

Record fds_ok w held : Prop := {
  fo_count f :
    match fw_files w !! f with
    | Some o => of_refs o = Z.of_nat (occ f (table_refs (fw_tables w) ++ held)) ∧ 0 < of_refs o
    | None => occ f (table_refs (fw_tables w) ++ held) = 0%nat
    end;
  fo_fresh f : fw_next_file w <= f → fw_files w !! f = None;
  fo_tables t : fw_next_table w <= t → fw_tables w !! t = None;
}.

Lemma fds_ok_tables w held T held' :
  fds_ok w held → table_refs (fw_tables w) ++ held ≡ₚ table_refs T ++ held' → (∀ t, fw_next_table w <= t → T !! t = None) →
  fds_ok (set_tables T w) held'.
Proof. intros [Hc Hf Ht] Hp HT. constructor; cbn [set_tables fw_files fw_tables fw_next_file fw_next_table]; [|done|done]. intros f. rewrite <-(occ_proper f _ _ Hp). apply Hc. Qed.

Lemma fds_ok_perm w held held' : fds_ok w held → held ≡ₚ held' → fds_ok w held'.
Proof. intros [Hc Hf Ht] Hp. constructor; [|done|done]. intros f. rewrite <-(occ_proper f _ _ (Permutation_app_head _ Hp)). apply Hc. Qed.

Lemma held_open w held f : fds_ok w held → f ∈ table_refs (fw_tables w) ++ held → ∃ o, fw_files w !! f = Some o ∧ 0 < of_refs o.
Proof.
  intros Hok Hf. pose proof (fo_count _ _ Hok f) as Hc. destruct (fw_files w !! f) as [o|] eqn:Ho; [exists o; split; [done|apply Hc]|].
  apply occ_elem in Hf. lia.
Qed.

(** The open files apart from their counts. *)
Definition file_view (o : OpenFileDescription) : NodeRef * bool * Z * Z := (of_node o, of_operations o, of_flags o, of_position o).
Definition same_view w w' : Prop :=
  ∀ f o o', fw_files w !! f = Some o → fw_files w' !! f = Some o' → file_view o' = file_view o.

Section rules.
Context {E : Type}.
Abbreviation MD := (M (fd_world S) E).

Lemma file_at_rule w f o (Q : OpenFileDescription → fd_world S → Prop) (Qe : E → fd_world S → Prop) :
  fw_files w !! f = Some o → Q o w → wp_res (file_at f) w Q Qe.
Proof. intros Ho HQ. unfold file_at, wp_res, wp. by rewrite Ho. Qed.

(** What an operation may do to the world besides the counts. *)
Definition moves w w' (T : gmap Z FdTable) : Prop :=
  fw_tables w' = T ∧ fw_next_table w' = fw_next_table w ∧ fw_next_file w' = fw_next_file w.

Lemma moves_refl w : moves w w (fw_tables w).
Proof. done. Qed.

Lemma clone_file_rule w held f :
  fds_ok w held → f ∈ table_refs (fw_tables w) ++ held →
  wp_res (clone_file f : MD unit) w (λ _ w', fds_ok w' (f :: held) ∧ moves w w' (fw_tables w)) (λ _ _, False).
Proof.
  intros Hok Hf. destruct (held_open _ _ _ Hok Hf) as (o & Ho & Hpos). unfold clone_file. wp_step. eapply file_at_rule; [done|].
  unfold put_file. wp_run. split; [|done]. destruct Hok as [Hc Hfr Ht]. constructor; cbn [set_files fw_files fw_tables fw_next_file fw_next_table]; [| |done].
  - intros g. rewrite occ_held. specialize (Hc g). destruct (decide (f = g)) as [<-|Hne].
    + rewrite lookup_insert_eq. cbn [of_refs]. rewrite Ho in Hc. lia.
    + rewrite lookup_insert_ne by done. destruct (fw_files w !! g); [|lia]. destruct Hc as [-> ?]. split; [lia|done].
  - intros g Hg. rewrite lookup_insert_ne; [by apply Hfr|]. intros <-. by rewrite Hfr in Ho.
Qed.

Lemma drop_file_rule w held f :
  fds_ok w (f :: held) → wp_res (drop_file f : MD unit) w (λ _ w', fds_ok w' held ∧ moves w w' (fw_tables w)) (λ _ _, False).
Proof.
  intros Hok. destruct (held_open _ _ f Hok) as (o & Ho & Hpos); [apply elem_of_app; right; by left|]. unfold drop_file. wp_step. eapply file_at_rule; [done|].
  destruct Hok as [Hc Hfr Ht]. destruct (decide (of_refs o = 1)) as [H1|H1]; [|unfold put_file]; wp_run; (split; [|done]);
    constructor; cbn [set_fd_nodes set_files fw_files fw_tables fw_next_file fw_next_table]; try done.
  - intros g. specialize (Hc g). rewrite occ_held in Hc. destruct (decide (f = g)) as [<-|Hne].
    + rewrite lookup_delete_eq. rewrite Ho in Hc. lia.
    + rewrite lookup_delete_ne by done. destruct (fw_files w !! g); [|lia]. destruct Hc as [-> ?]. split; [lia|done].
  - intros g Hg. rewrite lookup_delete_None. right. by apply Hfr.
  - intros g. specialize (Hc g). rewrite occ_held in Hc. destruct (decide (f = g)) as [<-|Hne].
    + rewrite lookup_insert_eq. cbn [of_refs]. rewrite Ho in Hc. lia.
    + rewrite lookup_insert_ne by done. destruct (fw_files w !! g); [|lia]. destruct Hc as [-> ?]. split; [lia|done].
  - intros g Hg. rewrite lookup_insert_ne; [by apply Hfr|]. intros <-. by rewrite Hfr in Ho.
Qed.

Lemma moves_trans w w1 w2 T : moves w w1 (fw_tables w) → moves w1 w2 T → moves w w2 T.
Proof. intros (?&?&?) (?&?&?). split_and!; congruence. Qed.

Lemma drop_all_rule l : ∀ w held,
  fds_ok w ((fd_file <$> l) ++ held) → wp_res (drop_all l : MD unit) w (λ _ w', fds_ok w' held ∧ moves w w' (fw_tables w)) (λ _ _, False).
Proof.
  induction l as [|d l IH]; intros w held Hok; cbn [drop_all]; cbn [fmap list_fmap app] in Hok; [by wp_run|]. wp_step.
  eapply wp_res_mono; [by eapply drop_file_rule|cbv beta|done]. intros _ w1 (Hok1 & Hm).
  eapply wp_res_mono; [by eapply IH|cbv beta|done]. intros _ w2 (Hok2 & Hm2). split; [done|]. destruct Hm as (Ht & ? & ?). rewrite Ht in Hm2. by eapply moves_trans.
Qed.

Lemma clone_all_rule l : ∀ w held,
  fds_ok w held → (∀ d, d ∈ l → fd_file d ∈ table_refs (fw_tables w)) →
  wp_res (clone_all l : MD unit) w (λ _ w', fds_ok w' ((fd_file <$> l) ++ held) ∧ moves w w' (fw_tables w)) (λ _ _, False).
Proof.
  induction l as [|d l IH]; intros w held Hok Hin; cbn [clone_all]; [by wp_run|]. wp_step.
  eapply wp_res_mono; [eapply clone_file_rule; [done|apply elem_of_app; left; apply Hin; by left]|cbv beta|done]. intros _ w1 (Hok1 & Hm).
  pose proof Hm as (Ht & _ & _).
  eapply wp_res_mono; [eapply IH; [done|intros d' Hd'; rewrite Ht; apply Hin; by right]|cbv beta|done]. intros _ w2 (Hok2 & Hm2). split.
  - eapply fds_ok_perm; [exact Hok2|]. cbn [fmap list_fmap app]. by rewrite <-Permutation_middle.
  - rewrite Ht in Hm2. by eapply moves_trans.
Qed.

Lemma table_at_rule w t tb (Q : FdTable → fd_world S → Prop) (Qe : E → fd_world S → Prop) :
  fw_tables w !! t = Some tb → Q tb w → wp_res (table_at t) w Q Qe.
Proof. intros Ho HQ. unfold table_at, wp_res, wp. by rewrite Ho. Qed.

Lemma entries_of_rule w t tb (Q : gmap Z FileDescriptor → fd_world S → Prop) (Qe : E → fd_world S → Prop) :
  fw_tables w !! t = Some tb → Q (ft_entries tb) w → wp_res (entries_of t) w Q Qe.
Proof. intros Ho HQ. unfold entries_of. wp_step. eapply table_at_rule; [done|]. by wp_run. Qed.

Definition with_entries (T : gmap Z FdTable) t (tb : FdTable) m : gmap Z FdTable := <[t := mkTable (ft_owners tb) m]> T.

Lemma put_entries_rule w t tb m held held' :
  fds_ok w held → fw_tables w !! t = Some tb → refs_of (ft_entries tb) ++ held ≡ₚ refs_of m ++ held' →
  wp_res (put_entries t m : MD unit) w (λ _ w', fds_ok w' held' ∧ moves w w' (with_entries (fw_tables w) t tb m)) (λ _ _, False).
Proof.
  intros Hok Ht Hp. unfold put_entries. wp_step. eapply table_at_rule; [done|]. wp_run. split; [|done].
  eapply fds_ok_tables; [done|..].
  - rewrite (table_refs_delete _ t tb) by done. unfold with_entries. rewrite (table_refs_replace _ t tb) by done. cbn [ft_entries].
    rewrite <-!app_assoc, !(Permutation_app_comm (table_refs _)), !app_assoc. by rewrite Hp.
  - intros x Hx. unfold with_entries. rewrite lookup_insert_ne; [by apply (fo_tables _ _ Hok)|]. intros <-. rewrite (fo_tables _ _ Hok) in Ht; [done|lia].
Qed.

Lemma insert_descriptor_rule w t tb d min_fd held :
  fds_ok w (fd_file d :: held) → fw_tables w !! t = Some tb → min_fd <= u32_max → has_free (ft_entries tb) min_fd →
  wp_res (insert_descriptor t d min_fd : MD Z) w
    (λ r w', lowest_free (ft_entries tb) min_fd r ∧ fds_ok w' held ∧ moves w w' (with_entries (fw_tables w) t tb (<[r := d]> (ft_entries tb)))) (λ _ _, False).
Proof.
  intros Hok Ht Hmin Hfree. unfold insert_descriptor. wp_step. eapply entries_of_rule; [done|].
  destruct (free_fd_total _ _ Hfree) as [r Hr]. rewrite Hr. pose proof (free_fd_Some _ _ _ _ Hmin Hr) as Hlow.
  wp_step. eapply wp_res_mono; [eapply (put_entries_rule w t tb _ _ held); [done|done|]|cbv beta|done].
  - rewrite refs_of_insert by apply Hlow. simpl. by rewrite <-Permutation_middle.
  - intros _ w' (Hok' & Hm). wp_run. done.
Qed.

Lemma insert_at_rule w t tb fd d held :
  fds_ok w (fd_file d :: held) → fw_tables w !! t = Some tb →
  wp_res (insert_at t fd d : MD unit) w
    (λ _ w', fds_ok w' held ∧ moves w w' (with_entries (fw_tables w) t tb (<[fd := d]> (ft_entries tb)))) (λ _ _, False).
Proof.
  intros Hok Ht. unfold insert_at. wp_step. eapply entries_of_rule; [done|]. destruct (ft_entries tb !! fd) as [old|] eqn:Hold.
  - wp_step. eapply wp_res_mono; [eapply (put_entries_rule w t tb _ _ (fd_file old :: held)); [done|done|]|cbv beta|done].
    + pose proof (refs_of_replace _ _ _ d Hold) as Hr. rewrite <-Permutation_middle. change (fd_file d :: refs_of (ft_entries tb) ++ held) with ((fd_file d :: refs_of (ft_entries tb)) ++ held).
      rewrite <-Hr, <-app_assoc. done.
    + intros _ w1 (Hok1 & Hm1). eapply wp_res_mono; [by eapply drop_file_rule|cbv beta|done]. intros _ w2 (Hok2 & Hm2). split; [done|].
      destruct Hm1 as (Ht1 & ? & ?), Hm2 as (? & ? & ?). split_and!; congruence.
  - wp_step. eapply wp_res_mono; [eapply (put_entries_rule w t tb _ _ held); [done|done|]|cbv beta|done].
    + rewrite refs_of_insert by done. simpl. by rewrite <-Permutation_middle.
    + intros _ w' H'. by wp_run.
Qed.

Lemma moves_chain w w1 w2 T : moves w w1 (fw_tables w) → moves w1 w2 T → fw_tables w1 = fw_tables w ∧ moves w w2 T.
Proof. intros Hm1 Hm2. split; [apply Hm1|]. by eapply moves_trans. Qed.

Lemma duplicate_rule w t tb fd min_fd cloexec :
  fds_ok w [] → fw_tables w !! t = Some tb → min_fd <= u32_max → has_free (ft_entries tb) min_fd →
  wp_res (duplicate t fd min_fd cloexec : MD (option Z)) w
    (λ r w', fds_ok w' [] ∧
       match ft_entries tb !! fd, r with
       | Some d, Some newfd => lowest_free (ft_entries tb) min_fd newfd ∧
           moves w w' (with_entries (fw_tables w) t tb (<[newfd := with_cloexec cloexec d]> (ft_entries tb)))
       | None, None => w' = w
       | _, _ => False
       end) (λ _ _, False).
Proof.
  intros Hok Ht Hmin Hfree. unfold duplicate. wp_step. eapply entries_of_rule; [done|]. destruct (ft_entries tb !! fd) as [d|] eqn:Hd; [|by wp_run].
  wp_step. eapply wp_res_mono; [eapply clone_file_rule; [done|apply elem_of_app; left; by eapply table_refs_elem]|cbv beta|done].
  intros _ w1 (Hok1 & Hm1). pose proof Hm1 as (Ht1 & _ & _). wp_step.
  eapply wp_res_mono; [eapply (insert_descriptor_rule w1 t tb (with_cloexec cloexec d)); [done|by rewrite Ht1|done|done]|cbv beta|done].
  intros r w2 (Hlow & Hok2 & Hm2). rewrite Ht1 in Hm2. wp_run. split; [done|]. split; [done|]. by eapply moves_trans.
Qed.

Lemma duplicate_to_rule w t tb fd newfd cloexec :
  fds_ok w [] → fw_tables w !! t = Some tb →
  wp_res (duplicate_to t fd newfd cloexec : MD (option Z)) w
    (λ r w', fds_ok w' [] ∧
       match ft_entries tb !! fd with
       | Some d => r = Some newfd ∧ moves w w' (with_entries (fw_tables w) t tb (<[newfd := with_cloexec cloexec d]> (ft_entries tb)))
       | None => r = None ∧ w' = w
       end) (λ _ _, False).
Proof.
  intros Hok Ht. unfold duplicate_to. wp_step. eapply entries_of_rule; [done|]. destruct (ft_entries tb !! fd) as [d|] eqn:Hd; [|by wp_run].
  wp_step. eapply wp_res_mono; [eapply clone_file_rule; [done|apply elem_of_app; left; by eapply table_refs_elem]|cbv beta|done].
  intros _ w1 (Hok1 & Hm1). pose proof Hm1 as (Ht1 & _ & _). wp_step.
  eapply wp_res_mono; [eapply (insert_at_rule w1 t tb newfd (with_cloexec cloexec d)); [done|by rewrite Ht1]|cbv beta|done].
  intros _ w2 (Hok2 & Hm2). rewrite Ht1 in Hm2. wp_run. split; [done|]. split; [done|]. by eapply moves_trans.
Qed.

Lemma close_rule w t tb fd :
  fds_ok w [] → fw_tables w !! t = Some tb →
  wp_res (close t fd : MD bool) w
    (λ r w', fds_ok w' [] ∧ r = bool_decide (is_Some (ft_entries tb !! fd)) ∧ moves w w' (with_entries (fw_tables w) t tb (delete fd (ft_entries tb)))) (λ _ _, False).
Proof.
  intros Hok Ht. unfold close. wp_step. eapply entries_of_rule; [done|]. destruct (ft_entries tb !! fd) as [d|] eqn:Hd.
  - wp_step. eapply wp_res_mono; [eapply (put_entries_rule w t tb _ _ [fd_file d]); [done|done|]|cbv beta|done].
    + rewrite app_nil_r, (refs_of_delete _ fd d) by done. apply Permutation_cons_append.
    + intros _ w1 (Hok1 & Hm1). wp_step. eapply wp_res_mono; [by eapply drop_file_rule|cbv beta|done]. intros _ w2 (Hok2 & Hm2). wp_run.
      split; [done|]. split; [done|]. destruct Hm1 as (? & ? & ?), Hm2 as (? & ? & ?). split_and!; congruence.
  - wp_run. split; [done|]. split; [done|]. rewrite delete_id by done. split; [|done]. unfold with_entries. rewrite insert_id; [done|]. rewrite Ht. by destruct tb.
Qed.

(** Dropping the entries for which [keep] does not hold. *)
Lemma fd_retain_rule w t tb (keep lose : gmap Z FileDescriptor) :
  fds_ok w [] → fw_tables w !! t = Some tb → keep ##ₘ lose → keep ∪ lose = ft_entries tb →
  wp_res (_ ← (put_entries t keep : MD unit); drop_all (in_order lose)) w
    (λ _ w', fds_ok w' [] ∧ moves w w' (with_entries (fw_tables w) t tb keep)) (λ _ _, False).
Proof.
  intros Hok Ht Hd Hu. wp_step. eapply wp_res_mono; [eapply (put_entries_rule w t tb _ _ (fd_file <$> in_order lose)); [done|done|]|cbv beta|done].
  - rewrite app_nil_r, in_order_refs, <-Hu. by apply refs_of_union.
  - intros _ w1 (Hok1 & Hm1). eapply wp_res_mono; [eapply drop_all_rule; by rewrite app_nil_r|cbv beta|done]. intros _ w2 (Hok2 & Hm2).
    split; [done|]. destruct Hm1 as (? & ? & ?), Hm2 as (? & ? & ?). split_and!; congruence.
Qed.

Lemma split_maps (m keep lose : gmap Z FileDescriptor) (P : Z → FileDescriptor → bool) :
  (∀ fd d, keep !! fd = Some d ↔ m !! fd = Some d ∧ P fd d = true) → (∀ fd d, lose !! fd = Some d ↔ m !! fd = Some d ∧ P fd d = false) →
  keep ##ₘ lose ∧ keep ∪ lose = m.
Proof.
  intros Hk Hl. assert (keep ##ₘ lose) as Hd.
  { apply map_disjoint_spec. intros fd d d' H1 H2. apply Hk in H1 as [H1 P1]. apply Hl in H2 as [H2 P2]. simplify_eq. congruence. }
  split; [done|]. apply map_eq. intros fd. apply option_eq. intros d. rewrite lookup_union_Some, Hk, Hl by done. destruct (P fd d); naive_solver.
Qed.

(** The entries for which [P] holds. *)
Definition only (P : Z → FileDescriptor → bool) (m : gmap Z FileDescriptor) : gmap Z FileDescriptor :=
  filter (λ e : Z * FileDescriptor, P e.1 e.2 = true) m.

Lemma lookup_only P m fd d : only P m !! fd = Some d ↔ m !! fd = Some d ∧ P fd d = true.
Proof. unfold only. rewrite map_lookup_filter_Some. done. Qed.

Lemma map_eq_only (m keep : gmap Z FileDescriptor) P : (∀ fd d, keep !! fd = Some d ↔ m !! fd = Some d ∧ P fd d = true) → keep = only P m.
Proof. intros H. apply map_eq. intros fd. apply option_eq. intros d. by rewrite H, lookup_only. Qed.

Lemma close_cloexec_rule w t tb :
  fds_ok w [] → fw_tables w !! t = Some tb →
  wp_res (close_cloexec t : MD unit) w
    (λ _ w', fds_ok w' [] ∧ moves w w' (with_entries (fw_tables w) t tb (only (λ _ d, negb (fd_cloexec d)) (ft_entries tb)))) (λ _ _, False).
Proof.
  intros Hok Ht. unfold close_cloexec. wp_step. eapply entries_of_rule; [done|].
  set (lose := filter _ _). set (keep := filter _ _).
  assert (∀ fd d, keep !! fd = Some d ↔ ft_entries tb !! fd = Some d ∧ negb (fd_cloexec d) = true) as Hk.
  { intros fd d. unfold keep. rewrite map_lookup_filter_Some. cbn [snd]. by rewrite negb_true_iff. }
  assert (∀ fd d, lose !! fd = Some d ↔ ft_entries tb !! fd = Some d ∧ negb (fd_cloexec d) = false) as Hl.
  { intros fd d. unfold lose. rewrite map_lookup_filter_Some. cbn [snd]. by rewrite negb_false_iff. }
  destruct (split_maps _ _ _ (λ _ d, negb (fd_cloexec d)) Hk Hl) as [Hd Hu]. rewrite <-(map_eq_only _ keep (λ _ d, negb (fd_cloexec d))) by exact Hk. by apply fd_retain_rule.
Qed.

Definition in_range (first last : Z) (fd : Z) (_ : FileDescriptor) : bool := bool_decide (first <= fd <= last).

Lemma close_range_rule w t tb first last :
  fds_ok w [] → fw_tables w !! t = Some tb → last <= u32_max → (∀ fd, is_Some (ft_entries tb !! fd) → fd <= u32_max) →
  wp_res (table_close_range t first last : MD unit) w
    (λ _ w', fds_ok w' [] ∧ moves w w' (with_entries (fw_tables w) t tb (only (λ fd d, negb (in_range first last fd d)) (ft_entries tb)))) (λ _ _, False).
Proof.
  intros Hok Ht Hlast Hmax. unfold table_close_range. destruct (decide (last < first)) as [Hlt|Hge].
  { wp_run. split; [done|]. split; [|done]. unfold with_entries. rewrite insert_id; [done|]. rewrite Ht. destruct tb as [ow m]. cbn [ft_owners ft_entries].
    do 2 f_equal. apply map_eq_only. intros fd d. unfold in_range. rewrite bool_decide_false by lia. naive_solver. }
  wp_step. eapply entries_of_rule; [done|]. set (keep := _ ∪ _). set (lose := if decide _ then _ else _) at 1.
  assert (∀ fd d, keep !! fd = Some d ↔ ft_entries tb !! fd = Some d ∧ negb (in_range first last fd d) = true) as Hk.
  { intros fd d. unfold keep. assert (∀ x y, filter (λ e : Z * FileDescriptor, e.1 < x) (ft_entries tb) ##ₘ filter (λ e : Z * FileDescriptor, y <= e.1) (filter (λ e : Z * FileDescriptor, x <= e.1) (ft_entries tb))) as Hdis.
    { intros x y. apply map_disjoint_spec. intros k a b [_ H1]%map_lookup_filter_Some [[_ H2]%map_lookup_filter_Some _]%map_lookup_filter_Some. cbn in *. lia. }
    unfold in_range. rewrite negb_true_iff, bool_decide_eq_false. case_decide as Hl.
    - rewrite (right_id_L ∅ (∪)), map_lookup_filter_Some. cbn [fst]. split; [intros [? ?]; split; [done|lia]|].
      intros [Hm Hr]. split; [done|]. pose proof (Hmax fd ltac:(by eexists)). lia.
    - rewrite lookup_union_Some, !map_lookup_filter_Some by apply Hdis. cbn [fst]. unfold saturating_add.
      split; [intros [[? ?]|[[? ?] ?]]; (split; [done|lia])|]. intros [Hm Hr]. destruct (decide (fd < first)); [by left|]. right. split; [split; [done|lia]|lia]. }
  assert (∀ fd d, lose !! fd = Some d ↔ ft_entries tb !! fd = Some d ∧ negb (in_range first last fd d) = false) as Hl.
  { intros fd d. unfold lose, in_range. rewrite negb_false_iff, bool_decide_eq_true. case_decide as Hl; rewrite !map_lookup_filter_Some; cbn [fst].
    - split; [intros [? ?]; split; [done|]|intros [? ?]; split; [done|lia]]. pose proof (Hmax fd ltac:(by eexists)). lia.
    - unfold saturating_add. split; [intros [[? ?] ?]; split; [done|lia]|intros [? ?]; split; [split; [done|lia]|lia]]. }
  destruct (split_maps _ _ _ (λ fd d, negb (in_range first last fd d)) Hk Hl) as [Hd Hu].
  rewrite <-(map_eq_only _ keep (λ fd d, negb (in_range first last fd d))) by exact Hk. by apply fd_retain_rule.
Qed.

Lemma set_cloexec_rule w t tb fd cloexec :
  fds_ok w [] → fw_tables w !! t = Some tb →
  wp_res (set_cloexec t fd cloexec : MD (option unit)) w
    (λ r w', fds_ok w' [] ∧ (r = Some () ↔ is_Some (ft_entries tb !! fd)) ∧
       moves w w' (with_entries (fw_tables w) t tb (alter (with_cloexec cloexec) fd (ft_entries tb)))) (λ _ _, False).
Proof.
  intros Hok Ht. unfold set_cloexec. wp_step. eapply entries_of_rule; [done|]. destruct (ft_entries tb !! fd) as [d|] eqn:Hd.
  - assert (alter (with_cloexec cloexec) fd (ft_entries tb) = <[fd := with_cloexec cloexec d]> (ft_entries tb)) as -> by (apply map_eq; intros k; destruct (decide (k = fd)) as [->|]; [by rewrite lookup_alter_eq, lookup_insert_eq, Hd|by rewrite lookup_alter_ne, lookup_insert_ne by done]).
    wp_step. eapply wp_res_mono; [eapply (put_entries_rule w t tb _ _ []); [done|done|]|cbv beta|done].
    + pose proof (refs_of_replace _ _ _ (with_cloexec cloexec d) Hd) as Hp. cbn [with_cloexec fd_file] in Hp. rewrite app_nil_r, app_nil_r.
      rewrite <-Permutation_cons_append in Hp. symmetry. by eapply Permutation_cons_inv.
    + intros _ w1 (Hok1 & Hm1). wp_run. split; [done|]. split; [|done]. split; [by eexists|done].
  - wp_run. split; [done|]. split; [split; [done|by intros [? ?]]|]. split; [|done]. unfold with_entries. rewrite insert_id; [done|].
    rewrite Ht. destruct tb as [ow m]. cbn [ft_owners ft_entries] in *. do 2 f_equal. apply map_eq. intros k. destruct (decide (k = fd)) as [->|]; [by rewrite lookup_alter_eq, Hd|by rewrite lookup_alter_ne].
Qed.

Lemma refs_of_imap (g : Z → FileDescriptor → FileDescriptor) m :
  (∀ fd d, fd_file (g fd d) = fd_file d) → refs_of (map_imap (λ fd d, Some (g fd d)) m) ≡ₚ refs_of m.
Proof.
  intros Hg. induction m as [|fd d m Hm IH] using map_ind; [done|].
  rewrite map_imap_insert_Some with (y := g fd d) by done. rewrite !refs_of_insert; [by rewrite Hg, IH|done|]. by rewrite map_lookup_imap, Hm.
Qed.

Lemma set_cloexec_range_rule w t tb first last :
  fds_ok w [] → fw_tables w !! t = Some tb →
  wp_res (set_cloexec_range t first last : MD unit) w
    (λ _ w', fds_ok w' [] ∧ moves w w' (with_entries (fw_tables w) t tb
       (map_imap (λ fd d, Some (if decide (first <= fd <= last) then with_cloexec true d else d)) (ft_entries tb)))) (λ _ _, False).
Proof.
  intros Hok Ht. unfold set_cloexec_range. destruct (decide (last < first)) as [Hlt|Hge].
  - wp_run. split; [done|]. split; [|done]. unfold with_entries. rewrite insert_id; [done|]. rewrite Ht. destruct tb as [ow m]. cbn [ft_owners ft_entries].
    do 2 f_equal. apply map_eq. intros k. rewrite map_lookup_imap. destruct (m !! k); [|done]. cbn. by rewrite decide_False by lia.
  - wp_step. eapply entries_of_rule; [done|]. eapply put_entries_rule; [done|done|]. rewrite !app_nil_r. symmetry.
    apply (refs_of_imap (λ fd d, if decide (first <= fd <= last) then with_cloexec true d else d)). intros fd d. by case_decide.
Qed.

(** A table of its own with the same descriptors. *)
Lemma fork_rule w t tb :
  fds_ok w [] → fw_tables w !! t = Some tb →
  wp_res (table_fork_copy t : MD Z) w
    (λ r w', fds_ok w' [] ∧ r = fw_next_table w ∧ fw_tables w !! r = None ∧ fw_tables w' = <[r := mkTable 1 (ft_entries tb)]> (fw_tables w)) (λ _ _, False).
Proof.
  intros Hok Ht. unfold table_fork_copy. wp_step. eapply entries_of_rule; [done|]. wp_step.
  eapply wp_res_mono; [eapply clone_all_rule; [done|]|cbv beta|done].
  { intros d Hd. rewrite fd_order_perm in Hd. apply list_elem_of_fmap in Hd as ([fd d'] & -> & Hin). apply elem_of_map_to_list in Hin. by eapply table_refs_elem. }
  intros _ w1 (Hok1 & Ht1 & Hn1 & Hf1). rewrite app_nil_r in Hok1.
  unfold wp_res, wp, alloc_table. cbn [fst snd]. rewrite Hn1.
  assert (fw_tables w !! fw_next_table w = None) as Hfresh by (apply (fo_tables _ _ Hok); lia).
  split; [|split; [done|]; split; [done|]; cbn [fw_tables]; by rewrite Ht1].
  destruct Hok1 as [Hc Hfr Htt]. constructor; cbn [fw_files fw_tables fw_next_file fw_next_table]; [|done|].
  - intros f. assert (table_refs (<[fw_next_table w := mkTable 1 (ft_entries tb)]> (fw_tables w1)) ++ [] ≡ₚ table_refs (fw_tables w1) ++ (fd_file <$> in_order (ft_entries tb))) as Hp.
    { rewrite table_refs_insert by (by rewrite Ht1). cbn [ft_entries]. rewrite app_nil_r, in_order_refs. apply Permutation_app_comm. }
    rewrite (occ_proper f _ _ Hp). apply Hc.
  - intros x Hx. rewrite lookup_insert_ne by lia. apply Htt. lia.
Qed.

Lemma share_rule w t tb :
  fds_ok w [] → fw_tables w !! t = Some tb →
  wp_res (share_table t : MD unit) w
    (λ _ w', fds_ok w' [] ∧ moves w w' (<[t := mkTable (ft_owners tb + 1) (ft_entries tb)]> (fw_tables w))) (λ _ _, False).
Proof.
  intros Hok Ht. unfold share_table. wp_step. eapply table_at_rule; [done|]. wp_run. split; [|done]. eapply fds_ok_tables; [done|..].
  - rewrite (table_refs_delete _ t tb), (table_refs_replace _ t tb) by done. done.
  - intros x Hx. rewrite lookup_insert_ne; [by apply (fo_tables _ _ Hok)|]. intros <-. rewrite (fo_tables _ _ Hok) in Ht; [done|lia].
Qed.

Lemma drop_table_rule w t tb :
  fds_ok w [] → fw_tables w !! t = Some tb →
  wp_res (drop_table t : MD unit) w
    (λ _ w', fds_ok w' [] ∧ moves w w' (if decide (ft_owners tb = 1) then delete t (fw_tables w) else <[t := mkTable (ft_owners tb - 1) (ft_entries tb)]> (fw_tables w))) (λ _ _, False).
Proof.
  intros Hok Ht. unfold drop_table. wp_step. eapply table_at_rule; [done|]. case_decide.
  - wp_step. wp_step. eapply wp_res_mono; [eapply drop_all_rule|cbv beta|done].
    + eapply fds_ok_tables; [done|..].
      * rewrite (table_refs_delete _ t tb) by done. rewrite in_order_refs, !app_nil_r. apply Permutation_app_comm.
      * intros x Hx. rewrite lookup_delete_None. right. by apply (fo_tables _ _ Hok).
    + intros _ w1 (Hok1 & Hm). done.
  - wp_run. split; [|done]. eapply fds_ok_tables; [done|..].
    + rewrite (table_refs_delete _ t tb), (table_refs_replace _ t tb) by done. done.
    + intros x Hx. rewrite lookup_insert_ne; [by apply (fo_tables _ _ Hok)|]. intros <-. rewrite (fo_tables _ _ Hok) in Ht; [done|lia].
Qed.

(** The file operations of the node accept the open; otherwise the kernel
    panics. *)
Lemma insert_node_rule w t tb node flags filesystem location cloexec :
  fds_ok w [] → fw_tables w !! t = Some tb → has_free (ft_entries tb) 0 →
  (∃ b s', on_open node flags (fw_nodes w) = (Ok b, s')) →
  wp_res (insert_node t node flags filesystem location cloexec : MD Z) w
    (λ r w', fds_ok w' [] ∧ lowest_free (ft_entries tb) 0 r ∧
       fw_tables w' = with_entries (fw_tables w) t tb (<[r := mkDescriptor (fw_next_file w) filesystem location cloexec]> (ft_entries tb)) ∧
       fw_next_table w' = fw_next_table w) (λ _ _, False).
Proof.
  intros Hok Ht Hfree Hopen. unfold insert_node. wp_step. unfold wp_res at 1, wp at 1. unfold open_new. destruct Hopen as (b & s' & Ho). rewrite Ho. cbn [fst snd].
  set (w1 := set_files _ _). set (f := fw_next_file w).
  assert (fds_ok w1 [f]) as Hok1.
  { destruct Hok as [Hc Hfr Htt]. unfold w1. constructor; cbn [set_files fw_files fw_tables fw_next_file fw_next_table]; [| |done].
    - intros g. rewrite occ_held. specialize (Hc g). destruct (decide (f = g)) as [<-|Hne].
      + rewrite lookup_insert_eq. cbn [of_refs]. rewrite Hfr in Hc by (unfold f; lia). lia.
      + rewrite lookup_insert_ne by done. apply Hc.
    - intros g Hg. rewrite lookup_insert_ne by (unfold f; lia). apply Hfr. lia. }
  eapply wp_res_mono; [eapply (insert_descriptor_rule w1 t tb (mkDescriptor f filesystem location cloexec) 0 []); [done|done|unfold u32_max; lia|done]|cbv beta|done].
  intros r w2 (Hlow & Hok2 & Hm). destruct Hm as (Ht2 & Hn2 & Hf2). split; [done|]. split; [done|]. split; [by rewrite Ht2|]. by rewrite Hn2.
Qed.

Lemma put_file_rule w held f o o' :
  fds_ok w held → fw_files w !! f = Some o → of_refs o' = of_refs o →
  wp_res (put_file f o' : MD unit) w (λ _ w', fds_ok w' held ∧ moves w w' (fw_tables w)) (λ _ _, False).
Proof.
  intros [Hc Hfr Ht] Ho Hr. unfold put_file. wp_run. split; [|done]. constructor; cbn [set_files fw_files fw_tables fw_next_file fw_next_table]; [| |done].
  - intros g. specialize (Hc g). destruct (decide (f = g)) as [<-|Hne]; [|by rewrite lookup_insert_ne]. rewrite lookup_insert_eq, Hr. by rewrite Ho in Hc.
  - intros g Hg. rewrite lookup_insert_ne; [by apply Hfr|]. intros <-. by rewrite Hfr in Ho.
Qed.
End rules.


(** ** System calls *)

(** Descriptors are 32-bit numbers. *)
Definition keys_ok (T : gmap Z FdTable) : Prop := ∀ t tb fd, T !! t = Some tb → is_Some (ft_entries tb !! fd) → 0 <= fd <= u32_max.

Record fd_world_ok w : Prop := {
  fw_ok : fds_ok w [];
  fw_keys : keys_ok (fw_tables w);
}.

Lemma keys_ok_entries T t tb m :
  keys_ok T → (∀ fd, is_Some (m !! fd) → 0 <= fd <= u32_max) → keys_ok (with_entries T t tb m).
Proof.
  intros HT Hm x tb' fd. unfold with_entries. destruct (decide (x = t)) as [->|].
  - rewrite lookup_insert_eq. intros [= <-]. apply Hm.
  - rewrite lookup_insert_ne by done. apply HT.
Qed.

Lemma keys_ok_insert T t tb fd d : keys_ok T → T !! t = Some tb → 0 <= fd <= u32_max → keys_ok (with_entries T t tb (<[fd := d]> (ft_entries tb))).
Proof.
  intros HT Ht Hfd. apply keys_ok_entries; [done|]. intros x. destruct (decide (x = fd)) as [->|]; [done|]. rewrite lookup_insert_ne by done. by eapply HT.
Qed.

Lemma keys_ok_only T t tb P : keys_ok T → T !! t = Some tb → keys_ok (with_entries T t tb (only P (ft_entries tb))).
Proof. intros HT Ht. apply keys_ok_entries; [done|]. intros x [d Hd]. apply lookup_only in Hd as [Hd _]. eapply HT; [done|by eexists]. Qed.

Inductive FdCall :=
| CallOpen (node : NodeRef) (flags : Z) (filesystem : FileSystemIdentity) (location : option FsLocation) (cloexec : bool)
| CallDup (fd : Z)
| CallDup2 (oldfd newfd : Z)
| CallDup3 (oldfd newfd flags : Z)
| CallClose (fd : Z)
| CallCloseRange (first last flags : Z)
| CallFcntl (fd : Z) (command : FcntlCommand) (arg : Z)
| CallExec
| CallFork
| CallShare
| CallExit.

Definition run_fd_call (t : Z) (call : FdCall) : MX Z :=
  match call with
  | CallOpen node flags filesystem location cloexec => insert_node t node flags filesystem location cloexec
  | CallDup fd => sys_dup t fd
  | CallDup2 oldfd newfd => sys_dup2 t oldfd newfd
  | CallDup3 oldfd newfd flags => sys_dup3 t oldfd newfd flags
  | CallClose fd => close_fd t fd
  | CallCloseRange first last flags => sys_close_range t first last flags
  | CallFcntl fd command arg => fcntl t fd command arg
  | CallExec => _ ← close_cloexec t; mret 0
  | CallFork => table_fork_copy t
  | CallShare => _ ← share_table t; mret 0
  | CallExit => _ ← drop_table t; mret 0
  end.

(** The last descriptor is free, so every search for a free one ends. *)
Definition has_room (tb : FdTable) : Prop := ft_entries tb !! u32_max = None.

Lemma room_free tb min_fd : has_room tb → min_fd <= u32_max → has_free (ft_entries tb) min_fd.
Proof. intros Hr Hm. exists u32_max. split; [lia|done]. Qed.

Lemma as_u32_range x : 0 <= as_u32 x <= u32_max.
Proof. unfold as_u32, u32_max. pose proof (Z.mod_pos_bound x (2 ^ 32) ltac:(lia)). lia. Qed.

Lemma moves_ok w w' T : fds_ok w' [] → moves w w' T → keys_ok T → fd_world_ok w'.
Proof. intros Hok (Ht & _ & _) HT. constructor; [done|]. by rewrite Ht. Qed.

Lemma duplicate_call_rule w t tb fd min_fd cloexec :
  fd_world_ok w → fw_tables w !! t = Some tb → has_free (ft_entries tb) min_fd → 0 <= min_fd <= u32_max →
  wp_res (r ← duplicate t fd min_fd cloexec; mok_or r SysErr.BadFd : MX Z) w (λ _ w', fd_world_ok w') (λ _ w', fd_world_ok w').
Proof.
  intros Hw Ht Hroom Hmin. pose proof Hw as [Hok Hk]. wp_step. eapply wp_res_mono; [eapply duplicate_rule; [done|done|lia|done]|cbv beta|done].
  intros r w' (Hok' & H). destruct (ft_entries tb !! fd), r; try done; wp_run.
  - destruct H as (Hlow & Hm). eapply moves_ok; [done|done|]. apply keys_ok_insert; [done|done|]. destruct Hlow. lia.
  - by subst.
Qed.

Lemma dup_to_rule w t tb oldfd newfd flags same :
  fd_world_ok w → fw_tables w !! t = Some tb →
  wp_res (dup_to t oldfd newfd flags same : MX Z) w (λ _ w', fd_world_ok w') (λ _ w', fd_world_ok w').
Proof.
  intros Hw Ht. pose proof Hw as [Hok Hk]. unfold dup_to. case_decide.
  - case_decide; [by wp_run|]. wp_step. eapply entries_of_rule; [done|]. wp_step. destruct (ft_entries tb !! as_u32 oldfd); by wp_run.
  - case_decide; [by wp_run|]. wp_step. eapply wp_res_mono; [by eapply duplicate_to_rule|cbv beta|done].
    intros r w' (Hok' & Hr). destruct (ft_entries tb !! _); destruct Hr as [-> Hr]; wp_run; [|by subst].
    eapply moves_ok; [done|done|]. apply keys_ok_insert; [done|done|]. apply as_u32_range.
Qed.

(** The lowest descriptor a call may take for a new one. *)
Definition takes_from (call : FdCall) : option Z :=
  match call with
  | CallOpen _ _ _ _ _ | CallDup _ => Some 0
  | CallFcntl _ F_DUPFD arg | CallFcntl _ F_DUPFD_CLOEXEC arg => Some (as_u32 arg)
  | _ => None
  end.

(** A descriptor is free for the call. *)
Definition place_left (call : FdCall) (tb : FdTable) : Prop :=
  match takes_from call with Some min_fd => has_free (ft_entries tb) min_fd | None => True end.

(** The node accepts the open. *)
Definition opens (call : FdCall) (s : S) : Prop :=
  match call with CallOpen node flags _ _ _ => ∃ b s', on_open node flags s = (Ok b, s') | _ => True end.

Lemma fd_call_rule w t tb call :
  opens call (fw_nodes w) → fd_world_ok w → fw_tables w !! t = Some tb → place_left call tb →
  wp_res (run_fd_call t call) w (λ _ w', fd_world_ok w') (λ _ w', fd_world_ok w').
Proof.
  intros Hopen Hw Ht Hroom. pose proof Hw as [Hok Hk]. destruct call; cbn [run_fd_call].
  - eapply wp_res_mono; [eapply insert_node_rule; [done|done|exact Hroom|done]|cbv beta|done].
    intros r w' (Hok' & Hlow & Ht' & _). constructor; [done|]. rewrite Ht'. apply keys_ok_insert; [done|done|]. destruct Hlow. lia.
  - unfold sys_dup. by eapply (duplicate_call_rule w t tb _ 0 false).
  - unfold sys_dup2. by eapply dup_to_rule.
  - unfold sys_dup3. by eapply dup_to_rule.
  - unfold close_fd. wp_step. eapply wp_res_mono; [by eapply close_rule|cbv beta|done]. intros r w' (Hok' & _ & Hm).
    assert (fd_world_ok w') as Hw'.
    { eapply moves_ok; [done|done|]. apply keys_ok_entries; [done|]. intros x [d Hd]. apply lookup_delete_Some in Hd as [_ Hd]. eapply Hk; [done|by eexists]. }
    destruct r; by wp_run.
  - unfold sys_close_range. case_decide; [by wp_run|]. case_decide; [by wp_run|]. wp_step. case_decide.
    + eapply wp_res_mono; [by eapply set_cloexec_range_rule|cbv beta|done]. intros _ w' (Hok' & Hm). wp_run. eapply moves_ok; [done|done|].
      apply keys_ok_entries; [done|]. intros x [d Hd]. rewrite map_lookup_imap in Hd. apply bind_Some in Hd as (d' & Hd' & _). eapply Hk; [done|by eexists].
    + eapply wp_res_mono; [eapply close_range_rule; [done|done|lia|]|cbv beta|done].
      * intros fd Hfd. by eapply Hk.
      * intros _ w' (Hok' & Hm). wp_run. eapply moves_ok; [done|done|]. by apply keys_ok_only.
  - destruct command; unfold fcntl.
    1-2: eapply duplicate_call_rule; try done; apply as_u32_range.
    1: wp_step; eapply entries_of_rule; [done|]; wp_step; destruct (ft_entries tb !! as_u32 fd); by wp_run.
    1: { wp_step. eapply wp_res_mono; [by eapply set_cloexec_rule|cbv beta|done]. intros r w' (Hok' & _ & Hm).
      assert (fd_world_ok w') as Hw'.
      { eapply moves_ok; [done|done|]. apply keys_ok_entries; [done|]. intros x Hx. apply lookup_alter_is_Some in Hx. by eapply Hk. }
      wp_step. destruct r; by wp_run. }
    all: wp_step; eapply entries_of_rule; [done|]; wp_step; destruct (ft_entries tb !! as_u32 fd) as [d|] eqn:Hd; [|by wp_run]; wp_step; wp_step;
      (destruct (held_open _ _ (fd_file d) Hok) as (o & Ho & Hpos); [apply elem_of_app; left; by eapply table_refs_elem|]); eapply file_at_rule; [done|].
    + by wp_run.
    + wp_step. unfold set_flags. wp_step. eapply file_at_rule; [done|]. eapply wp_res_mono; [eapply put_file_rule; done|cbv beta|done].
      intros _ w' (Hok' & Hm). wp_run. by eapply moves_ok.
  - wp_step. eapply wp_res_mono; [by eapply close_cloexec_rule|cbv beta|done]. intros _ w' (Hok' & Hm). wp_run. eapply moves_ok; [done|done|]. by apply keys_ok_only.
  - eapply wp_res_mono; [by eapply fork_rule|cbv beta|done]. intros r w' (Hok' & -> & Hn & Ht'). constructor; [done|]. rewrite Ht'. intros x tb' fd.
    destruct (decide (x = fw_next_table w)) as [->|]; [rewrite lookup_insert_eq; intros [= <-]; exact (Hk t tb fd Ht)|rewrite lookup_insert_ne by done; apply Hk].
  - wp_step. eapply wp_res_mono; [by eapply share_rule|cbv beta|done]. intros _ w' (Hok' & Hm). wp_run. eapply moves_ok; [done|done|]. intros x tb' fd.
    destruct (decide (x = t)) as [->|]; [rewrite lookup_insert_eq; intros [= <-]; exact (Hk t tb fd Ht)|rewrite lookup_insert_ne by done; apply Hk].
  - wp_step. eapply wp_res_mono; [by eapply drop_table_rule|cbv beta|done]. intros _ w' (Hok' & Hm). wp_run. eapply moves_ok; [done|done|]. intros x tb' fd. case_decide.
    + intros [_ Hx]%lookup_delete_Some. by eapply Hk.
    + destruct (decide (x = t)) as [->|]; [rewrite lookup_insert_eq; intros [= <-]; exact (Hk t tb fd Ht)|rewrite lookup_insert_ne by done; apply Hk].
Qed.

(** Without a free descriptor the search for one does not end. *)
Lemma insert_descriptor_full {E} w t tb d min_fd :
  fw_tables w !! t = Some tb → ¬ has_free (ft_entries tb) min_fd → min_fd <= u32_max →
  insert_descriptor (E := E) t d min_fd w = (Diverge, w).
Proof.
  intros Ht Hfree Hmin. unfold insert_descriptor, entries_of, table_at, mbind, M_bind. rewrite Ht. cbn.
  destruct (free_fd _ _ _) as [r|] eqn:Hr; [|done]. destruct Hfree. pose proof (free_fd_Some _ _ _ _ Hmin Hr) as (? & ? & _). exists r. split; [lia|done].
Qed.

Lemma duplicate_full w t tb fd min_fd cloexec :
  fd_world_ok w → fw_tables w !! t = Some tb → ¬ has_free (ft_entries tb) min_fd → min_fd <= u32_max →
  match (r ← duplicate t fd min_fd cloexec; mok_or r SysErr.BadFd : MX Z) w with
  | (Ok _, w') | (Err _, w') => fd_world_ok w'
  | (Panic, _) => False
  | (Diverge, _) => True
  end.
Proof.
  intros Hw Ht Hfree Hmin. pose proof Hw as [Hok Hk].
  unfold duplicate, entries_of, clone_file, put_file, table_at, file_at, mmodify, mbind, M_bind. rewrite Ht. cbn.
  destruct (ft_entries tb !! fd) as [d|] eqn:Hd; [|done].
  destruct (held_open _ _ (fd_file d) Hok) as (o & Ho & _); [apply elem_of_app; left; by eapply table_refs_elem|]. rewrite Ho. cbn.
  by rewrite (insert_descriptor_full _ t tb).
Qed.

Lemma open_full w t tb node flags filesystem location cloexec :
  fw_tables w !! t = Some tb → ¬ has_free (ft_entries tb) 0 ∨ ¬ opens (CallOpen node flags filesystem location cloexec) (fw_nodes w) →
  match (insert_node (E := SysErr.SysErr) t node flags filesystem location cloexec w).1 with
  | Panic => ¬ opens (CallOpen node flags filesystem location cloexec) (fw_nodes w)
  | Diverge => True
  | Ok _ | Err _ => False
  end.
Proof.
  intros Ht Hno. unfold insert_node, open_new, mbind, M_bind, opens in *. destruct (on_open node flags (fw_nodes w)) as [[b|e| |] s'].
  - destruct Hno as [Hno|[]]; [|by eexists _, _]. by rewrite (insert_descriptor_full _ t tb).
  - intros (? & ? & [=]).
  - intros (? & ? & [=]).
  - done.
Qed.

(** A call returns and keeps the tables well formed, except that an open which
    the node refuses panics, and that a call that needs a new descriptor does
    not end when none is free. *)
Lemma fd_call_outcome w t tb call :
  fd_world_ok w → fw_tables w !! t = Some tb →
  match run_fd_call t call w with
  | (Ok _, w') | (Err _, w') => fd_world_ok w'
  | (Panic, _) => ¬ opens call (fw_nodes w)
  | (Diverge, _) => ¬ opens call (fw_nodes w) ∨ ¬ place_left call tb
  end.
Proof.
  intros Hw Ht.
  assert (opens call (fw_nodes w) ∨ ¬ opens call (fw_nodes w)) as Ho.
  { destruct call; try (by left). unfold opens. destruct (on_open _ _ _) as [[b|e| |] s']; [left; by eexists _, _|right; by intros (? & ? & [=])..]. }
  assert (place_left call tb ∨ ¬ place_left call tb) as Hp.
  { unfold place_left. destruct (takes_from call) as [m|] eqn:Hm; [|by left].
    assert (m <= u32_max) as Hle by (destruct call as [| | | | | |? [] ?| | | |]; simplify_eq/=; solve [done|apply as_u32_range]).
    destruct (free_fd (size (ft_entries tb)) (ft_entries tb) m) as [r|] eqn:Hr.
    - left. pose proof (free_fd_Some _ _ _ _ Hle Hr) as (? & ? & _). exists r. split; [lia|done].
    - right. intros Hf. destruct (free_fd_total _ _ Hf) as [r Hr']. congruence. }
  assert (opens call (fw_nodes w) ∧ place_left call tb ∨ (¬ opens call (fw_nodes w) ∨ ¬ place_left call tb)) as [[Hy Hy']|Hno] by tauto.
  { pose proof (fd_call_rule w t tb call Hy Hw Ht Hy') as H. unfold wp_res, wp in H. by destruct (run_fd_call t call w) as [[| | |] w']. }
  assert (∀ m : MX Z, match m w with (Ok _, w') | (Err _, w') => fd_world_ok w' | (Panic, _) => False | (Diverge, _) => True end →
    match m w with (Ok _, w') | (Err _, w') => fd_world_ok w' | (Panic, _) => ¬ opens call (fw_nodes w) | (Diverge, _) => ¬ opens call (fw_nodes w) ∨ ¬ place_left call tb end) as Hdup
    by (intros m; destruct (m w) as [[| | |] w']; done).
  destruct call as [node flags filesystem location cloexec|fd| | | | |fd [] arg| | | |]; try (by destruct Hno as [[]|[]]); cbn [run_fd_call].
  - pose proof (open_full w t tb node flags filesystem location cloexec Ht ltac:(tauto)) as H.
    by destruct (insert_node t node flags filesystem location cloexec w) as [[| | |] w'].
  - apply Hdup. apply (duplicate_full w t tb _ 0 false Hw Ht); [by destruct Hno as [[]|]|done].
  - apply Hdup. apply (duplicate_full w t tb _ (as_u32 arg) false Hw Ht); [by destruct Hno as [[]|]|apply as_u32_range].
  - apply Hdup. apply (duplicate_full w t tb _ (as_u32 arg) true Hw Ht); [by destruct Hno as [[]|]|apply as_u32_range].
Qed.
End proof.
