(* ===== verification/FdTheorems.v ===== *)
(** * Open files and descriptor tables: theorems

    Files in memory are nodes that can be opened ([byte_nodes]): the demo
    worlds below run the descriptor operations over them. *)

From S2P Require Import Prelude Poll Errno Path MemFile MemFileProof Node Namespace Rootfs Fd FdProof.

(** ** Positions *)

(** What the nodes promise about one of them: it is a vector of bytes. *)
Record node_bytes {S} `{!OpenNodes S} (rep : S → NodeRef → list Z → Prop) : Prop := {
  nb_size s n bytes : rep s n bytes → on_size n s = Z.of_nat (length bytes);
  nb_read s n bytes off len :
    rep s n bytes → in_u64 off → in_u64 len →
    wp_res (on_read n off len) s (λ r s', rep s' n bytes ∧ r = take (Z.to_nat len) (drop (Z.to_nat off) bytes)) (λ _ s', rep s' n bytes);
  nb_write s n bytes off buffer :
    rep s n bytes → in_u64 off → off + Z.of_nat (length buffer) <= isize_max →
    wp_res (on_write n off buffer) s
      (λ k s', k = Z.of_nat (length buffer) ∧ rep s' n (MemFile.written (Z.to_nat off) buffer bytes)) (λ _ s', rep s' n bytes);
}.

Section cursor.
Context {S : Type} `{!OpenNodes S} (rep : S → NodeRef → list Z → Prop) (HN : node_bytes rep).
Implicit Types (w : fd_world S).

(** The file [f] of [w] stands at [pos] of the vector [bytes]. *)
Definition stands w f (o : OpenFileDescription) (pos : Z) (bytes : list Z) : Prop :=
  fw_files w !! f = Some (mkOpen (of_node o) (of_operations o) (of_flags o) pos (of_refs o)) ∧ rep (fw_nodes w) (of_node o) bytes.

Lemma wp_on_nodes {A} (op : M S FsError A) w (Q : A → fd_world S → Prop) (Qe : FsError → fd_world S → Prop) :
  wp_res op (fw_nodes w) (λ a s, Q a (set_fd_nodes s w)) (λ e s, Qe e (set_fd_nodes s w)) → wp_res (on_nodes op) w Q Qe.
Proof. unfold wp_res, wp, on_nodes. destruct (op (fw_nodes w)) as [[| | |] s]; done. Qed.

Lemma file_at_run {E} w f o (Q : OpenFileDescription → fd_world S → Prop) (Qe : E → fd_world S → Prop) :
  fw_files w !! f = Some o → Q o w → wp_res (file_at f) w Q Qe.
Proof. intros Ho HQ. unfold file_at, wp_res, wp. by rewrite Ho. Qed.

Lemma set_position_run w f o pos (Q : unit → fd_world S → Prop) Qe :
  fw_files w !! f = Some o →
  Q () (set_files (<[f := mkOpen (of_node o) (of_operations o) (of_flags o) pos (of_refs o)]> (fw_files w)) w) → wp_res (set_position f pos) w Q Qe.
Proof. intros Ho HQ. unfold set_position, put_file. wp_step. eapply file_at_run; [done|]. by wp_run. Qed.

Lemma read_cursor w f o bytes n :
  fw_files w !! f = Some o → rep (fw_nodes w) (of_node o) bytes → in_u64 (of_position o) → in_u64 n → of_position o + n <= u64_max →
  wp_res (file_read f n) w
    (λ r w', OpenFlags.can_read (of_flags o) = true ∧ r = take (Z.to_nat n) (drop (Z.to_nat (of_position o)) bytes) ∧
             stands w' f o (of_position o + Z.of_nat (length r)) bytes ∧ fw_tables w' = fw_tables w)
    (λ _ w', stands w' f o (of_position o) bytes ∧ fw_tables w' = fw_tables w).
Proof.
  intros Ho Hr Hp Hn Hb. unfold file_read. wp_step. eapply file_at_run; [done|].
  assert (∀ w', fw_files w' = fw_files w → rep (fw_nodes w') (of_node o) bytes → stands w' f o (of_position o) bytes) as Hst.
  { intros w' Hf Hr'. split; [|done]. rewrite Hf, Ho. by destruct o. }
  destruct (OpenFlags.can_read (of_flags o)); cbn [negb]; [|wp_run; split; [by apply Hst|done]].
  destruct (of_operations o); cbn [negb]; [|wp_run; split; [by apply Hst|done]].
  wp_step. apply wp_on_nodes. eapply wp_res_mono; [by eapply (nb_read _ HN)|cbv beta|cbv beta].
  - intros r s (Hr' & Hrr). wp_step. eapply set_position_run; [done|]. wp_run. split; [done|]. split; [done|]. split; [|done].
    assert (Z.of_nat (length r) <= n) as Hl by (rewrite Hrr, length_take; unfold in_u64 in *; lia).
    unfold saturating_add. rewrite Z.min_r by lia. split; [|done]. cbn [set_files set_fd_nodes fw_files]. apply lookup_insert_eq.
  - intros e s Hr'. split; [by apply Hst|done].
Qed.

Lemma write_cursor w f o bytes buffer :
  fw_files w !! f = Some o → rep (fw_nodes w) (of_node o) bytes → in_u64 (of_position o) →
  let pos := if OpenFlags.append (of_flags o) then Z.of_nat (length bytes) else of_position o in
  pos + Z.of_nat (length buffer) <= isize_max →
  wp_res (file_write f buffer) w
    (λ k w', OpenFlags.can_write (of_flags o) = true ∧ k = Z.of_nat (length buffer) ∧
             stands w' f o (pos + k) (MemFile.written (Z.to_nat pos) buffer bytes) ∧ fw_tables w' = fw_tables w)
    (λ _ w', (stands w' f o (of_position o) bytes ∨ stands w' f o pos bytes) ∧ fw_tables w' = fw_tables w).
Proof.
  intros Ho Hr Hp pos Hb. unfold file_write. wp_step. eapply file_at_run; [done|].
  destruct (OpenFlags.can_write (of_flags o)); cbn [negb].
  2:{ wp_run. split; [|done]. left. split; [|done]. rewrite Ho. by destruct o. }
  assert (∃ w1, fw_files w1 !! f = Some (mkOpen (of_node o) (of_operations o) (of_flags o) pos (of_refs o)) ∧ fw_nodes w1 = fw_nodes w ∧ fw_tables w1 = fw_tables w ∧
    ∀ (Q : unit → fd_world S → Prop) Qe, Q () w1 →
      wp_res (if OpenFlags.append (of_flags o) then w ← mget; set_position f (on_size (of_node o) (fw_nodes w)) else mret ()) w Q Qe) as (w1 & Hf1 & Hn1 & Ht1 & Hrun).
  { unfold pos. destruct (OpenFlags.append (of_flags o)).
    - eexists (set_files (<[f := mkOpen (of_node o) (of_operations o) (of_flags o) (Z.of_nat (length bytes)) (of_refs o)]> (fw_files w)) w).
      cbn [set_files fw_files fw_nodes fw_tables]. rewrite lookup_insert_eq. split; [done|]. split; [done|]. split; [done|]. intros Q Qe HQ. wp_step. wp_step.
      eapply set_position_run; [done|]. by rewrite (nb_size _ HN _ _ _ Hr).
    - exists w. rewrite Ho. split; [by destruct o|]. split; [done|]. split; [done|]. intros Q Qe HQ. by wp_run. }
  wp_step. apply Hrun. wp_step. eapply file_at_run; [done|]. cbn [of_operations of_node of_position].
  assert (in_u64 pos) as Hpu by (unfold pos, in_u64, u64_max, isize_max in *; destruct (OpenFlags.append _); lia).
  destruct (of_operations o) eqn:Hops; cbn [negb].
  2:{ wp_run. split; [|done]. right. split; [by rewrite Hf1, Hops|by rewrite Hn1]. }
  wp_step. apply wp_on_nodes. rewrite Hn1. eapply wp_res_mono; [by eapply (nb_write _ HN)|cbv beta|cbv beta].
  - intros k s (-> & Hr'). wp_step. eapply set_position_run; [by cbn|]. wp_run. split; [done|]. split; [done|]. split; [|done].
    cbn [of_node of_operations of_flags of_refs]. unfold saturating_add. rewrite Z.min_r by (unfold u64_max, isize_max in *; lia). split; [|done].
    cbn [set_files set_fd_nodes fw_files]. rewrite lookup_insert_eq. by rewrite Hops.
  - intros e s Hr'. split; [|done]. right. split; [|done]. cbn [set_fd_nodes fw_files]. by rewrite Hf1, Hops.
Qed.
End cursor.

(** ** Files in memory as nodes *)

Section bytes.
Context {F : Type} `{!FileOperations F} {rep : F → list Z → Prop} `{!ByteFile F rep}.

Definition on_file {A} (n : NodeRef) (op : M F FsError A) : M (gmap NodeRef F) FsError A := λ m,
  match m !! n with
  | None => (Err NotFile, m)
  | Some s => let '(r, s') := op s in (r, <[n := s']> m)
  end.

#[export] Instance byte_nodes : OpenNodes (gmap NodeRef F) := {
  on_open _ _ := mret true;
  on_read n off len := on_file n (fo_read off len);
  on_write n off buffer := on_file n (fo_write off buffer);
  on_size n m := match m !! n with Some s => fo_size s | None => 0 end;
  on_unlock _ _ m := m;
  on_release _ m := m;
}.

Definition byte_rep (m : gmap NodeRef F) (n : NodeRef) (bytes : list Z) : Prop := ∃ s, m !! n = Some s ∧ rep s bytes.

Lemma on_file_rule {A} n (op : M F FsError A) m s (Q : A → gmap NodeRef F → Prop) Qe :
  m !! n = Some s → wp_res op s (λ a s', Q a (<[n := s']> m)) (λ e s', Qe e (<[n := s']> m)) → wp_res (on_file n op) m Q Qe.
Proof. unfold wp_res, wp, on_file. intros ->. by destruct (op s) as [[| | |] s']. Qed.

Lemma byte_nodes_ok : node_bytes byte_rep.
Proof.
  assert (∀ m n s bytes, rep s bytes → byte_rep (<[n := s]> m) n bytes) as Hin by (intros m n s bytes Hs; exists s; by rewrite lookup_insert_eq).
  constructor.
  - intros m n bytes (s & Hs & Hr). cbn [on_size byte_nodes]. rewrite Hs. by apply (bf_size s bytes).
  - intros m n bytes off len (s & Hs & Hr) Ho Hl. eapply on_file_rule; [done|]. eapply wp_res_mono; [by eapply (bf_read s bytes)|cbv beta|done].
    intros r s' [-> ->]. eauto.
  - intros m n bytes off buffer (s & Hs & Hr) Ho Hl. eapply on_file_rule; [done|]. eapply wp_res_mono; [by eapply (bf_write s bytes)|cbv beta|cbv beta; eauto].
    intros k s' [-> Hr']. eauto.
Qed.
End bytes.

(** ** A world with one empty file *)

Abbreviation demo_nodes := (gmap NodeRef MutableMemoryFile).

Definition demo_fsid : FileSystemIdentity := mkIdentity 1 (LinuxStatFs_new 0 4096 255).

Definition fds_empty : fd_world demo_nodes := mkFdWorld {[ 0 := mkTable 1 ∅ ]} ∅ 0 1 {[ 7 := mkMutable [] ]}.

(** The file open for appending as descriptor 0 of table 0. *)
Definition fds_open : fd_world demo_nodes := (run_fd_call 0 (CallOpen 7 (Z.lor OpenFlags.READ OpenFlags.WRITE) demo_fsid None false) fds_empty).2.

Lemma fds_empty_ok : fd_world_ok fds_empty.
Proof.
  constructor.
  - constructor.
    + intros f. cbn [fds_empty fw_files fw_tables]. rewrite lookup_empty. reflexivity.
    + intros f _. apply lookup_empty.
    + intros t Ht. cbn [fds_empty fw_tables fw_next_table] in *. apply lookup_singleton_ne. lia.
  - intros t tb fd Ht [d Hd]. cbn [fds_empty fw_tables] in Ht. apply lookup_singleton_Some in Ht as [<- <-]. cbn [ft_entries] in Hd. by rewrite lookup_empty in Hd.
Qed.

(** ** Claims *)

Section reachable.
Context {S : Type} `{!OpenNodes S}.
Implicit Types (w : fd_world S).

(** Calls by the owners of tables, in any order, that return. *)
Inductive fds_reach : fd_world S → fd_world S → Prop :=
| fds_reach_refl w : fds_reach w w
| fds_reach_step w w1 w2 t tb call r :
    fds_reach w w1 → fw_tables w1 !! t = Some tb → run_fd_call t call w1 = (r, w2) →
    match r with Ok _ | Err _ => True | _ => False end → fds_reach w w2.

Lemma fds_reach_ok w w' : fd_world_ok w → fds_reach w w' → fd_world_ok w'.
Proof.
  intros Hok. induction 1 as [|w w1 w2 t tb call r Hr IH Ht Hrun Hret]; [done|].
  pose proof (fd_call_outcome w1 t tb call (IH Hok) Ht) as H. rewrite Hrun in H. by destruct r.
Qed.

(** C22. Open files live as long as their descriptors: after any sequence of
    opens, duplications, closes, changes of flags, program starts, forks,
    clones and exits of processes that return, a file is open exactly when some
    descriptor of some table refers to it, and its count is the number of these
    descriptors.  Every further call by a process returns, with two exceptions:
    an open panics only if the file operations of the node refuse it, and a call
    that needs a new descriptor runs forever only if none from the lowest one
    allowed is free (or if the file operations run forever). *)
Theorem fd_files_counted w w' t tb call :
  fd_world_ok w → fds_reach w w' → fw_tables w' !! t = Some tb →
  (∀ f, is_Some (fw_files w' !! f) ↔ ∃ t tb fd d, fw_tables w' !! t = Some tb ∧ ft_entries tb !! fd = Some d ∧ fd_file d = f) ∧
  (∀ f o, fw_files w' !! f = Some o → of_refs o = Z.of_nat (occ f (table_refs (fw_tables w')))) ∧
  match (run_fd_call t call w').1 with
  | Ok _ | Err _ => True
  | Panic => ¬ opens call (fw_nodes w')
  | Diverge => ¬ opens call (fw_nodes w') ∨ ¬ place_left call tb
  end.
Proof.
  intros Hok Hreach Ht. pose proof (fds_reach_ok _ _ Hok Hreach) as Hw'. pose proof (fw_ok _ Hw') as Hfds.
  assert (∀ f, is_Some (fw_files w' !! f) ↔ f ∈ table_refs (fw_tables w')) as Href.
  { intros f. pose proof (fo_count _ _ Hfds f) as Hc. rewrite app_nil_r in Hc. split.
    - intros [o Ho]. rewrite Ho in Hc. apply occ_pos. lia.
    - intros Hf. destruct (fw_files w' !! f); [by eexists|]. apply occ_elem in Hf. lia. }
  split; [|split].
  - intros f. rewrite Href. split; [apply table_refs_inv|]. intros (t' & tb' & fd & d & Ht' & Hd & <-). by eapply table_refs_elem.
  - intros f o Ho. pose proof (fo_count _ _ Hfds f) as Hc. rewrite Ho, app_nil_r in Hc. apply Hc.
  - pose proof (fd_call_outcome w' t tb call Hw' Ht) as H. by destruct (run_fd_call t call w') as [[| | |] w2].
Qed.

(** [dup] and [fcntl(F_DUPFD)] take the lowest free descriptor that is
    allowed and make it another name of the same open file: nothing else in any
    table changes, the file has one descriptor more and keeps its node, flags
    and position; a descriptor that is not open is refused without effect. *)
Theorem dup_lowest_shared w t tb fd arg :
  fd_world_ok w → fw_tables w !! t = Some tb → has_room tb →
  match ft_entries tb !! as_u32 fd, fcntl t fd F_DUPFD arg w with
  | Some d, (Ok newfd, w') =>
      lowest_free (ft_entries tb) (as_u32 arg) newfd ∧
      fw_tables w' = <[t := mkTable (ft_owners tb) (<[newfd := with_cloexec false d]> (ft_entries tb))]> (fw_tables w) ∧
      ∃ o, fw_files w !! fd_file d = Some o ∧
           fw_files w' = <[fd_file d := mkOpen (of_node o) (of_operations o) (of_flags o) (of_position o) (of_refs o + 1)]> (fw_files w)
  | None, (Err e, w') => e = SysErr.BadFd ∧ w' = w
  | _, _ => False
  end.
Proof.
  intros [Hok Hk] Ht Hroom. unfold fcntl. pose proof (as_u32_range arg) as Hr.
  pose proof (duplicate_rule (E := SysErr.SysErr) w t tb (as_u32 fd) (as_u32 arg) false Hok Ht (proj2 Hr) (room_free tb (as_u32 arg) Hroom (proj2 Hr))) as H.
  unfold wp_res, wp in H. unfold mbind, M_bind.
  destruct (ft_entries tb !! as_u32 fd) as [d|] eqn:Hd.
  - destruct (held_open _ _ (fd_file d) Hok) as (o & Ho & _); [apply elem_of_app; left; by eapply table_refs_elem|].
    assert (∀ r w', duplicate (E := SysErr.SysErr) t (as_u32 fd) (as_u32 arg) false w = (r, w') →
      fw_files w' = <[fd_file d := mkOpen (of_node o) (of_operations o) (of_flags o) (of_position o) (of_refs o + 1)]> (fw_files w)) as Hfiles.
    { intros r w'. unfold duplicate, insert_descriptor, entries_of, put_entries, clone_file, put_file, table_at, file_at, mmodify, mbind, M_bind. rewrite !Ht. cbn. rewrite Hd, Ho. cbn. rewrite Ht. cbn.
      destruct (free_fd _ _ _); cbn; rewrite ?Ht; cbn; by intros [= _ <-]. }
    destruct (duplicate (E := SysErr.SysErr) t (as_u32 fd) (as_u32 arg) false w) as [[[newfd|]|e| |] w'] eqn:Hdup; cbn [fst snd] in H; try done; [|by destruct H].
    destruct H as (_ & Hlow & Hm). split; [done|]. split; [apply Hm|]. exists o. split; [done|]. by eapply Hfiles.
  - destruct (duplicate (E := SysErr.SysErr) t (as_u32 fd) (as_u32 arg) false w) as [[[newfd|]|e| |] w'] eqn:Hdup; cbn [fst snd] in H; try done; [by destruct H|].
    destruct H as (_ & ->). done.
Qed.
End reachable.

Lemma fds_open_reach : fds_reach fds_empty fds_open.
Proof.
  eapply (fds_reach_step _ fds_empty _ 0 (mkTable 1 ∅) (CallOpen 7 (Z.lor OpenFlags.READ OpenFlags.WRITE) demo_fsid None false));
    [apply fds_reach_refl|reflexivity|apply surjective_pairing|vm_compute; exact I].
Qed.

(** After an open a duplicate makes the second descriptor of the file. *)
Lemma fd_files_counted_witness :
  (run_fd_call 0 (CallDup 0) fds_open).1 = Ok 1 ∧
  (∀ f o, fw_files fds_open !! f = Some o → of_refs o = Z.of_nat (occ f (table_refs (fw_tables fds_open)))) ∧
  fw_files fds_open !! 0 ≠ None.
Proof.
  split; [vm_compute; reflexivity|].
  destruct (fw_tables fds_open !! 0) as [tb|] eqn:Ht; [|by vm_compute in Ht].
  destruct (fd_files_counted fds_empty fds_open 0 tb (CallDup 0) fds_empty_ok fds_open_reach Ht) as (_ & H & _). split; [exact H|by vm_compute].
Defined.

Lemma dup_lowest_shared_witness :
  ∃ w', fcntl 0 0 F_DUPFD 5 fds_open = (Ok 5, w') ∧
    ∃ o, fw_files fds_open !! 0 = Some o ∧
         fw_files w' = <[0 := mkOpen (of_node o) (of_operations o) (of_flags o) (of_position o) (of_refs o + 1)]> (fw_files fds_open).
Proof.
  assert (∃ tb d, fw_tables fds_open !! 0 = Some tb ∧ has_room tb ∧ ft_entries tb !! as_u32 0 = Some d ∧ fd_file d = 0) as (tb & d & Ht & Hroom & Hd & Hf).
  { eexists _, _. split; [vm_compute; reflexivity|]. split; [vm_compute; reflexivity|]. split; vm_compute; reflexivity. }
  pose proof (dup_lowest_shared fds_open 0 tb 0 5 (fds_reach_ok _ _ fds_empty_ok fds_open_reach) Ht Hroom) as H. rewrite Hd, Hf in H.
  assert ((fcntl 0 0 F_DUPFD 5 fds_open).1 = Ok 5) as Hr by (vm_compute; reflexivity).
  destruct (fcntl 0 0 F_DUPFD 5 fds_open) as [r w']. cbn [fst] in Hr. subst r. destruct H as (_ & _ & H). by exists w'.
Defined.

(** An open file is a cursor on the bytes of its node.  A read returns the
    bytes from the position up to the end and moves the position behind them;
    a write, at the end when the file was opened for appending, replaces or
    adds exactly the bytes written and moves the position behind them; a file
    that is not open for the direction is refused.  What happens to one file
    does not change the tables. *)
Theorem open_file_cursor {S} `{!OpenNodes S} (rep : S → NodeRef → list Z → Prop) (w : fd_world S) f o bytes :
  node_bytes rep → fw_files w !! f = Some o → rep (fw_nodes w) (of_node o) bytes → in_u64 (of_position o) →
  (∀ n, in_u64 n → of_position o + n <= u64_max →
     wp_res (file_read f n) w
       (λ r w', OpenFlags.can_read (of_flags o) = true ∧ r = take (Z.to_nat n) (drop (Z.to_nat (of_position o)) bytes) ∧
                stands rep w' f o (of_position o + Z.of_nat (length r)) bytes ∧ fw_tables w' = fw_tables w)
       (λ _ w', stands rep w' f o (of_position o) bytes ∧ fw_tables w' = fw_tables w)) ∧
  (∀ buffer,
     let pos := if OpenFlags.append (of_flags o) then Z.of_nat (length bytes) else of_position o in
     pos + Z.of_nat (length buffer) <= isize_max →
     wp_res (file_write f buffer) w
       (λ k w', OpenFlags.can_write (of_flags o) = true ∧ k = Z.of_nat (length buffer) ∧
                stands rep w' f o (pos + k) (MemFile.written (Z.to_nat pos) buffer bytes) ∧ fw_tables w' = fw_tables w)
       (λ _ w', (stands rep w' f o (of_position o) bytes ∨ stands rep w' f o pos bytes) ∧ fw_tables w' = fw_tables w)).
Proof.
  intros HN Ho Hr Hp. split; [intros n Hn Hb; by apply read_cursor|intros buffer pos Hb; by apply write_cursor].
Qed.

Lemma open_file_cursor_witness :
  ∃ w', file_write 0 [1; 2; 3] fds_open = (Ok 3, w') ∧ ∃ o, stands (byte_rep (rep := mutable_rep)) w' 0 o 3 [1; 2; 3].
Proof.
  assert (∃ o, fw_files fds_open !! 0 = Some o ∧ of_node o = 7 ∧ of_position o = 0 ∧ OpenFlags.append (of_flags o) = false) as (o & Ho & Hn & Hp & Ha).
  { eexists. split; [vm_compute; reflexivity|]. repeat split; vm_compute; reflexivity. }
  destruct (open_file_cursor (byte_rep (rep := mutable_rep)) fds_open 0 o [] byte_nodes_ok Ho) as [_ H].
  { rewrite Hn. exists (mkMutable []). split; [vm_compute; reflexivity|reflexivity]. }
  { rewrite Hp. split; vm_compute; congruence. }
  specialize (H [1; 2; 3]). cbn zeta in H. rewrite Ha, Hp in H. specialize (H ltac:(vm_compute; congruence)).
  assert ((file_write 0 [1; 2; 3] fds_open).1 = Ok 3) as Hr by (vm_compute; reflexivity). unfold wp_res, wp in H.
  destruct (file_write 0 [1; 2; 3] fds_open) as [r w']. cbn [fst snd] in *. subst r. exists w'. split; [reflexivity|]. exists o. apply H.
Defined.

(** The status flags that [fcntl] reports are those of [open], as far as the
    kernel keeps them (an access mode of 3 is treated as reading). *)
Lemma status_flags_roundtrip raw :
  0 <= raw → Z.land raw O_ACCMODE ≠ 3 →
  linux_status_flags (linux_open_flags raw) = Z.land raw (Z.lor O_ACCMODE (Z.lor O_APPEND (Z.lor O_NONBLOCK O_DIRECTORY))).
Proof.
  intros Hraw H3.
  assert (Z.land raw (Z.lor O_ACCMODE (Z.lor O_APPEND (Z.lor O_NONBLOCK O_DIRECTORY))) =
    Z.lor (Z.land raw O_ACCMODE) (Z.lor (Z.land raw O_APPEND) (Z.lor (Z.land raw O_NONBLOCK) (Z.land raw O_DIRECTORY)))) as ->.
  { by rewrite !Z.land_lor_distr_r. }
  assert (∀ k, 0 <= k → Z.land raw (2 ^ k) = if Z.testbit raw k then 2 ^ k else 0) as Hbit.
  { intros k Hk. apply Z.bits_inj'. intros i Hi. rewrite Z.land_spec. destruct (decide (i = k)) as [->|Hne].
    - rewrite Z.pow2_bits_true by done. destruct (Z.testbit raw k); [by rewrite Z.pow2_bits_true|by rewrite Z.bits_0].
    - rewrite Z.pow2_bits_false by done. rewrite andb_false_r. destruct (Z.testbit raw k); [by rewrite Z.pow2_bits_false|by rewrite Z.bits_0]. }
  assert (0 <= Z.land raw O_ACCMODE < 4) as Hacc.
  { change O_ACCMODE with (Z.ones 2). rewrite Z.land_ones by lia. apply Z.mod_pos_bound. lia. }
  unfold linux_open_flags. change O_APPEND with (2 ^ 10). change O_NONBLOCK with (2 ^ 11). change O_DIRECTORY with (2 ^ 16). rewrite !Hbit by lia.
  assert (Z.land raw O_ACCMODE = 0 ∨ Z.land raw O_ACCMODE = 1 ∨ Z.land raw O_ACCMODE = 2) as [-> | [-> | ->]] by lia;
    destruct (Z.testbit raw 10), (Z.testbit raw 11), (Z.testbit raw 16); reflexivity.
Qed.
