(* ===== verification/Unix.v ===== *)
(** * Unix domain sockets

    Models [aether-kernel/src/net/unix.rs] with the types of
    [src/net/mod.rs] that it uses: stream, datagram and sequenced-packet
    sockets, their addresses, connections, queues and options.

    A socket is owned by [Arc]s: by the open files that refer to it and by the
    backlog of a listener that has not accepted it yet.  The sockets are a map
    from identities with the number of owners of each; [Weak] references are
    identities, and [upgrade] succeeds while the socket is in the map.  An
    operation runs to its end: a lock that its own thread holds already is
    never released, which is a loop ([mdiverge]).  The open files that travel
    as rights are values here. *)

From S2P Require Import Prelude Poll Errno Fd.

Definition AF_UNIX : Z := 1.
Definition FIONREAD : Z := 0x541b.
Definition SOCK_STREAM : Z := 1.
Definition SOCK_DGRAM : Z := 2.
Definition SOCK_SEQPACKET : Z := 5.
Definition UNIX_BUFFER_SIZE : Z := 64 * 1024.
Definition MSG_PEEK : Z := 2.
Definition MSG_TRUNC : Z := 0x20.
Definition SOL_SOCKET : Z := 1.
Definition SO_TYPE : Z := 3.
Definition SO_ERROR : Z := 4.
Definition SO_SNDBUF : Z := 7.
Definition SO_RCVBUF : Z := 8.
Definition SO_PASSCRED : Z := 16.
Definition SO_PEERCRED : Z := 17.
Definition SO_ACCEPTCONN : Z := 30.
Definition SO_SNDBUFFORCE : Z := 32.
Definition SO_RCVBUFFORCE : Z := 33.
Definition SO_PROTOCOL : Z := 38.
Definition SO_DOMAIN : Z := 39.
Definition i32_max : Z := 2 ^ 31 - 1.

(** ** Addresses *)

Record UnixAddress := mkAddress {
  ua_key : list Z;
  abstract_namespace : bool;
}.
#[global] Instance UnixAddress_eq_dec : EqDecision UnixAddress.
Proof. solve_decision. Defined.
#[global] Instance UnixAddress_countable : Countable UnixAddress.
Proof.
  refine (inj_countable' (λ a, (ua_key a, abstract_namespace a)) (λ p, mkAddress p.1 p.2) _). by intros [].
Defined.

(** [iter().position(|byte| *byte == 0).unwrap_or(len)] *)
Fixpoint zero_position (path : list Z) : nat :=
  match path with
  | [] => O
  | b :: rest => if decide (b = 0) then O else S (zero_position rest)
  end.

Definition from_raw (address : list Z) : outcome SysErr.SysErr UnixAddress :=
  match address with
  | b0 :: b1 :: path =>
      if decide (le_val [b0; b1] ≠ AF_UNIX) then Err SysErr.AfNoSupport
      else
        match path with
        | [] => Err SysErr.Inval
        | first :: _ =>
            if decide (first = 0) then Ok (mkAddress path true)
            else
              let end_ := zero_position path in
              if decide (end_ = O) then Err SysErr.Inval
              else Ok (mkAddress (take end_ path) false)
        end
  | _ => Err SysErr.Inval
  end.

Definition serialize (a : UnixAddress) : list Z :=
  le_bytes 2 AF_UNIX ++ ua_key a ++ (if abstract_namespace a then [] else [0]).

Definition unnamed_address : list Z := le_bytes 2 AF_UNIX.

(** ** State *)

Record SocketCredentials := mkCred { cr_pid : Z; cr_uid : Z; cr_gid : Z }.

Record UnixAncillary := mkAncillary {
  an_rights : list FileDescriptor;
  an_credentials : option SocketCredentials;
}.

Record UnixStreamChunk := mkChunk {
  ch_data : list Z;
  ch_read_offset : nat;
  ch_ancillary : option UnixAncillary;
}.

Record UnixPacket := mkPacket {
  pk_data : list Z;
  pk_source : option (list Z);
  pk_ancillary : option UnixAncillary;
}.

Record UnixSocketState := mkUnixState {
  bound_address : option UnixAddress;
  us_peer : option Z;
  pending_connect : option Z;
  us_peer_credentials : option SocketCredentials;
  established : bool;
  listening : bool;
  backlog_limit : Z;
  us_backlog : list Z;
  pending_connects : list Z;
  us_recv_stream : list UnixStreamChunk;
  recv_packets : list UnixPacket;
  recv_size : Z;
  passcred : bool;
  sndbuf : Z;
  rcvbuf : Z;
  shut_rd : bool;
  shut_wr : bool;
  closed : bool;
}.

Record UnixSocket := mkSocket {
  us_kind : Z;
  us_owner : SocketCredentials;
  us_state : UnixSocketState;
  us_version : Z;
  us_waiters : WaitQueue Z;
  us_refs : Z;
}.

Record ux_world := mkUx {
  ux_sockets : gmap Z UnixSocket;
  ux_next : Z;
  (** [BOUND_SOCKETS] *)
  ux_bound : gmap UnixAddress Z;
  ux_woken : list (Z * Z);
}.

Definition ux_new : ux_world := mkUx ∅ 1 ∅ [].

(** Assignments to fields. *)
Definition set_peer (p : option Z) (c : option SocketCredentials) (e : bool) (s : UnixSocketState) : UnixSocketState :=
  mkUnixState (bound_address s) p (pending_connect s) c e (listening s) (backlog_limit s) (us_backlog s) (pending_connects s)
    (us_recv_stream s) (recv_packets s) (recv_size s) (passcred s) (sndbuf s) (rcvbuf s) (shut_rd s) (shut_wr s) (closed s).
Definition set_pending (p : option Z) (s : UnixSocketState) : UnixSocketState :=
  mkUnixState (bound_address s) (us_peer s) p (us_peer_credentials s) (established s) (listening s) (backlog_limit s) (us_backlog s) (pending_connects s)
    (us_recv_stream s) (recv_packets s) (recv_size s) (passcred s) (sndbuf s) (rcvbuf s) (shut_rd s) (shut_wr s) (closed s).
Definition set_bound (a : option UnixAddress) (s : UnixSocketState) : UnixSocketState :=
  mkUnixState a (us_peer s) (pending_connect s) (us_peer_credentials s) (established s) (listening s) (backlog_limit s) (us_backlog s) (pending_connects s)
    (us_recv_stream s) (recv_packets s) (recv_size s) (passcred s) (sndbuf s) (rcvbuf s) (shut_rd s) (shut_wr s) (closed s).
Definition set_listening (limit : Z) (s : UnixSocketState) : UnixSocketState :=
  mkUnixState (bound_address s) (us_peer s) (pending_connect s) (us_peer_credentials s) (established s) true limit (us_backlog s) (pending_connects s)
    (us_recv_stream s) (recv_packets s) (recv_size s) (passcred s) (sndbuf s) (rcvbuf s) (shut_rd s) (shut_wr s) (closed s).
Definition set_backlog (l : list Z) (s : UnixSocketState) : UnixSocketState :=
  mkUnixState (bound_address s) (us_peer s) (pending_connect s) (us_peer_credentials s) (established s) (listening s) (backlog_limit s) l (pending_connects s)
    (us_recv_stream s) (recv_packets s) (recv_size s) (passcred s) (sndbuf s) (rcvbuf s) (shut_rd s) (shut_wr s) (closed s).
Definition set_connects (l : list Z) (s : UnixSocketState) : UnixSocketState :=
  mkUnixState (bound_address s) (us_peer s) (pending_connect s) (us_peer_credentials s) (established s) (listening s) (backlog_limit s) (us_backlog s) l
    (us_recv_stream s) (recv_packets s) (recv_size s) (passcred s) (sndbuf s) (rcvbuf s) (shut_rd s) (shut_wr s) (closed s).
Definition set_queues (st : list UnixStreamChunk) (pk : list UnixPacket) (n : Z) (s : UnixSocketState) : UnixSocketState :=
  mkUnixState (bound_address s) (us_peer s) (pending_connect s) (us_peer_credentials s) (established s) (listening s) (backlog_limit s) (us_backlog s) (pending_connects s)
    st pk n (passcred s) (sndbuf s) (rcvbuf s) (shut_rd s) (shut_wr s) (closed s).
Definition set_options (pc : bool) (snd rcv : Z) (s : UnixSocketState) : UnixSocketState :=
  mkUnixState (bound_address s) (us_peer s) (pending_connect s) (us_peer_credentials s) (established s) (listening s) (backlog_limit s) (us_backlog s) (pending_connects s)
    (us_recv_stream s) (recv_packets s) (recv_size s) pc snd rcv (shut_rd s) (shut_wr s) (closed s).
Definition set_shut (rd wr : bool) (s : UnixSocketState) : UnixSocketState :=
  mkUnixState (bound_address s) (us_peer s) (pending_connect s) (us_peer_credentials s) (established s) (listening s) (backlog_limit s) (us_backlog s) (pending_connects s)
    (us_recv_stream s) (recv_packets s) (recv_size s) (passcred s) (sndbuf s) (rcvbuf s) rd wr (closed s).

Definition initial_state : UnixSocketState :=
  mkUnixState None None None None false false 0 [] [] [] [] 0 false UNIX_BUFFER_SIZE UNIX_BUFFER_SIZE false false false.

Definition MS := M ux_world SysErr.SysErr.

(** ** Access *)

Section access.
Context {E : Type}.
Abbreviation MU := (M ux_world E).

(** The socket of an [Arc]. *)
Definition sock_at (id : Z) : MU UnixSocket := λ w, mexpect (ux_sockets w !! id) w.
(** [Weak::upgrade] *)
Definition upgrade (weak : option Z) : MU (option Z) :=
  w ← mget; mret (weak ≫= λ id, if decide (is_Some (ux_sockets w !! id)) then Some id else None).
Definition put_sock (id : Z) (s : UnixSocket) (w : ux_world) : ux_world := mkUx (<[id := s]> (ux_sockets w)) (ux_next w) (ux_bound w) (ux_woken w).
Definition with_st (st : UnixSocketState) (s : UnixSocket) : UnixSocket := mkSocket (us_kind s) (us_owner s) st (us_version s) (us_waiters s) (us_refs s).
(** A change under the lock of the socket. *)
Definition update (id : Z) (f : UnixSocketState → UnixSocketState) : MU unit :=
  s ← sock_at id; mmodify (put_sock id (with_st (f (us_state s)) s)).
Definition state_at (id : Z) : MU UnixSocketState := s ← sock_at id; mret (us_state s).
Definition set_bound_table (m : gmap UnixAddress Z) : MU unit := mmodify (λ w, mkUx (ux_sockets w) (ux_next w) m (ux_woken w)).

Definition ux_notify (id events : Z) : MU unit :=
  s ← sock_at id;
  let '(woken, q) := notify (us_waiters s) events in
  mmodify (λ w, mkUx (<[id := mkSocket (us_kind s) (us_owner s) (us_state s) (wrapping_add u64_max (us_version s) 1) q (us_refs s)]> (ux_sockets w))
                     (ux_next w) (ux_bound w) (ux_woken w ++ woken)).

Fixpoint notify_all (ids : list Z) (events : Z) : MU unit :=
  match ids with
  | [] => mret ()
  | id :: rest => _ ← ux_notify id events; notify_all rest events
  end.

(** [UnixSocket::shared]: a socket with one owner. *)
Definition shared (kind : Z) (owner : SocketCredentials) : MU Z :=
  w ← mget;
  let id := ux_next w in
  _ ← mput (mkUx (<[id := mkSocket kind owner initial_state 1 WaitQueue_new 1]> (ux_sockets w)) (id + 1) (ux_bound w) (ux_woken w));
  mret id.

(** The connectors that are still there, in order; the others leave the list. *)
Definition collect_pending_connects (id : Z) : MU (list Z) :=
  w ← mget;
  st ← state_at id;
  let alive := filter (λ c, is_Some (ux_sockets w !! c)) (pending_connects st) in
  _ ← update id (set_connects alive);
  mret alive.

Definition notify_pending_connects (listener events : Z) : MU unit :=
  connectors ← collect_pending_connects listener; notify_all connectors events.

Definition clear_pending_connect (client : Z) : MU unit :=
  st ← state_at client;
  _ ← update client (set_pending None);
  pending ← upgrade (pending_connect st);
  match pending with
  | None => mret ()
  | Some listener => update listener (λ s, set_connects (filter (λ c, c ≠ client) (pending_connects s)) s)
  end.

Definition lookup_bound (a : UnixAddress) : MU (option Z) :=
  w ← mget;
  socket ← upgrade (ux_bound w !! a);
  _ ← (if decide (socket = None) then set_bound_table (delete a (ux_bound w)) else mret ());
  mret socket.
End access.

Definition is_stream_like (s : UnixSocket) : bool := bool_decide (us_kind s = SOCK_STREAM).
Definition is_packet_like (s : UnixSocket) : bool := bool_decide (us_kind s = SOCK_DGRAM ∨ us_kind s = SOCK_SEQPACKET).
Definition is_connection_oriented (s : UnixSocket) : bool := bool_decide (us_kind s = SOCK_STREAM ∨ us_kind s = SOCK_SEQPACKET).

Definition local_name (st : UnixSocketState) : list Z :=
  match bound_address st with Some a => serialize a | None => unnamed_address end.

(** ** Creation *)

Definition ux_pair (left right : Z) : MS unit :=
  r ← sock_at right;
  _ ← update left (set_peer (Some right) (Some (us_owner r)) true);
  l ← sock_at left;
  _ ← update right (set_peer (Some left) (Some (us_owner l)) true);
  _ ← ux_notify left PollEvents.WRITE;
  ux_notify right PollEvents.WRITE.

Definition known_kind (kind : Z) : bool := bool_decide (kind = SOCK_STREAM ∨ kind = SOCK_DGRAM ∨ kind = SOCK_SEQPACKET).

Definition ux_create (kind protocol : Z) (owner : SocketCredentials) : MS Z :=
  if decide (protocol ≠ 0) then mthrow SysErr.ProtoNoSupport
  else if known_kind kind then shared kind owner else mthrow SysErr.ProtoNoSupport.

Definition create_pair (kind protocol : Z) (owner : SocketCredentials) : MS (Z * Z) :=
  if decide (protocol ≠ 0) then mthrow SysErr.ProtoNoSupport
  else if known_kind kind then
    left ← shared kind owner;
    right ← shared kind owner;
    _ ← ux_pair left right;
    mret (left, right)
  else mthrow SysErr.ProtoNoSupport.

(** ** Owners *)

Definition ALL_EVENTS : Z :=
  Z.lor (Z.lor (Z.lor (Z.lor PollEvents.READ PollEvents.WRITE) PollEvents.ERROR) PollEvents.HUP) PollEvents.RDHUP.
Definition CONNECT_FAILED : Z := Z.lor (Z.lor PollEvents.WRITE PollEvents.ERROR) PollEvents.HUP.

(** The destructor: no [Weak] reference to the socket can be upgraded any
    more. *)
Definition finalize (id : Z) (s : UnixSocket) : MS unit :=
  let st := us_state s in
  w ← mget;
  let connectors := filter (λ c, is_Some (ux_sockets w !! c)) (pending_connects st) in
  p ← upgrade (us_peer st);
  _ ← (match bound_address st with
       | Some a => if decide (ux_bound w !! a = Some id) then set_bound_table (delete a (ux_bound w)) else mret ()
       | None => mret ()
       end);
  _ ← notify_all connectors CONNECT_FAILED;
  match p with
  | None => mret ()
  | Some p =>
      _ ← update p (λ ps, if decide (us_peer ps = Some id) then set_peer None (us_peer_credentials ps) (established ps) ps else ps);
      ux_notify p ALL_EVENTS
  end.

(** The owners in a backlog are dropped in order. *)
Fixpoint drop_each (drop : Z → MS unit) (l : list Z) : MS unit :=
  match l with
  | [] => mret ()
  | b :: rest => _ ← drop b; drop_each drop rest
  end.

(** Dropping an [Arc]: the last owner runs the destructor, and then the owners
    in the backlog are dropped. *)
Fixpoint release_socket (fuel : nat) (id : Z) : MS unit :=
  match fuel with
  | O => mdiverge
  | S fuel' =>
      s ← sock_at id;
      if decide (us_refs s = 1) then
        _ ← mmodify (λ w, mkUx (delete id (ux_sockets w)) (ux_next w) (ux_bound w) (ux_woken w));
        _ ← finalize id s;
        drop_each (release_socket fuel') (us_backlog (us_state s))
      else mmodify (put_sock id (mkSocket (us_kind s) (us_owner s) (us_state s) (us_version s) (us_waiters s) (us_refs s - 1)))
  end.

Definition drop_socket (id : Z) : MS unit := w ← mget; release_socket (size (ux_sockets w)) id.

(** [Arc::clone], by a second open file. *)
Definition clone_socket (id : Z) : MS unit :=
  s ← sock_at id; mmodify (put_sock id (mkSocket (us_kind s) (us_owner s) (us_state s) (us_version s) (us_waiters s) (us_refs s + 1))).

(** ** Sending *)

(** The buffer is not empty for a stream. *)
Definition enqueue_stream (peer : Z) (buffer : list Z) (ancillary : option UnixAncillary) : MS Z :=
  if decide (buffer = []) then mret 0
  else
    st ← state_at peer;
    if shut_rd st then mthrow SysErr.Pipe
    else
      let space := saturating_sub (rcvbuf st) (recv_size st) in
      if decide (space = 0) then mthrow SysErr.Again
      else
        let count := space `min` Z.of_nat (length buffer) in
        _ ← update peer (set_queues (us_recv_stream st ++ [mkChunk (take (Z.to_nat count) buffer) 0 ancillary]) (recv_packets st)
                           (saturating_add u64_max (recv_size st) count));
        _ ← ux_notify peer PollEvents.READ;
        mret count.

Definition enqueue_packet_from (peer : Z) (buffer : list Z) (source : option (list Z)) (ancillary : option UnixAncillary) : MS Z :=
  st ← state_at peer;
  if shut_rd st then mthrow SysErr.Pipe
  else
    let next := saturating_add u64_max (recv_size st) (Z.of_nat (length buffer)) in
    if decide (rcvbuf st < next) then mthrow SysErr.Again
    else
      _ ← update peer (set_queues (us_recv_stream st) (recv_packets st ++ [mkPacket buffer source ancillary]) next);
      _ ← ux_notify peer PollEvents.READ;
      mret (Z.of_nat (length buffer)).

(** A socket that the system call layer found under a path name: [None] is a
    socket of another domain. *)
Definition GivenPeer := option Z.

Definition lookup_target (id : Z) (address : list Z) (peer : option GivenPeer) : MS Z :=
  self ← sock_at id;
  p ← (match peer with
       | Some given => mok_or given SysErr.NotSock
       | None => a ← (λ w, (from_raw address, w)); found ← lookup_bound a; mok_or found SysErr.NoEnt
       end);
  other ← sock_at p;
  if decide (us_kind other ≠ us_kind self) then mthrow SysErr.ProtoType else mret p.

Definition peer_or_error (id : Z) : MS Z :=
  self ← sock_at id;
  p ← upgrade (us_peer (us_state self));
  mok_or p (if decide (us_kind self = SOCK_DGRAM) then SysErr.DestAddrReq
            else if established (us_state self) then SysErr.Pipe else SysErr.NotConn).

Definition source_name (st : UnixSocketState) : option (list Z) := serialize <$> bound_address st.

Definition send_to_socket (id : Z) (buffer : list Z) (address : option (list Z)) (peer : option GivenPeer) : MS Z :=
  self ← sock_at id;
  if bool_decide (buffer = []) && is_stream_like self then mret 0
  else if is_connection_oriented self && bool_decide (is_Some address) then mthrow SysErr.IsConn
  else
    p ← (match address with Some address => lookup_target id address peer | None => peer_or_error id end);
    if is_stream_like self then enqueue_stream p buffer None
    else enqueue_packet_from p buffer (source_name (us_state self)) None.

Record SocketMessage := mkMessage {
  sm_name : option (list Z);
  sm_data : list Z;
  sm_rights : list FileDescriptor;
  sm_sender : SocketCredentials;
  sm_explicit : option SocketCredentials;
}.

Definition build_outbound_ancillary (message : SocketMessage) (passcred : bool) : option UnixAncillary :=
  let credentials := match sm_explicit message with
                     | Some c => Some c
                     | None => if passcred then Some (sm_sender message) else None
                     end in
  match sm_rights message, credentials with
  | [], None => None
  | rights, _ => Some (mkAncillary rights credentials)
  end.

Definition send_msg_to_socket (id : Z) (message : SocketMessage) (peer : option GivenPeer) : MS Z :=
  self ← sock_at id;
  if is_connection_oriented self && bool_decide (is_Some (sm_name message)) then mthrow SysErr.IsConn
  else
    p ← (match sm_name message with Some address => lookup_target id address peer | None => peer_or_error id end);
    pst ← state_at p;
    let ancillary := build_outbound_ancillary message (passcred pst) in
    if bool_decide (is_Some ancillary) && bool_decide (sm_data message = []) && is_stream_like self then mthrow SysErr.Inval
    else if is_stream_like self then enqueue_stream p (sm_data message) ancillary
    else enqueue_packet_from p (sm_data message) (source_name (us_state self)) ancillary.

(** ** Receiving *)

(** [SocketReceive] with the bytes that were put into the buffer. *)
Record SocketReceive := mkReceive {
  sr_address : option (list Z);
  sr_rights : list FileDescriptor;
  sr_credentials : option SocketCredentials;
  sr_msg_flags : Z;
  sr_bytes : list Z;
}.

Definition receive_from_ancillary (address : option (list Z)) (ancillary : option UnixAncillary) (msg_flags : Z) (bytes : list Z) : SocketReceive :=
  match ancillary with
  | Some a => mkReceive address (an_rights a) (an_credentials a) msg_flags bytes
  | None => mkReceive address [] None msg_flags bytes
  end.

Definition available (c : UnixStreamChunk) : list Z := drop (ch_read_offset c) (ch_data c).

(** [for chunk in state.recv_stream.iter()] with a buffer of [n] bytes. *)
Fixpoint peek_loop (n : nat) (include_control : bool) (chunks : list UnixStreamChunk) (written : list Z) (received : option UnixAncillary) (hit : bool)
    : list Z * option UnixAncillary :=
  match chunks with
  | [] => (written, received)
  | c :: rest =>
      if negb (bool_decide (written = [])) && (bool_decide (is_Some (ch_ancillary c)) || hit) then (written, received)
      else if decide (n <= length written)%nat then (written, received)
      else if decide (available c = []) then peek_loop n include_control rest written received hit
      else
        let had := bool_decide (written = []) && bool_decide (is_Some (ch_ancillary c)) in
        let received := if include_control && bool_decide (written = []) && bool_decide (received = None) then ch_ancillary c else received in
        let hit := hit || had in
        let written := written ++ take (n - length written) (available c) in
        if hit then (written, received) else peek_loop n include_control rest written received hit
  end.

(** [while written < buffer.len()]: a round either takes the first chunk off
    the queue or fills the buffer.  The result is the queue, its size, the
    bytes and what came with them. *)
Fixpoint take_loop (n : nat) (include_control : bool) (chunks : list UnixStreamChunk) (size : Z) (written : list Z) (received : option UnixAncillary) (hit : bool)
    : list UnixStreamChunk * Z * list Z * option UnixAncillary :=
  if decide (n <= length written)%nat then (chunks, size, written, received)
  else
    match chunks with
    | [] => ([], size, written, received)
    | c :: rest =>
        if negb (bool_decide (written = [])) && (bool_decide (is_Some (ch_ancillary c)) || hit) then (chunks, size, written, received)
        else if decide (available c = []) then
          if hit then (rest, size, written, received) else take_loop n include_control rest size written received hit
        else
          let '(had, kept, received) :=
            if bool_decide (written = []) && include_control && bool_decide (received = None)
            then (bool_decide (is_Some (ch_ancillary c)), None, ch_ancillary c)
            else if bool_decide (written = []) && negb include_control
            then (bool_decide (is_Some (ch_ancillary c)), None, received)
            else (false, ch_ancillary c, received) in
          let count := ((n - length written) `min` length (available c))%nat in
          let c' := mkChunk (ch_data c) (ch_read_offset c + count) kept in
          let written := written ++ take count (available c) in
          let size := saturating_sub size (Z.of_nat count) in
          let hit := hit || had in
          let removed := bool_decide (ch_read_offset c' = length (ch_data c)) in
          if hit then (if removed then rest else c' :: rest, size, written, received)
          else if removed then take_loop n include_control rest size written received hit
          else (c' :: rest, size, written, received)
    end.

(** What a receive finds when the queue is empty: the end of the stream once
    the peer is gone or will not write any more. *)
Definition empty_receive (st : UnixSocketState) : MS SocketReceive :=
  p ← upgrade (us_peer st);
  if negb (established st) then mthrow SysErr.NotConn
  else
    eof ← (match p with Some p => ps ← state_at p; mret (shut_wr ps) | None => mret true end);
    if (eof : bool) then mret (receive_from_ancillary None None 0 []) else mthrow SysErr.Again.

Definition recv_stream (id : Z) (n : nat) (flags : Z) (include_control : bool) : MS SocketReceive :=
  st ← state_at id;
  if shut_rd st then mret (receive_from_ancillary None None 0 [])
  else if decide (us_recv_stream st = []) then empty_receive st
  else if decide (Z.land flags MSG_PEEK ≠ 0) then
    let '(written, received) := peek_loop n include_control (us_recv_stream st) [] None false in
    mret (receive_from_ancillary None received 0 written)
  else
    let was_full := bool_decide (recv_size st = rcvbuf st) in
    let '(chunks, size, written, received) := take_loop n include_control (us_recv_stream st) (recv_size st) [] None false in
    _ ← update id (set_queues chunks (recv_packets st) size);
    p ← upgrade (us_peer st);
    _ ← (match p with Some p => if was_full then ux_notify p PollEvents.WRITE else mret () | None => mret () end);
    mret (receive_from_ancillary None received 0 written).

Definition recv_packet (id : Z) (n : nat) (flags : Z) (include_control : bool) : MS SocketReceive :=
  self ← sock_at id;
  let st := us_state self in
  if shut_rd st then mret (receive_from_ancillary None None 0 [])
  else
    match recv_packets st with
    | [] => if is_connection_oriented self then empty_receive st else mthrow SysErr.Again
    | packet :: rest =>
        let peek := bool_decide (Z.land flags MSG_PEEK ≠ 0) in
        let was_full := bool_decide (recv_size st = rcvbuf st) in
        let bytes := take n (pk_data packet) in
        _ ← (if peek then mret ()
             else update id (set_queues (us_recv_stream st) rest (saturating_sub (recv_size st) (Z.of_nat (length (pk_data packet))))));
        p ← upgrade (us_peer st);
        _ ← (match p with Some p => if negb peek && was_full then ux_notify p PollEvents.WRITE else mret () | None => mret () end);
        mret (receive_from_ancillary (pk_source packet) (if include_control then pk_ancillary packet else None)
                (if decide (length bytes < length (pk_data packet))%nat then MSG_TRUNC else 0) bytes)
    end.

Definition ux_receive (id : Z) (n : nat) (flags : Z) (include_control : bool) : MS SocketReceive :=
  self ← sock_at id;
  if is_stream_like self then recv_stream id n flags include_control else recv_packet id n flags include_control.

Definition ux_recv_from (id : Z) (n : nat) (flags : Z) : MS SocketReceive := ux_receive id n flags false.
Definition ux_recv_msg (id : Z) (n : nat) (flags : Z) : MS SocketReceive := ux_receive id n flags true.

(** [KernelSocket::read] and [write] with their errors. *)
Definition map_error {E E' A} (f : E → E') (m : M ux_world E A) : M ux_world E' A := λ w,
  match m w with
  | (Ok a, w') => (Ok a, w')
  | (Err e, w') => (Err (f e), w')
  | (Panic, w') => (Panic, w')
  | (Diverge, w') => (Diverge, w')
  end.

Definition ux_read (id : Z) (n : nat) : M ux_world FsError (list Z) :=
  r ← map_error (λ e, match e with
                      | SysErr.Again => WouldBlock | SysErr.Pipe => BrokenPipe
                      | SysErr.NotConn => InvalidInput | _ => Unsupported
                      end) (ux_recv_from id n 0);
  mret (sr_bytes r).

Definition ux_write (id : Z) (buffer : list Z) : M ux_world FsError Z :=
  map_error (λ e, match e with
                  | SysErr.Again => WouldBlock | SysErr.Pipe => BrokenPipe
                  | SysErr.DestAddrReq | SysErr.NotConn => InvalidInput | _ => Unsupported
                  end) (send_to_socket id buffer None None).

(** ** Connections *)

Definition inherit_listener_state (accepted listener : UnixSocketState) : UnixSocketState :=
  set_bound (bound_address listener) (set_options (passcred listener) (sndbuf listener) (rcvbuf listener) accepted).

(** The lock of the client is taken under the lock of the listener.  The
    socket of the server side is made when it is needed: on the earlier exits
    it is dropped again without effect. *)
Definition connect_socket (id : Z) (raw : list Z) (peer : option GivenPeer) : MS unit :=
  address ← (λ w, (from_raw raw, w));
  _ ← clear_pending_connect id;
  target ← lookup_target id (serialize address) peer;
  self ← sock_at id;
  other ← sock_at target;
  if decide (us_kind self = SOCK_DGRAM) then
    _ ← update id (λ s, set_pending None (set_peer (Some target) (Some (us_owner other)) true s));
    ux_notify id PollEvents.WRITE
  else if negb (listening (us_state other)) then mthrow SysErr.ConnRefused
  else if decide (target = id) then mdiverge
  else
    let limit := backlog_limit (us_state other) in
    if decide (limit = 0 ∨ limit <= Z.of_nat (length (us_backlog (us_state other)))) then
      _ ← update id (set_pending (Some target));
      w ← mget;
      _ ← update target (λ s, set_connects (filter (λ c, is_Some (ux_sockets w !! c) ∧ c ≠ id) (pending_connects s) ++ [id]) s);
      mthrow SysErr.Again
    else
      connected ← upgrade (us_peer (us_state self));
      if decide (is_Some connected) then mthrow SysErr.IsConn
      else
        server ← shared (us_kind self) (us_owner other);
        _ ← update server (λ s, set_peer (Some id) (Some (us_owner self)) true (inherit_listener_state s (us_state other)));
        _ ← update id (λ s, set_peer (Some server) (Some (us_owner other)) true (set_pending None s));
        _ ← update target (λ s, set_backlog (us_backlog s ++ [server]) s);
        _ ← ux_notify target PollEvents.READ;
        _ ← clear_pending_connect id;
        ux_notify id PollEvents.WRITE.

Definition ux_bind (id : Z) (raw : list Z) : MS unit :=
  address ← (λ w, (from_raw raw, w));
  st ← state_at id;
  if decide (is_Some (bound_address st)) then mthrow SysErr.Inval
  else
    w ← mget;
    existing ← upgrade (ux_bound w !! address);
    match existing with
    | Some other => if decide (other ≠ id) then mthrow SysErr.AddrInUse else
        _ ← set_bound_table (<[address := id]> (ux_bound w)); update id (set_bound (Some address))
    | None => _ ← set_bound_table (<[address := id]> (ux_bound w)); update id (set_bound (Some address))
    end.

Definition ux_listen (id backlog : Z) : MS unit :=
  self ← sock_at id;
  if decide (us_kind self ≠ SOCK_STREAM ∧ us_kind self ≠ SOCK_SEQPACKET) then mthrow SysErr.NoSys
  else
    _ ← update id (set_listening (if decide (backlog = 0) then 16 else backlog `max` 0));
    ux_notify id PollEvents.WRITE.

(** The owner in the backlog becomes that of the new file. *)
Definition ux_accept (id : Z) : MS (Z * option (list Z)) :=
  st ← state_at id;
  if negb (listening st) then mthrow SysErr.Inval
  else
    match us_backlog st with
    | [] => mthrow SysErr.Again
    | accepted :: rest =>
        _ ← update id (set_backlog rest);
        _ ← notify_pending_connects id PollEvents.WRITE;
        a ← sock_at accepted;
        p ← upgrade (us_peer (us_state a));
        address ← (match p with Some p => ps ← state_at p; mret (Some (local_name ps)) | None => mret None end);
        _ ← ux_notify id PollEvents.WRITE;
        mret (accepted, address)
    end.

Definition ux_shutdown (id how : Z) : MS unit :=
  st ← state_at id;
  p ← upgrade (us_peer st);
  if negb (established st) && bool_decide (p = None) then mthrow SysErr.NotConn
  else
    _ ← (if decide (how = 0) then update id (set_shut true (shut_wr st))
         else if decide (how = 1) then update id (set_shut (shut_rd st) true)
         else if decide (how = 2) then update id (set_shut true true)
         else mthrow SysErr.Inval);
    _ ← ux_notify id ALL_EVENTS;
    match p with Some p => ux_notify p ALL_EVENTS | None => mret () end.

Definition ux_sock_name (id : Z) : MS (list Z) := st ← state_at id; mret (local_name st).
Definition ux_peer_name (id : Z) : MS (list Z) :=
  st ← state_at id;
  p ← upgrade (us_peer st);
  p ← mok_or p SysErr.NotConn;
  ps ← state_at p;
  mret (local_name ps).

(** ** Readiness *)

Definition peer_shut_wr_or_gone (w : ux_world) (st : UnixSocketState) : bool :=
  match us_peer st ≫= (ux_sockets w !!.) with Some p => shut_wr (us_state p) | None => true end.

Definition read_ready (w : ux_world) (s : UnixSocket) : bool :=
  let st := us_state s in
  if listening st then bool_decide (us_backlog st ≠ [])
  else if is_stream_like s then shut_rd st || bool_decide (us_recv_stream st ≠ []) || (established st && peer_shut_wr_or_gone w st)
  else bool_decide (recv_packets st ≠ []) || (established st && peer_shut_wr_or_gone w st).

Definition has_space (st : UnixSocketState) : bool := bool_decide (recv_size st < rcvbuf st).

Definition write_ready (w : ux_world) (s : UnixSocket) : bool :=
  let st := us_state s in
  if shut_wr st then false
  else if listening st then bool_decide (Z.of_nat (length (us_backlog st)) < backlog_limit st)
  else if bool_decide (us_kind s = SOCK_DGRAM) && bool_decide (us_peer st = None) then true
  else
    match pending_connect st ≫= (ux_sockets w !!.) with
    | Some l => negb (listening (us_state l)) ||
                (bool_decide (backlog_limit (us_state l) ≠ 0) && bool_decide (Z.of_nat (length (us_backlog (us_state l))) < backlog_limit (us_state l)))
    | None =>
        match us_peer st ≫= (ux_sockets w !!.) with
        | None => bool_decide (us_kind s = SOCK_DGRAM)
        | Some p => negb (shut_rd (us_state p)) && has_space (us_state p)
        end
    end.

Definition ux_poll_events (w : ux_world) (s : UnixSocket) (events : Z) : Z :=
  let st := us_state s in
  let '(peer_closed, peer_shut_rd, peer_shut_wr, peer_has_space) :=
    match us_peer st ≫= (ux_sockets w !!.) with
    | Some p => (closed (us_state p), shut_rd (us_state p), shut_wr (us_state p), has_space (us_state p))
    | None => (established st, false, established st, false)
    end in
  let add (b : bool) (e ready : Z) := if b then PollEvents.bitor ready e else ready in
  let ready := add (PollEvents.contains events PollEvents.READ && read_ready w s) PollEvents.READ PollEvents.empty in
  let ready := add (PollEvents.contains events PollEvents.WRITE && write_ready w s &&
                    ((bool_decide (us_kind s = SOCK_DGRAM) && bool_decide (us_peer st = None)) ||
                     bool_decide (is_Some (pending_connect st ≫= (ux_sockets w !!.))) ||
                     (negb peer_closed && negb peer_shut_rd && peer_has_space))) PollEvents.WRITE ready in
  let error_hup := PollEvents.bitor PollEvents.ERROR PollEvents.HUP in
  if listening st then add (closed st) error_hup ready
  else if is_packet_like s then add (closed st || shut_rd st) error_hup ready
  else
    let ready := add peer_closed PollEvents.HUP ready in
    let ready := add (peer_closed || peer_shut_wr) PollEvents.RDHUP ready in
    add (closed st) error_hup ready.

Definition ux_poll (id events : Z) : M ux_world FsError Z :=
  s ← sock_at id; w ← mget; mret (ux_poll_events w s events).

Definition ux_register (id events listener : Z) : MS Z :=
  s ← sock_at id;
  let '(waiter, q) := register (us_waiters s) events listener in
  _ ← mmodify (put_sock id (mkSocket (us_kind s) (us_owner s) (us_state s) (us_version s) q (us_refs s)));
  mret waiter.

Definition ux_unregister (id waiter : Z) : MS unit :=
  s ← sock_at id;
  let '(_, q) := unregister (us_waiters s) waiter in
  mmodify (put_sock id (mkSocket (us_kind s) (us_owner s) (us_state s) (us_version s) q (us_refs s))).

(** ** Options *)

Definition queued_read_len (s : UnixSocket) : Z :=
  if is_stream_like s then recv_size (us_state s)
  else match recv_packets (us_state s) with packet :: _ => Z.of_nat (length (pk_data packet)) | [] => 0 end.

(** [None] for a command that sockets do not know. *)
Definition ux_ioctl (id command : Z) : MS (option (list Z)) :=
  s ← sock_at id;
  mret (if decide (command = FIONREAD) then Some (le_bytes 4 (queued_read_len s `min` i32_max)) else None).

(** The value of a 32-bit word as [i32]. *)
Definition as_i32 (x : Z) : Z := if decide (x < 2 ^ 31) then x else x - 2 ^ 32.

Definition normalize_socket_buffer (value : Z) : Z := value `max` 4096.
Definition encode_sockopt (value : Z) : list Z := le_bytes 4 value.

Definition ux_setsockopt (id level optname : Z) (value : list Z) : MS unit :=
  if decide (level ≠ SOL_SOCKET) then mthrow SysErr.NoProtoOpt
  else if decide (length value < 4)%nat then mthrow SysErr.Inval
  else
    let parsed := as_i32 (le_val (take 4 value)) in
    if decide (optname = SO_PASSCRED) then update id (λ s, set_options (bool_decide (parsed ≠ 0)) (sndbuf s) (rcvbuf s) s)
    else if decide (optname = SO_SNDBUF ∨ optname = SO_SNDBUFFORCE) then update id (λ s, set_options (passcred s) (normalize_socket_buffer parsed) (rcvbuf s) s)
    else if decide (optname = SO_RCVBUF ∨ optname = SO_RCVBUFFORCE) then update id (λ s, set_options (passcred s) (sndbuf s) (normalize_socket_buffer parsed) s)
    else mthrow SysErr.NoProtoOpt.

Definition serialize_peer_credentials (st : UnixSocketState) : outcome SysErr.SysErr (list Z) :=
  match us_peer_credentials st with
  | Some c => Ok (le_bytes 4 (cr_pid c) ++ le_bytes 4 (cr_uid c) ++ le_bytes 4 (cr_gid c))
  | None => Err SysErr.NotConn
  end.

Definition ux_getsockopt (id level optname : Z) : MS (list Z) :=
  if decide (level ≠ SOL_SOCKET) then mthrow SysErr.NoProtoOpt
  else
    s ← sock_at id;
    let st := us_state s in
    if decide (optname = SO_PASSCRED) then mret (encode_sockopt (if passcred st then 1 else 0))
    else if decide (optname = SO_SNDBUF ∨ optname = SO_SNDBUFFORCE) then mret (encode_sockopt (sndbuf st `min` i32_max))
    else if decide (optname = SO_RCVBUF ∨ optname = SO_RCVBUFFORCE) then mret (encode_sockopt (rcvbuf st `min` i32_max))
    else if decide (optname = SO_PEERCRED) then (λ w, (serialize_peer_credentials st, w))
    else if decide (optname = SO_TYPE) then mret (encode_sockopt (us_kind s))
    else if decide (optname = SO_ERROR) then mret (encode_sockopt 0)
    else if decide (optname = SO_ACCEPTCONN) then mret (encode_sockopt (if listening st then 1 else 0))
    else if decide (optname = SO_PROTOCOL) then mret (encode_sockopt 0)
    else if decide (optname = SO_DOMAIN) then mret (encode_sockopt AF_UNIX)
    else mthrow SysErr.NoProtoOpt.
