(* ===== verification/UnixProof.v ===== *)
(** * Unix domain sockets: proofs

    The invariant of the sockets ([ux_ok]): the size of a queue is the number
    of its bytes, connected sockets are peers of each other, and a socket in a
    backlog is owned by the backlog alone.  Notifications change nothing that
    it speaks of ([quiet]). *)

From S2P Require Import Prelude Poll Errno Fd Unix.

(** ** Queues *)

(** The bytes of a stream that are not read yet. *)
Definition stream_bytes (l : list UnixStreamChunk) : list Z := l ≫= available.
Definition packet_bytes (l : list UnixPacket) : Z := foldr (λ p n, Z.of_nat (length (pk_data p)) + n) 0 l.
Definition queue_size (st : UnixSocketState) : Z := Z.of_nat (length (stream_bytes (us_recv_stream st))) + packet_bytes (recv_packets st).

Record sock_ok (s : UnixSocket) : Prop := {
  so_kind : known_kind (us_kind s) = true;
  so_size : recv_size (us_state s) = queue_size (us_state s);
  so_max : recv_size (us_state s) <= i32_max;
  so_rcvbuf : 4096 <= rcvbuf (us_state s) <= i32_max;
  so_stream : us_kind s = SOCK_STREAM → recv_packets (us_state s) = [];
  so_packet : us_kind s ≠ SOCK_STREAM → us_recv_stream (us_state s) = [];
  so_chunks : Forall (λ c, (ch_read_offset c < length (ch_data c))%nat) (us_recv_stream (us_state s));
}.

(** ** References between sockets *)

(** What other sockets rely on. *)
Record link := mkLink {
  lk_kind : Z;
  lk_peer : option Z;
  lk_backlog : list Z;
  lk_listening : bool;
  lk_bound : option UnixAddress;
  lk_refs : Z;
}.

Definition link_of (s : UnixSocket) : link :=
  mkLink (us_kind s) (us_peer (us_state s)) (us_backlog (us_state s)) (listening (us_state s)) (bound_address (us_state s)) (us_refs s).

Definition connected_kind (kind : Z) : Prop := kind = SOCK_STREAM ∨ kind = SOCK_SEQPACKET.

Record links_ok (m : gmap Z link) (next : Z) (bound : gmap UnixAddress Z) : Prop := {
  ln_fresh id : next <= id → m !! id = None;
  ln_refs id l : m !! id = Some l → 1 <= lk_refs l;
  ln_peer_old id l p : m !! id = Some l → lk_peer l = Some p → p < next;
  ln_peer_kind id l p lp : m !! id = Some l → lk_peer l = Some p → m !! p = Some lp → lk_kind lp = lk_kind l;
  (** A connection has two ends. *)
  ln_peer id l p : m !! id = Some l → lk_peer l = Some p → connected_kind (lk_kind l) → p ≠ id ∧ ∃ lp, m !! p = Some lp ∧ lk_peer lp = Some id;
  (** A socket that was not accepted has no other owner. *)
  ln_queued id l b : m !! id = Some l → b ∈ lk_backlog l → ∃ lb, m !! b = Some lb ∧ lk_refs lb = 1 ∧ lk_backlog lb = [] ∧ lk_listening lb = false;
  ln_once id l : m !! id = Some l → NoDup (lk_backlog l);
  ln_one id l id' l' b : m !! id = Some l → m !! id' = Some l' → b ∈ lk_backlog l → b ∈ lk_backlog l' → id = id';
  ln_bound a id : bound !! a = Some id → id < next ∧ ∀ l, m !! id = Some l → lk_bound l = Some a;
}.

Definition links (w : ux_world) : gmap Z link := link_of <$> ux_sockets w.

Record ux_ok (w : ux_world) : Prop := {
  uo_socks id s : ux_sockets w !! id = Some s → sock_ok s;
  uo_links : links_ok (links w) (ux_next w) (ux_bound w);
}.

(** A handle: the socket is there and has an owner outside of the backlogs. *)
Definition held (w : ux_world) (id : Z) : Prop :=
  is_Some (ux_sockets w !! id) ∧ ∀ id' s, ux_sockets w !! id' = Some s → id ∉ us_backlog (us_state s).

Lemma ux_new_ok : ux_ok ux_new.
Proof. constructor; [by intros id s|]. constructor; by intros. Qed.

Lemma links_lookup w id : links w !! id = link_of <$> ux_sockets w !! id.
Proof. apply lookup_fmap. Qed.

Lemma sock_links_insert w id s w' :
  ux_sockets w' = <[id := s]> (ux_sockets w) → links w' = <[id := link_of s]> (links w).
Proof. unfold links. intros ->. apply fmap_insert. Qed.

(** A change that the other sockets cannot see. *)
Lemma ux_ok_local w w' id s s' :
  ux_ok w → ux_sockets w !! id = Some s → ux_sockets w' = <[id := s']> (ux_sockets w) → ux_next w' = ux_next w → ux_bound w' = ux_bound w →
  link_of s' = link_of s → sock_ok s' → ux_ok w'.
Proof.
  intros [Hs Hl] Hid Hsocks Hn Hb Hlk Hok. constructor.
  - intros p q. rewrite Hsocks. destruct (decide (p = id)) as [->|]; [rewrite lookup_insert_eq; by intros [= <-]|rewrite lookup_insert_ne by done; apply Hs].
  - rewrite (sock_links_insert w id s' w' Hsocks), Hn, Hb, insert_id; [done|]. by rewrite links_lookup, Hid, Hlk.
Qed.

(** ** Rules of the basic operations *)

Lemma sock_at_rule {E} w id s (Q : UnixSocket → ux_world → Prop) (Qe : E → ux_world → Prop) :
  ux_sockets w !! id = Some s → Q s w → wp_res (sock_at id) w Q Qe.
Proof. intros Hs HQ. unfold sock_at, wp_res, wp. by rewrite Hs. Qed.

Lemma state_at_rule {E} w id s (Q : UnixSocketState → ux_world → Prop) (Qe : E → ux_world → Prop) :
  ux_sockets w !! id = Some s → Q (us_state s) w → wp_res (state_at id) w Q Qe.
Proof. intros Hs HQ. unfold state_at. wp_step. by eapply sock_at_rule; [done|wp_run]. Qed.

Definition alive (w : ux_world) (weak : option Z) : option Z :=
  weak ≫= λ id, if decide (is_Some (ux_sockets w !! id)) then Some id else None.

Lemma upgrade_rule {E} w weak (Q : option Z → ux_world → Prop) (Qe : E → ux_world → Prop) :
  Q (alive w weak) w → wp_res (upgrade weak) w Q Qe.
Proof. intros HQ. unfold upgrade. by wp_run. Qed.

Lemma alive_Some w weak id : alive w weak = Some id ↔ weak = Some id ∧ is_Some (ux_sockets w !! id).
Proof.
  unfold alive. destruct weak as [x|]; cbn; [|naive_solver]. case_decide; naive_solver.
Qed.

Definition changed (w w' : ux_world) (id : Z) (s' : UnixSocket) : Prop :=
  ux_sockets w' = <[id := s']> (ux_sockets w) ∧ ux_next w' = ux_next w ∧ ux_bound w' = ux_bound w.

Lemma update_rule {E} w id s f (Q : unit → ux_world → Prop) (Qe : E → ux_world → Prop) :
  ux_sockets w !! id = Some s → (∀ w', changed w w' id (with_st (f (us_state s)) s) → ux_woken w' = ux_woken w → Q () w') → wp_res (update id f) w Q Qe.
Proof. intros Hs HQ. unfold update. wp_step. eapply sock_at_rule; [done|]. wp_run. by apply HQ. Qed.

(** ** Notifications *)

(** The parts of a socket that notifications and the lists of connections that
    wait leave alone. *)
Definition blank (st : UnixSocketState) : UnixSocketState := set_connects [] (set_pending None st).
Definition core (s : UnixSocket) : Z * SocketCredentials * UnixSocketState * Z := (us_kind s, us_owner s, blank (us_state s), us_refs s).

Record quiet (w w' : ux_world) : Prop := {
  qu_core id : core <$> ux_sockets w' !! id = core <$> ux_sockets w !! id;
  qu_next : ux_next w' = ux_next w;
  qu_bound : ux_bound w' ⊆ ux_bound w;
  qu_woken : ∃ l, ux_woken w' = ux_woken w ++ l;
}.

#[global] Instance quiet_refl : Reflexive quiet.
Proof. intros w. constructor; try done. exists []. by rewrite app_nil_r. Qed.
#[global] Instance quiet_trans : Transitive quiet.
Proof.
  intros w1 w2 w3 [H1 H2 H3 [l Hl]] [H4 H5 H6 [l' Hl']]. constructor; [intros id; by rewrite H4|congruence|by etrans|].
  exists (l ++ l'). by rewrite Hl', Hl, app_assoc.
Qed.

Lemma quiet_lookup w w' id s : quiet w w' → ux_sockets w !! id = Some s → ∃ s', ux_sockets w' !! id = Some s' ∧ core s' = core s.
Proof. intros [Hc _ _ _] Hs. specialize (Hc id). rewrite Hs in Hc. destruct (ux_sockets w' !! id) as [s'|]; [|done]. exists s'. split; [done|]. by apply (inj Some) in Hc. Qed.

Lemma quiet_back w w' id s' : quiet w w' → ux_sockets w' !! id = Some s' → ∃ s, ux_sockets w !! id = Some s ∧ core s' = core s.
Proof. intros [Hc _ _ _] Hs. specialize (Hc id). rewrite Hs in Hc. destruct (ux_sockets w !! id) as [s|]; [|done]. exists s. split; [done|]. by apply (inj Some) in Hc. Qed.

Record same_public (s s' : UnixSocket) : Prop := {
  sp_link : link_of s' = link_of s;
  sp_owner : us_owner s' = us_owner s;
  sp_stream : us_recv_stream (us_state s') = us_recv_stream (us_state s);
  sp_packets : recv_packets (us_state s') = recv_packets (us_state s);
  sp_size : recv_size (us_state s') = recv_size (us_state s);
  sp_rcvbuf : rcvbuf (us_state s') = rcvbuf (us_state s);
  sp_shut_rd : shut_rd (us_state s') = shut_rd (us_state s);
  sp_shut_wr : shut_wr (us_state s') = shut_wr (us_state s);
  sp_established : established (us_state s') = established (us_state s);
  sp_limit : backlog_limit (us_state s') = backlog_limit (us_state s);
}.

Lemma core_public s s' : core s' = core s → same_public s s'.
Proof.
  destruct s as [k o st v q r], s' as [k' o' st' v' q' r'], st, st'. unfold core, blank, set_connects, set_pending, link_of. cbn.
  intros [= -> -> -> -> -> -> -> -> -> -> -> -> -> -> -> -> -> -> ->]. done.
Qed.

Lemma sp_kind s s' : same_public s s' → us_kind s' = us_kind s.
Proof. intros [Hl _]. by injection Hl. Qed.
Lemma sp_peer s s' : same_public s s' → us_peer (us_state s') = us_peer (us_state s).
Proof. intros [Hl _]. by injection Hl. Qed.
Lemma sp_listening s s' : same_public s s' → listening (us_state s') = listening (us_state s).
Proof. intros [Hl _]. by injection Hl. Qed.
Lemma sp_backlog s s' : same_public s s' → us_backlog (us_state s') = us_backlog (us_state s).
Proof. intros [Hl _]. by injection Hl. Qed.

Lemma sock_ok_core s s' : core s' = core s → sock_ok s → sock_ok s'.
Proof.
  intros Hp%core_public. pose proof (sp_kind _ _ Hp) as Hk. destruct Hp as [_ _ H1 H2 H3 H4 _ _ _ _]. intros []. by constructor; unfold queue_size in *; rewrite ?Hk, ?H1, ?H2, ?H3, ?H4.
Qed.

Lemma quiet_links w w' : quiet w w' → links w' = links w.
Proof.
  intros Hq. apply map_eq. intros id. rewrite !links_lookup. destruct (ux_sockets w !! id) as [s|] eqn:Hs.
  - destruct (quiet_lookup w w' id s Hq Hs) as (s' & -> & [Hl _]%core_public). cbn. by rewrite Hl.
  - destruct (ux_sockets w' !! id) as [s'|] eqn:Hs'; [|done]. destruct (quiet_back w w' id s' Hq Hs') as (s & ? & _). congruence.
Qed.

Lemma links_ok_mono m next bound bound' : links_ok m next bound → bound' ⊆ bound → links_ok m next bound'.
Proof. intros [] Hb. constructor; try done. intros a id Ha. eapply ln_bound0. by eapply lookup_weaken. Qed.

Lemma quiet_ok w w' : quiet w w' → ux_ok w → ux_ok w'.
Proof.
  intros Hq [Hs Hl]. constructor.
  - intros id s' Hs'. destruct (quiet_back w w' id s' Hq Hs') as (s & Hs0 & Hc). eapply sock_ok_core; [done|by eapply Hs].
  - rewrite (quiet_links w w' Hq), (qu_next _ _ Hq). eapply links_ok_mono; [done|apply Hq].
Qed.

Lemma sock_notify_rule {E} w id s events (Q : unit → ux_world → Prop) (Qe : E → ux_world → Prop) :
  ux_sockets w !! id = Some s →
  (∀ w', quiet w w' → ux_woken w' = ux_woken w ++ matching events (registrations (us_waiters s)) → Q () w') → wp_res (ux_notify id events) w Q Qe.
Proof.
  intros Hs HQ. unfold ux_notify. wp_step. eapply sock_at_rule; [done|]. unfold notify. wp_run. apply HQ; [|done].
  constructor; [|done|done|by eexists]. intros p. cbn [ux_sockets]. destruct (decide (p = id)) as [->|]; [|by rewrite lookup_insert_ne].
  by rewrite lookup_insert_eq, Hs.
Qed.

Lemma notify_all_rule {E} ids events (Q : unit → ux_world → Prop) (Qe : E → ux_world → Prop) : ∀ w,
  (∀ id, id ∈ ids → is_Some (ux_sockets w !! id)) → (∀ w', quiet w w' → Q () w') → wp_res (notify_all ids events) w Q Qe.
Proof.
  induction ids as [|id ids IH]; intros w Hids HQ; cbn [notify_all]; [wp_run; by apply HQ|].
  destruct (Hids id ltac:(by left)) as [s Hs]. wp_step. eapply sock_notify_rule; [done|]. intros w1 Hq _. apply IH.
  - intros p Hp. destruct (Hids p ltac:(by right)) as [sp Hsp]. destruct (quiet_lookup w w1 p sp Hq Hsp) as (s' & -> & _). by eexists.
  - intros w' Hq'. apply HQ. by etrans.
Qed.

(** ** Taking bytes off a stream *)

Lemma stream_bytes_cons c l : stream_bytes (c :: l) = available c ++ stream_bytes l.
Proof. done. Qed.
Lemma stream_bytes_app l l' : stream_bytes (l ++ l') = stream_bytes l ++ stream_bytes l'.
Proof. apply bind_app. Qed.

Lemma stream_bytes_one d a : stream_bytes [mkChunk d 0 a] = d.
Proof. unfold stream_bytes, available. cbn. apply app_nil_r. Qed.

Definition chunk_ok (c : UnixStreamChunk) : Prop := (ch_read_offset c < length (ch_data c))%nat.

Lemma stream_bytes_nil l : Forall chunk_ok l → stream_bytes l = [] → l = [].
Proof.
  intros Hl Hb. destruct l as [|c l]; [done|]. apply Forall_cons in Hl as [Hc _]. rewrite stream_bytes_cons in Hb. apply app_eq_nil in Hb as [Hb _].
  apply (f_equal length) in Hb. unfold available in Hb. rewrite length_drop in Hb. unfold chunk_ok in Hc. cbn in Hb. lia.
Qed.

(** What the loop of a receive makes of a queue. *)
Record taken (n : nat) (chunks : list UnixStreamChunk) (size : Z) (written : list Z)
    (chunks' : list UnixStreamChunk) (size' : Z) (written' : list Z) : Prop := {
  tk_bytes : ∃ got, written' = written ++ got ∧ stream_bytes chunks = got ++ stream_bytes chunks' ∧ size' = size - Z.of_nat (length got);
  tk_chunks : Forall chunk_ok chunks';
  tk_length : (length written' <= n `max` length written)%nat;
  tk_progress : written = [] → n ≠ O → stream_bytes chunks ≠ [] → written' ≠ [];
}.

Lemma taken_none n chunks size written :
  Forall chunk_ok chunks → (written = [] → n ≠ O → stream_bytes chunks ≠ [] → False) → taken n chunks size written chunks size written.
Proof.
  intros Hc Hp. constructor; [|done|lia|]; [exists []; rewrite app_nil_r; split; [done|]; split; [done|cbn; lia]|].
  intros H1 H2 H3. by destruct Hp.
Qed.

Lemma available_advance c count kept :
  chunk_ok c → (count <= length (available c))%nat →
  available (mkChunk (ch_data c) (ch_read_offset c + count) kept) = drop count (available c) ∧
  (drop count (available c) ≠ [] → chunk_ok (mkChunk (ch_data c) (ch_read_offset c + count) kept)) ∧
  ((ch_read_offset c + count)%nat = length (ch_data c) ↔ drop count (available c) = []).
Proof.
  unfold chunk_ok, available. cbn [ch_data ch_read_offset]. rewrite length_drop. intros Hc Hn. split; [by rewrite drop_drop|].
  rewrite <-length_zero_iff_nil, !length_drop. lia.
Qed.

Lemma stream_take_spec n include_control chunks : ∀ size written received hit,
  Forall chunk_ok chunks → Z.of_nat (length (stream_bytes chunks)) <= size →
  let '(chunks', size', written', _) := take_loop n include_control chunks size written received hit in
  hit = false → taken n chunks size written chunks' size' written'.
Proof.
  induction chunks as [|c rest IH]; intros size written received hit Hok Hsize; cbn [take_loop].
  { destruct (decide _) as [Hn|Hn]; intros _; apply taken_none; try done. }
  apply Forall_cons in Hok as [Hc Hrest]. rewrite stream_bytes_cons, length_app in Hsize.
  destruct (decide (n <= length written)%nat) as [Hn|Hn]; [intros _; apply taken_none; [by constructor|intros ->; cbn in Hn; lia]|].
  destruct (negb (bool_decide (written = [])) && _) eqn:Hbar.
  { intros _. apply taken_none; [by constructor|]. intros ->. by rewrite bool_decide_true in Hbar. }
  destruct (decide (available c = [])) as [Hav|Hav].
  { specialize (IH size written received hit Hrest ltac:(lia)). destruct hit; [done|].
    destruct (take_loop n include_control rest size written received false) as [[[chunks' size'] written'] received'].
    intros _. destruct (IH eq_refl) as [(got & H1 & H2 & H3) H4 H5 H6]. constructor; [|done|done|].
    - exists got. split; [done|]. split; [by rewrite stream_bytes_cons, Hav|done].
    - intros Hw Hn0 Hb. apply H6; [done|done|]. by rewrite stream_bytes_cons, Hav in Hb. }
  clear Hbar. set (sel := if bool_decide (written = []) && include_control && bool_decide (received = None) then _ else _).
  destruct sel as [[had kept] received1]. set (count := ((n - length written) `min` length (available c))%nat).
  assert (count <> O) as Hcount by (unfold count; destruct (available c); [done|cbn; lia]).
  destruct (available_advance c count kept Hc ltac:(unfold count; lia)) as (Hadv & Hok' & Hrem).
  assert (length (take count (available c)) = count) as Hlen by (rewrite length_take; unfold count; lia).
  assert (saturating_sub size (Z.of_nat count) = size - Z.of_nat count) as -> by (unfold saturating_sub, count; lia).
  assert (∀ rest', Forall chunk_ok rest' → stream_bytes rest' = drop count (available c) ++ stream_bytes rest →
            taken n (c :: rest) size written rest' (size - Z.of_nat count) (written ++ take count (available c))) as Hstop.
  { intros rest' Hr Hb. constructor; [|done| |].
    - exists (take count (available c)). split; [done|]. rewrite Hb, stream_bytes_cons, app_assoc, take_drop, Hlen. done.
    - rewrite length_app, Hlen. unfold count. lia.
    - intros -> _ _ Hnil. cbn in Hnil. rewrite Hnil in Hlen. cbn in Hlen. lia. }
  destruct (hit || had) eqn:Hhit; [|destruct (bool_decide _) eqn:Hrm].
  - case_bool_decide as Hrm; intros _; apply Hstop.
    + done.
    + cbn [ch_read_offset] in Hrm. by rewrite (proj1 Hrem Hrm).
    + constructor; [|done]. apply Hok'. intros Hd. by apply Hrm, Hrem.
    + by rewrite stream_bytes_cons, Hadv.
  - apply bool_decide_eq_true in Hrm. cbn [ch_read_offset] in Hrm. apply Hrem in Hrm.
    specialize (IH (size - Z.of_nat count) (written ++ take count (available c)) received1 (hit || had) Hrest). rewrite Hhit in IH.
    assert (count = length (available c)) as Hall. { apply (f_equal length) in Hrm. rewrite length_drop in Hrm. cbn in Hrm. unfold count in *. lia. }
    specialize (IH ltac:(lia)). destruct (take_loop n include_control rest (size - Z.of_nat count) (written ++ take count (available c)) received1 false) as [[[chunks' size'] written'] received'].
    intros _. destruct (IH eq_refl) as [(got & H1 & H2 & H3) H4 H5 H6]. constructor; [|done| |].
    + exists (take count (available c) ++ got). split; [by rewrite H1, app_assoc|]. rewrite stream_bytes_cons, H2, length_app, Hlen.
      rewrite (take_ge _ count) by lia. split; [by rewrite app_assoc|lia].
    + rewrite length_app, Hlen in H5. unfold count in *. lia.
    + intros -> _ _ Hnil. rewrite H1 in Hnil. apply (f_equal length) in Hnil. rewrite !length_app, Hlen in Hnil. cbn in Hnil. lia.
  - apply bool_decide_eq_false in Hrm. intros _. apply Hstop; [constructor; [|done]; apply Hok'; intros Hd; by apply Hrm, Hrem|].
    by rewrite stream_bytes_cons, Hadv.
Qed.

Lemma peek_loop_full n include_control chunks written received hit :
  (n <= length written)%nat → (peek_loop n include_control chunks written received hit).1 = written.
Proof. intros Hn. destruct chunks as [|c rest]; [done|]. cbn [peek_loop]. destruct (_ && _); [done|]. by rewrite decide_True. Qed.

Lemma peek_loop_spec n include_control chunks : ∀ written received hit,
  hit = false → ∃ got more, (peek_loop n include_control chunks written received hit).1 = written ++ got ∧ stream_bytes chunks = got ++ more.
Proof.
  induction chunks as [|c rest IH]; intros written received hit ->; cbn [peek_loop].
  { exists [], []. by rewrite app_nil_r. }
  assert (∃ got more, written = written ++ got ∧ stream_bytes (c :: rest) = got ++ more) as Hnone.
  { exists [], (stream_bytes (c :: rest)). by rewrite app_nil_r. }
  destruct (_ && _); [done|]. case_decide; [done|]. case_decide as Hav.
  { destruct (IH written received false eq_refl) as (got & more & H1 & H2). exists got, more. split; [done|]. by rewrite stream_bytes_cons, Hav. }
  cbn zeta. destruct (false || _) eqn:Hhit.
  { exists (take (n - length written) (available c)), (drop (n - length written) (available c) ++ stream_bytes rest).
    split; [done|]. by rewrite stream_bytes_cons, app_assoc, take_drop. }
  destruct (IH (written ++ take (n - length written) (available c)) (if include_control && bool_decide (written = []) && bool_decide (received = None) then ch_ancillary c else received) false eq_refl)
    as (got & more & H1 & H2). rewrite H1. destruct (decide (length (available c) <= n - length written)%nat) as [Hle|Hle].
  - exists (available c ++ got), more. rewrite take_ge by lia. split; [by rewrite app_assoc|]. by rewrite stream_bytes_cons, H2, app_assoc.
  - rewrite peek_loop_full in H1 by (rewrite length_app, length_take; lia).
    exists (take (n - length written) (available c)), (drop (n - length written) (available c) ++ stream_bytes rest).
    split; [by rewrite <-H1|]. by rewrite stream_bytes_cons, app_assoc, take_drop.
Qed.

(** ** Changes *)

(** A change of the fields that [core] leaves out. *)
Lemma quiet_update {E} w id s f (Q : unit → ux_world → Prop) (Qe : E → ux_world → Prop) :
  ux_sockets w !! id = Some s → blank (f (us_state s)) = blank (us_state s) →
  (∀ w', quiet w w' → ux_sockets w' = <[id := with_st (f (us_state s)) s]> (ux_sockets w) → Q () w') → wp_res (update id f) w Q Qe.
Proof.
  intros Hs Hf HQ. eapply update_rule; [done|]. intros w' (Hsocks & Hn & Hb) Hw. apply HQ; [|done]. constructor; [|done|by rewrite Hb|exists []; by rewrite app_nil_r].
  intros p. rewrite Hsocks. destruct (decide (p = id)) as [->|]; [|by rewrite lookup_insert_ne]. rewrite lookup_insert_eq, Hs. unfold core. cbn. by rewrite Hf.
Qed.

Lemma quiet_alive w w' id : quiet w w' → is_Some (ux_sockets w !! id) → is_Some (ux_sockets w' !! id).
Proof. intros Hq [s Hs]. destruct (quiet_lookup w w' id s Hq Hs) as (s' & -> & _). by eexists. Qed.

Lemma clear_pending_rule {E} w id (Q : unit → ux_world → Prop) (Qe : E → ux_world → Prop) :
  is_Some (ux_sockets w !! id) → (∀ w', quiet w w' → Q () w') → wp_res (clear_pending_connect id) w Q Qe.
Proof.
  intros [s Hs] HQ. unfold clear_pending_connect. wp_step. eapply state_at_rule; [done|]. wp_step. eapply quiet_update; [done|done|]. intros w1 Hq1 _.
  wp_step. apply upgrade_rule. destruct (alive w1 (pending_connect (us_state s))) as [l|] eqn:Hl; [|wp_run; by apply HQ].
  apply alive_Some in Hl as [_ [sl Hsl]]. eapply quiet_update; [done|done|]. intros w2 Hq2 _. apply HQ. by etrans.
Qed.

Lemma notify_pending_rule {E} w id events (Q : unit → ux_world → Prop) (Qe : E → ux_world → Prop) :
  is_Some (ux_sockets w !! id) → (∀ w', quiet w w' → Q () w') → wp_res (notify_pending_connects id events) w Q Qe.
Proof.
  intros [s Hs] HQ. unfold notify_pending_connects, collect_pending_connects. wp_step. wp_step. wp_step. wp_step. eapply state_at_rule; [done|].
  wp_step. eapply quiet_update; [done|done|]. intros w1 Hq1 _. wp_step. eapply notify_all_rule.
  - intros c [Hc _]%list_elem_of_filter. by eapply quiet_alive.
  - intros w2 Hq2. apply HQ. by etrans.
Qed.

Lemma notify_quiet_rule {E} w id events (Q : unit → ux_world → Prop) (Qe : E → ux_world → Prop) :
  is_Some (ux_sockets w !! id) → (∀ w', quiet w w' → Q () w') → wp_res (ux_notify id events) w Q Qe.
Proof. intros [s Hs] HQ. eapply sock_notify_rule; [done|]. intros w' Hq _. by apply HQ. Qed.

(** The world in which the queues of a socket were replaced. *)
Definition requeue (w : ux_world) (id : Z) (s : UnixSocket) (chunks : list UnixStreamChunk) (packets : list UnixPacket) (size : Z) : ux_world :=
  put_sock id (with_st (set_queues chunks packets size (us_state s)) s) w.

Lemma requeue_ok w id s chunks packets size :
  ux_ok w → ux_sockets w !! id = Some s → size = Z.of_nat (length (stream_bytes chunks)) + packet_bytes packets → size <= i32_max →
  (us_kind s = SOCK_STREAM → packets = []) → (us_kind s ≠ SOCK_STREAM → chunks = []) → Forall chunk_ok chunks → ux_ok (requeue w id s chunks packets size).
Proof.
  intros Hok Hs Hsize Hmax Hp Hc Hch. destruct (uo_socks _ Hok _ _ Hs). eapply (ux_ok_local w _ id s); [done|done|reflexivity|done|done|done|].
  constructor; done.
Qed.

(** [w'] is [w] with the queues of [id] replaced, up to notifications. *)
Definition requeued (w w' : ux_world) (id : Z) (s : UnixSocket) (chunks : list UnixStreamChunk) (packets : list UnixPacket) : Prop :=
  ux_sockets w !! id = Some s ∧ ∃ size, quiet (requeue w id s chunks packets size) w'.

Lemma packet_bytes_app l l' : packet_bytes (l ++ l') = packet_bytes l + packet_bytes l'.
Proof. unfold packet_bytes. induction l as [|p l IH]; cbn; lia. Qed.
Lemma packet_bytes_nonneg l : 0 <= packet_bytes l.
Proof. unfold packet_bytes. induction l as [|p l IH]; cbn; lia. Qed.

Lemma enqueue_stream_rule w p s buffer ancillary :
  ux_ok w → ux_sockets w !! p = Some s → us_kind s = SOCK_STREAM → buffer ≠ [] →
  wp_res (enqueue_stream p buffer ancillary) w
    (λ n w', 0 < n <= Z.of_nat (length buffer) ∧ ux_ok w' ∧
       requeued w w' p s (us_recv_stream (us_state s) ++ [mkChunk (take (Z.to_nat n) buffer) 0 ancillary]) [] ∧
       ux_woken w' = ux_woken w ++ matching PollEvents.READ (registrations (us_waiters s)))
    (λ e w', w' = w ∧ (if shut_rd (us_state s) then e = SysErr.Pipe else e = SysErr.Again ∧ rcvbuf (us_state s) <= recv_size (us_state s))).
Proof.
  intros Hok Hs Hk Hne. destruct (uo_socks _ Hok _ _ Hs) as [_ Hsize Hmax Hrcv Hst _ Hch]. unfold enqueue_stream. rewrite decide_False by done.
  wp_step. eapply state_at_rule; [done|]. destruct (shut_rd (us_state s)); [by wp_run|].
  destruct (decide (saturating_sub (rcvbuf (us_state s)) (recv_size (us_state s)) = 0)) as [H0|H0].
  { wp_run. split; [done|]. split; [done|]. unfold saturating_sub in H0. lia. }
  set (count := _ `min` _). assert (0 < count <= Z.of_nat (length buffer)) as Hcount by (destruct buffer; [done|unfold count, saturating_sub in *; cbn [length] in *; lia]).
  wp_step. eapply update_rule; [done|]. intros w1 (H1 & H2 & H3) H4. unfold queue_size in Hsize. rewrite (Hst Hk) in Hsize. cbn [packet_bytes foldr] in Hsize.
  assert (length (take (Z.to_nat count) buffer) = Z.to_nat count) as Hlen by (rewrite length_take; lia).
  set (chunks := us_recv_stream (us_state s) ++ [mkChunk (take (Z.to_nat count) buffer) 0 ancillary]) in *.
  assert (w1 = requeue w p s chunks [] (saturating_add u64_max (recv_size (us_state s)) count)) as ->.
  { destruct w1, w. cbn in *. subst. unfold requeue, put_sock. cbn. by rewrite (Hst Hk). }
  assert (saturating_add u64_max (recv_size (us_state s)) count = recv_size (us_state s) + count) as Hsat.
  { unfold saturating_add, count, saturating_sub, u64_max, i32_max in *. lia. }
  rewrite Hsat. wp_step. eapply sock_notify_rule; [apply lookup_insert_eq|]. intros w2 Hq Hw. wp_run. split; [done|]. split.
  { eapply quiet_ok; [done|]. apply requeue_ok; [done|done| | |done|done|].
    - unfold chunks. rewrite stream_bytes_app, stream_bytes_one, length_app, Hlen. cbn. lia.
    - unfold count, saturating_sub in *. lia.
    - apply Forall_app. split; [done|]. constructor; [|done]. unfold chunk_ok. cbn. lia. }
  split; [split; [done|by eexists]|done].
Qed.

Lemma enqueue_packet_rule w p s buffer source ancillary :
  ux_ok w → ux_sockets w !! p = Some s → us_kind s ≠ SOCK_STREAM →
  wp_res (enqueue_packet_from p buffer source ancillary) w
    (λ n w', n = Z.of_nat (length buffer) ∧ ux_ok w' ∧ requeued w w' p s [] (recv_packets (us_state s) ++ [mkPacket buffer source ancillary]) ∧
       ux_woken w' = ux_woken w ++ matching PollEvents.READ (registrations (us_waiters s)))
    (λ e w', w' = w ∧ (if shut_rd (us_state s) then e = SysErr.Pipe else e = SysErr.Again ∧ rcvbuf (us_state s) < recv_size (us_state s) + Z.of_nat (length buffer))).
Proof.
  intros Hok Hs Hk. destruct (uo_socks _ Hok _ _ Hs) as [_ Hsize Hmax Hrcv _ Hpk _]. unfold enqueue_packet_from.
  wp_step. eapply state_at_rule; [done|]. destruct (shut_rd (us_state s)); [by wp_run|]. cbn zeta.
  set (next := saturating_add u64_max (recv_size (us_state s)) (Z.of_nat (length buffer))).
  destruct (decide (rcvbuf (us_state s) < next)) as [Hfull|Hfull].
  { wp_run. split; [done|]. split; [done|]. unfold next, saturating_add in Hfull. lia. }
  assert (next = recv_size (us_state s) + Z.of_nat (length buffer)) as Hnext.
  { unfold next, saturating_add in *. unfold u64_max, i32_max in *. lia. }
  unfold queue_size in Hsize. rewrite (Hpk Hk) in Hsize |- *. cbn [stream_bytes mbind list_bind length] in Hsize.
  wp_step. eapply update_rule; [done|]. intros w1 (H1 & H2 & H3) H4.
  set (packets := recv_packets (us_state s) ++ [mkPacket buffer source ancillary]) in *.
  assert (w1 = requeue w p s [] packets next) as -> by (destruct w1, w; cbn in *; subst; done).
  wp_step. eapply sock_notify_rule; [apply lookup_insert_eq|]. intros w2 Hq Hw. wp_run. split; [done|]. split.
  { eapply quiet_ok; [done|]. apply requeue_ok; [done|done| |lia|done|done|done].
    unfold packets. rewrite packet_bytes_app. cbn. lia. }
  split; [split; [done|by eexists]|done].
Qed.
