(* ===== verification/UnixCalls.v ===== *)
(** * Unix domain sockets: the calls

    A rule for every operation: it keeps the invariant [ux_ok], and
    [inboxes], the bytes and packets that wait at every socket, change as the
    operation says. *)

From S2P Require Import Prelude Poll Errno Fd Unix UnixProof.

Definition inbox (s : UnixSocket) : list Z * list UnixPacket := (stream_bytes (us_recv_stream (us_state s)), recv_packets (us_state s)).
Definition inboxes (w : ux_world) : gmap Z (list Z * list UnixPacket) := inbox <$> ux_sockets w.

Lemma inboxes_lookup w id : inboxes w !! id = inbox <$> ux_sockets w !! id.
Proof. apply lookup_fmap. Qed.

Lemma quiet_inboxes w w' : quiet w w' → inboxes w' = inboxes w.
Proof.
  intros Hq. apply map_eq. intros id. rewrite !inboxes_lookup. destruct (ux_sockets w !! id) as [s|] eqn:Hs.
  - destruct (quiet_lookup w w' id s Hq Hs) as (s' & -> & Hp%core_public). cbn. unfold inbox. by rewrite (sp_stream _ _ Hp), (sp_packets _ _ Hp).
  - destruct (ux_sockets w' !! id) as [s'|] eqn:Hs'; [|done]. destruct (quiet_back w w' id s' Hq Hs') as (s & ? & _). congruence.
Qed.

Lemma requeued_inboxes w w' id s chunks packets :
  requeued w w' id s chunks packets → inboxes w' = <[id := (stream_bytes chunks, packets)]> (inboxes w).
Proof. intros (Hs & size & Hq). rewrite (quiet_inboxes _ _ Hq). unfold inboxes, requeue, put_sock. cbn [ux_sockets]. by rewrite fmap_insert. Qed.

Lemma requeued_next w w' id s chunks packets : requeued w w' id s chunks packets → ux_next w' = ux_next w.
Proof. intros (_ & size & Hq). by rewrite (qu_next _ _ Hq). Qed.

(** A change of one socket that leaves its inbox. *)
Lemma changed_inboxes w w' id s s' :
  changed w w' id s' → ux_sockets w !! id = Some s → inbox s' = inbox s → inboxes w' = inboxes w.
Proof. intros (H & _) Hs Hi. unfold inboxes. rewrite H, fmap_insert, insert_id; [done|]. by rewrite lookup_fmap, Hs, Hi. Qed.

(** ** Finding the other end *)

Lemma lookup_bound_rule {E} w a (Q : option Z → ux_world → Prop) (Qe : E → ux_world → Prop) :
  (∀ r w', quiet w w' → ux_sockets w' = ux_sockets w → r = alive w (ux_bound w !! a) → Q r w') → wp_res (lookup_bound a) w Q Qe.
Proof.
  intros HQ. unfold lookup_bound. wp_step. wp_step. wp_step. apply upgrade_rule. wp_step. case_decide as Hn.
  - unfold set_bound_table. wp_run. apply HQ; [|done|done]. constructor; [done|done|apply delete_subseteq|exists []; by rewrite app_nil_r].
  - wp_run. by apply HQ.
Qed.

Definition peer_given (w : ux_world) (peer : option GivenPeer) : Prop :=
  match peer with Some (Some p) => is_Some (ux_sockets w !! p) | _ => True end.

(** The socket that an address or the system call layer names. *)
Definition named (w : ux_world) (address : list Z) (peer : option GivenPeer) (p : Z) : Prop :=
  peer = Some (Some p) ∨ (peer = None ∧ ∃ a, from_raw address = Ok a ∧ ux_bound w !! a = Some p).

Lemma lookup_target_rule w id s address peer :
  ux_sockets w !! id = Some s → peer_given w peer →
  wp_res (lookup_target id address peer) w
    (λ p w', quiet w w' ∧ ux_sockets w' = ux_sockets w ∧ named w address peer p ∧ ∃ sp, ux_sockets w !! p = Some sp ∧ us_kind sp = us_kind s)
    (λ _ w', quiet w w').
Proof.
  intros Hs Hgiven. unfold lookup_target. wp_step. eapply sock_at_rule; [done|]. wp_step.
  assert (∀ p w1 sp, quiet w w1 → ux_sockets w1 = ux_sockets w → named w address peer p → ux_sockets w !! p = Some sp →
    wp_res (other ← sock_at p; if decide (us_kind other ≠ us_kind s) then mthrow SysErr.ProtoType else mret p) w1
      (λ p0 w', quiet w w' ∧ ux_sockets w' = ux_sockets w ∧ named w address peer p0 ∧ ∃ sp0, ux_sockets w !! p0 = Some sp0 ∧ us_kind sp0 = us_kind s) (λ _ w', quiet w w')) as Hcont.
  { intros p w1 sp Hq Heq Hnm Hp. wp_step. eapply sock_at_rule; [by rewrite Heq|]. case_decide as Hk; wp_run; [done|]. split; [done|]. split; [done|]. split; [done|].
    exists sp. split; [done|]. destruct (decide (us_kind sp = us_kind s)); [done|]. by destruct Hk. }
  destruct peer as [[p|]|]; cbn [mok_or] in *.
  - wp_step. destruct Hgiven as [sp Hp]. eapply Hcont; [done|done|by left|done].
  - by wp_run.
  - destruct (from_raw address) as [a|e| |] eqn:Ha; wp_step; unfold wp_res at 1, wp at 1; cbn [fst snd]; try done.
    2,3: unfold from_raw in Ha; repeat case_match; done.
    wp_step. eapply lookup_bound_rule. intros r w1 Hq Heq ->. destruct (alive w (ux_bound w !! a)) as [p|] eqn:Hr; cbn [mok_or]; wp_step; [|done].
    apply alive_Some in Hr as [Hr [sp Hp]]. eapply Hcont; [done|done|right; split; [done|by exists a]|done].
Qed.

Lemma peer_or_error_rule w id s :
  ux_sockets w !! id = Some s →
  wp_res (peer_or_error id) w (λ p w', w' = w ∧ us_peer (us_state s) = Some p ∧ is_Some (ux_sockets w !! p))
    (λ e w', w' = w ∧ alive w (us_peer (us_state s)) = None ∧
       e = (if decide (us_kind s = SOCK_DGRAM) then SysErr.DestAddrReq else if established (us_state s) then SysErr.Pipe else SysErr.NotConn)).
Proof.
  intros Hs. unfold peer_or_error. wp_step. eapply sock_at_rule; [done|]. wp_step. apply upgrade_rule.
  destruct (alive w (us_peer (us_state s))) as [p|] eqn:Hp; cbn [mok_or]; wp_run; [|done]. by apply alive_Some in Hp as [? ?].
Qed.

Lemma peer_same_kind w id s p :
  ux_ok w → ux_sockets w !! id = Some s → us_peer (us_state s) = Some p → is_Some (ux_sockets w !! p) →
  ∃ sp, ux_sockets w !! p = Some sp ∧ us_kind sp = us_kind s.
Proof.
  intros Hok Hs Hp [sp Hsp]. exists sp. split; [done|]. pose proof (ln_peer_kind _ _ _ (uo_links _ Hok) id (link_of s) p (link_of sp)) as H.
  rewrite !links_lookup, Hs, Hsp in H. by apply H.
Qed.

(** ** Sending *)

(** Where a send of the socket goes. *)
Definition destination (w : ux_world) (s : UnixSocket) (address : option (list Z)) (peer : option GivenPeer) : option Z :=
  match address, peer with
  | None, _ => us_peer (us_state s)
  | Some _, Some given => given
  | Some address, None => match from_raw address with Ok a => ux_bound w !! a | _ => None end
  end.

(** What a successful send of [n] of the bytes [data] does. *)
Definition sent (w w' : ux_world) (s : UnixSocket) (address : option (list Z)) (peer : option GivenPeer) (data : list Z) (n : Z) : Prop :=
  ∃ p sp, ux_sockets w !! p = Some sp ∧ us_kind sp = us_kind s ∧ destination w s address peer = Some p ∧ ux_next w' = ux_next w ∧
    matching PollEvents.READ (registrations (us_waiters sp)) ⊆ ux_woken w' ∧
    if decide (us_kind s = SOCK_STREAM)
    then 0 < n <= Z.of_nat (length data) ∧ inboxes w' = <[p := (stream_bytes (us_recv_stream (us_state sp)) ++ take (Z.to_nat n) data, [])]> (inboxes w)
    else n = Z.of_nat (length data) ∧ ∃ packet, pk_data packet = data ∧ pk_source packet = source_name (us_state s) ∧
         inboxes w' = <[p := ([], recv_packets (us_state sp) ++ [packet])]> (inboxes w).

Definition transmit (s : UnixSocket) (p : Z) (data : list Z) (ancillary : option UnixAncillary) : MS Z :=
  if is_stream_like s then enqueue_stream p data ancillary else enqueue_packet_from p data (source_name (us_state s)) ancillary.

Lemma transmit_rule w w1 s p sp address peer data ancillary :
  ux_ok w → quiet w w1 → ux_sockets w1 = ux_sockets w → ux_sockets w !! p = Some sp → us_kind sp = us_kind s →
  destination w s address peer = Some p → (data = [] → us_kind s ≠ SOCK_STREAM) →
  wp_res (transmit s p data ancillary) w1 (λ n w', ux_ok w' ∧ sent w w' s address peer data n) (λ _ w', quiet w w').
Proof.
  intros Hok Hq Heq Hp Hk Hpeer Hne. pose proof (quiet_ok _ _ Hq Hok) as Hok1. unfold transmit, is_stream_like. case_bool_decide as Hst.
  - eapply wp_res_mono; [apply (enqueue_stream_rule w1 p sp); [done|by rewrite Heq|congruence|intros ->; by apply Hne]|cbv beta..].
    + intros n w' (Hn & Hok' & Hr & Hw). split; [done|]. exists p, sp. split; [done|]. split; [done|]. split; [done|]. split; [by rewrite (requeued_next _ _ _ _ _ _ Hr), (qu_next _ _ Hq)|]. rewrite decide_True by done.
      split; [rewrite Hw; by apply list_subseteq_app_r|]. split; [done|]. rewrite (requeued_inboxes _ _ _ _ _ _ Hr), stream_bytes_app, stream_bytes_one.
      by rewrite (quiet_inboxes _ _ Hq).
    + by intros e w' [-> _].
  - eapply wp_res_mono; [apply (enqueue_packet_rule w1 p sp); [done|by rewrite Heq|congruence]|cbv beta..].
    + intros n w' (-> & Hok' & Hr & Hw). split; [done|]. exists p, sp. split; [done|]. split; [done|]. split; [done|]. split; [by rewrite (requeued_next _ _ _ _ _ _ Hr), (qu_next _ _ Hq)|]. rewrite decide_False by done.
      split; [rewrite Hw; by apply list_subseteq_app_r|]. split; [done|]. exists (mkPacket data (source_name (us_state s)) ancillary). split; [done|]. split; [done|].
      by rewrite (requeued_inboxes _ _ _ _ _ _ Hr), (quiet_inboxes _ _ Hq).
    + by intros e w' [-> _].
Qed.

Lemma target_rule w id s address peer (Q : Z → MS Z) R Re :
  ux_ok w → ux_sockets w !! id = Some s → peer_given w peer →
  (∀ p sp w1, quiet w w1 → ux_sockets w1 = ux_sockets w → ux_sockets w !! p = Some sp → us_kind sp = us_kind s →
     destination w s address peer = Some p → wp_res (Q p) w1 R Re) →
  (∀ e w', quiet w w' → Re e w') →
  wp_res (p ← (match address with Some address => lookup_target id address peer | None => peer_or_error id end); Q p) w R Re.
Proof.
  intros Hok Hs Hgiven HQ He. wp_step. destruct address as [address|].
  - eapply wp_res_mono; [by apply lookup_target_rule|cbv beta..]; [|apply He]. intros p w1 (Hq & Heq & Hnm & sp & Hp & Hk). eapply HQ; try done. cbn.
    destruct Hnm as [->|[-> (a & -> & Ha)]]; done.
  - eapply wp_res_mono; [by apply peer_or_error_rule|cbv beta..]; [|by intros e w' (-> & _); apply He].
    intros p w1 (-> & Hp & Ha). destruct (peer_same_kind w id s p Hok Hs Hp Ha) as (sp & Hsp & Hk). by eapply HQ.
Qed.

Lemma send_to_rule w id s buffer address peer :
  ux_ok w → ux_sockets w !! id = Some s → peer_given w peer →
  wp_res (send_to_socket id buffer address peer) w
    (λ n w', ux_ok w' ∧ (if decide (buffer = [] ∧ us_kind s = SOCK_STREAM) then n = 0 ∧ w' = w else sent w w' s address peer buffer n))
    (λ _ w', quiet w w').
Proof.
  intros Hok Hs Hgiven. unfold send_to_socket. wp_step. eapply sock_at_rule; [done|].
  assert (bool_decide (buffer = []) && is_stream_like s = bool_decide (buffer = [] ∧ us_kind s = SOCK_STREAM)) as ->.
  { unfold is_stream_like. repeat case_bool_decide; tauto. }
  destruct (decide (buffer = [] ∧ us_kind s = SOCK_STREAM)) as [He|He]; [rewrite bool_decide_true by done; by wp_run|rewrite bool_decide_false by done].
  destruct (is_connection_oriented s && _); [by wp_run|]. eapply target_rule; [done|done|done| |done].
  intros p sp w1 Hq Heq Hp Hk Hpeer. apply (transmit_rule w w1 s p sp address peer buffer None); try done. intros Hb Hst. by destruct He.
Qed.

Lemma send_msg_rule w id s message peer :
  ux_ok w → ux_sockets w !! id = Some s → peer_given w peer →
  wp_res (send_msg_to_socket id message peer) w
    (λ n w', ux_ok w' ∧ (if decide (sm_data message = [] ∧ us_kind s = SOCK_STREAM) then n = 0 ∧ quiet w w' else sent w w' s (sm_name message) peer (sm_data message) n))
    (λ _ w', quiet w w').
Proof.
  intros Hok Hs Hgiven. unfold send_msg_to_socket. wp_step. eapply sock_at_rule; [done|].
  destruct (is_connection_oriented s && _); [by wp_run|]. eapply target_rule; [done|done|done| |done].
  intros p sp w1 Hq Heq Hp Hk Hpeer. wp_step. eapply state_at_rule; [by rewrite Heq|]. cbn zeta.
  set (ancillary := build_outbound_ancillary message (passcred (us_state sp))). destruct (bool_decide (is_Some ancillary) && _ && _); [by wp_run|].
  fold (transmit s p (sm_data message) ancillary). destruct (decide (sm_data message = [] ∧ us_kind s = SOCK_STREAM)) as [He|He].
  - destruct He as [He Hst]. unfold transmit, is_stream_like. rewrite bool_decide_true, He by done. unfold enqueue_stream. rewrite decide_True by done. wp_run.
    split; [by eapply quiet_ok|done].
  - apply (transmit_rule w w1 s p sp (sm_name message) peer); try done. intros Hd Hst. by destruct He.
Qed.

(** ** Receiving *)

Definition at_end (w : ux_world) (s : UnixSocket) : Prop :=
  established (us_state s) = true ∧
  match alive w (us_peer (us_state s)) with Some p => ∃ sp, ux_sockets w !! p = Some sp ∧ shut_wr (us_state sp) = true | None => True end.

Lemma empty_receive_rule w s :
  wp_res (empty_receive (us_state s)) w (λ r w', w' = w ∧ r = receive_from_ancillary None None 0 [] ∧ at_end w s)
    (λ e w', w' = w ∧ (e = SysErr.NotConn ∨ e = SysErr.Again)).
Proof.
  unfold empty_receive, at_end. wp_step. apply upgrade_rule. destruct (established (us_state s)); cbn [negb]; [|wp_run; by auto]. wp_step.
  destruct (alive w (us_peer (us_state s))) as [p|] eqn:Hp; [|by wp_run]. apply alive_Some in Hp as [_ [sp Hsp]]. wp_step.
  eapply state_at_rule; [done|]. wp_step. destruct (shut_wr (us_state sp)) eqn:Hw; wp_run; [|by auto]. split; [done|]. split; [done|]. split; [done|]. by exists sp.
Qed.

Definition is_peek (flags : Z) : bool := bool_decide (Z.land flags MSG_PEEK ≠ 0).

(** What a receive of at most [n] bytes from a stream does. *)
Definition stream_received (w w' : ux_world) (id : Z) (s : UnixSocket) (n : nat) (peek : bool) (bytes : list Z) : Prop :=
  if shut_rd (us_state s) then bytes = [] ∧ w' = w
  else ∃ rest, stream_bytes (us_recv_stream (us_state s)) = bytes ++ rest ∧
       inboxes w' = (if peek then inboxes w else <[id := (rest, [])]> (inboxes w)) ∧
       (peek = false → (length bytes <= n)%nat ∧ (bytes = [] → n ≠ O → stream_bytes (us_recv_stream (us_state s)) = [] ∧ at_end w s)).

(** The peer of a receive that made room is told. *)
Lemma wake_peer_rule w w1 s (b : bool) (r : SocketReceive) (Q : SocketReceive → ux_world → Prop) (Qe : SysErr.SysErr → ux_world → Prop) :
  (∀ id, is_Some (ux_sockets w !! id) → is_Some (ux_sockets w1 !! id)) → (∀ w', quiet w1 w' → Q r w') →
  wp_res (p ← upgrade (us_peer (us_state s)); _ ← (match p with Some p => if b then ux_notify p PollEvents.WRITE else mret () | None => mret () end); mret r) w1 Q Qe.
Proof.
  intros Hdom HQ. wp_step. apply upgrade_rule. wp_step. destruct (alive w1 (us_peer (us_state s))) as [p|] eqn:Hp; [|by wp_run; apply HQ].
  apply alive_Some in Hp as [_ Hp]. destruct b; [|by wp_run; apply HQ]. eapply notify_quiet_rule; [done|]. intros w2 Hq. wp_run. by apply HQ.
Qed.

Lemma recv_stream_rule w id s n flags include_control :
  ux_ok w → ux_sockets w !! id = Some s → us_kind s = SOCK_STREAM →
  wp_res (recv_stream id n flags include_control) w
    (λ r w', (ux_ok w' ∧ ux_next w' = ux_next w) ∧ stream_received w w' id s n (is_peek flags) (sr_bytes r)) (λ _ w', w' = w).
Proof.
  intros Hok Hs Hk. destruct (uo_socks _ Hok _ _ Hs) as [_ Hsize Hmax Hrcv Hst _ Hch]. unfold recv_stream, stream_received. wp_step. eapply state_at_rule; [done|].
  destruct (shut_rd (us_state s)); [by wp_run|]. unfold queue_size in Hsize. rewrite (Hst Hk) in Hsize. cbn [packet_bytes foldr] in Hsize.
  assert (inboxes w !! id = Some (stream_bytes (us_recv_stream (us_state s)), [])) as Hin by (rewrite inboxes_lookup, Hs; unfold inbox; cbn; by rewrite (Hst Hk)).
  destruct (decide (us_recv_stream (us_state s) = [])) as [He|He].
  { eapply wp_res_mono; [apply empty_receive_rule|cbv beta..]; [|by intros e w' [-> _]]. intros r w' (-> & -> & Hend). split; [done|]. exists []. rewrite He.
    split; [done|]. split; [|by intros _; split; [cbn; lia|]]. destruct (is_peek flags); [done|]. rewrite insert_id; [done|]. by rewrite Hin, He. }
  unfold is_peek. destruct (decide (Z.land flags MSG_PEEK ≠ 0)) as [Hpk|Hpk].
  - rewrite (bool_decide_true (Z.land flags MSG_PEEK ≠ 0)) by done. destruct (peek_loop_spec n include_control (us_recv_stream (us_state s)) [] None false eq_refl) as (got & more & H1 & H2).
    destruct (peek_loop n include_control (us_recv_stream (us_state s)) [] None false) as [written received]. cbn in H1. wp_run. split; [done|]. exists more.
    assert (sr_bytes (receive_from_ancillary None received 0 written) = written) as -> by (by destruct received). rewrite H1. done.
  - rewrite (bool_decide_false (Z.land flags MSG_PEEK ≠ 0)) by done. pose proof (stream_take_spec n include_control (us_recv_stream (us_state s)) (recv_size (us_state s)) [] None false Hch ltac:(lia)) as Htk.
    destruct (take_loop n include_control (us_recv_stream (us_state s)) (recv_size (us_state s)) [] None false) as [[[chunks size] written] received].
    destruct (Htk eq_refl) as [(got & -> & Hgot & Hsz) Hchunks Hlen Hprog]. cbn [app] in *. wp_step. eapply update_rule; [done|]. intros w1 (H1 & H2 & H3) H4.
    rewrite (Hst Hk) in H1. assert (w1 = requeue w id s chunks [] size) as -> by (destruct w1, w; cbn in *; by subst).
    assert (ux_ok (requeue w id s chunks [] size)) as Hok1.
    { apply requeue_ok; [done|done| | |done|done|done]; cbn [packet_bytes foldr]; rewrite Hgot, length_app in Hsize; lia. }
    eapply (wake_peer_rule w).
    { intros q [sq Hq]. cbn. destruct (decide (q = id)) as [->|]; [rewrite lookup_insert_eq; by eexists|rewrite lookup_insert_ne by done; by eexists]. }
    intros w2 Hq2. split; [split; [by eapply quiet_ok|apply (qu_next _ _ Hq2)]|]. assert (sr_bytes (receive_from_ancillary None received 0 got) = got) as -> by (by destruct received).
    exists (stream_bytes chunks). split; [done|]. split; [|intros _; split; [cbn in Hlen; lia|]].
    + apply (requeued_inboxes w w2 id s). split; [done|]. by exists size.
    + intros -> Hn. exfalso. apply Hprog; [done|done| |done]. intros Hnil. by apply He, stream_bytes_nil.
Qed.

(** What a receive from a socket with packets does. *)
Definition packet_received (w w' : ux_world) (id : Z) (s : UnixSocket) (n : nat) (peek : bool) (r : SocketReceive) : Prop :=
  if shut_rd (us_state s) then sr_bytes r = [] ∧ w' = w
  else
    match recv_packets (us_state s) with
    | [] => sr_bytes r = [] ∧ w' = w ∧ at_end w s
    | packet :: rest =>
        sr_bytes r = take n (pk_data packet) ∧ sr_address r = pk_source packet ∧ (sr_msg_flags r = MSG_TRUNC ↔ (n < length (pk_data packet))%nat) ∧
        inboxes w' = (if peek then inboxes w else <[id := ([], rest)]> (inboxes w))
    end.

Lemma recv_packet_rule w id s n flags include_control :
  ux_ok w → ux_sockets w !! id = Some s → us_kind s ≠ SOCK_STREAM →
  wp_res (recv_packet id n flags include_control) w
    (λ r w', (ux_ok w' ∧ ux_next w' = ux_next w) ∧ packet_received w w' id s n (is_peek flags) r) (λ _ w', w' = w).
Proof.
  intros Hok Hs Hk. destruct (uo_socks _ Hok _ _ Hs) as [_ Hsize Hmax Hrcv _ Hpk _]. unfold recv_packet, packet_received. wp_step. eapply sock_at_rule; [done|]. cbn zeta.
  destruct (shut_rd (us_state s)); [by wp_run|]. unfold queue_size in Hsize. rewrite (Hpk Hk) in Hsize |- *. cbn [stream_bytes mbind list_bind length] in Hsize.
  destruct (recv_packets (us_state s)) as [|packet rest] eqn:Hps.
  { destruct (is_connection_oriented s); [|by wp_run]. eapply wp_res_mono; [apply empty_receive_rule|cbv beta..]; [|by intros e w' [-> _]].
    by intros r w' (-> & -> & Hend). }
  fold (is_peek flags). set (r := receive_from_ancillary _ _ _ _).
  assert (sr_bytes r = take n (pk_data packet) ∧ sr_address r = pk_source packet ∧ (sr_msg_flags r = MSG_TRUNC ↔ (n < length (pk_data packet))%nat)) as (Hr1 & Hr2 & Hr3).
  { unfold r, receive_from_ancillary. destruct (if include_control then _ else _); cbn; (split; [done|]); (split; [done|]); rewrite length_take; case_decide; unfold MSG_TRUNC; lia. }
  cbn [packet_bytes foldr] in Hsize. fold (packet_bytes rest) in Hsize. pose proof (packet_bytes_nonneg rest) as Hrest. wp_step. destruct (is_peek flags); cbn [negb andb].
  - wp_step. eapply (wake_peer_rule w w s false); [done|]. intros w2 Hq2. split; [split; [by eapply quiet_ok|apply (qu_next _ _ Hq2)]|]. split; [done|]. split; [done|]. split; [done|]. by apply quiet_inboxes.
  - eapply update_rule; [done|]. intros w1 (H1 & H2 & H3) H4.
    set (size := saturating_sub (recv_size (us_state s)) (Z.of_nat (length (pk_data packet)))) in *.
    assert (w1 = requeue w id s [] rest size) as -> by (destruct w1, w; cbn in *; by subst). eapply (wake_peer_rule w).
    { intros q [sq Hq]. cbn. destruct (decide (q = id)) as [->|]; [rewrite lookup_insert_eq; by eexists|rewrite lookup_insert_ne by done; by eexists]. }
    intros w2 Hq2. split.
    + split; [|apply (qu_next _ _ Hq2)]. eapply quiet_ok; [done|]. apply requeue_ok; [done|done| | |done|done|done]; unfold size, saturating_sub; cbn [stream_bytes mbind list_bind length]; lia.
    + split; [done|]. split; [done|]. split; [done|]. apply (requeued_inboxes w w2 id s [] rest). split; [done|]. by exists size.
Qed.
