(* ===== verification/UnixConnect.v ===== *)
(** * Unix domain sockets: connections and lifetimes

    How the references between sockets change when sockets are created,
    connected, accepted and dropped. *)

From S2P Require Import Prelude Poll Errno Fd Unix UnixProof UnixCalls.

(** ** Changes of the references *)

Section links.
Context (m : gmap Z link) (next : Z) (bound : gmap UnixAddress Z) (Hm : links_ok m next bound).

Lemma links_old id l : m !! id = Some l → id < next.
Proof. intros H. destruct (decide (next <= id)) as [Hn|]; [|lia]. by rewrite (ln_fresh _ _ _ Hm id Hn) in H. Qed.

Lemma queued_old id l b : m !! id = Some l → b ∈ lk_backlog l → b < next.
Proof. intros Hl Hb. destruct (ln_queued _ _ _ Hm id l b Hl Hb) as (lb & Hlb & _). by eapply links_old. Qed.

(** A socket that only changes what nobody relies on. *)
Lemma links_ok_fresh kind : links_ok (<[next := mkLink kind None [] false None 1]> m) (next + 1) bound.
Proof.
  pose proof (ln_fresh _ _ _ Hm next ltac:(lia)) as Hnone. destruct Hm as [F R PO PK P Q O1 O2 B]. constructor.
  - intros id Hid. rewrite lookup_insert_ne by lia. apply F. lia.
  - intros id l [[<- <-]|[_ H]]%lookup_insert_Some; [done|by eapply R].
  - intros id l p [[<- <-]|[_ H]]%lookup_insert_Some Hp; [done|]. pose proof (PO id l p H Hp). lia.
  - intros id l p lp [[<- <-]|[_ H]]%lookup_insert_Some Hp; [done|]. pose proof (PO id l p H Hp). rewrite lookup_insert_ne by lia. by eapply PK.
  - intros id l p [[<- <-]|[_ H]]%lookup_insert_Some Hp Hk; [done|]. destruct (P id l p H Hp Hk) as (Hne & lp & Hlp & Hback). split; [done|].
    exists lp. rewrite lookup_insert_ne; [done|]. intros <-. congruence.
  - intros id l b [[<- <-]|[_ H]]%lookup_insert_Some Hb; [by apply elem_of_nil in Hb|]. destruct (Q id l b H Hb) as (lb & Hlb & Hrest). exists lb.
    rewrite lookup_insert_ne; [done|]. intros <-. congruence.
  - intros id l [[<- <-]|[_ H]]%lookup_insert_Some; [constructor|by eapply O1].
  - intros id l id' l' b [[<- <-]|[_ H]]%lookup_insert_Some [[<- <-]|[_ H']]%lookup_insert_Some Hb Hb'; [done|by apply elem_of_nil in Hb..|by apply elem_of_nil in Hb'|by eapply O2].
  - intros a id Ha. destruct (B a id Ha) as [Hlt Hl]. split; [lia|]. intros l. rewrite lookup_insert_ne by lia. apply Hl.
Qed.

Definition with_peer (p : option Z) (l : link) : link := mkLink (lk_kind l) p (lk_backlog l) (lk_listening l) (lk_bound l) (lk_refs l).

(** Connecting two sockets that have no peer. *)
Lemma links_ok_pair a b la lb :
  m !! a = Some la → m !! b = Some lb → a ≠ b → lk_kind lb = lk_kind la → lk_peer la = None → lk_peer lb = None →
  links_ok (<[b := with_peer (Some a) lb]> (<[a := with_peer (Some b) la]> m)) next bound.
Proof.
  intros Ha Hb Hab Hk Hpa Hpb. pose proof (links_old a la Ha) as Hla. pose proof (links_old b lb Hb) as Hlb. destruct Hm as [F R PO PK P Q O1 O2 B].
  set (m' := <[b := _]> _).
  assert (∀ id, m' !! id = if decide (id = b) then Some (with_peer (Some a) lb) else if decide (id = a) then Some (with_peer (Some b) la) else m !! id) as Hlook.
  { intros id. unfold m'. case_decide as H1; [subst; by rewrite lookup_insert_eq|rewrite lookup_insert_ne by done]. case_decide as H2; [subst; by rewrite lookup_insert_eq|by rewrite lookup_insert_ne]. }
  assert (∀ id l', m' !! id = Some l' → ∃ l, m !! id = Some l ∧ lk_kind l' = lk_kind l ∧ lk_backlog l' = lk_backlog l ∧ lk_listening l' = lk_listening l ∧ lk_bound l' = lk_bound l ∧ lk_refs l' = lk_refs l ∧
            ((id = b ∧ lk_peer l' = Some a) ∨ (id = a ∧ lk_peer l' = Some b) ∨ (id ≠ a ∧ id ≠ b ∧ l' = l))) as Hback.
  { intros id l'. rewrite Hlook. case_decide as H1; [subst; intros [= <-]; exists lb; naive_solver|]. case_decide as H2; [subst; intros [= <-]; exists la; naive_solver|]. intros H. exists l'. naive_solver. }
  assert (∀ id l, m !! id = Some l → ∃ l', m' !! id = Some l' ∧ lk_kind l' = lk_kind l ∧ lk_backlog l' = lk_backlog l ∧ lk_listening l' = lk_listening l ∧ lk_bound l' = lk_bound l ∧ lk_refs l' = lk_refs l ∧
            (id ≠ a → id ≠ b → l' = l)) as Hforth.
  { intros id l H. rewrite Hlook. case_decide as H1; [subst; simplify_eq; eexists; naive_solver|]. case_decide as H2; [subst; simplify_eq; eexists; naive_solver|]. exists l. naive_solver. }
  constructor.
  - intros id Hid. rewrite Hlook. rewrite decide_False by lia. rewrite decide_False by lia. by apply F.
  - intros id l' (l & H & _ & _ & _ & _ & -> & _)%Hback. by eapply R.
  - intros id l' p (l & H & _ & _ & _ & _ & _ & [[-> E]|[[-> E]|(_ & _ & ->)]])%Hback Hp; [simplify_eq; lia..|by eapply PO].
  - intros id l' p lp' (l & H & Hkk & _ & _ & _ & _ & Hcase)%Hback Hp (lp & Hlp & Hkp & _)%Hback. rewrite Hkk, Hkp.
    destruct Hcase as [[-> E]|[[-> E]|(_ & _ & ->)]]; [simplify_eq; congruence..|by eapply PK].
  - intros id l' p (l & H & Hkk & _ & _ & _ & _ & Hcase)%Hback Hp Hkd. destruct Hcase as [[-> E]|[[-> E]|(Hna & Hnb & ->)]]; simplify_eq.
    + split; [done|]. rewrite Hlook, decide_False, decide_True by done. by eexists.
    + split; [done|]. rewrite Hlook, decide_True by done. by eexists.
    + destruct (P id l p H Hp Hkd) as (Hne & lp & Hlp & Hpp). split; [done|]. destruct (decide (p = a)) as [->|Hpna]; [by simplify_eq|].
      destruct (decide (p = b)) as [->|Hpnb]; [by simplify_eq|]. exists lp. rewrite Hlook, !decide_False by done. done.
  - intros id l' x (l & H & _ & Hbl & _)%Hback Hx. rewrite Hbl in Hx. destruct (Q id l x H Hx) as (lx & Hlx & H1 & H2 & H3).
    destruct (Hforth x lx Hlx) as (lx' & Hlx' & _ & E1 & E2 & _ & E3 & _). exists lx'. by rewrite E1, E2, E3.
  - intros id l' (l & H & _ & -> & _)%Hback. by eapply O1.
  - intros id l1 id' l2 x (l & H & _ & E1 & _)%Hback (l0 & H' & _ & E2 & _)%Hback Hx Hx'. rewrite E1 in Hx. rewrite E2 in Hx'. by eapply O2.
  - intros ad id Had. destruct (B ad id Had) as [Hlt Hl]. split; [done|]. intros l' (l & H & _ & _ & _ & -> & _)%Hback. by apply Hl.
Qed.

Definition unqueued (id : Z) : Prop := ∀ id' l', m !! id' = Some l' → id ∉ lk_backlog l'.

(** A change of one socket. *)
Record relink (id : Z) (l l' : link) (bound' : gmap UnixAddress Z) : Prop := {
  re_kind : lk_kind l' = lk_kind l;
  re_refs : 1 <= lk_refs l';
  re_peer : lk_peer l' = lk_peer l ∨
    (¬ connected_kind (lk_kind l) ∧ ∀ p, lk_peer l' = Some p → p < next ∧ ∀ lp, m !! p = Some lp → lk_kind lp = lk_kind l);
  re_backlog b : b ∈ lk_backlog l' → b ∈ lk_backlog l;
  re_nodup : NoDup (lk_backlog l');
  re_queued : unqueued id ∨ (lk_refs l' = lk_refs l ∧ lk_backlog l' = lk_backlog l ∧ lk_listening l' = lk_listening l);
  re_bound a x : bound' !! a = Some x → (x = id ∧ lk_bound l' = Some a) ∨ (x ≠ id ∧ bound !! a = Some x);
}.

Lemma links_ok_one id l l' bound' : m !! id = Some l → relink id l l' bound' → links_ok (<[id := l']> m) next bound'.
Proof.
  intros Hid [RK RR RP RB RN RQ RT]. pose proof (links_old id l Hid) as Hlt. destruct Hm as [F R PO PK P Q O1 O2 B].
  assert (∀ x lx', <[id := l']> m !! x = Some lx' → ∃ lx, m !! x = Some lx ∧ lk_kind lx' = lk_kind lx ∧ (x ≠ id → lx' = lx) ∧ (∀ b, b ∈ lk_backlog lx' → b ∈ lk_backlog lx)) as Hback.
  { intros x lx' [[<- <-]|[Hne H]]%lookup_insert_Some; [exists l|exists lx']; naive_solver. }
  constructor.
  - intros x Hx. rewrite lookup_insert_ne by lia. by apply F.
  - intros x lx' [[<- <-]|[Hne H]]%lookup_insert_Some; [done|by eapply R].
  - intros x lx' p [[<- <-]|[Hne H]]%lookup_insert_Some Hp; [|by eapply PO]. destruct RP as [E|[_ RP]]; [rewrite E in Hp; by eapply PO|by apply RP].
  - intros x lx' p lp' [[<- <-]|[Hne H]]%lookup_insert_Some Hp (lp & Hlp & -> & _)%Hback; [|by eapply PK].
    rewrite RK. destruct RP as [E|[_ RP]]; [rewrite E in Hp; by eapply PK|by eapply RP].
  - intros x lx' p H Hp Hk.
    assert (∃ lx, m !! x = Some lx ∧ lk_peer lx = Some p ∧ connected_kind (lk_kind lx)) as (lx & Hlx & Hpx & Hkx).
    { apply lookup_insert_Some in H as [[<- <-]|[Hne H]]; [|by exists lx']. rewrite RK in Hk. destruct RP as [E|[Hn _]]; [|done]. exists l. by rewrite <-E. }
    destruct (P x lx p Hlx Hpx Hkx) as (Hne & lp & Hlp & Hpp). split; [done|]. destruct (decide (p = id)) as [->|Hnp].
    + rewrite lookup_insert_eq. exists l'. split; [done|]. destruct RP as [->|[Hn _]]; [by simplify_eq|]. destruct Hn. simplify_eq.
      pose proof (PK x lx id _ Hlx Hpx Hid) as E. by rewrite E.
    + rewrite lookup_insert_ne by done. by exists lp.
  - intros x lx' b (lx & Hlx & _ & _ & Hsub)%Hback Hb%Hsub. destruct (Q x lx b Hlx Hb) as (lb & Hlb & H1 & H2 & H3).
    destruct (decide (b = id)) as [->|]; [|exists lb; by rewrite lookup_insert_ne]. rewrite lookup_insert_eq. exists l'. split; [done|]. simplify_eq.
    destruct RQ as [Hn|(-> & -> & ->)]; [by destruct (Hn x lx Hlx)|done].
  - intros x lx' [[<- <-]|[Hne H]]%lookup_insert_Some; [done|by eapply O1].
  - intros x l1 x' l2 b (lx & Hlx & _ & _ & Hs1)%Hback (lx' & Hlx' & _ & _ & Hs2)%Hback Hb%Hs1 Hb'%Hs2. by eapply O2.
  - intros a x Ha. destruct (RT a x Ha) as [[-> Hb]|[Hne Ha']]; [split; [done|]; rewrite lookup_insert_eq; by intros lx [= <-]|].
    destruct (B a x Ha') as [Hx Hl]. split; [done|]. intros lx. rewrite lookup_insert_ne by done. apply Hl.
Qed.

(** A new connection waits at a listener. *)
Lemma links_ok_push t lt srv ls :
  m !! t = Some lt → unqueued t → m !! srv = Some ls → unqueued srv → lk_refs ls = 1 → lk_backlog ls = [] → lk_listening ls = false → srv ≠ t →
  links_ok (<[t := mkLink (lk_kind lt) (lk_peer lt) (lk_backlog lt ++ [srv]) (lk_listening lt) (lk_bound lt) (lk_refs lt)]> m) next bound.
Proof.
  intros Ht Hut Hs Hus Hr Hb Hli Hne. pose proof (links_old t lt Ht) as Hlt. destruct Hm as [F R PO PK P Q O1 O2 B]. set (lt' := mkLink _ _ _ _ _ _).
  assert (∀ x lx', <[t := lt']> m !! x = Some lx' → ∃ lx, m !! x = Some lx ∧ lk_kind lx' = lk_kind lx ∧ lk_peer lx' = lk_peer lx ∧ lk_refs lx' = lk_refs lx ∧ lk_bound lx' = lk_bound lx ∧
            (∀ b, b ∈ lk_backlog lx' → b ∈ lk_backlog lx ∨ (x = t ∧ b = srv))) as Hback.
  { intros x lx' [[<- <-]|[Hx H]]%lookup_insert_Some; [exists lt|exists lx'; naive_solver]. do 5 (split; [done|]). intros b. cbn. rewrite elem_of_app, list_elem_of_singleton. naive_solver. }
  constructor.
  - intros x Hx. rewrite lookup_insert_ne by lia. by apply F.
  - intros x lx' (lx & H & _ & _ & -> & _)%Hback. by eapply R.
  - intros x lx' p (lx & H & _ & -> & _)%Hback. by eapply PO.
  - intros x lx' p lp' (lx & H & -> & -> & _)%Hback Hp (lp & Hlp & -> & _)%Hback. by eapply PK.
  - intros x lx' p (lx & H & -> & -> & _)%Hback Hp Hk. destruct (P x lx p H Hp Hk) as (Hne' & lp & Hlp & Hpp). split; [done|].
    destruct (decide (p = t)) as [->|]; [rewrite lookup_insert_eq; exists lt'; by simplify_eq|rewrite lookup_insert_ne by done; by exists lp].
  - intros x lx' b (lx & H & _ & _ & _ & _ & Hsub)%Hback [Hin|[-> ->]]%Hsub.
    + destruct (Q x lx b H Hin) as (lb & Hlb & Hrest). exists lb. rewrite lookup_insert_ne; [done|]. intros <-. by destruct (Hut x lx H).
    + exists ls. by rewrite lookup_insert_ne by done.
  - intros x lx' [[<- <-]|[Hx H]]%lookup_insert_Some; [|by eapply O1]. cbn. apply NoDup_app. split; [by eapply O1|]. split; [|apply NoDup_singleton].
    intros b Hin ->%list_elem_of_singleton. by destruct (Hus t lt Ht).
  - intros x l1 x' l2 b (lx & H & _ & _ & _ & _ & Hs1)%Hback (lx' & H' & _ & _ & _ & _ & Hs2)%Hback [Hin|[-> ->]]%Hs1 [Hin'|[-> E]]%Hs2; [by eapply O2|subst b; by destruct (Hus x lx H)|by destruct (Hus x' lx' H')|done].
  - intros a x Ha. destruct (B a x Ha) as [Hx Hl]. split; [done|]. intros lx' (lx & H & _ & _ & _ & -> & _)%Hback. by apply Hl.
Qed.

(** The references after a socket is gone: its peer has none any more. *)
Definition unlink (id : Z) (l : link) : gmap Z link :=
  delete id (match lk_peer l with
             | Some p => alter (λ lp, if decide (lk_peer lp = Some id) then with_peer None lp else lp) p m
             | None => m
             end).

Lemma unlink_lookup id l x lx' :
  unlink id l !! x = Some lx' → x ≠ id ∧ ∃ lx, m !! x = Some lx ∧ (lx' = lx ∨ (lx' = with_peer None lx ∧ lk_peer lx = Some id ∧ lk_peer l = Some x)) ∧
    (lk_peer l = Some x → lk_peer lx' ≠ Some id).
Proof.
  unfold unlink. intros [Hne H]%lookup_delete_Some. split; [done|]. destruct (lk_peer l) as [p|]; [|exists lx'; naive_solver].
  apply lookup_alter_Some in H as [(-> & lx & Hlx & ->)|[Hp H]]; [|exists lx'; naive_solver].
  exists lx. split; [done|]. case_decide as E; [split; [by right|done]|split; [by left|done]].
Qed.

Lemma unlink_alive id l x lx : m !! x = Some lx → x ≠ id → ∃ lx', unlink id l !! x = Some lx' ∧ lk_refs lx' = lk_refs lx ∧ lk_backlog lx' = lk_backlog lx ∧ lk_listening lx' = lk_listening lx ∧
  lk_kind lx' = lk_kind lx ∧ lk_bound lx' = lk_bound lx ∧ (lk_peer l ≠ Some x → lx' = lx).
Proof.
  intros Hx Hne. unfold unlink. rewrite lookup_delete_ne by done. destruct (lk_peer l) as [p|]; [|exists lx; naive_solver].
  destruct (decide (p = x)) as [->|Hpx]; [rewrite lookup_alter_eq, Hx; cbn; eexists; split; [done|]; case_decide; naive_solver|].
  rewrite lookup_alter_ne by done. exists lx. naive_solver.
Qed.

Lemma links_ok_unlink id l bound' :
  m !! id = Some l → unqueued id → bound' ⊆ bound → (∀ a, bound' !! a = Some id → False) → links_ok (unlink id l) next bound'.
Proof.
  intros Hid Hun Hsub Hgone. destruct Hm as [F R PO PK P Q O1 O2 B].
  assert (∀ x lx', unlink id l !! x = Some lx' → ∃ lx, m !! x = Some lx ∧ lk_kind lx' = lk_kind lx ∧ lk_backlog lx' = lk_backlog lx ∧ lk_refs lx' = lk_refs lx ∧ lk_bound lx' = lk_bound lx ∧
    (∀ p, lk_peer lx' = Some p → lk_peer lx = Some p)) as Hback.
  { intros x lx' (Hne & lx & H & [->|(-> & _)] & _)%unlink_lookup; exists lx; naive_solver. }
  constructor.
  - intros x Hx. destruct (unlink id l !! x) as [lx'|] eqn:E; [|done]. apply Hback in E as (lx & H & _). by rewrite F in H.
  - intros x lx' (lx & H & _ & _ & -> & _)%Hback. by eapply R.
  - intros x lx' p (lx & H & _ & _ & _ & _ & Hp)%Hback Hx%Hp. by eapply PO.
  - intros x lx' p lp' (lx & H & -> & _ & _ & _ & Hp)%Hback Hx%Hp (lp & Hlp & -> & _)%Hback. by eapply PK.
  - intros x lx' p Hx Hp Hk. destruct (Hback x lx' Hx) as (lx & H & Hkk & _ & _ & _ & Hpp). rewrite Hkk in Hk. destruct (P x lx p H (Hpp p Hp) Hk) as (Hne & lp & Hlp & Hlpp).
    split; [done|]. destruct (decide (p = id)) as [->|Hpid].
    { simplify_eq. apply unlink_lookup in Hx as (_ & _ & _ & _ & Hno). by destruct (Hno Hlpp). }
    destruct (unlink_alive id l p lp Hlp Hpid) as (lp' & Hlp' & _ & _ & _ & _ & _ & Hsame). exists lp'. split; [done|].
    destruct (decide (lk_peer l = Some p)) as [E|E]; [|by rewrite Hsame]. apply unlink_lookup in Hlp' as (_ & lp0 & Hlp0 & [->|(_ & E2 & _)] & _); [by simplify_eq|].
    simplify_eq. apply unlink_lookup in Hx as [Hxid _]. congruence.
  - intros x lx' b (lx & H & _ & -> & _)%Hback Hin. destruct (Q x lx b H Hin) as (lb & Hlb & H1 & H2 & H3).
    destruct (unlink_alive id l b lb Hlb) as (lb' & Hlb' & E1 & E2 & E3 & _); [intros ->; by destruct (Hun x lx H)|]. exists lb'. by rewrite E1, E2, E3.
  - intros x lx' (lx & H & _ & -> & _)%Hback. by eapply O1.
  - intros x l1 x' l2 b (lx & H & _ & E1 & _)%Hback (lx' & H' & _ & E2 & _)%Hback Hb Hb'. rewrite E1 in Hb. rewrite E2 in Hb'. by eapply O2.
  - intros a x Ha. destruct (B a x ltac:(by eapply lookup_weaken)) as [Hx Hl]. split; [done|]. intros lx' (lx & H & _ & _ & _ & -> & _)%Hback. by apply Hl.
Qed.
End links.

(** ** Unix domain sockets: connecting, accepting, dropping

    The rules of the operations that change the references between sockets. *)

Lemma held_unqueued w id : held w id → unqueued (links w) id.
Proof.
  intros [_ Hh] id' l'. rewrite links_lookup. destruct (ux_sockets w !! id') as [s|] eqn:Hs; [|done]. intros [= <-]. cbn. by eapply Hh.
Qed.

Lemma unqueued_held w id : is_Some (ux_sockets w !! id) → unqueued (links w) id → held w id.
Proof. intros Ha Hu. split; [done|]. intros id' s Hs. specialize (Hu id' (link_of s)). rewrite links_lookup, Hs in Hu. by apply Hu. Qed.

Lemma ux_ok_one w w' id s s' :
  ux_ok w → ux_sockets w !! id = Some s → ux_sockets w' = <[id := s']> (ux_sockets w) → ux_next w' = ux_next w → sock_ok s' →
  relink (links w) (ux_next w) (ux_bound w) id (link_of s) (link_of s') (ux_bound w') → ux_ok w'.
Proof.
  intros [Hs Hl] Hid Hsocks Hn Hok Hre. constructor.
  - intros p q. rewrite Hsocks. destruct (decide (p = id)) as [->|]; [rewrite lookup_insert_eq; by intros [= <-]|rewrite lookup_insert_ne by done; apply Hs].
  - rewrite (sock_links_insert w id s' w' Hsocks), Hn. eapply links_ok_one; [done| |exact Hre]. by rewrite links_lookup, Hid.
Qed.

(** Entries of the table that do not speak of the socket, or say its name. *)
Lemma bound_keep w id s l' :
  ux_ok w → ux_sockets w !! id = Some s → lk_bound l' = lk_bound (link_of s) →
  ∀ a x, ux_bound w !! a = Some x → (x = id ∧ lk_bound l' = Some a) ∨ (x ≠ id ∧ ux_bound w !! a = Some x).
Proof.
  intros Hok Hs Hb a x Ha. destruct (decide (x = id)) as [->|]; [|by right]. left. split; [done|]. rewrite Hb.
  destruct (ln_bound _ _ _ (uo_links _ Hok) a id Ha) as [_ H]. apply H. by rewrite links_lookup, Hs.
Qed.

Lemma relink_held w id s s' :
  ux_ok w → ux_sockets w !! id = Some s → held w id → us_kind s' = us_kind s → 1 <= us_refs s' → us_peer (us_state s') = us_peer (us_state s) →
  bound_address (us_state s') = bound_address (us_state s) → (∀ b, b ∈ us_backlog (us_state s') → b ∈ us_backlog (us_state s)) → NoDup (us_backlog (us_state s')) →
  relink (links w) (ux_next w) (ux_bound w) id (link_of s) (link_of s') (ux_bound w).
Proof.
  intros Hok Hs Hh Hk Hr Hp Hb Hbl Hnd. constructor; cbn; [done|done|by left|done|done|left; by apply held_unqueued|]. by apply (bound_keep w id s (link_of s')).
Qed.

Lemma refs_pos w id s : ux_ok w → ux_sockets w !! id = Some s → 1 <= us_refs s.
Proof. intros Hok Hs. apply (ln_refs _ _ _ (uo_links _ Hok) id (link_of s)). by rewrite links_lookup, Hs. Qed.
Lemma backlog_nodup w id s : ux_ok w → ux_sockets w !! id = Some s → NoDup (us_backlog (us_state s)).
Proof. intros Hok Hs. apply (ln_once _ _ _ (uo_links _ Hok) id (link_of s)). by rewrite links_lookup, Hs. Qed.

(** What most calls do: the inboxes stay. *)
Definition plain (w w' : ux_world) : Prop := (ux_ok w' ∧ ux_next w' = ux_next w) ∧ inboxes w' = inboxes w.

Lemma plain_quiet w w1 w' : plain w w1 → quiet w1 w' → plain w w'.
Proof. intros [[Hok Hn] Hi] Hq. split; [split; [by eapply quiet_ok|by rewrite (qu_next _ _ Hq)]|]. by rewrite (quiet_inboxes _ _ Hq). Qed.
Lemma quiet_plain w w' : ux_ok w → quiet w w' → plain w w'.
Proof. intros Hok Hq. split; [split; [by eapply quiet_ok|apply (qu_next _ _ Hq)]|]. by apply quiet_inboxes. Qed.

Lemma changed_alive w w' id s' q : changed w w' id s' → is_Some (ux_sockets w !! q) → is_Some (ux_sockets w' !! q).
Proof. intros (H & _) Hq. rewrite H. destruct (decide (q = id)) as [->|]; [rewrite lookup_insert_eq; by eexists|by rewrite lookup_insert_ne]. Qed.

(** ** Options, names and shutdown *)

Lemma listen_rule w id backlog :
  ux_ok w → held w id → wp_res (ux_listen id backlog) w (λ _ w', plain w w') (λ _ w', w' = w).
Proof.
  intros Hok Hh. destruct (proj1 Hh) as [s Hs]. unfold ux_listen. wp_step. eapply sock_at_rule; [done|]. case_decide as Hk; [by wp_run|].
  wp_step. eapply update_rule; [done|]. intros w1 (H1 & H2 & H3) H4. eapply notify_quiet_rule; [rewrite H1, lookup_insert_eq; by eexists|]. intros w2 Hq.
  eapply plain_quiet; [|done]. destruct (uo_socks _ Hok _ _ Hs) as [S1 S2 S3 S4 S5 S6 S7]. split.
  - split; [|done]. eapply (ux_ok_one w w1 id s); [done|done|done|done|by constructor|]. rewrite H3. apply relink_held; cbn; first [done|by eapply refs_pos|by eapply backlog_nodup].
  - by eapply (changed_inboxes w w1 id s).
Qed.

Lemma bind_rule w id raw :
  ux_ok w → held w id →
  wp_res (ux_bind id raw) w
    (λ _ w', plain w w' ∧ ∃ a, from_raw raw = Ok a ∧ ux_bound w' = <[a := id]> (ux_bound w) ∧ (∀ x, alive w (ux_bound w !! a) = Some x → x = id))
    (λ _ w', w' = w).
Proof.
  intros Hok Hh. destruct (proj1 Hh) as [s Hs]. unfold ux_bind. destruct (from_raw raw) as [a|e| |] eqn:Ha.
  2: wp_step; unfold wp_res, wp; done.
  2,3: unfold from_raw in Ha; repeat case_match; done.
  wp_step. unfold wp_res at 1, wp at 1. cbn [fst snd]. wp_step. eapply state_at_rule; [done|]. case_decide as Hb; [by wp_run|]. wp_step. wp_step. wp_step. apply upgrade_rule.
  assert ((∀ x, alive w (ux_bound w !! a) = Some x → x = id) →
    wp_res (_ ← set_bound_table (<[a := id]> (ux_bound w)); update id (set_bound (Some a))) w
      (λ _ w', plain w w' ∧ ∃ a0, @Ok SysErr.SysErr _ a = Ok a0 ∧ ux_bound w' = <[a0 := id]> (ux_bound w) ∧ (∀ x, alive w (ux_bound w !! a0) = Some x → x = id)) (λ (_ : SysErr.SysErr) w', w' = w)) as Hgo.
  { intros Hmine. unfold set_bound_table. wp_step. wp_step. eapply update_rule; [exact Hs|]. intros w1 (H1 & H2 & H3) H4. cbn [ux_sockets ux_next ux_bound] in *.
    destruct (uo_socks _ Hok _ _ Hs) as [S1 S2 S3 S4 S5 S6 S7]. split; [split|exists a; by rewrite H3].
    - split; [|done]. eapply (ux_ok_one w w1 id s); [done|done|done|done|by constructor|]. rewrite H3. constructor; cbn; [done| |by left|done| |left; by apply held_unqueued|].
      + by eapply refs_pos.
      + by eapply backlog_nodup.
      + intros a' x [[<- <-]|[Hne Hx]]%lookup_insert_Some; [by left|right]. split; [|done]. intros ->. destruct (ln_bound _ _ _ (uo_links _ Hok) a' id Hx) as [_ Hl].
        specialize (Hl (link_of s)). rewrite links_lookup, Hs in Hl. apply Hb. exists a'. by apply Hl.
    - unfold inboxes. rewrite H1, fmap_insert, insert_id; [done|]. by rewrite lookup_fmap, Hs. }
  destruct (alive w (ux_bound w !! a)) as [x|] eqn:Hx; [case_decide as Hne; [by wp_run|]|]; apply Hgo; [|by intros].
  intros y [= <-]. destruct (decide (x = id)); [done|]. by destruct Hne.
Qed.

Lemma local_rule w id s f :
  ux_ok w → ux_sockets w !! id = Some s → link_of (with_st (f (us_state s)) s) = link_of s → sock_ok (with_st (f (us_state s)) s) →
  inbox (with_st (f (us_state s)) s) = inbox s → ∀ w', changed w w' id (with_st (f (us_state s)) s) → plain w w'.
Proof.
  intros Hok Hs Hl Hso Hin w' Hc. split; [|by eapply changed_inboxes]. destruct Hc as (H1 & H2 & H3). split; [|done]. by eapply (ux_ok_local w w' id s).
Qed.

Lemma shutdown_rule w id s how :
  ux_ok w → ux_sockets w !! id = Some s → wp_res (ux_shutdown id how) w (λ _ w', plain w w') (λ _ w', w' = w).
Proof.
  intros Hok Hs. unfold ux_shutdown. wp_step. eapply state_at_rule; [done|]. wp_step. apply upgrade_rule. destruct (_ && _); [by wp_run|]. wp_step.
  destruct (uo_socks _ Hok _ _ Hs) as [S1 S2 S3 S4 S5 S6 S7].
  assert (∀ rd wr, wp_res (update id (set_shut rd wr)) w
    (λ _ w0, wp_res (_ ← ux_notify id ALL_EVENTS; match alive w (us_peer (us_state s)) with Some p => ux_notify p ALL_EVENTS | None => mret () end) w0 (λ _ w', plain w w') (λ (_ : SysErr.SysErr) w', w' = w)) (λ (_ : SysErr.SysErr) w', w' = w)) as Hgo.
  { intros rd wr. eapply update_rule; [done|]. intros w1 Hc _. assert (plain w w1) as Hpl by (apply (local_rule w id s (set_shut rd wr)); [done|done|done|by constructor|done|done]).
    wp_step. eapply notify_quiet_rule; [eapply changed_alive; [done|by eexists]|]. intros w2 Hq2. destruct (alive w (us_peer (us_state s))) as [p|] eqn:Hp; [|wp_run; by eapply plain_quiet].
    apply alive_Some in Hp as [_ Hp]. eapply notify_quiet_rule; [eapply quiet_alive; [done|by eapply changed_alive]|]. intros w3 Hq3. eapply plain_quiet; [done|by etrans]. }
  do 3 (case_decide; [apply Hgo|]). by wp_run.
Qed.

Lemma setsockopt_rule w id s level optname value :
  ux_ok w → ux_sockets w !! id = Some s → Forall is_byte value →
  wp_res (ux_setsockopt id level optname value) w (λ _ w', plain w w') (λ _ w', w' = w).
Proof.
  intros Hok Hs Hv. unfold ux_setsockopt. destruct (uo_socks _ Hok _ _ Hs) as [S1 S2 S3 S4 S5 S6 S7]. case_decide; [by wp_run|]. case_decide as Hlen; [by wp_run|]. cbn zeta.
  set (parsed := as_i32 (le_val (take 4 value))).
  assert (normalize_socket_buffer parsed <= i32_max) as Hmax.
  { assert (0 <= le_val (take 4 value) < 256 ^ Z.of_nat (length (take 4 value))) as Hb by (apply le_val_range; by apply Forall_take).
    rewrite length_take, Nat.min_l in Hb by lia. change (256 ^ Z.of_nat 4) with (2 ^ 32) in Hb. unfold normalize_socket_buffer, parsed, as_i32, i32_max. case_decide; lia. }
  repeat case_decide; try (by wp_run); (eapply update_rule; [done|]; intros w1 Hc _; eapply (local_rule w id s); [done|done| | | |exact Hc]; try done); constructor; try done.
  cbn. unfold normalize_socket_buffer in *. lia.
Qed.

(** ** Creation *)

(** Inboxes stay, or belong to a new socket and are empty. *)
Definition others_stay (w w' : ux_world) : Prop :=
  ux_next w <= ux_next w' ∧ ∀ x b, inboxes w' !! x = Some b → inboxes w !! x = Some b ∨ (ux_next w <= x ∧ b = ([], [])).

Definition new_sock (kind : Z) (owner : SocketCredentials) : UnixSocket := mkSocket kind owner initial_state 1 WaitQueue_new 1.
Definition with_new (w : ux_world) (kind : Z) (owner : SocketCredentials) : ux_world :=
  mkUx (<[ux_next w := new_sock kind owner]> (ux_sockets w)) (ux_next w + 1) (ux_bound w) (ux_woken w).

Lemma shared_rule {E} w kind owner (Q : Z → ux_world → Prop) (Qe : E → ux_world → Prop) :
  Q (ux_next w) (with_new w kind owner) → wp_res (shared kind owner) w Q Qe.
Proof. intros HQ. unfold shared. by wp_run. Qed.

Lemma new_sock_ok kind owner : known_kind kind = true → sock_ok (new_sock kind owner).
Proof. intros Hk. constructor; cbn; try done; unfold i32_max, UNIX_BUFFER_SIZE; lia. Qed.

Lemma with_new_ok w kind owner : ux_ok w → known_kind kind = true → ux_ok (with_new w kind owner).
Proof.
  intros [Hs Hl] Hk. constructor.
  - intros id s. cbn [with_new ux_sockets]. intros [[<- <-]|[_ H]]%lookup_insert_Some; [by apply new_sock_ok|by eapply Hs].
  - unfold links, with_new. cbn [ux_sockets ux_next ux_bound]. rewrite fmap_insert. by apply links_ok_fresh.
Qed.

Lemma with_new_inboxes w kind owner : inboxes (with_new w kind owner) = <[ux_next w := ([], [])]> (inboxes w).
Proof. unfold inboxes, with_new. cbn [ux_sockets]. by rewrite fmap_insert. Qed.

Lemma fresh_unqueued w : ux_ok w → unqueued (links w) (ux_next w).
Proof. intros Hok id l Hl Hb. pose proof (queued_old _ _ _ (uo_links _ Hok) id l _ Hl Hb). lia. Qed.

Lemma fresh_none w : ux_ok w → ux_sockets w !! ux_next w = None.
Proof.
  intros Hok. pose proof (ln_fresh _ _ _ (uo_links _ Hok) (ux_next w) ltac:(lia)) as H. rewrite links_lookup in H. by destruct (ux_sockets w !! ux_next w).
Qed.

Lemma sock_old w id : ux_ok w → is_Some (ux_sockets w !! id) → id < ux_next w.
Proof. intros Hok [s Hs]. eapply (links_old _ _ _ (uo_links _ Hok)). by rewrite links_lookup, Hs. Qed.

Lemma ux_create_rule w kind protocol owner :
  ux_ok w →
  wp_res (ux_create kind protocol owner) w (λ id w', ux_ok w' ∧ others_stay w w' ∧ held w' id ∧ id = ux_next w) (λ _ w', w' = w).
Proof.
  intros Hok. unfold ux_create. case_decide as Hpr; [by wp_run|]. destruct (known_kind kind) eqn:Hk; [|by wp_run]. apply shared_rule.
  pose proof (with_new_ok w kind owner Hok Hk) as Hok'. split; [done|]. split; [|split; [|done]].
  - split; [cbn; lia|]. intros x b. rewrite with_new_inboxes. intros [[<- <-]|[_ H]]%lookup_insert_Some; [right; split; [lia|done]|by left].
  - split; [cbn; rewrite lookup_insert_eq; by eexists|]. intros id' s. cbn [with_new ux_sockets]. intros [[<- <-]|[_ H]]%lookup_insert_Some; [apply not_elem_of_nil|].
    intros Hb. apply (fresh_unqueued w Hok id' (link_of s)); [by rewrite links_lookup, H|done].
Qed.

(** The two ends of a connection. *)
Definition connected (w : ux_world) (a b : Z) : Prop :=
  ∃ sa sb, ux_sockets w !! a = Some sa ∧ ux_sockets w !! b = Some sb ∧ us_peer (us_state sa) = Some b ∧ us_peer (us_state sb) = Some a ∧
    established (us_state sa) = true ∧ established (us_state sb) = true.

Lemma quiet_connected w w' a b : quiet w w' → connected w a b → connected w' a b.
Proof.
  intros Hq (sa & sb & Ha & Hb & H1 & H2 & H3 & H4). destruct (quiet_lookup _ _ _ _ Hq Ha) as (sa' & Ha' & Pa%core_public). destruct (quiet_lookup _ _ _ _ Hq Hb) as (sb' & Hb' & Pb%core_public).
  exists sa', sb'. rewrite (sp_peer _ _ Pa), (sp_peer _ _ Pb), (sp_established _ _ Pa), (sp_established _ _ Pb). done.
Qed.

Lemma changed_connected w w' id s s' a b :
  ux_sockets w !! id = Some s → changed w w' id s' → us_peer (us_state s') = us_peer (us_state s) → established (us_state s') = established (us_state s) →
  connected w a b → connected w' a b.
Proof.
  intros Hs (H & _) Hp He (sa & sb & Ha & Hb & H1 & H2 & H3 & H4).
  exists (if decide (a = id) then s' else sa), (if decide (b = id) then s' else sb). rewrite H.
  repeat case_decide; simplify_eq; rewrite ?lookup_insert_eq, ?lookup_insert_ne by done; rewrite ?Hp, ?He; naive_solver.
Qed.

Lemma ux_ok_pair w w' a b sa sb sa' sb' :
  ux_ok w → ux_sockets w !! a = Some sa → ux_sockets w !! b = Some sb → a ≠ b → us_kind sb = us_kind sa →
  us_peer (us_state sa) = None → us_peer (us_state sb) = None → ux_sockets w' = <[b := sb']> (<[a := sa']> (ux_sockets w)) → ux_next w' = ux_next w → ux_bound w' = ux_bound w →
  link_of sa' = with_peer (Some b) (link_of sa) → link_of sb' = with_peer (Some a) (link_of sb) → sock_ok sa' → sock_ok sb' → ux_ok w'.
Proof.
  intros [Hs Hl] Ha Hb Hab Hk Hpa Hpb Hsocks Hn Hbd Hla Hlb Hoa Hob. constructor.
  - intros id s. rewrite Hsocks. intros [[<- <-]|[_ [[<- <-]|[_ H]]%lookup_insert_Some]]%lookup_insert_Some; [done..|by eapply Hs].
  - assert (links w' = <[b := link_of sb']> (<[a := link_of sa']> (links w))) as -> by (unfold links; by rewrite Hsocks, !fmap_insert).
    rewrite Hla, Hlb, Hn, Hbd. apply links_ok_pair; [done|by rewrite links_lookup, Ha|by rewrite links_lookup, Hb|done|done|done|done].
Qed.

Lemma set_peer_ok s p c e : sock_ok s → sock_ok (with_st (set_peer p c e (us_state s)) s).
Proof. intros []. by constructor. Qed.

Lemma create_pair_rule w kind protocol owner :
  ux_ok w →
  wp_res (create_pair kind protocol owner) w
    (λ '(l, r) w', ux_ok w' ∧ others_stay w w' ∧ connected w' l r ∧ ux_next w <= l ∧ ux_next w <= r) (λ _ w', w' = w).
Proof.
  intros Hok. unfold create_pair. case_decide as Hpr; [by wp_run|]. destruct (known_kind kind) eqn:Hk; [|by wp_run]. wp_step. apply shared_rule. wp_step. apply shared_rule.
  set (w1 := with_new w kind owner). pose proof (with_new_ok w kind owner Hok Hk) as Hok1. fold w1 in Hok1.
  set (w2 := with_new w1 kind owner). pose proof (with_new_ok w1 kind owner Hok1 Hk) as Hok2. fold w2 in Hok2.
  set (l := ux_next w). set (r := ux_next w1). assert (r = l + 1) as Hr by done.
  assert (ux_sockets w2 !! r = Some (new_sock kind owner)) as Hsr by (unfold w2, r, with_new; cbn [ux_sockets]; apply lookup_insert_eq).
  assert (ux_sockets w2 !! l = Some (new_sock kind owner)) as Hsl by (unfold w2, with_new; cbn [ux_sockets]; rewrite lookup_insert_ne by (fold r; lia); apply lookup_insert_eq).
  unfold ux_pair. wp_step. wp_step. eapply sock_at_rule; [done|]. wp_step. eapply update_rule; [done|]. intros w3 (A1 & A2 & A3) _. wp_step.
  eapply sock_at_rule; [rewrite A1; apply lookup_insert_eq|]. wp_step. eapply update_rule; [rewrite A1, lookup_insert_ne by lia; exact Hsr|]. intros w4 (B1 & B2 & B3) _.
  assert (ux_ok w4) as Hok4.
  { eapply (ux_ok_pair w2 w4 l r); [done|exact Hsl|exact Hsr|lia|done|done|done|by rewrite B1, A1|congruence|congruence|done|done|..]; apply set_peer_ok, new_sock_ok, Hk. }
  assert (connected w4 l r) as Hconn.
  { eexists _, _. rewrite B1, A1. rewrite lookup_insert_ne by lia. rewrite !lookup_insert_eq. done. }
  wp_step. eapply notify_quiet_rule; [rewrite B1, A1, lookup_insert_ne by lia; rewrite lookup_insert_eq; by eexists|]. intros w5 Hq5.
  eapply notify_quiet_rule; [eapply quiet_alive; [done|]; rewrite B1, lookup_insert_eq; by eexists|]. intros w6 Hq6. wp_run.
  assert (quiet w4 w6) as Hq by (by etrans). split; [by eapply quiet_ok|]. split; [|split; [by eapply quiet_connected|lia]].
  split; [rewrite (qu_next _ _ Hq), B2, A2; cbn; lia|]. intros x b. rewrite (quiet_inboxes _ _ Hq). unfold inboxes. rewrite B1, A1, !fmap_insert.
  intros [[<- <-]|[_ [[<- <-]|[_ H]]%lookup_insert_Some]]%lookup_insert_Some; [right; split; [lia|done]..|].
  unfold w2, w1, with_new in H. cbn [ux_sockets] in H. rewrite !fmap_insert in H.
  apply lookup_insert_Some in H as [[<- <-]|[_ [[<- <-]|[_ H]]%lookup_insert_Some]]; [right; split; [cbn; lia|done]|right; split; [lia|done]|by left].
Qed.

(** ** Connecting *)

Lemma set_peer_dgram_rule w id s t st creds :
  ux_ok w → ux_sockets w !! id = Some s → us_kind s = SOCK_DGRAM → ux_sockets w !! t = Some st → us_kind st = us_kind s →
  ∀ w', changed w w' id (with_st (set_pending None (set_peer (Some t) creds true (us_state s))) s) → plain w w'.
Proof.
  intros Hok Hs Hk Ht Hkt w' Hc. split; [|by eapply changed_inboxes]. destruct Hc as (H1 & H2 & H3). destruct (uo_socks _ Hok _ _ Hs) as [S1 S2 S3 S4 S5 S6 S7].
  split; [|done]. eapply (ux_ok_one w w' id s); [done|done|done|done|by constructor|]. rewrite H3. constructor; cbn; [done|by eapply refs_pos| |done|by eapply backlog_nodup|by right|].
  - right. split; [intros [?|?]; unfold SOCK_STREAM, SOCK_SEQPACKET, SOCK_DGRAM in *; lia|]. intros p [= <-]. split; [apply (sock_old w); [done|by eexists]|].
    intros lp. rewrite links_lookup, Ht. intros [= <-]. done.
  - by apply (bound_keep w id s (link_of s)).
Qed.

(** A new connection from [id] that waits at the listener [t]. *)
Record connection (w w' : ux_world) (id t : Z) : Prop := {
  cn_ok : ux_ok w';
  cn_stay : others_stay w w';
  cn_ends : connected w' id (ux_next w);
  cn_waits : ∃ st st', ux_sockets w !! t = Some st ∧ ux_sockets w' !! t = Some st' ∧ us_backlog (us_state st') = us_backlog (us_state st) ++ [ux_next w] ∧
    listening (us_state st') = true;
}.

Section connect.
Context (w : ux_world) (Hok : ux_ok w) (id t : Z) (s st : UnixSocket) (Hs : ux_sockets w !! id = Some s) (Ht : ux_sockets w !! t = Some st).
Context (Hk : us_kind st = us_kind s) (Hne : t ≠ id) (Hl : listening (us_state st) = true) (Hp : us_peer (us_state s) = None).

Let srv := ux_next w.
Let server (f : UnixSocketState → UnixSocketState) := with_st (f initial_state) (new_sock (us_kind s) (us_owner st)).
Let inherits (x : UnixSocketState) := inherit_listener_state x (us_state st).
Let s' := with_st (set_peer (Some srv) (Some (us_owner st)) true (set_pending None (us_state s))) s.
Let t' := with_st (set_backlog (us_backlog (us_state st) ++ [srv]) (us_state st)) st.
Let v' := server (λ x, set_peer (Some id) (Some (us_owner s)) true (inherits x)).

Lemma connect_links : links_ok (<[t := link_of t']> (<[id := link_of s']> (<[srv := link_of v']> (links w)))) (srv + 1) (ux_bound w).
Proof using Hok Hs Ht Hk Hne Hl Hp.
  pose proof (uo_links _ Hok) as Hlk. assert (links w !! id = Some (link_of s)) as Hids by (by rewrite links_lookup, Hs). assert (links w !! t = Some (link_of st)) as Hidt by (by rewrite links_lookup, Ht).
  pose proof (links_old _ _ _ Hlk _ _ Hids) as Hlt1. pose proof (links_old _ _ _ Hlk _ _ Hidt) as Hlt2. fold srv in Hlt1, Hlt2.
  assert (unqueued (links w) srv) as Hu by (by apply fresh_unqueued).
  assert (unqueued (links w) t) as Hut. { intros x lx Hx Hb. destruct (ln_queued _ _ _ Hlk x lx t Hx Hb) as (lb & Hlb & _ & _ & Hf). simplify_eq. cbn in Hf. congruence. }
  set (k := us_kind s). set (m1 := <[srv := mkLink k None [] false None 1]> (links w)).
  assert (links_ok m1 (srv + 1) (ux_bound w)) as H1 by (by apply links_ok_fresh).
  assert (∀ x lx, m1 !! x = Some lx → lk_backlog lx ≠ [] → links w !! x = Some lx) as Hm1. { intros x lx [[<- <-]|[_ H]]%lookup_insert_Some Hb; done. }
  set (l2 := mkLink k None [] false (bound_address (us_state st)) 1). set (m2 := <[srv := l2]> m1).
  assert (links_ok m2 (srv + 1) (ux_bound w)) as H2.
  { eapply links_ok_one; [done|unfold m1; apply lookup_insert_eq|]. constructor; cbn; [done|lia|by left|done|constructor| |].
    - left. intros x lx Hx Hb. eapply Hu; [|exact Hb]. apply Hm1; [done|]. intros E. rewrite E in Hb. by apply elem_of_nil in Hb.
    - intros a x Ha. right. split; [|done]. destruct (ln_bound _ _ _ Hlk a x Ha) as [Hx _]. fold srv in Hx. lia. }
  assert (m2 = <[srv := l2]> (links w)) as Em2 by (unfold m2, m1; apply insert_insert_eq).
  assert (links_ok (<[srv := with_peer (Some id) l2]> (<[id := with_peer (Some srv) (link_of s)]> m2)) (srv + 1) (ux_bound w)) as H3.
  { apply links_ok_pair; [done|rewrite Em2, lookup_insert_ne by lia; done|rewrite Em2; apply lookup_insert_eq|lia|done|done|done]. }
  set (m3 := <[srv := with_peer (Some id) l2]> (<[id := with_peer (Some srv) (link_of s)]> m2)) in *.
  assert (m3 = <[id := link_of s']> (<[srv := link_of v']> (links w))) as Em3.
  { unfold m3. rewrite Em2. rewrite (insert_insert_ne _ srv id) by lia. rewrite insert_insert_eq. done. }
  assert (∀ x lx b, m3 !! x = Some lx → b ∈ lk_backlog lx → ∃ lx0, links w !! x = Some lx0 ∧ b ∈ lk_backlog lx0) as Hm3.
  { intros x lx b. rewrite Em3. intros [[<- <-]|[_ [[<- <-]|[_ H]]%lookup_insert_Some]]%lookup_insert_Some Hb; [by exists (link_of s)|by apply elem_of_nil in Hb|by exists lx]. }
  rewrite <-Em3. change (link_of t') with (mkLink (lk_kind (link_of st)) (lk_peer (link_of st)) (lk_backlog (link_of st) ++ [srv]) (lk_listening (link_of st)) (lk_bound (link_of st)) (lk_refs (link_of st))).
  eapply (links_ok_push m3 _ _ H3 t (link_of st) srv (link_of v')); [| | | |done|done|done|lia].
  - rewrite Em3, !lookup_insert_ne by lia. done.
  - intros x lx Hx Hb. destruct (Hm3 x lx t Hx Hb) as (lx0 & Hlx0 & Hb0). by eapply Hut.
  - rewrite Em3, lookup_insert_ne by lia. apply lookup_insert_eq.
  - intros x lx Hx Hb. destruct (Hm3 x lx srv Hx Hb) as (lx0 & Hlx0 & Hb0). by eapply Hu.
Qed.

Lemma connect_made w' :
  ux_sockets w' = <[t := t']> (<[id := s']> (<[srv := v']> (ux_sockets w))) → ux_next w' = srv + 1 → ux_bound w' = ux_bound w → connection w w' id t.
Proof using Hok Hs Ht Hk Hne Hl Hp.
  intros Hsocks Hn Hb. pose proof (sock_old w id Hok ltac:(by eexists)) as Hlt1. pose proof (sock_old w t Hok ltac:(by eexists)) as Hlt2. fold srv in Hlt1, Hlt2.
  destruct (uo_socks _ Hok _ _ Hs) as [S1 S2 S3 S4 S5 S6 S7]. destruct (uo_socks _ Hok _ _ Ht) as [T1 T2 T3 T4 T5 T6 T7]. constructor.
  - constructor.
    + intros x sx. rewrite Hsocks. intros [[<- <-]|[_ [[<- <-]|[_ [[<- <-]|[_ H]]%lookup_insert_Some]]%lookup_insert_Some]]%lookup_insert_Some; [by constructor|by constructor| |by eapply (uo_socks _ Hok)].
      constructor; cbn; try done; unfold i32_max; lia.
    + assert (links w' = <[t := link_of t']> (<[id := link_of s']> (<[srv := link_of v']> (links w)))) as -> by (unfold links; by rewrite Hsocks, !fmap_insert).
      rewrite Hn, Hb. apply connect_links.
  - split; [rewrite Hn; unfold srv; lia|]. intros x b. unfold inboxes. rewrite Hsocks, !fmap_insert.
    intros [[<- <-]|[_ [[<- <-]|[_ [[<- <-]|[_ H]]%lookup_insert_Some]]%lookup_insert_Some]]%lookup_insert_Some.
    + left. by rewrite lookup_fmap, Ht.
    + left. by rewrite lookup_fmap, Hs.
    + right. split; [lia|done].
    + by left.
  - exists s', v'. rewrite Hsocks. rewrite (lookup_insert_ne _ t) by done. rewrite lookup_insert_eq. rewrite !lookup_insert_ne by (unfold srv in *; lia). rewrite lookup_insert_eq. done.
  - exists st, t'. rewrite Hsocks, lookup_insert_eq. done.
Qed.
End connect.

Lemma connection_quiet w w1 w2 w3 id t : quiet w w1 → connection w1 w2 id t → quiet w2 w3 → connection w w3 id t.
Proof.
  intros Hq1 [Hok [Hn Hst] Hc (st & st' & H1 & H2 & H3 & H4)] Hq2. rewrite (qu_next _ _ Hq1) in *. constructor.
  - by eapply quiet_ok.
  - split; [by rewrite (qu_next _ _ Hq2)|]. intros x b. rewrite (quiet_inboxes _ _ Hq2). intros Hx%Hst. by rewrite (quiet_inboxes _ _ Hq1) in Hx.
  - by eapply quiet_connected.
  - destruct (quiet_back _ _ _ _ Hq1 H1) as (s0 & Hs0 & P0%core_public). destruct (quiet_lookup _ _ _ _ Hq2 H2) as (s3 & Hs3 & P3%core_public).
    exists s0, s3. split; [done|]. split; [done|]. by rewrite (sp_backlog _ _ P3), (sp_listening _ _ P3), H3, (sp_backlog _ _ P0).
Qed.

(** A listening socket connects to itself: its lock is taken twice. *)
Definition connects_self (w : ux_world) (id : Z) (raw : list Z) (peer : option GivenPeer) : Prop :=
  ∃ s, ux_sockets w !! id = Some s ∧ us_kind s ≠ SOCK_DGRAM ∧ listening (us_state s) = true ∧ destination w s (Some raw) peer = Some id.

Lemma zero_position_app l rest : Forall (λ b, b ≠ 0) l → zero_position (l ++ 0 :: rest) = length l.
Proof. induction 1 as [|b l Hb _ IH]; [done|]. cbn. by rewrite decide_False, IH. Qed.

Lemma zero_position_take l : Forall (λ b, b ≠ 0) (take (zero_position l) l).
Proof. induction l as [|b l IH]; [constructor|]. cbn. case_decide; [constructor|]. by constructor. Qed.

Lemma from_raw_serialize raw a : from_raw raw = Ok a → from_raw (serialize a) = Ok a.
Proof.
  unfold from_raw. destruct raw as [|b0 [|b1 [|first path]]]; [done|done|by case_decide|]. case_decide; [done|]. case_decide as Hf.
  { intros [= <-]. subst. unfold serialize. cbn [ua_key abstract_namespace]. change (le_bytes 2 AF_UNIX) with [1; 0]. cbn [app].
    rewrite decide_False by (by vm_compute). by rewrite app_nil_r. }
  cbv zeta. case_decide as Hz; [done|]. intros [= <-]. unfold serialize. cbn [ua_key abstract_namespace].
  pose proof (zero_position_take (first :: path)) as Hnz. cbn [zero_position] in *. rewrite decide_False in * by done. cbn [take app] in *.
  change (le_bytes 2 AF_UNIX) with [1; 0]. cbn [app]. rewrite decide_False by (by vm_compute). rewrite decide_False by done.
  change (first :: take (zero_position path) path ++ [0]) with ((first :: take (zero_position path) path) ++ [0]). rewrite zero_position_app by done.
  rewrite decide_False by done. f_equal. f_equal. by rewrite take_app_length.
Qed.

Lemma alive_none_peer w id s :
  ux_ok w → ux_sockets w !! id = Some s → us_kind s ≠ SOCK_DGRAM → alive w (us_peer (us_state s)) = None → us_peer (us_state s) = None.
Proof.
  intros Hok Hs Hk Ha. destruct (us_peer (us_state s)) as [p|] eqn:Hp; [|done]. exfalso.
  destruct (ln_peer _ _ _ (uo_links _ Hok) id (link_of s) p) as (_ & lp & Hlp & _); [by rewrite links_lookup, Hs|done| |].
  - pose proof (so_kind _ (uo_socks _ Hok _ _ Hs)) as Hkk%bool_decide_eq_true. cbn. unfold connected_kind. tauto.
  - rewrite links_lookup in Hlp. destruct (ux_sockets w !! p) as [sp|] eqn:Hsp; [|done].
    assert (alive w (Some p) = Some p) as E by (apply alive_Some; rewrite Hsp; by eauto). congruence.
Qed.

Lemma connect_rule w id s0 raw peer :
  ux_ok w → ux_sockets w !! id = Some s0 → peer_given w peer → ¬ connects_self w id raw peer →
  wp_res (connect_socket id raw peer) w
    (λ _ w', (us_kind s0 = SOCK_DGRAM ∧ plain w w') ∨ (us_kind s0 ≠ SOCK_DGRAM ∧ ∃ t, t ≠ id ∧ destination w s0 (Some raw) peer = Some t ∧ connection w w' id t)) (λ _ w', quiet w w').
Proof.
  intros Hok Hs0 Hgiven Hsafe. unfold connect_socket. destruct (from_raw raw) as [a|e| |] eqn:Ha.
  2: wp_step; unfold wp_res, wp; cbn; reflexivity.
  2,3: unfold from_raw in Ha; repeat case_match; done.
  wp_step. unfold wp_res at 1, wp at 1. cbn [fst snd]. wp_step. eapply clear_pending_rule; [by eexists|]. intros w1 Hq1.
  destruct (quiet_lookup _ _ _ _ Hq1 Hs0) as (s & Hs1 & P1%core_public). wp_step.
  eapply wp_res_mono; [apply (lookup_target_rule w1 id s); [done|]|cbv beta..].
  { destruct peer as [[p|]|]; [by eapply quiet_alive|done|done]. }
  2: { intros e w' Hq. by etrans. }
  intros t w2 (Hq2 & Heq & Hnm & st & Ht & Hkt). assert (quiet w w2) as Hq by (by etrans). pose proof (quiet_ok _ _ Hq Hok) as Hok2.
  assert (destination w s0 (Some raw) peer = Some t) as Hdst.
  { destruct Hnm as [->|[-> (a' & Ha' & Hb)]]; [done|]. rewrite (from_raw_serialize raw a Ha) in Ha'. simplify_eq. cbn. rewrite Ha. eapply lookup_weaken; [exact Hb|apply Hq1]. }
  rewrite <-Heq in Hs1, Ht. wp_step. eapply sock_at_rule; [done|]. wp_step. eapply sock_at_rule; [done|]. destruct (decide (us_kind s = SOCK_DGRAM)) as [Hd|Hd].
  { wp_step. eapply update_rule; [done|]. intros w3 Hc _. pose proof (set_peer_dgram_rule w2 id s t st (Some (us_owner st)) Hok2 Hs1 Hd Ht Hkt w3 Hc) as [[Hok3 Hn3] Hi3].
    eapply notify_quiet_rule; [eapply changed_alive; [done|by eexists]|]. intros w4 Hq4. left. split; [by rewrite <-(sp_kind _ _ P1)|]. eapply plain_quiet; [|done]. split; [split; [done|by rewrite Hn3, (qu_next _ _ Hq)]|]. by rewrite Hi3, (quiet_inboxes _ _ Hq). }
  destruct (listening (us_state st)) eqn:Hl; cbn [negb]; [|by wp_run]. destruct (decide (t = id)) as [->|Hne].
  { destruct Hsafe. exists s0. simplify_eq. split; [done|]. split; [by rewrite <-(sp_kind _ _ P1)|]. split; [|done].
    pose proof (sp_link _ _ P1) as E; injection E as _ _ _ E _; congruence. }
  cbv zeta. destruct (decide _) as [Hfull|Hfull].
  { wp_step. eapply quiet_update; [done|done|]. intros w3 Hq3 Hs3. wp_step. wp_step. wp_step.
    destruct (quiet_lookup _ _ _ _ Hq3 Ht) as (st3 & Ht3 & _). eapply quiet_update; [done|done|]. intros w4 Hq4 _. wp_run. etrans; [exact Hq|]. by etrans. }
  wp_step. apply upgrade_rule. case_decide as Hcon; [by wp_run|].
  assert (us_peer (us_state s) = None) as Hp. { eapply (alive_none_peer w2); [done|done|done|]. by destruct (alive w2 (us_peer (us_state s))); [destruct Hcon; eexists|]. }
  pose proof (sock_old w2 id Hok2 ltac:(by eexists)) as Hlt1. pose proof (sock_old w2 t Hok2 ltac:(by eexists)) as Hlt2.
  wp_step. apply shared_rule. wp_step. eapply update_rule; [cbn [with_new ux_sockets]; apply lookup_insert_eq|]. intros w3 (A1 & A2 & A3) _. cbn [with_new ux_sockets] in A1. rewrite insert_insert_eq in A1.
  wp_step. eapply update_rule; [rewrite A1, lookup_insert_ne by lia; exact Hs1|]. intros w4 (B1 & B2 & B3) _.
  wp_step. eapply update_rule; [rewrite B1, lookup_insert_ne by done; rewrite A1, lookup_insert_ne by lia; exact Ht|]. intros w5 (C1 & C2 & C3) _.
  assert (connection w2 w5 id t) as Hcn.
  { apply (connect_made w2 Hok2 id t s st Hs1 Ht Hkt Hne Hl Hp w5); [by rewrite C1, B1, A1|rewrite C2, B2, A2; done|rewrite C3, B3, A3; done]. }
  assert (is_Some (ux_sockets w5 !! t)) as Ht5 by (rewrite C1, lookup_insert_eq; by eexists).
  assert (is_Some (ux_sockets w5 !! id)) as Hid5 by (rewrite C1, lookup_insert_ne by done; rewrite B1, lookup_insert_eq; by eexists).
  wp_step. eapply notify_quiet_rule; [done|]. intros w6 Hq6. wp_step. eapply clear_pending_rule; [by eapply quiet_alive|]. intros w7 Hq7.
  eapply notify_quiet_rule; [eapply quiet_alive; [done|by eapply quiet_alive]|]. intros w8 Hq8. right. split; [by rewrite <-(sp_kind _ _ P1)|]. exists t. split; [done|]. split; [done|].
  eapply connection_quiet; [exact Hq|exact Hcn|]. etrans; [exact Hq6|by etrans].
Qed.

Lemma run_bind {St E A B} (m : M St E A) (k : A → M St E B) w (R : outcome E B * St → Prop) :
  wp_res m w (λ a w', R (k a w')) (λ e w', R (Err e, w')) → R ((m ≫= k) w).
Proof. unfold wp_res, wp, mbind, M_bind. by destruct (m w) as [[| | |] w']. Qed.

(** The call of a listening socket on itself fails before it takes the lock,
    or never returns. *)
Lemma connect_self_rule w id raw peer :
  ux_ok w → peer_given w peer → connects_self w id raw peer →
  match connect_socket id raw peer w with (Err _, w') => quiet w w' | (Diverge, _) => True | _ => False end.
Proof.
  intros Hok Hgiven (s0 & Hs0 & Hk & Hl & Hdst).
  set (R := λ p : outcome SysErr.SysErr () * ux_world, match p with (Err _, w') => quiet w w' | (Diverge, _) => True | _ => False end).
  change (R (connect_socket id raw peer w)). unfold connect_socket. destruct (from_raw raw) as [a|e| |] eqn:Ha.
  2: unfold R, mbind, M_bind; cbn; reflexivity.
  2,3: unfold from_raw in Ha; repeat case_match; done.
  apply run_bind. unfold wp_res at 1, wp at 1. cbn [fst snd]. apply run_bind. eapply clear_pending_rule; [by eexists|]. intros w1 Hq1.
  destruct (quiet_lookup _ _ _ _ Hq1 Hs0) as (s & Hs1 & P1%core_public). apply run_bind.
  eapply wp_res_mono; [apply (lookup_target_rule w1 id s); [done|]|cbv beta..].
  { destruct peer as [[p|]|]; [by eapply quiet_alive|done|done]. }
  2: { intros e w' Hq. unfold R. by etrans. }
  intros t w2 (Hq2 & Heq & Hnm & st & Ht & Hkt).
  assert (t = id) as ->.
  { destruct Hnm as [->|[-> (a' & Ha' & Hb)]]; [by injection Hdst|]. rewrite (from_raw_serialize raw a Ha) in Ha'. simplify_eq. cbn in Hdst. rewrite Ha in Hdst.
    assert (ux_bound w !! a' = Some t) by (eapply lookup_weaken; [exact Hb|apply Hq1]). congruence. }
  rewrite <-Heq in Hs1. apply run_bind. eapply sock_at_rule; [done|]. apply run_bind. eapply sock_at_rule; [done|].
  rewrite decide_False by (by rewrite (sp_kind _ _ P1)).
  assert (listening (us_state s) = true) as -> by (pose proof (sp_link _ _ P1) as E; injection E as _ _ _ E _; congruence).
  cbn [negb]. rewrite decide_True by done. exact I.
Qed.

(** ** Accepting *)

Lemma accept_rule w id :
  ux_ok w → held w id →
  wp_res (ux_accept id) w
    (λ '(accepted, _) w', plain w w' ∧ held w' accepted ∧
       (∀ a b, connected w a b → connected w' a b) ∧
       ∃ s s' rest, ux_sockets w !! id = Some s ∧ us_backlog (us_state s) = accepted :: rest ∧ ux_sockets w' !! id = Some s' ∧ us_backlog (us_state s') = rest)
    (λ e w', w' = w ∧ ∀ s, ux_sockets w !! id = Some s → listening (us_state s) = false ∨ us_backlog (us_state s) = []).
Proof.
  intros Hok Hh. destruct (proj1 Hh) as [s Hs]. unfold ux_accept. wp_step. eapply state_at_rule; [done|].
  destruct (listening (us_state s)) eqn:Hli; cbn [negb]; [|wp_run; split; [done|]; intros s0 Hs0; simplify_eq; by left].
  destruct (us_backlog (us_state s)) as [|accepted rest] eqn:Hb; [wp_run; split; [done|]; intros s0 Hs0; simplify_eq; by right|].
  pose proof (backlog_nodup w id s Hok Hs) as Hnd. rewrite Hb in Hnd. apply NoDup_cons in Hnd as [Hni Hnd].
  destruct (ln_queued _ _ _ (uo_links _ Hok) id (link_of s) accepted) as (la & Hla & _); [by rewrite links_lookup, Hs|cbn; rewrite Hb; by left|].
  assert (is_Some (ux_sockets w !! accepted)) as Haw by (rewrite links_lookup in Hla; destruct (ux_sockets w !! accepted); [by eexists|done]).
  wp_step. eapply update_rule; [done|]. intros w1 Hc _. destruct (uo_socks _ Hok _ _ Hs) as [S1 S2 S3 S4 S5 S6 S7].
  assert (plain w w1) as Hpl.
  { split; [|by eapply changed_inboxes]. destruct Hc as (H1 & H2 & H3). split; [|done]. eapply (ux_ok_one w w1 id s); [done|done|done|done|by constructor|]. rewrite H3.
    apply relink_held; cbn; try done; [by eapply refs_pos|]. intros b Hin. cbn. rewrite Hb. by right. }
  assert (is_Some (ux_sockets w1 !! accepted)) as Ha1 by (by eapply changed_alive).
  assert (∀ x sx, ux_sockets w1 !! x = Some sx → accepted ∉ us_backlog (us_state sx)) as Hun.
  { intros x sx. destruct Hc as (H1 & _). rewrite H1. intros [[<- <-]|[Hx H]]%lookup_insert_Some; [done|]. intros Hin. apply Hx.
    eapply (ln_one _ _ _ (uo_links _ Hok) id (link_of s) x (link_of sx) accepted); [by rewrite links_lookup, Hs|by rewrite links_lookup, H|cbn; rewrite Hb; by left|done]. }
  wp_step. eapply notify_pending_rule; [eapply changed_alive; [done|by eexists]|]. intros w2 Hq2. destruct (quiet_alive _ _ _ Hq2 Ha1) as [sa Hsa]. wp_step.
  eapply sock_at_rule; [done|]. wp_step. apply upgrade_rule.
  assert (∀ address : option (list Z), wp_res (_ ← ux_notify id PollEvents.WRITE; mret (accepted, address)) w2
    (λ '(a, _) w', plain w w' ∧ held w' a ∧ (∀ x y, connected w x y → connected w' x y) ∧ ∃ s0 s' rest0, ux_sockets w !! id = Some s0 ∧ us_backlog (us_state s0) = a :: rest0 ∧ ux_sockets w' !! id = Some s' ∧ us_backlog (us_state s') = rest0)
    (λ (_ : SysErr.SysErr) w', w' = w ∧ ∀ s0, ux_sockets w !! id = Some s0 → listening (us_state s0) = false ∨ us_backlog (us_state s0) = [])) as Hend.
  { intros address. wp_step. eapply notify_quiet_rule; [eapply quiet_alive; [done|]; eapply changed_alive; [done|by eexists]|]. intros w3 Hq3. wp_run.
    assert (quiet w1 w3) as Hq by (by etrans). split; [by eapply plain_quiet|]. split; [split; [by eapply quiet_alive|]|].
    - intros x sx Hx. destruct (quiet_back _ _ _ _ Hq Hx) as (sx1 & Hx1 & Px%core_public). rewrite (sp_backlog _ _ Px). by eapply Hun.
    - split; [intros x y Hxy; eapply quiet_connected; [exact Hq|]; by eapply (changed_connected w w1 id s)|].
      destruct Hc as (H1 & _). assert (ux_sockets w1 !! id = Some (with_st (set_backlog rest (us_state s)) s)) as Hid1 by (rewrite H1; apply lookup_insert_eq).
      destruct (quiet_lookup _ _ _ _ Hq Hid1) as (s3 & Hs3 & P3%core_public). exists s, s3, rest. by rewrite (sp_backlog _ _ P3). }
  destruct (alive w2 (us_peer (us_state sa))) as [p|] eqn:Hp; wp_step; [|wp_step; apply Hend]. apply alive_Some in Hp as [_ [sp Hsp]].
  wp_step. eapply state_at_rule; [done|]. wp_step. apply Hend.
Qed.

(** ** Owners *)

Definition with_refs (n : Z) (s : UnixSocket) : UnixSocket := mkSocket (us_kind s) (us_owner s) (us_state s) (us_version s) (us_waiters s) n.

Lemma with_refs_plain w id s n :
  ux_ok w → held w id → ux_sockets w !! id = Some s → 1 <= n → plain w (put_sock id (with_refs n s) w).
Proof.
  intros Hok Hh Hs Hn. destruct (uo_socks _ Hok _ _ Hs) as [S1 S2 S3 S4 S5 S6 S7]. split.
  - split; [|done]. eapply (ux_ok_one w _ id s); [done|done|reflexivity|done|by constructor|]. apply (relink_held w id s (with_refs n s)); cbn; try done. by eapply backlog_nodup.
  - unfold inboxes, put_sock. cbn [ux_sockets]. rewrite fmap_insert, insert_id; [done|]. by rewrite lookup_fmap, Hs.
Qed.

Lemma clone_rule w id : ux_ok w → held w id → wp_res (clone_socket id) w (λ _ w', plain w w') (λ _ _, False).
Proof.
  intros Hok Hh. destruct (proj1 Hh) as [s Hs]. unfold clone_socket. wp_step. eapply sock_at_rule; [done|]. wp_run.
  pose proof (refs_pos w id s Hok Hs). apply (with_refs_plain w id s (us_refs s + 1)); [done|done|done|lia].
Qed.

Lemma waiter_rule w id s q :
  ux_ok w → ux_sockets w !! id = Some s → plain w (put_sock id (mkSocket (us_kind s) (us_owner s) (us_state s) (us_version s) q (us_refs s)) w).
Proof.
  intros Hok Hs. apply quiet_plain; [done|]. constructor; [|done|done|exists []; by rewrite app_nil_r]. intros x. cbn.
  destruct (decide (x = id)) as [->|]; [by rewrite lookup_insert_eq, Hs|by rewrite lookup_insert_ne].
Qed.

(** What is left when a socket is gone. *)
Record dropped (w w' : ux_world) (id : Z) (s : UnixSocket) : Prop := {
  dp_ok : ux_ok w';
  dp_links : links w' = unlink (links w) id (link_of s);
  dp_next : ux_next w' = ux_next w;
  dp_inboxes : inboxes w' = delete id (inboxes w);
}.

Definition sock_removed (id : Z) (w : ux_world) : ux_world := mkUx (delete id (ux_sockets w)) (ux_next w) (ux_bound w) (ux_woken w).

Lemma removed_Some id w x s : ux_sockets (sock_removed id w) !! x = Some s → x ≠ id ∧ ux_sockets w !! x = Some s.
Proof. cbn. intros [? ?]%lookup_delete_Some. done. Qed.

Lemma sock_removed_links id w : links (sock_removed id w) = delete id (links w).
Proof. unfold links, sock_removed. cbn [ux_sockets]. apply fmap_delete. Qed.

Lemma dropped_intro w w1 w' id s f :
  ux_ok w → held w id → ux_sockets w !! id = Some s → quiet (sock_removed id w) w1 → (∀ a, ux_bound w1 !! a ≠ Some id) →
  (f = w1 ∨ ∃ p sp sp', changed w1 f p sp' ∧ ux_sockets w1 !! p = Some sp ∧ inbox sp' = inbox sp ∧ (sock_ok sp → sock_ok sp')) → links f = unlink (links w) id (link_of s) →
  quiet f w' → dropped w w' id s.
Proof.
  intros Hok Hh Hs Hq1 Hgone Hf Hlinks Hq2.
  assert (∀ x sx, ux_sockets w1 !! x = Some sx → sock_ok sx) as Hso1.
  { intros x sx Hx. destruct (quiet_back _ _ _ _ Hq1 Hx) as (sx0 & [_ Hx0]%removed_Some & Hc). eapply sock_ok_core; [done|]. by eapply (uo_socks _ Hok). }
  assert ((∀ x sx, ux_sockets f !! x = Some sx → sock_ok sx) ∧ ux_next f = ux_next w1 ∧ ux_bound f = ux_bound w1 ∧ inboxes f = inboxes w1) as (Hso & Hn & Hb & Hi).
  { destruct Hf as [->|(p & sp & sp' & Hc & Hsp & Hin & Hokp)]; [done|]. split; [|split; [apply Hc|split; [apply Hc|by eapply changed_inboxes]]].
    intros x sx. destruct Hc as (H1 & _). rewrite H1. intros [[<- <-]|[_ H]]%lookup_insert_Some; [by eapply Hokp, Hso1|by eapply Hso1]. }
  assert (ux_ok f) as Hokf.
  { constructor; [done|]. rewrite Hlinks, Hn, (qu_next _ _ Hq1), Hb. eapply links_ok_unlink; [apply Hok|by rewrite links_lookup, Hs|by apply held_unqueued|apply Hq1|]. intros a Ha. by eapply Hgone. }
  constructor.
  - by eapply quiet_ok.
  - by rewrite (quiet_links _ _ Hq2).
  - by rewrite (qu_next _ _ Hq2), Hn, (qu_next _ _ Hq1).
  - rewrite (quiet_inboxes _ _ Hq2), Hi, (quiet_inboxes _ _ Hq1). unfold inboxes, sock_removed. cbn [ux_sockets]. apply fmap_delete.
Qed.

Lemma unlink_peer w w1 id s p sp :
  quiet (sock_removed id w) w1 → us_peer (us_state s) = Some p → ux_sockets w1 !! p = Some sp →
  <[p := (if decide (lk_peer (link_of sp) = Some id) then with_peer None (link_of sp) else link_of sp)]> (links w1) = unlink (links w) id (link_of s).
Proof.
  intros Hq Hp Hsp. assert (p ≠ id) as Hne. { destruct (quiet_back _ _ _ _ Hq Hsp) as (sx & [? _]%removed_Some & _). done. }
  rewrite (quiet_links _ _ Hq), sock_removed_links. unfold unlink. cbn [link_of lk_peer]. rewrite Hp. apply map_eq. intros x.
  assert (links w !! p = Some (link_of sp)) as Hlp.
  { pose proof (quiet_links _ _ Hq) as E. rewrite sock_removed_links in E. apply (f_equal (.!! p)) in E. rewrite links_lookup, Hsp, lookup_delete_ne in E by done. done. }
  destruct (decide (x = id)) as [->|Hx].
  - rewrite lookup_insert_ne by done. by rewrite !lookup_delete_eq.
  - rewrite (lookup_delete_ne (alter _ _ _)) by done. destruct (decide (x = p)) as [->|Hxp].
    + rewrite lookup_insert_eq, lookup_alter_eq, Hlp. done.
    + rewrite lookup_insert_ne by done. rewrite lookup_delete_ne by done. by rewrite lookup_alter_ne.
Qed.

Lemma unlink_none w w1 id s :
  quiet (sock_removed id w) w1 → alive w1 (us_peer (us_state s)) = None → links w1 = unlink (links w) id (link_of s).
Proof.
  intros Hq Ha. rewrite (quiet_links _ _ Hq), sock_removed_links. unfold unlink. cbn [link_of lk_peer]. destruct (us_peer (us_state s)) as [p|] eqn:Hp; [|done].
  apply map_eq. intros x. destruct (decide (x = id)) as [->|Hx]; [by rewrite !lookup_delete_eq|]. rewrite !lookup_delete_ne by done.
  destruct (decide (x = p)) as [->|]; [|by rewrite lookup_alter_ne]. rewrite lookup_alter_eq.
  assert (links w !! p = None) as ->; [|done]. pose proof (quiet_links _ _ Hq) as E. rewrite sock_removed_links in E. apply (f_equal (.!! p)) in E. rewrite links_lookup, lookup_delete_ne in E by done.
  destruct (ux_sockets w1 !! p) as [sp|] eqn:Hsp; [|by rewrite <-E].
  assert (alive w1 (Some p) = Some p) as E2 by (apply alive_Some; rewrite Hsp; by eauto). congruence.
Qed.

Lemma finalize_rule w id s :
  ux_ok w → held w id → ux_sockets w !! id = Some s →
  wp_res (finalize id s) (sock_removed id w) (λ _ w', dropped w w' id s) (λ _ _, False).
Proof.
  intros Hok Hh Hs. unfold finalize. wp_step. wp_step. wp_step. apply upgrade_rule. set (wD := sock_removed id w). wp_step.
  assert (∀ a, ux_bound w !! a = Some id → bound_address (us_state s) = Some a) as Hown.
  { intros a Ha. destruct (ln_bound _ _ _ (uo_links _ Hok) a id Ha) as [_ H]. specialize (H (link_of s)). rewrite links_lookup, Hs in H. by apply H. }
  assert (∀ w1, quiet wD w1 → (∀ a, ux_bound w1 !! a ≠ Some id) → ux_sockets w1 = ux_sockets wD →
    wp_res (E := SysErr.SysErr) (_ ← notify_all (filter (λ c, is_Some (ux_sockets wD !! c)) (pending_connects (us_state s))) CONNECT_FAILED;
            match alive wD (us_peer (us_state s)) with
            | None => mret () : MS unit
            | Some p =>
                _ ← update p (λ ps, if decide (us_peer ps = Some id) then set_peer None (us_peer_credentials ps) (established ps) ps else ps);
                ux_notify p ALL_EVENTS
            end) w1 (λ _ w', dropped w w' id s) (λ _ _, False)) as Hgo.
  { intros w1 Hq1 Hg1 Heq. wp_step. apply notify_all_rule; [intros c [Hc _]%list_elem_of_filter; by rewrite Heq|]. intros w2 Hq2.
    assert (quiet wD w2) as Hq by (by etrans). assert (∀ a, ux_bound w2 !! a ≠ Some id) as Hg2. { intros a Ha. apply (Hg1 a). eapply lookup_weaken; [exact Ha|apply Hq2]. }
    destruct (alive wD (us_peer (us_state s))) as [p|] eqn:Hp.
    - apply alive_Some in Hp as [Hp Hap]. destruct (quiet_alive _ _ _ Hq Hap) as [sp Hsp]. wp_step. eapply update_rule; [done|]. intros w3 Hc _.
      eapply notify_quiet_rule; [eapply changed_alive; [done|by eexists]|]. intros w4 Hq4.
      eapply (dropped_intro w w2 w4 id s w3); [done|done|done|exact Hq|done| | |done].
      + right. eexists p, sp, _. split; [exact Hc|]. split; [done|]. split; [by case_decide|]. intros []. case_decide; by constructor.
      + destruct Hc as (H1 & _). rewrite (sock_links_insert w2 p _ w3 H1), <-(unlink_peer w w2 id s p sp); [|done|done|done]. f_equal. cbn. by case_decide.
    - wp_run. eapply (dropped_intro w w2 w2 id s w2); [done|done|done|exact Hq|done|by left| |done]. apply (unlink_none w); [done|].
      destruct (us_peer (us_state s)) as [p|]; [|done]. destruct (alive w2 (Some p)) as [p'|] eqn:E; [|done]. apply alive_Some in E as [[= <-] Ha].
      destruct Ha as [sx Hsx]. destruct (quiet_back _ _ _ _ Hq Hsx) as (sx0 & Hsx0 & _).
      assert (alive wD (Some p) = Some p) as E2 by (apply alive_Some; by eauto). congruence. }
  destruct (bound_address (us_state s)) as [a|] eqn:Hba; [case_decide as Hmine|].
  - unfold set_bound_table. wp_step. apply Hgo; [| |done].
    + constructor; [done|done|apply delete_subseteq|exists []; by rewrite app_nil_r].
    + intros a' Ha0. cbn in Ha0. apply lookup_delete_Some in Ha0 as [Hne Ha']. specialize (Hown a' Ha'). congruence.
  - wp_step. apply Hgo; [done| |done]. intros a' Ha'. specialize (Hown a' Ha'). by simplify_eq.
  - wp_step. apply Hgo; [done| |done]. intros a' Ha'. by specialize (Hown a' Ha').
Qed.
