(* ===== verification/UnixSteps.v ===== *)
(** * Unix domain sockets: the last owner

    Dropping a socket runs its destructor and drops the connections that were
    not accepted; the depth of the recursion is two, because those have no
    backlog of their own. *)

From S2P Require Import Prelude Poll Errno Fd Unix UnixProof UnixCalls UnixConnect.

Lemma release_eq fuel id :
  release_socket (S fuel) id =
    (s ← sock_at id;
     if decide (us_refs s = 1) then
       _ ← mmodify (sock_removed id);
       _ ← finalize id s;
       drop_each (release_socket fuel) (us_backlog (us_state s))
     else mmodify (put_sock id (with_refs (us_refs s - 1) s))).
Proof. reflexivity. Qed.

(** A socket that leaves with the listener it was waiting at. *)
Record leaf (w : ux_world) (b : Z) : Prop := {
  lf_held : held w b;
  lf_sock : ∃ s, ux_sockets w !! b = Some s ∧ us_refs s = 1 ∧ us_backlog (us_state s) = [];
}.

(** Sockets and their inboxes go away, none comes. *)
Definition shrinks (w w' : ux_world) : Prop := ux_ok w' ∧ ux_next w' = ux_next w ∧ inboxes w' ⊆ inboxes w.

Lemma shrinks_trans w w1 w2 : shrinks w w1 → shrinks w1 w2 → shrinks w w2.
Proof. intros (_ & H1 & H2) (H3 & H4 & H5). split; [done|]. split; [congruence|by etrans]. Qed.

Lemma dropped_shrinks w w' id s : dropped w w' id s → shrinks w w'.
Proof. intros [Hok _ Hn Hi]. split; [done|]. split; [done|]. rewrite Hi. apply delete_subseteq. Qed.

Lemma shrinks_stay w w' : shrinks w w' → others_stay w w'.
Proof. intros (_ & Hn & Hi). split; [lia|]. intros x b Hx. left. by eapply lookup_weaken. Qed.

Lemma links_back w x lx : links w !! x = Some lx → ∃ sx, ux_sockets w !! x = Some sx ∧ lx = link_of sx.
Proof. rewrite links_lookup. destruct (ux_sockets w !! x) as [sx|]; [|done]. intros [= <-]. by exists sx. Qed.

Lemma leaf_links w b :
  leaf w b ↔ unqueued (links w) b ∧ ∃ l, links w !! b = Some l ∧ lk_refs l = 1 ∧ lk_backlog l = [].
Proof.
  split.
  - intros [Hh (s & Hs & Hr & Hb)]. split; [by apply held_unqueued|]. exists (link_of s). by rewrite links_lookup, Hs.
  - intros [Hu (l & Hl & Hr & Hb)]. destruct (links_back _ _ _ Hl) as (s & Hs & ->). constructor; [|by exists s]. apply unqueued_held; [by eexists|done].
Qed.

Lemma unlink_unqueued m id l b :
  (∀ x lx, m !! x = Some lx → b ∈ lk_backlog lx → x = id) → unqueued (unlink m id l) b.
Proof.
  intros Hb x lx' Hx Hin. apply unlink_lookup in Hx as (Hne & lx & Hlx & Hcase & _). apply Hne, (Hb x lx Hlx).
  by destruct Hcase as [->|(-> & _)].
Qed.

(** The sockets of a backlog when their listener is gone. *)
Lemma dropped_leaf w w' id s b :
  ux_ok w → held w id → ux_sockets w !! id = Some s → dropped w w' id s → b ∈ us_backlog (us_state s) → leaf w' b.
Proof.
  intros Hok Hh Hs Hd Hb. assert (links w !! id = Some (link_of s)) as Hl by (by rewrite links_lookup, Hs).
  destruct (ln_queued _ _ _ (uo_links _ Hok) id (link_of s) b Hl Hb) as (lb & Hlb & Hr & Hbl & _).
  apply leaf_links. rewrite (dp_links _ _ _ _ Hd). split.
  - apply unlink_unqueued. intros x lx Hx Hin. symmetry. by eapply (ln_one _ _ _ (uo_links _ Hok) id (link_of s) x lx b).
  - destruct (unlink_alive (links w) id (link_of s) b lb Hlb) as (lb' & Hlb' & E1 & E2 & _).
    { intros ->. by destruct (held_unqueued w id Hh id (link_of s) Hl). }
    exists lb'. by rewrite E1, E2.
Qed.

(** Other leaves stay leaves. *)
Lemma dropped_other w w' id s b : ux_ok w → dropped w w' id s → b ≠ id → leaf w b → leaf w' b.
Proof.
  intros Hok Hd Hne [Hu (l & Hl & Hr & Hbl)]%leaf_links. apply leaf_links. rewrite (dp_links _ _ _ _ Hd). split.
  - apply unlink_unqueued. intros x lx Hx Hin. by destruct (Hu x lx Hx).
  - destruct (unlink_alive (links w) id (link_of s) b l Hl Hne) as (l' & Hl' & E1 & E2 & _). exists l'. by rewrite E1, E2.
Qed.

Lemma release_leaf_rule w fuel b s :
  ux_ok w → leaf w b → ux_sockets w !! b = Some s → wp_res (release_socket (S fuel) b) w (λ _ w', dropped w w' b s) (λ _ _, False).
Proof.
  intros Hok [Hh (s' & Hs' & Hr & Hb)] Hs. simplify_eq. rewrite release_eq. wp_step. eapply sock_at_rule; [done|]. rewrite decide_True by done.
  wp_step. wp_step. wp_step. eapply wp_res_mono; [by apply finalize_rule|cbv beta..]; [|done]. intros _ w' Hd. rewrite Hb. by wp_run.
Qed.

Lemma drop_backlog_rule fuel l : ∀ w,
  ux_ok w → NoDup l → (∀ b, b ∈ l → leaf w b) → wp_res (drop_each (release_socket (S fuel)) l) w (λ _ w', shrinks w w') (λ _ _, False).
Proof.
  induction l as [|b l IH]; intros w Hok Hnd Hl; cbn [drop_each]; [by wp_run|]. apply NoDup_cons in Hnd as [Hni Hnd].
  assert (leaf w b) as Hb by (apply Hl; by left). destruct (lf_sock _ _ Hb) as (s & Hs & _). wp_step.
  eapply wp_res_mono; [by apply (release_leaf_rule w fuel b s)|cbv beta..]; [|done]. intros _ w1 Hd.
  eapply wp_res_mono; [apply IH; [apply Hd|done|]|cbv beta..]; [|intros _ w2 Hs2; eapply shrinks_trans; [by eapply dropped_shrinks|done]|done].
  intros b' Hb'. eapply (dropped_other w); [done|done| |apply Hl; by right]. intros ->. done.
Qed.

Lemma release_rule w fuel id :
  ux_ok w → held w id → wp_res (release_socket (S (S fuel)) id) w (λ _ w', shrinks w w') (λ _ _, False).
Proof.
  intros Hok Hh. destruct (proj1 Hh) as [s Hs]. rewrite release_eq. wp_step. eapply sock_at_rule; [done|]. case_decide as Hr.
  - wp_step. wp_step. wp_step. eapply wp_res_mono; [by apply finalize_rule|cbv beta..]; [|done]. intros _ w1 Hd.
    eapply wp_res_mono; [apply drop_backlog_rule; [apply Hd|by eapply backlog_nodup|intros b Hb; by eapply dropped_leaf]|cbv beta..]; [|done].
    intros _ w2 Hs2. eapply shrinks_trans; [by eapply dropped_shrinks|done].
  - wp_run. pose proof (refs_pos w id s Hok Hs). destruct (with_refs_plain w id s (us_refs s - 1) Hok Hh Hs ltac:(lia)) as [[H1 _] H2].
    split; [done|]. split; [done|]. by rewrite H2.
Qed.

Lemma drop_alone w id s :
  ux_ok w → ux_sockets w !! id = Some s → size (ux_sockets w) = 1%nat → us_backlog (us_state s) = [].
Proof.
  intros Hok Hs Hsz. destruct (us_backlog (us_state s)) as [|b rest] eqn:Hb; [done|]. exfalso.
  assert (b ∈ us_backlog (us_state s)) as Hin by (rewrite Hb; by left).
  destruct (ln_queued _ _ _ (uo_links _ Hok) id (link_of s) b ltac:(by rewrite links_lookup, Hs) Hin) as (lb & Hlb & _ & Hbl & _).
  destruct (links_back _ _ _ Hlb) as (sb & Hsb & ->). assert (b ≠ id) as Hne by (intros ->; simplify_eq; cbn in Hbl; congruence).
  pose proof (map_size_delete_Some id (ux_sockets w) ltac:(by eexists)) as Hd. rewrite Hsz in Hd. apply map_size_empty_inv in Hd.
  apply (f_equal (.!! b)) in Hd. rewrite lookup_delete_ne, Hsb in Hd by done. done.
Qed.

(** The fuel of [drop_socket], the number of sockets, is enough. *)
Lemma drop_socket_rule w id : ux_ok w → held w id → wp_res (drop_socket id) w (λ _ w', shrinks w w') (λ _ _, False).
Proof.
  intros Hok Hh. destruct (proj1 Hh) as [s Hs]. unfold drop_socket. wp_step. wp_step. destruct (size (ux_sockets w)) as [|[|fuel]] eqn:Hsz.
  - apply map_size_empty_inv in Hsz. by rewrite Hsz in Hs.
  - pose proof (drop_alone w id s Hok Hs Hsz) as Hb. destruct (decide (us_refs s = 1)) as [Hr|Hr].
    + eapply wp_res_mono; [apply (release_leaf_rule w 0 id s); [done|constructor; [done|by exists s]|done]|cbv beta..]; [|done]. intros _ w'. apply dropped_shrinks.
    + rewrite release_eq. wp_step. eapply sock_at_rule; [done|]. rewrite decide_False by done. wp_run. pose proof (refs_pos w id s Hok Hs).
      destruct (with_refs_plain w id s (us_refs s - 1) Hok Hh Hs ltac:(lia)) as [[H1 _] H2]. split; [done|]. split; [done|]. by rewrite H2.
  - by apply release_rule.
Qed.

(** ** Unix domain sockets: the calls and what they move

    The socket calls as one type, and for every call ([ux_step_rule]): it ends
    with a result or an error, the invariant holds, and the bytes and packets
    that wait at a socket change by what the call put in and took out
    ([flow]). *)

(** ** Calls *)

Inductive ux_call :=
  | UxCreate (kind protocol : Z) (owner : SocketCredentials)
  | UxPair (kind protocol : Z) (owner : SocketCredentials)
  | UxClone (id : Z)
  | UxDrop (id : Z)
  | UxBind (id : Z) (raw : list Z)
  | UxListen (id backlog : Z)
  | UxConnect (id : Z) (raw : list Z) (peer : option GivenPeer)
  | UxAccept (id : Z)
  | UxSendTo (id : Z) (buffer : list Z) (address : option (list Z)) (peer : option GivenPeer)
  | UxSendMsg (id : Z) (message : SocketMessage) (peer : option GivenPeer)
  | UxWrite (id : Z) (buffer : list Z)
  | UxRecvFrom (id : Z) (n : nat) (flags : Z)
  | UxRecvMsg (id : Z) (n : nat) (flags : Z)
  | UxRead (id : Z) (n : nat)
  | UxShutdown (id how : Z)
  | UxSetOpt (id level optname : Z) (value : list Z)
  | UxGetOpt (id level optname : Z)
  | UxSockName (id : Z)
  | UxPeerName (id : Z)
  | UxIoctl (id command : Z)
  | UxPoll (id events : Z)
  | UxRegister (id events listener : Z)
  | UxUnregister (id waiter : Z).

Inductive ux_reply :=
  | RDone
  | RHandle (id : Z)
  | RHandles (left right : Z)
  | RAccepted (id : Z) (name : option (list Z))
  | RCount (n : Z)
  | RReceived (r : SocketReceive)
  | RBytes (l : list Z)
  | RMaybe (l : option (list Z))
  | RWord (n : Z).

Definition ux_error : Type := SysErr.SysErr + FsError.

Definition sys {A} (m : MS A) (f : A → ux_reply) : M ux_world ux_error ux_reply := r ← map_error inl m; mret (f r).
Definition fs {A} (m : M ux_world FsError A) (f : A → ux_reply) : M ux_world ux_error ux_reply := r ← map_error inr m; mret (f r).

Definition run_ux_call (c : ux_call) : M ux_world ux_error ux_reply :=
  match c with
  | UxCreate kind protocol owner => sys (ux_create kind protocol owner) RHandle
  | UxPair kind protocol owner => sys (create_pair kind protocol owner) (λ p, RHandles p.1 p.2)
  | UxClone id => sys (clone_socket id) (λ _, RDone)
  | UxDrop id => sys (drop_socket id) (λ _, RDone)
  | UxBind id raw => sys (ux_bind id raw) (λ _, RDone)
  | UxListen id backlog => sys (ux_listen id backlog) (λ _, RDone)
  | UxConnect id raw peer => sys (connect_socket id raw peer) (λ _, RDone)
  | UxAccept id => sys (ux_accept id) (λ p, RAccepted p.1 p.2)
  | UxSendTo id buffer address peer => sys (send_to_socket id buffer address peer) RCount
  | UxSendMsg id message peer => sys (send_msg_to_socket id message peer) RCount
  | UxWrite id buffer => fs (ux_write id buffer) RCount
  | UxRecvFrom id n flags => sys (ux_recv_from id n flags) RReceived
  | UxRecvMsg id n flags => sys (ux_recv_msg id n flags) RReceived
  | UxRead id n => fs (ux_read id n) RBytes
  | UxShutdown id how => sys (ux_shutdown id how) (λ _, RDone)
  | UxSetOpt id level optname value => sys (ux_setsockopt id level optname value) (λ _, RDone)
  | UxGetOpt id level optname => sys (ux_getsockopt id level optname) RBytes
  | UxSockName id => sys (ux_sock_name id) RBytes
  | UxPeerName id => sys (ux_peer_name id) RBytes
  | UxIoctl id command => sys (ux_ioctl id command) RMaybe
  | UxPoll id events => fs (ux_poll id events) RWord
  | UxRegister id events listener => sys (ux_register id events listener) RWord
  | UxUnregister id waiter => sys (ux_unregister id waiter) (λ _, RDone)
  end.

(** What the system call layer sees to: the sockets are there and the caller
    owns them, the bytes are bytes. *)
Definition allowed (w : ux_world) (c : ux_call) : Prop :=
  match c with
  | UxCreate _ _ _ | UxPair _ _ _ => True
  | UxConnect id _ peer | UxSendTo id _ _ peer | UxSendMsg id _ peer => held w id ∧ peer_given w peer
  | UxSetOpt id _ _ value => held w id ∧ Forall is_byte value
  | UxClone id | UxDrop id | UxBind id _ | UxListen id _ | UxAccept id | UxWrite id _ | UxRecvFrom id _ _ | UxRecvMsg id _ _ | UxRead id _
  | UxShutdown id _ | UxGetOpt id _ _ | UxSockName id | UxPeerName id | UxIoctl id _ | UxPoll id _ | UxRegister id _ _ | UxUnregister id _ => held w id
  end.

(** A listening socket that connects to itself. *)
Definition self_connect (w : ux_world) (c : ux_call) : Prop :=
  match c with UxConnect id raw peer => connects_self w id raw peer | _ => False end.

#[export] Instance self_connect_dec w c : Decision (self_connect w c).
Proof.
  destruct c; try (by right; intros []). cbn. destruct (ux_sockets w !! id) as [s|] eqn:Hs.
  - destruct (decide (us_kind s ≠ SOCK_DGRAM ∧ listening (us_state s) = true ∧ destination w s (Some raw) peer = Some id)) as [H|H].
    + left. by exists s.
    + right. intros (s' & Hs' & H'). by simplify_eq.
  - right. intros (s' & Hs' & _). by simplify_eq.
Defined.

(** ** What a call puts in and takes out *)

Definition sending (c : ux_call) : option (Z * list Z * option (list Z) * option GivenPeer) :=
  match c with
  | UxSendTo id buffer address peer => Some (id, buffer, address, peer)
  | UxSendMsg id message peer => Some (id, sm_data message, sm_name message, peer)
  | UxWrite id buffer => Some (id, buffer, None, None)
  | _ => None
  end.

(** The socket, the room and whether the bytes stay. *)
Definition receiving (c : ux_call) : option (Z * nat * bool) :=
  match c with
  | UxRecvFrom id n flags | UxRecvMsg id n flags => Some (id, n, is_peek flags)
  | UxRead id n => Some (id, n, false)
  | _ => None
  end.

Definition reply_bytes (r : ux_reply) : list Z := match r with RReceived r => sr_bytes r | RBytes l => l | _ => [] end.

Definition sends_to (w : ux_world) (c : ux_call) (b : Z) : option (Z * list Z) :=
  '(id, data, address, peer) ← sending c;
  s ← ux_sockets w !! id;
  if decide (destination w s address peer = Some b) then Some (us_kind s, data) else None.

Definition stream_in (w : ux_world) (c : ux_call) (r : ux_reply) (b : Z) : list Z :=
  match sends_to w c b, r with
  | Some (kind, data), RCount n => if decide (kind = SOCK_STREAM) then take (Z.to_nat n) data else []
  | _, _ => []
  end.

Definition packet_in (w : ux_world) (c : ux_call) (r : ux_reply) (b : Z) : list (list Z) :=
  match sends_to w c b, r with
  | Some (kind, data), RCount _ => if decide (kind = SOCK_STREAM) then [] else [data]
  | _, _ => []
  end.

Definition takes_from (w : ux_world) (c : ux_call) (b : Z) : option (UnixSocket * nat) :=
  '(id, n, peek) ← receiving c;
  s ← ux_sockets w !! id;
  if decide (id = b ∧ peek = false) then Some (s, n) else None.

Definition stream_out (w : ux_world) (c : ux_call) (r : ux_reply) (b : Z) : list Z :=
  match takes_from w c b with
  | Some (s, _) => if decide (us_kind s = SOCK_STREAM) then reply_bytes r else []
  | None => []
  end.

(** The room and the bytes of a receive that found a packet. *)
Definition packet_out (w : ux_world) (c : ux_call) (r : ux_reply) (b : Z) : list (nat * list Z) :=
  match takes_from w c b with
  | Some (s, n) => if decide (us_kind s = SOCK_STREAM ∨ shut_rd (us_state s) = true ∨ recv_packets (us_state s) = []) then [] else [(n, reply_bytes r)]
  | None => []
  end.

(** ** Sequences *)

Record ux_event := mkEvent { ev_world : ux_world; ev_call : ux_call; ev_reply : outcome ux_error ux_reply }.

Inductive ux_run : list ux_event → ux_world → Prop :=
  | ux_start : ux_run [] ux_new
  | ux_next_call t w c o w' :
      ux_run t w → allowed w c → run_ux_call c w = (o, w') → match o with Ok _ | Err _ => True | _ => False end →
      ux_run (t ++ [mkEvent w c o]) w'.

Definition on_reply {A} (f : ux_world → ux_call → ux_reply → Z → list A) (b : Z) (e : ux_event) : list A :=
  match ev_reply e with Ok r => f (ev_world e) (ev_call e) r b | _ => [] end.

Definition total {A} (f : ux_world → ux_call → ux_reply → Z → list A) (t : list ux_event) (b : Z) : list A := t ≫= on_reply f b.

(** ** One call *)

Lemma bool_cases (x : bool) : x = true ∨ x = false.
Proof. destruct x; auto. Qed.

(** What waits at a socket, where a socket that is not made yet has nothing. *)
Definition came (w : ux_world) (b : Z) (q : list Z * list UnixPacket) : Prop := inboxes w !! b = Some q ∨ (ux_next w <= b ∧ q = ([], [])).

Definition calm (w w' : ux_world) : Prop := ux_ok w' ∧ ∀ b q, came w' b q → came w b q.

(** A receive with room for [n] bytes sees the first ones of the packet. *)
Definition cut (seen : nat * list Z) (data : list Z) : Prop := seen.2 = take seen.1 data.

Definition flow (w : ux_world) (c : ux_call) (r : ux_reply) (w' : ux_world) : Prop :=
  ∀ b q', came w' b q' → ∃ q, came w b q ∧ q.1 ++ stream_in w c r b = stream_out w c r b ++ q'.1 ∧
    ∃ whole, (pk_data <$> q.2) ++ packet_in w c r b = whole ++ (pk_data <$> q'.2) ∧ Forall2 cut (packet_out w c r b) whole.

Lemma plain_calm w w' : plain w w' → calm w w'.
Proof. intros [[Hok Hn] Hi]. split; [done|]. intros b q. unfold came. by rewrite Hi, Hn. Qed.
Lemma quiet_calm w w' : ux_ok w → quiet w w' → calm w w'.
Proof. intros Hok Hq. by apply plain_calm, quiet_plain. Qed.
Lemma same_calm w w' : ux_ok w → w' = w → calm w w'.
Proof. by intros Hok ->. Qed.
Lemma stay_calm w w' : ux_ok w' → others_stay w w' → calm w w'.
Proof. intros Hok [Hn Hi]. split; [done|]. intros b q [H|[H ->]]; [by apply Hi|right; split; [lia|done]]. Qed.

Lemma came_alive w b q s : ux_ok w → ux_sockets w !! b = Some s → came w b q → q = inbox s.
Proof.
  intros Hok Hs [H|[Hn _]]; [rewrite inboxes_lookup, Hs in H; by injection H|]. pose proof (sock_old w b Hok ltac:(by eexists)). lia.
Qed.

Lemma flow_still w c r w' : sending c = None → receiving c = None → calm w w' → flow w c r w'.
Proof.
  intros Hs Hr [_ Hc] b q' Hq'. exists q'. unfold stream_in, packet_in, stream_out, packet_out, sends_to, takes_from. rewrite Hs, Hr. cbn.
  split; [by apply Hc|]. rewrite !app_nil_r. split; [done|]. exists []. done.
Qed.

Section send.
Context (w w' : ux_world) (c : ux_call) (id : Z) (s : UnixSocket) (data : list Z) (address : option (list Z)) (peer : option GivenPeer) (n : Z).
Context (Hok : ux_ok w) (Hs : ux_sockets w !! id = Some s) (Hsend : sending c = Some (id, data, address, peer)) (Hrecv : receiving c = None).

Lemma no_out b : stream_out w c (RCount n) b = [] ∧ packet_out w c (RCount n) b = [].
Proof using Hrecv. unfold stream_out, packet_out, takes_from. by rewrite Hrecv. Qed.

Lemma sends_to_eq b : sends_to w c b = if decide (destination w s address peer = Some b) then Some (us_kind s, data) else None.
Proof using Hs Hsend. unfold sends_to. rewrite Hsend. cbn. by rewrite Hs. Qed.

Lemma flow_empty : data = [] → us_kind s = SOCK_STREAM → calm w w' → flow w c (RCount n) w'.
Proof using Hs Hsend Hrecv.
  intros Hd Hk [_ Hc] b q' Hq'. destruct (no_out b) as [-> ->]. exists q'. split; [by apply Hc|]. unfold stream_in, packet_in. rewrite sends_to_eq, Hd, Hk.
  destruct (decide (destination w s address peer = Some b)); rewrite ?decide_True by done; rewrite ?take_nil, ?app_nil_r; (split; [done|]); by exists [].
Qed.

Lemma flow_sent : sent w w' s address peer data n → flow w c (RCount n) w'.
Proof using Hok Hs Hsend Hrecv.
  intros (p & sp & Hp & Hk & Hd & Hn & _ & Hcase) b q' Hq'. destruct (no_out b) as [-> ->]. unfold stream_in, packet_in. rewrite sends_to_eq, Hd.
  assert (∀ v, inboxes w' = <[p := v]> (inboxes w) → b ≠ p → came w b q') as Hother.
  { intros v Hv Hne. destruct Hq' as [H|[H ->]]; [left; by rewrite Hv, lookup_insert_ne in H|right; by rewrite <-Hn]. }
  assert (∀ v, inboxes w' = <[p := v]> (inboxes w) → b = p → q' = v) as Hmine.
  { intros v Hv ->. destruct Hq' as [H|[H _]]; [rewrite Hv, lookup_insert_eq in H; by injection H|].
    pose proof (sock_old w p Hok ltac:(by eexists)). lia. }
  destruct (decide (us_kind s = SOCK_STREAM)) as [Hst|Hst].
  - destruct Hcase as [_ Hi]. destruct (decide (Some p = Some b)) as [[= <-]|Hpb].
    + rewrite (Hmine _ Hi eq_refl). exists (inbox sp). split; [left; by rewrite inboxes_lookup, Hp|]. rewrite !decide_True by done. split; [done|].
      exists []. unfold inbox. cbn [fst snd]. by rewrite (so_stream _ (uo_socks _ Hok _ _ Hp)) by congruence.
    + exists q'. split; [eapply Hother; [done|congruence]|]. rewrite !app_nil_r. split; [done|]. by exists [].
  - destruct Hcase as (_ & packet & Hpk & _ & Hi). destruct (decide (Some p = Some b)) as [[= <-]|Hpb].
    + rewrite (Hmine _ Hi eq_refl). exists (inbox sp). split; [left; by rewrite inboxes_lookup, Hp|]. rewrite !decide_False by done. unfold inbox. cbn [fst snd].
      rewrite (so_packet _ (uo_socks _ Hok _ _ Hp)) by congruence. split; [done|]. exists []. rewrite fmap_app. cbn. by rewrite Hpk.
    + exists q'. split; [eapply Hother; [done|congruence]|]. rewrite !app_nil_r. split; [done|]. by exists [].
Qed.
End send.

Section receive.
Context (w w' : ux_world) (c : ux_call) (id : Z) (s : UnixSocket) (n : nat) (peek : bool) (reply : ux_reply).
Context (Hok : ux_ok w) (Hs : ux_sockets w !! id = Some s) (Hrecv : receiving c = Some (id, n, peek)) (Hsend : sending c = None) (Hn : ux_next w' = ux_next w).

Lemma no_in b : stream_in w c reply b = [] ∧ packet_in w c reply b = [].
Proof using Hsend. unfold stream_in, packet_in, sends_to. by rewrite Hsend. Qed.

Lemma takes_from_eq b : takes_from w c b = if decide (id = b ∧ peek = false) then Some (s, n) else None.
Proof using Hs Hrecv. unfold takes_from. rewrite Hrecv. cbn. by rewrite Hs. Qed.

(** A receive that leaves the queues as they are. *)
Lemma flow_kept b q' :
  inboxes w' = inboxes w → came w' b q' → stream_out w c reply b = [] → packet_out w c reply b = [] →
  ∃ q, came w b q ∧ q.1 ++ stream_in w c reply b = stream_out w c reply b ++ q'.1 ∧
    ∃ whole, (pk_data <$> q.2) ++ packet_in w c reply b = whole ++ (pk_data <$> q'.2) ∧ Forall2 cut (packet_out w c reply b) whole.
Proof using Hsend Hn.
  intros Hi Hq' -> ->. destruct (no_in b) as [-> ->]. exists q'. split; [unfold came in *; by rewrite <-Hi, <-Hn|]. rewrite !app_nil_r. split; [done|]. by exists [].
Qed.

Lemma flow_stream : us_kind s = SOCK_STREAM → stream_received w w' id s n peek (reply_bytes reply) → flow w c reply w'.
Proof using Hok Hs Hrecv Hsend Hn.
  intros Hk Hrec b q' Hq'. unfold stream_received in Hrec.
  assert (packet_out w c reply b = []) as Hpo. { unfold packet_out. rewrite takes_from_eq. destruct (decide (id = b ∧ peek = false)); [|done]. rewrite decide_True by auto. done. }
  destruct (shut_rd (us_state s)).
  { destruct Hrec as [Hb Hw]. apply flow_kept; [by rewrite Hw|done| |done]. unfold stream_out. rewrite takes_from_eq. repeat case_decide; done. }
  destruct Hrec as (rest & Hb & Hi & _). destruct (bool_cases peek) as [Hpk|Hpk]; rewrite Hpk in Hi.
  { apply flow_kept; [done|done| |done]. unfold stream_out. rewrite takes_from_eq, Hpk. rewrite decide_False by naive_solver. done. }
  destruct (decide (id = b)) as [<-|Hne].
  - assert (q' = (rest, [])) as ->. { destruct Hq' as [H|[H _]]; [rewrite Hi, lookup_insert_eq in H; by injection H|]. pose proof (sock_old w id Hok ltac:(by eexists)). lia. }
    destruct (no_in id) as [-> ->]. exists (inbox s). split; [left; by rewrite inboxes_lookup, Hs|]. rewrite Hpo. unfold stream_out. rewrite takes_from_eq, decide_True by done.
    rewrite decide_True by done. rewrite !app_nil_r. unfold inbox. cbn [fst snd]. split; [done|]. exists []. by rewrite (so_stream _ (uo_socks _ Hok _ _ Hs) Hk).
  - destruct (no_in b) as [-> ->]. exists q'. assert (stream_out w c reply b = []) as -> by (unfold stream_out; rewrite takes_from_eq, decide_False by naive_solver; done).
    rewrite Hpo, !app_nil_r. split; [|split; [done|by exists []]]. destruct Hq' as [H|[H ->]]; [left; by rewrite Hi, lookup_insert_ne in H|right; by rewrite <-Hn].
Qed.
Lemma flow_packet r :
  reply_bytes reply = sr_bytes r → us_kind s ≠ SOCK_STREAM → packet_received w w' id s n peek r → flow w c reply w'.
Proof using Hok Hs Hrecv Hsend Hn.
  intros Hbytes Hk Hrec b q' Hq'. unfold packet_received in Hrec.
  assert (stream_out w c reply b = []) as Hso. { unfold stream_out. rewrite takes_from_eq. destruct (decide (id = b ∧ peek = false)); [|done]. rewrite decide_False by done. done. }
  destruct (shut_rd (us_state s)) eqn:Hrd.
  { destruct Hrec as [_ Hw]. apply flow_kept; [by rewrite Hw|done|done|]. unfold packet_out. rewrite takes_from_eq.
    destruct (decide (id = b ∧ peek = false)); [|done]. by rewrite decide_True by auto. }
  destruct (recv_packets (us_state s)) as [|packet rest] eqn:Hps.
  { destruct Hrec as (_ & Hw & _). apply flow_kept; [by rewrite Hw|done|done|]. unfold packet_out. rewrite takes_from_eq.
    destruct (decide (id = b ∧ peek = false)); [|done]. by rewrite decide_True by auto. }
  destruct Hrec as (Hb & _ & _ & Hi). destruct (bool_cases peek) as [Hpk|Hpk]; rewrite Hpk in Hi.
  { apply flow_kept; [done|done|done|]. unfold packet_out. rewrite takes_from_eq, Hpk. rewrite decide_False by naive_solver. done. }
  destruct (decide (id = b)) as [<-|Hne].
  - assert (q' = ([], rest)) as ->. { destruct Hq' as [H|[H _]]; [rewrite Hi, lookup_insert_eq in H; by injection H|]. pose proof (sock_old w id Hok ltac:(by eexists)). lia. }
    destruct (no_in id) as [-> ->]. exists (inbox s). split; [left; by rewrite inboxes_lookup, Hs|]. rewrite Hso. unfold packet_out. rewrite takes_from_eq, decide_True by done.
    rewrite decide_False by (intros [?|[?|?]]; congruence). rewrite !app_nil_r. unfold inbox. cbn [fst snd]. rewrite (so_packet _ (uo_socks _ Hok _ _ Hs) Hk), Hps. split; [done|].
    exists [pk_data packet]. split; [done|]. constructor; [|done]. unfold cut. cbn. by rewrite Hbytes, Hb.
  - destruct (no_in b) as [-> ->]. exists q'. assert (packet_out w c reply b = []) as -> by (unfold packet_out; rewrite takes_from_eq, decide_False by naive_solver; done).
    rewrite Hso, !app_nil_r. split; [|split; [done|by exists []]]. destruct Hq' as [H|[H ->]]; [left; by rewrite Hi, lookup_insert_ne in H|right; by rewrite <-Hn].
Qed.
End receive.

(** ** Every call *)

Section step.
Context (w : ux_world) (Hok : ux_ok w).

Lemma map_error_rule {E E' A} (f : E → E') (m : M ux_world E A) (Q : A → ux_world → Prop) (Qe : E → ux_world → Prop) (Qe' : E' → ux_world → Prop) :
  wp_res m w Q Qe → (∀ e w', Qe e w' → Qe' (f e) w') → wp_res (map_error f m) w Q Qe'.
Proof using Type. intros Hm He. unfold wp_res, wp, map_error in *. destruct (m w) as [[a|e| |] w']; try done. by apply He. Qed.

Definition step_ok (c : ux_call) (r : ux_reply) (w' : ux_world) : Prop := ux_ok w' ∧ flow w c r w'.

Lemma sys_rule {A} (m : MS A) f c (Q : A → ux_world → Prop) (Qe : SysErr.SysErr → ux_world → Prop) :
  wp_res m w Q Qe → (∀ a w', Q a w' → step_ok c (f a) w') → (∀ e w', Qe e w' → calm w w') → wp_res (sys m f) w (step_ok c) (λ _ w', calm w w').
Proof using Type. intros Hm HQ He. unfold sys. wp_step. eapply map_error_rule; [|exact He]. eapply wp_res_mono; [exact Hm|cbv beta..]; [|done]. intros a w' Ha. wp_run. by apply HQ. Qed.

Lemma fs_rule {A} (m : M ux_world FsError A) f c (Q : A → ux_world → Prop) (Qe : FsError → ux_world → Prop) :
  wp_res m w Q Qe → (∀ a w', Q a w' → step_ok c (f a) w') → (∀ e w', Qe e w' → calm w w') → wp_res (fs m f) w (step_ok c) (λ _ w', calm w w').
Proof using Type. intros Hm HQ He. unfold fs. wp_step. eapply map_error_rule; [|exact He]. eapply wp_res_mono; [exact Hm|cbv beta..]; [|done]. intros a w' Ha. wp_run. by apply HQ. Qed.

Lemma still_ok c r w' : sending c = None → receiving c = None → calm w w' → step_ok c r w'.
Proof using Type. intros H1 H2 Hc. split; [apply Hc|by apply flow_still]. Qed.

(** Calls that leave the queues. *)
Lemma sys_calm {A} (m : MS A) f c (Q : A → ux_world → Prop) (Qe : SysErr.SysErr → ux_world → Prop) :
  sending c = None → receiving c = None → wp_res m w Q Qe → (∀ a w', Q a w' → calm w w') → (∀ e w', Qe e w' → calm w w') →
  wp_res (sys m f) w (step_ok c) (λ _ w', calm w w').
Proof using Type. intros H1 H2 Hm HQ He. eapply sys_rule; [exact Hm| |exact He]. intros a w' Ha. apply still_ok; [done|done|by eapply HQ]. Qed.

(** A send, and what its result says. *)
Lemma send_step c id s data address peer n w' :
  ux_sockets w !! id = Some s → sending c = Some (id, data, address, peer) → receiving c = None → ux_ok w' →
  (if decide (data = [] ∧ us_kind s = SOCK_STREAM) then n = 0 ∧ quiet w w' else sent w w' s address peer data n) → step_ok c (RCount n) w'.
Proof using Hok.
  intros Hs H1 H2 Hok' Hcase. split; [done|]. case_decide as He.
  - destruct He as [Hd Hk], Hcase as [_ Hq]. by eapply flow_empty; [| | |done|done|apply quiet_calm].
  - by eapply flow_sent.
Qed.

Lemma receive_rule id s n flags control c :
  ux_sockets w !! id = Some s → receiving c = Some (id, n, is_peek flags) → sending c = None →
  wp_res (ux_receive id n flags control) w (λ r w', ∀ reply, reply_bytes reply = sr_bytes r → step_ok c reply w') (λ _ w', w' = w).
Proof using Hok.
  intros Hs H1 H2. unfold ux_receive. wp_step. eapply sock_at_rule; [done|]. unfold is_stream_like. case_bool_decide as Hk.
  - eapply wp_res_mono; [by apply (recv_stream_rule w id s)|cbv beta..]; [|done]. intros r w' ((Hok' & Hn) & Hr) reply Hb. split; [done|].
    rewrite <-Hb in Hr. by eapply flow_stream.
  - eapply wp_res_mono; [by apply (recv_packet_rule w id s)|cbv beta..]; [|done]. intros r w' ((Hok' & Hn) & Hr) reply Hb. split; [done|]. by eapply flow_packet.
Qed.
End step.

(** *** Calls that only look *)

Section look.
Context (w : ux_world) (id : Z) (s : UnixSocket) (Hs : ux_sockets w !! id = Some s).

Lemma getsockopt_rule level optname : wp_res (ux_getsockopt id level optname) w (λ _ w', w' = w) (λ _ w', w' = w).
Proof using Hs.
  unfold ux_getsockopt. case_decide; [by wp_run|]. wp_step. eapply sock_at_rule; [done|]. cbv zeta.
  repeat (destruct (decide _); [first [by wp_run|unfold wp_res, wp, serialize_peer_credentials; by destruct (us_peer_credentials (us_state s))]|]). by wp_run.
Qed.

Lemma sock_name_rule : wp_res (ux_sock_name id) w (λ r w', w' = w ∧ r = local_name (us_state s)) (λ _ _, False).
Proof using Hs. unfold ux_sock_name. wp_step. eapply state_at_rule; [done|]. by wp_run. Qed.

Lemma peer_name_rule :
  wp_res (ux_peer_name id) w (λ r w', w' = w ∧ ∃ p sp, us_peer (us_state s) = Some p ∧ ux_sockets w !! p = Some sp ∧ r = local_name (us_state sp)) (λ _ w', w' = w).
Proof using Hs.
  unfold ux_peer_name. wp_step. eapply state_at_rule; [done|]. wp_step. apply upgrade_rule. destruct (alive w (us_peer (us_state s))) as [p|] eqn:Hp; cbn [mok_or]; wp_step; [|done].
  apply alive_Some in Hp as [Hp [sp Hsp]]. wp_step. wp_step. eapply state_at_rule; [done|]. wp_run. split; [done|]. by exists p, sp.
Qed.

Lemma ioctl_rule command : wp_res (ux_ioctl id command) w (λ _ w', w' = w) (λ _ _, False).
Proof using Hs. unfold ux_ioctl. wp_step. eapply sock_at_rule; [done|]. by wp_run. Qed.

Lemma poll_rule events : wp_res (ux_poll id events) w (λ r w', w' = w ∧ r = ux_poll_events w s events) (λ _ _, False).
Proof using Hs. unfold ux_poll. wp_step. eapply sock_at_rule; [done|]. by wp_run. Qed.
End look.

Lemma ux_register_rule w id events listener : ux_ok w → held w id → wp_res (ux_register id events listener) w (λ _ w', plain w w') (λ _ _, False).
Proof.
  intros Hok [[s Hs] _]. unfold ux_register. wp_step. eapply sock_at_rule; [done|]. destruct (register (us_waiters s) events listener) as [waiter q]. wp_run. by apply waiter_rule.
Qed.

Lemma ux_unregister_rule w id waiter : ux_ok w → held w id → wp_res (ux_unregister id waiter) w (λ _ w', plain w w') (λ _ _, False).
Proof.
  intros Hok [[s Hs] _]. unfold ux_unregister. wp_step. eapply sock_at_rule; [done|]. destruct (unregister (us_waiters s) waiter) as [found q]. wp_run. by apply waiter_rule.
Qed.

Create HintDb calm.
#[local] Hint Resolve plain_calm quiet_calm same_calm stay_calm shrinks_stay : calm.

Ltac calm_call rule := eapply sys_calm; [done|done|by apply rule|cbv beta; naive_solver eauto with calm|cbv beta; naive_solver eauto with calm].

Lemma ux_step_rule w c : ux_ok w → allowed w c → ¬ self_connect w c → wp_res (run_ux_call c) w (step_ok w c) (λ _ w', calm w w').
Proof.
  intros Hok Hc Hsafe. destruct c; cbn [allowed run_ux_call self_connect] in *; lazymatch type of Hsafe with ¬ False => clear Hsafe | _ => idtac end.
  - calm_call ux_create_rule.
  - eapply sys_calm; [done|done|by apply create_pair_rule|cbv beta..]; [intros [l r] w' (H1 & H2 & _); by apply stay_calm|eauto with calm].
  - calm_call clone_rule.
  - eapply sys_calm; [done|done|by apply drop_socket_rule|cbv beta..]; [intros _ w' H; apply stay_calm; [apply H|by apply shrinks_stay]|done].
  - calm_call bind_rule.
  - calm_call listen_rule.
  - destruct Hc as [[[s Hs] Hh] Hg]. eapply sys_calm; [done|done|by apply (connect_rule w id s)|cbv beta..]; [|eauto with calm].
    intros _ w' [[_ H]|(_ & t & _ & _ & [H1 H2 _ _])]; [by apply plain_calm|by apply stay_calm].
  - eapply sys_calm; [done|done|by apply accept_rule|cbv beta..]; [intros [a x] w' [H _]; by apply plain_calm|intros e w' [-> _]; by apply same_calm].
  - destruct Hc as [[[s Hs] Hh] Hg]. eapply sys_rule; [by apply (send_to_rule w id s)|cbv beta..]; [|eauto with calm].
    intros n w' [Hok' H]. eapply send_step; [done|done|done|done|done|]. case_decide; [|done]. by destruct H as [-> ->].
  - destruct Hc as [[[s Hs] Hh] Hg]. eapply sys_rule; [by apply (send_msg_rule w id s)|cbv beta..]; [|eauto with calm].
    intros n w' [Hok' H]. by eapply send_step.
  - destruct Hc as [[s Hs] Hh]. eapply fs_rule; [unfold ux_write; eapply (map_error_rule w _ _ _ _ (λ _ w', quiet w w')); [by apply (send_to_rule w id s)|done]|cbv beta..]; [|eauto with calm].
    intros n w' [Hok' H]. eapply send_step; [done|done|done|done|done|]. case_decide; [|done]. by destruct H as [-> ->].
  - destruct Hc as [[s Hs] Hh]. eapply sys_rule; [by apply (receive_rule w Hok id s n flags false (UxRecvFrom id n flags))|cbv beta..]; [|eauto with calm].
    intros r w' H. by apply H.
  - destruct Hc as [[s Hs] Hh]. eapply sys_rule; [by apply (receive_rule w Hok id s n flags true (UxRecvMsg id n flags))|cbv beta..]; [|eauto with calm].
    intros r w' H. by apply H.
  - destruct Hc as [[s Hs] Hh]. apply (fs_rule w _ _ _ (λ l w', step_ok w (UxRead id n) (RBytes l) w') (λ _ w', w' = w)); [|done|eauto with calm].
    unfold ux_read. wp_step. apply (map_error_rule w _ _ _ (λ _ w', w' = w)); [|done].
    eapply wp_res_mono; [by apply (receive_rule w Hok id s n 0 false (UxRead id n))|cbv beta..]; [|done].
    intros r w' H. wp_run. by apply H.
  - destruct Hc as [[s Hs] Hh]. eapply sys_calm; [done|done|by apply (shutdown_rule w id s)|eauto with calm..].
  - destruct Hc as [[[s Hs] Hh] Hv]. eapply sys_calm; [done|done|by apply (setsockopt_rule w id s)|eauto with calm..].
  - destruct Hc as [[s Hs] Hh]. eapply sys_calm; [done|done|by apply (getsockopt_rule w id s)|eauto with calm..].
  - destruct Hc as [[s Hs] Hh]. eapply sys_calm; [done|done|by apply (sock_name_rule w id s)|cbv beta..]; [intros r w' [-> _]; by apply same_calm|done].
  - destruct Hc as [[s Hs] Hh]. eapply sys_calm; [done|done|by apply (peer_name_rule w id s)|cbv beta..]; [intros r w' [-> _]; by apply same_calm|eauto with calm].
  - destruct Hc as [[s Hs] Hh]. eapply sys_calm; [done|done|by apply (ioctl_rule w id s)|cbv beta..]; [eauto with calm|done].
  - destruct Hc as [[s Hs] Hh]. eapply fs_rule; [by apply (poll_rule w id s)|cbv beta..]; [intros r w' [-> _]; by apply still_ok|done].
  - calm_call ux_register_rule.
  - calm_call ux_unregister_rule.
Qed.

(** Every call returns, with the sole exception of a listening socket that
    connects to itself. *)
Lemma ux_call_outcome w c :
  ux_ok w → allowed w c →
  match run_ux_call c w with
  | (Ok r, w') => step_ok w c r w'
  | (Err _, w') => calm w w'
  | (Panic, _) => False
  | (Diverge, _) => self_connect w c
  end.
Proof.
  intros Hok Hc. destruct (decide (self_connect w c)) as [Hs|Hs].
  - destruct c; try done. cbn in Hs. destruct Hc as [_ Hg]. pose proof (connect_self_rule w id raw peer Hok Hg Hs) as H.
    cbn [run_ux_call]. unfold sys, map_error, mbind, M_bind. destruct (connect_socket id raw peer w) as [[| | |] w']; try done. by apply quiet_calm.
  - pose proof (ux_step_rule w c Hok Hc Hs) as H. unfold wp_res, wp in H. by destruct (run_ux_call c w) as [[| | |] w'].
Qed.
