(* ===== verification/Socket.v ===== *)
(** * Socket types and domains

    Models the creation of sockets in [aether-kernel/src/net/mod.rs]: the type
    word of [socket] and [socketpair], the registry of domains, and the errors
    of the file over a socket; and the two lookups by name of
    [src/net/unix.rs] for the system call layer.  The netlink domain is a
    parameter. *)

From S2P Require Import Prelude Poll Errno Image Fd Unix.

Definition SOCK_TYPE_MASK : Z := 0xf.
Definition SOCK_NONBLOCK : Z := 0x800.
Definition SOCK_CLOEXEC : Z := 0x80000.
Definition AF_NETLINK : Z := 16.

Record SocketType := mkSocketType {
  st_kind : Z;
  st_nonblock : bool;
  st_cloexec : bool;
}.

(** [raw & !mask] of a 64-bit word is [Z.ldiff]. *)
Definition parse_type (raw : Z) : outcome SysErr.SysErr SocketType :=
  let extra := Z.ldiff raw (Z.lor (Z.lor SOCK_TYPE_MASK SOCK_NONBLOCK) SOCK_CLOEXEC) in
  if decide (extra ≠ 0) then Err SysErr.Inval
  else
    let kind := Z.land raw SOCK_TYPE_MASK in
    if decide (kind ∈ [1; 2; 3; 4; 5; 6; 10]) then
      Ok (mkSocketType kind (bool_decide (Z.land raw SOCK_NONBLOCK ≠ 0)) (bool_decide (Z.land raw SOCK_CLOEXEC ≠ 0)))
    else Err SysErr.Inval.

Definition socket_open_flags (t : SocketType) : Z :=
  let bits := Z.lor OpenFlags.READ OpenFlags.WRITE in
  if st_nonblock t then Z.lor bits OpenFlags.NONBLOCK else bits.

(** ** Domains *)

Record SocketDomain := mkDomain {
  sd_create : Z → Z → SocketCredentials → MS Z;
  sd_pair : Z → Z → SocketCredentials → MS (Z * Z);
}.

Definition unix_domain : SocketDomain := mkDomain ux_create create_pair.

(** The default of the trait for a domain without pairs. *)
Definition no_pair (kind protocol : Z) (owner : SocketCredentials) : MS (Z * Z) := mthrow SysErr.NoSys.

(** [init] registers both. *)
Definition registry (netlink : SocketDomain) : gmap Z SocketDomain := <[AF_NETLINK := netlink]> (<[AF_UNIX := unix_domain]> ∅).

Record CreatedSocket := mkCreated { cs_socket : Z; cs_flags : Z; cs_cloexec : bool }.
Record CreatedSocketPair := mkCreatedPair { cp_first : Z; cp_second : Z; cp_flags : Z; cp_cloexec : bool }.

Definition create_socket (entries : gmap Z SocketDomain) (domain raw_type protocol : Z) (owner : SocketCredentials) : MS CreatedSocket :=
  t ← (λ w, (parse_type raw_type, w));
  factory ← mok_or (entries !! domain) SysErr.AfNoSupport;
  socket ← sd_create factory (st_kind t) protocol owner;
  mret (mkCreated socket (socket_open_flags t) (st_cloexec t)).

Definition create_socket_pair (entries : gmap Z SocketDomain) (domain raw_type protocol : Z) (owner : SocketCredentials) : MS CreatedSocketPair :=
  t ← (λ w, (parse_type raw_type, w));
  factory ← mok_or (entries !! domain) SysErr.AfNoSupport;
  p ← sd_pair factory (st_kind t) protocol owner;
  mret (mkCreatedPair p.1 p.2 (socket_open_flags t) (st_cloexec t)).

(** ** The file over a socket *)

Definition socket_ioctl_error (e : SysErr.SysErr) : FsError :=
  match e with
  | SysErr.Inval | SysErr.Fault => InvalidInput
  | SysErr.Again => WouldBlock
  | SysErr.Pipe => BrokenPipe
  | _ => Unsupported
  end.

Definition socket_file_ioctl (id command : Z) : M ux_world FsError (list Z) :=
  r ← map_error socket_ioctl_error (ux_ioctl id command);
  match r with Some data => mret data | None => mthrow Unsupported end.

(** ** Names for the system call layer *)

Definition pathname_from_raw (address : list Z) : outcome SysErr.SysErr (option (list Z)) :=
  match from_raw address with
  | Ok a => if abstract_namespace a then Ok None
            else match from_utf8 (ua_key a) SysErr.Inval with
                 | Ok path => Ok (Some path)
                 | Err e => Err e
                 | Panic => Panic
                 | Diverge => Diverge
                 end
  | Err e => Err e
  | Panic => Panic
  | Diverge => Diverge
  end.

Definition lookup_bound_socket (address : list Z) : MS (option Z) :=
  a ← (λ w, (from_raw address, w)); lookup_bound a.
