(* ===== verification/UnixTheorems.v ===== *)
(** * Unix domain sockets: theorems

    Any sequence of socket calls from the start of the system, made with
    handles of the caller: no call panics, only a listener that connects to
    itself does not return, the invariant holds all along, and every byte and
    packet that was sent arrives once and in order. *)

From S2P Require Import Prelude Poll Errno Fd Unix UnixProof UnixCalls UnixConnect UnixSteps Socket.

(** ** The account of a sequence of calls *)

Lemma total_snoc {A} (f : ux_world → ux_call → ux_reply → Z → list A) t e b : total f (t ++ [e]) b = total f t b ++ on_reply f b e.
Proof. unfold total. rewrite bind_app. cbn. by rewrite app_nil_r. Qed.

Definition balanced (t : list ux_event) (b : Z) (q : list Z * list UnixPacket) : Prop :=
  total stream_in t b = total stream_out t b ++ q.1 ∧
  ∃ whole, total packet_in t b = whole ++ (pk_data <$> q.2) ∧ Forall2 cut (total packet_out t b) whole.

Lemma balanced_step t b q w c r q' :
  balanced t b q → q.1 ++ stream_in w c r b = stream_out w c r b ++ q'.1 →
  (∃ whole, (pk_data <$> q.2) ++ packet_in w c r b = whole ++ (pk_data <$> q'.2) ∧ Forall2 cut (packet_out w c r b) whole) →
  balanced (t ++ [mkEvent w c (Ok r)]) b q'.
Proof.
  intros [Hs (whole & Hp & Hc)] Hst (whole' & Hpk & Hc'). unfold balanced. rewrite !total_snoc. unfold on_reply. cbn. split.
  - by rewrite Hs, <-!app_assoc, Hst.
  - exists (whole ++ whole'). split; [by rewrite Hp, <-!app_assoc, Hpk|by apply Forall2_app].
Qed.

Lemma balanced_none t b q w c o : (∀ r, o ≠ Ok r) → balanced t b q → balanced (t ++ [mkEvent w c o]) b q.
Proof.
  intros Ho [Hs (whole & Hp & Hc)]. unfold balanced. rewrite !total_snoc. unfold on_reply. cbn. destruct o as [r| | |]; [by destruct (Ho r)|..].
  all: rewrite !app_nil_r; split; [done|by exists whole].
Qed.

Lemma run_account t w : ux_run t w → ux_ok w ∧ ∀ b q, came w b q → balanced t b q.
Proof.
  induction 1 as [|t w c o w' _ [Hok IH] Hal Hrun Hret].
  - split; [apply ux_new_ok|]. intros b q [H|[_ ->]]; [done|]. split; [done|]. by exists [].
  - pose proof (ux_call_outcome w c Hok Hal) as Hst. rewrite Hrun in Hst. destruct o as [r|e| |]; try done.
    + destruct Hst as [Hok' Hf]. split; [done|]. intros b q' Hq'. destruct (Hf b q' Hq') as (q & Hq & H1 & H2). eapply balanced_step; [by apply IH|done|done].
    + destruct Hst as [Hok' Hc]. split; [done|]. intros b q' Hq'. apply balanced_none; [done|]. by apply IH, Hc.
Qed.

Lemma run_socket t w b s : ux_run t w → ux_sockets w !! b = Some s → sock_ok s ∧ balanced t b (inbox s).
Proof.
  intros [Hok Hacc]%run_account Hs. split; [by eapply (uo_socks _ Hok)|]. apply Hacc. left. by rewrite inboxes_lookup, Hs.
Qed.

(** ** Concrete sequences *)

Definition held_b (w : ux_world) (id : Z) : bool :=
  bool_decide (is_Some (ux_sockets w !! id)) && bool_decide (map_Forall (λ _ s, id ∉ us_backlog (us_state s)) (ux_sockets w)).
Definition peer_given_b (w : ux_world) (peer : option GivenPeer) : bool :=
  match peer with Some (Some p) => bool_decide (is_Some (ux_sockets w !! p)) | _ => true end.
Definition allowed_b (w : ux_world) (c : ux_call) : bool :=
  match c with
  | UxCreate _ _ _ | UxPair _ _ _ => true
  | UxConnect id _ peer | UxSendTo id _ _ peer | UxSendMsg id _ peer => held_b w id && peer_given_b w peer
  | UxSetOpt id _ _ value => held_b w id && bool_decide (Forall (λ b, 0 <= b < 256) value)
  | UxClone id | UxDrop id | UxBind id _ | UxListen id _ | UxAccept id | UxWrite id _ | UxRecvFrom id _ _ | UxRecvMsg id _ _ | UxRead id _
  | UxShutdown id _ | UxGetOpt id _ _ | UxSockName id | UxPeerName id | UxIoctl id _ | UxPoll id _ | UxRegister id _ _ | UxUnregister id _ => held_b w id
  end.

Lemma held_b_true w id : held_b w id = true → held w id.
Proof. intros [H1%bool_decide_eq_true H2%bool_decide_eq_true]%andb_prop. split; [done|]. intros id' s Hs. by eapply (map_Forall_lookup_1 _ _ _ _ H2). Qed.
Lemma peer_given_b_true w peer : peer_given_b w peer = true → peer_given w peer.
Proof. unfold peer_given_b, peer_given. destruct peer as [[p|]|]; [|done..]. apply bool_decide_eq_true_1. Qed.

Lemma allowed_b_true w c : allowed_b w c = true → allowed w c.
Proof.
  destruct c; cbn [allowed_b allowed]; rewrite ?andb_true_iff; try (by intros _); try apply held_b_true.
  - intros (H1%held_b_true & H2%peer_given_b_true). done.
  - intros (H1%held_b_true & H2%peer_given_b_true). done.
  - intros (H1%held_b_true & H2%peer_given_b_true). done.
  - intros (H1%held_b_true & H2%bool_decide_eq_true). split; [done|]. exact H2.
Qed.

Fixpoint play (calls : list ux_call) (t : list ux_event) (w : ux_world) : option (list ux_event * ux_world) :=
  match calls with
  | [] => Some (t, w)
  | c :: rest =>
      if allowed_b w c then
        match run_ux_call c w with
        | (Ok r, w') => play rest (t ++ [mkEvent w c (Ok r)]) w'
        | (Err e, w') => play rest (t ++ [mkEvent w c (Err e)]) w'
        | _ => None
        end
      else None
  end.

Lemma play_run calls : ∀ t w t' w', ux_run t w → play calls t w = Some (t', w') → ux_run t' w'.
Proof.
  induction calls as [|c rest IH]; intros t w t' w' Hr; cbn [play]; [by intros [= <- <-]|]. destruct (allowed_b w c) eqn:Ha; [|done].
  destruct (run_ux_call c w) as [[r|e| |] w1] eqn:Hc; try done; apply IH; by eapply ux_next_call; [|apply allowed_b_true|..].
Qed.

Definition after (calls : list ux_call) : list ux_event * ux_world := default ([], ux_new) (play calls [] ux_new).

Lemma after_run calls : ux_run (after calls).1 (after calls).2.
Proof.
  unfold after. destruct (play calls [] ux_new) as [[t w]|] eqn:H; cbn; [|constructor]. by eapply play_run; [constructor|].
Qed.

Definition root : SocketCredentials := mkCred 1 0 0.
Definition abstract_name : list Z := [1; 0; 0; 120].
Definition stream_calls : list ux_call := [UxPair SOCK_STREAM 0 root; UxWrite 1 [104; 105; 33]; UxRead 2 2].
Definition packet_calls : list ux_call :=
  [UxPair SOCK_SEQPACKET 0 root; UxSendTo 1 [1; 2; 3] None None; UxSendTo 1 [4] None None; UxRecvFrom 2 2 0].
Definition listen_calls : list ux_call :=
  [UxCreate SOCK_STREAM 0 root; UxBind 1 abstract_name; UxListen 1 5; UxCreate SOCK_STREAM 0 root].

(** ** Theorems *)



(** C25. Nothing is lost, repeated or reordered.  The bytes that were taken
    from a stream socket so far, followed by the bytes that wait there, are
    the bytes that were sent to it, in the order of the sends.  Packets keep
    their boundaries too: every receive that found a packet took all of one
    packet and saw as much of it as it had room for, in the order in which
    they were sent, and the others still wait.  The size that a socket keeps
    is the number of bytes that wait. *)
Theorem unix_delivery_fifo t w b s :
  ux_run t w → ux_sockets w !! b = Some s →
  total stream_in t b = total stream_out t b ++ stream_bytes (us_recv_stream (us_state s)) ∧
  (∃ whole, total packet_in t b = whole ++ (pk_data <$> recv_packets (us_state s)) ∧ Forall2 cut (total packet_out t b) whole) ∧
  recv_size (us_state s) = Z.of_nat (length (stream_bytes (us_recv_stream (us_state s)))) + packet_bytes (recv_packets (us_state s)).
Proof. intros Hrun Hs. destruct (run_socket t w b s Hrun Hs) as [Hok [Hb Hp]]. split; [done|]. split; [exact Hp|]. apply (so_size _ Hok). Qed.

Lemma unix_delivery_fifo_witness :
  (∃ s, ux_sockets (after stream_calls).2 !! 2 = Some s ∧ us_recv_stream (us_state s) = [mkChunk [104; 105; 33] 2 None] ∧
     total stream_out (after stream_calls).1 2 = [104; 105] ∧ total stream_in (after stream_calls).1 2 = [104; 105] ++ [33]) ∧
  ∃ whole, total packet_in (after packet_calls).1 2 = whole ++ [[4]] ∧ Forall2 cut (total packet_out (after packet_calls).1 2) whole ∧
    total packet_out (after packet_calls).1 2 = [(2%nat, [1; 2])].
Proof.
  split.
  - destruct (ux_sockets (after stream_calls).2 !! 2) as [s|] eqn:Hs; [|vm_compute in Hs; discriminate]. exists s. split; [done|].
    destruct (unix_delivery_fifo _ _ 2 s (after_run stream_calls) Hs) as [H _]. vm_compute in Hs. injection Hs as <-. split; [reflexivity|].
    split; [vm_compute; reflexivity|]. rewrite H. vm_compute. reflexivity.
  - destruct (ux_sockets (after packet_calls).2 !! 2) as [s|] eqn:Hs; [|vm_compute in Hs; discriminate].
    destruct (unix_delivery_fifo _ _ 2 s (after_run packet_calls) Hs) as (_ & (whole & H1 & H2) & _). exists whole.
    vm_compute in Hs. injection Hs as <-. split; [exact H1|]. split; [exact H2|]. vm_compute. reflexivity.
Defined.

(** C26. A connect of a stream or sequenced-packet socket that succeeds makes
    the other end, a new socket, connects the two, and queues the new socket
    behind those that wait at the listener, which is the socket that the name
    lookup gave or else the one bound to the address.  While the caller of
    accept owns the listener (it does not itself wait in a backlog), the next
    accept returns the first socket that waits, hands it to the caller and
    leaves the others in order; so it returns the new socket when no other was
    waiting.  The two ends are still connected then. *)
Theorem unix_connect_accept t w id s raw peer w' :
  ux_run t w → allowed w (UxConnect id raw peer) → ux_sockets w !! id = Some s → us_kind s ≠ SOCK_DGRAM → connect_socket id raw peer w = (Ok (), w') →
  connected w' id (ux_next w) ∧
  ∃ l sl sl', destination w s (Some raw) peer = Some l ∧ ux_sockets w !! l = Some sl ∧ ux_sockets w' !! l = Some sl' ∧
    us_backlog (us_state sl') = us_backlog (us_state sl) ++ [ux_next w] ∧
    (held w' l →
       ∃ first rest name w'' sl'', us_backlog (us_state sl) ++ [ux_next w] = first :: rest ∧ ux_accept l w' = (Ok (first, name), w'') ∧
         ux_sockets w'' !! l = Some sl'' ∧ us_backlog (us_state sl'') = rest ∧ held w'' first ∧ connected w'' id (ux_next w)).
Proof.
  intros [Hok _]%run_account (Hh & Hg) Hs Hk Hrun.
  assert (¬ connects_self w id raw peer) as Hsafe by (intros Hc; pose proof (connect_self_rule w id raw peer Hok Hg Hc) as H; by rewrite Hrun in H).
  pose proof (connect_rule w id s raw peer Hok Hs Hg Hsafe) as Hc. unfold wp_res, wp in Hc. rewrite Hrun in Hc. cbn [fst snd] in Hc.
  destruct Hc as [[? _]|(_ & l & Hne & Hdst & [Hok' _ Hends (sl & sl' & H1 & H2 & H3 & H4)])]; [done|]. split; [done|].
  exists l, sl, sl'. do 4 (split; [done|]). intros Hhl.
  pose proof (accept_rule w' l Hok' Hhl) as Hac. unfold wp_res, wp in Hac. destruct (ux_accept l w') as [o w''] eqn:Hacc. cbn [fst snd] in Hac.
  destruct o as [[x name]|e| |]; try done.
  - destruct Hac as (_ & Hhx & Hkeep & s1 & s2 & rest & Hs1 & Hb & Hs2 & Hr). simplify_eq. exists x, (us_backlog (us_state s2)), name, w'', s2.
    split; [congruence|]. by auto 6.
  - destruct Hac as [_ Hno]. destruct (Hno sl' H2) as [E|E]; [congruence|]. rewrite E in H3. by destruct (us_backlog (us_state sl)).
Qed.

(** The connection is accepted by the listener. *)
Definition demo_connected : ux_world := (connect_socket 2 abstract_name None (after listen_calls).2).2.

Lemma unix_connect_accept_witness :
  connected demo_connected 2 3 ∧
  ∃ name w'', ux_accept 1 demo_connected = (Ok (3, name), w'') ∧ connected w'' 2 3 ∧ held w'' 3.
Proof.
  destruct (ux_sockets (after listen_calls).2 !! 2) as [s|] eqn:Hs; [|vm_compute in Hs; discriminate].
  assert (allowed (after listen_calls).2 (UxConnect 2 abstract_name None)) as Ha by (apply allowed_b_true; vm_compute; reflexivity).
  assert (us_kind s ≠ SOCK_DGRAM) as Hk by (vm_compute in Hs; injection Hs as <-; discriminate).
  assert (connect_socket 2 abstract_name None (after listen_calls).2 = (Ok (), demo_connected)) as Hc by (vm_compute; reflexivity).
  destruct (unix_connect_accept (after listen_calls).1 (after listen_calls).2 2 s abstract_name None demo_connected (after_run listen_calls) Ha Hs Hk Hc)
    as (Hcon & l & sl & sl' & Hd & Hsl & Hsl' & _ & Hac).
  assert (ux_next (after listen_calls).2 = 3) as Hn by (vm_compute; reflexivity). rewrite Hn in Hcon, Hac.
  split; [exact Hcon|].
  assert (destination (after listen_calls).2 s (Some abstract_name) None = Some 1) as Hd' by (vm_compute; reflexivity).
  rewrite Hd in Hd'. injection Hd' as ->.
  assert (held demo_connected 1) as Hh by (apply held_b_true; vm_compute; reflexivity).
  destruct (Hac Hh) as (x & rest & name & w'' & sl'' & Hb & Hacc & _ & _ & Hhx & Hcc).
  assert (us_backlog (us_state sl) = []) as He by (vm_compute in Hsl; injection Hsl as <-; reflexivity).
  rewrite He in Hb. injection Hb as <- _. exists name, w''. auto.
Defined.

(** Names: parsing what [serialize] makes of a name that was parsed gives
    the name back. *)
Theorem unix_address_roundtrip raw a : from_raw raw = Ok a → from_raw (serialize a) = Ok a.
Proof. apply from_raw_serialize. Qed.

Lemma unix_address_roundtrip_witness : from_raw (serialize (mkAddress [97; 98] false)) = Ok (mkAddress [97; 98] false).
Proof. apply (unix_address_roundtrip [1; 0; 97; 98; 0; 99]). reflexivity. Defined.

(** A listener that connects to its own name takes its lock twice. *)
Lemma connect_self_deadlocks :
  (connect_socket 1 abstract_name None (after listen_calls).2).1 = Diverge.
Proof. vm_compute. reflexivity. Qed.

(** A sequenced-packet sender that was refused for lack of room is not told
    when a receive makes room, unless the queue was full to the byte. *)
Definition wake_calls : list ux_call :=
  [UxPair SOCK_SEQPACKET 0 root; UxSetOpt 2 SOL_SOCKET SO_RCVBUF [0; 16; 0; 0]; UxSendTo 1 (replicate 4000 7) None None; UxSendTo 1 (replicate 200 8) None None;
   UxRegister 1 PollEvents.WRITE 55; UxRecvFrom 2 4096 0].
Lemma refused_sender_sleeps :
  (ev_reply <$> (after wake_calls).1) !! 3%nat = Some (Err (inl SysErr.Again)) ∧ ux_woken (after wake_calls).2 = [].
Proof. split; vm_compute; reflexivity. Qed.

(** Creating a socket by its type word. *)
Lemma create_socket_rule netlink w raw_type protocol owner :
  ux_ok w →
  wp_res (create_socket (registry netlink) AF_UNIX raw_type protocol owner) w
    (λ r w', ∃ t, parse_type raw_type = Ok t ∧ cs_flags r = socket_open_flags t ∧ cs_cloexec r = st_cloexec t ∧ held w' (cs_socket r) ∧ ux_ok w' ∧ others_stay w w')
    (λ _ w', w' = w).
Proof.
  intros Hok. unfold create_socket. destruct (parse_type raw_type) as [t|e| |] eqn:Ht.
  2: wp_step; unfold wp_res, wp; done.
  2,3: unfold parse_type in Ht; repeat case_decide; done.
  wp_step. unfold wp_res at 1, wp at 1. cbn [fst snd]. change (registry netlink !! AF_UNIX) with (Some unix_domain). cbn [mok_or]. wp_step. wp_step. wp_step.
  eapply wp_res_mono; [by apply ux_create_rule|cbv beta..]; [|done]. intros id w' (H1 & H2 & H3 & _). wp_run. exists t. done.
Qed.
