(* ===== verification/Process.v ===== *)
(** * Processes

    Models the process table of [aether-kernel/src/process/manager.rs] with
    the types of [src/process.rs], the run queues of [src/processor.rs], the
    waiting helpers of [src/process/util.rs] and the handles of
    [src/fs/pidfd.rs]: scheduling, blocking and waking, futexes, timers,
    signals, process groups, exit and wait.

    The manager runs under its lock, so every operation is one step on the
    state [pworld]; a process that runs is outside of the table, as in the
    code.  [BTreeMap] and [BTreeSet] are maps and sets that are gone through in
    ascending order.  What the manager uses of address spaces, open files and
    the architecture layer is the class [ProcEnv]; the signal state is that of
    [Signal]. *)

From S2P Require Import Prelude Poll Errno Signal.

Definition SA_NOCLDSTOP : Z := 1.
Definition SA_NOCLDWAIT : Z := 2.
Definition SIGSEGV : Z := 11.
Definition TIMER_ABSTIME : Z := 1.
Definition ROBUST_LIST_HEAD_LEN : Z := 24.
Definition ROBUST_LIST_LIMIT : nat := 2048.
Definition FUTEX_WAITERS : Z := 0x80000000.
Definition FUTEX_OWNER_DIED : Z := 0x40000000.
Definition FUTEX_TID_MASK : Z := 0x3fffffff.
Definition ALL_BITS : Z := u32_max.
Definition i64_min : Z := - 2 ^ 63.

(** ** Data *)

Record ProcessIdentity := mkIdentity {
  id_pid : Z;
  id_thread_group : Z;
  id_parent : option Z;
  id_process_group : Z;
  id_session : Z;
}.

Inductive FutexScope := Private (address_space_id : Z) | Shared.
Record FutexKey := mkKey { fk_scope : FutexScope; fk_uaddr : Z }.
#[global] Instance FutexScope_eq_dec : EqDecision FutexScope.
Proof. solve_decision. Defined.
#[global] Instance FutexKey_eq_dec : EqDecision FutexKey.
Proof. solve_decision. Defined.
#[global] Instance FutexKey_countable : Countable FutexKey.
Proof.
  refine (inj_countable' (λ k, (match fk_scope k with Private i => inl i | Shared => inr () end, fk_uaddr k))
            (λ p, mkKey (match p.1 with inl i => Private i | inr _ => Shared end) p.2) _). by intros [[] ?].
Defined.

Inductive WaitChildSelector := SelAny | SelPid (pid : Z) | SelGroup (process_group : Z).
Inductive WaitChildApi := Wait4 | WaitId.

(** [ProcessBlock]; [BlockType] of the system calls has the same cases. *)
Inductive ProcessBlock :=
  | BFile (fd events : Z)
  | BPoll (deadline_nanos : option Z)
  | BSignalSuspend
  | BVfork (child : Z)
  | BWaitChild (selector : WaitChildSelector) (api : WaitChildApi) (status_ptr info_ptr options : Z)
  | BFutex (key : FutexKey) (bitset : Z) (deadline_nanos : option Z)
  | BTimer (target_nanos request_nanos rmtp flags : Z).

Inductive ProcessState :=
  | Runnable
  | Running
  | Stopped (signal : Z)
  | Blocked (block : ProcessBlock)
  | Exited (status : Z)
  | Faulted (vector error_code : Z).

Inductive BlockResult :=
  | RTimer (completed : bool) (remaining_nanos rmtp : Z) (is_absolute : bool)
  | RFile (ready : bool)
  | RPoll (timed_out : bool)
  | RFutex (woke timed_out : bool)
  | RSignalInterrupted
  | RCompletedValue (value : Z).

Inductive ChildEventKind := EvExited (status : Z) | EvStopped (signal : Z) | EvContinued.
Record ChildEvent := mkChildEvent { ce_pid : Z; ce_kind : ChildEventKind }.

(** The fields that the manager reads or writes. *)
Record KernelProcess := mkProcess {
  identity : ProcessIdentity;
  p_pidfd : Z;
  task : Z;
  assigned_cpu : Z;
  kernel_context : bool;
  pending_exec : option Z;
  pending_syscall : option Z;
  pending_file_waits : list (Z * Z);
  vfork_parent : option Z;
  set_child_tid : option Z;
  robust_list_head : option Z;
  robust_list_len : Z;
  clear_child_tid : option Z;
  p_files : Z;
  p_signals : SignalState Z;
  wake_result : option BlockResult;
  p_state : ProcessState;
}.

Record ZombieProcess := mkZombie { z_parent : option Z; z_process_group : Z; z_pidfd : Z }.
Record ArmedFutexWait := mkArmed { ar_key : FutexKey; ar_bitset : Z; ar_raced : bool }.

#[global] Instance ArmedFutexWait_eq_dec : EqDecision ArmedFutexWait.
Proof. solve_decision. Defined.

(** [PidFdHandle] *)
Inductive PidFdState := PAlive | PExited | PReaped.
#[global] Instance PidFdState_eq_dec : EqDecision PidFdState.
Proof. solve_decision. Defined.
Record PidFdHandle := mkPidFd { pf_pid : Z; pf_state : PidFdState; pf_version : Z; pf_waiters : WaitQueue Z }.

(** [LocalRunQueue] and [RunningProcessSnapshot] of the processors. *)
Record LocalRunQueue := mkQueue { rq_runnable : list Z; rq_queued : gset Z }.
Record RunningSnapshot := mkSnapshot { rs_pid : Z; rs_thread_group : Z; rs_parent : option Z; rs_process_group : Z }.

Record ProcessManager := mkManager {
  next_pid : Z;
  processes : gmap Z KernelProcess;
  zombies : gmap Z ZombieProcess;
  thread_groups : gmap Z (gset Z);
  group_exit_status : gmap Z Z;
  queued_signals : gmap Z (list SignalInfo);
  parent_children : gmap Z (gset Z);
  child_events : gmap Z (list ChildEvent);
  blocked_files : gset Z;
  blocked_timers : gmap Z (gset Z);
  next_timer_deadline_nanos : option Z;
  blocked_futexes : gmap FutexKey (gset Z);
  armed_futex_waits : gmap Z ArmedFutexWait;
  file_wait_queue : list Z;
  file_wait_enqueued : gset Z;
  file_wait_pending : bool;
  file_wait_registrations : gmap Z (list (Z * Z));
}.

(** Assignments to fields. *)
Definition with_identity (x : ProcessIdentity) (p : KernelProcess) : KernelProcess :=
  mkProcess x (p_pidfd p) (task p) (assigned_cpu p) (kernel_context p) (pending_exec p) (pending_syscall p) (pending_file_waits p) (vfork_parent p) (set_child_tid p) (robust_list_head p) (robust_list_len p) (clear_child_tid p) (p_files p) (p_signals p) (wake_result p) (p_state p).
Definition with_task (x : Z) (p : KernelProcess) : KernelProcess :=
  mkProcess (identity p) (p_pidfd p) x (assigned_cpu p) (kernel_context p) (pending_exec p) (pending_syscall p) (pending_file_waits p) (vfork_parent p) (set_child_tid p) (robust_list_head p) (robust_list_len p) (clear_child_tid p) (p_files p) (p_signals p) (wake_result p) (p_state p).
Definition with_exec (x : option Z) (p : KernelProcess) : KernelProcess :=
  mkProcess (identity p) (p_pidfd p) (task p) (assigned_cpu p) (kernel_context p) x (pending_syscall p) (pending_file_waits p) (vfork_parent p) (set_child_tid p) (robust_list_head p) (robust_list_len p) (clear_child_tid p) (p_files p) (p_signals p) (wake_result p) (p_state p).
Definition with_syscall (x : option Z) (p : KernelProcess) : KernelProcess :=
  mkProcess (identity p) (p_pidfd p) (task p) (assigned_cpu p) (kernel_context p) (pending_exec p) x (pending_file_waits p) (vfork_parent p) (set_child_tid p) (robust_list_head p) (robust_list_len p) (clear_child_tid p) (p_files p) (p_signals p) (wake_result p) (p_state p).
Definition with_vfork (x : option Z) (p : KernelProcess) : KernelProcess :=
  mkProcess (identity p) (p_pidfd p) (task p) (assigned_cpu p) (kernel_context p) (pending_exec p) (pending_syscall p) (pending_file_waits p) x (set_child_tid p) (robust_list_head p) (robust_list_len p) (clear_child_tid p) (p_files p) (p_signals p) (wake_result p) (p_state p).
Definition with_set_tid (x : option Z) (p : KernelProcess) : KernelProcess :=
  mkProcess (identity p) (p_pidfd p) (task p) (assigned_cpu p) (kernel_context p) (pending_exec p) (pending_syscall p) (pending_file_waits p) (vfork_parent p) x (robust_list_head p) (robust_list_len p) (clear_child_tid p) (p_files p) (p_signals p) (wake_result p) (p_state p).
Definition with_clear_tid (x : option Z) (p : KernelProcess) : KernelProcess :=
  mkProcess (identity p) (p_pidfd p) (task p) (assigned_cpu p) (kernel_context p) (pending_exec p) (pending_syscall p) (pending_file_waits p) (vfork_parent p) (set_child_tid p) (robust_list_head p) (robust_list_len p) x (p_files p) (p_signals p) (wake_result p) (p_state p).
Definition with_signals (x : SignalState Z) (p : KernelProcess) : KernelProcess :=
  mkProcess (identity p) (p_pidfd p) (task p) (assigned_cpu p) (kernel_context p) (pending_exec p) (pending_syscall p) (pending_file_waits p) (vfork_parent p) (set_child_tid p) (robust_list_head p) (robust_list_len p) (clear_child_tid p) (p_files p) x (wake_result p) (p_state p).
Definition with_result (x : option BlockResult) (p : KernelProcess) : KernelProcess :=
  mkProcess (identity p) (p_pidfd p) (task p) (assigned_cpu p) (kernel_context p) (pending_exec p) (pending_syscall p) (pending_file_waits p) (vfork_parent p) (set_child_tid p) (robust_list_head p) (robust_list_len p) (clear_child_tid p) (p_files p) (p_signals p) x (p_state p).
Definition with_state (x : ProcessState) (p : KernelProcess) : KernelProcess :=
  mkProcess (identity p) (p_pidfd p) (task p) (assigned_cpu p) (kernel_context p) (pending_exec p) (pending_syscall p) (pending_file_waits p) (vfork_parent p) (set_child_tid p) (robust_list_head p) (robust_list_len p) (clear_child_tid p) (p_files p) (p_signals p) (wake_result p) x.
Definition set_next_pid (x : Z) (m : ProcessManager) : ProcessManager :=
  mkManager x (processes m) (zombies m) (thread_groups m) (group_exit_status m) (queued_signals m) (parent_children m) (child_events m) (blocked_files m) (blocked_timers m) (next_timer_deadline_nanos m) (blocked_futexes m) (armed_futex_waits m) (file_wait_queue m) (file_wait_enqueued m) (file_wait_pending m) (file_wait_registrations m).
Definition set_processes (x : gmap Z KernelProcess) (m : ProcessManager) : ProcessManager :=
  mkManager (next_pid m) x (zombies m) (thread_groups m) (group_exit_status m) (queued_signals m) (parent_children m) (child_events m) (blocked_files m) (blocked_timers m) (next_timer_deadline_nanos m) (blocked_futexes m) (armed_futex_waits m) (file_wait_queue m) (file_wait_enqueued m) (file_wait_pending m) (file_wait_registrations m).
Definition set_zombies (x : gmap Z ZombieProcess) (m : ProcessManager) : ProcessManager :=
  mkManager (next_pid m) (processes m) x (thread_groups m) (group_exit_status m) (queued_signals m) (parent_children m) (child_events m) (blocked_files m) (blocked_timers m) (next_timer_deadline_nanos m) (blocked_futexes m) (armed_futex_waits m) (file_wait_queue m) (file_wait_enqueued m) (file_wait_pending m) (file_wait_registrations m).
Definition set_groups (x : gmap Z (gset Z)) (m : ProcessManager) : ProcessManager :=
  mkManager (next_pid m) (processes m) (zombies m) x (group_exit_status m) (queued_signals m) (parent_children m) (child_events m) (blocked_files m) (blocked_timers m) (next_timer_deadline_nanos m) (blocked_futexes m) (armed_futex_waits m) (file_wait_queue m) (file_wait_enqueued m) (file_wait_pending m) (file_wait_registrations m).
Definition set_exit_status (x : gmap Z Z) (m : ProcessManager) : ProcessManager :=
  mkManager (next_pid m) (processes m) (zombies m) (thread_groups m) x (queued_signals m) (parent_children m) (child_events m) (blocked_files m) (blocked_timers m) (next_timer_deadline_nanos m) (blocked_futexes m) (armed_futex_waits m) (file_wait_queue m) (file_wait_enqueued m) (file_wait_pending m) (file_wait_registrations m).
Definition set_queued (x : gmap Z (list SignalInfo)) (m : ProcessManager) : ProcessManager :=
  mkManager (next_pid m) (processes m) (zombies m) (thread_groups m) (group_exit_status m) x (parent_children m) (child_events m) (blocked_files m) (blocked_timers m) (next_timer_deadline_nanos m) (blocked_futexes m) (armed_futex_waits m) (file_wait_queue m) (file_wait_enqueued m) (file_wait_pending m) (file_wait_registrations m).
Definition set_children (x : gmap Z (gset Z)) (m : ProcessManager) : ProcessManager :=
  mkManager (next_pid m) (processes m) (zombies m) (thread_groups m) (group_exit_status m) (queued_signals m) x (child_events m) (blocked_files m) (blocked_timers m) (next_timer_deadline_nanos m) (blocked_futexes m) (armed_futex_waits m) (file_wait_queue m) (file_wait_enqueued m) (file_wait_pending m) (file_wait_registrations m).
Definition set_events (x : gmap Z (list ChildEvent)) (m : ProcessManager) : ProcessManager :=
  mkManager (next_pid m) (processes m) (zombies m) (thread_groups m) (group_exit_status m) (queued_signals m) (parent_children m) x (blocked_files m) (blocked_timers m) (next_timer_deadline_nanos m) (blocked_futexes m) (armed_futex_waits m) (file_wait_queue m) (file_wait_enqueued m) (file_wait_pending m) (file_wait_registrations m).
Definition set_blocked_files (x : gset Z) (m : ProcessManager) : ProcessManager :=
  mkManager (next_pid m) (processes m) (zombies m) (thread_groups m) (group_exit_status m) (queued_signals m) (parent_children m) (child_events m) x (blocked_timers m) (next_timer_deadline_nanos m) (blocked_futexes m) (armed_futex_waits m) (file_wait_queue m) (file_wait_enqueued m) (file_wait_pending m) (file_wait_registrations m).
Definition set_blocked_timers (x : gmap Z (gset Z)) (m : ProcessManager) : ProcessManager :=
  mkManager (next_pid m) (processes m) (zombies m) (thread_groups m) (group_exit_status m) (queued_signals m) (parent_children m) (child_events m) (blocked_files m) x (next_timer_deadline_nanos m) (blocked_futexes m) (armed_futex_waits m) (file_wait_queue m) (file_wait_enqueued m) (file_wait_pending m) (file_wait_registrations m).
Definition set_next_deadline (x : option Z) (m : ProcessManager) : ProcessManager :=
  mkManager (next_pid m) (processes m) (zombies m) (thread_groups m) (group_exit_status m) (queued_signals m) (parent_children m) (child_events m) (blocked_files m) (blocked_timers m) x (blocked_futexes m) (armed_futex_waits m) (file_wait_queue m) (file_wait_enqueued m) (file_wait_pending m) (file_wait_registrations m).
Definition set_blocked_futexes (x : gmap FutexKey (gset Z)) (m : ProcessManager) : ProcessManager :=
  mkManager (next_pid m) (processes m) (zombies m) (thread_groups m) (group_exit_status m) (queued_signals m) (parent_children m) (child_events m) (blocked_files m) (blocked_timers m) (next_timer_deadline_nanos m) x (armed_futex_waits m) (file_wait_queue m) (file_wait_enqueued m) (file_wait_pending m) (file_wait_registrations m).
Definition set_armed (x : gmap Z ArmedFutexWait) (m : ProcessManager) : ProcessManager :=
  mkManager (next_pid m) (processes m) (zombies m) (thread_groups m) (group_exit_status m) (queued_signals m) (parent_children m) (child_events m) (blocked_files m) (blocked_timers m) (next_timer_deadline_nanos m) (blocked_futexes m) x (file_wait_queue m) (file_wait_enqueued m) (file_wait_pending m) (file_wait_registrations m).
Definition set_registrations (x : gmap Z (list (Z * Z))) (m : ProcessManager) : ProcessManager :=
  mkManager (next_pid m) (processes m) (zombies m) (thread_groups m) (group_exit_status m) (queued_signals m) (parent_children m) (child_events m) (blocked_files m) (blocked_timers m) (next_timer_deadline_nanos m) (blocked_futexes m) (armed_futex_waits m) (file_wait_queue m) (file_wait_enqueued m) (file_wait_pending m) x.
Definition set_file_queue (q : list Z) (e : gset Z) (b : bool) (m : ProcessManager) : ProcessManager :=
  mkManager (next_pid m) (processes m) (zombies m) (thread_groups m) (group_exit_status m) (queued_signals m) (parent_children m) (child_events m) (blocked_files m) (blocked_timers m) (next_timer_deadline_nanos m) (blocked_futexes m) (armed_futex_waits m) q e b (file_wait_registrations m).

(** Iteration over a [BTreeSet], and the first key of a [BTreeMap]. *)
Definition ascending (s : gset Z) : list Z := merge_sort Z.le (elements s).
Definition first_key {A} (m : gmap Z A) : option Z := head (ascending (dom m)).

(** [entry(k).or_default().insert(x)], and its converse that leaves no empty
    set. *)
Definition add_to {K} `{Countable K} (k : K) (x : Z) (m : gmap K (gset Z)) : gmap K (gset Z) := <[k := default ∅ (m !! k) ∪ {[x]}]> m.
Definition remove_from {K} `{Countable K} (k : K) (x : Z) (m : gmap K (gset Z)) : gmap K (gset Z) :=
  match m !! k with
  | None => m
  | Some s => let s' := s ∖ {[x]} in if decide (s' = ∅) then delete k m else <[k := s']> m
  end.

(** ** What the manager calls *)

Class ProcEnv (Env : Type) := {
  (** [address_space.read_user_exact] and [write], which returns the number of
      bytes written *)
  user_read : Z → Z → nat → Env → option (list Z) * Env;
  user_write : Z → Z → list Z → Env → option Z * Env;
  (** [address_space.handle_page_fault(..).unwrap_or(false)] *)
  page_fault : Z → Z → Z → Env → bool * Env;
  (** [files.get(fd)], and the operations of the open file *)
  file_of : Z → Z → Env → option Z;
  file_poll : Z → Z → Env → option Z * Env;
  file_register : Z → Z → Z → Env → option Z * Env;
  file_unregister : Z → Z → Env → Env;
  (** [notify_signal] of the signal descriptors of a table: the processes whose
      listeners are woken *)
  signalfd_notify : Z → SignalInfo → Env → list Z * Env;
  (** The processes among the listeners of a wait queue *)
  wake_listeners : list (Z * Z) → Env → list Z * Env;
  (** [deliver_signal_to_user]: whether the frame was set up *)
  signal_frame : KernelProcess → SignalInfo → SignalAction → Env → bool * SignalState Z * Env;
  set_return : Z → Z → Env → Env;
  shm_register : Z → Env → Env;
  shm_exit : Z → Z → Env → Env;
  shm_replace : Z → Z → Z → Env → Env;
  itimer_reap : Z → Env → Env;
  monotonic_nanos : Env → Z;
}.

Record pworld (Env : Type) := mkWorld {
  pm : ProcessManager;
  tables : gmap nat (list SignalAction);
  pidfds : gmap Z PidFdHandle;
  run_queues : gmap Z LocalRunQueue;
  current : gmap Z RunningSnapshot;
  published : option Z;
  env : Env;
}.
Arguments mkWorld {Env}.
Arguments pm {Env}.
Arguments tables {Env}.
Arguments pidfds {Env}.
Arguments run_queues {Env}.
Arguments current {Env}.
Arguments published {Env}.
Arguments env {Env}.

Section operations.
Context {Env : Type} `{!ProcEnv Env}.
Abbreviation W := (pworld Env).
Abbreviation MP := (M (pworld Env) SysErr.SysErr).
(** The processor that runs the operation. *)
Context (here : Z).

Definition set_pm (m : ProcessManager) (w : W) : W := mkWorld m (tables w) (pidfds w) (run_queues w) (current w) (published w) (env w).
Definition set_env (e : Env) (w : W) : W := mkWorld (pm w) (tables w) (pidfds w) (run_queues w) (current w) (published w) e.
Definition set_tables (t : gmap nat (list SignalAction)) (w : W) : W := mkWorld (pm w) t (pidfds w) (run_queues w) (current w) (published w) (env w).
Definition set_pidfds (x : gmap Z PidFdHandle) (w : W) : W := mkWorld (pm w) (tables w) x (run_queues w) (current w) (published w) (env w).
Definition set_run_queues (x : gmap Z LocalRunQueue) (w : W) : W := mkWorld (pm w) (tables w) (pidfds w) x (current w) (published w) (env w).
Definition set_published (x : option Z) (w : W) : W := mkWorld (pm w) (tables w) (pidfds w) (run_queues w) (current w) x (env w).

Definition modify_pm (f : ProcessManager → ProcessManager) : MP unit := mmodify (λ w, set_pm (f (pm w)) w).
Definition with_env {A} (f : Env → A * Env) : MP A := λ w, let '(a, e) := f (env w) in (Ok a, set_env e w).
Definition change_env (f : Env → Env) : MP unit := with_env (λ e, ((), f e)).
Definition get_process (pid : Z) : MP (option KernelProcess) := mgets (λ w, processes (pm w) !! pid).
Definition put_process (pid : Z) (p : KernelProcess) : MP unit := modify_pm (λ m, set_processes (<[pid := p]> (processes m)) m).

(** ** Run queues ([processor.rs]) *)

Definition queue_enqueue (pid : Z) (q : LocalRunQueue) : LocalRunQueue :=
  if decide (pid ∈ rq_queued q) then q else mkQueue (rq_runnable q ++ [pid]) (rq_queued q ∪ {[pid]}).

Definition queue_dequeue (q : LocalRunQueue) : option (Z * LocalRunQueue) :=
  match rq_runnable q with
  | [] => None
  | pid :: rest => Some (pid, mkQueue rest (rq_queued q ∖ {[pid]}))
  end.

Definition enqueue_runnable_pid (pid cpu_index : Z) : MP unit :=
  w ← mget;
  let target_cpu := if decide (is_Some (run_queues w !! cpu_index)) then cpu_index else here in
  match run_queues w !! target_cpu with
  | None => mret ()
  | Some q => mmodify (set_run_queues (<[target_cpu := queue_enqueue pid q]> (run_queues w)))
  end.

Definition dequeue_next_runnable_pid (cpu_index : Z) : MP (option Z) :=
  w ← mget;
  match run_queues w !! cpu_index ≫= queue_dequeue with
  | None => mret None
  | Some (pid, q) => _ ← mmodify (set_run_queues (<[cpu_index := q]> (run_queues w))); mret (Some pid)
  end.

(** The lowest processor that runs the process. *)
Definition running_cpu_of (w : W) (pid : Z) : option Z :=
  find (λ cpu, bool_decide (rs_pid <$> current w !! cpu = Some pid)) (ascending (dom (current w))).
Definition running_snapshot_of (w : W) (pid : Z) : option RunningSnapshot := running_cpu_of w pid ≫= (current w !!.).
Definition running_process_group_of (w : W) (pid : Z) : option Z := rs_process_group <$> running_snapshot_of w pid.
Definition running_thread_group_of (w : W) (pid : Z) : option Z := rs_thread_group <$> running_snapshot_of w pid.

(** [processor_load] and [select_online_cpu] for [count] processors *)
Definition processor_load (w : W) (cpu : Z) : option Z :=
  q ← run_queues w !! cpu; Some ((if decide (is_Some (current w !! cpu)) then 1 else 0) + Z.of_nat (length (rq_runnable q))).

Fixpoint select_loop (w : W) (cpus : list Z) (best_cpu : option Z) (best_load : Z) : option Z :=
  match cpus with
  | [] => best_cpu
  | cpu :: rest =>
      match processor_load w cpu with
      | None => select_loop w rest best_cpu best_load
      | Some load =>
          if decide (load < best_load)
          then if decide (load = 0) then Some cpu else select_loop w rest (Some cpu) load
          else select_loop w rest best_cpu best_load
      end
  end.
Definition select_online_cpu (w : W) (cpu_count start_cpu : Z) : Z :=
  default here (select_loop w ((λ offset, (start_cpu + offset) mod cpu_count) <$> seqZ 0 cpu_count) None u64_max).

(** ** Listeners *)

(** [FileBlockListener::wake] *)
Definition file_wake (pid : Z) : MP unit :=
  modify_pm (λ m, if decide (pid ∈ file_wait_enqueued m) then set_file_queue (file_wait_queue m) (file_wait_enqueued m) true m
                  else set_file_queue (file_wait_queue m ++ [pid]) (file_wait_enqueued m ∪ {[pid]}) true m).

Fixpoint file_wake_all (pids : list Z) : MP unit :=
  match pids with
  | [] => mret ()
  | pid :: rest => _ ← file_wake pid; file_wake_all rest
  end.

Definition wake_queue (woken : list (Z * Z)) : MP unit := pids ← with_env (wake_listeners woken); file_wake_all pids.

Definition PIDFD_HUP : Z := Z.lor PollEvents.READ PollEvents.HUP.

Definition pidfd_set (handle : Z) (h : PidFdHandle) (st : PidFdState) (events : Z) : MP unit :=
  let '(woken, q) := notify (pf_waiters h) events in
  _ ← mmodify (λ w, set_pidfds (<[handle := mkPidFd (pf_pid h) st (wrapping_add u64_max (pf_version h) 1) q]> (pidfds w)) w);
  wake_queue woken.

Definition mark_exited (handle : Z) : MP unit :=
  w ← mget;
  h ← mexpect (pidfds w !! handle);
  if decide (pf_state h ≠ PAlive) then mret () else pidfd_set handle h PExited PollEvents.READ.

Definition mark_reaped (handle : Z) : MP unit :=
  w ← mget;
  h ← mexpect (pidfds w !! handle);
  if decide (pf_state h = PReaped) then mret () else pidfd_set handle h PReaped PIDFD_HUP.

Definition pidfd_ready (h : PidFdHandle) (requested : Z) : Z :=
  let add (b : bool) (e ready : Z) := if b then PollEvents.bitor ready e else ready in
  match pf_state h with
  | PAlive => PollEvents.empty
  | PExited => add (PollEvents.contains requested PollEvents.READ) PollEvents.READ PollEvents.empty
  | PReaped => add (PollEvents.contains requested PollEvents.HUP) PollEvents.HUP
                 (add (PollEvents.contains requested PollEvents.READ) PollEvents.READ PollEvents.empty)
  end.

(** ** Timer deadlines *)

Definition publish_timer_deadline : MP unit := mmodify (λ w, set_published (next_timer_deadline_nanos (pm w)) w).

Definition refresh_next_timer_deadline : MP unit :=
  _ ← modify_pm (λ m, set_next_deadline (first_key (blocked_timers m)) m); publish_timer_deadline.

Definition note_timer_deadline_inserted (deadline : Z) : MP unit :=
  _ ← modify_pm (λ m, set_next_deadline (Some (match next_timer_deadline_nanos m with Some c => c `min` deadline | None => deadline end)) m);
  publish_timer_deadline.

Definition note_timer_deadline_removed (deadline : Z) : MP unit :=
  w ← mget;
  if decide (next_timer_deadline_nanos (pm w) = Some deadline) then refresh_next_timer_deadline else mret ().

Definition timer_deadline_due (w : W) (current_nanos : Z) : bool :=
  match next_timer_deadline_nanos (pm w) with Some d => bool_decide (d <= current_nanos) | None => false end.

(** ** The sets of blocked processes *)

Fixpoint unregister_all (l : list (Z * Z)) : MP unit :=
  match l with
  | [] => mret ()
  | (file, waiter) :: rest => _ ← change_env (file_unregister file waiter); unregister_all rest
  end.

Definition unregister_file_wait_registrations (pid : Z) : MP unit :=
  w ← mget;
  match file_wait_registrations (pm w) !! pid with
  | None => mret ()
  | Some l => _ ← modify_pm (λ m, set_registrations (delete pid (file_wait_registrations m)) m); unregister_all l
  end.

Definition track_timer (pid deadline : Z) : MP unit :=
  _ ← modify_pm (λ m, set_blocked_timers (add_to deadline pid (blocked_timers m)) m); note_timer_deadline_inserted deadline.

Definition track_blocked_process (pid : Z) (st : ProcessState) : MP unit :=
  match st with
  | Blocked (BFile _ _) => modify_pm (λ m, set_blocked_files (blocked_files m ∪ {[pid]}) m)
  | Blocked (BPoll deadline) =>
      _ ← modify_pm (λ m, set_blocked_files (blocked_files m ∪ {[pid]}) m);
      match deadline with Some d => track_timer pid d | None => mret () end
  | Blocked (BTimer target _ _ _) => track_timer pid target
  | Blocked (BFutex key _ deadline) =>
      _ ← modify_pm (λ m, set_blocked_futexes (add_to key pid (blocked_futexes m)) m);
      match deadline with Some d => track_timer pid d | None => mret () end
  | _ => mret ()
  end.

Definition untrack_timer (pid deadline : Z) : MP unit :=
  w ← mget;
  match blocked_timers (pm w) !! deadline with
  | None => mret ()
  | Some waiters =>
      _ ← modify_pm (λ m, set_blocked_timers (remove_from deadline pid (blocked_timers m)) m);
      if decide (waiters ∖ {[pid]} = ∅) then note_timer_deadline_removed deadline else mret ()
  end.

Definition untrack_blocked_process (pid : Z) (st : ProcessState) : MP unit :=
  match st with
  | Blocked (BFile _ _) =>
      _ ← modify_pm (λ m, set_blocked_files (blocked_files m ∖ {[pid]}) m); unregister_file_wait_registrations pid
  | Blocked (BPoll deadline) =>
      _ ← modify_pm (λ m, set_blocked_files (blocked_files m ∖ {[pid]}) m);
      _ ← unregister_file_wait_registrations pid;
      match deadline with Some d => untrack_timer pid d | None => mret () end
  | Blocked (BTimer target _ _ _) => untrack_timer pid target
  | Blocked (BFutex key _ deadline) =>
      _ ← modify_pm (λ m, set_blocked_futexes (remove_from key pid (blocked_futexes m)) m);
      match deadline with Some d => untrack_timer pid d | None => mret () end
  | _ => mret ()
  end.

Definition is_blocked_state (st : ProcessState) : bool := match st with Blocked _ => true | _ => false end.

Definition wake_process_with_result (pid : Z) (result : BlockResult) : MP unit :=
  found ← get_process pid;
  match found with
  | None => mret ()
  | Some p =>
      if negb (is_blocked_state (p_state p)) then mret ()
      else
        _ ← untrack_blocked_process pid (p_state p);
        p ← get_process pid;
        match p with
        | None => mret ()
        | Some p =>
            _ ← put_process pid (with_state Runnable (with_result (Some result) p));
            enqueue_runnable_pid pid (assigned_cpu p)
        end
  end.

(** ** Waiting for files *)

Definition wait_events (events : Z) : Z := PollEvents.bitor events PollEvents.ALWAYS.

Fixpoint register_waits (pid table : Z) (l : list (Z * Z)) (acc : list (Z * Z)) : MP (list (Z * Z)) :=
  match l with
  | [] => mret acc
  | (fd, events) :: rest =>
      w ← mget;
      match file_of table fd (env w) with
      | None => register_waits pid table rest acc
      | Some file =>
          waiter ← with_env (file_register file (wait_events events) pid);
          register_waits pid table rest (match waiter with Some i => acc ++ [(file, i)] | None => acc end)
      end
  end.

Definition ensure_file_wait_registration (pid : Z) (p : KernelProcess) : MP unit :=
  w ← mget;
  if decide (is_Some (file_wait_registrations (pm w) !! pid)) then mret ()
  else
    let go (l : list (Z * Z)) : MP unit :=
      made ← register_waits pid (p_files p) l [];
      if decide (made = []) then mret ()
      else modify_pm (λ m, set_registrations (<[pid := made]> (file_wait_registrations m)) m) in
    match p_state p with
    | Blocked (BFile fd events) => go [(fd, events)]
    | Blocked (BPoll _) => go (pending_file_waits p)
    | _ => mret ()
    end.

Fixpoint any_ready (table : Z) (l : list (Z * Z)) : MP bool :=
  match l with
  | [] => mret false
  | (fd, events) :: rest =>
      w ← mget;
      match file_of table fd (env w) with
      | None => mret true
      | Some file =>
          ready ← with_env (file_poll file (wait_events events));
          match ready with
          | Some r => if PollEvents.intersects r (wait_events events) then mret true else any_ready table rest
          | None => any_ready table rest
          end
      end
  end.

Definition blocked_file_ready_result (p : KernelProcess) : MP (option BlockResult) :=
  match p_state p with
  | Blocked (BFile fd events) =>
      w ← mget;
      match file_of (p_files p) fd (env w) with
      | None => mret None
      | Some file =>
          ready ← with_env (file_poll file (wait_events events));
          mret (match ready with
                | Some r => if PollEvents.intersects r (wait_events events) then Some (RFile true) else None
                | None => None
                end)
      end
  | Blocked (BPoll _) =>
      b ← any_ready (p_files p) (pending_file_waits p);
      mret (if (b : bool) then Some (RPoll false) else None)
  | _ => mret None
  end.

(** ** Futexes *)

Definition arm_futex_wait (pid : Z) (key : FutexKey) (bitset : Z) : MP unit :=
  modify_pm (λ m, set_armed (<[pid := mkArmed key bitset false]> (armed_futex_waits m)) m).
Definition disarm_futex_wait (pid : Z) : MP unit := modify_pm (λ m, set_armed (delete pid (armed_futex_waits m)) m).

Definition armed_matches (key : FutexKey) (bitset : Z) (a : ArmedFutexWait) : bool :=
  bool_decide (ar_key a = key) && bool_decide (Z.land (ar_bitset a) bitset ≠ 0) && negb (ar_raced a).

Definition armed_targets (m : gmap Z ArmedFutexWait) (key : FutexKey) (bitset : Z) (count : nat) : list Z :=
  take count (filter (λ pid, match m !! pid with Some a => armed_matches key bitset a | None => false end = true) (ascending (dom m))).

(** The loop over the targets: [f] is what happens to one of them. *)
Fixpoint mark_armed (f : ArmedFutexWait → ArmedFutexWait) (key : FutexKey) (bitset : Z) (l : list Z) (n : nat) : MP nat :=
  match l with
  | [] => mret n
  | pid :: rest =>
      w ← mget;
      match armed_futex_waits (pm w) !! pid with
      | None => mark_armed f key bitset rest n
      | Some a =>
          if armed_matches key bitset a then
            _ ← modify_pm (λ m, set_armed (<[pid := f a]> (armed_futex_waits m)) m);
            mark_armed f key bitset rest (S n)
          else mark_armed f key bitset rest n
      end
  end.

Definition wake_armed_futex_waits (key : FutexKey) (bitset : Z) (count : nat) : MP nat :=
  if decide (count = 0)%nat then mret 0%nat
  else
    w ← mget;
    mark_armed (λ a, mkArmed (ar_key a) (ar_bitset a) true) key bitset (armed_targets (armed_futex_waits (pm w)) key bitset count) 0.

Definition requeue_armed_futex_waits (from to : FutexKey) (requeue_count : nat) (bitset : Z) : MP nat :=
  if decide (requeue_count = 0)%nat then mret 0%nat
  else
    w ← mget;
    mark_armed (λ a, mkArmed to (ar_bitset a) (ar_raced a)) from bitset (armed_targets (armed_futex_waits (pm w)) from bitset requeue_count) 0.

(** The state of a process that waits for the key with one of the bits. *)
Definition futex_waits (key : FutexKey) (bitset : Z) (st : ProcessState) : bool :=
  match st with
  | Blocked (BFutex k b _) => bool_decide (k = key) && bool_decide (Z.land b bitset ≠ 0)
  | _ => false
  end.

Fixpoint wake_waiters (key : FutexKey) (bitset : Z) (count : nat) (waiters : list Z) (woke : nat) : MP nat :=
  match waiters with
  | [] => mret woke
  | pid :: rest =>
      if decide (count <= woke)%nat then mret woke
      else
        found ← get_process pid;
        match found with
        | None => wake_waiters key bitset count rest woke
        | Some p =>
            if negb (futex_waits key bitset (p_state p)) then wake_waiters key bitset count rest woke
            else
              _ ← untrack_blocked_process pid (p_state p);
              again ← get_process pid;
              match again with
              | None => wake_waiters key bitset count rest woke
              | Some p =>
                  _ ← put_process pid (with_state Runnable (with_result (Some (RFutex true false)) p));
                  _ ← enqueue_runnable_pid pid (assigned_cpu p);
                  wake_waiters key bitset count rest (S woke)
              end
        end
  end.

Definition wake_futex (key : FutexKey) (bitset : Z) (count : nat) : MP nat :=
  woke ← wake_armed_futex_waits key bitset count;
  if decide (count <= woke)%nat then mret woke
  else
    w ← mget;
    match blocked_futexes (pm w) !! key with
    | None => mret woke
    | Some waiters => wake_waiters key bitset count (ascending waiters) woke
    end.

Fixpoint requeue_waiters (from to : FutexKey) (bitset : Z) (requeue_count : nat) (waiters : list Z) (moved : nat) : MP unit :=
  match waiters with
  | [] => mret ()
  | pid :: rest =>
      if decide (requeue_count <= moved)%nat then mret ()
      else
        found ← get_process pid;
        match found with
        | None => requeue_waiters from to bitset requeue_count rest moved
        | Some p =>
            match p_state p with
            | Blocked (BFutex key wait_bitset deadline) =>
                if negb (futex_waits from bitset (p_state p)) then requeue_waiters from to bitset requeue_count rest moved
                else
                  _ ← untrack_blocked_process pid (p_state p);
                  again ← get_process pid;
                  match again with
                  | None => requeue_waiters from to bitset requeue_count rest moved
                  | Some p =>
                      _ ← put_process pid (with_state (Blocked (BFutex to wait_bitset deadline)) p);
                      _ ← track_blocked_process pid (Blocked (BFutex to wait_bitset deadline));
                      requeue_waiters from to bitset requeue_count rest (S moved)
                  end
            | _ => requeue_waiters from to bitset requeue_count rest moved
            end
        end
  end.

Definition requeue_futex (from to : FutexKey) (wake_count requeue_count : nat) (bitset : Z) : MP nat :=
  woke ← wake_futex from bitset wake_count;
  moved ← requeue_armed_futex_waits from to requeue_count bitset;
  w ← mget;
  match blocked_futexes (pm w) !! from with
  | None => mret woke
  | Some waiters => _ ← requeue_waiters from to bitset requeue_count (ascending waiters) moved; mret woke
  end.

Definition wake_futex_scopes (p : KernelProcess) (uaddr : Z) (count : nat) (bitset : Z) : MP unit :=
  _ ← wake_futex (mkKey (Private (task p)) uaddr) bitset count;
  _ ← wake_futex (mkKey Shared uaddr) bitset count;
  mret ().

(** ** Blocking *)

Definition block_from_disposition (pid : Z) (p : KernelProcess) (block : ProcessBlock) : MP KernelProcess :=
  let p := with_result None p in
  match block with
  | BFutex key bitset deadline =>
      w ← mget;
      _ ← disarm_futex_wait pid;
      match armed_futex_waits (pm w) !! pid with
      | Some a =>
          if decide (ar_key a = key ∧ ar_bitset a = bitset ∧ ar_raced a = true)
          then mret (with_state Runnable (with_result (Some (RFutex true false)) p))
          else mret (with_state (Blocked block) p)
      | None => mret (with_state (Blocked block) p)
      end
  | BFile _ _ | BPoll _ =>
      let p := with_state (Blocked block) p in
      _ ← ensure_file_wait_registration pid p; mret p
  | _ => mret (with_state (Blocked block) p)
  end.

(** ** Children and groups *)

Definition track_child_link (parent : option Z) (child : Z) : MP unit :=
  match parent with None => mret () | Some parent => modify_pm (λ m, set_children (add_to parent child (parent_children m)) m) end.
Definition untrack_child_link (parent : option Z) (child : Z) : MP unit :=
  match parent with None => mret () | Some parent => modify_pm (λ m, set_children (remove_from parent child (parent_children m)) m) end.

Definition track_thread_group (tgid pid : Z) : MP unit := modify_pm (λ m, set_groups (add_to tgid pid (thread_groups m)) m).

Definition untrack_thread_group (tgid pid : Z) : MP unit :=
  w ← mget;
  match thread_groups (pm w) !! tgid with
  | None => mret ()
  | Some group =>
      _ ← modify_pm (λ m, set_groups (remove_from tgid pid (thread_groups m)) m);
      if decide (group ∖ {[pid]} = ∅) then
        _ ← modify_pm (λ m, set_exit_status (delete tgid (group_exit_status m)) m);
        change_env (itimer_reap tgid)
      else mret ()
  end.

Definition is_thread (p : KernelProcess) : bool := bool_decide (id_thread_group (identity p) ≠ id_pid (identity p)).

Definition thread_group_process_group (w : W) (tgid : Z) : option Z :=
  members ← thread_groups (pm w) !! tgid;
  head (omap (λ pid, match processes (pm w) !! pid with
                     | Some p => Some (id_process_group (identity p))
                     | None => running_process_group_of w pid
                     end) (ascending members)).

Definition thread_group_session (w : W) (tgid : Z) : option Z :=
  members ← thread_groups (pm w) !! tgid;
  head (omap (λ pid, p ← processes (pm w) !! pid; Some (id_session (identity p))) (ascending members)).

Definition process_group_session (w : W) (process_group : Z) : option Z :=
  head (omap (λ tgid, if decide (thread_group_process_group w tgid = Some process_group) then thread_group_session w tgid else None)
          (ascending (dom (thread_groups (pm w))))).

Definition is_here (w : W) (pid : Z) : bool := bool_decide (is_Some (processes (pm w) !! pid)) || bool_decide (is_Some (running_cpu_of w pid)).
(** A process that the signal can be given to at once. *)
Definition takes_signal (w : W) (pid signal : Z) : bool :=
  match processes (pm w) !! pid with Some p => negb (is_blocked (blocked (p_signals p)) signal) | None => false end
  || bool_decide (is_Some (running_cpu_of w pid)).

Fixpoint pick_loop (w : W) (signal : Z) (l : list Z) (fallback : option Z) : option Z :=
  match l with
  | [] => fallback
  | pid :: rest =>
      if decide (Some pid = fallback) then pick_loop w signal rest fallback
      else if negb (is_here w pid) then pick_loop w signal rest fallback
      else
        let fallback := match fallback with Some f => Some f | None => Some pid end in
        if takes_signal w pid signal then Some pid else pick_loop w signal rest fallback
  end.

Definition pick_thread_group_target (w : W) (tgid signal : Z) : option Z :=
  members ← thread_groups (pm w) !! tgid;
  if bool_decide (tgid ∈ members) && is_here w tgid then
    if takes_signal w tgid signal then Some tgid else pick_loop w signal (ascending members) (Some tgid)
  else pick_loop w signal (ascending members) None.

(** ** Signals *)

Definition notify_process_signalfds (p : KernelProcess) (info : SignalInfo) : MP unit :=
  pids ← with_env (signalfd_notify (p_files p) info); file_wake_all pids.

(** [process.signals.enqueue(info)] and the listeners it wakes *)
Definition signals_enqueue (p : KernelProcess) (info : SignalInfo) : MP KernelProcess :=
  let '(s, woken) := enqueue info (p_signals p) in
  _ ← wake_queue woken;
  mret (with_signals s p).

Definition queue_signal_for_running (pid : Z) (info : SignalInfo) : MP bool :=
  w ← mget;
  match running_cpu_of w pid with
  | None => mret false
  | Some _ => _ ← modify_pm (λ m, set_queued (<[pid := default [] (queued_signals m !! pid) ++ [info]]> (queued_signals m)) m); mret true
  end.

Fixpoint enqueue_each (p : KernelProcess) (l : list SignalInfo) : MP KernelProcess :=
  match l with
  | [] => mret p
  | info :: rest => p ← signals_enqueue p info; _ ← notify_process_signalfds p info; enqueue_each p rest
  end.

Definition drain_queued_signals (p : KernelProcess) : MP KernelProcess :=
  w ← mget;
  match queued_signals (pm w) !! id_pid (identity p) with
  | None => mret p
  | Some l => _ ← modify_pm (λ m, set_queued (delete (id_pid (identity p)) (queued_signals m)) m); enqueue_each p l
  end.

Definition sigchld_action (w : W) (parent : option Z) : option SignalAction :=
  parent ← parent; p ← processes (pm w) !! parent; action (Z.to_nat SIGCHLD) (p_signals p) (tables w).

Definition child_process_group (w : W) (pid : Z) : option Z :=
  match processes (pm w) !! pid with
  | Some p => Some (id_process_group (identity p))
  | None => match zombies (pm w) !! pid with
            | Some z => Some (z_process_group z)
            | None => running_process_group_of w pid
            end
  end.

Definition child_matches_wait_selector (w : W) (selector : WaitChildSelector) (child : Z) : bool :=
  match selector with
  | SelAny => true
  | SelPid pid => bool_decide (child = pid)
  | SelGroup g => bool_decide (child_process_group w child = Some g)
  end.

Definition child_event_matches_options (kind : ChildEventKind) (options : Z) : bool :=
  match kind with
  | EvExited _ => true
  | EvStopped _ => bool_decide (Z.land options 2 ≠ 0)
  | EvContinued => bool_decide (Z.land options 8 ≠ 0)
  end.

(** The [i32] of a status word. *)
Definition wait_status (kind : ChildEventKind) : Z :=
  match kind with
  | EvExited status => if decide (128 <= status) then status - 128 else Z.shiftl (Z.land status 0xff) 8
  | EvStopped signal => Z.lor (Z.shiftl signal 8) 0x7f
  | EvContinued => 0xffff
  end.

Definition interrupted_timer (now target rmtp flags : Z) : BlockResult :=
  let absolute := bool_decide (Z.land flags TIMER_ABSTIME ≠ 0) in
  if decide (now < target) then RTimer false (saturating_sub target now) rmtp absolute else RTimer true 0 rmtp absolute.

(** What a deliverable signal makes of a blocked process: the new process and
    whether it leaves the sets of blocked processes. *)
Definition interrupt (w : W) (p : KernelProcess) : option (KernelProcess * bool) :=
  match p_state p with
  | Blocked BSignalSuspend => Some (with_state Runnable (with_result (Some RSignalInterrupted) (with_signals (leave_sigsuspend (p_signals p)) p)), false)
  | Blocked (BTimer target _ rmtp flags) =>
      Some (with_state Runnable (with_result (Some (interrupted_timer (monotonic_nanos (env w)) target rmtp flags)) p), true)
  | Blocked (BPoll _) | Blocked (BFutex _ _ _) => Some (with_state Runnable (with_result (Some RSignalInterrupted) p), true)
  | _ => None
  end.

(** [notify_signal] and [notify_child_event] call each other: a continued
    child sends [SIGCHLD] to its parent, which is not [SIGCONT]. *)
Fixpoint notify_signal (fuel : nat) (pid : Z) (info : SignalInfo) : MP unit :=
  match fuel with
  | O => mdiverge
  | S fuel' =>
      found ← get_process pid;
      match found with
      | None => mret ()
      | Some p =>
          let continued := bool_decide (si_signal info = SIGCONT) && match p_state p with Stopped _ => true | _ => false end in
          let p := if continued then with_state Runnable p else p in
          let before := p_state p in
          p ← signals_enqueue p info;
          _ ← notify_process_signalfds p info;
          w ← mget;
          let woken := if has_deliverable true (p_signals p) (tables w) then interrupt w p else None in
          let p' := match woken with Some (p', _) => p' | None => p end in
          _ ← put_process pid p';
          _ ← (if continued || bool_decide (is_Some woken) then enqueue_runnable_pid pid (assigned_cpu p') else mret ());
          _ ← (match woken with Some (_, true) => untrack_blocked_process pid before | _ => mret () end);
          if continued then notify_child_event fuel' (id_parent (identity p')) (mkChildEvent pid EvContinued) else mret ()
      end
  end
with notify_child_event (fuel : nat) (parent : option Z) (event : ChildEvent) : MP unit :=
  match fuel with
  | O => mdiverge
  | S fuel' =>
      match parent with
      | None => mret ()
      | Some parent_pid =>
          found ← get_process parent_pid;
          w ← mget;
          let waits :=
            match found with
            | Some p =>
                match p_state p with
                | Blocked (BWaitChild selector api status_ptr _ options) =>
                    if child_matches_wait_selector w selector (ce_pid event) && child_event_matches_options (ce_kind event) options
                       && bool_decide (Z.land options 1 = 0)
                    then Some (p, api, status_ptr) else None
                | _ => None
                end
            | None => None
            end in
          keep ← (match waits with
                  | None => mret true
                  | Some (p, api, status_ptr) =>
                      let wait4 := match api with Wait4 => true | WaitId => false end in
                      _ ← (if wait4 && bool_decide (status_ptr ≠ 0)
                           then _ ← with_env (user_write (task p) status_ptr (le_bytes 4 (wait_status (ce_kind event)))); mret () else mret ());
                      _ ← put_process parent_pid (with_state Runnable (with_result (Some (RCompletedValue (if wait4 then ce_pid event else 0))) p));
                      _ ← enqueue_runnable_pid parent_pid (assigned_cpu p);
                      _ ← (if wait4 && match ce_kind event with EvExited _ => true | _ => false end then
                             w ← mget;
                             let z := zombies (pm w) !! ce_pid event in
                             _ ← modify_pm (λ m, set_zombies (delete (ce_pid event) (zombies m)) m);
                             untrack_child_link (z ≫= z_parent) (ce_pid event)
                           else mret ());
                      mret (negb wait4)
                  end);
          _ ← (if (keep : bool)
               then modify_pm (λ m, set_events (<[parent_pid := default [] (child_events m !! parent_pid) ++ [event]]> (child_events m)) m) else mret ());
          w ← mget;
          let no_cldstop := match sigchld_action w (Some parent_pid) with Some a => bool_decide (Z.land (sa_flags a) SA_NOCLDSTOP ≠ 0) | None => false end in
          match ce_kind event with
          | EvExited _ => mret ()
          | EvStopped signal => if no_cldstop then mret () else notify_signal fuel' parent_pid (child_stop (ce_pid event) signal)
          | EvContinued => if no_cldstop then mret () else notify_signal fuel' parent_pid (child_continue (ce_pid event))
          end
      end
  end.

(** Enough for the longest chain. *)
Definition NOTIFY_DEPTH : nat := 4.

(** ** Sending signals *)

Definition send_signal (pid : Z) (info : SignalInfo) : MP bool :=
  found ← get_process pid;
  match found with
  | Some _ => _ ← notify_signal NOTIFY_DEPTH pid info; mret true
  | None => queue_signal_for_running pid info
  end.

Definition send_signal_thread_group (tgid : Z) (info : SignalInfo) : MP bool :=
  w ← mget;
  match pick_thread_group_target w tgid (si_signal info) with
  | None => mret false
  | Some target => send_signal target info
  end.

Fixpoint send_each (tgids : list Z) (info : SignalInfo) (delivered : nat) : MP nat :=
  match tgids with
  | [] => mret delivered
  | tgid :: rest => b ← send_signal_thread_group tgid info; send_each rest info (if (b : bool) then S delivered else delivered)
  end.

Definition send_signal_process_group (process_group : Z) (info : SignalInfo) : MP nat :=
  w ← mget;
  send_each (filter (λ tgid, thread_group_process_group w tgid = Some process_group) (ascending (dom (thread_groups (pm w))))) info 0.

Definition send_signal_all_thread_groups (info : SignalInfo) (exclude_tgid : option Z) : MP nat :=
  w ← mget;
  send_each (filter (λ tgid, tgid ≠ 1 ∧ Some tgid ≠ exclude_tgid) (ascending (dom (thread_groups (pm w))))) info 0.

(** ** Process groups *)

Definition thread_group_of (w : W) (pid : Z) : option Z :=
  match processes (pm w) !! pid with
  | Some p => Some (id_thread_group (identity p))
  | None => running_thread_group_of w pid
  end.
Definition has_thread_group (w : W) (tgid : Z) : bool := bool_decide (is_Some (thread_groups (pm w) !! tgid)).
Definition has_process_group (w : W) (process_group : Z) : bool :=
  existsb (λ tgid, bool_decide (thread_group_process_group w tgid = Some process_group)) (ascending (dom (thread_groups (pm w)))).

Definition with_group (g : Z) (i : ProcessIdentity) : ProcessIdentity := mkIdentity (id_pid i) (id_thread_group i) (id_parent i) g (id_session i).

(** Members of the caller's group that are in the table. *)
Fixpoint regroup_known (self g : Z) (l : list Z) : MP unit :=
  match l with
  | [] => mret ()
  | pid :: rest =>
      if decide (pid = self) then regroup_known self g rest
      else
        found ← get_process pid;
        _ ← (match found with Some p => put_process pid (with_identity (with_group g (identity p)) p) | None => mret () end);
        regroup_known self g rest
  end.

Fixpoint regroup_all (g : Z) (l : list Z) : MP unit :=
  match l with
  | [] => mret ()
  | pid :: rest =>
      found ← get_process pid;
      match found with
      | None => mthrow SysErr.Srch
      | Some p => _ ← put_process pid (with_identity (with_group g (identity p)) p); regroup_all g rest
      end
  end.

(** The caller runs, so it is outside of the table: its new form is returned. *)
Definition setpgid (caller : KernelProcess) (target process_group : Z) : MP KernelProcess :=
  w ← mget;
  let i := identity caller in
  let target_pid := if decide (target = 0) then id_pid i else target in
  let process_group := if decide (process_group = 0) then target_pid else process_group in
  let foreign := bool_decide (process_group ≠ id_process_group i) && bool_decide (process_group_session w process_group ≠ Some (id_session i)) in
  if decide (target_pid = id_pid i) then
    if decide (id_session i = id_pid i) then mthrow SysErr.Perm
    else if bool_decide (process_group ≠ target_pid) && foreign then mthrow SysErr.Perm
    else
      _ ← (match thread_groups (pm w) !! id_thread_group i with
           | Some members => regroup_known (id_pid i) process_group (ascending members)
           | None => mret ()
           end);
      mret (with_identity (with_group process_group i) caller)
  else
    target_tgid ← mok_or (thread_group_of w target_pid) SysErr.Srch;
    let children := default ∅ (parent_children (pm w) !! id_pid i) in
    if decide ((target_tgid ∉ children) ∧ (target_pid ∉ children)) then mthrow SysErr.Srch
    else
      members ← mok_or (thread_groups (pm w) !! target_tgid) SysErr.Srch;
      representative ← mok_or (head (omap (processes (pm w) !!.) (ascending members))) SysErr.Srch;
      let session := id_session (identity representative) in
      if decide (session ≠ id_session i) then mthrow SysErr.Perm
      else if decide (session = target_tgid) then mthrow SysErr.Perm
      else if bool_decide (process_group ≠ target_tgid) && foreign then mthrow SysErr.Perm
      else _ ← regroup_all process_group (ascending members); mret caller.

(** ** Exit *)

(** [read_exit_u64] and the like: [n] bytes of the process. *)
Definition read_exit (p : KernelProcess) (address : Z) (n : nat) : MP (option Z) :=
  bytes ← with_env (user_read (task p) address n);
  mret (match bytes with Some l => if decide (length l = n) then Some (le_val l) else None | None => None end).
Definition as_i64 (x : Z) : Z := if decide (x < 2 ^ 63) then x else x - 2 ^ 64.

Definition cleanup_robust_word (p : KernelProcess) (futex_uaddr : Z) : MP unit :=
  word ← read_exit p futex_uaddr 4;
  match word with
  | None => mret ()
  | Some word =>
      if decide (Z.land word FUTEX_TID_MASK ≠ id_pid (identity p)) then mret ()
      else
        let new_word := Z.lor (Z.land word FUTEX_WAITERS) FUTEX_OWNER_DIED in
        written ← with_env (user_write (task p) futex_uaddr (le_bytes 4 new_word));
        if decide (written ≠ Some 4) then mret ()
        else if decide (Z.land word FUTEX_WAITERS ≠ 0) then wake_futex_scopes p futex_uaddr 1 ALL_BITS else mret ()
  end.

(** [-futex_offset] overflows for the least [i64]. *)
Definition cleanup_robust_entry (p : KernelProcess) (futex_offset entry_addr : Z) : MP unit :=
  if decide (futex_offset = i64_min) then mpanic
  else
    match (if decide (futex_offset < 0) then checked_sub entry_addr (- futex_offset) else checked_add u64_max entry_addr futex_offset) with
    | None => mret ()
    | Some futex_uaddr => cleanup_robust_word p futex_uaddr
    end.

Fixpoint robust_loop (limit : nat) (p : KernelProcess) (head_addr futex_offset entry_addr : Z) : MP unit :=
  match limit with
  | O => mret ()
  | S limit' =>
      if decide (entry_addr = 0 ∨ entry_addr = head_addr) then mret ()
      else
        next ← read_exit p entry_addr 8;
        match next with
        | None => mret ()
        | Some next => _ ← cleanup_robust_entry p futex_offset entry_addr; robust_loop limit' p head_addr futex_offset next
        end
  end.

Definition add_addr (a b : Z) : MP Z := mexpect (checked_add u64_max a b).

Definition cleanup_robust_list (p : KernelProcess) : MP unit :=
  match robust_list_head p with
  | None => mret ()
  | Some head_addr =>
      if decide (robust_list_len p < ROBUST_LIST_HEAD_LEN) then mret ()
      else
        list_next ← read_exit p head_addr 8;
        match list_next with
        | None => mret ()
        | Some list_next =>
            a ← add_addr head_addr 8;
            offset ← read_exit p a 8;
            match offset with
            | None => mret ()
            | Some offset =>
                b ← add_addr head_addr 16;
                op ← read_exit p b 8;
                match op with
                | None => mret ()
                | Some op =>
                    _ ← robust_loop ROBUST_LIST_LIMIT p head_addr (as_i64 offset) list_next;
                    if decide (op ≠ 0 ∧ op ≠ head_addr) then cleanup_robust_entry p (as_i64 offset) op else mret ()
                end
            end
        end
  end.

Definition finish_process_exit (p : KernelProcess) : MP KernelProcess :=
  _ ← change_env (shm_exit (task p) (id_pid (identity p)));
  _ ← disarm_futex_wait (id_pid (identity p));
  _ ← cleanup_robust_list p;
  match clear_child_tid p with
  | None => mret p
  | Some address =>
      let p := with_clear_tid None p in
      written ← with_env (user_write (task p) address (le_bytes 4 0));
      _ ← (if decide (written = Some 4) then wake_futex_scopes p address (Z.to_nat (2 ^ 31 - 1)) ALL_BITS else mret ());
      mret p
  end.

Definition wake_vfork_parent (parent_pid child_pid : Z) : MP unit :=
  found ← get_process parent_pid;
  match found with
  | Some p =>
      match p_state p with
      | Blocked (BVfork child) =>
          if decide (child = child_pid) then
            _ ← put_process parent_pid (with_state Runnable (with_result (Some (RCompletedValue child_pid)) p));
            enqueue_runnable_pid parent_pid (assigned_cpu p)
          else mret ()
      | _ => mret ()
      end
  | None => mret ()
  end.

Definition reap_exited_process (p : KernelProcess) (status : Z) : MP unit :=
  let pid := id_pid (identity p) in
  _ ← modify_pm (λ m, set_queued (delete pid (queued_signals m)) m);
  _ ← mark_exited (p_pidfd p);
  p ← finish_process_exit p;
  _ ← (match vfork_parent p with Some parent => wake_vfork_parent parent pid | None => mret () end);
  _ ← untrack_thread_group (id_thread_group (identity p)) pid;
  if is_thread p then mark_reaped (p_pidfd p)
  else
    w ← mget;
    let parent := id_parent (identity p) in
    let act := sigchld_action w parent in
    let ignore := match act with Some a => bool_decide (sa_handler a = SIG_IGN) | None => false end in
    let no_cldwait := match act with Some a => bool_decide (Z.land (sa_flags a) SA_NOCLDWAIT ≠ 0) | None => false end in
    _ ← (match parent with Some parent_pid => if ignore then mret () else notify_signal NOTIFY_DEPTH parent_pid (child_exit pid status) | None => mret () end);
    if bool_decide (parent = None) || ignore || no_cldwait then
      _ ← mark_reaped (p_pidfd p); untrack_child_link parent pid
    else
      _ ← modify_pm (λ m, set_zombies (<[pid := mkZombie parent (id_process_group (identity p)) (p_pidfd p)]> (zombies m)) m);
      notify_child_event NOTIFY_DEPTH parent (mkChildEvent pid (EvExited status)).

Fixpoint end_members (current_pid : Z) (l : list Z) : MP unit :=
  match l with
  | [] => mret ()
  | pid :: rest =>
      if decide (pid = current_pid) then end_members current_pid rest
      else
        found ← get_process pid;
        match found with
        | None => end_members current_pid rest
        | Some p =>
            match p_state p with
            | Exited _ => end_members current_pid rest
            | st =>
                let p' := with_state Runnable (if is_blocked_state st then with_result (Some RSignalInterrupted) p else p) in
                _ ← put_process pid p';
                _ ← enqueue_runnable_pid pid (assigned_cpu p);
                _ ← (if is_blocked_state st then untrack_blocked_process pid st else mret ());
                end_members current_pid rest
            end
        end
  end.

Definition begin_thread_group_exit (tgid current_pid status : Z) : MP unit :=
  _ ← modify_pm (λ m, set_exit_status (<[tgid := status]> (group_exit_status m)) m);
  w ← mget;
  match thread_groups (pm w) !! tgid with
  | None => mret ()
  | Some members => end_members current_pid (ascending members)
  end.

(** ** Wait *)

Fixpoint position {A} (f : A → bool) (l : list A) : option nat :=
  match l with
  | [] => None
  | x :: rest => if f x then Some O else S <$> position f rest
  end.

Definition wait_child_event (parent_pid : Z) (selector : WaitChildSelector) (options : Z) (consume : bool) : MP (option ChildEvent) :=
  w ← mget;
  match child_events (pm w) !! parent_pid with
  | None => mret None
  | Some events =>
      match position (λ e, child_matches_wait_selector w selector (ce_pid e) && child_event_matches_options (ce_kind e) options) events with
      | None => mret None
      | Some index =>
          match events !! index with
          | None => mret None
          | Some event =>
              _ ← (if consume then
                     let events' := delete index events in
                     _ ← modify_pm (λ m, set_events (if decide (events' = []) then delete parent_pid (child_events m) else <[parent_pid := events']> (child_events m)) m);
                     match ce_kind event with
                     | EvExited _ =>
                         let z := zombies (pm w) !! ce_pid event in
                         _ ← modify_pm (λ m, set_zombies (delete (ce_pid event) (zombies m)) m);
                         _ ← (match z with Some z => mark_reaped (z_pidfd z) | None => mret () end);
                         untrack_child_link (z ≫= z_parent) (ce_pid event)
                     | _ => mret ()
                     end
                   else mret ());
              mret (Some event)
          end
      end
  end.

Definition has_waitable_child (w : W) (parent_pid : Z) (selector : WaitChildSelector) : bool :=
  match parent_children (pm w) !! parent_pid with
  | None => false
  | Some children => existsb (child_matches_wait_selector w selector) (ascending children)
  end.

(** ** Files that became ready, timers that expired *)

Fixpoint wake_files (l : list Z) : MP unit :=
  match l with
  | [] => mret ()
  | pid :: rest =>
      found ← get_process pid;
      _ ← (match p_state <$> found with
           | Some (Blocked (BFile _ _)) => wake_process_with_result pid (RFile true)
           | Some (Blocked (BPoll _)) => wake_process_with_result pid (RPoll false)
           | _ => mret ()
           end);
      wake_files rest
  end.

Definition wake_ready_file_blocks : MP unit :=
  w ← mget;
  if negb (file_wait_pending (pm w)) then mret ()
  else
    let ready := file_wait_queue (pm w) in
    _ ← modify_pm (λ m, set_file_queue [] (file_wait_enqueued m ∖ list_to_set ready) false m);
    wake_files ready.

Definition timer_result (st : ProcessState) : option BlockResult :=
  match st with
  | Blocked (BTimer _ _ rmtp flags) => Some (RTimer true 0 rmtp (bool_decide (Z.land flags TIMER_ABSTIME ≠ 0)))
  | Blocked (BFutex _ _ _) => Some (RFutex false true)
  | Blocked (BPoll _) => Some (RPoll true)
  | _ => None
  end.

Fixpoint expire_waiters (l : list Z) : MP unit :=
  match l with
  | [] => mret ()
  | pid :: rest =>
      found ← get_process pid;
      _ ← (match found ≫= (timer_result ∘ p_state) with Some r => wake_process_with_result pid r | None => mret () end);
      expire_waiters rest
  end.

(** Every round takes a deadline out of the index. *)
Fixpoint expire_loop (fuel : nat) (current_nanos : Z) : MP unit :=
  match fuel with
  | O => mdiverge
  | S fuel' =>
      w ← mget;
      match first_key (blocked_timers (pm w)) with
      | None => _ ← modify_pm (set_next_deadline None); publish_timer_deadline
      | Some deadline =>
          if decide (current_nanos < deadline) then _ ← modify_pm (set_next_deadline (Some deadline)); publish_timer_deadline
          else
            match blocked_timers (pm w) !! deadline with
            | None => refresh_next_timer_deadline
            | Some waiters =>
                _ ← modify_pm (λ m, set_blocked_timers (delete deadline (blocked_timers m)) m);
                _ ← expire_waiters (ascending waiters);
                expire_loop fuel' current_nanos
            end
      end
  end.
Definition wake_expired_timers (current_nanos : Z) : MP unit := w ← mget; expire_loop (S (size (blocked_timers (pm w)))) current_nanos.

(** ** Scheduling *)

Inductive ScheduleEvent :=
  | SIdle
  | SSyscall (pid number : Z)
  | SInterrupted (pid vector : Z)
  | SExited (pid status : Z)
  | SFaulted (pid vector error_code : Z).

Inductive DispatchWork :=
  | WIdle
  | WEvent (event : ScheduleEvent)
  | WProcess (p : KernelProcess)
  | WKernelContinuation (p : KernelProcess)
  | WKernelSyscall (p : KernelProcess).

Definition requeue_process (p : KernelProcess) : MP unit :=
  let pid := id_pid (identity p) in
  match p_state p with
  | Runnable => _ ← enqueue_runnable_pid pid (assigned_cpu p); put_process pid p
  | Stopped _ | Blocked _ =>
      _ ← ensure_file_wait_registration pid p;
      ready ← blocked_file_ready_result p;
      match ready with
      | Some result =>
          _ ← unregister_file_wait_registrations pid;
          _ ← enqueue_runnable_pid pid (assigned_cpu p);
          put_process pid (with_state Runnable (with_result (Some result) p))
      | None => _ ← track_blocked_process pid (p_state p); put_process pid p
      end
  | Exited status => reap_exited_process p status
  | Running | Faulted _ _ => mret ()
  end.

Definition prepare_child_return (p : KernelProcess) : MP KernelProcess :=
  match set_child_tid p with
  | None => mret p
  | Some child_tid =>
      let p := with_set_tid None p in
      written ← with_env (user_write (task p) child_tid (le_bytes 4 (id_pid (identity p))));
      mret (if decide (written = Some 4) then p else with_state (Exited (128 + SIGSEGV)) p)
  end.

(** A signal that ends the process, and its thread group with it. *)
Definition fatal_signal (p : KernelProcess) (signal : Z) : MP KernelProcess :=
  let status := 128 + signal in
  _ ← (if is_thread p then begin_thread_group_exit (id_thread_group (identity p)) (id_pid (identity p)) status else mret ());
  mret (with_state (Exited status) p).

(** The end of [take_next_process_for_pid], after its signals. *)
Definition dispatch_process (pid : Z) (p : KernelProcess) : MP (option DispatchWork) :=
  match p_state p with
  | Exited status => _ ← reap_exited_process p status; mret (Some (WEvent (SExited pid status)))
  | _ =>
      if kernel_context p then mret (Some (WKernelContinuation (with_state Running p)))
      else if decide (is_Some (pending_syscall p)) then mret (Some (WKernelSyscall (with_state Running p)))
      else
        p ← prepare_child_return p;
        match p_state p with
        | Exited status => _ ← reap_exited_process p status; mret (Some (WEvent (SExited pid status)))
        | _ => mret (Some (WProcess (with_state Running p)))
        end
  end.

Definition take_next_process_for_pid (pid current_cpu : Z) : MP (option DispatchWork) :=
  found ← get_process pid;
  match found with
  | None => mret None
  | Some p =>
      _ ← modify_pm (λ m, set_processes (delete pid (processes m)) m);
      p ← drain_queued_signals p;
      if decide (assigned_cpu p ≠ current_cpu) then
        _ ← put_process pid p; _ ← enqueue_runnable_pid pid (assigned_cpu p); mret None
      else
        w ← mget;
        match group_exit_status (pm w) !! id_thread_group (identity p) with
        | Some status =>
            _ ← reap_exited_process (with_state (Exited status) p) status; mret (Some (WEvent (SExited pid status)))
        | None =>
            if negb (bool_decide (pending_syscall p = None) && negb (kernel_context p)) then dispatch_process pid p
            else
              let '(delivery, s) := take_next_delivery true (p_signals p) (tables w) in
              let p := with_signals s p in
              match delivery with
              | DNone | Ignored _ => dispatch_process pid p
              | Deliver info act =>
                  r ← with_env (λ e, let '(ok, s, e) := signal_frame p info act e in ((ok, s), e));
                  let p := with_signals r.2 p in
                  if (r.1 : bool) then dispatch_process pid p
                  else if decide (si_signal info = SIGCHLD) then dispatch_process pid p
                  else p ← fatal_signal p (si_signal info); dispatch_process pid p
              | Exit info => p ← fatal_signal p (si_signal info); dispatch_process pid p
              | Stop info =>
                  (** The process is not put back into the table. *)
                  _ ← notify_child_event NOTIFY_DEPTH (id_parent (identity p)) (mkChildEvent pid (EvStopped (si_signal info)));
                  mret (Some (WEvent (SInterrupted pid 0)))
              | Continue _ =>
                  match p_state p with
                  | Stopped _ =>
                      let p := with_state Runnable p in
                      _ ← notify_child_event NOTIFY_DEPTH (id_parent (identity p)) (mkChildEvent pid EvContinued);
                      _ ← put_process pid p;
                      _ ← enqueue_runnable_pid pid current_cpu;
                      mret (Some (WEvent (SInterrupted pid 0)))
                  | _ => dispatch_process pid p
                  end
              end
        end
  end.

Fixpoint take_work (fuel : nat) (cpu_index : Z) : MP (option DispatchWork) :=
  match fuel with
  | O => mdiverge
  | S fuel' =>
      next ← dequeue_next_runnable_pid cpu_index;
      match next with
      | None => mret None
      | Some pid =>
          work ← take_next_process_for_pid pid cpu_index;
          match work with
          | Some work => mret (Some work)
          | None => take_work fuel' cpu_index
          end
      end
  end.

(** A round without work puts nothing into this queue. *)
Definition try_take_current_cpu_work (cpu_index : Z) : MP (option DispatchWork) :=
  w ← mget;
  take_work (S (match run_queues w !! cpu_index with Some q => length (rq_runnable q) | None => O end)) cpu_index.

(** [set_current_execution] of the processor. *)
Definition running_snapshot (p : KernelProcess) : RunningSnapshot :=
  mkSnapshot (id_pid (identity p)) (id_thread_group (identity p)) (id_parent (identity p)) (id_process_group (identity p)).
Definition set_current_execution (cpu : Z) (snapshot : option RunningSnapshot) : MP unit :=
  mmodify (λ w, mkWorld (pm w) (tables w) (pidfds w) (run_queues w)
                  (match snapshot with Some s => <[cpu := s]> (current w) | None => delete cpu (current w) end) (published w) (env w)).

Definition queue_synchronous_fault_signal (p : KernelProcess) (signal code : Z) : MP (bool * KernelProcess) :=
  w ← mget;
  match action (Z.to_nat signal) (p_signals p) (tables w) with
  | None => mret (false, with_state (Exited (128 + signal)) p)
  | Some act =>
      if decide (sa_handler act ≠ SIG_DFL ∧ sa_handler act ≠ SIG_IGN ∧ Z.land (blocked (p_signals p)) (sigbit signal) = 0) then
        p ← signals_enqueue p (kernel_info signal code);
        mret (true, with_state Runnable p)
      else p ← fatal_signal p signal; mret (false, p)
  end.

(** Why a process came back from user mode; an exception is classified by the
    architecture layer. *)
Inductive ExceptionClass :=
  | XPageFault (address : Z)
  | XSignal (signal : Z)
  | XFatal (signal : option Z).
Inductive RunReason :=
  | RunInterrupt (vector : Z)
  | RunException (vector error_code : Z) (class : ExceptionClass).

Definition finish_process (p : KernelProcess) (reason : RunReason) : MP ScheduleEvent :=
  let pid := id_pid (identity p) in
  handled ← (match reason with
             | RunException _ error_code (XPageFault address) => with_env (page_fault (task p) address error_code)
             | _ => mret false
             end);
  match reason with
  | RunException vector _ (XPageFault _) =>
      if (handled : bool) then _ ← requeue_process (with_state Runnable p); mret (SInterrupted pid vector)
      else
        p ← drain_queued_signals p;
        r ← (match reason with RunException _ error_code _ => queue_synchronous_fault_signal p SIGSEGV error_code | _ => mret (false, p) end);
        _ ← requeue_process r.2; mret (SInterrupted pid vector)
  | RunInterrupt vector =>
      p ← drain_queued_signals p; _ ← requeue_process (with_state Runnable p); mret (SInterrupted pid vector)
  | RunException vector error_code (XSignal signal) | RunException vector error_code (XFatal (Some signal)) =>
      p ← drain_queued_signals p;
      r ← queue_synchronous_fault_signal p signal error_code;
      _ ← requeue_process r.2; mret (SInterrupted pid vector)
  | RunException vector error_code (XFatal None) =>
      p ← drain_queued_signals p;
      _ ← requeue_process (with_state (Faulted vector error_code) p); mret (SFaulted pid vector error_code)
  end.

Inductive SyscallDisposition := DReturn (value : outcome SysErr.SysErr Z) | DExit (status : Z) | DExitGroup (status : Z).

Definition commit_pending_exec (p : KernelProcess) : MP (bool * KernelProcess) :=
  match pending_exec p with
  | None => mret (false, p)
  | Some new_task =>
      let old := task p in
      let p := with_task new_task (with_exec None p) in
      _ ← change_env (shm_replace old new_task (id_pid (identity p)));
      w ← mget;
      let '(s, t) := prepare_for_exec (p_signals p) (tables w) in
      _ ← mmodify (set_tables t);
      mret (true, with_result None (with_signals s p))
  end.

Definition return_word (value : outcome SysErr.SysErr Z) : Z :=
  match value with Ok v => v | Err e => SysErr.errno e mod 2 ^ 64 | _ => 0 end.

Definition finish_syscall_dispatch (p : KernelProcess) (number : Z) (disposition : SyscallDisposition) : MP ScheduleEvent :=
  let pid := id_pid (identity p) in
  _ ← disarm_futex_wait pid;
  match disposition with
  | DReturn value =>
      p ← (match p_state p with
           | Running =>
               r ← commit_pending_exec p;
               let p := with_result None (with_syscall None r.2) in
               _ ← (if (r.1 : bool) then mret () else change_env (set_return (task p) (return_word value)));
               mret (with_state Runnable p)
           | _ => mret p
           end);
      _ ← requeue_process p; mret (SSyscall pid number)
  | DExit status => _ ← requeue_process (with_state (Exited status) (with_syscall None p)); mret (SExited pid status)
  | DExitGroup status =>
      _ ← begin_thread_group_exit (id_thread_group (identity p)) pid status;
      _ ← requeue_process (with_state (Exited status) (with_syscall None p)); mret (SExited pid status)
  end.

Definition finish_kernel_block (p : KernelProcess) (block : ProcessBlock) : MP ScheduleEvent :=
  let pid := id_pid (identity p) in
  _ ← (match block with BFutex _ _ _ => mret () | _ => disarm_futex_wait pid end);
  p ← block_from_disposition pid p block;
  number ← mexpect (pending_syscall p);
  _ ← requeue_process p;
  mret (SSyscall pid number).

(** ** New processes *)

Definition u32_add (a b : Z) : Z := saturating_add u32_max a b.

Definition allocate_pid (requested : option Z) : MP Z :=
  w ← mget;
  let m := pm w in
  match requested with
  | Some pid =>
      if decide (pid = 0) then mthrow SysErr.Inval
      else if decide (is_Some (processes m !! pid) ∨ is_Some (zombies m !! pid) ∨ is_Some (running_cpu_of w pid)) then mthrow SysErr.Exists
      else
        _ ← (if decide (next_pid m <= pid) then modify_pm (set_next_pid (u32_add pid 1)) else mret ());
        mret pid
  | None => _ ← modify_pm (set_next_pid (u32_add (next_pid m) 1)); mret (next_pid m)
  end.

Definition insert_cloned_process (p : KernelProcess) : MP Z :=
  let pid := id_pid (identity p) in
  _ ← track_thread_group (id_thread_group (identity p)) pid;
  _ ← (if is_thread p then mret () else track_child_link (id_parent (identity p)) pid);
  _ ← put_process pid p;
  _ ← enqueue_runnable_pid pid (assigned_cpu p);
  mret pid.

(** [PidFdHandle::new] *)
Definition new_pidfd (pid : Z) : MP Z :=
  w ← mget;
  let handle := fresh (dom (pidfds w)) in
  _ ← mmodify (set_pidfds (<[handle := mkPidFd pid PAlive 1 WaitQueue_new]> (pidfds w)));
  mret handle.

(** [table] is the copy of the initial descriptor table; there may be no
    initial file system yet. *)
Definition spawn_task (has_fs : bool) (parent : option Z) (new_task cpu table : Z) : MP (option Z) :=
  w ← mget;
  let pid := next_pid (pm w) in
  _ ← modify_pm (set_next_pid (u32_add pid 1));
  _ ← track_child_link parent pid;
  _ ← track_thread_group pid pid;
  if negb has_fs then mret None
  else
    handle ← new_pidfd pid;
    let '(s, t) := SignalState_new (L := Z) (tables w) in
    _ ← mmodify (set_tables t);
    _ ← put_process pid (mkProcess (mkIdentity pid pid parent pid pid) handle new_task cpu false None None [] None None None 0 None table s None Runnable);
    _ ← change_env (shm_register new_task);
    _ ← enqueue_runnable_pid pid cpu;
    mret (Some pid).
End operations.
