(* ===== verification/ProcessProof.v ===== *)
(** * Processes: the indices and the run queues

    The sets of blocked processes hold exactly the processes that wait
    ([index_ok]), the published deadline is the first one, and a process that
    can run is in the queue of its processor ([queues_ok]). *)

From S2P Require Import Prelude Poll Errno Signal Process.

(** ** Ascending order *)

Lemma ascending_elem s x : x ∈ ascending s ↔ x ∈ s.
Proof. unfold ascending. by rewrite (merge_sort_Permutation Z.le), elem_of_elements. Qed.

Lemma ascending_nodup s : NoDup (ascending s).
Proof. unfold ascending. rewrite (merge_sort_Permutation Z.le). apply NoDup_elements. Qed.

Lemma ascending_sorted s : StronglySorted Z.le (ascending s).
Proof. unfold ascending. apply (StronglySorted_merge_sort Z.le). Qed.

Lemma first_key_None {A} (m : gmap Z A) : first_key m = None ↔ m = ∅.
Proof.
  unfold first_key. rewrite head_None. split; [|intros ->; rewrite dom_empty_L; done]. intros H. apply dom_empty_inv_L, elem_of_equiv_empty_L.
  intros x Hx. rewrite <-ascending_elem, H in Hx. by apply elem_of_nil in Hx.
Qed.

Lemma first_key_Some {A} (m : gmap Z A) k : first_key m = Some k ↔ is_Some (m !! k) ∧ ∀ x, is_Some (m !! x) → k <= x.
Proof.
  unfold first_key. rewrite <-elem_of_dom. setoid_rewrite <-elem_of_dom. setoid_rewrite <-ascending_elem. pose proof (ascending_sorted (dom m)) as Hs.
  destruct (ascending (dom m)) as [|y l] eqn:E; cbn.
  - split; [done|]. intros [H _]. by apply elem_of_nil in H.
  - apply StronglySorted_inv in Hs as [_ Hall]. rewrite Forall_forall in Hall. split.
    + intros [= ->]. split; [by left|]. intros x [->|Hx]%elem_of_cons; [lia|by apply Hall].
    + intros [[->|Hk]%elem_of_cons Hmin]; [done|]. f_equal. specialize (Hall k Hk). specialize (Hmin y ltac:(by left)). lia.
Qed.

(** ** Maps of sets *)

(** Cases that two equations rule out. *)
Ltac cases := cbn; repeat match goal with
  | |- _ ↔ _ => split
  | |- _ ∧ _ => split
  | |- ¬ _ => intros ?
  | |- _ → _ => intros ?
  | H : _ ∧ _ |- _ => destruct H
  | H : _ ∨ _ |- _ => destruct H
  end; cbn in *; simplify_eq; try done; first [congruence|tauto|intuition congruence|idtac].

Section index.
Context {K : Type} `{Countable K}.
Implicit Types m : gmap K (gset Z).

(** A map of sets that are not empty, and what is in them. *)
Definition listed m (k : K) (x : Z) : Prop := ∃ s, m !! k = Some s ∧ x ∈ s.
Definition no_empty m : Prop := ∀ k s, m !! k = Some s → s ≠ ∅.

Lemma listed_add m k x k' x' : listed (add_to k x m) k' x' ↔ (k' = k ∧ x' = x) ∨ listed m k' x'.
Proof.
  unfold listed, add_to. destruct (decide (k' = k)) as [->|Hne].
  - rewrite lookup_insert_eq. destruct (m !! k) as [s|]; cbn.
    + split; [intros (s' & [= <-] & Hx); set_solver|]. intros [[_ ->]|(s' & [= <-] & Hx)]; eexists; (split; [done|]); set_solver.
    + split; [intros (s' & [= <-] & Hx); set_solver|]. intros [[_ ->]|(s' & ? & Hx)]; [|done]. eexists. split; [done|]. set_solver.
  - rewrite lookup_insert_ne by done. split; [by right|]. intros [[? _]|Hx]; done.
Qed.

Lemma no_empty_add m k x : no_empty m → no_empty (add_to k x m).
Proof. intros Hm k' s. unfold add_to. intros [[<- <-]|[_ Hs]]%lookup_insert_Some; [set_solver|by eapply Hm]. Qed.

Lemma listed_remove m k x k' x' : listed (remove_from k x m) k' x' ↔ listed m k' x' ∧ ¬ (k' = k ∧ x' = x).
Proof.
  unfold listed, remove_from. destruct (m !! k) as [s|] eqn:Hs; [|split; [|tauto]; intros (s' & Hs' & Hx); split; [by exists s'|]; intros [-> _]; congruence].
  case_decide as He; (destruct (decide (k' = k)) as [->|Hne]; [rewrite ?lookup_delete_eq, ?lookup_insert_eq|rewrite ?lookup_delete_ne, ?lookup_insert_ne by done]).
  - split; [by intros (? & ? & _)|]. intros [(s' & Hs' & Hx) Hn]. simplify_eq. destruct Hn. split; [done|]. destruct (decide (x' = x)) as [|Hne]; [done|]. exfalso.
    assert (x' ∈ s ∖ {[x]}) as Hin by (apply elem_of_difference; split; [done|by rewrite elem_of_singleton]). rewrite He in Hin. by apply elem_of_empty in Hin.
  - split; [intros Hx; split; [done|tauto]|tauto].
  - split; [intros (s' & [= <-] & [Hx Hn]%elem_of_difference)|intros [(s' & Hs' & Hx) Hn]].
    + rewrite elem_of_singleton in Hn. split; [by exists s|tauto].
    + simplify_eq. eexists. split; [done|]. apply elem_of_difference. rewrite elem_of_singleton. tauto.
  - split; [intros Hx; split; [done|tauto]|tauto].
Qed.

Lemma no_empty_remove m k x : no_empty m → no_empty (remove_from k x m).
Proof.
  intros Hm k' s'. unfold remove_from. destruct (m !! k) as [s|]; [|apply Hm].
  case_decide; [intros [_ ?]%lookup_delete_Some; by eapply Hm|intros [[<- <-]|[_ ?]]%lookup_insert_Some; [done|by eapply Hm]].
Qed.

Lemma listed_key m k : no_empty m → is_Some (m !! k) ↔ ∃ x, listed m k x.
Proof.
  intros Hm. split; [intros [s Hs]|intros (x & s & Hs & _); by eexists]. pose proof (Hm k s Hs) as Hne. apply set_choose_L in Hne as [x Hx]. by exists x, s.
Qed.
End index.

(** ** What the indices say *)

Definition block_of (st : ProcessState) : option ProcessBlock := match st with Blocked b => Some b | _ => None end.
Definition blocks (m : gmap Z KernelProcess) : gmap Z ProcessBlock := omap (λ p, block_of (p_state p)) m.
#[global] Arguments blocks : simpl never.
Definition files_block (b : ProcessBlock) : bool := match b with BFile _ _ | BPoll _ => true | _ => false end.
Definition deadline_of (b : ProcessBlock) : option Z :=
  match b with BPoll d => d | BTimer t _ _ _ => Some t | BFutex _ _ d => d | _ => None end.
Definition key_of (b : ProcessBlock) : option FutexKey := match b with BFutex k _ _ => Some k | _ => None end.

(** The parts of the state that the indices leave alone. *)
Record Core := mkCore {
  c_next : Z; c_procs : gmap Z KernelProcess; c_zombies : gmap Z ZombieProcess; c_groups : gmap Z (gset Z); c_status : gmap Z Z;
  c_signals : gmap Z (list SignalInfo); c_children : gmap Z (gset Z); c_events : gmap Z (list ChildEvent); c_armed : gmap Z ArmedFutexWait;
  c_tables : gmap nat (list SignalAction); c_pidfds : gmap Z PidFdHandle; c_queues : gmap Z LocalRunQueue; c_current : gmap Z RunningSnapshot;
}.

Section proofs.
Context {Env : Type} `{!ProcEnv Env}.
Abbreviation W := (pworld Env).
Abbreviation MP := (M (pworld Env) SysErr.SysErr).
Implicit Types (w : W) (b : gmap Z ProcessBlock).

Definition core w : Core :=
  let m := pm w in
  mkCore (next_pid m) (processes m) (zombies m) (thread_groups m) (group_exit_status m) (queued_signals m) (parent_children m) (child_events m) (armed_futex_waits m)
    (tables w) (pidfds w) (run_queues w) (current w).

(** The index of deadlines: what is in it, and that the first deadline is
    known and published. *)
Record timers_ok (D : Z → Z → Prop) w : Prop := {
  tm_listed d pid : listed (blocked_timers (pm w)) d pid ↔ D d pid;
  tm_full : no_empty (blocked_timers (pm w));
  tm_next : next_timer_deadline_nanos (pm w) = first_key (blocked_timers (pm w));
  tm_published : published w = next_timer_deadline_nanos (pm w);
}.

Definition due_at b (d pid : Z) : Prop := ∃ x, b !! pid = Some x ∧ deadline_of x = Some d.
Definition waits_at b (k : FutexKey) (pid : Z) : Prop := ∃ x, b !! pid = Some x ∧ key_of x = Some k.
Definition waits_files b (pid : Z) : Prop := ∃ x, b !! pid = Some x ∧ files_block x = true.

Record index_ok b w : Prop := {
  ix_timers : timers_ok (due_at b) w;
  ix_files pid : pid ∈ blocked_files (pm w) ↔ waits_files b pid;
  ix_futexes k pid : listed (blocked_futexes (pm w)) k pid ↔ waits_at b k pid;
  ix_full : no_empty (blocked_futexes (pm w));
}.

Definition regs_ok b w : Prop := ∀ pid l, file_wait_registrations (pm w) !! pid = Some l → waits_files b pid.

Lemma timers_ext D D' w : (∀ d pid, D d pid ↔ D' d pid) → timers_ok D w → timers_ok D' w.
Proof. intros HD []. constructor; try done. intros d pid. by rewrite tm_listed0. Qed.

(** Only the indices and the files around them change. *)
Definition same_core w w' : Prop := core w' = core w.

Lemma with_env_rule {A} (f : Env → A * Env) w (Q : A → W → Prop) (Qe : SysErr.SysErr → W → Prop) :
  (∀ a e, f (env w) = (a, e) → Q a (set_env e w)) → wp_res (with_env f) w Q Qe.
Proof. intros HQ. unfold wp_res, wp, with_env. destruct (f (env w)) as [a e] eqn:Hf. cbn. by apply HQ. Qed.

Lemma change_env_rule f w (Q : unit → W → Prop) (Qe : SysErr.SysErr → W → Prop) :
  (∀ e, Q () (set_env e w)) → wp_res (change_env f) w Q Qe.
Proof. intros HQ. apply with_env_rule. intros [] e _. apply HQ. Qed.

Lemma modify_rule f w (Q : unit → W → Prop) (Qe : SysErr.SysErr → W → Prop) : Q () (set_pm (f (pm w)) w) → wp_res (modify_pm f) w Q Qe.
Proof. done. Qed.
Lemma get_process_rule pid w (Q : option KernelProcess → W → Prop) (Qe : SysErr.SysErr → W → Prop) :
  Q (processes (pm w) !! pid) w → wp_res (get_process pid) w Q Qe.
Proof. done. Qed.

(** *** Deadlines *)

Lemma next_inserted w d pid :
  next_timer_deadline_nanos (pm w) = first_key (blocked_timers (pm w)) →
  Some (match next_timer_deadline_nanos (pm w) with Some c => c `min` d | None => d end) = first_key (add_to d pid (blocked_timers (pm w))).
Proof.
  intros ->. symmetry. apply first_key_Some. unfold add_to.
  assert (∀ x, is_Some (<[d:=default ∅ (blocked_timers (pm w) !! d) ∪ {[pid]}]> (blocked_timers (pm w)) !! x) ↔ x = d ∨ is_Some (blocked_timers (pm w) !! x)) as Hk.
  { intros x. destruct (decide (x = d)) as [->|]; [rewrite lookup_insert_eq|rewrite lookup_insert_ne by done]; naive_solver. }
  setoid_rewrite Hk. destruct (first_key (blocked_timers (pm w))) as [c|] eqn:Hc.
  - apply first_key_Some in Hc as [Hc Hmin]. split.
    + destruct (Z.min_spec c d) as [[_ ->]|[_ ->]]; auto.
    + intros x [->|Hx]; [lia|]. specialize (Hmin x Hx). lia.
  - apply first_key_None in Hc. rewrite Hc. split; [by left|]. intros x [->|Hx]; [lia|]. by apply is_Some_None in Hx.
Qed.

Lemma note_inserted_rule w d (Q : unit → W → Prop) (Qe : SysErr.SysErr → W → Prop) :
  (let n := Some (match next_timer_deadline_nanos (pm w) with Some c => c `min` d | None => d end) in
   Q () (set_published n (set_pm (set_next_deadline n (pm w)) w))) → wp_res (note_timer_deadline_inserted d) w Q Qe.
Proof. done. Qed.

Lemma track_timer_rule w D pid d :
  timers_ok D w →
  wp_res (track_timer pid d) w
    (λ _ w', timers_ok (λ d' p', (d' = d ∧ p' = pid) ∨ D d' p') w' ∧ same_core w w' ∧
       blocked_files (pm w') = blocked_files (pm w) ∧ blocked_futexes (pm w') = blocked_futexes (pm w) ∧ file_wait_registrations (pm w') = file_wait_registrations (pm w))
    (λ _ _, False).
Proof.
  intros [Hl Hf Hn Hp]. unfold track_timer. wp_step. apply modify_rule. apply note_inserted_rule. cbn. split; [|done]. constructor; cbn.
  - intros d' p'. rewrite listed_add. by rewrite Hl.
  - by apply no_empty_add.
  - by apply next_inserted.
  - done.
Qed.

Lemma remove_keys (m : gmap Z (gset Z)) (d pid x : Z) :
  is_Some (remove_from d pid m !! x) ↔ is_Some (m !! x) ∧ ¬ (x = d ∧ ∃ s : gset Z, m !! d = Some s ∧ s ∖ {[pid]} = ∅).
Proof.
  unfold remove_from. destruct (m !! d) as [s|] eqn:Hs; [|naive_solver]. case_decide as He.
  - destruct (decide (x = d)) as [->|]; [rewrite lookup_delete_eq; split; [by intros []|naive_solver]|rewrite lookup_delete_ne by done; naive_solver].
  - destruct (decide (x = d)) as [->|]; [rewrite lookup_insert_eq, Hs; naive_solver|rewrite lookup_insert_ne by done; naive_solver].
Qed.

Lemma first_key_same {A B} (m : gmap Z A) (m' : gmap Z B) : (∀ x, is_Some (m !! x) ↔ is_Some (m' !! x)) → first_key m' = first_key m.
Proof. intros Hk. unfold first_key. do 2 f_equal. apply set_eq. intros x. rewrite !elem_of_dom. by rewrite Hk. Qed.

Lemma untrack_timer_rule w D pid d :
  timers_ok D w →
  wp_res (untrack_timer pid d) w
    (λ _ w', timers_ok (λ d' p', D d' p' ∧ ¬ (d' = d ∧ p' = pid)) w' ∧ same_core w w' ∧
       blocked_files (pm w') = blocked_files (pm w) ∧ blocked_futexes (pm w') = blocked_futexes (pm w) ∧ file_wait_registrations (pm w') = file_wait_registrations (pm w))
    (λ _ _, False).
Proof.
  intros [Hl Hf Hn Hp]. unfold untrack_timer. wp_step. wp_step.
  assert (∀ d' p', listed (remove_from d pid (blocked_timers (pm w))) d' p' ↔ D d' p' ∧ ¬ (d' = d ∧ p' = pid)) as Hl'. { intros d' p'. by rewrite listed_remove, Hl. }
  destruct (blocked_timers (pm w) !! d) as [s|] eqn:Hs.
  2: { wp_run. split; [|done]. assert (remove_from d pid (blocked_timers (pm w)) = blocked_timers (pm w)) as E by (unfold remove_from; by rewrite Hs). rewrite E in Hl'. constructor; done. }
  wp_step. apply modify_rule. destruct (decide (s ∖ {[pid]} = ∅)) as [He|He].
  - unfold note_timer_deadline_removed. wp_step. wp_step. cbn [set_pm pm]. case_decide as Hd.
    + cbn [set_blocked_timers next_timer_deadline_nanos] in Hd. unfold refresh_next_timer_deadline. wp_step. apply modify_rule. unfold publish_timer_deadline. wp_run. cbn. split; [|done].
      constructor; cbn; [done|by apply no_empty_remove|done|done].
    + cbn [set_blocked_timers next_timer_deadline_nanos] in Hd. wp_run. cbn. split; [|done]. constructor; cbn; [done|by apply no_empty_remove| |done].
      rewrite Hn in *. destruct (first_key (blocked_timers (pm w))) as [c|] eqn:Hc.
      * symmetry. apply first_key_Some in Hc as [Hc Hmin]. apply first_key_Some. setoid_rewrite remove_keys. split; [split; [done|]; intros [-> _]; done|]. intros x [Hx _]. by apply Hmin.
      * apply first_key_None in Hc. by rewrite Hc in Hs.
  - wp_run. cbn. split; [|done]. constructor; cbn; [done|by apply no_empty_remove| |done]. rewrite Hn. symmetry. apply first_key_same. intros x. rewrite remove_keys. naive_solver.
Qed.

(** *** Entering and leaving the indices *)

Lemma due_insert b pid x d p : b !! pid = None → due_at (<[pid := x]> b) d p ↔ (p = pid ∧ deadline_of x = Some d) ∨ due_at b d p.
Proof.
  intros Hb. unfold due_at. destruct (decide (p = pid)) as [->|]; [rewrite lookup_insert_eq, Hb|rewrite lookup_insert_ne by done]; naive_solver.
Qed.
Lemma due_delete b pid x d p : b !! pid = Some x → due_at (delete pid b) d p ↔ due_at b d p ∧ ¬ (p = pid ∧ deadline_of x = Some d).
Proof.
  intros Hb. unfold due_at. destruct (decide (p = pid)) as [->|]; [rewrite lookup_delete_eq, Hb|rewrite lookup_delete_ne by done]; naive_solver.
Qed.
Lemma waits_insert b pid x k p : b !! pid = None → waits_at (<[pid := x]> b) k p ↔ (p = pid ∧ key_of x = Some k) ∨ waits_at b k p.
Proof.
  intros Hb. unfold waits_at. destruct (decide (p = pid)) as [->|]; [rewrite lookup_insert_eq, Hb|rewrite lookup_insert_ne by done]; naive_solver.
Qed.
Lemma waits_delete b pid x k p : b !! pid = Some x → waits_at (delete pid b) k p ↔ waits_at b k p ∧ ¬ (p = pid ∧ key_of x = Some k).
Proof.
  intros Hb. unfold waits_at. destruct (decide (p = pid)) as [->|]; [rewrite lookup_delete_eq, Hb|rewrite lookup_delete_ne by done]; naive_solver.
Qed.
Lemma files_insert b pid x p : b !! pid = None → waits_files (<[pid := x]> b) p ↔ (p = pid ∧ files_block x = true) ∨ waits_files b p.
Proof.
  intros Hb. unfold waits_files. destruct (decide (p = pid)) as [->|]; [rewrite lookup_insert_eq, Hb|rewrite lookup_insert_ne by done]; naive_solver.
Qed.
Lemma files_delete b pid x p : b !! pid = Some x → waits_files (delete pid b) p ↔ waits_files b p ∧ ¬ (p = pid ∧ files_block x = true).
Proof.
  intros Hb. unfold waits_files. destruct (decide (p = pid)) as [->|]; [rewrite lookup_delete_eq, Hb|rewrite lookup_delete_ne by done]; naive_solver.
Qed.

(** The files and futexes of an index, with other deadlines. *)
Definition rest_ok b w : Prop :=
  (∀ pid, pid ∈ blocked_files (pm w) ↔ waits_files b pid) ∧ (∀ k pid, listed (blocked_futexes (pm w)) k pid ↔ waits_at b k pid) ∧ no_empty (blocked_futexes (pm w)).

Lemma index_split b w : index_ok b w ↔ timers_ok (due_at b) w ∧ rest_ok b w.
Proof. split; [intros []; done|]. intros (H1 & H2 & H3 & H4). by constructor. Qed.

(** The optional deadline of a block. *)
Lemma track_deadline_rule w D pid (o : option Z) :
  timers_ok D w →
  wp_res (match o with Some d => track_timer pid d | None => mret () end) w
    (λ _ w', timers_ok (λ d' p', (p' = pid ∧ o = Some d') ∨ D d' p') w' ∧ same_core w w' ∧
       blocked_files (pm w') = blocked_files (pm w) ∧ blocked_futexes (pm w') = blocked_futexes (pm w) ∧ file_wait_registrations (pm w') = file_wait_registrations (pm w))
    (λ _ _, False).
Proof.
  intros Ht. destruct o as [d|].
  - eapply wp_res_mono; [by apply track_timer_rule|cbv beta..]; [|done]. intros _ w' (H1 & H2). split; [|done]. eapply timers_ext; [|exact H1]. naive_solver.
  - wp_run. split; [|done]. eapply timers_ext; [|exact Ht]. naive_solver.
Qed.

Lemma untrack_deadline_rule w D pid (o : option Z) :
  timers_ok D w →
  wp_res (match o with Some d => untrack_timer pid d | None => mret () end) w
    (λ _ w', timers_ok (λ d' p', D d' p' ∧ ¬ (p' = pid ∧ o = Some d')) w' ∧ same_core w w' ∧
       blocked_files (pm w') = blocked_files (pm w) ∧ blocked_futexes (pm w') = blocked_futexes (pm w) ∧ file_wait_registrations (pm w') = file_wait_registrations (pm w))
    (λ _ _, False).
Proof.
  intros Ht. destruct o as [d|].
  - eapply wp_res_mono; [by apply untrack_timer_rule|cbv beta..]; [|done]. intros _ w' (H1 & H2). split; [|done]. eapply timers_ext; [|exact H1]. naive_solver.
  - wp_run. split; [|done]. eapply timers_ext; [|exact Ht]. naive_solver.
Qed.

Lemma track_rule w b pid x :
  index_ok b w → b !! pid = None →
  wp_res (track_blocked_process pid (Blocked x)) w
    (λ _ w', index_ok (<[pid := x]> b) w' ∧ same_core w w' ∧ file_wait_registrations (pm w') = file_wait_registrations (pm w)) (λ _ _, False).
Proof.
  intros (Ht & Hf & Hx & Hn)%index_split Hb.
  assert (∀ w1 o, blocked_timers (pm w1) = blocked_timers (pm w) → next_timer_deadline_nanos (pm w1) = next_timer_deadline_nanos (pm w) → published w1 = published w →
            same_core w w1 → file_wait_registrations (pm w1) = file_wait_registrations (pm w) → rest_ok (<[pid := x]> b) w1 → o = deadline_of x →
            wp_res (E := SysErr.SysErr) (match o with Some d => track_timer pid d | None => mret () end) w1
              (λ _ w', index_ok (<[pid := x]> b) w' ∧ same_core w w' ∧ file_wait_registrations (pm w') = file_wait_registrations (pm w)) (λ _ _, False)) as Hgo.
  { intros w1 o H1 H2 H3 H4 H5 [R1 [R2 R3]] Ho. eapply wp_res_mono; [apply (track_deadline_rule w1 (due_at b) pid o)|cbv beta..]; [|intros _ w' (T & C & F & X & G)|done].
    - destruct Ht. constructor; rewrite ?H1, ?H2, ?H3; done.
    - split; [|split; [unfold same_core in *; congruence|congruence]]. apply index_split. split; [|unfold rest_ok; rewrite F, X; done].
      eapply timers_ext; [|exact T]. intros d p. rewrite due_insert by done. rewrite Ho. done. }
  assert (∀ w1, blocked_files (pm w1) = blocked_files (pm w) → blocked_futexes (pm w1) = blocked_futexes (pm w) → files_block x = false → key_of x = None → rest_ok (<[pid := x]> b) w1) as Hr0.
  { intros w1 F X Hfx Hkx. split; [|split]; [intros p|intros k p|by rewrite X]; rewrite ?F, ?X, ?Hf, ?Hx, ?files_insert, ?waits_insert by done; cases. }
  assert (∀ w1, blocked_files (pm w1) = blocked_files (pm w) ∪ {[pid]} → blocked_futexes (pm w1) = blocked_futexes (pm w) → files_block x = true → key_of x = None → rest_ok (<[pid := x]> b) w1) as Hr1.
  { intros w1 F X Hfx Hkx. split; [|split]; [intros p|intros k p|by rewrite X].
    - rewrite F, elem_of_union, elem_of_singleton, Hf, files_insert by done. cases.
    - rewrite X, Hx, waits_insert by done. cases. }
  destruct x as [fd ev|o|  |c|sel api sp ip op|k bs o|t rq rm fl]; cbn [track_blocked_process].
  - apply modify_rule. apply (Hgo (set_pm _ w) None); try done. by apply Hr1.
  - wp_step. apply modify_rule. apply Hgo; try done. by apply Hr1.
  - apply (Hgo w None); try done. by apply Hr0.
  - apply (Hgo w None); try done. by apply Hr0.
  - apply (Hgo w None); try done. by apply Hr0.
  - wp_step. apply modify_rule. apply Hgo; try done. split; [|split]; cbn.
    + intros p. rewrite Hf, files_insert by done. cases.
    + intros k' p. rewrite listed_add, Hx, waits_insert by done. cases.
    + by apply no_empty_add.
  - apply (Hgo w (Some t)); try done. by apply Hr0.
Qed.

Lemma unregister_all_rule l w (Q : unit → W → Prop) (Qe : SysErr.SysErr → W → Prop) : (∀ e, Q () (set_env e w)) → wp_res (unregister_all l) w Q Qe.
Proof.
  revert w. induction l as [|[file i] l IH]; intros w HQ; cbn [unregister_all]; [wp_run; destruct w; apply (HQ env)|]. wp_step. apply change_env_rule. intros e.
  apply IH. intros e'. apply HQ.
Qed.

Lemma unregister_files_rule w pid :
  wp_res (unregister_file_wait_registrations pid) w
    (λ _ w', same_core w w' ∧ blocked_timers (pm w') = blocked_timers (pm w) ∧ next_timer_deadline_nanos (pm w') = next_timer_deadline_nanos (pm w) ∧ published w' = published w ∧
       blocked_files (pm w') = blocked_files (pm w) ∧ blocked_futexes (pm w') = blocked_futexes (pm w) ∧ file_wait_registrations (pm w') = delete pid (file_wait_registrations (pm w)))
    (λ _ _, False).
Proof.
  unfold unregister_file_wait_registrations. wp_step. wp_step. destruct (file_wait_registrations (pm w) !! pid) as [l|] eqn:Hl.
  - wp_step. apply modify_rule. apply unregister_all_rule. done.
  - wp_run. rewrite delete_id by done. done.
Qed.

(** Leaving the sets is leaving those of files and futexes, then that of
    deadlines. *)
Definition untrack_rest (pid : Z) (x : ProcessBlock) : MP unit :=
  match x with
  | BFile _ _ | BPoll _ => _ ← modify_pm (λ m, set_blocked_files (blocked_files m ∖ {[pid]}) m); unregister_file_wait_registrations pid
  | BFutex key _ _ => modify_pm (λ m, set_blocked_futexes (remove_from key pid (blocked_futexes m)) m)
  | _ => mret ()
  end.

Lemma untrack_split pid x w :
  untrack_blocked_process pid (Blocked x) w
  = (untrack_rest pid x ≫= λ _, match deadline_of x with Some d => untrack_timer pid d | None => mret () end) w.
Proof.
  destruct x as [fd ev|o|  |c|sel api sp ip op|k bs o|t rq rm fl]; cbn; try done; unfold mbind, M_bind, modify_pm, mmodify, mret, M_ret; cbn.
  by destruct (unregister_file_wait_registrations pid _) as [[[]| | |] ?].
Qed.

Lemma untrack_split_rule pid x w (Q : unit → W → Prop) (Qe : SysErr.SysErr → W → Prop) :
  wp_res (untrack_rest pid x ≫= λ _, match deadline_of x with Some d => untrack_timer pid d | None => mret () end) w Q Qe →
  wp_res (untrack_blocked_process pid (Blocked x)) w Q Qe.
Proof. unfold wp_res, wp. by rewrite untrack_split. Qed.

Definition same_timers w w' : Prop :=
  blocked_timers (pm w') = blocked_timers (pm w) ∧ next_timer_deadline_nanos (pm w') = next_timer_deadline_nanos (pm w) ∧ published w' = published w.

Lemma untrack_rest_rule w b pid x :
  rest_ok b w → regs_ok b w → b !! pid = Some x →
  wp_res (untrack_rest pid x) w (λ _ w', rest_ok (delete pid b) w' ∧ regs_ok (delete pid b) w' ∧ same_core w w' ∧ same_timers w w') (λ _ _, False).
Proof.
  intros (Hf & Hx & Hn) Hregs Hb.
  assert (∀ w1, blocked_files (pm w1) = blocked_files (pm w) → blocked_futexes (pm w1) = blocked_futexes (pm w) → file_wait_registrations (pm w1) = file_wait_registrations (pm w) →
            files_block x = false → key_of x = None → rest_ok (delete pid b) w1 ∧ regs_ok (delete pid b) w1) as Hr0.
  { intros w1 F X G Hfx Hkx. split; [split; [|split]; [intros p|intros k p|by rewrite X]; rewrite ?F, ?X, ?Hf, ?Hx, ?(files_delete _ _ x), ?(waits_delete _ _ x) by done; cases|].
    intros p l. rewrite G. intros Hl%Hregs. apply (files_delete _ _ x); [done|]. cases. }
  assert (∀ w1, blocked_files (pm w1) = blocked_files (pm w) ∖ {[pid]} → blocked_futexes (pm w1) = blocked_futexes (pm w) → file_wait_registrations (pm w1) = delete pid (file_wait_registrations (pm w)) →
            files_block x = true → key_of x = None → rest_ok (delete pid b) w1 ∧ regs_ok (delete pid b) w1) as Hr1.
  { intros w1 F X G Hfx Hkx. split; [split; [|split]; [intros p|intros k p|by rewrite X]|].
    - rewrite F, elem_of_difference, elem_of_singleton, Hf, (files_delete _ _ x) by done. cases.
    - rewrite X, Hx, (waits_delete _ _ x) by done. cases.
    - intros p l. rewrite G. intros [Hne Hl%Hregs]%lookup_delete_Some. apply (files_delete _ _ x); [done|]. cases. }
  destruct x as [fd ev|o|  |c|sel api sp ip op|k bs o|t rq rm fl]; cbn [untrack_rest].
  1,2: wp_step; apply modify_rule; (eapply wp_res_mono; [apply unregister_files_rule|cbv beta..]; [|done]); intros _ w1 (C & T1 & T2 & T3 & F & X & G);
    destruct (Hr1 w1) as [R1 R2]; try done; by repeat split.
  1,2,3,5: wp_step; destruct (Hr0 w) as [R1 R2]; try done; by repeat split.
  apply modify_rule. split; [|split; [|done]].
  - split; [|split]; cbn.
    + intros p. rewrite Hf, (files_delete _ _ (BFutex k bs o)) by done. cases.
    + intros k' p. rewrite listed_remove, Hx, (waits_delete _ _ (BFutex k bs o)) by done. cases.
    + by apply no_empty_remove.
  - intros p l Hl%Hregs. apply (files_delete _ _ (BFutex k bs o)); [done|]. cases.
Qed.

Lemma untrack_rule w b pid x :
  index_ok b w → regs_ok b w → b !! pid = Some x →
  wp_res (untrack_blocked_process pid (Blocked x)) w (λ _ w', index_ok (delete pid b) w' ∧ regs_ok (delete pid b) w' ∧ same_core w w') (λ _ _, False).
Proof.
  intros [Ht Hrest]%index_split Hregs Hb. apply untrack_split_rule. wp_step.
  eapply wp_res_mono; [by apply untrack_rest_rule|cbv beta..]; [|done]. intros _ w1 ((R1 & R2 & R3) & G & C & T1 & T2 & T3).
  eapply wp_res_mono; [apply (untrack_deadline_rule w1 (due_at b) pid (deadline_of x))|cbv beta..]; [|intros _ w' (T & C' & F & X & G')|done].
  - destruct Ht. constructor; rewrite ?T1, ?T2, ?T3; done.
  - split; [|split; [unfold regs_ok; by rewrite G'|unfold same_core in *; congruence]]. apply index_split. split; [|unfold rest_ok; by rewrite F, X].
    eapply timers_ext; [|exact T]. intros d p. rewrite due_delete by done. done.
Qed.

(** ** Run queues *)

Definition online w (cpu : Z) : Prop := is_Some (run_queues w !! cpu).
Definition queued w (cpu pid : Z) : Prop := ∃ q, run_queues w !! cpu = Some q ∧ pid ∈ rq_runnable q.
(** A queue has a process at most once, and its set is that of its list. *)
Definition queue_ok (q : LocalRunQueue) : Prop := NoDup (rq_runnable q) ∧ ∀ x, x ∈ rq_queued q ↔ x ∈ rq_runnable q.
Definition queues_ok w : Prop := ∀ cpu q, run_queues w !! cpu = Some q → queue_ok q.

Lemma queue_enqueue_ok pid q : queue_ok q → queue_ok (queue_enqueue pid q) ∧ ∀ x, x ∈ rq_runnable (queue_enqueue pid q) ↔ x ∈ rq_runnable q ∨ x = pid.
Proof.
  intros [Hn Hq]. unfold queue_enqueue. case_decide as Hp; cbn.
  - split; [done|]. intros x. split; [by left|]. intros [?| ->]; [done|by apply Hq].
  - assert (pid ∉ rq_runnable q) as Hout by (by rewrite <-Hq). split; [split; cbn|].
    + apply NoDup_app. split; [done|]. split; [|apply NoDup_singleton]. intros x Hx ->%list_elem_of_singleton. done.
    + intros x. rewrite elem_of_union, elem_of_singleton, elem_of_app, list_elem_of_singleton, Hq. done.
    + intros x. by rewrite elem_of_app, list_elem_of_singleton.
Qed.

Lemma queue_dequeue_ok q pid q' : queue_ok q → queue_dequeue q = Some (pid, q') → queue_ok q' ∧ rq_runnable q = pid :: rq_runnable q'.
Proof.
  intros [Hn Hq]. unfold queue_dequeue. destruct (rq_runnable q) as [|x l] eqn:Hl; intros [= <- <-]. cbn. split; [|done]. apply NoDup_cons in Hn as [Hx Hn].
  split; [done|]. intros y. cbn. rewrite elem_of_difference, elem_of_singleton, Hq, elem_of_cons. naive_solver.
Qed.

(** What entering a queue changes. *)
Record enqueued (pid cpu : Z) w w' : Prop := {
  nq_ok : queues_ok w';
  nq_online c : online w' c ↔ online w c;
  nq_queued c x : queued w' c x ↔ queued w c x ∨ (c = cpu ∧ x = pid);
}.

Lemma enqueue_rule here w pid cpu (Q : unit → W → Prop) (Qe : SysErr.SysErr → W → Prop) :
  queues_ok w → online w cpu → (∀ qs, enqueued pid cpu w (set_run_queues qs w) → Q () (set_run_queues qs w)) →
  wp_res (enqueue_runnable_pid here pid cpu) w Q Qe.
Proof.
  intros Hqs [q Hq] HQ. unfold enqueue_runnable_pid. wp_step. wp_step. rewrite decide_True by (by eexists). rewrite Hq. wp_step. apply HQ.
  destruct (queue_enqueue_ok pid q) as [Hok Hin]; [by eapply Hqs|]. constructor.
  - intros c qc. cbn. intros [[<- <-]|[_ Hc]]%lookup_insert_Some; [done|by eapply Hqs].
  - intros c. unfold online. cbn. rewrite lookup_insert_is_Some. destruct (decide (c = cpu)) as [->|]; [|naive_solver]. rewrite Hq. naive_solver.
  - intros c x. unfold queued. cbn. destruct (decide (c = cpu)) as [->|Hne].
    + rewrite lookup_insert_eq, Hq. split.
      * intros (q' & [= <-] & Hx). apply Hin in Hx as [Hx| ->]; [left; by exists q|by right].
      * intros [(q' & [= <-] & Hx)|[_ ->]]; eexists; (split; [done|]); apply Hin; auto.
    + rewrite lookup_insert_ne by done. naive_solver.
Qed.
End proofs.
