(* ===== verification/ProcessWake.v ===== *)
(** * Processes: the invariant, and waking up

    [inv] says that a process that can run is in the queue of its processor and
    that a process that sleeps is where its wakers look.  The effect of waking
    futexes and of expired deadlines is given exactly. *)

From S2P Require Import Prelude Poll Errno Signal Process ProcessProof.

Lemma blocks_put m pid p : blocks (<[pid := p]> m) = match block_of (p_state p) with Some x => <[pid := x]> (blocks m) | None => delete pid (blocks m) end.
Proof.
  unfold blocks. destruct (block_of (p_state p)) as [x|] eqn:Hb; [by rewrite omap_insert, Hb|]. rewrite omap_insert, Hb. done.
Qed.
Lemma blocks_delete m pid : blocks (delete pid m) = delete pid (blocks m).
Proof. unfold blocks. by rewrite omap_delete. Qed.
Lemma blocks_lookup m pid : blocks m !! pid = p ← m !! pid; block_of (p_state p).
Proof. unfold blocks. by rewrite lookup_omap. Qed.

(** What the wakers write. *)
Definition woken (r : BlockResult) (p : KernelProcess) : KernelProcess := with_state Runnable (with_result (Some r) p).
(** [f] on the processes of a list. *)
Definition change_in {A} (f : A → A) (l : list Z) (m : gmap Z A) : gmap Z A := map_imap (λ pid p, Some (if decide (pid ∈ l) then f p else p)) m.

Lemma change_in_lookup {A} (f : A → A) l m pid : change_in f l m !! pid = (λ p, if decide (pid ∈ l) then f p else p) <$> m !! pid.
Proof. unfold change_in. rewrite map_lookup_imap. by destruct (m !! pid). Qed.
Lemma change_in_nil {A} (f : A → A) m : change_in f [] m = m.
Proof. apply map_eq. intros i. rewrite change_in_lookup. destruct (m !! i); cbn; [|done]. rewrite decide_False; [done|]. by apply not_elem_of_nil. Qed.
Lemma change_in_cons {A} (f : A → A) pid l m p :
  m !! pid = Some p → pid ∉ l → change_in f l (<[pid := f p]> m) = change_in f (pid :: l) m.
Proof.
  intros Hp Hl. apply map_eq. intros i. rewrite !change_in_lookup. destruct (decide (i = pid)) as [->|Hne].
  - rewrite lookup_insert_eq, Hp. cbn. rewrite decide_False by done. rewrite decide_True; [done|by left].
  - rewrite lookup_insert_ne by done. destruct (m !! i); cbn; [|done]. f_equal. apply decide_ext. rewrite elem_of_cons. naive_solver.
Qed.

Lemma take_elem {A} (x : A) n l : x ∈ take n l → x ∈ l.
Proof. intros (i & Hi & _)%elem_of_take. by eapply list_elem_of_lookup_2. Qed.

Lemma nodup_take {A} n (l : list A) : NoDup l → NoDup (take n l).
Proof. intros H. rewrite <-(take_drop n l) in H. by apply NoDup_app in H as [? _]. Qed.

Lemma filter_agree {A} (P Q : A → Prop) `{!∀ x, Decision (P x), !∀ x, Decision (Q x)} (l : list A) : (∀ x, x ∈ l → P x ↔ Q x) → filter P l = filter Q l.
Proof.
  induction l as [|x l IH]; intros Hag; [done|]. pose proof (Hag x ltac:(by left)) as Hx. rewrite !filter_cons, IH by (intros y Hy; apply Hag; by right).
  repeat case_decide; tauto.
Qed.

Lemma filter_sorted {A} (R : relation A) (P : A → Prop) `{!∀ x, Decision (P x)} (l : list A) : StronglySorted R l → StronglySorted R (filter P l).
Proof.
  induction 1 as [|x l Hs IH Hx]; [constructor|]. rewrite filter_cons. case_decide; [|done]. constructor; [done|]. rewrite Forall_forall in *. intros y [_ Hy]%list_elem_of_filter. by apply Hx.
Qed.

(** Two ascending lists with the same elements. *)
Lemma ascending_filter (P Q : Z → Prop) `{!∀ x, Decision (P x), !∀ x, Decision (Q x)} (s t : gset Z) :
  (∀ x, x ∈ s ∧ P x ↔ x ∈ t ∧ Q x) → filter P (ascending s) = filter Q (ascending t).
Proof.
  intros Hag. apply (StronglySorted_unique Z.le); [apply filter_sorted, ascending_sorted..|].
  apply NoDup_Permutation; [apply NoDup_filter, ascending_nodup..|]. intros x. rewrite !list_elem_of_filter, !ascending_elem. specialize (Hag x). tauto.
Qed.

Section proofs.
Context {Env : Type} `{!ProcEnv Env}.
Abbreviation W := (pworld Env).
Abbreviation MP := (M (pworld Env) SysErr.SysErr).
Context (here : Z).
Implicit Types (w : W) (P : gmap Z KernelProcess) (b : gmap Z ProcessBlock).

(** ** The invariant *)

Record proc_ok w (pid : Z) (p : KernelProcess) : Prop := {
  pk_id : id_pid (identity p) = pid;
  pk_cpu : online w (assigned_cpu p);
  pk_state : match p_state p with Runnable => queued w (assigned_cpu p) pid | Stopped _ | Blocked _ => True | _ => False end;
  pk_pidfd : is_Some (pidfds w !! p_pidfd p);
}.

(** What a queue may hold. *)
Definition runs P (cpu pid : Z) : Prop := ∃ p, P !! pid = Some p ∧ p_state p = Runnable ∧ assigned_cpu p = cpu.

Record inv_on P b w : Prop := {
  iv_queues : queues_ok w;
  iv_procs pid p : P !! pid = Some p → proc_ok w pid p;
  iv_index : index_ok b w;
  iv_regs : regs_ok b w;
  iv_zombies pid z : zombies (pm w) !! pid = Some z → is_Some (pidfds w !! z_pidfd z);
  iv_sound cpu pid : queued w cpu pid → runs P cpu pid;
}.
Definition inv w : Prop := inv_on (processes (pm w)) (blocks (processes (pm w))) w.

(** The parts of the core that waking leaves alone. *)
Definition rest w : Core :=
  let m := pm w in
  mkCore (next_pid m) ∅ (zombies m) (thread_groups m) (group_exit_status m) (queued_signals m) (parent_children m) (child_events m) (armed_futex_waits m)
    (tables w) (pidfds w) ∅ (current w).
Definition same_rest w w' : Prop := rest w' = rest w ∧ ∀ c, online w' c ↔ online w c.

Lemma core_procs w w' : same_core w w' → processes (pm w') = processes (pm w).
Proof. unfold same_core, core. by intros [=]. Qed.
Lemma core_queues w w' : same_core w w' → run_queues w' = run_queues w.
Proof. unfold same_core, core. by intros [=]. Qed.
Lemma core_pidfds w w' : same_core w w' → pidfds w' = pidfds w.
Proof. unfold same_core, core. by intros [=]. Qed.
Lemma core_zombies w w' : same_core w w' → zombies (pm w') = zombies (pm w).
Proof. unfold same_core, core. by intros [=]. Qed.

Lemma core_rest w w' : same_core w w' → same_rest w w'.
Proof. intros Hc. split; [|intros c; unfold online; by rewrite (core_queues w w')]. unfold same_core, core in Hc. unfold rest. cbn in *. congruence. Qed.
Lemma same_rest_refl w : same_rest w w.
Proof. done. Qed.
Lemma same_rest_trans w1 w2 w3 : same_rest w1 w2 → same_rest w2 w3 → same_rest w1 w3.
Proof. intros [H1 H2] [H3 H4]. split; [congruence|]. intros c. by rewrite H4. Qed.

Lemma proc_ok_core w w' pid p : same_core w w' → proc_ok w pid p → proc_ok w' pid p.
Proof. intros Hc []. constructor; unfold online, queued in *; by rewrite ?(core_queues w w'), ?(core_pidfds w w'). Qed.

Lemma inv_core P b b' w w' : same_core w w' → index_ok b' w' → regs_ok b' w' → inv_on P b w → inv_on P b' w'.
Proof.
  intros Hc Hi Hr []. constructor; try done.
  - unfold queues_ok in *. by rewrite (core_queues w w').
  - intros pid p Hp. eapply proc_ok_core; [done|]. by apply iv_procs0.
  - intros pid z. rewrite (core_zombies w w'), (core_pidfds w w') by done. apply iv_zombies0.
  - intros cpu pid. unfold queued. rewrite (core_queues w w') by done. apply iv_sound0.
Qed.

(** What the indices are. *)
Definition view w := (blocked_timers (pm w), next_timer_deadline_nanos (pm w), published w, blocked_files (pm w), blocked_futexes (pm w), file_wait_registrations (pm w)).

Lemma index_view b w w' : view w' = view w → index_ok b w → index_ok b w'.
Proof. unfold view. intros [= H1 H2 H3 H4 H5 _] [[] Hf Hx Hn]. constructor; [constructor|..]; rewrite ?H1, ?H2, ?H3, ?H4, ?H5; done. Qed.
Lemma regs_view b w w' : view w' = view w → regs_ok b w → regs_ok b w'.
Proof. unfold view, regs_ok. intros [= _ _ _ _ _ ->]. done. Qed.

Lemma proc_ok_grow w w' pid p :
  (∀ c, online w c → online w' c) → (∀ c x, queued w c x → queued w' c x) → (∀ h, is_Some (pidfds w !! h) → is_Some (pidfds w' !! h)) →
  proc_ok w pid p → proc_ok w' pid p.
Proof. intros Ho Hq Hf []. constructor; auto. destruct (p_state p); auto. Qed.

Lemma inv_same P b w w' :
  run_queues w' = run_queues w → pidfds w' = pidfds w → zombies (pm w') = zombies (pm w) → view w' = view w → inv_on P b w → inv_on P b w'.
Proof.
  intros Hq Hf Hz Hv []. constructor.
  - unfold queues_ok in *. by rewrite Hq.
  - intros pid p Hp. apply iv_procs0 in Hp. revert Hp. apply proc_ok_grow; unfold online, queued; by rewrite ?Hq, ?Hf.
  - by apply (index_view _ w).
  - by apply (regs_view _ w).
  - intros pid z. rewrite Hz, Hf. apply iv_zombies0.
  - intros cpu pid. unfold queued. rewrite Hq. apply iv_sound0.
Qed.

(** A process that can run again: the blocks lose it, its queue has it. *)
Lemma inv_woken w pid p p' qs b :
  let w2 := set_pm (set_processes (<[pid := p']> (processes (pm w))) (pm w)) w in
  inv_on (delete pid (processes (pm w))) b w →
  id_pid (identity p') = pid → p_state p' = Runnable → is_Some (pidfds w !! p_pidfd p') → assigned_cpu p' = assigned_cpu p → online w (assigned_cpu p) →
  enqueued pid (assigned_cpu p) w2 (set_run_queues qs w2) → inv_on (<[pid := p']> (processes (pm w))) b (set_run_queues qs w2).
Proof.
  intros w2 [] Hid Hst Hpf Hcpu Hon []. constructor; [done|..].
  - intros i q. intros [[<- <-]|[Hne Hq]]%lookup_insert_Some.
    + constructor; [done|by rewrite Hcpu; apply nq_online| |done]. rewrite Hst, Hcpu. apply nq_queued. by right.
    + eapply proc_ok_grow; [| | |apply (iv_procs0 i q); by rewrite lookup_delete_ne]; [intros c; apply nq_online|intros c x Hx; apply nq_queued; by left|done].
  - by apply (index_view _ w).
  - by apply (regs_view _ w).
  - done.
  - intros c i [(q & [Hne Hq]%lookup_delete_Some & Hr)%iv_sound0|[-> ->]]%nq_queued.
    + exists q. by rewrite lookup_insert_ne.
    + exists p'. by rewrite lookup_insert_eq.
Qed.

Lemma inv_drop w pid P b : inv_on P b w → (∀ c, ¬ runs P c pid) → inv_on (delete pid P) b w.
Proof.
  intros [] Hn. constructor; try done; [intros i q [_ Hq]%lookup_delete_Some; by apply iv_procs0|].
  intros c i Hi%iv_sound0. destruct (decide (i = pid)) as [->|Hne]; [by destruct (Hn c)|]. destruct Hi as (q & Hq). exists q. by rewrite lookup_delete_ne.
Qed.

Lemma not_runs P pid p c : P !! pid = Some p → p_state p ≠ Runnable → ¬ runs P c pid.
Proof. intros Hp Hst (q & Hq & Hr & _). congruence. Qed.

(** The steps that take a blocked process out of the sets and make it run. *)
Definition unlisted w pid : Prop := inv_on (delete pid (processes (pm w))) (delete pid (blocks (processes (pm w)))) w.

Lemma untracked_rule w pid p x (Q : unit → W → Prop) (Qe : SysErr.SysErr → W → Prop) :
  inv w → processes (pm w) !! pid = Some p → p_state p = Blocked x →
  (∀ w', unlisted w' pid → same_rest w w' → processes (pm w') = processes (pm w) → Q () w') → wp_res (untrack_blocked_process pid (p_state p)) w Q Qe.
Proof.
  intros Hinv Hp Hst HQ. rewrite Hst. assert (blocks (processes (pm w)) !! pid = Some x) as Hb by (rewrite blocks_lookup, Hp; cbn; by rewrite Hst).
  eapply wp_res_mono; [apply (untrack_rule w _ pid x (iv_index _ _ _ Hinv) (iv_regs _ _ _ Hinv) Hb)|cbv beta..]; [|done]. intros [] w1 (Hi & Hr & Hc).
  apply HQ; [|by apply core_rest|by apply core_procs]. unfold unlisted. rewrite (core_procs w w1) by done. apply inv_drop; [by eapply inv_core|].
  intros c. apply (not_runs _ _ p); [done|by rewrite Hst].
Qed.

Lemma rerun_rule w pid p p' (Q : unit → W → Prop) (Qe : SysErr.SysErr → W → Prop) :
  unlisted w pid → proc_ok w pid p → identity p' = identity p → p_state p' = Runnable → p_pidfd p' = p_pidfd p → assigned_cpu p' = assigned_cpu p →
  (∀ w', inv w' → same_rest w w' → processes (pm w') = <[pid := p']> (processes (pm w)) → Q () w') →
  wp_res (enqueue_runnable_pid here pid (assigned_cpu p)) (set_pm (set_processes (<[pid := p']> (processes (pm w))) (pm w)) w) Q Qe.
Proof.
  intros Hinv [Pid Pcpu _ Ppf] Hid Hrun Hpf Hcpu HQ. apply enqueue_rule; [apply (iv_queues _ _ _ Hinv)|done|]. intros qs Henq. apply HQ; [|split|done].
  - unfold inv. cbn. rewrite blocks_put, Hrun. apply (inv_woken w pid p p' qs); try done; congruence.
  - done.
  - intros c. apply (nq_online _ _ _ _ Henq).
Qed.

Lemma proc_ok_rest w w' pid p : same_rest w w' → p_state p ≠ Runnable → proc_ok w pid p → proc_ok w' pid p.
Proof.
  intros [Hr Ho] Hn []. constructor; [done|by apply Ho|by destruct (p_state p)|]. unfold rest in Hr. injection Hr as ??????????. congruence.
Qed.

Lemma wake_process_rule w pid p x r (Q : unit → W → Prop) (Qe : SysErr.SysErr → W → Prop) :
  inv w → processes (pm w) !! pid = Some p → p_state p = Blocked x →
  (∀ w', inv w' → same_rest w w' → processes (pm w') = <[pid := woken r p]> (processes (pm w)) → Q () w') →
  wp_res (wake_process_with_result here pid r) w Q Qe.
Proof.
  intros Hinv Hp Hst HQ. unfold wake_process_with_result. wp_step. apply get_process_rule. rewrite Hp. cbn.
  replace (is_blocked_state (p_state p)) with true by (by rewrite Hst). cbn [negb]. wp_step. eapply untracked_rule; [done..|]. intros w1 H1 R1 P1.
  wp_step. apply get_process_rule. rewrite P1, Hp. wp_step. apply modify_rule.
  apply rerun_rule; [done| |done..|]; [eapply proc_ok_rest; [done|by rewrite Hst|by apply (iv_procs _ _ _ Hinv)]|].
  intros w2 H2 R2 P2. apply HQ; [done|by eapply same_rest_trans|]. by rewrite P2, P1.
Qed.

(** ** Futexes *)

Definition waits_in P key bitset (pid : Z) : bool := match P !! pid with Some p => futex_waits key bitset (p_state p) | None => false end.
(** The processes that sleep on a futex, and those that are about to. *)
Definition waiting_for P key bitset : list Z := filter (λ pid, waits_in P key bitset pid = true) (ascending (dom P)).
Definition armed_for (m : gmap Z ArmedFutexWait) key bitset : list Z :=
  filter (λ pid, match m !! pid with Some a => armed_matches key bitset a | None => false end = true) (ascending (dom m)).

Lemma filter_other P pid p key bitset (l : list Z) :
  pid ∉ l → filter (λ i, waits_in (<[pid := p]> P) key bitset i = true) l = filter (λ i, waits_in P key bitset i = true) l.
Proof.
  intros Hl. apply filter_agree. intros i Hi. unfold waits_in. rewrite lookup_insert_ne; [done|]. by intros ->.
Qed.

Lemma wake_waiters_rule key bitset count l woke w :
  inv w → NoDup l →
  wp_res (wake_waiters here key bitset count l woke) w
    (λ n w', let B := take (count - woke) (filter (λ pid, waits_in (processes (pm w)) key bitset pid = true) l) in
       n = (woke + length B)%nat ∧ inv w' ∧ same_rest w w' ∧ processes (pm w') = change_in (woken (RFutex true false)) B (processes (pm w)))
    (λ _ _, False).
Proof.
  revert woke w. induction l as [|pid l IH]; intros woke w Hinv Hnd; cbn [wake_waiters].
  { wp_run. rewrite filter_nil, take_nil. cbn. rewrite change_in_nil. split; [lia|done]. }
  apply NoDup_cons in Hnd as [Hout Hnd].
  case_decide as Hc. { wp_run. replace (count - woke)%nat with 0%nat by lia. rewrite take_0, change_in_nil. cbn [length]. split; [lia|done]. }
  wp_step. apply get_process_rule.
  assert (waits_in (processes (pm w)) key bitset pid = match processes (pm w) !! pid with Some p => futex_waits key bitset (p_state p) | None => false end) as Hw by done.
  destruct (processes (pm w) !! pid) as [p|] eqn:Hp.
  2: { rewrite filter_cons_False by (by rewrite Hw). by apply IH. }
  destruct (futex_waits key bitset (p_state p)) eqn:Hf; cbn [negb].
  2: { rewrite filter_cons_False by (by rewrite Hw). by apply IH. }
  rewrite filter_cons_True by done. destruct (p_state p) as [| | |x| |] eqn:Hst; try done. rewrite <-Hst.
  wp_step. eapply untracked_rule; [done..|]. intros w1 H1 R1 P1. wp_step. apply get_process_rule. rewrite P1, Hp. wp_step. apply modify_rule. wp_step.
  apply rerun_rule; [done| |done..|]; [eapply proc_ok_rest; [done|by rewrite Hst|by apply (iv_procs _ _ _ Hinv)]|].
  intros w2 H2 R2 P2. eapply wp_res_mono; [by apply IH|cbv beta..]; [|done]. intros n w3. rewrite P2, P1, filter_other by done.
  replace (count - woke)%nat with (S (count - S woke)) by lia. cbn [take length]. intros (Hn & H3 & R3 & P3). 
  split; [lia|]. split; [done|].
  split; [eapply same_rest_trans; [eapply same_rest_trans; [exact R1|exact R2]|exact R3]|]. rewrite P3. apply (change_in_cons (woken (RFutex true false))); [done|]. intros Hin. destruct Hout.
  apply take_elem, list_elem_of_filter in Hin as [_ Hin]. done.
Qed.

(** The other half: processes that are about to sleep. *)
Lemma mark_armed_rule f key bitset l n w :
  NoDup l → (∀ pid, pid ∈ l → match armed_futex_waits (pm w) !! pid with Some a => armed_matches key bitset a | None => false end = true) →
  wp_res (mark_armed f key bitset l n) w
    (λ k w', k = (n + length l)%nat ∧ w' = set_pm (set_armed (change_in f l (armed_futex_waits (pm w))) (pm w)) w) (λ _ _, False).
Proof.
  revert n w. induction l as [|pid l IH]; intros n w Hnd Hl; cbn [mark_armed].
  { wp_run. rewrite change_in_nil. split; [cbn; lia|]. by destruct w as [[]]. }
  apply NoDup_cons in Hnd as [Hout Hnd]. pose proof (Hl pid ltac:(by left)) as Hpid. wp_step. wp_step. destruct (armed_futex_waits (pm w) !! pid) as [a|] eqn:Ha; [|done].
  rewrite Hpid. wp_step. apply modify_rule. eapply wp_res_mono; [apply IH; [done|]|cbv beta..]; [| |done].
  - intros i Hi. cbn. rewrite lookup_insert_ne by (by intros ->). apply Hl. by right.
  - intros k w' [-> ->]. split; [cbn [length]; lia|]. cbn. by rewrite (change_in_cons f pid l _ a).
Qed.

Lemma wake_armed_rule key bitset count w :
  wp_res (wake_armed_futex_waits key bitset count) w
    (λ n w', let A := take count (armed_for (armed_futex_waits (pm w)) key bitset) in
       n = length A ∧ w' = set_pm (set_armed (change_in (λ a, mkArmed (ar_key a) (ar_bitset a) true) A (armed_futex_waits (pm w))) (pm w)) w) (λ _ _, False).
Proof.
  unfold wake_armed_futex_waits. case_decide as Hc.
  { wp_run. rewrite Hc, take_0, change_in_nil. split; [done|]. by destruct w as [[]]. }
  wp_step. wp_step. eapply wp_res_mono; [apply mark_armed_rule|cbv beta..]; [| |done|done].
  - apply nodup_take, NoDup_filter, ascending_nodup.
  - intros pid Hin%take_elem. by apply list_elem_of_filter in Hin as [? _].
Qed.

Lemma waits_listed w key bitset x :
  index_ok (blocks (processes (pm w))) w → waits_in (processes (pm w)) key bitset x = true → listed (blocked_futexes (pm w)) key x.
Proof.
  intros Hi Hf. unfold waits_in in Hf. destruct (processes (pm w) !! x) as [p|] eqn:Hp; [|done]. destruct (p_state p) as [| | |[]| |] eqn:Hst; try done.
  cbn in Hf. apply andb_prop in Hf as [Hk _]. apply bool_decide_eq_true in Hk as ->. apply (ix_futexes _ _ Hi).
  eexists. split; [rewrite blocks_lookup, Hp; cbn; by rewrite Hst|done].
Qed.

Lemma waiting_index w key bitset s :
  index_ok (blocks (processes (pm w))) w → blocked_futexes (pm w) !! key = Some s →
  filter (λ pid, waits_in (processes (pm w)) key bitset pid = true) (ascending s) = waiting_for (processes (pm w)) key bitset.
Proof.
  intros Hi Hs. apply ascending_filter. intros x. rewrite elem_of_dom. split; (intros [Hx Hf]; split; [|done]).
  - unfold waits_in in Hf. destruct (processes (pm w) !! x) eqn:E; [by eexists|done].
  - apply (waits_listed w) in Hf as (s' & Hs' & Hx'); [congruence|done].
Qed.

Lemma waiting_none w key bitset :
  index_ok (blocks (processes (pm w))) w → blocked_futexes (pm w) !! key = None → waiting_for (processes (pm w)) key bitset = [].
Proof.
  intros Hi Hs. destruct (waiting_for _ _ _) as [|x l] eqn:E; [done|]. exfalso.
  assert (x ∈ waiting_for (processes (pm w)) key bitset) as Hx by (rewrite E; by left). apply list_elem_of_filter in Hx as [Hf _].
  apply (waits_listed w) in Hf as (s' & Hs' & _); [congruence|done].
Qed.

(** The state after a wake-up: who was about to sleep is told, who slept runs. *)
Record futex_woken (key : FutexKey) (bitset : Z) (count n : nat) w w' : Prop := {
  fw_count : n = (count `min` (length (armed_for (armed_futex_waits (pm w)) key bitset) + length (waiting_for (processes (pm w)) key bitset)))%nat;
  fw_armed : armed_futex_waits (pm w') =
    change_in (λ a, mkArmed (ar_key a) (ar_bitset a) true) (take count (armed_for (armed_futex_waits (pm w)) key bitset)) (armed_futex_waits (pm w));
  fw_woken : processes (pm w') =
    change_in (woken (RFutex true false))
      (take (count - length (armed_for (armed_futex_waits (pm w)) key bitset)) (waiting_for (processes (pm w)) key bitset)) (processes (pm w));
  fw_rest : same_rest (set_pm (set_armed (armed_futex_waits (pm w')) (pm w)) w) w';
}.

Lemma inv_armed w m : inv w → inv (set_pm (set_armed m (pm w)) w).
Proof. by apply inv_same. Qed.

Lemma wake_futex_rule key bitset count w :
  inv w → wp_res (wake_futex here key bitset count) w (λ n w', inv w' ∧ futex_woken key bitset count n w w') (λ _ _, False).
Proof.
  intros Hinv. unfold wake_futex. wp_step. eapply wp_res_mono; [apply wake_armed_rule|cbv beta zeta..]; [|done]. intros n w1 [-> ->].
  set (A := armed_for _ _ _). set (w1 := set_pm _ _). assert (inv w1) as Hinv1 by (by apply inv_armed). rewrite length_take. case_decide as Hc.
  { wp_run. split; [done|]. split; [fold A; lia|done| |done]. fold A. replace (count - length A)%nat with 0%nat by lia. by rewrite take_0, change_in_nil. }
  wp_step. wp_step. cbn [blocked_futexes pm set_pm set_armed w1]. destruct (blocked_futexes (pm w) !! key) as [s|] eqn:Hs.
  - eapply wp_res_mono; [apply wake_waiters_rule; [done|apply ascending_nodup]|cbv beta zeta..]; [|done]. intros n w2 (Hn & H2 & R2 & P2). split; [done|].
    rewrite (waiting_index w1 key bitset s) in Hn, P2 by (apply Hinv1 || done). cbn in Hn, P2. 
    replace (count - (count `min` length A))%nat with (count - length A)%nat in * by lia.
    split; [rewrite Hn, length_take; fold A; lia| |done|].
    + destruct R2 as [R2 _]. unfold rest in R2. injection R2 as ??????????. done.
    + destruct R2 as [R2 R2']. split; [|done]. unfold rest in *. cbn in *. congruence.
  - wp_run. split; [done|]. pose proof (waiting_none w key bitset (iv_index _ _ _ Hinv) Hs) as Hnone. split; [rewrite Hnone; fold A; cbn; lia|done| |done].
    by rewrite Hnone, take_nil, change_in_nil.
Qed.

(** ** Deadlines *)

(** The invariant while a deadline has left its index and those that waited for
    it have not run yet: the next deadline is not known. *)
Record expiring (D : Z → Prop) w : Prop := {
  ex_queues : queues_ok w;
  ex_procs pid p : processes (pm w) !! pid = Some p → proc_ok w pid p;
  ex_zombies pid z : zombies (pm w) !! pid = Some z → is_Some (pidfds w !! z_pidfd z);
  ex_sound cpu pid : queued w cpu pid → runs (processes (pm w)) cpu pid;
  ex_rest : rest_ok (blocks (processes (pm w))) w;
  ex_regs : regs_ok (blocks (processes (pm w))) w;
  ex_listed d pid : listed (blocked_timers (pm w)) d pid ↔ due_at (blocks (processes (pm w))) d pid ∧ ¬ D d;
  ex_full : no_empty (blocked_timers (pm w));
}.

(** What a deadline does to a process. *)
Definition expire (p : KernelProcess) : KernelProcess := match timer_result (p_state p) with Some r => woken r p | None => p end.
Definition expired (now : Z) (p : KernelProcess) : KernelProcess :=
  match block_of (p_state p) ≫= deadline_of with Some d => if decide (d <= now) then expire p else p | None => p end.

Lemma due_result x d : deadline_of x = Some d → ∃ r, timer_result (Blocked x) = Some r.
Proof. destruct x; cbn; intros [= Hd]; by eexists. Qed.

Lemma inv_expiring w : inv w → expiring (λ _, False) w.
Proof.
  intros [Hq Hp Hi Hr Hz Hs]. apply index_split in Hi as [[] Hrest]. constructor; try done. intros d pid. rewrite tm_listed. tauto.
Qed.

Lemma expiring_inv w :
  expiring (λ _, False) w → next_timer_deadline_nanos (pm w) = first_key (blocked_timers (pm w)) → published w = next_timer_deadline_nanos (pm w) → inv w.
Proof.
  intros [Hq Hp Hz Hsd Hrest Hr Hl Hf] Hn Hpub. constructor; try done. apply index_split. split; [|done]. constructor; try done. intros d pid. rewrite Hl. tauto.
Qed.

Lemma untrack_gone_rule w pid d (Q : unit → W → Prop) (Qe : SysErr.SysErr → W → Prop) :
  blocked_timers (pm w) !! d = None → Q () w → wp_res (untrack_timer pid d) w Q Qe.
Proof. intros Hd HQ. unfold untrack_timer. wp_step. wp_step. rewrite Hd. by wp_step. Qed.

Lemma expire_one_rule w d pid p x r :
  expiring (eq d) w → processes (pm w) !! pid = Some p → p_state p = Blocked x → deadline_of x = Some d →
  wp_res (wake_process_with_result here pid r) w
    (λ _ w', expiring (eq d) w' ∧ same_rest w w' ∧ blocked_timers (pm w') = blocked_timers (pm w) ∧ processes (pm w') = <[pid := woken r p]> (processes (pm w))) (λ _ _, False).
Proof.
  intros [Hq Hprocs Hz Hsd Hrest Hregs Hl Hfull] Hp Hst Hdl. destruct (Hprocs _ _ Hp) as [Pid Pcpu _ Ppf].
  assert (blocks (processes (pm w)) !! pid = Some x) as Hb by (rewrite blocks_lookup, Hp; cbn; by rewrite Hst).
  unfold wake_process_with_result. wp_step. apply get_process_rule. rewrite Hp. cbn. rewrite Hst. cbn [negb is_blocked_state]. wp_step.
  apply untrack_split_rule. wp_step. eapply wp_res_mono; [by apply untrack_rest_rule|cbv beta..]; [|done]. intros _ w1 (R1 & G1 & C1 & T1 & _). rewrite Hdl.
  apply untrack_gone_rule.
  { destruct (blocked_timers (pm w1) !! d) as [s|] eqn:Hs; [|done]. exfalso. rewrite T1 in Hs.
    apply mk_is_Some, (listed_key _ _ Hfull) in Hs as [y Hy]. apply Hl in Hy as [_ Hy]. done. }
  wp_step. apply get_process_rule. rewrite (core_procs w w1), Hp by done. wp_step. apply modify_rule.
  apply enqueue_rule; [unfold queues_ok; cbn; by rewrite (core_queues w w1)|unfold online; cbn; by rewrite (core_queues w w1)|]. intros qs [Nok Non Nq].
  split; [|split; [split|split]]; cbn; [|by apply core_rest in C1 as [<- _]| |done|by rewrite (core_procs w w1)].
  2: { intros c. rewrite Non. unfold online. cbn. by rewrite (core_queues w w1). }
  constructor; cbn; rewrite ?(core_procs w w1) by done; rewrite ?blocks_put; cbn.
  - done.
  - intros i q [[<- <-]|[Hne Hi]]%lookup_insert_Some.
    + constructor; cbn; [done|apply Non; unfold online; cbn; by rewrite (core_queues w w1)|apply Nq; by right|by rewrite (core_pidfds w w1)].
    + eapply proc_ok_grow; [| | |by apply Hprocs]; cbn; [intros c Hc; apply Non|intros c y Hy; apply Nq; left|]; unfold online, queued; cbn; by rewrite ?(core_queues w w1), ?(core_pidfds w w1).
  - intros i z. rewrite (core_zombies w w1), (core_pidfds w w1) by done. apply Hz.
  - intros c i [Hi|[-> ->]]%Nq; [|eexists; by rewrite lookup_insert_eq]. unfold queued in Hi. cbn in Hi. rewrite (core_queues w w1) in Hi by done. apply Hsd in Hi as (q & Hi & Hr & Hc).
    exists q. rewrite lookup_insert_ne; [done|]. intros <-. congruence.
  - done.
  - done.
  - intros d' i. rewrite T1, Hl, (due_delete _ _ x) by done. naive_solver.
  - by rewrite T1.
Qed.

Lemma expire_waiters_rule w d l :
  expiring (eq d) w → NoDup l → (∀ pid, pid ∈ l → due_at (blocks (processes (pm w))) d pid) →
  wp_res (expire_waiters here l) w
    (λ _ w', expiring (eq d) w' ∧ same_rest w w' ∧ blocked_timers (pm w') = blocked_timers (pm w) ∧ processes (pm w') = change_in expire l (processes (pm w))) (λ _ _, False).
Proof.
  revert w. induction l as [|pid l IH]; intros w Hex Hnd Hl; cbn [expire_waiters]. { wp_run. by rewrite change_in_nil. }
  apply NoDup_cons in Hnd as [Hout Hnd]. destruct (Hl pid ltac:(by left)) as (x & Hb & Hdl). rewrite blocks_lookup in Hb.
  destruct (processes (pm w) !! pid) as [p|] eqn:Hp; [|done]. cbn in Hb. destruct (p_state p) as [| | |y| |] eqn:Hst; try done. injection Hb as ->.
  destruct (due_result x d Hdl) as [r Hr]. assert (expire p = woken r p) as He by (unfold expire; by rewrite Hst, Hr).
  wp_step. apply get_process_rule. rewrite Hp. cbn [mbind option_bind compose]. rewrite Hst, Hr. wp_step.
  eapply wp_res_mono; [by eapply expire_one_rule|cbv beta..]; [|done]. intros _ w1 (E1 & R1 & T1 & P1).
  eapply wp_res_mono; [apply IH; [done..|]|cbv beta..]; [| |done].
  - intros i Hi. rewrite P1, blocks_put. cbn. unfold due_at. rewrite lookup_delete_ne by (by intros ->). apply Hl. by right.
  - intros _ w2 (E2 & R2 & T2 & P2). split; [done|]. split; [by eapply same_rest_trans|]. split; [congruence|]. rewrite P2, P1, <-He. by apply change_in_cons.
Qed.

Lemma expired_later now d p x : p_state p = Blocked x → deadline_of x = Some d → now < d → expired now p = p.
Proof. intros Hst Hd Hlt. unfold expired. rewrite Hst. cbn. rewrite Hd. rewrite decide_False by lia. done. Qed.

Lemma expired_change now d l (P : gmap Z KernelProcess) :
  (∀ pid, pid ∈ l → due_at (blocks P) d pid) → d <= now → expired now <$> change_in expire l P = expired now <$> P.
Proof.
  intros Hl Hd. apply map_eq. intros i. rewrite !lookup_fmap, change_in_lookup. destruct (P !! i) as [p|] eqn:Hp; cbn; [|done]. case_decide as Hi; [|done].
  destruct (Hl i Hi) as (x & Hx & Hdl). rewrite blocks_lookup, Hp in Hx. cbn in Hx. destruct (p_state p) as [| | |y| |] eqn:Hst; try done. injection Hx as ->.
  destruct (due_result x d Hdl) as [r Hr]. assert (expire p = woken r p) as He by (unfold expire; by rewrite Hst, Hr).
  assert (expired now p = expire p) as -> by (unfold expired; rewrite Hst; cbn; rewrite Hdl; by rewrite decide_True). rewrite He. done.
Qed.

(** Nothing is due when the first deadline is later. *)
Lemma expired_none now w :
  expiring (λ _, False) w → (∀ d, is_Some (blocked_timers (pm w) !! d) → now < d) → expired now <$> processes (pm w) = processes (pm w).
Proof.
  intros Hex Hd. apply map_eq. intros i. rewrite lookup_fmap. destruct (processes (pm w) !! i) as [p|] eqn:Hp; cbn; [|done]. f_equal.
  destruct (p_state p) as [| | |x| |] eqn:Hst; try (unfold expired; by rewrite Hst). destruct (deadline_of x) as [d|] eqn:Hdl; [|unfold expired; rewrite Hst; cbn; by rewrite Hdl].
  eapply expired_later; [done..|]. apply Hd, (listed_key _ _ (ex_full _ _ Hex)). exists i. apply (ex_listed _ _ Hex). split; [|tauto].
  exists x. split; [|done]. rewrite blocks_lookup, Hp. cbn. by rewrite Hst.
Qed.

Lemma expiring_next w n :
  expiring (λ _, False) w → n = first_key (blocked_timers (pm w)) → inv (set_published n (set_pm (set_next_deadline n (pm w)) w)).
Proof. intros [Hq Hp Hz Hsd Hrest Hr Hl Hf] Hn. apply expiring_inv; [|done..]. constructor; try done. intros pid p Hpid. apply (Hp pid p) in Hpid as []. by constructor. Qed.

Lemma none_left d l (P : gmap Z KernelProcess) pid :
  (∀ i, i ∈ l ↔ due_at (blocks P) d i) → ¬ due_at (blocks (change_in expire l P)) d pid.
Proof.
  intros Hl (x & Hx & Hdl). rewrite blocks_lookup, change_in_lookup in Hx. destruct (P !! pid) as [p|] eqn:Hp; [|done]. cbn in Hx. case_decide as Hin.
  - apply Hl in Hin as (y & Hy & Hd). rewrite blocks_lookup, Hp in Hy. cbn in Hy. destruct (p_state p) as [| | |z| |] eqn:Hst; try done. injection Hy as ->.
    destruct (due_result y d Hd) as [r Hr]. unfold expire in Hx. rewrite Hst, Hr in Hx. done.
  - destruct Hin. apply Hl. exists x. split; [|done]. by rewrite blocks_lookup, Hp.
Qed.

Lemma expire_loop_rule fuel now w :
  expiring (λ _, False) w → (size (blocked_timers (pm w)) < fuel)%nat →
  wp_res (expire_loop here fuel now) w (λ _ w', inv w' ∧ same_rest w w' ∧ processes (pm w') = expired now <$> processes (pm w)) (λ _ _, False).
Proof.
  revert w. induction fuel as [|fuel IH]; intros w Hex Hfuel; [lia|]. cbn [expire_loop]. wp_step. wp_step.
  destruct (first_key (blocked_timers (pm w))) as [d|] eqn:Hd.
  2: { wp_step. apply modify_rule. unfold publish_timer_deadline. wp_step. cbn. split; [by apply expiring_next|split; [done|]]. symmetry. apply expired_none; [done|].
       apply first_key_None in Hd. rewrite Hd. intros d [? ?]. done. }
  case_decide as Hnow.
  { wp_step. apply modify_rule. unfold publish_timer_deadline. wp_step. cbn. split; [by apply expiring_next|split; [done|]]. symmetry. apply expired_none; [done|].
    apply first_key_Some in Hd as [_ Hmin]. intros d' Hd'. specialize (Hmin d' Hd'). lia. }
  apply first_key_Some in Hd as [[s Hs] _]. rewrite Hs. wp_step. apply modify_rule. wp_step.
  assert (∀ pid, pid ∈ ascending s ↔ due_at (blocks (processes (pm w))) d pid) as Hdue.
  { intros pid. rewrite ascending_elem. transitivity (listed (blocked_timers (pm w)) d pid); [unfold listed; rewrite Hs; naive_solver|].
    rewrite (ex_listed _ _ Hex). tauto. }
  eapply wp_res_mono; [apply (expire_waiters_rule _ d)|cbv beta..]; [|apply ascending_nodup|intros pid; apply Hdue| |done].
  - destruct Hex as [Hq Hp Hz Hsd Hrest Hr Hl Hf]. constructor; try done.
    + intros pid p Hpid. apply (Hp pid p) in Hpid as []. by constructor.
    + intros d' pid. cbn. unfold listed. destruct (decide (d' = d)) as [->|Hne]; [rewrite lookup_delete_eq; naive_solver|].
      rewrite lookup_delete_ne by done. specialize (Hl d' pid). unfold listed in Hl. rewrite Hl. naive_solver.
    + cbn. intros k t [_ Ht]%lookup_delete_Some. by eapply Hf.
  - intros _ w1 (E1 & R1 & T1 & P1). cbn in R1, T1, P1. eapply wp_res_mono; [apply IH|cbv beta..]; [| | |done].
    + destruct E1 as [Hq Hp Hz Hsd Hrest Hr Hl Hf]. constructor; try done. intros d' pid. rewrite Hl. split; [tauto|]. intros [Hx _]. split; [done|]. intros <-.
      rewrite P1 in Hx. revert Hx. by apply none_left.
    + rewrite T1. rewrite map_size_delete_Some by (by eexists). assert (size (blocked_timers (pm w)) ≠ 0)%nat; [|lia]. intros E%map_size_empty_iff. by rewrite E in Hs.
    + intros _ w2 (I2 & R2 & P2). split; [done|]. split; [eapply same_rest_trans; [|exact R2]; exact R1|]. rewrite P2, P1. apply (expired_change now d); [intros pid; apply Hdue|lia].
Qed.

Lemma wake_deadlines_rule now w :
  inv w → wp_res (wake_expired_timers here now) w (λ _ w', inv w' ∧ same_rest w w' ∧ processes (pm w') = expired now <$> processes (pm w)) (λ _ _, False).
Proof. intros Hinv. unfold wake_expired_timers. wp_step. wp_step. apply expire_loop_rule; [by apply inv_expiring|lia]. Qed.
End proofs.
