(* ===== verification/ProcessInv.v ===== *)
(** * Processes: every operation keeps the invariant

    The rules of the operations that send signals, wake, wait, move processes
    between groups and end them.  [wpx] lets an operation panic when [Pp]
    holds: ending a process whose list of robust futexes has been forged. *)

From S2P Require Import Prelude Poll Errno Signal Process ProcessProof ProcessWake.

Section proofs.
Context {Env : Type} `{!ProcEnv Env}.
Abbreviation W := (pworld Env).
Abbreviation MP := (M (pworld Env) SysErr.SysErr).
Context (here : Z).
Implicit Types (w : W) (P : gmap Z KernelProcess) (p : KernelProcess).

(** ** What an operation may change *)

(** Nothing that the invariant speaks of. *)
Record quiet w w' : Prop := {
  qt_procs : processes (pm w') = processes (pm w);
  qt_zombies : zombies (pm w') = zombies (pm w);
  qt_pidfds : pidfds w' = pidfds w;
  qt_queues : run_queues w' = run_queues w;
  qt_view : view w' = view w;
  qt_next : next_pid (pm w') = next_pid (pm w);
}.

Record good w w' : Prop := {
  gd_inv : inv w';
  gd_online c : online w' c ↔ online w c;
  gd_pidfds h : is_Some (pidfds w !! h) → is_Some (pidfds w' !! h);
  gd_dom : dom (processes (pm w')) = dom (processes (pm w));
  gd_next : next_pid (pm w') = next_pid (pm w);
}.

Lemma quiet_refl w : quiet w w.
Proof. done. Qed.
Lemma quiet_trans w1 w2 w3 : quiet w1 w2 → quiet w2 w3 → quiet w1 w3.
Proof. intros [] []. constructor; congruence. Qed.
Lemma good_refl w : inv w → good w w.
Proof. done. Qed.
Lemma good_trans w1 w2 w3 : good w1 w2 → good w2 w3 → good w1 w3.
Proof. intros [] []. constructor; auto; [|congruence..]. intros c. by rewrite gd_online1. Qed.

Lemma inv_quiet P b w w' : quiet w w' → inv_on P b w → inv_on P b w'.
Proof. intros []. by apply inv_same. Qed.
Lemma quiet_good w w' : inv w → quiet w w' → good w w'.
Proof.
  intros Hinv Hq. constructor; [|unfold online; by rewrite ?(qt_queues _ _ Hq)|by rewrite (qt_pidfds _ _ Hq)|by rewrite (qt_procs _ _ Hq)|by apply qt_next].
  unfold inv. rewrite (qt_procs _ _ Hq). by eapply inv_quiet.
Qed.
Lemma rest_good w w' : inv w' → same_rest w w' → dom (processes (pm w')) = dom (processes (pm w)) → good w w'.
Proof. intros Hinv [Hr Ho] Hd. unfold rest in Hr. injection Hr as ??????????. constructor; try done; congruence. Qed.

(** The parts of a process that no operation changes. *)
Record alike p p' : Prop := {
  al_identity : id_pid (identity p') = id_pid (identity p);
  al_cpu : assigned_cpu p' = assigned_cpu p;
  al_pidfd : p_pidfd p' = p_pidfd p;
}.
Lemma alike_trans p1 p2 p3 : alike p1 p2 → alike p2 p3 → alike p1 p3.
Proof. intros [] []. constructor; congruence. Qed.

Lemma wp_mid {A} (m : MP A) w (Q Q' : A → W → Prop) (Qe : SysErr.SysErr → W → Prop) :
  wp_res m w Q (λ _ _, False) → (∀ a w', Q a w' → Q' a w') → wp_res m w Q' Qe.
Proof. intros Hm HQ. by eapply wp_res_mono; [exact Hm|exact HQ|]. Qed.

(** ** Listeners and descriptors of processes *)

Lemma modify_quiet f w (Q : unit → W → Prop) (Qe : SysErr.SysErr → W → Prop) :
  (let w' := set_pm (f (pm w)) w in quiet w w' → Q () w') → quiet w (set_pm (f (pm w)) w) → wp_res (modify_pm f) w Q Qe.
Proof. intros HQ Hq. apply modify_rule. by apply HQ. Qed.

Lemma file_wake_all_rule l w (Q : unit → W → Prop) (Qe : SysErr.SysErr → W → Prop) : (∀ w', quiet w w' → Q () w') → wp_res (file_wake_all l) w Q Qe.
Proof.
  revert w. induction l as [|pid l IH]; intros w HQ; cbn [file_wake_all]; [wp_step; by apply HQ|]. wp_step. apply modify_rule. apply IH. intros w' Hw'. apply HQ.
  eapply quiet_trans; [|exact Hw']. by case_decide.
Qed.

Lemma wake_queue_rule l w (Q : unit → W → Prop) (Qe : SysErr.SysErr → W → Prop) : (∀ w', quiet w w' → Q () w') → wp_res (wake_queue l) w Q Qe.
Proof. intros HQ. unfold wake_queue. wp_step. apply with_env_rule. intros pids e _. apply file_wake_all_rule. intros w' Hw'. apply HQ. by eapply quiet_trans; [|exact Hw']. Qed.

Lemma pidfd_set_rule handle h st events w (Q : unit → W → Prop) (Qe : SysErr.SysErr → W → Prop) :
  inv w → pidfds w !! handle = Some h → (∀ w', good w w' → processes (pm w') = processes (pm w) → Q () w') → wp_res (pidfd_set handle h st events) w Q Qe.
Proof.
  intros Hinv Hh HQ. unfold pidfd_set. destruct (notify (pf_waiters h) events) as [l q]. wp_step. wp_step. apply wake_queue_rule. intros w' Hw'.
  assert (∀ i, is_Some (pidfds w !! i) → is_Some (<[handle:=mkPidFd (pf_pid h) st (wrapping_add u64_max (pf_version h) 1) q]> (pidfds w) !! i)) as Hf.
  { intros i Hi. rewrite lookup_insert_is_Some. destruct (decide (handle = i)); auto. }
  match type of Hw' with quiet ?w1 _ => assert (good w w1) as Hg end.
  { constructor; try done. destruct Hinv; constructor; try done;
      [intros i p Hp; apply iv_procs in Hp; revert Hp; by apply proc_ok_grow|by apply (index_view _ w)|intros i z Hz; by eapply Hf, iv_zombies]. }
  apply HQ; [|by rewrite (qt_procs _ _ Hw')]. eapply good_trans; [exact Hg|]. apply quiet_good; [apply Hg|done].
Qed.

Lemma mark_exited_rule handle w (Q : unit → W → Prop) (Qe : SysErr.SysErr → W → Prop) :
  inv w → is_Some (pidfds w !! handle) → (∀ w', good w w' → processes (pm w') = processes (pm w) → Q () w') → wp_res (mark_exited handle) w Q Qe.
Proof.
  intros Hinv [h Hh] HQ. unfold mark_exited. wp_step. wp_step. rewrite Hh. wp_step. wp_step. case_decide; [wp_step; by apply HQ|]. by apply pidfd_set_rule.
Qed.
Lemma mark_reaped_rule handle w (Q : unit → W → Prop) (Qe : SysErr.SysErr → W → Prop) :
  inv w → is_Some (pidfds w !! handle) → (∀ w', good w w' → processes (pm w') = processes (pm w) → Q () w') → wp_res (mark_reaped handle) w Q Qe.
Proof.
  intros Hinv [h Hh] HQ. unfold mark_reaped. wp_step. wp_step. rewrite Hh. wp_step. wp_step. case_decide; [wp_step; by apply HQ|]. by apply pidfd_set_rule.
Qed.

(** ** Signals of a process outside of the table *)

Lemma signals_enqueue_rule p info w (Q : KernelProcess → W → Prop) (Qe : SysErr.SysErr → W → Prop) :
  (∀ s w', quiet w w' → Q (with_signals s p) w') → wp_res (signals_enqueue p info) w Q Qe.
Proof. intros HQ. unfold signals_enqueue. destruct (enqueue info (p_signals p)) as [s l]. wp_step. apply wake_queue_rule. intros w' Hw'. wp_step. by apply HQ. Qed.

Lemma signalfds_rule p info w (Q : unit → W → Prop) (Qe : SysErr.SysErr → W → Prop) :
  (∀ w', quiet w w' → Q () w') → wp_res (notify_process_signalfds p info) w Q Qe.
Proof.
  intros HQ. unfold notify_process_signalfds. wp_step. apply with_env_rule. intros pids e _. apply file_wake_all_rule. intros w' Hw'. apply HQ. by eapply quiet_trans; [|exact Hw'].
Qed.

Lemma with_signals_id p : with_signals (p_signals p) p = p.
Proof. by destruct p. Qed.

Lemma enqueue_each_rule l p w (Q : KernelProcess → W → Prop) (Qe : SysErr.SysErr → W → Prop) :
  (∀ s w', quiet w w' → Q (with_signals s p) w') → wp_res (enqueue_each p l) w Q Qe.
Proof.
  revert p w. induction l as [|info l IH]; intros p w HQ; cbn [enqueue_each].
  { wp_step. rewrite <-(with_signals_id p) at 1. by apply HQ. }
  wp_step. apply signals_enqueue_rule. intros s w1 H1. wp_step. apply signalfds_rule. intros w2 H2. apply IH. intros s' w3 H3. apply (HQ s').
  eapply quiet_trans; [exact H1|]. by eapply quiet_trans.
Qed.

Lemma drain_rule p w (Q : KernelProcess → W → Prop) (Qe : SysErr.SysErr → W → Prop) :
  (∀ s w', quiet w w' → Q (with_signals s p) w') → wp_res (drain_queued_signals p) w Q Qe.
Proof.
  intros HQ. unfold drain_queued_signals. wp_step. wp_step. destruct (queued_signals (pm w) !! id_pid (identity p)) as [l|].
  - wp_step. apply modify_rule. apply enqueue_each_rule. intros s w' Hw'. apply HQ. by eapply quiet_trans; [|exact Hw'].
  - wp_step. rewrite <-(with_signals_id p) at 1. by apply HQ.
Qed.

(** ** Putting a process back *)

Lemma run_rule w pid p' b (Q : unit → W → Prop) (Qe : SysErr.SysErr → W → Prop) :
  inv_on (delete pid (processes (pm w))) b w → id_pid (identity p') = pid → p_state p' = Runnable → is_Some (pidfds w !! p_pidfd p') → online w (assigned_cpu p') →
  (∀ w', inv_on (<[pid := p']> (processes (pm w))) b w' → same_rest w w' → processes (pm w') = <[pid := p']> (processes (pm w)) → Q () w') →
  wp_res (enqueue_runnable_pid here pid (assigned_cpu p')) (set_pm (set_processes (<[pid := p']> (processes (pm w))) (pm w)) w) Q Qe.
Proof.
  intros Hinv Hid Hrun Hpf Hon HQ. apply enqueue_rule; [apply (iv_queues _ _ _ Hinv)|done|]. intros qs Henq. apply HQ; [|split; [done|]|done].
  - by apply (inv_woken w pid p' p' qs b).
  - intros c. apply (nq_online _ _ _ _ Henq).
Qed.

(** The state stays as it is. *)
Lemma put_same_good w pid p p' :
  inv w → processes (pm w) !! pid = Some p → alike p p' → p_state p' = p_state p →
  good w (set_pm (set_processes (<[pid := p']> (processes (pm w))) (pm w)) w).
Proof.
  intros Hinv Hp [Hid Hcpu Hpf] Hst. constructor; try done; [|cbn; by apply dom_insert_lookup_L]. unfold inv. cbn.
  assert (blocks (<[pid := p']> (processes (pm w))) = blocks (processes (pm w))) as ->.
  { apply map_eq. intros i. rewrite !blocks_lookup. destruct (decide (i = pid)) as [->|]; [rewrite lookup_insert_eq, Hp; cbn; by rewrite Hst|by rewrite lookup_insert_ne]. }
  destruct Hinv as [Hq Hprocs Hi Hr Hz Hs]. constructor; try done.
  - intros i q [[<- <-]|[_ Hq']]%lookup_insert_Some; [|by destruct (Hprocs i q Hq'); constructor].
    destruct (Hprocs pid p Hp). constructor; rewrite ?Hid, ?Hcpu, ?Hpf, ?Hst; done.
  - by apply (index_view _ w).
  - intros c i (q & Hq' & Hr' & Hc)%Hs. destruct (decide (i = pid)) as [->|]; [|exists q; by rewrite lookup_insert_ne]. exists p'. rewrite lookup_insert_eq. split; [done|]. by simplify_eq; rewrite Hst, Hcpu.
Qed.

(** A process that was not blocked, or whose block no set knows. *)
Lemma idle_blocks P pid p : P !! pid = Some p → block_of (p_state p) = None → delete pid (blocks P) = blocks P.
Proof. intros Hp Hb. apply delete_id. rewrite blocks_lookup, Hp. cbn. done. Qed.

Lemma index_idle b pid x w : index_ok b w → regs_ok b w → b !! pid = Some x → deadline_of x = None → key_of x = None → files_block x = false → index_ok (delete pid b) w ∧ regs_ok (delete pid b) w.
Proof.
  intros [Ht [Hf [Hx Hn]]]%index_split Hr Hb Hd Hk Hfb. split; [apply index_split; split; [|split; [|split; [|done]]]|].
  - eapply timers_ext; [|exact Ht]. intros d p. rewrite (due_delete _ _ x) by done. cases.
  - intros i. rewrite Hf, (files_delete _ _ x) by done. cases.
  - intros k i. rewrite Hx, (waits_delete _ _ x) by done. cases.
  - intros i l Hl%Hr. apply (files_delete _ _ x); [done|]. cases.
Qed.

(** Ready to run from a state that no set knows. *)
Lemma run_idle_rule w pid p p' (Q : unit → W → Prop) (Qe : SysErr.SysErr → W → Prop) :
  inv w → processes (pm w) !! pid = Some p → p_state p ≠ Runnable → untrack_blocked_process (Env := Env) pid (p_state p) = mret () →
  alike p p' → p_state p' = Runnable →
  (∀ w', good w w' → processes (pm w') = <[pid := p']> (processes (pm w)) → same_rest w w' → Q () w') →
  wp_res (enqueue_runnable_pid here pid (assigned_cpu p')) (set_pm (set_processes (<[pid := p']> (processes (pm w))) (pm w)) w) Q Qe.
Proof.
  intros Hinv Hp Hst Hun [Hid Hcpu Hpf] Hrun HQ. destruct (iv_procs _ _ _ Hinv pid p Hp) as [Pid Pcpu Pst Ppf].
  apply (run_rule w pid p' (delete pid (blocks (processes (pm w))))); [|congruence|done|by rewrite Hpf|by rewrite Hcpu|].
  - apply inv_drop; [|intros c; by apply (not_runs _ _ p)]. destruct (p_state p) as [| |sg|x| |] eqn:Est; try done.
    + rewrite (idle_blocks _ _ p) by (done || by rewrite Est). done.
    + destruct Hinv as [Hq Hprocs Hi Hr Hz Hs]. assert (blocks (processes (pm w)) !! pid = Some x) as Hb by (rewrite blocks_lookup, Hp; cbn; by rewrite Est).
      pose proof (untrack_rule w _ pid x Hi Hr Hb) as Hrule. rewrite Hun in Hrule. unfold wp_res, wp in Hrule. cbn in Hrule. destruct Hrule as (Hi' & Hr' & _). by constructor.
  - intros w' Hinv' Hrest Hprocs. apply HQ; [|done|done]. apply rest_good; [|done|rewrite Hprocs; by apply dom_insert_lookup_L].
    unfold inv. rewrite Hprocs, blocks_put, Hrun. done.
Qed.

(** A blocked process that is put back first and leaves the sets then. *)
Lemma run_blocked_rule w pid p x p' :
  inv w → processes (pm w) !! pid = Some p → p_state p = Blocked x → alike p p' → p_state p' = Runnable →
  wp_res (enqueue_runnable_pid here pid (assigned_cpu p')) (set_pm (set_processes (<[pid := p']> (processes (pm w))) (pm w)) w)
    (λ _ w3, wp_res (untrack_blocked_process pid (Blocked x)) w3 (λ _ w', good w w') (λ _ _, False)) (λ _ _, False).
Proof.
  intros Hinv Hp Hst [Hid Hcpu Hpf] Hrun. destruct (iv_procs _ _ _ Hinv pid p Hp) as [Pid Pcpu _ Ppf].
  apply (run_rule w pid p' (blocks (processes (pm w)))); [|congruence|done|by rewrite Hpf|by rewrite Hcpu|].
  { apply inv_drop; [done|]. intros c. apply (not_runs _ _ p); [done|by rewrite Hst]. }
  intros w3 I3 R3 P3. assert (blocks (processes (pm w)) !! pid = Some x) as Hb by (rewrite blocks_lookup, Hp; cbn; by rewrite Hst).
  eapply wp_res_mono; [apply (untrack_rule w3 _ pid x (iv_index _ _ _ I3) (iv_regs _ _ _ I3) Hb)|cbv beta..]; [|done]. intros _ w4 (Hi & Hr & Hcore).
  apply rest_good; [|eapply same_rest_trans; [exact R3|by apply core_rest]|].
  - unfold inv. rewrite (core_procs w3 w4), P3, blocks_put, Hrun by done. by eapply inv_core.
  - rewrite (core_procs w3 w4), P3 by done. by apply dom_insert_lookup_L.
Qed.

(** ** Signals *)

Lemma interrupt_cases w p p' u :
  interrupt w p = Some (p', u) →
  alike p p' ∧ p_state p' = Runnable ∧ ∃ x, p_state p = Blocked x ∧ ((u = true) ∨ (u = false ∧ x = BSignalSuspend)).
Proof.
  unfold interrupt. destruct (p_state p) as [| | |[]| |]; try done; intros [= <- <-]; (split; [done|]; split; [done|]; eexists; split; [done|]); auto.
Qed.

(** One signal for a process of the table, when what follows for a continued
    child keeps the invariant. *)
Lemma notify_signal_step fuel pid info w :
  inv w →
  (∀ parent event w1, si_signal info = SIGCONT → inv w1 → wp_res (notify_child_event here fuel parent event) w1 (λ _ w', good w1 w') (λ _ _, False)) →
  wp_res (notify_signal here (S fuel) pid info) w (λ _ w', good w w') (λ _ _, False).
Proof.
  intros Hinv Hnext. cbn [notify_signal]. wp_step. apply get_process_rule. destruct (processes (pm w) !! pid) as [p|] eqn:Hp; [|wp_step; by apply good_refl].
  set (cont := bool_decide (si_signal info = SIGCONT) && _). set (p1 := if cont then _ else p). wp_step. apply signals_enqueue_rule. intros s w1 Q1. wp_step. apply signalfds_rule.
  intros w2 Q2. wp_step. wp_step. pose proof (quiet_trans _ _ _ Q1 Q2) as Q12. pose proof (quiet_good _ _ Hinv Q12) as G2. pose proof (gd_inv _ _ G2) as I2.
  rewrite <-(qt_procs _ _ Q12) in Hp. set (wk := if has_deliverable _ _ _ then _ else None).
  assert (alike p (with_signals s p1)) as Ha by (unfold p1; by destruct cont). destruct cont eqn:Hc.
  - (* continued *)
    apply andb_prop in Hc as [Hcont%bool_decide_eq_true Hstop]. destruct (p_state p) as [| |sg| | |] eqn:Hst; try done.
    assert (wk = None) as -> by (unfold wk; by destruct (has_deliverable _ _ _)). wp_step. apply modify_rule. cbn [orb]. wp_step.
    eapply run_idle_rule; [done..|by rewrite Hst|by rewrite Hst|done|done|]. intros w3 G3 _ _. wp_step. wp_step.
    eapply wp_res_mono; [by apply Hnext; [|apply G3]|cbv beta..]; [|done]. intros _ w4 G4. eapply good_trans; [exact G2|]. by eapply good_trans.
  - cbn [orb]. destruct wk as [[p' u]|] eqn:Hwk.
    + (* interrupted *)
      unfold wk in Hwk. destruct (has_deliverable _ _ _); [|done]. apply interrupt_cases in Hwk as (Ha' & Hrun & x & Hst & Hx). change (p_state p = Blocked x) in Hst.
      wp_step. apply modify_rule. rewrite bool_decide_true by (by eexists). wp_step.
      eapply wp_mid; [by apply (run_blocked_rule w2 pid p x p'); [..|by eapply alike_trans|]|]. cbv beta. intros _ w3 H3. wp_step.
      eapply (wp_mid _ _ (λ _ w', good w2 w')); [|cbv beta; intros _ w4 G4; wp_step; by eapply good_trans; [exact G2|exact G4]]. revert H3.
      change (p_state p1) with (p_state p). rewrite Hst. by destruct Hx as [-> |[-> ->]].
    + wp_step. apply modify_rule. rewrite bool_decide_false by (intros [? ?]; done). wp_step. wp_step. wp_step. wp_step. wp_step.
      eapply good_trans; [exact G2|]. by eapply put_same_good.
Qed.

(** A change of the zombies that are kept. *)
Lemma zombies_good w (z : gmap Z ZombieProcess) :
  inv w → (∀ pid x, z !! pid = Some x → is_Some (pidfds w !! z_pidfd x)) → good w (set_pm (set_zombies z (pm w)) w).
Proof.
  intros [] Hz. constructor; try done. constructor; try done; [intros i p Hp; by destruct (iv_procs i p Hp)|by apply (index_view _ w)].
Qed.

Lemma child_link_rule parent child w (Q : unit → W → Prop) (Qe : SysErr.SysErr → W → Prop) :
  (∀ w', quiet w w' → Q () w') → wp_res (untrack_child_link parent child) w Q Qe.
Proof. intros HQ. unfold untrack_child_link. destruct parent; [apply modify_rule|wp_step]; by apply HQ. Qed.

Lemma forget_zombie_good w pid : inv w → good w (set_pm (set_zombies (delete pid (zombies (pm w))) (pm w)) w).
Proof. intros Hinv. apply zombies_good; [done|]. intros i x [_ Hx]%lookup_delete_Some. by eapply (iv_zombies _ _ _ Hinv). Qed.

Lemma notify_child_event_step fuel parent event w :
  inv w →
  (∀ pid info w1, si_signal info = SIGCHLD → inv w1 → wp_res (notify_signal here fuel pid info) w1 (λ _ w', good w1 w') (λ _ _, False)) →
  wp_res (notify_child_event here (S fuel) parent event) w (λ _ w', good w w') (λ _ _, False).
Proof.
  intros Hinv Hnext. cbn [notify_child_event]. destruct parent as [pp|]; [|wp_step; by apply good_refl]. wp_step. apply get_process_rule. wp_step. wp_step.
  set (waits := match processes (pm w) !! pp with Some p => _ | None => None end).
  assert (∀ q, waits = Some q → processes (pm w) !! pp = Some q.1.1 ∧ ∃ a b c d e, p_state q.1.1 = Blocked (BWaitChild a b c d e)) as Hwaits.
  { intros q. unfold waits. destruct (processes (pm w) !! pp) as [p|]; [|done]. destruct (p_state p) as [| | |[]| |] eqn:Hst; try done. case_match; [|done]. intros [= <-].
    cbn. split; [done|]. eauto 10. }
  wp_step.
  eapply (wp_mid _ _ (λ _ w', good w w')); [|cbv beta].
  - destruct waits as [[[p api] sp]|]; [|wp_step; by apply good_refl]. destruct (Hwaits _ eq_refl) as (Hp & a & b & c & d & e & Hst). cbn in Hp, Hst. wp_step.
    eapply (wp_mid _ _ (λ _ w', quiet w w')); [|cbv beta].
    { destruct (_ && _); [|by wp_step]. wp_step. apply with_env_rule. intros r en _. by wp_step. }
    intros _ w1 Q1. pose proof (quiet_good _ _ Hinv Q1) as G1. rewrite <-(qt_procs _ _ Q1) in Hp. wp_step. apply modify_rule. wp_step.
    eapply (run_idle_rule w1 pp p (with_state Runnable (with_result _ p))); [apply G1|done|by rewrite Hst|by rewrite Hst|done|done|]. intros w2 G2 _ _. wp_step.
    pose proof (good_trans _ _ _ G1 G2) as G12.
    eapply (wp_mid _ _ (λ _ w', good w w')); [|intros _ w3 G3; by wp_step]. destruct (_ && _); [|by wp_step]. wp_step. wp_step. wp_step. apply modify_rule.
    apply child_link_rule. intros w3 Q3. pose proof (forget_zombie_good w2 (ce_pid event) (gd_inv _ _ G2)) as G3.
    eapply good_trans; [exact G12|]. eapply good_trans; [exact G3|]. apply quiet_good; [apply G3|done].
  - intros keep w1 G1. wp_step. eapply (wp_mid _ _ (λ _ w', quiet w1 w')); [|cbv beta]. { destruct keep; [by apply modify_rule|by wp_step]. }
    intros _ w2 Q2. pose proof (quiet_good _ _ (gd_inv _ _ G1) Q2) as G2. pose proof (good_trans _ _ _ G1 G2) as G12. wp_step. wp_step.
    assert (∀ info, si_signal info = SIGCHLD → wp_res (notify_signal here fuel pp info) w2 (λ _ w', good w w') (λ _ _, False)) as Hns.
    { intros info Hinfo. eapply wp_res_mono; [by apply Hnext, G2|cbv beta..]; [|done]. intros _ w3 G3. by eapply good_trans. }
    destruct (ce_kind event); [by wp_step|..]; (case_match; [by wp_step|by apply Hns]).
Qed.

Lemma notify_sigchld_rule fuel pid info w : inv w → si_signal info = SIGCHLD → wp_res (notify_signal here (S fuel) pid info) w (λ _ w', good w w') (λ _ _, False).
Proof. intros Hinv Hs. apply notify_signal_step; [done|]. intros ??? Hc. rewrite Hs in Hc. done. Qed.
Lemma notify_event_rule parent event w : inv w → wp_res (notify_child_event here NOTIFY_DEPTH parent event) w (λ _ w', good w w') (λ _ _, False).
Proof. intros Hinv. apply notify_child_event_step; [done|]. intros pid info w1 Hs I1. by apply notify_sigchld_rule. Qed.
Lemma notify_signal_rule pid info w : inv w → wp_res (notify_signal here NOTIFY_DEPTH pid info) w (λ _ w', good w w') (λ _ _, False).
Proof.
  intros Hinv. apply notify_signal_step; [done|]. intros parent event w1 _ I1. apply notify_child_event_step; [done|]. intros i si w2 Hs I2. by apply notify_sigchld_rule.
Qed.

(** Operations that keep the invariant; those with errors keep it there too. *)
Context (X : Prop).
Definition keeps {A} (m : MP A) : Prop := ∀ w, inv w → wp_res m w (λ _ w', good w w') (λ _ w', X ∧ good w w').

Lemma keeps_ret {A} (a : A) : keeps (mret a).
Proof. intros w Hinv. wp_step. by apply good_refl. Qed.
Lemma keeps_bind {A B} (m : MP A) (k : A → MP B) : keeps m → (∀ a, keeps (k a)) → keeps (m ≫= k).
Proof.
  intros Hm Hk w Hinv. wp_step. eapply wp_res_mono; [by apply Hm|cbv beta|done]. intros a w1 G1.
  eapply wp_res_mono; [apply Hk, G1|cbv beta..]; [intros x w2 G2|intros x w2 [Hx G2]; split; [done|]]; by eapply good_trans.
Qed.
Lemma keeps_then {A} (m : MP A) w w1 : keeps m → good w w1 → wp_res m w1 (λ _ w', good w w') (λ _ w', X ∧ good w w').
Proof. intros Hm G1. eapply wp_res_mono; [apply Hm, G1|cbv beta..]; [intros x w2 G2|intros x w2 [Hx G2]; split; [done|]]; by eapply good_trans. Qed.
Lemma keeps_get {A} (k : W → MP A) : (∀ w, inv w → wp_res (k w) w (λ _ w', good w w') (λ _ w', X ∧ good w w')) → keeps (mget ≫= k).
Proof. intros Hk w Hinv. wp_step. wp_step. by apply Hk. Qed.
Lemma keeps_total {A} (m : MP A) : (∀ w, inv w → wp_res m w (λ _ w', good w w') (λ _ _, False)) → keeps m.
Proof. intros Hm w Hinv. eapply wp_res_mono; [by apply Hm|done..]. Qed.
Lemma keeps_if {A} (c : bool) (m1 m2 : MP A) : keeps m1 → keeps m2 → keeps (if c then m1 else m2).
Proof. by destruct c. Qed.
Lemma keeps_quiet {A} (m : MP A) : (∀ w, wp_res m w (λ _ w', quiet w w') (λ _ _, False)) → keeps m.
Proof. intros Hm. apply keeps_total. intros w Hinv. eapply wp_res_mono; [apply Hm|cbv beta|done]. intros _ w' Hq. by apply quiet_good. Qed.
Lemma keeps_modify f : (∀ w : W, quiet w (set_pm (f (pm w)) w)) → keeps (modify_pm f).
Proof. intros Hf. apply keeps_quiet. intros w. by apply modify_rule. Qed.
Lemma keeps_env {A} (f : Env → A * Env) : keeps (with_env f).
Proof. apply keeps_quiet. intros w. apply with_env_rule. done. Qed.
Lemma keeps_throw {A} e : X → keeps (mthrow e : MP A).
Proof. intros HX w Hinv. wp_step. by split; [|apply good_refl]. Qed.

Lemma send_signal_keeps pid info : keeps (send_signal here pid info).
Proof.
  intros w Hinv. unfold send_signal. wp_step. apply get_process_rule. destruct (processes (pm w) !! pid).
  - wp_step. eapply wp_mid; [by apply notify_signal_rule|]. cbv beta. intros _ w' G. by wp_step.
  - unfold queue_signal_for_running. wp_step. wp_step. destruct (running_cpu_of w pid); [|wp_step; by apply good_refl]. wp_step. apply modify_rule. wp_step. by apply quiet_good.
Qed.
Lemma send_group_keeps tgid info : keeps (send_signal_thread_group here tgid info).
Proof. apply keeps_get. intros w Hinv. case_match; [by apply send_signal_keeps|wp_step; by apply good_refl]. Qed.
Lemma send_each_keeps l info n : keeps (send_each here l info n).
Proof. revert n. induction l as [|t l IH]; intros n; cbn [send_each]; [apply keeps_ret|]. apply keeps_bind; [apply send_group_keeps|]. intros b. apply IH. Qed.
Lemma send_process_group_keeps g info : keeps (send_signal_process_group here g info).
Proof. apply keeps_get. intros w Hinv. by apply send_each_keeps. Qed.
Lemma send_all_keeps info x : keeps (send_signal_all_thread_groups here info x).
Proof. apply keeps_get. intros w Hinv. by apply send_each_keeps. Qed.

(** ** Futexes and files *)

Lemma change_in_dom {A} (f : A → A) l (m : gmap Z A) : dom (change_in f l m) = dom m.
Proof. apply set_eq. intros i. rewrite !elem_of_dom, change_in_lookup. by rewrite fmap_is_Some. Qed.

Lemma wake_futex_keeps key bitset count : keeps (wake_futex here key bitset count).
Proof.
  apply keeps_total. intros w Hinv. eapply wp_mid; [by apply wake_futex_rule|]. cbv beta. intros n w' [I' [_ _ Hp Hr]].
  eapply good_trans; [apply (quiet_good w (set_pm (set_armed (armed_futex_waits (pm w')) (pm w)) w)); done|]. apply rest_good; [done|done|]. by rewrite Hp, change_in_dom.
Qed.

Lemma mark_armed_keeps f key bitset l n : keeps (mark_armed f key bitset l n).
Proof.
  revert n. induction l as [|pid l IH]; intros n; cbn [mark_armed]; [apply keeps_ret|]. apply keeps_get. intros w Hinv. case_match; [|by apply IH]. case_match; [|by apply IH].
  apply keeps_bind; [by apply keeps_modify|intros _; apply IH|done].
Qed.

Lemma requeue_waiters_keeps from to bitset c l moved : keeps (requeue_waiters from to bitset c l moved).
Proof.
  revert moved. induction l as [|pid l IH]; intros moved; cbn [requeue_waiters]; [apply keeps_ret|]. case_decide; [apply keeps_ret|]. intros w Hinv. wp_step. apply get_process_rule.
  destruct (processes (pm w) !! pid) as [p|] eqn:Hp; [|by apply IH]. destruct (p_state p) as [| | |[| | | | |key wb dl|]| |] eqn:Hst; try by apply IH.
  case_match eqn:Hw; [by apply IH|]. wp_step. rewrite <-Hst. eapply untracked_rule; [done..|]. intros w1 U1 R1 P1. wp_step. apply get_process_rule. rewrite P1, Hp. wp_step. apply modify_rule. wp_step.
  set (x' := BFutex to wb dl). set (w2 := set_pm _ _). destruct U1 as [Hq Hprocs Hi Hr Hz Hs]. rewrite P1 in Hprocs, Hi, Hr, Hs.
  eapply wp_mid; [apply (track_rule w2 (delete pid (blocks (processes (pm w)))) pid x')|]; [by apply (index_view _ w1)|by rewrite lookup_delete_eq|]. cbv beta. intros [] w3 (I3 & C3 & F3).
  assert (processes (pm w3) = <[pid := with_state (Blocked x') p]> (processes (pm w))) as P3 by (rewrite (core_procs w2 w3) by done; cbn; by rewrite P1).
  pose proof (proc_ok_rest w w1 pid p R1 ltac:(by rewrite Hst) (iv_procs _ _ _ Hinv pid p Hp)) as Hok.
  assert (good w w3) as G3.
  { apply rest_good; [|eapply same_rest_trans; [exact R1|]; apply core_rest in C3; exact C3|rewrite P3; by apply dom_insert_lookup_L].
    unfold inv. rewrite P3, blocks_put. cbn. rewrite <-(insert_delete_eq (blocks _)). apply (inv_core _ (delete pid (blocks (processes (pm w)))) _ w2 w3 C3 I3).
    - intros i l' Hl'. rewrite F3 in Hl'. apply Hr in Hl'. apply files_insert; [by rewrite lookup_delete_eq|]. by right.
    - constructor; try done.
      + intros i q [[<- <-]|[Hne Hq']]%lookup_insert_Some; [destruct Hok; by constructor|]. destruct (Hprocs i q) as []; [by rewrite lookup_delete_ne|]. by constructor.
      + by apply (index_view _ w1).
      + intros cpu i (q & [Hne Hq']%lookup_delete_Some & Hrn)%Hs. exists q. by rewrite lookup_insert_ne. }
  by apply keeps_then.
Qed.

Lemma requeue_futex_keeps from to c1 c2 bitset : keeps (requeue_futex here from to c1 c2 bitset).
Proof.
  apply keeps_bind; [apply wake_futex_keeps|]. intros n. apply keeps_bind.
  { unfold requeue_armed_futex_waits. case_decide; [apply keeps_ret|]. apply keeps_get. intros w Hinv. by apply mark_armed_keeps. }
  intros k. apply keeps_get. intros w Hinv. case_match; [|wp_step; by apply good_refl]. apply keeps_bind; [apply requeue_waiters_keeps|intros; apply keeps_ret|done].
Qed.

Lemma wake_scopes_keeps p a n b : keeps (wake_futex_scopes here p a n b).
Proof. apply keeps_bind; [apply wake_futex_keeps|]. intros _. apply keeps_bind; [apply wake_futex_keeps|]. intros. apply keeps_ret. Qed.
End proofs.
