(* ===== verification/ProcessEnd.v ===== *)
(** * Processes: groups, exit of thread groups, wait, files and deadlines keep the invariant *)

From S2P Require Import Prelude Poll Errno Signal Process ProcessProof ProcessWake ProcessInv.

Section proofs.
Context {Env : Type} `{!ProcEnv Env}.
Abbreviation W := (pworld Env).
Abbreviation MP := (M (pworld Env) SysErr.SysErr).
Context (here : Z) (X : Prop).
Implicit Types (w : W) (P : gmap Z KernelProcess) (p : KernelProcess).

Lemma keeps_ok_or {A} (o : option A) e : X → keeps X (mok_or o e : MP A).
Proof. intros HX. destruct o; [apply keeps_ret|by apply keeps_throw]. Qed.

Lemma keeps_gets {A} (k : W → MP A) : (∀ w, keeps X (k w)) → keeps X (mget ≫= k).
Proof. intros Hk. apply keeps_get. intros w Hinv. by apply Hk. Qed.

(** Goes through the parts of an operation. *)
Ltac kept := repeat (cbv beta zeta; lazymatch goal with
  | |- keeps X (mret _) => apply keeps_ret
  | |- keeps X (mthrow _) => apply keeps_throw; done
  | |- keeps X (mok_or _ _) => apply keeps_ok_or; done
  | |- keeps X (with_env _) => apply keeps_env
  | |- keeps X (change_env _) => apply keeps_env
  | |- keeps X (mget ≫= _) => apply keeps_gets; intros ?
  | |- keeps X (_ ≫= _) => apply keeps_bind; [|intros ?]
  | |- keeps X (match ?x with _ => _ end) => destruct x
  end).

(** ** Process groups *)

Lemma regroup_known_keeps self g l : keeps X (regroup_known self g l : MP unit).
Proof.
  induction l as [|pid l IH]; cbn [regroup_known]; [apply keeps_ret|]. case_decide; [done|]. intros w Hinv. wp_step. apply get_process_rule.
  destruct (processes (pm w) !! pid) as [p|] eqn:Hp; wp_step; [apply modify_rule|wp_step; by apply IH].
  pose proof (put_same_good w pid p (with_identity (with_group g (identity p)) p) Hinv Hp ltac:(done) ltac:(done)) as G1.
  by apply keeps_then.
Qed.

Lemma regroup_all_keeps g l : X → keeps X (regroup_all g l : MP unit).
Proof.
  intros HX. induction l as [|pid l IH]; cbn [regroup_all]; [apply keeps_ret|]. intros w Hinv. wp_step. apply get_process_rule.
  destruct (processes (pm w) !! pid) as [p|] eqn:Hp; wp_step; [apply modify_rule|by split; [|apply good_refl]].
  pose proof (put_same_good w pid p (with_identity (with_group g (identity p)) p) Hinv Hp ltac:(done) ltac:(done)) as G1.
  by apply keeps_then.
Qed.

Lemma setpgid_keeps caller target g : X → keeps X (setpgid caller target g : MP KernelProcess).
Proof.
  intros HX. unfold setpgid. apply keeps_gets. intros w. kept; [apply regroup_known_keeps|by apply regroup_all_keeps].
Qed.

(** ** Exit of a thread group *)

(** A process that runs already may be queued again. *)
Lemma run_again_rule w pid p p' (Q : unit → W → Prop) (Qe : SysErr.SysErr → W → Prop) :
  inv w → processes (pm w) !! pid = Some p → p_state p = Runnable → alike p p' → p_state p' = Runnable → (∀ w', good w w' → Q () w') →
  wp_res (enqueue_runnable_pid here pid (assigned_cpu p')) (set_pm (set_processes (<[pid := p']> (processes (pm w))) (pm w)) w) Q Qe.
Proof.
  intros Hinv Hp Hst Ha Hrun HQ. pose proof (put_same_good w pid p p' Hinv Hp Ha ltac:(congruence)) as G1. destruct Ha as [Hid Hcpu Hpf]. set (w1 := set_pm _ _) in *.
  destruct (iv_procs _ _ _ (gd_inv _ _ G1) pid p') as [Pid Pcpu Pst Ppf]; [apply lookup_insert_eq|]. rewrite Hrun in Pst.
  apply enqueue_rule; [apply (gd_inv _ _ G1)|done|]. intros qs [Nok Non Nq]. apply HQ. eapply good_trans; [exact G1|].
  assert (∀ c x, queued (set_run_queues qs w1) c x ↔ queued w1 c x) as Nsame. { intros c x. rewrite Nq. split; [intros [?|[-> ->]]; done|by left]. }
  destruct (gd_inv _ _ G1) as [Hq Hprocs Hi Hr Hz Hs]. constructor; try done. constructor; try done.
  - intros i q Hq'. apply Hprocs in Hq'. revert Hq'. apply proc_ok_grow; [intros c; apply Non|intros c x; apply Nsame|done].
  - by apply (index_view _ w1).
  - intros c i Hc%Nsame. by apply Hs.
Qed.

Lemma end_members_keeps cur l : keeps X (end_members here cur l).
Proof.
  induction l as [|pid l IH]; cbn [end_members]; [apply keeps_ret|]. case_decide; [done|]. intros w Hinv. wp_step. apply get_process_rule.
  destruct (processes (pm w) !! pid) as [p|] eqn:Hp; [|by apply IH]. pose proof (pk_state _ _ _ (iv_procs _ _ _ Hinv pid p Hp)) as Hpst.
  assert (∀ w1, good w w1 → wp_res (end_members here cur l) w1 (λ _ w', good w w') (λ _ w', X ∧ good w w')) as Hgo.
  { intros w1 G1. by apply keeps_then. }
  destruct (p_state p) as [| |sg|x| |] eqn:Hst; try done; cbn [is_blocked_state]; wp_step; apply modify_rule; wp_step.
  - apply (run_again_rule w pid p (with_state Runnable p)); try done.
  - apply (run_idle_rule here w pid p (with_state Runnable p)); try done; try by rewrite Hst. intros w1 G1 _ _. wp_step. wp_step. by apply Hgo.
  - eapply wp_mid; [apply (run_blocked_rule here w pid p x (with_state Runnable (with_result (Some RSignalInterrupted) p))); done|]. cbv beta. intros _ w1 H1. wp_step.
    eapply wp_mid; [exact H1|]. cbv beta. intros _ w2 G2. by apply Hgo.
Qed.

Lemma begin_exit_keeps tgid cur status : keeps X (begin_thread_group_exit here tgid cur status).
Proof.
  apply keeps_bind; [by apply keeps_modify|]. intros _. apply keeps_get. intros w Hinv. case_match; [by apply end_members_keeps|wp_step; by apply good_refl].
Qed.

(** ** Wait, files and deadlines *)

Lemma wait_child_event_keeps parent sel options consume : keeps X (wait_child_event parent sel options consume : MP (option ChildEvent)).
Proof.
  apply keeps_get. intros w Hinv. destruct (child_events (pm w) !! parent) as [events|]; [|wp_step; by apply good_refl].
  destruct (position _ events) as [i|]; [|wp_step; by apply good_refl]. destruct (events !! i) as [ev|]; [|wp_step; by apply good_refl]. wp_step.
  eapply (wp_mid _ _ (λ _ w', good w w')); [|cbv beta; intros _ w' G'; by wp_step]. destruct consume; [|wp_step; by apply good_refl]. cbv zeta. wp_step. apply modify_rule.
  match goal with |- wp_res _ ?w1 _ _ => assert (good w w1) as G1 by (by apply quiet_good) end. set (w1 := set_pm _ _) in *.
  destruct (ce_kind ev); [|by wp_step..]. wp_step. apply modify_rule. pose proof (forget_zombie_good w1 (ce_pid ev) (gd_inv _ _ G1)) as G2. set (w2 := set_pm _ w1) in *.
  pose proof (good_trans _ _ _ G1 G2) as G12. wp_step.
  assert (∀ w3, good w w3 → wp_res (untrack_child_link (zombies (pm w) !! ce_pid ev ≫= z_parent) (ce_pid ev)) w3 (λ _ w', good w w') (λ _ _, False)) as Hlink.
  { intros w3 G3. apply child_link_rule. intros w4 Q4. eapply good_trans; [exact G3|]. apply quiet_good; [apply G3|done]. }
  destruct (zombies (pm w) !! ce_pid ev) as [z|] eqn:Hz; [|wp_step; by apply Hlink].
  apply mark_reaped_rule; [apply G12|by apply (iv_zombies _ _ _ Hinv (ce_pid ev))|]. intros w3 G3 _. apply Hlink. by eapply good_trans.
Qed.

Lemma wake_good w pid p x r :
  inv w → processes (pm w) !! pid = Some p → p_state p = Blocked x → wp_res (wake_process_with_result here pid r) w (λ _ w', good w w') (λ _ _, False).
Proof.
  intros Hinv Hp Hst. eapply wake_process_rule; [done..|]. intros w' I' R' P'. apply rest_good; [done|done|]. rewrite P'. by apply dom_insert_lookup_L.
Qed.

Lemma wake_files_keeps l : keeps X (wake_files here l).
Proof.
  induction l as [|pid l IH]; cbn [wake_files]; [apply keeps_ret|]. intros w Hinv. wp_step. apply get_process_rule. wp_step.
  eapply (wp_mid _ _ (λ _ w', good w w')); [|cbv beta; intros _ w1 G1; by apply keeps_then].
  destruct (processes (pm w) !! pid) as [p|] eqn:Hp; cbn [fmap option_fmap option_map]; [|wp_step; by apply good_refl].
  destruct (p_state p) as [| | |[]| |] eqn:Hst; first [by eapply wake_good|wp_step; by apply good_refl].
Qed.

Lemma wake_ready_keeps : keeps X (wake_ready_file_blocks here).
Proof.
  apply keeps_get. intros w Hinv. case_match; [wp_step; by apply good_refl|]. cbv zeta. apply keeps_bind; [by apply keeps_modify|intros _; apply wake_files_keeps|done].
Qed.

Lemma wake_expired_keeps now : keeps X (wake_expired_timers here now).
Proof.
  apply keeps_total. intros w Hinv. eapply wp_mid; [by apply wake_deadlines_rule|]. cbv beta. intros _ w' (I' & R' & P'). apply rest_good; [done|done|]. by rewrite P', dom_fmap_L.
Qed.
End proofs.
