(* ===== verification/ProcessSched.v ===== *)
(** * Processes: exit, dispatch and creation

    A process that runs is outside of the table ([held_ok]).  It comes from the
    head of a run queue and goes back to a queue, to the sets of the blocked
    ones, or to its end. *)

From S2P Require Import Prelude Poll Errno Signal Process ProcessProof ProcessWake ProcessInv ProcessEnd.

Section proofs.
Context {Env : Type} `{!ProcEnv Env}.
Abbreviation W := (pworld Env).
Abbreviation MP := (M (pworld Env) SysErr.SysErr).
Context (here : Z).
Implicit Types (w : W) (P : gmap Z KernelProcess) (p : KernelProcess).

(** ** Exit of a process *)

(** As [wp_res], but a panic is allowed when [Pp] holds. *)
Definition wpx (Pp : Prop) {A} (m : MP A) w (Q : A → W → Prop) : Prop :=
  match m w with (Ok a, w') => Q a w' | (Panic, _) => Pp | _ => False end.

Lemma wpx_bind Pp {A B} (m : MP A) (k : A → MP B) w (Q : B → W → Prop) : wpx Pp m w (λ a w', wpx Pp (k a) w' Q) → wpx Pp (m ≫= k) w Q.
Proof. unfold wpx, mbind, M_bind. by destruct (m w) as [[a|e| |] w']. Qed.
Lemma wpx_mono Pp {A} (m : MP A) w (Q Q' : A → W → Prop) : wpx Pp m w Q → (∀ a w', Q a w' → Q' a w') → wpx Pp m w Q'.
Proof. unfold wpx. destruct (m w) as [[a|e| |] w']; auto. Qed.
Lemma wpx_res Pp {A} (m : MP A) w (Q : A → W → Prop) : wp_res m w Q (λ _ _, False) → wpx Pp m w Q.
Proof. unfold wpx, wp_res, wp. destruct (m w) as [[a|e| |] w']; done. Qed.
Lemma wpx_ret Pp {A} (a : A) w (Q : A → W → Prop) : Q a w → wpx Pp (mret a) w Q.
Proof. done. Qed.
Lemma wpx_get Pp {A} (k : W → MP A) w (Q : A → W → Prop) : wpx Pp (k w) w Q → wpx Pp (mget ≫= k) w Q.
Proof. done. Qed.

Definition keepx (Pp : Prop) {A} (m : MP A) : Prop := ∀ w, inv w → wpx Pp m w (λ _ w', good w w').
Lemma keeps_x Pp {A} (m : MP A) : keeps False m → keepx Pp m.
Proof. intros Hm w Hinv. apply wpx_res. eapply wp_res_mono; [by apply Hm|done|]. by intros e w' [? _]. Qed.
Lemma keepx_ret Pp {A} (a : A) : keepx Pp (mret a).
Proof. intros w Hinv. by apply good_refl. Qed.
Lemma keepx_bind Pp {A B} (m : MP A) (k : A → MP B) : keepx Pp m → (∀ a, keepx Pp (k a)) → keepx Pp (m ≫= k).
Proof.
  intros Hm Hk w Hinv. apply wpx_bind. eapply wpx_mono; [by apply Hm|]. cbv beta. intros a w1 G1.
  eapply wpx_mono; [apply Hk, G1|]. cbv beta. intros x w2 G2. by eapply good_trans.
Qed.

Lemma keepx_gets Pp {A} (k : W → MP A) : (∀ w, keepx Pp (k w)) → keepx Pp (mget ≫= k).
Proof. intros Hk w Hinv. apply wpx_get. by apply Hk. Qed.
Ltac keptx := repeat (cbv beta zeta; lazymatch goal with
  | |- keepx _ (mret _) => apply keepx_ret
  | |- keepx _ (with_env _) => apply keeps_x, keeps_env
  | |- keepx _ (change_env _) => apply keeps_x, keeps_env
  | |- keepx _ (mget ≫= _) => apply keepx_gets; intros ?
  | |- keepx _ (_ ≫= _) => apply keepx_bind; [|intros ?]
  | |- keepx _ (match ?x with _ => _ end) => destruct x
  end).

Lemma keepx_panic (Pp : Prop) {A} : Pp → keepx Pp (mpanic : MP A).
Proof. intros HP w Hinv. exact HP. Qed.
Lemma keepx_expect (Pp : Prop) {A} (o : option A) : Pp → keepx Pp (mexpect o : MP A).
Proof. intros HP. destruct o; [apply keepx_ret|by apply keepx_panic]. Qed.

Lemma robust_word_keeps Pp p a : keepx Pp (cleanup_robust_word here p a).
Proof. unfold cleanup_robust_word, read_exit. keptx. apply keeps_x, wake_scopes_keeps. Qed.
Lemma robust_entry_keeps (Pp : Prop) p o a : Pp → keepx Pp (cleanup_robust_entry here p o a).
Proof. intros HP. unfold cleanup_robust_entry. case_decide; [by apply keepx_panic|]. case_match; [apply robust_word_keeps|apply keepx_ret]. Qed.
Lemma robust_loop_keeps (Pp : Prop) n p h o a : Pp → keepx Pp (robust_loop here n p h o a).
Proof.
  intros HP. revert a. induction n as [|n IH]; intros a; cbn [robust_loop]; unfold read_exit; keptx; [by apply robust_entry_keeps|apply IH].
Qed.

Lemma robust_list_keeps p : keepx (robust_list_head p ≠ None) (cleanup_robust_list here p).
Proof.
  unfold cleanup_robust_list. destruct (robust_list_head p) as [h|] eqn:Hh; [|apply keepx_ret]. assert (Some h ≠ None) as HP by done. unfold read_exit, add_addr.
  keptx; first [by apply keepx_expect|by apply robust_loop_keeps|by apply robust_entry_keeps].
Qed.

Definition robust p : Prop := robust_list_head p ≠ None.

(** Sequencing with what held at the start. *)
Lemma keepx_then Pp {A} (m : MP A) w w1 (Q : A → W → Prop) : keepx Pp m → good w w1 → (∀ a w', good w w' → Q a w') → wpx Pp m w1 Q.
Proof. intros Hm G1 HQ. eapply wpx_mono; [apply Hm, G1|]. cbv beta. intros a w2 G2. apply HQ. by eapply good_trans. Qed.

Ltac xthen := apply wpx_bind; eapply keepx_then; [|eassumption|].

Lemma finish_exit_rule p w (Q : KernelProcess → W → Prop) :
  inv w → (∀ p' w', good w w' → p' = p ∨ p' = with_clear_tid None p → Q p' w') → wpx (robust p) (finish_process_exit here p) w Q.
Proof.
  intros Hinv HQ. pose proof (good_refl w Hinv) as G0. unfold finish_process_exit.
  xthen; [apply keeps_x, keeps_env|]. intros _ w1 G1. xthen; [by apply keeps_x, keeps_modify|]. intros _ w2 G2. xthen; [apply robust_list_keeps|]. intros _ w3 G3.
  destruct (clear_child_tid p) as [a|]; [|apply wpx_ret; by apply HQ; [|left]]. cbv zeta. xthen; [apply keeps_x, keeps_env|]. intros r w4 G4.
  xthen; [keptx; apply keeps_x, wake_scopes_keeps|]. intros _ w5 G5. apply wpx_ret. by apply HQ; [|right].
Qed.

Lemma vfork_parent_keeps parent child : keeps False (wake_vfork_parent here parent child : MP unit).
Proof.
  intros w Hinv. unfold wake_vfork_parent. wp_step. apply get_process_rule. destruct (processes (pm w) !! parent) as [p|] eqn:Hp; [|wp_step; by apply good_refl].
  destruct (p_state p) as [| | |[]| |] eqn:Hst; try (wp_step; by apply good_refl). case_decide; [|wp_step; by apply good_refl]. wp_step. apply modify_rule.
  apply (run_idle_rule here w parent p (woken (RCompletedValue child) p)); try done; try by rewrite Hst.
Qed.

Lemma untrack_group_keeps tgid pid : keeps False (untrack_thread_group tgid pid : MP unit).
Proof.
  unfold untrack_thread_group. apply keeps_gets. intros w. case_match; [|apply keeps_ret]. apply keeps_bind; [by apply keeps_modify|]. intros _. case_decide; [|apply keeps_ret].
  apply keeps_bind; [by apply keeps_modify|]. intros _. apply keeps_env.
Qed.

Lemma reap_rule p status w (Q : unit → W → Prop) :
  inv w → is_Some (pidfds w !! p_pidfd p) → (∀ w', good w w' → Q () w') → wpx (robust p) (reap_exited_process here p status) w Q.
Proof.
  intros Hinv Hpf HQ. pose proof (good_refl w Hinv) as G0. unfold reap_exited_process. cbv zeta. xthen; [by apply keeps_x, keeps_modify|]. intros _ w1 G1.
  assert (∀ w', good w w' → is_Some (pidfds w' !! p_pidfd p)) as Hpf' by (intros w' G'; by apply (gd_pidfds _ _ G')).
  apply wpx_bind, wpx_res. apply mark_exited_rule; [apply G1|by apply Hpf'|]. intros w2 G2 _. pose proof (good_trans _ _ _ G1 G2) as G2'. clear G1 G2. rename G2' into G2.
  apply wpx_bind. apply finish_exit_rule; [apply G2|]. intros p' w3 G3 Hp'. pose proof (good_trans _ _ _ G2 G3) as G3'. clear G2 G3. rename G3' into G3.
  assert (p_pidfd p' = p_pidfd p) as Hpp by (by destruct Hp' as [-> | ->]).
  xthen; [keptx; apply keeps_x, vfork_parent_keeps|]. intros _ w4 G4. xthen; [apply keeps_x, untrack_group_keeps|]. intros _ w5 G5. rewrite Hpp.
  assert (∀ w' m, good w w' → (∀ w'', good w w'' → wpx (robust p) m w'' Q) → wpx (robust p) (mark_reaped (p_pidfd p) ≫= λ _, m) w' Q) as Hreap.
  { intros w' m G' Hm. apply wpx_bind, wpx_res. apply mark_reaped_rule; [apply G'|by apply Hpf'|]. intros w'' G'' _. apply Hm. by eapply good_trans. }
  destruct (is_thread p'). { apply wpx_res. apply mark_reaped_rule; [apply G5|by apply Hpf'|]. intros w6 G6 _. apply HQ. by eapply good_trans. }
  apply wpx_get. xthen; [keptx; apply keeps_x; intros w' I'; eapply wp_res_mono; [by apply notify_signal_rule|done|done]|]. intros _ w6 G6. case_match.
  - apply Hreap; [done|]. intros w7 G7. apply wpx_res, child_link_rule. intros w8 Q8. apply HQ. eapply good_trans; [exact G7|]. apply quiet_good; [apply G7|done].
  - apply wpx_bind, wpx_res, modify_rule. apply wpx_res.
    match goal with |- wp_res _ ?w7 _ _ => assert (good w w7) as G7 end.
    { eapply good_trans; [exact G6|]. apply zombies_good; [apply G6|]. intros i z [[<- <-]|[_ Hz]]%lookup_insert_Some; [by apply Hpf'|]. by apply (iv_zombies _ _ _ (gd_inv _ _ G6) i). }
    eapply wp_mid; [apply notify_event_rule, G7|]. cbv beta. intros [] w8 G8. apply HQ. by eapply good_trans.
Qed.

(** ** A process outside of the table *)

Record held_ok w p : Prop := {
  hd_cpu : online w (assigned_cpu p);
  hd_pidfd : is_Some (pidfds w !! p_pidfd p);
  hd_out : processes (pm w) !! id_pid (identity p) = None;
}.

Lemma held_good w w' p : good w w' → held_ok w p → held_ok w' p.
Proof.
  intros [] []. constructor; [by apply gd_online|by apply gd_pidfds|]. apply not_elem_of_dom. rewrite gd_dom. by apply not_elem_of_dom.
Qed.
Lemma held_alike w p p' : alike p p' → held_ok w p → held_ok w p'.
Proof. intros [] []. constructor; congruence. Qed.

(** The process [pid] may have entered the table. *)
Record placed (pid : Z) w w' : Prop := {
  pl_inv : inv w';
  pl_online c : online w' c ↔ online w c;
  pl_pidfds h : is_Some (pidfds w !! h) → is_Some (pidfds w' !! h);
  pl_dom i : i ≠ pid → is_Some (processes (pm w') !! i) ↔ is_Some (processes (pm w) !! i);
  pl_next : next_pid (pm w') = next_pid (pm w);
}.

Lemma good_placed pid w w' : good w w' → placed pid w w'.
Proof. intros []. constructor; try done. intros i _. by rewrite <-!elem_of_dom, gd_dom. Qed.
Lemma placed_after pid w1 w2 w3 : good w1 w2 → placed pid w2 w3 → placed pid w1 w3.
Proof.
  intros [] []. constructor; auto; [intros c; by rewrite pl_online0|intros i Hi; rewrite pl_dom0 by done; by rewrite <-!elem_of_dom, gd_dom|congruence].
Qed.

(** About to sleep: the files may know the process already. *)
Record presleep (pid : Z) (x : ProcessBlock) w : Prop := {
  ps_queues : queues_ok w;
  ps_procs i p : processes (pm w) !! i = Some p → proc_ok w i p;
  ps_index : index_ok (blocks (processes (pm w))) w;
  ps_regs i l : file_wait_registrations (pm w) !! i = Some l → waits_files (blocks (processes (pm w))) i ∨ (i = pid ∧ files_block x = true);
  ps_zombies i z : zombies (pm w) !! i = Some z → is_Some (pidfds w !! z_pidfd z);
  ps_sound cpu i : queued w cpu i → runs (processes (pm w)) cpu i;
}.

Lemma inv_presleep pid x w : inv w → presleep pid x w.
Proof. intros []. constructor; try done. intros i l Hl. left. by eapply iv_regs. Qed.

Lemma presleep_inv pid x w :
  presleep pid x w → file_wait_registrations (pm w) !! pid = None → inv w.
Proof. intros [] Hn. constructor; try done. intros i l Hl. destruct (ps_regs0 i l Hl) as [?|[-> _]]; [done|congruence]. Qed.

(** Only what the files know changes. *)
Record regs_change (pid : Z) w w' : Prop := {
  rc_core : same_core w w';
  rc_timers : same_timers w w';
  rc_files : blocked_files (pm w') = blocked_files (pm w);
  rc_futexes : blocked_futexes (pm w') = blocked_futexes (pm w);
  rc_other i : i ≠ pid → file_wait_registrations (pm w') !! i = file_wait_registrations (pm w) !! i;
}.
Lemma regs_change_refl pid w : regs_change pid w w.
Proof. done. Qed.
Lemma regs_change_trans pid w1 w2 w3 : regs_change pid w1 w2 → regs_change pid w2 w3 → regs_change pid w1 w3.
Proof. intros [C1 (?&?&?) ? ? O1] [C2 (?&?&?) ? ? O2]. constructor; [unfold same_core in *; congruence|repeat split; congruence|congruence..|]. intros i Hi. by rewrite O2, O1. Qed.

Lemma index_rest b w w' : same_timers w w' → blocked_files (pm w') = blocked_files (pm w) → blocked_futexes (pm w') = blocked_futexes (pm w) → index_ok b w → index_ok b w'.
Proof. intros (H1 & H2 & H3) H4 H5 [[] Hf Hx Hn]. constructor; [constructor|..]; rewrite ?H1, ?H2, ?H3, ?H4, ?H5; done. Qed.

Lemma presleep_change pid x w w' :
  presleep pid x w → regs_change pid w w' → (is_Some (file_wait_registrations (pm w') !! pid) → files_block x = true) → presleep pid x w'.
Proof.
  intros [] [Hc Ht Hf Hx Ho] Hr. constructor; rewrite ?(core_procs w w') by done; try done.
  - unfold queues_ok in *. by rewrite (core_queues w w').
  - intros i p Hp. eapply proc_ok_core; [done|]. by apply ps_procs0.
  - by apply (index_rest _ w).
  - intros i l Hl. destruct (decide (i = pid)) as [->|Hne]; [right; split; [done|by apply Hr; eexists]|]. rewrite Ho in Hl by done. by eapply ps_regs0.
  - intros i z. rewrite (core_zombies w w'), (core_pidfds w w') by done. apply ps_zombies0.
  - intros cpu i. unfold queued. rewrite (core_queues w w') by done. apply ps_sound0.
Qed.

Lemma env_change pid w e : regs_change pid w (set_env e w).
Proof. done. Qed.

Lemma register_waits_rule pid' table l acc w (Q : list (Z * Z) → W → Prop) (Qe : SysErr.SysErr → W → Prop) :
  (∀ r e, Q r (set_env e w)) → wp_res (register_waits pid' table l acc) w Q Qe.
Proof.
  revert acc w. induction l as [|[fd ev] l IH]; intros acc w HQ; cbn [register_waits]; [wp_step; destruct w; apply HQ|]. wp_step. wp_step.
  case_match; [|by apply IH]. wp_step. apply with_env_rule. intros r e _. apply IH. intros r' e'. apply HQ.
Qed.

Lemma ensure_rule pid p x w :
  presleep pid x w → p_state p = Blocked x →
  wp_res (ensure_file_wait_registration pid p) w (λ _ w', presleep pid x w' ∧ regs_change pid w w') (λ _ _, False).
Proof.
  intros Hp Hst. unfold ensure_file_wait_registration. wp_step. wp_step. case_decide as Hreg; [by wp_step|].
  assert (∀ l, files_block x = true →
     wp_res (E := SysErr.SysErr) (made ← register_waits pid (p_files p) l []; if decide (made = []) then mret () else modify_pm (λ m, set_registrations (<[pid := made]> (file_wait_registrations m)) m)) w
       (λ _ w', presleep pid x w' ∧ regs_change pid w w') (λ _ _, False)) as Hgo.
  { intros l Hx. wp_step. apply register_waits_rule. intros made e. case_decide.
    - wp_step. split; [|done]. by eapply presleep_change; [|apply env_change|].
    - apply modify_rule. match goal with |- presleep _ _ ?w' ∧ _ => assert (regs_change pid w w') as Hrc end.
      { constructor; try done. intros i Hi. cbn. by rewrite lookup_insert_ne. }
      split; [|done]. by eapply presleep_change. }
  rewrite Hst. destruct x; try (by wp_step); by apply Hgo.
Qed.

Lemma any_ready_rule table l w (Q : bool → W → Prop) (Qe : SysErr.SysErr → W → Prop) : (∀ r e, Q r (set_env e w)) → wp_res (any_ready table l) w Q Qe.
Proof.
  revert w. induction l as [|[fd ev] l IH]; intros w HQ; cbn [any_ready]; [wp_step; destruct w; apply HQ|]. wp_step. wp_step.
  case_match; [|wp_step; destruct w; apply HQ]. wp_step. apply with_env_rule. intros r e _. repeat case_match; [wp_step; apply HQ|apply IH; intros; apply HQ..].
Qed.

Lemma ready_rule p w (Q : option BlockResult → W → Prop) (Qe : SysErr.SysErr → W → Prop) :
  (∀ r e, Q r (set_env e w)) → wp_res (blocked_file_ready_result p) w Q Qe.
Proof.
  intros HQ. assert (∀ r, Q r w) as HQ' by (intros r; destruct w; apply HQ). unfold blocked_file_ready_result. destruct (p_state p) as [| | |[]| |]; try (wp_step; apply HQ').
  - wp_step. wp_step. case_match; [|wp_step; apply HQ']. wp_step. apply with_env_rule. intros r e _. wp_step. apply HQ.
  - wp_step. apply any_ready_rule. intros r e. wp_step. apply HQ.
Qed.

(** Into the table and the run queue. *)
Lemma enter_rule w pid p' (Q : unit → W → Prop) (Qe : SysErr.SysErr → W → Prop) :
  inv w → id_pid (identity p') = pid → p_state p' = Runnable → held_ok w p' →
  (∀ w', placed pid w w' → processes (pm w') = <[pid := p']> (processes (pm w)) → Q () w') →
  wp_res (enqueue_runnable_pid here pid (assigned_cpu p')) (set_pm (set_processes (<[pid := p']> (processes (pm w))) (pm w)) w) Q Qe.
Proof.
  intros Hinv Hid Hrun [Hon Hpf Hout] HQ. rewrite Hid in Hout. assert (blocks (processes (pm w)) !! pid = None) as Hb by (by rewrite blocks_lookup, Hout).
  apply (run_rule here w pid p' (blocks (processes (pm w)))); [by rewrite delete_id|done..|]. intros w' I' R' P'. apply HQ; [|done].
  destruct R' as [R' O']. unfold rest in R'. injection R' as ??????????. constructor; [|done|congruence| |done].
  - unfold inv. rewrite P', blocks_put, Hrun. cbn. by rewrite delete_id.
  - intros i Hi. by rewrite P', lookup_insert_ne.
Qed.

(** The same, with the queue first. *)
Lemma enter_last_rule w pid p' (Q : unit → W → Prop) (Qe : SysErr.SysErr → W → Prop) :
  inv w → id_pid (identity p') = pid → p_state p' = Runnable → held_ok w p' →
  (∀ w', placed pid w w' → processes (pm w') = <[pid := p']> (processes (pm w)) → Q () w') →
  wp_res (_ ← enqueue_runnable_pid here pid (assigned_cpu p'); put_process pid p') w Q Qe.
Proof.
  intros Hinv Hid Hrun Hh HQ. pose proof (enter_rule w pid p' Q Qe Hinv Hid Hrun Hh HQ) as Hr. revert Hr. clear -Hh. destruct Hh as [[q Hq] _ _].
  unfold enqueue_runnable_pid, wp_res, wp, mbind, M_bind. cbn. rewrite !decide_True by (by eexists). rewrite Hq. done.
Qed.

(** Into the table with no queue to enter. *)
Lemma settle_inv w w1 p x :
  let pid := id_pid (identity p) in
  presleep pid x w → same_core w w1 → file_wait_registrations (pm w1) = file_wait_registrations (pm w) → index_ok (<[pid := x]> (blocks (processes (pm w)))) w1 →
  held_ok w p → p_state p = Blocked x →
  inv (set_pm (set_processes (<[pid := p]> (processes (pm w1))) (pm w1)) w1).
Proof.
  intros pid [] Hc Hf Hi [Hon Hpf Hout] Hst. fold pid in Hout. assert (blocks (processes (pm w)) !! pid = None) as Hb by (by rewrite blocks_lookup, Hout).
  unfold inv. cbn [pm set_pm processes set_processes]. rewrite blocks_put, Hst. cbn [block_of]. rewrite (core_procs w w1) by done. constructor.
  - unfold queues_ok. cbn. by rewrite (core_queues w w1).
  - intros i q Hq. assert (proc_ok w i q) as Hok; [|by apply (proc_ok_core w w1) in Hok as []].
    apply lookup_insert_Some in Hq as [[<- <-]|[_ Hq]]; [constructor; try done; by rewrite Hst|by apply ps_procs0].
  - by apply (index_view _ w1).
  - intros i l. cbn. rewrite Hf. intros Hl. apply files_insert; [done|]. destruct (ps_regs0 i l Hl) as [?|[-> ?]]; [by right|by left].
  - intros i z. cbn. rewrite (core_zombies w w1), (core_pidfds w w1) by done. apply ps_zombies0.
  - intros cpu i. unfold queued. cbn. rewrite (core_queues w w1) by done. intros (q & Hq & Hr)%ps_sound0. exists q. rewrite lookup_insert_ne; [done|]. intros <-. congruence.
Qed.

Lemma settle_placed pid p w w1 :
  same_core w w1 → inv (set_pm (set_processes (<[pid := p]> (processes (pm w1))) (pm w1)) w1) →
  placed pid w (set_pm (set_processes (<[pid := p]> (processes (pm w1))) (pm w1)) w1).
Proof.
  intros Hc Hinv. pose proof (core_rest w w1 Hc) as [R O]. unfold rest in R. injection R as ??????????. constructor; cbn; try done; [congruence|].
  intros i Hi. by rewrite lookup_insert_ne, (core_procs w w1).
Qed.

Lemma held_core w w' p : same_core w w' → held_ok w p → held_ok w' p.
Proof. intros Hc []. constructor; unfold online; by rewrite ?(core_queues w w'), ?(core_pidfds w w'), ?(core_procs w w'). Qed.

Lemma core_placed pid w w1 w2 : same_core w w1 → placed pid w1 w2 → placed pid w w2.
Proof.
  intros Hc []. pose proof (core_rest w w1 Hc) as [R O]. unfold rest in R. injection R as ??????????. constructor; try done; [intros c; by rewrite pl_online0| |intros i Hi; rewrite pl_dom0, (core_procs w w1) by done; done|congruence].
  intros h. rewrite <-(core_pidfds w w1) by done. apply pl_pidfds0.
Qed.

Lemma requeue_blocked_rule p x w :
  let pid := id_pid (identity p) in
  presleep pid x w → held_ok w p → p_state p = Blocked x → wp_res (requeue_process here p) w (λ _ w', placed pid w w') (λ _ _, False).
Proof.
  intros pid Hpre Hh Hst. unfold requeue_process. cbv zeta. fold pid. rewrite Hst at 1. wp_step.
  eapply wp_res_mono; [by apply ensure_rule|cbv beta..]; [|done]. intros _ w1 [S1 C1]. wp_step. apply ready_rule. intros r e.
  pose proof (regs_change_trans _ _ _ _ C1 (env_change pid w1 e)) as C2. set (w2 := set_env e w1) in *.
  assert (presleep pid x w2) as S2. { eapply presleep_change; [exact S1|apply env_change|]. intros [l Hl]. destruct (ps_regs _ _ _ S1 pid l Hl) as [(y & Hy & _)|[_ ?]]; [|done].
    rewrite blocks_lookup, (core_procs w w1) in Hy by apply C1. pose proof (hd_out _ _ Hh) as Ho. fold pid in Ho. by rewrite Ho in Hy. }
  pose proof (held_core _ _ _ (rc_core _ _ _ C2) Hh) as H2. destruct r as [result|].
  - wp_step. eapply wp_res_mono; [apply unregister_files_rule|cbv beta..]; [|done]. intros _ w3 (C3 & T1 & T2 & T3 & F3 & X3 & G3).
    assert (regs_change pid w2 w3) as C23. { constructor; try done. intros i Hi. by rewrite G3, lookup_delete_ne. }
    pose proof (regs_change_trans _ _ _ _ C2 C23) as C13. assert (inv w3) as I3.
    { apply (presleep_inv pid x); [|by rewrite G3, lookup_delete_eq]. eapply presleep_change; [exact S2|done|]. rewrite G3, lookup_delete_eq. by intros [? ?]. }
    set (p' := with_state Runnable (with_result (Some result) p)). apply (enter_last_rule w3 pid p'); try done; [by apply (held_alike _ p); [|apply (held_core w)]; [done|apply C13|]|].
    intros w4 P4 _. eapply core_placed; [apply C13|exact P4].
  - wp_step. rewrite Hst. eapply wp_res_mono; [apply (track_rule w2 (blocks (processes (pm w2))) pid x)|cbv beta..]; [apply S2| |intros _ w3 (I3 & C3 & F3)|done].
    { rewrite blocks_lookup. pose proof (hd_out _ _ H2) as Ho. fold pid in Ho. by rewrite Ho. }
    assert (same_core w w3) as C13 by (pose proof (rc_core _ _ _ C2); unfold same_core in *; congruence).
    unfold put_process. apply modify_rule. apply settle_placed; [done|]. apply (settle_inv w2 w3 p x); done.
Qed.

Lemma requeue_rule p w (Q : unit → W → Prop) :
  inv w → held_ok w p → (∀ w', placed (id_pid (identity p)) w w' → Q () w') → wpx (robust p) (requeue_process here p) w Q.
Proof.
  intros Hinv Hh HQ. assert (∀ w', good w w' → Q () w') as HQg by (intros w' G'; by apply HQ, good_placed). destruct (p_state p) as [| |sg|x|st|] eqn:Hst.
  - unfold requeue_process. rewrite Hst. apply wpx_res, enter_last_rule; try done. intros w' P' _. by apply HQ.
  - unfold requeue_process. rewrite Hst. by apply HQg, good_refl.
  - unfold requeue_process. rewrite Hst. apply wpx_res. wp_step. unfold ensure_file_wait_registration. rewrite Hst. wp_step. wp_step.
    eapply (wp_mid _ _ (λ _ w', w' = w)); [by case_decide; wp_step|]. cbv beta. intros _ w' ->. wp_step. unfold blocked_file_ready_result. rewrite Hst.
    wp_step. wp_step. cbn [track_blocked_process]. wp_step. apply modify_rule. apply HQ. apply settle_placed; [done|]. destruct Hh as [Hon Hpf Hout]. set (pid := id_pid (identity p)) in *.
    unfold inv. cbn [pm set_pm processes set_processes]. rewrite blocks_put, Hst. cbn [block_of]. rewrite delete_id by (by rewrite blocks_lookup, Hout).
    destruct Hinv. constructor; try done.
    + intros i q [[<- <-]|[_ Hq]]%lookup_insert_Some; [constructor; try done; by rewrite Hst|]. by destruct (iv_procs i q Hq).
    + by apply (index_view _ w).
    + intros cpu i (q & Hq & Hr)%iv_sound. exists q. rewrite lookup_insert_ne; [done|]. intros <-. congruence.
  - apply wpx_res. eapply wp_mid; [apply (requeue_blocked_rule p x); [by apply inv_presleep|done..]|]. cbv beta. intros [] w'. apply HQ.
  - unfold requeue_process. rewrite Hst. apply reap_rule; [done|apply Hh|done].
  - unfold requeue_process. rewrite Hst. by apply HQg, good_refl.
Qed.

(** A later form of a process. *)
Definition akin p p' : Prop := alike p p' ∧ robust_list_head p' = robust_list_head p.

Lemma requeue_akin p p' w w1 (Q : unit → W → Prop) :
  good w w1 → held_ok w p → akin p p' → (∀ w', placed (id_pid (identity p)) w w' → Q () w') → wpx (robust p) (requeue_process here p') w1 Q.
Proof.
  intros G1 Hh [Ha Hr] HQ. unfold robust. rewrite <-Hr. apply requeue_rule; [apply G1|by apply (held_good w), (held_alike _ p)|].
  intros w' P'. apply HQ. rewrite (al_identity _ _ Ha) in P'. by eapply placed_after.
Qed.

Lemma fatal_signal_rule p signal w (Q : KernelProcess → W → Prop) (Qe : SysErr.SysErr → W → Prop) :
  inv w → (∀ w', good w w' → Q (with_state (Exited (128 + signal)) p) w') → wp_res (fatal_signal here p signal) w Q Qe.
Proof.
  intros Hinv HQ. unfold fatal_signal. cbv zeta. wp_step.
  eapply (wp_mid _ _ (λ _ w', good w w')); [|cbv beta; intros _ w' G'; wp_step; by apply HQ]. destruct (is_thread p); [|wp_step; by apply good_refl].
  eapply wp_res_mono; [by apply (begin_exit_keeps here False)|done|]. by intros e w' [? _].
Qed.

Lemma sync_fault_rule p signal code w (Q : bool * KernelProcess → W → Prop) (Qe : SysErr.SysErr → W → Prop) :
  inv w → (∀ r w', good w w' → akin p r.2 → Q r w') → wp_res (queue_synchronous_fault_signal here p signal code) w Q Qe.
Proof.
  intros Hinv HQ. unfold queue_synchronous_fault_signal. wp_step. wp_step. case_match; [|wp_step; by apply HQ]. case_decide.
  - wp_step. apply signals_enqueue_rule. intros sg w' Q'. wp_step. apply HQ; [by apply quiet_good|done].
  - wp_step. apply fatal_signal_rule; [done|]. intros w' G'. wp_step. by apply HQ.
Qed.

Lemma finish_process_rule p reason w :
  inv w → held_ok w p → wpx (robust p) (finish_process here p reason) w (λ _ w', placed (id_pid (identity p)) w w').
Proof.
  intros Hinv Hh. pose proof (good_refl w Hinv) as G0. unfold finish_process. cbv zeta. xthen; [keptx|]. intros handled w1 G1.
  assert (∀ p' r w', good w w' → akin p p' → wpx (robust p) (_ ← requeue_process here p'; mret r) w' (λ (_ : ScheduleEvent) w', placed (id_pid (identity p)) w w')) as Hreq.
  { intros p' r w' G' Ha. apply wpx_bind. eapply requeue_akin; [done..|]. intros w'' P''. by apply wpx_ret. }
  assert (∀ s c r w', good w w' → wpx (robust p) (p ← drain_queued_signals p; x ← queue_synchronous_fault_signal here p s c; _ ← requeue_process here x.2; mret r) w'
            (λ (_ : ScheduleEvent) w', placed (id_pid (identity p)) w w')) as Hsync.
  { intros s c r w' G'. apply wpx_bind, wpx_res, drain_rule. intros sg w2 Q2. apply wpx_bind, wpx_res. pose proof (good_trans _ _ _ G' (quiet_good _ _ (gd_inv _ _ G') Q2)) as G2.
    apply sync_fault_rule; [apply G2|]. intros x w3 G3 Hx. apply Hreq; [by eapply good_trans|]. by destruct Hx as [[] ?]. }
  destruct reason as [v|v c [a|s|[s|]]]; [| |by apply Hsync..|].
  - apply wpx_bind, wpx_res, drain_rule. intros sg w2 Q2. apply Hreq; [|done]. eapply good_trans; [exact G1|]. apply quiet_good; [apply G1|done].
  - destruct handled; [by apply Hreq|by apply Hsync].
  - apply wpx_bind, wpx_res, drain_rule. intros sg w2 Q2. apply Hreq; [|done]. eapply good_trans; [exact G1|]. apply quiet_good; [apply G1|done].
Qed.

Lemma commit_exec_rule p w (Q : bool * KernelProcess → W → Prop) (Qe : SysErr.SysErr → W → Prop) :
  (∀ r w', quiet w w' → akin p r.2 → Q r w') → wp_res (commit_pending_exec p) w Q Qe.
Proof.
  intros HQ. unfold commit_pending_exec. destruct (pending_exec p) as [t|]; [|wp_step; by apply HQ]. cbv zeta. wp_step. apply change_env_rule. intros e. wp_step. wp_step.
  destruct (prepare_for_exec _ _) as [s tb]. wp_step. wp_step. wp_step. by apply HQ.
Qed.

Lemma finish_syscall_rule p number d w :
  inv w → held_ok w p → wpx (robust p) (finish_syscall_dispatch here p number d) w (λ _ w', placed (id_pid (identity p)) w w').
Proof.
  intros Hinv Hh. pose proof (good_refl w Hinv) as G0. unfold finish_syscall_dispatch. cbv zeta. xthen; [by apply keeps_x, keeps_modify|]. intros _ w1 G1.
  assert (∀ p' r w', good w w' → akin p p' → wpx (robust p) (_ ← requeue_process here p'; mret r) w' (λ (_ : ScheduleEvent) w', placed (id_pid (identity p)) w w')) as Hreq.
  { intros p' r w' G' Ha. apply wpx_bind. eapply requeue_akin; [done..|]. intros w'' P''. by apply wpx_ret. }
  destruct d as [v|st|st].
  - apply wpx_bind. eapply (wpx_mono _ _ _ (λ p' w', good w w' ∧ akin p p')); [|cbv beta; intros p' w' [G' Ha]; by apply Hreq].
    destruct (p_state p); try by apply wpx_ret. apply wpx_res. wp_step. apply commit_exec_rule. intros r w2 Q2 Ha.
    assert (good w w2) as G2 by (eapply good_trans; [exact G1|]; apply quiet_good; [apply G1|done]). wp_step.
    eapply (wp_mid _ _ (λ _ w', good w w')); [|cbv beta; intros _ w3 G3; wp_step; split; [done|]; by destruct Ha as [[] ?]].
    destruct r.1; [by wp_step|]. apply change_env_rule. intros e. eapply good_trans; [exact G2|]. apply quiet_good; [apply G2|done].
  - by apply Hreq.
  - xthen; [apply keeps_x, begin_exit_keeps|]. intros _ w2 G2. by apply Hreq.
Qed.

Lemma finish_block_rule p block w :
  inv w → held_ok w p → is_Some (pending_syscall p) → wpx (robust p) (finish_kernel_block here p block) w (λ _ w', placed (id_pid (identity p)) w w').
Proof.
  intros Hinv Hh [number Hn]. pose proof (good_refl w Hinv) as G0. unfold finish_kernel_block. cbv zeta. xthen; [keptx; by apply keeps_x, keeps_modify|]. intros _ w1 G1.
  set (pid := id_pid (identity p)) in *.
  assert (∀ p' w', good w w' → p_state p' = Runnable → akin p p' → pending_syscall p' = Some number →
     wpx (robust p) (number ← mexpect (pending_syscall p'); _ ← requeue_process here p'; mret (SSyscall pid number)) w' (λ _ w', placed pid w w')) as Hrun.
  { intros p' w' G' Hst Ha Hs. rewrite Hs. apply wpx_bind, wpx_ret, wpx_bind. eapply requeue_akin; [done..|]. intros w'' P''. by apply wpx_ret. }
  assert (∀ p' w' w2, good w w2 → same_core w2 w' → presleep pid block w' → p_state p' = Blocked block → akin p p' → pending_syscall p' = Some number →
     wpx (robust p) (number ← mexpect (pending_syscall p'); _ ← requeue_process here p'; mret (SSyscall pid number)) w' (λ _ w', placed pid w w')) as Hblk.
  { intros p' w' w2 G2 C2 S2 Hst [Ha _] Hs. rewrite Hs. apply wpx_bind, wpx_ret, wpx_bind, wpx_res. assert (id_pid (identity p') = pid) as Hid by apply Ha.
    eapply wp_mid; [apply (requeue_blocked_rule p' block); [by rewrite Hid| |done]|cbv beta; intros _ w3 P3; apply wpx_ret; rewrite Hid in P3; eapply placed_after; [exact G2|]; by eapply core_placed].
    apply (held_alike _ p); [done|]. apply (held_core w2); [done|]. by apply (held_good w). }
  apply wpx_bind. unfold block_from_disposition. cbv zeta.
  assert (wpx (robust p) (mret (with_state (Blocked block) (with_result None p))) w1
            (λ a w', wpx (robust p) (number ← mexpect (pending_syscall a); _ ← requeue_process here a; mret (SSyscall pid number)) w' (λ _ w', placed pid w w'))) as Hplain.
  { apply wpx_ret. apply (Hblk _ w1 w1); try done. apply inv_presleep, G1. }
  destruct block; try exact Hplain.
  - apply wpx_bind, wpx_res. eapply wp_mid; [apply (ensure_rule pid _ (BFile fd events)); [apply inv_presleep, G1|done]|]. cbv beta. intros _ w2 [S2 C2]. apply wpx_ret.
    apply (Hblk _ w2 w1); try done. apply C2.
  - apply wpx_bind, wpx_res. eapply wp_mid; [apply (ensure_rule pid _ (BPoll deadline_nanos)); [apply inv_presleep, G1|done]|]. cbv beta. intros _ w2 [S2 C2]. apply wpx_ret.
    apply (Hblk _ w2 w1); try done. apply C2.
  - apply wpx_get. xthen; [by apply keeps_x, keeps_modify|]. intros _ w2 G2.
    assert (wpx (robust p) (mret (with_state (Blocked (BFutex key bitset deadline_nanos)) (with_result None p))) w2
            (λ a w', wpx (robust p) (number ← mexpect (pending_syscall a); _ ← requeue_process here a; mret (SSyscall pid number)) w' (λ _ w', placed pid w w'))) as Hplain'.
    { apply wpx_ret. apply (Hblk _ w2 w2); try done. apply inv_presleep, G2. }
    destruct (armed_futex_waits (pm w1) !! pid) as [a|]; [|exact Hplain']. case_decide; [|exact Hplain']. apply wpx_ret. by apply Hrun.
Qed.
End proofs.
