(* ===== verification/ProcessSteps.v ===== *)
(** * Processes: taking work, new processes, and the whole scheduler *)

From S2P Require Import Prelude Poll Errno Signal Process ProcessProof ProcessWake ProcessInv ProcessEnd ProcessSched.

Section proofs.
Context {Env : Type} `{!ProcEnv Env}.
Abbreviation W := (pworld Env).
Abbreviation MP := (M (pworld Env) SysErr.SysErr).
Context (here : Z).
Implicit Types (w : W) (P : gmap Z KernelProcess) (p : KernelProcess).

Ltac xthen := apply wpx_bind; eapply keepx_then; [|eassumption|].

(** ** Taking the head of a queue *)

(** The state after the head left the queue and the table. *)
Definition taken_out (cpu pid : Z) (q : LocalRunQueue) w : W :=
  set_pm (set_processes (delete pid (processes (pm w))) (pm w)) (set_run_queues (<[cpu := q]> (run_queues w)) w).

Lemma taken_out_inv w cpu q q' pid :
  inv w → run_queues w !! cpu = Some q → queue_dequeue q = Some (pid, q') →
  ∃ p, processes (pm w) !! pid = Some p ∧ p_state p = Runnable ∧ assigned_cpu p = cpu ∧ id_pid (identity p) = pid ∧
    inv (taken_out cpu pid q' w) ∧ held_ok (taken_out cpu pid q' w) p.
Proof.
  intros Hinv Hq Hd. destruct (queue_dequeue_ok q pid q') as [Hok' Hl]; [by eapply (iv_queues _ _ _ Hinv)|done|].
  destruct (iv_sound _ _ _ Hinv cpu pid) as (p & Hp & Hrun & Hcpu); [exists q; rewrite Hl; split; [done|by left]|]. exists p. split; [done|]. split; [done|]. split; [done|].
  destruct (iv_procs _ _ _ Hinv pid p Hp) as [Pid Pcpu Pst Ppf]. split; [done|].
  assert (NoDup (pid :: rq_runnable q')) as Hnd by (rewrite <-Hl; by apply (iv_queues _ _ _ Hinv cpu)). apply NoDup_cons in Hnd as [Hnin _].
  assert (∀ c, online (taken_out cpu pid q' w) c ↔ online w c) as Hon.
  { intros c. unfold online. cbn. destruct (decide (c = cpu)) as [->|]; [rewrite lookup_insert_eq, Hq; naive_solver|by rewrite lookup_insert_ne]. }
  assert (∀ c i, queued (taken_out cpu pid q' w) c i ↔ queued w c i ∧ i ≠ pid) as Hqd.
  { intros c i. unfold queued. cbn. destruct (decide (c = cpu)) as [->|Hne].
    - rewrite lookup_insert_eq, Hq. split.
      + intros (? & [= <-] & Hi). split; [exists q; rewrite Hl; split; [done|by right]|by intros ->].
      + intros [(? & [= <-] & Hi) Hne]. exists q'. split; [done|]. rewrite Hl in Hi. by apply elem_of_cons in Hi as [|].
    - rewrite lookup_insert_ne by done. split; [|tauto]. intros Hi. split; [done|]. intros ->. destruct (iv_sound _ _ _ Hinv c pid Hi) as (p' & Hp' & _ & Hc'). congruence. }
  split; [|constructor; [by apply Hon|done|cbn; by rewrite Pid, lookup_delete_eq]].
  unfold inv, taken_out. cbn [pm set_pm processes set_processes set_run_queues]. rewrite blocks_delete, (idle_blocks _ _ p) by (done || by rewrite Hrun).
  destruct Hinv as [Hqs Hprocs Hi Hr Hz Hs]. constructor; try done.
  - intros c qc. cbn. intros [[<- <-]|[_ Hc]]%lookup_insert_Some; [done|by eapply Hqs].
  - intros i x [Hne Hx]%lookup_delete_Some. destruct (Hprocs i x Hx) as [Xid Xcpu Xst Xpf]. constructor; [done|by apply Hon| |done].
    destruct (p_state x); try done. by apply Hqd.
  - by apply (index_view _ w).
  - intros c i [(x & Hx & Hx')%Hs Hne]%Hqd. exists x. by rewrite lookup_delete_ne.
Qed.

(** What a processor gets. *)
Definition taken p (work : option DispatchWork) : Prop :=
  match work with
  | Some (WEvent _) => True
  | Some (WProcess p') | Some (WKernelContinuation p') | Some (WKernelSyscall p') => akin p p' ∧ p_state p' = Running
  | _ => False
  end.

Lemma prepare_return_rule p w (Q : KernelProcess → W → Prop) (Qe : SysErr.SysErr → W → Prop) :
  (∀ p' w', quiet w w' → akin p p' → Q p' w') → wp_res (prepare_child_return p) w Q Qe.
Proof.
  intros HQ. unfold prepare_child_return. destruct (set_child_tid p) as [a|]; [|wp_step; by apply HQ]. cbv zeta. wp_step. apply with_env_rule. intros r e _. wp_step.
  apply HQ; [done|]. by case_decide.
Qed.

Lemma akin_trans p1 p2 p3 : akin p1 p2 → akin p2 p3 → akin p1 p3.
Proof. intros [A1 R1] [A2 R2]. split; [by eapply alike_trans|congruence]. Qed.
Lemma akin_refl p : akin p p.
Proof. done. Qed.

Lemma reap_akin p p' status w w1 (Q : unit → W → Prop) :
  good w w1 → held_ok w p → akin p p' → (∀ w', good w w' → Q () w') → wpx (robust p) (reap_exited_process here p' status) w1 Q.
Proof.
  intros G1 Hh [Ha Hr] HQ. unfold robust. rewrite <-Hr. apply reap_rule; [apply G1| |].
  - rewrite (al_pidfd _ _ Ha). apply (gd_pidfds _ _ G1), Hh.
  - intros w' G'. apply HQ. by eapply good_trans.
Qed.

Lemma take_next_rule w w1 pid cpu p :
  processes (pm w1) !! pid = Some p → w = set_pm (set_processes (delete pid (processes (pm w1))) (pm w1)) w1 →
  inv w → held_ok w p → assigned_cpu p = cpu → p_state p = Runnable → id_pid (identity p) = pid →
  wpx (robust p) (take_next_process_for_pid here pid cpu) w1 (λ work w', good w w' ∧ taken p work).
Proof.
  intros Hp Hw Hinv Hh Hcpu Hrun Hid. unfold take_next_process_for_pid. apply wpx_bind, wpx_res, get_process_rule. rewrite Hp. apply wpx_bind, wpx_res, modify_rule. rewrite <-Hw.
  apply wpx_bind, wpx_res, drain_rule. intros s w2 Q2. pose proof (quiet_good _ _ Hinv Q2) as G2. assert (akin p (with_signals s p)) as Ha by done. set (p1 := with_signals s p) in *.
  rewrite decide_False by (change (assigned_cpu p1) with (assigned_cpu p); tauto). apply wpx_get.
  assert (∀ p' st w', good w w' → akin p p' → wpx (robust p) (_ ← reap_exited_process here p' st; mret (Some (WEvent (SExited pid st)))) w' (λ work w', good w w' ∧ taken p work)) as Hreap.
  { intros p' st w' G' Ha'. apply wpx_bind. eapply reap_akin; [done..|]. intros w'' G''. by apply wpx_ret. }
  case_match; [by apply Hreap|]. clear w1 Hp Hw.
  assert (∀ p' w', good w w' → akin p p' → wpx (robust p) (dispatch_process here pid p') w' (λ work w', good w w' ∧ taken p work)) as Hgo.
  { intros p' w' G' Ha'. unfold dispatch_process. assert (∀ p2, akin p p2 → akin p (with_state Running p2)) as Hr by (intros p2 [[] ?]; done).
    assert (wpx (robust p)
     (if kernel_context p' then mret (Some (WKernelContinuation (with_state Running p')))
      else if decide (is_Some (pending_syscall p')) then mret (Some (WKernelSyscall (with_state Running p')))
      else
        p ← prepare_child_return p';
        match p_state p with
        | Exited status => _ ← reap_exited_process here p status; mret (Some (WEvent (SExited pid status)))
        | _ => mret (Some (WProcess (with_state Running p)))
        end) w' (λ work w', good w w' ∧ taken p work)) as Hrest.
    { destruct (kernel_context p'); [apply wpx_ret; split; [done|split; [by apply Hr|done]]|]. case_decide; [apply wpx_ret; split; [done|split; [by apply Hr|done]]|].
      apply wpx_bind, wpx_res, prepare_return_rule. intros p2 w3 Q3 Ha2. assert (good w w3) as G3 by (eapply good_trans; [exact G'|]; apply quiet_good; [apply G'|done]).
      pose proof (akin_trans _ _ _ Ha' Ha2) as Ha3. destruct (p_state p2) eqn:E; try (by apply Hreap); apply wpx_ret; (split; [done|split; [by apply Hr|done]]). }
    destruct (p_state p'); try exact Hrest. by apply Hreap. }
  destruct (negb _); [by apply Hgo|]. destruct (take_next_delivery true (p_signals p1) (tables w2)) as [delivery s2]. cbv zeta.
  assert (∀ sg, akin p (with_signals sg p1)) as Hs by done.
  assert (∀ p' sg w', good w w' → akin p p' → wpx (robust p) (p ← fatal_signal here p' sg; dispatch_process here pid p) w' (λ work w', good w w' ∧ taken p work)) as Hfatal.
  { intros p' sg w' G' [[] ?]. apply wpx_bind, wpx_res, fatal_signal_rule; [apply G'|]. intros w3 G3. apply Hgo; [by eapply good_trans|done]. }
  destruct delivery as [|i|i a|i|i|i]; try by apply Hgo.
  - apply wpx_bind, wpx_res, with_env_rule. intros [ok s3] e _. assert (good w (set_env e w2)) as G3 by (eapply good_trans; [exact G2|]; apply quiet_good; [apply G2|done]).
    cbn [fst snd]. destruct ok; [by apply Hgo|]. case_decide; [by apply Hgo|by apply Hfatal].
  - by apply Hfatal.
  - apply wpx_bind, wpx_res. eapply wp_mid; [apply notify_event_rule, G2|]. cbv beta. intros _ w3 G3. apply wpx_ret. split; [by eapply good_trans|done].
  - assert (p_state (with_signals s2 p1) = Runnable) as -> by done. by apply Hgo.
Qed.

Lemma wpx_weaken (Pp Pp' : Prop) {A} (m : MP A) w (Q : A → W → Prop) : (Pp → Pp') → wpx Pp m w Q → wpx Pp' m w Q.
Proof. intros HP. unfold wpx. destruct (m w) as [[]]; auto. Qed.

(** A processor gets the head of its queue, always on the first try. *)
Lemma try_take_rule w cpu :
  inv w →
  wpx (∃ pid p, processes (pm w) !! pid = Some p ∧ robust p) (try_take_current_cpu_work here cpu) w
    (λ work w',
       match run_queues w !! cpu ≫= queue_dequeue with
       | None => work = None ∧ w' = w
       | Some (pid, q) => ∃ p, processes (pm w) !! pid = Some p ∧ id_pid (identity p) = pid ∧ good (taken_out cpu pid q w) w' ∧ held_ok w' p ∧ taken p work
       end).
Proof.
  intros Hinv. unfold try_take_current_cpu_work. apply wpx_get. cbn [take_work]. apply wpx_bind. unfold dequeue_next_runnable_pid. apply wpx_get.
  destruct (run_queues w !! cpu ≫= queue_dequeue) as [[pid q']|] eqn:Hd; [|by apply wpx_ret, wpx_ret].
  destruct (run_queues w !! cpu) as [q|] eqn:Hq; [|done]. cbn in Hd. destruct (taken_out_inv w cpu q q' pid Hinv Hq Hd) as (p & Hp & Hrun & Hcpu & Hid & Hinv' & Hh).
  apply wpx_bind, wpx_res, wp_res_modify. apply wpx_ret, wpx_bind. set (w1 := set_run_queues _ _).
  apply (wpx_weaken (robust p)); [by eauto|]. eapply wpx_mono; [by apply (take_next_rule (taken_out cpu pid q' w) w1 pid cpu p)|]. cbv beta.
  intros work w' [G' T']. destruct work as [work|]; [|done]. apply wpx_ret. exists p. split; [done|]. split; [done|]. split; [done|]. split; [by eapply held_good|done].
Qed.

(** ** New processes *)

Lemma insert_cloned_rule p w (Q : Z → W → Prop) (Qe : SysErr.SysErr → W → Prop) :
  inv w → held_ok w p → p_state p = Runnable →
  (∀ w', placed (id_pid (identity p)) w w' → Q (id_pid (identity p)) w') → wp_res (insert_cloned_process here p) w Q Qe.
Proof.
  intros Hinv Hh Hrun HQ. unfold insert_cloned_process. cbv zeta. wp_step. apply modify_rule. wp_step.
  match goal with |- wp_res _ ?w1 _ _ => assert (good w w1) as G1 by (by apply quiet_good); set (w1' := w1) in * end.
  eapply (wp_mid _ _ (λ _ w', good w w')).
  { destruct (is_thread p); [by wp_step|]. unfold track_child_link. destruct (id_parent (identity p)); [apply modify_rule|by wp_step].
    eapply good_trans; [exact G1|]. apply quiet_good; [apply G1|done]. }
  cbv beta. intros _ w2 G2. wp_step. unfold put_process. apply modify_rule. wp_step. apply enter_rule; [apply G2|done|done|by apply (held_good w)|].
  intros w3 P3 _. wp_step. apply HQ. by eapply placed_after.
Qed.

Lemma pidfds_good w (m : gmap Z PidFdHandle) : inv w → (∀ h, is_Some (pidfds w !! h) → is_Some (m !! h)) → good w (set_pidfds m w).
Proof.
  intros [] Hm. constructor; try done. constructor; try done; [|by apply (index_view _ w)|intros i z Hz; by eapply Hm, iv_zombies].
  intros i p Hp. apply iv_procs in Hp. revert Hp. by apply proc_ok_grow.
Qed.

Lemma new_pidfd_rule pid w (Q : Z → W → Prop) (Qe : SysErr.SysErr → W → Prop) :
  inv w → (∀ h w', good w w' → processes (pm w') = processes (pm w) → is_Some (pidfds w' !! h) → Q h w') → wp_res (new_pidfd pid) w Q Qe.
Proof.
  intros Hinv HQ. unfold new_pidfd. wp_step. wp_step. wp_step. wp_step. wp_step. apply HQ; [|done|cbn; rewrite lookup_insert_eq; by eexists].
  apply pidfds_good; [done|]. intros h Hh. rewrite lookup_insert_is_Some. destruct (decide (fresh (dom (pidfds w)) = h)); auto.
Qed.

(** The next process identifier is used up. *)
Record spawned (pid : Z) w w' : Prop := {
  sp_inv : inv w';
  sp_online c : online w' c ↔ online w c;
  sp_pidfds h : is_Some (pidfds w !! h) → is_Some (pidfds w' !! h);
  sp_dom i : i ≠ pid → is_Some (processes (pm w') !! i) ↔ is_Some (processes (pm w) !! i);
  sp_next : next_pid (pm w') = u32_add pid 1;
}.

Lemma spawn_rule has_fs parent t cpu table w :
  inv w → processes (pm w) !! next_pid (pm w) = None → online w cpu →
  wp_res (spawn_task here has_fs parent t cpu table) w (λ _ w', spawned (next_pid (pm w)) w w') (λ _ _, False).
Proof.
  intros Hinv Hout Hon. unfold spawn_task. wp_step. wp_step. cbv zeta. set (pid := next_pid (pm w)) in *. wp_step. apply modify_rule. set (w1 := set_pm _ _).
  assert (inv w1) as I1 by (by apply (inv_same _ _ w)). wp_step.
  eapply (wp_mid _ _ (λ _ w', quiet w1 w')). { unfold track_child_link. destruct parent; [by apply modify_rule|by wp_step]. }
  cbv beta. intros _ w2 Q2. pose proof (quiet_good _ _ I1 Q2) as G2. wp_step. apply modify_rule. set (w3 := set_pm _ w2).
  assert (good w1 w3) as G3 by (eapply good_trans; [exact G2|]; apply quiet_good; [apply G2|done]).
  assert (processes (pm w3) = processes (pm w)) as P3 by (cbn; by rewrite (qt_procs _ _ Q2)).
  assert (∀ w', placed pid w1 w' → spawned pid w w') as Hend by (intros w' []; by constructor).
  destruct has_fs; cbn [negb]; [|wp_step; by apply Hend, good_placed]. wp_step. apply new_pidfd_rule; [apply G3|]. intros h w4 G4 P4 Hh.
  destruct (SignalState_new (tables w)) as [s tb]. wp_step. wp_step. wp_step. apply modify_rule. wp_step. apply change_env_rule. intros e. wp_step.
  assert (good w1 (set_env e (set_tables tb w4))) as G5. { eapply good_trans; [exact G3|]. eapply good_trans; [exact G4|]. apply quiet_good; [apply G4|done]. }
  eapply (enter_rule here (set_env e (set_tables tb w4)) pid (mkProcess _ h t cpu _ _ _ _ _ _ _ _ _ _ _ _ _)); [apply G5|done|done| |intros w5 P5 _; wp_step; apply Hend; by eapply placed_after].
  constructor; [|done|cbn; by rewrite P4, P3]. cbn. apply (gd_online _ _ G5). done.
Qed.

Lemma allocate_rule requested w (Q : Z → W → Prop) (Qe : SysErr.SysErr → W → Prop) :
  inv w → (∀ e, Qe e w) →
  (∀ pid n, requested = None → pid = next_pid (pm w) → n = u32_add pid 1 → Q pid (set_pm (set_next_pid n (pm w)) w)) →
  (∀ pid n, requested = Some pid → processes (pm w) !! pid = None → (next_pid (pm w) <= pid → n = u32_add pid 1) → (pid < next_pid (pm w) → n = next_pid (pm w)) →
     Q pid (set_pm (set_next_pid n (pm w)) w)) →
  wp_res (allocate_pid requested) w Q Qe.
Proof.
  intros Hinv HE HN HS. unfold allocate_pid. wp_step. wp_step. cbv zeta. destruct requested as [pid|].
  - case_decide; [wp_step; apply HE|]. case_decide as Hd; [wp_step; apply HE|]. assert (processes (pm w) !! pid = None) as Hout by (apply eq_None_not_Some; tauto). wp_step. case_decide as Hn.
    + apply modify_rule. wp_step. apply HS; try done. lia.
    + wp_step. wp_step. pose proof (HS pid (next_pid (pm w)) eq_refl Hout ltac:(lia) ltac:(done)) as HQ. by destruct w as [[]].
  - wp_step. apply modify_rule. wp_step. by apply HN.
Qed.
End proofs.
