(* ===== verification/ProcessTheorems.v ===== *)
(** * Processes: the theorems

    The scheduler as a system of actions: any processor may perform any of
    them, one at a time under the lock of the manager. *)

From S2P Require Import Prelude Poll Errno Signal Process ProcessProof ProcessWake ProcessInv ProcessEnd ProcessSched ProcessSteps.

(** The processes that run, and the identifiers given to processes that are
    still being built. *)
Record psys (Env : Type) := mkSys { sw : pworld Env; held : gmap Z KernelProcess; reserved : gset Z }.
Arguments mkSys {Env}.
Arguments sw {Env}.
Arguments held {Env}.
Arguments reserved {Env}.

Inductive act :=
  | ASend (pid : Z) (info : SignalInfo)
  | ASendGroup (tgid : Z) (info : SignalInfo)
  | ASendProcessGroup (process_group : Z) (info : SignalInfo)
  | ASendAll (info : SignalInfo) (exclude : option Z)
  | AWakeFutex (key : FutexKey) (bitset : Z) (count : nat)
  | ARequeueFutex (from to : FutexKey) (wake_count requeue_count : nat) (bitset : Z)
  | AArm (pid : Z) (key : FutexKey) (bitset : Z)
  | ADisarm (pid : Z)
  | AWait (parent : Z) (selector : WaitChildSelector) (options : Z) (consume : bool)
  | ASetpgid (caller : KernelProcess) (target process_group : Z)
  | AFiles
  | ATimers (now : Z)
  | ACurrent (snapshot : option RunningSnapshot)
  | ATake
  | AWork (pid : Z) (p : KernelProcess)
  | AFinish (pid : Z) (reason : RunReason)
  | AReturn (pid number : Z) (disposition : SyscallDisposition)
  | ABlock (pid : Z) (block : ProcessBlock)
  | AAllocate (requested : option Z)
  | APidfd (pid : Z)
  | AInsert (p : KernelProcess)
  | ASpawn (has_fs : bool) (parent : option Z) (new_task cpu table : Z).

Section system.
Context {Env : Type} `{!ProcEnv Env}.
Abbreviation W := (pworld Env).
Abbreviation MP := (M (pworld Env) SysErr.SysErr).
Context (here : Z).
Implicit Types (s : psys Env) (w : W).

(** Running an operation; [f] is what becomes of the processes that run and of
    the identifiers. *)
Definition perform_with {A} (m : MP A) (f : outcome SysErr.SysErr A → gmap Z KernelProcess * gset Z) s : outcome SysErr.SysErr () * psys Env :=
  let '(r, w) := m (sw s) in
  ((_ ← r; Ok ()), mkSys w (f r).1 (f r).2).
Definition perform_op {A} (m : MP A) s : outcome SysErr.SysErr () * psys Env := perform_with m (λ _, (held s, reserved s)) s.
Definition perform_held {A} (pid : Z) (m : KernelProcess → MP A) s : outcome SysErr.SysErr () * psys Env :=
  match held s !! pid with
  | None => (Ok (), s)
  | Some p => perform_with (m p) (λ _, (delete pid (held s), reserved s)) s
  end.

Definition work_process (work : option DispatchWork) : option KernelProcess :=
  match work with Some (WProcess p) | Some (WKernelContinuation p) | Some (WKernelSyscall p) => Some p | _ => None end.

Definition perform (a : act) s : outcome SysErr.SysErr () * psys Env :=
  match a with
  | ASend pid info => perform_op (send_signal here pid info) s
  | ASendGroup tgid info => perform_op (send_signal_thread_group here tgid info) s
  | ASendProcessGroup g info => perform_op (send_signal_process_group here g info) s
  | ASendAll info x => perform_op (send_signal_all_thread_groups here info x) s
  | AWakeFutex key bitset count => perform_op (wake_futex here key bitset count) s
  | ARequeueFutex from to n k bitset => perform_op (requeue_futex here from to n k bitset) s
  | AArm pid key bitset => perform_op (arm_futex_wait pid key bitset) s
  | ADisarm pid => perform_op (disarm_futex_wait pid) s
  | AWait parent sel options consume => perform_op (wait_child_event parent sel options consume) s
  | ASetpgid caller target g => perform_op (setpgid caller target g) s
  | AFiles => perform_op (wake_ready_file_blocks here) s
  | ATimers now => perform_op (wake_expired_timers here now) s
  | ACurrent snapshot => perform_op (set_current_execution here snapshot) s
  | ATake =>
      perform_with (try_take_current_cpu_work here here)
        (λ r, (match r with Ok work => match work_process work with Some p => <[id_pid (identity p) := p]> (held s) | None => held s end | _ => held s end, reserved s)) s
  | AWork pid p => (Ok (), mkSys (sw s) (<[pid := p]> (held s)) (reserved s))
  | AFinish pid reason => perform_held pid (λ p, finish_process here p reason) s
  | AReturn pid number d => perform_held pid (λ p, finish_syscall_dispatch here p number d) s
  | ABlock pid block => perform_held pid (λ p, finish_kernel_block here p block) s
  | AAllocate requested => perform_with (allocate_pid requested) (λ r, (held s, match r with Ok pid => reserved s ∪ {[pid]} | _ => reserved s end)) s
  | APidfd pid => perform_op (new_pidfd pid) s
  | AInsert p => perform_with (insert_cloned_process here p) (λ _, (held s, reserved s ∖ {[id_pid (identity p)]})) s
  | ASpawn has_fs parent t cpu table => perform_op (spawn_task here has_fs parent t cpu table) s
  end.

(** When an action may happen: a process that runs keeps its identity; an
    identifier that is asked for is not one that is being given out or that
    runs; identifiers are not used up. *)
Definition enabled (a : act) s : Prop :=
  match a with
  | AWork pid p => ∃ q, held s !! pid = Some q ∧ alike q p
  | ABlock pid _ => ∀ p, held s !! pid = Some p → is_Some (pending_syscall p)
  | AAllocate None => next_pid (pm (sw s)) < u32_max
  | AAllocate (Some pid) => held s !! pid = None ∧ (pid ∉ reserved s) ∧ pid <= u32_max
  | AInsert p => id_pid (identity p) ∈ reserved s ∧ p_state p = Runnable ∧ online (sw s) (assigned_cpu p) ∧ is_Some (pidfds (sw s) !! p_pidfd p)
  | ASpawn _ _ _ cpu _ => next_pid (pm (sw s)) < u32_max ∧ online (sw s) cpu
  | _ => True
  end.

Record sys_ok s : Prop := {
  sy_inv : inv (sw s);
  sy_held pid p : held s !! pid = Some p → id_pid (identity p) = pid ∧ held_ok (sw s) p;
  sy_reserved pid : pid ∈ reserved s → held s !! pid = None ∧ processes (pm (sw s)) !! pid = None;
  sy_next pid : is_Some (processes (pm (sw s)) !! pid) ∨ is_Some (held s !! pid) ∨ pid ∈ reserved s → pid < next_pid (pm (sw s)) ∨ u32_max <= next_pid (pm (sw s));
}.

(** A list of robust futexes has been set. *)
Definition registered s : Prop := ∃ pid p, (processes (pm (sw s)) !! pid = Some p ∨ held s !! pid = Some p) ∧ robust_list_head p ≠ None.

Definition outcome_ok s (r : outcome SysErr.SysErr () * psys Env) : Prop :=
  match r with
  | (Ok _, s') | (Err _, s') => sys_ok s'
  | (Panic, _) => registered s
  | (Diverge, _) => False
  end.

Lemma sys_good s w : sys_ok s → good (sw s) w → sys_ok (mkSys w (held s) (reserved s)).
Proof.
  intros [Hi Hh Hr Hn] G. assert (∀ i, is_Some (processes (pm w) !! i) ↔ is_Some (processes (pm (sw s)) !! i)) as Hd by (intros i; by rewrite <-!elem_of_dom, (gd_dom _ _ G)).
  constructor; cbn.
  - apply G.
  - intros pid p Hp. destruct (Hh pid p Hp). split; [done|]. by eapply held_good.
  - intros pid Hp. destruct (Hr pid Hp) as [? Ho]. split; [done|]. rewrite eq_None_not_Some in Ho |- *. by rewrite Hd.
  - intros pid. rewrite Hd, (gd_next _ _ G). apply Hn.
Qed.

Lemma op_ok {A} (m : MP A) s : sys_ok s → keeps True m → outcome_ok s (perform_op m s).
Proof.
  intros Hs Hm. pose proof (Hm (sw s) (sy_inv _ Hs)) as H. unfold perform_op, perform_with, wp_res, wp in *. destruct (m (sw s)) as [r w]. cbn in *.
  destruct r; cbn; try done; [by apply sys_good|destruct H; by apply sys_good].
Qed.

(** A process that stops running. *)
Lemma sys_placed s pid p w :
  sys_ok s → held s !! pid = Some p → placed pid (sw s) w → sys_ok (mkSys w (delete pid (held s)) (reserved s)).
Proof.
  intros [Hi Hh Hr Hn] Hp []. destruct (Hh pid p Hp) as [Hid [Hc Hf Ho]]. rewrite Hid in Ho. constructor; cbn.
  - done.
  - intros i q [Hne Hq]%lookup_delete_Some. destruct (Hh i q Hq) as [Hqi [Qc Qf Qo]]. split; [done|]. rewrite Hqi in Qo. constructor; [by apply pl_online|by apply pl_pidfds|].
    rewrite Hqi. rewrite eq_None_not_Some in Qo |- *. by rewrite pl_dom.
  - intros i Hx. destruct (Hr i Hx) as [H1 H2]. assert (i ≠ pid) by (intros ->; congruence). split; [by rewrite lookup_delete_ne|]. rewrite eq_None_not_Some in H2 |- *. by rewrite pl_dom.
  - intros i Hx. rewrite pl_next. apply Hn. destruct (decide (i = pid)) as [->|Hne]; [right; left; by eexists|]. rewrite lookup_delete_ne, pl_dom in Hx by done. done.
Qed.

Lemma held_step_ok {A} pid (m : KernelProcess → MP A) s :
  sys_ok s → (∀ p, held s !! pid = Some p → id_pid (identity p) = pid → held_ok (sw s) p → wpx (robust p) (m p) (sw s) (λ _ w', placed pid (sw s) w')) →
  outcome_ok s (perform_held pid m s).
Proof.
  intros Hs Hm. unfold perform_held. destruct (held s !! pid) as [p|] eqn:Hp; [|done]. destruct (sy_held _ Hs pid p Hp) as [Hid Hh].
  specialize (Hm p eq_refl Hid Hh). unfold perform_with. unfold wpx in Hm. destruct (m p (sw s)) as [[]w]; cbn; try done; [by eapply sys_placed|]. exists pid, p. auto.
Qed.

Lemma current_keeps cpu (snapshot : option RunningSnapshot) : keeps True (set_current_execution cpu snapshot : MP unit).
Proof. apply keeps_quiet. intros w. by apply wp_res_modify. Qed.

(** The identifier of a new process is not in use. *)
Lemma next_fresh s : sys_ok s → next_pid (pm (sw s)) < u32_max →
  held s !! next_pid (pm (sw s)) = None ∧ processes (pm (sw s)) !! next_pid (pm (sw s)) = None ∧ next_pid (pm (sw s)) ∉ reserved s.
Proof.
  intros Hs Hn. pose proof (sy_next _ Hs (next_pid (pm (sw s)))) as H. rewrite !eq_None_not_Some.
  split; [|split]; intros Hx; (destruct H as [H|H]; [auto|lia..]).
Qed.

Lemma u32_add_spec a : u32_add a 1 = (a + 1) `min` u32_max.
Proof. unfold u32_add, saturating_add. lia. Qed.

Lemma take_ok s : sys_ok s → outcome_ok s (perform ATake s).
Proof.
  intros Hs. pose proof (try_take_rule here (sw s) here (sy_inv _ Hs)) as H. cbn [perform]. unfold perform_with. unfold wpx in H.
  destruct (try_take_current_cpu_work here here (sw s)) as [r w]. destruct r as [work| | |]; cbn; try done.
  2: { destruct H as (pid & p & Hp & Hr). exists pid, p. auto. }
  destruct (run_queues (sw s) !! here ≫= queue_dequeue) as [[pid q]|] eqn:Hd.
  2: { destruct H as [-> ->]. cbn. by destruct s. }
  destruct H as (p & Hp & Hid & G & Hh & Ht). destruct (run_queues (sw s) !! here) as [q0|] eqn:Hq; [|done]. cbn in Hd.
  destruct Hs as [Hi Hheld Hr Hn].
  assert (∀ c, online w c ↔ online (sw s) c) as Hon.
  { intros c. rewrite (gd_online _ _ G). unfold online. cbn. destruct (decide (c = here)) as [->|]; [rewrite lookup_insert_eq, Hq; naive_solver|by rewrite lookup_insert_ne]. }
  assert (∀ i, is_Some (processes (pm w) !! i) ↔ is_Some (processes (pm (sw s)) !! i) ∧ i ≠ pid) as Hdom.
  { intros i. rewrite <-!elem_of_dom, (gd_dom _ _ G). cbn. rewrite dom_delete_L. set_solver. }
  assert (∀ i x, held s !! i = Some x → i ≠ pid) as Hother. { intros i x Hx ->. destruct (Hheld pid x Hx) as [Hxi [_ _ Ho]]. congruence. }
  assert (∀ i, i ∈ reserved s → i ≠ pid) as Hother'. { intros i Hx ->. destruct (Hr pid Hx). congruence. }
  assert (sys_ok (mkSys w (held s) (reserved s))) as Hbase.
  { constructor; cbn; [apply G|..].
    - intros i x Hx. destruct (Hheld i x Hx) as [Hxi [Xc Xf Xo]]. split; [done|]. constructor; [by apply Hon|by apply (gd_pidfds _ _ G)|].
      rewrite eq_None_not_Some in Xo |- *. rewrite Hdom. tauto.
    - intros i Hx. destruct (Hr i Hx) as [? Ho]. split; [done|]. rewrite eq_None_not_Some in Ho |- *. rewrite Hdom. tauto.
    - intros i. rewrite Hdom, (gd_next _ _ G). cbn. intros [[? _]|?]; apply Hn; auto. }
  destruct (work_process work) as [p'|] eqn:Hw; [|done]. assert (akin p p') as [Ha _] by (destruct work as [[]|]; cbn in Hw, Ht; simplify_eq; tauto).
  assert (id_pid (identity p') = pid) as Hid' by (by rewrite (al_identity _ _ Ha)). rewrite Hid'. destruct Hbase as [Bi Bh Br Bn]. constructor; cbn in *; [done|..].
  - intros i x [[<- <-]|[_ Hx]]%lookup_insert_Some; [split; [done|by apply (held_alike _ p)]|by apply Bh].
  - intros i Hx. rewrite lookup_insert_ne by (intros <-; by destruct (Hother' _ Hx)). by apply Br.
  - intros i Hx. rewrite (gd_next _ _ G). cbn. apply Hn. destruct (decide (i = pid)) as [->|Hne]; [left; by eexists|]. rewrite lookup_insert_ne, Hdom in Hx by done. tauto.
Qed.

Lemma allocate_ok s requested : sys_ok s → enabled (AAllocate requested) s → outcome_ok s (perform (AAllocate requested) s).
Proof.
  intros Hs He. cbn [perform]. unfold perform_with.
  assert (∀ pid n, processes (pm (sw s)) !! pid = None → held s !! pid = None → (pid < n ∨ u32_max <= n) → (next_pid (pm (sw s)) <= n ∨ u32_max <= n) →
    sys_ok (mkSys (set_pm (set_next_pid n (pm (sw s))) (sw s)) (held s) (reserved s ∪ {[pid]}))) as Hres.
  { intros pid n Hp Hh Hn Hle. destruct Hs as [Hi Hheld Hr Hb]. constructor; cbn.
    - by apply (inv_same _ _ (sw s)).
    - intros i x Hx. destruct (Hheld i x Hx) as [? []]. split; [done|]. by constructor.
    - intros i [Hx| ->%elem_of_singleton]%elem_of_union; [by apply Hr|done].
    - intros i Hx. destruct (decide (i = pid)) as [->|Hne]; [done|]. destruct (Hb i) as [|]; [set_solver|lia..]. }
  assert (inv (sw s)) as Hi by apply Hs.
  assert (wp_res (allocate_pid requested) (sw s) (λ pid w, sys_ok (mkSys w (held s) (reserved s ∪ {[pid]}))) (λ _ w, w = sw s)) as H.
  { apply allocate_rule; [done|done|..].
    - intros pid n -> -> ->. cbn in He. destruct (next_fresh s Hs He) as (H1 & H2 & _). rewrite u32_add_spec. apply Hres; [done|done|lia..].
    - intros pid n -> Hp Hle Hlt. cbn in He. destruct He as (H1 & H2 & H3). rewrite u32_add_spec in Hle. apply Hres; [done|done|lia..]. }
  unfold wp_res, wp in H. destruct (allocate_pid requested (sw s)) as [r w]. cbn in H. destruct r; cbn; [done|subst; by destruct s|done..].
Qed.

Lemma insert_ok s p : sys_ok s → enabled (AInsert p) s → outcome_ok s (perform (AInsert p) s).
Proof.
  intros Hs (Hres & Hrun & Hon & Hpf). destruct (sy_reserved _ Hs _ Hres) as [Hnh Hout]. set (pid := id_pid (identity p)) in *.
  assert (wp_res (insert_cloned_process here p) (sw s) (λ _ w, placed pid (sw s) w) (λ _ _, False)) as H.
  { apply insert_cloned_rule; [apply Hs|by constructor|done|]. done. }
  cbn [perform]. unfold perform_with. unfold wp_res, wp in H. destruct (insert_cloned_process here p (sw s)) as [r w]. cbn in H. destruct r; cbn; try done. fold pid. destruct H as [Pi Po Pf Pd Pn].
  destruct Hs as [Hi Hheld Hr Hb]. constructor; cbn.
  - done.
  - intros i x Hx. destruct (Hheld i x Hx) as [Hxi [Xc Xf Xo]]. split; [done|]. constructor; [by apply Po|by apply Pf|]. rewrite Hxi in Xo |- *. assert (i ≠ pid) by (intros ->; congruence).
    rewrite eq_None_not_Some in Xo |- *. by rewrite Pd.
  - intros i [Hx Hne]%elem_of_difference. rewrite elem_of_singleton in Hne. destruct (Hr i Hx) as [? Ho]. split; [done|]. rewrite eq_None_not_Some in Ho |- *. by rewrite Pd.
  - intros i Hx. rewrite Pn. apply Hb. destruct (decide (i = pid)) as [->|Hne]; [by right; right|]. rewrite Pd in Hx by done. set_solver.
Qed.

Lemma spawn_ok s f par t cpu tb : sys_ok s → enabled (ASpawn f par t cpu tb) s → outcome_ok s (perform (ASpawn f par t cpu tb) s).
Proof.
  intros Hs [Hlt Hon]. destruct (next_fresh s Hs Hlt) as (H1 & H2 & H3). pose proof (spawn_rule here f par t cpu tb (sw s) (sy_inv _ Hs) H2 Hon) as H.
  cbn [perform]. unfold perform_op, perform_with. unfold wp_res, wp in H. destruct (spawn_task here f par t cpu tb (sw s)) as [r w]. cbn in H. destruct r; cbn; try done.
  destruct H as [Pi Po Pf Pd Pn]. destruct Hs as [Hi Hheld Hr Hb]. set (pid := next_pid (pm (sw s))) in *. rewrite u32_add_spec in Pn. constructor; cbn.
  - done.
  - intros i x Hx. destruct (Hheld i x Hx) as [Hxi [Xc Xf Xo]]. split; [done|]. constructor; [by apply Po|by apply Pf|]. rewrite Hxi in Xo |- *. assert (i ≠ pid) by (intros ->; congruence).
    rewrite eq_None_not_Some in Xo |- *. by rewrite Pd.
  - intros i Hx. destruct (Hr i Hx) as [? Ho]. split; [done|]. assert (i ≠ pid) by (intros ->; done). rewrite eq_None_not_Some in Ho |- *. by rewrite Pd.
  - intros i Hx. rewrite Pn. destruct (decide (i = pid)) as [->|Hne]; [lia|]. rewrite Pd in Hx by done. apply Hb in Hx. lia.
Qed.

Lemma work_ok s pid p : sys_ok s → enabled (AWork pid p) s → outcome_ok s (perform (AWork pid p) s).
Proof.
  intros [Hi Hheld Hr Hb] (q & Hq & Ha). cbn. destruct (Hheld pid q Hq) as [Hid Hh]. constructor; cbn; [done|..].
  - intros i x [[<- <-]|[_ Hx]]%lookup_insert_Some; [|by apply Hheld]. split; [by rewrite (al_identity _ _ Ha)|by apply (held_alike _ q)].
  - intros i Hx. destruct (Hr i Hx). split; [|done]. rewrite lookup_insert_ne; [done|]. intros <-. congruence.
  - intros i Hx. apply Hb. destruct (decide (i = pid)) as [->|Hne]; [right; left; by eexists|]. by rewrite lookup_insert_ne in Hx.
Qed.

Lemma perform_ok a s : sys_ok s → enabled a s → outcome_ok s (perform a s).
Proof.
  intros Hs He. destruct a; cbn [perform].
  - by apply op_ok, send_signal_keeps.
  - by apply op_ok, send_group_keeps.
  - by apply op_ok, send_process_group_keeps.
  - by apply op_ok, send_all_keeps.
  - by apply op_ok, wake_futex_keeps.
  - by apply op_ok, requeue_futex_keeps.
  - by apply op_ok, keeps_modify.
  - by apply op_ok, keeps_modify.
  - by apply op_ok, wait_child_event_keeps.
  - by apply op_ok, setpgid_keeps.
  - by apply op_ok, wake_ready_keeps.
  - by apply op_ok, wake_expired_keeps.
  - by apply op_ok, current_keeps.
  - by apply take_ok.
  - by apply work_ok.
  - apply held_step_ok; [done|]. intros p Hp Hid Hh. rewrite <-Hid. apply finish_process_rule; [apply Hs|done].
  - apply held_step_ok; [done|]. intros p Hp Hid Hh. rewrite <-Hid. apply finish_syscall_rule; [apply Hs|done].
  - apply held_step_ok; [done|]. intros p Hp Hid Hh. rewrite <-Hid. apply finish_block_rule; [apply Hs|done|by apply He].
  - by apply allocate_ok.
  - apply op_ok; [done|]. intros w Hw. apply new_pidfd_rule; [done|]. done.
  - by apply insert_ok.
  - by apply spawn_ok.
Qed.

(** ** Sleeping on a futex *)

Lemma wp_both {A} (m : MP A) w (Q Q' : A → W → Prop) (Qe Qe' : SysErr.SysErr → W → Prop) : wp_res m w Q Qe → wp_res m w Q' Qe' → wp_res m w (λ a w', Q a w' ∧ Q' a w') Qe.
Proof. unfold wp_res, wp. destruct (m w) as [[]]; done. Qed.

Lemma requeue_futex_block p key bs dl w :
  let pid := id_pid (identity p) in
  inv w → held_ok w p → p_state p = Blocked (BFutex key bs dl) →
  wp_res (requeue_process here p) w (λ _ w', inv w' ∧ processes (pm w') = <[pid := p]> (processes (pm w)) ∧ armed_futex_waits (pm w') = armed_futex_waits (pm w)) (λ _ _, False).
Proof.
  intros pid Hinv Hh Hst. pose proof (requeue_blocked_rule here p _ w (inv_presleep _ _ _ Hinv) Hh Hst) as H1. fold pid in H1.
  assert (wp_res (requeue_process here p) w (λ _ w', processes (pm w') = <[pid := p]> (processes (pm w)) ∧ armed_futex_waits (pm w') = armed_futex_waits (pm w)) (λ _ _, False)) as H2.
  { unfold requeue_process. cbv zeta. fold pid. rewrite Hst. wp_step. unfold ensure_file_wait_registration. rewrite Hst. wp_step. wp_step.
    eapply (wp_mid _ _ (λ _ w', w' = w)); [by case_decide; wp_step|]. cbv beta. intros _ w' ->. wp_step. unfold blocked_file_ready_result. rewrite Hst. wp_step. wp_step.
    pose proof (hd_out _ _ Hh) as Ho. fold pid in Ho.
    eapply wp_mid; [apply (track_rule w (blocks (processes (pm w))) pid (BFutex key bs dl)); [apply Hinv|by rewrite blocks_lookup, Ho]|]. cbv beta. intros _ w1 (_ & C1 & _).
    apply modify_rule. cbn. rewrite (core_procs w w1) by done. split; [done|]. apply core_rest in C1 as [R1 _]. unfold rest in R1. by injection R1. }
  eapply wp_mid; [apply (wp_both _ _ _ _ _ _ H1 H2)|]. cbv beta. intros _ w' [[] ?]. done.
Qed.

Lemma enqueue_put_armed pid cpu p w :
  wp_res (_ ← enqueue_runnable_pid here pid cpu; put_process pid p) w (λ _ w', armed_futex_waits (pm w') = armed_futex_waits (pm w)) (λ _ _, False).
Proof. unfold enqueue_runnable_pid. wp_step. wp_step. wp_step. cbv zeta. case_match; wp_step; by apply modify_rule. Qed.

(** The state in which a sleeper sleeps. *)
Definition asleep (p : KernelProcess) key bs dl : KernelProcess := with_state (Blocked (BFutex key bs dl)) (with_result None p).

Lemma finish_futex_rule p key bs dl n w :
  let pid := id_pid (identity p) in
  inv w → held_ok w p → pending_syscall p = Some n →
  wp_res (finish_kernel_block here p (BFutex key bs dl)) w
    (λ _ w', inv w' ∧ armed_futex_waits (pm w') = delete pid (armed_futex_waits (pm w)) ∧
       processes (pm w') = <[pid := if decide (armed_futex_waits (pm w) !! pid = Some (mkArmed key bs true)) then woken (RFutex true false) (with_result None p) else asleep p key bs dl]> (processes (pm w)))
    (λ _ _, False).
Proof.
  intros pid Hinv Hh Hn. unfold finish_kernel_block. cbv zeta. fold pid. wp_step. wp_step. wp_step. unfold block_from_disposition. cbv zeta. wp_step. wp_step. wp_step. apply modify_rule.
  match goal with |- wp_res _ ?w1 _ _ => assert (inv w1) as I1 by (by apply inv_armed); assert (held_ok w1 p) as H1 by (by destruct Hh; constructor) end. set (w1 := set_pm _ w) in *.
  assert (wp_res (E := SysErr.SysErr) (mret (asleep p key bs dl)) w1 (λ a w', wp_res (E := SysErr.SysErr) (number ← mexpect (pending_syscall a); _ ← requeue_process here a; mret (SSyscall pid number)) w'
     (λ _ w', inv w' ∧ armed_futex_waits (pm w') = delete pid (armed_futex_waits (pm w)) ∧ processes (pm w') = <[pid := asleep p key bs dl]> (processes (pm w))) (λ _ _, False)) (λ _ _, False)) as Hsleep.
  { wp_step. change (pending_syscall (asleep p key bs dl)) with (pending_syscall p). rewrite Hn. wp_step. wp_step. wp_step.
    eapply wp_mid; [apply (requeue_futex_block (asleep p key bs dl) key bs dl w1); [done|by apply (held_alike _ p)|done]|]. cbv beta. intros _ w2 (I2 & P2 & A2). wp_step. split; [done|]. by rewrite A2, P2. }
  destruct (armed_futex_waits (pm w) !! pid) as [a|] eqn:Ha; [|rewrite decide_False by done; exact Hsleep].
  destruct (decide (ar_key a = key ∧ ar_bitset a = bs ∧ ar_raced a = true)) as [(K & B & R)|Hno].
  - rewrite decide_True by (by destruct a; cbn in *; subst). wp_step. cbn [pending_syscall with_state with_result]. rewrite Hn. wp_step. wp_step. wp_step.
    set (p' := woken (RFutex true false) (with_result None p)). unfold requeue_process. cbn [p_state with_state].
    eapply wp_mid; [apply (wp_both _ _ (λ _ w', placed pid w1 w' ∧ processes (pm w') = <[pid := p']> (processes (pm w1))) (λ _ w', armed_futex_waits (pm w') = armed_futex_waits (pm w1)) _ (λ _ _, False))|].
    + apply (enter_last_rule here w1 pid p'); [done|done|done|by apply (held_alike _ p)|done].
    + apply enqueue_put_armed.
    + cbv beta. intros _ w2 [[P2 E2] A2]. wp_step. split; [apply P2|]. by rewrite A2, E2.
  - rewrite decide_False; [exact Hsleep|]. intros [= ->]. by destruct Hno.
Qed.
End system.

(** ** From the start of the system *)

Definition no_manager : ProcessManager := mkManager 1 ∅ ∅ ∅ ∅ ∅ ∅ ∅ ∅ ∅ None ∅ ∅ [] ∅ false ∅.
(** [ProcessManager::new] with the run queues of the processors. *)
Definition boot {Env} (cpus : gset Z) (e : Env) : psys Env :=
  mkSys (mkWorld no_manager ∅ ∅ (gset_to_gmap (mkQueue [] ∅) cpus) ∅ None e) ∅ ∅.

Definition ended {A} (r : outcome SysErr.SysErr A) : Prop := match r with Ok _ | Err _ => True | _ => False end.

Section theorems.
Context {Env : Type} `{!ProcEnv Env}.
Implicit Types (s : psys Env) (w : pworld Env).

Inductive reachable (cpus : gset Z) (e : Env) : psys Env → Prop :=
  | reach_boot : reachable cpus e (boot cpus e)
  | reach_step here a s s' r : reachable cpus e s → enabled a s → perform here a s = (r, s') → ended r → reachable cpus e s'.

Lemma boot_ok cpus (e : Env) : sys_ok (boot cpus e).
Proof.
  constructor; cbn; [|by intros pid p ?%lookup_empty_Some|by intros pid ?%elem_of_empty|intros pid [[? ?%lookup_empty_Some]|[[? ?%lookup_empty_Some]|?%elem_of_empty]]; done].
  unfold inv. cbn. assert (blocks ∅ = ∅) as -> by apply omap_empty. constructor; cbn; try by intros ?? ?%lookup_empty_Some.
  - intros cpu q [_ <-]%lookup_gset_to_gmap_Some. split; [constructor|]. intros x. cbn. set_solver.
  - constructor; cbn.
    + constructor; cbn; try done; [intros d pid; split; [by intros (t & ?%lookup_empty_Some & _)|by intros (x & ?%lookup_empty_Some & _)]].
    + intros pid. split; [by intros ?%elem_of_empty|by intros (x & ?%lookup_empty_Some & _)].
    + intros k pid. split; [by intros (t & ?%lookup_empty_Some & _)|by intros (x & ?%lookup_empty_Some & _)].
    + by intros ?? ?%lookup_empty_Some.
  - intros pid l. cbn. by intros ?%lookup_empty_Some.
  - intros cpu pid (q & [_ <-]%lookup_gset_to_gmap_Some & Hq). by apply elem_of_nil in Hq.
Qed.

Lemma reachable_ok cpus e s : reachable cpus e s → sys_ok s.
Proof.
  induction 1 as [|here a s s' r _ IH He Hp Hr]; [apply boot_ok|]. pose proof (perform_ok here a s IH He) as H. rewrite Hp in H. by destruct r.
Qed.

(** C28. In every state that the scheduler reaches, the run queues hold exactly
    the processes that can run, each once and at its own processor; the sets
    that wakers look into hold exactly the processes that sleep on that futex,
    deadline or file; the published deadline is the first one; and a process
    that runs is not in the table. *)
Theorem scheduler_consistent cpus (e : Env) s :
  reachable cpus e s →
  let m := pm (sw s) in
  (∀ cpu pid, queued (sw s) cpu pid ↔ ∃ p, processes m !! pid = Some p ∧ p_state p = Runnable ∧ assigned_cpu p = cpu) ∧
  (∀ cpu q, run_queues (sw s) !! cpu = Some q → NoDup (rq_runnable q)) ∧
  (∀ key pid, listed (blocked_futexes m) key pid ↔ ∃ p x, processes m !! pid = Some p ∧ p_state p = Blocked x ∧ key_of x = Some key) ∧
  (∀ d pid, listed (blocked_timers m) d pid ↔ ∃ p x, processes m !! pid = Some p ∧ p_state p = Blocked x ∧ deadline_of x = Some d) ∧
  (∀ pid, pid ∈ blocked_files m ↔ ∃ p x, processes m !! pid = Some p ∧ p_state p = Blocked x ∧ files_block x = true) ∧
  published (sw s) = first_key (blocked_timers m) ∧
  (∀ pid p, processes m !! pid = Some p → match p_state p with Runnable | Stopped _ | Blocked _ => True | _ => False end) ∧
  (∀ pid, is_Some (held s !! pid) → processes m !! pid = None).
Proof.
  intros Hr. cbv zeta. destruct (reachable_ok _ _ _ Hr) as [Hinv Hheld _ _]. destruct Hinv as [Hq Hp Hi Hg Hz Hs].
  assert (∀ (pid : Z) (f : ProcessBlock → Prop), (∃ x, blocks (processes (pm (sw s))) !! pid = Some x ∧ f x) ↔ ∃ p x, processes (pm (sw s)) !! pid = Some p ∧ p_state p = Blocked x ∧ f x) as Hb.
  { intros pid f. setoid_rewrite blocks_lookup. split; [intros (x & Hx & Hf)|intros (p & x & -> & Hst & Hf); exists x; cbn; by rewrite Hst].
    destruct (processes (pm (sw s)) !! pid) as [p|]; [|done]. exists p, x. cbn in Hx. destruct (p_state p); cbn in Hx; by simplify_eq. }
  split; [|split; [|split; [|split; [|split; [|split; [|split]]]]]].
  - intros cpu pid. split; [apply Hs|]. intros (p & Hpp & Hst & <-). destruct (Hp pid p Hpp) as [_ _ Hk _]. by rewrite Hst in Hk.
  - intros cpu q Hcq. by apply (Hq cpu q).
  - intros key pid. rewrite (ix_futexes _ _ Hi). apply Hb.
  - intros d pid. rewrite (tm_listed _ _ (ix_timers _ _ Hi)). apply (Hb pid (λ x, deadline_of x = Some d)).
  - intros pid. rewrite (ix_files _ _ Hi). apply Hb.
  - rewrite (tm_published _ _ (ix_timers _ _ Hi)). apply (tm_next _ _ (ix_timers _ _ Hi)).
  - intros pid p Hpp. destruct (Hp pid p Hpp) as [_ _ Hk _]. by destruct (p_state p).
  - intros pid [p Hpp]. destruct (Hheld pid p Hpp) as [<- []]. done.
Qed.

(** C29. From every state that the scheduler reaches every action ends: with a
    result or an error, never in an endless loop, and in a panic only when some
    process has set a list of robust futexes. *)
Theorem scheduler_total cpus (e : Env) s here a :
  reachable cpus e s → enabled a s → ended (perform here a s).1 ∨ ((perform here a s).1 = Panic ∧ registered s).
Proof.
  intros Hr He. pose proof (perform_ok here a s (reachable_ok _ _ _ Hr) He) as H. destruct (perform here a s) as [[] s']; cbn in *; auto.
Qed.

(** *** Futexes *)

Lemma empty_list {A} (l : list A) : (∀ x, x ∉ l) → l = [].
Proof. destruct l as [|x l]; [done|]. intros H. by destruct (H x); left. Qed.

Lemma waiting_elem (P : gmap Z KernelProcess) key bitset pid : pid ∈ waiting_for P key bitset ↔ waits_in P key bitset pid = true.
Proof.
  unfold waiting_for. rewrite list_elem_of_filter, ascending_elem, elem_of_dom. split; [tauto|]. intros H. split; [done|]. unfold waits_in in H.
  destruct (P !! pid); [by eexists|done].
Qed.

Lemma none_waiting P key bitset r :
  waiting_for (change_in (woken r) (waiting_for P key bitset) P) key bitset = [].
Proof.
  apply empty_list. intros pid. rewrite waiting_elem. unfold waits_in. rewrite change_in_lookup. destruct (P !! pid) as [p|] eqn:Hp; cbn; [|done]. case_decide as Hin; [done|].
  rewrite waiting_elem in Hin. unfold waits_in in Hin. rewrite Hp in Hin. by destruct (futex_waits key bitset (p_state p)).
Qed.

Lemma armed_elem (m : gmap Z ArmedFutexWait) key bitset pid :
  pid ∈ armed_for m key bitset ↔ ∃ a, m !! pid = Some a ∧ armed_matches key bitset a = true.
Proof.
  unfold armed_for. rewrite list_elem_of_filter, ascending_elem, elem_of_dom. destruct (m !! pid) as [a|]; split; naive_solver.
Qed.

Lemma none_armed (m : gmap Z ArmedFutexWait) key bitset :
  armed_for (change_in (λ a, mkArmed (ar_key a) (ar_bitset a) true) (armed_for m key bitset) m) key bitset = [].
Proof.
  apply empty_list. intros pid. rewrite armed_elem. rewrite change_in_lookup. intros (a & Ha & Hm). destruct (m !! pid) as [b|] eqn:Hb; [|done]. cbn in Ha. case_decide as Hin; simplify_eq.
  - unfold armed_matches in Hm. cbn in Hm. by rewrite andb_false_r in Hm.
  - destruct Hin. apply armed_elem. eauto.
Qed.

(** C30. Waking a futex marks the processes that are about to sleep on it, then
    wakes those that sleep, lowest identifier first: the count returned is the
    smaller of [count] and the number of processes there are, exactly that
    many get the wake-up and nothing else changes; when fewer than [count] were
    woken nobody is left. *)
Theorem futex_wake_exact cpus (e : Env) s here key bitset count :
  reachable cpus e s →
  match wake_futex here key bitset count (sw s) with
  | (Ok n, w') => futex_woken key bitset count n (sw s) w' ∧
      ((n < count)%nat → armed_for (armed_futex_waits (pm w')) key bitset = [] ∧ waiting_for (processes (pm w')) key bitset = [])
  | _ => False
  end.
Proof.
  intros Hr. pose proof (wake_futex_rule here key bitset count (sw s) (sy_inv _ (reachable_ok _ _ _ Hr))) as H. unfold wp_res, wp in H.
  destruct (wake_futex here key bitset count (sw s)) as [[n| | |] w']; try done. cbn in H. destruct H as [_ Hw]. split; [done|]. intros Hn. destruct Hw as [Hc Ha Hp _]. rewrite Ha, Hp.
  rewrite !take_ge by lia. split; [apply none_armed|apply none_waiting].
Qed.

(** *** Deadlines *)

(** C32. The timer work wakes exactly the processes whose deadline has come, with
    the result that says so, leaves all others alone, and publishes the first
    deadline that is left, which is in the future. *)
Theorem deadlines_exact cpus (e : Env) s here now :
  reachable cpus e s →
  match wake_expired_timers here now (sw s) with
  | (Ok _, w') =>
      processes (pm w') = expired now <$> processes (pm (sw s)) ∧ same_rest (sw s) w' ∧
      published w' = first_key (blocked_timers (pm w')) ∧ (∀ d, published w' = Some d → now < d)
  | _ => False
  end.
Proof.
  intros Hr. pose proof (wake_deadlines_rule here now (sw s) (sy_inv _ (reachable_ok _ _ _ Hr))) as H. unfold wp_res, wp in H.
  destruct (wake_expired_timers here now (sw s)) as [[n| | |] w']; try done. cbn in H. destruct H as (Hinv & Hrest & Hp). split; [done|]. split; [done|].
  pose proof (ix_timers _ _ (iv_index _ _ _ Hinv)) as Ht. rewrite (tm_published _ _ Ht), (tm_next _ _ Ht). split; [done|]. intros d [Hd _]%first_key_Some.
  apply (listed_key _ _ (tm_full _ _ Ht)) in Hd as [pid Hd]. apply (tm_listed _ _ Ht) in Hd as (x & Hx & Hdl). rewrite blocks_lookup, Hp, lookup_fmap in Hx.
  destruct (processes (pm (sw s)) !! pid) as [p|]; [|done]. cbn in Hx. unfold expired in Hx. destruct (p_state p) as [| | |y| |] eqn:Hst; cbn in Hx; try (rewrite Hst in Hx; done).
  destruct (deadline_of y) as [d'|] eqn:Hy; [|rewrite Hst in Hx; cbn in Hx; congruence]. case_decide as Hle; [|rewrite Hst in Hx; cbn in Hx; simplify_eq; lia].
  destruct (due_result y d' Hy) as [r Hres]. unfold expire in Hx. rewrite Hst, Hres in Hx. done.
Qed.

(** *** No lost wake-up *)

Lemma armed_nodup (m : gmap Z ArmedFutexWait) key bitset : NoDup (armed_for m key bitset).
Proof. apply NoDup_filter, ascending_nodup. Qed.
Lemma waiting_nodup (P : gmap Z KernelProcess) key bitset : NoDup (waiting_for P key bitset).
Proof. apply NoDup_filter, ascending_nodup. Qed.

Lemma nodup_length (l l' : list Z) : NoDup l → (∀ x, x ∈ l → x ∈ l') → (length l <= length l')%nat.
Proof. intros. by apply submseteq_length, NoDup_submseteq. Qed.

(** One process more announced, asleep, or one less announced. *)
Lemma armed_insert_length m key bitset i a : (length (armed_for (<[i := a]> m) key bitset) <= S (length (armed_for m key bitset)))%nat.
Proof.
  apply (nodup_length _ (i :: armed_for m key bitset)); [apply armed_nodup|]. intros x (b & Hb & Hm)%armed_elem.
  apply lookup_insert_Some in Hb as [[<- _]|[_ Hb]]; [by left|]. right. apply armed_elem. eauto.
Qed.
Lemma armed_delete_length m key bitset i : (length (armed_for (delete i m) key bitset) <= length (armed_for m key bitset))%nat.
Proof.
  apply nodup_length; [apply armed_nodup|]. intros x (b & Hb & Hm)%armed_elem. apply lookup_delete_Some in Hb as [_ Hb]. apply armed_elem. eauto.
Qed.
Lemma waiting_insert_length (P : gmap Z KernelProcess) key bitset i p : (length (waiting_for (<[i := p]> P) key bitset) <= S (length (waiting_for P key bitset)))%nat.
Proof.
  apply (nodup_length _ (i :: waiting_for P key bitset)); [apply waiting_nodup|]. intros x Hx%waiting_elem.
  destruct (decide (x = i)) as [->|Hne]; [by left|]. right. apply waiting_elem. unfold waits_in in *. by rewrite lookup_insert_ne in Hx.
Qed.

(** C31. Between its look at the futex word and its sleep a process is announced;
    a waker that gets the lock in between, or after the sleep, reaches it: in
    either order the process can run again, is in its run queue, and its wait
    reports that it was woken.  This is for a waker whose bits meet those of
    the process and that wakes more processes than were already announced for
    or asleep on this futex with such bits: a wake of one suffices when nobody
    else waits.  A wake of fewer may reach others instead. *)
Theorem futex_no_lost_wake cpus (e : Env) s here there p key bs bits dl n count :
  let pid := id_pid (identity p) in
  let sleep := finish_kernel_block here p (BFutex key bs dl) in
  let wake := wake_futex there key bits count in
  let awake (w : pworld Env) := ∃ p', processes (pm w) !! pid = Some p' ∧ p_state p' = Runnable ∧ wake_result p' = Some (RFutex true false) ∧ queued w (assigned_cpu p) pid in
  reachable cpus e s → held s !! pid = Some p → pending_syscall p = Some n → Z.land bs bits ≠ 0 →
  (length (armed_for (armed_futex_waits (pm (sw s))) key bits) + length (waiting_for (processes (pm (sw s))) key bits) < count)%nat →
  wp_res (_ ← arm_futex_wait pid key bs; _ ← wake; sleep) (sw s) (λ _ w, awake w) (λ _ _, False) ∧
  wp_res (_ ← arm_futex_wait pid key bs; _ ← sleep; wake) (sw s) (λ _ w, awake w) (λ _ _, False).
Proof.
  intros pid sleep wake awake Hr Hp Hn Hb Hc. pose proof (reachable_ok _ _ _ Hr) as Hs. destruct (sy_held _ Hs pid p Hp) as [_ Hh]. set (w := sw s) in *.
  set (w1 := set_pm (set_armed (<[pid := mkArmed key bs false]> (armed_futex_waits (pm w))) (pm w)) w).
  assert (inv w1) as I1 by (apply inv_armed, Hs). assert (held_ok w1 p) as H1 by (by destruct Hh; constructor).
  assert (∀ w' p', inv w' → processes (pm w') !! pid = Some p' → p_state p' = Runnable → wake_result p' = Some (RFutex true false) → assigned_cpu p' = assigned_cpu p → awake w') as Hawake.
  { intros w' p' I' Hp' Hst Hres Hcpu. exists p'. destruct (iv_procs _ _ _ I' pid p' Hp') as [_ _ Hk _]. rewrite Hst, Hcpu in Hk. done. }
  split; (wp_step; apply modify_rule; change (set_pm _ _) with w1; wp_step).
  - eapply wp_mid; [apply (wp_both _ _ _ _ _ _ (wake_futex_rule there key bits count w1 I1) (wake_futex_keeps there False key bits count w1 I1))|].
    cbv beta. intros k w2 [[I2 F2] G2].
    assert (armed_futex_waits (pm w2) !! pid = Some (mkArmed key bs true)) as Ha.
    { rewrite (fw_armed _ _ _ _ _ _ F2), change_in_lookup. cbn. rewrite lookup_insert_eq. cbn. rewrite decide_True; [done|]. rewrite take_ge.
      - apply armed_elem. rewrite lookup_insert_eq. eexists. split; [done|]. unfold armed_matches. cbn. by rewrite !bool_decide_true.
      - etrans; [apply armed_insert_length|]. lia. }
    eapply wp_mid; [by apply (finish_futex_rule here p key bs dl n w2 I2 (held_good _ _ _ G2 H1))|]. cbv beta. intros _ w3 (I3 & _ & P3). fold pid in P3. rewrite Ha, decide_True in P3 by done.
    eapply Hawake; [done|by rewrite P3, lookup_insert_eq|done..].
  - eapply wp_mid; [by apply (finish_futex_rule here p key bs dl n w1 I1 H1)|]. cbv beta. intros _ w2 (I2 & A2 & P2). fold pid in A2, P2.
    rewrite decide_False in P2 by (cbn; rewrite lookup_insert_eq; congruence). cbn in A2. eapply wp_mid; [by apply wake_futex_rule|]. cbv beta. intros k w3 [I3 F3].
    apply (Hawake w3 (woken (RFutex true false) (asleep p key bs dl))); try done. rewrite (fw_woken _ _ _ _ _ _ F3), change_in_lookup, P2. rewrite lookup_insert_eq. cbn.
    rewrite decide_True; [done|]. rewrite take_ge.
    + apply waiting_elem. unfold waits_in. rewrite lookup_insert_eq. cbn. by rewrite !bool_decide_true.
    + etrans; [apply waiting_insert_length|]. rewrite A2, delete_insert_eq. pose proof (armed_delete_length (armed_futex_waits (pm w)) key bits pid). cbn in *. lia.
Qed.
End theorems.

(** ** Runs *)

(** Surroundings in which files are never ready and memory cannot be read. *)
Definition bare : ProcEnv () := {|
  user_read _ _ _ e := (None, e);
  user_write _ _ _ e := (None, e);
  page_fault _ _ _ e := (false, e);
  file_of _ _ _ := None;
  file_poll _ _ e := (None, e);
  file_register _ _ _ e := (None, e);
  file_unregister _ _ e := e;
  signalfd_notify _ _ e := ([], e);
  wake_listeners _ e := ([], e);
  signal_frame p _ _ e := (true, p_signals p, e);
  set_return _ _ e := e;
  shm_register _ e := e;
  shm_exit _ _ e := e;
  shm_replace _ _ _ e := e;
  itimer_reap _ e := e;
  monotonic_nanos _ := 0;
|}.
#[local] Existing Instance bare.

Definition two : gset Z := {[0; 1]}.
Definition after (s : psys ()) (l : list (Z * act)) : psys () := foldl (λ s x, (perform x.1 x.2 s).2) s l.

Lemma reach_next s here a : reachable two () s → enabled a s → ended (perform here a s).1 → reachable two () (perform here a s).2.
Proof. intros Hr He Hd. eapply (reach_step _ _ here a s _ (perform here a s).1); [done|done|by destruct (perform here a s)|done]. Qed.

(** The first process on processor 0, in a system call. *)
Definition first_on_cpu : psys () := after (boot two ()) [(0, ASpawn true None 7 0 9); (0, ATake)].
Definition caller : KernelProcess :=
  mkProcess (mkIdentity 1 1 None 1 1) (fresh (∅ : gset Z)) 7 0 false None (Some 202) [] None None None 0 None 9 (SignalState_new (L := Z) ∅).1 None Running.
Definition in_call : psys () := (perform 0 (AWork 1 caller) first_on_cpu).2.
Definition key0 : FutexKey := mkKey Shared 0x1000.

Lemma first_reachable : reachable two () first_on_cpu.
Proof.
  unfold first_on_cpu, after. cbn [foldl fst snd]. apply reach_next; [|done|vm_compute; done]. apply reach_next; [apply reach_boot| |vm_compute; done].
  split; [done|]. vm_compute. by eexists.
Qed.
Lemma in_call_reachable : reachable two () in_call.
Proof.
  apply reach_next; [apply first_reachable| |done]. eexists. split; [vm_compute; reflexivity|]. constructor; vm_compute; reflexivity.
Qed.
Lemma in_call_held : held in_call !! 1 = Some caller.
Proof. vm_compute. reflexivity. Qed.

Lemma scheduler_consistent_witness : is_Some (held in_call !! 1) ∧ processes (pm (sw in_call)) !! 1 = None ∧ published (sw in_call) = first_key (blocked_timers (pm (sw in_call))).
Proof.
  destruct (scheduler_consistent two () in_call in_call_reachable) as (_ & _ & _ & _ & _ & H1 & _ & H2). split; [rewrite in_call_held; by eexists|].
  split; [apply H2; rewrite in_call_held; by eexists|exact H1].
Defined.

Lemma scheduler_total_witness :
  ended (perform 1 (AReturn 1 202 (DExit 3)) in_call).1 ∨ ((perform 1 (AReturn 1 202 (DExit 3)) in_call).1 = Panic ∧ registered in_call).
Proof. apply (scheduler_total two () in_call 1 (AReturn 1 202 (DExit 3)) in_call_reachable). exact I. Defined.

(** The process sleeps until a deadline on a futex. *)
Definition sleeping : psys () := (perform 0 (ABlock 1 (BFutex key0 5 (Some 900))) in_call).2.
Lemma sleeping_reachable : reachable two () sleeping.
Proof. apply reach_next; [apply in_call_reachable| |vm_compute; done]. intros p Hp. rewrite in_call_held in Hp. simplify_eq. by eexists. Qed.

Lemma futex_wake_exact_witness : ∃ w', wake_futex 1 key0 4 3 (sw sleeping) = (Ok 1%nat, w') ∧ waiting_for (processes (pm w')) key0 4 = [].
Proof.
  pose proof (futex_wake_exact two () sleeping 1 key0 4 3 sleeping_reachable) as H. destruct (wake_futex 1 key0 4 3 (sw sleeping)) as [[n| | |] w'] eqn:E; try done.
  destruct H as [Hw Hleft]. exists w'. assert (n = 1%nat) as -> by (rewrite (fw_count _ _ _ _ _ _ Hw); vm_compute; reflexivity). split; [done|]. apply Hleft. lia.
Defined.

Lemma deadlines_exact_witness : ∃ w', wake_expired_timers 1 900 (sw sleeping) = (Ok (), w') ∧ (p_state <$> processes (pm w') !! 1) = Some Runnable ∧ published w' = first_key (blocked_timers (pm w')).
Proof.
  pose proof (deadlines_exact two () sleeping 1 900 sleeping_reachable) as H. destruct (wake_expired_timers 1 900 (sw sleeping)) as [[[]| | |] w'] eqn:E; try done.
  destruct H as (Hp & _ & Hpub & _). exists w'. split; [done|]. split; [|done]. rewrite Hp. vm_compute. reflexivity.
Defined.

Lemma futex_no_lost_wake_witness :
  wp_res (_ ← arm_futex_wait 1 key0 5; _ ← wake_futex 1 key0 4 1; finish_kernel_block 0 caller (BFutex key0 5 None)) (sw in_call)
    (λ _ w, ∃ p', processes (pm w) !! 1 = Some p' ∧ p_state p' = Runnable ∧ wake_result p' = Some (RFutex true false) ∧ queued w (assigned_cpu caller) 1) (λ _ _, False).
Proof.
  assert (length (armed_for (armed_futex_waits (pm (sw in_call))) key0 4) + length (waiting_for (processes (pm (sw in_call))) key0 4) < 1)%nat as Hc by (vm_compute; lia).
  destruct (futex_no_lost_wake two () in_call 0 1 caller key0 5 4 None 202 1 in_call_reachable in_call_held eq_refl ltac:(done) Hc) as [H _]. exact H.
Defined.

(** ** What goes wrong *)

Definition sig (signal : Z) : SignalInfo := kernel_info signal 0.

(** A process that is stopped is in no table any more, and a signal to go on
    finds nobody. *)
Lemma stopped_process_lost :
  let s := after (boot two ()) [(0, ASpawn true None 7 0 9); (0, ASend 1 (sig SIGSTOP)); (0, ATake)] in
  processes (pm (sw s)) !! 1 = None ∧ held s !! 1 = None ∧ zombies (pm (sw s)) !! 1 = None ∧ (send_signal 0 1 (sig SIGCONT) (sw s)).1 = Ok false.
Proof. vm_compute. done. Qed.

(** Between leaving the table and being announced as running a process gets no
    signals. *)
Lemma signal_missed : is_Some (held first_on_cpu !! 1) ∧ (send_signal 0 1 (sig SIGKILL) (sw first_on_cpu)).1 = Ok false.
Proof. vm_compute. split; [by eexists|done]. Qed.

(** An exit status from 128 on is taken for a signal. *)
Lemma exit_200_is_a_signal : wait_status (EvExited 200) = 72 ∧ wait_status (EvExited 72) = 72 * 256.
Proof. done. Qed.

(** A child ends after its parent found no event and before the parent sleeps:
    the event is there, and the parent sleeps on. *)
Lemma wait_wakeup_lost :
  let s := after in_call [(0, AWait 1 SelAny 0 true); (0, ASpawn true (Some 1) 8 1 9); (1, ATake); (1, AReturn 2 231 (DExit 0)); (0, ABlock 1 (BWaitChild SelAny Wait4 0 0 0))] in
  child_events (pm (sw s)) !! 1 = Some [mkChildEvent 2 (EvExited 0)] ∧ (p_state <$> processes (pm (sw s)) !! 1) = Some (Blocked (BWaitChild SelAny Wait4 0 0 0)).
Proof. vm_compute. done. Qed.

(** Memory in which every word is the least offset. *)
Definition forged : ProcEnv () := {|
  user_read _ _ n e := (Some (le_bytes n (2 ^ 63)), e);
  user_write := user_write; page_fault := page_fault; file_of := file_of; file_poll := file_poll; file_register := file_register; file_unregister := file_unregister;
  signalfd_notify := signalfd_notify; wake_listeners := wake_listeners; signal_frame := signal_frame; set_return := set_return; shm_register := shm_register;
  shm_exit := shm_exit; shm_replace := shm_replace; itimer_reap := itimer_reap; monotonic_nanos := monotonic_nanos;
|}.
Definition with_robust (head : Z) (p : KernelProcess) : KernelProcess :=
  mkProcess (identity p) (p_pidfd p) (task p) (assigned_cpu p) (kernel_context p) (pending_exec p) (pending_syscall p) (pending_file_waits p) (vfork_parent p) (set_child_tid p)
    (Some head) 24 (clear_child_tid p) (p_files p) (p_signals p) (wake_result p) (p_state p).

(** A process can end the kernel with the offset of its robust list. *)
Lemma robust_offset_panics : (cleanup_robust_list (ProcEnv0 := forged) 0 (with_robust 0x2000 caller) (sw in_call)).1 = Panic.
Proof. vm_compute. done. Qed.
