(* ===== verification/Block.v ===== *)
(** * Block devices, the files over them and partition tables

    Models [aether-kernel/libs/aether-fs/src/block.rs] (the trait
    [AsyncBlockDevice] and [BlockDeviceFile], which gives access by bytes),
    [aether-kernel/libs/aether-drivers/src/block/partition.rs] (partitions as
    devices, the parsers of GPT and MBR tables) and the transfer loops of
    [block/nvme/mod.rs] over a queue pair of the [nvme] crate, which is a
    parameter.

    A device is a record of operations on a state: [bd_read block n] is the
    future of [read_blocks] run to its end with a buffer of [n] bytes, and
    returns the bytes that were put into the buffer.  The transfer buffers of
    [BufferedBlockDevice] are values: the pool only recycles their memory. *)

From S2P Require Import Prelude Poll MemFile.

(** ** The interface *)

Record BlockGeometry := mkGeometry {
  block_size : Z;
  block_count : Z;
}.

(** The product of a valid program does not overflow; else it panics. *)
Definition size_bytes {S E} (g : BlockGeometry) : M S E Z :=
  if decide (block_size g * block_count g <= u64_max) then mret (block_size g * block_count g) else mpanic.

Definition is_valid (g : BlockGeometry) : bool := bool_decide (block_size g ≠ 0).

Record BlockDevice (S : Type) := mkDevice {
  bd_geometry : BlockGeometry;
  bd_max_transfer : Z;
  bd_read : Z → Z → M S FsError (list Z);
  bd_write : Z → list Z → M S FsError Z;
  bd_flush : M S FsError unit;
}.
Arguments mkDevice {S}.
Arguments bd_geometry {S}.
Arguments bd_max_transfer {S}.
Arguments bd_read {S}.
Arguments bd_write {S}.
Arguments bd_flush {S}.

(** [max_transfer_bytes] of [BufferedBlockDevice::new] *)
Definition BufferedBlockDevice_new {S} (inner : BlockDevice S) : BlockDevice S :=
  mkDevice (bd_geometry inner) (bd_max_transfer inner `max` block_size (bd_geometry inner))
    (bd_read inner) (bd_write inner) (bd_flush inner).

Definition validate_geometry {S} (g : BlockGeometry) : M S FsError BlockGeometry :=
  if is_valid g then mret g else mthrow InvalidInput.

(** ** Files over a device *)

Section file.
Context {S : Type} (D : BlockDevice S).
Implicit Types (fuel : nat).

Definition bs : Z := block_size (bd_geometry D).

(** [while remaining > 0] of [read]: whole blocks go directly into the buffer,
    the rest through a scratch block. *)
Fixpoint block_read_loop fuel (remaining : Z) (copied : list Z) (block block_offset : Z) : M S FsError (list Z) :=
  if decide (0 < remaining) then
    match fuel with
    | O => mdiverge
    | Datatypes.S fuel' =>
        let direct_bytes := if decide (block_offset = 0) then remaining - remaining mod bs else 0 in
        if decide (direct_bytes ≠ 0) then
          got ← bd_read D block direct_bytes;
          let read := Z.of_nat (length got) in
          if decide (read = 0) then mret copied
          else if decide (read < direct_bytes) then mret (copied ++ got)
          else block_read_loop fuel' (remaining - read) (copied ++ got) (saturating_add u64_max block (read / bs)) block_offset
        else
          scratch ← bd_read D block bs;
          let available := Z.of_nat (length scratch) in
          if decide (available <= block_offset) then mret copied
          else
            let chunk := remaining `min` (available - block_offset) in
            block_read_loop fuel' (remaining - chunk) (copied ++ take (Z.to_nat chunk) (drop (Z.to_nat block_offset) scratch))
              (saturating_add u64_max block 1) 0
    end
  else mret copied.

Definition block_file_read (offset n : Z) : M S FsError (list Z) :=
  geometry ← validate_geometry (bd_geometry D);
  capacity ← size_bytes geometry;
  if decide (capacity <= offset) then mret []
  else
    let remaining := n `min` (capacity - offset) in
    block_read_loop (Z.to_nat remaining) remaining [] (offset / block_size geometry) (offset mod block_size geometry).

(** [write]: the number of bytes written so far is [copied]. *)
Fixpoint block_write_loop fuel (buffer : list Z) (remaining copied block block_offset : Z) : M S FsError Z :=
  if decide (0 < remaining) then
    match fuel with
    | O => mdiverge
    | Datatypes.S fuel' =>
        let direct_bytes := if decide (block_offset = 0) then remaining - remaining mod bs else 0 in
        if decide (direct_bytes ≠ 0) then
          written ← bd_write D block (take (Z.to_nat direct_bytes) (drop (Z.to_nat copied) buffer));
          if decide (written = 0) then mret copied
          else if decide (written < direct_bytes) then mret (copied + written)
          else block_write_loop fuel' buffer (remaining - written) (copied + written) (saturating_add u64_max block (written / bs)) block_offset
        else
          scratch ← bd_read D block bs;
          let prepared := Z.of_nat (length scratch) in
          if decide (prepared <= block_offset) then mret copied
          else
            let chunk := remaining `min` (prepared - block_offset) in
            _ ← bd_write D block (splice (Z.to_nat block_offset) (take (Z.to_nat chunk) (drop (Z.to_nat copied) buffer)) scratch);
            block_write_loop fuel' buffer (remaining - chunk) (copied + chunk) (saturating_add u64_max block 1) 0
    end
  else mret copied.

Definition block_file_write (offset : Z) (buffer : list Z) : M S FsError Z :=
  geometry ← validate_geometry (bd_geometry D);
  capacity ← size_bytes geometry;
  if decide (capacity <= offset) then mret 0
  else
    let remaining := Z.of_nat (length buffer) `min` (capacity - offset) in
    copied ← block_write_loop (Z.to_nat remaining) buffer remaining 0 (offset / block_size geometry) (offset mod block_size geometry);
    _ ← (if decide (copied ≠ 0) then bd_flush D else mret ());
    mret copied.
End file.

(** ** Partitions as devices *)

Record PartitionEntry := mkEntry {
  pe_index : Z;
  first_lba : Z;
  pe_block_count : Z;
}.

Definition PartitionBlockDevice {S} (parent : BlockDevice S) (entry : PartitionEntry) : BlockDevice S :=
  mkDevice (mkGeometry (block_size (bd_geometry parent)) (pe_block_count entry)) (bd_max_transfer parent)
    (λ block n, bd_read parent (saturating_add u64_max (first_lba entry) block) n)
    (λ block buffer, bd_write parent (saturating_add u64_max (first_lba entry) block) buffer)
    (bd_flush parent).

(** ** NVMe name spaces *)

Definition aligned_transfer_bytes (limit block_size : Z) : Z :=
  let limit := limit `max` block_size in
  (limit - limit mod block_size) `max` block_size.

Section nvme.
(** [qread bytes lba] and [qwrite data lba] are the commands of the queue pair
    together with the flush that waits for them; errors are mapped by
    [map_nvme_error]. *)
Context {S : Type} (qread : Z → Z → M S FsError (list Z)) (qwrite : list Z → Z → M S FsError unit).
Context (geometry : BlockGeometry) (transfer_len : Z).

Fixpoint nvme_read_loop (fuel : nat) (max_bytes len : Z) (completed : list Z) (current_lba : Z) : M S FsError (list Z) :=
  let left := len - Z.of_nat (length completed) in
  if decide (0 < left) then
    match fuel with
    | O => mdiverge
    | Datatypes.S fuel' =>
        let bytes := left `min` max_bytes in
        data ← qread bytes current_lba;
        nvme_read_loop fuel' max_bytes len (completed ++ data) (saturating_add u64_max current_lba (bytes / block_size geometry))
    end
  else mret completed.

Definition read_blocks_sync (block len : Z) : M S FsError (list Z) :=
  if decide (block_size geometry = 0 ∨ len = 0 ∨ len mod block_size geometry ≠ 0) then mthrow InvalidInput
  else
    let max_bytes := aligned_transfer_bytes transfer_len (block_size geometry) in
    if decide (max_bytes = 0) then mthrow InvalidInput
    else nvme_read_loop (Z.to_nat len) max_bytes len [] block.

Fixpoint nvme_write_loop (fuel : nat) (max_bytes : Z) (buffer : list Z) (completed current_lba : Z) : M S FsError Z :=
  let left := Z.of_nat (length buffer) - completed in
  if decide (0 < left) then
    match fuel with
    | O => mdiverge
    | Datatypes.S fuel' =>
        let bytes := left `min` max_bytes in
        _ ← qwrite (take (Z.to_nat bytes) (drop (Z.to_nat completed) buffer)) current_lba;
        nvme_write_loop fuel' max_bytes buffer (completed + bytes) (saturating_add u64_max current_lba (bytes / block_size geometry))
    end
  else mret completed.

Definition write_blocks_sync (block : Z) (buffer : list Z) : M S FsError Z :=
  let len := Z.of_nat (length buffer) in
  if decide (block_size geometry = 0 ∨ len = 0 ∨ len mod block_size geometry ≠ 0) then mthrow InvalidInput
  else
    let max_bytes := aligned_transfer_bytes transfer_len (block_size geometry) in
    if decide (max_bytes = 0) then mthrow InvalidInput
    else nvme_write_loop (length buffer) max_bytes buffer 0 block.

Definition NvmeNamespaceDevice (max_transfer_size : Z) : BlockDevice S :=
  mkDevice geometry (aligned_transfer_bytes max_transfer_size (block_size geometry)) read_blocks_sync write_blocks_sync (mret ()).
End nvme.
