(* ===== verification/BlockProof.v ===== *)
(** * Files over block devices: proofs

    [device_ok] is what a device promises to the layers above: it is an array
    of blocks; transfers of whole blocks move a number of whole blocks and
    report how many, all of them unless the device is allowed to stop short
    ([short]) and then at least one; a write that fails has changed nothing outside the blocks that it was
    given.  Files over such a device are arrays of bytes ([read_rule],
    [write_rule]); a partition is such a device, and its operations never touch
    the blocks outside it; the transfer loops of NVMe name spaces implement the
    interface over a queue pair. *)

From S2P Require Import Prelude Poll MemFile MemFileProof Block.

Record device_ok {S} {short : bool} (D : BlockDevice S) (rep : S → list Z → Prop) : Prop := {
  do_size : 0 < bs D;
  do_count : 0 <= block_count (bd_geometry D);
  do_capacity : bs D * block_count (bd_geometry D) <= u64_max;
  do_length s bytes : rep s bytes → Z.of_nat (length bytes) = bs D * block_count (bd_geometry D);
  do_read s bytes block n :
    rep s bytes → 0 <= block → 0 < n → block + n <= block_count (bd_geometry D) →
    wp_res (bd_read D block (n * bs D)) s
      (λ r s', rep s' bytes ∧ ∃ k, 0 < k <= n ∧ (short = false → k = n) ∧ r = take (Z.to_nat (k * bs D)) (drop (Z.to_nat (block * bs D)) bytes))
      (λ _ s', rep s' bytes);
  do_read_any s bytes block n :
    rep s bytes → wp_res (bd_read D block n) s (λ _ s', rep s' bytes) (λ _ s', rep s' bytes);
  do_write s bytes block n buffer :
    rep s bytes → 0 <= block → 0 < n → block + n <= block_count (bd_geometry D) → Z.of_nat (length buffer) = n * bs D →
    wp_res (bd_write D block buffer) s
      (λ w s', ∃ k, 0 < k <= n ∧ (short = false → k = n) ∧ w = k * bs D ∧ rep s' (splice (Z.to_nat (block * bs D)) (take (Z.to_nat w) buffer) bytes))
      (λ _ s', ∃ junk, length junk = length buffer ∧ rep s' (splice (Z.to_nat (block * bs D)) junk bytes));
  do_flush s bytes : rep s bytes → wp_res (bd_flush D) s (λ _ s', rep s' bytes) (λ _ s', rep s' bytes);
}.

Arguments device_ok {S} short D rep.

(** ** Parts of an array *)

(** The bytes of the device from [off], at most [n]. *)
Definition window (bytes : list Z) (off n : Z) : list Z := take (Z.to_nat n) (drop (Z.to_nat off) bytes).

Lemma length_window bytes off n :
  0 <= off → 0 <= n → off + n <= Z.of_nat (length bytes) → Z.of_nat (length (window bytes off n)) = n.
Proof. intros ???. unfold window. rewrite length_take, length_drop. lia. Qed.

Lemma window_app bytes off n m :
  0 <= off → 0 <= n → 0 <= m → window bytes off n ++ window bytes (off + n) m = window bytes off (n + m).
Proof.
  intros ???. unfold window. rewrite !Z2Nat.inj_add by lia. rewrite <-drop_drop. apply take_take_drop.
Qed.

Lemma window_window bytes off n o m :
  0 <= off → 0 <= o → 0 <= m → o + m <= n → window (window bytes off n) o m = window bytes (off + o) m.
Proof.
  intros ????. unfold window. rewrite List.skipn_firstn_comm, take_take, drop_drop. f_equal; [lia|]. f_equal. lia.
Qed.

(** Arrays that differ between [lo] and [hi] only. *)
Definition same_outside (lo hi : Z) (a b : list Z) : Prop :=
  ∀ i : nat, Z.of_nat i < lo ∨ hi <= Z.of_nat i → a !! i = b !! i.

Lemma same_outside_refl lo hi a : same_outside lo hi a a.
Proof. by intros i _. Qed.
Lemma same_outside_trans lo hi a b c : same_outside lo hi a b → same_outside lo hi b c → same_outside lo hi a c.
Proof. intros H1 H2 i Hi. by rewrite H1, H2. Qed.

Lemma same_outside_splice lo hi off d a :
  0 <= off → off + Z.of_nat (length d) <= Z.of_nat (length a) → lo <= off → off + Z.of_nat (length d) <= hi →
  same_outside lo hi a (splice (Z.to_nat off) d a).
Proof. intros Ho Hl Hlo Hhi i Hi. rewrite lookup_splice by lia. by rewrite decide_False by lia. Qed.

(** Writing a part of a block back with the rest of the block. *)
Lemma splice_block base o n d a :
  0 <= base → 0 <= o → o + Z.of_nat (length d) <= n → base + n <= Z.of_nat (length a) →
  splice (Z.to_nat base) (splice (Z.to_nat o) d (window a base n)) a = splice (Z.to_nat (base + o)) d a.
Proof.
  intros Hb Ho Hn Hl. pose proof (length_window a base n ltac:(lia) ltac:(lia) Hl) as Hw.
  apply list_eq. intros i. rewrite !lookup_splice by (rewrite ?length_splice; lia).
  rewrite length_splice by lia. repeat case_decide; try lia; try done; [f_equal; lia|].
  unfold window. rewrite lookup_take_lt, lookup_drop by lia. f_equal. lia.
Qed.

(** ** Reading and writing bytes *)

Section file.
Context {S : Type} {short : bool} (D : BlockDevice S) (rep : S → list Z → Prop) (HD : device_ok short D rep).

Abbreviation capacity := (bs D * block_count (bd_geometry D)).

(** Where the loop stands: a position inside the device, with room for what is
    left. *)
Record at_block (block block_offset remaining pos : Z) : Prop := {
  ab_block : 0 <= block;
  ab_offset : 0 <= block_offset < bs D;
  ab_pos : pos = block * bs D + block_offset;
  ab_room : pos + remaining <= capacity;
}.

Lemma at_block_in block block_offset remaining pos n :
  at_block block block_offset remaining pos → 0 <= n → n * bs D <= remaining ∨ n = 1 → 0 < remaining → block_offset = 0 ∨ n = 1 →
  block + n <= block_count (bd_geometry D).
Proof. intros [Hb Ho -> Hr] Hn Hc Hpos Ho'. pose proof (do_size _ _ HD). nia. Qed.

(** The end of a part of [remaining] that is at most a block, in the next block. *)
Lemma at_block_next block block_offset remaining pos :
  at_block block block_offset remaining pos → 0 < remaining →
  saturating_add u64_max block 1 = block + 1.
Proof.
  intros [Hb Ho -> Hr] Hpos. pose proof (do_size _ _ HD). pose proof (do_capacity _ _ HD). unfold saturating_add. nia.
Qed.
Lemma direct_blocks remaining :
  0 < remaining → ∃ n, 0 <= n ∧ remaining - remaining mod bs D = n * bs D ∧ n * bs D <= remaining.
Proof.
  intros Hr. pose proof (do_size _ _ HD). exists (remaining / bs D). pose proof (Z.div_mod remaining (bs D) ltac:(lia)) as Hdm.
  pose proof (Z.mod_pos_bound remaining (bs D) ltac:(lia)). split; [apply Z.div_pos; lia|]. split; lia.
Qed.

(** A device reads one block whole. *)
Lemma read_one s bytes block :
  rep s bytes → 0 <= block → block + 1 <= block_count (bd_geometry D) →
  wp_res (bd_read D block (bs D)) s (λ r s', rep s' bytes ∧ r = window bytes (block * bs D) (bs D)) (λ _ s', rep s' bytes).
Proof.
  intros Hs Hb Hc. replace (bs D) with (1 * bs D) at 1 by lia. eapply wp_res_mono; [eapply (do_read _ _ HD); [done|done|lia|done]|cbv beta|done].
  intros r s' (Hs' & k & Hk & _ & ->). split; [done|]. unfold window. f_equal. assert (k = 1) as -> by lia. lia.
Qed.

Lemma block_read_rule fuel : ∀ remaining copied block block_offset pos s bytes,
  rep s bytes → at_block block block_offset remaining pos → remaining <= Z.of_nat fuel → 0 <= remaining →
  wp_res (block_read_loop D fuel remaining copied block block_offset) s
    (λ r s', rep s' bytes ∧ ∃ k, 0 <= k <= remaining ∧ (k = 0 → remaining = 0) ∧ (short = false → k = remaining) ∧ r = copied ++ window bytes pos k)
    (λ _ s', rep s' bytes).
Proof.
  induction fuel as [|fuel IH]; intros remaining copied block block_offset pos s bytes Hs Hat Hfuel Hrem.
  { cbn [block_read_loop]. rewrite decide_False by lia. wp_run. split; [done|]. exists 0. split; [lia|]. split; [lia|]. split; [lia|]. by rewrite app_nil_r. }
  cbn [block_read_loop]. destruct (decide (0 < remaining)) as [Hpos|Hpos].
  2:{ wp_run. split; [done|]. exists 0. split; [lia|]. split; [lia|]. split; [lia|]. by rewrite app_nil_r. }
  pose proof (do_size _ _ HD) as Hbs. pose proof (do_length _ _ HD _ _ Hs) as Hlen. pose proof Hat as [Hb Ho Hp Hroom].
  destruct (direct_blocks remaining Hpos) as (n & Hn & Hdir & Hnr).
  set (direct := if decide (block_offset = 0) then _ else 0).
  destruct (decide (direct ≠ 0)) as [Hd|Hd].
  - assert (block_offset = 0 ∧ direct = n * bs D) as [Ho0 Hdn].
    { unfold direct in *. destruct (decide (block_offset = 0)); [by rewrite Hdir|done]. }
    rewrite Hdn. assert (0 < n) as Hn0 by nia.
    assert (block + n <= block_count (bd_geometry D)) as Hin by (eapply at_block_in; [done|lia|by left|lia|by left]).
    wp_step. eapply wp_res_mono; [by eapply (do_read _ _ HD)|cbv beta|done].
    intros got s1 (Hs1 & k & Hk & Hfull & ->). cbn zeta.
    change (take (Z.to_nat (k * bs D)) (drop (Z.to_nat (block * bs D)) bytes)) with (window bytes (block * bs D) (k * bs D)).
    assert (Z.of_nat (length (window bytes (block * bs D) (k * bs D))) = k * bs D) as Hl by (apply length_window; nia).
    rewrite Hl. rewrite decide_False by nia. replace (block * bs D) with pos by lia.
    destruct (decide (k * bs D < n * bs D)) as [Hlt|Hge].
    + wp_run. split; [done|]. exists (k * bs D). split; [nia|]. split; [nia|]. split; [intros Hf; specialize (Hfull Hf); nia|done].
    + assert (k = n) as -> by nia. rewrite Z.div_mul by lia.
      eapply wp_res_mono; [eapply (IH _ _ _ _ (pos + n * bs D)); [done| |nia|nia]|cbv beta|done].
      * pose proof (do_capacity _ _ HD). constructor; unfold saturating_add; nia.
      * intros r s2 (Hs2 & k & Hk' & Hz & Hf & ->). split; [done|]. exists (n * bs D + k). split; [nia|]. split; [nia|]. split; [intros Hsh; specialize (Hf Hsh); lia|].
        rewrite <-app_assoc. f_equal. apply window_app; nia.
  - assert (block + 1 <= block_count (bd_geometry D)) as Hin by (eapply at_block_in; [done|lia|by right|lia|by right]).
    wp_step. eapply wp_res_mono; [by eapply read_one|cbv beta|done].
    intros scratch s1 (Hs1 & ->). cbn zeta.
    assert (Z.of_nat (length (window bytes (block * bs D) (bs D))) = bs D) as Hl by (apply length_window; nia).
    rewrite Hl. rewrite decide_False by lia. set (chunk := remaining `min` (bs D - block_offset)).
    fold (window (window bytes (block * bs D) (bs D)) block_offset chunk). rewrite window_window by lia. rewrite <-Hp.
    rewrite (at_block_next block block_offset remaining pos) by done.
    destruct (decide (remaining = chunk)) as [Hrc|Hrc].
    + rewrite <-Hrc, Z.sub_diag. destruct fuel; cbn [block_read_loop]; (rewrite decide_False by lia; wp_run; split; [done|]; exists remaining; split_and!; [lia..|done]).
    + eapply wp_res_mono; [eapply (IH _ _ _ _ (pos + chunk)); [done| |lia|lia]|cbv beta|done].
      * constructor; [lia|lia|lia|lia].
      * intros r s2 (Hs2 & k & Hk' & Hz & Hf & ->). split; [done|]. exists (chunk + k). split; [lia|]. split; [lia|]. split; [intros Hsh; specialize (Hf Hsh); lia|].
        rewrite <-app_assoc. f_equal. apply window_app; lia.
Qed.
Definition left_alone lo hi bytes s' : Prop := ∃ bytes', rep s' bytes' ∧ same_outside lo hi bytes bytes'.

Lemma write_one s bytes block buffer :
  rep s bytes → 0 <= block → block + 1 <= block_count (bd_geometry D) → Z.of_nat (length buffer) = bs D →
  wp_res (bd_write D block buffer) s (λ _ s', rep s' (splice (Z.to_nat (block * bs D)) buffer bytes))
    (λ _ s', ∃ junk, length junk = length buffer ∧ rep s' (splice (Z.to_nat (block * bs D)) junk bytes)).
Proof.
  intros Hs Hb Hc Hl. eapply wp_res_mono; [eapply (do_write _ _ HD _ _ _ 1); [done|done|lia|done|lia]|cbv beta|done].
  intros w s' (k & Hk & _ & -> & Hs'). assert (k = 1) as -> by lia. by rewrite take_ge in Hs' by lia.
Qed.

Lemma block_write_rule fuel : ∀ buffer remaining copied block block_offset pos hi s bytes,
  rep s bytes → at_block block block_offset remaining pos → remaining <= Z.of_nat fuel → 0 <= remaining → 0 <= copied →
  copied + remaining <= Z.of_nat (length buffer) → pos + remaining <= hi * bs D →
  ∀ lo, lo <= block * bs D →
  wp_res (block_write_loop D fuel buffer remaining copied block block_offset) s
    (λ r s', ∃ k, 0 <= k <= remaining ∧ (k = 0 → remaining = 0) ∧ (short = false → k = remaining) ∧ r = copied + k ∧ rep s' (splice (Z.to_nat pos) (window buffer copied k) bytes))
    (λ _ s', left_alone lo (hi * bs D) bytes s').
Proof.
  induction fuel as [|fuel IH]; intros buffer remaining copied block block_offset pos hi s bytes Hs Hat Hfuel Hrem Hcop Hbuf Hhi lo Hlo.
  { cbn [block_write_loop]. rewrite decide_False by lia. wp_run. exists 0. split_and!; [lia..|]. by rewrite splice_nil. }
  cbn [block_write_loop]. destruct (decide (0 < remaining)) as [Hpos|Hpos].
  2:{ wp_run. exists 0. split_and!; [lia..|]. by rewrite splice_nil. }
  pose proof (do_size _ _ HD) as Hbs. pose proof (do_length _ _ HD _ _ Hs) as Hlen. pose proof Hat as [Hb Ho Hp Hroom].
  destruct (direct_blocks remaining Hpos) as (n & Hn & Hdir & Hnr).
  set (direct := if decide (block_offset = 0) then _ else 0).
  destruct (decide (direct ≠ 0)) as [Hd|Hd].
  - assert (block_offset = 0 ∧ direct = n * bs D) as [Ho0 Hdn].
    { unfold direct in *. destruct (decide (block_offset = 0)); [by rewrite Hdir|done]. }
    rewrite Hdn. fold (window buffer copied (n * bs D)). assert (0 < n) as Hn0 by nia.
    assert (Z.of_nat (length (window buffer copied (n * bs D))) = n * bs D) as Hwl by (apply length_window; nia).
    assert (block + n <= block_count (bd_geometry D)) as Hin by (eapply at_block_in; [done|lia|by left|lia|by left]).
    wp_step. eapply wp_res_mono; [by eapply (do_write _ _ HD)|cbv beta|cbv beta].
    2:{ intros _ s1 (junk & Hj & Hs1). eexists. split; [done|]. apply same_outside_splice; nia. }
    intros w s1 (k & Hk & Hfull & -> & Hs1). assert (take (Z.to_nat (k * bs D)) (window buffer copied (n * bs D)) = window buffer copied (k * bs D)) as Hw.
    { unfold window. rewrite take_take. f_equal. nia. }
    rewrite Hw in Hs1. replace (block * bs D) with pos in Hs1 by lia. rewrite decide_False by nia.
    assert (Z.of_nat (length (window buffer copied (k * bs D))) = k * bs D) as Hkl by (apply length_window; nia).
    destruct (decide (k * bs D < n * bs D)) as [Hlt|Hge].
    + wp_run. exists (k * bs D). split_and!; [nia|nia|nia|intros Hsh; specialize (Hfull Hsh); nia|nia|done].
    + assert (k = n) as -> by nia. rewrite Z.div_mul by lia. pose proof (do_capacity _ _ HD) as Hcap.
      eapply wp_res_mono; [eapply (IH buffer _ _ _ _ (pos + n * bs D) hi); [done| |nia|nia|nia|nia|nia|]|cbv beta|cbv beta].
      * constructor; unfold saturating_add; nia.
      * instantiate (1 := lo). unfold saturating_add. nia.
      * intros r s2 (k & Hk' & Hz & Hf & -> & Hs2). exists (n * bs D + k). split_and!; [nia|nia|nia|intros Hsh; specialize (Hf Hsh); lia|nia|].
        rewrite <-window_app by nia. rewrite <-splice_splice; [|pose proof (length_window buffer (copied + n * bs D) k); nia].
        by replace (Z.to_nat pos + length (window buffer copied (n * bs D)))%nat with (Z.to_nat (pos + n * bs D)) by nia.
      * intros _ s2 (bytes' & Hs2 & Hsame). exists bytes'. split; [done|]. eapply same_outside_trans; [|done].
        apply same_outside_splice; nia.
  - assert (block + 1 <= block_count (bd_geometry D)) as Hin by (eapply at_block_in; [done|lia|by right|lia|by right]).
    wp_step. eapply wp_res_mono; [by eapply read_one|cbv beta|cbv beta; intros _ s1 Hs1; exists bytes; split; [done|apply same_outside_refl]].
    intros scratch s1 (Hs1 & ->). cbn zeta.
    assert (Z.of_nat (length (window bytes (block * bs D) (bs D))) = bs D) as Hl by (apply length_window; nia).
    rewrite Hl. rewrite decide_False by lia. set (chunk := remaining `min` (bs D - block_offset)).
    fold (window buffer copied chunk).
    assert (Z.of_nat (length (window buffer copied chunk)) = chunk) as Hcl by (apply length_window; lia).
    assert (block < hi) as Hbh by nia. assert (block * bs D + bs D <= hi * bs D) as Hhi' by nia.
    wp_step. eapply wp_res_mono; [eapply write_one; [done|done|done|rewrite length_splice; lia]|cbv beta|cbv beta].
    2:{ intros _ s2 (junk & Hj & Hs2). eexists. split; [done|]. rewrite length_splice in Hj by lia. apply same_outside_splice; nia. }
    intros _ s2 Hs2. rewrite splice_block in Hs2 by nia. rewrite <-Hp in Hs2.
    rewrite (at_block_next block block_offset remaining pos) by done.
    destruct (decide (remaining = chunk)) as [Hrc|Hrc].
    + rewrite <-Hrc in Hs2 |- *. rewrite Z.sub_diag. destruct fuel; cbn [block_write_loop]; (rewrite decide_False by lia; wp_run; exists remaining; split_and!; [lia..|done]).
    + eapply wp_res_mono; [eapply (IH buffer _ _ _ _ (pos + chunk) hi); [done| |lia|lia|lia|lia|lia|]|cbv beta|cbv beta].
      * constructor; [lia|lia|lia|lia].
      * instantiate (1 := lo). lia.
      * intros r s3 (k & Hk' & Hz & Hf & -> & Hs3). exists (chunk + k). split_and!; [lia|lia|lia|intros Hsh; specialize (Hf Hsh); lia|lia|].
        rewrite <-window_app by lia. rewrite <-splice_splice; [|pose proof (length_window buffer (copied + chunk) k); lia].
        by replace (Z.to_nat pos + length (window buffer copied chunk))%nat with (Z.to_nat (pos + chunk)) by lia.
      * intros _ s3 (bytes' & Hs3 & Hsame). exists bytes'. split; [done|]. eapply same_outside_trans; [|done].
        apply same_outside_splice; nia.
Qed.
Lemma start_at_block off remaining :
  0 <= off → 0 <= remaining → off + remaining <= capacity → at_block (off / bs D) (off mod bs D) remaining off.
Proof.
  intros Ho Hr Hc. pose proof (do_size _ _ HD). pose proof (Z.div_mod off (bs D) ltac:(lia)). pose proof (Z.mod_pos_bound off (bs D) ltac:(lia)).
  constructor; [apply Z.div_pos; lia|lia|lia|lia].
Qed.

Lemma geometry_run {A} (k : BlockGeometry → Z → M S FsError A) s Q Qe :
  wp_res (k (bd_geometry D) capacity) s Q Qe → wp_res (g ← validate_geometry (bd_geometry D); c ← size_bytes g; k g c) s Q Qe.
Proof.
  intros H. pose proof (do_size _ _ HD) as Hs. unfold validate_geometry, is_valid. rewrite bool_decide_true by (unfold bs in Hs; lia). wp_step.
  unfold size_bytes. wp_step. change (block_size (bd_geometry D)) with (bs D). rewrite decide_True by apply (do_capacity _ _ HD). by wp_step.
Qed.

Lemma window_past bytes off n : Z.of_nat (length bytes) <= off → window bytes off n = [].
Proof. intros H. unfold window. by rewrite drop_ge, take_nil by lia. Qed.

Lemma window_min bytes off n : 0 <= off → window bytes off n = window bytes off (n `min` (Z.of_nat (length bytes) - off)).
Proof.
  intros Ho. unfold window. destruct (decide (n <= Z.of_nat (length bytes) - off)) as [|Hn]; [by rewrite Z.min_l by lia|].
  rewrite Z.min_r by lia. rewrite !take_ge; [done|rewrite length_drop; lia..].
Qed.

Lemma window_prefix bytes off k n : k <= n → window bytes off k `prefix_of` window bytes off n.
Proof.
  intros Hk. unfold window. set (l := drop _ _). exists (drop (Z.to_nat k) (take (Z.to_nat n) l)).
  rewrite <-(take_drop (Z.to_nat k) (take (Z.to_nat n) l)) at 1. f_equal. rewrite take_take. f_equal. lia.
Qed.

Lemma file_read_rule s bytes off n :
  rep s bytes → 0 <= off → 0 <= n →
  wp_res (block_file_read D off n) s
    (λ r s', rep s' bytes ∧ r `prefix_of` window bytes off n ∧ (r = [] → window bytes off n = []) ∧
       (short = false → r = window bytes off n)) (λ _ s', rep s' bytes).
Proof.
  intros Hs Ho Hn. pose proof (do_length _ _ HD _ _ Hs) as Hlen. unfold block_file_read. apply geometry_run.
  destruct (decide (capacity <= off)) as [Hc|Hc].
  - wp_run. rewrite window_past by lia. done.
  - set (remaining := n `min` (capacity - off)).
    eapply wp_res_mono; [eapply block_read_rule; [done|apply start_at_block; lia|lia|lia]|cbv beta|done].
    intros r s' (Hs' & k & Hk & Hz & Hf & ->). cbn [app]. rewrite (window_min bytes off n), Hlen by lia. fold remaining.
    split; [done|]. split; [apply window_prefix; lia|]. split; [|intros Hsh; by rewrite (Hf Hsh)]. intros Hnil. pose proof (length_window bytes off k ltac:(lia) ltac:(lia) ltac:(lia)) as Hl.
    rewrite Hnil in Hl. simpl in Hl. rewrite Hz by lia. done.
Qed.

Definition round_up (n : Z) : Z := (n + bs D - 1) / bs D.

Lemma round_up_le n : n <= round_up n * bs D.
Proof.
  pose proof (do_size _ _ HD). unfold round_up. pose proof (Z.div_mod (n + bs D - 1) (bs D) ltac:(lia)).
  pose proof (Z.mod_pos_bound (n + bs D - 1) (bs D) ltac:(lia)). lia.
Qed.

(** How much of a buffer of [n] bytes fits from [off]. *)
Definition fits (off n : Z) : Z := 0 `max` (n `min` (capacity - off)).

Lemma file_write_rule s bytes off buffer :
  rep s bytes → 0 <= off →
  let n := fits off (Z.of_nat (length buffer)) in
  wp_res (block_file_write D off buffer) s
    (λ r s', 0 <= r <= n ∧ (r = 0 → n = 0) ∧ (short = false → r = n) ∧
       rep s' (splice (Z.to_nat off) (take (Z.to_nat r) buffer) bytes))
    (λ _ s', left_alone (off / bs D * bs D) (round_up (off + n) * bs D) bytes s').
Proof.
  intros Hs Ho n. pose proof (do_length _ _ HD _ _ Hs) as Hlen. unfold block_file_write. apply geometry_run. unfold n, fits.
  destruct (decide (capacity <= off)) as [Hc|Hc].
  { wp_run. split_and!; [lia..|]. by rewrite splice_nil. }
  set (remaining := Z.of_nat (length buffer) `min` (capacity - off)). rewrite Z.max_r by lia.
  wp_step. eapply wp_res_mono; [eapply block_write_rule; [done|apply start_at_block; lia|lia|lia|lia|lia|apply round_up_le|reflexivity]|cbv beta|done].
  intros r s1 (k & Hk & Hz & Hf & -> & Hs1). rewrite Z.add_0_l. unfold window in Hs1. rewrite drop_0 in Hs1.
  pose proof (length_take buffer (Z.to_nat k)) as Hlt. pose proof (round_up_le (off + remaining)) as Hru.
  pose proof (Z.div_mod off (bs D) ltac:(pose proof (do_size _ _ HD); lia)) as Hdm. pose proof (Z.mod_pos_bound off (bs D) (do_size _ _ HD)).
  wp_step. eapply wp_res_mono with (Q := λ _ s', rep s' (splice (Z.to_nat off) (take (Z.to_nat k) buffer) bytes)) (Qe := λ _ s', rep s' (splice (Z.to_nat off) (take (Z.to_nat k) buffer) bytes)).
  - case_decide; [by apply (do_flush _ _ HD)|by wp_run].
  - cbv beta. intros _ s2 Hs2. wp_run. split_and!; [lia|lia|lia|exact Hf|done].
  - cbv beta. intros _ s2 Hs2. eexists. split; [exact Hs2|]. apply same_outside_splice; lia.
Qed.
End file.

(** ** Partitions *)

(** The blocks before and after a partition are not part of it: whatever is
    done through the partition keeps them. *)
Definition part_rep {S} (rep : S → list Z → Prop) (before after : list Z) (s : S) (bytes : list Z) (n : Z) : Prop :=
  rep s (before ++ bytes ++ after) ∧ Z.of_nat (length bytes) = n.

Section partition.
Context {S : Type} {short : bool} (D : BlockDevice S) (rep : S → list Z → Prop) (HD : device_ok short D rep).
Context (entry : PartitionEntry) (before after : list Z).
Context (Hfirst : 0 <= first_lba entry) (Hcount : 0 <= pe_block_count entry).
Context (Hend : first_lba entry + pe_block_count entry <= block_count (bd_geometry D)).
Context (Hbefore : Z.of_nat (length before) = first_lba entry * bs D).

Let P := PartitionBlockDevice D entry.
Let prep s bytes := part_rep rep before after s bytes (bs D * pe_block_count entry).

Lemma partition_block block : 0 <= block → block <= pe_block_count entry → saturating_add u64_max (first_lba entry) block = first_lba entry + block.
Proof.
  intros Hb Hc. unfold saturating_add. pose proof (do_size _ _ HD). pose proof (do_capacity _ _ HD). nia.
Qed.

Lemma window_inside bytes off n :
  0 <= off → 0 <= n → off + n <= Z.of_nat (length bytes) → window (before ++ bytes ++ after) (Z.of_nat (length before) + off) n = window bytes off n.
Proof.
  intros Ho Hn Hl. unfold window. rewrite Z2Nat.inj_add, Nat2Z.id, drop_app_add by lia. rewrite drop_app_le by lia.
  rewrite take_app_le; [done|]. rewrite length_drop. lia.
Qed.

Lemma splice_inside bytes off d :
  0 <= off → off + Z.of_nat (length d) <= Z.of_nat (length bytes) →
  splice (Z.to_nat (Z.of_nat (length before) + off)) d (before ++ bytes ++ after) = before ++ splice (Z.to_nat off) d bytes ++ after.
Proof.
  intros Ho Hl. rewrite Z2Nat.inj_add, Nat2Z.id by lia. rewrite splice_app_r. f_equal. apply splice_app_l. lia.
Qed.

Lemma partition_ok : device_ok short P prep.
Proof.
  pose proof (do_size _ _ HD) as Hs. pose proof (do_capacity _ _ HD) as Hcap.
  constructor; change (bs P) with (bs D); cbn [P PartitionBlockDevice bd_geometry block_count bd_read bd_write bd_flush].
  - done.
  - done.
  - nia.
  - by intros s bytes [_ Hl].
  - intros s bytes block n [Hr Hl] Hb Hn Hc. rewrite partition_block by lia.
    eapply wp_res_mono; [eapply (do_read _ _ HD); [done|lia|done|lia]|cbv beta|done].
    intros r s' (Hr' & k & Hk & Hf & ->). split; [done|]. exists k. split; [done|]. split; [done|].
    rewrite Z.mul_add_distr_r, <-Hbefore. apply window_inside; nia.
  - intros s bytes block n [Hr Hl]. eapply wp_res_mono; [by eapply (do_read_any _ _ HD)|done|done].
  - intros s bytes block n buffer [Hr Hl] Hb Hn Hc Hbuf. rewrite partition_block by lia.
    eapply wp_res_mono; [eapply (do_write _ _ HD); [done|lia|done|lia|done]|cbv beta|cbv beta].
    + intros w s' (k & Hk & Hf & -> & Hr'). exists k. split; [done|]. split; [done|]. split; [done|].
      rewrite Z.mul_add_distr_r, <-Hbefore in Hr'. pose proof (length_take buffer (Z.to_nat (k * bs D))).
      rewrite splice_inside in Hr' by nia. split; [done|]. rewrite length_splice; nia.
    + intros _ s' (junk & Hj & Hr'). exists junk. split; [done|].
      rewrite Z.mul_add_distr_r, <-Hbefore in Hr'. rewrite splice_inside in Hr' by nia. split; [done|]. rewrite length_splice; nia.
  - intros s bytes [Hr Hl]. by eapply wp_res_mono; [by eapply (do_flush _ _ HD)|..].
Qed.
End partition.

(** ** NVMe name spaces *)

(** What the driver crate promises for one command of at most [max] bytes: it
    moves exactly the blocks that it is given, or fails and has at most written
    to them. *)
Record queue_ok {S} (geometry : BlockGeometry) (max : Z)
    (qread : Z → Z → M S FsError (list Z)) (qwrite : list Z → Z → M S FsError unit) (rep : S → list Z → Prop) : Prop := {
  qo_length s bytes : rep s bytes → Z.of_nat (length bytes) = block_size geometry * block_count geometry;
  qo_read s bytes n lba :
    rep s bytes → wp_res (qread n lba) s (λ r s', rep s' bytes ∧ Z.of_nat (length r) = n) (λ _ s', rep s' bytes);
  qo_data s bytes n lba :
    rep s bytes → 0 <= lba → 0 < n * block_size geometry <= max → lba + n <= block_count geometry →
    wp_res (qread (n * block_size geometry) lba) s
      (λ r _, r = window bytes (lba * block_size geometry) (n * block_size geometry)) (λ _ _, True);
  qo_write s bytes n lba data :
    rep s bytes → 0 <= lba → 0 < n * block_size geometry <= max → lba + n <= block_count geometry →
    Z.of_nat (length data) = n * block_size geometry →
    wp_res (qwrite data lba) s
      (λ _ s', rep s' (splice (Z.to_nat (lba * block_size geometry)) data bytes))
      (λ _ s', ∃ junk, length junk = length data ∧ rep s' (splice (Z.to_nat (lba * block_size geometry)) junk bytes));
}.

Section nvme.
Context {S : Type} (qread : Z → Z → M S FsError (list Z)) (qwrite : list Z → Z → M S FsError unit).
Context (geometry : BlockGeometry) (transfer_len max_transfer_size : Z) (rep : S → list Z → Prop).
Context (Hq : queue_ok geometry (aligned_transfer_bytes transfer_len (block_size geometry)) qread qwrite rep).
Context (Hsize : 0 < block_size geometry) (Hcount : 0 <= block_count geometry).
Context (Hcap : block_size geometry * block_count geometry <= u64_max).

Let max_bytes := aligned_transfer_bytes transfer_len (block_size geometry).

Lemma max_blocks : ∃ k, 0 < k ∧ max_bytes = k * block_size geometry.
Proof.
  unfold max_bytes, aligned_transfer_bytes. set (b := block_size geometry) in *. set (l := transfer_len `max` b).
  pose proof (Z.div_mod l b ltac:(lia)). pose proof (Z.mod_pos_bound l b ltac:(lia)). exists (l / b).
  assert (1 <= l / b) by (apply Z.div_le_lower_bound; lia). split; [lia|]. nia.
Qed.

Lemma nvme_read_any fuel : ∀ len completed lba s bytes,
  rep s bytes → len - Z.of_nat (length completed) <= Z.of_nat fuel →
  wp_res (nvme_read_loop qread geometry fuel max_bytes len completed lba) s (λ _ s', rep s' bytes) (λ _ s', rep s' bytes).
Proof.
  destruct max_blocks as (mk & Hmk & Hmb).
  induction fuel as [|fuel IH]; intros len completed lba s bytes Hs Hf; cbn [nvme_read_loop]; [rewrite decide_False by lia; by wp_run|].
  case_decide; [|by wp_run]. wp_step. eapply wp_res_mono; [by eapply (qo_read _ _ _ _ _ Hq)|cbv beta|done].
  intros data s1 (Hs1 & Hl). apply IH; [done|]. rewrite length_app. nia.
Qed.

Lemma nvme_read_rule fuel : ∀ n completed lba pos s bytes,
  rep s bytes → 0 <= lba → 0 <= n → lba + n <= block_count geometry → n <= Z.of_nat fuel → pos = lba * block_size geometry →
  wp_res (nvme_read_loop qread geometry fuel max_bytes (Z.of_nat (length completed) + n * block_size geometry) completed lba) s
    (λ r s', rep s' bytes ∧ r = completed ++ window bytes pos (n * block_size geometry)) (λ _ s', rep s' bytes).
Proof.
  destruct max_blocks as (mk & Hmk & Hmb).
  induction fuel as [|fuel IH]; intros n completed lba pos s bytes Hs Hlba Hn Hc Hf ->; cbn [nvme_read_loop].
  { assert (n = 0) as -> by lia. rewrite decide_False by lia. wp_run. by rewrite app_nil_r. }
  replace (Z.of_nat (length completed) + n * block_size geometry - Z.of_nat (length completed)) with (n * block_size geometry) by lia.
  destruct (decide (0 < n * block_size geometry)) as [Hp|Hp].
  2:{ assert (n = 0) as -> by nia. wp_run. by rewrite app_nil_r. }
  set (k := n `min` mk). assert (0 < n) as Hn0 by nia. assert ((n * block_size geometry) `min` max_bytes = k * block_size geometry) as Hk by (rewrite Hmb; unfold k; apply Z.mul_min_distr_nonneg_r; lia). rewrite Hk.
  assert (0 < k <= n) as Hkn by lia. assert (0 < k * block_size geometry <= max_bytes) as Hkm by (rewrite Hmb; assert (k <= mk) by lia; nia).
  wp_step. pose proof (qo_length _ _ _ _ _ Hq _ _ Hs) as Hlen.
  eapply wp_res_mono; [eapply wp_res_and; [by eapply (qo_read _ _ _ _ _ Hq)|eapply (qo_data _ _ _ _ _ Hq); [done|done|exact Hkm|lia]]|cbv beta|by intros _ s1 [? _]].
  intros data s1 ((Hs1 & Hl) & ->). rewrite Z.div_mul by lia.
  assert (saturating_add u64_max lba k = lba + k) as -> by (unfold saturating_add; nia).
  replace (Z.of_nat (length completed) + n * block_size geometry)
    with (Z.of_nat (length (completed ++ window bytes (lba * block_size geometry) (k * block_size geometry))) + (n - k) * block_size geometry)
    by (rewrite length_app; lia).
  eapply wp_res_mono; [eapply (IH (n - k)); [done|lia|lia|lia|lia|reflexivity]|cbv beta|done].
  intros r s2 (Hs2 & ->). split; [done|]. rewrite <-app_assoc. f_equal.
  replace ((lba + k) * block_size geometry) with (lba * block_size geometry + k * block_size geometry) by lia. rewrite window_app by nia. f_equal. lia.
Qed.

Lemma nvme_write_rule fuel : ∀ n buffer completed lba s bytes,
  rep s bytes → 0 <= lba → 0 <= n → lba + n <= block_count geometry → n <= Z.of_nat fuel → 0 <= completed →
  Z.of_nat (length buffer) = completed + n * block_size geometry →
  wp_res (nvme_write_loop qwrite geometry fuel max_bytes buffer completed lba) s
    (λ r s', r = Z.of_nat (length buffer) ∧ rep s' (splice (Z.to_nat (lba * block_size geometry)) (drop (Z.to_nat completed) buffer) bytes))
    (λ _ s', ∃ junk, Z.of_nat (length junk) = n * block_size geometry ∧ rep s' (splice (Z.to_nat (lba * block_size geometry)) junk bytes)).
Proof.
  destruct max_blocks as (mk & Hmk & Hmb).
  induction fuel as [|fuel IH]; intros n buffer completed lba s bytes Hs Hlba Hn Hc Hf Hcomp Hbuf; cbn [nvme_write_loop].
  { assert (n = 0) as -> by lia. rewrite decide_False by lia. wp_run. split; [lia|]. rewrite drop_ge by lia. by rewrite splice_nil. }
  replace (Z.of_nat (length buffer) - completed) with (n * block_size geometry) by lia.
  destruct (decide (0 < n * block_size geometry)) as [Hp|Hp].
  2:{ assert (n = 0) as -> by nia. wp_run. split; [lia|]. rewrite drop_ge by lia. by rewrite splice_nil. }
  set (k := n `min` mk). assert (0 < n) as Hn0 by nia. assert ((n * block_size geometry) `min` max_bytes = k * block_size geometry) as Hk by (rewrite Hmb; unfold k; apply Z.mul_min_distr_nonneg_r; lia). rewrite Hk.
  assert (0 < k <= n) as Hkn by lia. assert (0 < k * block_size geometry <= max_bytes) as Hkm by (rewrite Hmb; assert (k <= mk) by lia; nia).
  fold (window buffer completed (k * block_size geometry)). pose proof (qo_length _ _ _ _ _ Hq _ _ Hs) as Hlen.
  assert (Z.of_nat (length (window buffer completed (k * block_size geometry))) = k * block_size geometry) as Hwl by (apply length_window; nia).
  wp_step. eapply wp_res_mono; [eapply (qo_write _ _ _ _ _ Hq); [done|done|exact Hkm|lia|exact Hwl]|cbv beta|cbv beta].
  - intros _ s1 Hs1. rewrite Z.div_mul by lia. assert (saturating_add u64_max lba k = lba + k) as -> by (unfold saturating_add; nia).
    assert (Z.to_nat ((lba + k) * block_size geometry) = (Z.to_nat (lba * block_size geometry) + length (window buffer completed (k * block_size geometry)))%nat) as Hpos by nia.
    eapply wp_res_mono; [eapply (IH (n - k)); [exact Hs1|lia|lia|lia|lia|nia|lia]|cbv beta|cbv beta]; rewrite Hpos.
    + intros r s2 (-> & Hs2). split; [done|]. rewrite splice_splice in Hs2 by (rewrite length_drop; nia).
      replace (drop (Z.to_nat completed) buffer) with (window buffer completed (k * block_size geometry) ++ drop (Z.to_nat (completed + k * block_size geometry)) buffer); [done|].
      unfold window. rewrite Z2Nat.inj_add, <-drop_drop by nia. apply take_drop.
    + intros _ s2 (junk & Hj & Hs2). rewrite splice_splice in Hs2 by nia. eexists. split; [|exact Hs2]. rewrite length_app. lia.
  - intros _ s1 (junk & Hj & Hs1). exists (junk ++ drop (length junk) (window bytes (lba * block_size geometry) (n * block_size geometry))).
    assert (Z.of_nat (length (window bytes (lba * block_size geometry) (n * block_size geometry))) = n * block_size geometry) as Hwn by (apply length_window; nia).
    rewrite length_app, length_drop. split; [nia|].
    pose proof (splice_block (lba * block_size geometry) 0 (n * block_size geometry) junk bytes ltac:(nia) ltac:(lia) ltac:(nia) ltac:(nia)) as Hsb.
    rewrite Z.add_0_r in Hsb. rewrite <-Hsb in Hs1. exact Hs1.
Qed.

Lemma nvme_ok : device_ok false (NvmeNamespaceDevice qread qwrite geometry transfer_len max_transfer_size) rep.
Proof.
  destruct max_blocks as (mk & Hmk & Hmb).
  assert (∀ n, 0 < n → ¬ (block_size geometry = 0 ∨ n * block_size geometry = 0 ∨ (n * block_size geometry) mod block_size geometry ≠ 0)) as Hvalid.
  { intros n Hn. rewrite Z.mod_mul by lia. nia. }
  constructor; unfold bs; cbn [NvmeNamespaceDevice bd_geometry bd_read bd_write bd_flush]; try done.
  - apply (qo_length _ _ _ _ _ Hq).
  - intros s bytes block n Hs Hb Hn Hc. unfold read_blocks_sync. rewrite decide_False by auto. fold max_bytes. rewrite decide_False by nia.
    replace (n * block_size geometry) with (Z.of_nat (length ([] : list Z)) + n * block_size geometry) at 2 by (simpl; lia).
    eapply wp_res_mono; [eapply nvme_read_rule; [done|done|lia|done|nia|reflexivity]|cbv beta|done].
    intros r s' (Hs' & ->). split; [done|]. exists n. split; [lia|done].
  - intros s bytes block n Hs. unfold read_blocks_sync. case_decide; [by wp_run|]. fold max_bytes. rewrite decide_False by nia.
    apply nvme_read_any; [done|]. simpl. lia.
  - intros s bytes block n buffer Hs Hb Hn Hc Hbuf. unfold write_blocks_sync. rewrite Hbuf, decide_False by auto. fold max_bytes. rewrite decide_False by nia.
    eapply wp_res_mono; [eapply (nvme_write_rule _ n); [done|done|lia|done|nia|lia|lia]|cbv beta|cbv beta].
    + intros w s' (-> & Hs'). exists n. split; [lia|]. split; [done|]. split; [done|]. rewrite take_ge by lia. exact Hs'.
    + intros _ s' (junk & Hj & Hs'). exists junk. split; [lia|done].
Qed.
End nvme.

(** ** A device in memory *)

Definition ram_device (g : BlockGeometry) : BlockDevice (list Z) :=
  mkDevice g (block_size g)
    (λ block n s, if decide (0 <= block ∧ 0 <= n ∧ block * block_size g + n <= Z.of_nat (length s))
                  then (Ok (window s (block * block_size g) n), s) else (Err InvalidInput, s))
    (λ block buffer s, if decide (0 <= block ∧ block * block_size g + Z.of_nat (length buffer) <= Z.of_nat (length s))
                       then (Ok (Z.of_nat (length buffer)), splice (Z.to_nat (block * block_size g)) buffer s) else (Err InvalidInput, s))
    (mret ()).

Definition ram_rep (g : BlockGeometry) (s bytes : list Z) : Prop :=
  s = bytes ∧ Z.of_nat (length bytes) = block_size g * block_count g.

Lemma ram_ok g :
  0 < block_size g → 0 <= block_count g → block_size g * block_count g <= u64_max → device_ok false (ram_device g) (ram_rep g).
Proof.
  intros Hs Hc Hcap. constructor; unfold bs; cbn [ram_device bd_geometry bd_read bd_write bd_flush]; try done.
  - by intros s bytes [_ ?].
  - intros s bytes block n [-> Hl] Hb Hn Hin. unfold wp_res, wp. rewrite decide_True by nia. split; [done|]. by exists n.
  - intros s bytes block n [-> Hl]. unfold wp_res, wp. by case_decide.
  - intros s bytes block n buffer [-> Hl] Hb Hn Hin Hbuf. unfold wp_res, wp. rewrite decide_True by nia. cbn [fst snd].
    exists n. split; [lia|]. split; [done|]. split; [done|]. rewrite take_ge by lia. split; [done|]. rewrite length_splice; nia.
Qed.

(** ** Claims *)

(** C23. A file over a block device is an array of bytes.  The device moves
    whole blocks and either all that it is asked for ([short = false], as NVMe
    name spaces do) or at least one.  A read changes nothing and returns exactly
    the bytes from the offset up to the size of the buffer or the end of the
    device; a write replaces exactly the bytes from the offset that fit on the
    device, reports their number, and changes no other byte.  Over a device
    that stops short the bytes returned are a prefix of these, and the bytes
    replaced as many as are reported, at least one unless there is none to
    move.  When the device fails, a read has changed nothing and a write at
    most the blocks it touches.  Loops end, and nothing panics.  Devices that
    write a part of a block and report success are excluded: the read, modify
    and write of a partial block ignores the count that the device reports. *)
Theorem block_file_correct {S} (short : bool) (D : BlockDevice S) rep s bytes off :
  device_ok short D rep → rep s bytes → 0 <= off →
  (∀ n, 0 <= n →
     wp_res (block_file_read D off n) s
       (λ r s', rep s' bytes ∧
          (short = false → r = window bytes off n) ∧
          r `prefix_of` window bytes off n ∧ (r = [] → window bytes off n = []))
       (λ _ s', rep s' bytes)) ∧
  (∀ buffer,
     let n := fits D off (Z.of_nat (length buffer)) in
     wp_res (block_file_write D off buffer) s
       (λ r s', rep s' (splice (Z.to_nat off) (take (Z.to_nat r) buffer) bytes) ∧
          (short = false → r = n) ∧ 0 <= r <= n ∧ (r = 0 → n = 0))
       (λ _ s', ∃ bytes', rep s' bytes' ∧ same_outside (off / bs D * bs D) (round_up D (off + n) * bs D) bytes bytes')).
Proof.
  intros HD Hs Ho. split.
  - intros n Hn. eapply wp_res_mono; [by apply (file_read_rule D rep HD)|cbv beta; tauto|done].
  - intros buffer. eapply wp_res_mono; [by apply (file_write_rule D rep HD)|cbv beta; tauto|done].
Qed.

Lemma block_file_correct_witness :
  let D := ram_device (mkGeometry 4 3) in
  let s := [0; 1; 2; 3; 4; 5; 6; 7; 8; 9; 10; 11] in
  block_file_write D 3 [90; 91; 92; 93; 94; 95] s = (Ok 6, [0; 1; 2; 90; 91; 92; 93; 94; 95; 9; 10; 11]) ∧
  (block_file_read D 3 6 s).1 = Ok [3; 4; 5; 6; 7; 8].
Proof.
  intros D s. split; [vm_compute; reflexivity|].
  destruct (block_file_correct false D (ram_rep (mkGeometry 4 3)) s s 3) as [H _]; [apply ram_ok; vm_compute; congruence|done|lia|].
  specialize (H 6 ltac:(lia)). unfold wp_res, wp in H.
  assert (∀ e s', block_file_read D 3 6 s ≠ (Err e, s')) as He by (intros e s'; vm_compute; congruence).
  destruct (block_file_read D 3 6 s) as [[r|e| |] s']; [|by destruct (He e s')|done..].
  destruct H as (_ & H & _). cbn [fst]. rewrite (H eq_refl). vm_compute. reflexivity.
Defined.

(** Partitions are isolated: through the file over a partition a process
    reads the bytes of the partition only, and whatever it writes, successfully
    or not, the bytes before and after the partition stay what they were. *)
Theorem partition_isolated {S} (short : bool) (D : BlockDevice S) rep entry s before bytes after off :
  device_ok short D rep → 0 <= first_lba entry → 0 <= pe_block_count entry →
  first_lba entry + pe_block_count entry <= block_count (bd_geometry D) →
  Z.of_nat (length before) = first_lba entry * bs D → Z.of_nat (length bytes) = bs D * pe_block_count entry →
  rep s (before ++ bytes ++ after) → 0 <= off →
  (∀ n, 0 <= n →
     wp_res (block_file_read (PartitionBlockDevice D entry) off n) s
       (λ r s', rep s' (before ++ bytes ++ after) ∧ r `prefix_of` window bytes off n) (λ _ s', rep s' (before ++ bytes ++ after))) ∧
  (∀ buffer,
     wp_res (block_file_write (PartitionBlockDevice D entry) off buffer) s
       (λ r s', rep s' (before ++ splice (Z.to_nat off) (take (Z.to_nat r) buffer) bytes ++ after))
       (λ _ s', ∃ bytes', length bytes' = length bytes ∧ rep s' (before ++ bytes' ++ after))).
Proof.
  intros HD Hf Hc Hend Hb Hl Hs Ho. pose proof (partition_ok D rep HD entry before after Hf Hc Hend Hb) as HP. split.
  - intros n Hn. eapply wp_res_mono; [by eapply (file_read_rule _ _ HP)|cbv beta|cbv beta].
    + by intros r s' ([Hs' _] & Hp & _).
    + by intros _ s' [Hs' _].
  - intros buffer. eapply wp_res_mono; [by eapply (file_write_rule _ _ HP)|cbv beta|cbv beta].
    + by intros r s' (_ & _ & _ & [Hs' _]).
    + intros _ s' (bytes' & [Hs' Hl'] & _). exists bytes'. split; [lia|done].
Qed.

Lemma partition_isolated_witness :
  let D := ram_device (mkGeometry 2 4) in
  let entry := mkEntry 1 1 2 in
  (block_file_write (PartitionBlockDevice D entry) 1 [7; 8; 9; 10; 11] [0; 1; 2; 3; 4; 5; 6; 7]).1 = Ok 3 ∧
  wp_res (block_file_write (PartitionBlockDevice D entry) 1 [7; 8; 9; 10; 11]) [0; 1; 2; 3; 4; 5; 6; 7]
    (λ r s', ram_rep (mkGeometry 2 4) s' ([0; 1] ++ splice 1 (take (Z.to_nat r) [7; 8; 9; 10; 11]) [2; 3; 4; 5] ++ [6; 7]))
    (λ _ s', ∃ bytes', length bytes' = 4%nat ∧ ram_rep (mkGeometry 2 4) s' ([0; 1] ++ bytes' ++ [6; 7])).
Proof.
  intros D entry. split; [vm_compute; reflexivity|].
  destruct (partition_isolated false D (ram_rep (mkGeometry 2 4)) entry [0; 1; 2; 3; 4; 5; 6; 7] [0; 1] [2; 3; 4; 5] [6; 7] 1) as [_ H];
    [apply ram_ok; vm_compute; congruence|vm_compute; congruence..|reflexivity|reflexivity|split; reflexivity|lia|].
  apply (H [7; 8; 9; 10; 11]).
Defined.
