(* ===== verification/PartitionProof.v ===== *)
(** * Partition tables

    Models the parsers of [aether-kernel/libs/aether-drivers/src/block/partition.rs]:
    GUID partition tables, read in chunks of at most 64 KiB, and master boot
    records with chains of extended partitions.  A chain is followed as long as
    the sectors name a successor; the fuel of [parse_extended_partitions] is
    the number of sectors that may be read. *)

From S2P Require Import Prelude Poll MemFile MemFileProof Block BlockProof.

Definition MBR_SIGNATURE_OFFSET : nat := 510.
Definition MBR_PARTITION_TABLE_OFFSET : nat := 446.
Definition MBR_PARTITION_ENTRY_SIZE : nat := 16.
Definition GPT_HEADER_LBA : Z := 1.
Definition GPT_SIGNATURE : list Z := [0x45; 0x46; 0x49; 0x20; 0x50; 0x41; 0x52; 0x54].
Definition GPT_ENTRY_SIZE_MIN : Z := 128.
Definition GPT_ENTRY_SIZE_MAX : Z := 4096.
Definition GPT_ENTRY_COUNT_MAX : Z := 1024.
Definition GPT_TABLE_READ_CHUNK_BYTES : Z := 64 * 1024.
Definition EXTENDED_PARTITION_TYPES : list Z := [0x05; 0x0f; 0x85].

(** [bytes.get(offset..offset + n)] *)
Definition get_range (bytes : list Z) (offset n : nat) : option (list Z) :=
  if decide (offset + n <= length bytes)%nat then Some (take n (drop offset bytes)) else None.

Definition read_u32 {E} (e : E) (bytes : list Z) (offset : nat) : outcome E Z :=
  raw ← ok_or (get_range bytes offset 4) e; mret (le_val raw).
Definition read_u64 {E} (e : E) (bytes : list Z) (offset : nat) : outcome E Z :=
  raw ← ok_or (get_range bytes offset 8) e; mret (le_val raw).

Record MbrPartitionEntry := mkMbr {
  partition_type : Z;
  mbr_first_lba : Z;
  mbr_block_count : Z;
}.

Definition parse_mbr_entry (bytes : list Z) : outcome unit MbrPartitionEntry :=
  ty ← ok_or (bytes !! 4%nat) ();
  first ← read_u32 () bytes 8;
  count ← read_u32 () bytes 12;
  mret (mkMbr ty first count).

Definition partition_minor (parent_minor index : Z) : Z :=
  saturating_add u32_max (Z.shiftl parent_minor 4) index `min` 0xffff.

Definition whole_device_partition (g : BlockGeometry) : PartitionEntry := mkEntry 1 0 (block_count g).

(** The entry [index] of a table with entries of [entry_size] bytes, in a chunk
    that starts at entry [base]. *)
Definition gpt_entry (base chunk_index : nat) (entry : list Z) : outcome unit (option PartitionEntry) :=
  if decide (Forall (λ b, b = 0) (take 16 entry)) then mret None
  else
    first ← read_u64 () entry 32;
    last ← read_u64 () entry 40;
    mret (if decide (first = 0 ∨ last < first) then None
          else Some (mkEntry (Z.of_nat (base + chunk_index) + 1) first (saturating_add u64_max (saturating_sub last first) 1))).

Section parse.
Context {S : Type} (D : BlockDevice S).
Implicit Types (fuel : nat).

Definition MP := M S unit.

(** [block_on(..).map_err(|_| ())] *)
Definition forget_error {A} (m : M S FsError A) : MP A := λ s,
  match m s with
  | (Ok a, s') => (Ok a, s')
  | (Err _, s') => (Err (), s')
  | (Panic, s') => (Panic, s')
  | (Diverge, s') => (Diverge, s')
  end.

Definition lift_parse {A} (r : outcome unit A) : MP A := λ s, (r, s).

Definition read_lba_span (lba blocks : Z) : MP (list Z) :=
  let len := u64_max `min` (blocks * bs D) in
  buffer ← forget_error (bd_read D lba len);
  if decide (Z.of_nat (length buffer) < len) then mthrow () else mret buffer.

Definition read_lba (lba : Z) : MP (list Z) :=
  buffer ← forget_error (bd_read D lba (bs D));
  if decide (Z.of_nat (length buffer) < bs D) then mthrow () else mret buffer.

Definition read_lba_range (lba offset_bytes len : Z) : MP (list Z) :=
  if decide (len = 0) then mret []
  else
    let start_block := offset_bytes / bs D in
    let start_offset := offset_bytes mod bs D in
    total_bytes ← mok_or (checked_add u64_max start_offset len) ();
    let blocks := (total_bytes + bs D - 1) / bs D in
    buffer ← read_lba_span (saturating_add u64_max lba start_block) blocks;
    mok_or (get_range buffer (Z.to_nat start_offset) (Z.to_nat len)) ().

(** [for chunk_index in 0..chunk_entries] *)
Fixpoint gpt_chunk (chunk : list Z) (entry_size base : nat) (indices : list nat) : outcome unit (list PartitionEntry) :=
  match indices with
  | [] => mret []
  | i :: rest =>
      entry ← ok_or (get_range chunk (i * entry_size) entry_size) ();
      found ← gpt_entry base i entry;
      others ← gpt_chunk chunk entry_size base rest;
      mret (match found with Some p => p :: others | None => others end)
  end.

(** [while index < entry_count] *)
Fixpoint gpt_loop fuel (entry_lba : Z) (entry_size entry_count max_chunk index : nat) : MP (list PartitionEntry) :=
  if decide (index < entry_count)%nat then
    match fuel with
    | O => mdiverge
    | Datatypes.S fuel' =>
        let chunk_entries := ((entry_count - index) `min` max_chunk)%nat in
        chunk ← read_lba_range entry_lba (Z.of_nat (index * entry_size)) (Z.of_nat (chunk_entries * entry_size));
        found ← lift_parse (gpt_chunk chunk entry_size index (seq 0 chunk_entries));
        others ← gpt_loop fuel' entry_lba entry_size entry_count max_chunk (index + chunk_entries);
        mret (found ++ others)
    end
  else mret [].

Definition parse_gpt : MP (list PartitionEntry) :=
  header ← read_lba GPT_HEADER_LBA;
  if decide (get_range header 0 8 ≠ Some GPT_SIGNATURE) then mthrow ()
  else
    entry_lba ← lift_parse (read_u64 () header 72);
    entry_count ← lift_parse (read_u32 () header 80);
    entry_size ← lift_parse (read_u32 () header 84);
    if decide (¬ (GPT_ENTRY_SIZE_MIN <= entry_size <= GPT_ENTRY_SIZE_MAX)) then mthrow ()
    else if decide (entry_count = 0 ∨ GPT_ENTRY_COUNT_MAX < entry_count) then mthrow ()
    else
      let max_chunk := Z.to_nat ((GPT_TABLE_READ_CHUNK_BYTES / entry_size) `max` 1) in
      gpt_loop (Z.to_nat entry_count) entry_lba (Z.to_nat entry_size) (Z.to_nat entry_count) max_chunk 0.

Definition has_signature (sector : list Z) : bool :=
  bool_decide (get_range sector MBR_SIGNATURE_OFFSET 2 = Some [0x55; 0xaa]).

(** [&sector[offset..offset + 16]] panics when the sector is too short. *)
Definition mbr_slot (sector : list Z) (slot : nat) : MP MbrPartitionEntry :=
  raw ← mexpect (get_range sector (MBR_PARTITION_TABLE_OFFSET + slot * MBR_PARTITION_ENTRY_SIZE) MBR_PARTITION_ENTRY_SIZE);
  lift_parse (parse_mbr_entry raw).

Definition is_extended (e : MbrPartitionEntry) : bool := bool_decide (partition_type e ∈ EXTENDED_PARTITION_TYPES).

(** The loop over the chain, with the index of the next partition and the
    partitions found so far. *)
Fixpoint parse_extended_partitions fuel (base ebr_lba next_index : Z) (partitions : list PartitionEntry) : MP (Z * list PartitionEntry) :=
  match fuel with
  | O => mdiverge
  | Datatypes.S fuel' =>
      sector ← read_lba ebr_lba;
      if negb (has_signature sector) then mret (next_index, partitions)
      else
        logical ← mbr_slot sector 0;
        let '(next_index, partitions) :=
          if decide (mbr_block_count logical ≠ 0) then
            (saturating_add u32_max next_index 1,
             partitions ++ [mkEntry next_index (saturating_add u64_max ebr_lba (mbr_first_lba logical)) (mbr_block_count logical)])
          else (next_index, partitions) in
        next ← mbr_slot sector 1;
        if decide (mbr_block_count next = 0) then mret (next_index, partitions)
        else if negb (is_extended next) then mret (next_index, partitions)
        else parse_extended_partitions fuel' base (saturating_add u64_max base (mbr_first_lba next)) next_index partitions
  end.

(** [for slot in 0..4usize] *)
Fixpoint mbr_slots fuel (sector0 : list Z) (slots : list nat) (next_index : Z) (partitions : list PartitionEntry) : MP (list PartitionEntry) :=
  match slots with
  | [] => mret partitions
  | slot :: rest =>
      entry ← mbr_slot sector0 slot;
      if decide (mbr_block_count entry = 0) then mbr_slots fuel sector0 rest next_index partitions
      else if is_extended entry then
        '(next_index, partitions) ← parse_extended_partitions fuel (mbr_first_lba entry) (mbr_first_lba entry) next_index partitions;
        mbr_slots fuel sector0 rest next_index partitions
      else
        mbr_slots fuel sector0 rest (saturating_add u32_max next_index 1)
          (partitions ++ [mkEntry next_index (mbr_first_lba entry) (mbr_block_count entry)])
  end.

Definition parse_mbr fuel : MP (list PartitionEntry) :=
  sector0 ← read_lba 0;
  if negb (has_signature sector0) then mthrow () else mbr_slots fuel sector0 (seq 0 4) 1 [].

(** [if let Ok(entries)] and [match]: an error is a value here. *)
Definition attempt {A} (m : MP A) : MP (option A) := λ s,
  match m s with
  | (Ok a, s') => (Ok (Some a), s')
  | (Err _, s') => (Ok None, s')
  | (Panic, s') => (Panic, s')
  | (Diverge, s') => (Diverge, s')
  end.

Definition parse_partitions fuel : MP (list PartitionEntry) :=
  let geometry := bd_geometry D in
  if decide (block_size geometry < 512) then mthrow ()
  else if negb (is_valid geometry) then mthrow ()
  else
    gpt ← attempt parse_gpt;
    match gpt with
    | Some (e :: l) => mret (e :: l)
    | _ =>
        mbr ← attempt (parse_mbr fuel);
        match mbr with
        | Some (e :: l) => mret (e :: l)
        | _ => mret [whole_device_partition geometry]
        end
    end.
End parse.

(** ** Partition tables: proofs

    On a reliable device the parsers are functions of the bytes of the disk.
    [gpt_table] reads the entries of a GUID partition table directly; the
    chunked parser of the code finds the same ones.  Looking for partitions
    returns at least one, for any contents of the disk, provided that the
    chains of extended partitions end ([ebr_ends]). *)

(** A device without errors and short transfers; a command outside it fails. *)
Record reliable {S} (D : BlockDevice S) (rep : S → list Z → Prop) : Prop := {
  rl_ok : device_ok false D rep;
  rl_read s bytes block n :
    rep s bytes → 0 <= block → 0 < n → block + n <= block_count (bd_geometry D) →
    wp_res (bd_read D block (n * bs D)) s (λ r s', rep s' bytes ∧ r = window bytes (block * bs D) (n * bs D)) (λ _ _, False);
  rl_outside s bytes block n :
    rep s bytes → 0 <= block → 0 < n → block_count (bd_geometry D) < block + n →
    wp_res (bd_read D block (n * bs D)) s (λ _ _, False) (λ _ s', rep s' bytes);
}.

(** ** The table, read directly

    The layout of the UEFI specification, in terms of byte offsets and without
    any function of the parser: the header is in the second block and gives
    the first block of the table (offset 72), the number of entries (80) and
    their size (84); an entry starts with the GUID of its type, all zeros when
    unused, and holds its first block at offset 32 and its last block at
    offset 40. *)

(** The [n]-byte integer at [offset]. *)
Definition field (header : list Z) (offset n : Z) : Z := le_val (window header offset n).

Definition gpt_decode (index : nat) (entry : list Z) : option PartitionEntry :=
  let first := field entry 32 8 in
  let last := field entry 40 8 in
  if bool_decide (window entry 0 16 = replicate 16 0) then None
  else if (first =? 0) || (last <? first) then None
  else Some (mkEntry (Z.of_nat index + 1) first (last - first + 1)).

Definition gpt_valid (header : list Z) : bool :=
  bool_decide (window header 0 8 = GPT_SIGNATURE) &&
  bool_decide (128 <= field header 84 4 <= 4096) &&
  bool_decide (0 < field header 80 4 <= 1024).

(** Entry [i] of a table at byte [start] with entries of [size] bytes. *)
Definition table_entry (bytes : list Z) (start size : Z) (i : nat) : option PartitionEntry :=
  gpt_decode i (window bytes (start + Z.of_nat i * size) size).

(** The table must lie on the disk as a whole. *)
Definition gpt_table (block_size : Z) (bytes : list Z) : option (list PartitionEntry) :=
  let header := window bytes block_size block_size in
  let start := field header 72 8 * block_size in
  let count := field header 80 4 in
  let size := field header 84 4 in
  if bool_decide (2 * block_size <= Z.of_nat (length bytes)) && gpt_valid header &&
     bool_decide (start + count * size <= Z.of_nat (length bytes))
  then Some (omap (table_entry bytes start size) (seq 0 (Z.to_nat count)))
  else None.

(** ** Reading *)

Lemma wp_forget {S A} (m : M S FsError A) s (Q : A → S → Prop) (Qe : unit → S → Prop) :
  wp_res m s Q (λ _ s', Qe () s') → wp_res (forget_error m) s Q Qe.
Proof. unfold wp_res, wp, forget_error. by destruct (m s) as [[| | |] s']. Qed.

Lemma wp_lift_parse {S A} (r : outcome unit A) a (s : S) (Q : A → S → Prop) (Qe : unit → S → Prop) :
  r = Ok a → Q a s → wp_res (lift_parse r) s Q Qe.
Proof. by intros ->. Qed.

Lemma get_range_window bytes off n :
  0 <= off → 0 <= n → off + n <= Z.of_nat (length bytes) → get_range bytes (Z.to_nat off) (Z.to_nat n) = Some (window bytes off n).
Proof. intros ???. unfold get_range. by rewrite decide_True by lia. Qed.

Lemma read_u32_field bytes (off : nat) : (off + 4 <= length bytes)%nat → read_u32 () bytes off = Ok (field bytes (Z.of_nat off) 4).
Proof.
  intros H. unfold read_u32, field. replace off with (Z.to_nat (Z.of_nat off)) by lia. replace 4%nat with (Z.to_nat 4) by lia.
  by rewrite get_range_window, Nat2Z.id by lia.
Qed.
Lemma read_u64_field bytes (off : nat) : (off + 8 <= length bytes)%nat → read_u64 () bytes off = Ok (field bytes (Z.of_nat off) 8).
Proof.
  intros H. unfold read_u64, field. replace off with (Z.to_nat (Z.of_nat off)) by lia. replace 8%nat with (Z.to_nat 8) by lia.
  by rewrite get_range_window, Nat2Z.id by lia.
Qed.

(** ** Chunks *)

Lemma field_range bytes off (n : nat) : Forall is_byte bytes → 0 <= field bytes off (Z.of_nat n) < 256 ^ Z.of_nat n.
Proof.
  intros Hb. unfold field. set (w := window bytes off (Z.of_nat n)).
  assert (Forall is_byte w) as Hw by (unfold w, window; by apply Forall_take, Forall_drop).
  assert (length w <= n)%nat as Hl by (unfold w, window; rewrite length_take; lia).
  pose proof (le_val_range w Hw) as Hr. split; [lia|]. eapply Z.lt_le_trans; [apply Hr|].
  apply Z.pow_le_mono_r; lia.
Qed.

Lemma all_zero_replicate l n : length l = n → Forall (λ b, b = 0) l ↔ l = replicate n 0.
Proof.
  intros <-. split; [|intros ->; by apply Forall_replicate]. intros Hz.
  symmetry. apply replicate_as_Forall. split; [done|]. by eapply Forall_impl.
Qed.

Lemma gpt_entry_ok base i entry :
  Forall is_byte entry → (128 <= length entry)%nat → gpt_entry base i entry = Ok (gpt_decode (base + i) entry).
Proof.
  intros Hb Hl. unfold gpt_decode, gpt_entry.
  assert (window entry 0 16 = take 16 entry) as -> by done.
  pose proof (field_range entry 32 8 Hb) as H1. pose proof (field_range entry 40 8 Hb) as H2.
  pose proof (all_zero_replicate (take 16 entry) 16) as Hzero. rewrite length_take in Hzero.
  specialize (Hzero ltac:(lia)).
  case_decide as Hz; [by rewrite bool_decide_true by (by apply Hzero)|].
  rewrite bool_decide_false by (by rewrite <-Hzero). rewrite !read_u64_field by lia.
  cbn [mbind outcome_bind]. change (Z.of_nat 32) with 32. change (Z.of_nat 40) with 40.
  change (Z.of_nat 8) with 8 in *. set (first := field entry 32 8) in *. set (last := field entry 40 8) in *.
  case_decide as Hf.
  - destruct Hf as [Hf|Hf]; [rewrite (proj2 (Z.eqb_eq _ _) Hf)|rewrite (proj2 (Z.ltb_lt _ _) Hf), orb_true_r]; done.
  - rewrite (proj2 (Z.eqb_neq _ _)), (proj2 (Z.ltb_ge _ _)) by lia. cbn [orb].
    assert (saturating_add u64_max (saturating_sub last first) 1 = last - first + 1) as ->; [|done].
    unfold saturating_add, saturating_sub, u64_max. lia.
Qed.

Lemma window_slot bytes start size (n i : nat) :
  0 <= start → 128 <= size → (i < n)%nat → start + Z.of_nat n * size <= Z.of_nat (length bytes) →
  get_range (window bytes start (Z.of_nat n * size)) (i * Z.to_nat size) (Z.to_nat size) = Some (window bytes (start + Z.of_nat i * size) size).
Proof.
  intros Hs Hz Hi Hl. replace (i * Z.to_nat size)%nat with (Z.to_nat (Z.of_nat i * size)) by nia.
  rewrite get_range_window by (rewrite ?length_window; nia). f_equal. apply window_window; nia.
Qed.

Lemma gpt_chunk_ok bytes start size base (n : nat) : ∀ m j,
  Forall is_byte bytes → 0 <= start → 128 <= size → (j + m = n)%nat → start + Z.of_nat (base + n) * size <= Z.of_nat (length bytes) →
  gpt_chunk (window bytes (start + Z.of_nat base * size) (Z.of_nat n * size)) (Z.to_nat size) base (seq j m) =
    Ok (omap (table_entry bytes start size) (seq (base + j) m)).
Proof.
  induction m as [|m IH]; intros j Hb Hs Hz Hj Hl; [done|]. cbn [seq gpt_chunk].
  rewrite window_slot by nia. cbn [ok_or mbind outcome_bind].
  replace (start + Z.of_nat base * size + Z.of_nat j * size) with (start + Z.of_nat (base + j) * size) by lia.
  rewrite gpt_entry_ok; [|unfold window; by apply Forall_take, Forall_drop|pose proof (length_window bytes (start + Z.of_nat (base + j) * size) size); nia]. cbn [mbind outcome_bind].
  rewrite IH by (done || lia). cbn [mbind outcome_bind mret outcome_ret]. rewrite <-plus_n_Sm.
  fold (table_entry bytes start size (base + j)). cbn [omap list_omap]. by destruct (table_entry bytes start size (base + j)).
Qed.

(** ** Master boot records, read directly *)

Definition slot_bytes (sector : list Z) (slot : nat) : list Z := take 16 (drop (446 + slot * 16) sector).
Definition slot_entry (sector : list Z) (slot : nat) : MbrPartitionEntry :=
  match parse_mbr_entry (slot_bytes sector slot) with Ok e => e | _ => mkMbr 0 0 0 end.

Lemma parse_slot sector slot :
  (512 <= length sector)%nat → (slot < 4)%nat → parse_mbr_entry (slot_bytes sector slot) = Ok (slot_entry sector slot).
Proof.
  intros Hl Hs. unfold slot_entry. assert (length (slot_bytes sector slot) = 16%nat) as Hb by (unfold slot_bytes; rewrite length_take, length_drop; lia).
  unfold parse_mbr_entry. destruct (lookup_lt_is_Some_2 (slot_bytes sector slot) 4 ltac:(lia)) as [ty ->]. cbn [ok_or mbind outcome_bind].
  by rewrite !read_u32_field by lia.
Qed.

Lemma slot_first_nonneg sector slot : Forall is_byte sector → (512 <= length sector)%nat → (slot < 4)%nat → 0 <= mbr_first_lba (slot_entry sector slot).
Proof.
  intros Hb Hl Hs. pose proof (parse_slot sector slot Hl Hs) as He. revert He. unfold parse_mbr_entry.
  assert (length (slot_bytes sector slot) = 16%nat) as Hb' by (unfold slot_bytes; rewrite length_take, length_drop; lia).
  destruct (lookup_lt_is_Some_2 (slot_bytes sector slot) 4 ltac:(lia)) as [ty ->]. cbn [ok_or mbind outcome_bind].
  rewrite !read_u32_field by lia. cbn [mbind outcome_bind mret outcome_ret]. intros [= <-]. cbn [mbr_first_lba].
  unfold field, le_val. apply le_val_range. unfold window, slot_bytes. by do 2 apply Forall_take, Forall_drop.
Qed.

(** The chain of extended partitions ends within [fuel] sectors. *)
Fixpoint ebr_ends (fuel : nat) (block_size count : Z) (bytes : list Z) (base lba : Z) : bool :=
  match fuel with
  | O => false
  | S fuel' =>
      let sector := window bytes (lba * block_size) block_size in
      let next := slot_entry sector 1 in
      (count <=? lba) || negb (has_signature sector) || (mbr_block_count next =? 0) || negb (is_extended next) ||
      ebr_ends fuel' block_size count bytes base (saturating_add u64_max base (mbr_first_lba next))
  end.

Definition chains_end (fuel : nat) (block_size count : Z) (bytes : list Z) : bool :=
  forallb (λ slot, let e := slot_entry (window bytes 0 block_size) slot in
                   negb (is_extended e) || ebr_ends fuel block_size count bytes (mbr_first_lba e) (mbr_first_lba e)) (seq 0 4).

Section parse.
Context {S : Type} (D : BlockDevice S) (rep : S → list Z → Prop) (HR : reliable D rep).

Abbreviation capacity := (bs D * block_count (bd_geometry D)).

Lemma read_lba_rule s bytes lba (Q : list Z → S → Prop) (Qe : unit → S → Prop) :
  rep s bytes → 0 <= lba →
  (∀ s', rep s' bytes → lba < block_count (bd_geometry D) → Q (window bytes (lba * bs D) (bs D)) s') →
  (∀ s', rep s' bytes → block_count (bd_geometry D) <= lba → Qe () s') →
  wp_res (read_lba D lba) s Q Qe.
Proof.
  intros Hs Hl HQ HQe. pose proof (rl_ok _ _ HR) as HD. pose proof (do_size _ _ HD). pose proof (do_length _ _ HD _ _ Hs) as Hlen.
  unfold read_lba. wp_step. apply wp_forget. replace (bs D) with (1 * bs D) at 1 by lia.
  destruct (decide (lba < block_count (bd_geometry D))) as [Hin|Hout].
  - eapply wp_res_mono; [eapply (rl_read _ _ HR); [done|done|lia|lia]|cbv beta|done].
    intros r s' (Hs' & ->). rewrite Z.mul_1_l. rewrite length_window by nia. rewrite decide_False by lia. wp_run. auto.
  - eapply wp_res_mono; [eapply (rl_outside _ _ HR); [done|done|lia|lia]|done|cbv beta]. intros _ s' Hs'. apply HQe; [done|lia].
Qed.

(** A range is read when all of it is on the device, and refused otherwise. *)
Lemma read_lba_range_rule s bytes lba off len :
  rep s bytes → 0 <= lba → 0 <= off → 0 < len <= 1024 * 4096 → bs D <= u32_max →
  wp_res (read_lba_range D lba off len) s
    (λ r s', rep s' bytes ∧ lba * bs D + off + len <= capacity ∧ r = window bytes (lba * bs D + off) len)
    (λ _ s', rep s' bytes ∧ capacity < lba * bs D + off + len).
Proof.
  intros Hs Hl Ho Hn Hbs. pose proof (rl_ok _ _ HR) as HD. pose proof (do_size _ _ HD) as Hb. pose proof (do_length _ _ HD _ _ Hs) as Hlen.
  pose proof (do_capacity _ _ HD) as Hcap. unfold read_lba_range. rewrite decide_False by lia.
  pose proof (Z.div_mod off (bs D) ltac:(lia)) as Hdm. pose proof (Z.mod_pos_bound off (bs D) ltac:(lia)) as Hmb.
  set (q := off / bs D) in *. set (r := off mod bs D) in *. assert (0 <= q) by (apply Z.div_pos; lia).
  rewrite checked_add_Some by (unfold u64_max, u32_max in *; lia). wp_step. set (t := r + len + bs D - 1).
  pose proof (Z.div_mod t (bs D) ltac:(lia)) as Hdt. pose proof (Z.mod_pos_bound t (bs D) ltac:(lia)) as Hmt. set (b := t / bs D) in *.
  assert (1 <= b) by (apply Z.div_le_lower_bound; lia).
  wp_step. change ((r + len + bs D - 1) / bs D) with b. unfold read_lba_span.
  assert (b * bs D <= u64_max) by (unfold u64_max, u32_max in *; lia). wp_step. rewrite Z.min_r by done.
  wp_step. apply wp_forget. destruct (decide (lba + q + b <= block_count (bd_geometry D))) as [Hin|Hout].
  - assert (saturating_add u64_max lba q = lba + q) as -> by (unfold saturating_add; nia).
    eapply wp_res_mono; [eapply (rl_read _ _ HR); [done|lia|lia|done]|cbv beta|done].
    intros buf s' (Hs' & ->). rewrite length_window by nia. rewrite decide_False by lia. wp_step.
    rewrite get_range_window by (rewrite ?length_window; nia). wp_run. split; [done|].
    split; [nia|]. rewrite window_window by nia. f_equal. nia.
  - eapply wp_res_mono; [eapply (rl_outside _ _ HR); [done|unfold saturating_add, u64_max; lia|lia|]|done|cbv beta].
    + unfold saturating_add. nia.
    + intros _ s' Hs'. split; [done|]. assert (bs D * (block_count (bd_geometry D) + 1) <= bs D * (lba + q + b)) by nia. nia.
Qed.

Lemma gpt_loop_rule fuel : ∀ s bytes lba size (count max_chunk index : nat),
  rep s bytes → Forall is_byte bytes → 0 <= lba → 128 <= size <= 4096 → (count <= 1024)%nat → (0 < max_chunk)%nat →
  (count - index <= fuel)%nat → (index <= count)%nat → bs D <= u32_max →
  wp_res (gpt_loop D fuel lba (Z.to_nat size) count max_chunk index) s
    (λ l s', rep s' bytes ∧ ((index < count)%nat → lba * bs D + Z.of_nat count * size <= capacity) ∧
       l = omap (table_entry bytes (lba * bs D) size) (seq index (count - index)))
    (λ _ s', rep s' bytes ∧ capacity < lba * bs D + Z.of_nat count * size).
Proof.
  pose proof (rl_ok _ _ HR) as HD. pose proof (do_size _ _ HD) as Hb.
  induction fuel as [|fuel IH]; intros s bytes lba size count max_chunk index Hs Hby Hl Hz Hn Hm Hf Hi Hbs; cbn [gpt_loop].
  { rewrite decide_False by lia. replace (count - index)%nat with 0%nat by lia. wp_run. split; [done|]. by split; [lia|]. }
  destruct (decide (index < count)%nat) as [Hlt|];
    [|replace (count - index)%nat with 0%nat by lia; wp_run; split; [done|]; by split; [lia|]].
  pose proof (do_length _ _ HD _ _ Hs) as Hlen. set (c := ((count - index) `min` max_chunk)%nat).
  assert (0 < c)%nat by lia. assert (Z.of_nat c <= 1024) by lia. assert (0 < Z.of_nat c * size <= 1024 * 4096) by nia.
  assert (Z.of_nat (index + c) <= Z.of_nat count) by lia. assert (Z.of_nat (index + c) * size <= Z.of_nat count * size) by nia.
  wp_step. replace (Z.of_nat (index * Z.to_nat size)) with (Z.of_nat index * size) by lia. replace (Z.of_nat (c * Z.to_nat size)) with (Z.of_nat c * size) by lia.
  eapply wp_res_mono; [eapply read_lba_range_rule; [done|done|nia|lia|done]|cbv beta|cbv beta].
  2:{ intros _ s1 [Hs1 Hout]. split; [done|]. lia. }
  intros chunk s1 (Hs1 & Hin & ->). wp_step. eapply wp_lift_parse; [apply gpt_chunk_ok; [done|nia|lia|done|nia]|].
  wp_step. eapply wp_res_mono; [eapply (IH s1 bytes); try done; lia|cbv beta|done].
  intros l s2 (Hs2 & Hrest & ->). wp_run. split; [done|]. split.
  - intros _. destruct (decide (index + c < count)%nat) as [Hc|Hc]; [by apply Hrest|].
    replace count with (index + c)%nat by lia. lia.
  - rewrite Nat.add_0_r, <-omap_app. f_equal. rewrite <-seq_app. f_equal. lia.
Qed.

Lemma field_nonneg bytes off n : Forall is_byte bytes → 0 <= field bytes off n.
Proof. intros Hb. apply le_val_range. unfold window. by apply Forall_take, Forall_drop. Qed.

Lemma get_signature header : (8 <= length header)%nat → get_range header 0 8 = Some (window header 0 8).
Proof. intros H. apply (get_range_window header 0 8); lia. Qed.

Lemma parse_gpt_rule s bytes :
  rep s bytes → Forall is_byte bytes → 512 <= bs D <= u32_max →
  wp_res (parse_gpt D) s
    (λ l s', rep s' bytes ∧ gpt_table (bs D) bytes = Some l) (λ _ s', rep s' bytes ∧ gpt_table (bs D) bytes = None).
Proof.
  intros Hs Hbytes Hbs. pose proof (rl_ok _ _ HR) as HD. pose proof (do_length _ _ HD _ _ Hs) as Hlen. unfold parse_gpt, gpt_table.
  wp_step. eapply read_lba_rule; [done|done| |]; unfold GPT_HEADER_LBA; intros s1 Hs1 Hc.
  2:{ rewrite bool_decide_false by nia. done. }
  rewrite (bool_decide_true (2 * bs D <= _)) by nia. rewrite Z.mul_1_l.
  set (header := window bytes (bs D) (bs D)). assert (Z.of_nat (length header) = bs D) as Hh by (apply length_window; nia).
  unfold gpt_valid. rewrite get_signature by lia. cbn [andb].
  destruct (decide (window header 0 8 = GPT_SIGNATURE)) as [He|He].
  2:{ rewrite decide_True by congruence. rewrite (bool_decide_false _ He). wp_run. done. }
  rewrite decide_False by congruence. rewrite (bool_decide_true _ He).
  wp_step. eapply wp_lift_parse; [apply read_u64_field; lia|]. wp_step. eapply wp_lift_parse; [apply read_u32_field; lia|].
  wp_step. eapply wp_lift_parse; [apply read_u32_field; lia|]. cbn [Z.of_nat].
  change (Z.of_nat 72) with 72. change (Z.of_nat 80) with 80. change (Z.of_nat 84) with 84.
  assert (Forall is_byte header) as Hhb by (unfold header, window; by apply Forall_take, Forall_drop).
  pose proof (field_nonneg header 72 8 Hhb). pose proof (field_nonneg header 80 4 Hhb).
  set (lba := field header 72 8) in *. set (count := field header 80 4) in *. set (size := field header 84 4) in *.
  unfold GPT_ENTRY_SIZE_MIN, GPT_ENTRY_SIZE_MAX, GPT_ENTRY_COUNT_MAX. cbn [andb].
  destruct (decide (128 <= size <= 4096)) as [Hz|Hz].
  2:{ rewrite decide_True by done. rewrite (bool_decide_false _ Hz). wp_run. done. }
  rewrite decide_False by tauto. rewrite (bool_decide_true _ Hz).
  destruct (decide (0 < count <= 1024)) as [Hn|Hn].
  2:{ rewrite decide_True by lia. rewrite (bool_decide_false _ Hn). wp_run. done. }
  rewrite decide_False by lia. rewrite (bool_decide_true _ Hn). cbn [andb].
  eapply wp_res_mono; [eapply (gpt_loop_rule _ s1 bytes); try done; lia|cbv beta..].
  - intros l s2 (Hs2 & Hin & ->). split; [done|]. rewrite bool_decide_true by lia. by rewrite Nat.sub_0_r.
  - intros _ s2 (Hs2 & Hout). split; [done|]. by rewrite bool_decide_false by lia.
Qed.

Lemma mbr_slot_rule s sector slot (Q : MbrPartitionEntry → S → Prop) (Qe : unit → S → Prop) :
  (512 <= length sector)%nat → (slot < 4)%nat → Q (slot_entry sector slot) s → wp_res (mbr_slot sector slot) s Q Qe.
Proof.
  intros Hl Hs HQ. unfold mbr_slot, get_range, MBR_PARTITION_TABLE_OFFSET, MBR_PARTITION_ENTRY_SIZE. rewrite decide_True by lia. wp_step. wp_step.
  fold (slot_bytes sector slot). by eapply wp_lift_parse; [apply parse_slot|].
Qed.

Lemma extended_rule fuel : ∀ s bytes base lba index found,
  rep s bytes → Forall is_byte bytes → 512 <= bs D → 0 <= lba → 0 <= base → ebr_ends fuel (bs D) (block_count (bd_geometry D)) bytes base lba = true →
  wp_res (parse_extended_partitions D fuel base lba index found) s (λ _ s', rep s' bytes) (λ _ s', rep s' bytes).
Proof.
  induction fuel as [|fuel IH]; intros s bytes base lba index found Hs Hb Hbs Hl Hbase Hends; [done|]. cbn [ebr_ends] in Hends. cbn [parse_extended_partitions].
  pose proof (rl_ok _ _ HR) as HD. pose proof (do_length _ _ HD _ _ Hs) as Hlen.
  wp_step. eapply read_lba_rule; [done|done| |done]. intros s1 Hs1 Hin. set (sector := window bytes (lba * bs D) (bs D)) in *.
  assert (Z.of_nat (length sector) = bs D) as Hsec by (apply length_window; nia).
  assert (Forall is_byte sector) as Hsb by (unfold sector, window; by apply Forall_take, Forall_drop).
  destruct (has_signature sector); cbn [negb] in *; [|by wp_run]. rewrite (proj2 (Z.leb_gt _ _)) in Hends by lia. cbn [orb] in Hends.
  wp_step. apply mbr_slot_rule; [lia|lia|]. case_decide; (wp_step; apply mbr_slot_rule; [lia|lia|]; case_decide as Hc; [by wp_run|];
    rewrite (proj2 (Z.eqb_neq _ _) Hc) in Hends; destruct (is_extended (slot_entry sector 1)); cbn [negb orb] in *; [|by wp_run];
    pose proof (slot_first_nonneg sector 1 Hsb ltac:(lia) ltac:(lia)); apply IH; try done; unfold saturating_add, u64_max; lia).
Qed.

Lemma mbr_slots_rule fuel slots : ∀ s bytes index found,
  rep s bytes → Forall is_byte bytes → 512 <= bs D → 0 < block_count (bd_geometry D) → Forall (λ slot, (slot < 4)%nat) slots →
  (∀ slot, slot ∈ slots → let e := slot_entry (window bytes 0 (bs D)) slot in
     is_extended e = true → ebr_ends fuel (bs D) (block_count (bd_geometry D)) bytes (mbr_first_lba e) (mbr_first_lba e) = true) →
  wp_res (mbr_slots D fuel (window bytes 0 (bs D)) slots index found) s (λ _ s', rep s' bytes) (λ _ s', rep s' bytes).
Proof.
  induction slots as [|slot slots IH]; intros s bytes index found Hs Hb Hbs Hc Hlt Hends; cbn [mbr_slots]; [by wp_run|].
  apply Forall_cons in Hlt as [Hslot Hlt]. pose proof (rl_ok _ _ HR) as HD. pose proof (do_length _ _ HD _ _ Hs) as Hlen.
  assert (Z.of_nat (length (window bytes 0 (bs D))) = bs D) as Hsec by (apply length_window; nia).
  assert (Forall is_byte (window bytes 0 (bs D))) as Hsb by (unfold window; by apply Forall_take, Forall_drop).
  assert (∀ slot', slot' ∈ slots → let e := slot_entry (window bytes 0 (bs D)) slot' in
     is_extended e = true → ebr_ends fuel (bs D) (block_count (bd_geometry D)) bytes (mbr_first_lba e) (mbr_first_lba e) = true) as Hends'.
  { intros slot' Hin. apply Hends. by right. }
  wp_step. apply mbr_slot_rule; [lia|lia|]. case_decide; [by apply IH|]. destruct (is_extended _) eqn:He; [|by apply IH].
  pose proof (slot_first_nonneg _ slot Hsb ltac:(lia) ltac:(lia)).
  wp_step. eapply wp_res_mono; [eapply extended_rule; try done; apply Hends; [by left|done]|cbv beta|done].
  intros [i f] s1 Hs1. by apply IH.
Qed.

Lemma attempt_rule {A} (m : MP A) s (Q : A → S → Prop) (Qe : unit → S → Prop) (R : option A → S → Prop) (Re : unit → S → Prop) :
  wp_res m s Q Qe → (∀ a s', Q a s' → R (Some a) s') → (∀ s', Qe () s' → R None s') → wp_res (attempt m) s R Re.
Proof. unfold wp_res, wp, attempt. destruct (m s) as [[a|[]| |] s']; cbn; auto. Qed.

Lemma parse_mbr_rule s bytes fuel :
  rep s bytes → Forall is_byte bytes → 0 < block_count (bd_geometry D) → 512 <= bs D →
  chains_end fuel (bs D) (block_count (bd_geometry D)) bytes = true →
  wp_res (parse_mbr D fuel) s (λ _ s', rep s' bytes) (λ _ s', rep s' bytes).
Proof.
  intros Hs Hb Hc Hbs Hends. unfold parse_mbr. wp_step. eapply read_lba_rule; [done|done| |done]. intros s2 Hs2 _. rewrite Z.mul_0_l.
  destruct (has_signature _); [|by wp_run].
  apply mbr_slots_rule; try done; [by repeat constructor; lia|]. intros slot Hin e He. unfold chains_end in Hends. rewrite List.forallb_forall in Hends.
  specialize (Hends slot). rewrite <-list_elem_of_In in Hends. specialize (Hends Hin). cbn zeta in Hends. fold e in Hends. by rewrite He in Hends.
Qed.

Lemma parse_partitions_rule s bytes fuel :
  rep s bytes → Forall is_byte bytes → 0 < block_count (bd_geometry D) → bs D <= u32_max →
  chains_end fuel (bs D) (block_count (bd_geometry D)) bytes = true →
  wp_res (parse_partitions D fuel) s (λ l s', rep s' bytes ∧ l ≠ [] ∧ 512 <= bs D) (λ _ s', s' = s ∧ bs D < 512).
Proof.
  intros Hs Hb Hc Hbs Hends. unfold parse_partitions. fold (bs D). case_decide as H512; [by wp_run|].
  unfold is_valid. fold (bs D). rewrite bool_decide_true by lia. cbn [negb].
  assert (∀ s1, rep s1 bytes →
    wp_res (mbr ← attempt (parse_mbr D fuel); match mbr with Some (e :: l) => mret (e :: l) | _ => mret [whole_device_partition (bd_geometry D)] end) s1
      (λ l s', rep s' bytes ∧ l ≠ [] ∧ 512 <= bs D) (λ _ s', s' = s ∧ bs D < 512)) as Hmbr.
  { intros s1 Hs1. wp_step. eapply attempt_rule; [apply (parse_mbr_rule s1 bytes); try done; lia|..]; cbv beta.
    - intros [|e l] s2 Hs2; wp_run; (split; [done|]; split; [done|lia]).
    - intros s2 Hs2. wp_run. split; [done|]. split; [done|lia]. }
  wp_step. eapply attempt_rule; [apply (parse_gpt_rule s bytes); try done; lia|..]; cbv beta; [|by intros s1 [Hs1 _]; apply Hmbr].
  intros [|e l] s1 [Hs1 _]; [by apply Hmbr|]. wp_run. split; [done|]. split; [done|lia].
Qed.
End parse.

(** ** Disks in memory *)

Lemma ram_reliable g :
  0 < block_size g → 0 <= block_count g → block_size g * block_count g <= u64_max → reliable (ram_device g) (ram_rep g).
Proof.
  intros Hs Hc Hcap. constructor; [by apply ram_ok|..]; unfold bs; cbn [ram_device bd_geometry bd_read];
    intros s bytes block n [-> Hl] Hb Hn Hin; unfold wp_res, wp; [rewrite decide_True by nia|rewrite decide_False by nia]; done.
Qed.

Definition zeros (n : nat) : list Z := replicate n 0.

(** A disk of five sectors with a GUID partition table of two entries, the
    second of which is used. *)
Definition gpt_disk : list Z :=
  zeros 512 ++
  (GPT_SIGNATURE ++ zeros 64 ++ le_bytes 8 2 ++ le_bytes 4 2 ++ le_bytes 4 128 ++ zeros 424) ++
  (zeros 128 ++ replicate 16 1 ++ zeros 16 ++ le_bytes 8 3 ++ le_bytes 8 4 ++ zeros 80) ++ zeros 256 ++
  zeros 1024.

(** A disk whose extended partition names itself as its successor. *)
Definition ebr_sector : list Z :=
  zeros 462 ++ (zeros 4 ++ [0x05] ++ zeros 3 ++ le_bytes 4 0 ++ le_bytes 4 1) ++ zeros 32 ++ [0x55; 0xaa].
Definition cyclic_disk : list Z := zeros 512 ++ ebr_sector.
Definition two_sectors : BlockDevice (list Z) := ram_device (mkGeometry 512 2).

(** The loop over a chain of extended partitions does not end on such a disk,
    however long it runs. *)
Lemma cyclic_chain_diverges fuel index found :
  parse_extended_partitions two_sectors fuel 1 1 index found cyclic_disk = (Diverge, cyclic_disk).
Proof.
  induction fuel as [|fuel IH]; [done|]. cbn [parse_extended_partitions].
  assert (read_lba two_sectors 1 cyclic_disk = (Ok ebr_sector, cyclic_disk)) as Hr by (vm_compute; reflexivity).
  assert (∀ s : list Z, mbr_slot ebr_sector 0 s = (Ok (mkMbr 0 0 0), s)) as H0 by (intros s; vm_compute; reflexivity).
  assert (∀ s : list Z, mbr_slot ebr_sector 1 s = (Ok (mkMbr 5 0 1), s)) as H1 by (intros s; vm_compute; reflexivity).
  assert (has_signature ebr_sector = true) as Hsig by (vm_compute; reflexivity).
  unfold mbind, M_bind. rewrite Hr, Hsig. cbn [negb]. rewrite H0. cbn [mbr_block_count]. rewrite decide_False by (intros H; by apply H). rewrite H1.
  cbn [mbr_block_count mbr_first_lba]. rewrite decide_False by done.
  assert (is_extended (mkMbr 5 0 1) = true) as -> by (vm_compute; reflexivity). cbn [negb].
  assert (saturating_add u64_max 1 0 = 1) as -> by (vm_compute; reflexivity). exact IH.
Qed.

(** ** Claims *)

(** C24. On a disk that answers every read of whole blocks inside it with the
    bytes it holds, fails every read outside it, and has blocks of 512 bytes
    to 4 GiB, the parser of GUID partition tables always returns.  What it
    returns is the table as the byte offsets of the UEFI layout define it
    ([gpt_table], which shares no code with the parser): one entry for every
    slot with a type GUID other than zero, a first block other than zero and a
    last block that is not before the first, numbered by its position from
    one, with its first block and the number of blocks to its last; and it
    fails exactly when there is no header block, the signature, entry size or
    count is out of range, or the table does not lie on the disk as a whole. *)
Theorem gpt_parse_exact {S} (D : BlockDevice S) rep s bytes :
  reliable D rep → rep s bytes → Forall is_byte bytes → 512 <= bs D <= u32_max →
  match parse_gpt D s with
  | (Ok l, s') => rep s' bytes ∧ gpt_table (bs D) bytes = Some l
  | (Err _, s') => rep s' bytes ∧ gpt_table (bs D) bytes = None
  | _ => False
  end.
Proof.
  intros HR Hs Hb Hbs. pose proof (parse_gpt_rule D rep HR s bytes Hs Hb Hbs) as H. unfold wp_res, wp in H.
  by destruct (parse_gpt D s) as [[| | |] s'].
Qed.

Definition is_byteb (b : Z) : bool := (0 <=? b) && (b <? 256).
Lemma bytes_check l : forallb is_byteb l = true → Forall is_byte l.
Proof. rewrite List.forallb_forall, Forall_forall. intros H b Hb. apply list_elem_of_In, H in Hb. unfold is_byteb, is_byte in *. lia. Qed.

Lemma gpt_parse_exact_witness :
  parse_gpt (ram_device (mkGeometry 512 5)) gpt_disk = (Ok [mkEntry 2 3 2], gpt_disk) ∧ gpt_table 512 gpt_disk = Some [mkEntry 2 3 2].
Proof.
  assert (parse_gpt (ram_device (mkGeometry 512 5)) gpt_disk = (Ok [mkEntry 2 3 2], gpt_disk)) as Hr by (vm_compute; reflexivity).
  split; [exact Hr|].
  pose proof (gpt_parse_exact (ram_device (mkGeometry 512 5)) (ram_rep (mkGeometry 512 5)) gpt_disk gpt_disk) as H. rewrite Hr in H.
  apply H; [apply ram_reliable; vm_compute; congruence|split; vm_compute; reflexivity|apply bytes_check; vm_compute; reflexivity|
    split; vm_compute; congruence].
Defined.

(** Looking for partitions always returns: on every disk, whatever bytes it
    holds, the parsers neither panic nor read forever, provided that every
    chain of extended partitions ends within the given number of sectors, and
    at least one partition is found (the whole device if there is no table);
    only sectors of less than 512 bytes are refused. *)
Theorem partition_scan_total {S} (D : BlockDevice S) rep s bytes fuel :
  reliable D rep → rep s bytes → Forall is_byte bytes → 0 < block_count (bd_geometry D) → bs D <= u32_max →
  chains_end fuel (bs D) (block_count (bd_geometry D)) bytes = true →
  match parse_partitions D fuel s with
  | (Ok l, s') => rep s' bytes ∧ l ≠ [] ∧ 512 <= bs D
  | (Err _, s') => s' = s ∧ bs D < 512
  | _ => False
  end.
Proof.
  intros HR Hs Hb Hc Hbs Hends. pose proof (parse_partitions_rule D rep HR s bytes fuel Hs Hb Hc Hbs Hends) as H. unfold wp_res, wp in H.
  by destruct (parse_partitions D fuel s) as [[| | |] s'].
Qed.

(** A disk with a chain of one extended partition. *)
Definition mbr_disk : list Z :=
  (zeros 446 ++ (zeros 4 ++ [0x83] ++ zeros 3 ++ le_bytes 4 1 ++ le_bytes 4 1) ++ (zeros 4 ++ [0x05] ++ zeros 3 ++ le_bytes 4 2 ++ le_bytes 4 2) ++ zeros 32 ++ [0x55; 0xaa]) ++
  zeros 512 ++
  (zeros 446 ++ (zeros 4 ++ [0x83] ++ zeros 3 ++ le_bytes 4 1 ++ le_bytes 4 1) ++ zeros 48 ++ [0x55; 0xaa]) ++ zeros 512.

Lemma partition_scan_total_witness :
  (parse_partitions (ram_device (mkGeometry 512 4)) 3 mbr_disk).1 = Ok [mkEntry 1 1 1; mkEntry 2 3 1] ∧
  match parse_partitions (ram_device (mkGeometry 512 4)) 3 mbr_disk with
  | (Ok l, s') => ram_rep (mkGeometry 512 4) s' mbr_disk ∧ l ≠ [] ∧ 512 <= 512
  | (Err _, s') => s' = mbr_disk ∧ 512 < 512
  | _ => False
  end.
Proof.
  split; [vm_compute; reflexivity|].
  apply (partition_scan_total (ram_device (mkGeometry 512 4)) (ram_rep (mkGeometry 512 4)) mbr_disk mbr_disk 3);
    [apply ram_reliable; vm_compute; congruence|split; vm_compute; reflexivity|apply bytes_check; vm_compute; reflexivity|
     vm_compute; reflexivity|vm_compute; congruence|vm_compute; reflexivity].
Defined.
