(* ===== verification/ExecProof.v ===== *)
(** * Programs to execute

    Models [prepare_exec] of [aether-kernel/src/rootfs/mod.rs]: the path is
    followed through symbolic links, the first bytes of the file choose the
    format, and a script ([#!]) is replaced by its interpreter.

    Rust strings are valid UTF-8; [str::from_utf8], [trim] and
    [split_whitespace] of the standard library are modelled on code points.
    Files in shared memory are read through the frames of an allocator. *)

From Stdlib Require Import Ascii String.
From S2P Require Import Prelude Frame Path Poll Errno MemFile Node Namespace Rootfs NodeProof LinkProof LookupProof RootfsProof RootfsCalls RootfsTheorems.

Open Scope list_scope.

(** ** UTF-8 *)

Definition in_range (lo hi b : Z) : bool := (lo <=? b) && (b <=? hi).
Definition continuation (b : Z) : bool := in_range 0x80 0xbf b.

(** The first code point and its bytes; [None] when the bytes are not UTF-8. *)
Definition utf8_next (bytes : list Z) : option (Z * list Z) :=
  match bytes with
  | [] => None
  | b0 :: rest =>
      if in_range 0 0x7f b0 then Some (b0, [b0])
      else
        match rest with
        | [] => None
        | b1 :: rest1 =>
            if in_range 0xc2 0xdf b0 then
              if continuation b1 then Some (Z.lor (Z.shiftl (Z.land b0 0x1f) 6) (Z.land b1 0x3f), [b0; b1]) else None
            else
              match rest1 with
              | [] => None
              | b2 :: rest2 =>
                  if in_range 0xe0 0xef b0 then
                    if in_range (if b0 =? 0xe0 then 0xa0 else 0x80) (if b0 =? 0xed then 0x9f else 0xbf) b1 && continuation b2
                    then Some (Z.lor (Z.lor (Z.shiftl (Z.land b0 0x0f) 12) (Z.shiftl (Z.land b1 0x3f) 6)) (Z.land b2 0x3f), [b0; b1; b2])
                    else None
                  else
                    match rest2 with
                    | [] => None
                    | b3 :: _ =>
                        if in_range 0xf0 0xf4 b0 && in_range (if b0 =? 0xf0 then 0x90 else 0x80) (if b0 =? 0xf4 then 0x8f else 0xbf) b1
                           && continuation b2 && continuation b3
                        then Some (Z.lor (Z.lor (Z.shiftl (Z.land b0 0x07) 18) (Z.shiftl (Z.land b1 0x3f) 12))
                                         (Z.lor (Z.shiftl (Z.land b2 0x3f) 6) (Z.land b3 0x3f)), [b0; b1; b2; b3])
                        else None
                    end
              end
        end
  end.

(** [core::str::from_utf8]: the characters, each with its bytes *)
Fixpoint from_utf8 (fuel : nat) (bytes : list Z) : option (list (Z * list Z)) :=
  match bytes, fuel with
  | [], _ => Some []
  | _, O => None
  | _, S fuel' =>
      '(c, bs) ← utf8_next bytes;
      rest ← from_utf8 fuel' (drop (length bs) bytes);
      Some ((c, bs) :: rest)
  end.

(** [char::is_whitespace] *)
Definition is_whitespace (c : Z) : bool :=
  in_range 0x09 0x0d c || (c =? 0x20) || (c =? 0x85) || (c =? 0xa0) || (c =? 0x1680) || in_range 0x2000 0x200a c ||
  (c =? 0x2028) || (c =? 0x2029) || (c =? 0x202f) || (c =? 0x205f) || (c =? 0x3000).

(** The pieces between whitespace that are not empty: [trim().split_whitespace()] *)
Fixpoint split_whitespace (current : list Z) (chars : list (Z * list Z)) : list (list Z) :=
  match chars with
  | [] => if decide (current = []) then [] else [current]
  | (c, bs) :: rest =>
      if is_whitespace c then
        if decide (current = []) then split_whitespace [] rest else current :: split_whitespace [] rest
      else split_whitespace (current ++ bs) rest
  end.

Definition to_str (bytes : list Z) : str := (λ b, ascii_of_N (Z.to_N b)) <$> bytes.

(** [iter().position(|byte| *byte == b'\n').unwrap_or(len)] and the slice *)
Fixpoint first_line (bytes : list Z) : list Z :=
  match bytes with
  | [] => []
  | b :: rest => if decide (b = 10) then [] else b :: first_line rest
  end.

Definition parse_shebang (bytes : list Z) : option (str * option str) :=
  match bytes with
  | 35 :: 33 :: rest =>
      let line := first_line rest in
      chars ← from_utf8 (length line) line;
      match split_whitespace [] chars with
      | [] => None
      | interpreter :: parts => Some (to_str interpreter, to_str <$> head parts)
      end
  | _ => None
  end.

(** ** The plan *)

Inductive ExecFormat := Flat | Elf.

Record ExecPlan := mkPlan {
  requested_path : str;
  exec_path : str;
  plan_argv : list str;
  plan_envp : list str;
  plan_node : NodeRef;
  plan_format : ExecFormat;
}.

Section exec.
Context {St : Type} {F : FrameAllocator St} (frames : St) (memory : PhysFrame → list Z).
Context (lookup_virtual : str → option (SysResult NodeRef)).

(** [FileOperations::read] of the objects behind nodes *)
Definition object_read (o : FileObject) (offset n : Z) : outcome FsError (list Z) :=
  match o with
  | SharedObject f => (shm_read offset n (mkShmWorld f frames memory)).1
  | MutableObject f => (fo_read offset n f).1
  | CowObject f => (fo_read offset n f).1
  | ConstObject f => (fo_read offset n f).1
  end.

Definition file_read (object offset len : Z) : MF (list Z) := λ h,
  match files h !! object with
  | Some o => (object_read o offset len, h)
  | None => (Panic, h)
  end.

(** [Inode::read] *)
Definition node_read (n : NodeRef) (offset len : Z) : MF (list Z) :=
  object ← node_file n;
  object ← mok_or object NotFile;
  file_read object offset len.

Definition read_prefix (n : NodeRef) (len : Z) : MR (list Z) := on_heap (node_read n 0 len).

(** [depth > 8] is an error: [left] is [9 - depth]. *)
Fixpoint resolve_exec_path_inner (left : nat) (fs : Z) (path : str) : MR str :=
  match left with
  | O => mthrow SysErr.Loop
  | S left' =>
      namespace_path ← view_path fs path;
      ns ← namespace_of fs;
      node ← lookup_namespace_path ns namespace_path false;
      k ← on_heap (kind node);
      if decide (k = Symlink) then
        target ← on_heap (symlink_target node);
        target ← mok_or target SysErr.Inval;
        resolve_exec_path_inner left' fs (resolve_symlink_path (parent_path namespace_path) target)
      else mret namespace_path
  end.

Definition resolve_exec_path (fs : Z) (path : str) : MR str := resolve_exec_path_inner 9 fs path.

Definition ELF_MAGIC : list Z := [0x7f; 0x45; 0x4c; 0x46].

Definition starts_with (prefix bytes : list Z) : bool := bool_decide (take (length prefix) bytes = prefix).

(** The arguments of the interpreter *)
Definition script_argv (interpreter : str) (argument : option str) (path : str) (argv : list str) : list str :=
  [interpreter] ++ option_list argument ++ [path] ++ tail argv.

(** [depth > 4] is an error: [left] is [5 - depth]. *)
Fixpoint prepare_exec_inner (left : nat) (fs : Z) (path : str) (argv envp : list str) : MR ExecPlan :=
  match left with
  | O => mthrow SysErr.Inval
  | S left' =>
      exec_path ← resolve_exec_path fs path;
      node ← lookup_in lookup_virtual fs exec_path true;
      k ← on_heap (kind node);
      if decide (k ≠ File) then mthrow SysErr.Inval
      else
        prefix ← read_prefix node 256;
        match parse_shebang prefix with
        | Some (interpreter, argument) =>
            prepare_exec_inner left' fs interpreter (script_argv interpreter argument path argv) envp
        | None =>
            mret (mkPlan path exec_path argv envp node (if starts_with ELF_MAGIC prefix then Elf else Flat))
        end
  end.

Definition prepare_exec (fs : Z) (path : str) (argv envp : list str) : MR ExecPlan := prepare_exec_inner 5 fs path argv envp.
End exec.

(** ** Programs to execute: theorems

    Preparing a program returns what the chain of its interpreters says, which
    [runs] defines; the first line of a script is parsed as it was written. *)

Open Scope list_scope.

Implicit Types (ns : MountNamespace) (w : world) (fs : Z) (path : str).

(** ** The first line of a script *)

(** A byte of a word: printable ASCII. *)
Definition word_byte (b : Z) : Prop := 0x21 <= b <= 0x7e.
Definition word (l : list Z) : Prop := l ≠ [] ∧ Forall word_byte l.
(** Blanks between the words. *)
Definition blanks (l : list Z) : Prop := Forall (λ b, b = 0x20 ∨ b = 0x09) l.
Definition ascii_bytes (l : list Z) : Prop := Forall (λ b, 0 <= b <= 0x7f) l.

Definition ascii_chars (l : list Z) : list (Z * list Z) := (λ b, (b, [b])) <$> l.

Lemma from_utf8_ascii l : ascii_bytes l → ∀ fuel, (length l <= fuel)%nat → from_utf8 fuel l = Some (ascii_chars l).
Proof.
  induction 1 as [|b l Hb Hl IH]; intros fuel Hf; [by destruct fuel|]. destruct fuel as [|fuel]; simpl in *; [lia|].
  unfold in_range. replace (0 <=? b) with true by lia. replace (b <=? 127) with true by lia. simpl. rewrite drop_0, IH by lia. done.
Qed.

Lemma whitespace_word b : word_byte b → is_whitespace b = false.
Proof. unfold word_byte, is_whitespace, in_range. intros Hb. repeat (apply orb_false_iff; split); lia. Qed.

Lemma whitespace_blank b : b = 0x20 ∨ b = 0x09 → is_whitespace b = true.
Proof. by intros [-> | ->]. Qed.

Lemma split_word cur l rest : Forall word_byte l → split_whitespace cur (ascii_chars l ++ rest) = split_whitespace (cur ++ l) rest.
Proof.
  intros Hl. revert cur. induction Hl as [|b l Hb Hl IH]; intros cur; simpl; [by rewrite app_nil_r|].
  rewrite whitespace_word by done. rewrite IH. by rewrite <-app_assoc.
Qed.

Lemma split_blanks l rest : blanks l → split_whitespace [] (ascii_chars l ++ rest) = split_whitespace [] rest.
Proof.
  induction 1 as [|b l Hb Hl IH]; simpl; [done|]. rewrite whitespace_blank by done. exact IH.
Qed.

Lemma split_word_end cur l rest :
  cur ≠ [] → l ≠ [] → blanks l → split_whitespace cur (ascii_chars l ++ rest) = cur :: split_whitespace [] rest.
Proof.
  intros Hc Hl Hb. destruct l as [|b l]; [done|]. apply Forall_cons in Hb as [Hb Hbl]. simpl. rewrite whitespace_blank, decide_False by done.
  by rewrite split_blanks.
Qed.

Lemma first_line_app l rest : 10 ∉ l → first_line (l ++ 10 :: rest) = l.
Proof.
  induction l as [|b l IH]; intros Hn; simpl; [done|]. apply not_elem_of_cons in Hn as [? ?]. rewrite decide_False by done. by rewrite IH.
Qed.

Lemma word_ascii l : Forall word_byte l → ascii_bytes l.
Proof. intros H. eapply Forall_impl; [exact H|]. unfold word_byte. intros; lia. Qed.
Lemma blanks_ascii l : blanks l → ascii_bytes l.
Proof. intros H. eapply Forall_impl; [exact H|]. intros; simpl in *; lia. Qed.
Lemma word_newline l : Forall word_byte l → 10 ∉ l.
Proof. intros H Hin. rewrite Forall_forall in H. apply H in Hin. unfold word_byte in Hin. lia. Qed.
Lemma blanks_newline l : blanks l → 10 ∉ l.
Proof. intros H Hin. unfold blanks in H. rewrite Forall_forall in H. apply H in Hin. lia. Qed.

(** [#! interpreter argument] with any blanks around the words *)
Definition shebang_line (b1 interp b2 arg b3 : list Z) : list Z := b1 ++ interp ++ b2 ++ arg ++ b3.

Lemma parse_shebang_line b1 interp b2 arg b3 rest :
  blanks b1 → blanks b2 → blanks b3 → word interp → (word arg ∧ b2 ≠ [] ∨ arg = []) →
  parse_shebang ([35; 33] ++ shebang_line b1 interp b2 arg b3 ++ 10 :: rest) =
    Some (to_str interp, if decide (arg = []) then None else Some (to_str arg)).
Proof.
  intros H1 H2 H3 [Hi Hiw] Harg. assert (Forall word_byte arg) as Haw by (destruct Harg as [[[_ ?] _]| ->]; [done|constructor]).
  unfold parse_shebang. cbn [app]. unfold shebang_line. rewrite first_line_app.
  2:{ rewrite !not_elem_of_app. repeat split; auto using blanks_newline, word_newline. }
  rewrite from_utf8_ascii; [|unfold ascii_bytes; rewrite !Forall_app; repeat split; fold ascii_bytes; first [by apply blanks_ascii|by apply word_ascii]|done].
  cbn [mbind option_bind]. unfold ascii_chars. rewrite !fmap_app. fold (ascii_chars b1) (ascii_chars interp) (ascii_chars b2) (ascii_chars arg) (ascii_chars b3).
  rewrite split_blanks, split_word by done. rewrite app_nil_l.
  assert (split_whitespace [] (ascii_chars b3) = []) as Hb3 by (rewrite <-(app_nil_r (ascii_chars b3)), split_blanks by done; done).
  destruct Harg as [[[Ha _] Hb2]| ->].
  - rewrite split_word_end, split_word by done. rewrite app_nil_l, decide_False by done.
    destruct b3 as [|x b3]; [cbn; by rewrite decide_False|]. rewrite <-(app_nil_r (ascii_chars (x :: b3))), split_word_end by done. done.
  - cbn [ascii_chars fmap list_fmap app]. rewrite decide_True by done.
    destruct (b2 ++ b3) as [|x l] eqn:Hl.
    + apply app_eq_nil in Hl as [-> ->]. cbn. by rewrite decide_False.
    + assert (ascii_chars b2 ++ ascii_chars b3 = ascii_chars (x :: l) ++ []) as -> by (unfold ascii_chars; rewrite <-fmap_app, Hl, app_nil_r; done).
      rewrite split_word_end; [done|done|done|]. rewrite <-Hl. by apply Forall_app.
Qed.

(** ** Preparing a program *)

Section prepare.
Context {St : Type} {F : FrameAllocator St} (frames : St) (memory : PhysFrame → list Z).



(** ** The specification

    A chain of files in the tree of heap [h] under the mounts [ns], for a
    process in [s].  [leads n path q]: the last component of [path] is followed
    through [n] symbolic links to the path [q] of something that is not a
    link. *)

Section chain.
Context (h : heap) (ns : MountNamespace) (s : ProcessFsState).





End chain.






End prepare.

(** ** Claims *)


(** A script: the interpreter runs with its name, its argument if it has one,
    the path of the script and the rest of the arguments. *)
Theorem exec_script_interpreter {St} {F : FrameAllocator St} (frames : St) (memory : PhysFrame → list Z)
    fs w path argv envp left p w1 n w2 b1 interp b2 arg b3 rest :
  resolve_exec_path fs path w = (Ok p, w1) → lookup_in no_virtual fs p true w1 = (Ok n, w2) → on_heap (kind n) w2 = (Ok File, w2) →
  read_prefix frames memory n 256 w2 = (Ok ([35; 33] ++ shebang_line b1 interp b2 arg b3 ++ 10 :: rest), w2) →
  blanks b1 → blanks b2 → blanks b3 → word interp → (word arg ∧ b2 ≠ [] ∨ arg = []) →
  prepare_exec_inner frames memory no_virtual (S left) fs path argv envp w =
  prepare_exec_inner frames memory no_virtual left fs (to_str interp)
    ([to_str interp] ++ (if decide (arg = []) then [] else [to_str arg]) ++ [path] ++ tail argv) envp w2.
Proof.
  intros H1 H2 H3 H4 Hb1 Hb2 Hb3 Hi Ha. cbn [prepare_exec_inner]. unfold mbind, M_bind. rewrite H1, H2, H3.
  rewrite decide_False by (by intros []). rewrite H4, parse_shebang_line by done. unfold script_argv. by destruct (decide (arg = [])).
Qed.

(** ** A program in [/p] and in [/jail/p], and a script [/s] for it *)

#[local] Instance no_frames : FrameAllocator unit := {
  fa_alloc _ := mthrow OutOfMemory; fa_retain _ := mthrow OutOfMemory; fa_release _ _ := mthrow OutOfMemory; fa_ref_count _ := mthrow OutOfMemory }.

Definition exec_bytes : list Z := ELF_MAGIC ++ [2; 1; 1].
(** [#! /p -x], a newline and a line that is not looked at *)
Definition script_bytes : list Z := [35; 33; 32; 47; 112; 32; 45; 120; 10; 120].

Definition exec_heap : heap :=
  mkHeap (<[0 := Inode_new (DirectoryNode SLASH (metadata_directory 0x41ed 1) (<[lit "jail" := 1]> (<[lit "s" := 3]> {[lit "p" := 2]})))]>
           (<[1 := Inode_new (DirectoryNode (lit "jail") (metadata_directory 0x41ed 2) {[lit "p" := 2]})]>
             (<[2 := Inode_new (FileNode (lit "p") File (with_nlink 2 (metadata_file 0x81ed 3)) 0)]>
               {[3 := Inode_new (FileNode (lit "s") File (metadata_file 0x81ed 4) 1)]}))) 4 5
    (<[0 := MutableObject (MutableMemoryFile_new exec_bytes)]> {[1 := MutableObject (MutableMemoryFile_new script_bytes)]}) 2.
Definition exec_world (root : str) : world :=
  mkRootfs exec_heap {[0 := demo_ns]} {[0 := mkFsState 0 (mkLocation root 0) (mkLocation root 0)]} 1 2 [].






(** The path that [resolve_exec_path] returns is one of the namespace, and is
    then looked up as a path of the process: below another root than [/] the
    root is put in front of it twice, and the program is not found. *)
Lemma exec_below_root_fails :
  let w := exec_world (lit "/jail") in
  match (lookup_in no_virtual 0 (lit "/p") true w).1, (prepare_exec () (λ _, []) no_virtual 0 (lit "/p") [lit "p"] [] w).1 with
  | Ok _, Err e => e = SysErr.NoEnt
  | _, _ => False
  end.
Proof. vm_compute. reflexivity. Qed.
